(* ===== verification/_CoqProject ===== *)
-Q . S2P
Prelude.v
LruCache.v
ContextShift.v
ContextStrategy.v
PromptPipeline.v
PromptPostProcessing.v
KernelStream.v
KernelSession.v
Codec.v
Json.v
Frames.v
Uuid.v
Capabilities.v
ScoreHeap.v
Bpe.v
Tokenizer.v
CharacterCards.v
ResponseStream.v
RuntimeClient.v
HostNetwork.v
HostGates.v
EventRing.v
HandleTables.v
SocketHandles.v
ProcessHandles.v
Gestures.v
ProviderStream.v
Messages.v
Generate.v
ModuleGraph.v
Broker.v
Supervisor.v
Semver.v
Cron.v
Jobs.v
Governor.v
Services.v
Events.v
Macros.v
PromptAssembly.v
PromptAudit.v
Instruct.v
