(* ===== verification/Prelude.v ===== *)
(** * NeoTavern: a verification development of its program logic

    NeoTavern is a chat front end for language models: a server (apps/server)
    that keeps characters, chats and plugins and assembles the prompts of a
    generation, a web client (apps/web) that runs plugins in sandboxes, and
    shared packages (packages/).  This library models, in shallow embedding, the
    parts that decide something: how a prompt is made to fit its budget and
    counted in tokens, how a reply is streamed from a provider and saved, how the
    host and a plugin talk over a port or a pipe, and how the host schedules,
    routes and limits what plugins do.

    ** How the parts interact

    A generation request assembles messages from the character, the persona, the
    history and the template ([PromptAssembly], whose texts are expanded by
    [Macros]), lets a context strategy shrink them ([ContextShift],
    [ContextStrategy]), hands them to the plugins' interceptors and restores the
    budget ([PromptPipeline]), and normalizes the roles for the provider
    ([PromptPostProcessing]) or renders one text by the templates of an
    [Instruct] format; [PromptAudit] reports what became of every message.
    Budgets are counted in tokens by [Tokenizer], which merges pieces with [Bpe]
    over the [ScoreHeap]. The route of the generation ([Generate]) sends the
    prompt to a provider ([ProviderStream]), relays its events and saves the
    reply in the tables of [Messages], whose rows get their
    keys from [Uuid].  Characters enter and leave the program as cards
    ([CharacterCards], over the texts of [Json] and the encodings of [Codec]).

    The code of a plugin is checked and linked as a [ModuleGraph] and its rights
    are what the user granted ([Capabilities]).  Its workers run in a runtime
    process under a [Supervisor], whose memory and time the [Governor] of the server
    watches; their calls are forwarded by the [Broker], and large answers come as a
    [ResponseStream].
    The server talks to the runtime process through the [RuntimeClient], whose
    bytes are the [Frames] of the pipe.  What the host then does for a plugin passes
    the policy of the network ([HostNetwork]) and the gates of files, queries and
    programs ([HostGates]); it keeps the events between plugins in an [EventRing],
    and sockets and processes as handles ([SocketHandles], [ProcessHandles], over the
    tables of [HandleTables]).  In the browser a plugin is connected to its host by a
    session ([KernelSession]) whose byte streams are [KernelStream]; on top of a
    session the host serves events of the app ([Events]) and calls between
    plugins ([Services]).  The server keeps the jobs of plugins ([Jobs], which
    uses the cron engine [Cron] through the class [Jobs.CronEngine]) and resolves
    plugin dependencies with [Semver].  [LruCache] is the cache of shared code.

    ** Files and sources

    Each file opens with what it holds; the names below are files of this library.

    - [Prelude]: outcomes of calls that may throw, insertion-ordered maps (a
      JavaScript [Map] as its list of entries), strings as characters, stable
      sorting, orders as the class [CmpOk], decimal numerals, and the tactics
      [bools], [guards], [case_goal] and [case_hyp].
    - [LruCache]: packages/shared/src/cache.ts, class [LruCache]; [get], [set],
      [delete], [clear] and the in-flight table of [getOrComputeAsync] as separate
      steps.
    - [ContextShift]: apps/server/src/pipeline/contextShift.ts, [shiftContext]
      and its helpers.  Messages are objects with an identity.
    - [ContextStrategy]: the same file, the built-in strategies, the extractive
      summary and the registry [ContextStrategyRegistry].
    - [PromptPipeline]: apps/server/src/pipeline/promptPipeline.ts, the context
      stages, the interceptors and [mergeInChatPrompts].
    - [Macros]: packages/shared/src/macros.ts, [replaceMacros]; its two regular
      expressions are matchers on the characters, the random source an argument.
    - [PromptAssembly]: apps/server/src/pipeline/promptPipeline.ts,
      [assemblePromptMessages] and its journal, with the templates of
      packages/contracts/src/promptTemplate.ts.
    - [PromptPostProcessing]: apps/server/src/pipeline/promptPostProcessing.ts;
      [PromptAudit], [Instruct]: promptAudit.ts and instruct.ts of that directory.
    - [KernelStream], [KernelSession]: packages/plugin-sdk/src/kernel/session.ts
      (class [KernelSession]); one turn of the event loop is one step, a
      suspended [await] is a continuation in the state.
    - [Semver]: apps/server/src/plugin/semver.ts.
    - [Cron]: apps/server/src/lib/cron.ts.
    - [Jobs]: apps/server/src/plugins/pluginJobs.ts; one API call is a step, a
      scan is one step per record with other calls in between.
    - [Services]: apps/web/src/plugins/kernel/services.ts and the registry of
      apps/web/src/plugins/runtime.ts.
    - [Events]: apps/web/src/plugins/kernel/events.ts and the replay buffer and
      listener sets of apps/web/src/plugins/runtime.ts.
    - [ScoreHeap], [Bpe], [Tokenizer]: packages/provider-sdk/src/deepseekBpe.ts,
      the heap of scores, the merges of byte pair encoding, and the conversion of
      token tables, pre-tokenization and counting.
    - [Codec], [Json]: bytes, base64, UTF-8 and lengths in UTF-16, and the parser
      and printer of JSON, as the language has them.
    - [CharacterCards]: apps/server/src/lib/characterCards.ts, cards as JSON, as
      chunks of a PNG and as exports.
    - [ModuleGraph]: apps/plugin-runtime/src/graph, the checks and the linking of
      the modules of a plugin.
    - [Governor]: apps/server/src/plugin/resourceGovernor.ts; [Supervisor]:
      apps/plugin-runtime/src/supervisor.ts and emergencyLimits.ts; [Broker]:
      apps/plugin-runtime/src/broker, the capability brokers and their pending
      calls.
    - [Frames]: packages/contracts/src/pluginRuntime.ts, the header of a frame, the
      incremental parser and the bounded JSON of control messages.
    - [ResponseStream], [RuntimeClient]: apps/plugin-runtime/src/host, the streams
      of large responses and the client of the runtime process.
    - [HostNetwork], [HostGates], [EventRing]: apps/plugin-runtime/src/host,
      memoryHost.ts: the addresses a request or a bind may name, with every hop of a
      redirect; the paths of files, the words of queries and the scope of programs
      (assertUnrestrictedOrScope of processHandles.ts); the buffers, waiting replays
      and subscriptions of the event channel.
    - [SocketHandles], [ProcessHandles]: apps/plugin-runtime/src/host,
      socketHandles.ts and processHandles.ts; [HandleTables] is what the two share.
      One call up to its first wait, one callback or one timer is a step.
    - [ProviderStream]: packages/provider-sdk/src, the adapters of the OpenAI
      protocols with their server-sent events.
    - [Gestures]: packages/gestures/src/index.ts, the controller of row gestures.
    - [Uuid]: packages/shared/src/id.ts; [Messages]: packages/db/src/repositories,
      messages with their variants, drafts, pages and cursors.
    - [Generate]: apps/server/src/plugins/generate.ts, the route of generations
      with its hooks, and the table of prompt audits, with one row for each chat.
    - [Capabilities]: packages/plugin-sdk/src/kernel/capabilities.ts and the grants
      in apps/server/src/plugin/capabilityBroker.ts and the database.

    ** What the theorems show

    - Assembly: the prompt consists of the messages of the active blocks, each
      once, with the history in order ([assembly_complete]); the user's input is
      in it, and in the request after all later stages
      ([user_input_reaches_request]); macros are replaced segment by segment
      ([replaceMacros_segments]).
    - Prompts: a shift keeps protected messages, the order and the pairs of tool
      calls and results, removes the oldest removable group first and ends within
      the budget or with nothing left to remove ([shiftContext_sound],
      [shiftContext_complete], [tool_pairs_atomic], [shiftContext_oldest_first],
      [builtin_strategies_sound]); whatever strategies and interceptors answer,
      the host's protected context reaches the request and the budget holds
      ([pipeline_protects_host_context], [pipeline_respects_budget],
      [pipeline_survives_broken_plugins]); post-processing gives the shape of the
      mode ([postProcessMessages_shape], [mergeMessages_grouping]); a rendering does
      not see its cache and is the turns of its messages ([cache_transparent],
      [builtin_rendering], [format_roundtrip]); the audit explains and covers the
      prompt ([audit_explains], [audit_covers]).
    - Sessions: every call is settled exactly once and every request answered
      exactly once ([rpc_settles_exactly_once], [requests_answered_once]); bytes
      arrive in order and complete ([stream_end_to_end], [producer_fifo],
      [consumer_fifo]); a stream of a session behaves as the stream alone
      ([session_streams_refine]).
    - Host services: bounds and capabilities hold under any interleaving
      ([services_bounded], [invoke_authorized]); events are delivered in order,
      once, and replayed without a gap ([deliveries_in_order],
      [subscribe_replays]); jobs stay within their retry budget, reach the
      dead-letter queue after exactly that budget and are not dispatched twice
      ([jobs_retry_budget], [failures_reach_dlq], [dispatch_once]).
    - Engines: precedence of versions is a total order and ranges are intervals
      of it ([compareVersions_order], [range_admission],
      [maxSatisfying_best]); the next cron time is the
      first match ([nextCronAfter_first], [fieldValues_spec]); the cache refines
      a bounded recency list ([lru_refinement], [cache_bounded]).
    - Tokens: the heap pops by score ([heap_sorts]), the merge loop computes the
      textbook's byte pair encoding ([merge_word_is_bpe]), converted tables read
      back ([convert_roundtrip]) and the count is the number of those tokens
      ([count_spec]).
    - Generations: what a provider streams is relayed whole, with one end and the
      right error ([generation_exact], [generation_contract], [wire_format]);
      every generation settles, the audit of a chat stands as the generation that
      was prepared last in it, and a reply is saved once, in the chat or as a
      variant of the regenerated message ([generation_settles], [reply_saved],
      [reply_replaced], [replies_keep_texts], [hooks_isolated]).
    - Data: variants are permuted, never lost, edits keep the texts of others,
      drafts are committed once and pages cover the chat
      ([variants_permutation], [edits_keep_texts], [drafts_commit_once],
      [pages_complete]); new keys are greater than old ones ([ids_in_order]); an
      exported card reads back ([card_roundtrip]).
    - Rights of plugins: nothing is accessed without consent, and consent covers
      what was requested ([access_needs_consent],
      [satisfied_requests_are_covered], [consent_idempotent]).
    - Runtime: linked graphs equal the reference and load
      ([build_equivalence], [built_graph_loads]); calls and answers are matched and
      revocation ends what it must ([forwarding_tracks_calls],
      [revocation_reaches_executions]); the watchdog and the emergency limits are
      exact ([watchdog_exact], [terminations_justified],
      [emergency_limits_bounded]); a worker has one record and a shutdown ends
      ([workers_unique], [termination_enforced], [shutdown_completes]); frames and
      responses arrive whole in any chunks, and a broken header blocks the pipe
      ([header_roundtrip], [frames_arrive_whole], [broken_header_blocks],
      [control_body_roundtrip], [responses_arrive_whole], [frames_reach_host],
      [waiters_settle_once]).
    - Hosts of plugins: every hop of a request goes to an address the policy allows
      and secrets stay with their origin ([requests_confined],
      [classification_by_prefix], [redirects_reported]); paths stay below the root of
      the plugin, queries whose quotes hold no comment marks stay reading,
      programs stay in their scope
      ([files_confined], [core_query_gate], [process_scope_confined]); the event
      channel answers from the history of a name within its bounds and wakes who
      waits ([replay_exact], [channel_bounded], [event_reaches_waiters]); handles
      are bounded, found by their owner alone, and gone for good after a revoke
      ([handles_bounded], [handles_revoked], [processes_revoked]); rings keep the
      newest output with an exact count ([ring_keeps_newest], [output_counted]).
    - Gestures: drags come one after the other, of rows that may be dragged, after
      the travel they need, and never with a menu ([drags_are_sessions],
      [menu_or_drag], [drags_need_travel]).
    - Where the code does not do what its comments promise, a theorem states what
      it does: [stream_hazards], [buildExtractiveSummary_termination],
      [scan_copy_hazards], [stale_connections], [events_hazards],
      [refused_body_escapes], [bracketed_hosts_pass], [drained_output_starves],
      [second_finger_strands], [turns_can_be_forged] and
      the second half of [replaceMacros_segments]; the smaller cases are the
      examples at the end of each file, which evaluate the definitions on an input
      that shows them.

    ** Bounds and fuel

    Numbers of the code that are integers are [Z]; ratios of relevance are
    rationals.  Times, lengths and counters stay within the safe integers of
    JavaScript and need no wrap-around.  Loops that are not structural have fuel:
    the search of [Cron] has one unit per minute of its five years, so that the
    bound of the source is reached first; the loop of the extractive summary has
    a theorem for the fuel that is enough and one for the inputs on which no fuel
    is enough; a replacement of macros has one unit per character of its text,
    and every step consumes one.  In the same way the merge loop has four units
    per byte, the JSON parser two per character, the loops over the chunks of a PNG
    and over the frames of a pipe one per byte, the linking of modules one per
    import of every file, the pages of a chat one per message, the removal of
    comments from a query one per character, the evictions of a ring one per message:
    theorems of the files show that these are enough.  All other recursion is structural.

    Scores of merges and ratios of limits are compared exactly, by integers; limits
    of the heap are counted in quarters of a byte.  Texts are lists of code points
    without lone surrogates, their length that of UTF-16.  The numbers of JSON are
    an argument with its laws (the class [Json.NumberText]), whole numbers one
    instance; keys of objects keep the order of insertion also when they look like
    array indices.  The parser of URLs, the template engine and the hash functions are
    parameters.
    Counts of tokens that a provider reports are symbolic, and the words of error
    messages are left out where no code reads them.

    ** What is not modelled

    The user interface (React components, styles, themes), the mobile and desktop
    shells, the Rust crates, the engine of the database, most HTTP routes, the
    adapters of providers with protocols of their own, translations, packaging and
    builds: they are input and output, generated or glue.  Of the modelled files:
    the parsing of envelopes and of job files,
    the jobs, services, secrets and key-value stores of memoryHost.ts, timers of the
    operating system and failures of the file system.  Characters above U+00FF do
    not occur where a model uses [string]; [Codec], [Json] and the files above them
    have all code points.  The host runs on POSIX paths, and the clock stands still
    within one operation of the host.  Promises are modelled by the turns in which
    they settle; two calls that the code runs within one turn are one step. *)

From Stdlib Require Import ZArith Lia Bool Ascii String List Permutation Sorted QArith_base Qround.
From stdpp Require Import base decidable gmap strings list sorting.
Local Open Scope Z_scope.

(** ** Outcomes: a JavaScript call returns a value or throws *)

Inductive outcome (E A : Type) : Type :=
| Ok (a : A)
| Throw (e : E).
Arguments Ok {E A} a.
Arguments Throw {E A} e.

Definition obind {E A B} (m : outcome E A) (k : A -> outcome E B) : outcome E B :=
  match m with
  | Ok a => k a
  | Throw e => Throw e
  end.

Declare Scope js_scope.
Delimit Scope js_scope with js.
Notation "'let?' x ':=' m 'in' k" := (obind m (fun x => k))
  (at level 10, x pattern, m at level 100, k at level 200) : js_scope.
Notation "'guard?' c 'else' e 'then' k" := (if c then k else Throw e)
  (at level 10, c at level 100, e at level 100, k at level 200) : js_scope.

Definition is_ok {E A} (m : outcome E A) : bool :=
  match m with Ok _ => true | Throw _ => false end.

(** ** Case analysis on the tests of the code *)

(** [case_if] destructs the scrutinee of the first [if] or [match] of the goal
    and keeps the equation; [case_hyp H] does the same in a hypothesis. *)
Ltac case_goal :=
  match goal with
  | |- context [if ?b then _ else _] => destruct b eqn:?
  | |- context [match ?x with _ => _ end] => destruct x eqn:?
  end.

Ltac case_hyp H :=
  match type of H with
  | context [if ?b then _ else _] => destruct b eqn:?
  | context [match ?x with _ => _ end] => destruct x eqn:?
  end.

(** Pass the guards of a call that is known to return. *)
Ltac guards :=
  repeat match goal with
  | |- (if ?b then _ else Throw _) = _ -> _ => destruct b eqn:?; [|done]
  end.

(** Turn the boolean tests of the context into propositions. *)
Ltac bools :=
  repeat match goal with
  | H : (_ && _)%bool = true |- _ => apply andb_true_iff in H as [? ?]
  | H : (_ || _)%bool = false |- _ => apply orb_false_iff in H as [? ?]
  | H : negb _ = true |- _ => apply negb_true_iff in H
  | H : negb _ = false |- _ => apply negb_false_iff in H
  | H : (_ <=? _)%Z = true |- _ => apply Z.leb_le in H
  | H : (_ <=? _)%Z = false |- _ => apply Z.leb_gt in H
  | H : (_ <? _)%Z = true |- _ => apply Z.ltb_lt in H
  | H : (_ <? _)%Z = false |- _ => apply Z.ltb_ge in H
  | H : (_ =? _)%Z = true |- _ => apply Z.eqb_eq in H
  | H : (_ =? _)%Z = false |- _ => apply Z.eqb_neq in H
  | H : (_ =? _)%nat = true |- _ => apply Nat.eqb_eq in H
  | H : (_ =? _)%nat = false |- _ => apply Nat.eqb_neq in H
  | H : (_ <=? _)%nat = true |- _ => apply Nat.leb_le in H
  | H : (_ <=? _)%nat = false |- _ => apply Nat.leb_gt in H
  | H : (_ <? _)%nat = true |- _ => apply Nat.ltb_lt in H
  | H : (_ <? _)%nat = false |- _ => apply Nat.ltb_ge in H
  | H : (_ =? _)%string = true |- _ => apply String.eqb_eq in H
  | H : (_ =? _)%string = false |- _ => apply String.eqb_neq in H
  | H : bool_decide _ = true |- _ => apply bool_decide_eq_true in H
  | H : bool_decide _ = false |- _ => apply bool_decide_eq_false in H
  end.

(** ** Stable sort: [Array.prototype.sort] with a comparator (ES2019 is stable) *)

Section StableSort.
Context {A : Type} (le : A -> A -> bool).

Fixpoint insert_sorted (x : A) (l : list A) : list A :=
  match l with
  | [] => [x]
  | y :: r => if le x y then x :: l else y :: insert_sorted x r
  end.

(** Elements are inserted from the right, each before the elements it is not
    greater than: equal elements keep their order. *)
Definition stable_sort (l : list A) : list A := foldr insert_sorted [] l.

Lemma insert_sorted_perm x l : insert_sorted x l ≡ₚ x :: l.
Proof.
  induction l as [|y l IH]; simpl; [done|].
  destruct (le x y); [done|]. rewrite IH. constructor.
Qed.

Lemma stable_sort_perm l : stable_sort l ≡ₚ l.
Proof. induction l as [|x l IH]; simpl; [done|]. by rewrite insert_sorted_perm, IH. Qed.

Lemma elem_of_stable_sort x l : x ∈ stable_sort l <-> x ∈ l.
Proof. by rewrite stable_sort_perm. Qed.

Hypothesis le_total : forall x y, le x y = true \/ le y x = true.
Hypothesis le_trans : forall x y z, le x y = true -> le y z = true -> le x z = true.

Lemma insert_sorted_sorted x l :
  StronglySorted (fun a b => le a b = true) l ->
  StronglySorted (fun a b => le a b = true) (insert_sorted x l).
Proof.
  induction 1 as [|y l Hl IH Hy]; simpl; [repeat constructor|].
  destruct (le x y) eqn:E.
  - constructor; [by constructor|]. constructor; [done|].
    eapply Forall_impl; [exact Hy|]. eauto.
  - constructor; [done|]. apply List.Forall_forall. intros z Hz.
    apply (Permutation_in _ (insert_sorted_perm x l)) in Hz.
    destruct Hz as [<-|Hz].
    + destruct (le_total x y); congruence.
    + rewrite List.Forall_forall in Hy. auto.
Qed.

Lemma stable_sort_sorted l : StronglySorted (fun a b => le a b = true) (stable_sort l).
Proof. induction l; simpl; [constructor | by apply insert_sorted_sorted]. Qed.
End StableSort.

Lemma elem_of_In {A} (x : A) l : x ∈ l <-> In x l.
Proof. apply list_elem_of_In. Qed.

(** ** [Map]: an insertion-ordered dictionary *)

(** A JavaScript [Map] as the list of its entries in iteration order: [set] of
    a present key overwrites in place, [set] of a new key appends. *)
Section JsMap.
Context {K V : Type} `{EqDecision K}.

Fixpoint map_get (k : K) (m : list (K * V)) : option V :=
  match m with
  | [] => None
  | (k', v) :: r => if decide (k' = k) then Some v else map_get k r
  end.

Definition map_has (k : K) (m : list (K * V)) : bool :=
  match map_get k m with Some _ => true | None => false end.

Fixpoint map_set (k : K) (v : V) (m : list (K * V)) : list (K * V) :=
  match m with
  | [] => [(k, v)]
  | (k', v') :: r => if decide (k' = k) then (k', v) :: r else (k', v') :: map_set k v r
  end.

Fixpoint map_del (k : K) (m : list (K * V)) : list (K * V) :=
  match m with
  | [] => []
  | (k', v') :: r => if decide (k' = k) then r else (k', v') :: map_del k r
  end.

Definition map_keys (m : list (K * V)) : list K := m.*1.

(** The representation invariant: a key occurs once. *)
Definition map_ok (m : list (K * V)) : Prop := NoDup (map_keys m).

Lemma map_get_elem k v m : map_get k m = Some v -> (k, v) ∈ m.
Proof.
  induction m as [|[k' v'] m IH]; csimpl; [done|].
  case_decide; intros ?; simplify_eq; [left | right; auto].
Qed.

Lemma map_get_None k m : map_get k m = None <-> k ∉ map_keys m.
Proof.
  induction m as [|[k' v'] m IH]; csimpl.
  - split; [intros _ H; by apply not_elem_of_nil in H | done].
  - rewrite not_elem_of_cons, <- IH. case_decide as E.
    + split; [done|]. intros [H _]. congruence.
    + split; [|tauto]. intros H. split; [congruence | done].
Qed.

Lemma elem_map_get k v m : map_ok m -> (k, v) ∈ m -> map_get k m = Some v.
Proof.
  unfold map_ok, map_keys. induction m as [|[k' v'] m IH]; csimpl; intros Hnd Hin.
  - by apply not_elem_of_nil in Hin.
  - apply NoDup_cons in Hnd as [Hk Hnd]. apply elem_of_cons in Hin as [Hin|Hin].
    + simplify_eq. by rewrite decide_True.
    + rewrite decide_False; [auto|]. intros ->. apply Hk.
      apply list_elem_of_fmap. by exists (k, v).
Qed.

Lemma map_get_set k k' v m :
  map_get k' (map_set k v m) = if decide (k = k') then Some v else map_get k' m.
Proof.
  induction m as [|[k0 v0] m IH]; csimpl; [done|].
  repeat case_decide; csimpl; subst; repeat case_decide; congruence.
Qed.

Lemma map_get_del k k' m :
  map_ok m -> map_get k' (map_del k m) = if decide (k = k') then None else map_get k' m.
Proof.
  unfold map_ok, map_keys. induction m as [|[k0 v0] m IH]; csimpl; intros Hnd.
  - by case_decide.
  - apply NoDup_cons in Hnd as [Hk Hnd]. destruct (decide (k0 = k)) as [->|Hne].
    + destruct (decide (k = k')) as [<-|]; [by apply map_get_None | done].
    + csimpl. rewrite IH by done. repeat case_decide; congruence.
Qed.

Lemma map_keys_set k v m :
  map_keys (map_set k v m) = if map_has k m then map_keys m else map_keys m ++ [k].
Proof.
  unfold map_has, map_keys. induction m as [|[k0 v0] m IH]; csimpl; [done|].
  case_decide; csimpl; [by subst|]. rewrite IH. by destruct (map_get k m).
Qed.

Lemma map_keys_del_sub k m : map_keys (map_del k m) `sublist_of` map_keys m.
Proof.
  unfold map_keys. induction m as [|[k0 v0] m IH]; csimpl; [done|].
  case_decide; csimpl; by constructor.
Qed.

Lemma map_set_ok k v m : map_ok m -> map_ok (map_set k v m).
Proof.
  unfold map_ok. rewrite map_keys_set. unfold map_has.
  destruct (map_get k m) eqn:E; [done|]. apply map_get_None in E. intros Hnd.
  apply NoDup_app. split_and!; [done| |apply NoDup_singleton].
  intros x Hx Hk. apply list_elem_of_singleton in Hk. by subst.
Qed.

Lemma map_del_ok k m : map_ok m -> map_ok (map_del k m).
Proof. unfold map_ok. intros. eapply sublist_NoDup; [done | apply map_keys_del_sub]. Qed.

Lemma map_del_absent k m : map_get k m = None -> map_del k m = m.
Proof.
  induction m as [|[k0 v0] m IH]; csimpl; [done|].
  case_decide; [done|]. intros. by rewrite IH.
Qed.

Lemma map_set_absent k v m : map_get k m = None -> map_set k v m = m ++ [(k, v)].
Proof.
  induction m as [|[k0 v0] m IH]; csimpl; [done|].
  case_decide; [done|]. intros. by rewrite IH.
Qed.

Lemma map_set_set k v w m : map_set k v (map_set k w m) = map_set k v m.
Proof.
  induction m as [|[k0 v0] m IH]; csimpl; [by rewrite decide_True|].
  case_decide as E; csimpl; [by rewrite decide_True|]. by rewrite decide_False, IH.
Qed.

Lemma map_set_same k v m : map_get k m = Some v -> map_set k v m = m.
Proof.
  induction m as [|[k0 v0] m IH]; csimpl; [done|].
  case_decide; [by intros [= ->]|]. intros. by rewrite IH.
Qed.

Lemma map_del_app_absent k v m : map_get k m = None -> map_del k (m ++ [(k, v)]) = m.
Proof.
  induction m as [|[k0 v0] m IH]; csimpl; [by rewrite decide_True|].
  case_decide; [done|]. intros. by rewrite IH.
Qed.

Lemma length_map_del k v m :
  map_get k m = Some v -> length m = S (length (map_del k m)).
Proof.
  induction m as [|[k0 v0] m IH]; csimpl; [done|].
  case_decide; [done|]. intros. csimpl. by rewrite <- IH.
Qed.

Lemma elem_of_map_del k x m : x ∈ map_del k m -> x ∈ m.
Proof.
  induction m as [|[k0 v0] m IH]; csimpl; [done|].
  case_decide; [by right|]. intros [->|?]%elem_of_cons; [left | right; auto].
Qed.

Lemma elem_of_map_set k v x m : x ∈ map_set k v m -> x = (k, v) \/ x ∈ m.
Proof.
  induction m as [|[k0 v0] m IH]; csimpl.
  - intros ?%list_elem_of_singleton. auto.
  - case_decide; subst.
    + intros [->|?]%elem_of_cons; [by left|]. right. by right.
    + intros [->|?]%elem_of_cons; [right; left|].
      destruct IH as [|]; [done|by left|]. right. by right.
Qed.

(** With distinct keys, deletion is a filter. *)
Definition key_ne (k : K) (kv : K * V) : bool := negb (bool_decide (kv.1 = k)).

Lemma map_del_filter k m : map_ok m -> map_del k m = List.filter (key_ne k) m.
Proof.
  unfold map_ok, map_keys, key_ne. induction m as [|[k0 v0] m IH]; csimpl; [done|].
  intros [Hk Hnd]%NoDup_cons. case_decide as E; subst.
  - rewrite bool_decide_true by done. csimpl. symmetry. apply List.forallb_filter_id.
    apply forallb_forall. intros [k1 v1] Hin%elem_of_In. csimpl.
    rewrite bool_decide_false; [done|]. intros ->. apply Hk.
    apply list_elem_of_fmap. by exists (k, v1).
  - rewrite bool_decide_false by done. csimpl. by rewrite IH.
Qed.
End JsMap.

Create HintDb jsmap.
#[export] Hint Resolve map_set_ok map_del_ok : jsmap.

(** ** Strings as sequences of characters *)

(** A JavaScript string is modelled by the [string] of its characters; the
    characters of the model are those below U+0100. *)
Definition chars (s : string) : list ascii := list_ascii_of_string s.
Definition str (l : list ascii) : string := string_of_list_ascii l.

Lemma str_chars s : str (chars s) = s.
Proof. apply string_of_list_ascii_of_string. Qed.

Lemma chars_str l : chars (str l) = l.
Proof. apply list_ascii_of_string_of_list_ascii. Qed.

Lemma chars_inj s t : chars s = chars t -> s = t.
Proof. intros H. by rewrite <- (str_chars s), <- (str_chars t), H. Qed.

Lemma chars_app s t : chars (s ++ t)%string = chars s ++ chars t.
Proof. unfold chars. induction s as [|c s IH]; simpl; [done | by rewrite IH]. Qed.

Definition code (c : ascii) : Z := Z.of_N (N_of_ascii c).

(** [s.length] *)
Definition strlen (s : string) : Z := Z.of_nat (String.length s).

Lemma strlen_chars s : strlen s = Z.of_nat (length (chars s)).
Proof. unfold strlen, chars. by induction s as [|c s IH]; simpl in *; lia. Qed.

(** White space and line terminators, as [trim] and [\s] take them. *)
Definition is_ws (c : ascii) : bool :=
  ((9 <=? code c) && (code c <=? 13)) || (code c =? 32) || (code c =? 160).

Definition is_digit (c : ascii) : bool := (48 <=? code c) && (code c <=? 57).
Definition is_upper (c : ascii) : bool := (65 <=? code c) && (code c <=? 90).
Definition is_lower (c : ascii) : bool := (97 <=? code c) && (code c <=? 122).
Definition is_alpha (c : ascii) : bool := is_upper c || is_lower c.
Definition is_alnum (c : ascii) : bool := is_digit c || is_alpha c.

Fixpoint drop_while {A} (p : A -> bool) (l : list A) : list A :=
  match l with
  | [] => []
  | x :: r => if p x then drop_while p r else l
  end.

Definition trim_chars (l : list ascii) : list ascii :=
  rev (drop_while is_ws (rev (drop_while is_ws l))).

(** [s.trim()] *)
Definition trim (s : string) : string := str (trim_chars (chars s)).

(** [s.startsWith(p)] on characters. *)
Fixpoint starts_with (p s : list ascii) : bool :=
  match p, s with
  | [], _ => true
  | a :: p', b :: s' => (a =? b)%char && starts_with p' s'
  | _ :: _, [] => false
  end.

Definition ends_with (p s : list ascii) : bool := starts_with (rev p) (rev s).

(** [s.split(sep)] for a one-character separator: never empty. *)
Fixpoint split_on (sep : ascii) (l : list ascii) : list (list ascii) :=
  match l with
  | [] => [[]]
  | c :: r =>
      if (c =? sep)%char then [] :: split_on sep r
      else match split_on sep r with
           | [] => [[c]]
           | w :: ws => (c :: w) :: ws
           end
  end.

(** [words.join(sep)] *)
Fixpoint join (sep : ascii) (l : list (list ascii)) : list ascii :=
  match l with
  | [] => []
  | [x] => x
  | x :: r => x ++ sep :: join sep r
  end.

(** [s.split(/\s+/).filter(t => t.length > 0)] *)
Fixpoint words_of (l : list ascii) (cur : list ascii) : list (list ascii) :=
  let flush := match cur with [] => [] | _ => [rev cur] end in
  match l with
  | [] => flush
  | c :: r => if is_ws c then flush ++ words_of r [] else words_of r (c :: cur)
  end.

Definition NUL : ascii := ascii_of_nat 0.

(** Text without NUL is delimited by it. *)
Definition no_nul (t : string) : bool := forallb (fun c => negb (c =? NUL)%char) (chars t).

Lemma delimited a b x y :
  no_nul a = true -> no_nul b = true -> (chars a ++ NUL :: x)%list = (chars b ++ NUL :: y)%list -> a = b /\ x = y.
Proof.
  unfold no_nul. intros Ha Hb E. enough (H : chars a = chars b /\ x = y) by (split; [apply chars_inj|]; tauto).
  revert E Hb. revert Ha. generalize (chars a) (chars b). clear a b.
  induction l as [|c l IH]; intros [|d k]; cbn [app forallb]; intros Ha E Hb.
  - by injection E.
  - injection E as <- _. by rewrite Ascii.eqb_refl in Hb.
  - injection E as -> _. by rewrite Ascii.eqb_refl in Ha.
  - injection E as <- E. apply andb_true_iff in Ha as [_ Ha]. apply andb_true_iff in Hb as [_ Hb].
    destruct (IH k Ha E Hb) as [-> ->]. by split.
Qed.

(** The value of a run of decimal digits. *)
Definition digits_val (l : list ascii) : Z :=
  fold_left (fun n c => 10 * n + (code c - 48)) l 0.

Lemma split_on_nonnil sep l : split_on sep l <> [].
Proof.
  destruct l as [|c r]; simpl; [done|]. case_goal; [done|]. by destruct (split_on sep r).
Qed.

Lemma split_on_word sep w r : sep ∉ w -> split_on sep (w ++ sep :: r) = w :: split_on sep r.
Proof.
  induction w as [|c w IH]; cbn [app split_on]; [by rewrite Ascii.eqb_refl|].
  intros [Hc Hw]%not_elem_of_cons. destruct (Ascii.eqb_spec c sep) as [->|]; [done|]. by rewrite IH.
Qed.

Lemma split_on_single sep w : sep ∉ w -> split_on sep w = [w].
Proof.
  induction w as [|c w IH]; cbn [split_on]; [done|].
  intros [Hc Hw]%not_elem_of_cons. destruct (Ascii.eqb_spec c sep) as [->|]; [done|]. by rewrite IH.
Qed.

Lemma split_join sep l : l <> [] -> Forall (fun w => sep ∉ w) l -> split_on sep (join sep l) = l.
Proof.
  intros Hne Hl. induction Hl as [|w l Hw Hl IH]; [done|].
  destruct l as [|v l]; cbn [join]; [by apply split_on_single|]. rewrite split_on_word by done. f_equal. by apply IH.
Qed.

Lemma split_on_clean sep l : Forall (fun w => sep ∉ w) (split_on sep l).
Proof.
  induction l as [|c l IH]; cbn [split_on]; [repeat constructor; by intros ?%elem_of_nil|].
  destruct (Ascii.eqb_spec c sep) as [->|Hc]; [constructor; [by intros ?%elem_of_nil|exact IH]|].
  assert (Hs : forall w, sep ∉ w -> sep ∉ c :: w) by (intros w Hw; apply not_elem_of_cons; by split).
  destruct (split_on sep l) as [|w ws]; [repeat constructor; apply Hs; by intros ?%elem_of_nil|].
  inversion_clear IH. constructor; [by apply Hs|done].
Qed.

Lemma join_split sep l : join sep (split_on sep l) = l.
Proof.
  induction l as [|c l IH]; cbn [split_on]; [done|]. pose proof (split_on_nonnil sep l) as Hn.
  destruct (Ascii.eqb_spec c sep) as [->|Hc]; destruct (split_on sep l) as [|w ws]; try done; cbn [join app].
  - f_equal. exact IH.
  - destruct ws; cbn [join app] in IH |- *; by rewrite IH.
Qed.

Lemma starts_with_app p s : starts_with p s = true <-> exists r, s = p ++ r.
Proof.
  revert s. induction p as [|a p IH]; intros s; simpl.
  - split; eauto.
  - destruct s as [|b s]; [split; [done | by intros [r ?]]|].
    rewrite andb_true_iff, Ascii.eqb_eq, IH. split.
    + intros [-> [r ->]]. by exists r.
    + intros [r Hr]. injection Hr as -> ->. eauto.
Qed.

(** [includes], [has]: membership of strings. *)
Definition mem (x : string) (l : list string) : bool := existsb (String.eqb x) l.

Lemma mem_elem x l : mem x l = true <-> x ∈ l.
Proof.
  unfold mem. rewrite existsb_exists, list_elem_of_In. split.
  - by intros (y & Hy & ->%String.eqb_eq).
  - intros Hx. exists x. split; [done | by apply String.eqb_eq].
Qed.

(** ** Values that cross a message port *)

(** What the structured clone of a message can hold and the code tells apart;
    numbers are whole, or not finite. *)
Inductive Value :=
| VNull
| VBool (b : bool)
| VNum (n : Z)
| VNonFinite
| VBig (n : Z)
| VStr (s : string)
| VArr (l : list Value)
| VObj (l : list (string * Value)).

(** [record[key]]: [None] is [undefined]. *)
Definition field (k : string) (o : list (string * Value)) : option Value := map_get k o.

(** ** Decimal numerals *)

Fixpoint dec_fuel (fuel : nat) (n : Z) : list ascii :=
  match fuel with
  | O => []
  | S f => (if n <? 10 then [] else dec_fuel f (n / 10)) ++ [ascii_of_N (Z.to_N (48 + n mod 10))]
  end.

(** The numeral of a natural number: [String(n)]. *)
Definition dec (n : Z) : list ascii := dec_fuel (S (Z.to_nat (Z.log2 n))) n.

Lemma digits_val_snoc l c : digits_val (l ++ [c]) = 10 * digits_val l + (code c - 48).
Proof. unfold digits_val. by rewrite fold_left_app. Qed.

Lemma dec_digit n : let c := ascii_of_N (Z.to_N (48 + n mod 10)) in code c = 48 + n mod 10 /\ is_digit c = true.
Proof.
  pose proof (Z.mod_pos_bound n 10 ltac:(done)) as Hm. unfold is_digit, code.
  rewrite N_ascii_embedding by lia. rewrite Z2N.id by lia. split; [done|].
  apply andb_true_iff. rewrite !Z.leb_le. lia.
Qed.

Lemma dec_fuel_spec fuel n :
  0 <= n < 2 ^ Z.of_nat fuel ->
  digits_val (dec_fuel fuel n) = n /\ forallb is_digit (dec_fuel fuel n) = true.
Proof.
  revert n. induction fuel as [|f IH]; intros n Hn.
  { change (2 ^ Z.of_nat 0) with 1 in Hn. by replace n with 0 by lia. }
  rewrite Nat2Z.inj_succ, Z.pow_succ_r in Hn by lia. cbn [dec_fuel].
  destruct (dec_digit n) as [Hc Hd]. rewrite digits_val_snoc, forallb_app, Hc. simpl. rewrite Hd.
  pose proof (Z.div_mod n 10 ltac:(done)) as Hdm. pose proof (Z.mod_pos_bound n 10 ltac:(done)) as Hm.
  destruct (Z.ltb_spec n 10) as [Hlt|Hge].
  - split; [|done]. rewrite Z.mod_small by lia. change (digits_val []) with 0. lia.
  - assert (Hq : 0 <= n / 10 < 2 ^ Z.of_nat f) by (split; [apply Z.div_pos; lia | apply Z.div_lt_upper_bound; lia]).
    destruct (IH _ Hq) as [-> ->]. split; [lia | done].
Qed.

Lemma dec_spec n : 0 <= n -> digits_val (dec n) = n /\ forallb is_digit (dec n) = true.
Proof.
  intros Hn. apply dec_fuel_spec. split; [done|].
  rewrite Nat2Z.inj_succ, Z2Nat.id by apply Z.log2_nonneg.
  destruct (Z.eq_dec n 0) as [->|]; [done|]. apply Z.log2_spec. lia.
Qed.

Lemma dec_nonnil n : dec n <> [].
Proof. unfold dec. cbn [dec_fuel]. intros H. by apply app_eq_nil in H as [_ ?]. Qed.

(** ** Lists *)

Lemma list_fmap_map {A B} (f : A -> B) (l : list A) : f <$> l = map f l.
Proof. reflexivity. Qed.

Lemma rev_drop {A} n (l : list A) : rev (drop n l) = take (length l - n) (rev l).
Proof.
  rewrite firstn_rev. f_equal. destruct (le_lt_dec n (length l)).
  - f_equal. lia.
  - rewrite !drop_ge by lia. done.
Qed.

Lemma elem_of_drop_in {A} n (l : list A) x : x ∈ drop n l -> x ∈ l.
Proof. intros H. rewrite <- (take_drop n l). apply elem_of_app. by right. Qed.

Lemma filter_length_le {A} (f : A -> bool) (l : list A) :
  (length (List.filter f l) <= length l)%nat.
Proof. induction l as [|x l IH]; simpl; [lia|]. destruct (f x); simpl; lia. Qed.

Lemma filter_sublist {A} (f : A -> bool) (l : list A) : List.filter f l `sublist_of` l.
Proof. induction l as [|x l IH]; simpl; [done|]. destruct (f x); by constructor. Qed.

Lemma filter_all {A} (f : A -> bool) (l : list A) :
  (forall x, x ∈ l -> f x = true) -> List.filter f l = l.
Proof.
  induction l as [|x l IH]; intros H; simpl; [done|].
  rewrite (H x) by left. f_equal. apply IH. intros y Hy. apply H. by right.
Qed.

Lemma filter_filter {A} (f g : A -> bool) (l : list A) :
  List.filter f (List.filter g l) = List.filter (fun x => g x && f x) l.
Proof.
  induction l as [|x l IH]; simpl; [done|].
  destruct (g x); simpl; [destruct (f x); by rewrite IH | done].
Qed.

Lemma elem_of_filter_bool {A} (f : A -> bool) (l : list A) x :
  x ∈ List.filter f l <-> x ∈ l /\ f x = true.
Proof. by rewrite !elem_of_In, filter_In. Qed.

(** The sum of a list of integers: [costs.reduce((sum, item) => sum + item, 0)]. *)
Definition zsum (l : list Z) : Z := fold_left Z.add l 0.

Lemma fold_add_shift l a : fold_left Z.add l a = a + fold_left Z.add l 0.
Proof.
  revert a. induction l as [|x l IH]; intros a; cbn [fold_left]; [lia|].
  rewrite (IH (a + x)), (IH (0 + x)). lia.
Qed.

Lemma zsum_cons x l : zsum (x :: l) = x + zsum l.
Proof. unfold zsum. cbn [fold_left]. rewrite fold_add_shift. lia. Qed.

Lemma zsum_app l k : zsum (l ++ k) = zsum l + zsum k.
Proof. induction l as [|x l IH]; simpl; [done|]. rewrite !zsum_cons, IH. lia. Qed.

(** ** Three-way comparisons *)

(** A comparator of the code: negative, zero or positive. *)
Class CmpOk {A : Type} (f : A -> A -> Z) : Prop := {
  cmp_antisym : forall x y, f y x = - f x y;
  cmp_eq : forall x y, f x y = 0 -> x = y;
  cmp_trans : forall x y z, f x y <= 0 -> f y z <= 0 -> f x z <= 0
}.

Section Cmp.
Context {A : Type} (f : A -> A -> Z) `{!CmpOk f}.

Lemma cmp_refl x : f x x = 0.
Proof. pose proof (cmp_antisym x x). lia. Qed.

Lemma cmp_lt_trans x y z : f x y <= 0 -> f y z <= 0 -> f x y < 0 \/ f y z < 0 -> f x z < 0.
Proof.
  intros H1 H2 H3. pose proof (cmp_trans x y z H1 H2).
  destruct (Z.eq_dec (f x z) 0) as [E|]; [|lia]. apply cmp_eq in E as ->.
  pose proof (cmp_antisym z y). lia.
Qed.

(** Lexicographic order of lists, a proper prefix first. *)
Fixpoint list_cmp (a b : list A) : Z :=
  match a, b with
  | [], [] => 0
  | [], _ :: _ => -1
  | _ :: _, [] => 1
  | x :: a', y :: b' => if f x y =? 0 then list_cmp a' b' else f x y
  end.

#[export] Instance list_cmp_ok : CmpOk list_cmp.
Proof.
  split.
  - induction x as [|x a IH]; intros [|y b]; simpl; try done.
    rewrite (cmp_antisym x y). destruct (Z.eqb_spec (f x y) 0) as [E|E].
    + rewrite E. simpl. apply IH.
    + destruct (Z.eqb_spec (- f x y) 0); lia.
  - induction x as [|x a IH]; intros [|y b]; simpl; try done.
    destruct (Z.eqb_spec (f x y) 0) as [E|E]; [|done]. apply cmp_eq in E as ->.
    intros ->%IH. done.
  - induction x as [|x a IH]; intros [|y b] [|z c]; simpl; try lia.
    destruct (Z.eqb_spec (f x y) 0) as [E1|E1].
    + apply cmp_eq in E1 as ->. destruct (f y z =? 0); [apply IH | done].
    + intros H1. destruct (Z.eqb_spec (f y z) 0) as [E2|E2].
      * apply cmp_eq in E2 as ->. destruct (Z.eqb_spec (f x z) 0); lia.
      * intros H2. pose proof (cmp_lt_trans x y z H1 H2 ltac:(lia)).
        destruct (Z.eqb_spec (f x z) 0); lia.
Qed.
End Cmp.

Definition zcmp (a b : Z) : Z := if a =? b then 0 else if a <? b then -1 else 1.

#[export] Instance zcmp_ok : CmpOk zcmp.
Proof.
  unfold zcmp. split; intros x y; intros;
    repeat match goal with
    | H : context [if ?b then _ else _] |- _ => destruct b eqn:?
    | |- context [if ?b then _ else _] => destruct b eqn:?
    end; bools; lia.
Qed.

(** Strings compare by their characters' codes. *)
Definition str_cmp (a b : string) : Z := list_cmp zcmp (map code (chars a)) (map code (chars b)).

Lemma code_inj a b : code a = code b -> a = b.
Proof.
  unfold code. intros H%N2Z.inj. rewrite <- (ascii_N_embedding a), <- (ascii_N_embedding b). by f_equal.
Qed.

#[export] Instance str_cmp_ok : CmpOk str_cmp.
Proof.
  unfold str_cmp. split.
  - intros. apply (cmp_antisym (f := list_cmp zcmp)).
  - intros a b H. apply (cmp_eq (f := list_cmp zcmp)) in H. apply chars_inj.
    revert H. generalize (chars a) (chars b). induction l as [|x l IH]; intros [|y k]; simpl; try done.
    intros [= Hc Hl]. apply code_inj in Hc. by rewrite (IH k), Hc.
  - intros x y z. apply (cmp_trans (f := list_cmp zcmp)).
Qed.

(** ** Products with a binary64 constant *)

(** An integer [m] rounded to 53 significant bits, ties to even. *)
Definition round53 (m : Z) : Z :=
  let k := Z.log2 m - 52 in
  if k <=? 0 then m
  else
    let q := m / 2 ^ k in
    let r := m mod 2 ^ k in
    let h := 2 ^ (k - 1) in
    let q' := if r <? h then q else if h <? r then q + 1 else if Z.even q then q else q + 1 in
    q' * 2 ^ k.

(** [Math.floor(n * c)] for a whole [n] and the double [c] = [mant] / 2^[sh]. *)
Definition mul_floor (mant sh n : Z) : Z := round53 (mant * n) / 2 ^ sh.

Lemma round53_upper m : 0 < m -> round53 m * 2 ^ 52 <= m * (2 ^ 52 + 1).
Proof.
  intros Hm. unfold round53. destruct (Z.leb_spec (Z.log2 m - 52) 0) as [?|Hk]; [lia|].
  set (k := Z.log2 m - 52) in *.
  assert (Hp : 0 < 2 ^ k) by (apply Z.pow_pos_nonneg; lia).
  assert (Hlog : 2 ^ k * 2 ^ 52 <= m).
  { rewrite <- Z.pow_add_r by lia. replace (k + 52) with (Z.log2 m) by lia.
    by apply Z.log2_spec. }
  assert (E2 : 2 ^ k = 2 * 2 ^ (k - 1)).
  { rewrite <- Z.pow_succ_r by lia. f_equal. lia. }
  pose proof (Z.div_mod m (2 ^ k) ltac:(lia)) as Hdm.
  pose proof (Z.mod_pos_bound m (2 ^ k) Hp) as Hr.
  set (q := m / 2 ^ k) in *. set (r := m mod 2 ^ k) in *. cbv zeta.
  destruct (Z.ltb_spec r (2 ^ (k - 1))); [nia|].
  assert ((q + 1) * 2 ^ k * 2 ^ 52 <= m * (2 ^ 52 + 1)) by nia.
  destruct (Z.ltb_spec (2 ^ (k - 1)) r); [done|]. destruct (Z.even q); nia.
Qed.

Create HintDb js.
#[export] Hint Resolve split_on_nonnil filter_sublist : js.
