(* ===== verification/LruCache.v ===== *)
(** * The bounded LRU cache (packages/shared/src/cache.ts)

    [Cache] is the state of the class [LruCache]: the [Map] of entries in
    iteration order (least recently used first), the hit/miss/eviction counters
    and the in-flight table of [getOrComputeAsync].  Every method that reads the
    clock takes the time [now] as an argument; times and lifetimes are whole
    milliseconds.  A promise is named by a number [pid]: the callbacks that the
    source attaches to it are the operations [async_then] and [async_finally]. *)

From Stdlib Require Import ZArith Lia Bool String List Permutation.
From stdpp Require Import base decidable gmap strings list sorting.
From S2P Require Import Prelude.
Local Open Scope Z_scope.

Module LruCache.

Section Cache.
Context {V : Type}.

(** ** State *)

Record entry := Entry { value : V; expiresAt : option Z }.

Record cache := Cache {
  emap : list (string * entry);
  maxSize : Z;
  ttlMs : option Z;
  hits : Z;
  misses : Z;
  evictions : Z;
  inFlight : list (string * nat);
  nextPid : nat
}.

(** [constructor]: both parameters are checked before the cache exists. *)
Definition create (max : Z) (ttl : option Z) : outcome string cache :=
  if max <? 1 then Throw "LruCache maxSize must be a positive integer"%string
  else if match ttl with Some t => t <=? 0 | None => false end
  then Throw "LruCache ttlMs must be a positive number"%string
  else Ok (Cache [] max ttl 0 0 0 [] 0).

(** ** Operations *)

Definition isExpired (now : Z) (e : entry) : bool :=
  match expiresAt e with Some t => t <=? now | None => false end.

Definition get (now : Z) (key : string) (c : cache) : option V * cache :=
  match map_get key (emap c) with
  | None =>
      (None, Cache (emap c) (maxSize c) (ttlMs c) (hits c) (misses c + 1)
                   (evictions c) (inFlight c) (nextPid c))
  | Some e =>
      if isExpired now e then
        (None, Cache (map_del key (emap c)) (maxSize c) (ttlMs c) (hits c) (misses c + 1)
                     (evictions c + 1) (inFlight c) (nextPid c))
      else
        (Some (value e),
         Cache (map_set key e (map_del key (emap c))) (maxSize c) (ttlMs c) (hits c + 1)
               (misses c) (evictions c) (inFlight c) (nextPid c))
  end.

(** The loop [while (this.map.size > this.maxSize)]: drop the first key. *)
Fixpoint evict (max : Z) (m : list (string * entry)) : list (string * entry) * Z :=
  match m with
  | [] => ([], 0)
  | _ :: r =>
      if max <? Z.of_nat (length m) then
        let '(m', n) := evict max r in (m', n + 1)
      else (m, 0)
  end.

Definition set (now : Z) (key : string) (v : V) (c : cache) : cache :=
  let m := if map_has key (emap c) then map_del key (emap c) else emap c in
  let e := Entry v (match ttlMs c with None => None | Some t => Some (now + t) end) in
  let '(m', n) := evict (maxSize c) (map_set key e m) in
  Cache m' (maxSize c) (ttlMs c) (hits c) (misses c) (evictions c + n) (inFlight c) (nextPid c).

(** [getOrCompute]: the factory may throw; [t1] and [t2] are the clock at the
    lookup and at the store. *)
Definition getOrCompute {E} (t1 t2 : Z) (key : string) (factory : unit -> outcome E V)
    (c : cache) : outcome E V * cache :=
  let '(cached, c1) := get t1 key c in
  match cached with
  | Some v => (Ok v, c1)
  | None =>
      match factory tt with
      | Ok v => (Ok v, set t2 key v c1)
      | Throw e => (Throw e, c1)
      end
  end.

(** What a call of [getOrComputeAsync] returns at once. *)
Inductive async_result :=
| Hit (v : V)
| Joined (pid : nat)
| Started (pid : nat).

Definition getOrComputeAsync (now : Z) (key : string) (c : cache) : async_result * cache :=
  let '(cached, c1) := get now key c in
  match cached with
  | Some v => (Hit v, c1)
  | None =>
      match map_get key (inFlight c1) with
      | Some pid => (Joined pid, c1)
      | None =>
          (Started (nextPid c1),
           Cache (emap c1) (maxSize c1) (ttlMs c1) (hits c1) (misses c1) (evictions c1)
                 (map_set key (nextPid c1) (inFlight c1)) (S (nextPid c1)))
      end
  end.

(** The two callbacks of the pending computation of [key]. *)
Definition async_then (now : Z) (key : string) (v : V) (c : cache) : cache := set now key v c.

Definition async_finally (key : string) (c : cache) : cache :=
  Cache (emap c) (maxSize c) (ttlMs c) (hits c) (misses c) (evictions c)
        (map_del key (inFlight c)) (nextPid c).

Definition delete (key : string) (c : cache) : bool * cache :=
  (map_has key (emap c),
   Cache (map_del key (emap c)) (maxSize c) (ttlMs c) (hits c) (misses c) (evictions c)
         (inFlight c) (nextPid c)).

Definition clear (c : cache) : cache :=
  Cache [] (maxSize c) (ttlMs c) (hits c) (misses c) (evictions c) [] (nextPid c).

Definition size (c : cache) : Z := Z.of_nat (length (emap c)).

Definition liveSize (now : Z) (c : cache) : Z :=
  match ttlMs c with
  | None => size c
  | Some _ => Z.of_nat (length (List.filter (fun kv => negb (isExpired now kv.2)) (emap c)))
  end.

(** [metrics()]: hits, misses, evictions and the live size. *)
Definition metrics (now : Z) (c : cache) : Z * Z * Z * Z :=
  (hits c, misses c, evictions c, liveSize now c).

(** ** Runs *)

Inductive op :=
| OGet (now : Z) (key : string)
| OSet (now : Z) (key : string) (v : V)
| OCompute (t1 t2 : Z) (key : string) (r : outcome unit V)
| OAsync (now : Z) (key : string)
| OThen (now : Z) (key : string) (v : V)
| OFinally (key : string)
| ODelete (key : string)
| OClear.

Definition step (c : cache) (o : op) : cache :=
  match o with
  | OGet now k => (get now k c).2
  | OSet now k v => set now k v c
  | OCompute t1 t2 k r => (getOrCompute t1 t2 k (fun _ => r) c).2
  | OAsync now k => (getOrComputeAsync now k c).2
  | OThen now k v => async_then now k v c
  | OFinally k => async_finally k c
  | ODelete k => (delete k c).2
  | OClear => clear c
  end.

Definition run (c : cache) (ops : list op) : cache := fold_left step ops c.

(** How many lookups a run makes: every [get], direct or through a compute. *)
Definition lookup_of (o : op) : Z :=
  match o with
  | OGet _ _ | OCompute _ _ _ _ | OAsync _ _ => 1
  | _ => 0
  end.

Definition lookups (ops : list op) : Z := zsum (map lookup_of ops).

(** ** Invariant *)

Record wf (c : cache) : Prop := {
  wf_keys : map_ok (emap c);
  wf_slots : map_ok (inFlight c);
  wf_bound : size c <= maxSize c;
  wf_max : 1 <= maxSize c
}.

Lemma evict_spec max m :
  0 <= max ->
  exists n, evict max m = (drop n m, Z.of_nat n) /\
    n = Z.to_nat (Z.of_nat (length m) - max).
Proof.
  intros Hmax. induction m as [|x r IH].
  - exists O. simpl. split; [done | lia].
  - cbn [evict]. destruct (Z.ltb_spec max (Z.of_nat (length (x :: r)))) as [H|H].
    + destruct IH as (n & -> & Hn). exists (S n). cbn [length] in *. split.
      * cbn [drop]. f_equal. lia.
      * lia.
    + exists O. split; [done | lia].
Qed.

Lemma evict_bound max m : 0 <= max -> Z.of_nat (length (evict max m).1) <= max.
Proof.
  intros H. destruct (evict_spec max m H) as (n & -> & ->). simpl.
  rewrite length_drop. lia.
Qed.

Lemma evict_keys max m : 0 <= max -> map_ok m -> map_ok (evict max m).1.
Proof.
  intros H Hm. destruct (evict_spec max m H) as (n & -> & _). simpl.
  unfold map_ok, map_keys in *. rewrite fmap_drop. by eapply sublist_NoDup, sublist_drop.
Qed.

Lemma get_wf now k c : wf c -> wf (get now k c).2.
Proof.
  intros [H1 H2 H3 H4]. unfold get. destruct (map_get k (emap c)) as [e|] eqn:E.
  - destruct (isExpired now e); split; simpl; eauto with jsmap.
    + unfold size in *. simpl. rewrite (length_map_del k e) in H3 by done. lia.
    + unfold size in *. simpl. rewrite map_set_absent.
      * rewrite length_app. rewrite (length_map_del k e) in H3 by done. simpl. lia.
      * rewrite map_get_del by done. by rewrite decide_True.
  - by split.
Qed.

Lemma set_wf now k v c : wf c -> wf (set now k v c).
Proof.
  intros [H1 H2 H3 H4]. unfold set.
  set (m := if map_has k (emap c) then map_del k (emap c) else emap c).
  assert (Hm : map_ok m) by (subst m; case_match; eauto with jsmap).
  set (e := Entry v _).
  pose proof (evict_bound (maxSize c) (map_set k e m) ltac:(lia)) as Hb.
  pose proof (evict_keys (maxSize c) (map_set k e m) ltac:(lia) (map_set_ok _ _ _ Hm)) as Hk.
  destruct (evict (maxSize c) (map_set k e m)) as [m' n]. by split.
Qed.

(** A cache whose values are what a function says of their keys. *)
Definition pure_of (f : string -> V) (c : cache) : Prop := forall k e, map_get k (emap c) = Some e -> value e = f k.

Lemma get_pure f now k c : wf c -> pure_of f c -> pure_of f (get now k c).2 /\ (forall v, (get now k c).1 = Some v -> v = f k).
Proof.
  intros W P. unfold get. destruct (map_get k (emap c)) as [e|] eqn:E; [|by split].
  assert (D : pure_of f (Cache (map_del k (emap c)) (maxSize c) (ttlMs c) (hits c) (misses c + 1) (evictions c + 1) (inFlight c) (nextPid c))).
  { intros j e' G. cbn in G. rewrite map_get_del in G by apply W. case_decide; [done|by apply P]. }
  destruct (isExpired now e); [by split|]. split; cbn; [|intros v [= <-]; by apply P].
  intros j e' G. cbn in G. rewrite map_get_set in G. case_decide; [injection G as <-; subst; by apply P|by apply D].
Qed.

Lemma set_pure f now k c : wf c -> pure_of f c -> pure_of f (set now k (f k) c).
Proof.
  intros W P. unfold set. set (m0 := if map_has k (emap c) then _ else _). set (e := Entry _ _).
  assert (M0 : map_ok m0 /\ forall j x, map_get j m0 = Some x -> value x = f j).
  { unfold m0. destruct (map_has k (emap c)); [|split; [apply W|apply P]]. split; [apply map_del_ok, W|].
    intros j x. rewrite map_get_del by apply W. case_decide; [done|apply P]. }
  destruct M0 as [Ok0 G0]. pose proof (wf_max c W). destruct (evict_spec (maxSize c) (map_set k e m0) ltac:(lia)) as (n & -> & _).
  intros j x G. cbn in G. assert (G2 : map_get j (map_set k e m0) = Some x).
  { apply elem_map_get; [by apply map_set_ok|]. apply map_get_elem in G. by eapply elem_of_sublist, sublist_drop. }
  rewrite map_get_set in G2. case_decide; [injection G2 as <-; by subst|by apply G0].
Qed.

(** Asked for the value of such a function, the cache answers it, stored or not. *)
Lemma getOrCompute_pure {E} f t1 t2 k c :
  wf c -> pure_of f c ->
  let r := getOrCompute (E := E) t1 t2 k (fun _ => Ok (f k)) c in
  r.1 = Ok (f k) /\ wf r.2 /\ pure_of f r.2 /\ maxSize r.2 = maxSize c.
Proof.
  intros W P. cbv zeta. unfold getOrCompute. destruct (get_pure f t1 k c W P) as [P1 H1]. pose proof (get_wf t1 k c W) as W1.
  assert (M1 : maxSize (get t1 k c).2 = maxSize c) by (unfold get; destruct (map_get k (emap c)) as [e|]; [by destruct (isExpired t1 e)|done]).
  destruct (get t1 k c) as [[v|] c1]; cbn [fst snd] in *.
  - by rewrite (H1 v eq_refl).
  - split_and!; [done|by apply set_wf|by apply set_pure|]. unfold set. destruct (evict _ _). by cbn.
Qed.

#[local] Hint Resolve get_wf set_wf : jsmap.

Lemma step_wf c o : wf c -> wf (step c o).
Proof.
  intros H. destruct o as [now k|now k v|t1 t2 k r|now k|now k v|k|k|]; simpl;
    unfold async_then; auto with jsmap.
  - unfold getOrCompute. pose proof (get_wf t1 k c H) as H1.
    destruct (get t1 k c) as [[v|] c1]; [done|]. destruct r; [by apply set_wf | done].
  - unfold getOrComputeAsync. pose proof (get_wf now k c H) as H1.
    destruct (get now k c) as [[v|] c1]; [done|]. simpl in H1.
    destruct (map_get k (inFlight c1)); [done|]. destruct H1. split; simpl; auto with jsmap.
  - destruct H. split; simpl; auto with jsmap.
  - destruct H as [H1 H2 H3 H4]. split; simpl; auto with jsmap. unfold size in *. simpl.
    destruct (map_get k (emap c)) eqn:E.
    + rewrite (length_map_del _ _ _ E) in H3. lia.
    + by rewrite map_del_absent.
  - destruct H as [H1 H2 H3 H4]. split; simpl; try (by apply NoDup_nil); unfold size; simpl; lia.
Qed.

Lemma run_wf ops c : wf c -> wf (run c ops).
Proof. revert c. induction ops as [|o ops IH]; simpl; auto using step_wf. Qed.

Lemma create_wf max ttl c : create max ttl = Ok c -> wf c.
Proof.
  unfold create. destruct (max <? 1) eqn:E; [done|]. bools.
  case_match; [done|]. intros [= <-]. split; try apply NoDup_nil; unfold size; simpl; lia.
Qed.

(** Hits and misses count the lookups. *)
Lemma get_counts now k c :
  hits (get now k c).2 + misses (get now k c).2 = hits c + misses c + 1 /\
  maxSize (get now k c).2 = maxSize c.
Proof. unfold get. repeat case_match; simpl; lia. Qed.

Lemma set_counts now k v c :
  hits (set now k v c) + misses (set now k v c) = hits c + misses c /\
  maxSize (set now k v c) = maxSize c.
Proof. unfold set. case_match. done. Qed.

Lemma step_counts c o :
  hits (step c o) + misses (step c o) = hits c + misses c + lookup_of o /\
  maxSize (step c o) = maxSize c.
Proof.
  destruct o as [now k|now k v|t1 t2 k r|now k|now k v|k|k|]; simpl; try (split; lia).
  - apply get_counts.
  - pose proof (set_counts now k v c). lia.
  - unfold getOrCompute. pose proof (get_counts t1 k c) as H.
    destruct (get t1 k c) as [[v|] c1]; simpl in *; [lia|].
    destruct r as [v|e]; simpl; [pose proof (set_counts t2 k v c1)|]; lia.
  - unfold getOrComputeAsync. pose proof (get_counts now k c) as H.
    destruct (get now k c) as [[v|] c1]; simpl in *; [lia|]. case_match; simpl; lia.
  - pose proof (set_counts now k v c). unfold async_then. lia.
Qed.

Lemma run_counts ops c :
  hits (run c ops) + misses (run c ops) = hits c + misses c + lookups ops /\
  maxSize (run c ops) = maxSize c.
Proof.
  unfold lookups. revert c. induction ops as [|o ops IH]; intros c; simpl.
  - unfold zsum; simpl. lia.
  - destruct (IH (step c o)) as [-> ->]. destruct (step_counts c o) as [-> ->].
    rewrite zsum_cons. lia.
Qed.

(** ** The abstract least-recently-used store *)

(** Bindings from the most to the least recently used, at most [n] of them. *)
Definition spec_get (k : string) (s : list (string * V)) : option V * list (string * V) :=
  match map_get k s with
  | Some v => (Some v, (k, v) :: map_del k s)
  | None => (None, s)
  end.

Definition spec_set (n : nat) (k : string) (v : V) (s : list (string * V)) : list (string * V) :=
  take n ((k, v) :: map_del k s).

Definition spec_step (n : nat) (s : list (string * V)) (o : op) : list (string * V) :=
  match o with
  | OGet _ k | OAsync _ k => (spec_get k s).2
  | OSet _ k v | OThen _ k v => spec_set n k v s
  | OCompute _ _ k r =>
      match spec_get k s, r with
      | (Some _, s'), _ => s'
      | (None, s'), Ok v => spec_set n k v s'
      | (None, s'), Throw _ => s'
      end
  | OFinally _ => s
  | ODelete k => map_del k s
  | OClear => []
  end.

(** The abstraction of a cache: its values, latest use first. *)
Definition abs (c : cache) : list (string * V) :=
  rev (map (fun kv => (kv.1, value kv.2)) (emap c)).

Lemma abs_get k c : wf c -> map_get k (abs c) = value <$> map_get k (emap c).
Proof.
  intros Hwf. unfold abs. destruct (map_get k (emap c)) as [e|] eqn:E.
  - apply elem_map_get.
    + unfold map_ok, map_keys. rewrite list_fmap_map, map_rev, map_map, <- Permutation_rev.
      exact (wf_keys _ Hwf).
    + apply elem_of_In. rewrite <- in_rev. apply in_map_iff. exists (k, e). split; [done|].
      by apply elem_of_In, map_get_elem.
  - apply map_get_None. apply map_get_None in E. intros Hk. apply E. revert Hk.
    unfold map_keys. rewrite !list_fmap_map, map_rev, map_map, !elem_of_In. by rewrite <- in_rev.
Qed.

Lemma abs_del k m :
  map_ok m ->
  rev (map (fun kv : string * entry => (kv.1, value kv.2)) (map_del k m)) =
  map_del k (rev (map (fun kv => (kv.1, value kv.2)) m)).
Proof.
  intros Hm. rewrite !map_del_filter; [|  | done].
  - rewrite filter_rev. f_equal. clear Hm. unfold key_ne.
    induction m as [|[k0 e0] m IH]; [done|]. simpl.
    destruct (bool_decide (k0 = k)); simpl; by rewrite IH.
  - unfold map_ok, map_keys. rewrite list_fmap_map, map_rev, map_map, <- Permutation_rev. exact Hm.
Qed.

Lemma get_refines now k c :
  wf c -> (forall kv, kv ∈ emap c -> expiresAt kv.2 = None) ->
  (get now k c).1 = (spec_get k (abs c)).1 /\ abs (get now k c).2 = (spec_get k (abs c)).2 /\
  (forall kv, kv ∈ emap (get now k c).2 -> expiresAt kv.2 = None).
Proof.
  intros Hwf Hexp. unfold spec_get. rewrite abs_get by done. unfold get.
  destruct (map_get k (emap c)) as [e|] eqn:E; simpl; [|done].
  pose proof (map_get_elem _ _ _ E) as Hin. pose proof (Hexp _ Hin) as He. simpl in He.
  unfold isExpired. rewrite He. simpl. pose proof (wf_keys _ Hwf) as Hk. split_and!; [done| |].
  - unfold abs. simpl. rewrite map_set_absent.
    + rewrite map_app, rev_app_distr. simpl. by rewrite abs_del.
    + rewrite map_get_del by done. by rewrite decide_True.
  - intros kv [->|Hd]%elem_of_map_set; [done|]. by apply Hexp, (elem_of_map_del k).
Qed.

Lemma set_refines now k v c :
  wf c -> ttlMs c = None -> (forall kv, kv ∈ emap c -> expiresAt kv.2 = None) ->
  abs (set now k v c) = spec_set (Z.to_nat (maxSize c)) k v (abs c) /\
  (forall kv, kv ∈ emap (set now k v c) -> expiresAt kv.2 = None).
Proof.
  intros Hwf Httl Hexp. pose proof (wf_keys _ Hwf) as Hk. unfold set. rewrite Httl.
  assert ((if map_has k (emap c) then map_del k (emap c) else emap c) = map_del k (emap c))
    as ->.
  { unfold map_has. destruct (map_get k (emap c)) eqn:E; [done|]. by rewrite map_del_absent. }
  rewrite map_set_absent.
  2: { rewrite map_get_del by done. by rewrite decide_True. }
  pose proof (wf_max _ Hwf).
  destruct (evict_spec (maxSize c) (map_del k (emap c) ++ [(k, Entry v None)]) ltac:(lia))
    as (n & -> & Hn). split.
  - unfold abs, spec_set. simpl. rewrite <- (abs_del k) by done.
    assert (rev (map (fun kv : string * entry => (kv.1, value kv.2))
                 (map_del k (emap c) ++ [(k, Entry v None)])) =
            (k, v) :: rev (map (fun kv => (kv.1, value kv.2)) (map_del k (emap c)))) as <-.
    { by rewrite map_app, rev_app_distr. }
    rewrite <- list_fmap_map, fmap_drop, list_fmap_map, rev_drop.
    rewrite length_app in Hn. simpl in Hn. rewrite length_map, length_app. simpl.
    destruct (decide (n = O)) as [->|Hn0]; [|f_equal; lia].
    rewrite !take_ge; [done|..]; rewrite length_rev, length_map, length_app; simpl; lia.
  - simpl. intros kv Hin%elem_of_drop_in. apply elem_of_app in Hin as [Hin|Hin].
    + by apply Hexp, (elem_of_map_del k).
    + apply list_elem_of_singleton in Hin. by subst.
Qed.

Lemma step_refines c o :
  wf c -> ttlMs c = None -> (forall kv, kv ∈ emap c -> expiresAt kv.2 = None) ->
  spec_step (Z.to_nat (maxSize c)) (abs c) o = abs (step c o) /\
  ttlMs (step c o) = None /\
  (forall kv, kv ∈ emap (step c o) -> expiresAt kv.2 = None).
Proof.
  intros Hwf Httl Hexp.
  assert (Hg : forall now k, ttlMs (get now k c).2 = None).
  { intros. unfold get. by repeat case_match. }
  assert (Hs : forall now k v c0, ttlMs c0 = None -> ttlMs (set now k v c0) = None).
  { intros. unfold set. by case_match. }
  destruct o as [now k|now k v|t1 t2 k r|now k|now k v|k|k|]; cbn [step spec_step];
    unfold async_then.
  - destruct (get_refines now k c Hwf Hexp) as (_ & ? & ?). auto.
  - destruct (set_refines now k v c Hwf Httl Hexp) as [-> ?]. auto.
  - unfold getOrCompute. destruct (get_refines t1 k c Hwf Hexp) as (Ev & Es & Hx).
    pose proof (get_wf t1 k c Hwf) as Hwf'. pose proof (Hg t1 k) as Httl'.
    pose proof (get_counts t1 k c) as [_ Hm].
    destruct (get t1 k c) as [v c1]. destruct (spec_get k (abs c)) as [v' s']. simpl in *.
    subst v' s'. destruct v as [v|]; [done|]. destruct r as [v|e]; [|done]. cbn [snd].
    rewrite <- Hm. destruct (set_refines t2 k v c1 Hwf' Httl' Hx) as [-> ?]. auto.
  - unfold getOrComputeAsync. destruct (get_refines now k c Hwf Hexp) as (_ & <- & Hx).
    pose proof (Hg now k) as Httl'.
    destruct (get now k c) as [[v|] c1]; simpl in *; [done|]. by case_match.
  - destruct (set_refines now k v c Hwf Httl Hexp) as [-> ?]. auto.
  - done.
  - split_and!; [|done|].
    + unfold abs. simpl. by rewrite (abs_del k) by apply Hwf.
    + intros kv Hkv. by apply Hexp, (elem_of_map_del k).
  - split_and!; [done..|]. intros kv Hkv. by apply not_elem_of_nil in Hkv.
Qed.

End Cache.

Arguments cache V : clear implicits.
Arguments entry V : clear implicits.
Arguments op V : clear implicits.

(** ** Properties *)

(** From any accepted construction and after any sequence of
    operations (synchronous and asynchronous, at any times, with factories that
    throw), the cache holds at most [maxSize] entries with distinct keys, the
    in-flight table has one slot per key, the live size never exceeds the stored
    size, and the hit and miss counters add up to the number of lookups. *)
Theorem cache_bounded {V} (max : Z) (ttl : option Z) (c : cache V) (ops : list (op V)) (now : Z) :
  create max ttl = Ok c ->
  let c' := run c ops in
  size c' <= max /\ map_ok (emap c') /\ map_ok (inFlight c') /\
  liveSize now c' <= size c' /\
  hits c' + misses c' = lookups ops.
Proof.
  intros H c'. pose proof (run_wf ops c (create_wf _ _ _ H)) as [H1 H2 H3 H4].
  destruct (run_counts ops c) as [Hc Hm].
  assert (hits c = 0 /\ misses c = 0 /\ maxSize c = max) as (E1 & E2 & E3).
  { revert H. unfold create. repeat case_match; intros; simplify_eq; done. }
  subst c'. rewrite Hm, E3 in H3. split_and!; auto; [|lia].
  unfold liveSize, size. case_match; [|lia]. apply inj_le, filter_length_le.
Qed.

Lemma cache_bounded_witness :
  exists c : cache Z, create 2 (Some 10) = Ok c /\
  size (run c [OSet 0 "a" 1; OSet 0 "b" 2; OGet 1 "a"; OSet 2 "c" 3; OGet 2 "b"]) <= 2.
Proof.
  eexists. split; [reflexivity|].
  apply (cache_bounded 2 (Some 10) _ _ 0). reflexivity.
Defined.

(** Without a lifetime, a cache refines the abstract
    least-recently-used store: after any sequence of operations its contents,
    latest use first, are those of the store that keeps the [maxSize] most
    recently used keys, and every lookup answers as the store does. *)
Theorem lru_refinement {V} (max : Z) (c : cache V) (ops : list (op V)) (now : Z) (key : string) :
  create max None = Ok c ->
  let s := fold_left (spec_step (Z.to_nat max)) ops [] in
  abs (run c ops) = s /\ (get now key (run c ops)).1 = (spec_get key s).1.
Proof.
  intros Hc s. assert (Hwf : wf c) by (by eapply create_wf).
  assert (abs c = [] /\ maxSize c = max /\ ttlMs c = None /\
          forall kv, kv ∈ emap c -> expiresAt kv.2 = None) as (Ha & Hmax & Httl & Hexp).
  { revert Hc. unfold create. case_match; [done|]. intros [= <-]. simpl.
    split_and!; [done..|]. intros kv Hkv. by apply not_elem_of_nil in Hkv. }
  subst s. rewrite <- Ha. clear Ha. clear Hc. revert c Hwf Hmax Httl Hexp.
  induction ops as [|o ops IH]; intros c Hwf Hmax Httl Hexp; simpl.
  - split; [done|]. by apply get_refines.
  - destruct (step_refines c o Hwf Httl Hexp) as (E & Httl' & Hexp').
    rewrite Hmax in E. rewrite E. apply IH; auto using step_wf.
    rewrite <- Hmax. apply step_counts.
Qed.

Lemma lru_refinement_witness :
  exists c : cache Z, create 2 None = Ok c /\
  (get 9 "b" (run c [OSet 0 "a" 1; OSet 0 "b" 2; OGet 1 "a"; OSet 2 "c" 3])).1 = None /\
  (get 9 "b" (run c [OSet 0 "a" 1; OSet 0 "b" 2; OGet 1 "a"; OSet 2 "c" 3])).1 =
  (spec_get "b" (fold_left (spec_step 2)
     [OSet 0 "a" 1; OSet 0 "b" 2; OGet 1 "a"; OSet 2 "c" 3] [])).1.
Proof.
  eexists. split; [reflexivity|]. split; [reflexivity|].
  apply (lru_refinement 2 _ _ 9). reflexivity.
Defined.

End LruCache.
