(* ===== verification/ContextShift.v ===== *)
(** * Context shifting (apps/server/src/pipeline/contextShift.ts)

    Messages are objects: [mref] is the identity that [Set<PromptMessage>],
    [indexOf] and [new Set] compare.  A token counter is a function of the text
    (whole tokens); [relevance] is absent when it is missing or not finite.
    Sorting keys are rationals.  [buildExtractiveSummary] loops until the text
    is short enough, so it and the [summarize] strategy take fuel. *)

From Stdlib Require Import ZArith Lia Bool Ascii String List Permutation QArith_base Qminmax.
From stdpp Require Import base decidable gmap strings list sorting.
From S2P Require Import Prelude.
Local Open Scope Z_scope.

Module ContextShift.

(** ** Data *)

Inductive MessageRole := System | User | Assistant | Tool | Plugin.
Inductive MessageSource :=
| SrcSystem | SrcHistory | SrcUser | SrcLorebook | SrcMemory | SrcPlugin | SrcTemplate.

#[global] Instance role_eq : EqDecision MessageRole.
Proof. solve_decision. Defined.
#[global] Instance source_eq : EqDecision MessageSource.
Proof. solve_decision. Defined.

Record PromptMessage := Msg {
  mref : nat;
  mid : option string;
  role : MessageRole;
  content : string;
  name : option string;
  pinned : bool;
  pairId : option string;
  source : option MessageSource;
  relevance : option Q
}.

Definition same (a b : PromptMessage) : bool := (mref a =? mref b)%nat.
Definition has (l : list PromptMessage) (m : PromptMessage) : bool := existsb (same m) l.

Record ContextShiftResult := Result {
  kept : list PromptMessage;
  excluded : list PromptMessage;
  estimatedTokens : Z;
  truncated : bool;
  fitsBudget : bool;
  strategy : option string;
  summaryCreated : option bool;
  manualFallback : option bool
}.

Definition TokenCounter := string -> Z.

(** ** Protected messages and tool groups *)

Definition isProtectedMessage (m : PromptMessage) : bool :=
  pinned m ||
  (bool_decide (role m = System) &&
   match source m with None | Some SrcSystem => true | Some _ => false end).

Definition isRole (r : MessageRole) (m : PromptMessage) : bool := bool_decide (role m = r).

(** [message.pairId] as a condition: present and not empty. *)
Definition pair_of (m : PromptMessage) : option string :=
  match pairId m with
  | Some p => if (p =? "")%string then None else Some p
  | None => None
  end.

(** [messages.indexOf(message)] and [messages[i]] for any integer index. *)
Fixpoint indexOf (l : list PromptMessage) (m : PromptMessage) : Z :=
  match l with
  | [] => -1
  | x :: r => if same x m then 0 else
              let i := indexOf r m in if i <? 0 then -1 else i + 1
  end.

Definition at_index (l : list PromptMessage) (i : Z) : option PromptMessage :=
  if i <? 0 then None else l !! Z.to_nat i.

Definition linkedToolMessages (messages : list PromptMessage) (m : PromptMessage)
    : list PromptMessage :=
  match pair_of m with
  | Some p =>
      List.filter (fun c => bool_decide (pairId c = Some p) && (isRole Assistant c || isRole Tool c))
             messages
  | None =>
      let index := indexOf messages m in
      if isRole Tool m then
        match at_index messages (index - 1) with
        | Some previous => if isRole Assistant previous then [previous; m] else [m]
        | None => [m]
        end
      else if isRole Assistant m then
        match at_index messages (index + 1) with
        | Some next => if isRole Tool next then [m; next] else [m]
        | None => [m]
        end
      else [m]
  end.

(** ** [shiftContext] *)

Section Shift.
Context (countTokens : TokenCounter).

Definition cost (overhead : Z) (m : PromptMessage) : Z := countTokens (content m) + overhead.
Definition totalFor (overhead : Z) (items : list PromptMessage) : Z :=
  zsum (map (cost overhead) items).

(** [options.removalPriority?.(message, index) ?? index] *)
Definition removalKey (priority : option (PromptMessage -> Z -> Q)) (mi : PromptMessage * Z) : Q :=
  match priority with
  | Some f => f mi.1 mi.2
  | None => inject_Z mi.2
  end.

Fixpoint with_index (l : list PromptMessage) (i : Z) : list (PromptMessage * Z) :=
  match l with
  | [] => []
  | m :: r => (m, i) :: with_index r (i + 1)
  end.

Definition removable (priority : option (PromptMessage -> Z -> Q)) (messages : list PromptMessage)
    : list PromptMessage :=
  map fst (stable_sort (fun a b => Qle_bool (removalKey priority a) (removalKey priority b))
     (List.filter (fun mi => negb (isProtectedMessage mi.1)) (with_index messages 0))).

(** The inner function [remove]: the set [removed] and the array [excluded]
    always hold the same objects. *)
Definition remove (excl : list PromptMessage) (m : PromptMessage) : list PromptMessage :=
  if has excl m then excl else excl ++ [m].

Definition without (messages excl : list PromptMessage) : list PromptMessage :=
  List.filter (fun c => negb (has excl c)) messages.

Fixpoint shift_loop (overhead budget : Z) (messages queue : list PromptMessage)
    (total : Z) (excl : list PromptMessage) : list PromptMessage :=
  match queue with
  | [] => excl
  | m :: queue' =>
      if total <=? budget then excl
      else
        let group := linkedToolMessages messages m in
        if existsb isProtectedMessage group then
          shift_loop overhead budget messages queue' total excl
        else
          let excl' := fold_left remove group excl in
          shift_loop overhead budget messages queue'
            (totalFor overhead (without messages excl')) excl'
  end.

(** Both optional fields that the source reads have their defaults here:
    [perMessageOverhead] is 4. *)
Definition shiftContext (priority : option (PromptMessage -> Z -> Q))
    (messages : list PromptMessage) (budget : Z) : ContextShiftResult :=
  let overhead := 4 in
  let excl := shift_loop overhead budget messages (removable priority messages)
                (totalFor overhead messages) [] in
  let k := without messages excl in
  let total := totalFor overhead k in
  Result k excl total (negb (bool_decide (excl = []))) (total <=? budget) None None None.

End Shift.

(** ** Lemmas on identities and groups *)

(** Two references to one object show the same fields. *)
Definition coherent (l : list PromptMessage) : Prop :=
  forall a b, a ∈ l -> b ∈ l -> mref a = mref b -> a = b.

Lemma same_true a b : same a b = true <-> mref a = mref b.
Proof. unfold same. apply Nat.eqb_eq. Qed.

Lemma has_true l m : has l m = true <-> exists x, x ∈ l /\ mref x = mref m.
Proof.
  unfold has. rewrite existsb_exists. setoid_rewrite same_true. split.
  - intros (x & Hx & E). exists x. by rewrite elem_of_In.
  - intros (x & Hx & E). exists x. by rewrite <- elem_of_In.
Qed.

Lemma has_in l m : m ∈ l -> has l m = true.
Proof. intros. apply has_true. eauto. Qed.

Lemma remove_incl l m x : x ∈ l -> x ∈ remove l m.
Proof. unfold remove. case_match; [done|]. intros. apply elem_of_app. by left. Qed.

Lemma remove_has l m : has (remove l m) m = true.
Proof.
  unfold remove. case_match; [done|]. apply has_in, elem_of_app. right. by left.
Qed.

Lemma remove_elem l m x : x ∈ remove l m -> x ∈ l \/ x = m.
Proof.
  unfold remove. case_match; [auto|]. intros [?|Hx]%elem_of_app; [auto|].
  apply list_elem_of_singleton in Hx. auto.
Qed.

Lemma remove_all_incl g l x : x ∈ l -> x ∈ fold_left remove g l.
Proof. revert l. induction g as [|m g IH]; simpl; auto using remove_incl. Qed.

Lemma remove_all_elem g l x : x ∈ fold_left remove g l -> x ∈ l \/ x ∈ g.
Proof.
  revert l. induction g as [|m g IH]; simpl; [auto|]. intros l H.
  apply IH in H as [H|H]; [|right; by right].
  apply remove_elem in H as [H| ->]; [auto | right; by left].
Qed.

Lemma has_mono l l' m : (forall x, x ∈ l -> x ∈ l') -> has l m = true -> has l' m = true.
Proof. rewrite !has_true. naive_solver. Qed.

Lemma remove_all_has g l m : m ∈ g -> has (fold_left remove g l) m = true.
Proof.
  revert l. induction g as [|c g IH]; intros l H; [destruct (not_elem_of_nil _ H)|].
  simpl. apply elem_of_cons in H as [->|H]; [|by apply IH].
  eapply has_mono; [by apply remove_all_incl | apply remove_has].
Qed.

Lemma at_index_elem l i m : at_index l i = Some m -> m ∈ l.
Proof. unfold at_index. case_match; [done|]. apply list_elem_of_lookup_2. Qed.

Lemma linked_elem messages m x :
  m ∈ messages -> x ∈ linkedToolMessages messages m -> x ∈ messages.
Proof.
  intros Hm. unfold linkedToolMessages.
  destruct (pair_of m); [rewrite elem_of_filter_bool; tauto|].
  assert (H1 : x ∈ [m] -> x ∈ messages) by (intros ->%list_elem_of_singleton; done).
  repeat case_match; try exact H1;
    (intros [->|[->|[]%not_elem_of_nil]%elem_of_cons]%elem_of_cons;
     eauto using at_index_elem).
Qed.

Lemma with_index_fst l i : map fst (with_index l i) = l.
Proof. revert i. induction l as [|m l IH]; intros i; simpl; by rewrite ?IH. Qed.

Lemma removable_elem prio messages m :
  m ∈ removable prio messages <-> m ∈ messages /\ isProtectedMessage m = false.
Proof.
  unfold removable. rewrite <- list_fmap_map, list_elem_of_fmap.
  setoid_rewrite elem_of_stable_sort. setoid_rewrite elem_of_filter_bool.
  setoid_rewrite negb_true_iff.
  assert (m ∈ messages <-> exists mi, m = mi.1 /\ mi ∈ with_index messages 0) as ->;
    [|naive_solver].
  by rewrite <- list_elem_of_fmap, list_fmap_map, with_index_fst.
Qed.

(** ** The removal loop *)

Section Loop.
Context (countTokens : TokenCounter) (overhead budget : Z) (messages : list PromptMessage).

Abbreviation loop := (shift_loop countTokens overhead budget messages).
Abbreviation total_of excl := (totalFor countTokens overhead (without messages excl)).

Lemma loop_incl queue total excl x : x ∈ excl -> x ∈ loop queue total excl.
Proof.
  revert total excl. induction queue as [|m q IH]; intros total excl H; simpl; [done|].
  repeat case_match; auto. apply IH. by apply remove_all_incl.
Qed.

(** Only whole unprotected groups of the queued messages are removed. *)
Lemma loop_elem queue total excl x :
  x ∈ loop queue total excl ->
  x ∈ excl \/
  exists m, m ∈ queue /\ x ∈ linkedToolMessages messages m /\
    existsb isProtectedMessage (linkedToolMessages messages m) = false.
Proof.
  revert total excl. induction queue as [|m q IH]; intros total excl; simpl; [auto|].
  case_match; [auto|]. destruct (existsb _ _) eqn:Hp.
  - intros [Hx|(m' & ? & ?)]%IH; [auto|]. right. exists m'. split; [by right | done].
  - intros [Hx|(m' & ? & ?)]%IH.
    + apply remove_all_elem in Hx as [Hx|Hx]; [auto|]. right. exists m. split; [by left | done].
    + right. exists m'. split; [by right | done].
Qed.

Lemma loop_unprotected queue total excl x :
  (forall y, y ∈ excl -> isProtectedMessage y = false) ->
  x ∈ loop queue total excl -> isProtectedMessage x = false.
Proof.
  intros He [H|(m & _ & Hx & Hp)]%loop_elem; [auto|].
  destruct (isProtectedMessage x) eqn:E; [|done].
  assert (existsb isProtectedMessage (linkedToolMessages messages m) = true); [|congruence].
  apply existsb_exists. exists x. by rewrite <- elem_of_In.
Qed.

(** When the loop ends over budget, it has gone through every queued message:
    each group is protected or completely removed. *)
Lemma loop_complete queue excl :
  total_of (loop queue (total_of excl) excl) <= budget \/
  forall m, m ∈ queue ->
    existsb isProtectedMessage (linkedToolMessages messages m) = true \/
    forall c, c ∈ linkedToolMessages messages m ->
              has (loop queue (total_of excl) excl) c = true.
Proof.
  revert excl. induction queue as [|m q IH]; intros excl; simpl.
  - right. intros m H. destruct (not_elem_of_nil _ H).
  - destruct (Z.leb_spec (total_of excl) budget) as [Hle|Hgt]; [by left|].
    destruct (existsb _ _) eqn:Hp.
    + destruct (IH excl) as [H|H]; [by left|]. right.
      intros m' [->|Hm']%elem_of_cons; auto.
    + set (excl' := fold_left remove (linkedToolMessages messages m) excl).
      destruct (IH excl') as [H|H]; [by left|]. right.
      intros m' [->|Hm']%elem_of_cons; [|auto]. right. intros c Hc.
      eapply has_mono; [by apply loop_incl|]. by apply remove_all_has.
Qed.

Lemma loop_fits queue total excl : total <= budget -> loop queue total excl = excl.
Proof. intros H. destruct queue as [|m q]; simpl; [done|]. apply Z.leb_le in H. by rewrite H. Qed.

End Loop.

Lemma without_nil l : without l [] = l.
Proof. by apply filter_all. Qed.

(** Removal never lists an object twice. *)
Lemma remove_nodup l m : NoDup (map mref l) -> NoDup (map mref (remove l m)).
Proof.
  unfold remove. destruct (has l m) eqn:E; [done|]. intros Hnd.
  rewrite map_app. apply NoDup_app. split_and!; [done| |apply NoDup_singleton].
  intros r Hr Hm. apply list_elem_of_singleton in Hm as ->.
  apply list_elem_of_fmap in Hr as (x & Ex & Hx).
  assert (has l m = true); [|congruence]. apply has_true. eauto.
Qed.

Lemma remove_all_nodup g l : NoDup (map mref l) -> NoDup (map mref (fold_left remove g l)).
Proof. revert l. induction g as [|m g IH]; simpl; auto using remove_nodup. Qed.

Lemma loop_nodup ct ov b msgs queue total excl :
  NoDup (map mref excl) -> NoDup (map mref (shift_loop ct ov b msgs queue total excl)).
Proof.
  revert total excl. induction queue as [|m q IH]; intros total excl H; simpl; [done|].
  repeat case_match; auto using remove_all_nodup.
Qed.

Lemma nodup_coherent l : NoDup (map mref l) -> coherent l.
Proof.
  induction l as [|m l IH]; intros Hnd a b Ha Hb E; [destruct (not_elem_of_nil _ Ha)|].
  apply NoDup_cons in Hnd as [Hm Hnd].
  apply elem_of_cons in Ha as [->|Ha]; apply elem_of_cons in Hb as [->|Hb];
    [done | | | by apply IH].
  - destruct Hm. rewrite E. by apply list_elem_of_fmap_2.
  - destruct Hm. rewrite <- E. by apply list_elem_of_fmap_2.
Qed.

Lemma coherent_has l excl m :
  coherent l -> (forall x, x ∈ excl -> x ∈ l) -> m ∈ l -> has excl m = true <-> m ∈ excl.
Proof.
  intros Hc He Hm. rewrite has_true. split; [|eauto].
  intros (x & Hx & E). by rewrite <- (Hc x m (He _ Hx) Hm E).
Qed.

Lemma shift_excluded_elem ct prio msgs b x :
  x ∈ excluded (shiftContext ct prio msgs b) -> x ∈ msgs /\ isProtectedMessage x = false.
Proof.
  intros Hx. simpl in Hx. split.
  - apply loop_elem in Hx as [H|(m & Hm & Hx & _)]; [destruct (not_elem_of_nil _ H)|].
    apply removable_elem in Hm as [Hm _]. by eapply linked_elem.
  - eapply loop_unprotected; [|exact Hx]. intros y H. destruct (not_elem_of_nil _ H).
Qed.

Lemma kept_iff ct prio msgs b m :
  coherent msgs -> m ∈ msgs ->
  m ∈ kept (shiftContext ct prio msgs b) <-> m ∉ excluded (shiftContext ct prio msgs b).
Proof.
  intros Hc Hm.
  pose proof (coherent_has msgs (excluded (shiftContext ct prio msgs b)) m Hc
                (fun x Hx => proj1 (shift_excluded_elem _ _ _ _ _ Hx)) Hm) as Hh.
  simpl in *. unfold without at 1. rewrite elem_of_filter_bool, negb_true_iff.
  rewrite <- Hh, not_true_iff_false. tauto.
Qed.

Lemma kept_protected ct prio msgs b m :
  coherent msgs -> m ∈ msgs -> isProtectedMessage m = true ->
  m ∈ kept (shiftContext ct prio msgs b).
Proof.
  intros Hc Hm Hp. apply kept_iff; [done..|]. intros Hx.
  apply shift_excluded_elem in Hx as [_ E]. congruence.
Qed.

Lemma kept_elem ct prio msgs b m : m ∈ kept (shiftContext ct prio msgs b) -> m ∈ msgs.
Proof. simpl. unfold without. rewrite elem_of_filter_bool. tauto. Qed.

Lemma kept_fits ct prio msgs b :
  fitsBudget (shiftContext ct prio msgs b) = true ->
  totalFor ct 4 (kept (shiftContext ct prio msgs b)) <= b.
Proof. simpl. apply Z.leb_le. Qed.

(** ** Properties of [shiftContext] *)

(** C30: Whatever the removal order, [shiftContext] returns a
    subsequence of the messages that contains every pinned and every host system
    message; kept and excluded messages partition the input, no object is listed
    twice as excluded, the reported estimate is the cost of the kept messages with
    4 tokens of overhead each, [fitsBudget] compares it with the budget, and a
    conversation that fits is returned unchanged. *)
Theorem shiftContext_sound (countTokens : TokenCounter) prio (messages : list PromptMessage)
    (budget : Z) :
  coherent messages ->
  let r := shiftContext countTokens prio messages budget in
  kept r `sublist_of` messages /\
  (forall m, m ∈ messages -> isProtectedMessage m = true -> m ∈ kept r) /\
  (forall m, m ∈ messages -> (m ∈ kept r <-> m ∉ excluded r)) /\
  (forall m, m ∈ excluded r -> m ∈ messages /\ isProtectedMessage m = false) /\
  NoDup (map mref (excluded r)) /\
  estimatedTokens r = zsum (map (fun m => countTokens (content m) + 4) (kept r)) /\
  fitsBudget r = (estimatedTokens r <=? budget) /\
  (truncated r = true <-> excluded r <> []) /\
  (totalFor countTokens 4 messages <= budget -> kept r = messages /\ excluded r = []).
Proof.
  intros Hc r. split_and!.
  - apply filter_sublist.
  - intros m Hm. by apply kept_protected.
  - intros m Hm. by apply kept_iff.
  - intros m Hm. by eapply shift_excluded_elem.
  - apply loop_nodup, NoDup_nil_2.
  - done.
  - done.
  - simpl. by rewrite negb_true_iff, bool_decide_eq_false.
  - intros Hfit. subst r. unfold shiftContext. simpl.
    rewrite loop_fits by done. by rewrite without_nil.
Qed.

(** The removal loop stops within the budget or with nothing left to remove. *)
Lemma shiftContext_fit_or ct prio messages b :
  let r := shiftContext ct prio messages b in
  fitsBudget r = true \/
  forall m, m ∈ messages -> isProtectedMessage m = false ->
    existsb isProtectedMessage (linkedToolMessages messages m) = true \/
    forall c, c ∈ linkedToolMessages messages m -> has (excluded r) c = true.
Proof.
  intros r. destruct (loop_complete ct 4 b messages (removable prio messages) []) as [H|H].
  - left. simpl. rewrite without_nil in H. by apply Z.leb_le.
  - right. intros m Hm Hp. rewrite without_nil in H. apply H. by apply removable_elem.
Qed.

(** When the result still exceeds the budget, nothing more
    could be dropped: the linked group of every unprotected message either holds
    a protected message or has been removed entirely. *)
Theorem shiftContext_complete (countTokens : TokenCounter) prio (messages : list PromptMessage)
    (budget : Z) :
  let r := shiftContext countTokens prio messages budget in
  fitsBudget r = true \/
  forall m, m ∈ messages -> isProtectedMessage m = false ->
    existsb isProtectedMessage (linkedToolMessages messages m) = true \/
    forall c, c ∈ linkedToolMessages messages m -> c ∉ kept r.
Proof.
  intros r. destruct (shiftContext_fit_or countTokens prio messages budget) as [H|H]; [by left|].
  right. intros m Hm Hp. destruct (H m Hm Hp) as [?|Hg]; [by left|]. right. intros c Hc.
  simpl. unfold without at 1. rewrite elem_of_filter_bool, negb_true_iff.
  intros [_ Hn]. specialize (Hg c Hc). simpl in Hg. congruence.
Qed.

(** Every tool call and result carries its pair id: tool messages do, and an
    assistant message without one is not followed by a tool message. *)
Fixpoint tools_paired (l : list PromptMessage) : Prop :=
  match l with
  | [] => True
  | m :: r =>
      (isRole Tool m = true -> pair_of m <> None) /\
      (isRole Assistant m = true -> pair_of m = None ->
       match r with n :: _ => isRole Tool n = false | [] => True end) /\
      tools_paired r
  end.

Definition same_group (p : string) (m : PromptMessage) : Prop :=
  pairId m = Some p /\ (isRole Assistant m || isRole Tool m) = true.

Lemma pair_of_Some m p : pair_of m = Some p <-> pairId m = Some p /\ p <> ""%string.
Proof.
  unfold pair_of. destruct (pairId m) as [q|]; [|naive_solver].
  destruct (String.eqb_spec q ""); naive_solver.
Qed.

Lemma tools_paired_tool l m :
  tools_paired l -> m ∈ l -> isRole Tool m = true -> pair_of m <> None.
Proof.
  induction l as [|x l IH]; intros Ht Hm; [destruct (not_elem_of_nil _ Hm)|].
  destruct Ht as (H1 & _ & H3). apply elem_of_cons in Hm as [->|Hm]; auto.
Qed.

Lemma indexOf_next l m n :
  NoDup (map mref l) -> tools_paired l -> m ∈ l -> isRole Assistant m = true ->
  pair_of m = None -> at_index l (indexOf l m + 1) = Some n -> isRole Tool n = false.
Proof.
  induction l as [|x l IH]; intros Hnd Ht Hm Ha Hp; [destruct (not_elem_of_nil _ Hm)|].
  apply NoDup_cons in Hnd as [Hx Hnd]. destruct Ht as (_ & H2 & H3).
  cbn [indexOf]. destruct (same x m) eqn:E.
  - apply same_true in E. assert (x = m) as ->.
    { apply elem_of_cons in Hm as [->|Hm]; [done|]. destruct Hx. rewrite E.
      by apply list_elem_of_fmap_2. }
    specialize (H2 Ha Hp). destruct l as [|y l]; [done|]. intros [= <-]. exact H2.
  - apply elem_of_cons in Hm as [->|Hm]; [by rewrite (proj2 (same_true _ _) eq_refl) in E|].
    intros Hn. apply IH; auto. revert Hn. unfold at_index.
    assert (Hi : 0 <= indexOf l m).
    { clear -Hm. induction l as [|y l IH]; [destruct (not_elem_of_nil _ Hm)|].
      cbn [indexOf]. destruct (same y m) eqn:E; [lia|].
      apply elem_of_cons in Hm as [->|Hm]; [by rewrite (proj2 (same_true _ _) eq_refl) in E|].
      specialize (IH Hm). destruct (Z.ltb_spec (indexOf l m) 0); lia. }
    destruct (Z.ltb_spec (indexOf l m) 0); [lia|].
    destruct (Z.ltb_spec (indexOf l m + 1 + 1) 0); [lia|].
    destruct (Z.ltb_spec (indexOf l m + 1) 0); [lia|].
    by replace (Z.to_nat (indexOf l m + 1 + 1)) with (S (Z.to_nat (indexOf l m + 1))) by lia.
Qed.

(** Under [tools_paired] a group is a single message or all of a pair. *)
Lemma linked_paired l m :
  NoDup (map mref l) -> tools_paired l -> m ∈ l ->
  (pair_of m = None /\ linkedToolMessages l m = [m]) \/
  exists p, pair_of m = Some p /\
    forall c, c ∈ linkedToolMessages l m <-> c ∈ l /\ same_group p c.
Proof.
  intros Hnd Ht Hm. unfold linkedToolMessages. destruct (pair_of m) as [p|] eqn:E.
  - right. exists p. split; [done|]. intros c. unfold same_group.
    by rewrite elem_of_filter_bool, andb_true_iff, bool_decide_eq_true.
  - left. split; [done|]. destruct (isRole Tool m) eqn:Et.
    { exfalso. by apply (tools_paired_tool l m Ht Hm Et). }
    destruct (isRole Assistant m) eqn:Ea; [|done].
    destruct (at_index l (indexOf l m + 1)) as [n|] eqn:En; [|done].
    by rewrite (indexOf_next l m n Hnd Ht Hm Ea E En).
Qed.

Definition pair_closed (l excl : list PromptMessage) : Prop :=
  forall p a b, p <> ""%string -> a ∈ l -> b ∈ l -> same_group p a -> same_group p b ->
    has excl a = true -> has excl b = true.

Lemma has_remove_all g l m : has (fold_left remove g l) m = has l m || has g m.
Proof.
  revert l. induction g as [|c g IH]; intros l; simpl; [by rewrite orb_false_r|].
  rewrite IH. assert (has (remove l c) m = has l m || same m c) as ->.
  { unfold remove. destruct (has l c) eqn:E.
    - destruct (same m c) eqn:Es; [|by rewrite orb_false_r]. rewrite orb_true_r.
      apply same_true in Es. apply has_true in E as (x & Hx & Ex). apply has_true.
      exists x. split; [done | congruence].
    - unfold has. rewrite existsb_app. simpl. by rewrite orb_false_r. }
  by rewrite <- orb_assoc.
Qed.

Lemma loop_pair_closed ct ov b l queue total excl :
  NoDup (map mref l) -> tools_paired l -> (forall m, m ∈ queue -> m ∈ l) ->
  pair_closed l excl -> pair_closed l (shift_loop ct ov b l queue total excl).
Proof.
  intros Hnd Ht. revert total excl. induction queue as [|m q IH]; intros total excl Hq Hc;
    simpl; [done|].
  assert (Hq' : forall m', m' ∈ q -> m' ∈ l) by (intros; apply Hq; by right).
  case_match; [done|]. case_match; [auto|]. apply IH; [done|].
  intros p x y Hp Hx Hy Gx Gy. rewrite !has_remove_all, !orb_true_iff.
  intros [Hh|Hh]; [left; eapply Hc; eauto|]. right.
  apply has_true in Hh as (c & Hcg & Ec).
  assert (c = x) as ->.
  { apply (nodup_coherent l Hnd); auto. eapply linked_elem; [apply Hq; by left | done]. }
  destruct (linked_paired l m Hnd Ht) as [[Hn Hg]|(p' & Hpm & Hg)]; [apply Hq; by left| |].
  - rewrite Hg in Hcg. apply list_elem_of_singleton in Hcg as ->. destruct Gx as [Gx _].
    assert (pair_of m = Some p) by (by apply pair_of_Some). congruence.
  - destruct (proj1 (Hg x) Hcg) as [_ Gc]. assert (E : p' = p) by (destruct Gc, Gx; congruence).
    apply has_in, Hg. by rewrite E.
Qed.

(** Tool calls and their results are removed as linked groups.  When
    every tool call and result carries a pair id, the assistant and tool messages
    of a pair are kept or dropped together, whatever the budget. *)
Theorem tool_pairs_atomic (countTokens : TokenCounter) prio (messages : list PromptMessage)
    (budget : Z) (a b : PromptMessage) (p : string) :
  NoDup (map mref messages) -> tools_paired messages -> p <> ""%string ->
  a ∈ messages -> b ∈ messages -> same_group p a -> same_group p b ->
  let r := shiftContext countTokens prio messages budget in
  a ∈ kept r <-> b ∈ kept r.
Proof.
  intros Hnd Ht Hp Ha Hb Ga Gb r.
  assert (Hcl : pair_closed messages (excluded r)).
  { apply loop_pair_closed; [done..| |].
    - intros m Hm. by apply removable_elem in Hm as [? _].
    - intros p' x y _ _ _ _ _. done. }
  unfold r, shiftContext. simpl. unfold without. rewrite !elem_of_filter_bool, !negb_true_iff.
  pose proof (Hcl p a b Hp Ha Hb Ga Gb). pose proof (Hcl p b a Hp Hb Ha Gb Ga).
  simpl in *. rewrite <- !not_true_iff_false. tauto.
Qed.

(** ** The default order: oldest first, and no more than needed *)

Lemma insert_sorted_head {A} (le : A -> A -> bool) x l :
  (forall y, y ∈ l -> le x y = true) -> insert_sorted le x l = x :: l.
Proof. destruct l as [|y l]; simpl; [done|]. intros H. by rewrite (H y) by left. Qed.

Lemma with_index_ge l i mi : mi ∈ with_index l i -> i <= mi.2.
Proof.
  revert i. induction l as [|m l IH]; intros i H; [destruct (not_elem_of_nil _ H)|].
  apply elem_of_cons in H as [->|H]; simpl; [lia|]. apply IH in H. lia.
Qed.

(** Without a [removalPriority] the removable messages are taken in order. *)
Lemma removable_default messages :
  removable None messages = List.filter (fun m => negb (isProtectedMessage m)) messages.
Proof.
  unfold removable. simpl. generalize 0. induction messages as [|m l IH]; intros i; [done|].
  simpl. rewrite <- (IH (i + 1)). destruct (negb (isProtectedMessage m)); [|done]. simpl.
  rewrite insert_sorted_head; [done|]. intros mi Hmi.
  apply elem_of_stable_sort in Hmi. apply elem_of_filter_bool in Hmi as [Hmi _].
  apply with_index_ge in Hmi. apply Qle_bool_iff. unfold removalKey. simpl.
  rewrite <- Zle_Qle. lia.
Qed.

Lemma loop_minimal ct ov b l q done :
  (forall m, m ∈ q -> linkedToolMessages l m = [m] /\ isProtectedMessage m = false) ->
  NoDup (map mref (done ++ q)) ->
  exists n, (n <= length q)%nat /\
    shift_loop ct ov b l q (totalFor ct ov (without l done)) done = done ++ take n q /\
    forall k, (k < n)%nat -> b < totalFor ct ov (without l (done ++ take k q)).
Proof.
  revert done. induction q as [|m q IH]; intros done Hq Hnd.
  - exists O. simpl. rewrite app_nil_r. split; [lia|]. split; [done | lia].
  - simpl. destruct (Z.leb_spec (totalFor ct ov (without l done)) b) as [Hle|Hgt].
    { exists O. simpl. rewrite app_nil_r. split; [lia|]. split; [done | lia]. }
    destruct (Hq m) as [Hg Hp]; [by left|]. rewrite Hg. simpl. rewrite Hp. simpl.
    assert (remove done m = done ++ [m]) as ->.
    { unfold remove. destruct (has done m) eqn:E; [|done]. exfalso.
      apply has_true in E as (x & Hx & Ex). rewrite map_app in Hnd.
      apply NoDup_app in Hnd as (_ & Hd & _). apply (Hd (mref m)).
      - rewrite <- Ex. by apply list_elem_of_fmap_2.
      - left. }
    destruct (IH (done ++ [m])) as (n & Hn & E & Hk).
    { intros x Hx. apply Hq. by right. }
    { by rewrite <- app_assoc. }
    exists (S n). split; [simpl; lia|]. rewrite E, <- app_assoc. split; [done|].
    intros [|k] Hlt; [by rewrite app_nil_r|]. specialize (Hk k ltac:(lia)).
    by rewrite <- app_assoc in Hk.
Qed.

(** For a conversation without tool messages, the default order
    drops the oldest unprotected messages first and stops as soon as the rest
    fits: the excluded messages are the shortest prefix of the unprotected ones
    whose removal meets the budget, or all of them. *)
Theorem shiftContext_oldest_first (countTokens : TokenCounter) (messages : list PromptMessage)
    (budget : Z) :
  NoDup (map mref messages) ->
  (forall m, m ∈ messages -> pair_of m = None /\ isRole Tool m = false) ->
  let unprotected := List.filter (fun m => negb (isProtectedMessage m)) messages in
  let r := shiftContext countTokens None messages budget in
  exists n, excluded r = take n unprotected /\
    (forall k, (k < n)%nat ->
       budget < totalFor countTokens 4 (without messages (take k unprotected))) /\
    (fitsBudget r = true \/ excluded r = unprotected).
Proof.
  intros Hnd Hm unprotected r.
  assert (Hsingle : forall m, m ∈ unprotected ->
            linkedToolMessages messages m = [m] /\ isProtectedMessage m = false).
  { intros m Hin. apply elem_of_filter_bool in Hin as [Hin Hp]. apply negb_true_iff in Hp.
    split; [|done]. destruct (Hm m Hin) as [E1 E2]. unfold linkedToolMessages.
    rewrite E1, E2. destruct (isRole Assistant m); [|done].
    destruct (at_index _ _) as [nx|] eqn:En; [|done].
    apply at_index_elem in En. by rewrite (proj2 (Hm nx En)). }
  assert (Hnu : NoDup (map mref ([] ++ unprotected))).
  { eapply sublist_NoDup; [exact Hnd|]. simpl. rewrite <- !list_fmap_map.
    by apply fmap_sublist, filter_sublist. }
  destruct (loop_minimal countTokens 4 budget messages unprotected [] Hsingle Hnu)
    as (n & Hn & E & Hk).
  rewrite without_nil in E. assert (Er : excluded r = take n unprotected).
  { unfold r, shiftContext. simpl. rewrite removable_default. exact E. }
  exists n. split; [done|]. split; [exact Hk|].
  destruct (decide (n < length unprotected)%nat) as [Hlt|Hge].
  - left. destruct (shiftContext_fit_or countTokens None messages budget) as [?|Hs]; [done|].
    exfalso. assert (Hx : is_Some (unprotected !! n)) by (apply lookup_lt_is_Some; lia).
    destruct Hx as [x Hx]. pose proof (list_elem_of_lookup_2 _ _ _ Hx) as Hxu.
    destruct (Hsingle x Hxu) as [Hg Hp]. apply elem_of_filter_bool in Hxu as [Hxm _].
    destruct (Hs x Hxm Hp) as [Hb|Hb].
    + rewrite Hg in Hb. simpl in Hb. by rewrite Hp in Hb.
    + specialize (Hb x ltac:(rewrite Hg; left)). change (has (excluded r) x = true) in Hb.
      rewrite Er in Hb. apply has_true in Hb as (y & Hy & Ey).
      apply elem_of_take in Hy as (j & Hy & Hj).
      assert (j = n); [|lia]. simpl in Hnu. rewrite <- list_fmap_map in Hnu.
      eapply (NoDup_lookup _ _ _ (mref x) Hnu); rewrite list_lookup_fmap.
      * by rewrite Hy, <- Ey.
      * by rewrite Hx.
  - right. rewrite Er. apply take_ge. lia.
Qed.

(** ** Witnesses: a system prompt, a pinned question, a tool exchange *)

Definition demo_msg (r : nat) (ro : MessageRole) (c : string) (pin : bool)
    (pair : option string) : PromptMessage :=
  Msg r None ro c None pin pair None None.

Definition demo : list PromptMessage :=
  [ demo_msg 0 System "you are a bard" false None;
    demo_msg 1 User "hello" false None;
    demo_msg 2 Assistant "call" false (Some "p1");
    demo_msg 3 User "meanwhile" false None;
    demo_msg 4 Tool "result" false (Some "p1");
    demo_msg 5 User "now" true None ].

Definition demo_count (s : string) : Z := strlen s.

Lemma demo_nodup : NoDup (map mref demo).
Proof. apply (bool_decide_unpack _). vm_compute. exact I. Qed.

Lemma shiftContext_sound_witness :
  let r := shiftContext demo_count None demo 46 in
  map mref (kept r) = [0; 3; 5]%nat /\ fitsBudget r = true /\
  demo_msg 5 User "now" true None ∈ kept r.
Proof.
  cbv zeta. split; [vm_compute; reflexivity|]. split; [vm_compute; reflexivity|].
  destruct (shiftContext_sound demo_count None demo 46 (nodup_coherent _ demo_nodup))
    as (_ & Hp & _). apply Hp.
  - apply elem_of_In. vm_compute. tauto.
  - reflexivity.
Defined.

Lemma shiftContext_complete_witness :
  fitsBudget (shiftContext demo_count None demo 10) = false /\
  (fitsBudget (shiftContext demo_count None demo 10) = true \/
   forall m, m ∈ demo -> isProtectedMessage m = false ->
    existsb isProtectedMessage (linkedToolMessages demo m) = true \/
    forall c, c ∈ linkedToolMessages demo m -> c ∉ kept (shiftContext demo_count None demo 10)).
Proof. split; [vm_compute; reflexivity | exact (shiftContext_complete demo_count None demo 10)]. Defined.

Lemma tool_pairs_atomic_witness :
  demo_msg 4 Tool "result" false (Some "p1") ∉ kept (shiftContext demo_count None demo 46) /\
  (demo_msg 2 Assistant "call" false (Some "p1") ∈ kept (shiftContext demo_count None demo 46) <->
   demo_msg 4 Tool "result" false (Some "p1") ∈ kept (shiftContext demo_count None demo 46)).
Proof.
  split.
  - intros H. apply elem_of_In in H. vm_compute in H. naive_solver.
  - apply (tool_pairs_atomic demo_count None demo 46 _ _ "p1" demo_nodup).
    + simpl. repeat split; intros; done.
    + done.
    + apply elem_of_In. vm_compute. tauto.
    + apply elem_of_In. vm_compute. tauto.
    + split; reflexivity.
    + split; reflexivity.
Defined.

Definition demo_plain : list PromptMessage :=
  [ demo_msg 0 System "sys" false None; demo_msg 1 User "one" false None;
    demo_msg 2 Assistant "two" false None; demo_msg 3 User "three" false None ].

Lemma shiftContext_oldest_first_witness :
  map mref (excluded (shiftContext demo_count None demo_plain 20)) = [1; 2]%nat /\
  exists n, excluded (shiftContext demo_count None demo_plain 20) =
    take n (List.filter (fun m => negb (isProtectedMessage m)) demo_plain).
Proof.
  split; [vm_compute; reflexivity|].
  destruct (shiftContext_oldest_first demo_count demo_plain 20) as (n & H & _).
  - apply (bool_decide_unpack _). vm_compute. exact I.
  - intros m Hm. apply elem_of_In in Hm. simpl in Hm.
    repeat destruct Hm as [<-|Hm]; try done; by split.
  - by exists n.
Defined.

End ContextShift.
