(* ===== verification/ContextStrategy.v ===== *)
(** * Built-in context strategies and their registry
    (apps/server/src/pipeline/contextShift.ts)

    The four strategies [truncate], [summarize], [vector-recall] and [manual]
    on top of [shiftContext], the extractive summary, and the registry that
    plugins extend.  [summary_loop] is the [while] loop of the summary: [None]
    means that the fuel ran out before the loop ended. *)

From Stdlib Require Import ZArith Lia Bool Ascii String List Permutation QArith_base Qminmax Sorted.
From stdpp Require Import base decidable gmap strings list sorting.
From S2P Require Import Prelude ContextShift.
Import ContextShift.
Local Open Scope Z_scope.

Module ContextStrategy.

(** ** The extractive summary *)

Definition nl : ascii := "010".
(** U+2026, the character 133 of the model. *)
Definition ellipsis : ascii := "133".

(** [s.replace(/\s+/g, ' ')] *)
Fixpoint collapse_ws (l : list ascii) : list ascii :=
  match l with
  | [] => []
  | c :: r =>
      if is_ws c then
        match r with
        | d :: _ => if is_ws d then collapse_ws r else " "%char :: collapse_ws r
        | [] => [" "%char]
        end
      else c :: collapse_ws r
  end.

Definition trim_end (l : list ascii) : list ascii := rev (drop_while is_ws (rev l)).

Definition excerpt (s : string) : list ascii :=
  let normalized := trim_chars (collapse_ws (chars s)) in
  if (length normalized <=? 160)%nat then normalized
  else take 104 normalized ++ [" "%char; ellipsis; " "%char] ++
       drop (length normalized - 40) normalized.

Definition role_name (r : MessageRole) : string :=
  match r with
  | System => "system" | User => "user" | Assistant => "assistant"
  | Tool => "tool" | Plugin => "plugin"
  end.

Fixpoint join_lines (ls : list (list ascii)) : list ascii :=
  match ls with
  | [] => []
  | [l] => l
  | l :: r => l ++ nl :: join_lines r
  end.

Definition summary_prefix : list ascii := chars "[Summary of earlier context]" ++ [nl].

(** [body.slice(0, Math.max(24, Math.floor(body.length * 0.72))).trimEnd() + '…'] *)
Definition shorten (body : list ascii) : list ascii :=
  trim_end (take (Z.to_nat (Z.max 24 (mul_floor 6485183463413514 53 (Z.of_nat (length body))))) body)
    ++ [ellipsis].

Section Summary.
Context (countTokens : TokenCounter).

Fixpoint summary_loop (fuel : nat) (target : Z) (body : list ascii) : option string :=
  match fuel with
  | O => None
  | S f =>
      let summary := str (summary_prefix ++ body) in
      if (target <? countTokens summary) && (24 <? length body)%nat
      then summary_loop f target (shorten body)
      else Some summary
  end.

Definition summary_body (messages : list PromptMessage) : list ascii :=
  join_lines (map (fun m => chars (role_name (role m)) ++ [":"%char; " "%char] ++ excerpt (content m))
                  messages).

Definition buildExtractiveSummary (fuel : nat) (messages : list PromptMessage) (target : Z)
    : option string :=
  summary_loop fuel target (summary_body messages).

(** ** The strategies *)

Definition withStrategy (r : ContextShiftResult) (s : string) : ContextShiftResult :=
  Result (kept r) (excluded r) (estimatedTokens r) (truncated r) (fitsBudget r)
         (Some s) (summaryCreated r) (manualFallback r).

(** [[...new Set(messages)]] *)
Definition dedupeMessages (l : list PromptMessage) : list PromptMessage := fold_left remove l [].

Definition truncateStrategy (messages : list PromptMessage) (budget : Z) : ContextShiftResult :=
  withStrategy (shiftContext countTokens None messages budget) "truncate".

Definition summary_id : string := "core.context-summary".

(** The object literal [summaryMessage]: its identity is new. *)
Definition fresh_ref (l : list PromptMessage) : nat := S (list_max (map mref l)).

Definition summaryMessage (ref : nat) (summary : string) : PromptMessage :=
  Msg ref (Some summary_id) System summary None false None (Some SrcMemory) (Some 1%Q).

Definition is_summary (m : PromptMessage) : bool := bool_decide (mid m = Some summary_id).

(** [kept.findIndex(message => message.source === 'user')], or the length. *)
Fixpoint user_index (l : list PromptMessage) : nat :=
  match l with
  | [] => O
  | m :: r => if bool_decide (source m = Some SrcUser) then O else S (user_index r)
  end.

Definition summary_priority (m : PromptMessage) (index : Z) : Q :=
  if is_summary m then inject_Z (9007199254740991 - 1) else inject_Z index.

(** [Math.max(8, Math.min(128, Math.floor(budgetTokens * 0.35)))] *)
Definition summary_target (budget : Z) : Z :=
  Z.max 8 (Z.min 128 (mul_floor 6305039478318694 54 budget)).

Definition summarizeStrategy (fuel : nat) (messages : list PromptMessage) (budget : Z)
    : option ContextShiftResult :=
  let t := shiftContext countTokens None messages budget in
  if bool_decide (excluded t = []) then Some (withStrategy t "summarize")
  else
    match buildExtractiveSummary fuel (excluded t) (summary_target budget) with
    | None => None
    | Some summary =>
        let s := summaryMessage (fresh_ref messages) summary in
        let i := user_index (kept t) in
        let fitted := shiftContext countTokens (Some summary_priority)
                        (take i (kept t) ++ s :: drop i (kept t)) budget in
        let excl := dedupeMessages (excluded t ++
                      List.filter (fun m => negb (is_summary m)) (excluded fitted)) in
        Some (Result (kept fitted) excl (estimatedTokens fitted)
                (negb (bool_decide (excl = []))) (fitsBudget fitted) (Some "summarize"%string)
                (Some (existsb is_summary (kept fitted))) (manualFallback fitted))
    end.

Definition vector_priority (m : PromptMessage) (index : Z) : Q :=
  match source m with
  | Some SrcMemory | Some SrcLorebook =>
      let relevance := match relevance m with Some q => q | None => 0%Q end in
      (Qmax 0 (Qmin 1 relevance) * 10000)%Q
  | _ => inject_Z (20000 + index)
  end.

Definition vectorRecallStrategy (messages : list PromptMessage) (budget : Z) : ContextShiftResult :=
  withStrategy (shiftContext countTokens (Some vector_priority) messages budget) "vector-recall".

(** The set [manualSet] of the manual strategy: the unprotected members of the
    linked groups of the selected messages; [manual_step] is the loop body. *)
Definition manual_step (messages : list PromptMessage) (selected : list string)
    (acc : list PromptMessage) (m : PromptMessage) : list PromptMessage :=
  match mid m with
  | Some id =>
      if bool_decide (id ∈ selected)
      then fold_left remove
             (List.filter (fun c => negb (isProtectedMessage c)) (linkedToolMessages messages m)) acc
      else acc
  | None => acc
  end.

Definition manualSet (messages : list PromptMessage) (selected : list string) : list PromptMessage :=
  fold_left (manual_step messages selected) messages [].

Definition manualStrategy (messages : list PromptMessage) (budget : Z) (selected : list string)
    : ContextShiftResult :=
  let manuallyExcluded := List.filter (has (manualSet messages selected)) messages in
  let remaining := without messages manuallyExcluded in
  let fitted := shiftContext countTokens None remaining budget in
  let excl := dedupeMessages (manuallyExcluded ++ excluded fitted) in
  Result (kept fitted) excl (estimatedTokens fitted) (negb (bool_decide (excl = [])))
    (fitsBudget fitted) (Some "manual"%string) (summaryCreated fitted)
    (Some (negb (bool_decide (excluded fitted = [])))).

(** A built-in strategy by its identifier. *)
Inductive BuiltinContextStrategyId := Truncate | Summarize | VectorRecall | Manual.

Definition builtin_shift (id : BuiltinContextStrategyId) (fuel : nat)
    (messages : list PromptMessage) (budget : Z) (selected : list string)
    : option ContextShiftResult :=
  match id with
  | Truncate => Some (truncateStrategy messages budget)
  | Summarize => summarizeStrategy fuel messages budget
  | VectorRecall => Some (vectorRecallStrategy messages budget)
  | Manual => Some (manualStrategy messages budget selected)
  end.
End Summary.

(** ** The registry *)

(** A registered strategy object; [sprio] is [priority ?? 0]. *)
Record ContextShiftStrategy := Strategy { sref : nat; sid : string; sprio : Z }.

#[global] Instance strategy_eq : EqDecision ContextShiftStrategy.
Proof. solve_decision. Defined.

Definition Registry := list (string * list ContextShiftStrategy).

Definition prio_ge (a b : ContextShiftStrategy) : bool := sprio b <=? sprio a.

Definition register (s : ContextShiftStrategy) (reg : Registry) : outcome string Registry :=
  if (length (trim_chars (chars (sid s))) =? 0)%nat
  then Throw "Context strategy id must not be empty"%string
  else
    let versions := match map_get (sid s) reg with Some v => v | None => [] end in
    Ok (map_set (sid s) (stable_sort prio_ge (versions ++ [s])) reg).

(** [current.splice(current.indexOf(strategy), 1)] when the object is present. *)
Fixpoint splice_out (s : ContextShiftStrategy) (l : list ContextShiftStrategy)
    : list ContextShiftStrategy :=
  match l with
  | [] => []
  | x :: r => if (sref x =? sref s)%nat then r else x :: splice_out s r
  end.

(** The function that [register] returns. *)
Definition cleanup (s : ContextShiftStrategy) (reg : Registry) : Registry :=
  match map_get (sid s) reg with
  | None => reg
  | Some current =>
      let rest := splice_out s current in
      match rest with
      | [] => map_del (sid s) reg
      | _ => map_set (sid s) rest reg
      end
  end.

(** The double quote, U+0022. *)
Definition quote : string := str ["034"%char].

Definition resolve (id : string) (reg : Registry) : outcome string ContextShiftStrategy :=
  match map_get id reg with
  | Some (s :: _) => Ok s
  | _ => Throw ("Unknown context strategy " +:+ quote +:+ id +:+ quote)%string
  end.

Definition ids (reg : Registry) : list string := stable_sort String.leb (map_keys reg).

(** ** Lemmas: the built-in strategies *)

Lemma coherent_sub (l k : list PromptMessage) : coherent l -> (forall x, x ∈ k -> x ∈ l) -> coherent k.
Proof. intros Hc Hs a b Ha Hb. apply Hc; auto. Qed.

Lemma without_elem l k m : m ∈ without l k <-> m ∈ l /\ has k m = false.
Proof. unfold without. by rewrite elem_of_filter_bool, negb_true_iff. Qed.

Lemma list_max_ge (l : list nat) n : n ∈ l -> (n <= list_max l)%nat.
Proof.
  intros H. pose proof (proj1 (list_max_le l (list_max l)) ltac:(lia)) as Hf.
  rewrite List.Forall_forall in Hf. apply Hf. by apply elem_of_In.
Qed.

Lemma fresh_ref_new (l : list PromptMessage) m : m ∈ l -> mref m <> fresh_ref l.
Proof.
  intros Hm. unfold fresh_ref.
  pose proof (list_max_ge (map mref l) (mref m) (list_elem_of_fmap_2 mref l m Hm)). lia.
Qed.

(** The list into which the summary is inserted holds the kept messages and the
    summary, and is still coherent. *)
Lemma with_summary_elem i s (k : list PromptMessage) m : m ∈ take i k ++ s :: drop i k <-> m = s \/ m ∈ k.
Proof.
  rewrite elem_of_app, elem_of_cons. rewrite <- (take_drop i k) at 3.
  rewrite elem_of_app. tauto.
Qed.

Lemma with_summary_coherent i s k messages :
  coherent messages -> (forall x, x ∈ k -> x ∈ messages) -> mref s = fresh_ref messages ->
  coherent (take i k ++ s :: drop i k).
Proof.
  intros Hc Hk Hs a b Ha Hb E. apply with_summary_elem in Ha, Hb.
  destruct Ha as [->|Ha], Hb as [->|Hb]; [done| | |by apply Hc; auto].
  - exfalso. apply (fresh_ref_new messages b); [auto | congruence].
  - exfalso. apply (fresh_ref_new messages a); [auto | congruence].
Qed.

Definition manual_ok (messages : list PromptMessage) (x : PromptMessage) : Prop :=
  isProtectedMessage x = false /\ exists m, m ∈ messages /\ x ∈ linkedToolMessages messages m.

Lemma manual_step_elem messages selected m acc x :
  m ∈ messages -> (forall y, y ∈ acc -> manual_ok messages y) ->
  x ∈ manual_step messages selected acc m -> manual_ok messages x.
Proof.
  intros Hm Hacc. unfold manual_step. destruct (mid m) as [id|]; [|auto]. case_match; [|auto].
  intros [Hx|Hx]%remove_all_elem; [auto|].
  apply elem_of_filter_bool in Hx as [Hx Hp]. apply negb_true_iff in Hp.
  split; [done|]. by exists m.
Qed.

Lemma manualSet_elem messages selected c : c ∈ manualSet messages selected -> manual_ok messages c.
Proof.
  unfold manualSet.
  assert (Hgen : forall l acc,
    (forall m, m ∈ l -> m ∈ messages) -> (forall x, x ∈ acc -> manual_ok messages x) ->
    c ∈ fold_left (manual_step messages selected) l acc -> manual_ok messages c).
  { induction l as [|m l IH]; intros acc Hl Hacc; simpl; [auto|].
    apply IH; [intros; apply Hl; by right|].
    intros y. apply manual_step_elem; [apply Hl; by left | done]. }
  apply Hgen; [auto|]. intros x Hx. destruct (not_elem_of_nil _ Hx).
Qed.

Lemma manual_fold_incl messages selected l acc x :
  x ∈ acc -> x ∈ fold_left (manual_step messages selected) l acc.
Proof.
  revert acc. induction l as [|m l IH]; intros acc H; simpl; [done|].
  apply IH. unfold manual_step. destruct (mid m); [|done]. case_match; [|done].
  by apply remove_all_incl.
Qed.

(** A selected unprotected message goes with its group. *)
Lemma manual_fold_has messages selected l acc m c id :
  m ∈ l -> mid m = Some id -> id ∈ selected ->
  c ∈ linkedToolMessages messages m -> isProtectedMessage c = false ->
  has (fold_left (manual_step messages selected) l acc) c = true.
Proof.
  intros Hm Hid Hsel Hc Hp. apply list_elem_of_split in Hm as (l1 & l2 & ->).
  rewrite fold_left_app. cbn [fold_left].
  eapply has_mono; [by apply manual_fold_incl|].
  unfold manual_step at 1. rewrite Hid, bool_decide_true by done.
  apply remove_all_has, elem_of_filter_bool. by rewrite Hp.
Qed.

Lemma manual_remaining_protected messages selected m :
  coherent messages -> m ∈ messages -> isProtectedMessage m = true ->
  m ∈ without messages (List.filter (has (manualSet messages selected)) messages).
Proof.
  intros Hc Hm Hp. apply without_elem. split; [done|].
  apply not_true_iff_false. intros Hh. apply has_true in Hh as (x & Hx & Ex).
  apply elem_of_filter_bool in Hx as [Hx Hs]. assert (x = m) as -> by (by apply Hc).
  apply has_true in Hs as (y & Hy & Ey). apply manualSet_elem in Hy as (Hyp & z & Hz & Hyz).
  assert (Ey' : y = m); [|subst; congruence].
  apply Hc; [exact (linked_elem messages z y Hz Hyz) | done | by rewrite Ey].
Qed.

(** ** Properties of the strategies *)

(** No built-in strategy drops a protected message or invents one
    besides the summary, the reported [fitsBudget] is the comparison of the cost
    of what it keeps with the budget, and [manual] drops every unprotected
    message that belongs to the linked group of a selected one. *)
Theorem builtin_strategies_sound (countTokens : TokenCounter) (id : BuiltinContextStrategyId)
    (fuel : nat) (messages : list PromptMessage) (budget : Z) (selected : list string)
    (r : ContextShiftResult) :
  coherent messages ->
  builtin_shift countTokens id fuel messages budget selected = Some r ->
  (forall m, m ∈ messages -> isProtectedMessage m = true -> m ∈ kept r) /\
  (forall m, m ∈ kept r -> m ∈ messages \/ is_summary m = true /\ id = Summarize) /\
  fitsBudget r = (totalFor countTokens 4 (kept r) <=? budget) /\
  (id = Manual -> forall m c i, m ∈ messages -> mid m = Some i -> i ∈ selected ->
     c ∈ linkedToolMessages messages m -> isProtectedMessage c = false -> c ∉ kept r).
Proof.
  intros Hc Hr. destruct id; simpl in Hr; try (injection Hr as <-).
  - split_and!; [|intros m Hm; left; exact (kept_elem _ _ _ _ _ Hm)|done|done]. intros m ??. by apply kept_protected.
  - unfold summarizeStrategy in Hr. case_bool_decide as He.
    { injection Hr as <-. split_and!; [|intros m Hm; left; exact (kept_elem _ _ _ _ _ Hm)|done|done].
      intros m ??. by apply kept_protected. }
    destruct (buildExtractiveSummary _ _ _ _) as [summary|]; [|done]. injection Hr as <-.
    set (t := shiftContext countTokens None messages budget) in *.
    set (sm := summaryMessage (fresh_ref messages) summary).
    assert (Hk : forall x, x ∈ kept t -> x ∈ messages) by (intros x Hx; exact (kept_elem _ _ _ _ _ Hx)).
    split_and!; [| |done|done].
    + intros m Hm Hp. cbn [kept]. apply kept_protected; [|apply with_summary_elem; right|done].
      * by apply with_summary_coherent with messages.
      * by apply kept_protected.
    + intros m Hm. cbn [kept] in Hm. apply kept_elem, with_summary_elem in Hm as [->|Hm]; auto.
  - split_and!; [|intros m Hm; left; exact (kept_elem _ _ _ _ _ Hm)|done|done]. intros m ??. by apply kept_protected.
  - unfold manualStrategy. cbv zeta.
    set (rem := without messages (List.filter (has (manualSet messages selected)) messages)).
    assert (Hk : forall x, x ∈ rem -> x ∈ messages).
    { intros x Hx. by apply without_elem in Hx as [? _]. }
    split_and!; [| |done|].
    + intros m Hm Hp. cbn [kept]. apply kept_protected; [by eapply coherent_sub| |done].
      by apply manual_remaining_protected.
    + intros m Hm. left. cbn [kept] in Hm. by apply kept_elem, Hk in Hm.
    + intros _ m c i Hm Hi Hsel Hcg Hp Hkept. cbn [kept] in Hkept. apply kept_elem in Hkept.
      apply without_elem in Hkept as [Hcm Hf].
      assert (has (List.filter (has (manualSet messages selected)) messages) c = true);
        [|congruence].
      apply has_in, elem_of_filter_bool. split; [done|]. exact (manual_fold_has _ _ _ _ _ _ _ Hm Hi Hsel Hcg Hp).
Qed.

(** ** The loop of the extractive summary *)

Lemma length_drop_while {A} (f : A -> bool) l : (length (drop_while f l) <= length l)%nat.
Proof. induction l as [|x l IH]; simpl; [lia|]. case_match; simpl; lia. Qed.

Lemma length_trim_end l : (length (trim_end l) <= length l)%nat.
Proof. unfold trim_end. rewrite length_rev, <- (length_rev l). apply length_drop_while. Qed.

Lemma drop_while_split {A} (f : A -> bool) l :
  exists w, l = w ++ drop_while f l /\ forall x, x ∈ w -> f x = true.
Proof.
  induction l as [|x l (w & E & Hw)]; simpl.
  - exists []. split; [done|]. intros x Hx. destruct (not_elem_of_nil _ Hx).
  - destruct (f x) eqn:Ex.
    + exists (x :: w). split; [simpl; by f_equal|]. intros y [->|Hy]%elem_of_cons; auto.
    + exists []. split; [done|]. intros y Hy. destruct (not_elem_of_nil _ Hy).
Qed.

Lemma trim_end_split l : exists w, l = trim_end l ++ w /\ forall x, x ∈ w -> is_ws x = true.
Proof.
  destruct (drop_while_split is_ws (rev l)) as (w & E & Hw). exists (rev w). split.
  - unfold trim_end. rewrite <- rev_app_distr, <- E. by rewrite rev_involutive.
  - intros x Hx. apply Hw. apply elem_of_In, in_rev. by apply elem_of_In.
Qed.

(** Trimming keeps everything up to a character that is not white space. *)
Lemma trim_end_lookup l i c : l !! i = Some c -> is_ws c = false -> trim_end l !! i = Some c.
Proof.
  intros Hi Hc. destruct (trim_end_split l) as (w & E & Hw).
  destruct (decide (i < length (trim_end l))%nat) as [Hlt|Hge].
  - by rewrite E, lookup_app_l in Hi.
  - rewrite E, lookup_app_r in Hi by lia. apply list_elem_of_lookup_2 in Hi.
    rewrite (Hw c Hi) in Hc. done.
Qed.

(** 0.72 as a double is below 73/100. *)
Lemma floor72_bound n : 0 < n -> mul_floor 6485183463413514 53 n * 100 <= 73 * n.
Proof.
  intros Hn. unfold mul_floor.
  pose proof (round53_upper (6485183463413514 * n) ltac:(lia)) as H.
  pose proof (Z.mul_div_le (round53 (6485183463413514 * n)) (2 ^ 53) ltac:(lia)) as Hd.
  set (r := round53 (6485183463413514 * n)) in *. set (d := r / 2 ^ 53) in *.
  clearbody r d. change (2 ^ 52) with 4503599627370496 in *.
  change (2 ^ 53) with 9007199254740992 in *. nia.
Qed.

Lemma floor72_nonneg n : 0 <= n -> 0 <= mul_floor 6485183463413514 53 n.
Proof.
  intros Hn. unfold mul_floor. apply Z.div_pos; [|lia]. unfold round53. case_match; [lia|].
  bools. assert (0 < 2 ^ (Z.log2 (6485183463413514 * n) - 52)) by (apply Z.pow_pos_nonneg; lia).
  assert (0 <= 6485183463413514 * n / 2 ^ (Z.log2 (6485183463413514 * n) - 52))
    by (apply Z.div_pos; lia).
  apply Z.mul_nonneg_nonneg; [|lia]. repeat case_match; lia.
Qed.

Definition cut (body : list ascii) : nat :=
  Z.to_nat (Z.max 24 (mul_floor 6485183463413514 53 (Z.of_nat (length body)))).

Lemma shorten_eq body : shorten body = trim_end (take (cut body) body) ++ [ellipsis].
Proof. reflexivity. Qed.

Lemma cut_ge body : (24 <= cut body)%nat.
Proof. unfold cut. lia. Qed.

Lemma cut_lt body : (25 < length body)%nat -> (S (cut body) < length body)%nat.
Proof.
  intros H. unfold cut. pose proof (floor72_bound (Z.of_nat (length body)) ltac:(lia)). lia.
Qed.

Lemma shorten_lt body : (25 < length body)%nat -> (length (shorten body) < length body)%nat.
Proof.
  intros H. rewrite shorten_eq, length_app. simpl.
  pose proof (length_trim_end (take (cut body) body)) as Ht. rewrite length_take in Ht.
  pose proof (cut_lt body H). lia.
Qed.

(** The summary loop ends whenever the counter accepts
    every text whose body has at most 25 characters: as many iterations as the
    body has characters are enough, and the text it returns is within the target
    or has a body of at most 24 characters. *)
Lemma summary_terminates (countTokens : TokenCounter)
    (messages : list PromptMessage) (target : Z) (fuel : nat) :
  (forall b, (length b <= 25)%nat -> countTokens (str (summary_prefix ++ b)) <= target) ->
  (length (summary_body messages) < fuel)%nat ->
  exists body, buildExtractiveSummary countTokens fuel messages target =
      Some (str (summary_prefix ++ body)) /\
    (countTokens (str (summary_prefix ++ body)) <= target \/ (length body <= 24)%nat).
Proof.
  intros Hshort. unfold buildExtractiveSummary. generalize (summary_body messages).
  induction fuel as [|f IH]; intros body Hf; [lia|]. cbn [summary_loop]. cbv zeta.
  destruct (Z.ltb_spec target (countTokens (str (summary_prefix ++ body)))) as [Hgt|Hle];
    cbn [andb]; [|eauto].
  destruct (Nat.ltb_spec 24 (length body)) as [Hlen|Hlen]; [|eauto].
  destruct (decide (length body <= 25)%nat) as [H25|H25]; [specialize (Hshort body H25); lia|].
  apply IH. pose proof (shorten_lt body ltac:(lia)). lia.
Qed.

(** The loop does not always end.  A body of at least 25
    characters whose 24th is not white space keeps its first 24 characters and an
    ellipsis forever, so with a counter that charges every text with a body of 25
    characters or more above the target, no number of iterations produces a
    summary. *)
Lemma summary_diverges (countTokens : TokenCounter)
    (messages : list PromptMessage) (target : Z) (fuel : nat) (c : ascii) :
  (forall b, (25 <= length b)%nat -> target < countTokens (str (summary_prefix ++ b))) ->
  (25 <= length (summary_body messages))%nat ->
  summary_body messages !! 23%nat = Some c -> is_ws c = false ->
  buildExtractiveSummary countTokens fuel messages target = None.
Proof.
  intros Hcount Hlen0 H23 Hws. revert Hlen0 H23. unfold buildExtractiveSummary.
  generalize (summary_body messages).
  induction fuel as [|f IH]; intros body Hlen H23; [done|]. cbn [summary_loop]. cbv zeta.
  rewrite (proj2 (Z.ltb_lt _ _) (Hcount body Hlen)).
  rewrite (proj2 (Nat.ltb_lt 24 (length body))) by lia. cbn [andb].
  assert (Ht : trim_end (take (cut body) body) !! 23%nat = Some c).
  { apply trim_end_lookup; [|done]. rewrite lookup_take_lt; [done|]. pose proof (cut_ge body). lia. }
  pose proof (lookup_lt_Some _ _ _ Ht) as Hl. apply IH; rewrite shorten_eq.
  - rewrite length_app. simpl. lia.
  - by rewrite lookup_app_l.
Qed.

(** C38: When the loop of the extractive summary ends.  If the counter
    accepts every text whose body has at most 25 characters, as many iterations as
    the body has characters are enough, and the text returned is within the target
    or has a body of at most 24 characters.  But a body of at least 25 characters
    whose 24th is not white space keeps its first 24 characters and an ellipsis
    forever: with a counter that charges every such text above the target, no
    number of iterations produces a summary. *)
Theorem buildExtractiveSummary_termination (countTokens : TokenCounter)
    (messages : list PromptMessage) (target : Z) (fuel : nat) :
  ((forall b, (length b <= 25)%nat -> countTokens (str (summary_prefix ++ b)) <= target) ->
   (length (summary_body messages) < fuel)%nat ->
   exists body, buildExtractiveSummary countTokens fuel messages target =
       Some (str (summary_prefix ++ body)) /\
     (countTokens (str (summary_prefix ++ body)) <= target \/ (length body <= 24)%nat)) /\
  ((forall b, (25 <= length b)%nat -> target < countTokens (str (summary_prefix ++ b))) ->
   (25 <= length (summary_body messages))%nat ->
   (exists c, summary_body messages !! 23%nat = Some c /\ is_ws c = false) ->
   buildExtractiveSummary countTokens fuel messages target = None).
Proof.
  split; [apply summary_terminates|]. intros Hc Hl (c & H23 & Hws). by eapply summary_diverges.
Qed.

(** ** The registry *)

Record reg_ok (reg : Registry) : Prop := {
  reg_keys : map_ok reg;
  reg_versions : forall id vs, map_get id reg = Some vs ->
    vs <> [] /\ StronglySorted (fun a b => prio_ge a b = true) vs
}.

Lemma prio_total a b : prio_ge a b = true \/ prio_ge b a = true.
Proof. unfold prio_ge. rewrite !Z.leb_le. lia. Qed.

Lemma prio_trans a b c : prio_ge a b = true -> prio_ge b c = true -> prio_ge a c = true.
Proof. unfold prio_ge. rewrite !Z.leb_le. lia. Qed.

Lemma splice_insert s x l :
  sref x <> sref s -> StronglySorted (fun a b => prio_ge a b = true) l ->
  splice_out s (insert_sorted prio_ge x l) = insert_sorted prio_ge x (splice_out s l).
Proof.
  intros Hx. apply Nat.eqb_neq in Hx. induction 1 as [|y l Hl IH Hy]; simpl; [by rewrite Hx|].
  destruct (prio_ge x y) eqn:E; simpl; rewrite ?Hx.
  - destruct (sref y =? sref s)%nat; simpl; [|by rewrite E].
    rewrite insert_sorted_head; [done|]. intros z Hz. rewrite List.Forall_forall in Hy.
    apply (prio_trans x y z); [done|]. by apply Hy, elem_of_In.
  - destruct (sref y =? sref s)%nat; simpl; [done|]. by rewrite E, IH.
Qed.

Lemma splice_sort s vs :
  Forall (fun x => sref x <> sref s) vs ->
  splice_out s (stable_sort prio_ge (vs ++ [s])) = stable_sort prio_ge vs.
Proof.
  unfold stable_sort. induction 1 as [|x vs Hx Hf IH]; simpl; [by rewrite Nat.eqb_refl|].
  rewrite splice_insert; [by rewrite IH|done|].
  apply stable_sort_sorted; eauto using prio_total, prio_trans.
Qed.

Lemma sort_sorted_id vs :
  StronglySorted (fun a b => prio_ge a b = true) vs -> stable_sort prio_ge vs = vs.
Proof.
  induction 1 as [|x vs Hs IH Hx]; [done|]. unfold stable_sort in *. simpl. rewrite IH.
  apply insert_sorted_head. intros y Hy. rewrite List.Forall_forall in Hx.
  by apply Hx, elem_of_In.
Qed.

(** Registering keeps the registry well formed. *)
Lemma register_ok s reg reg' : reg_ok reg -> register s reg = Ok reg' -> reg_ok reg'.
Proof.
  intros [Hk Hv]. unfold register. case_match; [done|]. intros [= <-].
  split; [by apply map_set_ok|]. intros id vs. rewrite map_get_set. case_decide as E; [|apply Hv].
  intros [= <-]. split.
  - intros H'. pose proof (stable_sort_perm prio_ge
      ((match map_get (sid s) reg with Some v => v | None => [] end) ++ [s])) as Hp.
    rewrite H' in Hp. by apply Permutation_nil in Hp as [_ ?]%app_eq_nil.
  - apply stable_sort_sorted; eauto using prio_total, prio_trans.
Qed.

(** After a fresh strategy is registered under a non-blank
    identifier, [resolve] returns a registered version whose priority none
    exceeds, the other identifiers resolve as before, and the cleanup function
    restores the registry exactly. *)
Theorem registry_register_cleanup (s : ContextShiftStrategy) (reg : Registry) (reg' : Registry) :
  reg_ok reg ->
  (forall vs x, map_get (sid s) reg = Some vs -> x ∈ vs -> sref x <> sref s) ->
  register s reg = Ok reg' ->
  cleanup s reg' = reg /\
  (forall id, id <> sid s -> resolve id reg' = resolve id reg) /\
  exists top vs, resolve (sid s) reg' = Ok top /\ map_get (sid s) reg' = Some vs /\
    top ∈ vs /\ s ∈ vs /\ forall x, x ∈ vs -> sprio x <= sprio top.
Proof.
  intros Hok Hfresh Hr. pose proof (register_ok _ _ _ Hok Hr) as [_ Hv'].
  destruct Hok as [Hk Hv]. revert Hr. unfold register. case_match; [done|]. intros [= <-].
  set (old := match map_get (sid s) reg with Some v => v | None => [] end) in *.
  assert (Hg : forall w, map_get (sid s) (map_set (sid s) w reg) = Some w)
    by (intros w; rewrite map_get_set; by rewrite decide_True).
  assert (Hold : StronglySorted (fun a b => prio_ge a b = true) old /\
                 Forall (fun x => sref x <> sref s) old).
  { subst old. destruct (map_get (sid s) reg) as [vs|] eqn:E; [|split; constructor].
    split; [by apply (Hv (sid s))|]. apply Forall_forall. eauto. }
  destruct Hold as [Hso Hfo]. split_and!.
  - unfold cleanup. rewrite Hg, splice_sort, sort_sorted_id by done. subst old.
    destruct (map_get (sid s) reg) as [vs|] eqn:E.
    + destruct (Hv _ _ E) as [Hne _]. destruct vs as [|v vs]; [done|].
      by rewrite map_set_set, map_set_same.
    + rewrite map_set_absent by done. by apply map_del_app_absent.
  - intros id Hid. unfold resolve. rewrite map_get_set. by rewrite decide_False.
  - destruct (Hv' _ _ (Hg _)) as [Hne Hs'].
    pose proof (elem_of_stable_sort prio_ge s (old ++ [s])) as Hs.
    unfold resolve. rewrite Hg.
    destruct (stable_sort prio_ge (old ++ [s])) as [|top r] eqn:E; [done|].
    exists top, (top :: r). split_and!; [done|done|left| |].
    + apply Hs, elem_of_app. right. left.
    + intros x [->|Hx]%elem_of_cons; [lia|]. inversion Hs' as [|? ? _ Hall]; subst.
      rewrite List.Forall_forall in Hall. apply Z.leb_le, Hall. by apply elem_of_In.
Qed.

(** ** Witnesses *)

(** A flat rate of four characters per token. *)
Definition quarter (s : string) : Z := strlen s / 4.

Lemma quarter_prefix b : quarter (str (summary_prefix ++ b)) = (29 + Z.of_nat (length b)) / 4.
Proof. unfold quarter. rewrite strlen_chars, chars_str, length_app, Nat2Z.inj_add. reflexivity. Qed.

Definition long_word : list PromptMessage :=
  [Msg 0 None User "abcdefghijklmnopqrstuvwxyzabcdef" None false None None None].

Definition eighth (s : string) : Z := strlen s / 8.

Lemma builtin_strategies_sound_witness :
  exists r, builtin_shift eighth Summarize 200 demo 24 [] = Some r /\
    summaryCreated r = Some true /\ map mref (kept r) = [0; 3; 5; 6]%nat /\
    (forall m, m ∈ demo -> isProtectedMessage m = true -> m ∈ kept r).
Proof.
  eexists. split; [vm_compute; reflexivity|]. split; [reflexivity|]. split; [reflexivity|].
  eapply (builtin_strategies_sound eighth Summarize 200 demo 24 []).
  - apply nodup_coherent, demo_nodup.
  - vm_compute. reflexivity.
Defined.

(** A target of 13 tokens is reached; a budget of 20 tokens gives a target of 8,
    for which the strategy never answers. *)
Lemma buildExtractiveSummary_termination_witness :
  (exists body, buildExtractiveSummary quarter 100 long_word 13 =
     Some (str (summary_prefix ++ body)) /\
   (quarter (str (summary_prefix ++ body)) <= 13 \/ (length body <= 24)%nat)) /\
  summary_target 20 = 8 /\
  buildExtractiveSummary quarter 1000 long_word (summary_target 20) = None.
Proof.
  split; [|split; [vm_compute; reflexivity|]].
  - apply (proj1 (buildExtractiveSummary_termination quarter long_word 13 100)).
    + intros b Hb. rewrite quarter_prefix. change 13 with ((29 + 25) / 4). apply Z.div_le_mono; lia.
    + vm_compute. lia.
  - apply (proj2 (buildExtractiveSummary_termination quarter long_word (summary_target 20) 1000)).
    + intros b Hb. rewrite quarter_prefix. change (summary_target 20) with 8.
      apply Z.lt_le_trans with ((29 + 25) / 4); [reflexivity|]. apply Z.div_le_mono; lia.
    + vm_compute. lia.
    + exists "r"%char. split; [vm_compute; reflexivity | reflexivity].
Defined.

Lemma registry_register_cleanup_witness :
  let s := Strategy 7 "truncate" 5 in
  let reg := [("truncate"%string, [Strategy 1 "truncate" 0])] in
  exists reg', register s reg = Ok reg' /\ resolve "truncate" reg' = Ok s /\ cleanup s reg' = reg.
Proof.
  cbv zeta. eexists. split; [reflexivity|]. split; [reflexivity|].
  eapply (registry_register_cleanup (Strategy 7 "truncate" 5)).
  - split.
    + apply (bool_decide_unpack _). vm_compute. exact I.
    + intros id vs. simpl. case_decide; [|done]. intros [= <-]. split; [done|]. repeat constructor.
  - intros vs x. simpl. intros [= <-] ->%list_elem_of_singleton. done.
  - reflexivity.
Defined.

End ContextStrategy.
