(* ===== verification/PromptPipeline.v ===== *)
(** * The context stages of the prompt pipeline
    (apps/server/src/pipeline/promptPipeline.ts)

    From the assembled messages to the messages of the request: the context
    strategy with its fallback, the host check of its answer, the plugin
    interceptors and the final budget.  A strategy and an interceptor are
    functions that may throw (a time-out is a throw) and that do not write to
    the messages they are given: the interceptors of the server answer over a
    wire.  [aborted k] is the state of the abort signal at the k-th checkpoint.
    [mergeInChatPrompts] places the in-chat blocks into the history. *)

From Stdlib Require Import ZArith Lia Bool Ascii String List Permutation.
From stdpp Require Import base decidable gmap strings list sorting pretty.
From S2P Require Import Prelude ContextShift ContextStrategy.
Import ContextShift.
Local Open Scope Z_scope.
Local Open Scope js_scope.

Module PromptPipeline.

(** ** Inputs and results *)

Record ContextStrategy := CtxStrategy {
  st_id : string;
  st_shift : list PromptMessage -> Z -> outcome string ContextShiftResult
}.

Record PipelineInterceptor := Interceptor {
  ic_id : string;
  ic_priority : option Z;
  requiredPermission : option string;
  intercept : list PromptMessage -> outcome string (list PromptMessage)
}.

Record PipelineInput := Input {
  countTokens : TokenCounter;
  tokenizerProfile : string;
  tokenizerApproximate : bool;
  maxContextTokens : option Z;
  reserveForReply : option Z;
  maxTokens : option Z;
  contextStrategy : option ContextStrategy;
  interceptors : list PipelineInterceptor;
  hasPermission : option (string -> bool);
  aborted : nat -> bool
}.

Inductive PipelineError :=
| TokenBudgetExceeded (contextLimit reservedForReply promptTokens : Z)
| GenerationCancelled.

Inductive Diagnostic :=
| DAssembled (n : nat)
| DTokenizer (profile : string) (approximate : bool)
| DStrategyFallback (id : string)
| DStrategyRejected (id : string)
| DStrategyApplied (id : string)
| DShiftExcluded (n : nat)
| DSummaryCreated
| DManualInsufficient
| DMissingPermission (id permission : string)
| DInterceptorApplied (id : string) (added removed edited : nat)
| DInterceptorSkipped (id reason : string)
| DFinalExcluded (n : nat).

Record PipelineResult := PResult {
  initialShift : ContextShiftResult;
  working : list PromptMessage;
  finalShift : ContextShiftResult;
  diagnostics : list Diagnostic;
  contextLimit : Z;
  reservedForReply : Z;
  promptTokens : Z;
  excludedCount : nat
}.

(** ** Messages by identifier *)

(** [message.id] as a condition. *)
Definition truthy_id (m : PromptMessage) : option string :=
  match mid m with
  | Some id => if (id =? "")%string then None else Some id
  | None => None
  end.

Definition ids_of (l : list PromptMessage) : list string := omap mid l.

(** [new Map(messages.filter(m => m.id !== undefined).map(m => [m.id, m]))] *)
Definition add_by_id (acc : list (string * PromptMessage)) (m : PromptMessage) :=
  match mid m with Some id => map_set id m acc | None => acc end.
Definition by_id (l : list PromptMessage) : list (string * PromptMessage) := fold_left add_by_id l [].

Definition hostProtected (m : PromptMessage) : bool :=
  pinned m || (isRole System m && bool_decide (source m = Some SrcSystem)).

Definition protectedById (raw : list PromptMessage) : list (string * PromptMessage) :=
  by_id (List.filter hostProtected raw).

Fixpoint dedupe_loop (seenIds : list string) (seenObjects l : list PromptMessage)
    : list PromptMessage :=
  match l with
  | [] => []
  | m :: r =>
      match truthy_id m with
      | Some id =>
          if bool_decide (id ∈ seenIds) then dedupe_loop seenIds seenObjects r
          else m :: dedupe_loop (id :: seenIds) seenObjects r
      | None =>
          if has seenObjects m then dedupe_loop seenIds seenObjects r
          else m :: dedupe_loop seenIds (m :: seenObjects) r
      end
  end.

Definition dedupePromptMessages (l : list PromptMessage) : list PromptMessage := dedupe_loop [] [] l.

(** ** The context strategy *)

Definition with_strategy (r : ContextShiftResult) (s : option string) : ContextShiftResult :=
  Result (kept r) (excluded r) (estimatedTokens r) (truncated r) (fitsBudget r)
         s (summaryCreated r) (manualFallback r).

Definition runContextStrategy (ct : TokenCounter) (s : ContextStrategy)
    (messages : list PromptMessage) (budget : Z) : ContextShiftResult :=
  match st_shift s messages budget with
  | Ok r => r
  | Throw _ => with_strategy (shiftContext ct None messages budget) (Some "truncate"%string)
  end.

Definition chooseContext (ct : TokenCounter) (s : option ContextStrategy)
    (raw : list PromptMessage) (budget : Z) : ContextShiftResult :=
  match s with
  | Some s => runContextStrategy ct s raw budget
  | None => shiftContext ct None raw budget
  end.

(** Some protected identifier is missing from the answer. *)
Definition protectedRemoved (raw k : list PromptMessage) : bool :=
  existsb (fun id => negb (bool_decide (id ∈ ids_of k))) (map_keys (protectedById raw)).

Definition checkedContext (ct : TokenCounter) (s : option ContextStrategy)
    (raw : list PromptMessage) (budget : Z) : ContextShiftResult :=
  let r := chooseContext ct s raw budget in
  if protectedRemoved raw (kept r)
  then with_strategy (shiftContext ct None raw budget) (Some "truncate"%string)
  else r.

Definition hostObject (raw : list PromptMessage) (m : PromptMessage) : PromptMessage :=
  match truthy_id m with
  | Some id => default m (map_get id (protectedById raw))
  | None => m
  end.

Definition sanitize (raw k : list PromptMessage) : list PromptMessage :=
  dedupePromptMessages (map (hostObject raw) k).

(** [strategyResult.strategy ?? strategy?.id ?? other] *)
Definition strategy_label (r : ContextShiftResult) (s : option ContextStrategy) (other : string)
    : string :=
  match strategy r, s with
  | Some n, _ => n
  | None, Some s => st_id s
  | None, None => other
  end.

Definition initialContext (ct : TokenCounter) (s : option ContextStrategy)
    (raw : list PromptMessage) (budget : Z) : ContextShiftResult :=
  let r := checkedContext ct s raw budget in
  let h := shiftContext ct None (sanitize raw (kept r)) budget in
  Result (kept h) (dedupePromptMessages (excluded r ++ excluded h)) (estimatedTokens h)
    (truncated r || truncated h) (fitsBudget h) (Some (strategy_label r s "truncate"))
    (summaryCreated r) (manualFallback r).

Definition is_some_true (b : option bool) : bool := match b with Some true => true | _ => false end.

Definition initialDiagnostics (ct : TokenCounter) (profile : string) (approximate : bool)
    (s : option ContextStrategy) (raw : list PromptMessage) (budget : Z) : list Diagnostic :=
  let r := chooseContext ct s raw budget in
  let i := initialContext ct s raw budget in
  [DAssembled (length raw); DTokenizer profile approximate] ++
  match s with
  | Some s =>
      if bool_decide (strategy r = Some "truncate"%string) && negb (st_id s =? "truncate")%string
      then [DStrategyFallback (st_id s)] else []
  | None => []
  end ++
  (if protectedRemoved raw (kept r) then [DStrategyRejected (strategy_label r s "unknown")] else []) ++
  [DStrategyApplied (default "truncate"%string (strategy i))] ++
  (if truncated i then [DShiftExcluded (length (excluded i))] else []) ++
  (if is_some_true (summaryCreated i) then [DSummaryCreated] else []) ++
  (if is_some_true (manualFallback i) then [DManualInsufficient] else []).

(** ** Interceptors *)

Definition diff_key (m : PromptMessage) (index : nat) : string :=
  match mid m with
  | Some id => id
  | None => "#" +:+ pretty index +:+ ":" +:+ ContextStrategy.role_name (role m)
  end.

Definition keyed (l : list PromptMessage) : list (string * PromptMessage) :=
  imap (fun i m => (diff_key m i, m)) l.

(** [+added/-removed/~edited] *)
Definition describePromptDiff (before after : list PromptMessage) : nat * nat * nat :=
  let beforeContent := fold_left (fun acc km => map_set km.1 km.2 acc) (keyed before) [] in
  let added := length (List.filter (fun km => negb (map_has km.1 beforeContent)) (keyed after)) in
  let edited := length (List.filter (fun km =>
      match map_get km.1 beforeContent with
      | Some previous => negb (content previous =? content km.2)%string
      | None => false
      end) (keyed after)) in
  let removed := length (List.filter (fun km => negb (bool_decide (km.1 ∈ map fst (keyed after))))
      (keyed before)) in
  (added, removed, edited).

Fixpoint find_index (p : PromptMessage -> bool) (l : list PromptMessage) : option nat :=
  match l with
  | [] => None
  | m :: r => if p m then Some O else option_map S (find_index p r)
  end.

Definition insert_at (i : nat) (m : PromptMessage) (l : list PromptMessage) : list PromptMessage :=
  take i l ++ m :: drop i l.

(** The body of the loop of [restoreProtectedMessages] on [(output, presentIds)]. *)
Definition restore_step (original : list PromptMessage)
    (st : list PromptMessage * list string) (p : PromptMessage) : list PromptMessage * list string :=
  let '(output, presentIds) := st in
  match truthy_id p with
  | Some id =>
      if bool_decide (id ∈ presentIds) || negb (hostProtected p) then st
      else
        let later := drop (Z.to_nat (indexOf original p + 1)) original in
        let nextId := find (fun id => bool_decide (id ∈ presentIds)) (ids_of later) in
        let insertionIndex :=
          match nextId with
          | Some next =>
              if (next =? "")%string then length output
              else default (length output)
                     (find_index (fun m => bool_decide (mid m = Some next)) output)
          | None => length output
          end in
        (insert_at insertionIndex p output, id :: presentIds)
  | None => st
  end.

Definition restoreProtectedMessages (candidate original : list PromptMessage)
    : list PromptMessage :=
  (fold_left (restore_step original) original (candidate, ids_of candidate)).1.

(** The host's protection flags on the messages an interceptor returned, which
    are copied into new objects. *)
Definition relabel_one (host : list PromptMessage) (ref : nat) (m : PromptMessage) : PromptMessage :=
  let h := match truthy_id m with Some id => map_get id (by_id host) | None => None end in
  Msg ref (mid m) (role m) (content m) (name m)
    (match h with Some h => pinned h | None => false end) (pairId m)
    (Some (default SrcPlugin (match h with Some h => source h | None => None end)))
    (relevance m).

Fixpoint relabel (host : list PromptMessage) (ref : nat) (l : list PromptMessage)
    : list PromptMessage :=
  match l with
  | [] => []
  | m :: r => relabel_one host ref m :: relabel host (S ref) r
  end.

Definition applyReply (host reply : list PromptMessage) : list PromptMessage :=
  restoreProtectedMessages (relabel host (ContextStrategy.fresh_ref host) reply) host.

(** [input.hasPermission?.(p) ?? true] for a required permission. *)
Definition permitted (input : PipelineInput) (i : PipelineInterceptor) : bool :=
  match requiredPermission i with
  | Some p => if (p =? "")%string then true
              else match hasPermission input with Some f => f p | None => true end
  | None => true
  end.

Definition ic_le (a b : PipelineInterceptor) : bool :=
  default 100 (ic_priority a) <=? default 100 (ic_priority b).

Fixpoint run_interceptors (input : PipelineInput) (host : list PromptMessage) (k : nat)
    (queue : list PipelineInterceptor) (working : list PromptMessage) (ds : list Diagnostic)
    : outcome PipelineError (list PromptMessage * list Diagnostic) :=
  match queue with
  | [] => Ok (working, ds)
  | i :: queue' =>
      guard? negb (aborted input k) else GenerationCancelled then
      if negb (permitted input i) then
        run_interceptors input host (S k) queue' working
          (ds ++ [DMissingPermission (ic_id i) (default ""%string (requiredPermission i))])
      else
        match intercept i working with
        | Ok reply =>
            let working' := applyReply host reply in
            let '(a, r, e) := describePromptDiff working working' in
            run_interceptors input host (S k) queue' working'
              (ds ++ [DInterceptorApplied (ic_id i) a r e])
        | Throw reason =>
            run_interceptors input host (S k) queue' working
              (ds ++ [DInterceptorSkipped (ic_id i) reason])
        end
  end.

(** ** The pipeline *)

Definition requestedMaxTokens (input : PipelineInput) : Z :=
  match maxTokens input with
  | Some n => n
  | None => default 1024 (reserveForReply input)
  end.

Definition reserve_of (input : PipelineInput) : Z :=
  Z.max (default 0 (reserveForReply input)) (requestedMaxTokens input).

Definition context_limit (input : PipelineInput) : Z := default 8192 (maxContextTokens input).

Definition runPromptPipeline (input : PipelineInput) (raw : list PromptMessage)
    : outcome PipelineError PipelineResult :=
  let ct := countTokens input in
  let limit := context_limit input in
  let reserve := reserve_of input in
  let budget := limit - reserve in
  let s := contextStrategy input in
  guard? negb (budget <=? 0) else TokenBudgetExceeded limit reserve 0 then
  guard? negb (aborted input 0) else GenerationCancelled then
  let initial := initialContext ct s raw budget in
  guard? fitsBudget initial else TokenBudgetExceeded limit reserve (estimatedTokens initial) then
  let ds := initialDiagnostics ct (tokenizerProfile input) (tokenizerApproximate input) s raw budget in
  let queue := stable_sort ic_le (interceptors input) in
  let? (work, ds) := run_interceptors input (kept initial) 1 queue (kept initial) ds in
  guard? negb (aborted input (S (length queue))) else GenerationCancelled then
  let final := shiftContext ct None work budget in
  guard? fitsBudget final else TokenBudgetExceeded limit reserve (estimatedTokens final) then
  Ok (PResult initial work final
        (ds ++ if truncated final then [DFinalExcluded (length (excluded final))] else [])
        limit reserve (estimatedTokens final)
        (length (excluded initial) + length (excluded final))).

(** First occurrences, for the stop strings. *)
Fixpoint unique_loop (seen values : list string) : list string :=
  match values with
  | [] => []
  | v :: r => if bool_decide (v ∈ seen) then unique_loop seen r
              else v :: unique_loop (v :: seen) r
  end.
Definition uniqueStopStrings (values : list string) : list string := unique_loop [] values.

(** ** In-chat blocks *)

Record Injection := Inj {
  injectionDepth : option Z;
  injectionOrder : option Z;
  configuredIndex : Z;
  injected : list PromptMessage
}.

Record Insertion := Ins { i_message : PromptMessage; i_order : Z; i_index : Z }.

Definition roleOrder (r : MessageRole) : Z :=
  match r with Assistant => 0 | User => 1 | System => 2 | Tool => 3 | Plugin => 4 end.

(** The comparator is not positive. *)
Definition ins_le (a b : Insertion) : bool :=
  if i_order a =? i_order b then
    if roleOrder (role (i_message a)) =? roleOrder (role (i_message b)) then i_index a <=? i_index b
    else roleOrder (role (i_message a)) <? roleOrder (role (i_message b))
  else i_order a <? i_order b.

Definition boundary_of (len : Z) (j : Injection) : Z :=
  Z.max 0 (len - default 4 (injectionDepth j)).

Definition insertions_of (j : Injection) : list Insertion :=
  map (fun m => Ins m (default 100 (injectionOrder j)) (configuredIndex j)) (injected j).

Definition add_injection (len : Z) (byBoundary : list (Z * list Insertion)) (j : Injection)
    : list (Z * list Insertion) :=
  let boundary := boundary_of len j in
  map_set boundary (default [] (map_get boundary byBoundary) ++ insertions_of j) byBoundary.

(** The insertions of a boundary, sorted. *)
Definition block_at (byBoundary : list (Z * list Insertion)) (boundary : Z) : list Insertion :=
  stable_sort ins_le (default [] (map_get boundary byBoundary)).

Fixpoint merge_from (byBoundary : list (Z * list Insertion)) (boundary : Z)
    (history : list PromptMessage) : list PromptMessage :=
  map i_message (block_at byBoundary boundary) ++
  match history with
  | [] => []
  | h :: r => h :: merge_from byBoundary (boundary + 1) r
  end.

Definition mergeInChatPrompts (history : list PromptMessage) (injections : list Injection)
    : list PromptMessage :=
  merge_from (fold_left (add_injection (Z.of_nat (length history))) injections []) 0 history.

(** ** Lemmas: messages by identifier *)

Lemma truthy_id_Some m id : truthy_id m = Some id <-> mid m = Some id /\ id <> ""%string.
Proof.
  unfold truthy_id. destruct (mid m) as [i|]; [|naive_solver].
  destruct (String.eqb_spec i ""); naive_solver.
Qed.

Lemma elem_of_ids id l : id ∈ ids_of l <-> exists m, m ∈ l /\ mid m = Some id.
Proof. unfold ids_of. rewrite list_elem_of_omap. naive_solver. Qed.

Lemma by_id_get id l m : map_get id (by_id l) = Some m -> m ∈ l /\ mid m = Some id.
Proof.
  unfold by_id.
  assert (Hg : forall acc, map_get id (fold_left add_by_id l acc) = Some m ->
    (m ∈ l /\ mid m = Some id) \/ map_get id acc = Some m); [|intros [?|?]%Hg; done].
  induction l as [|x l IH]; intros acc; simpl; [auto|]. intros [[Hm Hid]|H]%IH.
  - left. split; [by right | done].
  - unfold add_by_id in H. destruct (mid x) as [i|] eqn:E; [|auto].
    rewrite map_get_set in H. case_decide as Hi; [|auto]. injection H as ->. left.
    split; [left | congruence].
Qed.

Lemma by_id_has id l m : m ∈ l -> mid m = Some id -> exists m', map_get id (by_id l) = Some m'.
Proof.
  intros Hm Hid. unfold by_id.
  assert (Hg : forall l acc, is_Some (map_get id acc) -> is_Some (map_get id (fold_left add_by_id l acc))).
  { clear. induction l as [|x l IH]; intros acc H; simpl; [done|]. apply IH. unfold add_by_id.
    destruct (mid x); [|done]. rewrite map_get_set. by case_decide. }
  apply list_elem_of_split in Hm as (l1 & l2 & ->). rewrite fold_left_app. simpl.
  apply Hg. unfold add_by_id. rewrite Hid, map_get_set. by rewrite decide_True.
Qed.

(** In a list without two messages of one non-empty identifier. *)
Definition unique_ids (l : list PromptMessage) : Prop :=
  forall a b id, a ∈ l -> b ∈ l -> truthy_id a = Some id -> truthy_id b = Some id -> a = b.

Lemma dedupe_elem s o l m : m ∈ dedupe_loop s o l -> m ∈ l.
Proof.
  revert s o. induction l as [|x l IH]; intros s o; simpl; [done|].
  destruct (truthy_id x); case_match; rewrite ?elem_of_cons; naive_solver.
Qed.

Lemma dedupe_seen s o l m id : m ∈ dedupe_loop s o l -> truthy_id m = Some id -> id ∉ s.
Proof.
  revert s o. induction l as [|x l IH]; intros s o; simpl.
  - intros H. destruct (not_elem_of_nil _ H).
  - destruct (truthy_id x) as [i|] eqn:E; case_match; bools; [by apply IH| |by apply IH|].
    + intros [->|Hm]%elem_of_cons Ht; [congruence|].
      pose proof (IH _ _ Hm Ht) as Hn. rewrite not_elem_of_cons in Hn. tauto.
    + intros [->|Hm]%elem_of_cons Ht; [congruence|]. by eapply IH.
Qed.

Lemma dedupe_unique s o l : unique_ids (dedupe_loop s o l).
Proof.
  revert s o. induction l as [|x l IH]; intros s o; simpl.
  - intros a b id H. destruct (not_elem_of_nil _ H).
  - destruct (truthy_id x) as [i|] eqn:E; case_match; try (by apply IH);
      intros a b id [->|Ha]%elem_of_cons [->|Hb]%elem_of_cons Hia Hib;
      try done; try congruence; try (by eapply IH).
    + exfalso. eapply (dedupe_seen _ _ _ _ _ Hb Hib). rewrite E in Hia. injection Hia as ->. left.
    + exfalso. eapply (dedupe_seen _ _ _ _ _ Ha Hia). rewrite E in Hib. injection Hib as ->. left.
Qed.

Lemma dedupe_has s o l m id :
  m ∈ l -> truthy_id m = Some id -> id ∉ s ->
  exists m', m' ∈ dedupe_loop s o l /\ truthy_id m' = Some id.
Proof.
  revert s o. induction l as [|x l IH]; intros s o Hm Ht Hs; simpl; [destruct (not_elem_of_nil _ Hm)|].
  destruct (truthy_id x) as [i|] eqn:E.
  - destruct (decide (i = id)) as [->|Hne].
    + rewrite bool_decide_false by done. exists x. split; [left | done].
    + apply elem_of_cons in Hm as [->|Hm]; [congruence|]. case_match; [by apply IH|].
      destruct (IH (i :: s) o Hm Ht) as (m' & ? & ?); [rewrite not_elem_of_cons; naive_solver|].
      exists m'. split; [by right | done].
  - apply elem_of_cons in Hm as [->|Hm]; [congruence|]. case_match; [by apply IH|].
    destruct (IH s (x :: o) Hm Ht Hs) as (m' & ? & ?). exists m'. split; [by right | done].
Qed.

(** ** Lemmas: the host check of the strategy's answer *)

Lemma hostObject_id raw m id :
  truthy_id (hostObject raw m) = Some id -> truthy_id m = Some id.
Proof.
  unfold hostObject. destruct (truthy_id m) as [i|] eqn:E; [|congruence].
  destruct (map_get i (protectedById raw)) as [h|] eqn:Eh; simpl; [|congruence].
  apply by_id_get in Eh as [_ Eh]. apply truthy_id_Some in E as [_ E].
  intros [H _]%truthy_id_Some. congruence.
Qed.

Lemma sanitize_host raw k id h :
  map_get id (protectedById raw) = Some h -> id <> ""%string -> id ∈ ids_of k -> h ∈ sanitize raw k.
Proof.
  intros Hh Hne (m & Hm & Hid)%elem_of_ids.
  assert (Ho : forall x, truthy_id x = Some id -> hostObject raw x = h)
    by (intros x Hx; unfold hostObject; by rewrite Hx, Hh).
  assert (Hth : truthy_id h = Some id) by (apply truthy_id_Some; by apply by_id_get in Hh as [_ ?]).
  destruct (dedupe_has [] [] (map (hostObject raw) k) h id) as (m' & Hm' & Ht); [|done|apply not_elem_of_nil|].
  - rewrite <- (Ho m); [by apply list_elem_of_fmap_2 with (f := hostObject raw) |by apply truthy_id_Some].
  - pose proof (dedupe_elem _ _ _ _ Hm') as Hx. apply list_elem_of_fmap in Hx as (x & -> & Hx).
    rewrite (Ho x) in Hm'; [exact Hm'|]. by apply hostObject_id in Ht.
Qed.

Lemma sanitize_elem raw k m : m ∈ sanitize raw k -> m ∈ raw \/ m ∈ k.
Proof.
  intros (x & -> & Hx)%dedupe_elem%list_elem_of_fmap. unfold hostObject.
  destruct (truthy_id x) as [i|]; [|auto].
  destruct (map_get i (protectedById raw)) as [h|] eqn:E; simpl; [|auto].
  apply by_id_get in E as [E _]. apply elem_of_filter_bool in E. tauto.
Qed.

Lemma hostProtected_protected m : hostProtected m = true -> isProtectedMessage m = true.
Proof.
  unfold hostProtected, isProtectedMessage, isRole. destruct (pinned m); [done|]. simpl.
  intros H. bools. by rewrite H, H0, bool_decide_true.
Qed.

Section Initial.
Context (ct : TokenCounter) (s : option ContextStrategy) (raw : list PromptMessage) (budget : Z).
Hypothesis Hobj : coherent (raw ++ kept (chooseContext ct s raw budget)).

Lemma raw_coherent : coherent raw.
Proof. intros a b Ha Hb. apply Hobj; apply elem_of_app; auto. Qed.

Lemma checked_elem m :
  m ∈ kept (checkedContext ct s raw budget) -> m ∈ raw ++ kept (chooseContext ct s raw budget).
Proof.
  unfold checkedContext. rewrite elem_of_app. case_match; [|auto]. intros Hm. left.
  exact (kept_elem ct None raw budget m Hm).
Qed.

Lemma checked_has_ids id h :
  map_get id (protectedById raw) = Some h -> id ∈ ids_of (kept (checkedContext ct s raw budget)).
Proof.
  intros Hh. unfold checkedContext. destruct (protectedRemoved _ _) eqn:E.
  - apply elem_of_ids. exists h. apply by_id_get in Hh as [Hh Hid]. split; [|done].
    apply elem_of_filter_bool in Hh as [Hh Hp].
    apply kept_protected; [apply raw_coherent | done | by apply hostProtected_protected].
  - apply not_true_iff_false in E. apply dec_stable. intros Hn. apply E.
    apply existsb_exists. exists id. split.
    + apply elem_of_In, list_elem_of_fmap. exists (id, h). split; [done | by apply map_get_elem].
    + by rewrite bool_decide_false.
Qed.

Abbreviation host := (kept (initialContext ct s raw budget)).

Lemma sanitized_coherent : coherent (sanitize raw (kept (checkedContext ct s raw budget))).
Proof.
  intros a b [Ha|Ha]%sanitize_elem [Hb|Hb]%sanitize_elem;
    apply Hobj; try (by apply elem_of_app; left); by apply checked_elem.
Qed.

Lemma host_elem m : m ∈ host -> m ∈ sanitize raw (kept (checkedContext ct s raw budget)).
Proof. intros Hm. exact (kept_elem ct None _ budget m Hm). Qed.

Lemma host_coherent : coherent host.
Proof. intros a b Ha Hb. by apply sanitized_coherent; apply host_elem. Qed.

Lemma host_unique : unique_ids host.
Proof. intros a b id Ha%host_elem Hb%host_elem. by eapply dedupe_unique. Qed.

Lemma host_has id h :
  map_get id (protectedById raw) = Some h -> id <> ""%string -> h ∈ host.
Proof.
  intros Hh Hne. apply kept_protected.
  - apply sanitized_coherent.
  - apply (sanitize_host _ _ id); [done|done|]. by apply (checked_has_ids id h).
  - apply by_id_get in Hh as [[_ Hp]%elem_of_filter_bool _]. by apply hostProtected_protected.
Qed.
End Initial.

(** ** Lemmas: an interceptor's reply *)

Lemma insert_at_elem i p l m : m ∈ insert_at i p l <-> m = p \/ m ∈ l.
Proof.
  unfold insert_at. rewrite elem_of_app, elem_of_cons. rewrite <- (take_drop i l) at 3.
  rewrite elem_of_app. tauto.
Qed.

Section Restore.
Context (original : list PromptMessage).

Lemma restore_step_cases output ps p :
  restore_step original (output, ps) p = (output, ps) /\
    (forall id, truthy_id p = Some id -> hostProtected p = true -> id ∈ ps) \/
  exists i id, restore_step original (output, ps) p = (insert_at i p output, id :: ps) /\
    truthy_id p = Some id.
Proof.
  unfold restore_step. destruct (truthy_id p) as [id|]; [|left; naive_solver].
  destruct (_ || _) eqn:E; [|right; eauto]. left. split; [done|].
  intros id' [= <-] Hp. rewrite Hp in E. simpl in E. rewrite orb_false_r in E. by bools.
Qed.

Lemma restore_fold l output ps :
  (forall id, id ∈ ps -> exists m, m ∈ output /\ mid m = Some id) ->
  let st := fold_left (restore_step original) l (output, ps) in
  (forall m, m ∈ st.1 -> m ∈ output \/ m ∈ l) /\
  (forall m, m ∈ output -> m ∈ st.1) /\
  (forall id, id ∈ st.2 -> exists m, m ∈ st.1 /\ mid m = Some id) /\
  (forall id, id ∈ ps -> id ∈ st.2) /\
  (forall p id, p ∈ l -> truthy_id p = Some id -> hostProtected p = true -> id ∈ st.2).
Proof.
  revert output ps. induction l as [|p l IH]; intros output ps Hps; cbn [fold_left].
  - split_and!; [tauto | done | done | done |]. intros p id Hp. destruct (not_elem_of_nil _ Hp).
  - destruct (restore_step_cases output ps p) as [[-> Hp]|(i & id0 & -> & Hid)].
    + destruct (IH output ps Hps) as (I1 & I2 & I3 & I4 & I5). split_and!; [|done..|].
      * intros m [Hm|Hm]%I1; [by left | right; by right].
      * intros q id [->|Hq]%elem_of_cons; eauto.
    + destruct (IH (insert_at i p output) (id0 :: ps)) as (I1 & I2 & I3 & I4 & I5).
      { intros id [->|Hin]%elem_of_cons.
        - exists p. apply truthy_id_Some in Hid as [? _]. rewrite insert_at_elem. auto.
        - destruct (Hps id Hin) as (m & ? & ?). exists m. rewrite insert_at_elem. auto. }
      split_and!.
      * intros m [Hm|Hm]%I1; [|right; by right]. apply insert_at_elem in Hm as [->|Hm]; [|by left].
        right. left.
      * intros m Hm. apply I2, insert_at_elem. auto.
      * done.
      * intros id Hin. apply I4. by right.
      * intros q id [->|Hq]%elem_of_cons Ht Hp; [|eauto]. apply I4.
        rewrite Hid in Ht. injection Ht as ->. left.
Qed.
End Restore.

Lemma restore_elem c o m : m ∈ restoreProtectedMessages c o -> m ∈ c \/ m ∈ o.
Proof. apply (restore_fold o o c (ids_of c)). intros id. by rewrite elem_of_ids. Qed.

Lemma restore_has c o p id :
  p ∈ o -> truthy_id p = Some id -> hostProtected p = true ->
  exists m, m ∈ restoreProtectedMessages c o /\ mid m = Some id.
Proof.
  intros Hp Ht Hh. destruct (restore_fold o o c (ids_of c)) as (_ & _ & H3 & _ & H5).
  - intros i. by rewrite elem_of_ids.
  - apply H3. by apply (H5 p).
Qed.

Lemma relabel_elem host ref l m :
  m ∈ relabel host ref l ->
  (ref <= mref m < ref + length l)%nat /\ exists x, x ∈ l /\ m = relabel_one host (mref m) x.
Proof.
  revert ref. induction l as [|x l IH]; intros ref; simpl; [intros H; destruct (not_elem_of_nil _ H)|].
  intros [->|Hm]%elem_of_cons.
  - split; [simpl; lia|]. exists x. split; [left | done].
  - destruct (IH _ Hm) as (? & y & Hy & E). split; [lia|]. exists y. split; [by right | done].
Qed.

Lemma relabel_nodup host ref l : NoDup (map mref (relabel host ref l)).
Proof.
  revert ref. induction l as [|x l IH]; intros ref; simpl; [constructor|].
  apply NoDup_cons. split; [|apply IH]. intros (m & E & Hm)%list_elem_of_fmap.
  apply relabel_elem in Hm as [? _]. lia.
Qed.

Lemma applyReply_coherent host reply : coherent host -> coherent (applyReply host reply).
Proof.
  intros Hc a b. unfold applyReply.
  assert (Hnew : forall x y, x ∈ relabel host (ContextStrategy.fresh_ref host) reply -> y ∈ host ->
    mref x <> mref y).
  { intros x y Hx Hy. apply relabel_elem in Hx as [[Hge _] _]. unfold ContextStrategy.fresh_ref in Hge.
    pose proof (ContextStrategy.list_max_ge (map mref host) (mref y) (list_elem_of_fmap_2 mref host y Hy)).
    lia. }
  intros [Ha|Ha]%restore_elem [Hb|Hb]%restore_elem E.
  - exact (nodup_coherent _ (relabel_nodup _ _ _) a b Ha Hb E).
  - destruct (Hnew a b Ha Hb E).
  - by destruct (Hnew b a Hb Ha).
  - by apply Hc.
Qed.

(** What every interceptor leaves: the pinned host messages are there, under
    their identifier and still pinned. *)
Definition keeps_pinned (host w : list PromptMessage) : Prop :=
  forall h id, h ∈ host -> pinned h = true -> truthy_id h = Some id ->
    (exists m, m ∈ w /\ mid m = Some id) /\
    (forall m, m ∈ w -> mid m = Some id -> pinned m = true).

(** And nothing is protected that the host did not protect. *)
Definition protected_by_host (host w : list PromptMessage) : Prop :=
  forall m, m ∈ w -> isProtectedMessage m = true ->
    m ∈ host \/
    exists h, h ∈ host /\ mid m = mid h /\ (pinned h = true \/ source h = Some SrcSystem).

Lemma applyReply_keeps host reply : unique_ids host -> keeps_pinned host (applyReply host reply).
Proof.
  intros Hu h id Hh Hpin Ht. split.
  - apply (restore_has _ _ h); [done|done|]. unfold hostProtected. by rewrite Hpin.
  - pose proof (proj1 (truthy_id_Some _ _) Ht) as [Hid Hne].
    intros m [Hm|Hm]%restore_elem Hmid.
    + apply relabel_elem in Hm as (_ & x & Hx & E). rewrite E in Hmid |- *. simpl in *.
      assert (truthy_id x = Some id) as -> by by apply truthy_id_Some.
      destruct (by_id_has id host h Hh Hid) as [h' Hh']. rewrite Hh'.
      pose proof (by_id_get id host h' Hh') as [Hin Hid'].
      assert (h' = h) as ->; [|done]. apply (Hu h' h id); try done. by apply truthy_id_Some.
    + assert (m = h) as ->; [|done]. apply (Hu m h id); try done. by apply truthy_id_Some.
Qed.

Lemma applyReply_protected host reply : protected_by_host host (applyReply host reply).
Proof.
  intros m [Hm|Hm]%restore_elem Hp; [|by left]. right.
  apply relabel_elem in Hm as (_ & x & Hx & E). rewrite E in Hp |- *. clear E. simpl.
  unfold isProtectedMessage in Hp. simpl in Hp.
  destruct (truthy_id x) as [id|] eqn:Ht; [|by rewrite andb_false_r in Hp].
  destruct (map_get id (by_id host)) as [h|] eqn:Hh; [|by rewrite andb_false_r in Hp].
  pose proof (by_id_get _ _ _ Hh) as [Hin Hid]. apply truthy_id_Some in Ht as [Ht _].
  exists h. split_and!; [done | congruence|].
  destruct (pinned h); [by left|]. right. simpl in Hp. bools.
  destruct (source h) as [[]|]; simpl in *; done.
Qed.

Lemma run_interceptors_inv (I : list PromptMessage -> Prop) input host k queue w ds w' ds' :
  (forall reply, I (applyReply host reply)) -> I w ->
  run_interceptors input host k queue w ds = Ok (w', ds') -> I w'.
Proof.
  intros Hstep. revert k w ds. induction queue as [|i q IH]; intros k w ds Hw; cbn [run_interceptors].
  - by intros [= <- _].
  - case_match; [|done]. case_match; [by apply IH|].
    case_match; [|by apply IH]. destruct (describePromptDiff _ _) as [[? ?] ?]. apply IH. auto.
Qed.

(** ** Lemmas: a run in which every plugin fails *)

Lemma dedupe_id s o l :
  NoDup (map mref l) -> unique_ids l ->
  (forall m id, m ∈ l -> truthy_id m = Some id -> id ∉ s) ->
  (forall m, m ∈ l -> has o m = false) -> dedupe_loop s o l = l.
Proof.
  revert s o. induction l as [|x l IH]; intros s o Hnd Hu Hs Ho; simpl; [done|].
  apply NoDup_cons in Hnd as [Hx Hnd].
  assert (Hu' : unique_ids l) by (intros a b id Ha Hb; apply Hu; by right).
  destruct (truthy_id x) as [i|] eqn:E.
  - rewrite bool_decide_false by (apply (Hs x); [left | done]). f_equal.
    apply IH; [done|done| |intros; apply Ho; by right].
    intros m id Hm Ht. rewrite not_elem_of_cons. split; [|apply (Hs m); [by right | done]].
    intros ->. apply Hx. assert (x = m) as ->; [|by apply (list_elem_of_fmap_2 mref)].
    apply (Hu x m i); [left | by right | done | done].
  - rewrite (Ho x) by left. f_equal. apply IH; [done|done|intros m id Hm; apply Hs; by right|].
    intros m Hm. unfold has. simpl. rewrite orb_false_iff. split; [|apply Ho; by right].
    unfold same. apply Nat.eqb_neq. intros Exm. apply Hx. rewrite <- Exm.
    by apply (list_elem_of_fmap_2 mref).
Qed.

Lemma sanitize_id raw k :
  unique_ids raw -> k `sublist_of` raw -> NoDup (map mref raw) -> sanitize raw k = k.
Proof.
  intros Hu Hk Hnd.
  assert (Hin : forall m, m ∈ k -> m ∈ raw) by (intros m Hm; exact (elem_of_sublist _ _ _ Hm Hk)).
  assert (Hmap : map (hostObject raw) k = k).
  { rewrite <- (map_id k) at 2. apply map_ext_in. intros m Hm%elem_of_In. unfold hostObject.
    destruct (truthy_id m) as [i|] eqn:E; [|done].
    destruct (map_get i (protectedById raw)) as [h|] eqn:Eh; [|done]. simpl.
    apply by_id_get in Eh as [[Hh _]%elem_of_filter_bool Hid].
    apply (Hu h m i); [done|by apply Hin| |done].
    apply truthy_id_Some in E as [_ ?]. by apply truthy_id_Some. }
  unfold sanitize. rewrite Hmap. apply dedupe_id; [| | |done].
  - eapply sublist_NoDup; [exact Hnd|]. by apply (fmap_sublist mref).
  - intros a b id Ha Hb. apply Hu; auto.
  - intros m id _ _ H. by apply not_elem_of_nil in H.
Qed.

Lemma shift_fixed ct prio msgs b :
  totalFor ct 4 msgs <= b ->
  kept (shiftContext ct prio msgs b) = msgs /\ fitsBudget (shiftContext ct prio msgs b) = true.
Proof.
  intros H. unfold shiftContext. simpl. rewrite loop_fits, without_nil by done.
  split; [done | by apply Z.leb_le].
Qed.

(** An interceptor that is not permitted or throws on every prompt. *)
Definition ineffective (input : PipelineInput) (i : PipelineInterceptor) : Prop :=
  permitted input i = false \/ forall w, is_ok (intercept i w) = false.

Lemma run_ineffective input host k queue w ds :
  (forall n, aborted input n = false) -> Forall (ineffective input) queue ->
  exists ds', run_interceptors input host k queue w ds = Ok (w, ds').
Proof.
  intros Ha Hq. revert k ds. induction Hq as [|i q Hi Hq IH]; intros k ds; cbn [run_interceptors]; [eauto|].
  rewrite Ha. simpl. destruct Hi as [->|Hi]; simpl; [apply IH|]. case_match; [apply IH|].
  specialize (Hi w). destruct (intercept i w); [done | apply IH].
Qed.

(** ** Properties *)

(** The objects of the assembled messages and of the strategy's answer. *)
Definition strategy_objects (input : PipelineInput) (raw : list PromptMessage) : list PromptMessage :=
  raw ++ kept (chooseContext (countTokens input) (contextStrategy input) raw
                 (context_limit input - reserve_of input)).

Lemma run_ok input raw r :
  runPromptPipeline input raw = Ok r ->
  let budget := context_limit input - reserve_of input in
  let host := kept (initialContext (countTokens input) (contextStrategy input) raw budget) in
  exists ds ds',
    initialShift r = initialContext (countTokens input) (contextStrategy input) raw budget /\
    run_interceptors input host 1 (stable_sort ic_le (interceptors input)) host ds
      = Ok (working r, ds') /\
    finalShift r = shiftContext (countTokens input) None (working r) budget /\
    fitsBudget (finalShift r) = true /\
    contextLimit r = context_limit input /\ reservedForReply r = reserve_of input /\
    promptTokens r = estimatedTokens (finalShift r).
Proof.
  unfold runPromptPipeline. do 3 (case_match; [|done]).
  destruct (run_interceptors _ _ _ _ _ _) as [[w ds']|] eqn:Er; [|done]. cbn [obind].
  case_match; [|done]. case_match; [|done]. intros [= <-]. simpl. eauto 10.
Qed.

Lemma protected_survives (input : PipelineInput) (raw : list PromptMessage)
    (r : PipelineResult) (id : string) (h : PromptMessage) :
  coherent (strategy_objects input raw) ->
  runPromptPipeline input raw = Ok r ->
  map_get id (protectedById raw) = Some h -> id <> ""%string ->
  h ∈ kept (initialShift r) /\
  (pinned h = true ->
   exists m, m ∈ kept (finalShift r) /\ mid m = Some id /\ pinned m = true).
Proof.
  intros Hc (ds & ds' & Hi & Hrun & Hf & _)%run_ok Hh Hne.
  pose proof (host_has _ _ _ _ Hc id h Hh Hne) as Hin. rewrite Hi. split; [done|]. intros Hpin.
  pose proof (host_unique (countTokens input) (contextStrategy input) raw
    (context_limit input - reserve_of input)) as Hu.
  pose proof (host_coherent _ _ _ _ Hc) as Hco.
  assert (Ht : truthy_id h = Some id) by (apply truthy_id_Some; by apply by_id_get in Hh as [_ ?]).
  assert (Hk : keeps_pinned (kept (initialShift r)) (working r)).
  { rewrite Hi. eapply run_interceptors_inv; [|  |exact Hrun]; [intros; by apply applyReply_keeps|].
    intros h' id' Hh' Hp' Ht'. split.
    - exists h'. split; [done|]. by apply truthy_id_Some in Ht' as [? _].
    - intros m Hm Hmid. assert (m = h') as ->; [|done]. apply (Hu m h' id'); try done.
      apply truthy_id_Some in Ht' as [_ ?]. by apply truthy_id_Some. }
  assert (Hw : coherent (working r)).
  { eapply run_interceptors_inv; [| |exact Hrun]; [intros; by apply applyReply_coherent | done]. }
  rewrite Hi in Hk. destruct (Hk h id Hin Hpin Ht) as [(m & Hm & Hmid) Hall].
  exists m. split_and!; [|done|by apply Hall]. rewrite Hf. apply kept_protected; [done|done|].
  unfold isProtectedMessage. by rewrite (Hall m).
Qed.

(** C1: no context strategy and no interceptor, whatever it
    answers, can remove host context.  When the pipeline answers, the object that
    the host assembled last under each protected identifier is in the context
    before the interceptors, and when it is pinned, a message of that identifier
    is in the prompt at the end, pinned. *)
Theorem pipeline_protects_host_context (input : PipelineInput) (raw : list PromptMessage)
    (r : PipelineResult) (id : string) (h : PromptMessage) :
  coherent (strategy_objects input raw) ->
  runPromptPipeline input raw = Ok r ->
  map_get id (protectedById raw) = Some h -> id <> ""%string ->
  h ∈ kept (initialShift r) /\
  (pinned h = true ->
   exists m, m ∈ kept (finalShift r) /\ mid m = Some id /\ pinned m = true).
Proof. intros. by eapply protected_survives. Qed.

(** C7: when the pipeline answers, the prompt and the reserve
    fit the context limit; the reserve covers both the configured reserve and the
    tokens requested for the reply; and no message is protected from the final
    budget unless the host itself had protected it or a message of its
    identifier. *)
Theorem pipeline_respects_budget (input : PipelineInput) (raw : list PromptMessage)
    (r : PipelineResult) :
  runPromptPipeline input raw = Ok r ->
  promptTokens r = totalFor (countTokens input) 4 (kept (finalShift r)) /\
  promptTokens r + reservedForReply r <= contextLimit r /\
  requestedMaxTokens input <= reservedForReply r /\
  (forall n, reserveForReply input = Some n -> n <= reservedForReply r) /\
  kept (finalShift r) `sublist_of` working r /\
  protected_by_host (kept (initialShift r)) (working r).
Proof.
  intros (ds & ds' & Hi & Hrun & Hf & Hfit & -> & -> & Ht)%run_ok.
  rewrite Ht. rewrite Hf in Hfit |- *. split_and!.
  - done.
  - pose proof (kept_fits _ _ _ _ Hfit) as H.
    change (estimatedTokens (shiftContext ?c ?p ?w ?b)) with
      (totalFor c 4 (kept (shiftContext c p w b))). lia.
  - unfold reserve_of. lia.
  - intros n Hn. unfold reserve_of. rewrite Hn. simpl. lia.
  - apply filter_sublist.
  - rewrite Hi. eapply run_interceptors_inv; [| |exact Hrun].
    + intros. apply applyReply_protected.
    + intros m Hm _. by left.
Qed.

(** C10: broken plugins do not stop a generation.  When the
    context strategy is missing or throws, no interceptor is permitted and
    working, and nothing is aborted, the pipeline answers with the plain
    truncation of the assembled messages whenever that fits the budget. *)
Theorem pipeline_survives_broken_plugins (input : PipelineInput) (raw : list PromptMessage) :
  let budget := context_limit input - reserve_of input in
  let plain := shiftContext (countTokens input) None raw budget in
  (forall k, aborted input k = false) ->
  (forall s, contextStrategy input = Some s -> is_ok (st_shift s raw budget) = false) ->
  Forall (ineffective input) (interceptors input) ->
  NoDup (map mref raw) -> unique_ids raw ->
  0 < budget -> fitsBudget plain = true ->
  exists r, runPromptPipeline input raw = Ok r /\ kept (finalShift r) = kept plain.
Proof.
  intros budget plain Ha Hs Hq Hnd Hu Hb Hfit%kept_fits. unfold runPromptPipeline. fold budget.
  rewrite !Ha. rewrite (proj2 (Z.leb_gt budget 0) Hb). cbn [negb].
  assert (Hck : kept (checkedContext (countTokens input) (contextStrategy input) raw budget) = kept plain).
  { unfold checkedContext, chooseContext, runContextStrategy.
    destruct (contextStrategy input) as [s|]; [|by case_match].
    specialize (Hs s eq_refl). fold budget in Hs. destruct (st_shift s raw budget); [done|]. by case_match. }
  assert (Hinit : kept (initialContext (countTokens input) (contextStrategy input) raw budget)
      = kept (shiftContext (countTokens input) None (kept plain) budget) /\
    fitsBudget (initialContext (countTokens input) (contextStrategy input) raw budget)
      = fitsBudget (shiftContext (countTokens input) None (kept plain) budget)).
  { unfold initialContext. rewrite Hck, sanitize_id; [done|done|apply filter_sublist|done]. }
  destruct Hinit as [Hik Hif]. rewrite Hif, Hik.
  destruct (shift_fixed (countTokens input) None (kept plain) budget Hfit) as [Hk2 Hf2].
  rewrite Hk2, Hf2.
  destruct (run_ineffective input (kept plain) 1 (stable_sort ic_le (interceptors input)) (kept plain)
    (initialDiagnostics (countTokens input) (tokenizerProfile input) (tokenizerApproximate input)
       (contextStrategy input) raw budget)) as [ds' ->]; [done| |].
  { rewrite List.Forall_forall in Hq |- *. intros i Hi. apply Hq.
    apply elem_of_In, (elem_of_stable_sort ic_le). by apply elem_of_In. }
  cbn [obind]. rewrite Hf2. cbn [negb]. eexists. split; [done|]. exact Hk2.
Qed.

(** ** In-chat blocks *)

Lemma ins_total a b : ins_le a b = true \/ ins_le b a = true.
Proof.
  unfold ins_le. rewrite (Z.eqb_sym (i_order b)), (Z.eqb_sym (roleOrder (role (i_message b)))).
  repeat case_match; bools; rewrite ?Z.leb_le, ?Z.ltb_lt; lia.
Qed.

Lemma ins_trans a b c : ins_le a b = true -> ins_le b c = true -> ins_le a c = true.
Proof.
  unfold ins_le. intros H1 H2.
  repeat case_hyp H1; repeat case_hyp H2; repeat case_goal; bools;
    rewrite ?Z.leb_le, ?Z.ltb_lt; lia.
Qed.

(** The insertions recorded for a boundary are those of the injections at it, in
    their order. *)
Lemma byBoundary_get len js i :
  default [] (map_get i (fold_left (add_injection len) js [])) =
  concat (map insertions_of (List.filter (fun j => boundary_of len j =? i) js)).
Proof.
  assert (Hg : forall acc, default [] (map_get i (fold_left (add_injection len) js acc)) =
    default [] (map_get i acc) ++
    concat (map insertions_of (List.filter (fun j => boundary_of len j =? i) js))); [|apply Hg].
  induction js as [|j js IH]; intros acc; simpl; [by rewrite app_nil_r|].
  rewrite IH. unfold add_injection at 1. rewrite map_get_set. case_decide as E.
  - subst i. rewrite Z.eqb_refl. simpl. by rewrite <- app_assoc.
  - rewrite (proj2 (Z.eqb_neq _ _) E). done.
Qed.

(** What [mergeInChatPrompts] promises: one block of insertions before each
    history message and one after the last. *)
Fixpoint interleave (blocks : list (list PromptMessage)) (history : list PromptMessage)
    : list PromptMessage :=
  match blocks, history with
  | b :: bs, h :: hs => b ++ h :: interleave bs hs
  | b :: _, [] => b
  | [], hs => hs
  end.

Lemma merge_from_interleave bb i history :
  merge_from bb i history =
  interleave (map (fun n => map i_message (block_at bb (i + Z.of_nat n))) (seq 0 (S (length history))))
    history.
Proof.
  revert i. induction history as [|h hs IH]; intros i.
  - simpl. by rewrite Z.add_0_r, app_nil_r.
  - assert (E : seq 0 (S (length (h :: hs))) = 0%nat :: map S (seq 0 (S (length hs))))
      by by rewrite seq_shift.
    rewrite E, map_cons, map_map. cbn [merge_from interleave]. rewrite Z.add_0_r. do 2 f_equal.
    rewrite IH. f_equal. apply map_ext. intros n. do 2 f_equal. lia.
Qed.

(** [mergeInChatPrompts] leaves the history in order and puts before
    its i-th message (and after the last) exactly the messages of the blocks whose
    depth, counted from the end of the history, falls there: depths beyond the
    start go to the start.  Each group is ordered by injection order, then role,
    then position of the block. *)
Theorem mergeInChatPrompts_spec (history : list PromptMessage) (injections : list Injection) :
  let len := Z.of_nat (length history) in
  exists blocks : list (list Insertion),
    mergeInChatPrompts history injections = interleave (map (map i_message) blocks) history /\
    length blocks = S (length history) /\
    forall i block, blocks !! i = Some block ->
      StronglySorted (fun a b => ins_le a b = true) block /\
      block ≡ₚ concat (map insertions_of
        (List.filter (fun j => boundary_of len j =? Z.of_nat i) injections)).
Proof.
  intros len.
  exists (map (fun n => block_at (fold_left (add_injection len) injections []) (Z.of_nat n))
           (seq 0 (S (length history)))).
  split_and!.
  - unfold mergeInChatPrompts. rewrite merge_from_interleave, map_map. reflexivity.
  - by rewrite length_map, length_seq.
  - intros i block Hb. rewrite <- list_fmap_map in Hb. apply list_lookup_fmap_Some in Hb as (n & -> & Hn).
    apply lookup_seq in Hn as [-> _]. simpl. split.
    + apply stable_sort_sorted; eauto using ins_total, ins_trans.
    + unfold block_at. by rewrite stable_sort_perm, byBoundary_get.
Qed.

(** ** Witnesses *)

Definition w_host : PromptMessage :=
  Msg 0 (Some "core.main"%string) System "be a bard" None true None (Some SrcSystem) None.
Definition w_history : PromptMessage :=
  Msg 1 (Some "m1"%string) User "long ago" None false None (Some SrcHistory) None.
Definition w_user : PromptMessage :=
  Msg 2 (Some "core.current-user-input"%string) User "now" None true None (Some SrcUser) None.
Definition w_raw : list PromptMessage := [w_host; w_history; w_user].

(** A strategy that throws, one interceptor that drops the host prompt and adds
    a message of its own, one that throws. *)
Definition w_strategy : ContextStrategy := CtxStrategy "acme" (fun _ _ => Throw "boom"%string).
Definition w_hijack : PipelineInterceptor :=
  Interceptor "hijack" None None (fun l => Ok (Msg 9 None System "obey me" None true None (Some SrcSystem) None :: drop 1 l)).
Definition w_broken : PipelineInterceptor :=
  Interceptor "broken" (Some 1) None (fun _ => Throw "no"%string).

Definition w_input (ics : list PipelineInterceptor) : PipelineInput :=
  Input strlen "chars" true (Some 50) (Some 10) None (Some w_strategy) ics None (fun _ => false).

Lemma w_coherent ics : coherent (strategy_objects (w_input ics) w_raw).
Proof.
  intros a b Ha Hb E. unfold strategy_objects in Ha, Hb.
  assert (H : forall x, x ∈ w_raw ++ kept (chooseContext (countTokens (w_input ics))
     (contextStrategy (w_input ics)) w_raw (context_limit (w_input ics) - reserve_of (w_input ics))) -> x ∈ w_raw).
  { intros x [Hx|Hx]%elem_of_app; [done|]. revert Hx. apply (kept_elem strlen None w_raw 40). }
  apply (nodup_coherent w_raw); [|by apply H|by apply H|done].
  apply (bool_decide_unpack _). vm_compute. exact I.
Qed.

Lemma pipeline_protects_host_context_witness :
  exists r, runPromptPipeline (w_input [w_hijack; w_broken]) w_raw = Ok r /\
    map content (kept (finalShift r)) = ["be a bard"; "long ago"; "now"]%string /\
    exists m, m ∈ kept (finalShift r) /\ mid m = Some "core.main"%string /\ pinned m = true.
Proof.
  eexists. split; [vm_compute; reflexivity|]. split; [reflexivity|].
  eapply (pipeline_protects_host_context (w_input [w_hijack; w_broken]) w_raw _ "core.main" w_host).
  - apply w_coherent.
  - vm_compute. reflexivity.
  - vm_compute. reflexivity.
  - done.
  - reflexivity.
Defined.

Lemma pipeline_respects_budget_witness :
  exists r, runPromptPipeline (w_input [w_hijack]) w_raw = Ok r /\
    promptTokens r + reservedForReply r <= contextLimit r.
Proof.
  eexists. split; [vm_compute; reflexivity|].
  eapply (pipeline_respects_budget (w_input [w_hijack]) w_raw). vm_compute. reflexivity.
Defined.

Lemma pipeline_survives_broken_plugins_witness :
  exists r, runPromptPipeline (w_input [w_broken]) w_raw = Ok r /\
    kept (finalShift r) = w_raw.
Proof.
  apply (pipeline_survives_broken_plugins (w_input [w_broken]) w_raw).
  - done.
  - intros s. simpl. by intros [= <-].
  - constructor; [|constructor]. by right.
  - apply (bool_decide_unpack _). vm_compute. exact I.
  - intros a b id Ha Hb Hia Hib. apply elem_of_In in Ha, Hb. simpl in Ha, Hb.
    destruct Ha as [<-|[<-|[<-|[]]]], Hb as [<-|[<-|[<-|[]]]]; try done; vm_compute in Hia, Hib; congruence.
  - reflexivity.
  - vm_compute. reflexivity.
Defined.

End PromptPipeline.
