(* ===== verification/PromptPostProcessing.v ===== *)
(** * Prompt post-processing
    (apps/server/src/pipeline/promptPostProcessing.ts)

    The merging of consecutive messages and the modes [merge], [semi],
    [strict], [single] and their tool variants.  The recursive call of
    [mergeMessages] always has [strict] off, so it is the squashing stage alone. *)

From Stdlib Require Import ZArith Lia Bool Ascii String List.
From stdpp Require Import base decidable strings list.
From S2P Require Import Prelude ContextShift.
Import ContextShift.

Module PromptPostProcessing.

(** ** Definitions *)

Record GenerationMessage := GMsg {
  g_role : MessageRole;
  g_content : string;
  g_name : option string
}.

Record PromptPostProcessingNames := Names { charName : option string; userName : option string }.

Record MergeOptions := MergeOpts { strict : bool; placeholders : bool; single : bool; tools : bool }.

Definition DEFAULT_PROMPT_PLACEHOLDER : string := "Let's get started.".

Definition prefixOnce (c : string) (name : option string) : string :=
  match name with
  | None => c
  | Some n =>
      if (n =? "")%string then c
      else let prefix := n +:+ ": " in
           if starts_with (chars prefix) (chars c) then c else prefix +:+ c
  end.

Definition toMessage (r : MessageRole) (c : string) : GenerationMessage := GMsg r c None.

(** The function that [messages.map] applies. *)
Definition normalize (names : PromptPostProcessingNames) (opts : MergeOptions)
    (m : GenerationMessage) : GenerationMessage :=
  let sys := bool_decide (g_role m = System) in
  let c := g_content m in
  let c := if sys && bool_decide (g_name m = Some "example_assistant"%string)
           then prefixOnce c (charName names) else c in
  let c := if sys && bool_decide (g_name m = Some "example_user"%string)
           then prefixOnce c (userName names) else c in
  let c := if negb sys then prefixOnce c (g_name m) else c in
  let r := if bool_decide (g_role m = Tool) && negb (tools opts) then User else g_role m in
  let r := if bool_decide (r = Plugin) then User else r in
  if single opts then
    let c := if bool_decide (r = Assistant) then prefixOnce c (charName names) else c in
    let c := if bool_decide (r = User) then prefixOnce c (userName names) else c in
    toMessage User c
  else toMessage r c.

Definition nn : string := String "010" (String "010" "").

Definition append (a : GenerationMessage) (c : string) : GenerationMessage :=
  GMsg (g_role a) (g_content a +:+ nn +:+ c) (g_name a).

(** [last && last.role === message.role && message.content.length > 0 && message.role !== 'tool'] *)
Definition joins (a m : GenerationMessage) : bool :=
  bool_decide (g_role a = g_role m) && negb (g_content m =? "")%string &&
  negb (bool_decide (g_role m = Tool)).

Definition squash_step (merged : list GenerationMessage) (m : GenerationMessage)
    : list GenerationMessage :=
  match last merged with
  | Some a => if joins a m then removelast merged ++ [append a (g_content m)] else merged ++ [m]
  | None => merged ++ [m]
  end.

Definition squash (names : PromptPostProcessingNames) (opts : MergeOptions) (placeholder : string)
    (messages : list GenerationMessage) : list GenerationMessage :=
  let merged := fold_left squash_step (map (normalize names opts) messages) [] in
  match merged with
  | [] => [toMessage User placeholder]
  | _ => merged
  end.

(** The loop from index 1. *)
Definition demote (m : GenerationMessage) : GenerationMessage :=
  if bool_decide (g_role m = System) then toMessage User (g_content m) else m.

Definition demote_tail (merged : list GenerationMessage) : list GenerationMessage :=
  match merged with
  | [] => []
  | first :: rest => first :: map demote rest
  end.

Definition is_role (r : MessageRole) (m : GenerationMessage) : bool := bool_decide (g_role m = r).

Definition insert_placeholders (placeholder : string) (merged : list GenerationMessage)
    : list GenerationMessage :=
  match merged with
  | [] => []
  | first :: rest =>
      if is_role System first &&
         match rest with [] => true | second :: _ => negb (is_role User second) end
      then first :: toMessage User placeholder :: rest
      else if negb (is_role System first) && negb (is_role User first)
      then toMessage User placeholder :: merged
      else merged
  end.

Definition mergeMessages (names : PromptPostProcessingNames) (opts : MergeOptions)
    (placeholder : string) (messages : list GenerationMessage) : list GenerationMessage :=
  let merged := squash names opts placeholder messages in
  if strict opts then
    let merged := demote_tail merged in
    let merged := if placeholders opts then insert_placeholders placeholder merged else merged in
    squash names (MergeOpts false (placeholders opts) false (tools opts)) placeholder merged
  else merged.

Inductive PromptPostProcessingMode :=
| Merge | MergeTools | Semi | SemiTools | Strict | StrictTools | Single.

Definition options_of (mode : PromptPostProcessingMode) : MergeOptions :=
  match mode with
  | Merge => MergeOpts false false false false
  | MergeTools => MergeOpts false false false true
  | Semi => MergeOpts true false false false
  | SemiTools => MergeOpts true false false true
  | Strict => MergeOpts true true false false
  | StrictTools => MergeOpts true true false true
  | Single => MergeOpts true false true false
  end.

Definition postProcessMessages (messages : list GenerationMessage)
    (mode : option PromptPostProcessingMode) (names : PromptPostProcessingNames)
    (placeholder : string) : list GenerationMessage :=
  match mode with
  | Some mode => mergeMessages names (options_of mode) placeholder messages
  | None => map (fun m => toMessage (g_role m) (g_content m)) messages
  end.

(** ** The grouping specification *)

(** A maximal run of messages that become one message. *)
Definition glue (g : list GenerationMessage) : GenerationMessage :=
  match g with
  | [] => toMessage User ""
  | h :: t => fold_left (fun a m => append a (g_content m)) t h
  end.

Definition joinable (h m : GenerationMessage) : Prop :=
  g_role h = g_role m /\ g_content m <> ""%string /\ g_role m <> Tool.

Definition run (g : list GenerationMessage) : Prop :=
  exists h t, g = h :: t /\ forall m, m ∈ t -> joinable h m.

(** Consecutive groups are separate because the second does not join the first. *)
Fixpoint separated (gs : list (list GenerationMessage)) : Prop :=
  match gs with
  | (h1 :: t1) :: (((h2 :: t2) :: _) as r) => ~ joinable h1 h2 /\ separated r
  | _ => True
  end.

(** [gs] is the grouping of [l] into maximal runs. *)
Definition grouping (l : list GenerationMessage) (gs : list (list GenerationMessage)) : Prop :=
  concat gs = l /\ Forall run gs /\ separated gs.

Lemma glue_role h t : g_role (glue (h :: t)) = g_role h.
Proof. simpl. revert h. induction t as [|m t IH]; intros h; simpl; [done|]. by rewrite IH. Qed.

Lemma joins_joinable a m : joins a m = true <-> joinable a m.
Proof.
  unfold joins, joinable. rewrite !andb_true_iff, !negb_true_iff, String.eqb_neq,
    bool_decide_eq_true, bool_decide_eq_false. tauto.
Qed.

Lemma joins_role a b m : g_role a = g_role b -> joins a m = joins b m.
Proof. unfold joins. by intros ->. Qed.

Lemma glue_snoc h t m : glue ((h :: t) ++ [m]) = append (glue (h :: t)) (g_content m).
Proof. simpl. by rewrite fold_left_app. Qed.

Lemma separated_snoc gs g h t :
  separated (gs ++ [g]) -> run g ->
  (forall h1 t1, g = h1 :: t1 -> ~ joinable h1 h) -> separated ((gs ++ [g]) ++ [h :: t]).
Proof.
  intros Hs (h1 & t1 & -> & _) Hj. specialize (Hj h1 t1 eq_refl).
  induction gs as [|g0 gs IH]; simpl in *; [done|].
  destruct g0 as [|h0 t0]; [done|]. destruct gs as [|g1 gs]; simpl in *.
  - by destruct Hs as [? _].
  - destruct g1 as [|h2 t2]; [done|]. destruct Hs as [? Hs]. split; [done|]. by apply IH.
Qed.

Lemma separated_grow gs h t x : separated (gs ++ [h :: t]) -> separated (gs ++ [h :: t ++ [x]]).
Proof.
  induction gs as [|g0 gs IH]; [done|]. destruct g0 as [|h0 t0]; [done|].
  destruct gs as [|[|h1 t1] gs]; [done|done|]. intros [? Hs]. split; [done|]. by apply IH.
Qed.

Lemma last_map_glue gs g : last (map glue (gs ++ [g])) = Some (glue g).
Proof. rewrite map_app. apply last_snoc. Qed.

(** One step of the squashing loop extends the grouping. *)
Lemma squash_step_grouping l gs m :
  grouping l gs ->
  exists gs', grouping (l ++ [m]) gs' /\ squash_step (map glue gs) m = map glue gs'.
Proof.
  intros (Hc & Hr & Hs). destruct gs as [|g gs _] using rev_ind.
  - simpl in Hc. subst l. exists [[m]]. split; [|done]. split; [done|]. split; [|done].
    repeat constructor. exists m, []. split; [done|]. intros x Hx. destruct (not_elem_of_nil _ Hx).
  - apply Forall_app in Hr as [Hr Hg]. inversion Hg as [|? ? Hrun _]; subst.
    pose proof Hrun as (h & t & -> & Ht). unfold squash_step. rewrite last_map_glue.
    rewrite (joins_role _ h m (glue_role h t)). destruct (joins h m) eqn:E.
    + exists (gs ++ [h :: t ++ [m]]). split; [split; [|split]|].
      * rewrite !concat_app. simpl. rewrite !app_nil_r, <- app_assoc. done.
      * apply Forall_app. split; [done|]. constructor; [|constructor]. exists h, (t ++ [m]).
        split; [done|]. apply joins_joinable in E.
        intros x [Hx| ->%list_elem_of_singleton]%elem_of_app; auto.
      * by apply separated_grow.
      * rewrite !map_app. cbn [map]. rewrite removelast_last.
        change (h :: t ++ [m]) with ((h :: t) ++ [m]). by rewrite glue_snoc.
    + exists ((gs ++ [h :: t]) ++ [[m]]). split; [split; [|split]|].
      * by rewrite (concat_app (gs ++ [h :: t])).
      * apply Forall_app. split; [apply Forall_app; split; done|]. constructor; [|constructor].
        exists m, []. split; [done|]. intros x Hx. destruct (not_elem_of_nil _ Hx).
      * apply separated_snoc; [done|done|]. intros h1 t1 [= <- <-] Hj%joins_joinable. congruence.
      * by rewrite !map_app.
Qed.

Lemma squash_loop_grouping l :
  exists gs, grouping l gs /\ fold_left squash_step l [] = map glue gs.
Proof.
  induction l as [|m l (gs & Hg & E)] using rev_ind.
  - exists []. split; [|done]. split; [done|]. by split.
  - destruct (squash_step_grouping l gs m Hg) as (gs' & Hg' & E').
    exists gs'. split; [done|]. by rewrite fold_left_app, E.
Qed.

(** ** Adjacency *)

(** Consecutive messages differ in role, or the second is a tool result. *)
Definition alternates (l : list GenerationMessage) : Prop :=
  forall i a b, l !! i = Some a -> l !! S i = Some b -> g_role a <> g_role b \/ g_role b = Tool.

Definition nonempty_contents (l : list GenerationMessage) : Prop :=
  forall m, m ∈ l -> g_content m <> ""%string.

Lemma not_joinable a m :
  g_content m <> ""%string -> ~ joinable a m -> g_role a <> g_role m \/ g_role m = Tool.
Proof.
  unfold joinable. intros Hc Hn. destruct (decide (g_role m = Tool)); [by right|].
  left. intros E. by apply Hn.
Qed.

Lemma separated_lookup gs i h1 t1 h2 t2 :
  separated gs -> Forall run gs -> gs !! i = Some (h1 :: t1) -> gs !! S i = Some (h2 :: t2) ->
  ~ joinable h1 h2.
Proof.
  intros Hs Hr. revert i. induction Hr as [|g gs (h & t & -> & _) Hr IH]; intros i; [done|].
  destruct gs as [|g2 gs]; [by destruct i|]. inversion Hr as [|? ? (h' & t' & -> & _) _]; subst.
  destruct Hs as [Hj Hs]. destruct i as [|i]; simpl; [congruence|]. by apply (IH Hs i).
Qed.

Lemma grouping_alternates l gs :
  grouping l gs -> nonempty_contents l -> alternates (map glue gs).
Proof.
  intros (Hc & Hr & Hs) Hne i a b. rewrite <- !list_fmap_map, !list_lookup_fmap.
  destruct (gs !! i) as [g1|] eqn:E1; [|done]. destruct (gs !! S i) as [g2|] eqn:E2; [|done].
  intros [= <-] [= <-].
  assert (Hrun : forall j g, gs !! j = Some g -> run g)
    by (intros j g Hj; rewrite Forall_forall in Hr; apply Hr; by eapply list_elem_of_lookup_2).
  destruct (Hrun _ _ E1) as (h1 & t1 & -> & _). destruct (Hrun _ _ E2) as (h2 & t2 & -> & _).
  rewrite !glue_role. apply not_joinable; [|by eapply separated_lookup].
  apply Hne. rewrite <- Hc. apply elem_of_In, in_concat. exists (h2 :: t2).
  split; [apply elem_of_In; by eapply list_elem_of_lookup_2 | by left].
Qed.

Lemma append_nonempty a b : (a <> "" -> a +:+ b <> "")%string.
Proof. by destruct a. Qed.

Lemma app_string_nonempty a b : (b <> "" -> a +:+ b <> "")%string.
Proof. by destruct a. Qed.

Lemma prefixOnce_nonempty c n : (c <> "" -> prefixOnce c n <> "")%string.
Proof.
  intros Hc. unfold prefixOnce. destruct n as [n|]; [|done]. case_match; [done|].
  cbv zeta. case_match; [done|]. by apply app_string_nonempty.
Qed.

Lemma normalize_content_nonempty names opts m :
  (g_content m <> "" -> g_content (normalize names opts m) <> "")%string.
Proof.
  intros Hc. unfold normalize. cbv zeta. destruct (single opts); cbn [toMessage g_content];
    repeat case_match; repeat apply prefixOnce_nonempty; done.
Qed.

Lemma fold_append_content t h :
  g_content h <> ""%string -> g_content (fold_left (fun a m => append a (g_content m)) t h) <> ""%string.
Proof.
  revert h. induction t as [|m t IH]; intros h Hh; simpl; [done|]. apply IH. simpl.
  by apply append_nonempty.
Qed.

Lemma glue_head_content g h t :
  g = h :: t -> g_content h <> ""%string -> g_content (glue g) <> ""%string.
Proof. intros ->. apply fold_append_content. Qed.

Lemma squash_alternates names opts p l :
  nonempty_contents l -> alternates (squash names opts p l).
Proof.
  intros Hne. unfold squash.
  destruct (squash_loop_grouping (map (normalize names opts) l)) as (gs & Hg & ->).
  pose proof (grouping_alternates _ _ Hg) as Ha. destruct (map glue gs) eqn:E.
  - intros i a b H. by destruct i.
  - apply Ha. intros m (x & -> & Hx)%list_elem_of_fmap. by apply normalize_content_nonempty, Hne.
Qed.

Lemma squash_nonempty names opts p l : squash names opts p l <> [].
Proof. unfold squash. by destruct (fold_left _ _ _). Qed.

Lemma squash_contents names opts p l :
  p <> ""%string -> nonempty_contents l -> nonempty_contents (squash names opts p l).
Proof.
  intros Hp Hne. unfold squash.
  destruct (squash_loop_grouping (map (normalize names opts) l)) as (gs & (Hc & Hr & _) & ->).
  assert (H : nonempty_contents (map glue gs)).
  { intros m (g & -> & Hg)%list_elem_of_fmap. rewrite Forall_forall in Hr.
    destruct (Hr g Hg) as (h & t & -> & _). eapply glue_head_content; [done|].
    assert (Hh : h ∈ map (normalize names opts) l).
    { rewrite <- Hc. apply elem_of_In, in_concat. exists (h :: t).
      split; [by apply elem_of_In | by left]. }
    apply list_elem_of_fmap in Hh as (x & -> & Hx). by apply normalize_content_nonempty, Hne. }
  destruct (map glue gs); [|done]. intros m ->%list_elem_of_singleton. done.
Qed.

(** Every message of the result has a role that normalization produced. *)
Lemma squash_roles (P : MessageRole -> Prop) names opts p l :
  P User -> (forall m, m ∈ l -> P (g_role (normalize names opts m))) ->
  forall m, m ∈ squash names opts p l -> P (g_role m).
Proof.
  intros HU Hl. unfold squash.
  destruct (squash_loop_grouping (map (normalize names opts) l)) as (gs & (Hc & Hr & _) & ->).
  assert (H : forall m, m ∈ map glue gs -> P (g_role m)).
  { intros m (g & -> & Hg)%list_elem_of_fmap. rewrite Forall_forall in Hr.
    destruct (Hr g Hg) as (h & t & -> & _). rewrite glue_role.
    assert (Hh : h ∈ map (normalize names opts) l).
    { rewrite <- Hc. apply elem_of_In, in_concat. exists (h :: t).
      split; [by apply elem_of_In | by left]. }
    apply list_elem_of_fmap in Hh as (x & -> & Hx). auto. }
  destruct (map glue gs); [|done]. by intros m ->%list_elem_of_singleton.
Qed.

(** ** Heads *)

Definition norm_role (opts : MergeOptions) (r : MessageRole) : MessageRole :=
  if single opts then User
  else match r with
       | Tool => if tools opts then Tool else User
       | Plugin => User
       | r => r
       end.

Lemma normalize_role names opts m : g_role (normalize names opts m) = norm_role opts (g_role m).
Proof.
  unfold normalize, norm_role. cbv zeta. destruct (single opts); [done|]. simpl.
  destruct (g_role m), (tools opts); reflexivity.
Qed.

(** The first message becomes the head of the result, the others stay behind it,
    and a second message of another role stays second. *)
Lemma squash_first names opts p h t :
  exists a r, squash names opts p (h :: t) = a :: r /\
    g_role a = norm_role opts (g_role h) /\
    (forall m, m ∈ r -> exists x, x ∈ t /\ g_role m = norm_role opts (g_role x)) /\
    (forall u t', t = u :: t' -> norm_role opts (g_role u) <> norm_role opts (g_role h) ->
       exists b r', r = b :: r' /\ g_role b = norm_role opts (g_role u)).
Proof.
  unfold squash.
  destruct (squash_loop_grouping (map (normalize names opts) (h :: t))) as (gs & (Hc & Hr & _) & ->).
  inversion Hr as [|g gs' (h1 & t1 & -> & Ht1) Hr']; subst; [done|]. simpl in Hc.
  injection Hc as -> Hc. exists (glue (normalize names opts h :: t1)), (map glue gs').
  split_and!; [done|by rewrite glue_role, normalize_role| |].
  - intros m (g & -> & Hg)%list_elem_of_fmap. rewrite Forall_forall in Hr'.
    destruct (Hr' g Hg) as (h2 & t2 & -> & _). rewrite glue_role.
    assert (Hh : h2 ∈ map (normalize names opts) t).
    { rewrite <- Hc. apply elem_of_app. right. apply elem_of_In, in_concat. exists (h2 :: t2).
      split; [by apply elem_of_In | by left]. }
    apply list_elem_of_fmap in Hh as (x & -> & Hx). exists x. by rewrite normalize_role.
  - intros u t' -> Hne. destruct t1 as [|m t1].
    + simpl in Hc. inversion Hr' as [|g gs'' (h2 & t2 & -> & _) _]; subst; [done|].
      simpl in Hc. injection Hc as -> _. eexists _, _. split; [reflexivity|].
      by rewrite glue_role, normalize_role.
    + exfalso. simpl in Hc. injection Hc as -> _.
      assert (Hj : joinable (normalize names opts h) (normalize names opts u)) by (apply Ht1; left).
      destruct Hj as [Hj _]. rewrite !normalize_role in Hj. congruence.
Qed.

Definition no_system (l : list GenerationMessage) : Prop := forall m, m ∈ l -> g_role m <> System.

(** A user message comes first, after at most one system message. *)
Definition user_first (l : list GenerationMessage) : Prop :=
  match l with
  | a :: r => g_role a = User \/
      g_role a = System /\ match r with b :: _ => g_role b = User | [] => False end
  | [] => False
  end.

Lemma demote_tail_spec l :
  nonempty_contents l -> l <> [] ->
  nonempty_contents (demote_tail l) /\ demote_tail l <> [] /\ no_system (tail (demote_tail l)).
Proof.
  destruct l as [|h t]; [done|]. intros Hne _. simpl. split_and!; [|done|].
  - intros m [->|(x & -> & Hx)%list_elem_of_fmap]%elem_of_cons; [apply Hne; left|].
    unfold demote. case_match; simpl; apply Hne; by right.
  - intros m (x & -> & Hx)%list_elem_of_fmap. unfold demote. case_match; [done|]. by bools.
Qed.

Lemma insert_placeholders_spec p l :
  p <> ""%string -> nonempty_contents l -> l <> [] -> no_system (tail l) ->
  (forall m, m ∈ l -> g_role m <> Plugin) ->
  let r := insert_placeholders p l in
  nonempty_contents r /\ r <> [] /\ no_system (tail r) /\ user_first r.
Proof.
  intros Hp Hne Hl Hs Hpl. destruct l as [|a r]; [done|]. simpl in Hs.
  assert (Hn' : nonempty_contents (toMessage User p :: a :: r))
    by (intros m [->|?]%elem_of_cons; [done | by apply Hne]).
  unfold insert_placeholders, is_role.
  destruct (bool_decide (g_role a = System)) eqn:Ea; simpl; bools.
  - destruct r as [|b r]; simpl.
    + split_and!; [|done| |right; done].
      * intros m [->|[->|Hm]%elem_of_cons]%elem_of_cons; [apply Hne; left|done|destruct (not_elem_of_nil _ Hm)].
      * by intros m ->%list_elem_of_singleton.
    + destruct (bool_decide (g_role b = User)) eqn:Eb; simpl; bools.
      * split_and!; [done|done|done|]. by right.
      * split_and!; [|done| |by right].
        -- intros m [->|[->|Hm]%elem_of_cons]%elem_of_cons; [apply Hne; left|done|apply Hne; by right].
        -- intros m [->|Hm]%elem_of_cons; [done | by apply Hs].
  - destruct (bool_decide (g_role a = User)) eqn:Eu; simpl; bools.
    + split_and!; [done|done|done|by left].
    + split_and!; [done|done| |by left].
      intros m [->|Hm]%elem_of_cons; [done | by apply Hs].
Qed.

Lemma norm_role_system opts r : single opts = false -> norm_role opts r = System <-> r = System.
Proof. unfold norm_role. intros ->. destruct r, (tools opts); naive_solver. Qed.

Lemma squash_keeps_order names opts p l :
  single opts = false -> l <> [] -> no_system (tail l) ->
  no_system (tail (squash names opts p l)) /\
  (user_first l -> user_first (squash names opts p l)).
Proof.
  intros Hsi Hl Hs. destruct l as [|h t]; [done|].
  destruct (squash_first names opts p h t) as (a & r & -> & Ha & Hr & Hu). simpl in *. split.
  - intros m Hm. destruct (Hr m Hm) as (x & Hx & ->). rewrite norm_role_system by done. auto.
  - intros [E|[E H]].
    + left. rewrite Ha, E. unfold norm_role. by rewrite Hsi.
    + right. rewrite Ha, E. split; [by apply norm_role_system|]. destruct t as [|u t]; [done|].
      assert (Hnu : norm_role opts (g_role u) = User) by (rewrite H; unfold norm_role; by rewrite Hsi).
      destruct (Hu u t eq_refl) as (b & r' & -> & Eb); [|congruence].
      rewrite Hnu, E. unfold norm_role. by rewrite Hsi.
Qed.

(** Roles that no mode leaves, and the tool role of the base modes. *)
Definition role_allowed (opts : MergeOptions) (r : MessageRole) : Prop :=
  r <> Plugin /\ (tools opts = false -> r <> Tool) /\ (single opts = true -> r = User).

Lemma norm_role_allowed opts r : role_allowed opts (norm_role opts r).
Proof. unfold role_allowed, norm_role. destruct (single opts), r, (tools opts); naive_solver. Qed.

Lemma squash_allowed names opts p l m :
  m ∈ squash names opts p l -> role_allowed opts (g_role m).
Proof.
  apply (squash_roles (role_allowed opts)).
  - by split_and!.
  - intros x _. rewrite normalize_role. apply norm_role_allowed.
Qed.

(** ** Properties *)

(** Every mode turns a list of non-empty messages into a
    non-empty list of non-empty messages without plugin roles (without tool roles
    unless the mode keeps them) in which consecutive messages differ in role or
    the second is a tool result.  The [semi], [strict] and [single] modes leave a
    system message at most at the head, [strict] starts with a user message after
    at most one system message, and [single] gives exactly one user message. *)
Theorem postProcessMessages_shape (messages : list GenerationMessage)
    (mode : PromptPostProcessingMode) (names : PromptPostProcessingNames) (placeholder : string) :
  placeholder <> ""%string -> nonempty_contents messages ->
  let opts := options_of mode in
  let r := postProcessMessages messages (Some mode) names placeholder in
  r <> [] /\ nonempty_contents r /\ alternates r /\
  (forall m, m ∈ r -> g_role m <> Plugin /\ (tools opts = false -> g_role m <> Tool)) /\
  (strict opts = true -> no_system (tail r)) /\
  (placeholders opts = true -> user_first r) /\
  (mode = Single -> exists m, r = [m] /\ g_role m = User).
Proof.
  intros Hp Hne opts r. subst r. cbn [postProcessMessages]. fold opts. unfold mergeMessages.
  pose proof (squash_contents names opts placeholder messages Hp Hne) as H1.
  pose proof (squash_nonempty names opts placeholder messages) as H1n.
  pose proof (squash_allowed names opts placeholder messages) as H1r.
  pose proof (squash_alternates names opts placeholder messages Hne) as H1a.
  set (m1 := squash names opts placeholder messages) in *. clearbody m1.
  destruct (strict opts) eqn:Es; [|split_and!; try done;
    [intros m Hm; destruct (H1r m Hm) as (? & ? & _); done |by destruct mode | by destruct mode]].
  destruct (demote_tail_spec m1 H1 H1n) as (H2 & H2n & H2s).
  assert (H2r : forall m, m ∈ demote_tail m1 -> role_allowed opts (g_role m)).
  { destruct m1 as [|a t]; [done|]. intros m [->|(x & -> & Hx)%list_elem_of_fmap]%elem_of_cons.
    - apply H1r. left.
    - unfold demote. case_match; [|apply H1r; by right]. by split_and!. }
  set (m2 := demote_tail m1) in *. clearbody m2.
  set (opts2 := MergeOpts false (placeholders opts) false (tools opts)).
  set (m3 := if placeholders opts then insert_placeholders placeholder m2 else m2).
  assert (H3 : nonempty_contents m3 /\ m3 <> [] /\ no_system (tail m3) /\
               (placeholders opts = true -> user_first m3)).
  { subst m3. destruct (placeholders opts); [|done].
    destruct (insert_placeholders_spec placeholder m2) as (? & ? & ? & ?); try done.
    intros m Hm. by apply H2r. }
  destruct H3 as (H3 & H3n & H3s & H3u).
  destruct (squash_keeps_order names opts2 placeholder m3 eq_refl H3n H3s) as [H4s H4u].
  assert (Hsing : mode = Single -> forall m, m ∈ squash names opts2 placeholder m3 -> g_role m = User).
  { intros ->. apply (squash_roles (fun r => r = User)); [done|]. intros m Hm.
    assert (E : g_role m = User) by (by apply (H2r m Hm)). by rewrite normalize_role, E. }
  pose proof (squash_alternates names opts2 placeholder m3 H3) as H4a.
  split_and!; [apply squash_nonempty | by apply squash_contents | done | | done | auto |].
  - intros m Hm. by destruct (squash_allowed _ _ _ _ _ Hm) as (? & ? & _).
  - intros Em. specialize (Hsing Em).
    pose proof (squash_nonempty names opts2 placeholder m3) as Hn.
    destruct (squash names opts2 placeholder m3) as [|a [|b r]]; [done| |].
    + exists a. split; [done|]. apply Hsing. left.
    + destruct (H4a 0%nat a b eq_refl eq_refl) as [E|E].
      * rewrite (Hsing a), (Hsing b) in E; [done | right; left | left].
      * rewrite (Hsing b) in E; [done | right; left].
Qed.

(** Without [strict], [mergeMessages] cuts the normalized messages
    into maximal runs of one role and glues each run with blank lines: every text
    is kept, in order, and only non-empty messages that are not tool results join
    the message before them.  An empty prompt becomes the placeholder. *)
Theorem mergeMessages_grouping (names : PromptPostProcessingNames) (opts : MergeOptions)
    (placeholder : string) (messages : list GenerationMessage) :
  strict opts = false ->
  exists gs, grouping (map (normalize names opts) messages) gs /\
    mergeMessages names opts placeholder messages =
      match messages with
      | [] => [toMessage User placeholder]
      | _ => map glue gs
      end.
Proof.
  intros Hs. unfold mergeMessages. rewrite Hs. unfold squash.
  destruct (squash_loop_grouping (map (normalize names opts) messages)) as (gs & Hg & E).
  exists gs. split; [done|]. rewrite E. destruct messages as [|m l].
  - by destruct (map glue gs) eqn:?; simpl in E.
  - destruct Hg as (Hc & _). by destruct gs.
Qed.

(** ** Witnesses *)

Definition w_names : PromptPostProcessingNames := Names (Some "Ann"%string) (Some "Bob"%string).
Definition w_chat : list GenerationMessage :=
  [ GMsg System "rules" None; GMsg System "lore" None; GMsg Assistant "hi" (Some "Ann"%string);
    GMsg Tool "42" None; GMsg User "go" None; GMsg System "note" None ].

Lemma w_chat_nonempty : nonempty_contents w_chat.
Proof. intros m Hm%elem_of_In. simpl in Hm. by repeat destruct Hm as [<-|Hm]. Qed.

Lemma postProcessMessages_shape_witness :
  map g_role (postProcessMessages w_chat (Some Strict) w_names DEFAULT_PROMPT_PLACEHOLDER)
    = [System; User; Assistant; User] /\
  alternates (postProcessMessages w_chat (Some Strict) w_names DEFAULT_PROMPT_PLACEHOLDER).
Proof.
  split; [vm_compute; reflexivity|].
  apply (postProcessMessages_shape w_chat Strict w_names DEFAULT_PROMPT_PLACEHOLDER);
    [done | apply w_chat_nonempty].
Defined.

Lemma mergeMessages_grouping_witness :
  map g_role (mergeMessages w_names (options_of Merge) "p" w_chat) = [System; Assistant; User; System] /\
  exists gs, grouping (map (normalize w_names (options_of Merge)) w_chat) gs /\
    mergeMessages w_names (options_of Merge) "p" w_chat = map glue gs.
Proof.
  split; [vm_compute; reflexivity|].
  apply (mergeMessages_grouping w_names (options_of Merge) "p" w_chat). reflexivity.
Defined.

End PromptPostProcessing.
