(* ===== verification/KernelStream.v ===== *)
(** * Credit-based byte streams of the plugin kernel
    (packages/plugin-sdk/src/kernel/session.ts, the stream half)

    [OutState] is a stream opened with [openOutboundStream]: the record of the
    source, whether the session still lists it, and the writers that have been
    woken and have not yet continued (the continuation of an [await] is a step of
    its own, [OutResume]).  [Reader] is the receiving side: [ready] holds the
    resolved and not yet continued pulls. *)

From Stdlib Require Import ZArith Lia Bool Ascii String List.
From stdpp Require Import base decidable strings list.
From S2P Require Import Prelude.
Local Open Scope Z_scope.

Module KernelStream.

Definition Bytes := list ascii.
Definition byteLength (b : Bytes) : Z := Z.of_nat (length b).
Definition total (l : list Bytes) : Z := zsum (map byteLength l).

Record StreamLimitsConfig := Limits {
  maxInFlightBytes : Z;
  maxBufferedBytesPerStream : Z;
  maxTotalBytes : Z
}.

Definition DEFAULT_STREAM_LIMITS : StreamLimitsConfig :=
  Limits (1024 * 1024) (2 * 1024 * 1024) (512 * 1024 * 1024).

Definition STREAM_FAILED : string := "STREAM_FAILED".
Definition PLUGIN_QUOTA_EXCEEDED : string := "PLUGIN_QUOTA_EXCEEDED".

(** ** The producer *)

(** A suspended [write]: before its chunk is queued, or after. *)
Inductive Waiter :=
| BeforeEnqueue (w : nat) (chunk : Bytes)
| AfterEnqueue (w : nat).

Definition waiter_id (x : Waiter) : nat :=
  match x with BeforeEnqueue w _ => w | AfterEnqueue w => w end.

Record StreamOutbound := Outbound {
  credit : Z;
  queue : list Bytes;
  queuedBytes : Z;
  seq : nat;
  ended : bool;
  errored : bool;
  drainWaiters : list Waiter;
  maxBufferedBytes : Z
}.

Inductive Frame :=
| FChunk (seq : nat) (data : Bytes)
| FEnd
| FError (code : string).

Inductive OutEffect :=
| EFrame (f : Frame)
| EWrite (w : nat) (error : option string).

Record OutState := Out { ob : StreamOutbound; listed : bool; woken : list Waiter }.

Definition open_out (lim : StreamLimitsConfig) : OutState :=
  Out (Outbound 0 [] 0 0 false false [] (maxBufferedBytesPerStream lim)) true [].

(** The [while] loop of [pumpOutbound]: the chunks it posts, what stays queued. *)
Fixpoint pump_loop (c : Z) (q : list Bytes) : list Bytes * list Bytes :=
  match q with
  | [] => ([], [])
  | chunk :: q' =>
      if 0 <? c then
        if c <? byteLength chunk then ([], q)
        else let '(posted, rest) := pump_loop c q' in (chunk :: posted, rest)
      else ([], q)
  end.

Fixpoint number (n : nat) (l : list Bytes) : list OutEffect :=
  match l with
  | [] => []
  | b :: r => EFrame (FChunk n b) :: number (S n) r
  end.

Definition pumpOutbound (o : OutState) : OutState * list OutEffect :=
  let s := ob o in
  let '(posted, rest) := pump_loop (credit s) (queue s) in
  let s' := Outbound (credit s) rest (queuedBytes s) (seq s + length posted) (ended s) (errored s)
              (drainWaiters s) (maxBufferedBytes s) in
  let es := number (seq s) posted in
  if ended s && bool_decide (rest = []) then (Out s' false (woken o), es ++ [EFrame FEnd])
  else if 2 * queuedBytes s <=? maxBufferedBytes s then
    (Out (Outbound (credit s) rest (queuedBytes s) (seq s + length posted) (ended s) (errored s)
            [] (maxBufferedBytes s)) (listed o) (woken o ++ drainWaiters s), es)
  else (Out s' (listed o) (woken o), es).

Definition waitForDrain (o : OutState) (x : Waiter) : OutState * list OutEffect :=
  let s := ob o in
  if errored s then (o, [EWrite (waiter_id x) (Some STREAM_FAILED)])
  else (Out (Outbound (credit s) (queue s) (queuedBytes s) (seq s) (ended s) (errored s)
               (drainWaiters s ++ [x]) (maxBufferedBytes s)) (listed o) (woken o), []).

(** The second half of [write]. *)
Definition enqueue (o : OutState) (w : nat) (chunk : Bytes) : OutState * list OutEffect :=
  let s := ob o in
  let '(o', es) := pumpOutbound
    (Out (Outbound (credit s) (queue s ++ [chunk]) (queuedBytes s + byteLength chunk) (seq s)
            (ended s) (errored s) (drainWaiters s) (maxBufferedBytes s)) (listed o) (woken o)) in
  if maxBufferedBytes (ob o') <? queuedBytes (ob o') then
    let '(o'', es') := waitForDrain o' (AfterEnqueue w) in (o'', es ++ es')
  else (o', es ++ [EWrite w None]).

Definition write (lim : StreamLimitsConfig) (o : OutState) (w : nat) (chunk : Bytes)
    : OutState * list OutEffect :=
  let s := ob o in
  if ended s || errored s then (o, [EWrite w (Some STREAM_FAILED)])
  else if maxInFlightBytes lim <? byteLength chunk then (o, [EWrite w (Some PLUGIN_QUOTA_EXCEEDED)])
  else if maxBufferedBytes s <? queuedBytes s + byteLength chunk
  then waitForDrain o (BeforeEnqueue w chunk)
  else enqueue o w chunk.

Definition resume_write (o : OutState) : OutState * list OutEffect :=
  match woken o with
  | [] => (o, [])
  | x :: rest =>
      let o' := Out (ob o) (listed o) rest in
      match x with
      | BeforeEnqueue w chunk => enqueue o' w chunk
      | AfterEnqueue w => (o', [EWrite w None])
      end
  end.

Definition set_flags (s : StreamOutbound) (e r : bool) : StreamOutbound :=
  Outbound (credit s) (queue s) (queuedBytes s) (seq s) e r (drainWaiters s) (maxBufferedBytes s).

Definition end_stream (o : OutState) : OutState * list OutEffect :=
  let s := ob o in
  if ended s || errored s then (o, [])
  else if negb (bool_decide (queue s = [])) then (Out (set_flags s true (errored s)) (listed o) (woken o), [])
  else (Out (set_flags s true (errored s)) false (woken o), [EFrame FEnd]).

Definition fail_stream (o : OutState) (code : string) : OutState * list OutEffect :=
  let s := ob o in
  if errored s || ended s then (o, [])
  else (Out (set_flags s (ended s) true) false (woken o), [EFrame (FError code)]).

(** The consumer's [stream.credit] and [stream.cancel]; an unlisted stream
    ignores them. *)
Definition on_credit (o : OutState) (bytes : Z) : OutState * list OutEffect :=
  let s := ob o in
  if listed o then
    pumpOutbound (Out (Outbound (credit s + bytes) (queue s) (queuedBytes s) (seq s) (ended s)
      (errored s) (drainWaiters s) (maxBufferedBytes s)) (listed o) (woken o))
  else (o, []).

Definition wake_all (o : OutState) (e : bool) : OutState :=
  let s := ob o in
  Out (Outbound (credit s) (queue s) (queuedBytes s) (seq s) (ended s) e [] (maxBufferedBytes s))
    false (woken o ++ drainWaiters s).

Definition on_cancel (o : OutState) : OutState * list OutEffect :=
  if listed o then (wake_all o true, []) else (o, []).

(** [dispose] of the session. *)
Definition drop_out (o : OutState) : OutState :=
  if listed o then wake_all o (errored (ob o)) else o.

Inductive OutOp :=
| OutWrite (w : nat) (chunk : Bytes)
| OutResume
| OutEnd
| OutFail (code : string)
| OutCredit (bytes : Z)
| OutCancel
| OutDispose.

Definition out_step (lim : StreamLimitsConfig) (o : OutState) (op : OutOp)
    : OutState * list OutEffect :=
  match op with
  | OutWrite w chunk => write lim o w chunk
  | OutResume => resume_write o
  | OutEnd => end_stream o
  | OutFail code => fail_stream o code
  | OutCredit bytes => on_credit o bytes
  | OutCancel => on_cancel o
  | OutDispose => (drop_out o, [])
  end.

Fixpoint out_run (lim : StreamLimitsConfig) (o : OutState) (ops : list OutOp)
    : OutState * list OutEffect :=
  match ops with
  | [] => (o, [])
  | op :: r =>
      let '(o1, es1) := out_step lim o op in
      let '(o2, es2) := out_run lim o1 r in
      (o2, es1 ++ es2)
  end.

(** ** The consumer *)

Record StreamInbound := Inbound {
  grantedNotReceived : Z;
  buffered : list Bytes;
  bufferedBytes : Z;
  nextSeq : nat;
  iended : bool;
  ierror : option string;
  pullWaiters : list nat;
  totalReceived : Z;
  imaxTotalBytes : Z
}.

(** [ready] are the resolved promises of waiting pulls; [None] is [null]. *)
Record Reader := Rd { ib : StreamInbound; ready : list (nat * option Bytes) }.

Inductive InEffect :=
| ECredit (bytes : Z)
| EPull (p : nat) (result : outcome string (option Bytes)).

Definition open_in (lim : StreamLimitsConfig) : Reader :=
  Rd (Inbound (maxInFlightBytes lim) [] 0 0 false None [] 0 (maxTotalBytes lim)) [].

Definition failInbound (r : Reader) (code : string) : Reader :=
  let s := ib r in
  Rd (Inbound (grantedNotReceived s) (buffered s) (bufferedBytes s) (nextSeq s) (iended s)
        (Some code) [] (totalReceived s) (imaxTotalBytes s))
     (ready r ++ map (fun p => (p, None)) (pullWaiters s)).

(** [stream.chunk]: the reader, and whether the session still lists it. *)
Definition on_chunk (r : Reader) (n : nat) (chunk : Bytes) : Reader * bool :=
  let s := ib r in
  if iended s || bool_decide (ierror s <> None) then (r, true)
  else if negb (n =? nextSeq s)%nat then (r, true)
  else
    let got := totalReceived s + byteLength chunk in
    let gnr := Z.max 0 (grantedNotReceived s - byteLength chunk) in
    if imaxTotalBytes s <? got then
      (failInbound (Rd (Inbound gnr (buffered s) (bufferedBytes s) (S (nextSeq s)) (iended s) (ierror s)
          (pullWaiters s) got (imaxTotalBytes s)) (ready r)) PLUGIN_QUOTA_EXCEEDED, false)
    else
      match pullWaiters s with
      | p :: ps =>
          (Rd (Inbound gnr (buffered s) (bufferedBytes s) (S (nextSeq s)) (iended s) (ierror s)
                 ps got (imaxTotalBytes s)) (ready r ++ [(p, Some chunk)]), true)
      | [] =>
          (Rd (Inbound gnr (buffered s ++ [chunk]) (bufferedBytes s + byteLength chunk) (S (nextSeq s))
                 (iended s) (ierror s) [] got (imaxTotalBytes s)) (ready r), true)
      end.

Definition on_end (r : Reader) : Reader :=
  let s := ib r in
  Rd (Inbound (grantedNotReceived s) (buffered s) (bufferedBytes s) (nextSeq s) true (ierror s) []
        (totalReceived s) (imaxTotalBytes s))
     (ready r ++ map (fun p => (p, None)) (pullWaiters s)).

(** [replenishCredit] on a listed stream. *)
Definition replenishCredit (lim : StreamLimitsConfig) (r : Reader) : Reader * list InEffect :=
  let s := ib r in
  let outstanding := maxInFlightBytes lim - grantedNotReceived s in
  if outstanding <=? 0 then (r, [])
  else (Rd (Inbound (grantedNotReceived s + outstanding) (buffered s) (bufferedBytes s) (nextSeq s)
              (iended s) (ierror s) (pullWaiters s) (totalReceived s) (imaxTotalBytes s)) (ready r),
        [ECredit outstanding]).

(** [pull] up to its first [await]: the result, and whether it replenishes. *)
Definition pull (r : Reader) (p : nat) : Reader * option (outcome string (option Bytes)) * bool :=
  let s := ib r in
  match buffered s with
  | chunk :: rest =>
      (Rd (Inbound (grantedNotReceived s) rest (bufferedBytes s - byteLength chunk) (nextSeq s)
             (iended s) (ierror s) (pullWaiters s) (totalReceived s) (imaxTotalBytes s)) (ready r),
       Some (Ok (Some chunk)), true)
  | [] =>
      match ierror s with
      | Some e => (r, Some (Throw e), false)
      | None =>
          if iended s then (r, Some (Ok None), false)
          else (Rd (Inbound (grantedNotReceived s) [] (bufferedBytes s) (nextSeq s) (iended s) (ierror s)
                      (pullWaiters s ++ [p]) (totalReceived s) (imaxTotalBytes s)) (ready r),
                None, false)
      end
  end.

(** The rest of [pull] after its [await]. *)
Definition resume_pull (r : Reader)
    : Reader * option (nat * outcome string (option Bytes)) * bool :=
  match ready r with
  | [] => (r, None, false)
  | (p, v) :: rest =>
      let r' := Rd (ib r) rest in
      match ierror (ib r) with
      | Some e => (r', Some (p, Throw e), false)
      | None => (r', Some (p, Ok v), match v with Some _ => true | None => false end)
      end
  end.

Inductive InOp :=
| InChunk (n : nat) (chunk : Bytes)
| InEnd
| InError (code : string)
| InPull (p : nat)
| InResume.

Record InState := InSt { rd : Reader; ilisted : bool }.

Definition replenish_if (lim : StreamLimitsConfig) (b : bool) (i : InState) : InState * list InEffect :=
  if b && ilisted i then
    let '(r, es) := replenishCredit lim (rd i) in (InSt r (ilisted i), es)
  else (i, []).

Definition in_step (lim : StreamLimitsConfig) (i : InState) (op : InOp) : InState * list InEffect :=
  match op with
  | InChunk n chunk =>
      if ilisted i then let '(r, l) := on_chunk (rd i) n chunk in (InSt r l, []) else (i, [])
  | InEnd => if ilisted i then (InSt (on_end (rd i)) false, []) else (i, [])
  | InError code => if ilisted i then (InSt (failInbound (rd i) code) false, []) else (i, [])
  | InPull p =>
      let '(r, res, again) := pull (rd i) p in
      let '(i', es) := replenish_if lim again (InSt r (ilisted i)) in
      (i', es ++ match res with Some x => [EPull p x] | None => [] end)
  | InResume =>
      let '(r, res, again) := resume_pull (rd i) in
      let '(i', es) := replenish_if lim again (InSt r (ilisted i)) in
      (i', es ++ match res with Some (p, x) => [EPull p x] | None => [] end)
  end.

Fixpoint in_run (lim : StreamLimitsConfig) (i : InState) (ops : list InOp)
    : InState * list InEffect :=
  match ops with
  | [] => (i, [])
  | op :: r =>
      let '(i1, es1) := in_step lim i op in
      let '(i2, es2) := in_run lim i1 r in
      (i2, es1 ++ es2)
  end.

(** ** What a run put on the wire *)

Definition frame_data (e : OutEffect) : option Bytes :=
  match e with EFrame (FChunk _ b) => Some b | _ => None end.
Definition frame_seq (e : OutEffect) : option nat :=
  match e with EFrame (FChunk n _) => Some n | _ => None end.
Definition posted (es : list OutEffect) : list Bytes := omap frame_data es.
Definition posted_seqs (es : list OutEffect) : list nat := omap frame_seq es.

(** The chunk that an operation adds to the queue, from the guards of [write]. *)
Definition enqueued (lim : StreamLimitsConfig) (o : OutState) (op : OutOp) : list Bytes :=
  match op with
  | OutWrite _ chunk =>
      if ended (ob o) || errored (ob o) then []
      else if maxInFlightBytes lim <? byteLength chunk then []
      else if maxBufferedBytes (ob o) <? queuedBytes (ob o) + byteLength chunk then []
      else [chunk]
  | OutResume => match woken o with BeforeEnqueue _ chunk :: _ => [chunk] | _ => [] end
  | _ => []
  end.

Fixpoint enqueued_run (lim : StreamLimitsConfig) (o : OutState) (ops : list OutOp) : list Bytes :=
  match ops with
  | [] => []
  | op :: r => enqueued lim o op ++ enqueued_run lim (out_step lim o op).1 r
  end.

(** ** Lemmas: the producer *)

Lemma total_app a b : total (a ++ b) = total a + total b.
Proof. unfold total. by rewrite map_app, zsum_app. Qed.

Lemma total_cons a b : total (a :: b) = byteLength a + total b.
Proof. unfold total. cbn [map]. by rewrite zsum_cons. Qed.

Lemma byteLength_nonneg b : 0 <= byteLength b.
Proof. unfold byteLength. lia. Qed.

Lemma total_nonneg l : 0 <= total l.
Proof.
  induction l as [|b l IH]; [done|]. rewrite total_cons. pose proof (byteLength_nonneg b). lia.
Qed.

Lemma pump_loop_split c q : (pump_loop c q).1 ++ (pump_loop c q).2 = q.
Proof.
  induction q as [|b q IH]; simpl; [done|]. repeat (case_match; [|done]).
  case_match; [done|]. destruct (pump_loop c q) as [x y]. simpl in *. by rewrite IH.
Qed.

Lemma number_posted n l : posted (number n l) = l.
Proof. revert n. induction l as [|b l IH]; intros n; simpl; [done|]. unfold posted in *. simpl. by rewrite IH. Qed.

Lemma number_seqs n l : posted_seqs (number n l) = List.seq n (length l).
Proof.
  revert n. induction l as [|b l IH]; intros n; simpl; [done|]. unfold posted_seqs in *. simpl. by rewrite IH.
Qed.

Lemma posted_app a b : posted (a ++ b) = posted a ++ posted b.
Proof. apply omap_app. Qed.
Lemma posted_seqs_app a b : posted_seqs (a ++ b) = posted_seqs a ++ posted_seqs b.
Proof. apply omap_app. Qed.

(** What one operation does to the queue, the numbering and the byte counter. *)
Record out_ok (o o' : OutState) (es : list OutEffect) (added : list Bytes) : Prop := {
  ok_queue : posted es ++ queue (ob o') = queue (ob o) ++ added;
  ok_seqs : posted_seqs es = List.seq (seq (ob o)) (length (posted es));
  ok_seq : seq (ob o') = (seq (ob o) + length (posted es))%nat;
  ok_bytes : queuedBytes (ob o') = queuedBytes (ob o) + total added;
  ok_max : maxBufferedBytes (ob o') = maxBufferedBytes (ob o)
}.

Lemma out_ok_refl o o' es :
  queue (ob o') = queue (ob o) -> seq (ob o') = seq (ob o) ->
  queuedBytes (ob o') = queuedBytes (ob o) -> maxBufferedBytes (ob o') = maxBufferedBytes (ob o) ->
  posted es = [] -> posted_seqs es = [] -> out_ok o o' es [].
Proof.
  intros Hq Hs Hb Hm Hp Hn. split; rewrite ?Hp, ?Hn, ?Hq, ?Hs, ?Hb, ?Hm, ?app_nil_r; change (total []) with 0; simpl; try done; lia.
Qed.

Lemma out_ok_trans o1 o2 o3 e1 e2 a1 a2 :
  out_ok o1 o2 e1 a1 -> out_ok o2 o3 e2 a2 -> out_ok o1 o3 (e1 ++ e2) (a1 ++ a2).
Proof.
  intros [Q1 S1 N1 B1 M1] [Q2 S2 N2 B2 M2]. split.
  - rewrite posted_app, <- app_assoc, Q2, app_assoc, Q1. by rewrite app_assoc.
  - by rewrite posted_seqs_app, S1, S2, N1, posted_app, length_app, seq_app.
  - rewrite N2, N1, posted_app, length_app. lia.
  - rewrite B2, B1, total_app. lia.
  - congruence.
Qed.

Lemma pumpOutbound_ok o : out_ok o (pumpOutbound o).1 (pumpOutbound o).2 [].
Proof.
  unfold pumpOutbound. pose proof (pump_loop_split (credit (ob o)) (queue (ob o))) as Hp.
  destruct (pump_loop _ _) as [ps rest]. simpl in Hp.
  repeat case_match; split; cbn [fst snd ob queue seq queuedBytes maxBufferedBytes];
    rewrite ?posted_app, ?posted_seqs_app, ?number_posted, ?number_seqs; simpl;
    rewrite ?app_nil_r, ?length_app; simpl; rewrite ?Nat.add_0_r;
    change (total []) with 0; try exact Hp; try lia; try done.
Qed.

Lemma waitForDrain_ok o x : out_ok o (waitForDrain o x).1 (waitForDrain o x).2 [].
Proof. unfold waitForDrain. case_match; by apply out_ok_refl. Qed.

Lemma enqueue_ok o w c : out_ok o (enqueue o w c).1 (enqueue o w c).2 [c].
Proof.
  unfold enqueue. set (o1 := Out _ _ _).
  assert (H1 : out_ok o o1 [] [c]).
  { split; simpl; [done|done|lia| |done]. rewrite total_cons. unfold total, zsum. simpl. lia. }
  pose proof (pumpOutbound_ok o1) as H2. destruct (pumpOutbound o1) as [o2 es]. simpl in H2.
  pose proof (out_ok_trans _ _ _ _ _ _ _ H1 H2) as H3. simpl in H3.
  case_match.
  - pose proof (waitForDrain_ok o2 (AfterEnqueue w)) as H4.
    destruct (waitForDrain o2 (AfterEnqueue w)) as [o3 es3].
    exact (out_ok_trans _ _ _ _ _ _ _ H3 H4).
  - assert (H4 : out_ok o2 o2 [EWrite w None] []) by by apply out_ok_refl.
    exact (out_ok_trans _ _ _ _ _ _ _ H3 H4).
Qed.

Lemma out_step_ok lim o op :
  out_ok o (out_step lim o op).1 (out_step lim o op).2 (enqueued lim o op).
Proof.
  destruct op as [w c| | |code|b| |]; simpl.
  - unfold write. do 2 (case_match; [by apply out_ok_refl|]).
    case_match; [apply waitForDrain_ok | apply enqueue_ok].
  - unfold resume_write. destruct (woken o) as [|[w c|w] rest]; [by apply out_ok_refl| |by apply out_ok_refl].
    set (o1 := Out (ob o) (listed o) rest).
    assert (H1 : out_ok o o1 [] []) by by apply out_ok_refl.
    exact (out_ok_trans _ _ _ _ _ _ _ H1 (enqueue_ok o1 w c)).
  - unfold end_stream. repeat case_match; by apply out_ok_refl.
  - unfold fail_stream. repeat case_match; by apply out_ok_refl.
  - unfold on_credit. case_match; [|by apply out_ok_refl]. set (o1 := Out _ _ _).
    assert (H1 : out_ok o o1 [] []) by by apply out_ok_refl.
    exact (out_ok_trans _ _ _ _ _ _ _ H1 (pumpOutbound_ok o1)).
  - unfold on_cancel. case_match; by apply out_ok_refl.
  - unfold drop_out. case_match; by apply out_ok_refl.
Qed.

Lemma out_run_ok lim o ops :
  out_ok o (out_run lim o ops).1 (out_run lim o ops).2 (enqueued_run lim o ops).
Proof.
  revert o. induction ops as [|op ops IH]; intros o; cbn [out_run enqueued_run]; [by apply out_ok_refl|].
  pose proof (out_step_ok lim o op) as H1. destruct (out_step lim o op) as [o1 es1]. simpl in *.
  specialize (IH o1). destruct (out_run lim o1 ops) as [o2 es2]. simpl in *.
  exact (out_ok_trans _ _ _ _ _ _ _ H1 IH).
Qed.

(** ** Properties of the producer *)

(** In every run the producer sends the accepted chunks in
    their order, numbered from 0 without gaps; nothing is lost or sent twice: what
    is not yet on the wire is in the queue. *)
Theorem producer_fifo (lim : StreamLimitsConfig) (ops : list OutOp) :
  let o := (out_run lim (open_out lim) ops).1 in
  let es := (out_run lim (open_out lim) ops).2 in
  posted es ++ queue (ob o) = enqueued_run lim (open_out lim) ops /\
  posted_seqs es = List.seq 0 (length (posted es)).
Proof.
  intros o es. destruct (out_run_ok lim (open_out lim) ops) as [Hq Hs _ _ _].
  split; [exact Hq | exact Hs].
Qed.

(** A stream with nothing queued that neither ended nor failed. *)
Record flowing (g : Z) (o : OutState) : Prop := {
  fl_queue : queue (ob o) = [];
  fl_credit : credit (ob o) = g;
  fl_open : ended (ob o) = false /\ errored (ob o) = false
}.

Lemma flowing_write lim g o w c :
  flowing g o -> 0 < byteLength c <= g -> byteLength c <= maxInFlightBytes lim ->
  queuedBytes (ob o) + byteLength c <= maxBufferedBytes (ob o) ->
  flowing g (write lim o w c).1 /\ posted (write lim o w c).2 = [c].
Proof.
  intros [Hq Hg [He Hr]] Hc Hl Hb. unfold write. rewrite He, Hr. simpl.
  rewrite (proj2 (Z.ltb_ge _ _) Hl), (proj2 (Z.ltb_ge _ _) Hb).
  unfold enqueue, pumpOutbound. cbn [ob queue credit ended]. rewrite Hq, Hg, He. simpl.
  rewrite (proj2 (Z.ltb_lt 0 g)), (proj2 (Z.ltb_ge g (byteLength c))) by lia. cbn [andb].
  destruct (2 * _ <=? _); cbn [ob queuedBytes maxBufferedBytes];
    rewrite (proj2 (Z.ltb_ge _ _) Hb); simpl; (split; [split|]); simpl; auto.
Qed.

(** The credit is not used up.  After one grant of [g] bytes the
    producer sends every chunk of at most [g] bytes, as long as the chunks together
    fit the buffer limit: the bytes sent are not bounded by the bytes granted. *)
Lemma credit_not_spent (lim : StreamLimitsConfig) (g : Z) (chunks : list Bytes) :
  (forall c, c ∈ chunks -> 0 < byteLength c <= Z.min g (maxInFlightBytes lim)) ->
  total chunks <= maxBufferedBytesPerStream lim -> 0 < g ->
  posted (out_run lim (open_out lim) (OutCredit g :: map (OutWrite 0) chunks)).2 = chunks /\
  credit (ob (out_run lim (open_out lim) (OutCredit g :: map (OutWrite 0) chunks)).1) = g.
Proof.
  intros Hc Ht Hg. cbn [out_run out_step].
  destruct (on_credit (open_out lim) g) as [o es] eqn:E0.
  assert (Ho : flowing g o /\ queuedBytes (ob o) = 0 /\
    maxBufferedBytes (ob o) = maxBufferedBytesPerStream lim /\ es = []).
  { revert E0. unfold on_credit, open_out, pumpOutbound. cbn -[Z.mul Z.leb Z.add].
    case_match; intros [= <- <-]; split_and!; try done; split; simpl; auto; lia. }
  destruct Ho as (Hf & Hb & Hm & ->).
  assert (Hgen : forall o0, flowing g o0 -> maxBufferedBytes (ob o0) = maxBufferedBytesPerStream lim ->
    queuedBytes (ob o0) + total chunks <= maxBufferedBytesPerStream lim ->
    posted (out_run lim o0 (map (OutWrite 0) chunks)).2 = chunks /\
    credit (ob (out_run lim o0 (map (OutWrite 0) chunks)).1) = g).
  { clear - Hc. induction chunks as [|c cs IH]; intros o0 Hf Hm Hb; cbn [map out_run].
    - split; [done | apply Hf].
    - rewrite total_cons in Hb. pose proof (total_nonneg cs). pose proof (Hc c ltac:(left)) as Hcc.
      destruct (flowing_write lim g o0 0 c Hf) as [Hf' Hp]; [lia..|].
      pose proof (out_step_ok lim o0 (OutWrite 0 c)) as Hok.
      change (write lim o0 0 c) with (out_step lim o0 (OutWrite 0 c)) in *.
      assert (Hen : enqueued lim o0 (OutWrite 0 c) = [c]).
      { simpl. destruct (fl_open _ _ Hf) as [-> ->]. simpl. rewrite !(proj2 (Z.ltb_ge _ _)) by lia. done. }
      destruct (out_step lim o0 (OutWrite 0 c)) as [o1 e1]. simpl in Hp, Hf'.
      destruct Hok as [_ _ _ Hby Hmx]. rewrite Hen in Hby. simpl in Hby, Hmx.
      rewrite total_cons in Hby. unfold total, zsum in Hby. simpl in Hby.
      destruct (IH ltac:(intros; apply Hc; by right) o1 Hf') as [IHp IHc]; [congruence|lia|].
      destruct (out_run lim o1 _) as [o2 e2]. simpl in *. rewrite posted_app, Hp, IHp. done. }
  destruct (Hgen o Hf Hm) as [H1 H2]; [lia|].
  destruct (out_run lim o _) as [o2 e2]. simpl in *. done.
Qed.

(** A writer that waits on a stream whose counter is above half of its limit. *)
Record stuck (x : Waiter) (o : OutState) : Prop := {
  st_wait : x ∈ drainWaiters (ob o);
  st_full : maxBufferedBytes (ob o) < 2 * queuedBytes (ob o);
  st_woken : forall y, y ∈ woken o -> waiter_id y <> waiter_id x
}.

(** The writer's promise settles in [es]. *)
Definition settles (w : nat) (es : list OutEffect) : Prop := exists e, EWrite w e ∈ es.

Lemma number_no_settle w n l : ~ settles w (number n l).
Proof.
  intros [e He]. revert n He. induction l as [|b l IH]; intros n; simpl; [apply not_elem_of_nil|].
  intros [H|H]%elem_of_cons; [done | by apply (IH (S n))].
Qed.

Lemma stuck_pump x o :
  stuck x o -> stuck x (pumpOutbound o).1 /\ ~ settles (waiter_id x) (pumpOutbound o).2.
Proof.
  intros [Hw Hf Hn]. unfold pumpOutbound. destruct (pump_loop _ _) as [ps rest].
  rewrite (proj2 (Z.leb_gt _ _) Hf). case_match; cbn [fst snd]; split; try by split.
  - intros [e [He|He]%elem_of_app]; [|by apply list_elem_of_singleton in He].
    apply (number_no_settle (waiter_id x) (seq (ob o)) ps). by exists e.
  - apply number_no_settle.
Qed.

Lemma stuck_enqueue x o w c :
  stuck x o -> w <> waiter_id x ->
  stuck x (enqueue o w c).1 /\ ~ settles (waiter_id x) (enqueue o w c).2.
Proof.
  intros [Hw Hf Hn] Hne. unfold enqueue. set (o1 := Out _ _ _).
  assert (H1 : stuck x o1) by (split; simpl; [done | pose proof (byteLength_nonneg c); lia | done]).
  destruct (stuck_pump x o1 H1) as [[Hw2 Hf2 Hn2] He2].
  destruct (pumpOutbound o1) as [o2 es]. cbn [fst snd] in *.
  assert (Hs : forall e, ~ settles (waiter_id x) (es ++ [EWrite w e])).
  { intros e [e' [He|He]%elem_of_app]; [apply He2; by exists e'|].
    apply list_elem_of_singleton in He. congruence. }
  destruct (_ <? _); [|split; [by split | apply Hs]]. unfold waitForDrain.
  destruct (errored (ob o2)); cbn [fst snd].
  - split; [by split | apply Hs].
  - rewrite app_nil_r. split; [|done]. split; simpl; [|done|done]. apply elem_of_app. by left.
Qed.

Lemma stuck_step lim x o op :
  stuck x o -> op <> OutCancel -> op <> OutDispose -> (forall c, op <> OutWrite (waiter_id x) c) ->
  stuck x (out_step lim o op).1 /\ ~ settles (waiter_id x) (out_step lim o op).2.
Proof.
  intros Hst Hc Hd Hw. pose proof Hst as [Hx Hf Hn].
  assert (Hnil : ~ settles (waiter_id x) []) by (intros [e He]; by apply not_elem_of_nil in He).
  assert (H1 : forall w e, w <> waiter_id x -> ~ settles (waiter_id x) [EWrite w e])
    by (intros w e Hne [e' He%list_elem_of_singleton]; congruence).
  destruct op as [w c| | |code|b| |]; simpl; [| | | | |done|done].
  - assert (Hne : w <> waiter_id x) by (intros ->; by apply (Hw c)).
    unfold write. do 2 (case_match; [split; [done | by apply H1]|]). case_match; [|by apply stuck_enqueue].
    unfold waitForDrain. case_match; simpl; [by auto|]. split; [|done].
    split; simpl; [apply elem_of_app; by left | done | done].
  - unfold resume_write. destruct (woken o) as [|y rest] eqn:E; [done|].
    assert (Hy : waiter_id y <> waiter_id x) by (apply Hn; left).
    assert (Hr : stuck x (Out (ob o) (listed o) rest))
      by (split; simpl; [done | done | intros z Hz; apply Hn; by right]).
    destruct y as [w c|w]; simpl in Hy; [by apply stuck_enqueue | simpl; auto].
  - unfold end_stream. repeat case_match; simpl; (split; [by split|]); try done.
    intros [e He%list_elem_of_singleton]. done.
  - unfold fail_stream. repeat case_match; simpl; (split; [by split|]); try done.
    intros [e He%list_elem_of_singleton]. done.
  - unfold on_credit. case_match; [|done]. apply stuck_pump. by split.
Qed.

(** A blocked writer stays blocked.  The counter of queued bytes only
    grows, so once it is above half of the buffer limit, no credit, no further
    write and no end of the stream wakes a waiting writer: only a cancellation
    does (or the end of the session). *)
Lemma blocked_writer (lim : StreamLimitsConfig) (o : OutState) (x : Waiter)
    (ops : list OutOp) :
  x ∈ drainWaiters (ob o) -> maxBufferedBytes (ob o) < 2 * queuedBytes (ob o) ->
  (forall y, y ∈ woken o -> waiter_id y <> waiter_id x) ->
  (forall op, op ∈ ops -> op <> OutCancel /\ op <> OutDispose /\ forall c, op <> OutWrite (waiter_id x) c) ->
  x ∈ drainWaiters (ob (out_run lim o ops).1) /\
  forall e, EWrite (waiter_id x) e ∉ (out_run lim o ops).2.
Proof.
  intros Hx Hf Hn. assert (Hst : stuck x o) by by split. clear Hx Hf Hn. revert o Hst.
  induction ops as [|op ops IH]; intros o Hst Hops; cbn [out_run].
  - split; [apply Hst | intros e; apply not_elem_of_nil].
  - destruct (Hops op ltac:(left)) as (Hc & Hd & Hw).
    destruct (stuck_step lim x o op Hst Hc Hd Hw) as [Hst' He].
    destruct (out_step lim o op) as [o1 es1]. cbn [fst snd] in *.
    destruct (IH o1 Hst') as [IH1 IH2]; [intros; apply Hops; by right|].
    destruct (out_run lim o1 ops) as [o2 es2]. cbn [fst snd] in *. split; [done|].
    intros e [H|H]%elem_of_app; [apply He; by exists e | by apply (IH2 e)].
Qed.

(** The two counters of a producer do not do what they are for.
    The credit is not used up: after one grant of [g] bytes the producer sends
    every chunk of at most [g] bytes, as long as the chunks together fit the buffer
    limit.  And the count of queued bytes only grows: once it is above half of the
    buffer limit no credit, no further write and no end of the stream wakes a
    waiting writer; only a cancellation does, or the end of the session. *)
Theorem stream_hazards (lim : StreamLimitsConfig) :
  (forall g chunks,
    (forall c, c ∈ chunks -> 0 < byteLength c <= Z.min g (maxInFlightBytes lim)) ->
    total chunks <= maxBufferedBytesPerStream lim -> 0 < g ->
    posted (out_run lim (open_out lim) (OutCredit g :: map (OutWrite 0) chunks)).2 = chunks /\
    credit (ob (out_run lim (open_out lim) (OutCredit g :: map (OutWrite 0) chunks)).1) = g) /\
  (forall o x ops,
    x ∈ drainWaiters (ob o) -> maxBufferedBytes (ob o) < 2 * queuedBytes (ob o) ->
    (forall y, y ∈ woken o -> waiter_id y <> waiter_id x) ->
    (forall op, op ∈ ops -> op <> OutCancel /\ op <> OutDispose /\ forall c, op <> OutWrite (waiter_id x) c) ->
    x ∈ drainWaiters (ob (out_run lim o ops).1) /\
    forall e, EWrite (waiter_id x) e ∉ (out_run lim o ops).2).
Proof. split; [intros; by apply credit_not_spent | intros; by apply blocked_writer]. Qed.

(** ** The consumer: what it accepts and delivers *)

Definition accepted (i : InState) (op : InOp) : list Bytes :=
  match op with
  | InChunk n chunk =>
      let s := ib (rd i) in
      if ilisted i && negb (iended s) && bool_decide (ierror s = None) && (n =? nextSeq s)%nat &&
         (totalReceived s + byteLength chunk <=? imaxTotalBytes s)
      then [chunk] else []
  | _ => []
  end.

Fixpoint accepted_run (lim : StreamLimitsConfig) (i : InState) (ops : list InOp) : list Bytes :=
  match ops with
  | [] => []
  | op :: r => accepted i op ++ accepted_run lim (in_step lim i op).1 r
  end.

Definition pulled (e : InEffect) : option Bytes :=
  match e with EPull _ (Ok (Some b)) => Some b | _ => None end.
Definition delivered (es : list InEffect) : list Bytes := omap pulled es.
Definition granted (es : list InEffect) : Z :=
  zsum (map (fun e => match e with ECredit n => n | _ => 0 end) es).
Definition resolved (r : list (nat * option Bytes)) : list Bytes := omap snd r.

(** Promise continuations run before the next message or call: every operation
    but [InResume] finds no resolved pull that has not continued. *)
Definition drained (i : InState) (op : InOp) : Prop :=
  match op with InResume => True | _ => ready (rd i) = [] end.

Fixpoint drained_run (lim : StreamLimitsConfig) (i : InState) (ops : list InOp) : Prop :=
  match ops with
  | [] => True
  | op :: r => drained i op /\ drained_run lim (in_step lim i op).1 r
  end.

(** [acc] were accepted, [del] delivered, [g] bytes granted after the opening. *)
Record in_ok (lim : StreamLimitsConfig) (acc del : list Bytes) (g : Z) (i : InState) : Prop := {
  in_order : del ++ resolved (ready (rd i)) ++ buffered (ib (rd i)) = acc;
  in_wait : pullWaiters (ib (rd i)) <> [] -> buffered (ib (rd i)) = [];
  in_err : ierror (ib (rd i)) <> None -> resolved (ready (rd i)) = [] /\ pullWaiters (ib (rd i)) = [];
  in_max : imaxTotalBytes (ib (rd i)) = maxTotalBytes lim;
  in_total : total acc <= totalReceived (ib (rd i));
  in_bound : total acc <= maxTotalBytes lim;
  in_exact : ierror (ib (rd i)) = None -> total acc = totalReceived (ib (rd i));
  in_bytes : bufferedBytes (ib (rd i)) = total (buffered (ib (rd i)));
  in_window : 0 <= grantedNotReceived (ib (rd i)) <= maxInFlightBytes lim;
  in_credit : g <= totalReceived (ib (rd i)) - (maxInFlightBytes lim - grantedNotReceived (ib (rd i)))
}.

Lemma in_ok_open lim :
  0 <= maxInFlightBytes lim -> 0 <= maxTotalBytes lim -> in_ok lim [] [] 0 (InSt (open_in lim) true).
Proof. intros H1 H2. split; simpl; try done; unfold total, zsum; simpl; lia. Qed.

Lemma resolved_nulls r (l : list nat) :
  resolved (r ++ map (fun p => (p, None)) l) = resolved r.
Proof.
  unfold resolved. rewrite omap_app.
  assert (omap snd (map (fun p : nat => (p, None : option Bytes)) l) = []) as ->; [|apply app_nil_r].
  by induction l.
Qed.

Lemma in_ok_fail lim acc del g r b code :
  in_ok lim acc del g (InSt r b) -> ready r = [] -> in_ok lim acc del g (InSt (failInbound r code) false).
Proof.
  intros [H1 H2 H3 H4 H5 H6 H7 H8 H9 H10] Hr. split; simpl in *; try done.
  - by rewrite resolved_nulls.
  - intros _. split; [|done]. rewrite resolved_nulls. by rewrite Hr.
Qed.

Lemma in_ok_replenish lim acc del g b i :
  in_ok lim acc del g i ->
  in_ok lim acc del (g + granted (replenish_if lim b i).2) (replenish_if lim b i).1 /\
  delivered (replenish_if lim b i).2 = [].
Proof.
  intros H. assert (Hid : in_ok lim acc del (g + 0) i) by (by rewrite Z.add_0_r).
  unfold replenish_if. destruct (b && ilisted i); [|done]. unfold replenishCredit.
  destruct (Z.leb_spec (maxInFlightBytes lim - grantedNotReceived (ib (rd i))) 0) as [Hle|Hlt];
    [destruct i; done|].
  destruct H as [H1 H2 H3 H4 H5 H6 H7 H8 H9 H10].
  split; [|done]. split; simpl; try done; [lia|]. unfold granted, zsum. simpl. lia.
Qed.

Lemma in_ok_chunk lim acc del g i n c :
  in_ok lim acc del g i -> ready (rd i) = [] ->
  in_ok lim (acc ++ accepted i (InChunk n c)) del g (in_step lim i (InChunk n c)).1.
Proof.
  intros H Hr. pose proof H as [H1 H2 H3 H4 H5 H6 H7 H8 H9 H10].
  pose proof (byteLength_nonneg c) as Hc. simpl. destruct i as [r l]. simpl in *.
  destruct l; simpl; [|by rewrite app_nil_r]. unfold on_chunk.
  destruct (iended (ib r)) eqn:Ee; simpl; [by rewrite app_nil_r|].
  destruct (ierror (ib r)) as [e|] eqn:Er; simpl.
  { by rewrite app_nil_r. }
  destruct (n =? nextSeq (ib r))%nat; simpl; [|by rewrite app_nil_r].
  rewrite H4. destruct (Z.ltb_spec (maxTotalBytes lim) (totalReceived (ib r) + byteLength c)) as [Hgt|Hle].
  - rewrite (proj2 (Z.leb_gt _ _) Hgt), app_nil_r.
    specialize (H7 eq_refl). split; simpl; rewrite ?resolved_nulls, ?H4; try done; try lia.
    intros _. by rewrite Hr.
  - rewrite (proj2 (Z.leb_le _ _) Hle). specialize (H7 eq_refl).
    assert (Ht : total (acc ++ [c]) = totalReceived (ib r) + byteLength c)
      by (rewrite total_app, total_cons; change (total []) with 0; lia).
    destruct (pullWaiters (ib r)) as [|p ps] eqn:Ep; simpl; split; simpl; rewrite ?H4, ?Ht; try done; try lia.
    + rewrite Hr in *. simpl in *. by rewrite <- H1, app_assoc.
    + rewrite total_app, total_cons. change (total []) with 0. lia.
    + rewrite Hr in *. simpl in *. rewrite <- H1, H2 by done. by rewrite !app_nil_r.
    + intros _. by apply H2.
Qed.

Lemma in_ok_pull lim acc del g r l p :
  in_ok lim acc del g (InSt r l) -> ready r = [] ->
  let '(r', res, _) := pull r p in
  in_ok lim acc (del ++ delivered (match res with Some x => [EPull p x] | None => [] end)) g (InSt r' l).
Proof.
  intros H Hr. pose proof H as [H1 H2 H3 H4 H5 H6 H7 H8 H9 H10]. unfold pull. simpl in *.
  destruct (buffered (ib r)) as [|c rest] eqn:Eb.
  - destruct (ierror (ib r)) as [e|] eqn:Ee; simpl; [by rewrite app_nil_r|].
    destruct (iended (ib r)) eqn:En; simpl; rewrite app_nil_r; [done|].
    split; simpl; rewrite ?Ee, ?En; try done.
  - simpl. rewrite total_cons in H8. rewrite Hr in *. simpl in *. split; simpl; try done; try lia.
    + by rewrite <- app_assoc.
    + intros Hw. specialize (H2 Hw). done.
Qed.

Lemma in_ok_resume lim acc del g r l :
  in_ok lim acc del g (InSt r l) ->
  let '(r', res, _) := resume_pull r in
  in_ok lim acc (del ++ delivered (match res with Some (p, x) => [EPull p x] | None => [] end)) g
    (InSt r' l).
Proof.
  intros H. pose proof H as [H1 H2 H3 H4 H5 H6 H7 H8 H9 H10]. unfold resume_pull. simpl in *.
  destruct (ready r) as [|[p v] rest] eqn:Er; [simpl; by rewrite app_nil_r|].
  destruct (ierror (ib r)) as [e|] eqn:Ee; simpl.
  - rewrite app_nil_r. destruct (H3 ltac:(done)) as [Hn Hp]. unfold resolved in *. simpl in Hn.
    destruct v; [done|]. split; simpl; rewrite ?Ee; try done; simpl in *; try lia.
  - split; simpl; rewrite ?Ee; try done; try lia. rewrite <- H1. unfold resolved. simpl.
    destruct v as [b|]; simpl; [by rewrite <- app_assoc | by rewrite app_nil_r].
Qed.

Lemma delivered_app a b : delivered (a ++ b) = delivered a ++ delivered b.
Proof. apply omap_app. Qed.

Lemma granted_app a b : granted (a ++ b) = granted a + granted b.
Proof. unfold granted. by rewrite map_app, zsum_app. Qed.

Lemma granted_pull p (res : option (outcome string (option Bytes))) :
  granted (match res with Some x => [EPull p x] | None => [] end) = 0.
Proof. by destruct res. Qed.

Lemma in_step_ok lim acc del g i op :
  in_ok lim acc del g i -> drained i op ->
  in_ok lim (acc ++ accepted i op) (del ++ delivered (in_step lim i op).2)
    (g + granted (in_step lim i op).2) (in_step lim i op).1.
Proof.
  intros H Hd. destruct op as [n c| |code|p|]; simpl in Hd.
  - pose proof (in_ok_chunk lim acc del g i n c H Hd) as Hk. simpl in Hk |- *. revert Hk.
    destruct (ilisted i) eqn:El; [|by rewrite !app_nil_r, Z.add_0_r].
    destruct (on_chunk (rd i) n c) as [r l]. simpl. by rewrite app_nil_r, Z.add_0_r.
  - simpl. rewrite app_nil_r. destruct i as [r []]; simpl; rewrite app_nil_r, Z.add_0_r; [|done].
    destruct H as [H1 H2 H3 H4 H5 H6 H7 H8 H9 H10]. split; simpl in *; try done.
    + by rewrite resolved_nulls.
    + rewrite resolved_nulls. intros He. split; [|done]. by apply H3.
  - simpl. rewrite app_nil_r. destruct i as [r []]; simpl; rewrite app_nil_r, Z.add_0_r; [|done].
    by eapply in_ok_fail.
  - simpl. rewrite app_nil_r. destruct i as [r l]. pose proof (in_ok_pull lim acc del g r l p H Hd) as Hp.
    simpl in *. destruct (pull r p) as [[r' res] again].
    destruct (in_ok_replenish lim _ _ _ again _ Hp) as [Hk Hn].
    destruct (replenish_if lim again _) as [i' es]. simpl in *.
    by rewrite delivered_app, granted_app, Hn, granted_pull, Z.add_0_r.
  - simpl. rewrite app_nil_r. destruct i as [r l]. pose proof (in_ok_resume lim acc del g r l H) as Hp.
    simpl in *. destruct (resume_pull r) as [[r' res] again].
    destruct (in_ok_replenish lim _ _ _ again _ Hp) as [Hk Hn].
    destruct (replenish_if lim again _) as [i' es]. simpl in *.
    rewrite delivered_app, granted_app, Hn. by destruct res as [[p x]|]; simpl; rewrite Z.add_0_r.
Qed.

Lemma in_run_ok lim acc del g i ops :
  in_ok lim acc del g i -> drained_run lim i ops ->
  in_ok lim (acc ++ accepted_run lim i ops) (del ++ delivered (in_run lim i ops).2)
    (g + granted (in_run lim i ops).2) (in_run lim i ops).1.
Proof.
  revert acc del g i. induction ops as [|op ops IH]; intros acc del g i H Hd; cbn [in_run accepted_run].
  - simpl. by rewrite !app_nil_r, Z.add_0_r.
  - destruct Hd as [Hd1 Hd2]. pose proof (in_step_ok lim acc del g i op H Hd1) as H1.
    destruct (in_step lim i op) as [i1 e1]. cbn [fst snd] in *.
    specialize (IH _ _ _ _ H1 Hd2). destruct (in_run lim i1 ops) as [i2 e2]. cbn [fst snd] in *.
    by rewrite delivered_app, granted_app, Z.add_assoc, !app_assoc.
Qed.

(** ** Properties of the consumer *)

(** The reader hands out the accepted chunks in their order, each
    once: what was not delivered yet is in a resolved pull or in the buffer.  The
    accepted bytes never exceed the total limit, and the bytes granted to the
    producer never exceed the bytes received by more than one in-flight window. *)
Theorem consumer_fifo (lim : StreamLimitsConfig) (ops : list InOp) :
  0 <= maxInFlightBytes lim -> 0 <= maxTotalBytes lim ->
  drained_run lim (InSt (open_in lim) true) ops ->
  let i := (in_run lim (InSt (open_in lim) true) ops).1 in
  let es := (in_run lim (InSt (open_in lim) true) ops).2 in
  let acc := accepted_run lim (InSt (open_in lim) true) ops in
  delivered es ++ resolved (ready (rd i)) ++ buffered (ib (rd i)) = acc /\
  total acc <= maxTotalBytes lim /\
  maxInFlightBytes lim + granted es <= maxInFlightBytes lim + totalReceived (ib (rd i)) /\
  0 <= grantedNotReceived (ib (rd i)) <= maxInFlightBytes lim.
Proof.
  intros H1 H2 Hd i es acc.
  pose proof (in_run_ok lim [] [] 0 _ ops (in_ok_open lim H1 H2) Hd) as [Ho _ _ _ _ Hb _ _ Hw Hc].
  fold i es in Ho, Hb, Hw, Hc. split_and!; [exact Ho | exact Hb | lia | lia | lia].
Qed.

(** The chunk messages of a list of consumer operations. *)
Definition chunk_of (op : InOp) : option (nat * Bytes) :=
  match op with InChunk n c => Some (n, c) | _ => None end.
Definition frame_of (e : OutEffect) : option (nat * Bytes) :=
  match e with EFrame (FChunk n b) => Some (n, b) | _ => None end.

Definition no_stop (op : InOp) : Prop :=
  match op with InEnd | InError _ => False | _ => True end.

(** A listed reader that has neither ended nor failed. *)
Definition receiving (lim : StreamLimitsConfig) (n : nat) (t : Z) (i : InState) : Prop :=
  ilisted i = true /\ iended (ib (rd i)) = false /\ ierror (ib (rd i)) = None /\
  nextSeq (ib (rd i)) = n /\ totalReceived (ib (rd i)) = t /\ imaxTotalBytes (ib (rd i)) = maxTotalBytes lim.

Lemma receiving_replenish lim n t b i :
  receiving lim n t i -> receiving lim n t (replenish_if lim b i).1.
Proof.
  intros H. unfold replenish_if. case_match; [|done]. unfold replenishCredit. by destruct (_ <=? 0), i.
Qed.

Lemma receiving_step lim n t i op :
  receiving lim n t i -> no_stop op ->
  match chunk_of op with
  | None => accepted i op = [] /\ receiving lim n t (in_step lim i op).1
  | Some (m, c) => m = n -> t + byteLength c <= maxTotalBytes lim ->
      accepted i op = [c] /\ receiving lim (S n) (t + byteLength c) (in_step lim i op).1
  end.
Proof.
  intros H Hs. pose proof H as (Hl & He & Hr & Hn & Ht & Hm). destruct op as [m c| |code|p|]; simpl in *; try done.
  - intros -> Hle. rewrite Hl, He, Hr, Hn, Ht, Hm. simpl. rewrite Nat.eqb_refl. simpl.
    rewrite (proj2 (Z.leb_le _ _) Hle). split; [done|]. unfold on_chunk.
    rewrite He, Hr. simpl. rewrite Hn, Nat.eqb_refl. simpl. rewrite Ht, Hm, (proj2 (Z.ltb_ge _ _) Hle).
    destruct (pullWaiters (ib (rd i))); simpl; split_and!; simpl; congruence.
  - split; [done|]. destruct (pull (rd i) p) as [[r res] again] eqn:Ep.
    assert (Hrec : receiving lim n t (InSt r (ilisted i))).
    { revert Ep. unfold pull. rewrite Hr, He. destruct (buffered (ib (rd i))); intros [= <- _ _]; by split_and!. }
    apply (receiving_replenish lim n t again) in Hrec.
    by destruct (replenish_if lim again _) as [i' es].
  - split; [done|]. destruct (resume_pull (rd i)) as [[r res] again] eqn:Ep.
    assert (Hrec : receiving lim n t (InSt r (ilisted i))).
    { revert Ep. unfold resume_pull. destruct (ready (rd i)) as [|[p v] rest]; rewrite ?Hr;
        intros [= <- _ _]; by split_and!. }
    apply (receiving_replenish lim n t again) in Hrec.
    by destruct (replenish_if lim again _) as [i' es].
Qed.

Lemma receiving_run lim n t i ops data :
  receiving lim n t i -> Forall no_stop ops ->
  omap chunk_of ops = zip (List.seq n (length data)) data ->
  t + total data <= maxTotalBytes lim ->
  accepted_run lim i ops = data.
Proof.
  revert n t i data. induction ops as [|op ops IH]; intros n t i data Hr Hns Hz Ht.
  - by destruct data.
  - inversion Hns as [|? ? Hn1 Hn2]; subst. cbn [accepted_run]. pose proof (receiving_step lim n t i op Hr Hn1) as Hs.
    simpl in Hz. destruct (chunk_of op) as [[m c]|].
    + destruct data as [|b data]; [done|]. simpl in Hz. injection Hz as -> -> Hz.
      rewrite total_cons in Ht. pose proof (total_nonneg data).
      destruct (Hs eq_refl) as [-> Hs2]; [lia|]. simpl. f_equal.
      apply (IH (S n) (t + byteLength b)); [done|done|done|lia].
    + destruct Hs as [-> Hs2]. simpl. by apply (IH n t).
Qed.

Lemma frames_zip es n :
  posted_seqs es = List.seq n (length (posted es)) ->
  omap frame_of es = zip (List.seq n (length (posted es))) (posted es).
Proof.
  intros <-. unfold posted_seqs, posted. induction es as [|e es IH]; [done|].
  destruct e as [[m b| |code]|w er]; simpl; [by f_equal|done..].
Qed.


(** ** Witnesses *)

Definition bytes (n : nat) : Bytes := repeat "x"%char n.

(** Fifty bytes leave on a grant of ten.  Two writes of six bytes with a buffer
    limit of ten and plenty of credit: the first is on the wire, the second writer
    waits for ever. *)
Lemma stream_hazards_witness :
  (let lim := Limits 10 100 1000 in
   let run := out_run lim (open_out lim) (OutCredit 10 :: map (OutWrite 0) (repeat (bytes 10) 5)) in
   total (posted run.2) = 50 /\ credit (ob run.1) = 10) /\
  (let lim := Limits 10 10 100 in
   let o := (out_run lim (open_out lim) [OutCredit 100; OutWrite 1 (bytes 6); OutWrite 2 (bytes 6)]).1 in
   queue (ob o) = [] /\
   BeforeEnqueue 2 (bytes 6) ∈ drainWaiters (ob (out_run lim o [OutCredit 100; OutResume; OutEnd]).1)).
Proof.
  cbv zeta. split.
  - destruct (proj1 (stream_hazards (Limits 10 100 1000)) 10 (repeat (bytes 10) 5)) as [-> ->].
    + intros c Hc%elem_of_In%repeat_spec. subst c. vm_compute. split; done.
    + vm_compute. done.
    + reflexivity.
    + split; reflexivity.
  - split; [vm_compute; reflexivity|].
    apply (proj2 (stream_hazards (Limits 10 10 100)) _ (BeforeEnqueue 2 (bytes 6))).
    + apply elem_of_In. vm_compute. by left.
    + vm_compute. reflexivity.
    + intros y Hy%elem_of_In. vm_compute in Hy. destruct Hy.
    + intros op Hop%elem_of_In. simpl in Hop.
      destruct Hop as [<-|[<-|[<-|[]]]]; split_and!; done.
Defined.

Lemma consumer_fifo_witness :
  let lim := Limits 10 10 100 in
  let ops := [InChunk 0 (bytes 4); InChunk 2 (bytes 9); InChunk 1 (bytes 3); InPull 7] in
  accepted_run lim (InSt (open_in lim) true) ops = [bytes 4; bytes 3] /\
  delivered (in_run lim (InSt (open_in lim) true) ops).2 = [bytes 4] /\
  total (accepted_run lim (InSt (open_in lim) true) ops) <= 100.
Proof.
  cbv zeta. split; [vm_compute; reflexivity|]. split; [vm_compute; reflexivity|].
  apply (consumer_fifo (Limits 10 10 100)
    [InChunk 0 (bytes 4); InChunk 2 (bytes 9); InChunk 1 (bytes 3); InPull 7]); [done|done|].
  vm_compute. tauto.
Defined.


End KernelStream.
