(* ===== verification/KernelSession.v ===== *)
(** * The RPC session of the plugin kernel
    (packages/plugin-sdk/src/kernel/session.ts)

    A session is symmetric: it issues calls and serves requests over one port,
    and carries the streams of [KernelStream].  [step] is one turn of its event
    loop: an API call, a message of the peer, a timer, or the settlement of a
    handler's promise.  [Action]s are what the turn makes visible. *)

From Stdlib Require Import ZArith Lia Bool Ascii String List.
From stdpp Require Import base decidable strings list pretty.
From S2P Require Import Prelude KernelStream.
Import KernelStream.
Local Open Scope Z_scope.

Module KernelSession.

(** ** Wire *)

Record PluginErrorWire := KErr { kcode : string; kretryable : bool }.

(** The codes for which an error says it can be retried. *)
Definition RETRYABLE : list string :=
  ["PLUGIN_QUOTA_EXCEEDED"; "RESOURCE_PRESSURE"; "OPERATION_DEADLINE"; "BACKEND_UNAVAILABLE";
   "STREAM_FAILED"; "WORKER_SPAWN_FAILED"; "SERVICE_UNAVAILABLE"; "SERVICE_TIMEOUT"; "INTERNAL"]%string.

Definition kernel_error (code : string) : PluginErrorWire := KErr code (bool_decide (code ∈ RETRYABLE)).

Definition OPERATION_ABORTED : PluginErrorWire := kernel_error "OPERATION_ABORTED".
Definition OPERATION_DEADLINE : PluginErrorWire := kernel_error "OPERATION_DEADLINE".

Inductive Envelope :=
| RpcRequest (id instanceId method params : string) (deadline : option Z) (idempotencyKey : option string)
| RpcResponse (id : string) (result : outcome PluginErrorWire string)
| RpcCancel (id : string)
| EvtEmit (event payload eventId : string) (cursor : option string)
| StreamOpen (streamId meta : string)
| StreamCredit (streamId : string) (bytes : Z)
| StreamChunk (streamId : string) (n : nat) (data : Bytes)
| StreamEnd (streamId : string)
| StreamError (streamId : string) (error : PluginErrorWire)
| StreamCancel (streamId : string)
| CapabilityRevoked (name : string) (revision : Z)
| Lifecycle (state : string).

(** ** State *)

Record PendingRequest := Pending { p_method : string; p_timer : bool }.

(** A running handler: the request's id, its abort signal, its deadline timer. *)
Record RemoteCall := Call { c_id : string; c_aborted : bool; c_timer : bool }.

Inductive ListenerKind := StreamOpenListener | RevocationListener | EventListener | PeerCloseListener.
#[global] Instance listener_kind_eq : EqDecision ListenerKind.
Proof. solve_decision. Defined.

Record Rpc := MkRpc {
  handlers : list (string * nat);
  pending : list (string * PendingRequest);
  remote : list (string * nat);
  calls : list (nat * RemoteCall);
  next_call : nat
}.

Record Streams := MkStreams {
  inbound : list (string * nat);
  readers : list (nat * Reader);
  next_reader : nat;
  outbound : list (string * OutState)
}.

Record Kernel := MkKernel {
  krole : string;
  kinstance : string;
  limits : StreamLimitsConfig;
  sequence : nat;
  disposed : bool;
  rpc : Rpc;
  streams : Streams;
  listeners : list (ListenerKind * nat)
}.

Definition new_session (role instance : string) (lim : StreamLimitsConfig) : Kernel :=
  MkKernel role instance lim 0 false (MkRpc [] [] [] [] 0) (MkStreams [] [] 0 []) [].

Definition with_rpc (k : Kernel) (r : Rpc) : Kernel :=
  MkKernel (krole k) (kinstance k) (limits k) (sequence k) (disposed k) r (streams k) (listeners k).
Definition with_streams (k : Kernel) (s : Streams) : Kernel :=
  MkKernel (krole k) (kinstance k) (limits k) (sequence k) (disposed k) (rpc k) s (listeners k).
Definition with_listeners (k : Kernel) (l : list (ListenerKind * nat)) : Kernel :=
  MkKernel (krole k) (kinstance k) (limits k) (sequence k) (disposed k) (rpc k) (streams k) l.
Definition bump (k : Kernel) : Kernel :=
  MkKernel (krole k) (kinstance k) (limits k) (S (sequence k)) (disposed k) (rpc k) (streams k) (listeners k).

Definition set_pending (k : Kernel) (p : list (string * PendingRequest)) : Kernel :=
  let r := rpc k in with_rpc k (MkRpc (handlers r) p (remote r) (calls r) (next_call r)).
Definition set_outbound (k : Kernel) (sid : string) (o : OutState) : Kernel :=
  let s := streams k in
  with_streams k (MkStreams (inbound s) (readers s) (next_reader s) (map_set sid o (outbound s))).
Definition set_reader (k : Kernel) (ref : nat) (r : Reader) : Kernel :=
  let s := streams k in
  with_streams k (MkStreams (inbound s) (map_set ref r (readers s)) (next_reader s) (outbound s)).
Definition unlist_inbound (k : Kernel) (sid : string) : Kernel :=
  let s := streams k in
  with_streams k (MkStreams (map_del sid (inbound s)) (readers s) (next_reader s) (outbound s)).

(** What a turn makes visible. *)
Inductive Action :=
| Post (e : Envelope)
| Called (id : string)
| CallRejected
| Settle (id : string) (result : outcome PluginErrorWire string)
| Invoke (ref : nat) (handler : nat) (id params : string)
| AbortCall (ref : nat)
| StreamOpened (sid : string)
| WriteSettled (sid : string) (w : nat) (error : option string)
| PullSettled (ref p : nat) (result : outcome string (option Bytes))
| Notify (kind : ListenerKind) (listener : nat) (what : string)
| HandlerRejected
| ScopeDisposed
| PortClosed.

Definition send (k : Kernel) (e : Envelope) : list Action := if disposed k then [] else [Post e].

Definition nextId (k : Kernel) (prefix : string) : string :=
  krole k +:+ ":" +:+ prefix +:+ ":" +:+ pretty (S (sequence k)).

Definition notify (k : Kernel) (kind : ListenerKind) (what : string) : list Action :=
  map (fun kl => Notify kind kl.2 what) (List.filter (fun kl => bool_decide (kl.1 = kind)) (listeners k)).

(** ** Calls *)

Definition cancelRequest (k : Kernel) (id : string) : Kernel * list Action :=
  match map_get id (pending (rpc k)) with
  | None => (k, [])
  | Some _ =>
      (set_pending k (map_del id (pending (rpc k))),
       send k (RpcCancel id) ++ [Settle id (Throw OPERATION_ABORTED)])
  end.

(** [signal] is the caller's signal, if any, and whether it is aborted. *)
Definition call (k : Kernel) (now : Z) (method params : string) (signal : option bool)
    (deadlineMs : option Z) (idempotencyKey : option string) : Kernel * list Action :=
  if disposed k then (k, [CallRejected])
  else
    let id := nextId k "req" in
    let deadline := match deadlineMs with Some d => Some (now + Z.max 1 d) | None => None end in
    let has_timer := match deadlineMs with Some _ => true | None => false end in
    let k1 := set_pending (bump k) (map_set id (Pending method has_timer) (pending (rpc k))) in
    let es := Called id :: send k1 (RpcRequest id (kinstance k) method params deadline idempotencyKey) in
    match signal with
    | Some true => let '(k2, es2) := cancelRequest k1 id in (k2, es ++ es2)
    | _ => (k1, es)
    end.

(** The deadline timer of a call; it is cleared when the call settles. *)
Definition call_timer (k : Kernel) (id : string) : Kernel * list Action :=
  match map_get id (pending (rpc k)) with
  | Some p =>
      if p_timer p
      then (set_pending k (map_del id (pending (rpc k))), [Settle id (Throw OPERATION_DEADLINE)])
      else (k, [])
  | None => (k, [])
  end.

Definition on_response (k : Kernel) (id : string) (r : outcome PluginErrorWire string)
    : Kernel * list Action :=
  match map_get id (pending (rpc k)) with
  | None => (k, [])
  | Some _ => (set_pending k (map_del id (pending (rpc k))), [Settle id r])
  end.

(** ** Requests of the peer *)

Definition handle (k : Kernel) (method : string) (h : nat) : Kernel * list Action :=
  let r := rpc k in
  if map_has method (handlers r) then (k, [HandlerRejected])
  else (with_rpc k (MkRpc (map_set method h (handlers r)) (pending r) (remote r) (calls r) (next_call r)), []).

Definition unhandle (k : Kernel) (method : string) : Kernel :=
  let r := rpc k in
  with_rpc k (MkRpc (map_del method (handlers r)) (pending r) (remote r) (calls r) (next_call r)).

Definition serveRequest (k : Kernel) (now : Z) (id method params : string) (deadline : option Z)
    : Kernel * list Action :=
  let r := rpc k in
  match map_get method (handlers r) with
  | None => (k, send k (RpcResponse id (Throw (KErr "PROTOCOL_UNSUPPORTED" false))))
  | Some h =>
      if match deadline with Some d => d - now <=? 0 | None => false end
      then (k, send k (RpcResponse id (Throw (KErr "OPERATION_DEADLINE" true))))
      else
        let ref := next_call r in
        let has_timer := match deadline with Some _ => true | None => false end in
        (with_rpc k (MkRpc (handlers r) (pending r) (map_set id ref (remote r))
           (map_set ref (Call id false has_timer) (calls r)) (S ref)),
         [Invoke ref h id params])
  end.

Definition abort_call (cs : list (nat * RemoteCall)) (ref : nat) : list (nat * RemoteCall) :=
  match map_get ref cs with
  | Some c => map_set ref (Call (c_id c) true (c_timer c)) cs
  | None => cs
  end.

Definition on_cancel_request (k : Kernel) (id : string) : Kernel * list Action :=
  let r := rpc k in
  match map_get id (remote r) with
  | None => (k, [])
  | Some ref =>
      (with_rpc k (MkRpc (handlers r) (pending r) (map_del id (remote r)) (abort_call (calls r) ref)
         (next_call r)), [AbortCall ref])
  end.

(** The deadline timer of a served request. *)
Definition serve_timer (k : Kernel) (ref : nat) : Kernel * list Action :=
  let r := rpc k in
  match map_get ref (calls r) with
  | Some c =>
      if c_timer c
      then (with_rpc k (MkRpc (handlers r) (pending r) (remote r)
              (map_set ref (Call (c_id c) true false) (calls r)) (next_call r)), [AbortCall ref])
      else (k, [])
  | None => (k, [])
  end.

(** The settlement of a handler's promise: the rest of [serveRequest]. *)
Definition handler_done (k : Kernel) (ref : nat) (result : outcome PluginErrorWire string)
    : Kernel * list Action :=
  let r := rpc k in
  match map_get ref (calls r) with
  | None => (k, [])
  | Some c =>
      let answer :=
        match result with
        | Ok v => if c_aborted c then Throw (KErr "OPERATION_ABORTED" false) else Ok v
        | Throw e => Throw e
        end in
      (with_rpc k (MkRpc (handlers r) (pending r) (map_del (c_id c) (remote r)) (map_del ref (calls r))
         (next_call r)), send k (RpcResponse (c_id c) answer))
  end.

(** ** Streams *)

Definition out_action (sid : string) (e : OutEffect) : Action :=
  match e with
  | EFrame (FChunk n b) => Post (StreamChunk sid n b)
  | EFrame FEnd => Post (StreamEnd sid)
  | EFrame (FError code) => Post (StreamError sid (kernel_error code))
  | EWrite w err => WriteSettled sid w err
  end.

(** Nothing leaves a closed port. *)
Definition visible (k : Kernel) (a : Action) : bool :=
  match a with Post _ => negb (disposed k) | _ => true end.

Definition on_stream (k : Kernel) (sid : string) (op : OutOp) : Kernel * list Action :=
  match map_get sid (outbound (streams k)) with
  | None => (k, [])
  | Some o =>
      let '(o', es) := out_step (limits k) o op in
      (set_outbound k sid o', List.filter (visible k) (map (out_action sid) es))
  end.

Definition openOutboundStream (k : Kernel) (meta : string) : Kernel * list Action :=
  if disposed k then (k, [CallRejected])
  else
    let sid := nextId k "str" in
    let k1 := set_outbound (bump k) sid (open_out (limits k)) in
    (k1, StreamOpened sid :: send k1 (StreamOpen sid meta)).

Definition on_open (k : Kernel) (sid : string) : Kernel * list Action :=
  let s := streams k in
  let ref := next_reader s in
  let k1 := with_streams k (MkStreams (map_set sid ref (inbound s))
              (map_set ref (open_in (limits k)) (readers s)) (S ref) (outbound s)) in
  (k1, send k1 (StreamCredit sid (maxInFlightBytes (limits k))) ++ notify k1 StreamOpenListener sid).

(** [replenishCredit(streamId)]: the reader the session lists now. *)
Definition replenish (k : Kernel) (sid : string) : Kernel * list Action :=
  match map_get sid (inbound (streams k)) with
  | None => (k, [])
  | Some ref =>
      match map_get ref (readers (streams k)) with
      | None => (k, [])
      | Some r =>
          let '(r', es) := replenishCredit (limits k) r in
          (set_reader k ref r',
           flat_map (fun e => match e with ECredit n => send k (StreamCredit sid n) | _ => [] end) es)
      end
  end.

(** [pull] on the reader [ref] of the stream [sid]. *)
Definition pull_reader (k : Kernel) (sid : string) (ref p : nat) : Kernel * list Action :=
  match map_get ref (readers (streams k)) with
  | None => (k, [])
  | Some r =>
      let '(r', res, again) := pull r p in
      let k1 := set_reader k ref r' in
      let '(k2, es) := if again then replenish k1 sid else (k1, []) in
      (k2, es ++ match res with Some x => [PullSettled ref p x] | None => [] end)
  end.

Definition resume_reader (k : Kernel) (sid : string) (ref : nat) : Kernel * list Action :=
  match map_get ref (readers (streams k)) with
  | None => (k, [])
  | Some r =>
      let '(r', res, again) := resume_pull r in
      let k1 := set_reader k ref r' in
      let '(k2, es) := if again then replenish k1 sid else (k1, []) in
      (k2, es ++ match res with Some (p, x) => [PullSettled ref p x] | None => [] end)
  end.

Definition on_inbound (k : Kernel) (sid : string) (f : Reader -> Reader * bool) : Kernel * list Action :=
  match map_get sid (inbound (streams k)) with
  | None => (k, [])
  | Some ref =>
      match map_get ref (readers (streams k)) with
      | None => (k, [])
      | Some r =>
          let '(r', stays) := f r in
          let k1 := set_reader k ref r' in
          (if stays then k1 else unlist_inbound k1 sid, [])
      end
  end.

(** ** Messages and disposal *)

Definition onMessage (k : Kernel) (now : Z) (e : Envelope) : Kernel * list Action :=
  if disposed k then (k, [])
  else
    match e with
    | RpcRequest id _ method params deadline _ => serveRequest k now id method params deadline
    | RpcResponse id r => on_response k id r
    | RpcCancel id => on_cancel_request k id
    | StreamOpen sid _ => on_open k sid
    | StreamCredit sid n => on_stream k sid (OutCredit n)
    | StreamChunk sid n data => on_inbound k sid (fun r => on_chunk r n data)
    | StreamEnd sid => on_inbound k sid (fun r => (on_end r, false))
    | StreamError sid err => on_inbound k sid (fun r => (failInbound r (kcode err), false))
    | StreamCancel sid => on_stream k sid OutCancel
    | CapabilityRevoked name _ => (k, notify k RevocationListener name)
    | EvtEmit event _ _ _ => (k, notify k EventListener event)
    | Lifecycle _ => (k, [])
    end.

Definition fail_listed (rs : list (nat * Reader)) (entry : string * nat) : list (nat * Reader) :=
  match map_get entry.2 rs with
  | Some r => map_set entry.2 (failInbound r (kcode OPERATION_ABORTED)) rs
  | None => rs
  end.

Definition dispose (k : Kernel) : Kernel * list Action :=
  if disposed k then (k, [])
  else
    let r := rpc k in
    let s := streams k in
    (MkKernel (krole k) (kinstance k) (limits k) (sequence k) true
       (MkRpc (handlers r) [] [] (fold_left abort_call (map snd (remote r)) (calls r)) (next_call r))
       (MkStreams [] (fold_left fail_listed (inbound s) (readers s)) (next_reader s)
          (map (fun so => (so.1, drop_out so.2)) (outbound s)))
       (listeners k),
     map (fun ip => Settle ip.1 (Throw OPERATION_ABORTED)) (pending r) ++
     map AbortCall (map snd (remote r)) ++ [ScopeDisposed; PortClosed]).

Inductive Op :=
| OpHandle (method : string) (h : nat)
| OpUnhandle (method : string)
| OpListen (kind : ListenerKind) (l : nat)
| OpUnlisten (kind : ListenerKind) (l : nat)
| OpCall (now : Z) (method params : string) (signal : option bool) (deadlineMs : option Z)
    (idempotencyKey : option string)
| OpAbort (id : string)
| OpCallTimer (id : string)
| OpServeTimer (ref : nat)
| OpHandlerDone (ref : nat) (result : outcome PluginErrorWire string)
| OpEmit (event payload : string) (cursor : option string)
| OpRevoked (name : string) (revision : Z)
| OpOpen (meta : string)
| OpStream (sid : string) (op : OutOp)
| OpPull (sid : string) (ref p : nat)
| OpResumePull (sid : string) (ref : nat)
| OpPeerClosed
| OpMessage (now : Z) (e : Envelope)
| OpDispose.

(** The program's own operations on a writer: the others come from messages. *)
Definition writer_op (op : OutOp) : bool :=
  match op with OutCredit _ | OutCancel | OutDispose => false | _ => true end.

Definition step (k : Kernel) (op : Op) : Kernel * list Action :=
  match op with
  | OpHandle m h => handle k m h
  | OpUnhandle m => (unhandle k m, [])
  | OpListen kind l =>
      (if bool_decide ((kind, l) ∈ listeners k) then k else with_listeners k (listeners k ++ [(kind, l)]), [])
  | OpUnlisten kind l =>
      (with_listeners k (List.filter (fun x => negb (bool_decide (x = (kind, l)))) (listeners k)), [])
  | OpCall now m p sig d key => call k now m p sig d key
  | OpAbort id => cancelRequest k id
  | OpCallTimer id => call_timer k id
  | OpServeTimer ref => serve_timer k ref
  | OpHandlerDone ref r => handler_done k ref r
  | OpEmit ev pl cur => (bump k, send k (EvtEmit ev pl (nextId k "evt") cur))
  | OpRevoked n rev => (k, send k (CapabilityRevoked n rev))
  | OpOpen meta => openOutboundStream k meta
  | OpStream sid op => if writer_op op then on_stream k sid op else (k, [])
  | OpPull sid ref p => pull_reader k sid ref p
  | OpResumePull sid ref => resume_reader k sid ref
  | OpPeerClosed => (k, notify k PeerCloseListener "close")
  | OpMessage now e => onMessage k now e
  | OpDispose => dispose k
  end.

Fixpoint run (k : Kernel) (ops : list Op) : Kernel * list Action :=
  match ops with
  | [] => (k, [])
  | op :: r =>
      let '(k1, es1) := step k op in
      let '(k2, es2) := run k1 r in
      (k2, es1 ++ es2)
  end.

(** ** Lemmas: identifiers *)

Definition id_of (role prefix : string) (n : nat) : string :=
  role +:+ ":" +:+ prefix +:+ ":" +:+ pretty n.

Lemma id_of_inj role prefix n m : id_of role prefix n = id_of role prefix m -> n = m.
Proof.
  unfold id_of. intros H.
  repeat match type of H with (?a +:+ _ = ?a +:+ _) => apply (inj (String.app a)) in H end.
  by apply (inj pretty) in H.
Qed.

(** ** Exactly-once settlement of calls *)

Definition called_id (a : Action) : option string := match a with Called id => Some id | _ => None end.
Definition settled_id (a : Action) : option string := match a with Settle id _ => Some id | _ => None end.
Definition issued (es : list Action) : list string := omap called_id es.
Definition settled (es : list Action) : list string := omap settled_id es.

Lemma issued_app a b : issued (a ++ b) = issued a ++ issued b.
Proof. apply omap_app. Qed.
Lemma settled_app a b : settled (a ++ b) = settled a ++ settled b.
Proof. apply omap_app. Qed.

(** Actions that concern neither. *)
Definition rpc_quiet (a : Action) : Prop := called_id a = None /\ settled_id a = None.

Lemma quiet_nil es : Forall rpc_quiet es -> issued es = [] /\ settled es = [].
Proof.
  induction 1 as [|a es [Hc Hs] _ [IH1 IH2]]; [done|]. unfold issued, settled in *. simpl.
  by rewrite Hc, Hs.
Qed.

Definition response_id (a : Action) : option string :=
  match a with Post (RpcResponse id _) => Some id | _ => None end.

(** Actions that concern neither calls nor requests. *)
Definition side_quiet (a : Action) : Prop := rpc_quiet a /\ response_id a = None.

Lemma side_quiet_rpc es : Forall side_quiet es -> Forall rpc_quiet es.
Proof. intros H. eapply Forall_impl; [exact H|]. by intros a [? _]. Qed.

Lemma quiet_send k e : Forall rpc_quiet (send k e).
Proof. unfold send. case_match; repeat constructor. Qed.

Lemma side_send k e : response_id (Post e) = None -> Forall side_quiet (send k e).
Proof. unfold send. case_match; repeat constructor. done. Qed.

Lemma side_notify k kind w : Forall side_quiet (notify k kind w).
Proof. unfold notify. induction (List.filter _ _); simpl; repeat constructor; done. Qed.

Lemma quiet_out k sid es : Forall side_quiet (List.filter (visible k) (map (out_action sid) es)).
Proof.
  induction es as [|e es IH]; simpl; [constructor|].
  destruct (visible _ _); [|done]. constructor; [|done]. by destruct e as [[]|].
Qed.

(** The parts of the state that calls use. *)
Record rpc_same (k k' : Kernel) : Prop := {
  rs_pending : pending (rpc k') = pending (rpc k);
  rs_role : krole k' = krole k;
  rs_disposed : disposed k' = disposed k;
  rs_seq : (sequence k <= sequence k')%nat
}.

Lemma rpc_same_refl k : rpc_same k k.
Proof. by split. Qed.

Lemma rpc_same_trans k1 k2 k3 : rpc_same k1 k2 -> rpc_same k2 k3 -> rpc_same k1 k3.
Proof. intros [] []. split; congruence || lia. Qed.

(** A turn that leaves them alone. *)
Definition quiet_turn (k : Kernel) (t : Kernel * list Action) : Prop :=
  rpc_same k t.1 /\ Forall rpc_quiet t.2.

Lemma quiet_turn_id k es : Forall rpc_quiet es -> quiet_turn k (k, es).
Proof. intros. split; [apply rpc_same_refl | done]. Qed.

(** A turn of the streams and listeners. *)
Record side_same (k k' : Kernel) : Prop := {
  ss_rpc : rpc k' = rpc k;
  ss_role : krole k' = krole k;
  ss_disposed : disposed k' = disposed k;
  ss_seq : (sequence k <= sequence k')%nat
}.

Lemma side_same_trans k1 k2 k3 : side_same k1 k2 -> side_same k2 k3 -> side_same k1 k3.
Proof. intros [] []. split; congruence || lia. Qed.

Definition side_turn (k : Kernel) (t : Kernel * list Action) : Prop :=
  side_same k t.1 /\ Forall side_quiet t.2.

Lemma side_turn_id k es : Forall side_quiet es -> side_turn k (k, es).
Proof. intros. split; [by split | done]. Qed.

Lemma side_turn_quiet k t : side_turn k t -> quiet_turn k t.
Proof. intros [[H1 H2 H3 H4] H]. split; [split; congruence || done | by apply side_quiet_rpc]. Qed.

Lemma side_on_stream k sid op : side_turn k (on_stream k sid op).
Proof.
  unfold on_stream. case_match; [|by apply side_turn_id; constructor].
  destruct (out_step _ _ _) as [o' es]. split; [by split | apply quiet_out].
Qed.

Lemma side_replenish k sid : side_turn k (replenish k sid).
Proof.
  unfold replenish. do 2 (case_match; [|by apply side_turn_id; constructor]).
  destruct (replenishCredit _ _) as [r' es]. split; [by split|]. simpl.
  induction es as [|[?|] es IH]; simpl; [constructor| |done].
  apply Forall_app. split; [by apply side_send | done].
Qed.

Lemma side_reader k sid ref r again (res : option Action) :
  (forall a, res = Some a -> side_quiet a) ->
  side_turn k (let k1 := set_reader k ref r in
    let '(k2, es) := if again : bool then replenish k1 sid else (k1, []) in
    (k2, es ++ match res with Some a => [a] | None => [] end)).
Proof.
  intros Hres. cbv zeta. pose proof (side_replenish (set_reader k ref r) sid) as [H1 H2].
  assert (Hr : Forall side_quiet (match res with Some a => [a] | None => [] end))
    by (destruct res; repeat constructor; by apply Hres).
  destruct again; [|split; [by split | done]].
  destruct (replenish (set_reader k ref r) sid) as [k2 es]. simpl in *. split.
  - by apply (side_same_trans _ (set_reader k ref r)).
  - by apply Forall_app.
Qed.

Lemma side_pull k sid ref p : side_turn k (pull_reader k sid ref p).
Proof.
  unfold pull_reader. case_match; [|by apply side_turn_id; constructor].
  destruct (pull _ _) as [[r' res] again].
  pose proof (side_reader k sid ref r' again (match res with Some x => Some (PullSettled ref p x) | None => None end)) as HQ.
  cbv zeta in HQ. destruct again; [destruct (replenish _ _)|]; destruct res; apply HQ; intros a; by intros [= <-].
Qed.

Lemma side_resume k sid ref : side_turn k (resume_reader k sid ref).
Proof.
  unfold resume_reader. case_match; [|by apply side_turn_id; constructor].
  destruct (resume_pull _) as [[r' res] again].
  pose proof (side_reader k sid ref r' again
    (match res with Some (p, x) => Some (PullSettled ref p x) | None => None end)) as HQ.
  cbv zeta in HQ. destruct again; [destruct (replenish _ _)|]; destruct res as [[]|]; apply HQ; intros a; by intros [= <-].
Qed.

Lemma side_on_inbound k sid f : side_turn k (on_inbound k sid f).
Proof.
  unfold on_inbound. do 2 (case_match; [|by apply side_turn_id; constructor]).
  destruct (f _) as [r' []]; (split; [by split | apply Forall_nil_2]).
Qed.

Lemma quiet_serve k now id m p d : quiet_turn k (serveRequest k now id m p d).
Proof.
  unfold serveRequest. case_match; [|apply quiet_turn_id, quiet_send].
  case_match; [apply quiet_turn_id, quiet_send|]. split; [by split | repeat constructor].
Qed.

(** The calls issued so far are the pending and the settled ones. *)
Record calls_ok (iss set : list string) (k : Kernel) : Prop := {
  co_keys : map_ok (pending (rpc k));
  co_iss : NoDup iss;
  co_set : NoDup set;
  co_cover : forall id, id ∈ iss <-> id ∈ set \/ id ∈ map_keys (pending (rpc k));
  co_disj : forall id, id ∈ set -> id ∉ map_keys (pending (rpc k));
  co_fresh : forall id, id ∈ iss -> exists n, (n <= sequence k)%nat /\ id = id_of (krole k) "req" n;
  co_disposed : disposed k = true -> pending (rpc k) = []
}.

Lemma calls_ok_quiet iss set k t :
  calls_ok iss set k -> quiet_turn k t -> calls_ok (iss ++ issued t.2) (set ++ settled t.2) t.1.
Proof.
  intros [H1 H2 H3 H4 H5 H6 H7] [[Hp Hr Hd Hs] Hq]. destruct (quiet_nil _ Hq) as [-> ->].
  rewrite !app_nil_r. split; rewrite ?Hp, ?Hr, ?Hd; try done.
  intros id Hid. destruct (H6 id Hid) as (n & ? & ?). exists n. split; [lia | done].
Qed.

(** A pending call settles. *)
Lemma calls_ok_settle iss set k id p r es :
  calls_ok iss set k -> map_get id (pending (rpc k)) = Some p ->
  Forall rpc_quiet es ->
  calls_ok (iss ++ issued (es ++ [Settle id r])) (set ++ settled (es ++ [Settle id r]))
    (set_pending k (map_del id (pending (rpc k)))).
Proof.
  intros [H1 H2 H3 H4 H5 H6 H7] Hp Hq. destruct (quiet_nil _ Hq) as [Hi Hs].
  rewrite issued_app, settled_app, Hi, Hs. simpl. rewrite app_nil_r.
  assert (Hin : id ∈ map_keys (pending (rpc k))).
  { destruct (decide (id ∈ map_keys (pending (rpc k)))) as [|Hn]; [done|]. apply map_get_None in Hn. congruence. }
  assert (Hkeys : forall i, i ∈ map_keys (map_del id (pending (rpc k))) <->
     i ∈ map_keys (pending (rpc k)) /\ i <> id).
  { intros i. destruct (decide (i = id)) as [->|Hne].
    - split; [|tauto]. intros Hi'. exfalso. revert Hi'. apply map_get_None. rewrite map_get_del by done.
      by rewrite decide_True.
    - assert (map_get i (map_del id (pending (rpc k))) = map_get i (pending (rpc k))) as E
        by (rewrite map_get_del by done; by rewrite decide_False).
      destruct (decide (i ∈ map_keys (pending (rpc k)))) as [Hy|Hn].
      + split; [done|]. intros _. destruct (decide (i ∈ map_keys (map_del id (pending (rpc k))))) as [|Hn]; [done|].
        apply map_get_None in Hn. rewrite E in Hn. by apply map_get_None in Hn.
      + split; [|tauto]. intros Hy. apply map_get_None in Hn. rewrite <- E in Hn. by apply map_get_None in Hn. }
  split; simpl; try done.
  - by apply map_del_ok.
  - apply NoDup_app. split_and!; [done| |apply NoDup_singleton].
    intros i Hi' ->%list_elem_of_singleton. by apply (H5 id).
  - intros i. rewrite Hkeys, elem_of_app, list_elem_of_singleton, H4. destruct (decide (i = id)); naive_solver.
  - intros i. rewrite Hkeys, elem_of_app, list_elem_of_singleton. naive_solver.
  - intros Hd. rewrite (H7 Hd). done.
Qed.

Lemma calls_ok_cancel iss set k id :
  calls_ok iss set k ->
  calls_ok (iss ++ issued (cancelRequest k id).2) (set ++ settled (cancelRequest k id).2) (cancelRequest k id).1.
Proof.
  intros H. unfold cancelRequest. destruct (map_get id (pending (rpc k))) as [p|] eqn:E.
  - eapply calls_ok_settle; [done|done|apply quiet_send].
  - simpl. by rewrite !app_nil_r.
Qed.

Lemma calls_ok_call iss set k now m p sig d key :
  calls_ok iss set k ->
  calls_ok (iss ++ issued (call k now m p sig d key).2) (set ++ settled (call k now m p sig d key).2)
    (call k now m p sig d key).1.
Proof.
  intros H. unfold call. destruct (disposed k) eqn:Hd; [simpl; by rewrite !app_nil_r|].
  set (id := nextId k "req"). set (k1 := set_pending (bump k) _).
  set (env := RpcRequest _ _ _ _ _ _).
  assert (Hid : id = id_of (krole k) "req" (S (sequence k))) by done.
  assert (Hfresh : id ∉ iss).
  { intros Hi. destruct (co_fresh _ _ _ H id Hi) as (n & Hn & E). rewrite Hid in E.
    apply id_of_inj in E. lia. }
  assert (Hnk : id ∉ map_keys (pending (rpc k))).
  { intros Hk. apply Hfresh. apply (co_cover _ _ _ H). by right. }
  destruct (quiet_nil _ (quiet_send k1 env)) as [Hi Hs].
  assert (H1 : calls_ok (iss ++ issued (Called id :: send k1 env)) (set ++ settled (Called id :: send k1 env)) k1).
  { change (Called id :: send k1 env) with ([Called id] ++ send k1 env).
    rewrite issued_app, settled_app, Hi, Hs. simpl. rewrite app_nil_r.
    destruct H as [H1 H2 H3 H4 H5 H6 H7]. apply map_get_None in Hnk as Hg.
    split; cbn [k1 set_pending with_rpc bump rpc pending sequence krole disposed]; rewrite ?map_set_absent by done.
    - rewrite <- map_set_absent by done. by apply map_set_ok.
    - apply NoDup_app. split_and!; [done| |apply NoDup_singleton]. by intros i Hi' ->%list_elem_of_singleton.
    - done.
    - intros i. unfold map_keys. rewrite fmap_app, !elem_of_app, H4. csimpl. rewrite !list_elem_of_singleton.
      unfold map_keys. tauto.
    - intros i Hi'. unfold map_keys. rewrite fmap_app, elem_of_app. csimpl. rewrite list_elem_of_singleton.
      intros [Hk| ->]; [by apply (H5 i)|]. apply Hfresh, H4. by left.
    - intros i. rewrite elem_of_app, list_elem_of_singleton. intros [Hi'| ->].
      + destruct (H6 i Hi') as (n & ? & ?). exists n. split; [lia | done].
      + exists (S (sequence k)). split; [lia | done].
    - congruence. }
  destruct sig as [[]|]; [|done|done].
  pose proof (calls_ok_cancel _ _ k1 id H1) as H2. destruct (cancelRequest k1 id) as [k2 es2].
  cbn [fst snd] in *. by rewrite issued_app, settled_app, !app_assoc.
Qed.

Lemma settled_disposal (l : list (string * PendingRequest)) (tl : list Action) :
  Forall rpc_quiet tl ->
  issued (map (fun ip => Settle ip.1 (Throw OPERATION_ABORTED)) l ++ tl) = [] /\
  settled (map (fun ip => Settle ip.1 (Throw OPERATION_ABORTED)) l ++ tl) = map_keys l.
Proof.
  intros Hq. destruct (quiet_nil _ Hq) as [Hi Hs]. rewrite issued_app, settled_app, Hi, Hs, !app_nil_r.
  induction l as [|[i q] l [IH1 IH2]]; [done|]. split; [done|]. unfold map_keys in *. csimpl. by rewrite <- IH2.
Qed.

Lemma calls_ok_dispose iss set k :
  calls_ok iss set k ->
  calls_ok (iss ++ issued (dispose k).2) (set ++ settled (dispose k).2) (dispose k).1.
Proof.
  intros H. unfold dispose. destruct (disposed k); [simpl; by rewrite !app_nil_r|]. cbn [fst snd].
  destruct (settled_disposal (pending (rpc k)) (map AbortCall (map snd (remote (rpc k))) ++ [ScopeDisposed; PortClosed]))
    as [-> ->].
  { apply Forall_app. split; [|by repeat constructor]. induction (map snd _); simpl; by constructor. }
  destruct H as [H1 H2 H3 H4 H5 H6 H7]. rewrite app_nil_r. split; simpl; try done.
  - constructor.
  - apply NoDup_app. split_and!; try done.
  - intros id. rewrite H4, elem_of_app. unfold map_keys. csimpl. rewrite elem_of_nil. tauto.
  - intros id _. apply not_elem_of_nil.
Qed.

Lemma calls_ok_step iss set k op :
  calls_ok iss set k ->
  calls_ok (iss ++ issued (step k op).2) (set ++ settled (step k op).2) (step k op).1.
Proof.
  intros H.
  assert (Hsettle : forall id p r, map_get id (pending (rpc k)) = Some p ->
    calls_ok (iss ++ issued [Settle id r]) (set ++ settled [Settle id r])
      (set_pending k (map_del id (pending (rpc k)))))
    by (intros id p r Hp; exact (calls_ok_settle _ _ k id p r [] H Hp (Forall_nil_2 _))).
  assert (Hidle : calls_ok (iss ++ issued []) (set ++ settled []) k) by (simpl; by rewrite !app_nil_r).
  assert (Hq : forall t, quiet_turn k t -> calls_ok (iss ++ issued t.2) (set ++ settled t.2) t.1)
    by (intros t; by apply calls_ok_quiet).
  destruct op; cbn [step].
  - apply Hq. unfold handle. case_match; (split; [by split|]); repeat constructor.
  - apply (Hq (_, [])). split; [by split | constructor].
  - apply (Hq (_, [])). split; [case_match; by split | constructor].
  - apply (Hq (_, [])). split; [by split | constructor].
  - by apply calls_ok_call.
  - by apply calls_ok_cancel.
  - unfold call_timer. destruct (map_get id (pending (rpc k))) as [p|] eqn:E; [|done].
    destruct (p_timer p); [by eapply Hsettle | done].
  - apply Hq. unfold serve_timer. repeat case_match; (split; [by split|]); repeat constructor.
  - apply Hq. unfold handler_done. case_match; (split; [by split|]); [apply quiet_send | constructor].
  - apply Hq. split; [split; simpl; (done || lia) | apply quiet_send].
  - apply Hq. split; [by split | apply quiet_send].
  - apply Hq. unfold openOutboundStream. case_match; [split; [by split|]; by repeat constructor|].
    split; [split; simpl; (done || lia)|]. constructor; [done | apply quiet_send].
  - destruct (writer_op op); [apply Hq, side_turn_quiet, side_on_stream | done].
  - apply Hq, side_turn_quiet, side_pull.
  - apply Hq, side_turn_quiet, side_resume.
  - apply Hq. split; [by split | apply side_quiet_rpc, side_notify].
  - unfold onMessage. destruct (disposed k); [done|]. destruct e.
    + apply Hq, quiet_serve.
    + unfold on_response. destruct (map_get id (pending (rpc k))) as [p|] eqn:E; [by eapply Hsettle | done].
    + apply Hq. unfold on_cancel_request. case_match; (split; [by split|]); repeat constructor.
    + apply Hq. split; [by split | apply side_quiet_rpc, side_notify].
    + apply Hq. unfold on_open. split; [by split|]. apply Forall_app.
      split; [apply quiet_send | apply side_quiet_rpc, side_notify].
    + apply Hq, side_turn_quiet, side_on_stream.
    + apply Hq, side_turn_quiet, side_on_inbound.
    + apply Hq, side_turn_quiet, side_on_inbound.
    + apply Hq, side_turn_quiet, side_on_inbound.
    + apply Hq, side_turn_quiet, side_on_stream.
    + apply Hq. split; [by split | apply side_quiet_rpc, side_notify].
    + done.
  - by apply calls_ok_dispose.
Qed.

Lemma calls_ok_run iss set k ops :
  calls_ok iss set k ->
  calls_ok (iss ++ issued (run k ops).2) (set ++ settled (run k ops).2) (run k ops).1.
Proof.
  revert iss set k. induction ops as [|op ops IH]; intros iss set k H; cbn [run].
  - simpl. by rewrite !app_nil_r.
  - pose proof (calls_ok_step iss set k op H) as H1. destruct (step k op) as [k1 es1]. cbn [fst snd] in *.
    specialize (IH _ _ _ H1). destruct (run k1 ops) as [k2 es2]. cbn [fst snd] in *.
    by rewrite issued_app, settled_app, !app_assoc.
Qed.

(** C22: whatever happens on the port (responses, repeated or unknown
    responses, time-outs, cancellations, disposal, in any order), every call has
    its own identifier and is settled at most once; at each moment the issued
    calls are exactly the pending and the settled ones; and after [dispose] no call
    is left pending, so each has been settled exactly once. *)
Theorem rpc_settles_exactly_once (role instance : string) (lim : StreamLimitsConfig) (ops : list Op) :
  let k := (run (new_session role instance lim) ops).1 in
  let es := (run (new_session role instance lim) ops).2 in
  NoDup (issued es) /\ NoDup (settled es) /\
  (forall id, id ∈ issued es <-> id ∈ settled es \/ id ∈ map_keys (pending (rpc k))) /\
  (forall id, id ∈ settled es -> id ∉ map_keys (pending (rpc k))) /\
  (disposed k = true -> forall id, id ∈ issued es -> id ∈ settled es).
Proof.
  intros k es.
  assert (H0 : calls_ok [] [] (new_session role instance lim)).
  { split; simpl; try done; try constructor; try (by intros ? ?%not_elem_of_nil).
    - by intros ?%not_elem_of_nil.
    - unfold map_keys. csimpl. intros [?%not_elem_of_nil|?%not_elem_of_nil]; done. }
  destruct (calls_ok_run [] [] _ ops H0) as [H1 H2 H3 H4 H5 H6 H7]. split_and!; try done.
  intros Hd id Hi. apply H4 in Hi as [Hi|Hi]; [done|]. unfold map_keys in Hi.
  rewrite (H7 Hd) in Hi. by apply not_elem_of_nil in Hi.
Qed.

(** ** Requests are answered once *)

Definition is_request (id : string) (op : Op) : bool :=
  match op with OpMessage _ (RpcRequest i _ _ _ _ _) => (i =? id)%string | _ => false end.
Definition requests (ops : list Op) (id : string) : nat := length (List.filter (is_request id) ops).
Definition responses (es : list Action) (id : string) : nat :=
  length (List.filter (fun a => bool_decide (response_id a = Some id)) es).
Definition running (cs : list (nat * RemoteCall)) (id : string) : nat :=
  length (List.filter (fun rc => (c_id rc.2 =? id)%string) cs).
Definition one (b : bool) : nat := if b then 1%nat else 0%nat.

Lemma responses_app a b id : responses (a ++ b) id = (responses a id + responses b id)%nat.
Proof. unfold responses. by rewrite List.filter_app, length_app. Qed.

Lemma responses_side es id : Forall side_quiet es -> responses es id = 0%nat.
Proof.
  induction 1 as [|a es [_ Ha] _ IH]; [done|]. unfold responses in *. simpl. by rewrite Ha.
Qed.

Lemma running_set_new cs ref c id :
  map_get ref cs = None -> running (map_set ref c cs) id = (running cs id + one (c_id c =? id)%string)%nat.
Proof.
  intros H. rewrite map_set_absent by done. unfold running. rewrite List.filter_app, length_app. simpl.
  by destruct (c_id c =? id)%string.
Qed.

Lemma running_set_same cs ref c c' id :
  map_get ref cs = Some c -> c_id c' = c_id c -> running (map_set ref c' cs) id = running cs id.
Proof.
  unfold running. induction cs as [|[r0 c0] cs IH]; csimpl; [done|]. case_decide.
  - intros [= ->] E. csimpl. rewrite E. by destruct (c_id c =? id)%string.
  - intros H1 H2. csimpl. destruct (c_id c0 =? id)%string; csimpl; by rewrite IH.
Qed.

Lemma running_del cs ref c id :
  map_get ref cs = Some c -> running cs id = (one (c_id c =? id)%string + running (map_del ref cs) id)%nat.
Proof.
  unfold running. induction cs as [|[r0 c0] cs IH]; csimpl; [done|]. case_decide.
  - intros [= ->]. by destruct (c_id c =? id)%string.
  - intros H1. csimpl. destruct (c_id c0 =? id)%string; csimpl; rewrite IH by done; lia.
Qed.

(** Invocation references are distinct and below the counter. *)
Record serving_ok (k : Kernel) : Prop := {
  so_keys : map_ok (calls (rpc k));
  so_next : forall ref c, map_get ref (calls (rpc k)) = Some c -> (ref < next_call (rpc k))%nat
}.

(** A turn accounts for the requests [n] of [id] that it received. *)
Definition answers (id : string) (n : nat) (k : Kernel) (t : Kernel * list Action) : Prop :=
  serving_ok t.1 /\
  (n + running (calls (rpc k)) id = responses t.2 id + running (calls (rpc t.1)) id)%nat.

Lemma answers_side id k t : serving_ok k -> side_turn k t -> answers id 0 k t.
Proof.
  intros [H1 H2] [[Hr _ _ _] Hq]. split; [split; by rewrite Hr|].
  by rewrite Hr, (responses_side _ _ Hq).
Qed.

(** Nothing changed but the pending calls, the handlers or the listeners. *)
Lemma answers_same id k k' es :
  serving_ok k -> calls (rpc k') = calls (rpc k) -> next_call (rpc k') = next_call (rpc k) ->
  responses es id = 0%nat -> answers id 0 k (k', es).
Proof.
  intros [H1 H2] Hc Hn Hr. split; [split; simpl; rewrite ?Hc, ?Hn; done|]. simpl. by rewrite Hc, Hr.
Qed.

Lemma answers_abort id k ref c c' es :
  serving_ok k -> map_get ref (calls (rpc k)) = Some c -> c_id c' = c_id c -> responses es id = 0%nat ->
  forall rem, answers id 0 k
    (with_rpc k (MkRpc (handlers (rpc k)) (pending (rpc k)) rem (map_set ref c' (calls (rpc k)))
       (next_call (rpc k))), es).
Proof.
  intros [H1 H2] Hg Hc Hr rem. split; [split; simpl|simpl; by rewrite (running_set_same _ _ c), Hr].
  - by apply map_set_ok.
  - intros r0 c0. rewrite map_get_set. case_decide as E; [subst; intros _; by eapply H2 | apply H2].
Qed.

Lemma answers_serve id k now i m p d :
  disposed k = false -> serving_ok k -> answers id (one (i =? id)%string) k (serveRequest k now i m p d).
Proof.
  intros Hd [H1 H2]. unfold serveRequest, send. rewrite Hd.
  assert (Hresp : forall r, responses [Post (RpcResponse i r)] id = one (i =? id)%string).
  { intros r. unfold responses. simpl. destruct (String.eqb_spec i id) as [->|Hne].
    - by rewrite bool_decide_true.
    - rewrite bool_decide_false; [done | congruence]. }
  case_match; [|split; [by split | simpl; rewrite Hresp; lia]].
  case_match; [split; [by split | simpl; rewrite Hresp; lia]|].
  assert (Hn : map_get (next_call (rpc k)) (calls (rpc k)) = None).
  { destruct (map_get (next_call (rpc k)) (calls (rpc k))) as [c|] eqn:E; [|done]. specialize (H2 _ _ E). lia. }
  split; [split; simpl|].
  - by apply map_set_ok.
  - intros ref c. rewrite map_get_set. case_decide as E; [lia|]. intros Hg. specialize (H2 _ _ Hg). lia.
  - simpl. rewrite running_set_new by done. simpl. unfold responses. simpl. lia.
Qed.

Lemma answers_done id k ref r :
  disposed k = false -> serving_ok k -> answers id 0 k (handler_done k ref r).
Proof.
  intros Hd [H1 H2]. unfold handler_done, send. rewrite Hd.
  destruct (map_get ref (calls (rpc k))) as [c|] eqn:E; [|by apply answers_same].
  split; [split; simpl|].
  - by apply map_del_ok.
  - intros r0 c0. rewrite map_get_del by done. case_decide; [done | apply H2].
  - simpl. rewrite (running_del _ _ _ id E). unfold responses. simpl.
    destruct (String.eqb_spec (c_id c) id) as [->|Hne].
    + by rewrite bool_decide_true.
    + rewrite bool_decide_false; [done | congruence].
Qed.

Lemma responses_none id es :
  (forall a, a ∈ es -> response_id a = None) -> responses es id = 0%nat.
Proof.
  intros H. unfold responses. induction es as [|a es IH]; [done|]. simpl.
  rewrite (H a) by left. simpl. apply IH. intros b Hb. apply H. by right.
Qed.

Lemma cancel_calls k id : rpc (cancelRequest k id).1 =
    MkRpc (handlers (rpc k)) (pending (rpc (cancelRequest k id).1)) (remote (rpc k)) (calls (rpc k)) (next_call (rpc k)) /\
  forall a, a ∈ (cancelRequest k id).2 -> response_id a = None.
Proof.
  unfold cancelRequest. case_match; simpl.
  - split; [done|]. unfold send. intros a. case_match; rewrite ?elem_of_app, ?list_elem_of_singleton, ?elem_of_nil;
      naive_solver.
  - split; [by destruct (rpc k)|]. intros a Ha. by apply not_elem_of_nil in Ha.
Qed.

Lemma answers_step id k op :
  disposed k = false -> op <> OpDispose -> serving_ok k ->
  answers id (one (is_request id op)) k (step k op).
Proof.
  intros Hd Hop H. destruct op; cbn [step is_request]; try done.
  - unfold handle. case_match; by apply answers_same.
  - by apply answers_same.
  - case_match; by apply answers_same.
  - by apply answers_same.
  - unfold call. rewrite Hd. set (k1 := set_pending (bump k) _).
    assert (Hk1 : forall es, responses es id = 0%nat -> answers id 0 k (k1, es))
      by (intros es Hes; by apply answers_same).
    destruct (cancel_calls k1 (nextId k "req")) as [Hr Hc].
    assert (Hs : forall e, response_id (Post e) = None ->
      responses (Called (nextId k "req") :: send k1 e) id = 0%nat).
    { intros e He. apply responses_none. unfold send. intros a.
      case_match; rewrite ?elem_of_cons, ?elem_of_nil; naive_solver. }
    destruct signal as [[]|]; [|by apply Hk1, Hs..].
    destruct (cancelRequest k1 (nextId k "req")) as [k2 es2]. simpl in Hr, Hc.
    apply answers_same; [done| | |].
    + by rewrite Hr.
    + by rewrite Hr.
    + rewrite responses_app, Hs by done. by apply responses_none.
  - destruct (cancel_calls k id0) as [Hr Hc]. destruct (cancelRequest k id0) as [k2 es2]. simpl in Hr, Hc.
    apply answers_same; [done|by rewrite Hr|by rewrite Hr|by apply responses_none].
  - unfold call_timer. repeat case_match; by apply answers_same.
  - unfold serve_timer. destruct (map_get ref (calls (rpc k))) as [c|] eqn:E; [|by apply answers_same].
    case_match; [|by apply answers_same]. by eapply answers_abort.
  - by apply answers_done.
  - apply answers_side; [done|]. split; [split; simpl; (done || lia) | by apply side_send].
  - apply answers_side; [done|]. split; [by split | by apply side_send].
  - apply answers_side; [done|]. unfold openOutboundStream. rewrite Hd.
    split; [split; simpl; (done || lia)|]. constructor; [done | by apply side_send].
  - case_match; [|by apply answers_same]. apply answers_side, side_on_stream. done.
  - by apply answers_side, side_pull.
  - by apply answers_side, side_resume.
  - apply answers_side; [done|]. split; [by split | apply side_notify].
  - unfold onMessage. rewrite Hd. destruct e; try (by apply answers_side, side_on_stream);
      try (by apply answers_side, side_on_inbound); try by apply answers_same.
    + by apply answers_serve.
    + unfold on_response. case_match; by apply answers_same.
    + unfold on_cancel_request. case_match; [|by apply answers_same]. unfold abort_call.
      destruct (map_get n (calls (rpc k))) as [c|] eqn:E; [by eapply answers_abort | by apply answers_same].
    + apply answers_side; [done|]. split; [by split | apply side_notify].
    + apply answers_side; [done|]. unfold on_open. split; [by split|]. apply Forall_app.
      split; [by apply side_send | apply side_notify].
    + apply answers_side; [done|]. split; [by split | apply side_notify].
Qed.

Lemma step_disposed k op :
  op <> OpDispose -> disposed (step k op).1 = disposed k.
Proof.
  intros Hop. destruct op; cbn [step]; try done.
  - unfold handle. by case_match.
  - by case_match.
  - unfold call, cancelRequest. destruct (disposed k) eqn:Hd; [exact Hd|].
    destruct signal as [[]|]; [|exact Hd|exact Hd].
    destruct (map_get _ (pending _)); exact Hd.
  - unfold cancelRequest. by case_match.
  - unfold call_timer. by repeat case_match.
  - unfold serve_timer. by repeat case_match.
  - unfold handler_done. by case_match.
  - unfold openOutboundStream. destruct (disposed k) eqn:Hd; [exact Hd | simpl; exact Hd].
  - case_match; [|done]. by destruct (side_on_stream k sid op) as [[_ _ Hd _] _].
  - by destruct (side_pull k sid ref p) as [[_ _ Hd _] _].
  - by destruct (side_resume k sid ref) as [[_ _ Hd _] _].
  - unfold onMessage. destruct (disposed k) eqn:Hd; [done|].
    destruct e; try done.
    + destruct (quiet_serve k now id method params deadline) as [[_ _ Hx _] _]. congruence.
    + unfold on_response. by case_match.
    + unfold on_cancel_request. by case_match.
    + destruct (side_on_stream k streamId (OutCredit bytes0)) as [[_ _ Hx _] _]. congruence.
    + destruct (side_on_inbound k streamId (fun r => on_chunk r n data)) as [[_ _ Hx _] _]. congruence.
    + destruct (side_on_inbound k streamId (fun r => (on_end r, false))) as [[_ _ Hx _] _]. congruence.
    + destruct (side_on_inbound k streamId (fun r => (failInbound r (kcode error), false))) as [[_ _ Hx _] _].
      congruence.
    + destruct (side_on_stream k streamId OutCancel) as [[_ _ Hx _] _]. congruence.
Qed.

Lemma disposed_forever k ops : disposed k = true -> disposed (run k ops).1 = true.
Proof.
  revert k. induction ops as [|op ops IH]; intros k Hd; cbn [run]; [done|].
  assert (Hs : disposed (step k op).1 = true).
  { destruct op; try (by rewrite step_disposed). simpl. unfold dispose. by rewrite Hd. }
  destruct (step k op) as [k1 es1]. specialize (IH k1 Hs). by destruct (run k1 ops).
Qed.

(** While the session is alive, no turn disposed it. *)
Lemma alive_step k op ops :
  disposed (run k (op :: ops)).1 = false ->
  disposed k = false /\ op <> OpDispose /\ disposed (run (step k op).1 ops).1 = false.
Proof.
  intros H. assert (Hk : disposed k = false).
  { destruct (disposed k) eqn:E; [|done]. by rewrite (disposed_forever k (op :: ops) E) in H. }
  cbn [run] in H. destruct (step k op) as [k1 es1] eqn:Es. simpl.
  assert (H1 : disposed (run k1 ops).1 = false) by (by destruct (run k1 ops)).
  split_and!; [done| |done]. intros ->. simpl in Es. unfold dispose in Es. rewrite Hk in Es.
  injection Es as <- _. by rewrite disposed_forever in H1.
Qed.

Lemma answers_run id k ops :
  serving_ok k -> disposed (run k ops).1 = false -> answers id (requests ops id) k (run k ops).
Proof.
  revert k. induction ops as [|op ops IH]; intros k H Hd; [by apply answers_same|].
  apply alive_step in Hd as (Hk & Hop & Hd).
  destruct (answers_step id k op Hk Hop H) as [H1 E1]. cbn [run].
  destruct (step k op) as [k1 es1]. cbn [fst snd] in *.
  destruct (IH k1 H1 Hd) as [H2 E2]. destruct (run k1 ops) as [k2 es2]. cbn [fst snd] in *.
  split; [done|]. simpl. rewrite responses_app. unfold requests in *. simpl.
  destruct (is_request id op); simpl in *; lia.
Qed.

(** While a session is alive, every request of the peer is
    answered exactly once or still has a running handler: for each identifier, the
    requests received are as many as the responses sent and the handlers running. *)
Theorem requests_answered_once (role instance : string) (lim : StreamLimitsConfig) (ops : list Op)
    (id : string) :
  let k := (run (new_session role instance lim) ops).1 in
  let es := (run (new_session role instance lim) ops).2 in
  disposed k = false ->
  requests ops id = (responses es id + running (calls (rpc k)) id)%nat.
Proof.
  intros k es Hd.
  assert (H0 : serving_ok (new_session role instance lim)) by (split; simpl; [constructor | done]).
  destruct (answers_run id _ ops H0 Hd) as [_ E]. fold k es in E. simpl in E.
  unfold running in E at 1. simpl in E. lia.
Qed.

(** ** The streams of a session are the streams of the stream model *)

(** The effect on the stream [sid] that an action shows. *)
Definition stream_effect (sid : string) (a : Action) : option OutEffect :=
  match a with
  | Post (StreamChunk s n b) => if (s =? sid)%string then Some (EFrame (FChunk n b)) else None
  | Post (StreamEnd s) => if (s =? sid)%string then Some (EFrame FEnd) else None
  | Post (StreamError s e) => if (s =? sid)%string then Some (EFrame (FError (kcode e))) else None
  | WriteSettled s w e => if (s =? sid)%string then Some (EWrite w e) else None
  | _ => None
  end.
Definition effects_of (sid : string) (es : list Action) : list OutEffect := omap (stream_effect sid) es.

Lemma effects_app sid a b : effects_of sid (a ++ b) = effects_of sid a ++ effects_of sid b.
Proof. apply omap_app. Qed.

Lemma effects_cons sid a l :
  effects_of sid (a :: l) = option_list (stream_effect sid a) ++ effects_of sid l.
Proof. unfold effects_of. simpl. by destruct (stream_effect sid a). Qed.

Definition no_stream (a : Action) : Prop := forall sid, stream_effect sid a = None.

Lemma effects_none sid es : Forall no_stream es -> effects_of sid es = [].
Proof. induction 1 as [|a es Ha _ IH]; [done|]. unfold effects_of in *. simpl. by rewrite (Ha sid). Qed.

Lemma no_stream_send k e : no_stream (Post e) -> Forall no_stream (send k e).
Proof. unfold send. case_match; repeat constructor. done. Qed.

Lemma no_stream_notify k kind w : Forall no_stream (notify k kind w).
Proof. unfold notify. induction (List.filter _ _); simpl; repeat constructor; done. Qed.

(** The effects of a stream of a live session are visible, and only its own. *)
Lemma effects_out k sid sid' es :
  disposed k = false ->
  effects_of sid' (List.filter (visible k) (map (out_action sid) es)) =
    if (sid =? sid')%string then es else [].
Proof.
  intros Hd. induction es as [|e es IH]; [by case_match|].
  assert (Hv : visible k (out_action sid e) = true) by (destruct e as [[]|]; simpl; by rewrite ?Hd).
  cbn [map List.filter]. rewrite Hv, effects_cons, IH.
  by destruct e as [[]|]; simpl; destruct (sid =? sid')%string.
Qed.

(** A turn that leaves the outbound streams alone. *)
Record out_same (k k' : Kernel) : Prop := {
  os_out : outbound (streams k') = outbound (streams k);
  os_limits : limits k' = limits k;
  os_role : krole k' = krole k;
  os_seq : (sequence k <= sequence k')%nat
}.

Definition out_turn (k : Kernel) (t : Kernel * list Action) : Prop :=
  out_same k t.1 /\ Forall no_stream t.2.

Lemma out_same_trans k1 k2 k3 : out_same k1 k2 -> out_same k2 k3 -> out_same k1 k3.
Proof. intros [] []. split; congruence || lia. Qed.

Lemma out_turn_id k es : Forall no_stream es -> out_turn k (k, es).
Proof. intros. split; [by split | done]. Qed.

#[local] Hint Resolve no_stream_send no_stream_notify out_turn_id Forall_nil_2 : core.

Lemma out_replenish k sid : out_turn k (replenish k sid).
Proof.
  unfold replenish. do 2 (case_match; [|by auto]).
  destruct (replenishCredit _ _) as [r' es]. split; [by split|]. simpl.
  induction es as [|[?|] es IH]; simpl; [constructor| |done].
  apply Forall_app. split; [by apply no_stream_send | done].
Qed.

Lemma out_reader k sid ref r again (res : list Action) :
  Forall no_stream res ->
  out_turn k (let '(k2, es) := if again : bool then replenish (set_reader k ref r) sid
                               else (set_reader k ref r, []) in (k2, es ++ res)).
Proof.
  intros Hres. pose proof (out_replenish (set_reader k ref r) sid) as [H1 H2].
  destruct again; [|split; [by split | done]].
  destruct (replenish (set_reader k ref r) sid) as [k2 es]. simpl in *. split.
  - by apply (out_same_trans _ (set_reader k ref r)).
  - by apply Forall_app.
Qed.

Lemma out_pull k sid ref p : out_turn k (pull_reader k sid ref p).
Proof.
  unfold pull_reader. case_match; [|by auto]. destruct (pull _ _) as [[r' res] again].
  apply out_reader. destruct res; repeat constructor.
Qed.

Lemma out_resume k sid ref : out_turn k (resume_reader k sid ref).
Proof.
  unfold resume_reader. case_match; [|by auto]. destruct (resume_pull _) as [[r' res] again].
  apply out_reader. destruct res as [[]|]; repeat constructor.
Qed.

Lemma out_on_inbound k sid f : out_turn k (on_inbound k sid f).
Proof.
  unfold on_inbound. do 2 (case_match; [|by auto]).
  destruct (f _) as [r' []]; (split; [by split | apply Forall_nil_2]).
Qed.

Lemma out_cancel k id : out_turn k (cancelRequest k id).
Proof.
  unfold cancelRequest. case_match; [|by auto]. split; [by split|]. simpl.
  apply Forall_app. split; [by apply no_stream_send | by repeat constructor].
Qed.

(** The operation on the stream [sid] that a turn of a live session performs. *)
Definition stream_op (sid : string) (op : Op) : option OutOp :=
  match op with
  | OpStream s o => if (s =? sid)%string && writer_op o then Some o else None
  | OpMessage _ (StreamCredit s n) => if (s =? sid)%string then Some (OutCredit n) else None
  | OpMessage _ (StreamCancel s) => if (s =? sid)%string then Some OutCancel else None
  | _ => None
  end.

(** Every turn opens a stream, works on one stream, or leaves them alone. *)
Inductive stream_turn (k : Kernel) (op : Op) : Kernel * list Action -> Prop :=
| TurnOpen sid es k' : sid = id_of (krole k) "str" (S (sequence k)) -> Forall no_stream es ->
    out_same (set_outbound (bump k) sid (open_out (limits k))) k' -> stream_turn k op (k', es)
| TurnStream sid o : stream_op sid op = Some o -> stream_turn k op (on_stream k sid o)
| TurnOther t : out_turn k t -> stream_turn k op t.

Lemma step_stream_turn k op : disposed k = false -> op <> OpDispose -> stream_turn k op (step k op).
Proof.
  intros Hd Hop. destruct op; cbn [step]; try done; try (apply TurnOther; by apply out_turn_id).
  - apply TurnOther. unfold handle. case_match; (split; [by split|]); repeat constructor.
  - apply TurnOther. by split; [split|].
  - apply TurnOther. case_match; [by auto|]. by split; [split|].
  - apply TurnOther. by split; [split|].
  - apply TurnOther. unfold call. rewrite Hd. set (k1 := set_pending (bump k) _).
    assert (H1 : out_same k k1) by (split; simpl; done || lia).
    assert (Hs : forall a b c d e f, Forall no_stream (Called (nextId k "req") :: send k1 (RpcRequest a b c d e f)))
      by (intros; constructor; [done | by apply no_stream_send]).
    destruct (out_cancel k1 (nextId k "req")) as [H2 H3].
    destruct signal as [[]|]; [|split; [exact H1 | apply Hs]..].
    destruct (cancelRequest k1 (nextId k "req")) as [k2 es2]. simpl in *.
    split; [by eapply out_same_trans|]. simpl. rewrite app_comm_cons. by apply Forall_app.
  - apply TurnOther, out_cancel.
  - apply TurnOther. unfold call_timer. repeat case_match; by repeat (constructor || split).
  - apply TurnOther. unfold serve_timer. repeat case_match; by repeat (constructor || split).
  - apply TurnOther. unfold handler_done. case_match; [|by auto]. split; [by split | by apply no_stream_send].
  - apply TurnOther. split; [split; simpl; done || lia | by apply no_stream_send].
  - apply TurnOther. split; [by split | by apply no_stream_send].
  - unfold openOutboundStream. rewrite Hd. eapply TurnOpen; [reflexivity| |by split].
    constructor; [done | by apply no_stream_send].
  - destruct (writer_op op) eqn:Ew; [|apply TurnOther; by auto]. apply TurnStream. simpl.
    by rewrite String.eqb_refl, Ew.
  - apply TurnOther, out_pull.
  - apply TurnOther, out_resume.
  - unfold onMessage. rewrite Hd. destruct e; try (apply TurnOther; by auto);
      try (apply TurnOther, out_on_inbound); try (apply TurnStream; simpl; by rewrite String.eqb_refl).
    + apply TurnOther. unfold serveRequest.
      destruct (map_get _ (handlers _)); [|by apply out_turn_id, no_stream_send].
      case_match; [by apply out_turn_id, no_stream_send|]. split; [by split | by repeat constructor].
    + apply TurnOther. unfold on_response. case_match; by repeat (constructor || split).
    + apply TurnOther. unfold on_cancel_request. case_match; by repeat (constructor || split).
    + apply TurnOther. unfold on_open. split; [by split|]. apply Forall_app.
      split; [by apply no_stream_send | apply no_stream_notify].
Qed.

(** Each listed or past stream of the session is a run of the stream model. *)
Record streams_ok (es : list Action) (k : Kernel) : Prop := {
  str_keys : forall sid o, map_get sid (outbound (streams k)) = Some o ->
    exists n, (n <= sequence k)%nat /\ sid = id_of (krole k) "str" n;
  str_runs : forall sid o, map_get sid (outbound (streams k)) = Some o ->
    exists ops, out_run (limits k) (open_out (limits k)) ops = (o, effects_of sid es);
  str_none : forall sid, map_get sid (outbound (streams k)) = None -> effects_of sid es = []
}.

Lemma out_run_snoc lim o ops op :
  out_run lim o (ops ++ [op]) =
  let '(o1, e1) := out_run lim o ops in let '(o2, e2) := out_step lim o1 op in (o2, e1 ++ e2).
Proof.
  revert o. induction ops as [|op' ops IH]; intros o; cbn [app out_run].
  - destruct (out_step lim o op) as [o2 e2]. by rewrite app_nil_r.
  - destruct (out_step lim o op') as [o1 e1]. rewrite IH. destruct (out_run lim o1 ops) as [o2 e2].
    destruct (out_step lim o2 op) as [o3 e3]. by rewrite app_assoc.
Qed.

Lemma streams_ok_same es k t : streams_ok es k -> out_turn k t -> streams_ok (es ++ t.2) t.1.
Proof.
  intros [H1 H2 H3] [[Ho Hl Hr Hs] Hq].
  assert (He : forall sid, effects_of sid (es ++ t.2) = effects_of sid es)
    by (intros sid; by rewrite effects_app, (effects_none sid _ Hq), app_nil_r).
  split; intros sid; rewrite ?He, Ho, ?Hl, ?Hr; [|by apply H2|by apply H3].
  intros o Hg. destruct (H1 sid o Hg) as (n & ? & ?). exists n. split; [lia | done].
Qed.

Lemma streams_ok_turn es k op t :
  disposed k = false -> streams_ok es k -> stream_turn k op t -> streams_ok (es ++ t.2) t.1.
Proof.
  intros Hd H Ht. destruct Ht as [sid es' k' Hsid Hq Hs|sid o Hop|t Ht].
  - set (k1 := set_outbound (bump k) sid (open_out (limits k))) in *.
    assert (Hnew : map_get sid (outbound (streams k)) = None).
    { destruct (map_get sid _) as [o|] eqn:E; [|done]. destruct (str_keys _ _ H sid o E) as (n & Hn & E').
      rewrite Hsid in E'. apply id_of_inj in E'. lia. }
    assert (H1 : streams_ok es k1).
    { destruct H as [H1 H2 H3]. split; intros sid'; subst k1; simpl; rewrite map_get_set; case_decide as E.
      - intros o _. subst sid'. exists (S (sequence k)). split; [simpl; lia | done].
      - intros o Hg. destruct (H1 sid' o Hg) as (n & ? & ?). exists n. split; [simpl; lia | done].
      - intros o [= <-]. subst sid'. exists []. simpl. by rewrite H3.
      - apply H2.
      - done.
      - apply H3. }
    exact (streams_ok_same es k1 (k', es') H1 (conj Hs Hq)).
  - unfold on_stream. destruct (map_get sid (outbound (streams k))) as [o0|] eqn:E;
      [|by apply (streams_ok_same es k (k, []) H), out_turn_id, Forall_nil_2].
    destruct (out_step (limits k) o0 o) as [o1 es1] eqn:Eo. cbn [fst snd].
    destruct H as [H1 H2 H3].
    assert (He : forall sid', effects_of sid' (es ++ List.filter (visible k) (map (out_action sid) es1)) =
      effects_of sid' es ++ if (sid =? sid')%string then es1 else [])
      by (intros sid'; by rewrite effects_app, effects_out).
    split; intros sid'; simpl; rewrite ?map_get_set, ?He; case_decide as Es.
    + intros o' _. subst sid'. by apply (H1 sid o0).
    + apply H1.
    + intros o' [= <-]. subst sid'. rewrite String.eqb_refl. destruct (H2 sid o0 E) as [ops Hops].
      exists (ops ++ [o]). by rewrite out_run_snoc, Hops, Eo.
    + rewrite (proj2 (String.eqb_neq _ _) Es), app_nil_r. apply H2.
    + done.
    + rewrite (proj2 (String.eqb_neq _ _) Es), app_nil_r. apply H3.
  - by apply (streams_ok_same es k).
Qed.

Lemma streams_ok_run es k ops :
  streams_ok es k -> disposed (run k ops).1 = false -> streams_ok (es ++ (run k ops).2) (run k ops).1.
Proof.
  revert es k. induction ops as [|op ops IH]; intros es k H Hd; cbn [run]; [by rewrite app_nil_r|].
  apply alive_step in Hd as (Hk & Hop & Hd).
  pose proof (streams_ok_turn es k op _ Hk H (step_stream_turn k op Hk Hop)) as H1.
  destruct (step k op) as [k1 es1]. cbn [fst snd] in *.
  specialize (IH _ _ H1 Hd). destruct (run k1 ops) as [k2 es2]. cbn [fst snd] in *.
  by rewrite app_assoc.
Qed.

Lemma limits_run role instance lim ops : limits (run (new_session role instance lim) ops).1 = lim.
Proof.
  assert (Hg : forall k, limits (run k ops).1 = limits k); [|apply Hg].
  induction ops as [|op ops IH]; intros k; cbn [run]; [done|].
  assert (Hs : limits (step k op).1 = limits k).
  { destruct (disposed k) eqn:Hd.
    - destruct op; cbn [step]; try done; unfold handle, call, cancelRequest, call_timer, serve_timer,
        handler_done, openOutboundStream, onMessage, dispose; rewrite ?Hd; try (by repeat case_match).
      + case_match; [|done]. unfold on_stream. case_match; [|done]. by destruct (out_step _ _ _).
      + by destruct (out_pull k sid ref p) as [[_ H _ _] _].
      + by destruct (out_resume k sid ref) as [[_ H _ _] _].
    - assert (Hc : op = OpDispose \/ op <> OpDispose) by (destruct op; (by left) || (by right)).
      destruct Hc as [->|Hne]; [simpl; unfold dispose; by rewrite Hd|].
      destruct (step_stream_turn k op Hd Hne) as [sid es k' _ _ [_ H _ _]|sid o _|t [[_ H _ _] _]]; [done| |done].
      unfold on_stream. case_match; [|done]. by destruct (out_step _ _ _). }
  specialize (IH (step k op).1). destruct (step k op) as [k1 es1]. cbn [fst snd] in *.
  destruct (run k1 ops) as [k2 es2]. cbn [fst snd] in *. congruence.
Qed.


(** ** Witnesses *)

Definition w_session : Kernel := new_session "host" "i1" (Limits 10 20 100).

Definition w_ops : list Op :=
  [ OpHandle "ping" 7; OpCall 0 "a" "1" None (Some 50) None; OpMessage 0 (RpcRequest "q1" "p" "ping" "x" None None);
    OpOpen "m"; OpStream "host:str:2" (OutWrite 1 (bytes 4)); OpMessage 0 (StreamCredit "host:str:2" 5);
    OpMessage 0 (RpcResponse "host:req:1" (Ok "done"%string)); OpMessage 0 (RpcResponse "host:req:1" (Ok "again"%string));
    OpCallTimer "host:req:1"; OpMessage 0 (RpcCancel "q1"); OpHandlerDone 0 (Ok "pong"%string);
    OpMessage 0 (RpcRequest "q1" "p" "none" "x" None None) ].

Lemma requests_answered_once_witness :
  requests w_ops "q1" = 2%nat /\
  requests w_ops "q1" = (responses (run w_session w_ops).2 "q1" + running (calls (rpc (run w_session w_ops).1)) "q1")%nat.
Proof.
  split; [vm_compute; reflexivity|].
  apply (requests_answered_once "host" "i1" (Limits 10 20 100) w_ops "q1"). vm_compute. reflexivity.
Defined.


End KernelSession.
