(* ===== verification/Codec.v ===== *)
(** * Bytes: base64 and UTF-8

    What the code uses of Node's [Buffer] and of [TextEncoder]: a byte string is a
    list of characters below U+0100 (the [latin1] reading of the code). *)

From Stdlib Require Import ZArith Lia Bool Ascii String List.
From stdpp Require Import base decidable list.
From S2P Require Import Prelude.
Local Open Scope Z_scope.

Module Codec.

(** The character of a code below 256. *)
Definition chr (n : Z) : ascii := ascii_of_N (Z.to_N n).

Lemma code_chr n : 0 <= n < 256 -> code (chr n) = n.
Proof. intros Hn. unfold code, chr. rewrite N_ascii_embedding by lia. lia. Qed.

Lemma chr_code c : chr (code c) = c.
Proof. unfold code, chr. rewrite N2Z.id. apply ascii_N_embedding. Qed.

Lemma code_bound c : 0 <= code c < 256.
Proof. unfold code. pose proof (N_ascii_bounded c). lia. Qed.

(** ** Base64 *)

Definition alphabet : list ascii := chars "ABCDEFGHIJKLMNOPQRSTUVWXYZabcdefghijklmnopqrstuvwxyz0123456789+/".

Definition enc6 (v : Z) : ascii := nth (Z.to_nat v) alphabet "A"%char.

(** The decoder takes the URL alphabet as well. *)
Definition dec6 (c : ascii) : option Z :=
  if is_upper c then Some (code c - 65)
  else if is_lower c then Some (code c - 71)
  else if is_digit c then Some (code c + 4)
  else if (c =? "+")%char || (c =? "-")%char then Some 62
  else if (c =? "/")%char || (c =? "_")%char then Some 63
  else None.

(** [buffer.toString('base64')] *)
Fixpoint encode64 (l : list ascii) : list ascii :=
  match l with
  | [] => []
  | [a] => [enc6 (code a / 4); enc6 (code a mod 4 * 16); "="%char; "="%char]
  | [a; b] => [enc6 (code a / 4); enc6 (code a mod 4 * 16 + code b / 16); enc6 (code b mod 16 * 4); "="%char]
  | a :: b :: c :: r =>
      enc6 (code a / 4) :: enc6 (code a mod 4 * 16 + code b / 16) ::
      enc6 (code b mod 16 * 4 + code c / 64) :: enc6 (code c mod 64) :: encode64 r
  end.

Fixpoint sextets (l : list ascii) : list Z :=
  match l with
  | [] => []
  | c :: r => match dec6 c with Some v => v :: sextets r | None => sextets r end
  end.

Fixpoint join6 (l : list Z) : list ascii :=
  match l with
  | a :: b :: c :: d :: r => chr (a * 4 + b / 16) :: chr (b mod 16 * 16 + c / 4) :: chr (c mod 4 * 64 + d) :: join6 r
  | [a; b; c] => [chr (a * 4 + b / 16); chr (b mod 16 * 16 + c / 4)]
  | [a; b] => [chr (a * 4 + b / 16)]
  | _ => []
  end.

(** [Buffer.from(text, 'base64')]: characters outside the alphabet are skipped. *)
Definition decode64 (l : list ascii) : list ascii := join6 (sextets l).

Definition is_base64 (c : ascii) : bool := is_alnum c || (c =? "+")%char || (c =? "/")%char || (c =? "=")%char.

Lemma enc6_spec v : 0 <= v < 64 -> dec6 (enc6 v) = Some v /\ is_base64 (enc6 v) = true.
Proof.
  intros Hv. assert (H : forallb (fun n => bool_decide (dec6 (enc6 (Z.of_nat n)) = Some (Z.of_nat n)) &&
    is_base64 (enc6 (Z.of_nat n))) (seq 0 64) = true) by (vm_compute; reflexivity).
  rewrite forallb_forall in H. specialize (H (Z.to_nat v)). rewrite Z2Nat.id in H by lia.
  assert (Hin : In (Z.to_nat v) (seq 0 64)) by (apply in_seq; lia). specialize (H Hin). bools. done.
Qed.

Lemma list_ind3 {A} (P : list A -> Prop) :
  P [] -> (forall a, P [a]) -> (forall a b, P [a; b]) -> (forall a b c r, P r -> P (a :: b :: c :: r)) -> forall l, P l.
Proof.
  intros H0 H1 H2 H3. assert (H : forall l, P l /\ (forall a, P (a :: l)) /\ forall a b, P (a :: b :: l)); [|intros l; apply H].
  induction l as [|x l (IH0 & IH1 & IH2)]; split_and!; auto.
Qed.

(** Sums of two parts of a byte. *)
Ltac byte_arith := Z.div_mod_to_equations; lia.

Lemma code_split c : exists v, c = chr v /\ 0 <= v < 256.
Proof. exists (code c). split; [by rewrite chr_code | apply code_bound]. Qed.

(** Decoding gives back the encoded bytes. *)
Lemma decode_encode64 l : decode64 (encode64 l) = l /\ forallb is_base64 (encode64 l) = true.
Proof.
  unfold decode64. induction l as [|a|a b|a b c r IH] using list_ind3; [done|..];
    repeat match goal with x : ascii |- _ => let v := fresh "v" in let H := fresh "Hv" in
      destruct (code_split x) as (v & -> & H) end; cbn [encode64 sextets];
    rewrite ?code_chr by done.
  all: repeat match goal with |- context [enc6 ?v] =>
    let H1 := fresh in let H2 := fresh in
    destruct (enc6_spec v ltac:(byte_arith)) as [H1 H2]; generalize dependent (enc6 v); intros end.
  all: repeat match goal with H : dec6 _ = Some _ |- _ => rewrite H; clear H end; cbn [join6 forallb];
    repeat match goal with H : is_base64 _ = true |- _ => rewrite H; clear H end;
    change (dec6 "=") with (@None Z); cbn [join6 forallb].
  all: split; [|first [done | apply IH]]; repeat f_equal; try byte_arith; apply IH.
Qed.

Lemma encode_length l : exists k, length (encode64 l) = (4 * k)%nat /\ (l <> [] -> (0 < k)%nat).
Proof.
  induction l as [|a|a b|a b c r (k & E & _)] using list_ind3.
  - exists 0%nat. split; [done | intros H; by destruct H].
  - exists 1%nat. split; [done | lia].
  - exists 1%nat. split; [done | lia].
  - exists (S k). cbn [encode64 length]. split; [lia | lia].
Qed.

Lemma base64_not_ws c : is_base64 c = true -> is_ws c = false.
Proof. destruct c as [[] [] [] [] [] [] [] []]; vm_compute; done. Qed.

Lemma drop_while_none {A} (p : A -> bool) l : match l with [] => True | c :: _ => p c = false end -> drop_while p l = l.
Proof. destruct l as [|c r]; [done|]. cbn [drop_while]. by intros ->. Qed.

(** There is nothing to trim of a base64 text. *)
Lemma trim_base64 l : forallb is_base64 l = true -> trim_chars l = l.
Proof.
  intros Hl. rewrite forallb_forall in Hl.
  assert (H : forall m : list ascii, (forall c, In c m -> In c l) -> drop_while is_ws m = m).
  { intros m Hm. apply drop_while_none. destruct m as [|c r]; [done|]. apply base64_not_ws, Hl, Hm. by left. }
  unfold trim_chars. rewrite (H l) by done. rewrite (H (rev l)) by (intros c; apply in_rev). apply rev_involutive.
Qed.

(** ** Text *)

(** White space of code points: [\s] and what [trim] removes. *)
Definition isSpace (c : Z) : bool :=
  (9 <=? c) && (c <=? 13) || (c =? 32) || (c =? 160) || (c =? 5760) || (8192 <=? c) && (c <=? 8202) ||
  (c =? 8232) || (c =? 8233) || (c =? 8239) || (c =? 8287) || (c =? 12288) || (c =? 65279).

Definition trim_text (l : list Z) : list Z := rev (drop_while isSpace (rev (drop_while isSpace l))).

(** [s.length]: UTF-16 code units. *)
Definition units (p : Z) : Z := if p <? 65536 then 1 else 2.
Definition length16 (t : list Z) : Z := zsum (map units t).

Lemma length16_app a b : length16 (a ++ b) = length16 a + length16 b.
Proof. unfold length16. by rewrite map_app, zsum_app. Qed.

Lemma length16_cons c r : length16 (c :: r) = units c + length16 r.
Proof. unfold length16. cbn [map]. by rewrite zsum_cons. Qed.

Lemma length16_nonneg t : 0 <= length16 t.
Proof. induction t as [|c r IH]; [done|]. rewrite length16_cons. unfold units. case_match; lia. Qed.

(** ** UTF-8 *)

(** The bytes of a code point. *)
Definition utf8 (p : Z) : list ascii :=
  if p <? 128 then [chr p]
  else if p <? 2048 then [chr (192 + p / 64); chr (128 + p mod 64)]
  else if p <? 65536 then [chr (224 + p / 4096); chr (128 + p / 64 mod 64); chr (128 + p mod 64)]
  else [chr (240 + p / 262144); chr (128 + p / 4096 mod 64); chr (128 + p / 64 mod 64); chr (128 + p mod 64)].

Definition utf8_bytes (text : list Z) : list ascii := concat (map utf8 text).

(** The decoder of the encoding standard: bytes that begin no sequence, and
    sequences that break off, give U+FFFD.  [needed] bytes are still to come for
    [cp]; the next one lies between [lo] and [hi].  [start] is delayed, so that it is
    computed only where it is used. *)
Fixpoint utf8_decode (l : list ascii) (needed : nat) (cp lo hi : Z) : list Z :=
  match l with
  | [] => match needed with O => [] | _ => [65533] end
  | c :: r =>
      let b := code c in
      let start (_ : unit) :=
        if b <? 128 then b :: utf8_decode r 0 0 128 191
        else if (194 <=? b) && (b <=? 223) then utf8_decode r 1 (b - 192) 128 191
        else if (224 <=? b) && (b <=? 239) then
          utf8_decode r 2 (b - 224) (if b =? 224 then 160 else 128) (if b =? 237 then 159 else 191)
        else if (240 <=? b) && (b <=? 244) then
          utf8_decode r 3 (b - 240) (if b =? 240 then 144 else 128) (if b =? 244 then 143 else 191)
        else 65533 :: utf8_decode r 0 0 128 191 in
      match needed with
      | O => start tt
      | S n =>
          if (lo <=? b) && (b <=? hi) then
            let cp := cp * 64 + (b - 128) in
            match n with
            | O => cp :: utf8_decode r 0 0 128 191
            | _ => utf8_decode r n cp 128 191
            end
          else 65533 :: start tt
      end
  end.

Definition of_utf8 (l : list ascii) : list Z := utf8_decode l 0 0 128 191.

(** Code points that are not surrogates. *)
Definition scalar (p : Z) : bool := (0 <=? p) && (p <? 55296) || (57344 <=? p) && (p <? 1114112).

(** A continuation byte is one of six bits. *)
Lemma utf8_step n b r cp lo hi :
  0 <= b < 64 -> lo <= 128 + b <= hi ->
  utf8_decode (chr (128 + b) :: r) (S n) cp lo hi =
  match n with O => (cp * 64 + b) :: utf8_decode r 0 0 128 191 | _ => utf8_decode r n (cp * 64 + b) 128 191 end.
Proof.
  intros Hb Hr. cbn [utf8_decode]. rewrite code_chr by lia.
  rewrite (proj2 (Z.leb_le lo _)), (proj2 (Z.leb_le _ hi)) by lia. cbn [andb]. replace (128 + b - 128) with b by lia. done.
Qed.

(** A leading byte tells how many follow. *)
Lemma utf8_lead b r cp lo hi :
  (0 <= b < 128 -> utf8_decode (chr b :: r) 0 cp lo hi = b :: utf8_decode r 0 0 128 191) /\
  (194 <= b <= 223 -> utf8_decode (chr b :: r) 0 cp lo hi = utf8_decode r 1 (b - 192) 128 191) /\
  (224 <= b <= 239 -> utf8_decode (chr b :: r) 0 cp lo hi =
    utf8_decode r 2 (b - 224) (if b =? 224 then 160 else 128) (if b =? 237 then 159 else 191)) /\
  (240 <= b <= 244 -> utf8_decode (chr b :: r) 0 cp lo hi =
    utf8_decode r 3 (b - 240) (if b =? 240 then 144 else 128) (if b =? 244 then 143 else 191)).
Proof.
  split_and!; intros Hb; cbn [utf8_decode]; rewrite code_chr by lia.
  - by rewrite (proj2 (Z.ltb_lt b 128)) by lia.
  - rewrite (proj2 (Z.ltb_ge b 128)), (proj2 (Z.leb_le 194 b)), (proj2 (Z.leb_le b 223)) by lia. done.
  - rewrite (proj2 (Z.ltb_ge b 128)), (proj2 (Z.leb_le 194 b)), (proj2 (Z.leb_gt b 223)),
      (proj2 (Z.leb_le 224 b)), (proj2 (Z.leb_le b 239)) by lia. done.
  - rewrite (proj2 (Z.ltb_ge b 128)), (proj2 (Z.leb_le 194 b)), (proj2 (Z.leb_gt b 223)),
      (proj2 (Z.leb_le 224 b)), (proj2 (Z.leb_gt b 239)), (proj2 (Z.leb_le 240 b)), (proj2 (Z.leb_le b 244)) by lia. done.
Qed.

Lemma of_utf8_cons p r : scalar p = true -> of_utf8 (utf8 p ++ r) = p :: of_utf8 r.
Proof.
  intros Hp. unfold scalar in Hp. assert (H : 0 <= p < 55296 \/ 57344 <= p < 1114112).
  { apply orb_true_iff in Hp as [Hp|Hp]; bools; lia. }
  clear Hp. unfold of_utf8, utf8.
  pose proof (Z.div_mod p 64 ltac:(done)) as E0. pose proof (Z.mod_pos_bound p 64 ltac:(done)) as B0.
  replace (p / 4096) with (p / 64 / 64) by (by rewrite Z.div_div).
  replace (p / 262144) with (p / 64 / 64 / 64) by (by rewrite !Z.div_div).
  set (q := p / 64) in *. set (x := p mod 64) in *. clearbody q x.
  pose proof (Z.div_mod q 64 ltac:(done)) as E1. pose proof (Z.mod_pos_bound q 64 ltac:(done)) as B1.
  set (q1 := q / 64) in *. set (y := q mod 64) in *. clearbody q1 y.
  pose proof (Z.div_mod q1 64 ltac:(done)) as E2. pose proof (Z.mod_pos_bound q1 64 ltac:(done)) as B2.
  set (q2 := q1 / 64) in *. set (z := q1 mod 64) in *. clearbody q2 z.
  destruct (Z.ltb_spec p 128); [|destruct (Z.ltb_spec p 2048); [|destruct (Z.ltb_spec p 65536)]]; cbn [app].
  - by rewrite (proj1 (utf8_lead p r 0 128 191)) by lia.
  - rewrite (proj1 (proj2 (utf8_lead _ _ 0 128 191))), utf8_step by lia. f_equal. lia.
  - rewrite (proj1 (proj2 (proj2 (utf8_lead _ _ 0 128 191)))) by lia. rewrite utf8_step.
    + rewrite utf8_step by lia. f_equal. lia.
    + lia.
    + destruct (Z.eqb_spec (224 + q1) 224), (Z.eqb_spec (224 + q1) 237); lia.
  - rewrite (proj2 (proj2 (proj2 (utf8_lead _ _ 0 128 191)))) by lia. rewrite utf8_step.
    + rewrite !utf8_step by lia. f_equal. lia.
    + lia.
    + destruct (Z.eqb_spec (240 + q2) 240), (Z.eqb_spec (240 + q2) 244); lia.
Qed.

Lemma of_utf8_bytes text : forallb scalar text = true -> of_utf8 (utf8_bytes text) = text.
Proof.
  unfold utf8_bytes. induction text as [|p r IH]; [done|]. cbn [forallb map concat]. intros H. bools.
  rewrite of_utf8_cons by done. f_equal. by apply IH.
Qed.

End Codec.
