(* ===== verification/Json.v ===== *)
(** * JSON text

    [JSON.stringify] and [JSON.parse], which the code uses for cards and messages,
    on lists of code points.  The text of a number is the business of
    [NumberText]; whole numbers are an instance. *)

From Stdlib Require Import ZArith Lia Bool Ascii String List.
From stdpp Require Import base decidable list.
From S2P Require Import Prelude Codec.
Import Codec.
Local Open Scope Z_scope.

Module Json.

(** The characters of a numeral. *)
Definition is_num_char (c : Z) : bool :=
  (48 <=? c) && (c <=? 57) || (c =? 43) || (c =? 45) || (c =? 46) || (c =? 69) || (c =? 101).

(** Numbers with the text that [JSON.stringify] gives them. *)
Class NumberText (N : Type) := {
  print_num : N -> list Z;
  parse_num : list Z -> option N;
  print_chars : forall n, forallb is_num_char (print_num n) = true;
  print_nonnil : forall n, print_num n <> [];
  parse_print : forall n, parse_num (print_num n) = Some n
}.

Section Json.
Context {N : Type}.

Inductive json :=
| JNull
| JBool (b : bool)
| JNum (n : N)
| JStr (s : list Z)
| JArr (l : list json)
| JObj (l : list (list Z * json)).

(** The ASCII text of a literal. *)
Definition lit (s : string) : list Z := map code (chars s).

Definition hex_digit (v : Z) : Z := if v <? 10 then 48 + v else 87 + v.

Definition escape (c : Z) : list Z :=
  if c =? 34 then lit "\" ++ [34]
  else if c =? 92 then lit "\\"
  else if c =? 8 then lit "\b"
  else if c =? 12 then lit "\f"
  else if c =? 10 then lit "\n"
  else if c =? 13 then lit "\r"
  else if c =? 9 then lit "\t"
  else if c <? 32 then lit "\u00" ++ [hex_digit (c / 16); hex_digit (c mod 16)]
  else [c].

Definition quote (s : list Z) : list Z := 34 :: concat (map escape s) ++ [34].

Context `{!NumberText N}.

Fixpoint commas (l : list (list Z)) : list Z :=
  match l with
  | [] => []
  | [x] => x
  | x :: r => x ++ 44 :: commas r
  end.

(** [JSON.stringify(value)] *)
Fixpoint stringify (v : json) : list Z :=
  match v with
  | JNull => lit "null"
  | JBool true => lit "true"
  | JBool false => lit "false"
  | JNum n => print_num n
  | JStr s => quote s
  | JArr l => 91 :: commas (map stringify l) ++ [93]
  | JObj l => 123 :: commas (map (fun kv => quote kv.1 ++ 58 :: stringify kv.2) l) ++ [125]
  end.

(** ** Parsing *)

Definition json_ws (c : Z) : bool := (c =? 32) || (c =? 9) || (c =? 10) || (c =? 13).

Definition skip (l : list Z) : list Z := drop_while json_ws l.

Fixpoint expect (p l : list Z) : option (list Z) :=
  match p, l with
  | [], _ => Some l
  | a :: p, b :: r => if a =? b then expect p r else None
  | _ :: _, [] => None
  end.

Definition hex_value (c : Z) : option Z :=
  if (48 <=? c) && (c <=? 57) then Some (c - 48)
  else if (97 <=? c) && (c <=? 102) then Some (c - 87)
  else if (65 <=? c) && (c <=? 70) then Some (c - 55)
  else None.

Definition hex4 (l : list Z) : option (Z * list Z) :=
  match l with
  | a :: b :: c :: d :: r =>
      match hex_value a, hex_value b, hex_value c, hex_value d with
      | Some a, Some b, Some c, Some d => Some (((a * 16 + b) * 16 + c) * 16 + d, r)
      | _, _, _, _ => None
      end
  | _ => None
  end.

(** The characters of a string up to its quote; a surrogate pair of escapes is one
    code point. *)
Definition add_unit (u : Z) (rest : list Z) : list Z :=
  match rest with
  | v :: r => if (55296 <=? u) && (u <? 56320) && (56320 <=? v) && (v <? 57344)
              then (65536 + (u - 55296) * 1024 + (v - 56320)) :: r else u :: rest
  | [] => [u]
  end.

Fixpoint parse_chars (fuel : nat) (l : list Z) : option (list Z * list Z) :=
  match fuel with
  | O => None
  | S f =>
      match l with
      | [] => None
      | c :: r =>
          if c =? 34 then Some ([], r)
          else if c =? 92 then
            match r with
            | [] => None
            | e :: r =>
                if e =? 117 then
                  match hex4 r with
                  | Some (u, r) => match parse_chars f r with Some (s, r) => Some (add_unit u s, r) | None => None end
                  | None => None
                  end
                else
                  match (if e =? 34 then Some 34 else if e =? 92 then Some 92 else if e =? 47 then Some 47
                         else if e =? 98 then Some 8 else if e =? 102 then Some 12 else if e =? 110 then Some 10
                         else if e =? 114 then Some 13 else if e =? 116 then Some 9 else None) with
                  | Some x => match parse_chars f r with Some (s, r) => Some (x :: s, r) | None => None end
                  | None => None
                  end
            end
          else if c <? 32 then None
          else match parse_chars f r with Some (s, r) => Some (c :: s, r) | None => None end
      end
  end.

Fixpoint take_num (l : list Z) : list Z * list Z :=
  match l with
  | c :: r => if is_num_char c then let '(a, b) := take_num r in (c :: a, b) else ([], l)
  | [] => ([], [])
  end.

(** A value, the elements of an array behind the first bracket or comma, and the
    members of an object. *)
Fixpoint parse_value (fuel : nat) (l : list Z) : option (json * list Z) :=
  match fuel with
  | O => None
  | S f =>
      match skip l with
      | [] => None
      | (c :: r) as l =>
          if c =? 34 then match parse_chars (length r) r with Some (s, r) => Some (JStr s, r) | None => None end
          else if c =? 91 then
            match skip r with
            | 93 :: r' => Some (JArr [], r')
            | _ => match parse_elems f r with Some (vs, r) => Some (JArr vs, r) | None => None end
            end
          else if c =? 123 then
            match skip r with
            | 125 :: r' => Some (JObj [], r')
            | _ => match parse_members f r with
                   | Some (kvs, r) => Some (JObj (fold_left (fun m kv => map_set kv.1 kv.2 m) kvs []), r)
                   | None => None
                   end
            end
          else if c =? 110 then match expect (lit "null") l with Some r => Some (JNull, r) | None => None end
          else if c =? 116 then match expect (lit "true") l with Some r => Some (JBool true, r) | None => None end
          else if c =? 102 then match expect (lit "false") l with Some r => Some (JBool false, r) | None => None end
          else let '(num, r) := take_num l in
               match parse_num num with Some n => Some (JNum n, r) | None => None end
      end
  end
with parse_elems (fuel : nat) (l : list Z) : option (list json * list Z) :=
  match fuel with
  | O => None
  | S f =>
      match parse_value f l with
      | None => None
      | Some (v, r) =>
          match skip r with
          | 44 :: r => match parse_elems f r with Some (vs, r) => Some (v :: vs, r) | None => None end
          | 93 :: r => Some ([v], r)
          | _ => None
          end
      end
  end
with parse_members (fuel : nat) (l : list Z) : option (list (list Z * json) * list Z) :=
  match fuel with
  | O => None
  | S f =>
      match skip l with
      | 34 :: r =>
          match parse_chars (length r) r with
          | None => None
          | Some (k, r) =>
              match skip r with
              | 58 :: r =>
                  match parse_value f r with
                  | None => None
                  | Some (v, r) =>
                      match skip r with
                      | 44 :: r => match parse_members f r with Some (kvs, r) => Some ((k, v) :: kvs, r) | None => None end
                      | 125 :: r => Some ([(k, v)], r)
                      | _ => None
                      end
                  end
              | _ => None
              end
          end
      | _ => None
      end
  end.

(** [JSON.parse(text)]: two rounds per character are enough. *)
Definition parse (l : list Z) : option json :=
  match parse_value (2 * length l + 1) l with
  | Some (v, r) => match skip r with [] => Some v | _ => None end
  | None => None
  end.

(** ** Reading back what was printed *)

Lemma json_rect' (P : json -> Prop) :
  P JNull -> (forall b, P (JBool b)) -> (forall n, P (JNum n)) -> (forall s, P (JStr s)) ->
  (forall l, Forall P l -> P (JArr l)) -> (forall l, Forall (fun kv => P kv.2) l -> P (JObj l)) -> forall v, P v.
Proof.
  intros H1 H2 H3 H4 H5 H6. fix IH 1. intros [|b|n|s|l|l]; [exact H1 | apply H2 | apply H3 | apply H4 | |].
  - apply H5. induction l as [|v l IHl]; constructor; [apply IH | done].
  - apply H6. induction l as [|[k v] l IHl]; constructor; [apply IH | done].
Qed.

(** Text without lone surrogates. *)
Definition ok_text (s : list Z) : Prop := forallb scalar s = true.

(** Values whose text is read back: no object has a name twice. *)
Fixpoint wf (v : json) : Prop :=
  match v with
  | JStr s => ok_text s
  | JArr l => (fix all l := match l with [] => True | v :: r => wf v /\ all r end) l
  | JObj l => NoDup l.*1 /\
      (fix all l := match l with [] => True | (k, v) :: r => ok_text k /\ wf v /\ all r end) l
  | _ => True
  end.

Lemma wf_arr l : wf (JArr l) <-> Forall wf l.
Proof. cbn [wf]. induction l as [|v l IH]; [done|]. rewrite Forall_cons, <- IH. done. Qed.

Lemma wf_obj l : wf (JObj l) <-> NoDup l.*1 /\ Forall (fun kv => ok_text kv.1 /\ wf kv.2) l.
Proof.
  cbn [wf]. apply and_iff_compat_l. induction l as [|[k v] l IH]; [done|]. rewrite Forall_cons, <- IH. cbn. tauto.
Qed.

Lemma scalar_nonneg c : scalar c = true -> 0 <= c.
Proof. unfold scalar. intros H. apply orb_true_iff in H as [H|H]; bools; lia. Qed.

Lemma hex_value_digit v : 0 <= v < 16 -> hex_value (hex_digit v) = Some v.
Proof.
  intros Hv. assert (H : forallb (fun n => bool_decide (hex_value (hex_digit (Z.of_nat n)) = Some (Z.of_nat n))) (seq 0 16) = true)
    by (vm_compute; reflexivity).
  rewrite forallb_forall in H. specialize (H (Z.to_nat v)). rewrite Z2Nat.id in H by lia.
  specialize (H ltac:(apply in_seq; lia)). by bools.
Qed.

Lemma parse_char f c r : 0 <= c -> parse_chars (S f) (escape c ++ r) =
  match parse_chars f r with Some (s, r) => Some (c :: s, r) | None => None end.
Proof.
  intros Hc. unfold escape.
  destruct (Z.eqb_spec c 34) as [->|]; [done|]. destruct (Z.eqb_spec c 92) as [->|]; [done|].
  destruct (Z.eqb_spec c 8) as [->|]; [done|]. destruct (Z.eqb_spec c 12) as [->|]; [done|].
  destruct (Z.eqb_spec c 10) as [->|]; [done|]. destruct (Z.eqb_spec c 13) as [->|]; [done|].
  destruct (Z.eqb_spec c 9) as [->|]; [done|]. destruct (Z.ltb_spec c 32).
  - change (lit "\u00" ++ [hex_digit (c / 16); hex_digit (c mod 16)]) with [92; 117; 48; 48; hex_digit (c / 16); hex_digit (c mod 16)].
    cbn [app]. cbn [parse_chars]. cbn [Z.eqb Pos.eqb hex4].
    rewrite !hex_value_digit by byte_arith. change (hex_value 48) with (Some 0). cbv iota beta.
    replace (((0 * 16 + 0) * 16 + c / 16) * 16 + c mod 16) with c by byte_arith.
    destruct (parse_chars f r) as [[[|v s] r']|]; [done | | done].
    unfold add_unit. by rewrite (proj2 (Z.leb_gt 55296 c)) by lia.
  - cbn [app parse_chars]. rewrite (proj2 (Z.eqb_neq c 34)), (proj2 (Z.eqb_neq c 92)), (proj2 (Z.ltb_ge c 32)) by done. done.
Qed.

Lemma parse_chars_quote s f r :
  ok_text s -> (length s < f)%nat -> parse_chars f (concat (map escape s) ++ 34 :: r) = Some (s, r).
Proof.
  revert f. induction s as [|c s IH]; intros f Hs Hf; (destruct f as [|f]; [simpl in Hf; lia|]); [done|].
  unfold ok_text in *. cbn [forallb] in Hs. apply andb_true_iff in Hs as [Hc%scalar_nonneg Hs].
  cbn [map concat]. rewrite <- app_assoc, parse_char by done. rewrite IH by (done || simpl in Hf; lia). done.
Qed.

Lemma escape_nonnil c : (0 < length (escape c))%nat.
Proof. unfold escape. repeat case_match; cbn; lia. Qed.

Lemma length_escapes s : (length s <= length (concat (map escape s)))%nat.
Proof.
  induction s as [|c s IH]; [done|]. cbn [map concat length]. rewrite length_app. pose proof (escape_nonnil c). lia.
Qed.

(** The text behind a string. *)
Lemma parse_quote s r :
  ok_text s -> exists t, quote s ++ r = 34 :: t /\ parse_chars (length t) t = Some (s, r).
Proof.
  intros Hs. unfold quote. cbn [app]. rewrite <- app_assoc. eexists. split; [done|]. apply parse_chars_quote; [done|].
  rewrite length_app. simpl. pose proof (length_escapes s). lia.
Qed.

Lemma take_num_app a r : forallb is_num_char a = true -> match r with [] => True | c :: _ => is_num_char c = false end ->
  take_num (a ++ r) = (a, r).
Proof.
  intros Ha Hr. induction a as [|c a IH]; cbn [app take_num].
  - destruct r as [|c r]; [done|]. cbn [take_num]. by rewrite Hr.
  - cbn [forallb] in Ha. apply andb_true_iff in Ha as [Hc Ha]. by rewrite Hc, (IH Ha).
Qed.

Lemma map_set_all (l m : list (list Z * json)) :
  NoDup (m ++ l).*1 -> fold_left (fun m kv => map_set kv.1 kv.2 m) l m = m ++ l.
Proof.
  revert m. induction l as [|[k v] l IH]; intros m Hnd; cbn [fold_left]; [by rewrite app_nil_r|].
  rewrite map_set_absent.
  - rewrite IH by (by rewrite <- app_assoc). by rewrite <- app_assoc.
  - apply map_get_None. intros Hk. rewrite fmap_app in Hnd. apply NoDup_app in Hnd as (_ & Hd & _). apply (Hd k Hk). by left.
Qed.

(** What may follow a value inside a text. *)
Definition follows (r : list Z) : Prop := match r with [] => True | c :: _ => is_num_char c = false /\ json_ws c = false end.

Definition num_first (c : Z) : Prop := c <> 34 /\ c <> 91 /\ c <> 123 /\ c <> 110 /\ c <> 116 /\ c <> 102 /\ json_ws c = false.

Lemma num_char_first c : is_num_char c = true -> num_first c.
Proof.
  unfold is_num_char, num_first, json_ws. intros H. repeat (apply orb_true_iff in H as [H|H]); bools; split_and!; try lia;
    repeat (apply orb_false_iff; split); apply Z.eqb_neq; lia.
Qed.

Lemma skip_follows c r : json_ws c = false -> skip (c :: r) = c :: r.
Proof. unfold skip. cbn [drop_while]. by intros ->. Qed.

Lemma stringify_head v : exists c r, stringify v = c :: r /\ json_ws c = false /\ c <> 93 /\ c <> 125.
Proof.
  destruct v as [|[]|n|s|l|l]; try (eexists _, _; split; [done | split_and!; (done || lia)]).
  cbn [stringify]. pose proof (print_chars n) as Hc. pose proof (print_nonnil n) as Hn. destruct (print_num n) as [|c r]; [done|].
  cbn [forallb] in Hc. apply andb_true_iff in Hc as [Hc _]. exists c, r. split; [done|].
  assert (H1 : is_num_char 93 = false) by done. assert (H2 : is_num_char 125 = false) by done.
  pose proof (num_char_first c Hc) as H. unfold num_first in H. split_and!; [tauto | congruence..].
Qed.

(** The parsers on what [stringify] prints, with two rounds of fuel per character. *)
Definition reads (v : json) : Prop :=
  forall fuel r, (2 * length (stringify v) <= fuel)%nat -> follows r -> parse_value fuel (stringify v ++ r) = Some (v, r).

Lemma follows_sep c r : In c [44; 93; 125] -> follows (c :: r).
Proof. intros H. simpl in H. by destruct H as [<-|[<-|[<-|[]]]]. Qed.

Lemma reads_elems l v fuel r :
  reads v -> Forall reads l -> (2 * length (commas (map stringify (v :: l))) + 1 <= fuel)%nat ->
  parse_elems fuel (commas (map stringify (v :: l)) ++ 93 :: r) = Some (v :: l, r).
Proof.
  intros Hv Hl. revert v Hv fuel. induction Hl as [|w l Hw Hl IH]; intros v Hv fuel Hf; (destruct fuel as [|f]; [lia|]); cbn [parse_elems].
  - cbn [map commas] in *. rewrite Hv; [|lia|apply follows_sep; simpl; tauto]. by rewrite skip_follows.
  - change (commas (map stringify (v :: w :: l))) with (stringify v ++ 44 :: commas (map stringify (w :: l))) in *.
    rewrite length_app in Hf. cbn [length] in Hf. rewrite <- app_assoc. cbn [app].
    rewrite Hv; [|lia|apply follows_sep; simpl; tauto]. rewrite skip_follows by done. rewrite IH by (done || lia). done.
Qed.

Definition member (kv : list Z * json) : list Z := quote kv.1 ++ 58 :: stringify kv.2.

Lemma reads_members l kv fuel r :
  ok_text kv.1 -> reads kv.2 -> Forall (fun kv => ok_text kv.1 /\ reads kv.2) l ->
  (2 * length (commas (map member (kv :: l))) + 1 <= fuel)%nat ->
  parse_members fuel (commas (map member (kv :: l)) ++ 125 :: r) = Some (kv :: l, r).
Proof.
  intros Hk Hv Hl. revert kv Hk Hv fuel. induction Hl as [|w l [Hwk Hwv] Hl IH]; intros [k v] Hk Hv fuel Hf; cbn [fst snd] in *;
    (destruct fuel as [|f]; [lia|]); cbn [parse_members].
  - cbn [map commas] in *. unfold member in *. cbn [fst snd] in *. rewrite length_app in Hf. cbn [length] in Hf. rewrite <- app_assoc.
    destruct (parse_quote k ((58 :: stringify v) ++ 125 :: r) Hk) as (t & -> & Ht). rewrite skip_follows by done. rewrite Ht.
    cbn [app]. rewrite skip_follows by done. rewrite Hv; [|lia|apply follows_sep; simpl; tauto]. by rewrite skip_follows.
  - change (commas (map member ((k, v) :: w :: l))) with (member (k, v) ++ 44 :: commas (map member (w :: l))) in *.
    unfold member at 1 in Hf. unfold member at 1. cbn [fst snd] in *. rewrite !length_app in Hf. cbn [length] in Hf. rewrite <- !app_assoc.
    destruct (parse_quote k ((58 :: stringify v) ++ (44 :: commas (map member (w :: l))) ++ 125 :: r) Hk) as (t & -> & Ht).
    rewrite skip_follows by done. rewrite Ht. cbn [app]. rewrite skip_follows by done.
    rewrite Hv; [|lia|apply follows_sep; simpl; tauto]. rewrite skip_follows by done. rewrite IH by (done || lia). done.
Qed.

Lemma parse_value_array f l r :
  parse_value (S f) (91 :: commas (map stringify l) ++ 93 :: r) =
  match l with
  | [] => Some (JArr [], r)
  | _ => match parse_elems f (commas (map stringify l) ++ 93 :: r) with Some (vs, r) => Some (JArr vs, r) | None => None end
  end.
Proof.
  destruct l as [|v l]; [done|]. destruct (stringify_head v) as (c & t & E & Hws & H93 & _).
  assert (Hh : exists t', commas (map stringify (v :: l)) ++ 93 :: r = c :: t').
  { destruct l; cbn [map commas]; rewrite E; cbn [app]; eauto. }
  destruct Hh as [t' ->]. cbn [parse_value]. rewrite (skip_follows 91), (skip_follows c) by done. cbn [Z.eqb Pos.eqb].
  destruct c as [|p|p]; [done| |done]. repeat (destruct p as [p|p|]; try done).
Qed.

Lemma parse_value_object f l r :
  parse_value (S f) (123 :: commas (map member l) ++ 125 :: r) =
  match l with
  | [] => Some (JObj [], r)
  | _ => match parse_members f (commas (map member l) ++ 125 :: r) with
         | Some (kvs, r) => Some (JObj (fold_left (fun m kv => map_set kv.1 kv.2 m) kvs []), r)
         | None => None
         end
  end.
Proof.
  destruct l as [|v l]; [done|].
  assert (Hh : exists t', commas (map member (v :: l)) ++ 125 :: r = 34 :: t').
  { unfold member, quote. destruct l; cbn [map commas app]; eauto. }
  destruct Hh as [t' ->]. cbn [parse_value]. rewrite (skip_follows 123), (skip_follows 34) by done. done.
Qed.

Lemma reads_all v : wf v -> reads v.
Proof.
  induction v as [|b|n|s|l IH|l IH] using json_rect'; intros Hwf fuel r Hf Hr.
  - destruct fuel as [|f]; [cbn in Hf; lia|]. reflexivity.
  - destruct fuel as [|f]; [destruct b; cbn in Hf; lia|]. destruct b; reflexivity.
  - cbn [stringify] in *. pose proof (print_chars n) as Hc. pose proof (print_nonnil n) as Hn. pose proof (parse_print n) as Hp.
    destruct (print_num n) as [|c t] eqn:E; [done|]. destruct fuel as [|f]; [cbn in Hf; lia|].
    assert (Hfirst : num_first c). { cbn [forallb] in Hc. apply andb_true_iff in Hc as [Hc _]. by apply num_char_first. }
    destruct Hfirst as (H1 & H2 & H3 & H4 & H5 & H6 & H7). cbn [app parse_value]. rewrite skip_follows by done.
    rewrite (proj2 (Z.eqb_neq c 34)), (proj2 (Z.eqb_neq c 91)), (proj2 (Z.eqb_neq c 123)), (proj2 (Z.eqb_neq c 110)),
      (proj2 (Z.eqb_neq c 116)), (proj2 (Z.eqb_neq c 102)) by done.
    change (c :: t ++ r) with ((c :: t) ++ r). rewrite take_num_app, Hp; [done|done|]. destruct r; [done | apply Hr].
  - destruct fuel as [|f]; [cbn in Hf; lia|]. cbn [stringify]. destruct (parse_quote s r Hwf) as (t & -> & Ht).
    cbn [parse_value]. rewrite skip_follows by done. cbn [Z.eqb Pos.eqb]. by rewrite Ht.
  - apply wf_arr in Hwf. cbn [stringify] in *. cbn [length] in Hf. rewrite length_app in Hf. cbn [length] in Hf.
    destruct fuel as [|f]; [lia|]. cbn [app]. rewrite <- app_assoc. cbn [app]. rewrite parse_value_array.
    assert (Hl : Forall reads l). { clear Hf. induction IH; [constructor|]. apply Forall_cons in Hwf as [? ?]. constructor; auto. }
    destruct Hl as [|v l Hv Hl]; [done|]. rewrite reads_elems by (done || lia). done.
  - apply wf_obj in Hwf as [Hnd Hwf]. cbn [stringify] in *. fold member in *. cbn [length] in Hf. rewrite length_app in Hf. cbn [length] in Hf.
    destruct fuel as [|f]; [lia|]. cbn [app]. rewrite <- app_assoc. cbn [app]. rewrite parse_value_object.
    assert (Hl : Forall (fun kv => ok_text kv.1 /\ reads kv.2) l).
    { clear Hf Hnd. induction IH; [constructor|]. apply Forall_cons in Hwf as [[? ?] ?]. constructor; auto. }
    destruct Hl as [|kv l [Hk Hv] Hl]; [done|]. rewrite reads_members by (done || lia). by rewrite map_set_all.
Qed.

Lemma parse_stringify v : wf v -> parse (stringify v) = Some v.
Proof.
  intros Hwf. unfold parse. rewrite <- (app_nil_r (stringify v)) at 2. by rewrite (reads_all v Hwf) by (done || lia).
Qed.

(** ** What is printed is text *)

(** Scalar values without control characters. *)
Definition printed (c : Z) : bool := scalar c && (32 <=? c).

Lemma printed_ascii c : 32 <= c < 128 -> printed c = true.
Proof.
  intros Hc. unfold printed, scalar. apply andb_true_iff. split; [|apply Z.leb_le; lia].
  apply orb_true_iff. left. apply andb_true_iff. rewrite Z.leb_le, Z.ltb_lt. lia.
Qed.

Lemma hex_digit_printed v : 0 <= v < 16 -> printed (hex_digit v) = true.
Proof. intros Hv. apply printed_ascii. unfold hex_digit. destruct (Z.ltb_spec v 10); lia. Qed.

Lemma escape_printed c : scalar c = true -> forallb printed (escape c) = true.
Proof.
  intros Hc. pose proof (scalar_nonneg c Hc). unfold escape. repeat case_match; try done.
  - bools. rewrite forallb_app. apply andb_true_iff. split; [done|]. cbn [forallb]. rewrite !hex_digit_printed by byte_arith. done.
  - bools. cbn [forallb]. unfold printed. rewrite Hc, (proj2 (Z.leb_le 32 c)) by lia. done.
Qed.

Lemma quote_printed s : ok_text s -> forallb printed (quote s) = true.
Proof.
  intros Hs. unfold quote. cbn [forallb]. rewrite forallb_app. apply andb_true_iff. split; [done|]. rewrite andb_true_r.
  unfold ok_text in Hs. induction s as [|c s IH]; [done|]. cbn [map concat forallb] in *. apply andb_true_iff in Hs as [Hc Hs].
  rewrite forallb_app, escape_printed by done. by apply IH.
Qed.

Lemma commas_printed l : Forall (fun t => forallb printed t = true) l -> forallb printed (commas l) = true.
Proof.
  induction 1 as [|t l Ht Hl IH]; [done|]. destruct l as [|u l]; [done|].
  change (commas (t :: u :: l)) with (t ++ 44 :: commas (u :: l)). rewrite forallb_app, Ht. cbn [forallb andb]. exact IH.
Qed.

Lemma stringify_printed v : wf v -> forallb printed (stringify v) = true.
Proof.
  induction v as [|b|n|s|l IH|l IH] using json_rect'; intros Hwf; [done | by destruct b | | by apply quote_printed | |].
  - cbn [stringify]. pose proof (print_chars n) as H. rewrite forallb_forall in H |- *. intros c Hc. specialize (H c Hc).
    unfold is_num_char in H. apply printed_ascii. repeat (apply orb_true_iff in H as [H|H]); bools; lia.
  - apply wf_arr in Hwf. cbn [stringify forallb]. rewrite forallb_app. apply andb_true_iff. split; [done|]. rewrite andb_true_r.
    apply commas_printed. clear -IH Hwf. induction IH; [constructor|]. apply Forall_cons in Hwf as [? ?]. constructor; auto.
  - apply wf_obj in Hwf as [_ Hwf]. cbn [stringify forallb]. rewrite forallb_app. apply andb_true_iff. split; [done|].
    rewrite andb_true_r. apply commas_printed. clear -IH Hwf.
    induction IH as [|[k v] l Hv IHl IH]; [constructor|]. apply Forall_cons in Hwf as [[Hk Hw] ?]. constructor; [|auto].
    cbn [fst snd] in *. rewrite forallb_app, quote_printed by done. cbn [forallb andb]. by apply Hv.
Qed.

Lemma stringify_scalar v : wf v -> forallb scalar (stringify v) = true.
Proof.
  intros Hv%stringify_printed. rewrite forallb_forall in *. intros c Hc. specialize (Hv c Hc). unfold printed in Hv. by bools.
Qed.
End Json.
Arguments json : clear implicits.

(** Whole numbers. *)
Definition print_int (n : Z) : list Z := if n <? 0 then 45 :: map code (dec (- n)) else map code (dec n).

Definition parse_int (l : list Z) : option Z :=
  let '(neg, d) := match l with c :: r => if c =? 45 then (true, r) else (false, l) | [] => (false, l) end in
  let d := map chr d in
  match d with
  | [] => None
  | _ => if forallb is_digit d then Some (if neg then - digits_val d else digits_val d) else None
  end.

Lemma digits_text n : 0 <= n -> forallb is_num_char (map code (dec n)) = true /\ map chr (map code (dec n)) = dec n.
Proof.
  intros Hn. destruct (dec_spec n Hn) as [_ H]. rewrite forallb_forall in H. split.
  - apply forallb_forall. intros c (d & <- & Hd)%in_map_iff. specialize (H d Hd). unfold is_digit in H.
    unfold is_num_char. by rewrite H.
  - rewrite map_map. rewrite <- (map_id (dec n)) at 2. apply map_ext. intros c. apply chr_code.
Qed.

#[export] Program Instance int_text : NumberText Z := {| print_num := print_int; parse_num := parse_int |}.
Next Obligation.
  intros n. unfold print_int. destruct (Z.ltb_spec n 0); [cbn [forallb]; apply andb_true_iff; split; [done|]|]; apply digits_text; lia.
Qed.
Next Obligation.
  intros n. unfold print_int. pose proof (dec_nonnil n). destruct (n <? 0); [done|]. by destruct (dec n).
Qed.
Next Obligation.
  intros n. unfold print_int, parse_int. destruct (Z.ltb_spec n 0) as [Hn|Hn].
  - change (45 =? 45) with true. cbv iota beta. destruct (digits_text (- n)) as [_ ->]; [lia|]. destruct (dec_spec (- n)) as [Hv Hd]; [lia|].
    pose proof (dec_nonnil (- n)). destruct (dec (- n)) eqn:E; [done|]. rewrite Hd, Hv. f_equal. lia.
  - assert (Hsel : match map code (dec n) with c :: r => if c =? 45 then (true, r) else (false, map code (dec n)) | [] => (false, map code (dec n)) end =
      (false, map code (dec n))).
    { destruct (dec_spec n Hn) as [_ Hd]. destruct (dec n) as [|c r]; [done|]. cbn [map]. cbn [forallb] in Hd.
      apply andb_true_iff in Hd as [Hd _]. unfold is_digit in Hd. bools. by rewrite (proj2 (Z.eqb_neq (code c) 45)) by lia. }
    rewrite Hsel. destruct (digits_text n Hn) as [_ ->]. destruct (dec_spec n Hn) as [Hv Hd].
    pose proof (dec_nonnil n). destruct (dec n) eqn:E; [done|]. by rewrite Hd, Hv.
Qed.
End Json.
