(* ===== verification/Frames.v ===== *)
(** * The wire protocol of the plugin runtime
    (packages/contracts/src/pluginRuntime.ts)

    A frame is a routing header of 32 bytes and a payload.  The header and the
    frames are written and read byte by byte; the parser takes the bytes of a pipe
    in whatever pieces they arrive; a control payload is JSON within bounds. *)

From Stdlib Require Import ZArith Lia Bool Ascii String List.
From stdpp Require Import base decidable list.
From S2P Require Import Prelude Codec Json.
Import Codec Json.
Local Open Scope Z_scope.
Local Open Scope js_scope.

Module Frames.

Abbreviation text := (list Z).
Abbreviation bytes := (list ascii).

Definition PLUGIN_RUNTIME_PROTOCOL_VERSION : Z := 1.
Definition PLUGIN_RUNTIME_HEADER_BYTES : Z := 32.
Definition PLUGIN_RUNTIME_MAX_CONTROL_PAYLOAD_BYTES : Z := 64 * 1024.
Definition PLUGIN_RUNTIME_MAX_DATA_PAYLOAD_BYTES : Z := 256 * 1024 * 1024.
Definition PLUGIN_RUNTIME_MAX_JSON_DEPTH : Z := 64.
Definition PLUGIN_RUNTIME_MAX_STRING_BYTES : Z := 32 * 1024.

(** [Number.MAX_SAFE_INTEGER] *)
Definition MAX_SAFE_INTEGER : Z := 2 ^ 53 - 1.

(** [PluginRuntimeFrameType] *)
Definition HELLO : Z := 1.
Definition HELLO_ACK : Z := 2.
Definition WORKER_READY : Z := 4.
Definition WORKER_SPAWN : Z := 5.
Definition WORKER_TERMINATE : Z := 6.
Definition WORKER_TERMINATED : Z := 7.
Definition RPC_REQUEST : Z := 16.
Definition RPC_RESPONSE : Z := 17.
Definition EVENT : Z := 18.
Definition BROKER_REVOKE : Z := 19.
Definition MODULE_GRAPH : Z := 20.
Definition BRIDGE_MESSAGE : Z := 21.
Definition HOST_BRIDGE_MESSAGE : Z := 22.
Definition MODULE_GRAPH_DATA : Z := 23.
Definition RPC_RESPONSE_DATA : Z := 24.
Definition RPC_REQUEST_DATA : Z := 25.
Definition RPC_RESPONSE_STREAM : Z := 26.
Definition LOG_BATCH : Z := 27.
Definition LOG_BATCH_ACK : Z := 28.
Definition FATAL_DIAGNOSTIC : Z := 29.
Definition TELEMETRY : Z := 32.
Definition PING : Z := 33.
Definition PONG : Z := 34.
Definition TERMINATE : Z := 48.
Definition TERMINATE_ACK : Z := 49.
Definition ERROR : Z := 64.

Definition KNOWN_FRAME_TYPES : list Z :=
  [HELLO; HELLO_ACK; WORKER_READY; WORKER_SPAWN; WORKER_TERMINATE; WORKER_TERMINATED; RPC_REQUEST; RPC_RESPONSE;
   EVENT; BROKER_REVOKE; MODULE_GRAPH; BRIDGE_MESSAGE; HOST_BRIDGE_MESSAGE; MODULE_GRAPH_DATA; RPC_RESPONSE_DATA;
   RPC_REQUEST_DATA; RPC_RESPONSE_STREAM; LOG_BATCH; LOG_BATCH_ACK; FATAL_DIAGNOSTIC; TELEMETRY; PING; PONG;
   TERMINATE; TERMINATE_ACK; ERROR].

Definition isKnownFrameType (value : Z) : bool := existsb (Z.eqb value) KNOWN_FRAME_TYPES.

(** [PluginRuntimeProtocolErrorCode] *)
Inductive ProtocolErrorCode :=
| VERSION_MISMATCH
| BAD_HEADER
| FRAME_TOO_LARGE
| BAD_PAYLOAD
| DECODE_DEPTH
| DECODE_STRING.

Record HotHeader := MkHeader {
  protocolVersion : Z;
  frameType : Z;
  flags : Z;
  runtimeEpoch : Z;
  workerId : Z;
  workerEpoch : Z;
  requestId : Z;
  payloadLength : Z
}.

Record Frame := MkFrame { header : HotHeader; payload : bytes }.

Definition size (b : bytes) : Z := Z.of_nat (length b).

(** ** The header *)

(** The [n] bytes that [DataView.setUint8/16/32] and [setBigUint64] write: the
    integer modulo [2 ^ (8 n)], the highest byte first. *)
Fixpoint put (n : nat) (v : Z) : bytes :=
  match n with
  | O => []
  | S n => put n (v / 256) ++ [chr (v mod 256)]
  end.

(** What [getUint8/16/32] and [getBigUint64] read. *)
Definition get (l : bytes) : Z := fold_left (fun acc c => acc * 256 + code c) l 0.

(** The [n] bytes from offset [i]. *)
Definition field_at (i n : nat) (l : bytes) : Z := get (take n (drop i l)).

(** The layout: eight fields and four bytes that stay zero. *)
Definition header_bytes (h : HotHeader) : bytes :=
  put 2 (protocolVersion h) ++ put 1 (frameType h) ++ put 1 (flags h) ++ put 4 (runtimeEpoch h) ++
  put 4 (workerId h) ++ put 4 (workerEpoch h) ++ put 4 (requestId h) ++ put 8 (payloadLength h) ++ repeat NUL 4.

Definition encodeHeader (h : HotHeader) : outcome ProtocolErrorCode bytes :=
  if (protocolVersion h <? 1) || (65535 <? protocolVersion h) then Throw BAD_HEADER
  else if negb (isKnownFrameType (frameType h)) then Throw BAD_HEADER
  else if (MAX_SAFE_INTEGER <? payloadLength h) || (payloadLength h <? 0) then Throw BAD_HEADER
  else Ok (header_bytes h).

Definition parseHeader (b : bytes) : outcome ProtocolErrorCode HotHeader :=
  if size b <? PLUGIN_RUNTIME_HEADER_BYTES then Throw BAD_HEADER
  else if negb (isKnownFrameType (field_at 2 1 b)) then Throw BAD_HEADER
  else if MAX_SAFE_INTEGER <? field_at 20 8 b then Throw FRAME_TOO_LARGE
  else Ok (MkHeader (field_at 0 2 b) (field_at 2 1 b) (field_at 3 1 b) (field_at 4 4 b)
                    (field_at 8 4 b) (field_at 12 4 b) (field_at 16 4 b) (field_at 20 8 b)).

(** ** Whole frames *)

Definition assembleFrame (h : HotHeader) (p : bytes) : outcome ProtocolErrorCode bytes :=
  let? full := encodeHeader (MkHeader (protocolVersion h) (frameType h) (flags h) (runtimeEpoch h)
                                      (workerId h) (workerEpoch h) (requestId h) (size p)) in
  Ok (full ++ p).

Definition splitFrame (b : bytes) : outcome ProtocolErrorCode Frame :=
  if size b <? PLUGIN_RUNTIME_HEADER_BYTES then Throw BAD_HEADER
  else
    let? h := parseHeader (take 32 b) in
    if negb (size b =? PLUGIN_RUNTIME_HEADER_BYTES + payloadLength h) then Throw BAD_HEADER
    else Ok (MkFrame h (drop 32 b)).

Definition encodeDataFrame (h : HotHeader) (p : bytes) : outcome ProtocolErrorCode bytes := assembleFrame h p.
Definition decodeDataFrame (b : bytes) : outcome ProtocolErrorCode Frame := splitFrame b.

(** ** The incremental parser: its state is the buffer *)

Section Parser.
Variable maxPayloadBytes : Z.

(** The loop of [push]: every frame takes at least its header from the buffer.
    What a call throws, it throws with the buffer as it is then. *)
Fixpoint extract (fuel : nat) (buffer : bytes) (frames : list Frame) : bytes * outcome ProtocolErrorCode (list Frame) :=
  match fuel with
  | O => (buffer, Ok frames)
  | S fuel =>
      if size buffer <? PLUGIN_RUNTIME_HEADER_BYTES then (buffer, Ok frames)
      else match parseHeader (take 32 buffer) with
           | Throw e => (buffer, Throw e)
           | Ok h =>
               if maxPayloadBytes <? payloadLength h then (buffer, Throw FRAME_TOO_LARGE)
               else
                 let total := Z.to_nat (PLUGIN_RUNTIME_HEADER_BYTES + payloadLength h) in
                 if size buffer <? PLUGIN_RUNTIME_HEADER_BYTES + payloadLength h then (buffer, Ok frames)
                 else extract fuel (drop total buffer) (frames ++ [MkFrame h (drop 32 (take total buffer))])
           end
  end.

Definition push (buffer chunk : bytes) : bytes * outcome ProtocolErrorCode (list Frame) :=
  if size chunk =? 0 then (buffer, Ok [])
  else
    let merged := buffer ++ chunk in
    let (rest, result) := extract (S (length merged)) merged [] in
    match result with
    | Throw e => (rest, Throw e)
    | Ok frames =>
        if PLUGIN_RUNTIME_HEADER_BYTES + maxPayloadBytes <? size rest then (rest, Throw FRAME_TOO_LARGE)
        else (rest, Ok frames)
    end.

(** Reads of the pipe, one after the other. *)
Fixpoint pushes (buffer : bytes) (chunks : list bytes) : bytes * list (outcome ProtocolErrorCode (list Frame)) :=
  match chunks with
  | [] => (buffer, [])
  | c :: r => let (b, o) := push buffer c in let (b', os) := pushes b r in (b', o :: os)
  end.
End Parser.

(** ** Control payloads: JSON within bounds *)

(** [new TextDecoder().decode(bytes)]: a byte order mark in front is dropped. *)
Definition decode_text (b : bytes) : text :=
  match of_utf8 b with
  | c :: r => if c =? 65279 then r else c :: r
  | [] => []
  end.

(** [new TextEncoder().encode(s).byteLength] *)
Definition utf8_size (s : text) : Z := size (utf8_bytes s).

Section Control.
Context {N : Type} `{!NumberText N}.

Definition encodeControlBody (body : json N) : outcome ProtocolErrorCode bytes :=
  let b := utf8_bytes (stringify body) in
  if PLUGIN_RUNTIME_MAX_CONTROL_PAYLOAD_BYTES <? size b then Throw FRAME_TOO_LARGE else Ok b.

Definition encodeDataBody (body : json N) : outcome ProtocolErrorCode bytes :=
  let b := utf8_bytes (stringify body) in
  if PLUGIN_RUNTIME_MAX_DATA_PAYLOAD_BYTES <? size b then Throw FRAME_TOO_LARGE else Ok b.

(** The values of a tree. *)
Fixpoint nodes (v : json N) : nat :=
  match v with
  | JArr l => S (list_sum (map nodes l))
  | JObj l => S (list_sum (map (fun kv => nodes kv.2) l))
  | _ => 1
  end.

(** The members of an object are pushed until a key is too long; the last pushed
    is the first popped. *)
Fixpoint push_members (l : list (text * json N)) (depth : Z) (stack : list (json N * Z)) :
    outcome ProtocolErrorCode (list (json N * Z)) :=
  match l with
  | [] => Ok stack
  | (k, v) :: r =>
      if PLUGIN_RUNTIME_MAX_STRING_BYTES <? utf8_size k then Throw DECODE_STRING
      else push_members r depth ((v, depth) :: stack)
  end.

Fixpoint bounded_loop (fuel : nat) (stack : list (json N * Z)) : outcome ProtocolErrorCode unit :=
  match fuel, stack with
  | _, [] => Ok tt
  | O, _ => Ok tt
  | S fuel, (value, depth) :: stack =>
      if PLUGIN_RUNTIME_MAX_JSON_DEPTH <? depth then Throw DECODE_DEPTH
      else match value with
           | JStr s =>
               if PLUGIN_RUNTIME_MAX_STRING_BYTES <? utf8_size s then Throw DECODE_STRING else bounded_loop fuel stack
           | JArr l => bounded_loop fuel (fold_left (fun st v => (v, depth + 1) :: st) l stack)
           | JObj l => let? stack := push_members l (depth + 1) stack in bounded_loop fuel stack
           | _ => bounded_loop fuel stack
           end
  end.

(** One round per value of the tree. *)
Definition assertBoundedJson (root : json N) : outcome ProtocolErrorCode unit := bounded_loop (nodes root) [(root, 0)].

Definition decodeControlBody (b : bytes) : outcome ProtocolErrorCode (json N) :=
  if PLUGIN_RUNTIME_MAX_CONTROL_PAYLOAD_BYTES <? size b then Throw FRAME_TOO_LARGE
  else match Json.parse (decode_text b) with
       | None => Throw BAD_PAYLOAD
       | Some parsed => let? _ := assertBoundedJson parsed in Ok parsed
       end.

Definition encodeControlFrame (h : HotHeader) (body : json N) : outcome ProtocolErrorCode bytes :=
  let? b := encodeControlBody body in assembleFrame h b.

Definition decodeControlFrame (b : bytes) : outcome ProtocolErrorCode (Frame * json N) :=
  let? f := splitFrame b in
  let? body := decodeControlBody (payload f) in
  Ok (f, body).

(** The bounds that the loop checks. *)
Fixpoint bounded (depth : Z) (v : json N) : bool :=
  (depth <=? PLUGIN_RUNTIME_MAX_JSON_DEPTH) &&
  match v with
  | JStr s => utf8_size s <=? PLUGIN_RUNTIME_MAX_STRING_BYTES
  | JArr l => forallb (bounded (depth + 1)) l
  | JObj l => forallb (fun kv => (utf8_size kv.1 <=? PLUGIN_RUNTIME_MAX_STRING_BYTES) && bounded (depth + 1) kv.2) l
  | _ => true
  end.
End Control.

(** ** Integers in bytes *)

Lemma length_put n v : length (put n v) = n.
Proof. revert v. induction n as [|n IH]; intros v; [done|]. cbn [put]. rewrite length_app, IH. cbn. lia. Qed.

Lemma get_snoc l c : get (l ++ [c]) = get l * 256 + code c.
Proof. unfold get. by rewrite fold_left_app. Qed.

Lemma get_put n v : get (put n v) = v mod 256 ^ Z.of_nat n.
Proof.
  revert v. induction n as [|n IH]; intros v; [by rewrite Z.mod_1_r|].
  cbn [put]. rewrite get_snoc, IH, code_chr by (apply Z.mod_pos_bound; lia).
  rewrite Nat2Z.inj_succ, Z.pow_succ_r, Z.rem_mul_r by lia. lia.
Qed.

Lemma field_skip p l i n : (length p <= i)%nat -> field_at i n (p ++ l) = field_at (i - length p) n l.
Proof. intros H. unfold field_at. by rewrite drop_app_ge. Qed.

Lemma field_put n v l : field_at 0 n (put n v ++ l) = v mod 256 ^ Z.of_nat n.
Proof. unfold field_at. rewrite drop_0, take_app_le by (by rewrite length_put). rewrite take_ge by (by rewrite length_put). apply get_put. Qed.

Lemma field_take i n k l : (i + n <= k)%nat -> field_at i n (take k l) = field_at i n l.
Proof. intros H. unfold field_at. rewrite skipn_firstn_comm, take_take. f_equal. f_equal. lia. Qed.

(** ** The header *)

(** What is left of a header on the wire: every field modulo its width. *)
Definition on_wire (h : HotHeader) : HotHeader :=
  MkHeader (protocolVersion h) (frameType h) (flags h mod 2 ^ 8) (runtimeEpoch h mod 2 ^ 32)
           (workerId h mod 2 ^ 32) (workerEpoch h mod 2 ^ 32) (requestId h mod 2 ^ 32) (payloadLength h).

Lemma known_byte t : isKnownFrameType t = true -> 0 <= t < 256.
Proof.
  unfold isKnownFrameType. intros (x & Hx & E)%existsb_exists. apply Z.eqb_eq in E as ->.
  assert (F : forallb (fun t => (0 <=? t) && (t <? 256)) KNOWN_FRAME_TYPES = true) by done.
  rewrite forallb_forall in F. specialize (F x Hx). bools. lia.
Qed.

Ltac skip_fields :=
  repeat match goal with
  | |- context [field_at (S ?i) ?n (put ?k ?v ++ ?l)] =>
      rewrite (field_skip (put k v) l (S i) n) by (rewrite length_put; lia); rewrite length_put; cbn [Nat.sub]
  end.

(** Reading back a header, whatever follows it. *)
Lemma parse_encoded h b r : encodeHeader h = Ok b -> size b = 32 /\ parseHeader (b ++ r) = Ok (on_wire h).
Proof.
  unfold encodeHeader. repeat case_match; try done. intros E. assert (b = header_bytes h) as -> by congruence. clear E. bools.
  assert (Hl : size (header_bytes h) = 32).
  { unfold size, header_bytes. rewrite !length_app, !length_put. done. }
  split; [done|]. pose proof (known_byte _ ltac:(eassumption)) as Ht.
  unfold parseHeader. rewrite (proj2 (Z.ltb_ge _ _)) by (unfold size in *; rewrite length_app; unfold PLUGIN_RUNTIME_HEADER_BYTES; lia).
  unfold header_bytes. rewrite <-!app_assoc.
  skip_fields. rewrite !field_put. change (256 ^ Z.of_nat 1) with 256. change (256 ^ Z.of_nat 2) with 65536.
  change (256 ^ Z.of_nat 4) with (2 ^ 32). change (256 ^ Z.of_nat 8) with (2 ^ 64).
  unfold MAX_SAFE_INTEGER in *.
  rewrite (Z.mod_small (protocolVersion h)), (Z.mod_small (frameType h)), (Z.mod_small (payloadLength h)) by lia.
  replace (isKnownFrameType (frameType h)) with true by done. cbn [negb].
  rewrite (proj2 (Z.ltb_ge _ _)) by lia. done.
Qed.

(** ** The parser *)

Section ParserLemmas.
Variable max : Z.
Hypothesis max_nonneg : 0 <= max.

Lemma parsed_length b h : parseHeader b = Ok h -> 0 <= payloadLength h.
Proof.
  unfold parseHeader. repeat case_match; try done. intros E. assert (payloadLength h = field_at 20 8 b) as -> by (by injection E as <-).
  unfold field_at. generalize (take 8 (drop 20 b)). intros l. unfold get.
  assert (G : forall a, 0 <= a -> 0 <= fold_left (fun acc c => acc * 256 + code c) l a).
  { induction l as [|c l IH]; intros a Ha; [done|]. apply IH. unfold code. lia. }
  by apply G.
Qed.

(** All complete frames of a buffer. *)
Definition frames_of (b : bytes) : bytes * outcome ProtocolErrorCode (list Frame) := extract max (S (length b)) b [].

Definition prepend (fs : list Frame) (r : bytes * outcome ProtocolErrorCode (list Frame)) :=
  (fst r, let? gs := snd r in Ok (fs ++ gs)).

Lemma prepend_nil r : prepend [] r = r.
Proof. by destruct r as [b [gs|e]]. Qed.

Lemma prepend_app fs gs r : prepend fs (prepend gs r) = prepend (fs ++ gs) r.
Proof. destruct r as [b [hs|e]]; [|done]. unfold prepend. cbn. by rewrite app_assoc. Qed.

Lemma extract_step fuel fuel' b fs :
  (length b < fuel)%nat -> (length b < fuel')%nat -> extract max fuel b fs = prepend fs (extract max fuel' b []).
Proof.
  revert fuel fuel' fs. induction b as [b IH] using (induction_ltof1 _ (@length ascii)). unfold ltof in IH.
  intros [|n] [|m] fs H H'; try lia. cbn [extract].
  destruct (Z.ltb_spec (size b) PLUGIN_RUNTIME_HEADER_BYTES) as [|Hs]; [unfold prepend; cbn; by rewrite app_nil_r|].
  destruct (parseHeader (take 32 b)) as [h|e] eqn:Eh; [|done].
  destruct (max <? payloadLength h); [done|].
  destruct (Z.ltb_spec (size b) (PLUGIN_RUNTIME_HEADER_BYTES + payloadLength h)) as [|Hb]; [unfold prepend; cbn; by rewrite app_nil_r|].
  pose proof (parsed_length _ _ Eh). unfold size, PLUGIN_RUNTIME_HEADER_BYTES in *.
  set (b' := drop _ b). assert (L : (length b' < length b)%nat) by (unfold b'; rewrite length_drop; lia).
  rewrite (IH b' L n (S (length b'))), (IH b' L m (S (length b')) ([] ++ _)) by lia. by rewrite prepend_app.
Qed.

(** One round of the loop. *)
Lemma frames_of_eq b :
  frames_of b =
  if size b <? PLUGIN_RUNTIME_HEADER_BYTES then (b, Ok [])
  else match parseHeader (take 32 b) with
       | Throw e => (b, Throw e)
       | Ok h =>
           if max <? payloadLength h then (b, Throw FRAME_TOO_LARGE)
           else
             let total := Z.to_nat (PLUGIN_RUNTIME_HEADER_BYTES + payloadLength h) in
             if size b <? PLUGIN_RUNTIME_HEADER_BYTES + payloadLength h then (b, Ok [])
             else prepend [MkFrame h (drop 32 (take total b))] (frames_of (drop total b))
       end.
Proof.
  unfold frames_of at 1. cbn [extract].
  destruct (Z.ltb_spec (size b) PLUGIN_RUNTIME_HEADER_BYTES) as [|Hs]; [done|].
  destruct (parseHeader (take 32 b)) as [h|e] eqn:Eh; [|done]. case_match; [done|]. cbn zeta.
  destruct (Z.ltb_spec (size b) (PLUGIN_RUNTIME_HEADER_BYTES + payloadLength h)) as [|Hb]; [done|].
  pose proof (parsed_length _ _ Eh). unfold size, PLUGIN_RUNTIME_HEADER_BYTES in *.
  apply extract_step; rewrite length_drop; lia.
Qed.
(** More bytes behind a buffer. *)
Lemma push_frames_app b c :
  frames_of (b ++ c) =
  match frames_of b with
  | (r, Ok fs) => prepend fs (frames_of (r ++ c))
  | (r, Throw e) => (r ++ c, Throw e)
  end.
Proof.
  induction b as [b IH] using (induction_ltof1 _ (@length ascii)). unfold ltof in IH.
  rewrite (frames_of_eq b). destruct (Z.ltb_spec (size b) PLUGIN_RUNTIME_HEADER_BYTES) as [|Hs]; [by rewrite prepend_nil|].
  assert (E : take 32 (b ++ c) = take 32 b).
  { apply take_app_le. unfold size, PLUGIN_RUNTIME_HEADER_BYTES in Hs. lia. }
  destruct (parseHeader (take 32 b)) as [h|e] eqn:Eh.
  2:{ rewrite frames_of_eq, E, Eh. rewrite (proj2 (Z.ltb_ge _ _)); [done|]. unfold size in *. rewrite length_app. lia. }
  destruct (Z.ltb_spec max (payloadLength h)) as [Hm|Hm].
  { rewrite frames_of_eq, E, Eh, (proj2 (Z.ltb_lt _ _) Hm).
    rewrite (proj2 (Z.ltb_ge _ _)); [done|]. unfold size in *. rewrite length_app. lia. }
  cbn zeta. destruct (Z.ltb_spec (size b) (PLUGIN_RUNTIME_HEADER_BYTES + payloadLength h)) as [|Hb]; [by rewrite prepend_nil|].
  pose proof (parsed_length _ _ Eh). rewrite (frames_of_eq (b ++ c)), E, Eh, (proj2 (Z.ltb_ge _ _) Hm).
  unfold size, PLUGIN_RUNTIME_HEADER_BYTES in *. rewrite !(proj2 (Z.ltb_ge _ _)) by (rewrite length_app; lia). cbn zeta.
  rewrite drop_app_le, take_app_le by lia. rewrite IH by (rewrite length_drop; lia).
  destruct (frames_of (drop _ b)) as [r [fs|e]]; [|done]. by rewrite prepend_app.
Qed.

(** What is left is an incomplete frame. *)
Lemma frames_settled b r fs : frames_of b = (r, Ok fs) -> frames_of r = (r, Ok []) /\ size r < PLUGIN_RUNTIME_HEADER_BYTES + max.
Proof.
  revert fs. induction b as [b IH] using (induction_ltof1 _ (@length ascii)). unfold ltof in IH. intros fs.
  rewrite frames_of_eq at 1. destruct (Z.ltb_spec (size b) PLUGIN_RUNTIME_HEADER_BYTES) as [Hs|Hs].
  { intros [= <- <-]. split; [|lia]. by rewrite frames_of_eq, (proj2 (Z.ltb_lt _ _) Hs). }
  destruct (parseHeader (take 32 b)) as [h|e] eqn:Eh; [|done].
  destruct (Z.ltb_spec max (payloadLength h)) as [Hm|Hm]; [done|]. cbn zeta.
  destruct (Z.ltb_spec (size b) (PLUGIN_RUNTIME_HEADER_BYTES + payloadLength h)) as [Hb|Hb].
  { intros [= <- <-]. split; [|lia].
    by rewrite frames_of_eq, (proj2 (Z.ltb_ge _ _) Hs), Eh, (proj2 (Z.ltb_ge _ _) Hm), (proj2 (Z.ltb_lt _ _) Hb). }
  pose proof (parsed_length _ _ Eh). set (b' := drop _ b).
  assert (L : (length b' < length b)%nat) by (unfold b', size, PLUGIN_RUNTIME_HEADER_BYTES in *; rewrite length_drop; lia).
  specialize (IH b' L). destruct (frames_of b') as [r' [gs|e]]; [|done]. unfold prepend. cbn. intros [= <- <-]. by eapply IH.
Qed.

(** The check behind the loop never throws. *)
Lemma push_frames b c : frames_of b = (b, Ok []) -> push max b c = frames_of (b ++ c).
Proof.
  intros Hb. unfold push. destruct (Z.eqb_spec (size c) 0) as [Hc|Hc].
  { destruct c; [|done]. by rewrite app_nil_r. }
  cbn zeta. fold (frames_of (b ++ c)). destruct (frames_of (b ++ c)) as [r [fs|e]] eqn:E; [|done].
  apply frames_settled in E as [_ E]. by rewrite (proj2 (Z.ltb_ge _ _)) by lia.
Qed.

(** The pieces do not matter. *)
Lemma pushes_frames cs b r fs :
  frames_of b = (b, Ok []) -> frames_of (b ++ concat cs) = (r, Ok fs) ->
  exists fss, pushes max b cs = (r, map Ok fss) /\ concat fss = fs.
Proof.
  revert b fs. induction cs as [|c cs IH]; intros b fs Hb; cbn [concat pushes].
  { rewrite app_nil_r, Hb. intros [= <- <-]. by exists []. }
  rewrite app_assoc, push_frames_app, push_frames by done.
  destruct (frames_of (b ++ c)) as [r1 [fs1|e]] eqn:E1; [|done].
  apply frames_settled in E1 as [E1 _].
  destruct (frames_of (r1 ++ concat cs)) as [r2 [fs2|e]] eqn:E2; [|done]. unfold prepend. cbn. intros [= <- <-].
  destruct (IH r1 fs2 E1 E2) as (fss & -> & <-). exists (fs1 :: fss). done.
Qed.
End ParserLemmas.

(** A frame and its bytes, when every field fits its width. *)
Definition framed (max : Z) (f : Frame) (w : bytes) : Prop :=
  encodeDataFrame (header f) (payload f) = Ok w /\ on_wire (header f) = header f /\
  payloadLength (header f) = size (payload f) /\ size (payload f) <= max.

Lemma framed_parts max f w : framed max f w ->
  exists b, w = b ++ payload f /\ size b = 32 /\ forall r, parseHeader (b ++ r) = Ok (header f).
Proof.
  destruct f as [h p]. intros (E & W & L & _). cbn [header payload] in *. unfold encodeDataFrame, assembleFrame in E.
  rewrite <-L in E. destruct h as [pv ft fl re wi we ri pl]. cbn [protocolVersion frameType flags runtimeEpoch workerId
    workerEpoch requestId payloadLength] in E. set (h := MkHeader pv ft fl re wi we ri pl) in *.
  destruct (encodeHeader h) as [b|e] eqn:Eb; [|done]. cbn [obind] in E.
  exists b. split; [by injection E as <-|]. split; [by apply (parse_encoded h b [])|].
  intros r. rewrite <-W. by apply parse_encoded.
Qed.

Lemma frames_framed max f w r : 0 <= max -> framed max f w -> frames_of max (w ++ r) = prepend [f] (frames_of max r).
Proof.
  intros Hm Hf. destruct (framed_parts _ _ _ Hf) as (b & -> & Hb & Hp). destruct Hf as (_ & _ & L & M).
  rewrite frames_of_eq by done. rewrite <-app_assoc. unfold size, PLUGIN_RUNTIME_HEADER_BYTES in *.
  rewrite (proj2 (Z.ltb_ge _ _)) by (rewrite length_app; lia).
  rewrite take_app_le, (take_ge b), <-(app_nil_r b), Hp by lia. rewrite (proj2 (Z.ltb_ge max _)) by lia. cbn zeta.
  rewrite app_nil_r, (proj2 (Z.ltb_ge _ _)) by (rewrite !length_app; lia).
  replace (Z.to_nat (32 + payloadLength (header f))) with (length (b ++ payload f)) by (rewrite length_app; lia).
  rewrite app_assoc, take_app_length, drop_app_length.
  replace 32%nat with (length b) by lia. rewrite drop_app_length. by destruct f.
Qed.

Lemma frames_partial max f w tail more :
  0 <= max -> framed max f w -> w = tail ++ more -> more <> [] -> frames_of max tail = (tail, Ok []).
Proof.
  intros Hm Hf E Hmore. destruct (framed_parts _ _ _ Hf) as (b & -> & Hb & Hp). destruct Hf as (_ & _ & L & M).
  rewrite frames_of_eq by done. unfold size, PLUGIN_RUNTIME_HEADER_BYTES in *.
  destruct (Z.ltb_spec (Z.of_nat (length tail)) 32) as [|Ht]; [done|].
  assert (E1 : take 32 tail = b).
  { apply (f_equal (take 32)) in E. rewrite (take_app_le tail) in E by lia. rewrite <-E, take_app_le, take_ge by lia. done. }
  rewrite E1, <-(app_nil_r b), Hp, (proj2 (Z.ltb_ge max _)) by lia. cbn zeta.
  rewrite (proj2 (Z.ltb_lt _ _)); [done|]. apply (f_equal length) in E. rewrite !length_app in E.
  destruct more; [done|]. cbn [length] in E. lia.
Qed.

Lemma frames_all_framed max fs ws r :
  0 <= max -> Forall2 (framed max) fs ws -> frames_of max (concat ws ++ r) = prepend fs (frames_of max r).
Proof.
  intros Hm. induction 1 as [|f w fs ws Hf _ IH]; [by rewrite prepend_nil|].
  cbn [concat]. rewrite <-app_assoc, (frames_framed _ f) by done. by rewrite IH, prepend_app.
Qed.

Lemma frames_delivered max fs ws tail cs :
  0 <= max -> Forall2 (framed max) fs ws ->
  tail = [] \/ (exists f w more, framed max f w /\ w = tail ++ more /\ more <> []) ->
  concat cs = concat ws ++ tail ->
  frames_of max tail = (tail, Ok []) /\ exists fss, pushes max [] cs = (tail, map Ok fss) /\ concat fss = fs.
Proof.
  intros Hm Hf Ht E. assert (T : frames_of max tail = (tail, Ok [])).
  { destruct Ht as [->|(f & w & more & F & Ew & Hmore)]; [done|]. by eapply frames_partial. }
  split; [done|]. apply pushes_frames; [done|done|]. cbn [app].
  rewrite E, (frames_all_framed max fs) by done. rewrite T. unfold prepend. cbn. by rewrite app_nil_r.
Qed.

(** C24: however the bytes of a pipe are cut into reads, the parser
    delivers exactly the frames that were sent, in order and with their headers
    and payloads, throws nothing, and keeps only the bytes of the frame that is
    not complete yet, less than a header and one payload. *)
Theorem frames_arrive_whole max fs ws tail cs :
  0 <= max -> Forall2 (framed max) fs ws ->
  tail = [] \/ (exists f w more, framed max f w /\ w = tail ++ more /\ more <> []) ->
  concat cs = concat ws ++ tail ->
  size tail < PLUGIN_RUNTIME_HEADER_BYTES + max /\
  exists fss, pushes max [] cs = (tail, map Ok fss) /\ concat fss = fs.
Proof.
  intros Hm Hf Ht E. destruct (frames_delivered max fs ws tail cs) as [T ?]; [done..|].
  split; [by eapply frames_settled|done].
Qed.

(** A header that is written is 32 bytes and is read back with
    every field modulo its width; only a version outside 1 .. 65535, an unknown
    type or a length that is no safe integer is refused. *)
Theorem header_roundtrip h :
  match encodeHeader h with
  | Ok b => size b = PLUGIN_RUNTIME_HEADER_BYTES /\ parseHeader b = Ok (on_wire h)
  | Throw e => e = BAD_HEADER /\
      ~ (1 <= protocolVersion h <= 65535 /\ isKnownFrameType (frameType h) = true /\ 0 <= payloadLength h <= MAX_SAFE_INTEGER)
  end.
Proof.
  destruct (encodeHeader h) as [b|e] eqn:E.
  - destruct (parse_encoded h b [] E) as [H1 H2]. by rewrite app_nil_r in H2.
  - revert E. unfold encodeHeader. repeat case_match; try done; intros [= <-]; (split; [done|]); intros (A & B & C); bools;
      repeat match goal with H : (_ || _)%bool = true |- _ => apply orb_true_iff in H as [H|H] end; bools; try lia; congruence.
Qed.

(** Once the next 32 bytes are no header, the frames in front of
    them that came in the same read are lost, every later read throws the same
    error and delivers nothing, and the buffer grows by every read. *)
Theorem broken_header_blocks max fs ws bad e cs :
  0 <= max -> Forall2 (framed max) fs ws -> PLUGIN_RUNTIME_HEADER_BYTES <= size bad -> parseHeader (take 32 bad) = Throw e ->
  Forall (fun c => c <> []) cs ->
  push max [] (concat ws ++ bad) = (bad, Throw e) /\
  pushes max bad cs = (bad ++ concat cs, map (fun _ => Throw e) cs).
Proof.
  intros Hm Hf Hb He Hc.
  assert (B : forall r, frames_of max (bad ++ r) = (bad ++ r, Throw e)).
  { intros r. rewrite push_frames_app by done. rewrite frames_of_eq, He by done. by rewrite (proj2 (Z.ltb_ge _ _)). }
  split.
  - rewrite push_frames by done. cbn [app]. rewrite (frames_all_framed max fs) by done.
    specialize (B []). rewrite app_nil_r in B. by rewrite B.
  - clear Hb He. revert bad B. induction Hc as [|c cs Hc _ IH]; intros bad B; cbn [pushes concat map]; [by rewrite app_nil_r|].
    unfold push. destruct (Z.eqb_spec (size c) 0) as [E|_]; [by destruct c|]. cbn zeta. fold (frames_of max (bad ++ c)).
    rewrite B, IH by (intros r; by rewrite <-app_assoc, B). by rewrite app_assoc.
Qed.

(** ** Control payloads *)

Section ControlLemmas.
Context {N : Type} `{!NumberText N}.

Definition stack_nodes (st : list (json N * Z)) : nat := list_sum (map (fun vd => nodes (fst vd)) st).

Lemma stack_nodes_cons v d st : stack_nodes ((v, d) :: st) = (nodes v + stack_nodes st)%nat.
Proof. done. Qed.

Definition entry_ok (vd : json N * Z) : bool := bounded vd.2 vd.1.

Lemma entries_cons v d st : forallb entry_ok ((v, d) :: st) = bounded d v && forallb entry_ok st.
Proof. done. Qed.

Lemma push_elements_nodes (l : list (json N)) d st :
  stack_nodes (fold_left (fun st v => (v, d) :: st) l st) =
  (list_sum (map nodes l) + stack_nodes st)%nat.
Proof.
  revert st. induction l as [|v l IH]; intros st; [done|]. cbn [fold_left map]. rewrite IH, stack_nodes_cons.
  change (list_sum (nodes v :: map nodes l)) with (nodes v + list_sum (map nodes l))%nat. lia.
Qed.

Lemma push_elements_ok (l : list (json N)) d st :
  forallb entry_ok (fold_left (fun st v => (v, d) :: st) l st) = forallb (bounded d) l && forallb entry_ok st.
Proof.
  revert st. induction l as [|v l IH]; intros st; [done|]. cbn [fold_left forallb]. rewrite IH, entries_cons. destruct (bounded d v), (forallb (bounded d) l); done.
Qed.

Lemma push_members_spec (l : list (text * json N)) d st :
  match push_members l d st with
  | Ok st' => stack_nodes st' =
                (list_sum (map (fun kv => nodes kv.2) l) + stack_nodes st)%nat /\
              forallb entry_ok st' =
                forallb (fun kv => (utf8_size kv.1 <=? PLUGIN_RUNTIME_MAX_STRING_BYTES) && bounded d kv.2) l && forallb entry_ok st
  | Throw e => e = DECODE_STRING /\
      forallb (fun kv => (utf8_size kv.1 <=? PLUGIN_RUNTIME_MAX_STRING_BYTES) && bounded d kv.2) l = false
  end.
Proof.
  revert st. induction l as [|[k v] l IH]; intros st; [done|]. cbn [push_members forallb fst snd].
  destruct (Z.ltb_spec PLUGIN_RUNTIME_MAX_STRING_BYTES (utf8_size k)) as [Hk|Hk].
  { split; [done|]. by rewrite (proj2 (Z.leb_gt _ _) Hk). }
  rewrite (proj2 (Z.leb_le _ _) Hk). cbn [andb]. specialize (IH ((v, d) :: st)).
  destruct (push_members l d ((v, d) :: st)) as [st'|e].
  - destruct IH as [H1 H2]. split.
    + rewrite H1, stack_nodes_cons. cbn [map snd].
      change (list_sum (nodes v :: ?l)) with (nodes v + list_sum l)%nat. lia.
    + rewrite H2, entries_cons. destruct (bounded d v), (forallb _ l); done.
  - destruct IH as [H1 H2]. split; [done|]. rewrite H2. apply andb_false_r.
Qed.

(** Which of the two bounds a throw names depends on the order of the stack. *)
Lemma bounded_loop_spec fuel (st : list (json N * Z)) :
  (stack_nodes st <= fuel)%nat ->
  match bounded_loop fuel st with
  | Ok _ => forallb entry_ok st = true
  | Throw e => (e = DECODE_DEPTH \/ e = DECODE_STRING) /\ forallb entry_ok st = false
  end.
Proof.
  revert st. induction fuel as [|fuel IH]; intros [|[v d] st] Hf; [done| |done|].
  { exfalso. rewrite stack_nodes_cons in Hf. destruct v; cbn [nodes] in Hf; lia. }
  rewrite stack_nodes_cons in Hf.
  rewrite entries_cons. cbn [bounded_loop].
  destruct (Z.ltb_spec PLUGIN_RUNTIME_MAX_JSON_DEPTH d) as [Hd|Hd].
  { split; [by left|]. destruct v; cbn [bounded]; by rewrite (proj2 (Z.leb_gt _ _) Hd). }
  assert (Hd' : (d <=? PLUGIN_RUNTIME_MAX_JSON_DEPTH) = true) by (by apply Z.leb_le).
  destruct v as [|b|n|s|l|l]; cbn [bounded nodes] in *; rewrite Hd'; cbn [andb]; try (apply IH; lia).
  - destruct (Z.ltb_spec PLUGIN_RUNTIME_MAX_STRING_BYTES (utf8_size s)) as [Hs|Hs].
    + split; [by right|]. by rewrite (proj2 (Z.leb_gt _ _) Hs).
    + rewrite (proj2 (Z.leb_le _ _) Hs). apply IH. lia.
  - rewrite <-push_elements_ok. apply IH. rewrite push_elements_nodes. lia.
  - pose proof (push_members_spec l (d + 1) st) as Hp. destruct (push_members l (d + 1) st) as [st'|e]; cbn [obind].
    + destruct Hp as [H1 H2]. rewrite <-H2. apply IH. rewrite H1. lia.
    + destruct Hp as [-> ->]. split; [by right|done].
Qed.

Lemma decode_text_stringify (v : json N) : wf v -> decode_text (utf8_bytes (stringify v)) = stringify v.
Proof.
  intros Hv. unfold decode_text. rewrite of_utf8_bytes by (by apply stringify_scalar).
  destruct (stringify v) as [|c r] eqn:E; [done|]. destruct (Z.eqb_spec c 65279) as [->|]; [|done]. exfalso.
  destruct v as [|[]|n|s|l|l]; cbn in E; try discriminate.
  pose proof (print_chars n) as Hc. rewrite E in Hc. discriminate.
Qed.

Lemma control_body_read (body : json N) :
  wf body ->
  match encodeControlBody body with
  | Throw e => e = FRAME_TOO_LARGE /\ PLUGIN_RUNTIME_MAX_CONTROL_PAYLOAD_BYTES < utf8_size (stringify body)
  | Ok b => size b <= PLUGIN_RUNTIME_MAX_CONTROL_PAYLOAD_BYTES /\
      if bounded 0 body then decodeControlBody b = Ok body
      else decodeControlBody (N := N) b = Throw DECODE_DEPTH \/ decodeControlBody (N := N) b = Throw DECODE_STRING
  end.
Proof.
  intros Hwf. unfold encodeControlBody. fold (utf8_size (stringify body)).
  destruct (Z.ltb_spec PLUGIN_RUNTIME_MAX_CONTROL_PAYLOAD_BYTES (utf8_size (stringify body))) as [Hs|Hs]; [done|].
  split; [done|]. unfold decodeControlBody. fold (utf8_size (stringify body)). rewrite (proj2 (Z.ltb_ge _ _) Hs).
  rewrite decode_text_stringify, parse_stringify by done. unfold assertBoundedJson.
  assert (Hn : (stack_nodes [(body, 0%Z)] <= nodes body)%nat).
  { rewrite stack_nodes_cons. cbn. lia. }
  pose proof (bounded_loop_spec (nodes body) [(body, 0%Z)] Hn) as H. rewrite entries_cons, andb_true_r in H. destruct (bounded_loop (nodes body) [(body, 0)]) as [?|e].
  - by rewrite H.
  - destruct H as [[->| ->] ->]; [by left|by right].
Qed.

(** The control codec takes a body exactly when its text has at
    most 64 KiB, and the receiver reads that body back exactly when no value is
    nested deeper than 64 and no string or name is longer than 32 KiB; otherwise
    it throws one of the two decoding errors. *)
Theorem control_body_roundtrip (body : json N) :
  wf body ->
  match encodeControlBody body with
  | Throw e => e = FRAME_TOO_LARGE /\ PLUGIN_RUNTIME_MAX_CONTROL_PAYLOAD_BYTES < utf8_size (stringify body)
  | Ok b => size b <= PLUGIN_RUNTIME_MAX_CONTROL_PAYLOAD_BYTES /\
      if bounded 0 body then decodeControlBody b = Ok body
      else decodeControlBody (N := N) b = Throw DECODE_DEPTH \/ decodeControlBody (N := N) b = Throw DECODE_STRING
  end.
Proof. apply control_body_read. Qed.
End ControlLemmas.

(** ** Concrete frames *)

Definition w_header (ty wid n : Z) : HotHeader := MkHeader 1 ty 0 7 wid 1 0 n.
Definition w_ping : Frame := MkFrame (w_header PING 0 2) (chars "{}").
Definition w_data : Frame := MkFrame (w_header RPC_REQUEST_DATA 3 5) (chars "abcde").
Definition w_bytes (f : Frame) : bytes :=
  match encodeDataFrame (header f) (payload f) with Ok b => b | Throw _ => [] end.

Lemma frames_arrive_whole_witness :
  size (take 34 (w_bytes w_data)) < 32 + 100 /\
  exists fss, pushes 100 [] [take 5 (w_bytes w_ping); []; drop 5 (w_bytes w_ping) ++ take 20 (w_bytes w_data); drop 20 (take 34 (w_bytes w_data))]
              = (take 34 (w_bytes w_data), map Ok fss) /\ concat fss = [w_ping].
Proof.
  apply (frames_arrive_whole 100 [w_ping] [w_bytes w_ping]).
  - lia.
  - repeat constructor; vm_compute; congruence.
  - right. exists w_data, (w_bytes w_data), (drop 34 (w_bytes w_data)).
    split_and!; [repeat split; vm_compute; congruence | by rewrite take_drop | vm_compute; congruence].
  - vm_compute. reflexivity.
Defined.

Lemma broken_header_blocks_witness :
  push 100 [] (concat [w_bytes w_ping] ++ repeat NUL 32) = (repeat NUL 32, Throw BAD_HEADER) /\
  pushes 100 (repeat NUL 32) [w_bytes w_ping; w_bytes w_data] =
    (repeat NUL 32 ++ w_bytes w_ping ++ w_bytes w_data ++ [], [Throw BAD_HEADER; Throw BAD_HEADER]).
Proof.
  apply (broken_header_blocks 100 [w_ping] [w_bytes w_ping] (repeat NUL 32) BAD_HEADER [w_bytes w_ping; w_bytes w_data]).
  - lia.
  - repeat constructor; vm_compute; congruence.
  - vm_compute. congruence.
  - vm_compute. reflexivity.
  - repeat constructor; vm_compute; congruence.
Defined.

Definition w_body : json Z := JObj [(lit "workerId", JNum 3); (lit "log", JArr [JStr (lit "ready"); JNull])].

Lemma control_body_roundtrip_witness :
  match encodeControlBody w_body with
  | Throw e => e = FRAME_TOO_LARGE /\ PLUGIN_RUNTIME_MAX_CONTROL_PAYLOAD_BYTES < utf8_size (stringify w_body)
  | Ok b => size b <= PLUGIN_RUNTIME_MAX_CONTROL_PAYLOAD_BYTES /\
      if bounded 0 w_body then decodeControlBody b = Ok w_body
      else decodeControlBody (N := Z) b = Throw DECODE_DEPTH \/ decodeControlBody (N := Z) b = Throw DECODE_STRING
  end.
Proof.
  apply (control_body_roundtrip w_body). apply wf_obj. split.
  - apply (bool_decide_unpack _). vm_compute. exact I.
  - repeat constructor; vm_compute; congruence.
Defined.

(** Flags above 255 lose their high byte. *)
Example flags_are_one_byte :
  match encodeHeader (MkHeader 1 PING 513 1 0 0 0 0) with Ok b => parseHeader b | Throw e => Throw e end =
  Ok (MkHeader 1 PING 1 1 0 0 0 0).
Proof. vm_compute. reflexivity. Qed.

End Frames.
