(* ===== verification/Uuid.v ===== *)
(** * Identifiers (packages/shared/src/id.ts)

    UUIDs of version 7 in the order of their creation, and the test for the
    syntax of a UUID.  The clock and the random bytes are arguments; the last
    timestamp and the last random part are the state of the module. *)

From Stdlib Require Import ZArith Lia Bool Ascii String List Sorted.
From stdpp Require Import base decidable list.
From S2P Require Import Prelude Codec Json.
Import Codec Json.
Local Open Scope Z_scope.

Module Uuid.

Abbreviation text := (list Z).

Definition UUID_V7_RANDOM_BITS : Z := 74.
Definition UUID_V7_RANDOM_MASK : Z := Z.shiftl 1 UUID_V7_RANDOM_BITS - 1.

Record State := MkState { lastUuidV7Timestamp : Z; lastUuidV7Random : Z }.

Definition initial : State := MkState (-1) 0.

Definition random74Bits (bytes : list Z) : Z :=
  Z.land (fold_left (fun value byte => Z.lor (Z.shiftl value 8) byte) bytes 0) UUID_V7_RANDOM_MASK.

(** What a [DataView] stores: the low [n] bytes of [v], the highest first. *)
Fixpoint big_endian (n : nat) (v : Z) : list Z :=
  match n with
  | O => []
  | S m => (v / 256 ^ Z.of_nat m) mod 256 :: big_endian m v
  end.

Definition uuid_bytes (ts random : Z) : list Z :=
  let randA := Z.shiftr random 62 in
  let randB := Z.land random (Z.shiftl 1 62 - 1) in
  big_endian 4 (ts / 65536) ++ big_endian 2 (Z.land ts 65535) ++ big_endian 2 (Z.lor 28672 randA) ++
  big_endian 8 (Z.lor (Z.shiftl 2 62) randB).

(** [toString(16).padStart(2, '0')] *)
Definition hex2 (byte : Z) : text := [hex_digit (byte / 16); hex_digit (byte mod 16)].

Fixpoint write_bytes (i : nat) (bytes : list Z) : text :=
  match bytes with
  | [] => []
  | b :: r => hex2 b ++ (if bool_decide (i ∈ [3; 5; 7; 9]%nat) then [45] else []) ++ write_bytes (S i) r
  end.

(** A call at the time [now]; [random] is what [getRandomValues] gives, if it is
    called, and nothing where it is missing, so that the call throws. *)
Definition uuidv7 (now : Z) (random : option (list Z)) (st : State) : State * option text :=
  if lastUuidV7Timestamp st <? now then
    match random with
    | Some b => (MkState now (random74Bits b), Some (write_bytes 0 (uuid_bytes now (random74Bits b))))
    | None => (MkState now (lastUuidV7Random st), None)
    end
  else
    let ts := lastUuidV7Timestamp st in
    let next := Z.land (lastUuidV7Random st + 1) UUID_V7_RANDOM_MASK in
    if next =? 0 then
      match random with
      | Some b => (MkState (ts + 1) (random74Bits b), Some (write_bytes 0 (uuid_bytes (ts + 1) (random74Bits b))))
      | None => (MkState (ts + 1) next, None)
      end
    else (MkState ts next, Some (write_bytes 0 (uuid_bytes ts next))).

(** [/^[0-9a-f]{8}-[0-9a-f]{4}-[0-9a-f]{4}-[0-9a-f]{4}-[0-9a-f]{12}$/i] *)
Fixpoint groups_of (sizes : list nat) (value : text) : bool :=
  match sizes with
  | [] => bool_decide (value = [])
  | n :: r =>
      bool_decide (length (take n value) = n) && forallb (fun c => match hex_value c with Some _ => true | None => false end) (take n value) &&
      match r, drop n value with
      | [], [] => true
      | _ :: _, c :: rest => (c =? 45) && groups_of r rest
      | _, _ => false
      end
  end.

Definition isUuid (value : text) : bool := groups_of [8; 4; 4; 4; 12]%nat value.

Definition randomToken (bytes : list Z) : text := concat (map hex2 bytes).

(** The identifiers of a sequence of calls. *)
Fixpoint issued (st : State) (calls : list (Z * option (list Z))) : list text :=
  match calls with
  | [] => []
  | (now, random) :: r => let (st', id) := uuidv7 now random st in option_list id ++ issued st' r
  end.

(** *** The number of an identifier *)

(** Its hexadecimal digits as one number. *)
Definition number (value : text) : Z :=
  fold_left (fun n c => match hex_value c with Some v => 16 * n + v | None => n end) value 0.

(** The layout of RFC 9562: 48 bits of time, the version, 12 random bits, the variant and
    62 random bits. *)
Definition layout (ts random : Z) : Z := ts * 2 ^ 80 + 7 * 2 ^ 76 + (random / 2 ^ 62) * 2 ^ 64 + 2 * 2 ^ 62 + random mod 2 ^ 62.

Lemma big_endian_app a b v : big_endian (a + b) v = big_endian a (v / 256 ^ Z.of_nat b) ++ big_endian b v.
Proof.
  induction a as [|a IH]; [done|]. cbn [Nat.add big_endian app]. rewrite IH. do 2 f_equal.
  rewrite Z.div_div by lia. rewrite <- Z.pow_add_r by lia. do 2 f_equal. lia.
Qed.

Lemma byte_mod n m v : (m < n)%nat -> (v mod 256 ^ Z.of_nat n) / 256 ^ Z.of_nat m mod 256 = v / 256 ^ Z.of_nat m mod 256.
Proof.
  intros H. assert (E : 256 ^ Z.of_nat n = 256 ^ (Z.of_nat n - Z.of_nat m - 1) * 256 * 256 ^ Z.of_nat m).
  { rewrite <- (Z.pow_1_r 256) at 3. rewrite <- !Z.pow_add_r by lia. f_equal. lia. }
  rewrite (Z.div_mod v (256 ^ Z.of_nat n)) at 2 by lia. rewrite E at 2.
  replace (256 ^ (Z.of_nat n - Z.of_nat m - 1) * 256 * 256 ^ Z.of_nat m * (v / 256 ^ Z.of_nat n))
    with (256 ^ (Z.of_nat n - Z.of_nat m - 1) * (v / 256 ^ Z.of_nat n) * 256 * 256 ^ Z.of_nat m) by ring.
  rewrite Z.div_add_l by lia. rewrite Z.add_comm, Z.mod_add by lia. done.
Qed.

Lemma big_endian_mod n v : big_endian n (v mod 256 ^ Z.of_nat n) = big_endian n v.
Proof.
  enough (H : forall m, (m <= n)%nat -> big_endian m (v mod 256 ^ Z.of_nat n) = big_endian m v) by by apply H.
  induction m as [|m IH]; intros Hm; [done|]. cbn [big_endian]. rewrite IH by lia. f_equal. apply byte_mod. lia.
Qed.

Lemma lor_disjoint a b k : 0 <= k -> 0 <= b < 2 ^ k -> Z.lor (a * 2 ^ k) b = a * 2 ^ k + b.
Proof.
  intros Hk Hb. rewrite <- Z.add_lor_land. replace (Z.land (a * 2 ^ k) b) with 0; [lia|].
  rewrite <- (Z.mod_small b (2 ^ k)), <- Z.land_ones, <- Z.shiftl_mul_pow2 by lia. symmetry. apply Z.bits_inj'. intros n Hn.
  rewrite !Z.land_spec, Z.bits_0, Z.shiftl_spec, Z.testbit_ones by lia. destruct (Z.ltb_spec n k).
  - by rewrite Z.testbit_neg_r by lia.
  - by rewrite !andb_false_r.
Qed.

(** The segments that are written make up one number. *)
Lemma uuid_bytes_layout ts r : 0 <= ts -> 0 <= r < 2 ^ 74 -> uuid_bytes ts r = big_endian 16 (layout ts r).
Proof.
  intros Ht Hr. unfold uuid_bytes. rewrite Z.shiftr_div_pow2 by lia.
  change (Z.shiftl 1 62 - 1) with (Z.ones 62). rewrite Z.land_ones by lia. change 65535 with (Z.ones 16). rewrite Z.land_ones by lia.
  change 28672 with (7 * 2 ^ 12). change (Z.shiftl 2 62) with (2 * 2 ^ 62).
  assert (Ha : 0 <= r / 2 ^ 62 < 2 ^ 12) by (split; [apply Z.div_pos; lia|apply Z.div_lt_upper_bound; lia]).
  assert (Hb : 0 <= r mod 2 ^ 62 < 2 ^ 62) by (apply Z.mod_pos_bound; lia).
  rewrite !lor_disjoint by lia. unfold layout. set (ra := r / 2 ^ 62) in *. set (rb := r mod 2 ^ 62) in *.
  change 16%nat with (4 + (2 + (2 + 8)))%nat. rewrite !big_endian_app. set (L := ts * 2 ^ 80 + _ + _ + _ + _).
  assert (E1 : L / 256 ^ Z.of_nat (2 + (2 + 8)) = ts / 65536).
  { change (256 ^ Z.of_nat (2 + (2 + 8))) with (2 ^ 80 * 65536). rewrite <- Z.div_div by lia. f_equal. symmetry.
    apply Z.div_unique with (7 * 2 ^ 76 + ra * 2 ^ 64 + 2 * 2 ^ 62 + rb); unfold L; lia. }
  assert (E2 : L / 256 ^ Z.of_nat (2 + 8) = ts).
  { symmetry. apply Z.div_unique with (7 * 2 ^ 76 + ra * 2 ^ 64 + 2 * 2 ^ 62 + rb); change (256 ^ Z.of_nat (2 + 8)) with (2 ^ 80); unfold L; lia. }
  assert (E3 : L / 256 ^ Z.of_nat 8 = ts * 2 ^ 16 + 7 * 2 ^ 12 + ra).
  { symmetry. apply Z.div_unique with (2 * 2 ^ 62 + rb); change (256 ^ Z.of_nat 8) with (2 ^ 64); unfold L; lia. }
  rewrite E1, E2, E3. rewrite <- (big_endian_mod 2 ts). change (256 ^ Z.of_nat 2) with (2 ^ 16). do 2 f_equal.
  rewrite <- (big_endian_mod 2 (ts * 2 ^ 16 + 7 * 2 ^ 12 + ra)), <- (big_endian_mod 8 L).
  change (256 ^ Z.of_nat 2) with (2 ^ 16). change (256 ^ Z.of_nat 8) with (2 ^ 64). f_equal; f_equal.
  - apply Z.mod_unique with ts; lia.
  - apply Z.mod_unique with (ts * 2 ^ 16 + 7 * 2 ^ 12 + ra); unfold L; lia.
Qed.

Lemma layout_bound ts r : 0 <= ts < 2 ^ 48 -> 0 <= r < 2 ^ 74 -> 0 <= layout ts r < 256 ^ 16.
Proof.
  intros Ht Hr. unfold layout.
  assert (Ha : 0 <= r / 2 ^ 62 < 2 ^ 12) by (split; [apply Z.div_pos; lia|apply Z.div_lt_upper_bound; lia]).
  assert (Hb : 0 <= r mod 2 ^ 62 < 2 ^ 62) by (apply Z.mod_pos_bound; lia). change (256 ^ 16) with (2 ^ 128). lia.
Qed.

Lemma layout_lt ts r ts' r' : 0 <= r < 2 ^ 74 -> 0 <= r' < 2 ^ 74 -> ts < ts' \/ (ts = ts' /\ r < r') -> layout ts r < layout ts' r'.
Proof.
  intros Hr Hr' H. unfold layout.
  assert (Ha : 0 <= r / 2 ^ 62 < 2 ^ 12) by (split; [apply Z.div_pos; lia|apply Z.div_lt_upper_bound; lia]).
  assert (Ha' : 0 <= r' / 2 ^ 62 < 2 ^ 12) by (split; [apply Z.div_pos; lia|apply Z.div_lt_upper_bound; lia]).
  assert (Hb : 0 <= r mod 2 ^ 62 < 2 ^ 62) by (apply Z.mod_pos_bound; lia).
  assert (Hb' : 0 <= r' mod 2 ^ 62 < 2 ^ 62) by (apply Z.mod_pos_bound; lia).
  pose proof (Z.div_mod r (2 ^ 62) ltac:(lia)). pose proof (Z.div_mod r' (2 ^ 62) ltac:(lia)). destruct H as [H|[-> H]]; lia.
Qed.

Lemma big_endian_range n v : Forall (fun b => 0 <= b < 256) (big_endian n v).
Proof. induction n as [|n IH]; constructor; [apply Z.mod_pos_bound; lia|exact IH]. Qed.

Lemma length_big_endian n v : length (big_endian n v) = n.
Proof. induction n; cbn; congruence. Qed.

(** *** Order *)

Lemma cmp_same_prefix (c a b : text) : list_cmp zcmp (c ++ a) (c ++ b) = list_cmp zcmp a b.
Proof. induction c as [|x c IH]; [done|]. cbn. by rewrite (cmp_refl zcmp). Qed.

Lemma hex_digit_lt v w : 0 <= v < w -> w < 16 -> hex_digit v < hex_digit w.
Proof. intros H1 H2. unfold hex_digit. destruct (Z.ltb_spec v 10), (Z.ltb_spec w 10); lia. Qed.

Lemma zcmp_lt v w : v < w -> zcmp v w = -1.
Proof. intros H. unfold zcmp. destruct (Z.eqb_spec v w), (Z.ltb_spec v w); lia. Qed.

Lemma hex2_lt v w (a b : text) : 0 <= v < w -> w < 256 -> list_cmp zcmp (hex2 v ++ a) (hex2 w ++ b) < 0.
Proof.
  intros H1 H2. unfold hex2. cbn [app list_cmp].
  assert (Hv : 0 <= v / 16 < 16 /\ 0 <= v mod 16 < 16) by (split; [split; [apply Z.div_pos; lia|apply Z.div_lt_upper_bound; lia]|apply Z.mod_pos_bound; lia]).
  assert (Hw : 0 <= w / 16 < 16 /\ 0 <= w mod 16 < 16) by (split; [split; [apply Z.div_pos; lia|apply Z.div_lt_upper_bound; lia]|apply Z.mod_pos_bound; lia]).
  pose proof (Z.div_mod v 16 ltac:(lia)). pose proof (Z.div_mod w 16 ltac:(lia)).
  destruct (Z.eq_dec (v / 16) (w / 16)) as [E|E].
  - rewrite E, (cmp_refl zcmp). cbn. rewrite zcmp_lt by (apply hex_digit_lt; lia). done.
  - rewrite zcmp_lt by (apply hex_digit_lt; lia). done.
Qed.

Lemma write_bytes_lt n i v w : 0 <= v < w -> w < 256 ^ Z.of_nat n ->
  list_cmp zcmp (write_bytes i (big_endian n v)) (write_bytes i (big_endian n w)) < 0.
Proof.
  revert i v w. induction n as [|n IH]; intros i v w Hv Hw; [cbn in Hw; lia|].
  rewrite Nat2Z.inj_succ, Z.pow_succ_r in Hw by lia. set (p := 256 ^ Z.of_nat n) in *. assert (Hp : 0 < p) by (unfold p; lia).
  cbn [big_endian write_bytes]. fold p.
  assert (Hq : 0 <= v / p < 256) by (split; [apply Z.div_pos; lia|apply Z.div_lt_upper_bound; lia]).
  assert (Hq' : 0 <= w / p < 256) by (split; [apply Z.div_pos; lia|apply Z.div_lt_upper_bound; lia]).
  rewrite !Z.mod_small by lia. pose proof (Z.div_mod v p ltac:(lia)). pose proof (Z.div_mod w p ltac:(lia)).
  pose proof (Z.mod_pos_bound v p Hp). pose proof (Z.mod_pos_bound w p Hp).
  destruct (Z.eq_dec (v / p) (w / p)) as [E|E].
  - rewrite E, !app_assoc, cmp_same_prefix, <- (big_endian_mod n v), <- (big_endian_mod n w). fold p. apply IH; nia.
  - apply hex2_lt; [|lia]. assert (v / p <= w / p) by (apply Z.div_le_mono; lia). lia.
Qed.

(** *** Syntax and layout *)

Definition digits (n : Z) (l : text) : Z := fold_left (fun n c => match hex_value c with Some v => 16 * n + v | None => n end) l n.

Lemma number_digits l : number l = digits 0 l.
Proof. reflexivity. Qed.

Lemma digits_app n a b : digits n (a ++ b) = digits (digits n a) b.
Proof. apply fold_left_app. Qed.

Lemma byte_halves b : 0 <= b < 256 -> 0 <= b / 16 < 16 /\ 0 <= b mod 16 < 16 /\ b = 16 * (b / 16) + b mod 16.
Proof.
  intros H. split; [split; [apply Z.div_pos; lia|apply Z.div_lt_upper_bound; lia]|].
  split; [apply Z.mod_pos_bound; lia|]. apply Z.div_mod. lia.
Qed.

Lemma digits_hex2 n b : 0 <= b < 256 -> digits n (hex2 b) = 256 * n + b.
Proof. intros H. destruct (byte_halves b H) as (H1 & H2 & E). unfold digits, hex2. cbn. rewrite !hex_value_digit by done. lia. Qed.

Lemma digits_bytes n : forall k i v, 0 <= v < 256 ^ Z.of_nat n -> digits k (write_bytes i (big_endian n v)) = k * 256 ^ Z.of_nat n + v.
Proof.
  induction n as [|n IH]; intros k i v Hv; [cbn in *; lia|]. rewrite Nat2Z.inj_succ, Z.pow_succ_r in * by lia.
  set (p := 256 ^ Z.of_nat n) in *. assert (Hp : 0 < p) by (unfold p; lia). cbn [big_endian write_bytes]. fold p.
  assert (Hq : 0 <= v / p < 256) by (split; [apply Z.div_pos; lia|apply Z.div_lt_upper_bound; lia]).
  rewrite Z.mod_small, !digits_app, digits_hex2 by lia.
  assert (Hd : forall m, digits m (if bool_decide (i ∈ [3; 5; 7; 9]%nat) then [45] else []) = m) by (intros m; destruct (bool_decide _); reflexivity).
  rewrite Hd, <- (big_endian_mod n v). fold p. rewrite IH by (apply Z.mod_pos_bound; lia). fold p.
  pose proof (Z.div_mod v p ltac:(lia)). nia.
Qed.

Lemma write_bytes_isUuid l : length l = 16%nat -> Forall (fun b => 0 <= b < 256) l -> isUuid (write_bytes 0 l) = true.
Proof.
  intros Hl Hb. do 16 (destruct l as [|? l]; [done|]). destruct l; [|done].
  repeat (apply Forall_cons in Hb as [?%byte_halves Hb]). destruct_and!.
  lazy -[hex_value hex_digit Z.div Z.modulo]. rewrite !hex_value_digit by done. reflexivity.
Qed.

(** *** Sequences of calls *)

Definition st_ok (st : State) : Prop := -1 <= lastUuidV7Timestamp st /\ 0 <= lastUuidV7Random st < 2 ^ 74.

(** A timestamp and a random part that come after those of a state. *)
Definition later (st : State) (ts r : Z) : Prop :=
  lastUuidV7Timestamp st < ts \/ (lastUuidV7Timestamp st = ts /\ lastUuidV7Random st < r).

Lemma mask_mod v : Z.land v UUID_V7_RANDOM_MASK = v mod 2 ^ 74.
Proof. change UUID_V7_RANDOM_MASK with (Z.ones 74). by rewrite Z.land_ones. Qed.

Lemma random74_range b : 0 <= random74Bits b < 2 ^ 74.
Proof. unfold random74Bits. rewrite mask_mod. apply Z.mod_pos_bound. lia. Qed.

Lemma uuidv7_spec now random st : 0 <= now -> st_ok st ->
  let (st', id) := uuidv7 now random st in
  st_ok st' /\ now <= lastUuidV7Timestamp st' <= Z.max now (lastUuidV7Timestamp st + 1) /\
  later st (lastUuidV7Timestamp st') (lastUuidV7Random st') /\
  (id = None /\ random = None \/ id = Some (write_bytes 0 (uuid_bytes (lastUuidV7Timestamp st') (lastUuidV7Random st')))).
Proof.
  intros Hn [Ht Hr]. unfold uuidv7, later, st_ok. rewrite mask_mod. destruct (Z.ltb_spec (lastUuidV7Timestamp st) now) as [Hlt|Hge].
  - destruct random as [b|]; cbn; [pose proof (random74_range b)|]; split_and!; auto; try lia.
  - pose proof (Z.mod_pos_bound (lastUuidV7Random st + 1) (2 ^ 74) ltac:(lia)).
    destruct (Z.eqb_spec ((lastUuidV7Random st + 1) mod 2 ^ 74) 0) as [E|E].
    + destruct random as [b|]; cbn; [pose proof (random74_range b)|]; split_and!; auto; try lia.
    + assert (lastUuidV7Random st + 1 < 2 ^ 74).
      { destruct (Z.eq_dec (lastUuidV7Random st + 1) (2 ^ 74)) as [E'|]; [|lia]. by rewrite E', Z.mod_same in E by lia. }
      rewrite Z.mod_small by lia. cbn. split_and!; auto; lia.
Qed.

(** What an identifier of a later call looks like. *)
Definition issued_after (st : State) (i : text) : Prop :=
  exists ts r, i = write_bytes 0 (big_endian 16 (layout ts r)) /\ later st ts r /\ 0 <= ts < 2 ^ 48 /\ 0 <= r < 2 ^ 74.

Lemma later_trans st st' ts r : later st (lastUuidV7Timestamp st') (lastUuidV7Random st') -> later st' ts r -> later st ts r.
Proof. unfold later. lia. Qed.

Definition times_ok (limit : Z) (calls : list (Z * option (list Z))) : Prop := Forall (fun c => 0 <= c.1 <= limit) calls.

Lemma issued_spec calls : forall st limit, st_ok st -> times_ok limit calls ->
  lastUuidV7Timestamp st <= limit -> limit + Z.of_nat (length calls) < 2 ^ 48 ->
  Forall (issued_after st) (issued st calls) /\ StronglySorted (fun a b => list_cmp zcmp a b < 0) (issued st calls).
Proof.
  induction calls as [|[now random] calls IH]; intros st limit Hst Hc Hl Hlim; [repeat constructor|].
  apply Forall_cons in Hc as [Hnow Hc]. cbn [fst] in Hnow. cbn [issued]. cbn [length] in Hlim. rewrite Nat2Z.inj_succ in Hlim.
  pose proof (uuidv7_spec now random st ltac:(lia) Hst) as Hs. destruct (uuidv7 now random st) as [st' id].
  destruct Hs as (Hst' & Hb & Hlater & Hid).
  assert (Hc' : times_ok (limit + 1) calls) by (eapply Forall_impl; [exact Hc|]; cbn; lia).
  destruct (IH st' (limit + 1) Hst' Hc' ltac:(lia) ltac:(lia)) as [Ha Hsort].
  assert (Ha' : Forall (issued_after st) (issued st' calls)).
  { eapply Forall_impl; [exact Ha|]. intros i (ts & r & -> & H & Hr). exists ts, r. split; [done|]. split; [by eapply later_trans|done]. }
  destruct Hid as [[-> _]| ->]; [done|]. destruct Hst' as [_ Hr']. cbn [option_list option_rect app].
  rewrite uuid_bytes_layout by lia. split.
  - constructor; [|exact Ha']. exists (lastUuidV7Timestamp st'), (lastUuidV7Random st'). split_and!; try done; lia.
  - constructor; [exact Hsort|]. eapply Forall_impl; [exact Ha|]. intros i (ts & r & -> & Hl' & Hts & Hr). cbv beta.
    apply write_bytes_lt; [|by apply layout_bound]. split; [apply layout_bound; lia|]. apply layout_lt; [lia..|]. unfold later in Hl'. lia.
Qed.

(** Identifiers are valid, unique and in order.  As long as the clock and the
    number of calls stay within 48 bits of milliseconds, the identifiers of all calls,
    also when the clock stands still or goes back, when the random part overflows, and
    when a call in between throws for want of random bytes, are strictly increasing
    as texts; each is a UUID whose digits are the layout of RFC 9562 with a timestamp
    of 48 bits, version 7 and variant 2. *)
Theorem ids_in_order calls limit :
  times_ok limit calls -> 0 <= limit -> limit + Z.of_nat (length calls) < 2 ^ 48 ->
  let ids := issued initial calls in
  StronglySorted (fun a b => list_cmp zcmp a b < 0) ids /\ NoDup ids /\
  Forall (fun i => isUuid i = true /\ exists ts r, number i = layout ts r /\ 0 <= ts < 2 ^ 48 /\ 0 <= r < 2 ^ 74) ids.
Proof.
  intros Hc Hl Hlim ids. destruct (issued_spec calls initial limit) as [Ha Hs]; [split; cbn; lia|done|cbn; lia|done|]. fold ids in Ha, Hs.
  split; [exact Hs|]. split.
  - clear -Hs. induction Hs as [|i l _ IH Hi]; constructor; [|exact IH]. intros Hin. rewrite Forall_forall in Hi. specialize (Hi i Hin).
    rewrite (cmp_refl (list_cmp zcmp)) in Hi. lia.
  - eapply Forall_impl; [exact Ha|]. intros i (ts & r & -> & _ & Hts & Hr). pose proof (layout_bound ts r Hts Hr) as Hb. split.
    + apply write_bytes_isUuid; [apply length_big_endian|apply big_endian_range].
    + exists ts, r. split; [|done]. rewrite number_digits, digits_bytes by exact Hb. lia.
Qed.

(** Beyond 48 bits the timestamp wraps around: a later identifier is smaller. *)
Theorem timestamps_wrap :
  match issued initial [(2 ^ 48 - 1, Some (repeat 0 10)); (2 ^ 48, Some (repeat 0 10))] with
  | [a; b] => list_cmp zcmp b a < 0
  | _ => False
  end.
Proof. vm_compute. done. Qed.

(** A full random part is followed by a new one in the next millisecond. *)
Definition overflow_calls : list (Z * option (list Z)) := [(5, Some (repeat 255 10)); (5, None); (5, Some (repeat 1 10)); (3, Some [])].

Example overflow_ids : length (issued initial overflow_calls) = 3%nat /\
  issued initial (take 1 overflow_calls) = [lit "00000000-0005-7fff-bfff-ffffffffffff"].
Proof. vm_compute. done. Qed.

Lemma ids_in_order_witness : NoDup (issued initial overflow_calls).
Proof.
  apply (ids_in_order overflow_calls 5); [|lia|vm_compute; reflexivity]. repeat constructor; cbn; lia.
Defined.
End Uuid.
