(* ===== verification/Capabilities.v ===== *)
(** * Capabilities of plugins
    (packages/plugin-sdk/src/kernel/capabilities.ts,
    apps/server/src/plugin/capabilityBroker.ts and the grants of packages/db:
    repositories/pluginCapabilities.ts)

    Requests for capabilities with a scope, the strings that a user consents to, the
    grants that the broker keeps and the checks that enforcement points make.  A
    scope is stored as JSON and read back; [None] is the empty record that stands for
    no scope. *)

From Stdlib Require Import ZArith Lia Bool Ascii String List.
From stdpp Require Import base decidable list.
From S2P Require Import Prelude Codec Json.
Import Codec Json.
Local Open Scope Z_scope.

Module Capabilities.

Abbreviation text := (list Z).

Section Capabilities.
Context {N : Type} `{!NumberText N}.
(** The platform's URL parser: the protocol of a URL that it accepts. *)
Variable url_protocol : text -> option text.

(** ** Requests and scopes *)

Inductive CapabilityScope :=
| CurrentChat
| SelectedChats (chatIds : list text)
| Chat (chatId : text)
| All
| User
| Workspace (workspaceId : option text)
| Installation
| Origins (origins : list text)
| Custom (params : json N).

(** A name is a string, or what a lookup finds in the prototype of objects. *)
Inductive Name :=
| Str (s : text)
| Inherited (s : text).

Inductive ScopeSpec :=
| Shorthand (s : text)
| Scope (s : CapabilityScope).

Record CapabilityRequest := MkRequest { name : Name; scope : option ScopeSpec }.

Record CapabilityGrant := MkGrant { grantName : Name; grantScope : option CapabilityScope; grantRevision : Z; grantedAt : Z }.

Definition CAPABILITY_NAMES : list text := map lit
  ["chats.read.current"; "chats.read.selected"; "chats.read.all"; "chats.list"; "chats.search"; "chats.write.plugin";
   "chats.write.assistant"; "chats.edit.own"; "chats.delete.own"; "chats.draft"; "storage.installation"; "storage.user";
   "storage.workspace"; "storage.chat"; "storage.blobs"; "ui.panel"; "ui.overlay"; "ui.overlay.full"; "ui.modal"; "ui.commands";
   "ui.surfaces"; "ui.global-shortcuts"; "ui.messageBlock"; "ui.notification"; "compute.worker"; "compute.backend";
   "jobs.background"; "network.domains"; "auth.connections"; "secrets.use"; "files.pick"; "files.save"; "clipboard.read";
   "clipboard.write"; "notifications.show"; "audio.play"; "camera.request"; "microphone.request"; "system.openExternal";
   "services.provide"; "services.connect"; "storage.kv"; "files.plugin"; "files.system"; "network.http"; "network.websocket";
   "network.tcp"; "network.udp"; "network.listen"; "network.dns"; "network.local"; "network.private"; "network.metadata";
   "network.listen.public"; "process.spawn"; "process.exec"; "process.signal"; "system.env.read"; "system.info";
   "system.unrestricted"; "secrets.manageOwn"; "secrets.reveal"; "models.list"; "models.invoke"; "models.stream";
   "providers.read"; "providers.register"; "providers.configure"; "database.core.read"; "database.core.write";
   "jobs.longRunning"; "scheduler.register"; "settings.read"; "settings.write"; "characters.read"; "characters.write";
   "lorebook.read"; "lorebook.write"; "chats.read"; "chats.write"; "diagnostics.own"; "server.routes"; "server.middleware"]%string.

Definition LEGACY_ALIAS : list (text * text) := map (fun kv => (lit (fst kv), lit (snd kv)))
  [("chat.read", "chats.read.current"); ("chat.write", "chats.write.plugin"); ("characters.read", "chats.read.current");
   ("characters.write", "chats.write.plugin"); ("lorebook.read", "chats.read.current"); ("lorebook.write", "chats.write.plugin");
   ("prompt.inspect", "chats.read.current"); ("prompt.modify", "chats.write.plugin"); ("providers.register", "compute.backend");
   ("ui.toolbar", "ui.commands"); ("ui.sidebar", "ui.panel"); ("ui.messageActions", "ui.commands"); ("ui.shell", "ui.panel");
   ("clipboard.read", "clipboard.read"); ("clipboard.write", "clipboard.write"); ("notifications", "notifications.show");
   ("server.routes", "compute.backend")]%string.

(** The properties that every object inherits. *)
Definition inherited : list text := map lit
  ["constructor"; "__defineGetter__"; "__defineSetter__"; "hasOwnProperty"; "__lookupGetter__"; "__lookupSetter__"; "isPrototypeOf";
   "propertyIsEnumerable"; "toString"; "valueOf"; "__proto__"; "toLocaleString"]%string.

(** [LEGACY_ALIAS[value]] *)
Definition alias (value : text) : option Name :=
  match map_get value LEGACY_ALIAS with
  | Some n => Some (Str n)
  | None => if bool_decide (value ∈ inherited) then Some (Inherited value) else None
  end.

Definition isValidOrigin (s : text) : bool :=
  match url_protocol s with Some p => bool_decide (p = lit "https:") || bool_decide (p = lit "http:") | None => false end.

(** [/^[a-z0-9.-]+$/i] *)
Definition host_char (c : Z) : bool :=
  ((97 <=? c) && (c <=? 122)) || ((65 <=? c) && (c <=? 90)) || ((48 <=? c) && (c <=? 57)) || (c =? 46) || (c =? 45).

Definition is_host (s : text) : bool := negb (bool_decide (s = [])) && forallb host_char s.

(** [s.includes(p)] *)
Fixpoint includes (p s : text) : bool :=
  match expect p s with
  | Some _ => true
  | None => match s with [] => false | _ :: r => includes p r end
  end.

Definition length16 (t : text) : Z := zsum (map (fun p => if p <? 65536 then 1 else 2) t).

Definition parseCapability (raw : text) : option CapabilityRequest :=
  let value := trim_text raw in
  if bool_decide (value = []) || (128 <? length16 value) then None
  else match expect (lit "network:") value with
  | Some s =>
      if bool_decide (s = lit "*") then Some (MkRequest (Str (lit "network.domains")) (Some (Scope All)))
      else if negb (isValidOrigin s) && negb (is_host s) then None
      else let origin := if includes (lit "://") s then s else lit "https://" ++ s in
           Some (MkRequest (Str (lit "network.domains")) (Some (Scope (Origins [origin]))))
  | None =>
      if bool_decide (value = lit "files:plugin") then Some (MkRequest (Str (lit "storage.installation")) None)
      else if bool_decide (value = lit "files:user-selected") then Some (MkRequest (Str (lit "files.pick")) None)
      else if bool_decide (value = lit "legacy.trusted") then None
      else if bool_decide (value ∈ CAPABILITY_NAMES) then Some (MkRequest (Str value) None)
      else match alias value with Some n => Some (MkRequest n None) | None => None end
  end.

Definition strings (l : list (json N)) : list text := omap (fun v => match v with JStr s => Some s | _ => None end) l.

Definition shorthand (s : text) : option CapabilityScope :=
  if bool_decide (s = lit "current-chat") then Some CurrentChat
  else if bool_decide (s = lit "selected-chats") then Some (SelectedChats [])
  else if bool_decide (s = lit "all") then Some All
  else if bool_decide (s = lit "user") then Some User
  else if bool_decide (s = lit "installation") then Some Installation
  else None.

Definition record_scope (kind : text) (record : list (text * json N)) : option CapabilityScope :=
  if bool_decide (kind = lit "current-chat") then Some CurrentChat
  else if bool_decide (kind = lit "selected-chats") then
    Some (SelectedChats (match map_get (lit "chatIds") record with Some (JArr l) => strings l | _ => [] end))
  else if bool_decide (kind = lit "chat") then match map_get (lit "chatId") record with Some (JStr s) => Some (Chat s) | _ => None end
  else if bool_decide (kind = lit "all") then Some All
  else if bool_decide (kind = lit "user") then Some User
  else if bool_decide (kind = lit "workspace") then
    Some (Workspace (match map_get (lit "workspaceId") record with Some (JStr s) => Some s | _ => None end))
  else if bool_decide (kind = lit "installation") then Some Installation
  else if bool_decide (kind = lit "origins") then
    match map_get (lit "origins") record with
    | Some (JArr l) => match strings l with [] => None | o => Some (Origins o) end
    | _ => None
    end
  else if bool_decide (kind = lit "custom") then
    match map_get (lit "params") record with Some (JObj o) => Some (Custom (JObj o)) | Some (JArr l) => Some (Custom (JArr l)) | _ => None end
  else None.

(** The value may be missing. *)
Definition parseCapabilityScope (value : option (json N)) : option CapabilityScope :=
  match value with
  | Some (JStr s) => shorthand s
  | Some (JObj record) => match map_get (lit "kind") record with Some (JStr kind) => record_scope kind record | _ => None end
  | _ => None
  end.

Definition resolve (s : option ScopeSpec) : option CapabilityScope :=
  match s with Some (Shorthand t) => shorthand t | Some (Scope c) => Some c | None => None end.

(** A scope as it is stored: a shorthand is a string, which has no kind. *)
Definition stored (s : option ScopeSpec) : option CapabilityScope := match s with Some (Scope c) => Some c | _ => None end.

Definition same_kind (a b : CapabilityScope) : bool :=
  match a, b with
  | CurrentChat, CurrentChat | SelectedChats _, SelectedChats _ | Chat _, Chat _ | All, All | User, User | Workspace _, Workspace _
  | Installation, Installation | Origins _, Origins _ | Custom _, Custom _ => true
  | _, _ => false
  end.

Definition name_eqb (a b : Name) : bool :=
  match a, b with
  | Str s, Str t => bool_decide (s = t)
  | Inherited s, Inherited t => bool_decide (s = t)
  | _, _ => false
  end.

Definition grantSatisfies (grant : CapabilityGrant) (request : CapabilityRequest) : bool :=
  if negb (name_eqb (grantName grant) (name request)) then false
  else match resolve (scope request) with
  | None => true
  | Some want =>
      match grantScope grant with
      | None => false
      | Some All => true
      | Some has =>
          if negb (same_kind has want) then false
          else match has, want with
          | Chat a, Chat b => bool_decide (a = b)
          | SelectedChats l, Chat c => bool_decide (c ∈ l)
          | Origins l, Origins k => forallb (fun o => bool_decide (o ∈ l)) k
          | _, _ => true
          end
      end
  end.

(** ** Stored grants *)

Record CapabilityGrantEntry := MkEntry {
  pluginId : text;
  entryName : text;
  entryScope : option CapabilityScope;
  revision : Z;
  entryGrantedAt : Z;
  expiresAt : option Z;
  revokedAt : option Z
}.

Record Revoked := MkRevoked { revokedPlugin : text; revokedName : text; revokedRevision : Z }.

(** The table and the events on the bus. *)
Record State := MkState { rows : list CapabilityGrantEntry; events : list Revoked }.

Definition is_row (p n : text) (e : CapabilityGrantEntry) : bool := bool_decide (pluginId e = p) && bool_decide (entryName e = n).

Definition get (p n : text) (l : list CapabilityGrantEntry) : option CapabilityGrantEntry := List.find (is_row p n) l.

Definition active (now : Z) (e : CapabilityGrantEntry) : bool :=
  match revokedAt e with
  | Some _ => false
  | None => match expiresAt e with None => true | Some t => now <? t end
  end.

Definition listActive (p : text) (now : Z) (l : list CapabilityGrantEntry) : list CapabilityGrantEntry :=
  stable_sort (fun a b => list_cmp zcmp (entryName a) (entryName b) <=? 0)
    (List.filter (fun e => bool_decide (pluginId e = p) && active now e) l).

(** Issue or issue again; the broker gives no expiry. *)
Definition grant (p n : text) (s : option CapabilityScope) (now : Z) (l : list CapabilityGrantEntry) : list CapabilityGrantEntry :=
  match get p n l with
  | Some _ => map (fun e => if is_row p n e then MkEntry p n s (revision e + 1) now None None else e) l
  | None => l ++ [MkEntry p n s 1 now None None]
  end.

Definition mark_revoked (now : Z) (e : CapabilityGrantEntry) : CapabilityGrantEntry :=
  MkEntry (pluginId e) (entryName e) (entryScope e) (revision e) (entryGrantedAt e) (expiresAt e)
    (match revokedAt e with Some t => Some t | None => Some now end).

Definition revoke_row (p n : text) (now : Z) (l : list CapabilityGrantEntry) : list CapabilityGrantEntry :=
  map (fun e => if is_row p n e then mark_revoked now e else e) l.

Definition revoke_rows (p : text) (now : Z) (l : list CapabilityGrantEntry) : list CapabilityGrantEntry :=
  map (fun e => if bool_decide (pluginId e = p) then mark_revoked now e else e) l.

(** ** The broker *)

Definition toGrant (e : CapabilityGrantEntry) : CapabilityGrant := MkGrant (Str (entryName e)) (entryScope e) (revision e) (entryGrantedAt e).

(** What a string of the user's permissions is consent to. *)
Definition consent_of (request : CapabilityRequest) (raw : text) : option CapabilityRequest :=
  if name_eqb (Str raw) (name request) then Some request
  else match parseCapability raw with
  | Some parsed => if grantSatisfies (MkGrant (name parsed) (resolve (scope parsed)) 0 0) request then Some parsed else None
  | None => None
  end.

Fixpoint consentFor (request : CapabilityRequest) (grantedPermissions : list text) : option CapabilityRequest :=
  match grantedPermissions with
  | [] => None
  | raw :: r => match consent_of request raw with Some c => Some c | None => consentFor request r end
  end.

(** The grants that were issued, or none of them when a name that is no string makes
    the database throw; rows that were written stay. *)
Fixpoint grantConsented (p : text) (requests : list CapabilityRequest) (grantedPermissions : list text) (now : Z)
    (l : list CapabilityGrantEntry) : list CapabilityGrantEntry * outcome unit (list CapabilityGrant) :=
  match requests with
  | [] => (l, Ok [])
  | request :: r =>
      match name request with
      | Inherited _ => (l, Throw tt)
      | Str n =>
          let next l' issued :=
            let (l2, o) := grantConsented p r grantedPermissions now l' in
            (l2, match o with Ok g => Ok (issued ++ g) | Throw e => Throw e end) in
          match get p n l with
          | Some e =>
              if active now e then next l [toGrant e]
              else match consentFor request grantedPermissions with
                   | None => next l []
                   | Some c => let l' := grant p n (stored (scope c)) now l in next l' (map toGrant (option_list (get p n l')))
                   end
          | None =>
              match consentFor request grantedPermissions with
              | None => next l []
              | Some c => let l' := grant p n (stored (scope c)) now l in next l' (map toGrant (option_list (get p n l')))
              end
          end
      end
  end.

Definition grantRuntime (p : text) (request : text) (requested : option CapabilityScope) (now : Z) (l : list CapabilityGrantEntry) :
    list CapabilityGrantEntry * outcome unit (option CapabilityGrant) :=
  match parseCapability request with
  | None => (l, Ok None)
  | Some parsed =>
      match name parsed with
      | Inherited _ => (l, Throw tt)
      | Str n =>
          let s := match requested with Some c => Some c | None => stored (scope parsed) end in
          match get p n l with
          | Some e =>
              if active now e then (l, Ok (Some (toGrant e)))
              else let l' := grant p n s now l in (l', Ok (option_map toGrant (get p n l')))
          | None => let l' := grant p n s now l in (l', Ok (option_map toGrant (get p n l')))
          end
      end
  end.

Definition check (p : text) (request : CapabilityRequest) (now : Z) (l : list CapabilityGrantEntry) : bool :=
  match name request with
  | Str n =>
      match get p n l with
      | Some e => if active now e then grantSatisfies (toGrant e) request else false
      | None => false
      end
  | Inherited _ => false
  end.

Definition revoke (p n : text) (now : Z) (st : State) : State * option Z :=
  match get p n (rows st) with
  | None => (st, None)
  | Some e =>
      match revokedAt e with
      | Some _ => (st, None)
      | None => (MkState (revoke_row p n now (rows st)) (events st ++ [MkRevoked p n (revision e)]), Some (revision e))
      end
  end.

Definition revokeAll (p : text) (now : Z) (st : State) : State * Z :=
  (MkState (revoke_rows p now (rows st)) (events st ++ map (fun e => MkRevoked p (entryName e) (revision e)) (listActive p now (rows st))),
   Z.of_nat (length (List.filter (fun e => bool_decide (pluginId e = p) && match revokedAt e with None => true | _ => false end) (rows st)))).

Inductive Op :=
| GrantConsented (p : text) (requests : list CapabilityRequest) (grantedPermissions : list text) (now : Z)
| GrantRuntime (p : text) (request : text) (requested : option CapabilityScope) (now : Z)
| Revoke (p n : text) (now : Z)
| RevokeAll (p : text) (now : Z).

Definition step (st : State) (op : Op) : State :=
  match op with
  | GrantConsented p r g now => MkState (fst (grantConsented p r g now (rows st))) (events st)
  | GrantRuntime p r s now => MkState (fst (grantRuntime p r s now (rows st))) (events st)
  | Revoke p n now => fst (revoke p n now st)
  | RevokeAll p now => fst (revokeAll p now st)
  end.

Definition run (ops : list Op) : State := fold_left step ops (MkState [] []).

(** *** What a grant stands for *)

Inductive Target :=
| OfCurrentChat
| InChat (chatId : text)
| OfUser
| InWorkspace (workspaceId : text)
| OfInstallation
| AtOrigin (origin : text)
| OfParams (params : json N).

Definition permits (s : CapabilityScope) (t : Target) : Prop :=
  match s, t with
  | All, _ | CurrentChat, OfCurrentChat | User, OfUser | Installation, OfInstallation | Workspace None, InWorkspace _ => True
  | Chat c, InChat d => c = d
  | SelectedChats l, InChat d => d ∈ l
  | Workspace (Some w), InWorkspace v => w = v
  | Origins l, AtOrigin o => o ∈ l
  | Custom p, OfParams q => p = q
  | _, _ => False
  end.

(** The scopes that are compared beyond their kind. *)
Definition compared (s : CapabilityScope) : bool := match s with SelectedChats _ | Workspace _ | Custom _ => false | _ => true end.

(** A request is granted only what the grant stands for.  A check that
    succeeds has the name of the grant, and, for a scope that is compared, every
    target of the request is a target of the grant; without a scope in the grant no
    request with a scope succeeds. *)
Theorem satisfied_requests_are_covered g r want :
  grantSatisfies g r = true -> resolve (scope r) = Some want ->
  grantName g = name r /\ exists has, grantScope g = Some has /\ (compared want = true -> forall t, permits want t -> permits has t).
Proof.
  unfold grantSatisfies. destruct (name_eqb (grantName g) (name r)) eqn:En; [|done]. intros H Hw. rewrite Hw in H.
  split. { destruct (grantName g), (name r); try done; cbn in En; by apply bool_decide_eq_true in En as ->. }
  destruct (grantScope g) as [has|]; [|done]. exists has. split; [done|]. intros Hc t.
  destruct has, want; cbn in H, Hc; try done; destruct t; cbn; try done.
  - by apply bool_decide_eq_true in H as ->.
  - intros Ho. rewrite forallb_forall in H. apply elem_of_In in Ho. specialize (H _ Ho). by apply bool_decide_eq_true in H.
Qed.

(** *** Where grants come from *)

(** An operation that issues a grant of [p] for [n] with the scope [s]: the user has
    consented to a request of the manifest, or has approved it at run time. *)
Definition issues (op : Op) (p n : text) (s : option CapabilityScope) : Prop :=
  match op with
  | GrantConsented p' requests grantedPermissions _ =>
      p' = p /\ exists request raw c, request ∈ requests /\ name request = Str n /\ raw ∈ grantedPermissions /\
        consent_of request raw = Some c /\ s = stored (scope c)
  | GrantRuntime p' request requested _ =>
      p' = p /\ exists parsed, parseCapability request = Some parsed /\ name parsed = Str n /\
        s = match requested with Some c => Some c | None => stored (scope parsed) end
  | _ => False
  end.

Definition revokes (op : Op) (p n : text) : Prop :=
  match op with Revoke p' n' _ => p' = p /\ n' = n | RevokeAll p' _ => p' = p | _ => False end.

(** A grant that was issued and has not been revoked since. *)
Definition provenance (ops : list Op) (p n : text) (s : option CapabilityScope) : Prop :=
  exists before op after, ops = before ++ op :: after /\ issues op p n s /\ Forall (fun o => ~ revokes o p n) after.

Lemma provenance_snoc ops op p n s : provenance ops p n s -> ~ revokes op p n -> provenance (ops ++ [op]) p n s.
Proof.
  intros (b & o & a & -> & Hi & Ha) Hr. exists b, o, (a ++ [op]). rewrite <- app_assoc. split; [done|]. split; [done|].
  apply Forall_app. by repeat constructor.
Qed.

Lemma consentFor_Some request perms c : consentFor request perms = Some c -> exists raw, raw ∈ perms /\ consent_of request raw = Some c.
Proof.
  induction perms as [|raw r IH]; [done|]. cbn. destruct (consent_of request raw) as [x|] eqn:E.
  - intros [= ->]. exists raw. split; [by left|done].
  - intros H. destruct (IH H) as (w & Hw & Ew). exists w. split; [by right|done].
Qed.

Lemma grant_elem p n s now l e : e ∈ grant p n s now l ->
  e ∈ l \/ (pluginId e = p /\ entryName e = n /\ entryScope e = s /\ revokedAt e = None /\ expiresAt e = None).
Proof.
  unfold grant. destruct (get p n l).
  - rewrite elem_of_In, in_map_iff. intros (x & <- & Hx). destruct (is_row p n x); [by right|]. left. by apply elem_of_In.
  - rewrite elem_of_app, list_elem_of_singleton. intros [H| ->]; [by left|by right].
Qed.

Lemma grantConsented_elem p now perms requests : forall l e, e ∈ fst (grantConsented p requests perms now l) ->
  e ∈ l \/ (issues (GrantConsented p requests perms now) (pluginId e) (entryName e) (entryScope e) /\ expiresAt e = None).
Proof.
  induction requests as [|request r IH]; intros l e; [by left|]. cbn [grantConsented].
  assert (Hnext : forall l', e ∈ fst (grantConsented p r perms now l') -> e ∈ l' \/
    (issues (GrantConsented p (request :: r) perms now) (pluginId e) (entryName e) (entryScope e) /\ expiresAt e = None)).
  { intros l' [H|[(-> & q & raw & c & Hq & H) Hx]]%IH; [by left|]. right. split; [|done]. split; [done|]. exists q, raw, c. split; [by right|done]. }
  destruct (name request) as [n|n] eqn:En; [|by left].
  assert (Hkeep : forall issued, e ∈ fst (let (l2, o) := grantConsented p r perms now l in
      (l2, match o with Ok g => Ok (issued ++ g) | Throw x => Throw x end)) -> e ∈ l \/
    (issues (GrantConsented p (request :: r) perms now) (pluginId e) (entryName e) (entryScope e) /\ expiresAt e = None)).
  { intros gs H. apply Hnext. revert H. by destruct (grantConsented p r perms now l). }
  assert (Hissue : forall c issued, consentFor request perms = Some c -> e ∈ fst (let (l2, o) := grantConsented p r perms now (grant p n (stored (scope c)) now l) in
      (l2, match o with Ok g => Ok (issued ++ g) | Throw x => Throw x end)) -> e ∈ l \/
    (issues (GrantConsented p (request :: r) perms now) (pluginId e) (entryName e) (entryScope e) /\ expiresAt e = None)).
  { intros c gs (raw & Hraw & Hc)%consentFor_Some H.
    assert (H0 : e ∈ fst (grantConsented p r perms now (grant p n (stored (scope c)) now l))) by (revert H; by destruct (grantConsented p r perms now (grant p n (stored (scope c)) now l))).
    apply Hnext in H0 as [H'|H']; [|by right].
    apply grant_elem in H' as [H'|(-> & -> & -> & _ & Hx)]; [by left|]. right. split; [|done]. split; [done|]. exists request, raw, c.
    split; [by left|done]. }
  destruct (get p n l) as [x|]; [destruct (active now x); [apply Hkeep|]|]; destruct (consentFor request perms) as [c|] eqn:Ec;
    (apply Hkeep || by apply Hissue).
Qed.

Lemma grantRuntime_elem p request requested now l e : e ∈ fst (grantRuntime p request requested now l) ->
  e ∈ l \/ (issues (GrantRuntime p request requested now) (pluginId e) (entryName e) (entryScope e) /\ expiresAt e = None).
Proof.
  unfold grantRuntime. destruct (parseCapability request) as [parsed|] eqn:Ep; [|by left]. destruct (name parsed) as [n|n] eqn:En; [|by left].
  assert (H : e ∈ grant p n (match requested with Some c => Some c | None => stored (scope parsed) end) now l ->
    e ∈ l \/ (issues (GrantRuntime p request requested now) (pluginId e) (entryName e) (entryScope e) /\ expiresAt e = None)).
  { intros [H|(-> & -> & -> & _ & Hx)]%grant_elem; [by left|]. right. split; [|done]. split; [done|]. by exists parsed. }
  destruct (get p n l) as [x|]; [|exact H]. destruct (active now x); [by left|exact H].
Qed.

Lemma run_snoc ops op : run (ops ++ [op]) = step (run ops) op.
Proof. unfold run. by rewrite fold_left_app. Qed.

(** *** One row for each plugin and name *)

Definition keys (l : list CapabilityGrantEntry) : list (text * text) := map (fun e => (pluginId e, entryName e)) l.

Lemma is_row_true p n e : is_row p n e = true <-> (pluginId e, entryName e) = (p, n).
Proof.
  unfold is_row. rewrite andb_true_iff, !bool_decide_eq_true. split; [by intros [-> ->]|]. by intros [= -> ->].
Qed.

Lemma get_Some p n l e : get p n l = Some e -> e ∈ l /\ pluginId e = p /\ entryName e = n.
Proof. intros [H E]%List.find_some. apply is_row_true in E as [= <- <-]. split; [by apply elem_of_In|done]. Qed.

Lemma get_None p n l : get p n l = None -> (p, n) ∉ keys l.
Proof.
  intros H Hin. unfold keys in Hin. rewrite elem_of_In, in_map_iff in Hin. destruct Hin as (e & E & He).
  pose proof (List.find_none _ _ H e He) as F. apply is_row_true in E. congruence.
Qed.

Lemma same_row l a b : NoDup (keys l) -> a ∈ l -> b ∈ l -> pluginId a = pluginId b -> entryName a = entryName b -> a = b.
Proof.
  intros Hnd Ha Hb E1 E2. induction l as [|x l IH]; [by apply not_elem_of_nil in Ha|]. cbn in Hnd. apply NoDup_cons in Hnd as [Hx Hnd].
  assert (Hk : forall y, y ∈ l -> (pluginId y, entryName y) ∈ keys l) by (intros y Hy; unfold keys; rewrite elem_of_In; apply (in_map (fun e => (pluginId e, entryName e))); by apply elem_of_In).
  apply elem_of_cons in Ha as [->|Ha], Hb as [->|Hb]; [done| | |by apply IH].
  - destruct Hx. rewrite E1, E2. by apply Hk.
  - destruct Hx. rewrite <- E1, <- E2. by apply Hk.
Qed.

Lemma keys_map f l : (forall e, e ∈ l -> (pluginId (f e), entryName (f e)) = (pluginId e, entryName e)) -> keys (map f l) = keys l.
Proof.
  intros H. unfold keys. rewrite map_map. apply map_ext_in. intros e He. apply H. by apply elem_of_In.
Qed.

Lemma grant_keys p n s now l : NoDup (keys l) -> NoDup (keys (grant p n s now l)).
Proof.
  intros H. unfold grant. destruct (get p n l) eqn:E.
  - rewrite keys_map; [done|]. intros e _. destruct (is_row p n e) eqn:Er; [|done]. by apply is_row_true in Er as ->.
  - unfold keys. rewrite map_app. apply NoDup_app. split; [done|]. split; [|apply NoDup_singleton].
    intros x Hx ->%list_elem_of_singleton. by apply get_None in E.
Qed.

(** What grants keep is kept by the operations that issue them. *)
Lemma grantConsented_keeps (P : list CapabilityGrantEntry -> Prop) p perms now requests :
  (forall n s l, P l -> P (grant p n s now l)) -> forall l, P l -> P (fst (grantConsented p requests perms now l)).
Proof.
  intros Hg. induction requests as [|request r IH]; intros l Hl; [done|]. cbn [grantConsented]. destruct (name request) as [n|n]; [|done].
  assert (Hk : forall l' issued, P l' -> P (fst (let (l2, o) := grantConsented p r perms now l' in
      (l2, match o with Ok g => Ok (issued ++ g) | Throw x => Throw x end)))).
  { intros l' gs Hl'. specialize (IH l' Hl'). by destruct (grantConsented p r perms now l'). }
  destruct (get p n l) as [x|]; [destruct (active now x)|]; [by apply Hk| |]; destruct (consentFor request perms); apply Hk; auto.
Qed.

Lemma grantRuntime_keeps (P : list CapabilityGrantEntry -> Prop) p request requested now :
  (forall n s l, P l -> P (grant p n s now l)) -> forall l, P l -> P (fst (grantRuntime p request requested now l)).
Proof.
  intros Hg l Hl. unfold grantRuntime. destruct (parseCapability request) as [parsed|]; [|done]. destruct (name parsed) as [n|n]; [|done].
  destruct (get p n l) as [x|]; [destruct (active now x)|]; cbn; auto.
Qed.

Lemma revoke_row_keys p n now l : keys (revoke_row p n now l) = keys l.
Proof. apply keys_map. intros e _. by destruct (is_row p n e). Qed.

Lemma revoke_rows_keys p now l : keys (revoke_rows p now l) = keys l.
Proof. apply keys_map. intros e _. by case_bool_decide. Qed.

Lemma step_keys st op : NoDup (keys (rows st)) -> NoDup (keys (rows (step st op))).
Proof.
  intros H. destruct op as [p reqs perms now|p rq s now|p n now|p now]; cbn [step rows].
  - apply grantConsented_keeps; [intros *; apply grant_keys|done].
  - apply grantRuntime_keeps; [intros *; apply grant_keys|done].
  - unfold revoke. destruct (get p n (rows st)) as [x|]; [destruct (revokedAt x)|]; cbn; [done| |done]. by rewrite revoke_row_keys.
  - cbn. by rewrite revoke_rows_keys.
Qed.

Lemma run_keys ops : NoDup (keys (rows (run ops))).
Proof. induction ops as [|op ops IH] using rev_ind; [apply NoDup_nil_2|]. rewrite run_snoc. by apply step_keys. Qed.

(** A row that is not revoked after a revocation is another one. *)
Lemma revoke_elem p n now st e : NoDup (keys (rows st)) -> e ∈ rows (fst (revoke p n now st)) -> revokedAt e = None ->
  e ∈ rows st /\ ~ (p = pluginId e /\ n = entryName e).
Proof.
  intros Hnd He Hr. unfold revoke in He. destruct (get p n (rows st)) as [x|] eqn:Eg.
  - pose proof (get_Some _ _ _ _ Eg) as (Hx & Ep & En). destruct (revokedAt x) eqn:Ex; cbn [fst rows] in He.
    + split; [done|]. intros [-> ->]. assert (x = e) as -> by (by eapply same_row). congruence.
    + unfold revoke_row in He. rewrite elem_of_In, in_map_iff in He. destruct He as (y & <- & Hy). destruct (is_row p n y) eqn:Ey.
      * cbn in Hr. by destruct (revokedAt y).
      * split; [by apply elem_of_In|]. intros [-> ->]. unfold is_row in Ey. by rewrite !bool_decide_true in Ey.
  - split; [done|]. intros [-> ->]. apply get_None in Eg. apply Eg. unfold keys. rewrite elem_of_In.
    apply (in_map (fun e => (pluginId e, entryName e))). by apply elem_of_In.
Qed.

Lemma revoke_rows_elem p now l e : e ∈ revoke_rows p now l -> revokedAt e = None -> e ∈ l /\ p <> pluginId e.
Proof.
  unfold revoke_rows. rewrite elem_of_In, in_map_iff. intros (y & <- & Hy) Hr. case_bool_decide as Hp.
  - cbn in Hr. by destruct (revokedAt y).
  - split; [by apply elem_of_In|]. congruence.
Qed.

(** Every row that is not revoked has its provenance. *)
Lemma run_provenance ops e : e ∈ rows (run ops) -> revokedAt e = None -> provenance ops (pluginId e) (entryName e) (entryScope e).
Proof.
  revert e. induction ops as [|op ops IH] using rev_ind; intros e; [by intros H%elem_of_nil|]. rewrite run_snoc.
  assert (New : issues op (pluginId e) (entryName e) (entryScope e) -> provenance (ops ++ [op]) (pluginId e) (entryName e) (entryScope e)).
  { intros Hx. exists ops, op, []. by repeat constructor. }
  assert (Old : e ∈ rows (run ops) -> revokedAt e = None -> ~ revokes op (pluginId e) (entryName e) ->
    provenance (ops ++ [op]) (pluginId e) (entryName e) (entryScope e)) by (intros; apply provenance_snoc; auto).
  destruct op as [p reqs perms now|p rq s now|p n now|p now]; cbn [step rows]; intros He Hr.
  - apply grantConsented_elem in He as [He|[He _]]; [apply Old; [done..|by intros []]|by apply New].
  - apply grantRuntime_elem in He as [He|[He _]]; [apply Old; [done..|by intros []]|by apply New].
  - destruct (revoke_elem p n now (run ops) e (run_keys ops) He Hr) as [He' Hn]. by apply Old.
  - destruct (revoke_rows_elem p now (rows (run ops)) e He Hr) as [He' Hn]. by apply Old.
Qed.


(** *** Granting again *)

Definition no_expiry (l : list CapabilityGrantEntry) : Prop := forall e, e ∈ l -> expiresAt e = None.

Lemma run_no_expiry ops : no_expiry (rows (run ops)).
Proof.
  induction ops as [|op ops IH] using rev_ind; [by intros e H%elem_of_nil|]. rewrite run_snoc. intros e He.
  destruct op as [p reqs perms now|p rq s now|p n now|p now]; cbn [step rows] in He.
  - apply grantConsented_elem in He as [He|[_ He]]; [by apply IH|done].
  - apply grantRuntime_elem in He as [He|[_ He]]; [by apply IH|done].
  - unfold revoke in He. destruct (get p n (rows (run ops))) as [x|]; [destruct (revokedAt x)|]; cbn in He; [by apply IH| |by apply IH].
    unfold revoke_row in He. rewrite elem_of_In, in_map_iff in He. destruct He as (y & <- & Hy). apply elem_of_In in Hy.
    destruct (is_row p n y); by apply IH in Hy.
  - cbn in He. unfold revoke_rows in He. rewrite elem_of_In, in_map_iff in He. destruct He as (y & <- & Hy). apply elem_of_In in Hy.
    case_bool_decide; by apply IH in Hy.
Qed.

(** The plugin holds the capability, at any time. *)
Definition held (p n : text) (l : list CapabilityGrantEntry) : Prop :=
  exists e, get p n l = Some e /\ revokedAt e = None /\ expiresAt e = None.

Lemma held_active p n l now : held p n l -> exists e, get p n l = Some e /\ active now e = true.
Proof. intros (e & E & Hr & Hx). exists e. unfold active. by rewrite Hr, Hx. Qed.

Lemma get_map p n f l : (forall e, is_row p n (f e) = is_row p n e) -> get p n (map f l) = option_map f (get p n l).
Proof. intros H. unfold get. induction l as [|e l IH]; [done|]. cbn. rewrite H. by destruct (is_row p n e). Qed.

Lemma get_app p n l k : get p n (l ++ k) = match get p n l with Some e => Some e | None => get p n k end.
Proof. unfold get. induction l as [|e l IH]; [done|]. cbn. by destruct (is_row p n e). Qed.

Lemma granted_row p n s now e : is_row p n (MkEntry p n s (revision e + 1) now None None) = true.
Proof. by apply is_row_true. Qed.

Lemma grant_held p n s now l : held p n (grant p n s now l).
Proof.
  unfold held, grant. destruct (get p n l) as [e|] eqn:E.
  - rewrite get_map, E. 2: { intros x. destruct (is_row p n x) eqn:Ex; [apply granted_row|done]. }
    apply get_Some in E as (_ & Ep & En). eexists. cbn. assert (is_row p n e = true) as -> by (apply is_row_true; congruence). done.
  - eexists. rewrite get_app, E. unfold get. cbn. assert (is_row p n (MkEntry p n s 1 now None None) = true) as -> by by apply is_row_true. done.
Qed.

Lemma grant_keeps_held p n n' s now l : held p n l -> held p n (grant p n' s now l).
Proof.
  destruct (decide (n' = n)) as [->|Hn]; [intros _; apply grant_held|]. intros (e & E & Hr & Hx). exists e. split; [|done].
  unfold grant. destruct (get p n' l) as [x|].
  - rewrite get_map, E. 2: { intros y. destruct (is_row p n' y) eqn:Ey; [|done]. apply is_row_true in Ey as [= <- <-].
      transitivity false; [|symmetry]; apply not_true_is_false; by intros [= ?]%is_row_true. }
    cbn. destruct (is_row p n' e) eqn:Ee; [|done]. apply is_row_true in Ee. apply get_Some in E as (_ & _ & En). congruence.
  - by rewrite get_app, E.
Qed.

Fixpoint settled (p : text) (perms : list text) (requests : list CapabilityRequest) (l : list CapabilityGrantEntry) : Prop :=
  match requests with
  | [] => True
  | r :: rest =>
      match name r with
      | Inherited _ => True
      | Str n => (held p n l \/ (consentFor r perms = None)) /\ settled p perms rest l
      end
  end.

Lemma settled_same p perms now requests : forall l, settled p perms requests l -> fst (grantConsented p requests perms now l) = l.
Proof.
  induction requests as [|r rest IH]; intros l Hs; [done|]. cbn in *. destruct (name r) as [n|n]; [|done]. destruct Hs as [Hh Hs].
  specialize (IH l Hs). destruct Hh as [Hh|Hh].
  - destruct (held_active p n l now Hh) as (e & -> & ->). by destruct (grantConsented p rest perms now l).
  - rewrite Hh. destruct (get p n l) as [e|]; [destruct (active now e)|]; by destruct (grantConsented p rest perms now l).
Qed.

Lemma grant_no_expiry p n s now l : no_expiry l -> no_expiry (grant p n s now l).
Proof. intros H e [He|(_ & _ & _ & _ & He)]%grant_elem; auto. Qed.

Lemma grantConsented_settles p perms now requests : forall l, no_expiry l -> settled p perms requests (fst (grantConsented p requests perms now l)).
Proof.
  induction requests as [|r rest IH]; intros l Hl; [done|]. cbn [grantConsented settled]. destruct (name r) as [n|n]; [|done].
  assert (Hnext : forall l' gs, no_expiry l' -> (held p n l' \/ consentFor r perms = None) ->
    let l2 := fst (let (l2, o) := grantConsented p rest perms now l' in (l2, match o with Ok g => Ok (gs ++ g) | Throw x => Throw x end)) in
    (held p n l2 \/ consentFor r perms = None) /\ settled p perms rest l2).
  { intros l' gs Hx Hh. specialize (IH l' Hx).
    assert (Hk : held p n l' -> held p n (fst (grantConsented p rest perms now l'))).
    { intros H. apply grantConsented_keeps; [|done]. intros m s k. apply grant_keeps_held. }
    destruct (grantConsented p rest perms now l') as [l2 o]. cbn in *. split; [|done]. destruct Hh as [Hh|Hh]; [left; by apply Hk|by right]. }
  destruct (get p n l) as [e|] eqn:E; [destruct (active now e) eqn:Ea|].
  - apply Hnext; [done|]. left. exists e. split; [done|]. pose proof (get_Some _ _ _ _ E) as (He & _). specialize (Hl e He).
    unfold active in Ea. by destruct (revokedAt e).
  - destruct (consentFor r perms) as [c|]; apply Hnext; auto using grant_no_expiry, grant_held.
  - destruct (consentFor r perms) as [c|]; apply Hnext; auto using grant_no_expiry, grant_held.
Qed.

(** Activating a plugin again changes nothing: granting the same consented
    requests once more leaves the table, its revisions and its times as they are, at any
    later or earlier time, whatever the broker did before. *)
Theorem consent_idempotent ops p requests perms now now' :
  let l := fst (grantConsented p requests perms now (rows (run ops))) in
  fst (grantConsented p requests perms now' l) = l.
Proof. intros l. apply settled_same, grantConsented_settles, run_no_expiry. Qed.
End Capabilities.

(** ** Runs *)

Definition no_urls (s : text) : option text := None.
Definition chats_read : text := lit "chats.read.selected".
Definition asks (n : text) (s : CapabilityScope (N := Z)) : CapabilityRequest (N := Z) := MkRequest (Str n) (Some (Scope s)).

(** A grant for selected chats covers no request for one of them, and every request
    for selected chats, whichever they are; workspaces are not compared either. *)
Theorem selected_chats_not_compared :
  let g := fun s => MkGrant (N := Z) (Str chats_read) (Some s) 1 0 in
  grantSatisfies (g (SelectedChats [lit "a"])) (asks chats_read (Chat (lit "a"))) = false /\
  grantSatisfies (g (SelectedChats [lit "a"])) (asks chats_read (SelectedChats [lit "b"])) = true /\
  grantSatisfies (g (Workspace (Some (lit "a")))) (asks chats_read (Workspace (Some (lit "b")))) = true.
Proof. vm_compute. done. Qed.

Definition net (origin : string) : CapabilityRequest (N := Z) := asks (lit "network.domains") (Origins [lit "https://" ++ lit origin]).

(** A plugin that asks for two origins and is given consent for both can use the first
    only; an approval of a wider scope at run time is dropped as well. *)
Theorem one_scope_for_a_name :
  let st := run no_urls [GrantConsented (lit "p") [net "a.com"; net "b.com"] [lit "network:a.com"; lit "network:b.com"] 1] in
  check (lit "p") (net "a.com") 2 (rows st) = true /\ check (lit "p") (net "b.com") 2 (rows st) = false /\
  check (lit "p") (net "b.com") 4 (rows (step no_urls st (GrantRuntime (lit "p") (lit "network:b.com") None 3))) = false.
Proof. vm_compute. done. Qed.

(** A name of the prototype of objects passes for a capability, and issuing it throws. *)
Theorem inherited_names_parse :
  parseCapability (N := Z) no_urls (lit "constructor") = Some (MkRequest (Inherited (lit "constructor")) None) /\
  parseCapability (N := Z) no_urls (lit "unknown") = None /\
  snd (grantRuntime (N := Z) no_urls (lit "p") (lit "constructor") None 1 []) = Throw tt.
Proof. vm_compute. done. Qed.

(** Revoking leaves the revision as it is; only granting again raises it. *)
Theorem revocation_keeps_revision :
  let st := run no_urls [GrantRuntime (lit "p") (lit "ui.panel") None 1; Revoke (lit "p") (lit "ui.panel") 2] in
  map (fun e => (revision e, revokedAt e)) (rows (N := Z) st) = [(1, Some 2)] /\
  map revokedRevision (events st) = [1].
Proof. vm_compute. done. Qed.


Lemma satisfied_requests_are_covered_witness :
  exists has, grantScope (MkGrant (N := Z) (Str (lit "network.domains")) (Some All) 1 0) = Some has /\ permits has (AtOrigin (lit "https://a.com")).
Proof.
  destruct (satisfied_requests_are_covered (N := Z) (MkGrant (Str (lit "network.domains")) (Some All) 1 0) (net "a.com")
    (Origins [lit "https://" ++ lit "a.com"]) eq_refl eq_refl) as (_ & has & E & H).
  exists has. split; [exact E|]. apply (H eq_refl). vm_compute. left.
Defined.
End Capabilities.
