(* ===== verification/ScoreHeap.v ===== *)
(** * The binary heap of the tokenizer
    (packages/provider-sdk/src/deepseekBpe.ts, class [ScoreHeap])

    The array of items is a list.  [PriorityQueue] is what the merge loop of
    [Bpe] needs of the heap; the heap is an instance of it. *)

From Stdlib Require Import ZArith Lia Bool List Permutation Sorted.
From stdpp Require Import base decidable list.
From S2P Require Import Prelude.
Local Open Scope nat_scope.

(** A comparator that orders items up to ties. *)
Class StrictWeakOrder {A : Type} (less : A -> A -> bool) : Prop := {
  less_asym : forall x y, less x y = true -> less y x = false;
  less_negtrans : forall x y z, less x y = false -> less y z = false -> less x z = false
}.

(** A queue that pops a least item: [items q] are the items it holds. *)
Class PriorityQueue {A Q : Type} (less : A -> A -> bool) (empty : Q) (push : A -> Q -> Q) (pop : Q -> option (A * Q))
    (items : Q -> list A) (ok : Q -> Prop) : Prop := {
  empty_ok : ok empty;
  empty_items : items empty = [];
  push_ok : forall x q, ok q -> ok (push x q);
  push_items : forall x q, items (push x q) ≡ₚ x :: items q;
  pop_None : forall q, pop q = None <-> items q = [];
  pop_ok : forall q x q', ok q -> pop q = Some (x, q') -> ok q';
  pop_items : forall q x q', pop q = Some (x, q') -> items q ≡ₚ x :: items q';
  pop_least : forall q x q' y, ok q -> pop q = Some (x, q') -> y ∈ items q -> less y x = false
}.

Module ScoreHeap.

Section Heap.
Context {A : Type} (less : A -> A -> bool).

(** [greater(a, b)]: the item at [a] comes before the item at [b]. *)
Definition greater (h : list A) (a b : nat) : bool :=
  match h !! a, h !! b with
  | Some l, Some r => less l r
  | _, _ => false
  end.

(** [swap(a, b)]; both callers pass positions of the array. *)
Definition swap (a b : nat) (h : list A) : list A :=
  match h !! a, h !! b with
  | Some x, Some y => <[b := x]> (<[a := y]> h)
  | _, _ => h
  end.

Definition parent (i : nat) : nat := Nat.div2 (i - 1).

Fixpoint sift_up (fuel : nat) (h : list A) (i : nat) : list A :=
  match fuel with
  | O => h
  | S f => if (0 <? i) && greater h i (parent i) then sift_up f (swap (parent i) i h) (parent i) else h
  end.

Definition siftUpFrom (h : list A) (i : nat) : list A := sift_up i h i.

Fixpoint sift_down (fuel : nat) (h : list A) (e : nat) : list A :=
  match fuel with
  | O => h
  | S f =>
      let left := 2 * e + 1 in
      let right := 2 * e + 2 in
      if (left <? length h) && greater h left e || (right <? length h) && greater h right e
      then let t := if (right <? length h) && greater h right left then right else left in
           sift_down f (swap e t h) t
      else h
  end.

(** Every round of the loop goes down one level. *)
Definition siftDown (h : list A) : list A := sift_down (length h) h 0.

Definition isEmpty (h : list A) : bool := match h with [] => true | _ => false end.

Definition push (item : A) (h : list A) : list A := siftUpFrom (h ++ [item]) (length h).

Definition pop (h : list A) : option (A * list A) :=
  match h with
  | [] => None
  | root :: _ => Some (root, siftDown (removelast (swap 0 (length h - 1) h)))
  end.

(** ** The order of a heap *)

(** [hle h i j]: the item at [i], when there are both, is not after the one at [j]. *)
Definition hle (h : list A) (i j : nat) : Prop :=
  forall x y, h !! i = Some x -> h !! j = Some y -> less y x = false.

Definition ordered (h : list A) : Prop := forall i, 0 < i -> hle h (parent i) i.

(** In order but for the edge above, or the edges below, one position. *)
Definition ordered_above (h : list A) (k : nat) : Prop :=
  (forall i, 0 < i -> i <> k -> hle h (parent i) i) /\
  (forall i, 0 < k -> 0 < i -> parent i = k -> hle h (parent k) i).

Definition ordered_below (h : list A) (e : nat) : Prop :=
  (forall i, 0 < i -> parent i <> e -> hle h (parent i) i) /\
  (forall i, 0 < e -> 0 < i -> parent i = e -> hle h (parent e) i).

Lemma parent_spec i : 0 < i -> i = 2 * parent i + 1 \/ i = 2 * parent i + 2.
Proof.
  intros Hi. unfold parent. pose proof (Nat.div2_odd (i - 1)) as E.
  destruct (Nat.odd (i - 1)); cbn [Nat.b2n] in E; lia.
Qed.

Lemma parent_lt i : 0 < i -> parent i < i.
Proof. intros Hi. pose proof (parent_spec i Hi). lia. Qed.

Lemma swap_length a b h : length (swap a b h) = length h.
Proof. unfold swap. repeat case_match; [by rewrite !length_insert | done..]. Qed.

Lemma lookup_swap a b h i :
  a < length h -> b < length h ->
  swap a b h !! i = if decide (i = b) then h !! a else if decide (i = a) then h !! b else h !! i.
Proof.
  intros Ha Hb. unfold swap. destruct (lookup_lt_is_Some_2 h a Ha) as [x Ex].
  destruct (lookup_lt_is_Some_2 h b Hb) as [y Ey]. rewrite Ex, Ey.
  repeat case_decide; subst.
  - by rewrite list_lookup_insert_eq by (by rewrite length_insert).
  - by rewrite list_lookup_insert_ne, list_lookup_insert_eq by done.
  - by rewrite !list_lookup_insert_ne by done.
Qed.

Lemma swap_perm a b h : swap a b h ≡ₚ h.
Proof.
  unfold swap. destruct (h !! a) as [x|] eqn:Ea; [|done]. destruct (h !! b) as [y|] eqn:Eb; [|done].
  destruct (decide (a = b)) as [->|Hne].
  - rewrite list_insert_insert_eq. by rewrite list_insert_id by congruence.
  - assert (H1 : <[b:=x]> (<[a:=y]> h) !! b = Some x).
    { apply list_lookup_insert_eq. rewrite length_insert. by eapply lookup_lt_Some. }
    pose proof (Permutation_inj (<[b:=x]> (<[a:=y]> h)) h) as [_ Hp]. apply Hp.
    split; [by rewrite !length_insert|].
    exists (fun i => if decide (i = a) then b else if decide (i = b) then a else i). split.
    + intros i j. repeat case_decide; congruence.
    + intros i. repeat case_decide; subst.
      * rewrite list_lookup_insert_ne, list_lookup_insert_eq; [done|by eapply lookup_lt_Some|done].
      * congruence.
      * by rewrite !list_lookup_insert_ne by done.
Qed.

Lemma sift_up_perm fuel h i : sift_up fuel h i ≡ₚ h.
Proof.
  revert h i. induction fuel as [|f IH]; intros h i; simpl; [done|].
  case_match; [|done]. by rewrite IH, swap_perm.
Qed.

Lemma sift_down_perm fuel h e : sift_down fuel h e ≡ₚ h.
Proof.
  revert h e. induction fuel as [|f IH]; intros h e; [done|]. cbn [sift_down].
  case_match; [|done]. by rewrite IH, swap_perm.
Qed.

Lemma greater_lt h a b : greater h a b = true -> a < length h /\ b < length h.
Proof.
  unfold greater. destruct (h !! a) eqn:Ea; [|done]. destruct (h !! b) eqn:Eb; [|done].
  intros _. split; by eapply lookup_lt_Some.
Qed.

Lemma greater_false h a b : greater h a b = false -> hle h b a.
Proof. unfold greater, hle. intros Hg x y Ex Ey. by rewrite Ex, Ey in Hg. Qed.

Context `{!StrictWeakOrder less}.

Lemma greater_true h a b : greater h a b = true -> hle h a b.
Proof.
  unfold greater, hle. intros Hg x y Ex Ey. rewrite Ex, Ey in Hg. by apply less_asym.
Qed.

Lemma less_irrefl x : less x x = false.
Proof. destruct (less x x) eqn:E; [|done]. rewrite <- E. by apply less_asym. Qed.

Lemma hle_trans h i j k : j < length h -> hle h i j -> hle h j k -> hle h i k.
Proof.
  intros Hj H1 H2 x z Ex Ez. destruct (lookup_lt_is_Some_2 h j Hj) as [y Ey].
  eapply less_negtrans; [by eapply H2 | by eapply H1].
Qed.

(** A swap of [a] and [b] seen through a renaming of positions. *)
Lemma hle_swap a b h i j :
  a < length h -> b < length h ->
  hle h (if decide (i = b) then a else if decide (i = a) then b else i)
        (if decide (j = b) then a else if decide (j = a) then b else j) ->
  hle (swap a b h) i j.
Proof.
  intros Ha Hb Hh x y. rewrite !lookup_swap by done. intros Ex Ey. apply Hh; by repeat case_decide.
Qed.

Lemma hle_refl h i : hle h i i.
Proof. intros x y Ex Ey. rewrite Ex in Ey. injection Ey as <-. apply less_irrefl. Qed.

Lemma hle_out h i j : length h <= j -> hle h i j.
Proof. intros Hj x y _ Ey. apply lookup_lt_Some in Ey. lia. Qed.

(** The comparison that the code guards with a test of the bounds. *)
Lemma smaller_spec h a b :
  if (a <? length h) && greater h a b then a < length h /\ b < length h /\ hle h a b else hle h b a.
Proof.
  destruct (Nat.ltb_spec a (length h)) as [Ha|Ha]; cbn [andb]; [|by apply hle_out].
  destruct (greater h a b) eqn:E; [|by apply greater_false].
  split_and!; [done | by eapply greater_lt | by apply greater_true].
Qed.

(** ** The two repairs *)

Lemma above_swap h k :
  0 < k -> k < length h -> ordered_above h k -> hle h k (parent k) -> ordered_above (swap (parent k) k h) (parent k).
Proof.
  intros Hk Hl [H1 H2] Hg. pose proof (parent_lt k Hk) as Hp. split.
  - intros i Hi Hne. apply hle_swap; [lia..|]. pose proof (parent_lt i Hi).
    rewrite (decide_False (P := i = parent k)) by done. destruct (decide (i = k)) as [->|Hik].
    { by rewrite decide_False, decide_True by lia. }
    destruct (decide (parent i = k)) as [E|]; [by apply H2|].
    destruct (decide (parent i = parent k)) as [E|]; [|by apply H1].
    apply (hle_trans h k (parent k) i); [lia | done |]. rewrite <- E. by apply H1.
  - intros i Hpk Hi E. apply hle_swap; [lia..|]. pose proof (parent_lt i Hi). pose proof (parent_lt _ Hpk).
    rewrite !(decide_False (P := parent (parent k) = _)) by lia.
    destruct (decide (i = k)) as [->|Hik]; [by apply H1; lia|]. rewrite decide_False by lia.
    apply (hle_trans h _ (parent k) i); [lia | by apply H1; lia |]. rewrite <- E. by apply H1.
Qed.

Lemma sift_up_ordered fuel h k : k <= fuel -> k < length h -> ordered_above h k -> ordered (sift_up fuel h k).
Proof.
  revert h k. induction fuel as [|f IH]; intros h k Hf Hk Ho; cbn [sift_up].
  - intros i Hi. apply Ho; lia.
  - destruct (Nat.ltb_spec 0 k) as [Hpos|]; cbn [andb]; [|intros i Hi; apply Ho; lia].
    pose proof (parent_lt k Hpos). destruct (greater h k (parent k)) eqn:Eg.
    + apply IH; [lia | rewrite swap_length; lia |]. apply above_swap; [done..|]. by apply greater_true.
    + intros i Hi. destruct (decide (i = k)) as [->|]; [by apply greater_false | by apply Ho].
Qed.

Lemma below_swap h e t :
  t < length h -> 0 < t -> parent t = e -> ordered_below h e -> hle h t e ->
  (forall i, 0 < i -> parent i = e -> hle h t i) -> ordered_below (swap e t h) t.
Proof.
  intros Ht H0 Hpt [H1 H2] Hg Ho. pose proof (parent_lt t H0) as Hlt. split.
  - intros i Hi Hne. apply hle_swap; [lia..|]. pose proof (parent_lt i Hi) as Hpi.
    rewrite (decide_False (P := parent i = t)) by done. destruct (decide (i = t)) as [->|Hit].
    { by rewrite decide_True by done. }
    destruct (decide (parent i = e)) as [E|Hpe].
    + rewrite decide_False by lia. by apply Ho.
    + destruct (decide (i = e)) as [->|]; [apply H2; [lia..|done] | by apply H1].
  - intros i _ Hi E. apply hle_swap; [lia..|]. pose proof (parent_lt i Hi) as Hpi. rewrite Hpt.
    rewrite (decide_False (P := e = t)) by lia. rewrite (decide_True (P := e = e)) by done.
    rewrite !decide_False by lia. rewrite <- E at 1. apply H1; [done | lia].
Qed.

Lemma sift_down_ordered fuel h e : length h <= fuel + e -> ordered_below h e -> ordered (sift_down fuel h e).
Proof.
  revert h e. induction fuel as [|f IH]; intros h e Hf Ho; cbn [sift_down].
  - intros i Hi. destruct (decide (parent i = e)) as [E|]; [|by apply Ho].
    intros x y Ex. apply lookup_lt_Some in Ex. lia.
  - pose proof (smaller_spec h (2 * e + 1) e) as Hl. pose proof (smaller_spec h (2 * e + 2) e) as Hr.
    pose proof (smaller_spec h (2 * e + 2) (2 * e + 1)) as Hc.
    pose proof (parent_spec (2 * e + 1) ltac:(lia)). pose proof (parent_spec (2 * e + 2) ltac:(lia)).
    destruct ((2 * e + 1 <? length h) && greater h (2 * e + 1) e), ((2 * e + 2 <? length h) && greater h (2 * e + 2) e);
      cbn [orb]; [| | |intros i Hi; destruct (decide (parent i = e)) as [<-|];
        [destruct (parent_spec i Hi) as [E|E]; rewrite E at 2; done | by apply Ho]].
    all: destruct ((2 * e + 2 <? length h) && greater h (2 * e + 2) (2 * e + 1));
      (apply IH; [rewrite swap_length; lia|]); apply below_swap; [lia|lia|lia|done| | |lia|lia|lia|done| |];
      [first [apply Hr | eapply hle_trans; [|apply Hc|apply Hl]; lia]|
       intros i Hi <-; destruct (parent_spec i Hi) as [E|E]; rewrite E at 2; (apply Hc || apply hle_refl) |
       first [apply Hl | eapply hle_trans; [|apply Hc|apply Hr]; lia]|
       intros i Hi <-; destruct (parent_spec i Hi) as [E|E]; rewrite E at 2; (apply Hc || apply hle_refl)].
Qed.

(** ** The operations *)

Lemma push_perm x h : push x h ≡ₚ x :: h.
Proof. unfold push, siftUpFrom. rewrite sift_up_perm. symmetry. apply Permutation_cons_append. Qed.

Lemma ordered_prefix h r : ordered (h ++ r) -> ordered h.
Proof. intros Ho i Hi x y Ex Ey. apply (Ho i Hi); by apply lookup_app_l_Some. Qed.

Lemma push_ordered x h : ordered h -> ordered (push x h).
Proof.
  intros Ho. unfold push, siftUpFrom. apply sift_up_ordered; [done | rewrite length_app; simpl; lia |]. split.
  - intros i Hi Hne a b Ea Eb. pose proof (lookup_lt_Some _ _ _ Eb) as Hl. rewrite length_app in Hl. simpl in Hl.
    pose proof (parent_lt i Hi). rewrite lookup_app_l in Ea, Eb by lia. by apply (Ho i Hi).
  - intros i _ Hi E. apply hle_out. rewrite length_app. simpl. pose proof (parent_lt i Hi). lia.
Qed.

Lemma root_first h root y : ordered h -> h !! 0 = Some root -> y ∈ h -> less y root = false.
Proof.
  intros Ho Hr [i Hi]%list_elem_of_lookup. revert y Hi. induction (lt_wf i) as [i _ IH]. intros y Hy.
  destruct (decide (i = 0)) as [->|Hne].
  { rewrite Hr in Hy. injection Hy as <-. apply less_irrefl. }
  pose proof (parent_lt i ltac:(lia)) as Hp. pose proof (lookup_lt_Some _ _ _ Hy).
  destruct (lookup_lt_is_Some_2 h (parent i)) as [z Ez]; [lia|].
  eapply less_negtrans; [by eapply (Ho i ltac:(lia)) | by eapply IH].
Qed.

(** The array after the root was swapped to its end. *)
Lemma swap_root root r : exists l, swap 0 (length (root :: r) - 1) (root :: r) = l ++ [root] /\ l ≡ₚ r /\
  (ordered (root :: r) -> ordered_below l 0).
Proof.
  set (h := root :: r). set (h' := swap 0 (length h - 1) h).
  assert (Hlen : length h = S (length r)) by done. assert (Hlen' : length h' = S (length r)) by (unfold h'; by rewrite swap_length).
  assert (Hl : h' !! length r = Some root).
  { unfold h'. rewrite lookup_swap by lia. rewrite decide_True by lia. done. }
  destruct (exists_last (l := h')) as (l & z & E); [intros E; by rewrite E in Hlen'|]. exists l.
  assert (Hll : length l = length r) by (rewrite E, length_app in Hlen'; simpl in Hlen'; lia).
  rewrite E in Hl. rewrite lookup_app_r in Hl by lia. rewrite Hll, Nat.sub_diag in Hl. injection Hl as ->.
  split_and!; [done| |].
  - apply (Permutation_cons_inv (a := root)). transitivity h'; [rewrite E; apply Permutation_cons_append | apply swap_perm].
  - intros Ho. split; [|lia]. intros i Hi Hne x y Ex Ey.
    pose proof (lookup_lt_Some _ _ _ Ey) as Hi'. pose proof (parent_lt i Hi) as Hp.
    assert (Hk : forall j, 0 < j -> j < length r -> h !! j = l !! j).
    { intros j Hj Hj'. transitivity (h' !! j); [|rewrite E; by rewrite lookup_app_l by lia].
      unfold h'. rewrite lookup_swap by lia. by rewrite !decide_False by lia. }
    apply (Ho i Hi); rewrite Hk; (done || lia).
Qed.

Lemma pop_spec h x h' :
  pop h = Some (x, h') -> h ≡ₚ x :: h' /\ (ordered h -> ordered h' /\ forall y, y ∈ h -> less y x = false).
Proof.
  intros Hp. destruct h as [|root r]; [done|]. unfold pop in Hp.
  destruct (swap_root root r) as (l & E & Hperm & Hb). rewrite E, removelast_last in Hp. injection Hp as <- <-.
  unfold siftDown. split.
  - by rewrite sift_down_perm, Hperm.
  - intros Ho. split; [apply sift_down_ordered; [lia | auto]|]. intros y Hy. by apply (root_first (root :: r)).
Qed.

(** The heap keeps what the merge loop relies on. *)
#[global] Instance heap_queue : PriorityQueue less [] push pop (fun h => h) ordered.
Proof.
  split.
  - intros i _ x y Ex. done.
  - done.
  - intros x q. apply push_ordered.
  - apply push_perm.
  - intros [|root r]; done.
  - intros q x q' Ho Hp. apply pop_spec in Hp as [_ Hp]. exact (proj1 (Hp Ho)).
  - intros q x q' Hp. exact (proj1 (pop_spec _ _ _ Hp)).
  - intros q x q' y Ho Hp. apply pop_spec in Hp as [_ Hp]. exact (proj2 (Hp Ho) y).
Qed.

(** ** Properties *)

(** Items in the order in which they are popped. *)
Fixpoint drain (fuel : nat) (h : list A) : list A :=
  match fuel with
  | O => []
  | S f => match pop h with Some (x, h') => x :: drain f h' | None => [] end
  end.

(** A heap that is filled with any items pops them all, each once, an
    item never after one that the comparator puts before it: filling and draining
    sorts.  The heap is empty exactly when nothing is left to pop. *)
Theorem heap_sorts (items : list A) :
  let popped := drain (length items) (foldr push [] items) in
  popped ≡ₚ items /\ StronglySorted (fun x y => less y x = false) popped /\
  forall h, isEmpty h = true <-> pop h = None.
Proof.
  assert (Hd : forall n h, ordered h -> length h = n -> drain n h ≡ₚ h /\
    StronglySorted (fun x y => less y x = false) (drain n h)).
  { induction n as [|n IH]; intros h Ho Hn; [destruct h; [by repeat constructor | done]|]. cbn [drain].
    destruct (pop h) as [[x h']|] eqn:E; [|by destruct h].
    destruct (pop_spec _ _ _ E) as [Hp Hx]. destruct (Hx Ho) as [Ho' Hy].
    destruct (IH h' Ho') as [IH1 IH2]. { apply Permutation_length in Hp. simpl in Hp. lia. }
    split; [by rewrite IH1|]. constructor; [done|]. apply List.Forall_forall. intros y Hin.
    apply Hy. rewrite Hp. right. rewrite <- IH1. by apply elem_of_In. }
  assert (Hf : foldr push [] items ≡ₚ items /\ ordered (foldr push [] items)).
  { induction items as [|x l [IH1 IH2]]; cbn [foldr]; [split; [done | intros i _ a b Ea; done]|].
    split; [by rewrite push_perm, IH1 | by apply push_ordered]. }
  destruct Hf as [Hf1 Hf2]. destruct (Hd _ _ Hf2 eq_refl) as [H1 H2].
  replace (length (foldr push [] items)) with (length items) in * by (by rewrite Hf1).
  cbn zeta. split_and!; [by rewrite H1 | done |]. by intros [|x h].
Qed.

End Heap.

(** Scores compare as numbers. *)
#[export] Instance score_order {A} (score : A -> Z) : StrictWeakOrder (fun x y => (score x <? score y)%Z).
Proof. split; intros; bools; apply Z.ltb_ge; lia. Qed.

Lemma heap_sorts_witness :
  let less := fun x y => (x <? y)%Z in
  drain less 5 (foldr (push less) [] [3; 1; 2; 1; 0]%Z) = [0; 1; 1; 2; 3]%Z /\
  StronglySorted (fun x y => less y x = false) (drain less 5 (foldr (push less) [] [3; 1; 2; 1; 0]%Z)).
Proof.
  split; [vm_compute; reflexivity|].
  exact (proj1 (proj2 (heap_sorts (fun x y => (x <? y)%Z) (StrictWeakOrder0 := score_order (fun z => z)) [3; 1; 2; 1; 0]%Z))).
Defined.
End ScoreHeap.
