(* ===== verification/Bpe.v ===== *)
(** * The merges of the tokenizer
    (packages/provider-sdk/src/deepseekBpe.ts, [addNode] and [mergeWord])

    The nodes of the doubly linked list are a store; a reference is a position
    of the store.  The score of an entry is [rank + index / length]; it is kept
    multiplied by the length, as a whole number.  (In binary64 the scores of the
    code compare alike while ranks stay below 2^17 and words below 2^34.)
    [bpe] is the definition of byte pair encoding that the loop implements. *)

From Stdlib Require Import ZArith Lia Bool Ascii String List Permutation Sorted.
From stdpp Require Import base decidable list strings.
From S2P Require Import Prelude ScoreHeap.
Local Open Scope Z_scope.

Module Bpe.

Record MergeNode := Node {
  token : string;
  bias : Z;
  deleted : bool;
  prev : option nat;
  next : option nat
}.

Record HeapEntry := Entry { node : nat; score : Z }.

(** The comparator handed to the heap. *)
Definition less (l r : HeapEntry) : bool := score l <? score r.

#[export] Instance less_order : StrictWeakOrder less.
Proof. exact (ScoreHeap.score_order score). Qed.

Abbreviation store := (list MergeNode).

Definition set_deleted (st : store) (i : nat) : store :=
  alter (fun n => Node (token n) (bias n) true (prev n) (next n)) i st.

Definition set_prev (st : store) (o : option nat) (p : option nat) : store :=
  match o with
  | Some i => alter (fun n => Node (token n) (bias n) (deleted n) p (next n)) i st
  | None => st
  end.

Definition set_next (st : store) (o : option nat) (p : option nat) : store :=
  match o with
  | Some i => alter (fun n => Node (token n) (bias n) (deleted n) (prev n) p) i st
  | None => st
  end.

Section Merge.
Context {Q : Type} (empty : Q) (push : HeapEntry -> Q -> Q) (pop : Q -> option (HeapEntry * Q)).
Context (ranks : list (string * Z)).

Definition rank (pair : string) : option Z := map_get pair ranks.

Section Word.
Context (len : Z).

(** [addNode(heap, node)] *)
Definition addNode (st : store) (heap : Q) (i : nat) : Q :=
  match st !! i with
  | Some n =>
      match next n with
      | Some j =>
          match st !! j with
          | Some m =>
              match rank (token n ++ token m) with
              | Some r => push (Entry i (r * len + bias n)) heap
              | None => heap
              end
          | None => heap
          end
      | None => heap
      end
  | None => heap
  end.

(** The list of the bytes: each new node is linked behind the last one [a], whose
    pair enters the heap. *)
Fixpoint link (st : store) (heap : Q) (index : Z) (a : nat) (bytes : list ascii) : store * Q :=
  match bytes with
  | [] => (st, heap)
  | c :: r =>
      let b := length st in
      let st := set_next (st ++ [Node (String c "") index false (Some a) None]) (Some a) (Some b) in
      link st (addNode st heap a) (index + 1) b r
  end.

Record MState := MkM { nodes : store; heap : Q; count : Z }.

(** The predecessor is cloned, so that its entry in the heap goes stale. *)
Definition clone_prev (st : store) (i : nat) (p : option nat) : store * option nat :=
  match p with
  | None => (st, None)
  | Some q =>
      match st !! q with
      | Some pn =>
          let c := length st in
          let st := st ++ [Node (token pn) (bias pn) false (prev pn) (next pn)] in
          let st := set_deleted st q in
          let st := set_prev st (Some i) (Some c) in
          (set_next st (prev pn) (Some c), Some c)
      | None => (st, None)
      end
  end.

(** The body of the loop for the popped entry. *)
Definition merge_step (s : MState) (e : HeapEntry) (h : Q) : MState :=
  let st := nodes s in
  let skip := MkM st h (count s) in
  match st !! node e with
  | None => skip
  | Some n =>
      if deleted n then skip
      else match next n with
           | None => skip
           | Some j =>
               match st !! j with
               | None => skip
               | Some m =>
                   if deleted m then skip
                   else
                     let st := set_deleted (set_deleted st (node e)) j in
                     let '(st, p) := clone_prev st (node e) (prev n) in
                     let k := length st in
                     let st := st ++ [Node (token n ++ token m) (bias n) false p (next m)] in
                     let st := set_next st p (Some k) in
                     let h := match p with Some c => addNode st h c | None => h end in
                     let st := set_prev st (next m) (Some k) in
                     let h := match next m with Some _ => addNode st h k | None => h end in
                     MkM st h (count s - 1)
               end
           end
  end.

(** The loop; [None]: out of fuel. *)
Fixpoint merge_loop (fuel : nat) (s : MState) : option Z :=
  match fuel with
  | O => None
  | S f => match pop (heap s) with
           | None => Some (count s)
           | Some (e, h) => merge_loop f (merge_step s e h)
           end
  end.
End Word.

Definition mergeWord (bytes : list ascii) : option Z :=
  let len := Z.of_nat (length bytes) in
  match bytes with
  | [] => Some 0
  | [_] => Some 1
  | c :: r =>
      let '(st, h) := link len [Node (String c "") 0 false None None] empty 1 0 r in
      merge_loop len (4 * length bytes) (MkM st h len)
  end.
End Merge.

(** ** Byte pair encoding *)

Section Reference.
Context (rank : string -> option Z).

(** The ranks of the adjacent pairs, with their positions. *)
Fixpoint pairs (i : nat) (l : list string) : list (Z * nat) :=
  match l with
  | a :: (b :: _) as r =>
      match rank (a ++ b) with Some k => (k, i) :: pairs (S i) r | None => pairs (S i) r end
  | _ => []
  end.

(** The pair of least rank, the leftmost of them. *)
Fixpoint best (l : list (Z * nat)) : option (Z * nat) :=
  match l with
  | [] => None
  | x :: r => match best r with
              | Some y => if y.1 <? x.1 then Some y else Some x
              | None => Some x
              end
  end.

Fixpoint merge_at (i : nat) (l : list string) : list string :=
  match i, l with
  | O, a :: b :: r => (a ++ b)%string :: r
  | S i, a :: r => a :: merge_at i r
  | _, _ => l
  end.

(** Merge the best pair until no adjacent pair has a rank; every merge shortens
    the list. *)
Fixpoint bpe_fuel (fuel : nat) (l : list string) : list string :=
  match fuel with
  | O => l
  | S f => match best (pairs 0 l) with
           | Some (_, i) => bpe_fuel f (merge_at i l)
           | None => l
           end
  end.

Definition bpe (bytes : list ascii) : list string := bpe_fuel (length bytes) (map (fun c => String c "") bytes).
End Reference.

(** ** The linked list as a list *)

(** [seg st pv ids vs nx]: the nodes [ids], alive and linked in this order between
    [pv] and [nx], hold the tokens and biases [vs]. *)
Definition first_of (ids : list nat) (nx : option nat) : option nat := match ids with [] => nx | i :: _ => Some i end.

Fixpoint last_of (pv : option nat) (ids : list nat) : option nat :=
  match ids with [] => pv | i :: r => last_of (Some i) r end.

Fixpoint seg (st : store) (pv : option nat) (ids : list nat) (vs : list (string * Z)) (nx : option nat) : Prop :=
  match ids, vs with
  | [], [] => True
  | i :: ids, (t, b) :: vs => st !! i = Some (Node t b false pv (first_of ids nx)) /\ seg st (Some i) ids vs nx
  | _, _ => False
  end.

(** Nodes that are deleted, or not there. *)
Definition dead (st : store) (i : nat) : bool := match st !! i with Some n => deleted n | None => true end.

Lemma seg_length st pv ids vs nx : seg st pv ids vs nx -> length ids = length vs.
Proof.
  revert pv vs. induction ids as [|i ids IH]; intros pv [|[t b] vs]; simpl; try done.
  intros [_ H]. f_equal. by eapply IH.
Qed.

Lemma seg_app st pv ids1 ids2 vs1 vs2 nx :
  length ids1 = length vs1 ->
  seg st pv (ids1 ++ ids2) (vs1 ++ vs2) nx <->
  seg st pv ids1 vs1 (first_of ids2 nx) /\ seg st (last_of pv ids1) ids2 vs2 nx.
Proof.
  revert pv vs1. induction ids1 as [|i ids1 IH]; intros pv [|[t b] vs1]; simpl; try done; [tauto|].
  intros [= Hl]. rewrite IH by done. destruct ids1; simpl; tauto.
Qed.

Lemma seg_agree st st' pv ids vs nx :
  (forall i, i ∈ ids -> st' !! i = st !! i) -> seg st pv ids vs nx -> seg st' pv ids vs nx.
Proof.
  revert pv vs. induction ids as [|i ids IH]; intros pv [|[t b] vs] Ha; simpl; try done.
  intros [H1 H2]. split; [rewrite Ha by left; done|]. apply IH; [|done]. intros j Hj. apply Ha. by right.
Qed.

Lemma seg_lt st pv ids vs nx i : seg st pv ids vs nx -> i ∈ ids -> (i < length st)%nat.
Proof.
  revert pv vs. induction ids as [|j ids IH]; intros pv [|[t b] vs]; simpl; try done.
  - intros _ Hi. by apply not_elem_of_nil in Hi.
  - intros [H1 H2] [->|Hi]%elem_of_cons; [by eapply lookup_lt_Some | by eapply IH].
Qed.

Lemma seg_alive st pv ids vs nx i : seg st pv ids vs nx -> i ∈ ids -> dead st i = false.
Proof.
  revert pv vs. induction ids as [|j ids IH]; intros pv [|[t b] vs]; simpl; try done.
  - intros _ Hi. by apply not_elem_of_nil in Hi.
  - intros [H1 H2] [->|Hi]%elem_of_cons; [unfold dead; by rewrite H1 | by eapply IH].
Qed.

Lemma last_of_elem pv ids i : last_of pv ids = Some i -> pv = Some i \/ i ∈ ids.
Proof.
  revert pv. induction ids as [|j ids IH]; intros pv; simpl; [by left|].
  intros [[= ->]|H]%IH; right; [left | by right].
Qed.

Lemma last_of_app pv a b : last_of pv (a ++ b) = last_of (last_of pv a) b.
Proof. revert pv. induction a as [|i a IH]; intros pv; simpl; [done | apply IH]. Qed.

(** The links at the two ends of a segment are not part of it. *)
Lemma seg_set_next st pv ids vs nx nx' :
  NoDup ids -> seg st pv ids vs nx -> seg (set_next st (last_of pv ids) nx') pv ids vs nx'.
Proof.
  revert pv vs. induction ids as [|i ids IH]; intros pv [|[t b] vs]; try done.
  intros [Hi Hnd]%NoDup_cons [H1 H2]. cbn [seg last_of]. split; [|by apply (IH _ _ Hnd)].
  destruct ids as [|j ids]; cbn [last_of set_next first_of].
  - rewrite list_lookup_alter_eq, H1. done.
  - destruct (last_of (Some j) ids) as [l|] eqn:El; [|done]. cbn [set_next].
    rewrite list_lookup_alter_ne; [done|]. intros ->. apply Hi.
    apply last_of_elem in El as [[= <-]|?]; [left | by right].
Qed.

Lemma seg_set_prev st pv pv' ids vs :
  NoDup ids -> seg st pv ids vs None -> seg (set_prev st (first_of ids None) pv') pv' ids vs None.
Proof.
  destruct ids as [|i ids], vs as [|[t b] vs]; try done. intros [Hi Hnd]%NoDup_cons [H1 H2].
  cbn [seg first_of set_prev]. split; [by rewrite list_lookup_alter_eq, H1|].
  eapply seg_agree; [|done]. intros j Hj. rewrite list_lookup_alter_ne; [done | by intros ->].
Qed.

Lemma lookup_set_next st o p i : o <> Some i -> set_next st o p !! i = st !! i.
Proof. destruct o as [j|]; [|done]. intros Hne. apply list_lookup_alter_ne. congruence. Qed.

Lemma lookup_set_prev st o p i : o <> Some i -> set_prev st o p !! i = st !! i.
Proof. destruct o as [j|]; [|done]. intros Hne. apply list_lookup_alter_ne. congruence. Qed.

Lemma dead_set_next st o p i : dead (set_next st o p) i = dead st i.
Proof.
  destruct o as [j|]; [|done]. unfold dead. cbn [set_next]. destruct (decide (i = j)) as [->|Hne].
  - rewrite list_lookup_alter_eq. by destruct (st !! j).
  - by rewrite list_lookup_alter_ne by done.
Qed.

Lemma dead_set_prev st o p i : dead (set_prev st o p) i = dead st i.
Proof.
  destruct o as [j|]; [|done]. unfold dead. cbn [set_prev]. destruct (decide (i = j)) as [->|Hne].
  - rewrite list_lookup_alter_eq. by destruct (st !! j).
  - by rewrite list_lookup_alter_ne by done.
Qed.

Lemma dead_set_deleted st j i : dead (set_deleted st j) i = if decide (i = j) then true else dead st i.
Proof.
  unfold dead, set_deleted. case_decide; subst.
  - rewrite list_lookup_alter_eq. by destruct (st !! j).
  - by rewrite list_lookup_alter_ne by done.
Qed.

Lemma dead_snoc st n i : dead (st ++ [n]) i = if decide (i = length st) then deleted n else dead st i.
Proof.
  unfold dead. case_decide; subst.
  - by rewrite list_lookup_middle.
  - destruct (decide (i < length st)%nat); [by rewrite lookup_app_l|].
    rewrite !(lookup_ge_None_2); [done | lia | rewrite length_app; simpl; lia].
Qed.

Lemma length_set_next st o p : length (set_next st o p) = length st.
Proof. destruct o; [apply length_alter | done]. Qed.

Lemma length_set_prev st o p : length (set_prev st o p) = length st.
Proof. destruct o; [apply length_alter | done]. Qed.

(** ** The two changes of a merge *)

Lemma snoc_cases {A} (l : list A) : l = [] \/ exists l' x, l = l' ++ [x].
Proof. destruct l as [|y l]; [by left|]. right. destruct (exists_last (l := y :: l)) as (l' & x & E); [done | eauto]. Qed.

(** The left part [L] of the list after its last node was cloned. *)
Definition cloned (st : store) (L L' : list nat) : Prop :=
  L = [] /\ L' = [] \/ exists A q, L = A ++ [q] /\ L' = A ++ [length st].

Lemma clone_spec st L VL i :
  seg st None L VL (Some i) -> NoDup L -> i ∉ L -> (i < length st)%nat ->
  exists st' L', clone_prev st i (last_of None L) = (st', last_of None L') /\ cloned st L L' /\
    seg st' None L' VL (Some i) /\ (length st <= length st')%nat /\
    (forall z, z ∉ L -> z <> i -> (z < length st)%nat -> st' !! z = st !! z) /\
    (forall z, dead st' z = false -> z ∈ L' \/ z ∉ L /\ dead st z = false).
Proof.
  intros Hs Hnd Hi Hlt. destruct (snoc_cases L) as [->|(A & q & ->)].
  { exists st, []. destruct VL as [|[t b] VL]; [|done]. split_and!; [done | by left | done | done | done |].
    intros z Hz. right. split; [apply not_elem_of_nil | done]. }
  pose proof (seg_length _ _ _ _ _ Hs) as Hl. rewrite length_app in Hl. simpl in Hl.
  destruct (snoc_cases VL) as [->|(VA & [t b] & ->)]; [simpl in Hl; lia|]. rewrite length_app in Hl. simpl in Hl.
  apply seg_app in Hs as [HA [Hq _]]; [|lia]. cbn [first_of] in *. set (c := length st).
  apply NoDup_app in Hnd as (HndA & Hdis & _). rewrite elem_of_app, list_elem_of_singleton in Hi.
  assert (Hqlt : (q < c)%nat) by (by eapply lookup_lt_Some).
  assert (HAlt : forall z, z ∈ A -> (z < c)%nat) by (intros z Hz; by eapply seg_lt).
  assert (HqA : q ∉ A) by (intros Hz; apply (Hdis q Hz); by left).
  assert (HlA : forall z, last_of None A = Some z -> z ∈ A) by (intros z [?|?]%last_of_elem; done).
  rewrite last_of_app. cbn [last_of clone_prev]. rewrite Hq. cbn [token bias prev next]. fold c.
  set (st3 := set_prev _ _ _).
  assert (H3 : forall z, z <> q -> z <> i -> (z < c)%nat -> st3 !! z = st !! z).
  { intros z Hz1 Hz2 Hz3. unfold st3, set_deleted. rewrite lookup_set_prev, list_lookup_alter_ne by congruence.
    by rewrite lookup_app_l. }
  assert (H3c : st3 !! c = Some (Node t b false (last_of None A) (Some i))).
  { unfold st3, set_deleted. rewrite lookup_set_prev, list_lookup_alter_ne by (intros ?; simplify_eq; lia).
    by rewrite list_lookup_middle. }
  assert (Hlast : forall z, z ∉ A -> set_next st3 (last_of None A) (Some c) !! z = st3 !! z).
  { intros z Hz. apply lookup_set_next. intros E. by apply Hz, HlA. }
  assert (HcA : c ∉ A) by (intros Hz%HAlt; lia).
  eexists _, (A ++ [c]). split_and!.
  - rewrite last_of_app. done.
  - right. eauto.
  - apply seg_app; [lia|]. split.
    + apply (seg_set_next _ _ _ _ (Some q)); [done|]. eapply seg_agree; [|exact HA].
      intros z Hz. apply H3; [by intros -> | intros ->; tauto | by apply HAlt].
    + split; [|done]. rewrite Hlast by done. done.
  - rewrite length_set_next. unfold st3, set_deleted. rewrite length_set_prev, length_alter, length_app. lia.
  - intros z Hz1 Hz2 Hz3. rewrite elem_of_app, list_elem_of_singleton in Hz1. rewrite Hlast by tauto.
    apply H3; [tauto | done | done].
  - intros z. rewrite dead_set_next. unfold st3. rewrite dead_set_prev, dead_set_deleted, dead_snoc. fold c.
    rewrite !elem_of_app, !list_elem_of_singleton. repeat case_decide; subst; [done | tauto |].
    intros Hz. destruct (decide (z ∈ A)); tauto.
Qed.

(** The merged node takes the place of [i] and [j]. *)
Lemma splice_spec st L VL i j B VB a x b y :
  let ids := L ++ i :: j :: B in
  seg st None ids (VL ++ (a, x) :: (b, y) :: VB) None -> NoDup ids -> length L = length VL ->
  (forall z, dead st z = false -> z ∈ ids) ->
  let '(st1, p) := clone_prev (set_deleted (set_deleted st i) j) i (last_of None L) in
  let k := length st1 in
  let st2 := set_next (st1 ++ [Node (a ++ b) x false p (first_of B None)]) p (Some k) in
  let st3 := set_prev st2 (first_of B None) (Some k) in
  exists L', cloned st L L' /\ p = last_of None L' /\ (length st <= k)%nat /\
    seg st2 None (L' ++ [k]) (VL ++ [((a ++ b)%string, x)]) (first_of B None) /\
    seg st3 None (L' ++ k :: B) (VL ++ ((a ++ b)%string, x) :: VB) None /\
    NoDup (L' ++ k :: B) /\ (forall z, dead st3 z = false -> z ∈ L' ++ k :: B).
Proof.
  intros ids Hs Hnd Hl Hal. subst ids. apply NoDup_app in Hnd as (HndL & Hdis & Hnd).
  apply NoDup_cons in Hnd as [Hi Hnd]. apply NoDup_cons in Hnd as [Hj HndB].
  assert (Hlt : forall z, z ∈ L ++ i :: j :: B -> (z < length st)%nat) by (intros z Hz; by eapply seg_lt).
  apply seg_app in Hs as [HL (Hni & Hnj & HB)]; [|done]. cbn [first_of] in *.
  set (st0 := set_deleted (set_deleted st i) j).
  assert (Hlen : length st0 = length st) by (unfold st0, set_deleted; by rewrite !length_alter).
  assert (H0 : forall z, z <> i -> z <> j -> st0 !! z = st !! z).
  { intros z ? ?. unfold st0, set_deleted. by rewrite !list_lookup_alter_ne by done. }
  assert (HLi : forall z, z ∈ L -> z <> i /\ z <> j /\ z ∉ B).
  { intros z Hz. specialize (Hdis z Hz). rewrite !elem_of_cons in Hdis. naive_solver. }
  rewrite elem_of_cons in Hi.
  destruct (clone_spec st0 L VL i) as (st1 & L' & -> & Hcl & HL' & Hk & Hsame & Hdead); [|done| | |].
  { eapply seg_agree; [|done]. intros z Hz. apply H0; by apply HLi. }
  { intros Hz. by apply HLi in Hz as [? _]. }
  { rewrite Hlen. apply Hlt. rewrite elem_of_app. right. left. }
  set (k := length st1) in *. set (m := Node _ _ _ _ _). cbn zeta.
  assert (HL'k : forall z, z ∈ L' -> (z < k)%nat) by (intros z Hz; by eapply seg_lt).
  assert (HBlt : forall z, z ∈ B -> (z < length st)%nat).
  { intros z Hz. apply Hlt. rewrite elem_of_app. right. right. by right. }
  assert (HndL' : NoDup L' /\ forall z, z ∈ L' -> z ∉ B).
  { destruct Hcl as [[-> ->]|(A & q & -> & ->)]; [split; [constructor | intros z Hz; by apply not_elem_of_nil in Hz]|].
    apply NoDup_app in HndL as (HndA & _ & _). split.
    - apply NoDup_app. split_and!; [done | | apply NoDup_singleton]. intros z Hz Hz2%list_elem_of_singleton. subst z.
      assert (length st0 < length st)%nat; [|lia]. apply Hlt. rewrite !elem_of_app. by left; left.
    - intros z [Hz|Hz%list_elem_of_singleton]%elem_of_app Hb; [|subst z; apply HBlt in Hb; lia].
      eapply HLi; [|done]. rewrite elem_of_app. by left. }
  destruct HndL' as [HndL' HL'B].
  assert (Hnew : NoDup (L' ++ k :: B)).
  { apply NoDup_app. split_and!; [done| |apply NoDup_cons; split; [intros ?%HBlt; lia | done]].
    intros z Hz [->|Hb]%elem_of_cons; [apply HL'k in Hz; lia | by eapply HL'B]. }
  assert (Hlast : forall z, last_of None L' = Some z -> z ∈ L') by (intros z [?|?]%last_of_elem; done).
  assert (Hseg2 : seg (set_next (st1 ++ [m]) (last_of None L') (Some k)) None (L' ++ [k]) (VL ++ [((a ++ b)%string, x)]) (first_of B None)).
  { apply seg_app; [by eapply seg_length|]. split.
    - apply (seg_set_next _ _ _ _ (Some i)); [done|]. eapply seg_agree; [|exact HL'].
      intros z Hz. by apply lookup_app_l, HL'k.
    - split; [|done]. rewrite lookup_set_next by (intros E%Hlast%HL'k; lia). by rewrite list_lookup_middle. }
  exists L'. split_and!; [by destruct Hcl as [?|(A & q & -> & ->)]; [left | right; rewrite Hlen; eauto] |done|lia|done| |done|].
  - change (L' ++ k :: B) with (L' ++ [k] ++ B). change (VL ++ (?v) :: VB) with (VL ++ [v] ++ VB). rewrite !app_assoc.
    apply seg_app; [by eapply seg_length|]. split.
    + eapply seg_agree; [|exact Hseg2]. intros z Hz. apply lookup_set_prev. intros E.
      assert (z ∈ B) by (destruct B; [done|]; injection E as ->; left).
      apply elem_of_app in Hz as [Hz|Hz%list_elem_of_singleton]; [by eapply HL'B | subst z; apply HBlt in H; lia].
    + rewrite last_of_app. apply (seg_set_prev _ (Some j)); [done|]. eapply seg_agree; [|exact HB].
      intros z Hz. rewrite lookup_set_next by (intros E%Hlast; by eapply HL'B).
      rewrite lookup_app_l by (apply HBlt in Hz; lia). rewrite Hsame; [apply H0| | |].
      all: try (intros ->; tauto). all: try (intros Hz'; apply HLi in Hz'; tauto).
      rewrite Hlen. by apply HBlt.
  - intros z. rewrite dead_set_prev, dead_set_next, dead_snoc. fold k. rewrite elem_of_app, elem_of_cons.
    case_decide; [tauto|]. intros [Hz|[Hz Hd]]%Hdead; [tauto|]. unfold st0 in Hd.
    rewrite !dead_set_deleted in Hd. repeat case_decide; try done. apply Hal in Hd.
    rewrite elem_of_app, !elem_of_cons in Hd. tauto.
Qed.

(** ** The entries of the pairs that can be merged *)

Section Candidates.
Context (rank : string -> option Z) (len : Z).

Definition edge (i : nat) (a : string) (x : Z) (b : string) : list HeapEntry :=
  match rank (a ++ b) with Some r => [Entry i (r * len + x)] | None => [] end.

Definition hd_edge (i : nat) (a : string) (x : Z) (vs : list (string * Z)) : list HeapEntry :=
  match vs with (b, _) :: _ => edge i a x b | [] => [] end.

Fixpoint cands (ids : list nat) (vs : list (string * Z)) : list HeapEntry :=
  match ids, vs with
  | i :: ids, (a, x) :: vs => hd_edge i a x vs ++ cands ids vs
  | _, _ => []
  end.

Lemma edge_node i a x b e : e ∈ edge i a x b -> node e = i.
Proof.
  unfold edge. destruct (rank _); [|intros H; by apply not_elem_of_nil in H].
  intros ->%list_elem_of_singleton. done.
Qed.

Lemma hd_edge_node i a x vs e : e ∈ hd_edge i a x vs -> node e = i.
Proof. destruct vs as [|[b y] vs]; [intros H; by apply not_elem_of_nil in H | apply edge_node]. Qed.

(** The candidates of the left part do not depend on the node behind it. *)
Lemma cands_app L VL i a x R VR :
  length L = length VL ->
  cands (L ++ i :: R) (VL ++ (a, x) :: VR) = cands (L ++ [i]) (VL ++ [(a, x)]) ++ hd_edge i a x VR ++ cands R VR.
Proof.
  revert VL. induction L as [|j L IH]; intros [|[b y] VL]; simpl; try done.
  intros [= Hl]. rewrite IH by done. rewrite app_assoc. f_equal. f_equal.
  destruct VL as [|[c z] VL], L; done.
Qed.

Lemma cands_last L VL i j a x b y :
  length L = length VL ->
  cands (L ++ [i]) (VL ++ [(a, x)]) = cands (L ++ [j]) (VL ++ [(a, y)]) /\
  forall e, e ∈ cands (L ++ [i]) (VL ++ [(b, x)]) -> node e ∈ L.
Proof.
  revert VL. induction L as [|k L IH]; intros [|[c z] VL]; simpl; try done.
  - intros _. split; [done|]. intros e H. by apply not_elem_of_nil in H.
  - intros [= Hl]. destruct (IH VL Hl) as [E Hn]. split.
    + rewrite E. f_equal. by destruct VL as [|[d w] VL].
    + intros e [->%hd_edge_node|He]%elem_of_app; [left | right; auto].
Qed.

Lemma cands_nodes ids vs e : e ∈ cands ids vs -> node e ∈ ids.
Proof.
  revert vs. induction ids as [|i ids IH]; intros [|[a x] vs]; simpl.
  1-3: intros H; by apply not_elem_of_nil in H.
  intros [->%hd_edge_node|He]%elem_of_app; [left | right; eauto].
Qed.

(** The candidates by position. *)
Lemma elem_of_cands ids vs e :
  length ids = length vs ->
  e ∈ cands ids vs <-> exists n i a x b y r, ids !! n = Some i /\ vs !! n = Some (a, x) /\ vs !! S n = Some (b, y) /\
    rank (a ++ b) = Some r /\ e = Entry i (r * len + x).
Proof.
  revert vs. induction ids as [|i ids IH]; intros [|[a x] vs]; simpl; try done; intros Hl.
  - split; [intros H; by apply not_elem_of_nil in H | by intros (n & ? & ? & ? & ? & ? & ? & ? & _)].
  - injection Hl as Hl. rewrite elem_of_app, (IH _ Hl). split.
    + intros [He|(n & He)]; [|by exists (S n)]. destruct vs as [|[b y] vs]; [by apply not_elem_of_nil in He|].
      cbn [hd_edge] in He. unfold edge in He. destruct (rank (a ++ b)) as [r|] eqn:Er; [|by apply not_elem_of_nil in He].
      apply list_elem_of_singleton in He. by exists 0%nat, i, a, x, b, y, r.
    + intros ([|n] & j & c & z & b & y & r & H1 & H2 & H3 & H4 & ->); [|right; by exists n, j, c, z, b, y, r].
      injection H1 as ->. injection H2 as -> ->. left. cbn in H3. destruct vs as [|v vs]; [done|]. injection H3 as ->.
      cbn [hd_edge]. unfold edge. rewrite H4. by left.
Qed.

(** ** The pairs of the definition *)

Lemma pairs_cons s a b l :
  pairs rank s (a :: b :: l) = match rank (a ++ b) with Some k => [(k, s)] | None => [] end ++ pairs rank (S s) (b :: l).
Proof. cbn [pairs]. by destruct (rank (a ++ b)). Qed.

Lemma elem_of_pairs s l k n :
  (k, n) ∈ pairs rank s l <-> exists m a b, n = (s + m)%nat /\ l !! m = Some a /\ l !! S m = Some b /\ rank (a ++ b) = Some k.
Proof.
  revert s. induction l as [|a l IH]; intros s.
  { split; [intros H; by apply not_elem_of_nil in H | by intros (m & ? & ? & _ & ? & _)]. }
  assert (E : forall P, (exists m c d, n = (s + m)%nat /\ (a :: l) !! m = Some c /\ (a :: l) !! S m = Some d /\ P c d) <->
    (exists d, n = s /\ l !! 0%nat = Some d /\ P a d) \/
    (exists m c d, n = (S s + m)%nat /\ l !! m = Some c /\ l !! S m = Some d /\ P c d)).
  { intros P. split.
    - intros ([|m] & c & d & -> & H1 & H2 & H3); [injection H1 as ->; left; exists d; split_and!; try done; lia|].
      right. exists m, c, d. split_and!; try done. lia.
    - intros [(d & -> & H1 & H2)|(m & c & d & -> & H1 & H2 & H3)];
        [exists 0%nat, a, d | exists (S m), c, d]; split_and!; try done; lia. }
  rewrite (E (fun c d => rank (c ++ d) = Some k)). destruct l as [|b l].
  - split; [intros H; by apply not_elem_of_nil in H | intros [(? & _ & ? & _)|(m & ? & ? & _ & ? & _)]; done].
  - rewrite <- IH, pairs_cons. destruct (rank (a ++ b)) as [r|] eqn:Er; cbn [app].
    + rewrite elem_of_cons. apply or_iff_compat_r. split.
      * intros [= -> ->]. by exists b.
      * intros (d & -> & [= ->] & Hr). congruence.
    + split; [by right|]. intros [(d & _ & [= ->] & Hr)|?]; [congruence | done].
Qed.

Lemma pairs_sorted s l : StronglySorted (fun p q => (p.2 < q.2)%nat) (pairs rank s l).
Proof.
  revert s. induction l as [|a [|b l] IH]; intros s; [constructor..|]. rewrite pairs_cons.
  destruct (rank (a ++ b)) as [r|]; cbn [app]; [|apply IH]. constructor; [apply IH|].
  apply List.Forall_forall. intros [k n] Hin. apply elem_of_In, elem_of_pairs in Hin as (m & ? & ? & -> & _). simpl. lia.
Qed.

Lemma best_elem l p : best l = Some p -> p ∈ l.
Proof.
  revert p. induction l as [|q l IH]; intros p; simpl; [done|].
  destruct (best l) as [y|]; [case_match|]; intros [= <-]; [right; by apply IH | left..].
Qed.

Lemma best_None l : best l = None -> l = [].
Proof. destruct l as [|q l]; simpl; [done|]. destruct (best l); [by case_match | done]. Qed.

Lemma best_least l k n :
  StronglySorted (fun p q : Z * nat => (p.2 < q.2)%nat) l -> (k, n) ∈ l ->
  (forall k' n', (k', n') ∈ l -> k < k' \/ k = k' /\ (n <= n')%nat) -> best l = Some (k, n).
Proof.
  induction l as [|[k0 n0] l IH]; intros Hs Hin Hmin; [by apply not_elem_of_nil in Hin|].
  apply StronglySorted_inv in Hs as [Hs Hh]. cbn [best]. apply elem_of_cons in Hin as [[= <- <-]|Hin].
  - destruct (best l) as [[k1 n1]|] eqn:E; [|done]. apply best_elem in E. simpl.
    destruct (Z.ltb_spec k1 k); [|done]. destruct (Hmin k1 n1) as [?|[? _]]; [by right | lia | lia].
  - rewrite (IH Hs Hin) by (intros k' n' H; apply Hmin; by right). simpl.
    destruct (Z.ltb_spec k k0) as [|Hge]; [done|]. destruct (Hmin k0 n0) as [?|[-> Hn]]; [left | lia |].
    rewrite List.Forall_forall in Hh. apply elem_of_In in Hin. specialize (Hh _ Hin). simpl in Hh. lia.
Qed.

(** The least candidate is the pair that the definition merges. *)
Definition biased (vs : list (string * Z)) : Prop :=
  StronglySorted Z.lt vs.*2 /\ Forall (fun x => 0 <= x < len) vs.*2.

Lemma biased_lt vs n m a x b y :
  biased vs -> vs !! n = Some (a, x) -> vs !! m = Some (b, y) -> x <= y -> (n <= m)%nat.
Proof.
  intros [Hs _] Hn Hm Hxy. destruct (Nat.le_gt_cases n m) as [|Hlt]; [done|].
  assert (H : y < x); [|lia]. revert n m Hn Hm Hlt. induction vs as [|[c z] vs IH]; intros n m Hn Hm Hlt; [done|].
  apply StronglySorted_inv in Hs as [Hs Hh]. destruct n as [|n]; [lia|]. destruct m as [|m]; [|apply (IH Hs n m); try done; lia].
  injection Hm as -> ->. rewrite List.Forall_forall in Hh. apply Hh, elem_of_In, list_elem_of_fmap.
  exists (a, x). split; [done | by eapply list_elem_of_lookup_2].
Qed.

Lemma least_is_best ids vs n i a x b y r :
  length ids = length vs -> biased vs -> ids !! n = Some i -> vs !! n = Some (a, x) -> vs !! S n = Some (b, y) ->
  rank (a ++ b) = Some r -> (forall e, e ∈ cands ids vs -> r * len + x <= score e) ->
  best (pairs rank 0 vs.*1) = Some (r, n).
Proof.
  intros Hl Hb Hi Hn HSn Hr Hmin. apply best_least; [apply pairs_sorted | |].
  - apply elem_of_pairs. exists n, a, b. by rewrite !list_lookup_fmap, Hn, HSn.
  - intros k' n' (m & a' & b' & -> & Ha & Hb' & Hk)%elem_of_pairs. rewrite list_lookup_fmap in Ha, Hb'.
    destruct (vs !! m) as [[a0 x']|] eqn:Em; [|done]. destruct (vs !! S m) as [[b0 y']|] eqn:ESm; [|done].
    injection Ha as <-. injection Hb' as <-.
    destruct (lookup_lt_is_Some_2 ids m) as [j Ej]; [rewrite Hl; by eapply lookup_lt_Some|].
    specialize (Hmin (Entry j (k' * len + x'))). cbn [score] in Hmin.
    assert (Hle : r * len + x <= k' * len + x').
    { apply Hmin, elem_of_cands; [done|]. by exists m, j, a0, x', b0, y', k'. }
    destruct Hb as [Hs Hf]. rewrite List.Forall_forall in Hf.
    assert (Hx : 0 <= x < len) by (apply Hf, elem_of_In, list_elem_of_fmap; exists (a, x); split; [done|by eapply list_elem_of_lookup_2]).
    assert (Hx' : 0 <= x' < len) by (apply Hf, elem_of_In, list_elem_of_fmap; exists (a0, x'); split; [done|by eapply list_elem_of_lookup_2]).
    destruct (Z.lt_trichotomy r k') as [?|[->|?]]; [by left | right | nia].
    split; [done|]. simpl. eapply (biased_lt vs n m); [split; [done | by apply List.Forall_forall] | done | done | lia].
Qed.
End Candidates.

(** ** The loop implements the definition *)

Section Loop.
Context {Q : Type} {empty : Q} {push : HeapEntry -> Q -> Q} {pop : Q -> option (HeapEntry * Q)}
  {items : Q -> list HeapEntry} {ok : Q -> Prop} `{PQ : !PriorityQueue less empty push pop items ok}.
Context (ranks : list (string * Z)) (len : Z).

Abbreviation rank := (rank ranks).
Abbreviation addNode := (addNode push ranks len).
Abbreviation cands := (cands rank len).

Lemma q_push_ok x q : ok q -> ok (push x q).
Proof. apply (@push_ok _ _ _ _ _ _ _ _ PQ). Qed.
Lemma q_push x q : items (push x q) ≡ₚ x :: items q.
Proof. apply (@push_items _ _ _ _ _ _ _ _ PQ). Qed.
Lemma q_pop_ok q e h : ok q -> pop q = Some (e, h) -> ok h.
Proof. apply (@pop_ok _ _ _ _ _ _ _ _ PQ). Qed.
Lemma q_pop q e h : pop q = Some (e, h) -> items q ≡ₚ e :: items h.
Proof. apply (@pop_items _ _ _ _ _ _ _ _ PQ). Qed.
Lemma q_least q e h d : ok q -> pop q = Some (e, h) -> d ∈ items q -> score e <= score d.
Proof. intros Hq Hp Hd. by apply Z.ltb_ge, (@pop_least _ _ _ _ _ _ _ _ PQ _ _ _ _ Hq Hp Hd). Qed.

(** What holds between two rounds: the live nodes form the list, a live entry of
    the heap is a pair of the list, and every pair with a rank is in the heap. *)
Record inv (st : store) (q : Q) (ids : list nat) (vs : list (string * Z)) : Prop := {
  inv_seg : seg st None ids vs None;
  inv_nodup : NoDup ids;
  inv_alive : forall z, dead st z = false -> z ∈ ids;
  inv_bias : biased len vs;
  inv_ok : ok q;
  inv_fresh : forall e, e ∈ items q -> (node e < length st)%nat;
  inv_live : forall e, e ∈ items q -> node e ∈ ids -> e ∈ cands ids vs;
  inv_all : forall e, e ∈ cands ids vs -> e ∈ items q
}.

Lemma addNode_ok st h i : ok h -> ok (addNode st h i).
Proof. intros Hok. unfold Bpe.addNode. repeat case_match; try done. by apply q_push_ok. Qed.

Lemma addNode_items st h i a x d pv j m :
  st !! i = Some (Node a x d pv (Some j)) -> st !! j = Some m ->
  items (addNode st h i) ≡ₚ edge rank len i a x (token m) ++ items h.
Proof.
  intros Hi Hj. unfold Bpe.addNode, edge. rewrite Hi. cbn [next token bias]. rewrite Hj.
  destruct (rank _) as [r|]; [|done]. apply q_push.
Qed.

Lemma edge_length i a x b : (length (edge rank len i a x b) <= 1)%nat.
Proof. unfold edge. destruct (rank _); simpl; lia. Qed.

(** The left part: what stays, what the clone adds and what goes stale. *)
Lemma left_cands st L L' VL st2 k t a x i nx h :
  cloned st L L' -> length L = length VL -> NoDup L -> (forall z, z ∈ L -> (z < length st)%nat) ->
  seg st2 None (L' ++ [k]) (VL ++ [(t, x)]) nx ->
  let h' := match last_of None L' with Some c => addNode st2 h c | None => h end in
  exists C E O,
    cands (L' ++ [k]) (VL ++ [(t, x)]) = C ++ E /\ cands (L ++ [i]) (VL ++ [(a, x)]) = C ++ O /\
    (forall e, e ∈ C -> node e ∈ L /\ node e ∈ L') /\ (forall e, e ∈ O -> node e ∈ L /\ node e ∉ L') /\
    (forall e, e ∈ E -> node e ∈ L') /\
    items h' ≡ₚ E ++ items h /\ (length E <= 1)%nat /\ (ok h -> ok h').
Proof.
  intros [[-> ->]|(A & q & -> & ->)] Hl Hnd Hlt Hs.
  { destruct VL; [|done]. exists [], [], []. split_and!; simpl; try done; try lia.
    all: intros e He; by apply not_elem_of_nil in He. }
  set (c := length st) in *. rewrite length_app in Hl. simpl in Hl.
  destruct (snoc_cases VL) as [->|(VA & [tq bq] & ->)]; [simpl in Hl; lia|]. rewrite length_app in Hl. simpl in Hl.
  rewrite <- !app_assoc in *. cbn [app] in *. apply seg_app in Hs as [_ (Hc & Hk & _)]; [|lia]. cbn [first_of] in Hc.
  rewrite last_of_app. cbn [last_of]. rewrite (cands_app _ _ A VA c), (cands_app _ _ A VA q) by lia.
  cbn [hd_edge Bpe.cands]. rewrite !app_nil_r.
  destruct (cands_last rank len A VA q c tq bq tq bq ltac:(lia)) as [E Hn]. rewrite E in *.
  exists (cands (A ++ [c]) (VA ++ [(tq, bq)])), (edge rank len c tq bq t), (edge rank len q tq bq a). split_and!.
  - done.
  - done.
  - intros e He%Hn. rewrite !elem_of_app. tauto.
  - intros e ->%edge_node. split; [rewrite elem_of_app; right; by left|].
    intros [Hq|Hq%list_elem_of_singleton]%elem_of_app.
    + apply NoDup_app in Hnd as (_ & Hd & _). apply (Hd q Hq). by left.
    + subst q. specialize (Hlt c). rewrite elem_of_app in Hlt. specialize (Hlt ltac:(right; by left)). lia.
  - intros e ->%edge_node. rewrite elem_of_app. right. by left.
  - by rewrite (addNode_items _ _ _ _ _ _ _ _ _ Hc Hk).
  - apply edge_length.
  - apply addNode_ok.
Qed.

Lemma biased_merge VL a x b y c VB : biased len (VL ++ (a, x) :: (b, y) :: VB) -> biased len (VL ++ (c, x) :: VB).
Proof.
  unfold biased. rewrite !fmap_app, !fmap_cons. cbn [snd]. generalize (VL.*2) (VB.*2). intros l m [H1 H2].
  split; [|rewrite !Forall_app, !Forall_cons in *; tauto]. clear H2. induction l as [|z l IH]; cbn [app] in *.
  - apply StronglySorted_inv in H1 as [H1 H3]. apply StronglySorted_inv in H1 as [H1 _]. by inversion H3; constructor.
  - apply StronglySorted_inv in H1 as [H1 H3]. constructor; [by apply IH|].
    apply Forall_app in H3 as [? H3]. apply Forall_cons in H3 as [? H3]. apply Forall_cons in H3 as [? H3].
    apply Forall_app. split; [done|]. by constructor.
Qed.

(** A stale entry changes nothing. *)
Lemma step_dead st q cnt e h ids vs :
  inv st q ids vs -> pop q = Some (e, h) -> dead st (node e) = true ->
  merge_step push ranks len (MkM st q cnt) e h = MkM st h cnt /\ inv st h ids vs.
Proof.
  intros [H1 H2 H3 H4 H5 H6 H7 H8] Hp Hd. pose proof (q_pop _ _ _ Hp) as Hi. split.
  - unfold merge_step. cbn [nodes count]. unfold dead in Hd. destruct (st !! node e) as [n|]; [|done]. by rewrite Hd.
  - split; try done.
    + by eapply q_pop_ok.
    + intros e' He. apply H6. rewrite Hi. by right.
    + intros e' He. apply H7. rewrite Hi. by right.
    + intros e' He. pose proof (H8 e' He) as Hin. rewrite Hi in Hin. apply elem_of_cons in Hin as [->|]; [|done].
      apply cands_nodes in He. apply (seg_alive _ _ _ _ _ _ H1) in He. congruence.
Qed.

(** A live entry merges its pair. *)
Lemma step_live st q cnt e h L i j B VL a x b y VB :
  inv st q (L ++ i :: j :: B) (VL ++ (a, x) :: (b, y) :: VB) -> length L = length VL ->
  pop q = Some (e, h) -> node e = i ->
  exists st' h' ids', merge_step push ranks len (MkM st q cnt) e h = MkM st' h' (cnt - 1) /\
    inv st' h' ids' (VL ++ ((a ++ b)%string, x) :: VB) /\ (length (items h') <= 2 + length (items h))%nat.
Proof.
  intros [Hs Hnd Hal Hb Hok Hfr Hlv Hall] Hl Hp He.
  pose proof (q_pop _ _ _ Hp) as Hi. pose proof (q_pop_ok _ _ _ Hok Hp) as Hokh.
  pose proof (splice_spec st L VL i j B VB a x b y Hs Hnd Hl Hal) as Hsp.
  pose proof Hs as Hs'. apply seg_app in Hs' as [HL (Hni & Hnj & HB)]; [|done]. cbn [first_of] in Hni.
  unfold merge_step. cbn [nodes count]. rewrite He, Hni. cbn [deleted next]. rewrite Hnj. cbn [deleted prev token bias next].
  destruct (clone_prev _ i (last_of None L)) as [st1 p].
  destruct Hsp as (L' & Hcl & -> & Hk & Hseg2 & Hseg3 & Hnd' & Hal').
  set (k := length st1) in *. set (st2 := set_next _ _ _) in *. set (st3 := set_prev _ _ _) in *.
  assert (HLlt : forall z, z ∈ L -> (z < length st)%nat).
  { intros z Hz. eapply seg_lt; [exact Hs|]. rewrite elem_of_app. by left. }
  pose proof Hnd as HndL. apply NoDup_app in HndL as (HndL & Hdis & HndB). rewrite !NoDup_cons, !elem_of_cons in HndB.
  destruct (left_cands st L L' VL st2 k (a ++ b) a x i _ h Hcl Hl HndL HLlt Hseg2)
    as (C & E & O & EC & EO & HC & HO & HE & Hit1 & HElen & Hok1).
  set (h1 := match last_of None L' with Some c => addNode st2 h c | None => h end) in *.
  set (h2 := match first_of B None with Some _ => addNode st3 h1 k | None => h1 end).
  assert (Hit2 : items h2 ≡ₚ hd_edge rank len k (a ++ b) x VB ++ items h1 /\ (length (hd_edge rank len k (a ++ b) x VB) <= 1)%nat
    /\ (ok h1 -> ok h2)).
  { apply seg_app in Hseg3 as [_ [Hk3 HB3]]; [|by apply seg_length in Hseg2; rewrite !length_app in Hseg2; simpl in Hseg2; lia].
    unfold h2. destruct B as [|z B], VB as [|[tz bz] VB]; try done; [split_and!; simpl; try done; lia|].
    destruct HB3 as [Hz _]. cbn [first_of hd_edge] in *.
    split_and!; [by rewrite (addNode_items _ _ _ _ _ _ _ _ _ Hk3 Hz) | apply edge_length | apply addNode_ok]. }
  destruct Hit2 as (Hit2 & HE2len & Hok2). rewrite Hit1 in Hit2.
  assert (HlL' : length L' = length VL).
  { apply seg_length in Hseg2. rewrite !length_app in Hseg2. simpl in Hseg2. lia. }
  assert (HL'L : forall z, z ∈ L' -> (z < length st)%nat -> z ∈ L).
  { destruct Hcl as [[-> ->]|(A & q0 & -> & ->)]; [done|]. intros z. rewrite !elem_of_app, !list_elem_of_singleton.
    intros [?|Hz] ?; [by left | lia]. }
  exists st3, h2, (L' ++ k :: B). split_and!; [done| |].
  2: { rewrite Hit2, !length_app. lia. }
  rewrite cands_app, EO in Hall, Hlv by done. cbn [hd_edge Bpe.cands] in Hall, Hlv.
  split; [exact Hseg3 | done | done | by eapply biased_merge | by auto | | |].
  - intros e' He'. assert (Hlen3 : (k < length st3)%nat).
    { eapply seg_lt; [exact Hseg3|]. rewrite elem_of_app. right. by left. }
    rewrite Hit2, !elem_of_app in He'. destruct He' as [Hn%hd_edge_node|[Hn%HE|Hin]]; [by rewrite Hn| |].
    + eapply seg_lt; [exact Hseg3|]. rewrite elem_of_app. by left.
    + specialize (Hfr e'). rewrite Hi in Hfr. specialize (Hfr ltac:(by right)). lia.
  - intros e' He' Hn. rewrite cands_app, EC by done. rewrite Hit2, !elem_of_app in He'. rewrite !elem_of_app.
    destruct He' as [?|[?|Hin]]; [tauto..|]. specialize (Hfr e'). specialize (Hlv e'). rewrite Hi in Hfr, Hlv.
    specialize (Hfr ltac:(by right)). specialize (Hlv ltac:(by right)). rewrite elem_of_app, elem_of_cons in Hn.
    assert (Hn' : node e' ∈ L \/ node e' ∈ B).
    { destruct Hn as [Hn|[Hn|Hn]]; [left; by apply HL'L | lia | by right]. }
    assert (Hin' : node e' ∈ L ++ i :: j :: B) by (rewrite elem_of_app, !elem_of_cons; tauto).
    specialize (Hlv Hin'). rewrite !elem_of_app in Hlv.
    assert (Hij : node e' <> i /\ node e' <> j).
    { destruct Hn' as [Hz|Hz]; [specialize (Hdis _ Hz); rewrite !elem_of_cons in Hdis; tauto|].
      split; intros E'; rewrite E' in Hz; tauto. }
    destruct Hlv as [[?|Ho]|[Hl1|[Hl1|?]]]; [tauto | | | | tauto].
    2: apply edge_node in Hl1; tauto. 2: apply hd_edge_node in Hl1; tauto.
    exfalso. apply HO in Ho as [Hz' Ho]. destruct Hn as [?|[?|Hz]]; [done | lia |].
    specialize (Hdis _ Hz'). rewrite !elem_of_cons in Hdis. tauto.
  - intros e' He'. rewrite cands_app, EC, !elem_of_app in He' by done. rewrite Hit2, !elem_of_app.
    specialize (Hall e'). rewrite Hi, !elem_of_app, elem_of_cons in Hall.
    destruct He' as [[He'|?]|[?|He']]; [|tauto..|].
    + right; right. destruct (Hall ltac:(tauto)) as [->|?]; [|done].
      destruct (HC _ He') as [HzL _]. rewrite He in HzL. specialize (Hdis _ HzL). rewrite !elem_of_cons in Hdis. tauto.
    + right; right. destruct (Hall ltac:(tauto)) as [->|?]; [|done]. apply cands_nodes in He'. rewrite He in He'. tauto.
Qed.

(** The list grows by one byte. *)
Lemma link_step st q ids vs a c index :
  inv st q ids vs -> last_of None ids = Some a -> Forall (fun x => x < index) vs.*2 -> 0 <= index < len ->
  let st' := set_next (st ++ [Node (String c "") index false (Some a) None]) (Some a) (Some (length st)) in
  inv st' (addNode st' q a) (ids ++ [length st]) (vs ++ [(String c "", index)]) /\
  (length (items (addNode st' q a)) <= S (length (items q)))%nat.
Proof.
  intros [Hs Hnd Hal Hb Hok Hfr Hlv Hall] Hlast Hlt Hi. set (b := length st). set (new := Node _ _ _ _ _). cbn zeta.
  set (st' := set_next _ _ _). pose proof (seg_length _ _ _ _ _ Hs) as Hl.
  assert (Hids : forall z, z ∈ ids -> (z < b)%nat) by (intros z Hz; by eapply seg_lt).
  destruct (snoc_cases ids) as [->|(A & a' & ->)]; [done|]. rewrite last_of_app in Hlast. injection Hlast as ->.
  rewrite length_app in Hl. simpl in Hl.
  destruct (snoc_cases vs) as [->|(VA & [t x] & ->)]; [simpl in Hl; lia|]. rewrite length_app in Hl. simpl in Hl.
  assert (Hab : (a < b)%nat) by (apply Hids; rewrite elem_of_app; right; by left).
  assert (Hs' : seg st' None ((A ++ [a]) ++ [b]) ((VA ++ [(t, x)]) ++ [(String c "", index)]) None).
  { apply seg_app; [rewrite !length_app; simpl; lia|]. split.
    - assert (Hs1 : seg (st ++ [new]) None (A ++ [a]) (VA ++ [(t, x)]) None).
      { eapply seg_agree; [|exact Hs]. intros z Hz. by apply lookup_app_l, Hids. }
      apply (seg_set_next _ _ _ _ _ (Some b) Hnd) in Hs1. by rewrite last_of_app in Hs1.
    - rewrite last_of_app. split; [|done]. unfold st'. rewrite lookup_set_next by (intros [=]; lia).
      by rewrite list_lookup_middle. }
  pose proof Hs' as Hn. rewrite <- !app_assoc in Hn. apply seg_app in Hn as [_ (Hna & Hnb & _)]; [|lia].
  pose proof (addNode_items st' q a t x false (last_of None A) b _ Hna Hnb) as Hit. cbn [token] in Hit.
  assert (Hc : cands ((A ++ [a]) ++ [b]) ((VA ++ [(t, x)]) ++ [(String c "", index)]) =
    cands (A ++ [a]) (VA ++ [(t, x)]) ++ edge rank len a t x (String c "")).
  { rewrite <- !app_assoc. cbn [app]. rewrite cands_app by lia. cbn [hd_edge Bpe.cands]. by rewrite app_nil_r. }
  split; [split|].
  - exact Hs'.
  - apply NoDup_app. split_and!; [done | | apply NoDup_singleton]. intros z Hz%Hids Hz'%list_elem_of_singleton. lia.
  - intros z. unfold st'. rewrite dead_set_next, dead_snoc, elem_of_app, list_elem_of_singleton. fold b.
    case_decide; [tauto|]. intros Hz%Hal. tauto.
  - destruct Hb as [Hb1 Hb2]. split; rewrite fmap_app;
      change ([(String c "", index)].*2) with [index].
    + clear -Hb1 Hlt. induction ((VA ++ [(t, x)]).*2) as [|z l IH]; cbn [app]; [by repeat constructor|].
      apply StronglySorted_inv in Hb1 as [Hb1 Hb2]. apply Forall_cons in Hlt as [Hz Hlt].
      constructor; [by apply IH|]. apply Forall_app. split; [done | by apply Forall_singleton].
    + apply Forall_app. split; [done | by apply Forall_singleton].
  - by apply addNode_ok.
  - intros e. rewrite Hit, elem_of_app. unfold st'. rewrite length_set_next, length_app. simpl.
    intros [->%edge_node|He%Hfr]; lia.
  - intros e He Hn. rewrite Hit in He. apply elem_of_app in He as [He|He]; rewrite Hc, elem_of_app; [by right|].
    apply elem_of_app in Hn as [Hn|Hn%list_elem_of_singleton]; [left; by apply Hlv|].
    apply Hfr in He. unfold b in Hn. lia.
  - intros e. rewrite Hit, Hc, !elem_of_app. intros [He|?]; [right; by apply Hall | by left].
  - rewrite Hit, length_app. pose proof (edge_length a t x (String c "")). lia.
Qed.

Lemma link_inv bytes st q ids vs a index :
  inv st q ids vs -> last_of None ids = Some a -> Forall (fun x => x < index) vs.*2 -> 0 <= index ->
  index + Z.of_nat (length bytes) <= len ->
  exists ids' vs', let '(st', q') := link push ranks len st q index a bytes in
    inv st' q' ids' vs' /\ vs'.*1 = vs.*1 ++ map (fun c => String c "") bytes /\
    (length (items q') <= length (items q) + length bytes)%nat.
Proof.
  revert st q ids vs a index. induction bytes as [|c bytes IH]; intros st q ids vs a index Hinv Ha Hlt H0 Hlen.
  { exists ids, vs. cbn. rewrite app_nil_r. split_and!; [done..|lia]. }
  cbn [length] in Hlen. destruct (link_step st q ids vs a c index Hinv Ha Hlt ltac:(lia)) as [Hinv' Hitems]. cbn [link].
  destruct (IH _ _ _ _ (length st) (index + 1) Hinv') as (ids' & vs' & H); [| |lia|lia|].
  - by rewrite last_of_app.
  - rewrite fmap_app. apply Forall_app. split; [|repeat constructor; cbn; lia].
    eapply List.Forall_impl; [|exact Hlt]. cbn. lia.
  - exists ids', vs'. set (st' := set_next _ _ _) in *. destruct (link _ _ _ _ _ _ _ _) as [st'' q''].
    destruct H as (H1 & H2 & H3). split_and!; [done | | simpl; lia].
    rewrite H2, fmap_app, <- app_assoc. done.
Qed.

Lemma merge_at_app L a b R : merge_at (length L) (L ++ a :: b :: R) = L ++ (a ++ b)%string :: R.
Proof. induction L as [|c L IH]; simpl; [done | by rewrite IH]. Qed.

(** Enough fuel: every round pops an entry, and a merge that pushes two entries
    shortens the list. *)
Lemma loop_bpe fuel f st q cnt ids vs :
  inv st q ids vs -> cnt = Z.of_nat (length vs) -> (length (items q) + 3 * length vs < fuel)%nat -> (length vs <= f)%nat ->
  merge_loop push pop ranks len fuel (MkM st q cnt) = Some (Z.of_nat (length (bpe_fuel rank f vs.*1))).
Proof.
  revert f st q cnt ids vs. induction fuel as [|fuel IH]; intros f st q cnt ids vs Hinv Hcnt Hfuel Hf; [lia|].
  pose proof (seg_length _ _ _ _ _ (inv_seg _ _ _ _ Hinv)) as Hl.
  cbn [merge_loop heap]. destruct (pop q) as [[e h]|] eqn:Hp.
  - destruct (dead st (node e)) eqn:Hd.
    + destruct (step_dead st q cnt e h ids vs Hinv Hp Hd) as [-> Hinv']. apply (IH f _ _ _ ids); try done.
      rewrite (q_pop _ _ _ Hp) in Hfuel. simpl in Hfuel. lia.
    + assert (Hin : e ∈ items q) by (rewrite (q_pop _ _ _ Hp); by left).
      pose proof (inv_live _ _ _ _ Hinv e Hin (inv_alive _ _ _ _ Hinv _ Hd)) as Hc.
      apply elem_of_cands in Hc as (n & i & a & x & b & y & r & Hi & Hn & HSn & Hr & ->); [|done].
      assert (Hbest : best (pairs rank 0 vs.*1) = Some (r, n)).
      { eapply least_is_best; try done; [apply Hinv|]. intros e He. apply (inv_all _ _ _ _ Hinv) in He.
        exact (q_least _ _ _ _ (inv_ok _ _ _ _ Hinv) Hp He). }
      apply list_elem_of_split_length in Hi as (L & R & -> & HL). apply list_elem_of_split_length in Hn as (VL & VR & -> & HVL).
      rewrite HVL in HSn. rewrite lookup_app_r in HSn by lia. replace (S (length VL) - length VL)%nat with 1%nat in HSn by lia.
      destruct VR as [|v VB]; [done|]. injection HSn as ->.
      rewrite !length_app in Hl. simpl in Hl. destruct R as [|j B]; [simpl in Hl; lia|].
      destruct (step_live st q cnt _ h L i j B VL a x b y VB Hinv ltac:(lia) Hp eq_refl) as (st' & h' & ids' & -> & Hinv' & Hitems).
      rewrite (q_pop _ _ _ Hp) in Hfuel. rewrite !length_app in *. cbn [length] in *.
      destruct f as [|f]; [lia|]. cbn [bpe_fuel]. rewrite Hbest.
      rewrite fmap_app, !fmap_cons. cbn [fst]. replace n with (length VL.*1) by (rewrite length_fmap; lia). rewrite merge_at_app.
      replace (VL.*1 ++ (a ++ b)%string :: VB.*1) with (VL ++ ((a ++ b)%string, x) :: VB).*1 by (by rewrite fmap_app).
      apply (IH f _ _ _ ids'); [done | rewrite length_app; cbn [length]; lia..].
  - assert (Hbest : best (pairs rank 0 vs.*1) = None).
    { destruct (best (pairs rank 0 vs.*1)) as [[k n]|] eqn:Hb; [|done]. apply best_elem, elem_of_pairs in Hb as (m & a & b & -> & Ha & Hb & Hk).
      rewrite list_lookup_fmap in Ha, Hb. destruct (vs !! m) as [[a0 x]|] eqn:Em; [|done]. destruct (vs !! S m) as [[b0 y]|] eqn:ESm; [|done].
      injection Ha as ->. injection Hb as ->. destruct (lookup_lt_is_Some_2 ids m) as [i Ei]; [rewrite Hl; by eapply lookup_lt_Some|].
      assert (Hin : Entry i (k * len + x) ∈ items q).
      { apply (inv_all _ _ _ _ Hinv), elem_of_cands; [done|]. by exists m, i, a, x, b, y, k. }
      rewrite (proj1 (@pop_None _ _ _ _ _ _ _ _ PQ q) Hp) in Hin. by apply not_elem_of_nil in Hin. }
    destruct f as [|f]; cbn [bpe_fuel]; [|rewrite Hbest]; by rewrite length_fmap, Hcnt.
Qed.
End Loop.

Section Correct.
Context {Q : Type} {empty : Q} {push : HeapEntry -> Q -> Q} {pop : Q -> option (HeapEntry * Q)}
  {items : Q -> list HeapEntry} {ok : Q -> Prop} `{PQ : !PriorityQueue less empty push pop items ok}.

Lemma inv_start ranks len c :
  0 < len -> inv (items := items) (ok := ok) ranks len [Node (String c "") 0 false None None] empty [0%nat] [(String c "", 0)].
Proof.
  intros Hlen. pose proof (@empty_items _ _ _ _ _ _ _ _ PQ) as He. split.
  - done.
  - apply NoDup_singleton.
  - intros [|z]; [intros _; by left | done].
  - split; [exact (SSorted_cons 0 (SSorted_nil Z.lt) (List.Forall_nil _)) | apply Forall_singleton; cbn; lia].
  - apply (@empty_ok _ _ _ _ _ _ _ _ PQ).
  - intros e. rewrite He. intros H. by apply not_elem_of_nil in H.
  - intros e. rewrite He. intros H. by apply not_elem_of_nil in H.
  - intros e H. by apply not_elem_of_nil in H.
Qed.

Lemma mergeWord_bpe ranks bytes :
  mergeWord empty push pop ranks bytes = Some (Z.of_nat (length (bpe (rank ranks) bytes))).
Proof.
  unfold mergeWord, bpe. destruct bytes as [|c [|d r]]; [done..|].
  set (bytes := c :: d :: r). set (len := Z.of_nat (length bytes)).
  destruct (link_inv (items := items) (ok := ok) ranks len (d :: r) _ empty _ _ 0 1 (inv_start ranks len c ltac:(done)))
    as (ids & vs & H).
  - done.
  - by apply Forall_singleton.
  - done.
  - unfold len, bytes. cbn [length]. lia.
  - destruct (link _ _ _ _ _ _ _ _) as [st q]. destruct H as (Hinv & Hvs & Hit).
    rewrite (@empty_items _ _ _ _ _ _ _ _ PQ) in Hit.
    assert (Hlen : length vs = length bytes).
    { rewrite <- (length_fmap fst vs), Hvs. unfold bytes. simpl. by rewrite length_map. }
    rewrite (loop_bpe (items := items) (ok := ok) ranks len _ (length bytes) st q len ids vs Hinv).
    + by rewrite Hvs.
    + unfold len. by rewrite Hlen.
    + rewrite Hlen. unfold bytes in *. cbn [length] in *. lia.
    + lia.
Qed.
End Correct.

(** ** What the definition computes *)

Fixpoint bytes_of (l : list string) : list ascii := match l with [] => [] | s :: r => chars s ++ bytes_of r end.

Lemma bytes_merge i l : bytes_of (merge_at i l) = bytes_of l.
Proof.
  revert i. induction l as [|a l IH]; intros [|i]; simpl; try done; [|by rewrite IH].
  destruct l as [|b l]; [done|]. simpl. by rewrite chars_app, app_assoc.
Qed.

Lemma length_merge i l : (length (merge_at i l) <= length l)%nat /\ ((S i < length l)%nat -> length l = S (length (merge_at i l))).
Proof.
  revert i. induction l as [|a l IH]; intros [|i]; simpl; [lia..| |].
  - destruct l as [|b l]; simpl; lia.
  - destruct (IH i) as [H1 H2]. split; [lia|]. intros H. rewrite H2 by lia. done.
Qed.

Lemma bpe_fuel_spec rank f l :
  (length l <= f)%nat ->
  bytes_of (bpe_fuel rank f l) = bytes_of l /\ pairs rank 0 (bpe_fuel rank f l) = [] /\
  (length (bpe_fuel rank f l) <= length l)%nat.
Proof.
  revert l. induction f as [|f IH]; intros l Hf; cbn [bpe_fuel].
  { destruct l; [done | simpl in Hf; lia]. }
  destruct (best (pairs rank 0 l)) as [[k i]|] eqn:E; [|by apply best_None in E].
  apply best_elem, elem_of_pairs in E as (m & a & b & -> & _ & Hb & _). apply lookup_lt_Some in Hb.
  destruct (length_merge m l) as [H1 H2]. specialize (H2 Hb). simpl.
  destruct (IH (merge_at m l)) as (H3 & H4 & H5); [lia|]. rewrite H3, bytes_merge. split_and!; [done..|lia].
Qed.

(** [mergeWord] with its heap. *)
Definition merge_word (ranks : list (string * Z)) (bytes : list ascii) : option Z :=
  mergeWord [] (ScoreHeap.push less) (ScoreHeap.pop less) ranks bytes.

Lemma merge_word_spec (ranks : list (string * Z)) (bytes : list ascii) :
  let tokens := bpe (rank ranks) bytes in
  merge_word ranks bytes = Some (Z.of_nat (length tokens)) /\
  bytes_of tokens = bytes /\ (length tokens <= length bytes)%nat /\
  forall n a b, tokens !! n = Some a -> tokens !! S n = Some b -> rank ranks (a ++ b) = None.
Proof.
  cbn zeta. split; [apply mergeWord_bpe|]. unfold bpe. set (l := map _ bytes).
  assert (Hl : length l = length bytes) by apply length_map.
  destruct (bpe_fuel_spec (rank ranks) (length bytes) l) as (H1 & H2 & H3); [lia|]. split_and!.
  - rewrite H1. unfold l. clear. induction bytes as [|c r IH]; [done|]. simpl. by rewrite IH.
  - lia.
  - intros n a b Ha Hb. destruct (rank ranks (a ++ b)) as [k|] eqn:Hk; [|done].
    assert (Hin : (k, n) ∈ pairs (rank ranks) 0 (bpe_fuel (rank ranks) (length bytes) l)).
    { apply elem_of_pairs. by exists n, a, b. }
    rewrite H2 in Hin. by apply not_elem_of_nil in Hin.
Qed.

(** ** Properties *)

(** C23: merging with the heap and the linked list, with stale entries, gives the
    count of the definition of byte pair encoding, which merges the leftmost pair
    of least rank until no adjacent pair has a rank; the loop ends by itself within
    four rounds per byte.  The tokens of the definition spell the bytes of the word,
    and there are as many as bytes at most. *)
Theorem merge_word_is_bpe (ranks : list (string * Z)) (bytes : list ascii) :
  let tokens := bpe (rank ranks) bytes in
  merge_word ranks bytes = Some (Z.of_nat (length tokens)) /\
  bytes_of tokens = bytes /\ (length tokens <= length bytes)%nat /\
  forall n a b, tokens !! n = Some a -> tokens !! S n = Some b -> rank ranks (a ++ b) = None.
Proof.
  apply merge_word_spec.
Qed.

(** Three merges of different ranks, and overlapping pairs. *)
Example merge_word_demo :
  let ranks := [("ab", 3); ("bc", 1); ("abc", 0); ("aa", 2)]%string in
  map (fun w => merge_word ranks (chars w)) ["abc"; "abcab"; "aaaaa"]%string = [Some 1; Some 2; Some 3].
Proof. vm_compute. reflexivity. Qed.

End Bpe.
