(* ===== verification/Tokenizer.v ===== *)
(** * The counting tokenizer
    (packages/provider-sdk/src/deepseekBpe.ts, all but the merge loop of [Bpe])

    A text is the list of its code points (no lone surrogates).  The Unicode
    classes of the three regular expressions are predicates on code points; each
    expression is a matcher that gives the length of the match at the head. *)

From Stdlib Require Import ZArith Lia Bool Ascii String List Permutation Sorted.
From stdpp Require Import base decidable list strings.
From S2P Require Import Prelude Codec ScoreHeap Bpe.
Import Codec.
Local Open Scope Z_scope.

Module Tokenizer.

(** ** Regular expressions *)

(** The length of the longest run of [p] at the head. *)
Fixpoint run {A} (p : A -> bool) (l : list A) : nat :=
  match l with
  | c :: r => if p c then S (run p r) else 0
  | [] => 0
  end.

Section Classes.
Context (isN isL isM isP isS : Z -> bool).

Definition isNewline (c : Z) : bool := (c =? 13) || (c =? 10).

Definition isCjk (c : Z) : bool := (19968 <=? c) && (c <=? 40869) || (12352 <=? c) && (c <=? 12447) || (12448 <=? c) && (c <=? 12543).

Definition isAsciiPunct (c : Z) : bool :=
  (33 <=? c) && (c <=? 47) || (58 <=? c) && (c <=? 64) || (91 <=? c) && (c <=? 96) || (123 <=? c) && (c <=? 126).

Definition isAsciiLetter (c : Z) : bool := (65 <=? c) && (c <=? 90) || (97 <=? c) && (c <=? 122).

(** A match of [n] characters, if [n] is not zero. *)
Definition some_run (n : nat) : option nat := match n with O => None | _ => Some n end.

(** [\p{N}{1,3}] *)
Definition match_digits (l : list Z) : option nat := some_run (Nat.min 3 (run isN l)).

Definition match_cjk (l : list Z) : option nat := some_run (run isCjk l).

(** The alternatives of the third expression, in order. *)
Definition alt_punct_word (l : list Z) : option nat :=
  match l with
  | c :: r => if isAsciiPunct c then match some_run (run isAsciiLetter r) with Some n => Some (S n) | None => None end else None
  | [] => None
  end.

Definition isWord (c : Z) : bool := isL c || isM c.

Definition alt_word (l : list Z) : option nat :=
  match l with
  | c :: r =>
      if negb (isNewline c || isL c || isP c || isS c)
      then match some_run (run isWord r) with Some n => Some (S n) | None => some_run (run isWord l) end
      else some_run (run isWord l)
  | [] => None
  end.

Definition isSign (c : Z) : bool := isP c || isS c.

Definition signs_then_newlines (l : list Z) : option nat :=
  match run isSign l with
  | O => None
  | n => Some (n + run isNewline (drop n l))%nat
  end.

Definition alt_signs (l : list Z) : option nat :=
  match l with
  | c :: r => if c =? 32 then match signs_then_newlines r with Some n => Some (S n) | None => signs_then_newlines l end
              else signs_then_newlines l
  | [] => None
  end.

(** The white space up to its last line break. *)
Definition to_last_newline (l : list Z) : nat :=
  let n := run isSpace l in
  n - run (fun c => negb (isNewline c)) (rev (take n l)).

Definition alt_newlines (l : list Z) : option nat := some_run (to_last_newline l).

Definition alt_trailing (l : list Z) : option nat :=
  let n := run isSpace l in
  match drop n l with [] => some_run n | _ => some_run (n - 1) end.

Definition alt_space (l : list Z) : option nat := some_run (run isSpace l).

Definition or_else (a b : option nat) : option nat := match a with Some n => Some n | None => b end.

Definition match_split (l : list Z) : option nat :=
  or_else (alt_punct_word l) (or_else (alt_word l) (or_else (alt_signs l)
    (or_else (alt_newlines l) (or_else (alt_trailing l) (alt_space l))))).

(** The three expressions, in order. *)
Definition DEEPSEEK_PRE_TOKENIZE_REGEXES : list (list Z -> option nat) := [match_digits; match_cjk; match_split].

(** ** [splitRegex] *)

(** [text.matchAll(re)]: positions and lengths, from left to right; every match of
    these expressions has a character at least. *)
Fixpoint matchAll (fuel : nat) (re : list Z -> option nat) (index : nat) (l : list Z) : list (nat * nat) :=
  match fuel, l with
  | S f, _ :: r =>
      match re l with
      | Some n => (index, n) :: matchAll f re (index + n) (drop n l)
      | None => matchAll f re (S index) r
      end
  | _, _ => []
  end.

Definition slice {A} (text : list A) (a b : nat) : list A := take (b - a) (drop a text).

Fixpoint split_loop (text : list Z) (last : nat) (ms : list (nat * nat)) : list (list Z) :=
  match ms with
  | [] => if (last <? length text)%nat then [drop last text] else []
  | (index, n) :: r =>
      (if (last <? index)%nat then [slice text last index] else []) ++
      slice text index (index + n) :: split_loop text (index + n) r
  end.

Definition splitRegex (text : list Z) (re : list Z -> option nat) : list (list Z) :=
  split_loop text 0 (matchAll (length text) re 0 text).

(** The three stages, each on the pieces of the one before. *)
Definition pre_tokenize (text : list Z) : list (list Z) :=
  fold_left (fun pieces re => concat (map (fun p => splitRegex p re) pieces)) DEEPSEEK_PRE_TOKENIZE_REGEXES [text].

End Classes.

(** ** Byte-level characters and the compact format *)

(** The code of the character that stands for a byte. *)
Definition byteToMappedChar (byte : Z) : Z :=
  if (33 <=? byte) && (byte <=? 126) || (161 <=? byte) && (byte <=? 172) || (174 <=? byte) && (byte <=? 255) then byte
  else if byte <=? 32 then 256 + byte
  else if byte <=? 160 then 289 + (byte - 127)
  else 323.

Definition MAPPED_TO_BYTE : list (Z * Z) :=
  fold_left (fun table n => map_set (byteToMappedChar (Z.of_nat n)) (Z.of_nat n) table) (seq 0 256) [].

(** What [convertDeepSeekTokenizer] throws. *)
Inductive ConvertError := NotByteLevel (ch : Z) | MergesNotArray | MergeNotString.

Fixpoint mappedToBytes (mapped : list Z) : outcome ConvertError (list ascii) :=
  match mapped with
  | [] => Ok []
  | ch :: r =>
      match map_get ch MAPPED_TO_BYTE with
      | None => Throw (NotByteLevel ch)
      | Some byte => match mappedToBytes r with Ok out => Ok (chr byte :: out) | Throw e => Throw e end
      end
  end.

(** The fields that are read of [tokenizer.json]; an entry that is not a string
    is [None]. *)
Record TokenizerJson := Json {
  merges : option (list (option (list Z)));
  added_tokens : list (option (list Z))
}.

Record DeepSeekTokenizerData := Data { ranksText : list ascii; addedTokens : list (list Z) }.

(** The two sides of a merge, cut at the first space. *)
Fixpoint cut_space (l : list Z) : list Z * list Z :=
  match l with
  | [] => ([], [])
  | c :: r => if c =? 32 then ([], r) else let '(a, b) := cut_space r in (c :: a, b)
  end.

Definition pair_bytes (merge : list Z) : outcome ConvertError (list ascii) :=
  let '(l, r) := cut_space merge in
  match mappedToBytes l with
  | Throw e => Throw e
  | Ok a => match mappedToBytes r with Throw e => Throw e | Ok b => Ok (a ++ b) end
  end.

Definition newline : ascii := chr 10.

(** [flush] *)
Definition flush (lines pending : list (list ascii)) (rank : Z) : list (list ascii) :=
  match pending with
  | [] => lines
  | _ => lines ++ [dec (rank - Z.of_nat (length pending)) ++ " "%char :: join " " pending]
  end.

Fixpoint convert_loop (ms : list (option (list Z))) (lines pending : list (list ascii)) (rank : Z)
    : outcome ConvertError (list (list ascii)) :=
  match ms with
  | [] => Ok (flush lines pending rank)
  | None :: _ => Throw MergeNotString
  | Some merge :: r =>
      match pair_bytes merge with
      | Throw e => Throw e
      | Ok bytes =>
          let pending := pending ++ [encode64 bytes] in
          let rank := rank + 1 in
          if 64 <=? Z.of_nat (length pending) then convert_loop r (flush lines pending rank) [] rank
          else convert_loop r lines pending rank
      end
  end.

Definition strings_of {A} (l : list (option A)) : list A :=
  concat (map (fun o => match o with Some x => [x] | None => [] end) l).

Definition convertDeepSeekTokenizer (j : TokenizerJson) : outcome ConvertError DeepSeekTokenizerData :=
  match merges j with
  | None => Throw MergesNotArray
  | Some ms => match convert_loop ms [] [] 0 with
               | Throw e => Throw e
               | Ok lines => Ok (Data (join newline lines) (strings_of (added_tokens j)))
               end
  end.

(** ** The constructor *)

(** [Number.parseInt(text, 10)]; [None] is [NaN]. *)
Definition parseInt (l : list ascii) : option Z :=
  let l := drop_while is_ws l in
  let '(neg, l) := match l with
                   | "-"%char :: r => (true, r)
                   | "+"%char :: r => (false, r)
                   | _ => (false, l)
                   end in
  match run is_digit l with
  | O => None
  | n => Some (if neg then - digits_val (take n l) else digits_val (take n l))
  end.

(** The ranks of one line. *)
Fixpoint load_tokens (ts : list (list ascii)) (rank : Z) (m : list (string * Z)) : list (string * Z) :=
  match ts with
  | [] => m
  | b64 :: r =>
      match b64 with
      | [] => load_tokens r rank m
      | _ => load_tokens r (rank + 1) (map_set (str (decode64 b64)) rank m)
      end
  end.

(** [line.indexOf(' ')], from which the two slices are taken: without a space the
    first is all but the last character and the second the whole line. *)
Definition cut_line (line : list ascii) : list ascii * list ascii :=
  let n := run (fun c => negb (c =? " ")%char) line in
  if (n <? length line)%nat then (take n line, drop (S n) line) else (removelast line, line).

Definition load_line (m : list (string * Z)) (line : list ascii) : list (string * Z) :=
  match line with
  | [] => m
  | _ => let '(head, tail) := cut_line line in
         load_tokens (split_on " " (trim_chars tail)) (default 0 (parseInt head)) m
  end.

Definition load_ranks (text : list ascii) : list (string * Z) := fold_left load_line (split_on newline text) [].

(** [text.length], in UTF-16 code units. *)
Definition units (text : list Z) : Z := zsum (map (fun c => if c <? 65536 then 1 else 2) text).

Definition sort_specials (added : list (list Z)) : list (list Z) :=
  stable_sort (fun a b => units b <=? units a) added.

(** [specialsByFirst] *)
Definition group_specials (specials : list (list Z)) : list (Z * list (list Z)) :=
  fold_left (fun m special =>
    match special with
    | [] => m
    | first :: _ => map_set first (default [] (map_get first m) ++ [special]) m
    end) specials [].

Record Bpe := MkBpe { ranks : list (string * Z); specialsByFirst : list (Z * list (list Z)) }.

Definition DeepSeekCountingBpe (d : DeepSeekTokenizerData) : Bpe :=
  MkBpe (load_ranks (ranksText d)) (group_specials (sort_specials (addedTokens d))).

(** ** Counting *)

Definition WORD_CACHE_MAX : Z := 10000.
Definition WORD_CACHE_MAX_LEN : Z := 256.

Section Count.
Context (isN isL isM isP isS : Z -> bool) (t : Bpe).

Definition cache := list (string * Z).

Definition countPiece (c : cache) (bytes : list ascii) : option (Z * cache) :=
  let key := str bytes in
  match map_get key c with
  | Some cached => Some (cached, map_set key cached (map_del key c))
  | None =>
      match Bpe.merge_word (ranks t) bytes with
      | None => None
      | Some count =>
          let c' :=
            if Z.of_nat (length bytes) <=? WORD_CACHE_MAX_LEN then
              let c1 := map_set key count c in
              if WORD_CACHE_MAX <? Z.of_nat (length c1)
              then match c1 with (oldest, _) :: _ => map_del oldest c1 | [] => c1 end
              else c1
            else c in
          Some (count, c')
      end
  end.

(** [text.startsWith(special, index)] with the text from [index] on. *)
Fixpoint startsWith (special text : list Z) : bool :=
  match special, text with
  | [], _ => true
  | a :: s, b :: r => (a =? b) && startsWith s r
  | _ :: _, [] => false
  end.

Definition candidates (text : list Z) : list (list Z) :=
  match text with
  | first :: _ => default [] (map_get first (specialsByFirst t))
  | [] => []
  end.

Definition special_at (text : list Z) : option (list Z) := find (fun s => startsWith s text) (candidates text).

(** The distance to the next special token: the loop on [end]. *)
Fixpoint plain_end (rest : list Z) : nat :=
  match rest with
  | [] => 0
  | _ :: r => if existsb (fun s => startsWith s rest) (candidates rest) then 0 else S (plain_end r)
  end.

Fixpoint count_pieces (pieces : list (list Z)) (total : Z) (c : cache) : option (Z * cache) :=
  match pieces with
  | [] => Some (total, c)
  | p :: r =>
      match countPiece c (utf8_bytes p) with
      | None => None
      | Some (n, c) => count_pieces r (total + n) c
      end
  end.

(** The loop of [count], on the text from [index] on; every round takes a
    character at least. *)
Fixpoint count_loop (fuel : nat) (text : list Z) (total : Z) (c : cache) : option (Z * cache) :=
  match text with
  | [] => Some (total, c)
  | _ :: rest =>
      match fuel with
      | O => None
      | S f =>
          match special_at text with
          | Some special => count_loop f (drop (length special) text) (total + 1) c
          | None =>
              let n := S (plain_end rest) in
              match count_pieces (pre_tokenize isN isL isM isP isS (take n text)) total c with
              | None => None
              | Some (total, c) => count_loop f (drop n text) total c
              end
          end
      end
  end.

Definition count (text : list Z) (c : cache) : option (Z * cache) := count_loop (length text) text 0 c.
End Count.

(** ** Pieces *)

Lemma run_le {A} (p : A -> bool) l : (run p l <= length l)%nat.
Proof. induction l as [|c l IH]; simpl; [lia|]. destruct (p c); lia. Qed.

Lemma run_all {A} (p : A -> bool) l r : forallb p l = true -> match r with [] => True | c :: _ => p c = false end ->
  run p (l ++ r) = length l.
Proof.
  intros Hl Hr. induction l as [|c l IH]; simpl in *; [destruct r as [|c r]; simpl; [done | by rewrite Hr]|].
  bools. rewrite H. f_equal. by apply IH.
Qed.

(** A matcher that matches a character at least, and what there is at most. *)
Definition sound (re : list Z -> option nat) : Prop := forall l n, re l = Some n -> (0 < n <= length l)%nat.

Lemma sound_some_run f : (forall l, (f l <= length l)%nat) -> sound (fun l => some_run (f l)).
Proof.
  intros Hf l n Hn. specialize (Hf l). unfold some_run in Hn. destruct (f l) eqn:E; [done|]. injection Hn as <-. lia.
Qed.

Lemma sound_or_else f g : sound f -> sound g -> sound (fun l => or_else (f l) (g l)).
Proof. intros Hf Hg l n. unfold or_else. destruct (f l) eqn:E; [intros [= <-]; by apply Hf | apply Hg]. Qed.

(** One more character in front. *)
Lemma sound_cons (f : list Z -> option nat) c l n :
  sound f -> match f l with Some n => Some (S n) | None => None end = Some n -> (0 < n <= length (c :: l))%nat.
Proof. intros Hf. destruct (f l) as [m|] eqn:E; [|done]. intros [= <-]. apply Hf in E. simpl. lia. Qed.

Section Classes.
Context (isN isL isM isP isS : Z -> bool).

Lemma sound_word : sound (fun l => some_run (run (isWord isL isM) l)).
Proof. apply sound_some_run. apply run_le. Qed.

Lemma sound_signs : sound (signs_then_newlines isP isS).
Proof.
  intros l n. unfold signs_then_newlines. pose proof (run_le (isSign isP isS) l).
  destruct (run (isSign isP isS) l) as [|k]; [done|]. intros [= <-].
  pose proof (run_le isNewline (drop (S k) l)) as Hr. rewrite length_drop in Hr. lia.
Qed.

Lemma regexes_sound : Forall sound (DEEPSEEK_PRE_TOKENIZE_REGEXES isN isL isM isP isS).
Proof.
  apply Forall_cons; split; [|apply Forall_cons; split; [|apply Forall_singleton]].
  - apply (sound_some_run (fun l => Nat.min 3 (run isN l))). intros l. pose proof (run_le isN l). lia.
  - apply sound_some_run. apply run_le.
  - unfold match_split. apply sound_or_else; [|apply sound_or_else; [|apply sound_or_else;
      [|apply sound_or_else; [|apply sound_or_else]]]].
    + intros [|c l] n; simpl; [done|]. destruct (isAsciiPunct c); [|done].
      apply (sound_cons (fun l => some_run (run isAsciiLetter l)) c l). apply sound_some_run, run_le.
    + intros [|c l] n; [done|]. cbn [alt_word]. destruct (negb _); [|apply sound_word].
      destruct (some_run (run (isWord isL isM) l)) eqn:E; [|apply sound_word].
      intros Hn. eapply (sound_cons _ c l n sound_word). cbn beta. by rewrite E.
    + intros [|c l] n; [done|]. cbn [alt_signs]. destruct (c =? 32); [|apply sound_signs].
      destruct (signs_then_newlines isP isS l) eqn:E; [|apply sound_signs].
      intros Hn. eapply (sound_cons _ c l n sound_signs). by rewrite E.
    + apply sound_some_run. intros l. unfold to_last_newline. pose proof (run_le isSpace l). lia.
    + intros l n. unfold alt_trailing. pose proof (run_le isSpace l) as Hr.
      destruct (drop (run isSpace l) l); unfold some_run; case_match; try done; intros [= <-]; lia.
    + apply sound_some_run, run_le.
Qed.

(** Matches lie one behind the other. *)
Fixpoint in_order (last : nat) (len : nat) (ms : list (nat * nat)) : Prop :=
  match ms with
  | [] => True
  | (i, n) :: r => (last <= i)%nat /\ (0 < n)%nat /\ (i + n <= len)%nat /\ in_order (i + n) len r
  end.

Lemma in_order_mono last last' len ms : (last' <= last)%nat -> in_order last len ms -> in_order last' len ms.
Proof. destruct ms as [|[i n] ms]; simpl; [done|]. intros ? (? & ? & ? & ?). split_and!; (lia || done). Qed.

Lemma matchAll_in_order fuel re i l : sound re -> in_order i (i + length l) (matchAll fuel re i l).
Proof.
  intros Hre. revert i l. induction fuel as [|f IH]; intros i l; [done|]. destruct l as [|c r]; [done|]. cbn [matchAll].
  destruct (re (c :: r)) as [n|] eqn:E.
  - apply Hre in E. cbn [in_order]. split_and!; [lia..|]. specialize (IH (i + n)%nat (drop n (c :: r))).
    rewrite length_drop in IH. by replace (i + n + (length (c :: r) - n))%nat with (i + length (c :: r))%nat in IH by lia.
  - specialize (IH (S i) r). cbn [length]. replace (i + S (length r))%nat with (S i + length r)%nat by lia.
    eapply in_order_mono; [|done]. lia.
Qed.

Lemma slice_drop {A} (text : list A) a b : (a <= b)%nat -> slice text a b ++ drop b text = drop a text.
Proof.
  intros Hab. unfold slice. replace (drop b text) with (drop (b - a) (drop a text)); [apply take_drop|].
  rewrite drop_drop. f_equal. lia.
Qed.

Lemma slice_nonnil {A} (text : list A) a b : (a < b)%nat -> (b <= length text)%nat -> slice text a b <> [].
Proof.
  intros Hab Hb E. apply (f_equal length) in E. unfold slice in E. rewrite length_take, length_drop in E. simpl in E. lia.
Qed.

Lemma split_loop_spec text last ms :
  (last <= length text)%nat -> in_order last (length text) ms ->
  concat (split_loop text last ms) = drop last text /\ Forall (fun p => p <> []) (split_loop text last ms).
Proof.
  revert last. induction ms as [|[i n] ms IH]; intros last Hl Hms; cbn [split_loop].
  - destruct (Nat.ltb_spec last (length text)) as [Hlt|Hge].
    + cbn [concat]. rewrite app_nil_r. split; [done|]. repeat constructor. intros E.
      apply (f_equal length) in E. rewrite length_drop in E. simpl in E. lia.
    + split; [by rewrite drop_ge by lia | constructor].
  - destruct Hms as (H1 & H2 & H3 & H4). destruct (IH (i + n)%nat) as [IH1 IH2]; [lia | done |].
    rewrite concat_app. cbn [concat]. rewrite IH1, slice_drop by lia. split.
    + destruct (Nat.ltb_spec last i); cbn [concat app]; [rewrite app_nil_r; by apply slice_drop; lia | f_equal; lia].
    + apply Forall_app. split; [|constructor; [apply slice_nonnil; lia | done]].
      destruct (Nat.ltb_spec last i); [|done]. apply Forall_singleton, slice_nonnil; lia.
Qed.

Lemma splitRegex_spec text re : sound re -> concat (splitRegex text re) = text /\ Forall (fun p => p <> []) (splitRegex text re).
Proof. intros Hre. apply split_loop_spec; [lia|]. by apply (matchAll_in_order _ re 0). Qed.

(** The stages only cut. *)
Lemma pre_tokenize_spec text :
  text <> [] -> concat (pre_tokenize isN isL isM isP isS text) = text /\
  Forall (fun p => p <> []) (pre_tokenize isN isL isM isP isS text).
Proof.
  intros Ht. unfold pre_tokenize. pose proof regexes_sound as Hs.
  assert (H : forall res pieces, Forall sound res -> Forall (fun p : list Z => p <> []) pieces ->
    let out := fold_left (fun pieces re => concat (map (fun p => splitRegex p re) pieces)) res pieces in
    concat out = concat pieces /\ Forall (fun p => p <> []) out).
  { induction res as [|re res IH]; intros pieces Hres Hp; [done|]. apply Forall_cons in Hres as [Hre Hres]. cbn [fold_left].
    assert (Hstep : concat (concat (map (fun p => splitRegex p re) pieces)) = concat pieces /\
      Forall (fun p => p <> []) (concat (map (fun p => splitRegex p re) pieces))).
    { clear Hp. induction pieces as [|p pieces [IH1 IH2]]; [done|]. cbn [map concat].
      destruct (splitRegex_spec p re Hre) as [H1 H2]. rewrite concat_app, IH1, H1. split; [done|]. by apply Forall_app. }
    destruct Hstep as [H1 H2]. destruct (IH _ Hres H2) as [H3 H4]. by rewrite H3, H1. }
  destruct (H _ [text] Hs) as [H1 H2]; [by apply Forall_singleton|]. rewrite H1. cbn [concat]. by rewrite app_nil_r.
Qed.
End Classes.

(** ** Special tokens *)

Definition prefix (s text : list Z) : Prop := exists r, text = s ++ r.

Lemma startsWith_prefix s text : startsWith s text = true <-> prefix s text.
Proof.
  unfold prefix. revert text. induction s as [|a s IH]; intros text; simpl; [split; eauto|].
  destruct text as [|b r]; [split; [done | by intros [r ?]]|]. rewrite andb_true_iff, Z.eqb_eq, IH. split.
  - intros [-> [r' ->]]. by exists r'.
  - intros [r' Hr]. injection Hr as -> ->. eauto.
Qed.

Definition head_is (c : Z) (s : list Z) : bool := match s with a :: _ => a =? c | [] => false end.

Lemma group_specials_get l c : default [] (map_get c (group_specials l)) = List.filter (head_is c) l.
Proof.
  unfold group_specials. set (step := fun m special => _).
  assert (H : forall m, default [] (map_get c (fold_left step l m)) = default [] (map_get c m) ++ List.filter (head_is c) l).
  { induction l as [|s l IH]; intros m; cbn [fold_left List.filter]; [by rewrite app_nil_r|].
    rewrite IH. unfold step at 1. destruct s as [|a s]; [done|]. cbn [head_is].
    rewrite map_get_set. destruct (Z.eqb_spec a c) as [->|Hne].
    - rewrite decide_True by done. simpl. by rewrite <- app_assoc.
    - by rewrite decide_False by done. }
  by rewrite H.
Qed.

Lemma find_filter {A} (p q : A -> bool) l : find p (List.filter q l) = find (fun x => q x && p x) l.
Proof.
  induction l as [|x l IH]; [done|]. cbn [List.filter find]. destruct (q x); cbn [find andb]; [by rewrite IH | done].
Qed.

Lemma find_sorted {A} (R : A -> A -> Prop) (p : A -> bool) l x :
  StronglySorted R l -> find p l = Some x -> x ∈ l /\ p x = true /\ forall y, y ∈ l -> p y = true -> y = x \/ R x y.
Proof.
  induction 1 as [|a l Hs IH Ha]; [done|]. cbn [find]. destruct (p a) eqn:Ep.
  - intros [= <-]. split_and!; [left | done |]. intros y [->|Hy]%elem_of_cons _; [by left|].
    right. rewrite List.Forall_forall in Ha. by apply Ha, elem_of_In.
  - intros Hf. destruct (IH Hf) as (H1 & H2 & H3). split_and!; [by right | done|].
    intros y [->|Hy]%elem_of_cons Hp; [congruence | by apply H3].
Qed.

(** The longest special token at the head of a text; that there is none. *)
Definition longest_special (added : list (list Z)) (text s : list Z) : Prop :=
  s ∈ added /\ s <> [] /\ prefix s text /\ forall s', s' ∈ added -> prefix s' text -> units s' <= units s.

Definition no_special (added : list (list Z)) (text : list Z) : Prop :=
  forall s, s ∈ added -> s <> [] -> ~ prefix s text.

Lemma units_nonneg s : 0 <= units s.
Proof.
  unfold units. induction s as [|c s IH]; [done|]. cbn [map]. rewrite zsum_cons. destruct (c <? 65536); lia.
Qed.

Lemma candidates_spec d text :
  match special_at (DeepSeekCountingBpe d) text with
  | Some s => longest_special (addedTokens d) text s
  | None => no_special (addedTokens d) text
  end.
Proof.
  unfold special_at, candidates. cbn [specialsByFirst DeepSeekCountingBpe].
  destruct text as [|c r].
  { cbn [find]. intros [|a s] _ Hs [r ?]; done. }
  rewrite group_specials_get, find_filter. set (q := fun x => _).
  assert (Hq : forall s, q s = true <-> s <> [] /\ prefix s (c :: r)).
  { intros s. unfold q. rewrite andb_true_iff, startsWith_prefix. destruct s as [|a s]; simpl; [split; [intros [? _]; done | intros [? _]; done]|].
    rewrite Z.eqb_eq. split; [by intros [_ ?]|]. intros [_ [r' Hr]]. split; [by injection Hr | by exists r']. }
  destruct (find q (sort_specials (addedTokens d))) as [s|] eqn:Hf.
  - apply (find_sorted (fun a b => (units b <=? units a) = true)) in Hf as (H1 & H2 & H3).
    + apply Hq in H2 as [H2 H4]. unfold sort_specials in *. rewrite elem_of_stable_sort in H1. split_and!; try done.
      intros s' Hs' Hp. destruct s' as [|a s']; [apply units_nonneg|]. destruct (H3 (a :: s')) as [->|?]; [by rewrite elem_of_stable_sort | by apply Hq | lia | by bools].
    + apply stable_sort_sorted; intros; rewrite ?Z.leb_le in *; lia.
  - intros s Hs Hne Hp. pose proof (find_none _ _ Hf s) as Hn. rewrite (proj2 (Hq s)) in Hn by done.
    discriminate Hn. apply elem_of_In. unfold sort_specials. by rewrite elem_of_stable_sort.
Qed.

Lemma existsb_special d text :
  existsb (fun s => startsWith s text) (candidates (DeepSeekCountingBpe d) text) =
  match special_at (DeepSeekCountingBpe d) text with Some _ => true | None => false end.
Proof.
  unfold special_at. generalize (candidates (DeepSeekCountingBpe d) text). intros l.
  induction l as [|s l IH]; [done|]. cbn [existsb find]. by destruct (startsWith s text).
Qed.

(** The text up to the next special token. *)
Definition plain_up_to (added : list (list Z)) (p rest : list Z) : Prop :=
  p <> [] /\ (forall a b, p = a ++ b -> b <> [] -> no_special added (b ++ rest)) /\
  (rest = [] \/ exists s, longest_special added rest s).

Lemma plain_end_spec d rest :
  let e := plain_end (DeepSeekCountingBpe d) rest in
  (forall a b, take e rest = a ++ b -> b <> [] -> no_special (addedTokens d) (b ++ drop e rest)) /\
  (drop e rest = [] \/ exists s, longest_special (addedTokens d) (drop e rest) s) /\ (e <= length rest)%nat.
Proof.
  induction rest as [|c r (IH1 & IH2 & IH3)]; cbn zeta.
  { split_and!; [intros [|] b E Hb; [|done]; by subst | by left | done]. }
  cbn [plain_end]. rewrite existsb_special. pose proof (candidates_spec d (c :: r)) as Hc.
  destruct (special_at (DeepSeekCountingBpe d) (c :: r)) as [s|].
  - cbn [take drop]. split_and!; [intros [|] b E Hb; [|done]; by subst | right; eauto | lia].
  - cbn [take drop length]. split_and!; [|done|lia]. intros [|x a] b E Hb.
    + cbn [app] in E. rewrite <- E. cbn [app]. by rewrite take_drop.
    + injection E as _ E. by apply (IH1 a b).
Qed.

(** ** The count *)

Section Spec.
Context (isN isL isM isP isS : Z -> bool) (d : DeepSeekTokenizerData).

Abbreviation table := (ranks (DeepSeekCountingBpe d)).

(** The tokens of a word: those of byte pair encoding. *)
Definition word_tokens (bytes : list ascii) : Z := Z.of_nat (length (Bpe.bpe (Bpe.rank table) bytes)).

Definition plain_tokens (p : list Z) : Z :=
  zsum (map (fun piece => word_tokens (utf8_bytes piece)) (pre_tokenize isN isL isM isP isS p)).

(** [counted text n]: a text cut, from left to right, at the longest special tokens
    has [n] tokens. *)
Inductive counted : list Z -> Z -> Prop :=
| counted_nil : counted [] 0
| counted_special s rest n :
    longest_special (addedTokens d) (s ++ rest) s -> counted rest n -> counted (s ++ rest) (1 + n)
| counted_plain p rest n :
    no_special (addedTokens d) (p ++ rest) -> plain_up_to (addedTokens d) p rest -> counted rest n ->
    counted (p ++ rest) (plain_tokens p + n).

(** A cache of right counts, bounded in number and length of words. *)
Definition cache_ok (c : cache) : Prop :=
  map_ok c /\ Z.of_nat (length c) <= WORD_CACHE_MAX /\
  forall k v, map_get k c = Some v -> v = word_tokens (chars k) /\ strlen k <= WORD_CACHE_MAX_LEN.

Lemma cache_del c k : cache_ok c -> cache_ok (map_del k c).
Proof.
  intros (H1 & H2 & H3). split_and!; [by apply map_del_ok | | intros k' v'; rewrite map_get_del by done; case_decide; [done | apply H3]].
  destruct (map_get k c) as [w|] eqn:E; [apply length_map_del in E; lia | by rewrite map_del_absent].
Qed.

Lemma countPiece_spec c bytes :
  cache_ok c -> exists c', countPiece (DeepSeekCountingBpe d) c bytes = Some (word_tokens bytes, c') /\ cache_ok c'.
Proof.
  intros Hc. pose proof Hc as (H1 & H2 & H3). unfold countPiece. destruct (map_get (str bytes) c) as [v|] eqn:E.
  - destruct (H3 _ _ E) as [Hv Hlen]. rewrite chars_str in Hv. subst v. eexists. split; [done|].
    destruct (cache_del c (str bytes) Hc) as (H4 & H5 & H6).
    assert (En : map_get (str bytes) (map_del (str bytes) c) = None) by (rewrite map_get_del by done; by rewrite decide_True).
    rewrite map_set_absent by done. split_and!.
    + rewrite <- (map_set_absent (str bytes)) by done. by apply map_set_ok.
    + rewrite length_app. cbn [length]. apply length_map_del in E. lia.
    + intros k v. rewrite <- (map_set_absent (str bytes)) by done. rewrite map_get_set. case_decide; [|apply H6].
      intros [= <-]. subst k. by rewrite chars_str.
  - destruct (Bpe.merge_word_spec table bytes) as [-> _]. eexists. split; [done|]. destruct (Z.leb_spec (Z.of_nat (length bytes)) WORD_CACHE_MAX_LEN) as [Hlen|]; [|done].
    set (c1 := map_set (str bytes) _ c).
    assert (Hc1 : map_ok c1 /\ forall k v, map_get k c1 = Some v -> v = word_tokens (chars k) /\ strlen k <= WORD_CACHE_MAX_LEN).
    { split; [by apply map_set_ok|]. intros k v. unfold c1. rewrite map_get_set. case_decide; [|apply H3].
      intros [= <-]. subst k. split; [by rewrite chars_str|]. rewrite strlen_chars, chars_str. done. }
    destruct Hc1 as [Hok Hget].
    assert (Hl1 : length c1 = S (length c)) by (unfold c1; rewrite map_set_absent, length_app by done; simpl; lia).
    destruct (Z.ltb_spec WORD_CACHE_MAX (Z.of_nat (length c1))); [|by split_and!].
    destruct c1 as [|[oldest w] c2]; [done|]. cbn [map_del]. rewrite decide_True by done. simpl in Hl1.
    apply NoDup_cons in Hok as [Hk Hok]. split_and!; [done | lia|]. intros k v Hv. apply Hget. cbn [map_get].
    rewrite decide_False; [done|]. intros ->. apply map_get_elem in Hv. apply Hk, list_elem_of_fmap. by exists (k, v).
Qed.

Lemma count_pieces_spec pieces total c :
  cache_ok c -> exists c', count_pieces (DeepSeekCountingBpe d) pieces total c =
    Some (total + zsum (map (fun p => word_tokens (utf8_bytes p)) pieces), c') /\ cache_ok c'.
Proof.
  revert total c. induction pieces as [|p pieces IH]; intros total c Hc; cbn [count_pieces map].
  - exists c. split; [|done]. unfold zsum. cbn. do 2 f_equal. lia.
  - destruct (countPiece_spec c (utf8_bytes p) Hc) as (c1 & -> & Hc1).
    destruct (IH (total + word_tokens (utf8_bytes p)) c1 Hc1) as (c2 & -> & Hc2). exists c2. split; [|done].
    rewrite zsum_cons. do 2 f_equal. lia.
Qed.

Lemma count_loop_spec fuel text :
  (length text <= fuel)%nat ->
  exists n, counted text n /\ forall total c, cache_ok c ->
    exists c', count_loop isN isL isM isP isS (DeepSeekCountingBpe d) fuel text total c = Some (total + n, c') /\ cache_ok c'.
Proof.
  assert (H0 : exists n, counted [] n /\ forall total c, cache_ok c -> exists c',
    Some (total, c) = Some (total + n, c') /\ cache_ok c').
  { exists 0. split; [constructor|]. intros total c Hc. exists c. by rewrite Z.add_0_r. }
  revert text. induction fuel as [|f IH]; intros text Hf; [by destruct text; [|simpl in Hf; lia]|].
  destruct text as [|x rest]; [done|]. cbn [count_loop]. pose proof (candidates_spec d (x :: rest)) as Hs.
  destruct (special_at (DeepSeekCountingBpe d) (x :: rest)) as [s|].
  - pose proof Hs as (_ & Hne & [r Hr] & _). rewrite Hr, drop_app_length.
    assert (Hlr : (length r <= f)%nat).
    { rewrite Hr, length_app in Hf. destruct s; [done|]. simpl in Hf. lia. }
    destruct (IH r Hlr) as (n & Hn & Hall). rewrite Hr in Hs. exists (1 + n). split; [by constructor|].
    intros total c Hc. destruct (Hall (total + 1) c Hc) as (c' & -> & Hc'). exists c'. split; [do 2 f_equal; lia | done].
  - destruct (plain_end_spec d rest) as (H1 & H2 & H3). set (e := plain_end _ rest) in *.
    destruct (IH (drop (S e) (x :: rest))) as (n & Hn & Hall); [cbn [drop]; rewrite length_drop; simpl in Hf; lia|].
    exists (plain_tokens (take (S e) (x :: rest)) + n). split.
    + rewrite <- (take_drop (S e) (x :: rest)) at 1. constructor; [by rewrite take_drop | | done].
      cbn [take drop]. split_and!; [done | | done]. intros [|y a] b E Hb.
      * cbn [app] in E. rewrite <- E. cbn [app]. by rewrite take_drop.
      * injection E as _ E. by apply (H1 a b).
    + intros total c Hc. set (pieces := pre_tokenize _ _ _ _ _ _).
      destruct (count_pieces_spec pieces total c Hc) as (c1 & -> & Hc1). fold (plain_tokens (take (S e) (x :: rest))).
      destruct (Hall (total + plain_tokens (take (S e) (x :: rest))) c1 Hc1) as (c' & E & Hc'). exists c'.
      split; [etransitivity; [exact E | do 2 f_equal; lia] | done].
Qed.

Lemma utf8_bytes_app a b : utf8_bytes (a ++ b) = utf8_bytes a ++ utf8_bytes b.
Proof. unfold utf8_bytes. by rewrite map_app, concat_app. Qed.

Lemma utf8_bytes_pos text : text <> [] -> (0 < length (utf8_bytes text))%nat.
Proof.
  destruct text as [|c r]; [done|]. intros _. unfold utf8_bytes, utf8. cbn [map concat]. rewrite length_app.
  repeat case_match; simpl; lia.
Qed.

Lemma counted_bound text n : counted text n -> 0 <= n <= Z.of_nat (length (utf8_bytes text)).
Proof.
  induction 1 as [|s rest n (_ & Hne & _) _ IH|p rest n _ (Hp & _) _ IH]; [done|..]; rewrite utf8_bytes_app, length_app.
  - pose proof (utf8_bytes_pos s Hne). lia.
  - destruct (pre_tokenize_spec isN isL isM isP isS p Hp) as [Hc _].
    assert (H : forall l, 0 <= zsum (map (fun piece => word_tokens (utf8_bytes piece)) l) <=
      Z.of_nat (length (utf8_bytes (concat l)))).
    { induction l as [|q l IH']; [done|]. cbn [map concat]. rewrite zsum_cons, utf8_bytes_app, length_app.
      destruct (Bpe.merge_word_spec table (utf8_bytes q)) as (_ & _ & Hle & _). unfold word_tokens at 1 3. lia. }
    specialize (H (pre_tokenize isN isL isM isP isS p)). rewrite Hc in H. unfold plain_tokens. lia.
Qed.
End Spec.

(** ** The round trip of the compact format *)

Definition mapped (bytes : list ascii) : list Z := map (fun c => byteToMappedChar (code c)) bytes.

Lemma mapped_char c : map_get (byteToMappedChar (code c)) MAPPED_TO_BYTE = Some (code c) /\ byteToMappedChar (code c) <> 32.
Proof.
  assert (H : forallb (fun n => bool_decide (map_get (byteToMappedChar (Z.of_nat n)) MAPPED_TO_BYTE = Some (Z.of_nat n)) &&
    negb (byteToMappedChar (Z.of_nat n) =? 32)) (seq 0 256) = true) by (vm_compute; reflexivity).
  rewrite forallb_forall in H. pose proof (code_bound c). specialize (H (Z.to_nat (code c))).
  rewrite Z2Nat.id in H by lia. specialize (H ltac:(apply in_seq; lia)). bools. done.
Qed.

Lemma mappedToBytes_mapped bytes : mappedToBytes (mapped bytes) = Ok bytes.
Proof.
  induction bytes as [|c r IH]; [done|]. unfold mapped in *. cbn [map mappedToBytes].
  destruct (mapped_char c) as [-> _]. by rewrite IH, chr_code.
Qed.

Lemma cut_space_mapped a b : cut_space (mapped a ++ 32 :: b) = (mapped a, b).
Proof.
  unfold mapped. induction a as [|c r IH]; [done|]. cbn [map app cut_space].
  destruct (mapped_char c) as [_ Hne]. apply Z.eqb_neq in Hne. by rewrite Hne, IH.
Qed.

(** The table of a list of pairs: their positions; a repeated pair has its last. *)
Fixpoint rank_table (k : Z) (pairs : list (list ascii)) (m : list (string * Z)) : list (string * Z) :=
  match pairs with
  | [] => m
  | p :: r => rank_table (k + 1) r (map_set (str p) k m)
  end.

Lemma rank_table_app k a b m : rank_table k (a ++ b) m = rank_table (k + Z.of_nat (length a)) b (rank_table k a m).
Proof.
  revert k m. induction a as [|p a IH]; intros k m; cbn [app rank_table length].
  - by rewrite Z.add_0_r.
  - rewrite IH. f_equal. lia.
Qed.

Lemma encode64_nonnil p : p <> [] -> encode64 p <> [].
Proof. destruct p as [|a [|b [|c r]]]; done. Qed.

Lemma load_tokens_encoded pairs k m :
  Forall (fun p => p <> []) pairs -> load_tokens (map encode64 pairs) k m = rank_table k pairs m.
Proof.
  intros Hp. revert k m. induction Hp as [|p pairs Hne Hp IH]; intros k m; [done|]. cbn [map load_tokens rank_table].
  apply encode64_nonnil in Hne. destruct (encode64 p) as [|c r] eqn:E; [done|]. rewrite <- E, IH.
  by destruct (decode_encode64 p) as [-> _].
Qed.

Definition plain_char (c : ascii) : bool := negb (is_ws c) && negb (c =? "-")%char.

Lemma base64_plain c : is_base64 c = true -> plain_char c = true.
Proof. destruct c as [[] [] [] [] [] [] [] []]; vm_compute; done. Qed.

Lemma digit_plain c : is_digit c = true -> plain_char c && negb (c =? "+")%char = true.
Proof. destruct c as [[] [] [] [] [] [] [] []]; vm_compute; done. Qed.

Lemma plain_not_ws c : plain_char c = true -> is_ws c = false /\ c <> " "%char /\ c <> newline.
Proof. intros Hc. split_and!; [by unfold plain_char in Hc; bools | by intros -> | by intros ->]. Qed.

(** Text that begins and ends with a character that is not white space. *)
Definition tight (l : list ascii) : Prop :=
  exists c r s d, l = c :: r /\ l = s ++ [d] /\ is_ws c = false /\ is_ws d = false.

Lemma trim_tight l : tight l -> trim_chars l = l.
Proof.
  intros (c & r & s & d & -> & E & Hc & Hd). unfold trim_chars. cbn [drop_while]. rewrite Hc, E, rev_app_distr.
  cbn [rev app drop_while]. rewrite Hd. cbn [rev]. by rewrite rev_involutive.
Qed.

Lemma join_cons sep w v l : join sep (w :: v :: l) = w ++ sep :: join sep (v :: l).
Proof. done. Qed.

Lemma tight_join sep l : l <> [] -> Forall tight l -> tight (join sep l).
Proof.
  intros Hne Hl. induction Hl as [|w l Hw Hl IH]; [done|]. destruct l as [|v l]; [done|]. rewrite join_cons.
  destruct Hw as (c & r & _ & _ & -> & _ & Hc & _). destruct (IH ltac:(done)) as (_ & _ & s & d & _ & E & _ & Hd).
  exists c, (r ++ sep :: join sep (v :: l)), ((c :: r) ++ sep :: s), d. split_and!; [done | | done..].
  rewrite E, <- app_assoc. done.
Qed.

Lemma plain_tight l : l <> [] -> forallb plain_char l = true -> tight l.
Proof.
  intros Hne Hl. rewrite forallb_forall in Hl. assert (H : forall c, In c l -> is_ws c = false).
  { intros c Hc. by apply plain_not_ws, Hl. }
  destruct l as [|c r]; [done|]. destruct (exists_last (l := c :: r)) as (s & d & E); [done|].
  exists c, r, s, d. split_and!; [done..| |]; apply H; [by left | rewrite E; apply in_app_iff; right; by left].
Qed.

Lemma base64_plain_all p : forallb plain_char (encode64 p) = true.
Proof.
  destruct (decode_encode64 p) as [_ H]. rewrite forallb_forall in H |- *. intros c Hc. by apply base64_plain, H.
Qed.

Lemma dec_plain k : 0 <= k -> forallb (fun c => plain_char c && negb (c =? "+")%char) (dec k) = true.
Proof.
  intros Hk. destruct (dec_spec k Hk) as [_ H]. rewrite forallb_forall in H |- *. intros c Hc. by apply digit_plain, H.
Qed.

Lemma plain_not_in (x : ascii) l : (x = " "%char \/ x = newline) -> forallb plain_char l = true -> x ∉ l.
Proof.
  intros Hx Hl Hin%elem_of_In. rewrite forallb_forall in Hl. apply Hl, plain_not_ws in Hin as (_ & H1 & H2). naive_solver.
Qed.

Lemma parseInt_dec k : 0 <= k -> parseInt (dec k) = Some k.
Proof.
  intros Hk. destruct (dec_spec k Hk) as [Hv Hd]. pose proof (dec_plain k Hk) as Hp. pose proof (dec_nonnil k) as Hne.
  unfold parseInt. destruct (dec k) as [|c r] eqn:E; [done|]. cbn [forallb] in Hp.
  apply andb_true_iff in Hp as [Hc _]. apply andb_true_iff in Hc as [Hc Hplus]. apply negb_true_iff in Hplus.
  pose proof (plain_not_ws c Hc) as (Hws & _). cbn [drop_while]. rewrite Hws.
  assert (Hminus : (c =? "-")%char = false) by (unfold plain_char in Hc; apply andb_true_iff in Hc as [_ Hc]; by apply negb_true_iff in Hc).
  assert (Hsel : forall (A : Type) (x y z : A), match c with "-"%char => x | "+"%char => y | _ => z end = z).
  { intros A x y z. destruct (Ascii.eqb_spec c "-"); [done|]. destruct (Ascii.eqb_spec c "+"); [done|].
    clear -n n0. destruct c as [[] [] [] [] [] [] [] []]; try done; by destruct n, n0. }
  rewrite (Hsel _ (true, r) (false, r) (false, c :: r)). rewrite <- (app_nil_r (c :: r)), run_all by done.
  rewrite app_nil_r. cbn [length]. change (S (length r)) with (length (c :: r)).
  by rewrite firstn_all, Hv.
Qed.

Definition line_of (k : Z) (ps : list (list ascii)) : list ascii := dec k ++ " "%char :: join " " (map encode64 ps).

Lemma load_line_of m k ps :
  0 <= k -> ps <> [] -> Forall (fun p => p <> []) ps -> load_line m (line_of k ps) = rank_table k ps m.
Proof.
  intros Hk Hne Hps. unfold load_line, line_of. destruct (dec k ++ _) as [|x y] eqn:E.
  { by apply app_eq_nil in E as [_ ?]. }
  rewrite <- E. unfold cut_line. rewrite run_all; [| |done].
  2: { pose proof (dec_plain k Hk) as H. rewrite forallb_forall in H |- *. intros c Hc. apply H in Hc.
       apply andb_true_iff in Hc as [Hc _]. apply plain_not_ws in Hc as (_ & Hc & _). by apply negb_true_iff, Ascii.eqb_neq. }
  rewrite length_app. cbn [length]. rewrite (proj2 (Nat.ltb_lt _ _)) by lia.
  rewrite take_app_length, drop_app_ge by lia. rewrite Nat.sub_succ_l, Nat.sub_diag by lia. cbn [drop]. rewrite drop_0.
  assert (Hmap : map encode64 ps <> []) by (by destruct ps).
  assert (Ht : Forall tight (map encode64 ps)).
  { apply Forall_map, (Forall_impl _ _ _ Hps). intros p Hp. by apply plain_tight; [apply encode64_nonnil | apply base64_plain_all]. }
  rewrite trim_tight by (by apply tight_join). rewrite split_join, parseInt_dec; [|done|done|].
  - by apply load_tokens_encoded.
  - apply Forall_map, Forall_true. intros p. apply plain_not_in; [by left | apply base64_plain_all].
Qed.

Lemma line_no_newline k ps : 0 <= k -> newline ∉ line_of k ps.
Proof.
  intros Hk. unfold line_of. rewrite elem_of_app, elem_of_cons. intros [H|[H|H]]; [| done |].
  - pose proof (dec_plain k Hk) as Hd. rewrite forallb_forall in Hd. apply elem_of_In, Hd, andb_true_iff in H as [H _].
    apply plain_not_ws in H as (_ & _ & H). by apply H.
  - induction ps as [|p [|q ps] IH]; cbn [map join] in *; [by apply not_elem_of_nil in H| |].
    + revert H. apply plain_not_in; [by right | apply base64_plain_all].
    + apply elem_of_app in H as [H|H]; [|apply elem_of_cons in H as [H|H]; [done | by apply IH]].
      revert H. apply plain_not_in; [by right | apply base64_plain_all].
Qed.

Lemma flush_load lines qs rank m :
  Z.of_nat (length qs) <= rank -> Forall (fun p => p <> []) qs ->
  fold_left load_line (flush lines (map encode64 qs) rank) m =
    rank_table (rank - Z.of_nat (length qs)) qs (fold_left load_line lines m) /\
  (Forall (fun w => newline ∉ w) lines -> Forall (fun w => newline ∉ w) (flush lines (map encode64 qs) rank)).
Proof.
  intros Hk Hq. destruct qs as [|q qs]; [done|]. set (l := q :: qs) in *.
  assert (E : flush lines (map encode64 l) rank = lines ++ [line_of (rank - Z.of_nat (length l)) l]).
  { unfold flush, line_of. rewrite length_map. done. }
  rewrite E, fold_left_app. cbn [fold_left]. rewrite load_line_of by (done || lia). split; [done|].
  intros Hl. apply Forall_app. split; [done|]. apply Forall_singleton, line_no_newline. lia.
Qed.

(** The merge that stands for a pair of tokens. *)
Definition merge_of (p : list ascii * list ascii) : list Z := mapped p.1 ++ 32 :: mapped p.2.

Lemma pair_bytes_of p : pair_bytes (merge_of p) = Ok (p.1 ++ p.2).
Proof. unfold pair_bytes, merge_of. by rewrite cut_space_mapped, !mappedToBytes_mapped. Qed.

Lemma convert_loop_load ps lines qs rank :
  let pairs := map (fun p => p.1 ++ p.2) ps in
  Forall (fun p => p <> []) pairs -> Forall (fun p => p <> []) qs -> Z.of_nat (length qs) <= rank ->
  Forall (fun w => newline ∉ w) lines ->
  exists out, convert_loop (map (fun p => Some (merge_of p)) ps) lines (map encode64 qs) rank = Ok out /\
    Forall (fun w => newline ∉ w) out /\
    forall m, fold_left load_line out m = rank_table (rank - Z.of_nat (length qs)) (qs ++ pairs) (fold_left load_line lines m).
Proof.
  revert lines qs rank. induction ps as [|p ps IH]; intros lines qs rank pairs Hp Hq Hr Hl; cbn [map convert_loop].
  - eexists. split; [done|]. split; [by apply (flush_load lines qs rank [])|]. intros m. rewrite app_nil_r. by apply flush_load.
  - rewrite pair_bytes_of. apply Forall_cons in Hp as [Hp Hps]. subst pairs.
    set (qs' := qs ++ [p.1 ++ p.2]). replace (map encode64 qs ++ [encode64 (p.1 ++ p.2)]) with (map encode64 qs') by (unfold qs'; by rewrite map_app).
    assert (Hq' : Forall (fun p => p <> []) qs') by (apply Forall_app; split; [done | by apply Forall_singleton]).
    assert (Hlen : Z.of_nat (length qs') = Z.of_nat (length qs) + 1) by (unfold qs'; rewrite length_app; simpl; lia).
    assert (Eq : forall r, qs ++ (p.1 ++ p.2) :: r = qs' ++ r) by (intros r; unfold qs'; by rewrite <- app_assoc).
    cbn [map]. setoid_rewrite Eq. destruct (flush_load lines qs' (rank + 1) [] ltac:(lia) Hq') as [_ Hnl].
    destruct (64 <=? _).
    + destruct (IH (flush lines (map encode64 qs') (rank + 1)) [] (rank + 1) Hps) as (out & E & Ho & Hm);
        [constructor | simpl; lia | by apply Hnl |].
      exists out. split_and!; [exact E | done |]. intros m. rewrite Hm. cbn [length app].
      destruct (flush_load lines qs' (rank + 1) m ltac:(lia) Hq') as [-> _]. rewrite rank_table_app. f_equal; [lia | f_equal; lia].
    + destruct (IH lines qs' (rank + 1) Hps Hq' ltac:(lia) Hl) as (out & E & Ho & Hm).
      exists out. split_and!; [exact E | done |]. intros m. rewrite Hm. f_equal. lia.
Qed.

Lemma load_lines lines : Forall (fun w => newline ∉ w) lines -> load_ranks (join newline lines) = fold_left load_line lines [].
Proof. intros Hl. unfold load_ranks. destruct lines as [|w lines]; [done|]. by rewrite split_join. Qed.

(** ** Properties *)

(** C25: with any cache of right counts, counting a text ends with the number of
    its tokens: the text is cut from left to right at the longest special tokens,
    the stretches between them are cut further into pieces that spell them, and each
    piece counts the tokens of byte pair encoding of its UTF-8 bytes.  The number
    does not depend on the cache, which keeps right counts and its bounds, and is at
    most the number of bytes. *)
Theorem count_spec (isN isL isM isP isS : Z -> bool) (d : DeepSeekTokenizerData) (text : list Z) :
  exists n, counted isN isL isM isP isS d text n /\ 0 <= n <= Z.of_nat (length (utf8_bytes text)) /\
    (forall c, cache_ok d c ->
     exists c', count isN isL isM isP isS (DeepSeekCountingBpe d) text c = Some (n, c') /\ cache_ok d c') /\
    forall p, p <> [] -> concat (pre_tokenize isN isL isM isP isS p) = p.
Proof.
  destruct (count_loop_spec isN isL isM isP isS d (length text) text ltac:(lia)) as (n & Hn & Hall). exists n. split_and!.
  - done.
  - by eapply counted_bound.
  - by eapply counted_bound.
  - intros c Hc. apply (Hall 0 c Hc).
  - intros p Hp. by apply pre_tokenize_spec.
Qed.

(** From a [tokenizer.json] whose merges are pairs of non-empty byte
    strings in the byte-level alphabet, the conversion and the constructor give the
    table that ranks the concatenation of each pair by its position (the last one,
    for a repeated pair), whatever the number of lines. *)
Theorem convert_roundtrip (ps : list (list ascii * list ascii)) (added : list (option (list Z))) :
  Forall (fun p => p.1 ++ p.2 <> []) ps ->
  exists d, convertDeepSeekTokenizer (Json (Some (map (fun p => Some (merge_of p)) ps)) added) = Ok d /\
    addedTokens d = strings_of added /\
    ranks (DeepSeekCountingBpe d) = rank_table 0 (map (fun p => p.1 ++ p.2) ps) [].
Proof.
  intros Hps. unfold convertDeepSeekTokenizer. cbn [merges added_tokens].
  destruct (convert_loop_load ps [] [] 0) as (out & E & Ho & Hm); [by apply Forall_map | constructor | done | constructor |].
  cbn [map] in E. rewrite E. eexists. split_and!; [done..|]. cbn [DeepSeekCountingBpe ranks ranksText].
  rewrite load_lines by done. rewrite Hm. done.
Qed.

(** ** The theorems at concrete inputs *)

Definition demo_pairs : list (list ascii * list ascii) :=
  [(chars "a", chars "b"); (chars "ab", chars "c"); (chars " ", chars "a")].

Lemma convert_roundtrip_witness :
  exists d, convertDeepSeekTokenizer (Json (Some (map (fun p => Some (merge_of p)) demo_pairs)) [Some [60; 115; 62]; None]) = Ok d /\
    addedTokens d = [[60; 115; 62]] /\ ranks (DeepSeekCountingBpe d) = [("ab", 0); ("abc", 1); (" a", 2)]%string.
Proof. apply (convert_roundtrip demo_pairs). repeat constructor; discriminate. Defined.

Lemma count_spec_witness :
  let class (a b c : Z) := (a <=? c) && (c <=? b) in
  let d := Data (chars "0 YWI= YWJj IGE=") [[60; 115; 62]] in
  let text := map code (chars "abc <s>ab") in
  exists n c', counted (class 48 57) (class 97 122) (fun _ => false) (class 33 47) (fun _ => false) d text n /\
    count (class 48 57) (class 97 122) (fun _ => false) (class 33 47) (fun _ => false) (DeepSeekCountingBpe d) text [] = Some (n, c').
Proof.
  intros class d text.
  destruct (count_spec (class 48 57) (class 97 122) (fun _ => false) (class 33 47) (fun _ => false) d text) as (n & Hn & _ & Hc & _).
  destruct (Hc []) as (c' & E & _).
  - split_and!; [constructor | done | intros k v H; discriminate H].
  - exists n, c'. split; [exact Hn | exact E].
Defined.

Example count_demo :
  let class (a b c : Z) := (a <=? c) && (c <=? b) in
  let letter c := class 97 122 c || class 65 90 c in
  let t := DeepSeekCountingBpe (Data (chars "0 YWI= YWJj IGE=") [[60; 115; 62]]) in
  option_map fst (count (class 48 57) letter (fun _ => false) (class 33 47) (fun _ => false) t (map code (chars "abc <s>ab ab 1234!")) []) = Some 12.
Proof. vm_compute. reflexivity. Qed.

End Tokenizer.
