(* ===== verification/CharacterCards.v ===== *)
(** * Character cards
    (apps/server/src/lib/characterCards.ts)

    Parsing of V1, V2 and V3 cards from JSON and from the text chunk of a PNG,
    and the V2 export.  A buffer is a list of bytes; an object is the list of its
    properties in insertion order, and a property that is [undefined] is not
    listed. *)

From Stdlib Require Import ZArith Lia Bool Ascii String List.
From stdpp Require Import base decidable list.
From S2P Require Import Prelude Codec Json.
Import Codec Json.
Local Open Scope Z_scope.

Module CharacterCards.

(** The reasons of [CHARACTER_CARD_INVALID], and the range error of
    [writeUInt32BE]. *)
Inductive CardError :=
| INVALID_JSON | INVALID_PNG_SIGNATURE | TRUNCATED_PNG_CHUNK | INVALID_PNG_CARD_ENCODING
| PNG_CARD_METADATA_MISSING | NAME_REQUIRED | INVALID_EXPORT_AVATAR | ERR_OUT_OF_RANGE.

Abbreviation text := (list Z).

(** ** PNG *)

Definition PNG_SIGNATURE : list ascii := map chr [137; 80; 78; 71; 13; 10; 26; 10].

(** [buffer.subarray(a, b)] *)
Definition subarray (l : list ascii) (a b : Z) : list ascii := take (Z.to_nat (b - a)) (drop (Z.to_nat a) l).

(** [buffer.readUInt32BE(offset)]; both callers leave room for it. *)
Definition readUInt32BE (l : list ascii) (offset : Z) : Z :=
  match drop (Z.to_nat offset) l with
  | a :: b :: c :: d :: _ => ((code a * 256 + code b) * 256 + code c) * 256 + code d
  | _ => 0
  end.

Definition writeUInt32BE (n : Z) : outcome CardError (list ascii) :=
  if (0 <=? n) && (n <? 2 ^ 32) then Ok [chr (n / 2 ^ 24); chr (n / 2 ^ 16 mod 256); chr (n / 2 ^ 8 mod 256); chr (n mod 256)]
  else Throw ERR_OUT_OF_RANGE.

(** [buffer.toString('ascii')] drops the high bit. *)
Definition ascii_text (l : list ascii) : list ascii := map (fun c => chr (code c mod 128)) l.

Definition len (l : list ascii) : Z := Z.of_nat (length l).

Fixpoint index_of (c : ascii) (l : list ascii) : option nat :=
  match l with
  | [] => None
  | x :: r => if (x =? c)%char then Some 0%nat else match index_of c r with Some n => Some (S n) | None => None end
  end.

Definition bytes_eq (a b : list ascii) : bool := if decide (a = b) then true else false.

(** [/^[A-Za-z0-9+/]*={0,2}$/] *)
Fixpoint base64_shape (l : list ascii) : bool :=
  match l with
  | c :: r =>
      if is_alnum c || (c =? "+")%char || (c =? "/")%char then base64_shape r
      else bytes_eq l (chars "=") || bytes_eq l (chars "==")
  | [] => true
  end.

(** The card in the data of a text chunk: [None] when it is not one. *)
Definition chara_data (data : list ascii) : option (outcome CardError (list ascii)) :=
  match index_of (chr 0) data with
  | Some (S n as separator) =>
      if bytes_eq (take separator data) (chars "chara") then
        let encoded := trim_chars (drop (S separator) data) in
        if (len encoded =? 0) || negb (len encoded mod 4 =? 0) || negb (base64_shape encoded)
        then Some (Throw INVALID_PNG_CARD_ENCODING)
        else Some (Ok (decode64 encoded))
      else None
  | _ => None
  end.

(** The loop over the chunks; a chunk takes twelve bytes at least. *)
Fixpoint extract_loop (fuel : nat) (bytes : list ascii) (offset : Z) : outcome CardError (list ascii) :=
  match fuel with
  | O => Throw PNG_CARD_METADATA_MISSING
  | S f =>
      if offset + 12 <=? len bytes then
        let length := readUInt32BE bytes offset in
        let typeStart := offset + 4 in
        let dataStart := typeStart + 4 in
        let dataEnd := dataStart + length in
        let chunkEnd := dataEnd + 4 in
        if len bytes <? chunkEnd then Throw TRUNCATED_PNG_CHUNK
        else
          let type := ascii_text (subarray bytes typeStart dataStart) in
          match (if bytes_eq type (chars "tEXt") then chara_data (subarray bytes dataStart dataEnd) else None) with
          | Some result => result
          | None => if bytes_eq type (chars "IEND") then Throw PNG_CARD_METADATA_MISSING else extract_loop f bytes chunkEnd
          end
      else Throw PNG_CARD_METADATA_MISSING
  end.

Definition extractPngCharacterJson (bytes : list ascii) : outcome CardError (list ascii) :=
  if (len bytes <? len PNG_SIGNATURE) || negb (bytes_eq (subarray bytes 0 8) PNG_SIGNATURE)
  then Throw INVALID_PNG_SIGNATURE
  else extract_loop (length bytes) bytes 8.

(** [crc >>> 1] and the exclusive or with the polynomial, eight times. *)
Fixpoint crc_bits (n : nat) (crc : Z) : Z :=
  match n with
  | O => crc
  | S n => crc_bits n (Z.lxor (Z.shiftr crc 1) (if Z.land crc 1 =? 0 then 0 else 3988292384))
  end.

Definition crc32 (bytes : list ascii) : Z :=
  Z.lxor (fold_left (fun crc byte => crc_bits 8 (Z.lxor crc (code byte))) bytes 4294967295) 4294967295.

Definition pngChunk (type data : list ascii) : outcome CardError (list ascii) :=
  match writeUInt32BE (len data), writeUInt32BE (crc32 (type ++ data)) with
  | Ok length, Ok crc => Ok (length ++ type ++ data ++ crc)
  | Throw e, _ => Throw e
  | _, Throw e => Throw e
  end.

(** The offset of the end chunk. *)
Fixpoint find_iend (fuel : nat) (png : list ascii) (offset : Z) : option Z :=
  match fuel with
  | O => None
  | S f =>
      if offset + 12 <=? len png then
        let length := readUInt32BE png offset in
        let endd := offset + length + 12 in
        if len png <? endd then None
        else if bytes_eq (subarray png (offset + 4) (offset + 8)) (chars "IEND") then Some offset
        else find_iend f png endd
      else None
  end.

(** ** Cards *)

Section Cards.
Context {N : Type} `{!NumberText N}.

Abbreviation json := (json N).

Definition UnknownRecord := list (text * json).

(** [CharacterCreate] and the exported part of [Character]. *)
Record Character := MkCharacter {
  name : text;
  description : text;
  personality : text;
  scenario : text;
  firstMessage : text;
  exampleDialogues : text;
  systemPrompt : option text;
  postHistoryInstructions : option text;
  creator : option text;
  creatorNotes : option text;
  tags : list text;
  ext : UnknownRecord
}.

Inductive CardKind := FromJson | FromPng.
Inductive CardVersion := V1 | V2 | V3.

Record ParsedCharacterCard := Parsed {
  character : Character;
  sourceFormat : CardKind * CardVersion;
  warnings : list string
}.

(** [record[key]] *)
Definition get (key : string) (r : UnknownRecord) : option json := map_get (lit key) r.

Definition stringValue (r : UnknownRecord) (key : string) : text :=
  match get key r with Some (JStr s) => s | _ => [] end.

Definition nullableString (r : UnknownRecord) (key : string) : option text :=
  match get key r with Some (JStr []) => None | Some (JStr s) => Some s | _ => None end.

Definition strings (l : list json) : list text :=
  concat (map (fun v => match v with JStr s => [s] | _ => [] end) l).

Definition stringArray (r : UnknownRecord) (key : string) : list text :=
  match get key r with Some (JArr l) => strings l | _ => [] end.

Definition parseJson (bytes : list ascii) : outcome CardError UnknownRecord :=
  match Json.parse (of_utf8 bytes) with Some (JObj r) => Ok r | _ => Throw INVALID_JSON end.

Definition text_mem (k : text) (l : list string) : bool := if decide (k ∈ map lit l) then true else false.

Definition unknownFields (r : UnknownRecord) (known : list string) : UnknownRecord :=
  List.filter (fun kv => negb (text_mem kv.1 known)) r.

Definition V2_KNOWN : list string := ["name"; "description"; "personality"; "scenario"; "first_mes"; "mes_example";
  "creator_notes"; "system_prompt"; "post_history_instructions"; "alternate_greetings"; "tags"; "creator";
  "character_version"; "extensions"]%string.

Definition V1_KNOWN : list string := ["name"; "description"; "personality"; "scenario"; "first_mes"; "mes_example";
  "creatorcomment"; "avatar"; "chat"; "talkativeness"; "fav"; "tags"]%string.

Definition is_str (v : option json) (s : string) : bool :=
  match v with Some (JStr t) => if decide (t = lit s) then true else false | _ => false end.

(** [{ ...a, ...b }] *)
Definition spread (b a : UnknownRecord) : UnknownRecord := fold_left (fun m kv => map_set kv.1 kv.2 m) b a.

Definition optional_entry (key : string) (v : option json) : UnknownRecord :=
  match v with Some v => [(lit key, v)] | None => [] end.

Definition structured_ext (root data : UnknownRecord) : UnknownRecord :=
  let extensions := match get "extensions" data with Some (JObj e) => e | _ => [] end in
  spread [(lit "characterVersion", JStr (stringValue data "character_version"));
          (lit "alternateGreetings", JArr (map JStr (stringArray data "alternate_greetings")));
          (lit "sourceRoot", JObj (unknownFields root ["spec"; "spec_version"; "data"]%string))]
    (spread extensions (spread (unknownFields data V2_KNOWN) [])).

Definition legacy_ext (data : UnknownRecord) : UnknownRecord :=
  spread [(lit "legacy", JObj ((lit "creatorComment", JStr (stringValue data "creatorcomment")) ::
      optional_entry "talkativeness" (get "talkativeness" data) ++ optional_entry "favorite" (get "fav" data)))]
    (spread (unknownFields data V1_KNOWN) []).

Definition parseCharacterCard (sourceBytes : list ascii) (kind : CardKind) : outcome CardError ParsedCharacterCard :=
  match match kind with FromPng => extractPngCharacterJson sourceBytes | FromJson => Ok sourceBytes end with
  | Throw e => Throw e
  | Ok bytes =>
      match parseJson bytes with
      | Throw e => Throw e
      | Ok root =>
          let inner := match get "data" root with Some (JObj d) => Some d | _ => None end in
          let hasStructuredData := match inner with Some _ => true | None => false end in
          let isV3 := hasStructuredData && (is_str (get "spec" root) "chara_card_v3" || is_str (get "spec_version" root) "3.0") in
          let isV2 := hasStructuredData && is_str (get "spec" root) "chara_card_v2" in
          let isStructured := isV2 || isV3 in
          let data := match inner with Some d => if isStructured then d else root | None => root end in
          let nm := trim_text (stringValue data "name") in
          match nm with
          | [] => Throw NAME_REQUIRED
          | _ =>
              Ok (Parsed
                (MkCharacter nm (stringValue data "description") (stringValue data "personality")
                  (stringValue data "scenario") (stringValue data "first_mes") (stringValue data "mes_example")
                  (nullableString data "system_prompt") (nullableString data "post_history_instructions")
                  (nullableString data "creator")
                  (nullableString data (if isStructured then "creator_notes" else "creatorcomment"))
                  (stringArray data "tags")
                  (if isStructured then structured_ext root data else legacy_ext data))
                (kind, if isV3 then V3 else if isV2 then V2 else V1)
                (if isStructured then [] else ["LEGACY_CHARACTER_CARD_V1"%string]))
          end
      end
  end.

Definition exportCharacterCard (c : Character) : json :=
  let alternateGreetings := match get "alternateGreetings" (ext c) with Some (JArr l) => strings l | _ => [] end in
  let characterVersion := match get "characterVersion" (ext c) with Some (JStr s) => s | _ => [] end in
  let extensions := unknownFields (ext c) ["_st2"; "alternateGreetings"; "characterVersion"; "sourceRoot"; "legacy"]%string in
  JObj [
    (lit "spec", JStr (lit "chara_card_v2"));
    (lit "spec_version", JStr (lit "2.0"));
    (lit "data", JObj [
      (lit "name", JStr (name c));
      (lit "description", JStr (description c));
      (lit "personality", JStr (personality c));
      (lit "scenario", JStr (scenario c));
      (lit "first_mes", JStr (firstMessage c));
      (lit "mes_example", JStr (exampleDialogues c));
      (lit "creator_notes", JStr (default [] (creatorNotes c)));
      (lit "system_prompt", JStr (default [] (systemPrompt c)));
      (lit "post_history_instructions", JStr (default [] (postHistoryInstructions c)));
      (lit "alternate_greetings", JArr (map JStr alternateGreetings));
      (lit "tags", JArr (map JStr (tags c)));
      (lit "creator", JStr (default [] (creator c)));
      (lit "character_version", JStr characterVersion);
      (lit "extensions", JObj extensions)])].

Definition card_json (c : Character) : list ascii := utf8_bytes (stringify (exportCharacterCard c)).

Definition embedCharacterCardInPng (png : list ascii) (c : Character) : outcome CardError (list ascii) :=
  if negb (bytes_eq (subarray png 0 (len PNG_SIGNATURE)) PNG_SIGNATURE) then Throw INVALID_EXPORT_AVATAR
  else match find_iend (length png) png (len PNG_SIGNATURE) with
       | None => Throw INVALID_EXPORT_AVATAR
       | Some iendOffset =>
           match pngChunk (chars "tEXt") (chars "chara" ++ [chr 0] ++ encode64 (card_json c)) with
           | Throw e => Throw e
           | Ok chunk => Ok (subarray png 0 iendOffset ++ chunk ++ subarray png iendOffset (len png))
           end
       end.
End Cards.

(** ** Chunks *)

(** A PNG as its chunks; [len_bytes n] are the four bytes of a length. *)
Record PngChunk := MkChunk { ctype : list ascii; cdata : list ascii; ccrc : list ascii }.

Definition len_bytes (n : Z) : list ascii := [chr (n / 2 ^ 24); chr (n / 2 ^ 16 mod 256); chr (n / 2 ^ 8 mod 256); chr (n mod 256)].

Definition chunk_bytes (c : PngChunk) : list ascii := len_bytes (len (cdata c)) ++ ctype c ++ cdata c ++ ccrc c.

Definition chunk_ok (c : PngChunk) : Prop :=
  length (ctype c) = 4%nat /\ length (ccrc c) = 4%nat /\ len (cdata c) < 2 ^ 32.

Lemma len_app a b : len (a ++ b) = len a + len b.
Proof. unfold len. rewrite length_app. lia. Qed.

Lemma len_nonneg l : 0 <= len l.
Proof. unfold len. lia. Qed.

Lemma subarray_app a b c : subarray (a ++ b ++ c) (len a) (len a + len b) = b.
Proof.
  unfold subarray, len. replace (Z.to_nat (Z.of_nat (length a))) with (length a) by lia.
  rewrite drop_app_length. replace (Z.to_nat _) with (length b) by lia. apply take_app_length.
Qed.

Lemma subarray_at l a b c o e : l = a ++ b ++ c -> o = len a -> e = o + len b -> subarray l o e = b.
Proof. intros -> -> ->. apply subarray_app. Qed.

Lemma bytes_eq_spec a b : bytes_eq a b = true <-> a = b.
Proof. unfold bytes_eq. by case_decide. Qed.

Lemma bytes_eq_refl a : bytes_eq a a = true.
Proof. by apply bytes_eq_spec. Qed.

Lemma read_len pre n r : 0 <= n < 2 ^ 32 -> readUInt32BE (pre ++ len_bytes n ++ r) (len pre) = n.
Proof.
  intros Hn. unfold readUInt32BE, len_bytes, len. rewrite Nat2Z.id, drop_app_length. cbn [app].
  rewrite !code_chr by byte_arith. byte_arith.
Qed.

Lemma chunk_length c : chunk_ok c -> len (chunk_bytes c) = len (cdata c) + 12.
Proof. intros (H1 & H2 & _). unfold chunk_bytes. rewrite !len_app. unfold len in *. rewrite H1, H2. simpl. lia. Qed.

(** One round of either loop, at a chunk. *)
Section Round.
Context (pre rest : list ascii) (c : PngChunk) (Hc : chunk_ok c).
Abbreviation bytes := (pre ++ chunk_bytes c ++ rest).

Lemma chunk_bounds : len pre + 12 <= len bytes /\ readUInt32BE bytes (len pre) = len (cdata c) /\
  len pre + len (cdata c) + 12 = len (pre ++ chunk_bytes c) /\ len (pre ++ chunk_bytes c) <= len bytes.
Proof.
  pose proof (chunk_length c Hc) as E. pose proof (len_nonneg (cdata c)). pose proof (len_nonneg rest). rewrite !len_app, E.
  split_and!; try lia. unfold chunk_bytes. rewrite <- app_assoc. apply read_len. destruct Hc as (_ & _ & H3). lia.
Qed.

Lemma chunk_parts :
  subarray bytes (len pre + 4) (len pre + 4 + 4) = ctype c /\
  subarray bytes (len pre + 4 + 4) (len pre + 4 + 4 + len (cdata c)) = cdata c.
Proof.
  destruct Hc as (H1 & H2 & _). assert (Ht : len (ctype c) = 4) by (unfold len; by rewrite H1).
  assert (Hl : len (len_bytes (len (cdata c))) = 4) by done. split.
  - apply (subarray_at _ (pre ++ len_bytes (len (cdata c))) _ (cdata c ++ ccrc c ++ rest)).
    + unfold chunk_bytes. by rewrite <- !app_assoc.
    + by rewrite len_app, Hl.
    + lia.
  - apply (subarray_at _ ((pre ++ len_bytes (len (cdata c))) ++ ctype c) _ (ccrc c ++ rest)).
    + unfold chunk_bytes. by rewrite <- !app_assoc.
    + rewrite !len_app. lia.
    + lia.
Qed.

Lemma extract_round f :
  extract_loop (S f) bytes (len pre) =
  match (if bytes_eq (ascii_text (ctype c)) (chars "tEXt") then chara_data (cdata c) else None) with
  | Some result => result
  | None => if bytes_eq (ascii_text (ctype c)) (chars "IEND") then Throw PNG_CARD_METADATA_MISSING
            else extract_loop f bytes (len (pre ++ chunk_bytes c))
  end.
Proof.
  destruct chunk_bounds as (H1 & H2 & H3 & H4). destruct chunk_parts as [P1 P2].
  cbn [extract_loop]. rewrite (proj2 (Z.leb_le _ _) H1). cbn zeta. rewrite H2, P1, P2.
  replace (len pre + 4 + 4 + len (cdata c) + 4) with (len (pre ++ chunk_bytes c)) by lia.
  by rewrite (proj2 (Z.ltb_ge _ _) H4).
Qed.

Lemma find_round f :
  find_iend (S f) bytes (len pre) =
  if bytes_eq (ctype c) (chars "IEND") then Some (len pre) else find_iend f bytes (len (pre ++ chunk_bytes c)).
Proof.
  destruct chunk_bounds as (H1 & H2 & H3 & H4). destruct chunk_parts as [P1 _].
  cbn [find_iend]. rewrite (proj2 (Z.leb_le _ _) H1). cbn zeta. rewrite H2.
  replace (len pre + 8) with (len pre + 4 + 4) by lia. rewrite P1, H3. by rewrite (proj2 (Z.ltb_ge _ _) H4).
Qed.
End Round.

(** Chunks before the end of the picture that are no character card. *)
Definition other_chunk (c : PngChunk) : Prop :=
  chunk_ok c /\ ascii_text (ctype c) <> chars "IEND" /\ (ascii_text (ctype c) = chars "tEXt" -> chara_data (cdata c) = None).

Definition chunks_bytes (l : list PngChunk) : list ascii := concat (map chunk_bytes l).

Lemma other_not_iend c : other_chunk c -> bytes_eq (ctype c) (chars "IEND") = false.
Proof.
  intros (_ & Hi & _). destruct (bytes_eq (ctype c) (chars "IEND")) eqn:E; [|done]. apply bytes_eq_spec in E.
  rewrite E in Hi. by destruct Hi.
Qed.

Lemma skip_chunks {A} (loop : nat -> list ascii -> Z -> A) l pre rest f :
  (forall f pre c rest, other_chunk c ->
   loop (S f) (pre ++ chunk_bytes c ++ rest) (len pre) = loop f (pre ++ chunk_bytes c ++ rest) (len (pre ++ chunk_bytes c))) ->
  Forall other_chunk l ->
  loop (length l + f)%nat (pre ++ chunks_bytes l ++ rest) (len pre) = loop f (pre ++ chunks_bytes l ++ rest) (len (pre ++ chunks_bytes l)).
Proof.
  intros Hstep Hl. revert pre. induction Hl as [|c l Hc Hl IH]; intros pre; unfold chunks_bytes in *; cbn [map concat length Nat.add].
  - by rewrite app_nil_r.
  - rewrite <- (app_assoc (chunk_bytes c)), Hstep by done. specialize (IH (pre ++ chunk_bytes c)). rewrite <- !app_assoc in IH. exact IH.
Qed.

Lemma extract_other f pre c rest :
  other_chunk c -> extract_loop (S f) (pre ++ chunk_bytes c ++ rest) (len pre) =
  extract_loop f (pre ++ chunk_bytes c ++ rest) (len (pre ++ chunk_bytes c)).
Proof.
  intros (Hc & Hi & Ht). rewrite extract_round by done. destruct (bytes_eq (ascii_text (ctype c)) (chars "IEND")) eqn:Ei.
  { by apply bytes_eq_spec in Ei. }
  destruct (bytes_eq (ascii_text (ctype c)) (chars "tEXt")) eqn:Et; [|done]. apply bytes_eq_spec in Et. by rewrite Ht.
Qed.

Lemma find_other f pre c rest :
  other_chunk c -> find_iend (S f) (pre ++ chunk_bytes c ++ rest) (len pre) =
  find_iend f (pre ++ chunk_bytes c ++ rest) (len (pre ++ chunk_bytes c)).
Proof. intros Hc. rewrite find_round by apply Hc. by rewrite other_not_iend. Qed.

(** ** The chunk of a card *)

Lemma lxor_bound a b : 0 <= a < 2 ^ 32 -> 0 <= b < 2 ^ 32 -> 0 <= Z.lxor a b < 2 ^ 32.
Proof.
  intros Ha Hb. assert (H0 : 0 <= Z.lxor a b) by (apply Z.lxor_nonneg; lia). split; [done|].
  destruct (Z.eq_dec (Z.lxor a b) 0) as [->|Hne]; [lia|]. apply Z.log2_lt_pow2; [lia|].
  assert (H : forall x, 0 <= x < 2 ^ 32 -> Z.log2 x < 32).
  { intros x Hx. destruct (Z.eq_dec x 0) as [->|]; [done|]. apply Z.log2_lt_pow2; lia. }
  pose proof (Z.log2_lxor a b ltac:(lia) ltac:(lia)). pose proof (H a Ha). pose proof (H b Hb). lia.
Qed.

Lemma crc_bits_bound n crc : 0 <= crc < 2 ^ 32 -> 0 <= crc_bits n crc < 2 ^ 32.
Proof.
  revert crc. induction n as [|n IH]; intros crc Hc; cbn [crc_bits]; [done|]. apply IH, lxor_bound.
  - rewrite Z.shiftr_div_pow2 by lia. change (2 ^ 1) with 2. byte_arith.
  - destruct (Z.land crc 1 =? 0); lia.
Qed.

Lemma crc32_bound l : 0 <= crc32 l < 2 ^ 32.
Proof.
  unfold crc32. apply lxor_bound; [|lia]. set (start := 4294967295). assert (Hs : 0 <= start < 2 ^ 32) by (unfold start; lia).
  clearbody start. revert start Hs. induction l as [|c l IH]; intros start Hs; cbn [fold_left]; [done|].
  apply IH, crc_bits_bound, lxor_bound; [done|]. pose proof (code_bound c). lia.
Qed.

Lemma pngChunk_ok type data :
  length type = 4%nat -> len data < 2 ^ 32 ->
  exists c, pngChunk type data = Ok (chunk_bytes c) /\ chunk_ok c /\ ctype c = type /\ cdata c = data.
Proof.
  intros Ht Hd. unfold pngChunk, writeUInt32BE. pose proof (len_nonneg data). pose proof (crc32_bound (type ++ data)) as Hc.
  rewrite (proj2 (Z.leb_le 0 (len data))), (proj2 (Z.ltb_lt _ _) Hd), (proj2 (Z.leb_le 0 (crc32 _))), (proj2 (Z.ltb_lt (crc32 _) _)) by lia.
  cbn [andb]. exists (MkChunk type data (len_bytes (crc32 (type ++ data)))). split_and!; done.
Qed.

Lemma base64_shape_encode l : base64_shape (encode64 l) = true.
Proof.
  assert (H6 : forall v, 0 <= v < 64 -> forall r, base64_shape (enc6 v :: r) = base64_shape r).
  { intros v Hv r. assert (H : forallb (fun n => let c := enc6 (Z.of_nat n) in is_alnum c || (c =? "+")%char || (c =? "/")%char) (seq 0 64) = true)
      by (vm_compute; reflexivity).
    rewrite forallb_forall in H. specialize (H (Z.to_nat v)). rewrite Z2Nat.id in H by lia.
    specialize (H ltac:(apply in_seq; lia)). cbn zeta in H. cbn [base64_shape]. by rewrite H. }
  induction l as [|a|a b|a b c r IH] using list_ind3; [done|..];
    repeat match goal with x : ascii |- _ => let v := fresh "v" in let H := fresh "Hv" in
      destruct (code_split x) as (v & -> & H) end; cbn [encode64]; rewrite ?code_chr by done;
    rewrite !H6 by byte_arith; done.
Qed.

Definition card_data (json : list ascii) : list ascii := chars "chara" ++ [chr 0] ++ encode64 json.

Lemma chara_data_card json : json <> [] -> chara_data (card_data json) = Some (Ok json).
Proof.
  intros Hne. destruct (decode_encode64 json) as [Hd Hb]. destruct (encode_length json) as (k & Hk & Hpos).
  pose proof (base64_shape_encode json) as Hs. unfold card_data.
  set (l := chars "chara" ++ [chr 0] ++ encode64 json).
  assert (E1 : index_of (chr 0) l = Some 5%nat) by reflexivity.
  assert (E2 : bytes_eq (take 5 l) (chars "chara") = true) by reflexivity.
  assert (E3 : drop 6 l = encode64 json) by reflexivity.
  unfold chara_data. rewrite E1, E2, E3. cbn zeta.
  rewrite trim_base64 by done. rewrite Hd, Hs. unfold len. rewrite Hk.
  rewrite (proj2 (Z.eqb_neq _ 0)) by (specialize (Hpos Hne); lia).
  rewrite (proj2 (Z.eqb_eq (Z.of_nat (4 * k) mod 4) 0)) by byte_arith. done.
Qed.

(** A picture without a card, as chunks up to its end. *)
Record picture (png : list ascii) (chunks : list PngChunk) (tail : list ascii) : Prop := {
  picture_chunks : Forall other_chunk chunks;
  picture_bytes : exists iend, chunk_ok iend /\ ctype iend = chars "IEND" /\
    png = PNG_SIGNATURE ++ chunks_bytes chunks ++ chunk_bytes iend ++ tail
}.

Lemma chunks_count l : Forall other_chunk l -> (length l <= length (chunks_bytes l))%nat.
Proof.
  induction 1 as [|c l [Hc _] _ IH]; [done|]. unfold chunks_bytes in *. cbn [map concat length]. rewrite length_app.
  pose proof (chunk_length c Hc) as E. pose proof (len_nonneg (cdata c)). unfold len in *. lia.
Qed.

Section RoundTrip.
Context (json : list ascii) (Hjson : json <> []) (Hsize : len (card_data json) < 2 ^ 32).

(** A text chunk in front of the end of a picture is read back. *)
Lemma embed_extract png chunks tail :
  picture png chunks tail ->
  exists iend chunk, find_iend (length png) png (len PNG_SIGNATURE) = Some iend /\
    pngChunk (chars "tEXt") (card_data json) = Ok chunk /\
    subarray png 0 (len PNG_SIGNATURE) = PNG_SIGNATURE /\
    extractPngCharacterJson (subarray png 0 iend ++ chunk ++ subarray png iend (len png)) = Ok json.
Proof.
  intros [Hl (iend & Hi & Ht & ->)]. set (rest := chunk_bytes iend ++ tail). set (png := PNG_SIGNATURE ++ chunks_bytes chunks ++ rest).
  destruct (pngChunk_ok (chars "tEXt") (card_data json) eq_refl Hsize) as (c & Hc & Hcok & Htype & Hdata).
  pose proof (chunks_count chunks Hl) as Hcount. set (pre := PNG_SIGNATURE ++ chunks_bytes chunks).
  exists (len pre), (chunk_bytes c). split_and!.
  - assert (E : length png = (length chunks + S (length png - length chunks - 1))%nat).
    { unfold png. rewrite !length_app. assert (length PNG_SIGNATURE = 8%nat) as -> by done. lia. }
    rewrite E. unfold png at 2. rewrite (skip_chunks find_iend) by (done || apply find_other). fold pre. unfold rest.
    rewrite app_assoc. rewrite find_round by done. by rewrite Ht.
  - done.
  - apply (subarray_at _ [] _ (chunks_bytes chunks ++ rest)); done.
  - assert (E1 : subarray png 0 (len pre) = pre).
    { apply (subarray_at _ [] _ rest); [unfold png, pre; by rewrite <- app_assoc | done | done]. }
    assert (E2 : subarray png (len pre) (len png) = rest).
    { apply (subarray_at _ pre _ []); [unfold png, pre; by rewrite app_nil_r, <- app_assoc | done |].
      unfold png. rewrite app_assoc, len_app. done. }
    rewrite E1, E2. unfold extractPngCharacterJson. set (out := pre ++ chunk_bytes c ++ rest).
    assert (E3 : subarray out 0 8 = PNG_SIGNATURE).
    { apply (subarray_at _ [] _ (chunks_bytes chunks ++ chunk_bytes c ++ rest)); [unfold out, pre; by rewrite <- app_assoc | done | done]. }
    rewrite E3, bytes_eq_refl.
    assert (Hlen : (len PNG_SIGNATURE <= len out)).
    { unfold out, pre. rewrite !len_app. pose proof (len_nonneg (chunks_bytes chunks)). pose proof (len_nonneg (chunk_bytes c)).
      pose proof (len_nonneg rest). lia. }
    rewrite (proj2 (Z.ltb_ge _ _) Hlen). cbn [orb negb].
    assert (E : length out = (length chunks + S (length out - length chunks - 1))%nat).
    { unfold out, pre. rewrite !length_app. assert (length PNG_SIGNATURE = 8%nat) as -> by done. lia. }
    rewrite E. unfold out at 2, pre. rewrite <- app_assoc. change 8 with (len PNG_SIGNATURE).
    rewrite (skip_chunks extract_loop) by (done || apply extract_other). rewrite app_assoc, extract_round by done.
    rewrite Htype, Hdata, chara_data_card by done. done.
Qed.
End RoundTrip.

(** ** The text of a card *)

Section CardText.
Context {N : Type} `{!NumberText N}.

Lemma wf_strs (l : list text) : Forall ok_text l -> wf (JArr (N := N) (map JStr l)).
Proof. intros Hl. apply wf_arr. induction Hl; constructor; done. Qed.

Lemma strings_ok (l : list (json N)) : Forall wf l -> Forall ok_text (strings l).
Proof.
  induction 1 as [|v l Hv _ IH]; [constructor|]. unfold strings in *. cbn [map concat]. apply Forall_app. split; [|done].
  destruct v; try constructor; [exact Hv | constructor].
Qed.

Lemma wf_get (r : UnknownRecord (N := N)) k v : wf (JObj r) -> get k r = Some v -> wf v.
Proof.
  intros [_ Hr]%wf_obj Hg. apply map_get_elem in Hg. rewrite List.Forall_forall in Hr.
  apply elem_of_In in Hg. by apply Hr in Hg as [_ Hg].
Qed.

Lemma wf_unknown (r : UnknownRecord (N := N)) known : wf (JObj r) -> wf (JObj (unknownFields r known)).
Proof.
  intros [Hnd Hr]%wf_obj. apply wf_obj. unfold unknownFields. split.
  - clear Hr. induction r as [|[k v] r IH]; [done|]. apply NoDup_cons in Hnd as [Hk Hnd]. cbn [List.filter].
    destruct (negb _); [|by apply IH]. apply NoDup_cons. split; [|by apply IH]. cbn [fst]. contradict Hk.
    apply list_elem_of_fmap in Hk as (kv & -> & [Hkv _]%elem_of_In%filter_In). apply list_elem_of_fmap. exists kv.
    split; [done|]. by apply elem_of_In.
  - apply List.Forall_forall. intros kv [Hkv _]%filter_In. rewrite List.Forall_forall in Hr. by apply Hr.
Qed.

(** A character of the data base: text without lone surrogates. *)
Record card_ok (c : Character (N := N)) : Prop := {
  ok_texts : Forall ok_text ([name c; description c; personality c; scenario c; firstMessage c; exampleDialogues c;
    default [] (systemPrompt c); default [] (postHistoryInstructions c); default [] (creator c); default [] (creatorNotes c)] ++ tags c);
  ok_ext : wf (JObj (ext c))
}.

Definition card_greetings (c : Character (N := N)) : list text :=
  match get "alternateGreetings" (ext c) with Some (JArr l) => strings l | _ => [] end.

Definition card_version (c : Character (N := N)) : text :=
  match get "characterVersion" (ext c) with Some (JStr s) => s | _ => [] end.

Lemma wf_export c : card_ok c -> wf (exportCharacterCard c).
Proof.
  intros [Ht He]. unfold exportCharacterCard. fold (card_greetings c) (card_version c).
  assert (Hg : Forall ok_text (card_greetings c)).
  { unfold card_greetings. destruct (get _ _) as [[]|] eqn:E; try constructor. apply strings_ok. by apply wf_arr, (wf_get _ _ _ He E). }
  assert (Hv : ok_text (card_version c)).
  { unfold card_version. destruct (get _ _) as [[]|] eqn:E; try done. exact (wf_get _ _ _ He E). }
  apply Forall_app in Ht as [Ht Htags]. rewrite !Forall_cons in Ht.
  apply wf_obj. split; [apply (bool_decide_unpack _); vm_compute; exact I|].
  repeat (apply Forall_cons; split; [split; [done | done]|]). apply Forall_singleton. split; [done|].
  apply wf_obj. split; [apply (bool_decide_unpack _); vm_compute; exact I|].
  repeat (apply Forall_cons; split; [split; [done|] | ]); try apply Forall_nil; cbn [snd]; try (cbn [wf]; tauto).
  - by apply wf_strs.
  - by apply wf_strs.
  - by apply wf_unknown.
Qed.

Lemma map_get_spread (b a : UnknownRecord (N := N)) k :
  NoDup b.*1 -> map_get k (spread b a) = match map_get k b with Some v => Some v | None => map_get k a end.
Proof.
  unfold spread. revert a. induction b as [|[k' v] b IH]; intros a Hnd; [done|]. apply NoDup_cons in Hnd as [Hk Hnd].
  cbn [fold_left fst snd]. rewrite IH, map_get_set by done. cbn [map_get]. destruct (decide (k' = k)) as [->|]; [|done].
  by rewrite (proj2 (map_get_None k b) Hk).
Qed.

Lemma map_get_unknown (r : UnknownRecord (N := N)) known k :
  map_get k (unknownFields r known) = if text_mem k known then None else map_get k r.
Proof.
  unfold unknownFields. induction r as [|[k' v] r IH]; cbn [List.filter map_get fst]; [by destruct (text_mem k known)|].
  destruct (decide (k' = k)) as [->|Hne].
  - destruct (text_mem k known) eqn:E; cbn [negb]; [by rewrite IH|]. cbn [map_get]. by rewrite decide_True.
  - destruct (text_mem k' known); cbn [negb]; [done|]. cbn [map_get]. by rewrite decide_False.
Qed.

Definition nonempty (t : option text) : option text := match t with Some [] => None | _ => t end.

(** What an imported card keeps of the exported one. *)
Record same_card (c d : Character (N := N)) : Prop := {
  same_name : name d = trim_text (name c);
  same_texts : [description d; personality d; scenario d; firstMessage d; exampleDialogues d] =
               [description c; personality c; scenario c; firstMessage c; exampleDialogues c];
  same_options : [systemPrompt d; postHistoryInstructions d; creator d; creatorNotes d] =
                 map nonempty [systemPrompt c; postHistoryInstructions c; creator c; creatorNotes c];
  same_tags : tags d = tags c;
  same_ext : forall k, map_get k (ext d) =
    if decide (k = lit "characterVersion") then Some (JStr (card_version c))
    else if decide (k = lit "alternateGreetings") then Some (JArr (map JStr (card_greetings c)))
    else if decide (k = lit "sourceRoot") then Some (JObj [])
    else if text_mem k ["_st2"; "legacy"]%string then None
    else map_get k (ext c)
}.

Definition root_of (c : Character (N := N)) : UnknownRecord := match exportCharacterCard c with JObj r => r | _ => [] end.
Definition data_of (c : Character (N := N)) : UnknownRecord := match get "data" (root_of c) with Some (JObj d) => d | _ => [] end.

Lemma strings_map (l : list text) : strings (N := N) (map JStr l) = l.
Proof. unfold strings. induction l as [|t l IH]; [done|]. cbn [map concat app]. by rewrite IH. Qed.

Lemma nullable_default (r : UnknownRecord (N := N)) k (t : option text) :
  get k r = Some (JStr (default [] t)) -> nullableString r k = nonempty t.
Proof. unfold nullableString. intros ->. by destruct t as [[|x t]|]. Qed.

Lemma parse_json_card c : card_ok c -> parseJson (N := N) (card_json c) = Ok (root_of c).
Proof.
  intros Hc. pose proof (wf_export c Hc) as Hw. unfold parseJson, card_json.
  rewrite of_utf8_bytes by (by apply stringify_scalar). rewrite parse_stringify by done. done.
Qed.

(** The fields of the imported card. *)
Definition imported (c : Character (N := N)) : Character :=
  MkCharacter (trim_text (name c)) (description c) (personality c) (scenario c) (firstMessage c) (exampleDialogues c)
    (nullableString (data_of c) "system_prompt") (nullableString (data_of c) "post_history_instructions")
    (nullableString (data_of c) "creator") (nullableString (data_of c) "creator_notes")
    (stringArray (data_of c) "tags") (structured_ext (root_of c) (data_of c)).

Lemma parse_card c bytes kind :
  card_ok c -> trim_text (name c) <> [] ->
  match kind with FromPng => extractPngCharacterJson bytes | FromJson => Ok bytes end = Ok (card_json c) ->
  parseCharacterCard bytes kind = Ok (Parsed (imported c) (kind, V2) []).
Proof.
  intros Hc Hn E. unfold parseCharacterCard. rewrite E, parse_json_card by done.
  change (get "data" (root_of c)) with (Some (JObj (data_of c))). cbn zeta iota beta.
  change (is_str (get "spec" (root_of c)) "chara_card_v3" || is_str (get "spec_version" (root_of c)) "3.0") with false.
  change (is_str (get "spec" (root_of c)) "chara_card_v2") with true. cbn [andb orb].
  change (stringValue (data_of c) "name") with (name c). unfold imported.
  destruct (trim_text (name c)) as [|x t]; [done|]. reflexivity.
Qed.

Lemma same_imported c : card_ok c -> same_card c (imported c).
Proof.
  intros Hc. split; [done | done | | by apply strings_map |].
  - cbn [imported systemPrompt postHistoryInstructions creator creatorNotes map].
    rewrite (nullable_default _ "system_prompt" (systemPrompt c)), (nullable_default _ "post_history_instructions" (postHistoryInstructions c)),
      (nullable_default _ "creator" (creator c)), (nullable_default _ "creator_notes" (creatorNotes c)) by reflexivity. done.
  - intros k. cbn [imported ext]. unfold structured_ext.
    change (unknownFields (data_of c) V2_KNOWN) with (@nil (text * json N)).
    change (unknownFields (root_of c) ["spec"; "spec_version"; "data"]%string) with (@nil (text * json N)).
    change (stringValue (data_of c) "character_version") with (card_version c).
    change (stringArray (data_of c) "alternate_greetings") with (strings (N := N) (map JStr (card_greetings c))). rewrite strings_map.
    set (fields := unknownFields (ext c) ["_st2"; "alternateGreetings"; "characterVersion"; "sourceRoot"; "legacy"]%string).
    change (match get "extensions" (data_of c) with Some (JObj e) => e | _ => [] end) with fields.
    assert (Hf : NoDup fields.*1) by (eapply (proj1 (proj1 (wf_obj (N := N) fields) (wf_unknown _ _ (ok_ext _ Hc))))).
    rewrite map_get_spread by (apply (bool_decide_unpack _); vm_compute; exact I). rewrite map_get_spread by done.
    unfold fields. rewrite map_get_unknown. cbn [map_get spread fold_left].
    destruct (decide (k = lit "characterVersion")) as [->|H1]; [by rewrite decide_True|].
    rewrite (decide_False (P := lit "characterVersion" = k)) by congruence.
    destruct (decide (k = lit "alternateGreetings")) as [->|H2]; [by rewrite decide_True|].
    rewrite (decide_False (P := lit "alternateGreetings" = k)) by congruence.
    destruct (decide (k = lit "sourceRoot")) as [->|H3]; [by rewrite decide_True|].
    rewrite (decide_False (P := lit "sourceRoot" = k)) by congruence.
    assert (E : text_mem k ["_st2"; "alternateGreetings"; "characterVersion"; "sourceRoot"; "legacy"]%string = text_mem k ["_st2"; "legacy"]%string).
    { unfold text_mem. cbn [map]. apply decide_ext. rewrite !elem_of_cons. naive_solver. }
    rewrite E. clear E. destruct (text_mem _ _); [done|]. by destruct (map_get k (ext c)).
Qed.

Lemma card_json_nonnil c : card_json (N := N) c <> [].
Proof. unfold card_json, utf8_bytes. intros E. by apply (f_equal (@length ascii)) in E. Qed.

(** C27: the character card that is embedded in a picture is the card that is
    read from it.  For a character without lone surrogates and with a name that
    is more than white space, and for a picture that has no card of its own,
    the embedding succeeds; reading the result as a PNG gives the same card,
    without a warning, as reading the exported JSON; and that card has the
    texts, the tags, the greetings and the version of the character, its optional
    texts without the empty ones, and every extension but [_st2] and
    [legacy]. *)
Theorem card_roundtrip (c : Character (N := N)) png chunks tail :
  card_ok c -> trim_text (name c) <> [] -> picture png chunks tail -> len (card_data (card_json c)) < 2 ^ 32 ->
  exists out d,
    embedCharacterCardInPng png c = Ok out /\
    parseCharacterCard out FromPng = Ok (Parsed d (FromPng, V2) []) /\
    parseCharacterCard (card_json c) FromJson = Ok (Parsed d (FromJson, V2) []) /\
    same_card c d.
Proof.
  intros Hc Hn Hp Hl.
  destruct (embed_extract (card_json c) (card_json_nonnil c) Hl png chunks tail Hp) as (iend & chunk & Hi & Hk & Hs & Hx).
  exists (subarray png 0 iend ++ chunk ++ subarray png iend (len png)), (imported c). split_and!.
  - unfold embedCharacterCardInPng. rewrite Hs, bytes_eq_refl, Hi. cbn [negb]. fold (card_data (card_json c)). by rewrite Hk.
  - by apply (parse_card c _ FromPng).
  - by apply (parse_card c _ FromJson).
  - by apply same_imported.
Qed.
End CardText.

(** A picture with a header chunk, a comment and an end, and a character. *)
Definition sample_chunks : list PngChunk :=
  [MkChunk (chars "IHDR") (map chr [0; 0; 0; 1]) (chars "crc1"); MkChunk (chars "tEXt") (chars "Comment") (chars "crc2")].

Definition sample_png : list ascii :=
  PNG_SIGNATURE ++ chunks_bytes sample_chunks ++ chunk_bytes (MkChunk (chars "IEND") [] (chars "crc3")) ++ [].

Definition sample_character : Character (N := Z) :=
  MkCharacter (lit " Ada ") (lit "Writes") [] [233; 128512; 34; 10] (lit "Hi") [] (Some (lit "Be brief")) None (Some []) None
    [lit "maths"] [(lit "alternateGreetings", JArr [JStr (lit "Hello"); JNum 7]); (lit "depth", JObj [(lit "n", JNum (-12))])].

Lemma card_roundtrip_witness :
  exists out d,
    embedCharacterCardInPng sample_png sample_character = Ok out /\
    parseCharacterCard out FromPng = Ok (Parsed d (FromPng, V2) []) /\
    parseCharacterCard (card_json sample_character) FromJson = Ok (Parsed d (FromJson, V2) []) /\
    same_card sample_character d.
Proof.
  apply (card_roundtrip sample_character sample_png sample_chunks []).
  - split; [repeat constructor|]. apply wf_obj. split; [apply (bool_decide_unpack _); vm_compute; exact I|].
    repeat constructor. apply (bool_decide_unpack _). vm_compute. exact I.
  - vm_compute. discriminate.
  - split; [|by exists (MkChunk (chars "IEND") [] (chars "crc3"))].
    repeat constructor; try discriminate; vm_compute; congruence.
  - vm_compute. reflexivity.
Defined.


(** The check value of CRC-32. *)
Example crc32_check : crc32 (chars "123456789") = 3421780262.
Proof. vm_compute. reflexivity. Qed.

End CharacterCards.
