(* ===== verification/ResponseStream.v ===== *)
(** * Streams of large responses
    (apps/plugin-runtime/src/host/responseStreamer.ts and the assembly of the
    chunks in apps/plugin-runtime/worker-bootstrap.mjs)

    The host cuts the body of a response into chunks and creates the next one when
    the worker has granted credit for the last; the worker puts them together and
    decodes the body once.  The two ends are modelled with the frames and
    credits that are on their way. *)

From Stdlib Require Import ZArith Lia Bool Ascii String List.
From stdpp Require Import base decidable list sets.
From S2P Require Import Prelude Codec Json.
Import Codec Json.
Local Open Scope Z_scope.

Module ResponseStream.

Abbreviation text := (list Z).
Abbreviation bytes := (list ascii).

Definition RPC_STREAM_CHUNK_BYTES : Z := 256 * 1024.
Definition RPC_STREAM_INITIAL_CREDIT_BYTES : Z := RPC_STREAM_CHUNK_BYTES.
Definition RPC_STREAM_MAX_CONCURRENT : Z := 16.
Definition RPC_STREAM_MAX_ACCUMULATED_BYTES : Z := 16 * 1024 * 1024.

Definition size (b : bytes) : Z := Z.of_nat (length b).

(** ** The payload of a frame *)

Record Header := MkHeader { requestId : text; seq : Z; final : bool }.

(** [JSON.stringify(header) + NUL + chunk] *)
Definition encodeResponseStreamPayload (h : Header) (chunk : bytes) : bytes :=
  utf8_bytes (stringify (JObj [(lit "requestId", JStr (requestId h)); (lit "seq", JNum (seq h)); (lit "final", JBool (final h))]))
  ++ NUL :: chunk.

(** The parts before and behind the first NUL. *)
Fixpoint split_nul (l : bytes) : option (bytes * bytes) :=
  match l with
  | [] => None
  | c :: r => if (c =? NUL)%char then Some ([], r) else match split_nul r with Some (a, b) => Some (c :: a, b) | None => None end
  end.

(** The header that the worker accepts, and the chunk. *)
Definition decodePayload (payload : bytes) : option (Header * bytes) :=
  match split_nul payload with
  | Some ((_ :: _) as h, chunk) =>
      match Json.parse (N := Z) (of_utf8 h) with
      | Some (JObj o) =>
          match map_get (lit "requestId") o, map_get (lit "seq") o, map_get (lit "final") o with
          | Some (JStr rid), Some (JNum n), Some (JBool f) => if n <? 0 then None else Some (MkHeader rid n f, chunk)
          | _, _, _ => None
          end
      | _ => None
      end
  | _ => None
  end.

(** ** The producer in the host *)

Record ResponseStreamState := MkStream {
  workerId : Z;
  workerEpoch : Z;
  body : bytes;
  offset : Z;
  credit : Z;
  nextSeq : Z
}.

Record RpcResponseStreamFrame := MkFrame {
  frameWorker : Z;
  frameEpoch : Z;
  header : Header;
  chunk : bytes;
  payload : bytes
}.

Inductive StreamError := RESPONSE_STREAM_TOO_LARGE | RESPONSE_STREAM_DUPLICATE | RESPONSE_STREAM_LIMIT | RESPONSE_STREAM_EMPTY.

Record ResponseStreamerOptions := MkOptions {
  chunkBytes : Z;
  initialCreditBytes : Z;
  maxConcurrent : Z;
  maxAccumulatedBytes : Z
}.

Definition default_options : ResponseStreamerOptions :=
  MkOptions RPC_STREAM_CHUNK_BYTES RPC_STREAM_INITIAL_CREDIT_BYTES RPC_STREAM_MAX_CONCURRENT RPC_STREAM_MAX_ACCUMULATED_BYTES.

Abbreviation Streams := (list (text * ResponseStreamState)).

Section Streamer.
Variable opts : ResponseStreamerOptions.

(** [body.subarray(from, to)] *)
Definition slice (b : bytes) (from to : Z) : bytes := take (Z.to_nat (to - from)) (drop (Z.to_nat from) b).

Definition pumpOne (rid : text) (streams : Streams) : Streams * option RpcResponseStreamFrame :=
  match map_get rid streams with
  | None => (streams, None)
  | Some s =>
      if size (body s) <=? offset s then (map_del rid streams, None)
      else if credit s <? chunkBytes opts then (streams, None)
      else
        let endd := Z.min (offset s + chunkBytes opts) (size (body s)) in
        let c := slice (body s) (offset s) endd in
        let last := endd =? size (body s) in
        let h := MkHeader rid (nextSeq s) last in
        let s' := MkStream (workerId s) (workerEpoch s) (body s) endd (credit s - size c) (nextSeq s + 1) in
        (if last then map_del rid streams else map_set rid s' streams,
         Some (MkFrame (workerId s) (workerEpoch s) h c (encodeResponseStreamPayload h c)))
  end.

Definition begin (wid epoch : Z) (rid : text) (b : bytes) (streams : Streams) : Streams * outcome StreamError RpcResponseStreamFrame :=
  if maxAccumulatedBytes opts <? size b then (streams, Throw RESPONSE_STREAM_TOO_LARGE)
  else if map_has rid streams then (streams, Throw RESPONSE_STREAM_DUPLICATE)
  else if maxConcurrent opts <=? Z.of_nat (length streams) then (streams, Throw RESPONSE_STREAM_LIMIT)
  else
    let (streams', frame) := pumpOne rid (map_set rid (MkStream wid epoch b 0 (initialCreditBytes opts) 0) streams) in
    match frame with
    | Some f => (streams', Ok f)
    | None => (map_del rid streams', Throw RESPONSE_STREAM_EMPTY)
    end.

Definition grant (wid epoch : Z) (rid : text) (n : Z) (streams : Streams) : Streams * option RpcResponseStreamFrame :=
  if (n <? 1) || (chunkBytes opts <? n) then (streams, None)
  else match map_get rid streams with
       | None => (streams, None)
       | Some s =>
           if (workerId s =? wid) && (workerEpoch s =? epoch) then
             pumpOne rid (map_set rid (MkStream (workerId s) (workerEpoch s) (body s) (offset s) (credit s + n) (nextSeq s)) streams)
           else (streams, None)
       end.

Definition isActive (rid : text) (streams : Streams) : bool := map_has rid streams.
End Streamer.

(** ** The assembly in the worker *)

Record Assembly := MkAssembly { chunks : list bytes; totalBytes : Z; lastSeq : Z }.

Record WorkerState := MkWorkerState { pendingCalls : list text; rpcResponseStreams : list (text * Assembly) }.

(** What a chunk leads to: nothing, a rejected call, a credit for the host, or the
    bytes of a whole body. *)
Inductive Event :=
| Dropped
| Rejected (rid : text) (message : string)
| Credit (rid : text) (n : Z)
| Assembled (rid : text) (b : bytes).

Section Worker.
Context {N : Type} `{!NumberText N}.

Definition drop_call (rid : text) (w : WorkerState) : WorkerState :=
  MkWorkerState (List.filter (fun r => negb (bool_decide (r = rid))) (pendingCalls w)) (rpcResponseStreams w).

Definition rejectResponseStream (rid : text) (message : string) (w : WorkerState) : WorkerState * Event :=
  (drop_call rid (MkWorkerState (pendingCalls w) (map_del rid (rpcResponseStreams w))), Rejected rid message).

(** The request id of a response body; [None] when it is no such object. *)
Definition response_id (b : bytes) : option text :=
  match Json.parse (N := N) (of_utf8 b) with
  | Some (JObj o) => match map_get (lit "requestId") o with Some (JStr rid) => Some rid | _ => None end
  | _ => None
  end.

(** The end of a handled chunk, once it is recorded. *)
Definition consume (h : Header) (c : bytes) (a : Assembly) (w : WorkerState) : WorkerState * Event :=
  if final h then
    let w' := MkWorkerState (pendingCalls w) (map_del (requestId h) (rpcResponseStreams w)) in
    let assembled := concat (chunks a) in
    (match response_id assembled with Some rid => drop_call rid w' | None => w' end, Assembled (requestId h) assembled)
  else (MkWorkerState (pendingCalls w) (map_set (requestId h) a (rpcResponseStreams w)), Credit (requestId h) (size c)).

Definition handleRpcResponseStream (p : bytes) (w : WorkerState) : WorkerState * Event :=
  match decodePayload p with
  | None => (w, Dropped)
  | Some (h, c) =>
      if negb (bool_decide (requestId h ∈ pendingCalls w)) then (w, Dropped)
      else match map_get (requestId h) (rpcResponseStreams w) with
           | None =>
               if negb (seq h =? 0) then rejectResponseStream (requestId h) "response stream does not start at seq 0" w
               else if RPC_STREAM_MAX_ACCUMULATED_BYTES <? size c then
                 rejectResponseStream (requestId h) "response stream chunk exceeds the accumulated cap" w
               else consume h c (MkAssembly [c] (size c) 0) w
           | Some a =>
               if negb (seq h =? lastSeq a + 1) then rejectResponseStream (requestId h) "response stream sequence gap" w
               else if RPC_STREAM_MAX_ACCUMULATED_BYTES <? totalBytes a + size c then
                 rejectResponseStream (requestId h) "response stream exceeded the accumulated cap" w
               else consume h c (MkAssembly (chunks a ++ [c]) (totalBytes a + size c) (seq h)) w
           end
  end.
End Worker.

(** ** Round trip of a payload *)

Lemma utf8_no_nul p : printed p = true -> forallb (fun c => negb (c =? NUL)%char) (utf8 p) = true.
Proof.
  intros H. unfold printed in H. apply andb_true_iff in H as [Hs Hp]. apply Z.leb_le in Hp.
  assert (Hnz : forall z, 0 < z < 256 -> negb (chr z =? NUL)%char = true).
  { intros z Hz. apply negb_true_iff, Ascii.eqb_neq. intros E%(f_equal code). rewrite code_chr in E by lia. change (code NUL) with 0 in E. lia. }
  unfold scalar in Hs. assert (Hmax : p < 1114112) by (apply orb_true_iff in Hs as [Hs|Hs]; bools; lia). clear Hs.
  assert (Hm : forall q, 0 <= q mod 64 < 64) by (intros q; apply Z.mod_pos_bound; lia).
  unfold utf8. destruct (Z.ltb_spec p 128); [|destruct (Z.ltb_spec p 2048); [|destruct (Z.ltb_spec p 65536)]]; cbn [forallb].
  - by rewrite Hnz by lia.
  - rewrite !Hnz; [done|specialize (Hm p); lia|]. assert (0 <= p / 64 < 32) by byte_arith. lia.
  - rewrite !Hnz; [done|specialize (Hm p); lia|specialize (Hm (p / 64)); lia|]. assert (0 <= p / 4096 < 16) by byte_arith. lia.
  - rewrite !Hnz; [done|specialize (Hm p); lia|specialize (Hm (p / 64)); lia|specialize (Hm (p / 4096)); lia|].
    assert (0 <= p / 262144 < 5) by byte_arith. lia.
Qed.

Lemma bytes_no_nul t : forallb printed t = true -> forallb (fun c => negb (c =? NUL)%char) (utf8_bytes t) = true.
Proof.
  unfold utf8_bytes. induction t as [|p t IH]; [done|]. cbn [forallb map concat]. intros [Hp Ht]%andb_true_iff.
  rewrite forallb_app, utf8_no_nul by done. by apply IH.
Qed.

Lemma split_nul_app a b : forallb (fun c => negb (c =? NUL)%char) a = true -> split_nul (a ++ NUL :: b) = Some (a, b).
Proof.
  induction a as [|c a IH]; cbn [app split_nul forallb]; [by rewrite Ascii.eqb_refl|]. intros [Hc Ha]%andb_true_iff.
  apply negb_true_iff in Hc. rewrite Hc. by rewrite IH.
Qed.

(** The worker reads the header and the chunk that the host wrote, whatever
    bytes the chunk has. *)
Lemma decode_encode_payload h c :
  ok_text (requestId h) -> 0 <= seq h -> decodePayload (encodeResponseStreamPayload h c) = Some (h, c).
Proof.
  intros Hid Hseq. unfold decodePayload, encodeResponseStreamPayload. set (v := JObj _).
  assert (Hwf : wf v).
  { apply wf_obj. split; [apply (bool_decide_unpack _); vm_compute; exact I|]. repeat constructor; done. }
  rewrite split_nul_app by (by apply bytes_no_nul, stringify_printed).
  destruct (utf8_bytes (stringify v)) as [|x r] eqn:E; [by apply (f_equal (@length ascii)) in E|]. rewrite <- E. clear E x r.
  rewrite of_utf8_bytes by (by apply stringify_scalar). rewrite parse_stringify by done. unfold v.
  change (map_get (lit "requestId") _) with (Some (JStr (N := Z) (requestId h))).
  change (map_get (lit "seq") _) with (Some (JNum (N := Z) (seq h))).
  change (map_get (lit "final") _) with (Some (JBool (N := Z) (final h))). cbv iota beta.
  rewrite (proj2 (Z.ltb_ge _ _) Hseq). by destruct h.
Qed.

(** ** Both ends *)

(** [begun] are the bodies whose streams have started, [calls] the request ids that
    have been used, and [events] what the worker did. *)
Record System := MkSystem {
  streams : Streams;
  worker : WorkerState;
  down : list RpcResponseStreamFrame;
  up : list (text * Z);
  begun : list (text * bytes);
  calls : list text;
  events : list Event
}.

Section System.
Context {N : Type} `{!NumberText N}.
Variable opts : ResponseStreamerOptions.
Variable wid epoch : Z.

(** The worker makes a call; the host answers with a large body; a frame, or a
    credit, arrives; a call ends otherwise (an abort, its deadline, an error). *)
Inductive Op :=
| Invoke (rid : text)
| Respond (rid : text) (b : bytes)
| DeliverDown
| DeliverUp
| EndCall (rid : text).

Definition with_worker (w : WorkerState) (g : System) : System :=
  MkSystem (streams g) w (down g) (up g) (begun g) (calls g) (events g).

Definition to_list {A} (x : option A) : list A := match x with Some a => [a] | None => [] end.

Definition step (g : System) (op : Op) : System :=
  match op with
  | Invoke rid =>
      MkSystem (streams g) (MkWorkerState (pendingCalls (worker g) ++ [rid]) (rpcResponseStreams (worker g))) (down g) (up g) (begun g)
        (calls g ++ [rid]) (events g)
  | Respond rid b =>
      match begin opts wid epoch rid b (streams g) with
      | (st, Ok f) => MkSystem st (worker g) (down g ++ [f]) (up g) (begun g ++ [(rid, b)]) (calls g) (events g)
      | (st, Throw _) => MkSystem st (worker g) (down g) (up g) (begun g) (calls g) (events g)
      end
  | DeliverDown =>
      match down g with
      | [] => g
      | f :: r =>
          let (w, e) := handleRpcResponseStream (N := N) (payload f) (worker g) in
          MkSystem (streams g) w r (match e with Credit rid n => up g ++ [(rid, n)] | _ => up g end) (begun g) (calls g) (events g ++ [e])
      end
  | DeliverUp =>
      match up g with
      | [] => g
      | (rid, n) :: r =>
          let (st, f) := grant opts wid epoch rid n (streams g) in
          MkSystem st (worker g) (down g ++ to_list f) r (begun g) (calls g) (events g)
      end
  | EndCall rid => with_worker (drop_call rid (worker g)) g
  end.

(** Request ids of calls are new texts; a call is answered once, by a response that
    carries its id. *)
Definition allowed (g : System) (op : Op) : Prop :=
  match op with
  | Invoke rid => ok_text rid /\ rid ∉ calls g
  | Respond rid b => rid ∈ calls g /\ map_get rid (begun g) = None /\ response_id (N := N) b = Some rid
  | _ => True
  end.

Definition start : System := MkSystem [] (MkWorkerState [] []) [] [] [] [] [].

Inductive reachable : System -> Prop :=
| reach_start : reachable start
| reach_step g op : reachable g -> allowed g op -> reachable (step g op).

(** *** What is on its way for one call *)

Definition frames_of (rid : text) (l : list RpcResponseStreamFrame) : list RpcResponseStreamFrame :=
  List.filter (fun f => bool_decide (requestId (header f) = rid)) l.

Definition credits_of (rid : text) (l : list (text * Z)) : list Z :=
  map snd (List.filter (fun kv => bool_decide (kv.1 = rid)) l).

Definition pending (rid : text) (w : WorkerState) : Prop := rid ∈ pendingCalls w.

Abbreviation C := (chunkBytes opts).

(** The worker has the first [n] chunks of the body. *)
Definition has_chunks (b : bytes) (n : Z) (a : option Assembly) : Prop :=
  match a with
  | None => n = 0
  | Some a => 0 < n /\ concat (chunks a) = take (Z.to_nat (C * n)) b /\ totalBytes a = C * n /\ lastSeq a = n - 1
  end.

Definition nth_frame (rid : text) (b : bytes) (n : Z) (f : RpcResponseStreamFrame) : Prop :=
  let last := size b <=? C * (n + 1) in
  header f = MkHeader rid n last /\ chunk f = slice b (C * n) (Z.min (C * (n + 1)) (size b)) /\
  payload f = encodeResponseStreamPayload (header f) (chunk f).

(** The stream of the host when [n] chunks have been created and all credit is
    spent. *)
Definition after_chunks (b : bytes) (n : Z) (s : ResponseStreamState) : Prop :=
  s = MkStream wid epoch b (C * n) 0 n /\ C * n < size b.

Inductive phase (rid : text) (b : bytes) : option ResponseStreamState -> Prop -> option Assembly ->
    list RpcResponseStreamFrame -> list Z -> Prop :=
| chunk_on_its_way n s (p : Prop) a f : 0 <= n -> after_chunks b (n + 1) s -> nth_frame rid b n f -> (p -> has_chunks b n a) ->
    phase rid b (Some s) p a [f] []
| credit_on_its_way n s (p : Prop) a : 0 < n -> after_chunks b n s -> (p -> has_chunks b n a) -> phase rid b (Some s) p a [] [C]
| last_on_its_way n (p : Prop) a f : 0 <= n -> C * n < size b <= C * (n + 1) -> nth_frame rid b n f -> (p -> has_chunks b n a) ->
    phase rid b None p a [f] []
| abandoned s (p : Prop) a : ~ p -> phase rid b (Some s) p a [] []
| over (p : Prop) a : ~ p -> phase rid b None p a [] [].

Definition view (g : System) (rid : text) (P : option ResponseStreamState -> Prop -> option Assembly ->
    list RpcResponseStreamFrame -> list Z -> Prop) : Prop :=
  P (map_get rid (streams g)) (pending rid (worker g)) (map_get rid (rpcResponseStreams (worker g)))
    (frames_of rid (down g)) (credits_of rid (up g)).

(** Nothing exists for a call that is not answered by a stream. *)
Definition untouched (rid : text) (s : option ResponseStreamState) (p : Prop) (a : option Assembly)
    (fs : list RpcResponseStreamFrame) (cs : list Z) : Prop := s = None /\ a = None /\ fs = [] /\ cs = [].

Definition assembled_ids (l : list Event) : list text := concat (map (fun e => match e with Assembled rid _ => [rid] | _ => [] end) l).

Record system_inv (g : System) : Prop := {
  inv_streams : map_ok (streams g);
  inv_assemblies : map_ok (rpcResponseStreams (worker g));
  inv_texts : forall rid, rid ∈ calls g -> ok_text rid;
  inv_calls : forall rid, pending rid (worker g) \/ map_get rid (begun g) <> None -> rid ∈ calls g;
  inv_body : forall rid b, map_get rid (begun g) = Some b ->
    0 < size b <= RPC_STREAM_MAX_ACCUMULATED_BYTES /\ response_id (N := N) b = Some rid;
  inv_phase : forall rid b, map_get rid (begun g) = Some b -> view g rid (phase rid b);
  inv_untouched : forall rid, map_get rid (begun g) = None -> view g rid (untouched rid);
  inv_events : forall rid b, Assembled rid b ∈ events g -> map_get rid (begun g) = Some b /\ ~ pending rid (worker g);
  inv_no_reject : forall rid m, Rejected rid m ∉ events g;
  inv_once : NoDup (assembled_ids (events g))
}.

(** *** Chunks *)

Context (HC : 0 < C) (Hinit : initialCreditBytes opts = C) (Hmax : maxAccumulatedBytes opts <= RPC_STREAM_MAX_ACCUMULATED_BYTES).

Lemma take_slice b x y : 0 <= x <= y -> take (Z.to_nat x) b ++ slice b x y = take (Z.to_nat y) b.
Proof.
  intros H. unfold slice. replace (Z.to_nat (y - x)) with (Z.to_nat y - Z.to_nat x)%nat by lia.
  rewrite take_drop_commute. replace (Z.to_nat x + (Z.to_nat y - Z.to_nat x))%nat with (Z.to_nat y) by lia.
  rewrite <- (take_drop (Z.to_nat x) (take (Z.to_nat y) b)) at 2. rewrite take_take. by replace (Z.to_nat x `min` Z.to_nat y)%nat with (Z.to_nat x) by lia.
Qed.

Lemma size_slice b x y : 0 <= x <= y -> y <= size b -> size (slice b x y) = y - x.
Proof. intros H Hy. unfold slice, size in *. rewrite length_take, length_drop. lia. Qed.

Lemma phase_weaken rid b s (p p' : Prop) a fs cs : (p' -> p) -> phase rid b s p a fs cs -> phase rid b s p' a fs cs.
Proof.
  intros Hp H. destruct H as [n s p a f H1 H2 H3 H4|n s p a H1 H2 H3|n p a f H1 H2 H3 H4|s p a H1|p a H1].
  - apply (chunk_on_its_way rid b n); auto.
  - apply (credit_on_its_way rid b n); auto.
  - apply (last_on_its_way rid b n); auto.
  - apply abandoned; auto.
  - apply over; auto.
Qed.

Definition same_for (rid : text) (g g' : System) : Prop :=
  map_get rid (streams g') = map_get rid (streams g) /\ (pending rid (worker g') -> pending rid (worker g)) /\
  map_get rid (rpcResponseStreams (worker g')) = map_get rid (rpcResponseStreams (worker g)) /\
  frames_of rid (down g') = frames_of rid (down g) /\ credits_of rid (up g') = credits_of rid (up g).

Lemma keep_phase g g' rid b : same_for rid g g' -> view g rid (phase rid b) -> view g' rid (phase rid b).
Proof. intros (E1 & E2 & E3 & E4 & E5). unfold view. rewrite E1, E3, E4, E5. by apply phase_weaken. Qed.

Lemma keep_untouched g g' rid : same_for rid g g' -> view g rid (untouched rid) -> view g' rid (untouched rid).
Proof. intros (E1 & E2 & E3 & E4 & E5). unfold view. by rewrite E1, E3, E4, E5. Qed.

Lemma frames_app rid l k : frames_of rid (l ++ k) = frames_of rid l ++ frames_of rid k.
Proof. unfold frames_of. apply List.filter_app. Qed.

Lemma credits_app rid l k : credits_of rid (l ++ k) = credits_of rid l ++ credits_of rid k.
Proof. unfold credits_of. by rewrite List.filter_app, map_app. Qed.

Lemma frames_other rid f : requestId (header f) <> rid -> frames_of rid [f] = [].
Proof. intros H. unfold frames_of. cbn [List.filter]. by rewrite bool_decide_false. Qed.

Lemma frames_self f l : frames_of (requestId (header f)) (f :: l) = f :: frames_of (requestId (header f)) l.
Proof. unfold frames_of. cbn [List.filter]. by rewrite bool_decide_true. Qed.

Lemma frames_one rid f : requestId (header f) = rid -> frames_of rid [f] = [f].
Proof. intros H. unfold frames_of. cbn [List.filter]. by rewrite bool_decide_true. Qed.

Lemma credits_other rid rid' n : rid' <> rid -> credits_of rid [(rid', n)] = [].
Proof. intros H. unfold credits_of. cbn [List.filter fst]. by rewrite bool_decide_false. Qed.

Lemma credits_self rid n l : credits_of rid ((rid, n) :: l) = n :: credits_of rid l.
Proof. unfold credits_of. cbn [List.filter fst]. by rewrite bool_decide_true. Qed.

(** The next chunk of a stream with one chunk of credit. *)
Lemma pump_chunk rid b n s0 :
  map_ok s0 -> 0 <= n -> C * n < size b ->
  exists f, nth_frame rid b n f /\ requestId (header f) = rid /\
    let '(st, fo) := pumpOne opts rid (map_set rid (MkStream wid epoch b (C * n) C n) s0) in
    fo = Some f /\ map_ok st /\ (forall k, k <> rid -> map_get k st = map_get k s0) /\
    (C * (n + 1) < size b /\ map_get rid st = Some (MkStream wid epoch b (C * (n + 1)) 0 (n + 1)) \/
     size b <= C * (n + 1) /\ map_get rid st = None).
Proof.
  intros Hok Hn Hlt. unfold pumpOne. rewrite map_get_set, decide_True by done. cbn [body offset credit nextSeq workerId workerEpoch].
  rewrite (proj2 (Z.leb_gt (size b) (C * n)) Hlt), Z.ltb_irrefl. replace (C * n + C) with (C * (n + 1)) by lia. cbv zeta.
  set (endd := Z.min (C * (n + 1)) (size b)). set (c := slice b (C * n) endd).
  assert (Hlast : (endd =? size b) = (size b <=? C * (n + 1))).
  { unfold endd. destruct (Z.leb_spec (size b) (C * (n + 1))); [apply Z.eqb_eq; lia|apply Z.eqb_neq; lia]. }
  exists (MkFrame wid epoch (MkHeader rid n (endd =? size b)) c (encodeResponseStreamPayload (MkHeader rid n (endd =? size b)) c)).
  split; [split_and!; cbn; [by rewrite Hlast|done|done]|]. split; [done|]. rewrite Hlast.
  assert (Hset : map_ok (map_set rid (MkStream wid epoch b (C * n) C n) s0)) by (by apply map_set_ok).
  destruct (Z.leb_spec (size b) (C * (n + 1))) as [Hle|Hgt]; (split; [done|]).
  - split_and!; [by apply map_del_ok| |].
    + intros k Hk. rewrite map_get_del by done. rewrite decide_False by congruence. rewrite map_get_set, decide_False by congruence. done.
    + right. split; [done|]. rewrite map_get_del by done. by rewrite decide_True.
  - split_and!; [by apply map_set_ok| |].
    + intros k Hk. by rewrite !map_get_set, !decide_False by congruence.
    + left. split; [done|]. rewrite map_get_set, decide_True by done. f_equal.
      assert (Hs : size c = C) by (unfold c, endd; rewrite size_slice; nia). rewrite Hs. unfold endd. f_equal; lia.
Qed.

(** *** The operations *)

Lemma begun_app rid b (l : list (text * bytes)) k : map_get rid l = None ->
  map_get k (l ++ [(rid, b)]) = if decide (rid = k) then Some b else map_get k l.
Proof. intros H. by rewrite <- map_set_absent, map_get_set. Qed.

Lemma invoke_inv g rid : system_inv g -> allowed g (Invoke rid) -> system_inv (step g (Invoke rid)).
Proof.
  intros [H1 H2 H3 H4 H5 H6 H7 H8 H9 H10] [Hid Hnew]. cbn [step].
  assert (Hsame : forall k, k <> rid -> same_for k g (step g (Invoke rid))).
  { intros k Hk. split_and!; try done. unfold pending. cbn. intros [?|?%list_elem_of_singleton]%elem_of_app; done. }
  assert (Hnb : map_get rid (begun g) = None).
  { destruct (map_get rid (begun g)) eqn:E; [|done]. destruct Hnew. apply H4. right. by rewrite E. }
  split; cbn [streams worker down up begun calls events rpcResponseStreams pendingCalls]; try done.
  - intros k [Hk|Hk]%elem_of_app; [by apply H3|]. apply list_elem_of_singleton in Hk as ->. done.
  - intros k [Hk|Hk]; apply elem_of_app; [|left; apply H4; by right]. unfold pending in Hk. cbn in Hk.
    apply elem_of_app in Hk as [Hk|Hk]; [left; apply H4; by left|by right].
  - intros k b Hb. assert (k <> rid) by congruence. apply (keep_phase g); [by apply Hsame|by apply H6].
  - intros k b Hk. destruct (H8 k b Hk) as [Hb Hp]. split; [done|]. assert (k <> rid) by congruence. intros Hp'. apply Hp.
    by apply (Hsame k).
Qed.

Lemma drop_call_pending rid k w : pending k (drop_call rid w) <-> pending k w /\ k <> rid.
Proof.
  unfold pending, drop_call. cbn [pendingCalls]. rewrite elem_of_filter_bool. rewrite negb_true_iff, bool_decide_eq_false. done.
Qed.

Lemma stream_end_call_inv g rid : system_inv g -> system_inv (step g (EndCall rid)).
Proof.
  intros [H1 H2 H3 H4 H5 H6 H7 H8 H9 H10]. cbn [step].
  assert (Hsame : forall k, same_for k g (with_worker (drop_call rid (worker g)) g)).
  { intros k. split_and!; try done. cbn [with_worker worker]. by rewrite drop_call_pending; intros [? _]. }
  split; cbn [with_worker streams worker down up begun calls events]; try done.
  - intros k [Hk|Hk]; apply H4; [left; by apply drop_call_pending in Hk as [? _]|by right].
  - intros k b Hb. apply (keep_phase g); [apply Hsame|by apply H6].
  - intros k b Hk. destruct (H8 k b Hk) as [Hb Hp]. split; [done|]. by rewrite drop_call_pending; intros [? _].
Qed.

(** A start that fails leaves the table as it is. *)
Lemma begin_throw rid b s0 st e : begin opts wid epoch rid b s0 = (st, Throw e) -> st = s0.
Proof.
  unfold begin. destruct (_ <? _); [by intros [= <- _]|]. unfold map_has. destruct (map_get rid s0) eqn:E; [by intros [= <- _]|].
  destruct (_ <=? _); [by intros [= <- _]|]. unfold pumpOne. rewrite map_get_set, decide_True by done. cbn [body offset credit].
  rewrite map_set_absent by done. destruct (size b <=? 0).
  - intros [= <- _]. rewrite map_del_app_absent by done. by apply map_del_absent.
  - rewrite Hinit, Z.ltb_irrefl. by destruct (_ =? _).
Qed.

Lemma respond_inv g rid b : system_inv g -> allowed g (Respond rid b) -> system_inv (step g (Respond rid b)).
Proof.
  intros Hi (Hc & Hnb & Hid). cbn [step]. destruct (begin opts wid epoch rid b (streams g)) as [st [f|e]] eqn:E.
  2: { apply begin_throw in E as ->. by destruct g. }
  destruct Hi as [H1 H2 H3 H4 H5 H6 H7 H8 H9 H10].
  unfold begin in E. destruct (Z.ltb_spec (maxAccumulatedBytes opts) (size b)) as [|Hcap]; [done|]. destruct (map_has _ _); [done|].
  destruct (_ <=? Z.of_nat _); [done|]. rewrite Hinit in E.
  destruct (H7 rid Hnb) as (Hs & Ha & Hf & Hcr).
  assert (Hpos : 0 < size b).
  { destruct (Z.ltb_spec 0 (size b)) as [|Hle]; [done|]. unfold pumpOne in E. rewrite map_get_set, decide_True in E by done.
    cbn [body offset credit] in E. by rewrite (proj2 (Z.leb_le (size b) 0) Hle) in E. }
  destruct (pump_chunk rid b 0 (streams g) H1 ltac:(lia) ltac:(lia)) as (f' & Hnth & Hrid & Hpump).
  rewrite Z.mul_0_r in Hpump. destruct (pumpOne opts rid _) as [st' fo]. destruct Hpump as (-> & Hok & Hother & Hself).
  injection E as <- <-.
  assert (Hsame : forall k, k <> rid -> same_for k g (MkSystem st' (worker g) (down g ++ [f']) (up g) (begun g ++ [(rid, b)]) (calls g) (events g))).
  { intros k Hk. split_and!; cbn [streams worker down up]; [by apply Hother|done|done| |done]. rewrite frames_app, frames_other by congruence. apply app_nil_r. }
  split; cbn [streams worker down up begun calls events]; try done.
  - intros k [Hk|Hk]; [apply H4; by left|]. rewrite begun_app in Hk by done. destruct (decide (rid = k)) as [<-|]; [done|]. apply H4. by right.
  - intros k b'. rewrite begun_app by done. case_decide as Hk; [intros [= <-]; subst k; split; [lia|done]|]. apply H5.
  - intros k b'. rewrite begun_app by done. case_decide as Hk; [|intros Hb; apply (keep_phase g); [by apply Hsame|by apply H6]].
    intros [= <-]. subst k. unfold view. cbn [streams worker down up]. rewrite frames_app, Hf, Ha, Hcr, frames_one by done. cbn [app].
    destruct Hself as [[Hlt ->]|[Hle ->]].
    + apply (chunk_on_its_way rid b 0); [lia|split; [done|lia]|done|done].
    + apply (last_on_its_way rid b 0); [lia|lia|done|done].
  - intros k. rewrite begun_app by done. case_decide as Hk; [done|]. intros Hb. apply (keep_untouched g); [by apply Hsame|by apply H7].
  - intros k b' Hk. destruct (H8 k b' Hk) as [Hb Hp]. split; [|done]. rewrite begun_app by done. rewrite decide_False; [done|]. congruence.
Qed.

(** A credit is of a stream that waits for it. *)
Lemma deliver_up_inv g : system_inv g -> system_inv (step g DeliverUp).
Proof.
  intros Hi. cbn [step]. destruct (up g) as [|[rid n0] r] eqn:Eu; [done|].
  destruct Hi as [H1 H2 H3 H4 H5 H6 H7 H8 H9 H10].
  destruct (map_get rid (begun g)) as [b|] eqn:Eb.
  2: { destruct (H7 rid Eb) as (_ & _ & _ & Hcr). rewrite Eu, credits_self in Hcr. done. }
  pose proof (H6 rid b Eb) as Hph. unfold view in Hph. rewrite Eu, credits_self in Hph.
  inversion Hph as [|n s p a Hn [-> Hlt] Ha E1 E2 E3 E4 E5| | |]; subst.
  assert (Hcr : credits_of rid r = []) by done.
  unfold grant. rewrite (proj2 (Z.ltb_ge C 1)) by lia. rewrite Z.ltb_irrefl. cbn [orb]. rewrite <- E1. cbn [workerId workerEpoch].
  rewrite !Z.eqb_refl. cbn [andb body offset credit nextSeq]. rewrite Z.add_0_l.
  destruct (pump_chunk rid b n (streams g) H1 ltac:(lia) Hlt) as (f & Hnth & Hrid & Hpump).
  destruct (pumpOne opts rid _) as [st fo]. destruct Hpump as (-> & Hok & Hother & Hself). cbn [to_list].
  assert (Hsame : forall k, k <> rid -> same_for k g (MkSystem st (worker g) (down g ++ [f]) r (begun g) (calls g) (events g))).
  { intros k Hk. split_and!; cbn [streams worker down up]; [by apply Hother|done|done| |].
    - rewrite frames_app, frames_other by congruence. apply app_nil_r.
    - rewrite Eu. change ((rid, C) :: r) with ([(rid, C)] ++ r). rewrite credits_app, credits_other by congruence. done. }
  split; cbn [streams worker down up begun calls events]; try done.
  - intros k b' Hb. destruct (decide (k = rid)) as [->|Hk]; [|apply (keep_phase g); [by apply Hsame|by apply H6]].
    assert (b' = b) as -> by congruence. unfold view. cbn [streams worker down up]. rewrite frames_app, <- E4, Hcr, frames_one by done. cbn [app].
    destruct Hself as [[Hlt' ->]|[Hle ->]].
    + apply (chunk_on_its_way rid b n); [lia|split; [done|lia]|done|done].
    + apply (last_on_its_way rid b n); [lia|lia|done|done].
  - intros k Hb. assert (k <> rid) by congruence. apply (keep_untouched g); [by apply Hsame|by apply H7].
Qed.

(** *** A chunk arrives *)

(** A pending call takes the chunk that is next: it records it and grants credit, or
    it has the whole body. *)
Lemma handle_chunk rid b n f w :
  ok_text rid -> 0 <= n -> C * n < size b -> size b <= RPC_STREAM_MAX_ACCUMULATED_BYTES -> map_ok (rpcResponseStreams w) ->
  response_id (N := N) b = Some rid -> nth_frame rid b n f -> pending rid w -> has_chunks b n (map_get rid (rpcResponseStreams w)) ->
  exists w' e, handleRpcResponseStream (N := N) (payload f) w = (w', e) /\ map_ok (rpcResponseStreams w') /\
    (forall k, k <> rid -> map_get k (rpcResponseStreams w') = map_get k (rpcResponseStreams w)) /\
    (forall k, pending k w' -> pending k w) /\
    (C * (n + 1) < size b /\ e = Credit rid C /\ has_chunks b (n + 1) (map_get rid (rpcResponseStreams w')) \/
     size b <= C * (n + 1) /\ e = Assembled rid b /\ ~ pending rid w').
Proof.
  intros Hid Hn Hlt Hcap Hok Hresp (Eh & Ec & Ep) Hp Ha. unfold handleRpcResponseStream.
  rewrite Ep, decode_encode_payload by (rewrite Eh; done). rewrite Eh. cbn [requestId seq].
  rewrite bool_decide_true by exact Hp. cbn [negb].
  set (endd := Z.min (C * (n + 1)) (size b)) in *. assert (Hsz : size (chunk f) = endd - C * n) by (rewrite Ec; apply size_slice; unfold endd; nia).
  assert (Hend : 0 <= C * n <= endd) by (unfold endd; nia).
  assert (Hcat : take (Z.to_nat (C * n)) b ++ chunk f = take (Z.to_nat endd) b) by (rewrite Ec; by apply take_slice).
  set (h := MkHeader rid n (size b <=? C * (n + 1))).
  assert (Hcons : forall a, concat (chunks a) = take (Z.to_nat endd) b -> totalBytes a = endd -> lastSeq a = n ->
    exists w' e, consume (N := N) h (chunk f) a w = (w', e) /\ map_ok (rpcResponseStreams w') /\
    (forall k, k <> rid -> map_get k (rpcResponseStreams w') = map_get k (rpcResponseStreams w)) /\
    (forall k, pending k w' -> pending k w) /\
    (C * (n + 1) < size b /\ e = Credit rid C /\ has_chunks b (n + 1) (map_get rid (rpcResponseStreams w')) \/
     size b <= C * (n + 1) /\ e = Assembled rid b /\ ~ pending rid w')).
  { intros a Ecat Etot Eseq. unfold consume, h. cbn [final requestId]. destruct (Z.leb_spec (size b) (C * (n + 1))) as [Hle|Hgt].
    - assert (Eb : concat (chunks a) = b).
      { rewrite Ecat. apply take_ge. unfold endd, size in *. lia. }
      rewrite Eb, Hresp. do 2 eexists. split; [done|]. cbn [drop_call rpcResponseStreams]. split_and!.
      + by apply map_del_ok.
      + intros k Hk. rewrite map_get_del by done. by rewrite decide_False by congruence.
      + intros k Hk. by apply drop_call_pending in Hk as [Hk _].
      + right. split_and!; [done|done|]. rewrite drop_call_pending. by intros [_ ?].
    - do 2 eexists. split; [done|]. cbn [rpcResponseStreams]. split_and!.
      + by apply map_set_ok.
      + intros k Hk. by rewrite map_get_set, decide_False by congruence.
      + done.
      + left. split; [done|]. assert (endd = C * (n + 1)) as He by (unfold endd; lia). split.
        * f_equal. rewrite Hsz, He. lia.
        * rewrite map_get_set, decide_True by done. cbn [has_chunks]. rewrite <- He. split_and!; [lia|done|done|lia]. }
  destruct (map_get rid (rpcResponseStreams w)) as [a|]; cbn [has_chunks] in Ha.
  - destruct Ha as (Hn0 & Ecat & Etot & Eseq). rewrite Eseq, Etot. replace (n - 1 + 1) with n by lia. rewrite Z.eqb_refl. cbn [negb].
    rewrite (proj2 (Z.ltb_ge _ _)) by (rewrite Hsz; unfold endd; lia). apply Hcons; cbn [chunks totalBytes lastSeq]; [|lia|done].
    rewrite concat_app. cbn [concat]. rewrite app_nil_r, Ecat. exact Hcat.
  - subst n. cbn [Z.eqb negb]. rewrite (proj2 (Z.ltb_ge _ _)) by (rewrite Hsz; unfold endd; lia).
    apply Hcons; cbn [chunks totalBytes lastSeq concat]; [|lia|done]. rewrite app_nil_r. rewrite <- Hcat, Z.mul_0_r. done.
Qed.

(** A late chunk of a call that has ended is dropped. *)
Lemma handle_late rid b n f w :
  ok_text rid -> 0 <= n -> nth_frame rid b n f -> ~ pending rid w -> handleRpcResponseStream (N := N) (payload f) w = (w, Dropped).
Proof.
  intros Hid Hn (Eh & _ & Ep) Hp. unfold handleRpcResponseStream. rewrite Ep, decode_encode_payload by (rewrite Eh; done).
  rewrite Eh. cbn [requestId]. by rewrite bool_decide_false.
Qed.

Lemma assembled_app l e : assembled_ids (l ++ [e]) = assembled_ids l ++ match e with Assembled rid _ => [rid] | _ => [] end.
Proof. unfold assembled_ids. rewrite map_app, concat_app. cbn [map concat]. by rewrite app_nil_r. Qed.

Lemma elem_assembled rid l : rid ∈ assembled_ids l <-> exists b, Assembled rid b ∈ l.
Proof.
  unfold assembled_ids. rewrite elem_of_In, in_concat. setoid_rewrite in_map_iff. split.
  - intros (x & (e & <- & He) & Hx). destruct e; try done. destruct Hx as [<-|[]]. exists b. by apply elem_of_In.
  - intros (b & Hb). exists [rid]. split; [exists (Assembled rid b); split; [done|by apply elem_of_In]|by left].
Qed.

Lemma deliver_down_inv g : system_inv g -> system_inv (step g DeliverDown).
Proof.
  intros Hi. cbn [step]. destruct (down g) as [|f r] eqn:Ed; [done|].
  destruct Hi as [H1 H2 H3 H4 H5 H6 H7 H8 H9 H10]. set (rid := requestId (header f)).
  destruct (map_get rid (begun g)) as [b|] eqn:Eb.
  2: { destruct (H7 rid Eb) as (_ & _ & Hf & _). unfold rid in Hf. rewrite Ed, frames_self in Hf. done. }
  destruct (H5 rid b Eb) as [Hsz Hresp]. assert (Hid : ok_text rid) by (apply H3, H4; right; by rewrite Eb).
  pose proof (H6 rid b Eb) as Hph. unfold view in Hph. rewrite Ed in Hph. unfold rid in Hph at 5. rewrite frames_self in Hph. fold rid in Hph.
  (* the chunk is number [n], and there is nothing else on its way *)
  assert (Hn : exists n, 0 <= n /\ C * n < size b /\ nth_frame rid b n f /\ frames_of rid r = [] /\ credits_of rid (up g) = [] /\
    (pending rid (worker g) -> has_chunks b n (map_get rid (rpcResponseStreams (worker g)))) /\
    (C * (n + 1) < size b /\ map_get rid (streams g) = Some (MkStream wid epoch b (C * (n + 1)) 0 (n + 1)) \/
     size b <= C * (n + 1) /\ map_get rid (streams g) = None)).
  { inversion Hph as [n s p a f' Hn [-> Hlt] Hf Ha E1 E2 E3 E4 E5| |n p a f' Hn Hlt Hf Ha E1 E2 E3 E4 E5| |]; subst; exists n;
      split_and!; try done; try nia; first [left; split; [lia|reflexivity] | right; split; [lia|reflexivity]]. }
  destruct Hn as (n & Hn & Hlt & Hf & Hfr & Hcr & Ha & Hstream). clear Hph.
  assert (Hframes : forall k, k <> rid -> frames_of k r = frames_of k (down g)).
  { intros k Hk. rewrite Ed. change (f :: r) with ([f] ++ r). rewrite frames_app, frames_other; [done|]. unfold rid in Hk. congruence. }
  destruct (decide (rid ∈ pendingCalls (worker g))) as [Hp|Hp].
  - destruct (handle_chunk rid b n f (worker g)) as (w' & e & -> & Hok & Hoth & Hpend & Hcase); auto; [lia|].
    set (up' := match e with Credit rid n => up g ++ [(rid, n)] | _ => up g end).
    assert (Hcred : forall k, k <> rid -> credits_of k up' = credits_of k (up g)).
    { intros k Hk. unfold up'. destruct Hcase as [(_ & -> & _)|(_ & -> & _)]; [|done].
      rewrite credits_app, credits_other by congruence. apply app_nil_r. }
    assert (Hsame : forall k, k <> rid -> same_for k g (MkSystem (streams g) w' r up' (begun g) (calls g) (events g ++ [e]))).
    { intros k Hk. split_and!; cbn [streams worker down up]; [done|apply Hpend|by apply Hoth|by apply Hframes|by apply Hcred]. }
    split; cbn [streams worker down up begun calls events]; try done.
    + intros k [Hk|Hk]; apply H4; [left; by apply Hpend|by right].
    + intros k b' Hb. destruct (decide (k = rid)) as [->|Hk]; [|apply (keep_phase g); [by apply Hsame|by apply H6]].
      assert (b' = b) as -> by congruence. unfold view. cbn [streams worker down up]. rewrite Hfr. unfold up'.
      destruct Hcase as [(Hlt' & -> & Hc)|(Hle & -> & Hnp)].
      * rewrite credits_app, Hcr, credits_self. cbn [app credits_of List.filter map]. destruct Hstream as [[_ ->]|[? _]]; [|lia].
        apply (credit_on_its_way rid b (n + 1)); [lia|by split|by intros _].
      * rewrite Hcr. destruct Hstream as [[? _]|[_ ->]]; [lia|]. by apply over.
    + intros k Hb. assert (k <> rid) by congruence. apply (keep_untouched g); [by apply Hsame|by apply H7].
    + intros k b' [Hk|Hk]%elem_of_app; [destruct (H8 k b' Hk) as [Hb Hp']; split; [done|]; intros Hw; by apply Hp', Hpend|].
      apply list_elem_of_singleton in Hk as <-. destruct Hcase as [(_ & [=] & _)|(_ & [= -> ->] & Hnp)]. done.
    + intros k m [Hk|Hk]%elem_of_app; [by apply (H9 k m)|]. apply list_elem_of_singleton in Hk as <-.
      by destruct Hcase as [(_ & [=] & _)|(_ & [=] & _)].
    + rewrite assembled_app. destruct Hcase as [(_ & -> & _)|(_ & -> & _)]; [by rewrite app_nil_r|].
      apply NoDup_app. split_and!; [done| |apply NoDup_singleton]. intros k Hk Hk'. apply list_elem_of_singleton in Hk' as ->.
      apply elem_assembled in Hk as (b' & Hb'). by destruct (H8 rid b' Hb') as [_ ?].
  - rewrite (handle_late rid b n) by done.
    assert (Hsame : forall k, k <> rid -> same_for k g (MkSystem (streams g) (worker g) r (up g) (begun g) (calls g) (events g ++ [Dropped]))).
    { intros k Hk. split_and!; cbn [streams worker down up]; try done. by apply Hframes. }
    split; cbn [streams worker down up begun calls events]; try done.
    + intros k b' Hb. destruct (decide (k = rid)) as [->|Hk]; [|apply (keep_phase g); [by apply Hsame|by apply H6]].
      assert (b' = b) as -> by congruence. unfold view. cbn [streams worker down up]. rewrite Hfr, Hcr.
      destruct Hstream as [[_ ->]|[_ ->]]; [by apply abandoned|by apply over].
    + intros k Hb. assert (k <> rid) by congruence. apply (keep_untouched g); [by apply Hsame|by apply H7].
    + intros k b' [Hk|Hk]%elem_of_app; [by apply H8|]. by apply list_elem_of_singleton in Hk.
    + intros k m [Hk|Hk]%elem_of_app; [by apply (H9 k m)|]. by apply list_elem_of_singleton in Hk.
    + rewrite assembled_app. by rewrite app_nil_r.
Qed.

Lemma reachable_inv g : reachable g -> system_inv g.
Proof.
  induction 1 as [|g op _ IH Hal].
  - split; cbn; try by apply NoDup_nil.
    + by intros rid ?%not_elem_of_nil.
    + intros rid [H|H]; [by apply not_elem_of_nil in H|done].
    + done.
    + done.
    + intros rid _. by split_and!.
    + by intros rid b ?%not_elem_of_nil.
    + intros rid m. apply not_elem_of_nil.
  - destruct op; [by apply invoke_inv|by apply respond_inv|by apply deliver_down_inv|by apply deliver_up_inv|by apply stream_end_call_inv].
Qed.

(** C31: a large response reaches its call whole.  Whatever calls,
    responses, deliveries and ends of calls are interleaved: the bytes that the worker
    assembles are the body of that call's response, at most once per call, and
    no call is rejected for a gap or a bound; at most one frame or credit of a
    call is on its way, with at most [chunkBytes] bytes; and as long as the
    answered call is pending, exactly one is, so that with both channels empty every
    answered call has ended. *)
Theorem responses_arrive_whole g :
  reachable g ->
  (forall rid b, Assembled rid b ∈ events g -> map_get rid (begun g) = Some b) /\
  NoDup (assembled_ids (events g)) /\
  (forall rid m, Rejected rid m ∉ events g) /\
  (forall rid, (length (frames_of rid (down g)) + length (credits_of rid (up g)) <= 1)%nat) /\
  (forall f, f ∈ down g -> size (chunk f) <= C) /\
  (forall rid, map_get rid (begun g) <> None -> pending rid (worker g) ->
     (length (frames_of rid (down g)) + length (credits_of rid (up g)) = 1)%nat) /\
  (down g = [] -> up g = [] -> forall rid, map_get rid (begun g) <> None -> ~ pending rid (worker g)).
Proof.
  intros Hi%reachable_inv.
  assert (Hpend : forall rid, map_get rid (begun g) <> None -> pending rid (worker g) ->
     (length (frames_of rid (down g)) + length (credits_of rid (up g)) = 1)%nat).
  { intros rid Hb Hp. destruct (map_get rid (begun g)) as [b|] eqn:Eb; [|done]. pose proof (inv_phase g Hi rid b Eb) as H.
    unfold view in H. by inversion H. }
  split_and!.
  - intros rid b H. by apply (inv_events g Hi).
  - apply Hi.
  - apply Hi.
  - intros rid. destruct (map_get rid (begun g)) as [b|] eqn:Eb.
    + pose proof (inv_phase g Hi rid b Eb) as H. unfold view in H. inversion H; cbn; lia.
    + destruct (inv_untouched g Hi rid Eb) as (_ & _ & -> & ->). cbn. lia.
  - intros f Hf. set (rid := requestId (header f)). assert (Hin : f ∈ frames_of rid (down g)).
    { unfold frames_of. apply elem_of_filter_bool. split; [done|]. by apply bool_decide_eq_true. }
    destruct (map_get rid (begun g)) as [b|] eqn:Eb.
    + pose proof (inv_phase g Hi rid b Eb) as H. unfold view in H.
      inversion H as [n s p a f' Hn [-> Hlt] (_ & Hc & _) Ha E1 E2 E3 E4 E5| |n p a f' Hn Hlt (_ & Hc & _) Ha E1 E2 E3 E4 E5| |]; subst;
        match goal with E : _ = frames_of rid (down g) |- _ => rewrite <- E in Hin end;
        try (by apply not_elem_of_nil in Hin); apply list_elem_of_singleton in Hin as ->; rewrite Hc, size_slice; nia.
    + destruct (inv_untouched g Hi rid Eb) as (_ & _ & E & _). rewrite E in Hin. by apply not_elem_of_nil in Hin.
  - exact Hpend.
  - intros Ed Eu rid Hb Hp. specialize (Hpend rid Hb Hp). by rewrite Ed, Eu in Hpend.
Qed.
End System.

(** ** Runs *)

Definition sample_body (rid : string) : bytes := chars "{" ++ [chr 34] ++ chars "requestId" ++ [chr 34] ++ chars ":" ++ [chr 34] ++ chars rid ++ [chr 34] ++ chars "}".

Definition small_options : ResponseStreamerOptions := MkOptions 8 8 1 1024.

Definition run (ops : list Op) : System := fold_left (step (N := Z) small_options 1 1) ops start.

(** A body of three chunks. *)
Definition delivery : list Op :=
  [Invoke (lit "call-1"); Respond (lit "call-1") (sample_body "call-1"); DeliverDown; DeliverUp; DeliverDown; DeliverUp; DeliverDown].

Example delivery_events : events (run delivery) =
  [Credit (lit "call-1") 8; Credit (lit "call-1") 8; Assembled (lit "call-1") (sample_body "call-1")].
Proof. vm_compute. reflexivity. Qed.

(** A call that ends while its response is streamed leaves its entry in the table
    of the host: nothing is on its way any more, and the next large response is
    refused. *)
Theorem abandoned_slot :
  let g := run [Invoke (lit "call-1"); Respond (lit "call-1") (sample_body "call-1"); EndCall (lit "call-1"); DeliverDown; DeliverUp;
                Invoke (lit "call-2")] in
  down g = [] /\ up g = [] /\ isActive (lit "call-1") (streams g) = true /\
  begin small_options 1 1 (lit "call-2") (sample_body "call-2") (streams g) = (streams g, Throw RESPONSE_STREAM_LIMIT).
Proof. vm_compute. done. Qed.

Lemma responses_arrive_whole_witness :
  Assembled (lit "call-1") (sample_body "call-1") ∈ events (run delivery) /\
  map_get (lit "call-1") (begun (run delivery)) = Some (sample_body "call-1").
Proof.
  assert (Hin : Assembled (lit "call-1") (sample_body "call-1") ∈ events (run delivery)) by (vm_compute; do 2 right; left).
  split; [exact Hin|]. revert Hin.
  refine (proj1 (responses_arrive_whole (N := Z) small_options 1 1 _ _ _ (run delivery) _) _ _); [reflexivity | reflexivity | vm_compute; discriminate |].
  assert (H1 : forall g, reachable (N := Z) small_options 1 1 g -> reachable (N := Z) small_options 1 1 (step (N := Z) small_options 1 1 g DeliverDown))
    by (intros g Hg; apply reach_step; [exact Hg|exact I]).
  assert (H2 : forall g, reachable (N := Z) small_options 1 1 g -> reachable (N := Z) small_options 1 1 (step (N := Z) small_options 1 1 g DeliverUp))
    by (intros g Hg; apply reach_step; [exact Hg|exact I]).
  apply H1, H2, H1, H2, H1. apply reach_step; [apply reach_step; [apply reach_start|]|].
  - split; [reflexivity|apply not_elem_of_nil].
  - split; [by left|]. split; [reflexivity|vm_compute; reflexivity].
Defined.
End ResponseStream.
