(* ===== verification/RuntimeClient.v ===== *)
(** * The host side of the plugin runtime
    (apps/plugin-runtime/src/host/runtimeClient.ts)

    The server talks to the process of the plugin runtime over a control pipe and
    two data pipes.  The client is its parsers, the waiters of replies, the frames
    that come before the handshake and the responses that it streams; one turn of
    the event loop is one operation.  What a handler throws with nobody to catch it
    is recorded: in the server it ends the process. *)

From Stdlib Require Import ZArith Lia Bool Ascii String List.
From stdpp Require Import base decidable list sets.
From S2P Require Import Prelude Codec Json Frames ResponseStream.
Import Codec Json Frames.
Local Open Scope Z_scope.
Local Open Scope js_scope.

Module RuntimeClient.

(** The whole numbers among the numbers of JSON. *)
Class Numbers (N : Type) := {
  of_int : Z -> N;
  as_int : N -> option Z;
  as_of_int : forall z, as_int (of_int z) = Some z
}.

#[export] Instance whole_numbers : Numbers Z := {| of_int := fun z => z; as_int := Some; as_of_int := fun _ => eq_refl |}.

(** What a call or a handler throws. *)
Inductive Thrown :=
| Protocol (e : ProtocolErrorCode)
| NotConnected
| TypeError
| VersionMismatch
| EpochMismatch
| ErrorFrame
| ChildError.

(** Why a waiter is rejected. *)
Inductive Reject := TimedOut | ClientClosed | RuntimeExited | ChildFailed.

Inductive Predicate := IsHello | IsPong (rid : Z).

(** [waiter.predicate(frame)] *)
Definition matches (p : Predicate) (f : Frame) : bool :=
  match p with
  | IsHello => frameType (header f) =? HELLO
  | IsPong rid => (frameType (header f) =? PONG) && (requestId (header f) =? rid)
  end.

Definition CONTROL_ESCAPE_MARGIN_BYTES : Z := 8 * 1024.
Definition PLUGIN_RUNTIME_LOG_BATCH_MAX_RECORDS : nat := 256.
Definition PLUGIN_RUNTIME_LOG_LEVELS : list text := map lit ["debug"; "log"; "info"; "warn"; "error"; "trace"]%string.

Section Client.
Context {N : Type} `{!NumberText N} `{!Numbers N}.
Abbreviation json := (json N).

Definition jint (z : Z) : json := JNum (of_int z).

(** [value.key]: [undefined] for a missing field and for what is no object. *)
Definition prop (k : string) (v : json) : outcome Thrown (option json) :=
  match v with
  | JNull => Throw TypeError
  | JObj o => Ok (map_get (lit k) o)
  | _ => Ok None
  end.

Definition member (k : string) (o : list (text * json)) : option json := map_get (lit k) o.

Record LogRecord := MkLogRecord { level : text; logMessage : text; at_ : Z; count : option Z }.

Inductive Emitted :=
| EReady (body : json)
| EWorkerReady (body : json)
| EWorkerTerminated (body : json)
| ERpcRequest (body : json)
| EBridgeMessage (body : json)
| ETelemetry (body : json)
| EDataFrame (f : Frame)
| ELogBatch (wid epoch seq dropped : Z) (records : list LogRecord)
| EFatalDiagnostic (body : json)
| EError (t : Thrown)
| EExit (exitCode : option Z).

Inductive Handshake := WaitingHello (waiter : nat) | Connected | Failed (t : Thrown) | Rejected (r : Reject).

(** The state of the connection. *)
Record Status := MkStatus {
  connected : bool;
  closed : bool;
  exitCode : option Z;
  errorListener : bool;
  handshakeState : Handshake
}.

(** [waiters] is a [Set] in its order; [settled] are the results of their promises. *)
Record Waiting := MkWaiting {
  waiters : list (nat * Predicate);
  nextWaiter : nat;
  settled : list ((nat * Predicate) * outcome Reject Frame);
  requestIdCounter : Z
}.

(** [handled] are the frames that reached the switch of [dispatchFrame]. *)
Record Inbox := MkInbox {
  controlBuffer : bytes;
  dataBuffer : bytes;
  preHandshake : list Frame;
  handled : list Frame
}.

Record Streamer := MkStreamer {
  streams : list (text * ResponseStream.ResponseStreamState);
  streamedResponseFrameCount : Z;
  streamedResponseByteCount : Z
}.

(** What the client did: its writes, its events, and what no one catches. *)
Record Effects := MkEffects {
  stdin : list bytes;
  dataOut : list bytes;
  emitted : list Emitted;
  uncaught : list Thrown
}.

Record Client := MkClient {
  epoch_ : Z;
  status : Status;
  waiting : Waiting;
  inbox : Inbox;
  streamer : Streamer;
  effects : Effects
}.

Definition set_status (s : Status) (c : Client) : Client := MkClient (epoch_ c) s (waiting c) (inbox c) (streamer c) (effects c).
Definition set_waiting (w : Waiting) (c : Client) : Client := MkClient (epoch_ c) (status c) w (inbox c) (streamer c) (effects c).
Definition set_inbox (i : Inbox) (c : Client) : Client := MkClient (epoch_ c) (status c) (waiting c) i (streamer c) (effects c).
Definition set_streamer (s : Streamer) (c : Client) : Client := MkClient (epoch_ c) (status c) (waiting c) (inbox c) s (effects c).
Definition set_effects (e : Effects) (c : Client) : Client := MkClient (epoch_ c) (status c) (waiting c) (inbox c) (streamer c) e.

Definition write_stdin (b : bytes) (c : Client) : Client :=
  set_effects (MkEffects (stdin (effects c) ++ [b]) (dataOut (effects c)) (emitted (effects c)) (uncaught (effects c))) c.
Definition write_data (b : bytes) (c : Client) : Client :=
  set_effects (MkEffects (stdin (effects c)) (dataOut (effects c) ++ [b]) (emitted (effects c)) (uncaught (effects c))) c.
Definition log_event (e : Emitted) (c : Client) : Client :=
  set_effects (MkEffects (stdin (effects c)) (dataOut (effects c)) (emitted (effects c) ++ [e]) (uncaught (effects c))) c.
Definition not_caught (t : Thrown) (c : Client) : Client :=
  set_effects (MkEffects (stdin (effects c)) (dataOut (effects c)) (emitted (effects c)) (uncaught (effects c) ++ [t])) c.

(** [emitter.emit(event, payload)]: an error event that nobody listens to is thrown. *)
Definition emit (e : Emitted) (c : Client) : outcome Thrown Client :=
  match e with
  | EError t => if errorListener (status c) then Ok (log_event e c) else Throw t
  | _ => Ok (log_event e c)
  end.

(** ** Writing *)

Definition plain_header (ty fl epoch wid we rid : Z) : HotHeader :=
  MkHeader PLUGIN_RUNTIME_PROTOCOL_VERSION ty fl epoch wid we rid 0.

(** [PluginRuntimeFrameFlag.DATA] *)
Definition DATA : Z := 1.

Definition lift {A} (m : outcome ProtocolErrorCode A) : outcome Thrown A :=
  match m with Ok a => Ok a | Throw e => Throw (Protocol e) end.

Definition sendFrame (ty : Z) (body : json) (rid : Z) (c : Client) : outcome Thrown Client :=
  let? b := lift (encodeControlFrame (plain_header ty 0 (epoch_ c) 0 0 rid) body) in
  Ok (write_stdin b c).

Definition assertConnected (c : Client) : bool := connected (status c) && negb (closed (status c)).

(** A member that may be [undefined]: [JSON.stringify] leaves it out. *)
Definition opt_member (k : string) (v : option json) : list (text * json) :=
  match v with Some v => [(lit k, v)] | None => [] end.

Record PluginRuntimeWorkerTarget := MkTarget {
  targetWorkerId : Z;
  targetPluginId : text;
  targetInstallationId : text;
  targetDigest : option text;
  targetHintMiB : option N;
  targetOverrideMiB : option N
}.

Definition spawnWorker (t : PluginRuntimeWorkerTarget) (c : Client) : outcome Thrown Client :=
  guard? assertConnected c else NotConnected then
  sendFrame WORKER_SPAWN
    (JObj ([(lit "workerId", jint (targetWorkerId t)); (lit "pluginId", JStr (targetPluginId t));
            (lit "installationId", JStr (targetInstallationId t))]
           ++ opt_member "moduleGraphDigest" (JStr <$> targetDigest t)
           ++ opt_member "memoryHintMiB" (JNum <$> targetHintMiB t)
           ++ opt_member "maxHeapOverrideMiB" (JNum <$> targetOverrideMiB t))) 0 c.

Definition terminateWorker (wid : Z) (reason : option text) (c : Client) : outcome Thrown Client :=
  guard? assertConnected c else NotConnected then
  sendFrame WORKER_TERMINATE (JObj ((lit "workerId", jint wid) :: opt_member "reason" (JStr <$> reason))) 0 c.

Definition sendLogBatchAck (wid we sq : Z) (c : Client) : outcome Thrown Client :=
  guard? assertConnected c else NotConnected then
  sendFrame LOG_BATCH_ACK (JObj [(lit "workerId", jint wid); (lit "workerEpoch", jint we); (lit "seq", jint sq)]) 0 c.

Definition sendBrokerRevoke (body : json) (c : Client) : outcome Thrown Client :=
  guard? assertConnected c else NotConnected then sendFrame BROKER_REVOKE body 0 c.

Definition sendHostBridgeMessage (body : json) (c : Client) : outcome Thrown Client :=
  guard? assertConnected c else NotConnected then sendFrame HOST_BRIDGE_MESSAGE body 0 c.

(** ** Transports *)

Fixpoint fits_loop (fuel : nat) (stack : list json) : bool :=
  match fuel, stack with
  | _, [] => true
  | O, _ => true
  | S fuel, value :: stack =>
      match value with
      | JStr s => if PLUGIN_RUNTIME_MAX_STRING_BYTES / 2 <? length16 s then false else fits_loop fuel stack
      | JArr l => fits_loop fuel (rev_append l stack)
      | JObj o => fits_loop fuel (rev_append (map snd o) stack)
      | _ => fits_loop fuel stack
      end
  end.

Definition small_text (body : json) : bool :=
  utf8_size (stringify body) <=? PLUGIN_RUNTIME_MAX_CONTROL_PAYLOAD_BYTES - CONTROL_ESCAPE_MARGIN_BYTES.

(** One round per value of the body. *)
Definition rpcResponseFitsControl (body : json) : bool := small_text body && fits_loop (nodes body) [body].

Fixpoint sources_fit (l : list json) : outcome Thrown bool :=
  match l with
  | [] => Ok true
  | r :: l =>
      let? source := prop "source" r in
      match source with
      | Some (JStr s) => if PLUGIN_RUNTIME_MAX_STRING_BYTES / 2 <? length16 s then Ok false else sources_fit l
      | _ => sources_fit l
      end
  end.

Definition fitsControlPath (body graph : json) : outcome Thrown bool :=
  if negb (small_text body) then Ok false
  else
    let? recs := prop "records" graph in
    match recs with Some (JArr l) => sources_fit l | _ => Ok false end.

Definition writeResponseStreamFrame (f : ResponseStream.RpcResponseStreamFrame) (c : Client) : outcome Thrown Client :=
  let? b := lift (encodeDataFrame (plain_header RPC_RESPONSE_STREAM DATA (epoch_ c) (ResponseStream.frameWorker f)
                                    (ResponseStream.frameEpoch f) 0) (ResponseStream.payload f)) in
  let c := write_data b c in
  Ok (set_streamer (MkStreamer (streams (streamer c)) (streamedResponseFrameCount (streamer c) + 1)
                      (streamedResponseByteCount (streamer c) + size (ResponseStream.chunk f))) c).

Definition set_streams (st : list (text * ResponseStream.ResponseStreamState)) (c : Client) : Client :=
  set_streamer (MkStreamer st (streamedResponseFrameCount (streamer c)) (streamedResponseByteCount (streamer c))) c.

Definition stream_error (e : ResponseStream.StreamError) : text * text :=
  match e with
  | ResponseStream.RESPONSE_STREAM_TOO_LARGE => (lit "RESPONSE_STREAM_TOO_LARGE", lit "response body exceeds the streaming cap")
  | ResponseStream.RESPONSE_STREAM_DUPLICATE =>
      (lit "RESPONSE_STREAM_DUPLICATE", lit "a response stream for this requestId is already in flight")
  | ResponseStream.RESPONSE_STREAM_LIMIT => (lit "RESPONSE_STREAM_LIMIT", lit "too many concurrent response streams")
  | ResponseStream.RESPONSE_STREAM_EMPTY => (lit "RESPONSE_STREAM_EMPTY", lit "empty response body")
  end.

(** The answer to a call; [body] has these ids. *)
Definition sendRpcResponse (wid we : Z) (rid : text) (body : json) (c : Client) : outcome Thrown Client :=
  guard? assertConnected c else NotConnected then
  if rpcResponseFitsControl body then sendFrame RPC_RESPONSE body 0 c
  else
    let? p := lift (encodeDataBody body) in
    if ResponseStream.RPC_STREAM_CHUNK_BYTES <? size p then
      let (st, r) := ResponseStream.begin ResponseStream.default_options wid we rid p (streams (streamer c)) in
      match r with
      | Throw e =>
          sendFrame RPC_RESPONSE
            (JObj [(lit "workerId", jint wid); (lit "workerEpoch", jint we); (lit "requestId", JStr rid); (lit "ok", JBool false);
                   (lit "error", JObj [(lit "code", JStr (fst (stream_error e))); (lit "message", JStr (snd (stream_error e)))])])
            0 (set_streams st c)
      | Ok f => writeResponseStreamFrame f (set_streams st c)
      end
    else
      let? b := lift (encodeDataFrame (plain_header RPC_RESPONSE_DATA DATA (epoch_ c) wid we 0) p) in
      Ok (write_data b c).

Definition sendModuleGraph (wid we : Z) (graph : json) (c : Client) : outcome Thrown Client :=
  guard? assertConnected c else NotConnected then
  let body := JObj [(lit "workerId", jint wid); (lit "workerEpoch", jint we); (lit "graph", graph)] in
  let? small := fitsControlPath body graph in
  if small then
    let? b := lift (encodeControlFrame (plain_header MODULE_GRAPH 0 (epoch_ c) wid we 0) body) in
    Ok (write_stdin b c)
  else
    let? p := lift (encodeDataBody body) in
    let? b := lift (encodeDataFrame (plain_header MODULE_GRAPH_DATA DATA (epoch_ c) wid we 0) p) in
    Ok (write_data b c).

(** ** Reading *)

Definition int_of (v : option json) : option Z := match v with Some (JNum n) => as_int n | _ => None end.

(** The ids of a grant are numbers; a record of a stream has whole ones, so that
    other numbers match no stream. *)
Definition handleStreamCredit (body : json) (c : Client) : outcome Thrown Client :=
  let? message := prop "message" body in
  match message with
  | Some (JObj o) =>
      match member "workerId" o, member "workerEpoch" o, member "requestId" o, int_of (member "bytes" o) with
      | Some (JNum wid), Some (JNum we), Some (JStr rid), Some n =>
          if n <? 1 then Ok c
          else match as_int wid, as_int we with
               | Some wid, Some we =>
                   let (st, f) := ResponseStream.grant ResponseStream.default_options wid we rid n (streams (streamer c)) in
                   match f with
                   | Some f => writeResponseStreamFrame f (set_streams st c)
                   | None => Ok (set_streams st c)
                   end
               | _, _ => Ok c
               end
      | _, _, _, _ => Ok c
      end
  | _ => Ok c
  end.

Definition isLogLevel (v : text) : bool := bool_decide (v ∈ PLUGIN_RUNTIME_LOG_LEVELS).

Definition log_record (raw : json) : option LogRecord :=
  match raw with
  | JObj o =>
      match member "level" o, member "message" o, int_of (member "at" o) with
      | Some (JStr lv), Some (JStr m), Some t =>
          if isLogLevel lv then
            Some (MkLogRecord lv m t (match int_of (member "count" o) with Some n => if 2 <=? n then Some n else None | None => None end))
          else None
      | _, _, _ => None
      end
  | _ => None
  end.

Definition handleLogBatchFrame (f : Frame) (c : Client) : Client :=
  match Json.parse (decode_text (payload f)) with
  | Some (JObj o) =>
      match int_of (member "seq" o), int_of (member "droppedCount" o), member "records" o with
      | Some sq, Some dropped, Some (JArr raw) =>
          if (sq <? 0) || (dropped <? 0) then c
          else log_event (ELogBatch (workerId (header f)) (workerEpoch (header f)) sq dropped
                            (omap log_record (take PLUGIN_RUNTIME_LOG_BATCH_MAX_RECORDS raw))) c
      | _, _, _ => c
      end
  | _ => c
  end.

Definition body_of (f : Frame) : outcome Thrown json := lift (decodeControlBody (payload f)).

Definition is_credit (message : option json) : bool :=
  match message with
  | Some (JObj o) => match member "kind" o with Some (JStr k) => bool_decide (k = lit "rpc-stream-credit") | _ => false end
  | _ => false
  end.

(** The switch of [dispatchFrame]. *)
Definition handleFrame (f : Frame) (c : Client) : outcome Thrown Client :=
  let ty := frameType (header f) in
  if ty =? TELEMETRY then let? b := body_of f in emit (ETelemetry b) c
  else if ty =? WORKER_READY then let? b := body_of f in emit (EWorkerReady b) c
  else if ty =? WORKER_TERMINATED then let? b := body_of f in emit (EWorkerTerminated b) c
  else if ty =? RPC_REQUEST then let? b := body_of f in emit (ERpcRequest b) c
  else if ty =? BRIDGE_MESSAGE then
    let? b := body_of f in
    let? message := prop "message" b in
    if is_credit message then handleStreamCredit b c else emit (EBridgeMessage b) c
  else if ty =? LOG_BATCH then Ok (handleLogBatchFrame f c)
  else if ty =? FATAL_DIAGNOSTIC then let? b := body_of f in emit (EFatalDiagnostic b) c
  else if ty =? ERROR then
    let? b := body_of f in
    let? _ := prop "message" b in
    emit (EError ErrorFrame) c
  else Ok c.

(** The promise of a waiter is settled. *)
Definition settle (w : nat * Predicate) (r : outcome Reject Frame) (c : Client) : Client :=
  let wt := waiting c in
  set_waiting (MkWaiting (List.filter (fun x => negb (fst x =? fst w)%nat) (waiters wt)) (nextWaiter wt)
                 (settled wt ++ [(w, r)]) (requestIdCounter wt)) c.

Definition rejectAllWaiters (r : Reject) (c : Client) : Client :=
  fold_left (fun c w => settle w (Throw r) c) (waiters (waiting c)) c.

Definition enqueue (f : Frame) (c : Client) : Client :=
  let i := inbox c in set_inbox (MkInbox (controlBuffer i) (dataBuffer i) (preHandshake i ++ [f]) (handled i)) c.
Definition mark_handled (f : Frame) (c : Client) : Client :=
  let i := inbox c in set_inbox (MkInbox (controlBuffer i) (dataBuffer i) (preHandshake i) (handled i ++ [f])) c.

(** A frame is handled with the state as it is then, also when its handler throws. *)
Definition dispatchFrame (f : Frame) (c : Client) : Client * option Thrown :=
  match List.find (fun w => matches (snd w) f) (waiters (waiting c)) with
  | Some w => (settle w (Ok f) c, None)
  | None =>
      if negb (connected (status c)) then (enqueue f c, None)
      else
        let c := mark_handled f c in
        match handleFrame f c with
        | Ok c' => (c', None)
        | Throw t => (c, Some t)
        end
  end.

(** [for (const frame of frames) ...] *)
Fixpoint each {A} (handle : A -> Client -> Client * option Thrown) (l : list A) (c : Client) : Client * option Thrown :=
  match l with
  | [] => (c, None)
  | x :: l => match handle x c with (c, None) => each handle l c | (c, Some t) => (c, Some t) end
  end.

Definition handleDataFrame (f : Frame) (c : Client) : Client * option Thrown :=
  if negb (frameType (header f) =? RPC_REQUEST_DATA) then (log_event (EDataFrame f) c, None)
  else match Json.parse (decode_text (payload f)) with
       | Some (JObj o) =>
           match member "call" o, int_of (member "workerId" o), int_of (member "workerEpoch" o) with
           | Some (JObj _ | JArr _), Some wid, Some we =>
               if (wid =? workerId (header f)) && (we =? workerEpoch (header f)) then (log_event (ERpcRequest (JObj o)) c, None)
               else (c, None)
           | _, _, _ => (c, None)
           end
       | _ => (c, None)
       end.

Definition throw_to_process (r : Client * option Thrown) : Client :=
  match r with (c, None) => c | (c, Some t) => not_caught t c end.

(** [this.emit('error', error)] in a handler of a pipe. *)
Definition emit_error (t : Thrown) (c : Client) : Client :=
  match emit (EError t) c with Ok c => c | Throw t => not_caught t c end.

(** Bytes from the control pipe. *)
Definition onControl (chunk : bytes) (c : Client) : Client :=
  let i := inbox c in
  let (buffer, r) := push PLUGIN_RUNTIME_MAX_CONTROL_PAYLOAD_BYTES (controlBuffer i) chunk in
  let c := set_inbox (MkInbox buffer (dataBuffer i) (preHandshake i) (handled i)) c in
  match r with
  | Throw e => emit_error (Protocol e) c
  | Ok frames => throw_to_process (each dispatchFrame frames c)
  end.

(** Bytes from the data pipe of the runtime. *)
Definition onData (chunk : bytes) (c : Client) : Client :=
  let i := inbox c in
  let (buffer, r) := push PLUGIN_RUNTIME_MAX_DATA_PAYLOAD_BYTES (dataBuffer i) chunk in
  let c := set_inbox (MkInbox (controlBuffer i) buffer (preHandshake i) (handled i)) c in
  match r with
  | Throw e => emit_error (Protocol e) c
  | Ok frames => throw_to_process (each handleDataFrame frames c)
  end.

(** ** Waiters *)

(** [waitForFrame], with the number of its promise. *)
Definition waitForFrame (p : Predicate) (c : Client) : nat * Client :=
  let wt := waiting c in
  let w := nextWaiter wt in
  (w, if closed (status c)
      then set_waiting (MkWaiting (waiters wt) (S w) (settled wt ++ [((w, p), Throw ClientClosed)]) (requestIdCounter wt)) c
      else set_waiting (MkWaiting (waiters wt ++ [(w, p)]) (S w) (settled wt) (requestIdCounter wt)) c).

(** The timer of a waiter fires. *)
Definition timeout (w : nat) (c : Client) : Client :=
  match List.find (fun x => (fst x =? w)%nat) (waiters (waiting c)) with
  | Some x => settle x (Throw TimedOut) c
  | None => c
  end.

Definition nextRequestId (c : Client) : Z * Client :=
  let wt := waiting c in
  let n := (requestIdCounter wt + 1) mod 2 ^ 32 in
  (n, set_waiting (MkWaiting (waiters wt) (nextWaiter wt) (settled wt) n) c).

Definition ping (c : Client) : outcome Thrown Client :=
  let (rid, c) := nextRequestId c in
  let? c := sendFrame PING (JObj []) rid c in
  Ok (snd (waitForFrame (IsPong rid) c)).

(** ** Life cycle *)

(** [close()]: the child is killed, its exit comes later. *)
Definition close (c : Client) : Client :=
  let st := status c in
  rejectAllWaiters ClientClosed
    (set_status (MkStatus (connected st) true (exitCode st) (errorListener st) (handshakeState st)) c).

Definition onChildError (c : Client) : Client :=
  let st := status c in
  emit_error ChildError
    (rejectAllWaiters ChildFailed
       (set_status (MkStatus (connected st) true (exitCode st) (errorListener st) (handshakeState st)) c)).

(** [code] is [null] when a signal ended the process. *)
Definition onExit (code : option Z) (c : Client) : Client :=
  let st := status c in
  log_event (EExit code)
    (rejectAllWaiters RuntimeExited
       (set_status (MkStatus false (closed st) code (errorListener st) (handshakeState st)) c)).

(** [terminate()] up to the wait for the exit of the process. *)
Definition terminate (c : Client) : outcome Thrown Client :=
  let st := status c in
  if closed st then Ok c
  else match exitCode st with
       | Some _ => Ok (set_status (MkStatus (connected st) true (exitCode st) (errorListener st) (handshakeState st)) c)
       | None => sendFrame TERMINATE (JObj [(lit "runtimeEpoch", jint (epoch_ c))]) 0 c
       end.

(** [client.on('error', ...)] *)
Definition listen (c : Client) : Client :=
  let st := status c in set_status (MkStatus (connected st) (closed st) (exitCode st) true (handshakeState st)) c.

(** The constructor and the first part of [handshake]: no frame can have come yet. *)
Definition start (epoch : Z) : Client :=
  MkClient epoch (MkStatus false false None false (WaitingHello 0)) (MkWaiting [(0%nat, IsHello)] 1 [] 0)
    (MkInbox [] [] [] []) (MkStreamer [] 0 0) (MkEffects [] [] [] []).

(** [String(value)] *)
Fixpoint to_text (v : json) : text :=
  match v with
  | JNull => lit "null"
  | JBool true => lit "true"
  | JBool false => lit "false"
  | JNum n => print_num n
  | JStr s => s
  | JArr l => commas (map (fun v => match v with JNull => [] | _ => to_text v end) l)
  | JObj _ => lit "[object Object]"
  end.

Definition set_handshake (h : Handshake) (c : Client) : Client :=
  let st := status c in set_status (MkStatus (connected st) (closed st) (exitCode st) (errorListener st) h) c.

(** [start] catches what the handshake throws, closes the client and throws on. *)
Definition failed (t : Thrown) (c : Client) : Client := set_handshake (Failed t) (close c).

Definition hello_ack (hello : list (text * json)) (accepted : bool) (reason : option text) : json :=
  JObj ([(lit "protocolVersion", jint PLUGIN_RUNTIME_PROTOCOL_VERSION)]
        ++ opt_member "runtimeEpoch" (member "runtimeEpoch" hello)
        ++ [(lit "accepted", JBool accepted)] ++ opt_member "reason" (JStr <$> reason)).

Definition version_reason (hello : list (text * json)) : text :=
  lit "VERSION_MISMATCH host=1 runtime=" ++
  match member "protocolVersion" hello with Some v => to_text v | None => lit "undefined" end.

(** The frames that came before are dispatched. *)
Definition accept (c : Client) : Client * option Thrown :=
  let i := inbox c in
  each dispatchFrame (preHandshake i) (set_inbox (MkInbox (controlBuffer i) (dataBuffer i) [] (handled i)) c).

(** The answer to a HELLO body with these fields. *)
Definition greet (hello : json) (o : list (text * json)) (c : Client) : Client :=
  if negb (bool_decide (int_of (member "protocolVersion" o) = Some PLUGIN_RUNTIME_PROTOCOL_VERSION)) then
    match sendFrame HELLO_ACK (hello_ack o false (Some (version_reason o))) 0 c with
    | Ok c => failed VersionMismatch c
    | Throw t => failed t c
    end
  else if negb (bool_decide (int_of (member "runtimeEpoch" o) = Some (epoch_ c))) then failed EpochMismatch c
  else match sendFrame HELLO_ACK (hello_ack o true None) 0 c with
       | Throw t => failed t c
       | Ok c =>
           let st := status c in
           let c := log_event (EReady hello) (set_status (MkStatus true (closed st) (exitCode st) (errorListener st) Connected) c) in
           match accept c with
           | (c, None) => c
           | (c, Some t) => failed t c
           end
       end.

(** The second part of [handshake], on the HELLO frame. *)
Definition shake (f : Frame) (c : Client) : Client :=
  match body_of f with
  | Throw t => failed t c
  | Ok JNull => failed TypeError c
  | Ok (JObj o) => greet (JObj o) o c
  | Ok hello => greet hello [] c
  end.

(** The handshake goes on once its waiter is settled. *)
Definition resume (c : Client) : Client :=
  match handshakeState (status c) with
  | WaitingHello w =>
      match List.find (fun x => (fst (fst x) =? w)%nat) (settled (waiting c)) with
      | Some (_, Ok f) => shake f c
      | Some (_, Throw r) => set_handshake (Rejected r) (close c)
      | None => c
      end
  | _ => c
  end.

(** ** Runs *)

Inductive Op :=
| OpControl (chunk : bytes)
| OpData (chunk : bytes)
| OpResume
| OpTimeout (w : nat)
| OpPing
| OpSpawn (t : PluginRuntimeWorkerTarget)
| OpTerminateWorker (wid : Z) (reason : option text)
| OpRespond (wid we : Z) (rid : text) (body : json)
| OpAck (wid we sq : Z)
| OpRevoke (body : json)
| OpBridge (body : json)
| OpGraph (wid we : Z) (graph : json)
| OpTerminate
| OpClose
| OpChildError
| OpExit (code : option Z)
| OpListen.

(** A call that throws leaves the client as it was. *)
Definition attempt (c : Client) (r : outcome Thrown Client) : Client := match r with Ok c' => c' | Throw _ => c end.

Definition step (c : Client) (op : Op) : Client :=
  match op with
  | OpControl chunk => onControl chunk c
  | OpData chunk => onData chunk c
  | OpResume => resume c
  | OpTimeout w => timeout w c
  | OpPing => attempt c (ping c)
  | OpSpawn t => attempt c (spawnWorker t c)
  | OpTerminateWorker wid reason => attempt c (terminateWorker wid reason c)
  | OpRespond wid we rid body => attempt c (sendRpcResponse wid we rid body c)
  | OpAck wid we sq => attempt c (sendLogBatchAck wid we sq c)
  | OpRevoke body => attempt c (sendBrokerRevoke body c)
  | OpBridge body => attempt c (sendHostBridgeMessage body c)
  | OpGraph wid we graph => attempt c (sendModuleGraph wid we graph c)
  | OpTerminate => attempt c (terminate c)
  | OpClose => close c
  | OpChildError => onChildError c
  | OpExit code => onExit code c
  | OpListen => listen c
  end.

Definition run (c : Client) (ops : list Op) : Client := fold_left step ops c.

(** ** What a call may change *)

(** Writing and emitting leave the connection, the waiters and the frames alone,
    and nothing escapes. *)
Definition quiet (c c' : Client) : Prop :=
  epoch_ c' = epoch_ c /\ status c' = status c /\ waiting c' = waiting c /\ inbox c' = inbox c /\
  uncaught (effects c') = uncaught (effects c).

Lemma quiet_refl c : quiet c c.
Proof. done. Qed.

Lemma quiet_trans c c' c'' : quiet c c' -> quiet c' c'' -> quiet c c''.
Proof. unfold quiet. intuition congruence. Qed.

(** A call that returns is quiet. *)
Definition quietly (r : outcome Thrown Client) (c : Client) : Prop := match r with Ok c' => quiet c c' | Throw _ => True end.

Lemma quietly_bind {A} (m : outcome Thrown A) k c : (forall a, quietly (k a) c) -> quietly (obind m k) c.
Proof. intros H. destruct m as [a|e]; [apply H|done]. Qed.

Lemma sendFrame_quiet ty body rid c : quietly (sendFrame ty body rid c) c.
Proof. by apply quietly_bind. Qed.

Lemma emit_quiet e c : quietly (emit e c) c.
Proof. destruct e; try done. cbn. by destruct (errorListener (status c)). Qed.

Lemma stream_frame_quiet f c : quietly (writeResponseStreamFrame f c) c.
Proof. by apply quietly_bind. Qed.

Lemma quietly_from (c c' : Client) r : quiet c c' -> quietly r c' -> quietly r c.
Proof. intros H. destruct r as [c''|]; [|done]. intros H'. by eapply quiet_trans. Qed.

Lemma credit_quiet body c : quietly (handleStreamCredit body c) c.
Proof.
  apply quietly_bind. intros [[| | | | |o]|]; try done.
  repeat (case_match; try done). by eapply quietly_from, stream_frame_quiet.
Qed.

Lemma handle_quiet f c : quietly (handleFrame f c) c.
Proof.
  unfold handleFrame. repeat case_match; try done; repeat (apply quietly_bind; intros ?); try apply emit_quiet.
  - case_match; [apply credit_quiet|apply emit_quiet].
  - unfold handleLogBatchFrame. by repeat case_match.
Qed.

Lemma guard_quiet (b : bool) t r c : quietly r c -> quietly (if b then r else Throw t) c.
Proof. by destruct b. Qed.

Lemma respond_quiet wid we rid body c : quietly (sendRpcResponse wid we rid body c) c.
Proof.
  apply guard_quiet. destruct (rpcResponseFitsControl body); [apply sendFrame_quiet|].
  apply quietly_bind. intros p. case_match; [|by apply quietly_bind].
  destruct (ResponseStream.begin _ wid we rid p _) as [st [f|e]].
  - by eapply quietly_from, stream_frame_quiet.
  - by eapply quietly_from, sendFrame_quiet.
Qed.

Lemma graph_quiet wid we graph c : quietly (sendModuleGraph wid we graph c) c.
Proof.
  apply guard_quiet. apply quietly_bind. intros small. destruct small; [by apply quietly_bind|].
  apply quietly_bind. intros p. by apply quietly_bind.
Qed.

Lemma attempt_quiet c r : quietly r c -> quiet c (attempt c r).
Proof. by destruct r. Qed.

(** ** Waiters *)

(** Every promise of a waiter is pending or settled, never both and never twice,
    and what settles it is what it waited for. *)
Record waits (w : Waiting) : Prop := {
  wt_once : NoDup ((settled w).*1.*1 ++ (waiters w).*1);
  wt_known : forall i, i ∈ (settled w).*1.*1 ++ (waiters w).*1 <-> (i < nextWaiter w)%nat;
  wt_match : forall i p f, ((i, p), Ok f) ∈ settled w -> matches p f = true
}.

Lemma waits_settle x r c :
  waits (waiting c) -> x ∈ waiters (waiting c) -> match r with Ok f => matches (snd x) f = true | Throw _ => True end ->
  waits (waiting (settle x r c)).
Proof.
  intros [H1 H2 H3] Hx Hr. destruct x as [i p]. set (w := waiting c) in *.
  assert (P : (settled w ++ [((i, p), r)]).*1.*1 ++ (List.filter (fun y => negb (fst y =? i)%nat) (waiters w)).*1
              ≡ₚ (settled w).*1.*1 ++ (waiters w).*1).
  { rewrite !fmap_app, <-app_assoc. apply Permutation_app_head. cbn.
    apply NoDup_app in H1 as (_ & _ & H1). clear -H1 Hx. induction (waiters w) as [|[j q] l IH]; [by apply elem_of_nil in Hx|].
    cbn [fmap list_fmap fst] in *. apply NoDup_cons in H1 as [Hj H1]. cbn [List.filter fst]. destruct (Nat.eqb_spec j i) as [->|Hne]; cbn [negb].
    - constructor. rewrite filter_all; [done|]. intros [k s] Hk. apply negb_true_iff, Nat.eqb_neq. intros E. apply Hj. cbn in E. subst k.
      apply list_elem_of_fmap. by exists (i, s).
    - apply elem_of_cons in Hx as [[= -> ->]|Hx]; [done|]. cbn. rewrite Permutation_swap. constructor. by apply IH. }
  constructor; cbn [settle waiting set_waiting settled waiters nextWaiter fst]; fold w.
  - by rewrite P.
  - intros j. by rewrite P.
  - intros j q f [E|E%list_elem_of_singleton]%elem_of_app; [by eapply H3|]. injection E as -> -> <-. exact Hr.
Qed.

(** The frames that waiters got. *)
Definition got (c : Client) : list Frame := omap (fun x => match snd x with Ok f => Some f | Throw _ => None end) (settled (waiting c)).

(** [c'] differs from [c] in waiters that were rejected. *)
Definition rejected (c c' : Client) : Prop :=
  epoch_ c' = epoch_ c /\ status c' = status c /\ inbox c' = inbox c /\ effects c' = effects c /\ got c' = got c.

Lemma settle_reject x r c : rejected c (settle x (Throw r) c).
Proof. unfold rejected, got. split_and!; try done. cbn. by rewrite omap_app, app_nil_r. Qed.

Lemma rejected_trans c c' c'' : rejected c c' -> rejected c' c'' -> rejected c c''.
Proof. unfold rejected. intuition congruence. Qed.

Lemma reject_all r c :
  waits (waiting c) ->
  let c' := rejectAllWaiters r c in waits (waiting c') /\ waiters (waiting c') = [] /\ rejected c c'.
Proof.
  unfold rejectAllWaiters. remember (waiters (waiting c)) as l eqn:El. symmetry in El. revert c El.
  induction l as [|x l IH]; intros c El Hw; [done|]. cbn [fold_left].
  assert (E : waiters (waiting (settle x (Throw r) c)) = l).
  { cbn. rewrite El. destruct Hw as [H _ _]. rewrite El in H. apply NoDup_app in H as (_ & _ & H). cbn in H.
    apply NoDup_cons in H as [Hx H]. cbn [List.filter]. rewrite Nat.eqb_refl. cbn [negb]. apply filter_all.
    intros y Hy. apply negb_true_iff, Nat.eqb_neq. intros E. apply Hx. rewrite <-E. apply list_elem_of_fmap. by exists y. }
  destruct (IH _ E) as (H1 & H2 & H3).
  { apply waits_settle; [done|rewrite El; left|done]. }
  split_and!; [done|done|]. eapply rejected_trans; [apply settle_reject|done].
Qed.

Lemma find_waiter f c w :
  List.find (fun w => matches (snd w) f) (waiters (waiting c)) = Some w -> w ∈ waiters (waiting c) /\ matches (snd w) f = true.
Proof. intros [H1 H2]%List.find_some. split; [by apply elem_of_In|done]. Qed.

Lemma quiet_waits c c' : quiet c c' -> waits (waiting c) -> waits (waiting c').
Proof. by intros (_ & _ & -> & _). Qed.

Lemma dispatch_waits f c : waits (waiting c) -> waits (waiting (fst (dispatchFrame f c))).
Proof.
  intros H. unfold dispatchFrame. destruct (List.find _ _) as [w|] eqn:E.
  { apply find_waiter in E as [E1 E2]. by apply waits_settle. }
  destruct (negb _); [done|]. pose proof (handle_quiet f (mark_handled f c)) as Q.
  destruct (handleFrame f (mark_handled f c)) as [c'|]; [|done]. by eapply quiet_waits.
Qed.

Lemma each_waits {A} (h : A -> Client -> Client * option Thrown) l c :
  (forall x c, waits (waiting c) -> waits (waiting (fst (h x c)))) -> waits (waiting c) -> waits (waiting (fst (each h l c))).
Proof.
  intros Hh. revert c. induction l as [|x l IH]; intros c H; [done|]. cbn [each]. specialize (Hh x c H).
  destruct (h x c) as [c' [t|]]; [done|]. by apply IH.
Qed.

Lemma emit_error_waiting t c : waiting (emit_error t c) = waiting c.
Proof. unfold emit_error. cbn. by destruct (errorListener (status c)). Qed.

Lemma emit_error_waits t c : waits (waiting c) -> waits (waiting (emit_error t c)).
Proof. by rewrite emit_error_waiting. Qed.

Lemma data_handler_waits f c : waits (waiting c) -> waits (waiting (fst (handleDataFrame f c))).
Proof. unfold handleDataFrame. by repeat case_match. Qed.

Lemma throw_waits r : waits (waiting (fst r)) -> waits (waiting (throw_to_process r)).
Proof. by destruct r as [c [t|]]. Qed.

Lemma close_waits c : waits (waiting c) -> waits (waiting (close c)).
Proof. intros H. by apply reject_all. Qed.

Lemma failed_waits t c : waits (waiting c) -> waits (waiting (failed t c)).
Proof. intros H. by apply close_waits. Qed.

Lemma greet_waits hello o c : waits (waiting c) -> waits (waiting (greet hello o c)).
Proof.
  intros H. unfold greet. case_match.
  { pose proof (sendFrame_quiet HELLO_ACK (hello_ack o false (Some (version_reason o))) 0 c) as Q.
    destruct (sendFrame _ _ _ c) as [c'|]; apply failed_waits; [by eapply quiet_waits|done]. }
  case_match; [by apply failed_waits|].
  pose proof (sendFrame_quiet HELLO_ACK (hello_ack o true None) 0 c) as Q.
  destruct (sendFrame _ _ _ c) as [c'|]; [|by apply failed_waits].
  cbn zeta. set (c2 := log_event _ _). assert (H2 : waits (waiting c2)) by (by eapply (quiet_waits c c')).
  pose proof (each_waits dispatchFrame (preHandshake (inbox c2))
    (set_inbox (MkInbox (controlBuffer (inbox c2)) (dataBuffer (inbox c2)) [] (handled (inbox c2))) c2) dispatch_waits H2) as W.
  unfold accept. destruct (each dispatchFrame _ _) as [c3 [t|]]; [by apply failed_waits|done].
Qed.

Lemma shake_waits f c : waits (waiting c) -> waits (waiting (shake f c)).
Proof.
  intros H. unfold shake. destruct (body_of f) as [[| | | | |o]|t]; try (by apply failed_waits); by apply greet_waits.
Qed.

Lemma wait_waits p c : waits (waiting c) -> waits (waiting (snd (waitForFrame p c))).
Proof.
  intros [H1 H2 H3]. assert (F : nextWaiter (waiting c) ∉ (settled (waiting c)).*1.*1 ++ (waiters (waiting c)).*1).
  { intros E%H2. lia. }
  unfold waitForFrame. destruct (closed (status c)); cbn [snd set_waiting waiting]; constructor; cbn [settled waiters nextWaiter].
  - rewrite !fmap_app. cbn. rewrite <-app_assoc. cbn. rewrite <-Permutation_middle. by apply NoDup_cons.
  - intros i. rewrite !fmap_app, <-app_assoc. cbn. rewrite <-Permutation_middle, elem_of_cons, H2. lia.
  - intros i q f [E|E%list_elem_of_singleton]%elem_of_app; [by eapply H3|done].
  - rewrite !fmap_app, app_assoc. cbn. rewrite <-Permutation_cons_append. by apply NoDup_cons.
  - intros i. rewrite !fmap_app, app_assoc. cbn. rewrite <-Permutation_cons_append, elem_of_cons, H2. lia.
  - done.
Qed.

Lemma step_waits op c : waits (waiting c) -> waits (waiting (step c op)).
Proof.
  intros H. assert (A : forall r, quietly r c -> waits (waiting (attempt c r))).
  { intros r Hr. apply (quiet_waits c); [by apply attempt_quiet|done]. }
  destruct op; cbn [step].
  - unfold onControl. destruct (push _ _ _) as [b [fs|e]]; [|by apply emit_error_waits].
    apply throw_waits, each_waits; [apply dispatch_waits|done].
  - unfold onData. destruct (push _ _ _) as [b [fs|e]]; [|by apply emit_error_waits].
    apply throw_waits, each_waits; [apply data_handler_waits|done].
  - unfold resume. destruct (handshakeState (status c)); try done.
    destruct (List.find _ _) as [[? [f|r]]|]; [by apply shake_waits|by apply close_waits|done].
  - unfold timeout. destruct (List.find _ _) as [x|] eqn:E; [|done].
    apply List.find_some in E as [E _]. apply waits_settle; [done|by apply elem_of_In|done].
  - unfold ping, nextRequestId. cbn zeta. set (c1 := set_waiting _ _).
    assert (H1 : waits (waiting c1)) by (destruct H; by constructor).
    match goal with |- context [sendFrame PING ?b ?r c1] => pose proof (sendFrame_quiet PING b r c1) as Q;
      destruct (sendFrame PING b r c1) as [c2|]; [|done] end.
    cbn [obind attempt]. apply wait_waits. by eapply quiet_waits.
  - apply A, guard_quiet, sendFrame_quiet.
  - apply A, guard_quiet, sendFrame_quiet.
  - apply A, respond_quiet.
  - apply A, guard_quiet, sendFrame_quiet.
  - apply A, guard_quiet, sendFrame_quiet.
  - apply A, guard_quiet, sendFrame_quiet.
  - apply A, graph_quiet.
  - unfold terminate. destruct (closed (status c)); [done|]. destruct (exitCode (status c)); [done|].
    match goal with |- context [sendFrame TERMINATE ?b ?r c] => pose proof (sendFrame_quiet TERMINATE b r c) as Q;
      destruct (sendFrame TERMINATE b r c) as [c2|]; [|done] end. by eapply quiet_waits.
  - by apply close_waits.
  - unfold onChildError. cbn zeta. apply emit_error_waits. by apply reject_all.
  - unfold onExit. cbn zeta. set (c1 := set_status _ c). apply (quiet_waits (rejectAllWaiters RuntimeExited c1)); [done|]. by apply reject_all.
  - done.
Qed.

Lemma run_waits ops c : waits (waiting c) -> waits (waiting (run c ops)).
Proof. revert c. induction ops as [|op ops IH]; intros c H; [done|]. apply IH. by apply step_waits. Qed.

Lemma start_waits epoch : waits (waiting (start epoch)).
Proof.
  constructor; cbn.
  - apply NoDup_singleton.
  - intros i. rewrite list_elem_of_singleton. lia.
  - intros i p f H. by apply elem_of_nil in H.
Qed.

(** In every run each promise of a waiter is pending or settled, exactly
    one of the two and once; a frame that settles it is the one it waits for, a
    PONG with the id of its PING; when the client is closed, the child fails or the
    process exits, no promise stays pending. *)
Theorem waiters_settle_once epoch ops :
  let c := run (start epoch) ops in
  NoDup ((settled (waiting c)).*1.*1 ++ (waiters (waiting c)).*1) /\
  (forall i, (i < nextWaiter (waiting c))%nat <-> i ∈ (settled (waiting c)).*1.*1 ++ (waiters (waiting c)).*1) /\
  (forall i p f, ((i, p), Ok f) ∈ settled (waiting c) -> matches p f = true) /\
  (forall op, op = OpClose \/ op = OpChildError \/ (exists code, op = OpExit code) -> waiters (waiting (step c op)) = []).
Proof.
  intros c. assert (H : waits (waiting c)) by apply run_waits, start_waits. clearbody c. split_and!; try apply H.
  - intros i. symmetry. apply H.
  - intros op [->|[->|[code ->]]]; cbn [step].
    + by apply reject_all.
    + unfold onChildError. cbn zeta. rewrite emit_error_waiting. by apply reject_all.
    + unfold onExit. cbn zeta. set (c1 := set_status _ c). change (waiters (waiting (rejectAllWaiters RuntimeExited c1)) = []).
      by apply reject_all.
Qed.

(** ** What becomes of the frames *)

(** [fs] are the frames of the control pipe so far: each was handled, is queued for
    the end of the handshake, or settled a waiter; [l] are queued frames in the
    hands of the handshake. *)
Record fates (b : bytes) (fs l : list Frame) (c : Client) : Prop := {
  fa_buffer : controlBuffer (inbox c) = b;
  fa_order : (handled (inbox c) ++ l ++ preHandshake (inbox c)) `sublist_of` fs;
  fa_all : handled (inbox c) ++ l ++ preHandshake (inbox c) ++ got c ≡ₚ fs;
  fa_queue : connected (status c) = true -> preHandshake (inbox c) = []
}.

Lemma dispatch_status f c : status (fst (dispatchFrame f c)) = status c.
Proof.
  unfold dispatchFrame. destruct (List.find _ _) as [w|]; [done|]. destruct (negb _); [done|].
  pose proof (handle_quiet f (mark_handled f c)) as Q. destruct (handleFrame f (mark_handled f c)) as [c'|]; [|done].
  destruct Q as (_ & Q & _). exact Q.
Qed.

Lemma dispatch_cases f c :
  let c' := fst (dispatchFrame f c) in
  controlBuffer (inbox c') = controlBuffer (inbox c) /\
  ((got c' = got c ++ [f] /\ handled (inbox c') = handled (inbox c) /\ preHandshake (inbox c') = preHandshake (inbox c)) \/
   (got c' = got c /\
    (connected (status c) = false /\ handled (inbox c') = handled (inbox c) /\ preHandshake (inbox c') = preHandshake (inbox c) ++ [f] \/
     connected (status c) = true /\ handled (inbox c') = handled (inbox c) ++ [f] /\ preHandshake (inbox c') = preHandshake (inbox c)))).
Proof.
  unfold dispatchFrame. destruct (List.find _ _) as [w|].
  { split; [done|]. left. unfold got. cbn. by rewrite omap_app. }
  destruct (connected (status c)); cbn [negb]; [|split; [done|]; right; split; [done|]; by left].
  pose proof (handle_quiet f (mark_handled f c)) as Q. destruct (handleFrame f (mark_handled f c)) as [c'|]; cbn [fst].
  - destruct Q as (_ & _ & Q1 & Q2 & _). unfold got. rewrite Q1, Q2. split; [done|]. right. split; [done|]. by right.
  - split; [done|]. right. split; [done|]. by right.
Qed.

Lemma dispatch_fates b fs f c : fates b fs [] c -> fates b (fs ++ [f]) [] (fst (dispatchFrame f c)).
Proof.
  intros [H0 H1 H2 H3]. pose proof (dispatch_status f c) as Hs. pose proof (dispatch_cases f c) as (Hb & Hc). cbn zeta in *.
  destruct Hc as [(G & A & B)|(G & [(K & A & B)|(K & A & B)])].
  - constructor; rewrite ?A, ?B, ?G, ?Hs; [congruence| | |done].
    + by apply sublist_inserts_r.
    + cbn [app] in *. rewrite !app_assoc in *. by rewrite H2.
  - constructor; rewrite ?A, ?B, ?G, ?Hs; [congruence| | |congruence]; cbn [app] in *.
    + rewrite app_assoc. by apply sublist_app.
    + rewrite <-H2, <-!app_assoc. do 2 apply Permutation_app_head. apply Permutation_app_comm.
  - specialize (H3 K). constructor; rewrite ?A, ?B, ?G, ?Hs; [congruence| | |done]; rewrite H3 in *; cbn [app] in *.
    + rewrite app_nil_r in *. by apply sublist_app.
    + rewrite <-H2, <-!app_assoc. apply Permutation_app_head. apply Permutation_app_comm.
Qed.

Lemma each_fates b fs l c c' : each dispatchFrame l c = (c', None) -> fates b fs [] c -> fates b (fs ++ l) [] c'.
Proof.
  revert fs c. induction l as [|f l IH]; intros fs c; cbn [each]; [intros [= <-]; by rewrite app_nil_r|].
  intros E H. pose proof (dispatch_fates b fs f c H) as H'. destruct (dispatchFrame f c) as [c1 [t|]]; [done|].
  specialize (IH _ _ E H'). by rewrite <-app_assoc in IH.
Qed.

(** The queue of the handshake. *)
Lemma drain_fates b fs l c c' :
  each dispatchFrame l c = (c', None) -> connected (status c) = true -> fates b fs l c -> fates b fs [] c'.
Proof.
  revert c. induction l as [|f l IH]; intros c; cbn [each]; [by intros [= <-]|]. intros E K [H0 H1 H2 H3].
  pose proof (dispatch_status f c) as Hs. pose proof (dispatch_cases f c) as (Hb & Hc). cbn zeta in *.
  destruct (dispatchFrame f c) as [c1 [t|]]; [done|]. cbn [fst] in *. apply (IH _ E); [congruence|]. specialize (H3 K).
  destruct Hc as [(G & A & B)|(G & [(K' & A & B)|(K' & A & B)])]; [|congruence|];
    (constructor; rewrite ?A, ?B, ?G, ?Hs; [congruence| | |done]); rewrite H3 in *; cbn [app] in *; rewrite ?app_nil_r in *.
  - etrans; [|exact H1]. apply sublist_app; [done|]. by apply sublist_cons.
  - rewrite <-H2. apply Permutation_app_head. rewrite app_assoc. symmetry. apply Permutation_cons_append.
  - by rewrite <-app_assoc.
  - by rewrite <-H2, <-app_assoc.
Qed.

(** Nothing has escaped, and the handshake has not failed. *)
Definition sound (c : Client) : Prop := uncaught (effects c) = [] /\ forall t, handshakeState (status c) <> Failed t.

(** What goes wrong stays so. *)
Definition grows (c c' : Client) : Prop :=
  (exists l, uncaught (effects c') = uncaught (effects c) ++ l) /\
  forall t, handshakeState (status c) = Failed t -> handshakeState (status c') = Failed t.

Lemma grows_refl c : grows c c.
Proof. split; [exists []; by rewrite app_nil_r|done]. Qed.

Lemma grows_same c c' : uncaught (effects c') = uncaught (effects c) -> status c' = status c -> grows c c'.
Proof. intros E S. split; [exists []; by rewrite app_nil_r|by rewrite S]. Qed.

Lemma grows_trans c c' c'' : grows c c' -> grows c' c'' -> grows c c''.
Proof. intros [[l E] H] [[l' E'] H']. split; [exists (l ++ l'); by rewrite E', E, app_assoc|auto]. Qed.

Lemma grows_sound c c' : grows c c' -> sound c' -> sound c.
Proof.
  intros [[l E] H] [S1 S2]. rewrite S1 in E. symmetry in E. apply app_eq_nil in E as [E _]. split; [done|]. intros t Ht. by apply (S2 t), H.
Qed.

Lemma quiet_grows c c' : quiet c c' -> grows c c'.
Proof. intros (_ & E1 & _ & _ & E2). split; [exists []; by rewrite app_nil_r|by rewrite E1]. Qed.

Lemma rejected_grows c c' : rejected c c' -> grows c c'.
Proof. intros (_ & E1 & _ & E2 & _). split; [exists []; by rewrite app_nil_r, E2|by rewrite E1]. Qed.

Lemma emit_error_grows t c : grows c (emit_error t c).
Proof.
  unfold emit_error. cbn [emit]. destruct (errorListener (status c)); (split; [|done]); [exists []; by rewrite app_nil_r|by exists [t]].
Qed.

Lemma dispatch_grows f c : grows c (fst (dispatchFrame f c)).
Proof.
  unfold dispatchFrame. destruct (List.find _ _) as [w|]; [by apply grows_same|]. destruct (negb _); [by apply grows_same|].
  pose proof (handle_quiet f (mark_handled f c)) as Q. destruct (handleFrame f (mark_handled f c)) as [c'|]; [|by apply grows_same].
  apply quiet_grows in Q. exact Q.
Qed.

Lemma data_handler_grows f c : grows c (fst (handleDataFrame f c)).
Proof. unfold handleDataFrame. repeat case_match; by apply grows_same. Qed.

Lemma each_grows {A} (h : A -> Client -> Client * option Thrown) l c :
  (forall x c, grows c (fst (h x c))) -> grows c (fst (each h l c)).
Proof.
  intros Hh. revert c. induction l as [|x l IH]; intros c; [apply grows_refl|]. cbn [each]. specialize (Hh x c).
  destruct (h x c) as [c' [t|]]; [done|]. eapply grows_trans; [exact Hh|apply IH].
Qed.

Lemma throw_grows c r : grows c (fst r) -> grows c (throw_to_process r).
Proof. destruct r as [c' [t|]]; [|done]. intros H. eapply grows_trans; [exact H|]. split; [by exists [t]|done]. Qed.

Lemma close_rejected c : waits (waiting c) ->
  rejected (set_status (MkStatus (connected (status c)) true (exitCode (status c)) (errorListener (status c)) (handshakeState (status c))) c) (close c).
Proof. intros H. by apply reject_all. Qed.

Lemma close_grows c : waits (waiting c) -> grows c (close c).
Proof. intros H. apply close_rejected, rejected_grows in H. exact H. Qed.

(** Only the handshake decides how it ends. *)
Lemma failed_state t c : handshakeState (status (failed t c)) = Failed t.
Proof. done. Qed.

Lemma resume_grows c : waits (waiting c) -> grows c (resume c).
Proof.
  intros H. unfold resume. destruct (handshakeState (status c)) eqn:Hh; try apply grows_refl.
  assert (U : forall c', (exists l, uncaught (effects c') = uncaught (effects c) ++ l) -> grows c c').
  { intros c' E. split; [done|]. intros t. by rewrite Hh. }
  assert (C : forall c', waits (waiting c') -> (exists l, uncaught (effects c') = uncaught (effects c) ++ l) ->
    exists l, uncaught (effects (close c')) = uncaught (effects c) ++ l).
  { intros c' W (l & E). destruct (close_rejected c' W) as (_ & _ & _ & E' & _). exists l. by rewrite E'. }
  assert (R : exists l, uncaught (effects c) = uncaught (effects c) ++ l) by (exists []; by rewrite app_nil_r).
  destruct (List.find _ _) as [[? [f|r]]|]; [|by apply U, C|apply grows_refl].
  apply U. unfold shake. destruct (body_of f) as [hello|t]; [|by apply C].
  assert (G : forall hello o, exists l, uncaught (effects (greet hello o c)) = uncaught (effects c) ++ l); [|destruct hello; [by apply C|apply G..]].
  intros h o. unfold greet. case_match.
  { pose proof (sendFrame_quiet HELLO_ACK (hello_ack o false (Some (version_reason o))) 0 c) as Q.
    destruct (sendFrame _ _ _ c) as [c'|]; [|by apply C]. apply C; [by eapply quiet_waits|]. destruct Q as (_ & _ & _ & _ & E). by rewrite E. }
  case_match; [by apply C|].
  pose proof (sendFrame_quiet HELLO_ACK (hello_ack o true None) 0 c) as Q.
  destruct (sendFrame _ _ _ c) as [c'|]; [|by apply C]. cbn zeta. set (c2 := log_event _ _).
  assert (H2 : waits (waiting c2)) by (by eapply (quiet_waits c c')).
  destruct Q as (_ & _ & _ & _ & E). unfold accept.
  set (c3 := set_inbox _ c2). pose proof (each_grows dispatchFrame (preHandshake (inbox c2)) c3 dispatch_grows) as [[l G] _].
  pose proof (each_waits dispatchFrame (preHandshake (inbox c2)) c3 dispatch_waits H2) as W.
  destruct (each dispatchFrame _ c3) as [c4 [t|]]; cbn [fst] in *; [apply C; [done|]|]; exists l; rewrite G; cbn; by rewrite E.
Qed.

Lemma step_grows op c : waits (waiting c) -> grows c (step c op).
Proof.
  intros H. assert (A : forall r, quietly r c -> grows c (attempt c r)) by (intros r Hr; by apply quiet_grows, attempt_quiet).
  destruct op; cbn [step].
  - unfold onControl. destruct (push _ _ _) as [b r]. cbn zeta. set (c1 := set_inbox _ c).
    apply (grows_trans c c1); [by apply grows_same|]. destruct r as [fs|e]; [|apply emit_error_grows].
    apply throw_grows, each_grows, dispatch_grows.
  - unfold onData. destruct (push _ _ _) as [b r]. cbn zeta. set (c1 := set_inbox _ c).
    apply (grows_trans c c1); [by apply grows_same|]. destruct r as [fs|e]; [|apply emit_error_grows].
    apply throw_grows, each_grows, data_handler_grows.
  - by apply resume_grows.
  - unfold timeout. destruct (List.find _ _); by apply grows_same.
  - unfold ping, nextRequestId. cbn zeta. set (c1 := set_waiting _ _).
    match goal with |- context [sendFrame PING ?b ?r c1] => pose proof (sendFrame_quiet PING b r c1) as Q;
      destruct (sendFrame PING b r c1) as [c2|]; [|apply grows_refl] end.
    apply quiet_grows in Q. cbn [obind attempt]. unfold waitForFrame. destruct (closed (status c2)); exact Q.
  - apply A, guard_quiet, sendFrame_quiet.
  - apply A, guard_quiet, sendFrame_quiet.
  - apply A, respond_quiet.
  - apply A, guard_quiet, sendFrame_quiet.
  - apply A, guard_quiet, sendFrame_quiet.
  - apply A, guard_quiet, sendFrame_quiet.
  - apply A, graph_quiet.
  - unfold terminate. destruct (closed (status c)); [apply grows_refl|].
    destruct (exitCode (status c)); [split; [exists []; by rewrite app_nil_r|done]|].
    match goal with |- context [sendFrame TERMINATE ?b ?r c] => pose proof (sendFrame_quiet TERMINATE b r c) as Q;
      destruct (sendFrame TERMINATE b r c) as [c2|]; [|apply grows_refl] end. by apply quiet_grows.
  - by apply close_grows.
  - unfold onChildError. cbn zeta. eapply grows_trans; [|apply emit_error_grows].
    set (c1 := set_status _ c). pose proof (reject_all ChildFailed c1 H) as (_ & _ & R). apply rejected_grows in R. exact R.
  - unfold onExit. cbn zeta. set (c1 := set_status _ c). pose proof (reject_all RuntimeExited c1 H) as (_ & _ & R).
    apply rejected_grows in R. exact R.
  - split; [exists []; by rewrite app_nil_r|done].
Qed.

Lemma client_grows ops c : waits (waiting c) -> grows c (run c ops).
Proof.
  revert c. induction ops as [|op ops IH]; intros c H; [apply grows_refl|].
  eapply grows_trans; [by apply step_grows|]. apply IH. by apply step_waits.
Qed.

Lemma fates_same b fs c c' :
  inbox c' = inbox c -> got c' = got c -> (connected (status c') = true -> connected (status c) = true) ->
  fates b fs [] c -> fates b fs [] c'.
Proof. intros E1 E2 E3 [H0 H1 H2 H3]. constructor; rewrite ?E1, ?E2; auto. Qed.

Lemma quiet_fates b fs c c' : quiet c c' -> fates b fs [] c -> fates b fs [] c'.
Proof. intros (_ & E1 & E2 & E3 & _). apply fates_same; [done|unfold got; by rewrite E2|by rewrite E1]. Qed.

Lemma rejected_fates b fs c c' : rejected c c' -> fates b fs [] c -> fates b fs [] c'.
Proof. intros (_ & E1 & E2 & _ & E3). apply fates_same; [done|done|by rewrite E1]. Qed.

Lemma close_fates b fs c : waits (waiting c) -> fates b fs [] c -> fates b fs [] (close c).
Proof. intros W H. eapply rejected_fates; [by apply close_rejected|]. by apply (fates_same b fs c). Qed.

Lemma emit_error_fates b fs t c : fates b fs [] c -> fates b fs [] (emit_error t c).
Proof. unfold emit_error. cbn [emit]. destruct (errorListener (status c)); by apply fates_same. Qed.

Lemma data_handler_fates b fs f c : fates b fs [] c -> fates b fs [] (fst (handleDataFrame f c)).
Proof. unfold handleDataFrame. repeat case_match; by apply fates_same. Qed.

Lemma greet_fates b fs h o c :
  waits (waiting c) -> sound (greet h o c) -> fates b fs [] c -> fates b fs [] (greet h o c).
Proof.
  intros W S H. assert (F : forall t c', greet h o c = failed t c' -> fates b fs [] (greet h o c)).
  { intros t c' E. exfalso. destruct S as [_ S]. apply (S t). by rewrite E. }
  revert F. unfold greet. case_match; intros F; [by destruct (sendFrame _ _ _ _); eapply F|]. case_match; [by eapply F|].
  pose proof (sendFrame_quiet HELLO_ACK (hello_ack o true None) 0 c) as Q.
  destruct (sendFrame _ _ _ c) as [c'|]; [|by eapply F]. cbn zeta in *. set (c2 := log_event _ _) in *. unfold accept in *.
  set (c3 := set_inbox _ c2) in *. destruct (each dispatchFrame _ c3) as [c4 [t|]] eqn:E; [by eapply F|].
  eapply drain_fates; [exact E|done|]. destruct (quiet_fates b fs c c' Q H) as [B1 B2 B3 B4].
  constructor; cbn in *; [done|by rewrite app_nil_r|done|done].
Qed.

Lemma resume_fates b fs c : waits (waiting c) -> sound (resume c) -> fates b fs [] c -> fates b fs [] (resume c).
Proof.
  intros W S H. revert S. unfold resume. destruct (handshakeState (status c)); try done.
  destruct (List.find _ _) as [[? [f|r]]|]; [|intros _; apply (fates_same b fs (close c)); [done..|by apply close_fates]|done].
  unfold shake. intros S. assert (F : forall t c', ~ sound (failed t c')) by (intros t c' [_ X]; by apply (X t)).
  destruct (body_of f) as [[| | | | |o]|t]; try (by destruct (F _ _ S)); by apply greet_fates.
Qed.

(** The bytes of the control pipe in a run. *)
Definition control_chunks (ops : list Op) : list bytes := omap (fun op => match op with OpControl c => Some c | _ => None end) ops.

Lemma step_fates b fs op c :
  waits (waiting c) -> sound (step c op) -> fates b fs [] c ->
  match op with
  | OpControl chunk =>
      forall b' fs', push PLUGIN_RUNTIME_MAX_CONTROL_PAYLOAD_BYTES b chunk = (b', Ok fs') -> fates b' (fs ++ fs') [] (step c op)
  | _ => fates b fs [] (step c op)
  end.
Proof.
  intros W S H. assert (A : forall r, quietly r c -> fates b fs [] (attempt c r)).
  { intros r Hr. eapply quiet_fates; [by apply attempt_quiet|done]. }
  destruct op; cbn [step] in *.
  - intros b' fs' E. revert S. unfold onControl. rewrite (fa_buffer _ _ _ _ H), E. cbn zeta. set (c1 := set_inbox _ c).
    assert (H1 : fates b' fs [] c1) by (destruct H; by constructor).
    destruct (each dispatchFrame fs' c1) as [c2 [t|]] eqn:E2; cbn [throw_to_process]; intros S.
    + destruct S as [S _]. cbn in S. by apply app_eq_nil in S as [_ S].
    + by eapply each_fates.
  - clear S. unfold onData. destruct (push _ _ _) as [b' r]. cbn zeta. set (c1 := set_inbox _ c).
    assert (H1 : fates b fs [] c1) by (destruct H; by constructor). destruct r as [l|e]; [|by apply emit_error_fates].
    clearbody c1. clear H A W. revert c1 H1. induction l as [|f l IH]; intros c1 H1; [done|]. cbn [each].
    pose proof (data_handler_fates b fs f c1 H1) as H2. destruct (handleDataFrame f c1) as [c2 [t|]]; [by apply (fates_same b fs c2)|by apply IH].
  - by apply resume_fates.
  - unfold timeout. destruct (List.find _ _) as [x|]; [|done]. by eapply rejected_fates, H; apply settle_reject.
  - unfold ping, nextRequestId. cbn zeta. set (c1 := set_waiting _ _).
    match goal with |- context [sendFrame PING ?b ?r c1] => pose proof (sendFrame_quiet PING b r c1) as Q;
      destruct (sendFrame PING b r c1) as [c2|]; [|done] end.
    cbn [obind attempt]. assert (H2 : fates b fs [] c2) by (eapply quiet_fates; [exact Q|]; by apply (fates_same b fs c)).
    unfold waitForFrame. destruct (closed (status c2)); apply (fates_same b fs c2); try done.
    unfold got. cbn. by rewrite omap_app, app_nil_r.
  - apply A, guard_quiet, sendFrame_quiet.
  - apply A, guard_quiet, sendFrame_quiet.
  - apply A, respond_quiet.
  - apply A, guard_quiet, sendFrame_quiet.
  - apply A, guard_quiet, sendFrame_quiet.
  - apply A, guard_quiet, sendFrame_quiet.
  - apply A, graph_quiet.
  - unfold terminate. destruct (closed (status c)); [done|]. destruct (exitCode (status c)); [by apply (fates_same b fs c)|].
    match goal with |- context [sendFrame TERMINATE ?b ?r c] => pose proof (sendFrame_quiet TERMINATE b r c) as Q;
      destruct (sendFrame TERMINATE b r c) as [c2|]; [|done] end. by eapply quiet_fates.
  - by apply close_fates.
  - unfold onChildError. cbn zeta. apply emit_error_fates. set (c1 := set_status _ c).
    pose proof (reject_all ChildFailed c1 W) as (_ & _ & R). eapply rejected_fates; [exact R|]. by apply (fates_same b fs c).
  - unfold onExit. cbn zeta. set (c1 := set_status _ c). pose proof (reject_all RuntimeExited c1 W) as (_ & _ & R).
    apply (fates_same b fs (rejectAllWaiters RuntimeExited c1)); [done|done|done|].
    eapply rejected_fates; [exact R|]. by apply (fates_same b fs c).
  - by apply (fates_same b fs c).
Qed.

Lemma run_fates ops b fs c b' fss :
  waits (waiting c) -> sound (run c ops) -> fates b fs [] c ->
  pushes PLUGIN_RUNTIME_MAX_CONTROL_PAYLOAD_BYTES b (control_chunks ops) = (b', map Ok fss) ->
  fates b' (fs ++ concat fss) [] (run c ops).
Proof.
  revert b fs c fss. induction ops as [|op ops IH]; intros b fs c fss W S H E.
  { cbn in E. injection E as <- E. destruct fss; [|done]. by rewrite app_nil_r. }
  pose proof (step_waits op c W) as W'. assert (S' : sound (step c op)) by (by eapply grows_sound; [apply client_grows|exact S]).
  pose proof (step_fates b fs op c W S' H) as F. unfold control_chunks in E. cbn [omap list_omap] in E. fold (control_chunks ops) in E.
  destruct op; try (by eapply IH). cbn [pushes] in E.
  destruct (push _ b chunk) as [b1 o] eqn:E1. destruct (pushes _ b1 (control_chunks ops)) as [b2 os] eqn:E2.
  injection E as <- E. destruct fss as [|fs1 fss]; [done|]. injection E as -> ->.
  cbn [concat]. rewrite app_assoc. by eapply IH; [| |apply F|].
Qed.

(** C26: however the bytes of the control pipe are cut and whatever else
    happens in between, as long as no handler throws and the handshake does not
    fail, every frame that the runtime sent was handled, waits for the end of the
    handshake or settled a waiter, each once; the handled ones and the waiting ones
    keep their order, and nothing waits once the client is connected. *)
Theorem frames_reach_host epoch ops fs ws tail :
  let c := run (start epoch) ops in
  Forall2 (framed PLUGIN_RUNTIME_MAX_CONTROL_PAYLOAD_BYTES) fs ws ->
  tail = [] \/ (exists f w more, framed PLUGIN_RUNTIME_MAX_CONTROL_PAYLOAD_BYTES f w /\ w = tail ++ more /\ more <> []) ->
  concat (control_chunks ops) = concat ws ++ tail ->
  sound c ->
  (handled (inbox c) ++ preHandshake (inbox c)) `sublist_of` fs /\
  handled (inbox c) ++ preHandshake (inbox c) ++ got c ≡ₚ fs /\
  (connected (status c) = true -> preHandshake (inbox c) = []).
Proof.
  intros c Hf Ht E S. destruct (frames_delivered PLUGIN_RUNTIME_MAX_CONTROL_PAYLOAD_BYTES fs ws tail _ ltac:(done) Hf Ht E) as (_ & fss & Hp & Hc).
  assert (F : fates [] [] [] (start epoch)) by (constructor; done).
  pose proof (run_fates ops [] [] (start epoch) tail fss (start_waits epoch) S F Hp) as [_ H1 H2 H3].
  cbn [app] in *. by rewrite Hc in H1, H2.
Qed.

(** The frames whose body the client decodes. *)
Definition decodes (ty : Z) : bool :=
  existsb (Z.eqb ty) [TELEMETRY; WORKER_READY; WORKER_TERMINATED; RPC_REQUEST; BRIDGE_MESSAGE; FATAL_DIAGNOSTIC; ERROR].

Lemma handle_undecodable f c t : body_of f = Throw t -> decodes (frameType (header f)) = true -> handleFrame f c = Throw t.
Proof.
  intros E D. unfold decodes in D. apply existsb_exists in D as (ty & Hty & D). apply Z.eqb_eq in D.
  unfold handleFrame. rewrite E, D. cbn [In] in Hty. by repeat destruct Hty as [<-|Hty].
Qed.

(** The two ends of the pipe disagree on what a control body may be:
    a body that the sender encodes, of at most 64 KiB, but that is nested deeper
    than 64 or holds a longer string than 32 KiB, throws in the handler of the pipe
    of the receiver, where nothing catches it. *)
Theorem refused_body_escapes c f w body :
  wf body -> encodeControlBody body = Ok (payload f) -> bounded 0 body = false ->
  framed PLUGIN_RUNTIME_MAX_CONTROL_PAYLOAD_BYTES f w -> decodes (frameType (header f)) = true ->
  connected (status c) = true -> controlBuffer (inbox c) = [] -> waiters (waiting c) = [] ->
  exists e, (e = DECODE_DEPTH \/ e = DECODE_STRING) /\
    uncaught (effects (step c (OpControl w))) = uncaught (effects c) ++ [Protocol e].
Proof.
  intros Hwf Hb Hn Hf Hd Hc Hbuf Hw. pose proof (control_body_read body Hwf) as R. rewrite Hb, Hn in R. destruct R as [_ R].
  assert (R' : exists e, (e = DECODE_DEPTH \/ e = DECODE_STRING) /\ decodeControlBody (N := N) (payload f) = Throw e) by naive_solver.
  destruct R' as (e & He & R'). exists e. split; [done|].
  assert (P : push PLUGIN_RUNTIME_MAX_CONTROL_PAYLOAD_BYTES [] w = ([], Ok [f])).
  { rewrite push_frames by done. cbn [app]. by rewrite <-(app_nil_r w), (frames_framed _ f) by done. }
  cbn [step]. unfold onControl. rewrite Hbuf, P. cbn zeta. set (c1 := set_inbox _ c).
  assert (E : dispatchFrame f c1 = (mark_handled f c1, Some (Protocol e))).
  2:{ cbn [each]. by rewrite E. }
  unfold dispatchFrame. replace (waiters (waiting c1)) with (@nil (nat * Predicate)) by done. cbn [List.find].
  replace (connected (status c1)) with true by done. cbn [negb].
  rewrite (handle_undecodable f _ (Protocol e)); [done| |done]. unfold body_of. by rewrite R'.
Qed.

End Client.

(** ** Concrete runs *)

Definition w_frame (ty rid : Z) (body : json Z) : bytes :=
  match encodeControlFrame (MkHeader 1 ty 0 1 0 0 rid 0) body with Ok b => b | Throw _ => [] end.
Definition w_hello : json Z := JObj [(lit "protocolVersion", JNum 1); (lit "runtimeEpoch", JNum 1); (lit "pid", JNum 7)].
Definition w_sent (ty rid : Z) (body : json Z) : Frame :=
  match decodeDataFrame (w_frame ty rid body) with Ok f => f | Throw _ => MkFrame (MkHeader 1 ty 0 1 0 0 rid 0) [] end.
Definition w_note : json Z := JObj [(lit "message", JNull)].
Definition w_ops : list (Op (N := Z)) :=
  [OpControl (take 40 (w_frame HELLO 0 w_hello)); OpControl (drop 40 (w_frame HELLO 0 w_hello) ++ w_frame BRIDGE_MESSAGE 0 w_note);
   OpResume; OpPing; OpControl (w_frame TELEMETRY 0 (JObj []) ++ w_frame PONG 1 (JObj [])); OpControl (take 7 (w_frame PONG 2 w_note))].

Lemma frames_reach_host_witness :
  let c := run (start 1) w_ops in
  (handled (inbox c) ++ preHandshake (inbox c)) `sublist_of`
    [w_sent HELLO 0 w_hello; w_sent BRIDGE_MESSAGE 0 w_note; w_sent TELEMETRY 0 (JObj []); w_sent PONG 1 (JObj [])] /\
  handled (inbox c) ++ preHandshake (inbox c) ++ got c ≡ₚ
    [w_sent HELLO 0 w_hello; w_sent BRIDGE_MESSAGE 0 w_note; w_sent TELEMETRY 0 (JObj []); w_sent PONG 1 (JObj [])] /\
  (connected (status c) = true -> preHandshake (inbox c) = []).
Proof.
  apply (frames_reach_host 1 w_ops
    [w_sent HELLO 0 w_hello; w_sent BRIDGE_MESSAGE 0 w_note; w_sent TELEMETRY 0 (JObj []); w_sent PONG 1 (JObj [])]
    [w_frame HELLO 0 w_hello; w_frame BRIDGE_MESSAGE 0 w_note; w_frame TELEMETRY 0 (JObj []); w_frame PONG 1 (JObj [])]
    (take 7 (w_frame PONG 2 w_note))).
  - repeat constructor; vm_compute; congruence.
  - right. exists (w_sent PONG 2 w_note), (w_frame PONG 2 w_note), (drop 7 (w_frame PONG 2 w_note)).
    split_and!; [repeat split; vm_compute; congruence | by rewrite take_drop | vm_compute; congruence].
  - vm_compute. reflexivity.
  - split; vm_compute; congruence.
Defined.

Definition w_connected : Client (N := Z) := run (start 1) [OpControl (w_frame HELLO 0 w_hello); OpResume].

(** A call of a plugin whose argument is an array in 66 arrays. *)
Definition w_deep : json Z := Nat.iter 66 (fun v => JArr [v]) JNull.
Definition w_call : json Z := JObj [(lit "workerId", JNum 3); (lit "call", JObj [(lit "args", w_deep)])].

Lemma refused_body_escapes_witness :
  exists e, (e = DECODE_DEPTH \/ e = DECODE_STRING) /\
    uncaught (effects (step w_connected (OpControl (w_frame RPC_REQUEST 0 w_call)))) = uncaught (effects w_connected) ++ [Protocol e].
Proof.
  apply (refused_body_escapes w_connected (w_sent RPC_REQUEST 0 w_call) (w_frame RPC_REQUEST 0 w_call) w_call).
  - cbn [wf w_call jint]. repeat match goal with
    | |- _ /\ _ => split
    | |- NoDup _ => apply (bool_decide_unpack _); vm_compute; exact I
    | |- _ => vm_compute; solve [reflexivity | tauto]
    end.
  - vm_compute. reflexivity.
  - vm_compute. reflexivity.
  - repeat split; vm_compute; congruence.
  - vm_compute. reflexivity.
  - vm_compute. reflexivity.
  - vm_compute. reflexivity.
  - vm_compute. reflexivity.
Defined.

(** A response with 16000 ideographs passes the check for the control path, which
    counts UTF-16 units, and is refused by the decoder, which counts bytes. *)
Example response_refused :
  let body := JObj [(lit "requestId", JStr (lit "r")); (lit "result", JStr (repeat 20013 16000))] in
  rpcResponseFitsControl (N := Z) body = true /\
  obind (encodeControlBody body) decodeControlBody = @Throw _ (json Z) DECODE_STRING.
Proof. vm_compute. done. Qed.

(** An error frame of the runtime is thrown when nobody listens. *)
Example error_frame_escapes :
  uncaught (effects (step w_connected (OpControl (w_frame ERROR 0 (JObj [(lit "code", JStr (lit "X"))]))))) = [ErrorFrame] /\
  uncaught (effects (run w_connected [OpListen; OpControl (w_frame ERROR 0 (JObj [(lit "code", JStr (lit "X"))]))])) = [].
Proof. vm_compute. done. Qed.

(** A batch of log records that is malformed is not even reported, so that nobody
    acknowledges it. *)
Example malformed_batch_dropped :
  step w_connected (OpControl (w_frame LOG_BATCH 0 (JObj [(lit "seq", JNum (-1))]))) =
  mark_handled (w_sent LOG_BATCH 0 (JObj [(lit "seq", JNum (-1))])) w_connected.
Proof. vm_compute. done. Qed.

End RuntimeClient.
