(* ===== verification/HostNetwork.v ===== *)
(** * The network policy of the plugin host
    (apps/plugin-runtime/src/host/memoryHost.ts: addresses, destinations, requests)

    Requests of plugins leave through the host.  A request is a program that looks
    names up and fetches; what the outside answers is an argument, and the trace of
    its lookups and requests is what the theorems are about.  The parser of URLs, the
    resolver of names and the transport are parameters: they belong to the platform. *)

From Stdlib Require Import ZArith Lia Bool Ascii String List.
From stdpp Require Import base decidable list.
From S2P Require Import Prelude.
Local Open Scope Z_scope.

Module HostNetwork.

(** ** Addresses *)

Inductive Classification := Public | Local | Private | Metadata.
#[export] Instance Classification_eq_dec : EqDecision Classification.
Proof. solve_decision. Defined.

(** [\d{1,3}] *)
Definition short_number (w : list ascii) : bool :=
  (1 <=? length w)%nat && (length w <=? 3)%nat && forallb is_digit w.

(** [/^(\d{1,3})\.(\d{1,3})\.(\d{1,3})\.(\d{1,3})$/]: the numbers of the groups. *)
Definition match_v4 (ip : list ascii) : option (list Z) :=
  let ws := split_on "." ip in
  if (length ws =? 4)%nat && forallb short_number ws then Some (map digits_val ws) else None.

Definition classify_v4 (g : list Z) : Classification :=
  let a := nth 0 g 0 in
  let b := nth 1 g 0 in
  let c := nth 2 g 0 in
  if (a =? 127) || (a =? 0) then Local
  else if (a =? 169) && (b =? 254) && ((c =? 169) || (c =? 170)) then Metadata
  else if a =? 10 then Private
  else if (a =? 172) && (16 <=? b) && (b <=? 31) then Private
  else if (a =? 192) && (b =? 168) then Private
  else if (a =? 169) && (b =? 254) then Private
  else if 224 <=? a then Private
  else Public.

(** [toLowerCase] on the characters of the model. *)
Definition lower_char (c : ascii) : ascii :=
  let n := code c in
  if is_upper c || ((192 <=? n) && (n <=? 222) && negb (n =? 215)) then ascii_of_N (Z.to_N (n + 32)) else c.

(** [s.split(':').pop()] *)
Definition after_last_colon (s : list ascii) : list ascii := List.last (split_on ":" s) [].

(** One call of the function, with the call on the mapped address as an argument. *)
Definition classify_call (again : list ascii -> Classification) (ip : list ascii) : Classification :=
  match match_v4 ip with
  | Some g => classify_v4 g
  | None =>
      let lower := map lower_char ip in
      if bool_decide (lower = chars "::1") then Local
      else if bool_decide (lower = chars "::") then Local
      else if starts_with (chars "fe80") lower then Private
      else if starts_with (chars "fc") lower || starts_with (chars "fd") lower then Private
      else if bool_decide (lower = chars "::") || starts_with (chars "::ffff:") lower then again (after_last_colon lower)
      else Public
  end.

Fixpoint classify_fuel (fuel : nat) (ip : list ascii) : Classification :=
  match fuel with
  | O => Public
  | S f => classify_call (classify_fuel f) ip
  end.

(** The mapped address holds no colon, so that a call makes at most one other. *)
Definition classifyAddress (ip : string) : Classification := classify_fuel 2 (chars ip).

(** ** Scopes and destinations *)

Record NetworkScope := MkScope { scopeLocal : bool; scopePrivate : bool; scopeMetadata : bool }.

Definition NETWORK_SCOPE_LOCAL : string := "network.local".
Definition NETWORK_SCOPE_PRIVATE : string := "network.private".
Definition NETWORK_SCOPE_METADATA : string := "network.metadata".

(** The grants of the plugins, a set of capability names for each. *)
Abbreviation Grants := (list (string * list string)).

Definition granted (grants : Grants) (pluginId capability : string) : bool :=
  match map_get pluginId grants with Some set => mem capability set | None => false end.

(** [options.networkScopeProvider], or the scope that the grants give. *)
Definition scopeProvider (networkScopeProvider : option (string -> NetworkScope)) (grants : Grants) (pluginId : string) : NetworkScope :=
  match networkScopeProvider with
  | Some provider => provider pluginId
  | None => MkScope (granted grants pluginId NETWORK_SCOPE_LOCAL) (granted grants pluginId NETWORK_SCOPE_PRIVATE)
              (granted grants pluginId NETWORK_SCOPE_METADATA)
  end.

(** What a call is rejected with: an error with a code of the protocol, or an error
    of the platform. *)
Inductive Error := BrokerCallError (errorCode : string) | Raised (what : string).

Definition admits (scope : NetworkScope) (c : Classification) : bool :=
  match c with
  | Public => true
  | Local => scopeLocal scope
  | Metadata => scopeMetadata scope
  | Private => scopePrivate scope
  end.

Definition looksLikeIp (hostname : string) : bool :=
  existsb (fun c => (c =? ":")%char) (chars hostname) || match match_v4 (chars hostname) with Some _ => true | None => false end.

(** ** Requests *)

Record Url := MkUrl { protocol : string; hostname : string; origin : string }.

Inductive Method := GET | POST | PUT | PATCH | DELETE | HEAD.
#[export] Instance Method_eq_dec : EqDecision Method.
Proof. solve_decision. Defined.

Abbreviation Headers := (list (string * string)).

(** [body]: absent when [undefined] or [null]. *)
Record SdkNetworkFetchArgs := MkArgs {
  url : string;
  method : option Method;
  headers : option Headers;
  body : option string;
  manualRedirect : bool;
  secretId : option string
}.

Record RequestInit := MkInit { initMethod : Method; initHeaders : Headers; initBody : option string }.

(** The headers of a response by their names in lower case; the text may fail to
    arrive. *)
Record Response := MkResponse {
  status : Z;
  statusText : string;
  respHeaders : Headers;
  text : outcome Error string
}.

Record SdkNetworkFetchResult := MkResult {
  resStatus : Z;
  resStatusText : string;
  resHeaders : Headers;
  resBody : string;
  resUrl : string;
  resRedirects : list string
}.

Definition NETWORK_MAX_REDIRECTS : nat := 8.
Definition NETWORK_MAX_HEADERS : nat := 32.
Definition NETWORK_MAX_BODY_BYTES : Z := 8 * 1024 * 1024.

(** A secret with the origin it is bound to; the handles that are live, with their
    plugins, and the configured ones. *)
Record NetworkSecret := MkSecret { secretOrigin : string; secretHeaders : Headers }.
Abbreviation LiveSecrets := (list (string * (string * NetworkSecret))).

(** Assignments to the keys of an object: [{...a, ...b}]. *)
Definition spread (a b : Headers) : Headers := fold_left (fun o (kv : string * string) => map_set kv.1 kv.2 o) b a.

(** ** Programs that look up and fetch *)

Inductive Event :=
| Looked (name : string) (answer : outcome Error (list string))
| Fetched (target : string) (init : RequestInit).

(** The trace so far, and what the call returns or throws. *)
Definition M (A : Type) : Type := list Event -> list Event * outcome Error A.
Definition ret {A} (a : A) : M A := fun tr => (tr, Ok a).
Definition fail {A} (e : Error) : M A := fun tr => (tr, Throw e).
Definition bind {A B} (m : M A) (k : A -> M B) : M B :=
  fun tr => match m tr with (tr', Ok a) => k a tr' | (tr', Throw e) => (tr', Throw e) end.
Declare Scope net_scope.
Delimit Scope net_scope with net.
Notation "'let!' x ':=' m 'in' k" := (bind m (fun x => k)) (at level 10, x pattern, m at level 100, k at level 200) : net_scope.
Local Open Scope net_scope.

Section Network.

(** [new URL(u)], [new URL(u, base).toString()]; the answers of the resolver and of
    the transport, by the number of interactions before. *)
Context (parseUrl : string -> option Url) (resolveUrl : string -> string -> option string).
Context (dnsLookup : nat -> string -> outcome Error (list string)).
Context (transport : nat -> string -> RequestInit -> outcome Error Response).

Definition lookup_name (name : string) : M (list string) :=
  fun tr => let answer := dnsLookup (length tr) name in (tr ++ [Looked name answer], answer).
Definition fetchImpl (target : string) (init : RequestInit) : M Response :=
  fun tr => (tr ++ [Fetched target init], transport (length tr) target init).

Fixpoint check_all (isRedirect : bool) (scope : NetworkScope) (ips : list string) : M unit :=
  match ips with
  | [] => ret tt
  | ip :: rest =>
      if admits scope (classifyAddress ip) then check_all isRedirect scope rest
      else fail (BrokerCallError (if isRedirect then "NETWORK_REDIRECT_DENIED" else "NETWORK_DESTINATION_DENIED"))
  end.

Definition checkDestination (host : string) (isRedirect : bool) (scope : NetworkScope) : M unit :=
  let! ips := (if looksLikeIp host then ret [host] else lookup_name host) in
  check_all isRedirect scope ips.

(** The secret of a request and the origin it is bound to. *)
Definition resolveSecret (liveSecrets : LiveSecrets) (networkSecrets : list (string * NetworkSecret)) (args : SdkNetworkFetchArgs)
    (pluginId : string) : outcome Error (option (NetworkSecret * string)) :=
  match secretId args with
  | None => Ok None
  | Some id =>
      if starts_with (chars "sec-") (chars id) then
        match map_get id liveSecrets with
        | Some (owner, secret) =>
            if bool_decide (owner = pluginId) then Ok (Some (secret, secretOrigin secret))
            else Throw (BrokerCallError "NETWORK_SECRET_NOT_FOUND")
        | None => Throw (BrokerCallError "NETWORK_SECRET_NOT_FOUND")
        end
      else
        match map_get id networkSecrets with
        | None => Throw (BrokerCallError "NETWORK_SECRET_NOT_FOUND")
        | Some secret =>
            match parseUrl (secretOrigin secret) with
            | Some u => Ok (Some (secret, origin u))
            | None => Throw (BrokerCallError "NETWORK_SECRET_INVALID")
            end
        end
  end.

Definition responseEnvelope (resp : Response) (finalUrl : string) (redirects : list string) : M SdkNetworkFetchResult :=
  match text resp with
  | Throw e => fail e
  | Ok raw =>
      ret (MkResult (status resp) (statusText resp) (spread [] (take NETWORK_MAX_HEADERS (respHeaders resp)))
             (if NETWORK_MAX_BODY_BYTES <? strlen raw then str (take (Z.to_nat NETWORK_MAX_BODY_BYTES) (chars raw)) else raw)
             finalUrl redirects)
  end.

Section Fetch.
Context (scope : NetworkScope) (secret : option (NetworkSecret * string)) (args : SdkNetworkFetchArgs).

Definition method_of : Method := match method args with Some m => m | None => GET end.
Definition plain_headers : Headers := match headers args with Some h => h | None => [] end.

(** The headers of a hop: those of the secret only inside its origin. *)
Definition hopHeaders (parsed : Url) : Headers :=
  match secret with
  | Some (s, o) => if bool_decide (origin parsed = o) then spread plain_headers (secretHeaders s) else plain_headers
  | None => plain_headers
  end.

Definition init_of (parsed : Url) : RequestInit :=
  MkInit method_of (hopHeaders parsed)
    (if bool_decide (method_of = GET) || bool_decide (method_of = HEAD) then None else body args).

Definition is_http (parsed : Url) : bool := String.eqb (protocol parsed) "http:" || String.eqb (protocol parsed) "https:".
Definition denial (isRedirectHop : bool) : string :=
  if isRedirectHop then "NETWORK_REDIRECT_DENIED" else "NETWORK_DESTINATION_DENIED".

Definition mismatched (isRedirectHop : bool) (parsed : Url) : bool :=
  match secret with Some (_, o) => negb isRedirectHop && negb (bool_decide (origin parsed = o)) | None => false end.

(** Where a response sends the request on: [status >= 300 && status < 400 &&
    location !== null]. *)
Definition location (resp : Response) : option string :=
  if (300 <=? status resp) && (status resp <? 400) then map_get "location"%string (respHeaders resp) else None.

(** The loop over the hops; [n] of them are left. *)
Fixpoint hops (n : nat) (isRedirectHop : bool) (currentUrl : string) (redirects : list string) : M SdkNetworkFetchResult :=
  match n with
  | O => fail (BrokerCallError "NETWORK_REDIRECT_DENIED")
  | S n' =>
      match parseUrl currentUrl with
      | None => fail (BrokerCallError "VALIDATION_FAILED")
      | Some parsed =>
          if negb (is_http parsed) then fail (BrokerCallError (denial isRedirectHop))
          else
            let! _ := checkDestination (hostname parsed) isRedirectHop scope in
            if mismatched isRedirectHop parsed then fail (BrokerCallError "NETWORK_SECRET_ORIGIN_MISMATCH")
            else
              let! resp := fetchImpl currentUrl (init_of parsed) in
              match location resp with
              | Some l =>
                  if manualRedirect args then responseEnvelope resp currentUrl redirects
                  else
                    match resolveUrl l currentUrl with
                    | None => fail (Raised "TypeError")
                    | Some nextUrl => hops n' true nextUrl (redirects ++ [nextUrl])
                    end
              | None => responseEnvelope resp currentUrl redirects
              end
      end
  end.
End Fetch.

Definition performFetch (networkScopeProvider : option (string -> NetworkScope)) (grants : Grants) (liveSecrets : LiveSecrets) (networkSecrets : list (string * NetworkSecret))
    (args : SdkNetworkFetchArgs) (pluginId : string) : M SdkNetworkFetchResult :=
  match resolveSecret liveSecrets networkSecrets args pluginId with
  | Throw e => fail e
  | Ok secret => hops (scopeProvider networkScopeProvider grants pluginId) secret args (S NETWORK_MAX_REDIRECTS) false (url args) []
  end.
End Network.

(** ** Binding a local address *)

Definition checkBind (grants : Grants) (host pluginId : string) : outcome Error unit :=
  if String.eqb host "0.0.0.0" || String.eqb host "::" then Throw (BrokerCallError "POLICY_DENIED")
  else if bool_decide (classifyAddress host = Local) then Ok tt
  else if granted grants pluginId "network.listen.public" then Ok tt
  else Throw (BrokerCallError "POLICY_DENIED").

(** ** Classification by prefixes *)

Lemma classify_call_deep g h s : ":"%char ∉ s -> classify_call g s = classify_call h s.
Proof.
  intros Hs. unfold classify_call. destruct (match_v4 s); [done|].
  assert (E : starts_with (chars "::ffff:") (map lower_char s) = false).
  { destruct s as [|c s]; [done|]. cbn [map]. change (chars "::ffff:") with (":"%char :: chars ":ffff:"). cbn [starts_with].
    replace (":" =? lower_char c)%char with false; [done|]. symmetry. apply Ascii.eqb_neq. intros E.
    apply not_elem_of_cons in Hs as [Hc _]. apply Hc. clear -E. revert E. by destruct c as [[] [] [] [] [] [] [] []]. }
  rewrite E. by repeat (case_bool_decide; try done).
Qed.

Lemma after_last_colon_clean s : ":"%char ∉ after_last_colon s.
Proof.
  unfold after_last_colon. pose proof (split_on_clean ":" s) as H.
  induction H as [|w ws Hw H IH]; [by intros ?%elem_of_nil|]. cbn [List.last]. by destruct ws.
Qed.

Lemma classify_call_ext g h s :
  g (after_last_colon (map lower_char s)) = h (after_last_colon (map lower_char s)) -> classify_call g s = classify_call h s.
Proof. unfold classify_call. destruct (match_v4 s); [done|]. by intros ->. Qed.

(** The fuel is enough: the function calls itself as the source does. *)
Lemma classify_step ip :
  classifyAddress ip = classify_call (fun m => classifyAddress (str m)) (chars ip).
Proof.
  apply (classify_call_ext (classify_fuel 1)). unfold classifyAddress. rewrite chars_str.
  apply classify_call_deep, after_last_colon_clean.
Qed.

(** The address as a number, and the prefixes of the documented policy in their order:
    the endpoints of cloud metadata are two addresses. *)
Definition ip4 (a b c d : Z) : Z := ((a * 256 + b) * 256 + c) * 256 + d.
Definition dotted (a b c d : Z) : string := str (join "." [dec a; dec b; dec c; dec d]).

Definition DOCUMENTED : list (Z * Z * Classification) :=
  [(ip4 127 0 0 0, 8, Local); (ip4 0 0 0 0, 8, Local);
   (ip4 169 254 169 254, 32, Metadata); (ip4 169 254 170 2, 32, Metadata);
   (ip4 10 0 0 0, 8, Private); (ip4 172 16 0 0, 12, Private); (ip4 192 168 0 0, 16, Private);
   (ip4 169 254 0 0, 16, Private); (ip4 224 0 0 0, 3, Private)].

(** [n] lies in [net]/[len]. *)
Definition in_prefix (n net len : Z) : bool := Z.shiftr n (32 - len) =? Z.shiftr net (32 - len).

Fixpoint first_prefix (n : Z) (table : list (Z * Z * Classification)) : Classification :=
  match table with
  | [] => Public
  | (net, len, c) :: rest => if in_prefix n net len then c else first_prefix n rest
  end.

(** The neighbours of the endpoints, which the code takes for endpoints as well. *)
Definition beside_endpoint (n : Z) : bool := in_prefix n (ip4 169 254 169 0) 24 || in_prefix n (ip4 169 254 170 0) 24.

Lemma byte_word n : 0 <= n < 256 -> short_number (dec n) = true /\ digits_val (dec n) = n /\ "."%char ∉ dec n.
Proof.
  intros Hn. destruct (dec_spec n) as [Hv Hd]; [lia|]. split_and!; [|done|].
  - unfold short_number. rewrite Hd, andb_true_r.
    assert (H : forallb (fun k => (1 <=? length (dec (Z.of_nat k)))%nat && (length (dec (Z.of_nat k)) <=? 3)%nat) (seq 0 256) = true)
      by (vm_compute; reflexivity).
    rewrite forallb_forall in H. specialize (H (Z.to_nat n)). rewrite Z2Nat.id in H by lia. apply H, in_seq. lia.
  - intros Hi%elem_of_In. rewrite forallb_forall in Hd. by specialize (Hd _ Hi).
Qed.

Lemma match_dotted a b c d :
  0 <= a < 256 -> 0 <= b < 256 -> 0 <= c < 256 -> 0 <= d < 256 -> match_v4 (chars (dotted a b c d)) = Some [a; b; c; d].
Proof.
  intros [Sa [Va Na]]%byte_word [Sb [Vb Nb]]%byte_word [Sc [Vc Nc]]%byte_word [Sd [Vd Nd]]%byte_word.
  unfold match_v4, dotted. rewrite chars_str, split_join by (done || by repeat constructor).
  cbn [length forallb map]. by rewrite Sa, Sb, Sc, Sd, Va, Vb, Vc, Vd.
Qed.

(** The same address, mapped. *)
Definition digit_or_dot (c : ascii) : bool := is_digit c || (c =? ".")%char.

Lemma dotted_chars a b c d :
  0 <= a < 256 -> 0 <= b < 256 -> 0 <= c < 256 -> 0 <= d < 256 -> forallb digit_or_dot (chars (dotted a b c d)) = true.
Proof.
  intros Ha Hb Hc Hd.
  assert (D : forall n, 0 <= n < 256 -> forallb digit_or_dot (dec n) = true).
  { intros n Hn. destruct (dec_spec n) as [_ H]; [lia|]. rewrite forallb_forall in H |- *. intros x Hx.
    unfold digit_or_dot. by rewrite (H x Hx). }
  unfold dotted. rewrite chars_str. cbn [join]. rewrite !forallb_app. cbn [forallb]. rewrite !forallb_app. cbn [forallb].
  rewrite !forallb_app. cbn [forallb]. by rewrite !D.
Qed.

Lemma mapped_unmatched a b c d :
  0 <= a < 256 -> 0 <= b < 256 -> 0 <= c < 256 -> 0 <= d < 256 -> match_v4 (chars "::ffff:" ++ chars (dotted a b c d)) = None.
Proof.
  intros [Sa [Va Na]]%byte_word [Sb [Vb Nb]]%byte_word [Sc [Vc Nc]]%byte_word [Sd [Vd Nd]]%byte_word.
  unfold match_v4, dotted. rewrite chars_str.
  change (chars "::ffff:" ++ join "." [dec a; dec b; dec c; dec d]) with (join "." [chars "::ffff:" ++ dec a; dec b; dec c; dec d]).
  rewrite split_join; [|done|].
  - cbn [length forallb]. unfold short_number at 1. cbn [app chars list_ascii_of_string forallb].
    by rewrite andb_false_r.
  - repeat constructor; [|done..]. apply not_elem_of_app. split; [|done]. by apply (bool_decide_unpack _).
Qed.

Lemma lower_dotted l : forallb digit_or_dot l = true -> map lower_char l = l.
Proof.
  induction l as [|x l IH]; [done|]. cbn [forallb map]. intros [Hx Hl]%andb_true_iff. rewrite IH by done. f_equal.
  revert Hx. by destruct x as [[] [] [] [] [] [] [] []].
Qed.

Lemma mapped_tail l : forallb digit_or_dot l = true -> after_last_colon (chars "::ffff:" ++ l) = l.
Proof.
  intros Hl. unfold after_last_colon. cbn [app chars list_ascii_of_string split_on Ascii.eqb Bool.eqb].
  rewrite split_on_single; [done|]. intros Hc%elem_of_In. rewrite forallb_forall in Hl. by specialize (Hl _ Hc).
Qed.

Lemma classify_mapped again l :
  forallb digit_or_dot l = true -> match_v4 (chars "::ffff:" ++ l) = None -> classify_call again (chars "::ffff:" ++ l) = again l.
Proof.
  intros Hl Hm. unfold classify_call. rewrite Hm, map_app, (lower_dotted _ Hl).
  change (map lower_char (chars "::ffff:")) with (chars "::ffff:"). rewrite mapped_tail by done.
  cbv zeta. by rewrite !bool_decide_false by done.
Qed.

Ltac prefix_arith :=
  unfold in_prefix; rewrite !Z.shiftr_div_pow2 by done; unfold ip4; apply eq_true_iff_eq;
  rewrite ?andb_true_iff, !Z.eqb_eq, ?Z.leb_le; cbn; Z.to_euclidean_division_equations; lia.

Section Prefixes.
Context (a b c d : Z) (Ha : 0 <= a < 256) (Hb : 0 <= b < 256) (Hc : 0 <= c < 256) (Hd : 0 <= d < 256).

Lemma prefix8 k : 0 <= k < 256 -> in_prefix (ip4 a b c d) (ip4 k 0 0 0) 8 = (a =? k).
Proof. intros. prefix_arith. Qed.
Lemma prefix16 k l : 0 <= k < 256 -> 0 <= l < 256 -> in_prefix (ip4 a b c d) (ip4 k l 0 0) 16 = (a =? k) && (b =? l).
Proof. intros. prefix_arith. Qed.
Lemma prefix24 k l m : 0 <= k < 256 -> 0 <= l < 256 -> 0 <= m < 256 ->
  in_prefix (ip4 a b c d) (ip4 k l m 0) 24 = (a =? k) && (b =? l) && (c =? m).
Proof. intros. prefix_arith. Qed.
Lemma prefix32 k l m o : 0 <= k < 256 -> 0 <= l < 256 -> 0 <= m < 256 -> 0 <= o < 256 ->
  in_prefix (ip4 a b c d) (ip4 k l m o) 32 = (a =? k) && (b =? l) && (c =? m) && (d =? o).
Proof. intros. prefix_arith. Qed.
Lemma prefix172 : in_prefix (ip4 a b c d) (ip4 172 16 0 0) 12 = (a =? 172) && (16 <=? b) && (b <=? 31).
Proof. prefix_arith. Qed.
Lemma prefix224 : in_prefix (ip4 a b c d) (ip4 224 0 0 0) 3 = (224 <=? a).
Proof. prefix_arith. Qed.
End Prefixes.

(** C35: An IPv4 address written in the usual way is classified by the first
    prefix of the documented policy that holds it, and an address mapped into IPv6 and
    written with dots like the address itself, but for one deviation: every address of
    169.254.169.0/24 and 169.254.170.0/24 is taken for an endpoint of cloud metadata, where
    the documents name one in each, and have the others in the private class. *)
Theorem classification_by_prefix a b c d :
  0 <= a < 256 -> 0 <= b < 256 -> 0 <= c < 256 -> 0 <= d < 256 ->
  let n := ip4 a b c d in let documented := first_prefix n DOCUMENTED in
  (beside_endpoint n = false -> classifyAddress (dotted a b c d) = documented) /\
  (beside_endpoint n = true -> classifyAddress (dotted a b c d) = Metadata /\
     documented = if (n =? ip4 169 254 169 254) || (n =? ip4 169 254 170 2) then Metadata else Private) /\
  classifyAddress ("::ffff:" ++ dotted a b c d) = classifyAddress (dotted a b c d).
Proof.
  intros Ha Hb Hc Hd n documented.
  assert (E : classifyAddress (dotted a b c d) = classify_v4 [a; b; c; d]).
  { rewrite classify_step. unfold classify_call. by rewrite match_dotted. }
  rewrite E. unfold documented, n, beside_endpoint, DOCUMENTED. cbn [first_prefix].
  rewrite !prefix8, prefix172, !prefix16, !prefix24, !prefix32, prefix224 by lia. unfold classify_v4. cbn [nth]. split_and!.
  - destruct (a =? 127), (a =? 0), (a =? 169), (b =? 254), (c =? 169), (c =? 170), (a =? 10); cbn [andb orb]; try done; by repeat case_match.
  - intros [[[->%Z.eqb_eq ->%Z.eqb_eq]%andb_true_iff ->%Z.eqb_eq]%andb_true_iff|[[->%Z.eqb_eq ->%Z.eqb_eq]%andb_true_iff ->%Z.eqb_eq]%andb_true_iff]%orb_true_iff;
      (split; [done|]).
    + replace (ip4 169 254 169 d =? ip4 169 254 169 254) with (d =? 254) by (apply eq_true_iff_eq; rewrite !Z.eqb_eq; unfold ip4; lia).
      rewrite (proj2 (Z.eqb_neq (ip4 169 254 169 d) (ip4 169 254 170 2))) by (unfold ip4; lia). by destruct (d =? 254).
    + replace (ip4 169 254 170 d =? ip4 169 254 170 2) with (d =? 2) by (apply eq_true_iff_eq; rewrite !Z.eqb_eq; unfold ip4; lia).
      rewrite (proj2 (Z.eqb_neq (ip4 169 254 170 d) (ip4 169 254 169 254))) by (unfold ip4; lia). by destruct (d =? 2).
  - rewrite classify_step, chars_app, classify_mapped by auto using mapped_unmatched, dotted_chars. by rewrite str_chars.
Qed.

(** ** What a request sends out *)

Definition request_of (e : Event) : option (string * RequestInit) :=
  match e with Fetched u i => Some (u, i) | Looked _ _ => None end.

(** The requests of a trace, in order. *)
Definition requests (tr : list Event) : list (string * RequestInit) := omap request_of tr.

Definition all_admitted (scope : NetworkScope) (ips : list string) : bool :=
  forallb (fun ip => admits scope (classifyAddress ip)) ips.

(** At position [i] of the trace the host has just been checked: it is an address
    that the scope admits, or the lookup right before gave only such addresses. *)
Definition checked (scope : NetworkScope) (host : string) (tr : list Event) (i : nat) : Prop :=
  if looksLikeIp host then admits scope (classifyAddress host) = true
  else exists k ips, i = S k /\ tr !! k = Some (Looked host (Ok ips)) /\ all_admitted scope ips = true.

Lemma checked_prefix scope host tr tr' i : tr `prefix_of` tr' -> checked scope host tr i -> checked scope host tr' i.
Proof.
  intros Hp. unfold checked. destruct (looksLikeIp host); [done|].
  intros (k & ips & -> & Hk & Ha). exists k, ips. split_and!; [done| |done]. by eapply prefix_lookup_Some.
Qed.

Section Traces.
Context (parseUrl : string -> option Url) (resolveUrl : string -> string -> option string).
Context (dnsLookup : nat -> string -> outcome Error (list string)).
Context (transport : nat -> string -> RequestInit -> outcome Error Response).

Lemma check_all_spec r scope ips tr :
  check_all r scope ips tr = (tr, if all_admitted scope ips then Ok tt else Throw (BrokerCallError (denial r))).
Proof.
  induction ips as [|ip ips IH]; [done|]. cbn [check_all all_admitted forallb].
  destruct (admits scope (classifyAddress ip)); [exact IH|done].
Qed.

Lemma checkDestination_spec host r scope tr tr' o :
  checkDestination dnsLookup host r scope tr = (tr', o) ->
  tr `prefix_of` tr' /\ requests tr' = requests tr /\ (o = Ok tt -> checked scope host tr' (length tr')).
Proof.
  unfold checkDestination, checked, bind. destruct (looksLikeIp host).
  - unfold ret. rewrite check_all_spec. unfold all_admitted. cbn [forallb]. rewrite andb_true_r. intros [= <- <-]. split_and!; [done|done|]. by destruct (admits _ _).
  - unfold lookup_name. assert (P : tr `prefix_of` tr ++ [Looked host (dnsLookup (length tr) host)]) by by eexists.
    assert (R : requests (tr ++ [Looked host (dnsLookup (length tr) host)]) = requests tr)
      by (unfold requests; rewrite omap_app; apply app_nil_r).
    destruct (dnsLookup (length tr) host) as [ips|e] eqn:E.
    + rewrite check_all_spec. intros [= <- <-]. split_and!; [done|done|].
      destruct (all_admitted scope ips) eqn:A; [|done]. intros _. exists (length tr), ips.
      rewrite length_app, list_lookup_middle by done. split_and!; [cbn; lia|done|done].
    + intros [= <- <-]. by split_and!.
Qed.

Lemma responseEnvelope_spec resp u rs tr tr' o :
  responseEnvelope resp u rs tr = (tr', o) ->
  tr' = tr /\ (forall res, o = Ok res -> resUrl res = u /\ resRedirects res = rs).
Proof.
  unfold responseEnvelope. destruct (text resp); intros [= <- <-]; (split; [done|]); [|done]. by intros res [= <-].
Qed.

Section Hops.
Context (scope : NetworkScope) (secret : option (NetworkSecret * string)) (args : SdkNetworkFetchArgs).
Abbreviation run := (hops parseUrl resolveUrl dnsLookup transport scope secret args).

(** A request at position [i] is allowed. *)
Definition allowed (tr : list Event) (i : nat) : Prop :=
  forall u init, tr !! i = Some (Fetched u init) ->
    exists p, parseUrl u = Some p /\ is_http p = true /\ checked scope (hostname p) tr i /\ init = init_of secret args p.

(** One hop either ends the call, or sends a request and goes on. *)
Lemma hop_cases n red cur rs tr tr' o :
  run (S n) red cur rs tr = (tr', o) ->
  (exists e, o = Throw e /\ tr `prefix_of` tr' /\ requests tr' = requests tr) \/
  exists p tr1, parseUrl cur = Some p /\ is_http p = true /\ mismatched secret red p = false /\
    tr `prefix_of` tr1 /\ requests tr1 = requests tr /\ checked scope (hostname p) tr1 (length tr1) /\
    let tr2 := tr1 ++ [Fetched cur (init_of secret args p)] in
    (tr' = tr2 /\ (forall res, o = Ok res -> resUrl res = cur /\ resRedirects res = rs)) \/
    (exists next, run n true next (rs ++ [next]) tr2 = (tr', o)).
Proof.
  cbn [hops]. destruct (parseUrl cur) as [p|] eqn:Ep; [|intros [= <- <-]; left; eauto].
  destruct (is_http p) eqn:Eh; cbn [negb]; [|intros [= <- <-]; left; eauto]. unfold bind at 1.
  destruct (checkDestination dnsLookup (hostname p) red scope tr) as [tr1 o1] eqn:Ec.
  destruct (checkDestination_spec _ _ _ _ _ _ Ec) as (P1 & R1 & C1).
  destruct o1 as [[]|e]; [|intros [= <- <-]; left; eauto].
  destruct (mismatched secret red p) eqn:Em; [intros [= <- <-]; left; eauto|].
  unfold bind at 1, fetchImpl. intros H. right. exists p, tr1. split_and!; auto. cbn zeta.
  destruct (transport _ _ _) as [resp|e]; [|left; by simplify_eq].
  assert (Env : responseEnvelope resp cur rs (tr1 ++ [Fetched cur (init_of secret args p)]) = (tr', o) ->
    tr' = tr1 ++ [Fetched cur (init_of secret args p)] /\ (forall res, o = Ok res -> resUrl res = cur /\ resRedirects res = rs))
    by apply responseEnvelope_spec.
  destruct (location resp) as [l|]; [|by left; apply Env].
  destruct (manualRedirect args); [by left; apply Env|].
  destruct (resolveUrl l cur) as [next|]; [right; by exists next|left; unfold fail in H; by simplify_eq].
Qed.

Lemma fetch_requests tr u init : requests (tr ++ [Fetched u init]) = requests tr ++ [(u, init)].
Proof. unfold requests. by rewrite omap_app. Qed.

Lemma no_request tr tr' i u init :
  tr `prefix_of` tr' -> requests tr' = requests tr -> tr' !! i = Some (Fetched u init) -> (i < length tr)%nat.
Proof.
  intros [k ->] R Hu. destruct (Nat.lt_ge_cases i (length tr)) as [|Hi]; [done|]. exfalso.
  rewrite lookup_app_r in Hu by done. unfold requests in R. rewrite omap_app in R.
  assert (K : omap request_of k = []) by (apply (app_inv_head (omap request_of tr)); by rewrite R, app_nil_r).
  apply list_elem_of_lookup_2 in Hu. assert (H : (u, init) ∈ omap request_of k) by (apply list_elem_of_omap; by eexists).
  rewrite K in H. by apply elem_of_nil in H.
Qed.

Lemma allowed_later tr tr' i : tr `prefix_of` tr' -> (i < length tr)%nat -> allowed tr i -> allowed tr' i.
Proof.
  intros Hp Hi Ha u init Hu. assert (Hu' : tr !! i = Some (Fetched u init)).
  { destruct Hp as [k ->]. by rewrite lookup_app_l in Hu. }
  destruct (Ha u init Hu') as (p & ? & ? & C & ?). exists p. split_and!; try done. by eapply checked_prefix.
Qed.

(** The shape of a run: what was sent before stays, every new request is allowed,
    and the new requests go to the current URL and to where each was redirected. *)
Lemma hops_spec n red cur rs tr tr' o :
  run n red cur rs tr = (tr', o) ->
  tr `prefix_of` tr' /\ (forall i, (length tr <= i)%nat -> allowed tr' i) /\
    exists l, map fst (requests tr') = map fst (requests tr) ++ l /\ (length l <= n)%nat /\
    (forall u, head l = Some u -> u = cur /\ exists p, parseUrl cur = Some p /\ mismatched secret red p = false) /\
    (forall res, o = Ok res -> exists more, l = cur :: more /\ resRedirects res = rs ++ more /\ last l = Some (resUrl res)).
Proof.
  revert red cur rs tr. induction n as [|n IH]; intros red cur rs tr H.
  { cbn in H. unfold fail in H. simplify_eq. split_and!; [done| |].
    - intros i Hi u init Hu. apply lookup_lt_Some in Hu. lia.
    - exists []. rewrite app_nil_r. split_and!; (done || cbn; lia). }
  apply hop_cases in H as [(e & -> & P & R)|(p & tr1 & Ep & Eh & Em & P & R & C & H)]; cbn zeta in *.
  { split_and!; [done| |].
    - intros i Hi u init Hu. pose proof (no_request _ _ _ _ _ P R Hu). lia.
    - exists []. rewrite app_nil_r, R. split_and!; (done || cbn; lia). }
  set (tr2 := tr1 ++ [Fetched cur (init_of secret args p)]) in *.
  assert (P2 : tr `prefix_of` tr2) by (etrans; [exact P|by eexists]).
  assert (R2 : map fst (requests tr2) = map fst (requests tr) ++ [cur]).
  { unfold tr2. rewrite fetch_requests, map_app, R. done. }
  assert (A2 : forall i, (length tr <= i)%nat -> (i < length tr2)%nat -> allowed tr2 i).
  { intros i Hi Hl u init Hu. unfold tr2 in *. rewrite length_app in Hl. cbn in Hl.
    apply lookup_snoc_Some in Hu as [[Hlt Hu]|[-> Hu]].
    - pose proof (no_request _ _ _ _ _ P R Hu). lia.
    - simplify_eq. exists p. split_and!; try done. eapply checked_prefix; [|exact C]. by eexists. }
  destruct H as [[-> Hres]|[next H]].
  - split_and!; [done| |].
    + intros i Hi. destruct (Nat.lt_ge_cases i (length tr2)) as [|Hge]; [by apply A2|].
      intros u init Hu. apply lookup_lt_Some in Hu. lia.
    + exists [cur]. split_and!; [done|cbn; lia| |].
      * intros u [= <-]. eauto.
      * intros res Hr. destruct (Hres res Hr) as [-> ->]. exists []. by rewrite app_nil_r.
  - apply IH in H as (P3 & A3 & l & Rl & Ln & Hh & Hr). split_and!; [by etrans| |].
    + intros i Hi. destruct (Nat.lt_ge_cases i (length tr2)) as [Hlt|Hge]; [|by apply A3].
      eapply allowed_later; [exact P3|done|by apply A2].
    + exists (cur :: l). rewrite Rl, R2, <- app_assoc. split_and!; [done|cbn; lia| |].
      * intros u [= <-]. eauto.
      * intros res Ho. destruct (Hr res Ho) as (more & -> & E1 & E2). exists (next :: more).
        rewrite E1, <- app_assoc. split_and!; [done|done|].
        by rewrite last_cons_cons.
Qed.
End Hops.

(** C9: Every request that leaves for a plugin goes over http or https to
    a host that was checked immediately before against the plugin's own scope, and
    carries the plugin's headers; those of a secret are added only if the secret is
    the plugin's or the host's, and only inside the origin it is bound to. *)
Theorem requests_confined custom grants live configured args pluginId tr o i u init :
  performFetch parseUrl resolveUrl dnsLookup transport custom grants live configured args pluginId [] = (tr, o) ->
  tr !! i = Some (Fetched u init) ->
  exists p, parseUrl u = Some p /\ (protocol p = "http:"%string \/ protocol p = "https:"%string) /\
    checked (scopeProvider custom grants pluginId) (hostname p) tr i /\
    (initHeaders init = plain_headers args \/
     exists id s, secretId args = Some id /\ initHeaders init = spread (plain_headers args) (secretHeaders s) /\
    ((map_get id live = Some (pluginId, s) /\ origin p = secretOrigin s) \/
        (map_get id configured = Some s /\ origin <$> parseUrl (secretOrigin s) = Some (origin p)))).
Proof.
  unfold performFetch. destruct (resolveSecret _ _ _ _ _) as [secret|e] eqn:Es; [|by intros [= <- <-]].
  intros H Hu. apply hops_spec in H as (_ & A & _). destruct (A i (Nat.le_0_l i) u init Hu) as (p & Ep & Eh & C & ->).
  exists p. split_and!; [done| |done|].
  { unfold is_http in Eh. apply orb_true_iff in Eh as [?%String.eqb_eq|?%String.eqb_eq]; auto. }
  cbn [initHeaders init_of]. unfold hopHeaders. destruct secret as [[s oo]|]; [|by left].
  case_bool_decide as Eo; [|by left]. right. revert Es. unfold resolveSecret.
  destruct (secretId args) as [id|]; [|done]. intros Es. exists id, s. split_and!; [done|done|].
  destruct (starts_with _ _).
  - destruct (map_get id live) as [[owner s']|]; [|done]. case_bool_decide; [|done]. left. by simplify_eq.
  - destruct (map_get id configured) as [s'|]; [|done]. destruct (parseUrl (secretOrigin s')) as [v|] eqn:Ev; [|done].
    injection Es as <- <-. right. rewrite Ev. cbn. by rewrite Eo.
Qed.

(** A call sends at most nine requests; with a secret, the first goes to
    the origin of the secret or nothing is sent; and a response that is returned is
    the last of the chain of redirects, which is reported completely. *)
Theorem redirects_reported custom grants live configured args pluginId tr o :
  performFetch parseUrl resolveUrl dnsLookup transport custom grants live configured args pluginId [] = (tr, o) ->
  let urls := map fst (requests tr) in
  (length urls <= S NETWORK_MAX_REDIRECTS)%nat /\
    (forall s oo u, resolveSecret parseUrl live configured args pluginId = Ok (Some (s, oo)) -> head urls = Some u ->
     u = url args /\ origin <$> parseUrl u = Some oo) /\
    (forall res, o = Ok res -> urls = url args :: resRedirects res /\ last urls = Some (resUrl res)).
Proof.
  unfold performFetch. destruct (resolveSecret _ _ _ _ _) as [secret|e] eqn:Es; cbn zeta.
  - intros H. apply hops_spec in H as (_ & _ & l & -> & Ln & Hh & Hr). cbn [requests omap map app].
    split_and!; [done| |].
    + intros s oo u [= ->] Hu. destruct (Hh u Hu) as (-> & p & Ep & Em). split; [done|]. rewrite Ep. cbn. cbn in Em.
      apply negb_false_iff, bool_decide_eq_true in Em. by rewrite Em.
    + intros res Ho. destruct (Hr res Ho) as (more & -> & E1 & E2). by rewrite E1.
  - intros [= <- <-]. split_and!; [cbn; lia|done|done].
Qed.
End Traces.

(** ** Addresses in brackets *)

Lemma bracket_unmatched rest : match_v4 ("["%char :: rest) = None.
Proof.
  unfold match_v4. cbn [split_on Ascii.eqb Bool.eqb]. destruct (split_on "." rest) as [|w ws] eqn:E; [by apply split_on_nonnil in E|].
  cbn [forallb]. unfold short_number at 1. cbn [forallb]. by rewrite andb_false_r, andb_false_r.
Qed.

(** The [hostname] of a URL with an IPv6 address keeps the brackets, and in
    brackets every address passes the check without any scope: loopback, unique local and mapped addresses included. *)
Theorem bracketed_hosts_pass dnsLookup rest isRedirect scope tr :
  ":"%char ∈ rest -> checkDestination dnsLookup (str ("["%char :: rest)) isRedirect scope tr = (tr, Ok tt).
Proof.
  intros Hc. unfold checkDestination, looksLikeIp. rewrite chars_str.
  assert (H : existsb (fun c => (c =? ":")%char) ("["%char :: rest) = true).
  { apply existsb_exists. exists ":"%char. split; [right; by apply elem_of_In|done]. }
  rewrite H. unfold bind, ret. cbn [orb]. rewrite check_all_spec. unfold all_admitted. cbn [forallb].
  rewrite classify_step, chars_str. unfold classify_call. rewrite bracket_unmatched. cbn [map].
  change (lower_char "[") with "["%char. cbv zeta. by rewrite !bool_decide_false by done.
Qed.

(** ** Examples *)

Module Example.

(** A platform with three addresses: a page of the local machine, an api with a
    redirect to another origin, and that origin. *)
Definition parse (u : string) : option Url :=
  if String.eqb u "http://[::1]:5432/" then Some (MkUrl "http:" "[::1]" "http://[::1]:5432")
  else if String.eqb u "http://127.0.0.1/" then Some (MkUrl "http:" "127.0.0.1" "http://127.0.0.1")
  else if String.eqb u "https://api.test/v1" || String.eqb u "https://api.test" then Some (MkUrl "https:" "api.test" "https://api.test")
  else if String.eqb u "https://cdn.test/x" then Some (MkUrl "https:" "cdn.test" "https://cdn.test")
  else None.
Definition resolve (l base : string) : option string := Some l.
Definition dns (n : nat) (name : string) : outcome Error (list string) := Ok ["93.184.216.34"%string].
Definition ok_response : Response := MkResponse 200 "OK" [] (Ok "hello"%string).
Definition net (n : nat) (target : string) (init : RequestInit) : outcome Error Response :=
  if String.eqb target "https://api.test/v1" then Ok (MkResponse 302 "Found" [("location", "https://cdn.test/x")%string] (Ok ""%string))
  else Ok ok_response.
Definition secret : NetworkSecret := MkSecret "https://api.test" [("authorization", "Bearer t")%string].
Definition get (u : string) (s : option string) : SdkNetworkFetchArgs := MkArgs u None None None false s.
Definition fetch (u : string) (s : option string) : list Event * outcome Error SdkNetworkFetchResult :=
  performFetch parse resolve dns net None [] [("sec-p-1", ("p", secret))%string] [] (get u s) "p" [].

(** The local machine is out of reach by its IPv4 address, not by its IPv6 one. *)
Example loopback_by_brackets :
  fetch "http://127.0.0.1/" None = ([], Throw (BrokerCallError "NETWORK_DESTINATION_DENIED")) /\
  fetch "http://[::1]:5432/" None =
    ([Fetched "http://[::1]:5432/" (MkInit GET [] None)], Ok (MkResult 200 "OK" [] "hello" "http://[::1]:5432/" [])).
Proof. split; reflexivity. Qed.

(** Mapped addresses in hexadecimal are public even without brackets. *)
Example hexadecimal_mapped : classifyAddress "::ffff:7f00:1" = Public /\ classifyAddress "::ffff:127.0.0.1" = Local.
Proof. split; reflexivity. Qed.

(** The metadata class holds 512 addresses, not the two of its comment; and zeros
    before a zero are no zero for [checkBind]. *)
Example metadata_and_zeros :
  classifyAddress "169.254.169.7" = Metadata /\ classifyAddress "169.254.1.254" = Private /\
  checkBind [] "0.0.0.0" "p" = Throw (BrokerCallError "POLICY_DENIED") /\ checkBind [] "00.0.0.0" "p" = Ok tt.
Proof. by split_and!. Qed.

(** The secret goes to its origin and not along the redirect. *)
Example secret_stays :
  fetch "https://api.test/v1" (Some "sec-p-1"%string) =
    ([Looked "api.test" (Ok ["93.184.216.34"]); Fetched "https://api.test/v1" (MkInit GET [("authorization", "Bearer t")] None);
      Looked "cdn.test" (Ok ["93.184.216.34"]); Fetched "https://cdn.test/x" (MkInit GET [] None)],
     Ok (MkResult 200 "OK" [] "hello" "https://cdn.test/x" ["https://cdn.test/x"]))%string.
Proof. reflexivity. Qed.

End Example.

Lemma classification_by_prefix_witness :
  classifyAddress (dotted 172 31 0 9) = first_prefix (ip4 172 31 0 9) DOCUMENTED /\
  first_prefix (ip4 172 31 0 9) DOCUMENTED = Private /\
  (classifyAddress (dotted 169 254 169 7) = Metadata /\ first_prefix (ip4 169 254 169 7) DOCUMENTED = Private).
Proof.
  split; [apply (classification_by_prefix 172 31 0 9); done || lia|]. split; [reflexivity|].
  exact (proj1 (proj2 (classification_by_prefix 169 254 169 7 ltac:(lia) ltac:(lia) ltac:(lia) ltac:(lia))) eq_refl).
Defined.

Lemma requests_confined_witness :
  exists p, Example.parse "https://api.test/v1" = Some p /\
    checked (scopeProvider None [] "p") (hostname p) (fst (Example.fetch "https://api.test/v1" (Some "sec-p-1"%string))) 1.
Proof.
  destruct (requests_confined Example.parse Example.resolve Example.dns Example.net None [] [("sec-p-1", ("p", Example.secret))%string] []
    (Example.get "https://api.test/v1" (Some "sec-p-1"%string)) "p" _ _ 1%nat "https://api.test/v1" _ ltac:(reflexivity) ltac:(reflexivity))
    as (p & Ep & _ & C & _).
  exists p. split; [exact Ep|exact C].
Defined.

Lemma bracketed_hosts_pass_witness :
  checkDestination Example.dns "[::1]" false (MkScope false false false) [] = ([], Ok tt).
Proof. apply (bracketed_hosts_pass Example.dns (chars "::1]") false (MkScope false false false) []). by left. Defined.

Lemma redirects_reported_witness :
  map fst (requests (fst (Example.fetch "https://api.test/v1" (Some "sec-p-1"%string)))) = ["https://api.test/v1"; "https://cdn.test/x"]%string.
Proof.
  destruct (redirects_reported Example.parse Example.resolve Example.dns Example.net None [] [("sec-p-1", ("p", Example.secret))%string] []
    (Example.get "https://api.test/v1" (Some "sec-p-1"%string)) "p" _ _ ltac:(reflexivity)) as (_ & _ & H).
  exact (proj1 (H _ eq_refl)).
Defined.

End HostNetwork.
