(* ===== verification/HostGates.v ===== *)
(** * Gates of the plugin host
    (apps/plugin-runtime/src/host: memoryHost.ts, paths and statements;
    processHandles.ts, executables and directories)

    Texts of plugins that name something of the host pass a gate first: paths of
    files, SQL of the core database, executables and working directories.  The host
    is a POSIX system; what a path really is (links) is a parameter.  The gate of the
    statements is compared with a reading of the text as code and comments that does
    not use its regular expressions. *)

From Stdlib Require Import ZArith Lia Bool Ascii String List.
From stdpp Require Import base decidable list.
From S2P Require Import Prelude.
Local Open Scope Z_scope.

(** ** Paths of files *)

Module PathGate.

Definition is_sep (c : ascii) : bool := (c =? "/")%char.
Definition backslash : ascii := ascii_of_nat 92.

Abbreviation word := (list ascii).

(** A canonical absolute path: its segments from the root. *)
Abbreviation path := (list word).

(** [isAbsolute(p)] *)
Definition isAbsolute (p : word) : bool := starts_with ["/"%char] p.

(** One segment of a path that is being resolved. *)
Definition enter (base : path) (w : word) : path :=
  if bool_decide (w = []) || bool_decide (w = chars ".") then base
  else if bool_decide (w = chars "..") then removelast base
  else base ++ [w].

(** [resolve(base, ...args)] from a canonical base. *)
Definition resolve_arg (base : path) (arg : word) : path :=
  fold_left enter (split_on "/" arg) (if isAbsolute arg then [] else base).
Definition resolve (base : path) (args : list word) : path := fold_left resolve_arg args base.

(** [relative(root, candidate)]: the segments, up first. *)
Fixpoint relative_words (root candidate : path) : path :=
  match root, candidate with
  | r :: root', c :: candidate' =>
      if bool_decide (r = c) then relative_words root' candidate' else map (fun _ => chars "..") root ++ candidate
  | _, _ => map (fun _ => chars "..") root ++ candidate
  end.
Definition relative (root candidate : path) : word := join "/" (relative_words root candidate).

Definition isPathWithinRoot (root candidate : path) : bool :=
  let difference := relative root candidate in
  bool_decide (difference = []) ||
  (negb (bool_decide (difference = chars "..")) && negb (starts_with (chars "../") difference) && negb (isAbsolute difference)).

Definition FILES_MAX_CONTENT_BYTES : Z := 4 * 1024 * 1024.

(** [/^[a-z]:/iu] *)
Definition drive_prefix (p : word) : bool :=
  match p with c :: d :: _ => is_alpha c && (d =? ":")%char | _ => false end.

Definition has_char (c : ascii) (p : word) : bool := existsb (fun x => (x =? c)%char) p.

(** [segment === '' || segment === '.' || segment === '..'] *)
Definition special (w : word) : bool :=
  bool_decide (w = []) || bool_decide (w = chars ".") || bool_decide (w = chars "..").

Inductive GateError := VALIDATION_FAILED | POLICY_DENIED | SYSTEM_UNRESTRICTED_REQUIRED | PROCESS_SCOPE_DENIED.

Definition splitPluginPath (p : word) : outcome GateError (list word) :=
  if bool_decide (p = chars ".") then Ok []
  else if (length p =? 0)%nat || (FILES_MAX_CONTENT_BYTES <? Z.of_nat (length p)) || has_char NUL p || has_char backslash p
          || isAbsolute p || drive_prefix p
  then Throw VALIDATION_FAILED
  else
    let segments := split_on "/" p in
    if existsb special segments then Throw VALIDATION_FAILED else Ok segments.

Section Files.
(** The real path behind a path; [None] when nothing exists there. *)
Context (realpathIfExists : path -> option path).

(** The real path of the nearest ancestor that exists: the loop goes to the parent
    and ends at the root.  The segments are given from the last one. *)
Fixpoint nearest (rev_segments : path) : option path :=
  match realpathIfExists (rev rev_segments) with
  | Some canonical => Some canonical
  | None => match rev_segments with [] => None | _ :: parent => nearest parent end
  end.
Definition nearestExistingRealpath (p : path) : option path := nearest (rev p).

Definition resolvePluginPath (root : path) (p : word) : outcome GateError path :=
  match splitPluginPath p with
  | Throw e => Throw e
  | Ok segments =>
      let target := resolve root segments in
      if negb (isPathWithinRoot root target) then Throw VALIDATION_FAILED
      else
        match realpathIfExists root with
        | None => Ok target
        | Some realRoot =>
            match nearestExistingRealpath target with
            | None => Ok target
            | Some realTarget => if negb (isPathWithinRoot realRoot realTarget) then Throw VALIDATION_FAILED else Ok target
            end
        end
  end.
End Files.

(** *** What the gate lets through *)

(** A segment that names a file or directory in its parent. *)
Definition plain (w : word) : Prop :=
  "/"%char ∉ w /\ backslash ∉ w /\ NUL ∉ w /\ special w = false.

Lemma has_char_elem c p : has_char c p = true <-> c ∈ p.
Proof.
  unfold has_char. rewrite existsb_exists, elem_of_In. split.
  - by intros (x & Hx & ->%Ascii.eqb_eq).
  - intros H. exists c. split; [done|apply Ascii.eqb_refl].
Qed.

Lemma enter_plain base w : special w = false -> enter base w = base ++ [w].
Proof.
  unfold special, enter. intros H. bools. by rewrite !bool_decide_false.
Qed.

Lemma resolve_plain base ws : Forall (fun w => "/"%char ∉ w /\ special w = false) ws -> resolve base ws = base ++ ws.
Proof.
  unfold resolve. intros H. revert base. induction H as [|w ws [Hs Hw] H IH]; intros base; cbn [fold_left]; [by rewrite app_nil_r|].
  unfold resolve_arg at 2. rewrite split_on_single by done.
  replace (isAbsolute w) with false.
  - cbn [fold_left]. rewrite enter_plain by done. by rewrite IH, <- app_assoc.
  - symmetry. unfold isAbsolute. destruct w as [|c w]; [done|]. cbn [starts_with]. rewrite andb_true_r.
    apply Ascii.eqb_neq. intros <-. apply Hs. by left.
Qed.

Lemma relative_below root ws : relative_words root (root ++ ws) = ws.
Proof. induction root as [|r root IH]; cbn; [by destruct ws|]. by rewrite bool_decide_true. Qed.

Lemma starts_with_word p w ws : "/"%char ∉ p -> starts_with (p ++ ["/"%char]) (join "/" (w :: ws)) = true -> "/"%char ∉ w -> w = p.
Proof.
  revert w. induction p as [|a p IH]; intros w Hp H Hw.
  - destruct w as [|b w]; [done|]. exfalso. apply Hw. cbn [app] in H. destruct ws; cbn [join app starts_with] in H;
      apply andb_true_iff in H as [H _]; apply Ascii.eqb_eq in H as <-; by left.
  - apply not_elem_of_cons in Hp as [Ha Hp]. destruct w as [|b w].
    + destruct ws; cbn [join app starts_with] in H; [done|]. apply andb_true_iff in H as [H _]. by apply Ascii.eqb_eq in H.
    + apply not_elem_of_cons in Hw as [Hb Hw].
      assert (E : join "/" ((b :: w) :: ws) = b :: join "/" (w :: ws)) by by destruct ws.
      rewrite E in H. cbn [app starts_with] in H. apply andb_true_iff in H as [->%Ascii.eqb_eq H]. f_equal. by apply IH.
Qed.

Lemma within_below root ws : Forall (fun w => "/"%char ∉ w /\ special w = false) ws -> isPathWithinRoot root (root ++ ws) = true.
Proof.
  intros H. unfold isPathWithinRoot, relative. rewrite relative_below. destruct H as [|w ws [Hs Hw] H]; [done|].
  assert (Hw' := Hw). unfold special in Hw'. bools. apply orb_true_iff. right. rewrite !andb_true_iff, !negb_true_iff. split_and!.
  - apply bool_decide_eq_false. intros E. apply (f_equal (split_on "/")) in E. rewrite split_join in E; [|done|].
    + change (split_on "/" (chars "..")) with [chars ".."] in E. by simplify_eq.
    + constructor; [done|]. eapply Forall_impl; [exact H|]. by intros x [? _].
  - destruct (starts_with (chars "../") _) eqn:E; [|done]. exfalso.
    apply (starts_with_word (chars "..")) in E; [done| |done]. by apply (bool_decide_unpack _).
  - destruct (isAbsolute _) eqn:E; [|done]. exfalso. apply (starts_with_word []) in E; [done| |done]. by intros ?%elem_of_nil.
Qed.

Lemma split_ok p ws : splitPluginPath p = Ok ws -> Forall plain ws /\ ((p = chars "." /\ ws = []) \/ (ws <> [] /\ p = join "/" ws)).
Proof.
  unfold splitPluginPath. case_bool_decide as Ed; [intros [= <-]; auto|].
  destruct (_ || _) eqn:E; [done|]. bools. cbn zeta. destruct (existsb special _) eqn:Es; [done|]. intros [= <-].
  split; [|right; split; [apply split_on_nonnil|by rewrite join_split]].
  apply Forall_forall. intros w Hw. pose proof (proj1 (Forall_forall _ _) (split_on_clean "/" p) w Hw) as Hc.
  assert (Sub : forall c, c ∈ w -> c ∈ p).
  { intros c Hcw. rewrite <- (join_split "/" p). clear -Hw Hcw. induction (split_on "/" p) as [|v vs IH]; [by apply elem_of_nil in Hw|].
    apply elem_of_cons in Hw as [->|Hw]; destruct vs as [|u us]; cbn [join]; rewrite ?elem_of_app; auto.
    - by apply elem_of_nil in Hw.
    - right. right. by apply IH. }
  split_and!; [done| | |].
  - intros Hb%Sub%has_char_elem. congruence.
  - intros Hb%Sub%has_char_elem. congruence.
  - destruct (special w) eqn:S; [|done]. exfalso. assert (existsb special (split_on "/" p) = true); [|congruence].
    apply existsb_exists. exists w. split; [by apply elem_of_In|done].
Qed.



End PathGate.

(** ** Statements on the core database *)

Module SqlGate.
Import PathGate.

(** What follows the first [*/]. *)
Fixpoint after_close (l : list ascii) : option (list ascii) :=
  match l with
  | c :: (d :: r) as r1 => if (c =? "*")%char && (d =? "/")%char then Some r else after_close r1
  | _ => None
  end.

(** [sql.replace(/\/\*[\s\S]*?\*\//g, ' ')]: every step drops a character. *)
Fixpoint strip_blocks (fuel : nat) (l : list ascii) : list ascii :=
  match fuel, l with
  | S f, c :: r =>
      if (c =? "/")%char && starts_with ["*"%char] r then
        match after_close (drop 1 r) with Some r' => " "%char :: strip_blocks f r' | None => c :: strip_blocks f r end
      else c :: strip_blocks f r
  | _, _ => []
  end.

Definition LF : ascii := ascii_of_nat 10.

(** [.replace(/--[^\n]*/g, ' ')]; [skipping] inside such a comment. *)
Fixpoint strip_lines (skipping : bool) (l : list ascii) : list ascii :=
  match l with
  | [] => []
  | c :: r =>
      if skipping then (if (c =? LF)%char then c :: strip_lines false r else strip_lines true r)
      else if (c =? "-")%char && starts_with ["-"%char] r then " "%char :: strip_lines true r
      else c :: strip_lines false r
  end.

Definition trimEnd (l : list ascii) : list ascii := rev (drop_while is_ws (rev l)).

Definition statement_body (sql : list ascii) : list ascii :=
  let stripped := trim_chars (strip_lines false (strip_blocks (length sql) sql)) in
  if ends_with [";"%char] stripped then trimEnd (removelast stripped) else stripped.

(** [toUpperCase] on the characters of the model; the letters whose upper case is
    outside stay what they are: no word characters. *)
Definition upper_char (c : ascii) : list ascii :=
  let n := code c in
  if is_lower c || ((224 <=? n) && (n <=? 254) && negb (n =? 247)) then [ascii_of_N (Z.to_N (n - 32))]
  else if n =? 223 then chars "SS" else [c].
Definition toUpperCase (l : list ascii) : list ascii := flat_map upper_char l.

(** [/^[A-Za-z_]+/] *)
Fixpoint leading_name (l : list ascii) : list ascii :=
  match l with
  | c :: r => if is_alpha c || (c =? "_")%char then c :: leading_name r else []
  | [] => []
  end.

Definition word_char (c : ascii) : bool := is_alnum c || (c =? "_")%char.
Definition starts_word (l : list ascii) : bool := match l with c :: _ => word_char c | [] => false end.

(** [/\bkw\b/.test(l)]; [prev] says that the character before is one of a word. *)
Fixpoint has_keyword (prev : bool) (kw l : list ascii) : bool :=
  (negb prev && starts_with kw l && negb (starts_word (drop (length kw) l))) ||
  match l with [] => false | c :: r => has_keyword (word_char c) kw r end.

Definition DB_WRITE_KEYWORDS : list string :=
  ["ALTER"; "ATTACH"; "CREATE"; "DELETE"; "DETACH"; "DROP"; "INSERT"; "PRAGMA"; "REINDEX"; "REPLACE"; "UPDATE"; "VACUUM"]%string.

Definition assertReadOnlyStatement (sql : string) : outcome GateError unit :=
  let body := statement_body (chars sql) in
  if bool_decide (body = []) || has_char ";" body then Throw POLICY_DENIED
  else
    let first := toUpperCase (leading_name body) in
    if negb (bool_decide (first = chars "SELECT")) && negb (bool_decide (first = chars "WITH")) then Throw POLICY_DENIED
    else if existsb (fun kw => has_keyword false (chars kw) (toUpperCase body)) DB_WRITE_KEYWORDS then Throw POLICY_DENIED
    else Ok tt.

(** [typeof param === 'number' && !Number.isFinite(param)] *)
Definition assertBindableParams (params : list Value) : outcome GateError unit :=
  if existsb (fun v => match v with VNonFinite => true | _ => false end) params then Throw VALIDATION_FAILED else Ok tt.

Definition DATABASE_MAX_ROWS : nat := 1000.
Definition DATABASE_MAX_COLUMNS : nat := 64.

Definition cell_ok (v : Value) : bool :=
  match v with VNull | VStr _ | VNum _ | VNonFinite | VBool _ => true | VBig _ | VArr _ | VObj _ => false end.

Definition row_cells (row : Value) : outcome GateError (list Value) :=
  match row with
  | VArr cells =>
      let cells := take DATABASE_MAX_COLUMNS cells in
      if forallb cell_ok cells then Ok cells else Throw VALIDATION_FAILED
  | _ => Throw VALIDATION_FAILED
  end.

Fixpoint all_rows (rows : list Value) : outcome GateError (list (list Value)) :=
  match rows with
  | [] => Ok []
  | r :: rest => match row_cells r with Throw e => Throw e | Ok c => match all_rows rest with Throw e => Throw e | Ok cs => Ok (c :: cs) end end
  end.

(** The operation [database.core.query]; [dbQuery] runs the statement. *)
Definition coreQuery (dbQuery : string -> list Value -> list string * list Value) (sql : string) (params : list Value) :
  outcome GateError (list string * list (list Value)) :=
  match assertReadOnlyStatement sql with
  | Throw e => Throw e
  | Ok _ =>
      match assertBindableParams params with
      | Throw e => Throw e
      | Ok _ =>
          let page := dbQuery sql params in
          match all_rows (take DATABASE_MAX_ROWS (snd page)) with
          | Throw e => Throw e
          | Ok rows => Ok (take DATABASE_MAX_COLUMNS (fst page), rows)
          end
      end
  end.

(** *** What the gate is for, without its regular expressions *)

(** A text as code and comments. *)
Inductive Piece := Code (c : ascii) | Block (body : list ascii) | Line (body : list ascii).

Definition render_piece (p : Piece) : list ascii :=
  match p with Code c => [c] | Block b => chars "/*" ++ b ++ chars "*/" | Line b => chars "--" ++ b end.
Definition render (l : list Piece) : list ascii := flat_map render_piece l.

(** The code alone; a comment counts as a blank. *)
Definition visible_piece (p : Piece) : list ascii := match p with Code c => [c] | _ => [" "%char] end.
Definition visible (l : list Piece) : list ascii := flat_map visible_piece l.

(** The characters [x] and [y] next to each other. *)
Fixpoint has_pair (x y : ascii) (l : list ascii) : bool :=
  match l with c :: (d :: _) as r => (c =? x)%char && (d =? y)%char || has_pair x y r | _ => false end.

(** The pieces are the ones that a reader of the text sees: no code opens a comment, a
    block ends at its first end, and a line at its line feed; nor does a line comment open a block. *)
Fixpoint readable (l : list Piece) : bool :=
  match l with
  | [] => true
  | Code c :: r => negb (starts_with (chars "/*") (c :: render r)) && negb (starts_with (chars "--") (c :: render r)) && readable r
  | Block b :: r => negb (has_pair "*" "/" b) && readable r
  | Line b :: r =>
      negb (has_char LF b) && negb (has_pair "/" "*" b) && match r with [] => true | Code c :: _ => (c =? LF)%char | _ => false end && readable r
  end.

Definition is_ascii (c : ascii) : bool := code c <? 128.

(** [s] is the one statement of the text [v]: blanks around it, and at most one semicolon after it. *)
Definition one_statement (v s : list ascii) : Prop :=
  s <> [] /\ ";"%char ∉ s /\
  exists before between after, forallb is_ws before = true /\ forallb is_ws between = true /\ forallb is_ws after = true /\
    (v = before ++ s ++ after \/ v = before ++ s ++ between ++ [";"%char] ++ after) /\
    match s with c :: _ => is_ws c = false | [] => False end /\ match last s with Some c => is_ws c = false | None => False end.

(** [w] is the word [kw], in letters of either case. *)
Definition same_word (kw w : list ascii) : Prop := Forall2 (fun k c => c = k \/ code c = code k + 32) kw w.

Definition begins_with (kw : string) (s : list ascii) : Prop :=
  exists w rest, s = w ++ rest /\ same_word (chars kw) w /\ match rest with c :: _ => is_alpha c = false /\ c <> "_"%char | [] => True end.

(** The word stands in the text, with no letter, digit or underscore next to it. *)
Definition occurs (kw : string) (s : list ascii) : Prop :=
  exists a w b, s = a ++ w ++ b /\ same_word (chars kw) w /\
    match last a with Some c => word_char c = false | None => True end /\ starts_word b = false.

(** *** Lemmas on comments *)

Lemma after_close_shorter l r : after_close l = Some r -> (length r < length l)%nat.
Proof.
  induction l as [|c [|d l] IH]; [done|done|]. change (after_close (c :: d :: l)) with (if (c =? "*")%char && (d =? "/")%char then Some l else after_close (d :: l)).
  destruct (_ && _); [intros [= <-]; cbn; lia|]. intros H. apply IH in H. cbn in *. lia.
Qed.

(** One unit of fuel per character is enough: more changes nothing. *)
Lemma strip_blocks_fuel f f' l : (length l <= f)%nat -> (length l <= f')%nat -> strip_blocks f l = strip_blocks f' l.
Proof.
  revert f' l. induction f as [|f IH]; intros [|f'] [|c l] Hf Hf'; cbn in Hf, Hf'; try done; try lia.
  cbn [strip_blocks]. destruct (_ && _); [|f_equal; apply IH; lia].
  destruct (after_close (drop 1 l)) as [r|] eqn:E; f_equal; apply IH; try lia.
  all: apply after_close_shorter in E; rewrite length_drop in E; lia.
Qed.

Definition without_blocks (l : list ascii) : list ascii := strip_blocks (length l) l.

Lemma without_blocks_code c r : starts_with (chars "/*") (c :: r) = false -> without_blocks (c :: r) = c :: without_blocks r.
Proof.
  intros H. unfold without_blocks. cbn [length strip_blocks]. by replace (_ && _) with false.
Qed.

Lemma after_close_block b r : has_pair "*" "/" b = false -> after_close (b ++ chars "*/" ++ r) = Some r.
Proof.
  induction b as [|c [|d b] IH]; intros H; [done| |].
  - cbn. by rewrite andb_false_r.
  - cbn [has_pair] in H. apply orb_false_iff in H as [H Hb].
    change (after_close ((c :: d :: b) ++ chars "*/" ++ r)) with
      (if (c =? "*")%char && (d =? "/")%char then Some (b ++ chars "*/" ++ r) else after_close ((d :: b) ++ chars "*/" ++ r)).
    rewrite H. by apply IH.
Qed.

Lemma strip_blocks_open f t : strip_blocks (S f) (chars "/*" ++ t) =
  match after_close t with Some r => " "%char :: strip_blocks f r | None => "/"%char :: strip_blocks f ("*"%char :: t) end.
Proof. done. Qed.

Lemma without_blocks_block b r : has_pair "*" "/" b = false -> without_blocks (chars "/*" ++ b ++ chars "*/" ++ r) = " "%char :: without_blocks r.
Proof.
  intros H. unfold without_blocks at 1. rewrite length_app. change (length (chars "/*")) with 2%nat. cbn [Nat.add].
  rewrite strip_blocks_open, after_close_block by done. f_equal. apply strip_blocks_fuel; [|done]. rewrite !length_app. lia.
Qed.

Lemma without_blocks_line b r : has_pair "/" "*" b = false -> match r with [] => True | c :: _ => c = LF end ->
  without_blocks (b ++ r) = b ++ without_blocks r.
Proof.
  intros H Hr. induction b as [|c b IH]; [done|]. cbn [app]. rewrite without_blocks_code; [f_equal; apply IH|].
  - destruct b as [|d b]; [done|]. cbn [has_pair] in H. by apply orb_false_iff in H as [_ H].
  - cbn [chars list_ascii_of_string starts_with]. destruct b as [|d b]; cbn [app].
    + destruct r as [|d r]; [by rewrite andb_false_r|]. subst d. by rewrite andb_false_r.
    + cbn [has_pair] in H. apply orb_false_iff in H as [H _]. by rewrite andb_true_r, !(Ascii.eqb_sym _ c), (Ascii.eqb_sym _ d).
Qed.

(** The text between the two passes. *)
Definition between_piece (p : Piece) : list ascii := match p with Code c => [c] | Block _ => [" "%char] | Line b => chars "--" ++ b end.

Lemma blocks_pass l : readable l = true -> without_blocks (render l) = flat_map between_piece l.
Proof.
  induction l as [|p l IH]; [done|]. destruct p as [c|b|b]; cbn [readable render flat_map render_piece between_piece]; rewrite !andb_true_iff;
    fold (render l).
  - intros [[H1%negb_true_iff _] Hr]. cbn [app]. rewrite without_blocks_code by done. by rewrite IH.
  - intros [H1%negb_true_iff Hr]. rewrite <- !app_assoc, without_blocks_block by done. by rewrite IH.
  - intros [[[_ H2%negb_true_iff] H3] Hr]. rewrite <- IH by done. rewrite <- (app_assoc (chars "--")). apply (without_blocks_line (chars "--" ++ b)).
    + destruct b as [|c b]; [done|]. exact H2.
    + destruct l as [|[c| |] l]; try done. by apply Ascii.eqb_eq in H3.
Qed.

Lemma strip_skip b r : has_char LF b = false -> match r with [] => True | c :: _ => c = LF end -> strip_lines true (b ++ r) = strip_lines false r.
Proof.
  intros H Hr. induction b as [|c b IH]; cbn [app].
  - destruct r as [|c r]; [done|]. by subst c.
  - unfold has_char in H. cbn [existsb] in H. apply orb_false_iff in H as [Hc H]. cbn [strip_lines]. rewrite Hc. by apply IH.
Qed.

Lemma first_dash l : starts_with ["-"%char] (flat_map between_piece l) = starts_with ["-"%char] (render l).
Proof. by destruct l as [|[c|b|b] l]. Qed.

Lemma lines_pass l : readable l = true -> strip_lines false (flat_map between_piece l) = visible l.
Proof.
  induction l as [|p l IH]; [done|]. destruct p as [c|b|b]; cbn [readable flat_map between_piece visible visible_piece app]; rewrite !andb_true_iff; fold (visible l).
  - intros [[_ H2%negb_true_iff] Hr]. cbn [strip_lines]. rewrite first_dash. change (("-" =? c)%char && starts_with ["-"%char] (render l) = false) in H2.
    rewrite (Ascii.eqb_sym "-" c) in H2. by rewrite H2, IH.
  - intros [_ Hr]. cbn [strip_lines]. by rewrite IH.
  - intros [[[H1%negb_true_iff _] H3] Hr]. cbn [chars list_ascii_of_string app strip_lines]. cbn [Ascii.eqb Bool.eqb andb starts_with]. f_equal.
    rewrite <- IH by done. change (strip_lines true ("-"%char :: b ++ flat_map between_piece l)) with (strip_lines true (b ++ flat_map between_piece l)).
    apply strip_skip; [done|]. destruct l as [|[c| |] l]; try done. by apply Ascii.eqb_eq in H3.
Qed.

(** *** Lemmas on blanks *)

Lemma drop_blanks a l : forallb is_ws a = true -> drop_while is_ws (a ++ l) = drop_while is_ws l.
Proof. induction a as [|c a IH]; [done|]. cbn [forallb app drop_while]. intros [-> Ha]%andb_true_iff. by apply IH. Qed.

Lemma blanks_before l : exists a, forallb is_ws a = true /\ l = a ++ drop_while is_ws l.
Proof.
  induction l as [|c l (a & Ha & E)]; [by exists []|]. cbn [drop_while]. destruct (is_ws c) eqn:Ec; [|by exists []].
  exists (c :: a). cbn. rewrite Ec, Ha. split; [done|]. by rewrite <- E.
Qed.

Lemma drop_while_head l : match drop_while is_ws l with c :: _ => is_ws c = false | [] => True end.
Proof. induction l as [|c l IH]; [done|]. cbn [drop_while]. by destruct (is_ws c) eqn:E. Qed.

Lemma forallb_rev {A} (f : A -> bool) l : forallb f (rev l) = forallb f l.
Proof.
  apply eq_true_iff_eq. rewrite !forallb_forall. split; intros H x Hx; apply H; [by apply in_rev; rewrite rev_involutive|by apply in_rev].
Qed.

Lemma blanks_after l : exists a, forallb is_ws a = true /\ l = trimEnd l ++ a.
Proof.
  destruct (blanks_before (rev l)) as (a & Ha & E). exists (rev a). rewrite forallb_rev. split; [done|].
  unfold trimEnd. rewrite <- rev_app_distr, <- E. by rewrite rev_involutive.
Qed.

Lemma trimEnd_last l : match last (trimEnd l) with Some c => is_ws c = false | None => True end.
Proof.
  unfold trimEnd. pose proof (drop_while_head (rev l)) as H. destruct (drop_while is_ws (rev l)) as [|c r]; [done|].
  cbn [rev]. by rewrite last_snoc.
Qed.

Lemma trimEnd_blanks s a : forallb is_ws a = true -> match last s with Some c => is_ws c = false | None => False end -> trimEnd (s ++ a) = s.
Proof.
  intros Ha Hs. unfold trimEnd. rewrite rev_app_distr, drop_blanks by by rewrite forallb_rev.
  destruct s as [|c s _] using rev_ind; [done|]. rewrite last_snoc in Hs. rewrite rev_app_distr. cbn [rev app drop_while]. rewrite Hs.
  cbn [rev]. by rewrite rev_involutive.
Qed.

Lemma trim_blanks a s b : forallb is_ws a = true -> forallb is_ws b = true -> match s with c :: _ => is_ws c = false | [] => False end ->
  match last s with Some c => is_ws c = false | None => False end -> trim_chars (a ++ s ++ b) = s.
Proof.
  intros Ha Hb Hh Hl. unfold trim_chars. rewrite drop_blanks by done. destruct s as [|c s]; [done|]. cbn [app drop_while]. rewrite Hh.
  by apply (trimEnd_blanks (c :: s)).
Qed.

Lemma ends_semicolon l : ends_with [";"%char] l = true -> l = removelast l ++ [";"%char].
Proof.
  unfold ends_with. destruct l as [|c l _] using rev_ind; [done|]. rewrite rev_app_distr. cbn [rev app starts_with].
  rewrite andb_true_r, removelast_last. intros E%Ascii.eqb_eq. by subst c.
Qed.

Lemma semicolon_ends l : ends_with [";"%char] (l ++ [";"%char]) = true.
Proof. unfold ends_with. by rewrite rev_app_distr. Qed.

(** The statement of a text, in words and in code. *)
Lemma statement_spec v s :
  let stripped := trim_chars v in
  (one_statement v s <->
   s = (if ends_with [";"%char] stripped then trimEnd (removelast stripped) else stripped) /\ s <> [] /\ ";"%char ∉ s).
Proof.
  intros stripped. split.
  - intros (Hne & Hsc & before & between & after & Hb & Hm & Ha & Hv & Hh & Hl). split; [|done]. destruct Hv as [Hv|Hv].
    + assert (stripped = s) as -> by (unfold stripped; rewrite Hv; by apply trim_blanks). destruct (ends_with _ s) eqn:E; [|done].
      apply ends_semicolon in E. exfalso. apply Hsc. rewrite E. apply elem_of_app. right. by left.
    + assert (stripped = (s ++ between) ++ [";"%char]) as ->.
      { unfold stripped. rewrite Hv, !app_assoc, <- (app_assoc before), <- (app_assoc before), <- (app_assoc before).
        apply trim_blanks; [done|done|by destruct s|]. by rewrite last_snoc. }
      rewrite semicolon_ends, removelast_last. symmetry. by apply trimEnd_blanks.
  - intros (Hs & Hne & Hsc). split; [done|]. split; [done|].
    destruct (blanks_before v) as (before & Hb & Ev). destruct (blanks_after (drop_while is_ws v)) as (after & Ha & Ed).
    change (trimEnd (drop_while is_ws v)) with stripped in Ed. pose proof (drop_while_head v) as Hh. pose proof (trimEnd_last (drop_while is_ws v)) as Hl.
    change (trimEnd (drop_while is_ws v)) with stripped in Hl. rewrite Ed in Ev, Hh.
    destruct (ends_with [";"%char] stripped) eqn:E.
    + apply ends_semicolon in E. destruct (blanks_after (removelast stripped)) as (between & Hm & Er). rewrite <- Hs in Er.
      exists before, between, after. split_and!; [done..| | |].
      * right. rewrite Ev, E, Er at 1. by rewrite <- !app_assoc.
      * rewrite E, Er in Hh. by destruct s.
      * rewrite Hs. pose proof (trimEnd_last (removelast stripped)) as H. rewrite <- Hs in *. destruct (last s) eqn:El; [done|]. by apply last_None in El.
    + exists before, [], after. rewrite Hs. split_and!; [done..| | |].
      * by left.
      * rewrite <- Hs in *. by destruct s.
      * rewrite <- Hs in *. destruct (last s) eqn:El; [done|]. by apply last_None in El.
Qed.

(** *** Lemmas on words *)

Definition up (c : ascii) : ascii := if is_lower c then ascii_of_N (Z.to_N (code c - 32)) else c.

Lemma upper_ascii c : is_ascii c = true -> upper_char c = [up c] /\ word_char (up c) = word_char c.
Proof. destruct c as [[] [] [] [] [] [] [] []]; intros H; try discriminate H; split; reflexivity. Qed.

Lemma code_up c : code (up c) = if is_lower c then code c - 32 else code c.
Proof. destruct c as [[] [] [] [] [] [] [] []]; reflexivity. Qed.

Lemma up_letter k c : is_upper k = true -> up c = k <-> c = k \/ code c = code k + 32.
Proof.
  intros Hk. unfold is_upper in Hk. rewrite andb_true_iff, !Z.leb_le in Hk. pose proof (code_up c) as E. unfold is_lower in E. split.
  - intros <-. rewrite E in *. destruct (_ && _) eqn:El; [right; lia|left]. by apply code_inj.
  - intros H. apply code_inj. rewrite E. destruct (_ && _) eqn:El; rewrite ?andb_true_iff, ?andb_false_iff, ?Z.leb_le, ?Z.leb_gt in El.
    + destruct H as [->|H]; lia.
    + destruct H as [->|H]; lia.
Qed.

Lemma toUpperCase_ascii l : forallb is_ascii l = true -> toUpperCase l = map up l.
Proof.
  unfold toUpperCase. induction l as [|c l IH]; [done|]. cbn [forallb flat_map map]. intros [Hc Hl]%andb_true_iff.
  destruct (upper_ascii c Hc) as [-> _]. cbn [app]. by rewrite IH.
Qed.

Lemma same_word_up kw w : forallb is_upper kw = true -> same_word kw w <-> map up w = kw.
Proof.
  unfold same_word. intros Hk. split.
  - intros H. induction H as [|k c kw w Hkc _ IH]; [done|]. cbn [forallb map] in *. apply andb_true_iff in Hk as [Hk Hkw].
    rewrite IH by done. f_equal. by apply up_letter.
  - revert kw Hk. induction w as [|c w IH]; intros kw Hk <-; [constructor|]. cbn [map forallb] in *. apply andb_true_iff in Hk as [Hc Hk].
    constructor; [by apply up_letter|by apply IH].
Qed.

Lemma has_keyword_spec kw prev l : has_keyword prev kw l = true <->
  exists a b, l = a ++ kw ++ b /\ match last a with Some c => word_char c = false | None => prev = false end /\ starts_word b = false.
Proof.
  revert prev. induction l as [|c l IH]; intros prev; cbn [has_keyword]; rewrite orb_true_iff, !andb_true_iff, !negb_true_iff.
  - split; [intros [[[Hp Hs] Hd]|[=]]|].
    + apply starts_with_app in Hs as [b E]. exists [], b. rewrite E, drop_app_length in Hd. by split_and!.
    + intros ([|x a] & b & E & Hp & Hb); [|done]. left. cbn [app] in E. rewrite E, drop_app_length. split_and!; [done| |done].
      apply starts_with_app. by exists b.
  - rewrite IH. split; [intros [[[Hp Hs] Hd]|(a & b & -> & Ha & Hb)]|].
    + apply starts_with_app in Hs as [b E]. exists [], b. rewrite E, drop_app_length in Hd. by split_and!.
    + exists (c :: a), b. split_and!; [done| |done]. rewrite last_cons. by destruct (last a).
    + intros ([|x a] & b & E & Hp & Hb).
      * left. cbn [app] in E. rewrite E, drop_app_length. split_and!; [done| |done]. apply starts_with_app. by exists b.
      * right. injection E as -> ->. exists a, b. split_and!; [done| |done]. rewrite last_cons in Hp. by destruct (last a).
Qed.

Lemma starts_word_up b : forallb is_ascii b = true -> starts_word (map up b) = starts_word b.
Proof. destruct b as [|c b]; [done|]. cbn. intros [Hc _]%andb_true_iff. by destruct (upper_ascii c Hc). Qed.

Lemma last_word_up a : forallb is_ascii a = true ->
  match last (map up a) with Some c => word_char c = false | None => True end <-> match last a with Some c => word_char c = false | None => True end.
Proof.
  destruct a as [|c a _] using rev_ind; [done|]. rewrite map_app, forallb_app. cbn [map forallb]. rewrite !last_snoc, andb_true_r.
  intros [_ Hc]%andb_true_iff. by destruct (upper_ascii c Hc) as [_ ->].
Qed.

(** The regular expression finds the keyword exactly where it stands as a word. *)
Lemma keyword_occurs kw s : forallb is_upper (chars kw) = true -> forallb is_ascii s = true ->
  has_keyword false (chars kw) (toUpperCase s) = true <-> occurs kw s.
Proof.
  intros Hk Hs. rewrite toUpperCase_ascii, has_keyword_spec by done. split.
  - intros (a' & b' & E & Ha & Hb). apply map_eq_app in E as (a & r & -> & <- & E). apply map_eq_app in E as (w & b & -> & Ew & <-).
    rewrite !forallb_app, !andb_true_iff in Hs. destruct Hs as (Hsa & Hsw & Hsb). exists a, w, b. split_and!; [done|by apply same_word_up| |].
    + apply last_word_up; [done|]. by destruct (last (map up a)).
    + by rewrite <- starts_word_up.
  - intros (a & w & b & -> & Hw & Ha & Hb). rewrite !forallb_app, !andb_true_iff in Hs. destruct Hs as (Hsa & Hsw & Hsb).
    exists (map up a), (map up b). rewrite !map_app. apply same_word_up in Hw as ->; [|done]. split_and!; [done| |by rewrite starts_word_up].
    apply last_word_up in Ha; [|done]. by destruct (last (map up a)).
Qed.

Definition name_char (c : ascii) : bool := is_alpha c || (c =? "_")%char.

Lemma leading_spec s : exists rest, s = leading_name s ++ rest /\ forallb name_char (leading_name s) = true /\
  match rest with c :: _ => name_char c = false | [] => True end.
Proof.
  induction s as [|c s (rest & E & Hn & Hr)]; [by exists []|]. cbn [leading_name]. fold (name_char c). destruct (name_char c) eqn:Ec; [|by exists (c :: s)].
  exists rest. cbn [app forallb]. rewrite Ec, Hn. split_and!; [by rewrite <- E|done|done].
Qed.

Lemma leading_name_app w rest : forallb name_char w = true -> match rest with c :: _ => name_char c = false | [] => True end ->
  leading_name (w ++ rest) = w.
Proof.
  intros Hw Hr. induction w as [|c w IH]; cbn [app].
  - destruct rest as [|c rest]; [done|]. cbn [leading_name]. fold (name_char c). by rewrite Hr.
  - cbn [forallb] in Hw. apply andb_true_iff in Hw as [Hc Hw]. cbn [leading_name]. fold (name_char c). rewrite Hc. by rewrite IH.
Qed.

Lemma not_name_char c : name_char c = false <-> is_alpha c = false /\ c <> "_"%char.
Proof. unfold name_char. rewrite orb_false_iff. destruct (Ascii.eqb_spec c "_"); intuition congruence. Qed.

Lemma letters_name w kw : forallb is_upper kw = true -> same_word kw w -> forallb name_char w = true.
Proof.
  intros Hk H. induction H as [|k c kw w Hkc _ IH]; [done|]. cbn [forallb] in *. apply andb_true_iff in Hk as [Hk Hkw].
  rewrite IH, andb_true_r by done. unfold name_char, is_alpha, is_lower. destruct Hkc as [->|E]; [by rewrite Hk|].
  unfold is_upper in Hk. rewrite andb_true_iff, !Z.leb_le in Hk.
  replace ((97 <=? code c) && (code c <=? 122)) with true; [by rewrite orb_true_r|]. symmetry. rewrite andb_true_iff, !Z.leb_le. lia.
Qed.

Lemma begins_spec kw s : forallb is_upper (chars kw) = true -> forallb is_ascii s = true ->
  toUpperCase (leading_name s) = chars kw <-> begins_with kw s.
Proof.
  intros Hk Hs. destruct (leading_spec s) as (rest & E & Hn & Hr). split.
  - intros Hu. exists (leading_name s), rest. split_and!; [done| |].
    + apply same_word_up; [done|]. rewrite <- toUpperCase_ascii; [done|]. rewrite E, forallb_app in Hs. by apply andb_true_iff in Hs as [Hs _].
    + destruct rest; [done|]. by apply not_name_char.
  - intros (w & r & -> & Hw & Hrr). rewrite leading_name_app; [|by eapply letters_name|destruct r; [done|by apply not_name_char]].
    rewrite forallb_app in Hs. apply andb_true_iff in Hs as [Hs _]. rewrite toUpperCase_ascii by done. by apply same_word_up.
Qed.

Lemma visible_ascii l : forallb is_ascii (render l) = true -> forallb is_ascii (visible l) = true.
Proof.
  induction l as [|p l IH]; [done|]. cbn [render visible flat_map]. fold (render l) (visible l). rewrite !forallb_app, !andb_true_iff.
  intros [Hp Hl]. split; [by destruct p|by apply IH].
Qed.

Lemma statement_ascii v s : forallb is_ascii v = true -> one_statement v s -> forallb is_ascii s = true.
Proof. intros Hv (_ & _ & a & m & b & _ & _ & _ & [-> | ->] & _); rewrite !forallb_app, !andb_true_iff in Hv; tauto. Qed.

(** The gate in terms of the statement of its text. *)
Lemma gate_spec sql : let s := statement_body (chars sql) in
  assertReadOnlyStatement sql = Ok tt <->
  s <> [] /\ ";"%char ∉ s /\ (toUpperCase (leading_name s) = chars "SELECT" \/ toUpperCase (leading_name s) = chars "WITH") /\
  Forall (fun kw => has_keyword false (chars kw) (toUpperCase s) <> true) DB_WRITE_KEYWORDS.
Proof.
  intros s. unfold assertReadOnlyStatement. fold s. cbv zeta. rewrite <- (has_char_elem ";" s).
  rewrite List.Forall_forall. assert (K : existsb (fun kw => has_keyword false (chars kw) (toUpperCase s)) DB_WRITE_KEYWORDS = false <->
    forall kw, In kw DB_WRITE_KEYWORDS -> has_keyword false (chars kw) (toUpperCase s) <> true).
  { rewrite <- not_true_iff_false, existsb_exists. split; [intros H kw Hi Hk; apply H; eauto|intros H (kw & Hi & Hk); by eapply H]. }
  rewrite <- K. clear K. destruct (has_char ";" s).
  { rewrite orb_true_r. split; [done|]. by intros (_ & N & _). }
  rewrite orb_false_r. case_bool_decide as Eb; [split; [done|tauto]|].
  destruct (existsb _ _); repeat case_bool_decide; cbn [negb andb]; intuition done.
Qed.

Lemma all_rows_bounds l rs : all_rows l = Ok rs ->
  length rs = length l /\ Forall (fun row => (length row <= DATABASE_MAX_COLUMNS)%nat /\ forallb cell_ok row = true) rs.
Proof.
  revert rs. induction l as [|r l IH]; intros rs; cbn [all_rows]; [by intros [= <-]|].
  destruct (row_cells r) as [c|] eqn:Er; [|done]. destruct (all_rows l) as [cs|]; [|done]. intros [= <-].
  destruct (IH cs eq_refl) as [Hl Hf]. split; [cbn; lia|]. constructor; [|done]. destruct r; try done. cbn [row_cells] in Er.
  destruct (forallb cell_ok _) eqn:Ef; [|done]. injection Er as <-. split; [rewrite length_take; lia|done].
Qed.

(** C40: An ASCII text of code and comments, written out as [pieces] of which no code
    opens a comment and no line comment opens a block, passes the gate exactly if its
    code alone, with blanks for the comments, is one statement (blanks around it, one
    semicolon at its end at most, none inside), begins with SELECT or WITH, and has none of
    the twelve write keywords as a word, in letters of either case, anywhere, in quotes too; and
    what a query returns is cut to the bounds and holds primitive values only.  The
    pieces are those of the database only if its quotes hold no comment marks:
    otherwise a text passes that hides a write (Example [hidden_deletes]). *)
Theorem core_query_gate dbQuery sql params pieces :
  chars sql = render pieces -> readable pieces = true -> forallb is_ascii (render pieces) = true ->
  (assertReadOnlyStatement sql = Ok tt <->
   exists s, one_statement (visible pieces) s /\ (begins_with "SELECT" s \/ begins_with "WITH" s) /\
     Forall (fun kw => ~ occurs kw s)
       ["ALTER"; "ATTACH"; "CREATE"; "DELETE"; "DETACH"; "DROP"; "INSERT"; "PRAGMA"; "REINDEX"; "REPLACE"; "UPDATE"; "VACUUM"]%string) /\
  (forall columns rows, coreQuery dbQuery sql params = Ok (columns, rows) ->
     assertReadOnlyStatement sql = Ok tt /\ (length columns <= DATABASE_MAX_COLUMNS)%nat /\ (length rows <= DATABASE_MAX_ROWS)%nat /\
     Forall (fun row => (length row <= DATABASE_MAX_COLUMNS)%nat /\ forallb cell_ok row = true) rows).
Proof.
  intros Hsql Hread Hascii. split.
  - assert (Hbody : forall s, one_statement (visible pieces) s <-> s = statement_body (chars sql) /\ s <> [] /\ ";"%char ∉ s).
    { intros s. rewrite statement_spec. unfold statement_body. rewrite Hsql. fold (without_blocks (render pieces)).
      by rewrite blocks_pass, lines_pass. }
    rewrite gate_spec. cbv zeta. set (s := statement_body (chars sql)) in *.
    assert (W : one_statement (visible pieces) s -> (toUpperCase (leading_name s) = chars "SELECT" \/ toUpperCase (leading_name s) = chars "WITH" <->
        begins_with "SELECT" s \/ begins_with "WITH" s) /\ (forall kw, In kw DB_WRITE_KEYWORDS -> has_keyword false (chars kw) (toUpperCase s) = true <-> occurs kw s)).
    { intros Hs%statement_ascii; [|by apply visible_ascii]. rewrite !begins_spec by done. split; [done|]. intros kw Hkw. apply keyword_occurs; [|done].
      revert kw Hkw. apply List.Forall_forall. by repeat (apply List.Forall_cons || apply List.Forall_nil). }
    change ["ALTER"; _; _; _; _; _; _; _; _; _; _; _]%string with DB_WRITE_KEYWORDS. split.
    + intros (Hne & Hsc & Hb & Hk). exists s. assert (Hs : one_statement (visible pieces) s) by by apply Hbody.
      destruct (W Hs) as [W1 W2]. split_and!; [done|by apply W1|]. rewrite List.Forall_forall in Hk |- *. intros kw Hi. rewrite <- W2 by done. by apply Hk.
    + intros (s' & Hs & Hb & Hk). pose proof (proj1 (Hbody s') Hs) as (-> & Hne & Hsc). destruct (W Hs) as [W1 W2].
      split_and!; [done|done|by apply W1|]. rewrite List.Forall_forall in Hk |- *. intros kw Hi. rewrite W2 by done. by apply Hk.
  - intros columns rows. unfold coreQuery. destruct (assertReadOnlyStatement sql) as [[]|]; [|done].
    destruct (assertBindableParams params); [|done]. cbn zeta. destruct (all_rows _) as [rs|] eqn:E; [|done]. intros [= <- <-].
    apply all_rows_bounds in E as [Hl Hf]. split_and!; [done|rewrite length_take; lia|rewrite Hl, length_take; lia|done].
Qed.

(** [SELECT id FROM chats; ] with a block and a line comment. *)
Definition sample_pieces : list Piece :=
  map Code (chars "SELECT id ") ++ [Block (chars " delete; ")] ++ map Code (chars " FROM chats;") ++ [Line (chars " drop")].

Lemma core_query_gate_witness :
  (assertReadOnlyStatement (str (render sample_pieces)) = Ok tt /\
   exists s, one_statement (visible sample_pieces) s /\ (begins_with "SELECT" s \/ begins_with "WITH" s) /\ ~ occurs "DELETE" s) /\
  (coreQuery (fun _ _ => (["id"%string], [VArr [VNum 1]])) (str (render sample_pieces)) [] = Ok (["id"%string], [[VNum 1]])).
Proof.
  assert (E : assertReadOnlyStatement (str (render sample_pieces)) = Ok tt) by (vm_compute; reflexivity).
  split; [split; [exact E|]|vm_compute; reflexivity].
  destruct (proj1 (proj1 (core_query_gate (fun _ _ => ([], [])) (str (render sample_pieces)) [] sample_pieces
    ltac:(vm_compute; reflexivity) ltac:(vm_compute; reflexivity) ltac:(vm_compute; reflexivity))) E) as (s & H1 & H2 & H3).
  exists s. split; [exact H1|]. split; [exact H2|]. rewrite List.Forall_forall in H3. apply H3. cbn. auto.
Defined.

(** Comments are taken out without regard to strings and in two passes, so that a
    statement that deletes can look like one that reads. *)
Example hidden_deletes :
  map assertReadOnlyStatement
    ["WITH a AS (SELECT '/*') DELETE FROM messages WHERE '*/' <> '' RETURNING id";
     String.append "WITH a AS (SELECT 1) -- /*" (String.append (str [LF]) "DELETE FROM messages RETURNING id -- */");
     "DELETE FROM messages RETURNING id"]%string = [Ok tt; Ok tt; Throw POLICY_DENIED].
Proof. vm_compute. reflexivity. Qed.

(** A keyword inside a string is refused. *)
Example quoted_keyword_refused : assertReadOnlyStatement "SELECT id FROM chats WHERE title = 'Update'" = Throw POLICY_DENIED.
Proof. vm_compute. reflexivity. Qed.

End SqlGate.

(** ** Executables and working directories *)

Module ProcessGate.
Import PathGate.

Record ProcessScope := MkProcessScope { executables : list word; cwdRoots : list word; defaultCwd : word }.

Definition is_slash (c : ascii) : bool := (c =? "/")%char || (c =? backslash)%char.

(** [s.replace(/\\/g, '/')] *)
Definition forward (s : word) : word := map (fun c => if (c =? backslash)%char then "/"%char else c) s.

(** [root.replace(/[\\/]+$/, '')] *)
Definition trim_slashes (root : word) : word := rev (drop_while is_slash (rev root)).

Definition inside_root (cwd root : word) : bool :=
  bool_decide (cwd = root) || starts_with (trim_slashes root ++ ["/"%char]) cwd || starts_with (trim_slashes root ++ [backslash]) cwd.

(** [scope]: what [scopeOf] answers; [unrestricted]: the plugin holds
    system.unrestricted. *)
Definition assertUnrestrictedOrScope (executable cwd : word) (scope : option ProcessScope) (unrestricted : bool) : outcome GateError word :=
  if unrestricted then Ok cwd
  else
    match scope with
    | None => Throw SYSTEM_UNRESTRICTED_REQUIRED
    | Some scope =>
        if negb (existsb (fun allowed => bool_decide (forward allowed = forward executable)) (executables scope)) then Throw PROCESS_SCOPE_DENIED
        else
          let effectiveCwd := if (length cwd =? 0)%nat then defaultCwd scope else cwd in
          if negb (existsb (inside_root effectiveCwd) (cwdRoots scope)) then Throw PROCESS_SCOPE_DENIED else Ok effectiveCwd
    end.

Lemma split_on_sep sep a b : split_on sep (a ++ sep :: b) = split_on sep a ++ split_on sep b.
Proof.
  induction a as [|c a IH]; cbn [app split_on]; [by rewrite Ascii.eqb_refl|]. destruct (Ascii.eqb_spec c sep); [by rewrite IH|].
  rewrite IH. pose proof (split_on_nonnil sep a). by destruct (split_on sep a).
Qed.

(** A directory name without steps up. *)
Definition no_climb (p : word) : Prop := backslash ∉ p /\ chars ".." ∉ split_on "/" p.

Lemma enter_below base ws :
  Forall (fun w => "/"%char ∉ w) ws -> chars ".." ∉ ws ->
  exists more, fold_left enter ws base = base ++ more /\ Forall (fun w => "/"%char ∉ w /\ special w = false) more.
Proof.
  intros H. revert base. induction H as [|w ws Hw H IH]; intros base Hc; [exists []; by rewrite app_nil_r|].
  apply not_elem_of_cons in Hc as [Hd Hc]. cbn [fold_left]. destruct (special w) eqn:S.
  - assert (E : enter base w = base).
    { unfold enter. unfold special in S. rewrite (bool_decide_false (w = chars "..")), orb_false_r in S by congruence. by rewrite S. }
    rewrite E. by apply IH.
  - rewrite enter_plain by done. destruct (IH (base ++ [w]) Hc) as (more & -> & Hm). exists (w :: more).
    rewrite <- app_assoc. split; [done|by constructor].
Qed.

Lemma trim_slashes_prefix root : backslash ∉ root -> exists k, root = trim_slashes root ++ replicate k "/"%char.
Proof.
  unfold trim_slashes. induction root as [|c root IH] using rev_ind; intros Hb; [by exists 0%nat|].
  rewrite rev_app_distr. cbn [rev app drop_while]. destruct (is_slash c) eqn:E.
  - assert (c = "/"%char) as ->.
    { unfold is_slash in E. apply orb_true_iff in E as [E|E]; apply Ascii.eqb_eq in E; [done|]. exfalso. apply Hb.
      subst. apply elem_of_app. right. by left. }
    destruct IH as [k Hk]; [intros Hx; apply Hb, elem_of_app; by left|]. exists (S k).
    rewrite Hk at 1. by rewrite <- app_assoc, replicate_S_end.
  - exists 0%nat. cbn [rev replicate]. by rewrite rev_involutive, app_nil_r.
Qed.

Lemma split_slashes a k : fold_left enter (split_on "/" (a ++ replicate k "/"%char)) [] = fold_left enter (split_on "/" a) [].
Proof.
  induction k as [|k IH]; [by rewrite app_nil_r|]. rewrite replicate_S_end, app_assoc, split_on_sep, fold_left_app, IH. done.
Qed.

(** Without system.unrestricted a process runs only with an executable of
    the scope and in a directory that lies, as a name, under one of its roots; if the
    name has no steps up, the directory lies there also after normalization. *)
Theorem process_scope_confined executable cwd scope effective :
  assertUnrestrictedOrScope executable cwd scope false = Ok effective ->
  exists s root, scope = Some s /\ root ∈ cwdRoots s /\
    (exists allowed, allowed ∈ executables s /\ forward allowed = forward executable) /\
    effective = (if (length cwd =? 0)%nat then defaultCwd s else cwd) /\ inside_root effective root = true /\
    (no_climb effective -> backslash ∉ root -> isPathWithinRoot (resolve [] [root]) (resolve [] [effective]) = true).
Proof.
  unfold assertUnrestrictedOrScope. destruct scope as [s|]; [|done]. destruct (existsb _ (executables s)) eqn:Ex; [|done]. cbn [negb]. cbn zeta.
  set (e := if (length cwd =? 0)%nat then _ else _). destruct (existsb (inside_root e) (cwdRoots s)) eqn:Er; [|done]. intros [= <-].
  apply existsb_exists in Ex as (allowed & Ha%elem_of_In & Hf%bool_decide_eq_true). apply existsb_exists in Er as (root & Hr%elem_of_In & Hi).
  exists s, root. split_and!; [done|done|by exists allowed|done|done|]. intros [Hb Hc] Hrb.
  unfold resolve. cbn [fold_left]. unfold resolve_arg. replace (if isAbsolute e then [] else []) with (@nil word) by by destruct (isAbsolute e).
  replace (if isAbsolute root then [] else []) with (@nil word) by by destruct (isAbsolute root).
  assert (Same : isPathWithinRoot (fold_left enter (split_on "/" root) []) (fold_left enter (split_on "/" root) []) = true)
    by (pose proof (within_below (fold_left enter (split_on "/" root) []) [] (Forall_nil_2 _)) as W; by rewrite app_nil_r in W).
  unfold inside_root in Hi. apply orb_true_iff in Hi as [Hi|Hi]; [apply orb_true_iff in Hi as [Hi|Hi]|].
  - apply bool_decide_eq_true in Hi. by rewrite Hi.
  - apply starts_with_app in Hi as [rest Hi]. rewrite <- app_assoc in Hi. cbn [app] in Hi. rewrite Hi in *.
    destruct (trim_slashes_prefix root Hrb) as [k Hk]. rewrite Hk at 1. rewrite split_slashes, split_on_sep, fold_left_app.
    rewrite split_on_sep in Hc. destruct (enter_below (fold_left enter (split_on "/" (trim_slashes root)) []) (split_on "/" rest)) as (more & -> & Hm).
    + apply split_on_clean.
    + intros Hx. apply Hc, elem_of_app. by right.
    + by apply within_below.
  - exfalso. apply Hb. apply starts_with_app in Hi as [rest ->]. rewrite !elem_of_app. left. right. by left.
Qed.

Lemma process_scope_confined_witness :
  let s := MkProcessScope [chars "/usr/bin/node"] [chars "/data/p/"] (chars "/data/p/") in
  assertUnrestrictedOrScope (chars "/usr/bin/node") (chars "/data/p/run") (Some s) false = Ok (chars "/data/p/run") /\
  isPathWithinRoot (resolve [] [chars "/data/p/"]) (resolve [] [chars "/data/p/run"]) = true.
Proof.
  cbn zeta. split; [reflexivity|].
  destruct (process_scope_confined (chars "/usr/bin/node") (chars "/data/p/run")
    (Some (MkProcessScope [chars "/usr/bin/node"] [chars "/data/p/"] (chars "/data/p/"))) _ ltac:(reflexivity))
    as (s & root & [= <-] & Hr & _ & _ & _ & H).
  apply list_elem_of_singleton in Hr as ->. apply H; [split|]; by apply (bool_decide_unpack _).
Defined.

(** A name with steps up passes and leads out of every root. *)
Example cwd_climbs :
  let s := MkProcessScope [chars "/usr/bin/node"] [chars "/data/p"] (chars "/data/p") in
  assertUnrestrictedOrScope (chars "/usr/bin/node") (chars "/data/p/../../etc") (Some s) false = Ok (chars "/data/p/../../etc") /\
  resolve [] [chars "/data/p/../../etc"] = [chars "etc"] /\
  isPathWithinRoot (resolve [] [chars "/data/p"]) (resolve [] [chars "/data/p/../../etc"]) = false.
Proof. split_and!; reflexivity. Qed.

End ProcessGate.
