(* ===== verification/EventRing.v ===== *)
(** * The event channel of the plugin host
    (apps/plugin-runtime/src/host/memoryHost.ts: buffers of events, replays that
    wait, live subscriptions)

    The host keeps the last events of every name; plugins read them with a cursor, may
    wait for the next one, and may subscribe.  One call or one turn of the event loop
    is one operation; the clock stands still within an operation.  A waiting call is a
    continuation in the state, known by its position in the list of calls. *)

From Stdlib Require Import ZArith Lia Bool Ascii String List.
From stdpp Require Import base decidable list strings.
From S2P Require Import Prelude.
Local Open Scope Z_scope.

Module EventRing.

Definition EVENTS_PER_NAME : nat := 128.
Definition EVENTS_TOTAL : nat := 4096.
Definition EVENTS_TTL_MS : Z := 60000.
Definition EVENTS_MAX_WAITERS : Z := 64.
Definition EVENTS_MAX_REPLAY_LIMIT : Z := 64.
Definition EVENTS_MAX_WAIT_MS : Z := 5000.
Definition EVENTS_MAX_SUBSCRIPTIONS_PER_PLUGIN : nat := 8.

(** ** State *)

Record EventEntry := MkEntry { seq : Z; emittedAt : Z; payload : Value }.
Record EventNameState := MkName { entries : list EventEntry; nextSeq : Z; evictedUpToSeq : Z }.

Record ReplayArgs := MkReplay { argName : string; cursor : option Z; limit : option Z }.
Record ReplayResult := MkResult { resEvents : list EventEntry; nextCursor : option Z }.

Inductive Error := EVENT_CURSOR_EXPIRED | VALIDATION_FAILED | SERVICE_UNAVAILABLE | Aborted | ReferenceError.

(** A call of [replayWithWait]: its waiter is in the set of the name; its wait is
    over and the loop goes on in a later turn; or it has returned or thrown. *)
Inductive Phase :=
| Waiting
| Awake (woke : bool)
| Done (result : outcome Error ReplayResult).

Record Call := MkCall { callArgs : ReplayArgs; budget : Z; deadline : Z; phase : Phase }.

Record EventSubscription := MkSub { subPlugin : string; subName : string }.

Record Host := MkHost {
  eventStates : list (string * EventNameState);
  waitersByEvent : list (string * list nat);
  waiterCount : Z;
  calls : list Call;
  subscriptions : list (string * EventSubscription);
  subscriptionsByPlugin : list (string * list string);
  subscriptionSeq : Z;
  pushed : list (string * string * EventEntry)
}.

Definition new_host : Host := MkHost [] [] 0 [] [] [] 0 [].

Definition set_states (m : list (string * EventNameState)) (h : Host) : Host :=
  MkHost m (waitersByEvent h) (waiterCount h) (calls h) (subscriptions h) (subscriptionsByPlugin h) (subscriptionSeq h) (pushed h).
Definition set_waiters (m : list (string * list nat)) (n : Z) (h : Host) : Host :=
  MkHost (eventStates h) m n (calls h) (subscriptions h) (subscriptionsByPlugin h) (subscriptionSeq h) (pushed h).
Definition set_calls (c : list Call) (h : Host) : Host :=
  MkHost (eventStates h) (waitersByEvent h) (waiterCount h) c (subscriptions h) (subscriptionsByPlugin h) (subscriptionSeq h) (pushed h).
Definition set_subs (s : list (string * EventSubscription)) (p : list (string * list string)) (q : Z) (h : Host) : Host :=
  MkHost (eventStates h) (waitersByEvent h) (waiterCount h) (calls h) s p q (pushed h).
Definition push (id name : string) (e : EventEntry) (h : Host) : Host :=
  MkHost (eventStates h) (waitersByEvent h) (waiterCount h) (calls h) (subscriptions h) (subscriptionsByPlugin h) (subscriptionSeq h)
    (pushed h ++ [(id, name, e)]).

(** ** The buffers *)

Definition fresh_name : EventNameState := MkName [] 1 0.

(** [eventState(name)]: made when it is not there. *)
Definition eventState (name : string) (m : list (string * EventNameState)) : list (string * EventNameState) * EventNameState :=
  match map_get name m with
  | Some s => (m, s)
  | None => (map_set name fresh_name m, fresh_name)
  end.

(** Removing entries from the front, the last removed number is remembered. *)
Definition shift (s : EventNameState) : EventNameState :=
  match entries s with
  | [] => s
  | e :: r => MkName r (nextSeq s) (Z.max (evictedUpToSeq s) (seq e))
  end.

Fixpoint sweep_entries (cutoff : Z) (es : list EventEntry) (s : EventNameState) : EventNameState :=
  match es with
  | e :: r => if emittedAt e <? cutoff then sweep_entries cutoff r (shift s) else s
  | [] => s
  end.

Definition sweepExpired (now : Z) (name : string) (m : list (string * EventNameState)) : list (string * EventNameState) :=
  match map_get name m with
  | None => m
  | Some s => map_set name (sweep_entries (now - EVENTS_TTL_MS) (entries s) s) m
  end.

(** The scan of [evictGlobalOldest]; no number stands for infinity. *)
Definition older (best : string * option Z) (ns : string * EventNameState) : string * option Z :=
  match entries ns.2 with
  | [] => best
  | e :: _ => if match best.2 with None => true | Some q => seq e <? q end then (ns.1, Some (seq e)) else best
  end.

Definition evictGlobalOldest (m : list (string * EventNameState)) : list (string * EventNameState) :=
  let name := fst (fold_left older m (""%string, None)) in
  if String.eqb name "" then m
  else match map_get name m with Some s => map_set name (shift s) m | None => m end.

(** [while (state.entries.length > EVENTS_PER_NAME)] *)
Fixpoint trim_entries (es : list EventEntry) (s : EventNameState) : EventNameState :=
  match es with
  | _ :: r => if (EVENTS_PER_NAME <? length es)%nat then trim_entries r (shift s) else s
  | [] => s
  end.

Definition total (m : list (string * EventNameState)) : nat := list_sum (map (fun ns => length (entries ns.2)) m).

Definition append_event (now : Z) (name : string) (value : Value) (m : list (string * EventNameState)) :
  list (string * EventNameState) * EventEntry :=
  let m := sweepExpired now name (fst (eventState name m)) in
  let s := snd (eventState name m) in
  let envelope := MkEntry (nextSeq s) now value in
  let s := MkName (entries s ++ [envelope]) (nextSeq s + 1) (evictedUpToSeq s) in
  let m := map_set name (trim_entries (entries s) s) m in
  (Nat.iter (total m - EVENTS_TOTAL) evictGlobalOldest m, envelope).

(** ** Waiters *)

(** [cleanup] of the waiter of call [k], and its result. *)
Definition settle (name : string) (k : nat) (p : Phase) (h : Host) : Host :=
  let h :=
    match map_get name (waitersByEvent h) with
    | None => h
    | Some set =>
        let set' := List.filter (fun x => negb (x =? k)%nat) set in
        set_waiters (match set' with [] => map_del name (waitersByEvent h) | _ => map_set name set' (waitersByEvent h) end)
          (waiterCount h - 1) h
    end in
  match calls h !! k with
  | Some c => set_calls (<[k := MkCall (callArgs c) (budget c) (deadline c) p]> (calls h)) h
  | None => h
  end.

(** [for (const waiter of [...waiters]) waiter.resolve()] *)
Definition wake_all (name : string) (h : Host) : Host :=
  match map_get name (waitersByEvent h) with
  | None => h
  | Some set => fold_left (fun h k => settle name k (Awake true) h) set h
  end.

(** ** Subscriptions *)

Definition remove_sub (id plugin : string) (h : Host) : Host :=
  set_subs (map_del id (subscriptions h))
    (match map_get plugin (subscriptionsByPlugin h) with
     | Some ids => map_set plugin (List.filter (fun x => negb (String.eqb x id)) ids) (subscriptionsByPlugin h)
     | None => subscriptionsByPlugin h
     end) (subscriptionSeq h) h.

(** [sink id]: what the push of the envelope answers. *)
Definition deliver (name : string) (e : EventEntry) (sink : string -> bool) (h : Host) (isub : string * EventSubscription) : Host :=
  if negb (String.eqb (subName isub.2) name) then h
  else
    let h := push isub.1 name e h in
    if sink isub.1 then h else remove_sub isub.1 (subPlugin isub.2) h.

Definition emit (now : Z) (name : string) (value : Value) (sink : option (string -> bool)) (h : Host) : Host :=
  let '(m, envelope) := append_event now name value (eventStates h) in
  let h := wake_all name (set_states m h) in
  match sink with
  | None => h
  | Some sink => fold_left (deliver name envelope sink) (subscriptions h) h
  end.

(** [`sub-${pluginId.slice(0, 24)}-${++subscriptionSeq}-${random}`] *)
Definition sub_id (plugin : string) (n : Z) (random : string) : string :=
  (String.append "sub-" (String.append (str (take 24 (chars plugin))) (String.append "-" (String.append (str (dec n)) (String.append "-" random)))))%string.

Definition subscribe (plugin name random : string) (h : Host) : Host * outcome Error string :=
  let owned := match map_get plugin (subscriptionsByPlugin h) with Some ids => length ids | None => 0%nat end in
  if (EVENTS_MAX_SUBSCRIPTIONS_PER_PLUGIN <=? owned)%nat then (h, Throw SERVICE_UNAVAILABLE)
  else
    let n := subscriptionSeq h + 1 in
    let id := sub_id plugin n random in
    let ids := match map_get plugin (subscriptionsByPlugin h) with Some ids => ids | None => [] end in
    (set_subs (map_set id (MkSub plugin name) (subscriptions h)) (map_set plugin (ids ++ [id]) (subscriptionsByPlugin h)) n h, Ok id).

Definition unsubscribe (plugin id : string) (h : Host) : Host :=
  match map_get id (subscriptions h) with
  | Some s => if String.eqb (subPlugin s) plugin then remove_sub id plugin h else h
  | None => h
  end.

(** ** Replays *)

Fixpoint after_cursor (c : Z) (es : list EventEntry) : option (list EventEntry) :=
  match es with
  | [] => None
  | e :: r => if c <? seq e then Some es else after_cursor c r
  end.

Definition readReplay (args : ReplayArgs) (m : list (string * EventNameState)) :
  list (string * EventNameState) * outcome Error ReplayResult :=
  let '(m, s) := eventState (argName args) m in
  let lim := match limit args with Some l => l | None => EVENTS_MAX_REPLAY_LIMIT end in
  let page es := let events := take (Z.to_nat lim) es in
    Ok (MkResult events (match last events with Some e => Some (seq e) | None => cursor args end)) in
  (m,
   match cursor args with
   | None => page (entries s)
   | Some c =>
       if c <? evictedUpToSeq s then Throw EVENT_CURSOR_EXPIRED
       else if nextSeq s <=? c then Throw VALIDATION_FAILED
       else match after_cursor c (entries s) with None => Ok (MkResult [] (Some c)) | Some es => page es end
   end).

Definition set_phase (k : nat) (p : Phase) (h : Host) : Host :=
  match calls h !! k with
  | Some c => set_calls (<[k := MkCall (callArgs c) (budget c) (deadline c) p]> (calls h)) h
  | None => h
  end.

(** [waitForEvent] of call [k].  With a signal that has been aborted before, the
    cleanup reads the timer before its declaration. *)
Definition waitForEvent (name : string) (k : nat) (aborted : bool) (h : Host) : Host :=
  if EVENTS_MAX_WAITERS <=? waiterCount h then set_phase k (Done (Throw SERVICE_UNAVAILABLE)) h
  else
    let set := match map_get name (waitersByEvent h) with Some set => set | None => [] end in
    let h := set_phase k Waiting (set_waiters (map_set name (set ++ [k]) (waitersByEvent h)) (waiterCount h + 1) h) in
    if aborted then settle name k (Done (Throw ReferenceError)) h else h.

(** One round of the loop of [replayWithWait]. *)
Definition replay_round (now : Z) (k : nat) (aborted : bool) (c : Call) (h : Host) : Host :=
  let name := argName (callArgs c) in
  let '(m, r) := readReplay (callArgs c) (sweepExpired now name (eventStates h)) in
  let h := set_states m h in
  match r with
  | Throw e => set_phase k (Done (Throw e)) h
  | Ok res =>
      if negb (bool_decide (resEvents res = [])) then set_phase k (Done (Ok res)) h
      else if (budget c <=? 0) || (deadline c - now <=? 0) then set_phase k (Done (Ok res)) h
      else waitForEvent name k aborted h
  end.

(** The call [events.replay] with the budget of its deadline. *)
Definition replay_budget (waitMs : option Z) (now deadlineAt : Z) : Z :=
  Z.min (Z.min (match waitMs with Some w => w | None => 0 end) EVENTS_MAX_WAIT_MS) (Z.max 0 (Z.max 0 (deadlineAt - now) - 25)).

Definition replayWithWait (now : Z) (args : ReplayArgs) (budgetMs : Z) (aborted : bool) (h : Host) : Host :=
  let c := MkCall args budgetMs (now + budgetMs) (Awake true) in
  replay_round now (length (calls h)) aborted c (set_calls (calls h ++ [c]) h).

(** The turn in which a call goes on after its wait. *)
Definition resume (now : Z) (k : nat) (aborted : bool) (h : Host) : Host :=
  match calls h !! k with
  | Some c =>
      match phase c with
      | Awake true => replay_round now k aborted c h
      | Awake false => let '(m, r) := readReplay (callArgs c) (eventStates h) in set_phase k (Done r) (set_states m h)
      | _ => h
      end
  | None => h
  end.

(** The timer and the signal of a waiter. *)
Definition end_wait (k : nat) (p : Phase) (h : Host) : Host :=
  match calls h !! k with
  | Some c => match phase c with Waiting => settle (argName (callArgs c)) k p h | _ => h end
  | None => h
  end.

(** ** Runs *)

Inductive Op :=
| Emit (now : Z) (name : string) (value : Value) (sink : option (string -> bool))
| Replay (now : Z) (plugin : string) (args : ReplayArgs) (waitMs : option Z) (deadlineAt : Z) (aborted : bool)
| Timeout (k : nat)
| AbortSignal (k : nat)
| Resume (now : Z) (k : nat) (aborted : bool)
| Subscribe (plugin name random : string)
| Unsubscribe (plugin id : string).

Definition step (h : Host) (op : Op) : Host :=
  match op with
  | Emit now name value sink => emit now name value sink h
  | Replay now _ args waitMs deadlineAt aborted => replayWithWait now args (replay_budget waitMs now deadlineAt) aborted h
  | Timeout k => end_wait k (Awake false) h
  | AbortSignal k => end_wait k (Done (Throw Aborted)) h
  | Resume now k aborted => resume now k aborted h
  | Subscribe plugin name random => fst (subscribe plugin name random h)
  | Unsubscribe plugin id => unsubscribe plugin id h
  end.

Definition run (ops : list Op) : Host := fold_left step ops new_host.


(** ** The buffers hold the end of the history *)

Definition add_event (name : string) (l : list EventEntry) (op : Op) : list EventEntry :=
  match op with
  | Emit now n value _ => if String.eqb n name then l ++ [MkEntry (Z.of_nat (length l) + 1) now value] else l
  | _ => l
  end.

(** Everything that was emitted under a name, numbered from one. *)
Definition history (name : string) (ops : list Op) : list EventEntry := fold_left (add_event name) ops [].

Definition numbered (l : list EventEntry) : Prop := forall i e, l !! i = Some e -> seq e = Z.of_nat i + 1.

(** A buffer is its history without the first [evictedUpToSeq] events. *)
Definition tracks (l : list EventEntry) (s : EventNameState) : Prop :=
  entries s = drop (Z.to_nat (evictedUpToSeq s)) l /\ 0 <= evictedUpToSeq s <= Z.of_nat (length l) /\ nextSeq s = Z.of_nat (length l) + 1.

Abbreviation States := (list (string * EventNameState)).

Definition tracked (H : string -> list EventEntry) (m : States) : Prop :=
  map_ok m /\ (forall name s, map_get name m = Some s -> tracks (H name) s) /\ (forall name, map_get name m = None -> H name = []).

Lemma numbered_snoc l now v : numbered l -> numbered (l ++ [MkEntry (Z.of_nat (length l) + 1) now v]).
Proof. intros N i e [[_ He]|[-> <-]]%lookup_snoc_Some; [by apply N|done]. Qed.

Lemma history_snoc name ops op : history name (ops ++ [op]) = add_event name (history name ops) op.
Proof. unfold history. by rewrite fold_left_app. Qed.

Lemma history_numbered name ops : numbered (history name ops).
Proof.
  induction ops as [|op ops IH] using rev_ind; [intros i e; by destruct i|].
  rewrite history_snoc. destruct op; cbn [add_event]; try done. destruct (_ =? _)%string; [by apply numbered_snoc|done].
Qed.

Lemma shift_tracks l s : numbered l -> tracks l s -> tracks l (shift s).
Proof.
  intros N (E & B & Hn). unfold shift. destruct (entries s) as [|e r] eqn:Es; [unfold tracks; by rewrite Es|].
  symmetry in E. assert (L : l !! Z.to_nat (evictedUpToSeq s) = Some e).
  { rewrite <- (Nat.add_0_r (Z.to_nat _)), <- lookup_drop. by rewrite E. }
  pose proof (N _ _ L) as Hs. apply lookup_lt_Some in L.
  unfold tracks. cbn [entries nextSeq evictedUpToSeq]. replace (Z.max _ _) with (evictedUpToSeq s + 1) by lia.
  split_and!; [|lia|lia|done]. replace (Z.to_nat (evictedUpToSeq s + 1)) with (S (Z.to_nat (evictedUpToSeq s))) by lia.
  rewrite <- Nat.add_1_r, <- drop_drop, E. done.
Qed.

Lemma sweep_tracks cutoff es l s : numbered l -> tracks l s -> tracks l (sweep_entries cutoff es s).
Proof.
  intros N. revert s. induction es as [|e es IH]; intros s T; cbn [sweep_entries]; [done|].
  destruct (_ <? _); [by apply IH, shift_tracks|done].
Qed.

Lemma trim_tracks es l s : numbered l -> tracks l s -> tracks l (trim_entries es s).
Proof.
  intros N. revert s. induction es as [|e es IH]; intros s T; cbn [trim_entries]; [done|].
  destruct (_ <? _)%nat; [by apply IH, shift_tracks|done].
Qed.

Section Tracked.
Context (H : string -> list EventEntry) (N : forall name, numbered (H name)).

Lemma tracked_set name s m : tracked H m -> tracks (H name) s -> tracked H (map_set name s m).
Proof.
  intros (O & T & F) Ts. split_and!; [by apply map_set_ok| |]; intros n.
  - intros s'. rewrite map_get_set. case_decide as E; [intros [= <-]; by subst|apply T].
  - rewrite map_get_set. case_decide; [done|apply F].
Qed.

Lemma tracked_state name m : tracked H m ->
  tracked H (fst (eventState name m)) /\ tracks (H name) (snd (eventState name m)) /\
  map_get name (fst (eventState name m)) = Some (snd (eventState name m)).
Proof.
  intros T. assert (T' := T). destruct T' as (O & G & F). unfold eventState. destruct (map_get name m) as [s|] eqn:E; cbn [fst snd]; [eauto|].
  assert (Fr : tracks (H name) fresh_name) by (rewrite (F _ E); split_and!; done || (cbn; lia)).
  split_and!; [by apply tracked_set|done|]. rewrite map_get_set. by rewrite decide_True.
Qed.

Lemma tracked_sweep now name m : tracked H m -> tracked H (sweepExpired now name m).
Proof.
  intros T. unfold sweepExpired. destruct (map_get name m) as [s|] eqn:E; [|done].
  apply tracked_set; [done|]. apply sweep_tracks; [done|]. by apply T.
Qed.

Lemma tracked_evict m : tracked H m -> tracked H (evictGlobalOldest m).
Proof.
  intros T. unfold evictGlobalOldest. destruct (_ =? "")%string; [done|]. destruct (map_get _ m) as [s|] eqn:E; [|done].
  apply tracked_set; [done|]. apply shift_tracks; [done|]. by apply T.
Qed.

Lemma tracked_read args m : tracked H m -> tracked H (fst (readReplay args m)).
Proof.
  intros T. unfold readReplay. destruct (tracked_state (argName args) m T) as (T1 & _ & _).
  by destruct (eventState (argName args) m) as [m1 s1].
Qed.
End Tracked.

Lemma tracked_append H now name value m :
  (forall n, numbered (H n)) -> tracked H m ->
  let e := MkEntry (Z.of_nat (length (H name)) + 1) now value in
  let H' n := if String.eqb name n then H n ++ [e] else H n in
  tracked H' (fst (append_event now name value m)) /\ snd (append_event now name value m) = e.
Proof.
  intros N T e H'. unfold append_event.
  destruct (tracked_state H name m T) as (T1 & _ & _). set (m1 := fst (eventState name m)) in *.
  pose proof (tracked_sweep H N now name m1 T1) as T2. set (m2 := sweepExpired now name m1) in *.
  destruct (tracked_state H name m2 T2) as (T3 & S3 & G3). cbn zeta. destruct (eventState name m2) as [m3 s3] eqn:E3. cbn [fst snd] in *.
  assert (m2 = m3) as ->.
  { unfold eventState in E3. destruct (map_get name m2) as [s|] eqn:E; [by simplify_eq|]. exfalso.
    unfold m2, sweepExpired in E. destruct (map_get name m1) as [s'|] eqn:E1; [rewrite map_get_set, decide_True in E by done; done|].
    unfold m1 in E1. destruct (tracked_state H name m T) as (_ & _ & G). by rewrite G in E1. }
  destruct S3 as (S1 & S2 & S4).
  assert (EE : MkEntry (nextSeq s3) now value = e) by (unfold e; by rewrite S4). rewrite EE. split; [|done].
  set (s4 := MkName (entries s3 ++ [e]) (nextSeq s3 + 1) (evictedUpToSeq s3)).
  assert (N' : forall n, numbered (H' n)).
  { intros n. unfold H'. destruct (String.eqb_spec name n) as [->|]; [by apply numbered_snoc|done]. }
  assert (T4 : tracks (H' name) s4).
  { unfold H', tracks, s4. rewrite String.eqb_refl. cbn [entries nextSeq evictedUpToSeq]. rewrite length_app. cbn [length].
    split_and!; [|lia|lia|lia]. rewrite S1, drop_app_le by lia. done. }
  assert (T5 : tracked H' (map_set name (trim_entries (entries s4) s4) m3)).
  { destruct T3 as (O & G & F). split_and!; [by apply map_set_ok| |]; intros n.
    - intros s'. rewrite map_get_set. case_decide as En; [intros [= <-]; subst; by apply trim_tracks|].
      unfold H'. rewrite (proj2 (String.eqb_neq name n) En). apply G.
    - rewrite map_get_set. case_decide as En; [done|]. unfold H'. rewrite (proj2 (String.eqb_neq name n) En). apply F. }
  revert T5. generalize (map_set name (trim_entries (entries s4) s4) m3). intros m5 T5.
  induction (total m5 - EVENTS_TOTAL)%nat as [|k IH]; [done|]. cbn [Nat.iter]. by apply tracked_evict.
Qed.

(** ** The buffers are bounded *)

Record bounded (t : nat) (m : States) : Prop := {
  bd_ok : map_ok m;
  bd_named : forall s, map_get ""%string m = Some s -> entries s = [];
  bd_name : forall name s, map_get name m = Some s -> (length (entries s) <= EVENTS_PER_NAME)%nat;
  bd_total : (total m <= t)%nat
}.

Lemma total_names_cons n s m : total ((n, s) :: m) = (length (entries s) + total m)%nat.
Proof. done. Qed.

Lemma total_present name s s' m :
  map_get name m = Some s -> (total (map_set name s' m) + length (entries s) = total m + length (entries s'))%nat.
Proof.
  unfold total. induction m as [|[k v] m IH]; [done|]. cbn [map_get map_set]. case_decide; [intros [= ->]; cbn; lia|].
  intros Hg. cbn. specialize (IH Hg). unfold list_sum in *. lia.
Qed.

Lemma total_absent name s' m : map_get name m = None -> total (map_set name s' m) = (total m + length (entries s'))%nat.
Proof.
  intros H. rewrite map_set_absent by done. unfold total. rewrite map_app, list_sum_app. cbn. lia.
Qed.

Lemma length_shift s : length (entries (shift s)) = pred (length (entries s)).
Proof. unfold shift. by destruct (entries s) eqn:E; [rewrite E|]. Qed.

Lemma sweep_shorter cutoff es s : (length (entries (sweep_entries cutoff es s)) <= length (entries s))%nat.
Proof.
  revert s. induction es as [|e es IH]; intros s; cbn [sweep_entries]; [done|]. destruct (_ <? _); [|done].
  etrans; [apply IH|]. rewrite length_shift. lia.
Qed.

Lemma trim_bounds es s :
  length es = length (entries s) -> (length (entries (trim_entries es s)) <= Nat.min EVENTS_PER_NAME (length (entries s)))%nat.
Proof.
  revert s. induction es as [|e es IH]; intros s El; cbn [trim_entries].
  - rewrite <- El. cbn. lia.
  - destruct (Nat.ltb_spec EVENTS_PER_NAME (length (e :: es))) as [Hl|Hl]; [|rewrite <- El; lia].
    cbn in El. etrans; [apply IH; rewrite length_shift; lia|]. rewrite length_shift. lia.
Qed.

Lemma bounded_set t t' name s s' m :
  bounded t m -> name <> ""%string \/ entries s' = [] -> map_get name m = Some s -> (length (entries s') <= EVENTS_PER_NAME)%nat ->
  (t + length (entries s') <= t' + length (entries s))%nat -> bounded t' (map_set name s' m).
Proof.
  intros [O Nm B T] Hn G L Ht. split; [by apply map_set_ok| | |].
  - intros x. rewrite map_get_set. case_decide; [intros [= <-]; by destruct Hn|apply Nm].
  - intros n x. rewrite map_get_set. case_decide; [by intros [= <-]|apply B].
  - pose proof (total_present name s s' m G). lia.
Qed.

Lemma bounded_state t name m : bounded t m -> bounded t (fst (eventState name m)).
Proof.
  intros [O Nm B T]. unfold eventState. destruct (map_get name m) as [s|] eqn:E; [done|]. cbn [fst]. split.
  - by apply map_set_ok.
  - intros x. rewrite map_get_set. case_decide; [by intros [= <-]|apply Nm].
  - intros n x. rewrite map_get_set. case_decide; [intros [= <-]; cbn; lia|apply B].
  - rewrite total_absent by done. cbn. lia.
Qed.

Lemma bounded_sweep t now name m : bounded t m -> bounded t (sweepExpired now name m).
Proof.
  intros B. unfold sweepExpired. destruct (map_get name m) as [s|] eqn:E; [|done].
  pose proof (sweep_shorter (now - EVENTS_TTL_MS) (entries s) s). pose proof (bd_name _ _ B _ _ E).
  eapply bounded_set; [exact B| |exact E|lia|lia].
  destruct (String.eqb_spec name "") as [->|]; [right|by left]. rewrite (bd_named _ _ B _ E). by apply (bd_named _ _ B).
Qed.

(** The scan finds a buffer that is not empty, if there is one. *)
Lemma oldest_found m best :
  (fold_left older m best = best /\ (best.2 = None -> total m = 0%nat)) \/
  exists s, ((fold_left older m best).1, s) ∈ m /\ entries s <> [].
Proof.
  revert best. induction m as [|[n s] m IH]; intros best; [by left|]. cbn [fold_left].
  assert (Step : (older best (n, s) = best /\ (best.2 = None -> entries s = [])) \/ (older best (n, s)).1 = n /\ entries s <> [] /\ (older best (n, s)).2 <> None).
  { unfold older. cbn [fst snd]. destruct (entries s) as [|e r]; [by left|]. destruct (best.2) as [q|]; [destruct (seq e <? q)|]; cbn; [right|left|right]; by split_and!. }
  destruct (IH (older best (n, s))) as [[Ef Z1]|(s' & Hs & He)]; [rewrite Ef|].
  - destruct Step as [[Eo Hb]|(En & He & Hne)].
    + rewrite Eo in *. left. split; [done|]. intros Hq. rewrite total_names_cons, (Hb Hq). by apply Z1.
    + right. exists s. rewrite En. split; [by left|done].
  - right. exists s'. split; [by right|done].
Qed.

Lemma bounded_evict t m : bounded (S t) m -> bounded t (evictGlobalOldest m).
Proof.
  intros B. unfold evictGlobalOldest. destruct (oldest_found m (""%string, None)) as [[-> Z1]|(s & Hs & He)].
  - cbn. destruct B as [O Nm Bn T]. split; try done. rewrite Z1 by done. lia.
  - set (n := fst _) in *. assert (G : map_get n m = Some s) by (apply elem_map_get; [apply B|done]).
    assert (Hn : n <> ""%string) by (intros E; rewrite E in G; apply He; by eapply bd_named).
    rewrite (proj2 (String.eqb_neq _ _) Hn), G. pose proof (bd_name _ _ B _ _ G). pose proof (length_shift s).
    destruct (entries s) as [|e r] eqn:Es; [done|]. cbn in *.
    eapply bounded_set; [exact B|by left|exact G|lia|rewrite Es; cbn; lia].
Qed.

Lemma bounded_append now name value m :
  bounded EVENTS_TOTAL m -> name <> ""%string -> bounded EVENTS_TOTAL (fst (append_event now name value m)).
Proof.
  intros B Hn. unfold append_event.
  pose proof (bounded_sweep _ now name _ (bounded_state _ name m B)) as B2. set (m2 := sweepExpired _ _ _) in *.
  cbn zeta.
  assert (G : map_get name m2 = Some (snd (eventState name m2))).
  { unfold eventState. destruct (map_get name m2) as [s|] eqn:E; [done|]. exfalso. unfold m2, sweepExpired, eventState in E.
    destruct (map_get name m) as [s|] eqn:E0; cbn [fst] in E; [rewrite E0, map_get_set, decide_True in E by done; done|].
    rewrite map_get_set, decide_True in E by done. by rewrite map_get_set, decide_True in E by done. }
  destruct (eventState name m2) as [m3 s3]. cbn [fst snd] in *.
  set (s4 := MkName _ _ _). pose proof (trim_bounds (entries s4) s4 eq_refl) as L. assert (L4 : length (entries s4) = S (length (entries s3))) by (unfold s4; cbn [entries]; rewrite length_app; cbn; lia).
  set (m5 := map_set name _ m2).
  assert (B5 : bounded (S EVENTS_TOTAL) m5) by (eapply bounded_set; [exact B2|by left|exact G|lia|lia]).
  clearbody m5. pose proof (bd_total _ _ B5) as T5.
  assert (It : forall k m, bounded (EVENTS_TOTAL + k) m -> bounded EVENTS_TOTAL (Nat.iter k evictGlobalOldest m)).
  { clear. induction k as [|k IH]; intros m B; [by rewrite Nat.add_0_r in B|].
    rewrite Nat.iter_succ_r. apply IH, bounded_evict. by rewrite Nat.add_succ_r in B. }
  apply It. destruct B5 as [O Nm Bn T]. split; [done..|lia].
Qed.

(** ** Waiters and calls agree *)

Definition is_waiting (c : Call) : bool := match phase c with Waiting => true | _ => false end.
Definition n_waiting (l : list Call) : nat := length (List.filter is_waiting l).

(** Call [k] waits for an event of the name. *)
Definition waits_for (name : string) (k : nat) (h : Host) : Prop :=
  exists c, calls h !! k = Some c /\ phase c = Waiting /\ argName (callArgs c) = name.

Record waits (h : Host) : Prop := {
  w_ok : map_ok (waitersByEvent h);
  w_set : forall name set, map_get name (waitersByEvent h) = Some set -> NoDup set /\ set <> [];
  w_iff : forall name k, waits_for name k h <-> exists set, map_get name (waitersByEvent h) = Some set /\ k ∈ set;
  w_count : waiterCount h = Z.of_nat (n_waiting (calls h));
  w_max : waiterCount h <= EVENTS_MAX_WAITERS
}.

Lemma n_waiting_insert l k c c' :
  l !! k = Some c ->
  (n_waiting (<[k:=c']> l) + (if is_waiting c then 1 else 0) = n_waiting l + (if is_waiting c' then 1 else 0))%nat.
Proof.
  unfold n_waiting. revert k. induction l as [|x l IH]; intros [|k] Hk; try done.
  - injection Hk as ->. change (<[0%nat:=c']> (c :: l)) with (c' :: l). cbn [List.filter].
    destruct (is_waiting c), (is_waiting c'); cbn; lia.
  - specialize (IH k Hk). change (<[S k:=c']> (x :: l)) with (x :: <[k:=c']> l). cbn [List.filter].
    destruct (is_waiting x); cbn; lia.
Qed.

Lemma waits_for_insert name j k c c' h calls' :
  calls h !! k = Some c -> calls' = <[k:=c']> (calls h) ->
  (exists d, calls' !! j = Some d /\ phase d = Waiting /\ argName (callArgs d) = name) <->
  if decide (j = k) then phase c' = Waiting /\ argName (callArgs c') = name else waits_for name j h.
Proof.
  intros Hk ->. unfold waits_for. case_decide as E.
  - subst j. rewrite list_lookup_insert_eq by by eapply lookup_lt_Some. split; [by intros (d & [= <-] & ?)|eauto].
  - by rewrite list_lookup_insert_ne by done.
Qed.

(** A call that does not wait changes to another phase without a wait. *)
Lemma set_phase_waits k p c h :
  waits h -> calls h !! k = Some c -> is_waiting c = false -> p <> Waiting -> waits (set_phase k p h).
Proof.
  intros W Hk Hc Hp. unfold set_phase. rewrite Hk. destruct W as [O S I C M]. split; cbn [set_calls set_waiters waitersByEvent waiterCount calls].
  - done.
  - done.
  - intros name j. rewrite <- I. unfold waits_for at 1. cbn [calls set_calls set_waiters].
    rewrite (waits_for_insert name j k c _ h _ Hk eq_refl). case_decide as E; [|done]. subst j. cbn.
    split; [by intros []|]. intros (d & Hd & Hw & _). rewrite Hk in Hd. injection Hd as <-. unfold is_waiting in Hc. by rewrite Hw in Hc.
  - rewrite C. pose proof (n_waiting_insert _ k c (MkCall (callArgs c) (budget c) (deadline c) p) Hk) as E. rewrite Hc in E.
    unfold is_waiting in E. cbn in E. destruct p; try done; lia.
  - done.
Qed.

Lemma set_states_waits m h : waits h -> waits (set_states m h).
Proof. by intros [O S I C M]. Qed.

(** What [settle] does to a call that waits. *)
Lemma settle_waits name k c p h :
  waits h -> calls h !! k = Some c -> phase c = Waiting -> argName (callArgs c) = name -> p <> Waiting ->
  waits (settle name k p h) /\ calls (settle name k p h) = <[k := MkCall (callArgs c) (budget c) (deadline c) p]> (calls h) /\
  eventStates (settle name k p h) = eventStates h /\ subscriptions (settle name k p h) = subscriptions h /\
  subscriptionsByPlugin (settle name k p h) = subscriptionsByPlugin h /\ pushed (settle name k p h) = pushed h.
Proof.
  intros W Hk Hw Hn Hp. destruct W as [O S I C M].
  destruct (proj1 (I name k)) as (set & G & Hin); [by exists c|]. destruct (S _ _ G) as [Nd Ne].
  unfold settle. rewrite G. cbn [set_waiters calls]. rewrite Hk. split; [|done].
  set (set' := List.filter _ set).
  set (m := match set' with [] => _ | _ => _ end).
  assert (Hset' : forall j, j ∈ set' <-> j ∈ set /\ j <> k).
  { intros j. unfold set'. rewrite elem_of_filter_bool, negb_true_iff, Nat.eqb_neq. done. }
  assert (Gm : forall n, map_get n m = if decide (name = n) then (match set' with [] => None | _ => Some set' end) else map_get n (waitersByEvent h)).
  { intros n. unfold m. destruct set'; [by apply map_get_del|apply map_get_set]. }
  split; cbn [set_calls set_waiters waitersByEvent waiterCount calls].
  - unfold m. destruct set'; [by apply map_del_ok|by apply map_set_ok].
  - intros n s. rewrite Gm. case_decide as E; [|apply S]. destruct set' as [|x r] eqn:Es; [done|]. intros [= <-]. split; [|done].
    rewrite <- Es. eapply sublist_NoDup; [exact Nd|]. apply filter_sublist.
  - intros n j. unfold waits_for at 1. cbn [calls set_calls set_waiters]. rewrite (waits_for_insert n j k c _ h _ Hk eq_refl). rewrite Gm. case_decide as Ej.
    + subst j. split; [by intros []|]. intros (s & Gs & Hs). exfalso. case_decide as En.
      * subst n. destruct set' as [|x r] eqn:Es; [done|]. injection Gs as <-. apply Hset' in Hs. tauto.
      * assert (Hx : waits_for n k h) by (apply I; eauto). destruct Hx as (d & Hd & _ & Hd'). congruence.
    + rewrite I. case_decide as En; [|done]. subst n. split.
      * intros (s & Gs & Hs). simplify_eq. assert (j ∈ set') as Hj by (apply Hset'; done).
        destruct set' as [|x r]; [by apply elem_of_nil in Hj|eauto].
      * intros (s & Gs & Hs). exists set. split; [done|]. destruct set' as [|x r] eqn:Es; [done|]. injection Gs as <-.
        apply Hset' in Hs. tauto.
  - rewrite C. pose proof (n_waiting_insert _ k c (MkCall (callArgs c) (budget c) (deadline c) p) Hk) as E.
    unfold is_waiting in E. cbn in E. rewrite Hw in E. destruct p; try done; lia.
  - lia.
Qed.

(** After [wake_all] the calls that waited for the name are awake and nothing else
    changes. *)
Lemma wake_fold name l h :
  waits h -> NoDup l -> (forall k, k ∈ l -> waits_for name k h) ->
  let h' := fold_left (fun h k => settle name k (Awake true) h) l h in
  waits h' /\ eventStates h' = eventStates h /\ subscriptions h' = subscriptions h /\
  subscriptionsByPlugin h' = subscriptionsByPlugin h /\ pushed h' = pushed h /\
  forall k c, calls h !! k = Some c ->
    calls h' !! k = Some (if decide (k ∈ l) then MkCall (callArgs c) (budget c) (deadline c) (Awake true) else c).
Proof.
  revert h. induction l as [|k l IH]; intros h W Nd Hl; cbn [fold_left].
  - cbn zeta. split_and!; try done.
  - apply NoDup_cons in Nd as [Hk Nd]. destruct (Hl k) as (c & Hc & Hw & Hn); [by left|].
    destruct (settle_waits name k c (Awake true) h W Hc Hw Hn) as (W1 & C1 & E1 & S1 & P1 & Q1); [done|].
    destruct (IH (settle name k (Awake true) h) W1 Nd) as (W2 & E2 & S2 & P2 & Q2 & C2).
    + intros j Hj. destruct (Hl j) as (d & Hd & Hdw & Hdn); [by right|]. exists d. split; [|done].
      rewrite C1, list_lookup_insert_ne; [done|]. by intros ->.
    + cbn zeta in *. rewrite E2, S2, P2, Q2. split_and!; try done. intros j d Hd.
      destruct (decide (j = k)) as [->|Hne].
      * rewrite (C2 k (MkCall (callArgs c) (budget c) (deadline c) (Awake true))).
        -- rewrite decide_False by done. rewrite decide_True by by left. by simplify_eq.
        -- rewrite C1, list_lookup_insert_eq; [done|]. by eapply lookup_lt_Some.
      * rewrite (C2 j d) by (rewrite C1, list_lookup_insert_ne by done; done). f_equal. apply decide_ext.
        rewrite elem_of_cons. tauto.
Qed.

Lemma wake_all_spec name h :
  waits h ->
  waits (wake_all name h) /\ eventStates (wake_all name h) = eventStates h /\ subscriptions (wake_all name h) = subscriptions h /\
  subscriptionsByPlugin (wake_all name h) = subscriptionsByPlugin h /\ pushed (wake_all name h) = pushed h /\
  forall k c, calls h !! k = Some c ->
    calls (wake_all name h) !! k =
      Some (if is_waiting c && String.eqb (argName (callArgs c)) name then MkCall (callArgs c) (budget c) (deadline c) (Awake true) else c).
Proof.
  intros W. unfold wake_all. destruct (map_get name (waitersByEvent h)) as [set|] eqn:G.
  - destruct (w_set _ W _ _ G) as [Nd _].
    assert (Hl : forall k, k ∈ set -> waits_for name k h) by (intros k Hk; apply (w_iff _ W); eauto).
    destruct (wake_fold name set h W Nd Hl) as (W1 & E1 & S1 & P1 & Q1 & C1). split_and!; try done.
    intros k c Hc. rewrite (C1 k c Hc). case_decide as Hk.
    + destruct (Hl k Hk) as (d & Hd & Hw & Hn). simplify_eq. unfold is_waiting. by rewrite Hw, String.eqb_refl.
    + destruct (is_waiting c && _) eqn:E; [|done]. exfalso. apply Hk. bools.
      destruct (proj1 (w_iff _ W name k)) as (s & Gs & Hs); [|by simplify_eq]. exists c. unfold is_waiting in *. by destruct (phase c).
  - split_and!; try done. intros k c Hc. destruct (is_waiting c && _) eqn:E; [|done]. exfalso. bools.
    destruct (proj1 (w_iff _ W name k)) as (s & Gs & _); [|congruence]. exists c. unfold is_waiting in *. by destruct (phase c).
Qed.

Lemma wait_call_waits name k c aborted h :
  waits h -> calls h !! k = Some c -> is_waiting c = false -> argName (callArgs c) = name -> waits (waitForEvent name k aborted h).
Proof.
  intros W Hk Hc Hn. unfold waitForEvent. destruct (Z.leb_spec EVENTS_MAX_WAITERS (waiterCount h)) as [|Hlt]; [by eapply set_phase_waits|].
  set (old := match map_get name (waitersByEvent h) with Some s => s | None => [] end). unfold set_phase. cbn [set_waiters calls]. rewrite Hk.
  set (h1 := set_calls _ _).
  assert (W1 : waits h1).
  { assert (W0 := W). destruct W as [O S I C M]. split; cbn [h1 set_calls set_waiters waitersByEvent waiterCount calls].
    - by apply map_set_ok.
    - assert (Ho : NoDup old /\ k ∉ old).
      { unfold old. destruct (map_get name (waitersByEvent h)) as [s|] eqn:G; [|split; [constructor|by intros ?%elem_of_nil]].
        destruct (S _ _ G) as [Nd _]. split; [done|]. intros Hi. destruct (proj2 (I name k)) as (d & Hd & Hw & _); [eauto|].
        simplify_eq. unfold is_waiting in Hc. by rewrite Hw in Hc. }
      intros n s. rewrite map_get_set. case_decide; [|apply S]. intros [= <-]. split; [|by destruct old].
      apply NoDup_app. split_and!; [apply Ho| |apply NoDup_singleton]. intros x Hx Hy%list_elem_of_singleton. subst. by apply Ho.
    - intros n j. unfold waits_for at 1. cbn [h1 calls set_calls set_waiters]. rewrite (waits_for_insert n j k c _ h _ Hk eq_refl), map_get_set. cbn [phase callArgs]. case_decide as Ej.
      + subst j. split.
        * intros [_ En]. assert (name = n) as -> by congruence. rewrite decide_True by done. eexists. split; [done|]. apply elem_of_app. right. by left.
        * intros (s & Gs & Hs). split; [done|]. case_decide as En; [congruence|]. exfalso.
          destruct (proj2 (I n k)) as (d & Hd & Hw & _); [eauto|]. simplify_eq. unfold is_waiting in Hc. by rewrite Hw in Hc.
      + rewrite I. case_decide as En; [|done]. subst n. unfold old. split.
        * intros (s & -> & Hs). eexists. split; [done|]. apply elem_of_app. by left.
        * intros (s & [= <-] & Hs). apply elem_of_app in Hs as [Hs|Hs%list_elem_of_singleton]; [|done].
          destruct (map_get name (waitersByEvent h)); [eauto|by apply elem_of_nil in Hs].
    - rewrite C. pose proof (n_waiting_insert _ k c (MkCall (callArgs c) (budget c) (deadline c) Waiting) Hk) as E. rewrite Hc in E.
      cbn in E. lia.
    - lia. }
  destruct aborted; [|exact W1].
  eapply (settle_waits name k (MkCall (callArgs c) (budget c) (deadline c) Waiting)); [exact W1| |done|done|done].
  cbn [h1 set_calls calls]. apply list_lookup_insert_eq. by eapply lookup_lt_Some.
Qed.

(** ** Subscriptions *)

Record subscribed (h : Host) : Prop := {
  sb_ok : map_ok (subscriptions h);
  sb_owned : forall id s, map_get id (subscriptions h) = Some s ->
    exists ids, map_get (subPlugin s) (subscriptionsByPlugin h) = Some ids /\ id ∈ ids;
  sb_max : forall plugin ids, map_get plugin (subscriptionsByPlugin h) = Some ids -> (length ids <= EVENTS_MAX_SUBSCRIPTIONS_PER_PLUGIN)%nat
}.

Lemma remove_subscribed id s h : subscribed h -> map_get id (subscriptions h) = Some s -> subscribed (remove_sub id (subPlugin s) h).
Proof.
  intros [O W M] Hs. unfold remove_sub. split; cbn [set_subs subscriptions subscriptionsByPlugin]; [by apply map_del_ok| |].
  - intros i s'. rewrite map_get_del by done. case_decide as Ei; [done|]. intros G. destruct (W _ _ G) as (ids & Gi & Hi).
    destruct (map_get (subPlugin s) _) as [ids'|] eqn:G'; [|by exists ids]. rewrite map_get_set. case_decide as Ep; [|by exists ids].
    eexists. split; [done|]. apply elem_of_filter_bool. split; [congruence|]. by rewrite (proj2 (String.eqb_neq i id)).
  - intros plugin ids. destruct (map_get (subPlugin s) _) as [ids'|] eqn:G'; [|apply M]. rewrite map_get_set. case_decide; [|apply M].
    intros [= <-]. etrans; [apply filter_length_le|]. by eapply M.
Qed.

(** The entries that the push of an event ends. *)
Definition dropped (name : string) (sink : string -> bool) (isub : string * EventSubscription) : bool :=
  String.eqb (subName isub.2) name && negb (sink isub.1).

Lemma deliver_fold name e sink l h :
  subscribed h -> NoDup l.*1 -> (forall isub, isub ∈ l -> map_get isub.1 (subscriptions h) = Some isub.2) ->
  let h' := fold_left (deliver name e sink) l h in
  subscribed h' /\ eventStates h' = eventStates h /\ waitersByEvent h' = waitersByEvent h /\ waiterCount h' = waiterCount h /\
  calls h' = calls h /\ subscriptionSeq h' = subscriptionSeq h /\
  pushed h' = pushed h ++ map (fun isub => (isub.1, name, e)) (List.filter (fun isub => String.eqb (subName isub.2) name) l) /\
  (forall id, map_get id (subscriptions h') =
     if existsb (fun isub => String.eqb isub.1 id && dropped name sink isub) l then None else map_get id (subscriptions h)).
Proof.
  revert h. induction l as [|[i s] l IH]; intros h S Nd Hl; cbn [fold_left].
  { cbn. rewrite app_nil_r. by split_and!. }
  apply NoDup_cons in Nd as [Hi Nd].
  assert (Gi : map_get i (subscriptions h) = Some s) by apply (Hl (i, s) ltac:(by left)).
  assert (Hr : forall isub, isub ∈ l -> isub.1 <> i).
  { intros isub Hin E. apply Hi. rewrite <- E. apply list_elem_of_fmap. by exists isub. }
  assert (D : let h1 := deliver name e sink h (i, s) in
    subscribed h1 /\ eventStates h1 = eventStates h /\ waitersByEvent h1 = waitersByEvent h /\ waiterCount h1 = waiterCount h /\
    calls h1 = calls h /\ subscriptionSeq h1 = subscriptionSeq h /\
    pushed h1 = pushed h ++ (if String.eqb (subName s) name then [(i, name, e)] else []) /\
    (forall id, map_get id (subscriptions h1) = if String.eqb i id && dropped name sink (i, s) then None else map_get id (subscriptions h))).
  { unfold deliver, dropped. cbn [fst snd]. destruct (String.eqb (subName s) name); cbn [negb andb].
    - assert (S1 : subscribed (push i name e h)) by (by destruct S). destruct (sink i); cbn [negb].
      + split_and!; try done. intros id. by rewrite andb_false_r.
      + split_and!; try done; [by apply remove_subscribed|]. intros id. cbn [remove_sub set_subs subscriptions push].
        rewrite map_get_del by apply S. rewrite andb_true_r. destruct (String.eqb_spec i id); by case_decide.
    - rewrite app_nil_r. split_and!; try done. intros id. by rewrite andb_false_r. }
  cbn zeta in D. destruct D as (S1 & E1 & W1 & C1 & K1 & Q1 & P1 & G1). set (h1 := deliver name e sink h (i, s)) in *.
  destruct (IH h1 S1 Nd) as (S2 & E2 & W2 & C2 & K2 & Q2 & P2 & G2).
  { intros isub Hin. rewrite G1. rewrite (proj2 (String.eqb_neq i isub.1)) by (intros E; by apply (Hr isub Hin)). apply Hl. by right. }
  cbn zeta. rewrite E2, W2, C2, K2, Q2, P2, P1. split_and!; try done.
  - rewrite <- app_assoc. f_equal. cbn [List.filter snd]. by destruct (String.eqb (subName s) name).
  - intros id. rewrite G2, G1. cbn [existsb fst]. destruct (existsb _ l); [by rewrite orb_true_r|]. by rewrite orb_false_r.
Qed.

(** ** Everything at once *)

(** An event of the host has a name. *)
Definition op_ok (op : Op) : Prop := match op with Emit _ name _ _ => name <> ""%string | _ => True end.

Record good (H : string -> list EventEntry) (h : Host) : Prop := {
  gd_tracked : tracked H (eventStates h);
  gd_waits : waits h;
  gd_subs : subscribed h
}.

Lemma settle_frame name k p h :
  eventStates (settle name k p h) = eventStates h /\ subscriptions (settle name k p h) = subscriptions h /\
  subscriptionsByPlugin (settle name k p h) = subscriptionsByPlugin h.
Proof. unfold settle. repeat case_match; done. Qed.

Lemma set_phase_frame k p h :
  eventStates (set_phase k p h) = eventStates h /\ subscriptions (set_phase k p h) = subscriptions h /\
  subscriptionsByPlugin (set_phase k p h) = subscriptionsByPlugin h.
Proof. unfold set_phase. by case_match. Qed.

Lemma wait_frame name k aborted h :
  eventStates (waitForEvent name k aborted h) = eventStates h /\ subscriptions (waitForEvent name k aborted h) = subscriptions h /\
  subscriptionsByPlugin (waitForEvent name k aborted h) = subscriptionsByPlugin h.
Proof.
  unfold waitForEvent, settle, set_phase. by repeat case_match.
Qed.

Lemma good_frame H h h' m :
  good H h -> tracked H m -> eventStates h' = m -> waits h' -> subscriptions h' = subscriptions h ->
  subscriptionsByPlugin h' = subscriptionsByPlugin h -> good H h'.
Proof. intros [_ _ [O W M]] T E Wt Es Ep. split; [by rewrite E|done|]. split; rewrite ?Es, ?Ep; done. Qed.

Lemma waits_snoc c h : waits h -> is_waiting c = false -> waits (set_calls (calls h ++ [c]) h).
Proof.
  intros [O S I C M] Hc. split; cbn [set_calls waitersByEvent waiterCount calls]; try done.
  - intros name k. rewrite <- I. unfold waits_for. cbn [set_calls calls]. split.
    + intros (d & Hd & Hw & Hn). apply lookup_snoc_Some in Hd as [[_ Hd]|[_ ->]]; [by exists d|]. unfold is_waiting in Hc. by rewrite Hw in Hc.
    + intros (d & Hd & Hw & Hn). exists d. split; [|done]. apply lookup_app_l_Some, Hd.
  - unfold n_waiting. rewrite List.filter_app. cbn [List.filter]. by rewrite Hc, app_nil_r.
Qed.

Section Steps.
Context (H : string -> list EventEntry) (N : forall name, numbered (H name)).

Lemma round_good now k aborted c h :
  good H h -> calls h !! k = Some c -> is_waiting c = false -> good H (replay_round now k aborted c h).
Proof.
  intros G Hk Hc. unfold replay_round. set (name := argName (callArgs c)).
  pose proof (tracked_read H (callArgs c) _ (tracked_sweep H N now name _ (gd_tracked _ _ G))) as T.
  destruct (readReplay (callArgs c) _) as [m r]. cbn [fst] in T.
  assert (P : forall p, p <> Waiting -> good H (set_phase k p (set_states m h))).
  { intros p Hp. destruct (set_phase_frame k p (set_states m h)) as (E1 & E2 & E3).
    eapply good_frame; [exact G|exact T|by rewrite E1| |by rewrite E2|by rewrite E3].
    by eapply (set_phase_waits k p c (set_states m h)); [apply set_states_waits, G|..]. }
  destruct r as [res|e]; [|by apply P]. destruct (negb _); [by apply P|]. destruct (_ || _); [by apply P|].
  destruct (wait_frame name k aborted (set_states m h)) as (E1 & E2 & E3).
  eapply good_frame; [exact G|exact T|by rewrite E1| |by rewrite E2|by rewrite E3].
  by eapply (wait_call_waits name k c aborted (set_states m h)); [apply set_states_waits, G|..].
Qed.

Lemma end_wait_good k p h : good H h -> p <> Waiting -> good H (end_wait k p h).
Proof.
  intros G Hp. unfold end_wait. destruct (calls h !! k) as [c|] eqn:Hk; [|done]. destruct (phase c) eqn:Hw; [|done..].
  destruct (settle_waits _ k c p h (gd_waits _ _ G) Hk Hw eq_refl Hp) as (W & _ & E1 & E2 & E3 & _).
  eapply good_frame; [exact G|apply G|exact E1|exact W|exact E2|exact E3].
Qed.

Lemma resume_good now k aborted h : good H h -> good H (resume now k aborted h).
Proof.
  intros G. unfold resume. destruct (calls h !! k) as [c|] eqn:Hk; [|done]. destruct (phase c) as [|[]|] eqn:Hp; [done| | |done].
  - apply round_good; try done. unfold is_waiting. by rewrite Hp.
  - pose proof (tracked_read H (callArgs c) _ (gd_tracked _ _ G)) as T. destruct (readReplay _ _) as [m r].
    destruct (set_phase_frame k (Done r) (set_states m h)) as (E1 & E2 & E3).
    eapply good_frame; [exact G|exact T|by rewrite E1| |by rewrite E2|by rewrite E3].
    eapply (set_phase_waits k (Done r) c (set_states m h)); [apply set_states_waits, G|done| |done]. unfold is_waiting. by rewrite Hp.
Qed.

Lemma replay_good now args b aborted h : good H h -> good H (replayWithWait now args b aborted h).
Proof.
  intros G. unfold replayWithWait. apply round_good.
  - eapply good_frame; [exact G|apply G|done|by apply waits_snoc; [apply G|]|done|done].
  - cbn [set_calls calls]. by rewrite list_lookup_middle.
  - done.
Qed.

Lemma subscribe_good plugin name random h : good H h -> good H (fst (subscribe plugin name random h)).
Proof.
  intros [T W [O Ow M]]. unfold subscribe. destruct (Nat.leb_spec EVENTS_MAX_SUBSCRIPTIONS_PER_PLUGIN
    (match map_get plugin (subscriptionsByPlugin h) with Some ids => length ids | None => 0%nat end)) as [|Hl]; [done|]. cbn [fst].
  set (id := sub_id _ _ _). set (ids := match map_get plugin (subscriptionsByPlugin h) with Some ids => ids | None => [] end).
  split; [done|by destruct W|]. split; cbn [set_subs subscriptions subscriptionsByPlugin]; [by apply map_set_ok| |].
  - intros i s. rewrite map_get_set. case_decide as Ei.
    + intros [= <-]. subst. cbn [subPlugin]. rewrite map_get_set, decide_True by done. eexists. split; [done|]. apply elem_of_app. right. by left.
    + intros G. destruct (Ow _ _ G) as (l & Gl & Hl'). rewrite map_get_set. case_decide as Ep; [|by exists l]. subst plugin.
      eexists. split; [done|]. apply elem_of_app. left. unfold ids. by rewrite Gl.
  - intros p l. rewrite map_get_set. case_decide; [|apply M]. intros [= <-]. rewrite length_app. cbn. unfold ids.
    destruct (map_get plugin (subscriptionsByPlugin h)); cbn; lia.
Qed.

Lemma unsubscribe_good plugin id h : good H h -> good H (unsubscribe plugin id h).
Proof.
  intros G. unfold unsubscribe. destruct (map_get id (subscriptions h)) as [s|] eqn:E; [|done].
  destruct (String.eqb_spec (subPlugin s) plugin) as [<-|]; [|done]. split; [apply G|by destruct (gd_waits _ _ G)|].
  apply remove_subscribed; [apply G|done].
Qed.
End Steps.

Lemma tracked_ext H H' m : tracked H m -> (forall n, H' n = H n) -> tracked H' m.
Proof. intros (O & T & F) E. split_and!; [done| |]; intros n; rewrite E; auto. Qed.

Lemma emit_spec H now name value sink h :
  (forall n, numbered (H n)) -> good H h ->
  let e := MkEntry (Z.of_nat (length (H name)) + 1) now value in
  let h' := emit now name value sink h in
  good (fun n => if String.eqb name n then H n ++ [e] else H n) h' /\
  eventStates h' = fst (append_event now name value (eventStates h)) /\
  (forall k c, calls h !! k = Some c -> calls h' !! k =
     Some (if is_waiting c && String.eqb (argName (callArgs c)) name then MkCall (callArgs c) (budget c) (deadline c) (Awake true) else c)) /\
  match sink with
  | None => pushed h' = pushed h
  | Some f =>
      pushed h' = pushed h ++ map (fun isub => (isub.1, name, e)) (List.filter (fun isub => String.eqb (subName isub.2) name) (subscriptions h)) /\
      forall id, map_get id (subscriptions h') =
        match map_get id (subscriptions h) with Some s => if dropped name f (id, s) then None else Some s | None => None end
  end.
Proof.
  intros N G e h'. unfold h', emit. destruct (tracked_append H now name value (eventStates h) N (gd_tracked _ _ G)) as [T Ee].
  destruct (append_event now name value (eventStates h)) as [m envelope]. cbn [fst snd] in *. subst envelope.
  destruct (wake_all_spec name (set_states m h) (set_states_waits m h (gd_waits _ _ G))) as (W & E1 & S1 & P1 & Q1 & C1).
  cbn [set_states eventStates subscriptions subscriptionsByPlugin pushed calls] in *. set (h1 := wake_all name (set_states m h)) in *.
  assert (Sb : subscribed h1) by (destruct (gd_subs _ _ G) as [O Ow M]; split; rewrite ?S1, ?P1; done).
  destruct sink as [f|].
  - rewrite S1. assert (Sl : subscriptions h = subscriptions h1) by done.
    destruct (deliver_fold name e f (subscriptions h) h1 Sb) as (S2 & E2 & W2 & C2 & K2 & _ & P2 & G2).
    { apply (gd_subs _ _ G). }
    { intros [i s] Hin. rewrite S1. apply elem_map_get; [apply (gd_subs _ _ G)|done]. }
    cbn zeta in *. set (h2 := fold_left _ _ _) in *. split_and!.
    + split; [by rewrite E2, E1|destruct W as [A B C D F]; split; unfold waits_for in *; rewrite ?W2, ?C2, ?K2; done|done].
    + by rewrite E2.
    + intros k c Hc. by rewrite K2, (C1 k c Hc).
    + by rewrite P2, Q1.
    + intros id. rewrite G2, S1. destruct (map_get id (subscriptions h)) as [s|] eqn:E.
      * destruct (existsb _ _) eqn:X.
        -- apply existsb_exists in X as ([i s'] & Hin%elem_of_In & B). cbn [fst] in B. apply andb_true_iff in B as [->%String.eqb_eq D].
           apply elem_map_get in Hin; [|apply (gd_subs _ _ G)]. simplify_eq. by rewrite D.
        -- destruct (dropped name f (id, s)) eqn:D; [|done]. exfalso. rewrite <- not_true_iff_false in X. apply X.
           apply existsb_exists. exists (id, s). cbn [fst]. rewrite String.eqb_refl. split; [|done]. by apply elem_of_In, map_get_elem.
      * by destruct (existsb _ _).
  - split_and!; [split; [by rewrite E1|done|done]|done|by intros k c Hc; rewrite (C1 k c Hc)|done].
Qed.

Lemma run_good ops : good (fun n => history n ops) (run ops).
Proof.
  induction ops as [|op ops IH] using rev_ind.
  { split.
    - split_and!; [constructor|done|done].
    - split; [constructor|done| |done|done]. intros name k. split; [by intros (c & Hc & _)|by intros (s & Hs & _)].
    - split; [constructor|done|done]. }
  unfold run in *. rewrite fold_left_app. cbn [fold_left]. set (h := fold_left step ops new_host) in *.
  assert (N : forall n, numbered (history n ops)) by (intros; apply history_numbered).
  assert (Same : (forall n, add_event n (history n ops) op = history n ops) -> good (fun n => history n ops) (step h op) -> good (fun n => history n (ops ++ [op])) (step h op)).
  { intros E [T W S]. split; [|done|done]. eapply tracked_ext; [exact T|]. intros n. by rewrite history_snoc. }
  destruct op; cbn [step].
  - destruct (emit_spec (fun n => history n ops) now name value sink h N IH) as ([T W S] & _). split; [|done|done].
    eapply tracked_ext; [exact T|]. intros n. rewrite history_snoc. cbn [add_event]. by destruct (String.eqb_spec name n) as [->|].
  - apply Same; [done|]. by apply replay_good.
  - apply Same; [done|]. by apply end_wait_good.
  - apply Same; [done|]. by apply end_wait_good.
  - apply Same; [done|]. by apply resume_good.
  - apply Same; [done|]. by apply subscribe_good.
  - apply Same; [done|]. by apply unsubscribe_good.
Qed.

Lemma run_bounded ops : Forall op_ok ops -> bounded EVENTS_TOTAL (eventStates (run ops)).
Proof.
  induction ops as [|op ops IH] using rev_ind; intros Ok.
  { split; [constructor|done|done|cbn; lia]. }
  apply Forall_app in Ok as [Ok Hop]. inversion_clear Hop as [|? ? Ho _]. specialize (IH Ok).
  pose proof (run_good ops) as G. assert (N : forall n, numbered (history n ops)) by (intros; apply history_numbered).
  unfold run in *. rewrite fold_left_app. cbn [fold_left]. set (h := fold_left step ops new_host) in *.
  assert (Rd : forall args m, bounded EVENTS_TOTAL m -> bounded EVENTS_TOTAL (fst (readReplay args m))).
  { intros args m B. unfold readReplay. pose proof (bounded_state _ (argName args) m B). by destruct (eventState (argName args) m). }
  assert (Rr : forall now k ab c h, bounded EVENTS_TOTAL (eventStates h) -> bounded EVENTS_TOTAL (eventStates (replay_round now k ab c h))).
  { intros now k ab c h' B. unfold replay_round. pose proof (Rd (callArgs c) _ (bounded_sweep _ now (argName (callArgs c)) _ B)) as B'.
    destruct (readReplay _ _) as [m r]. cbn [fst] in B'.
    assert (P : forall p, eventStates (set_phase k p (set_states m h')) = m) by (intros p; by destruct (set_phase_frame k p (set_states m h')) as (-> & _)).
    repeat case_match; rewrite ?P; try done. by destruct (wait_frame (argName (callArgs c)) k ab (set_states m h')) as (-> & _). }
  destruct op; cbn [step].
  - destruct (emit_spec (fun n => history n ops) now name value sink h N G) as (_ & -> & _). by apply bounded_append.
  - unfold replayWithWait. by apply Rr.
  - unfold end_wait. repeat case_match; try done. by destruct (settle_frame (argName (callArgs c)) k (Awake false) h) as (-> & _).
  - unfold end_wait. repeat case_match; try done. by destruct (settle_frame (argName (callArgs c)) k (Done (Throw Aborted)) h) as (-> & _).
  - unfold resume. destruct (calls h !! k) as [c|]; [|done]. destruct (phase c) as [|[]|]; [done|by apply Rr| |done].
    pose proof (Rd (callArgs c) _ IH) as B. destruct (readReplay _ _) as [m r]. by destruct (set_phase_frame k (Done r) (set_states m h)) as (-> & _).
  - unfold subscribe. by case_match.
  - unfold unsubscribe, remove_sub. by repeat case_match.
Qed.

Definition owned_by (plugin : string) (isub : string * EventSubscription) : bool := String.eqb (subPlugin isub.2) plugin.

(** C36: Whatever plugins and the host do in whatever order, a name keeps at
    most 128 events and all names together 4096, the counter of waiters is the number
    of calls that wait and at most 64, and a plugin has at most eight live
    subscriptions. *)
Theorem channel_bounded ops plugin :
  Forall op_ok ops ->
  let h := run ops in
  (forall name s, map_get name (eventStates h) = Some s -> (length (entries s) <= EVENTS_PER_NAME)%nat) /\
  (total (eventStates h) <= EVENTS_TOTAL)%nat /\
  waiterCount h = Z.of_nat (length (List.filter is_waiting (calls h))) /\ waiterCount h <= EVENTS_MAX_WAITERS /\
  (length (List.filter (owned_by plugin) (subscriptions h)) <= EVENTS_MAX_SUBSCRIPTIONS_PER_PLUGIN)%nat.
Proof.
  intros Ok h. pose proof (run_bounded ops Ok) as B. destruct (run_good ops) as [_ W [O Ow M]]. fold h in B, W, O, Ow, M.
  split_and!; [apply B|apply B|apply W|apply W|].
  assert (K : forall id, id ∈ (List.filter (owned_by plugin) (subscriptions h)).*1 ->
    exists ids, map_get plugin (subscriptionsByPlugin h) = Some ids /\ id ∈ ids).
  { intros id ([i s] & -> & Hin)%list_elem_of_fmap. apply elem_of_filter_bool in Hin as [Hin Ho].
    apply elem_map_get in Hin; [|done]. destruct (Ow _ _ Hin) as (ids & G & Hi). unfold owned_by in Ho. cbn in *.
    apply String.eqb_eq in Ho as <-. by exists ids. }
  rewrite <- (length_fmap fst). destruct (List.filter (owned_by plugin) (subscriptions h)).*1 as [|i r] eqn:E; [cbn; lia|].
  destruct (K i) as (ids & G & _); [by left|]. etrans; [|by eapply M]. rewrite <- E in *.
  apply NoDup_incl_length.
  - apply NoDup_ListNoDup. eapply sublist_NoDup; [exact O|]. apply fmap_sublist, filter_sublist.
  - intros x Hx%elem_of_In. destruct (K x Hx) as (ids' & G' & Hi). simplify_eq. by apply elem_of_In.
Qed.

Definition page_of (args : ReplayArgs) (es : list EventEntry) : ReplayResult :=
  let events := take (Z.to_nat (match limit args with Some l => l | None => EVENTS_MAX_REPLAY_LIMIT end)) es in
  MkResult events (match last events with Some e => Some (seq e) | None => cursor args end).

Lemma after_cursor_drop l c k :
  numbered l -> 0 <= k -> k <= c -> after_cursor c (drop (Z.to_nat k) l) = match drop (Z.to_nat c) l with [] => None | es => Some es end.
Proof.
  intros N Hk0 Hk. remember (Z.to_nat (c - k)) as d eqn:Ed. revert k Hk0 Hk Ed. induction d as [|d IH]; intros k Hk0 Hk Ed.
  - assert (k = c) as -> by lia. destruct (drop (Z.to_nat c) l) as [|e r] eqn:E; [done|]. cbn.
    assert (L : l !! Z.to_nat c = Some e) by (rewrite <- (Nat.add_0_r (Z.to_nat c)), <- lookup_drop; by rewrite E).
    pose proof (N _ _ L). rewrite (proj2 (Z.ltb_lt _ _)); [done|lia].
  - destruct (drop (Z.to_nat k) l) as [|e r] eqn:E.
    + apply (f_equal length) in E. rewrite length_drop in E. cbn in E. rewrite drop_ge by lia. done.
    + assert (L : l !! Z.to_nat k = Some e) by (rewrite <- (Nat.add_0_r (Z.to_nat k)), <- lookup_drop; by rewrite E).
      pose proof (N _ _ L). cbn. rewrite (proj2 (Z.ltb_ge _ _)) by lia.
      assert (E' : drop (Z.to_nat (k + 1)) l = r).
      { replace (Z.to_nat (k + 1)) with (Z.to_nat k + 1)%nat by lia. rewrite <- drop_drop, E. done. }
      rewrite <- E'. apply IH; lia.
Qed.

(** C18: In every reachable state a replay answers from the history of the
    name: without a cursor what is still held, with a cursor exactly the events after
    it, unless some of those are gone, which is an error of its own; the next cursor
    is the number of the last event read, so that following it misses and repeats
    nothing. *)
Theorem replay_exact ops args :
  let hist := history (argName args) ops in
  exists evicted, 0 <= evicted <= Z.of_nat (length hist) /\
    snd (readReplay args (eventStates (run ops))) =
      match cursor args with
      | None => Ok (page_of args (drop (Z.to_nat evicted) hist))
      | Some c =>
          if c <? evicted then Throw EVENT_CURSOR_EXPIRED
          else if Z.of_nat (length hist) <? c then Throw VALIDATION_FAILED
          else Ok (page_of args (drop (Z.to_nat c) hist))
      end /\
    forall c res, cursor args = Some c -> 0 <= c -> snd (readReplay args (eventStates (run ops))) = Ok res ->
      nextCursor res = Some (c + Z.of_nat (length (resEvents res))).
Proof.
  intros hist. destruct (run_good ops) as [T _ _]. pose proof (history_numbered (argName args) ops) as N. fold hist in N.
  destruct (tracked_state _ (argName args) _ T) as (_ & (E & B & X) & _). fold hist in E, B, X.
  exists (evictedUpToSeq (snd (eventState (argName args) (eventStates (run ops))))). split; [done|].
  assert (R : snd (readReplay args (eventStates (run ops))) =
      match cursor args with
      | None => Ok (page_of args (drop (Z.to_nat (evictedUpToSeq (snd (eventState (argName args) (eventStates (run ops)))))) hist))
      | Some c =>
          if c <? evictedUpToSeq (snd (eventState (argName args) (eventStates (run ops)))) then Throw EVENT_CURSOR_EXPIRED
          else if Z.of_nat (length hist) <? c then Throw VALIDATION_FAILED
          else Ok (page_of args (drop (Z.to_nat c) hist))
      end).
  { unfold readReplay. destruct (eventState (argName args) (eventStates (run ops))) as [m s]. cbn [snd] in *.
    unfold page_of. rewrite E, X. destruct (cursor args) as [c|]; [|done].
    destruct (Z.ltb_spec c (evictedUpToSeq s)) as [|Hc]; [done|].
    replace (Z.of_nat (length hist) + 1 <=? c) with (Z.of_nat (length hist) <? c)
      by (destruct (Z.ltb_spec (Z.of_nat (length hist)) c), (Z.leb_spec (Z.of_nat (length hist) + 1) c); lia || done).
    destruct (_ <? c); [done|]. rewrite (after_cursor_drop hist c (evictedUpToSeq s) N) by lia.
    destruct (drop (Z.to_nat c) hist) as [|e r]; [by rewrite take_nil|done]. }
  split; [exact R|]. intros c res Hc H0 Hr. rewrite R, Hc in Hr. destruct (c <? _); [done|]. destruct (Z.ltb_spec (Z.of_nat (length hist)) c) as [|Hl]; [done|].
  injection Hr as <-. unfold page_of. cbn [resEvents nextCursor]. set (n := Z.to_nat (match limit args with Some l => l | None => _ end)).
  destruct (last (take n (drop (Z.to_nat c) hist))) as [e|] eqn:El.
  - f_equal. rewrite last_lookup in El. set (es := take n (drop (Z.to_nat c) hist)) in *.
    assert (P : (0 < length es)%nat) by (destruct es; [done|cbn; lia]).
    assert (L : hist !! (Z.to_nat c + pred (length es))%nat = Some e).
    { rewrite <- lookup_drop. unfold es in El at 1. apply lookup_take_Some in El as [El _]. exact El. }
    pose proof (N _ _ L). lia.
  - apply last_None in El. rewrite El, Hc. cbn. f_equal. lia.
Qed.

Definition is_done (c : Call) : bool := match phase c with Done _ => true | _ => false end.

(** An event wakes exactly the calls that wait for its name and is pushed
    once to every subscription of the name, in order, dropping those whose worker is
    gone; and a call whose timer fires returns in its next turn. *)
Theorem event_reaches_waiters ops now name value sink :
  let h := run ops in let h' := run (ops ++ [Emit now name value (Some sink)]) in
  let e := MkEntry (Z.of_nat (length (history name ops)) + 1) now value in
  (forall k c, calls h !! k = Some c ->
     calls h' !! k = Some (if is_waiting c && String.eqb (argName (callArgs c)) name
                           then MkCall (callArgs c) (budget c) (deadline c) (Awake true) else c)) /\
  pushed h' = pushed h ++ map (fun isub => (isub.1, name, e)) (List.filter (fun isub => String.eqb (subName isub.2) name) (subscriptions h)) /\
  (forall id, map_get id (subscriptions h') =
     match map_get id (subscriptions h) with Some s => if dropped name sink (id, s) then None else Some s | None => None end) /\
  (forall k c t aborted, calls h !! k = Some c -> phase c = Waiting ->
     exists d, calls (run (ops ++ [Timeout k; Resume t k aborted])) !! k = Some d /\ is_done d = true).
Proof.
  intros h h' e. pose proof (run_good ops) as G. fold h in G.
  assert (N : forall n, numbered (history n ops)) by (intros; apply history_numbered).
  destruct (emit_spec _ now name value (Some sink) h N G) as (_ & _ & C & P & S).
  assert (E : h' = emit now name value (Some sink) h) by (unfold h', run; by rewrite fold_left_app).
  rewrite E. split_and!; [done|done|done|]. intros k c t aborted Hk Hw.
  unfold run. rewrite fold_left_app. cbn [fold_left step]. change (fold_left step ops new_host) with h. unfold end_wait. rewrite Hk, Hw.
  destruct (settle_waits _ k c (Awake false) h (gd_waits _ _ G) Hk Hw eq_refl) as (_ & C1 & _); [done|].
  unfold resume. rewrite C1, list_lookup_insert_eq by by eapply lookup_lt_Some. cbn [phase callArgs].
  destruct (readReplay _ _) as [m r]. eexists. split.
  - unfold set_phase. cbn [set_states calls]. rewrite C1, list_lookup_insert_eq by by eapply lookup_lt_Some.
    cbn [set_calls calls]. rewrite list_lookup_insert_eq; [reflexivity|]. rewrite length_insert. by eapply lookup_lt_Some.
  - done.
Qed.

Lemma channel_bounded_witness :
  let ops := [Subscribe "p" "tick" "ab"; Emit 0 "tick" VNull None; Replay 0 "p" (MkReplay "tick" (Some 1) None) (Some 100) 1000 false]%string in
  waiterCount (run ops) = 1 /\ (total (eventStates (run ops)) <= EVENTS_TOTAL)%nat.
Proof.
  cbn zeta. split; [reflexivity|].
  apply (channel_bounded [Subscribe "p" "tick" "ab"; Emit 0 "tick" VNull None; Replay 0 "p" (MkReplay "tick" (Some 1) None) (Some 100) 1000 false]%string "p").
  repeat constructor; done.
Defined.

(** ** Examples *)

(** With the channel full, the first event of a new name is the one with the lowest
    number and is evicted at once, although it is the newest of all; a consumer that
    starts at zero is told that it came too late. *)
Definition full_name (n : string) : string * EventNameState :=
  (n, MkName (map (fun i => MkEntry (Z.of_nat i) 0 VNull) (List.seq 3 128)) 131 2).
Definition full : States := map (fun i => full_name (str (dec (Z.of_nat i)))) (List.seq 1 32).

Example newborn_evicted :
  let m := fst (append_event 5 "new" VNull full) in
  total full = EVENTS_TOTAL /\ map_get "new"%string m = Some (MkName [] 2 1) /\
  snd (readReplay (MkReplay "new" (Some 0) None) m) = Throw EVENT_CURSOR_EXPIRED.
Proof. vm_compute. done. Qed.

(** A wait whose signal was aborted before fails with an error of the language, and a
    replay of a name that nobody uses leaves a buffer behind. *)
Example aborted_before_waiting :
  let h := run [Replay 0 "p" (MkReplay "tick" None None) (Some 100) 1000 true]%string in
  map phase (calls h) = [Done (Throw ReferenceError)] /\ waiterCount h = 0 /\ eventStates h = [("tick"%string, fresh_name)].
Proof. by split_and!. Qed.

End EventRing.
