(* ===== verification/HandleTables.v ===== *)
(** * Tables of handles
    (what socketHandles.ts and processHandles.ts of apps/plugin-runtime/src/host share)

    A registry gives a plugin opaque ids of objects it keeps.  The heap is the list of
    all objects there ever were, a table maps the ids of the open ones to their
    numbers, and an id holds a number that only grows. *)

From Stdlib Require Import ZArith Lia Bool Ascii String List.
From stdpp Require Import base decidable list strings.
From S2P Require Import Prelude.
Local Open Scope Z_scope.

(** [Buffer.byteLength(text, 'utf8')] on the characters of the model. *)
Definition byteLength (text : string) : Z := zsum (map (fun c => if code c <? 128 then 1 else 2) (chars text)).
Definition bytes (l : list string) : Z := zsum (map byteLength l).

(** [`sock-${pluginId.slice(0, 24)}-${++nextId}-${random}`] *)
Definition handle_id (prefix plugin : string) (n : Z) (random : string) : string :=
  str (chars prefix ++ take 24 (chars plugin) ++ "-"%char :: dec n ++ "-"%char :: chars random).

(** [waiters.splice(waiters.indexOf(wake), 1)]: a call waits at most once. *)
Definition without (k : nat) (l : list nat) : list nat := List.filter (fun x => negb (x =? k)%nat) l.

(** ** Bytes *)

Lemma utf8_length_nonneg t : 0 <= byteLength t.
Proof.
  unfold byteLength. induction (chars t) as [|c l IH]; [done|]. cbn [map]. rewrite zsum_cons. destruct (code c <? 128); lia.
Qed.

Lemma bytes_cons x l : bytes (x :: l) = byteLength x + bytes l.
Proof. unfold bytes. cbn [map]. by rewrite zsum_cons. Qed.

Lemma bytes_app l k : bytes (l ++ k) = bytes l + bytes k.
Proof. unfold bytes. by rewrite map_app, zsum_app. Qed.

Lemma bytes_nonneg l : 0 <= bytes l.
Proof. induction l as [|x l IH]; [done|]. rewrite bytes_cons. pose proof (utf8_length_nonneg x). lia. Qed.

Lemma bytes_take n l : bytes (take n l) + bytes (drop n l) = bytes l.
Proof. by rewrite <- bytes_app, take_drop. Qed.

(** ** Ids *)

(** The number is part of the id. *)
Lemma handle_id_number prefix p n x p' n' x' :
  "-"%char ∉ chars x -> "-"%char ∉ chars x' -> 0 <= n -> 0 <= n' ->
  handle_id prefix p n x = handle_id prefix p' n' x' -> n = n'.
Proof.
  intros Hx Hx' Hn Hn' E. apply (f_equal (fun s => rev (chars s))) in E. unfold handle_id in E. rewrite !chars_str in E.
  assert (R : forall a b d, rev (a ++ "-"%char :: b ++ "-"%char :: d) = rev d ++ "-"%char :: rev b ++ "-"%char :: rev a)
    by (intros a b d; rewrite rev_app_distr; cbn; rewrite rev_app_distr; cbn; by rewrite <- !app_assoc).
  rewrite !(app_assoc (chars prefix)), !R in E.
  assert (Dd : forall k, 0 <= k -> "-"%char ∉ rev (dec k)).
  { intros k Hk Hi. rewrite elem_of_In, <- in_rev in Hi. destruct (dec_spec k Hk) as [_ F]. rewrite forallb_forall in F. by specialize (F _ Hi). }
  apply (f_equal (split_on "-")) in E. rewrite !split_on_word in E.
  - injection E as _ E _. apply (f_equal (fun l => digits_val (rev l))) in E. rewrite !rev_involutive in E.
    by rewrite (proj1 (dec_spec n Hn)), (proj1 (dec_spec n' Hn')) in E.
  - by apply Dd.
  - intros Hi. apply Hx'. by rewrite elem_of_In, in_rev, <- elem_of_In.
  - by apply Dd.
  - intros Hi. apply Hx. by rewrite elem_of_In, in_rev, <- elem_of_In.
Qed.

Lemma filter_set_le {K V} `{EqDecision K} (f : K * V -> bool) k v m :
  (length (List.filter f (map_set k v m)) <= length (List.filter f m) + (if f (k, v) then 1 else 0))%nat.
Proof.
  induction m as [|[k' v'] m IH]; cbn [map_set List.filter]; [destruct (f (k, v)); cbn; lia|].
  case_decide as E; [subst|]; cbn [List.filter].
  - destruct (f (k, v)), (f (k, v')); cbn; lia.
  - destruct (f (k', v')); cbn; lia.
Qed.

Lemma filter_del_le {K V} `{EqDecision K} (f : K * V -> bool) k m : (length (List.filter f (map_del k m)) <= length (List.filter f m))%nat.
Proof.
  induction m as [|[k' v'] m IH]; cbn [map_del List.filter]; [done|]. case_decide; [destruct (f (k', v')); cbn; lia|].
  cbn [List.filter]. destruct (f (k', v')); cbn; lia.
Qed.

(** ** Tables *)

Section Tables.
Context {H : Type} (id pluginId : H -> string) (prefix : string) (limit : nat).

Definition owner (heap : list H) (o : nat) : option string := pluginId <$> heap !! o.
Definition owned_by (heap : list H) (plugin : string) (io : string * nat) : bool := bool_decide (owner heap io.2 = Some plugin).
Definition owned (heap : list H) (handles : list (string * nat)) (plugin : string) : nat := length (List.filter (owned_by heap plugin) handles).

(** The open handle with an id, if it is of the plugin. *)
Definition find_handle (heap : list H) (handles : list (string * nat)) (plugin i : string) : option nat :=
  match map_get i handles with
  | Some o => if bool_decide (owner heap o = Some plugin) then Some o else None
  | None => None
  end.

Record table_ok (heap : list H) (handles : list (string * nat)) (n : Z) : Prop := {
  t_map : map_ok handles;
  t_live : forall i o, map_get i handles = Some o -> exists h, heap !! o = Some h /\ id h = i;
  t_next : 0 <= n;
  t_owned : forall plugin, (owned heap handles plugin <= limit)%nat;
  t_fresh : forall o h, heap !! o = Some h -> exists p m x, id h = handle_id prefix p m x /\ 0 <= m <= n /\ "-"%char ∉ chars x;
  t_unique : forall o h o' h', heap !! o = Some h -> heap !! o' = Some h' -> id h = id h' -> o = o'
}.

(** The fields of an object that never change, and a heap with the objects of
    another and at most new contents. *)
Definition same_identity (h h' : H) : Prop := id h' = id h /\ pluginId h' = pluginId h.
Definition extends (heap heap' : list H) : Prop :=
  forall o h, heap !! o = Some h -> exists h', heap' !! o = Some h' /\ same_identity h h'.

(** An id of the later table is one of the earlier or belongs to a new object. *)
Definition keeps (heap : list H) (handles : list (string * nat)) (heap' : list H) (handles' : list (string * nat)) : Prop :=
  extends heap heap' /\ forall j o, map_get j handles' = Some o -> map_get j handles = Some o \/ heap !! o = None.

#[export] Instance extends_preorder : PreOrder extends.
Proof.
  split; [intros r o h Ho; by exists h|]. intros r1 r2 r3 H1 H2 o h Ho. destruct (H1 o h Ho) as (h' & Ho' & I).
  destruct (H2 o h' Ho') as (h'' & Ho'' & I'). exists h''. split; [done|]. destruct I, I'. split; congruence.
Qed.

Lemma keeps_trans h1 t1 h2 t2 h3 t3 : keeps h1 t1 h2 t2 -> keeps h2 t2 h3 t3 -> keeps h1 t1 h3 t3.
Proof.
  intros [E1 N1] [E2 N2]. split; [by etrans|]. intros j o G. destruct (N2 j o G) as [G2|G2]; [by apply N1|]. right.
  destruct (h1 !! o) as [h|] eqn:Ho; [|done]. destruct (E1 o h Ho) as (h' & Ho' & _). congruence.
Qed.

Lemma insert_extends heap o h h' : heap !! o = Some h -> same_identity h h' -> extends heap (<[o := h']> heap).
Proof.
  intros Ho S o' h0 Ho'. destruct (decide (o = o')) as [->|Ne].
  - exists h'. rewrite list_lookup_insert_eq by (by eapply lookup_lt_Some). split; [done|]. by replace h0 with h by congruence.
  - exists h0. by rewrite list_lookup_insert_ne.
Qed.

Lemma extends_owner heap heap' o : extends heap heap' -> is_Some (heap !! o) -> owner heap' o = owner heap o.
Proof. intros E [h Ho]. destruct (E o h Ho) as (h' & Ho' & _ & Hp). unfold owner. by rewrite Ho, Ho'; cbn; rewrite Hp. Qed.

(** Only the objects in the table count. *)
Lemma owned_extends heap heap' handles n plugin :
  table_ok heap handles n -> extends heap heap' -> length (List.filter (owned_by heap' plugin) handles) = owned heap handles plugin.
Proof.
  intros T E. unfold owned. f_equal. apply filter_ext_in. intros [j o] Hin. unfold owned_by. cbn [snd]. rewrite (extends_owner heap heap'); [done|done|].
  apply elem_of_In, (elem_map_get _ _ _ (t_map _ _ _ T)) in Hin. destruct (t_live _ _ _ T _ _ Hin) as (h & Ho & _). by exists h.
Qed.

(** Objects change within their identity, and none is added. *)
Lemma table_update heap heap' handles n :
  table_ok heap handles n -> extends heap heap' -> length heap' = length heap -> table_ok heap' handles n.
Proof.
  intros T E L. destruct T as [A B C D F U] eqn:ET. clear ET.
  assert (Back : forall o h', heap' !! o = Some h' -> exists h, heap !! o = Some h /\ id h' = id h).
  { intros o h' Ho'. destruct (heap !! o) as [h|] eqn:Ho.
    - exists h. split; [done|]. destruct (E o h Ho) as (h2 & Ho2 & Hi & _). congruence.
    - apply lookup_ge_None in Ho. apply lookup_lt_Some in Ho'. lia. }
  split; try done.
  - intros i o G. destruct (B i o G) as (h & Ho & Hi). destruct (E o h Ho) as (h' & Ho' & Hi' & _). exists h'. split; [done|congruence].
  - intros plugin. unfold owned. by rewrite (owned_extends heap heap' handles n).
  - intros o h' Ho'. destruct (Back o h' Ho') as (h & Ho & ->). by eapply F.
  - intros o1 h1 o2 h2 H1 H2 Hi. destruct (Back _ _ H1) as (k1 & K1 & I1), (Back _ _ H2) as (k2 & K2 & I2). eapply U; [done..|congruence].
Qed.

Lemma table_del heap handles n i : table_ok heap handles n -> table_ok heap (map_del i handles) n.
Proof.
  intros [A B C D F U]. split; try done; [by apply map_del_ok| |].
  - intros j o. rewrite map_get_del by done. case_decide; [done|apply B].
  - intros plugin. unfold owned. etrans; [apply filter_del_le|apply D].
Qed.

Lemma del_keeps heap heap' handles i : map_ok handles -> extends heap heap' -> keeps heap handles heap' (map_del i handles).
Proof. intros M E. split; [done|]. intros j o. rewrite map_get_del by done. case_decide; [done|by left]. Qed.

Lemma snoc_extends heap h0 : extends heap (heap ++ [h0]).
Proof. intros o h Ho. exists h. split; [by apply lookup_app_l_Some|done]. Qed.

(** A new object under the next number. *)
Lemma table_allocate heap handles n plugin random h0 :
  table_ok heap handles n -> "-"%char ∉ chars random -> (owned heap handles plugin < limit)%nat ->
  id h0 = handle_id prefix plugin (n + 1) random -> pluginId h0 = plugin ->
  table_ok (heap ++ [h0]) (map_set (id h0) (length heap) handles) (n + 1) /\
  keeps heap handles (heap ++ [h0]) (map_set (id h0) (length heap) handles).
Proof.
  intros T Hr Full Hid Hpl. pose proof T as [A B C D F U].
  assert (New : forall o' h', heap !! o' = Some h' -> id h' <> id h0).
  { intros o' h' Ho' Hi. destruct (F o' h' Ho') as (p' & n' & x' & Hid' & Hn & Hx). rewrite Hid', Hid in Hi.
    apply handle_id_number in Hi; [lia|done..|lia|lia]. }
  pose proof (snoc_extends heap h0) as E. split; [split|split; [done|]].
  - by apply map_set_ok.
  - intros j o'. rewrite map_get_set. case_decide as Ej.
    + intros [= <-]. exists h0. split; [by apply lookup_snoc_Some; right|done].
    + intros G. destruct (B _ _ G) as (h' & Ho' & Hi). exists h'. split; [by apply lookup_app_l_Some|done].
  - lia.
  - intros plugin'. etrans; [apply filter_set_le|]. rewrite (owned_extends heap (heap ++ [h0]) handles n) by done.
    unfold owned_by, owner. cbn [snd]. rewrite list_lookup_middle by done. cbn. rewrite Hpl.
    case_bool_decide as Eo; [injection Eo as <-; lia|specialize (D plugin'); lia].
  - intros o' h' [[_ Ho']|[_ <-]]%lookup_snoc_Some.
    + destruct (F o' h' Ho') as (p' & n' & x' & Hid' & Hn & Hx). exists p', n', x'. split_and!; try done; lia.
    + exists plugin, (n + 1), random. split_and!; try done; lia.
  - intros o1 h1 o2 h2 [[_ H1]|[-> <-]]%lookup_snoc_Some [[_ H2]|[-> <-]]%lookup_snoc_Some Hi.
    + by eapply U.
    + by destruct (New o1 h1 H1).
    + by destruct (New o2 h2 H2).
    + done.
  - intros j o'. rewrite map_get_set. case_decide; [|by left]. intros [= <-]. right. by apply lookup_ge_None.
Qed.

(** An id of the table leads back to its object. *)
Lemma live_same_object heap handles n i o h o' : table_ok heap handles n -> heap !! o = Some h -> id h = i -> map_get i handles = Some o' -> o' = o.
Proof. intros T Ho Hi G. destruct (t_live _ _ _ T _ _ G) as (h' & Ho' & Hi'). eapply (t_unique _ _ _ T); [done..|congruence]. Qed.

(** An id that left the table is never given out again. *)
Lemma gone_forever heap handles heap' handles' n' i o h :
  table_ok heap' handles' n' -> keeps heap handles heap' handles' -> heap !! o = Some h -> id h = i -> map_get i handles = None -> map_get i handles' = None.
Proof.
  intros T [E N] Ho Hi G. apply eq_None_not_Some. intros [o' G']. destruct (N i o' G') as [G2|G2]; [congruence|].
  destruct (E o h Ho) as (h' & Ho' & Hid & _). assert (o' = o) by (apply (live_same_object heap' handles' n' i o h'); [done|done|congruence|done]). congruence.
Qed.

Lemma find_handle_spec heap handles n plugin i o :
  table_ok heap handles n ->
  find_handle heap handles plugin i = Some o <-> exists h, map_get i handles = Some o /\ heap !! o = Some h /\ id h = i /\ pluginId h = plugin.
Proof.
  intros T. unfold find_handle, owner. destruct (map_get i handles) as [o'|] eqn:G; [|split; [done|by intros (h & ? & _)]].
  destruct (t_live _ _ _ T _ _ G) as (h & Ho & Hi). rewrite Ho. cbn. case_bool_decide as Ow; split.
  - intros [= <-]. exists h. split_and!; [done..|congruence].
  - by intros (h' & [= <-] & _).
  - done.
  - intros (h' & [= <-] & Ho' & _ & Hp). destruct Ow. congruence.
Qed.

Lemma table_empty : table_ok [] [] 0.
Proof. split; try done; [apply NoDup_nil_2|]. intros p. cbn. lia. Qed.

End Tables.
