(* ===== verification/SocketHandles.v ===== *)
(** * Sockets of plugins
    (apps/plugin-runtime/src/host/socketHandles.ts)

    The host keeps the sockets of a plugin and hands out opaque ids.  A handle is an
    object that the callbacks of its resource keep after the id is gone: it is known
    by its number.  One call up to its first wait, one callback, or the turn in which
    a call goes on is one operation.  The checks of
    destinations are the component HostNetwork. *)

From Stdlib Require Import ZArith Lia Bool Ascii String List.
From stdpp Require Import base decidable list strings.
From S2P Require Import Prelude HandleTables.
Local Open Scope Z_scope.

Module SocketHandles.

Definition NETWORK_MAX_SOCKET_HANDLES : nat := 32.
Definition NETWORK_MAX_SOCKET_MESSAGES : nat := 128.
Definition NETWORK_MAX_SOCKET_BUFFER_BYTES : Z := 8 * 1024 * 1024.

(** ** State *)

Inductive Kind := Websocket | Tcp | Udp.
#[export] Instance Kind_eq_dec : EqDecision Kind.
Proof. solve_decision. Defined.

Inductive Error := NOT_FOUND | SERVICE_UNAVAILABLE.

(** [pending]: the accept queue, if the handle is a listener; [waiters]: the calls
    that wait, by their numbers. *)
Record RingHandle := MkRing {
  id : string;
  pluginId : string;
  kind : Kind;
  messages : list string;
  bufferedBytes : Z;
  remoteHosts : list string;
  remotePorts : list Z;
  closed : bool;
  waiters : list nat;
  pending : option (list nat)
}.
#[export] Instance RingHandle_eq_dec : EqDecision RingHandle.
Proof. solve_decision. Defined.

Inductive Request := Receive (limit : Z) | Accept | UdpReceive.
Inductive Reply :=
| Messages (l : list string) (isClosed : bool)
| Accepted (conn : option string)
| Datagram (data host : option string) (port : option Z).
Inductive Phase := Waiting | Awake | Done (r : Reply).
Record Call := MkCall { target : nat; request : Request; phase : Phase }.

(** [released]: the resources that were closed, [uncaught]: the objects for whose
    inbound connection the handler threw. *)
Record Registry := MkRegistry {
  heap : list RingHandle;
  handles : list (string * nat);
  nextId : Z;
  calls : list Call;
  released : list nat;
  uncaught : list nat
}.

Definition new_registry : Registry := MkRegistry [] [] 0 [] [] [].

Definition set_heap (h : list RingHandle) (r : Registry) : Registry := MkRegistry h (handles r) (nextId r) (calls r) (released r) (uncaught r).
Definition set_calls (c : list Call) (r : Registry) : Registry := MkRegistry (heap r) (handles r) (nextId r) c (released r) (uncaught r).
Definition release (o : nat) (r : Registry) : Registry := MkRegistry (heap r) (handles r) (nextId r) (calls r) (released r ++ [o]) (uncaught r).

Definition update (o : nat) (f : RingHandle -> RingHandle) (r : Registry) : Registry :=
  match heap r !! o with Some h => set_heap (<[o := f h]> (heap r)) r | None => r end.

Definition set_ring (m : list string) (b : Z) (hosts : list string) (ports : list Z) (h : RingHandle) : RingHandle :=
  MkRing (id h) (pluginId h) (kind h) m b hosts ports (closed h) (waiters h) (pending h).
Definition set_waiters (w : list nat) (h : RingHandle) : RingHandle :=
  MkRing (id h) (pluginId h) (kind h) (messages h) (bufferedBytes h) (remoteHosts h) (remotePorts h) (closed h) w (pending h).
Definition set_closed (h : RingHandle) : RingHandle :=
  MkRing (id h) (pluginId h) (kind h) (messages h) (bufferedBytes h) (remoteHosts h) (remotePorts h) true (waiters h) (pending h).
Definition set_pending (p : option (list nat)) (h : RingHandle) : RingHandle :=
  MkRing (id h) (pluginId h) (kind h) (messages h) (bufferedBytes h) (remoteHosts h) (remotePorts h) (closed h) (waiters h) p.

(** ** The ring *)

(** [while (count or bytes over the bound) shift()]: one message less per round. *)
Fixpoint evict (fuel : nat) (h : RingHandle) : option RingHandle :=
  if (NETWORK_MAX_SOCKET_MESSAGES <? length (messages h))%nat || (NETWORK_MAX_SOCKET_BUFFER_BYTES <? bufferedBytes h) then
    match fuel with
    | O => None
    | S f =>
        evict f (set_ring (tail (messages h))
          (match messages h with d :: _ => bufferedBytes h - byteLength d | [] => bufferedBytes h end)
          (tail (remoteHosts h)) (tail (remotePorts h)) h)
    end
  else Some h.

(** A message with its sender, if it is a datagram. *)
Definition append (data : string) (remote : option (string * Z)) (h : RingHandle) : RingHandle :=
  set_ring (messages h ++ [data]) (bufferedBytes h + byteLength data)
    (remoteHosts h ++ match remote with Some (a, _) => [a] | None => [] end)
    (remotePorts h ++ match remote with Some (_, p) => [p] | None => [] end) h.

(** The ring after a push; the loop drops at most every message. *)
Definition ring_push (data : string) (remote : option (string * Z)) (h : RingHandle) : option RingHandle :=
  let h := append data remote h in evict (length (messages h)) h.

Definition set_phase (k : nat) (p : Phase) (r : Registry) : Registry :=
  match calls r !! k with
  | Some c => set_calls (<[k := MkCall (target c) (request c) p]> (calls r)) r
  | None => r
  end.

(** [handle.waiters.shift()?.()]: the waiter takes itself out and wakes its call. *)
Definition wake_one (o : nat) (r : Registry) : Registry :=
  match heap r !! o with
  | Some h => match waiters h with k :: w => set_phase k Awake (update o (set_waiters (without k w)) r) | [] => r end
  | None => r
  end.

Definition pushRing (o : nat) (data : string) (remote : option (string * Z)) (r : Registry) : Registry :=
  match heap r !! o with
  | Some h => match ring_push data remote h with Some h' => wake_one o (update o (fun _ => h') r) | None => r end
  | None => r
  end.

Definition drain (limit : Z) (h : RingHandle) : list string * list string * list Z * RingHandle :=
  let n := Nat.min (Z.to_nat limit) (length (messages h)) in
  (take n (messages h), take n (remoteHosts h), take n (remotePorts h),
   set_ring (drop n (messages h)) (bufferedBytes h - bytes (take n (messages h))) (drop n (remoteHosts h)) (drop n (remotePorts h)) h).

(** ** The registry *)

Local Notation owner r := (HandleTables.owner pluginId (heap r)).
Local Notation owned r := (HandleTables.owned pluginId (heap r) (handles r)).

Definition allocate (plugin : string) (k : Kind) (p : option (list nat)) (random : string) (r : Registry) : Registry * outcome Error nat :=
  if (NETWORK_MAX_SOCKET_HANDLES <=? owned r plugin)%nat then (r, Throw SERVICE_UNAVAILABLE)
  else
    let n := nextId r + 1 in
    let i := handle_id "sock-" plugin n random in
    let o := length (heap r) in
    (MkRegistry (heap r ++ [MkRing i plugin k [] 0 [] [] false [] p]) (map_set i o (handles r)) n (calls r) (released r) (uncaught r), Ok o).

Definition requireHandle (plugin i : string) (r : Registry) : outcome Error nat :=
  match find_handle pluginId (heap r) (handles r) plugin i with Some o => Ok o | None => Throw NOT_FOUND end.

(** Up to the connections of a listener. *)
Definition close_object (i : string) (o : nat) (r : Registry) : Registry :=
  wake_one o (update o set_closed (MkRegistry (heap r) (map_del i (handles r)) (nextId r) (calls r) (released r) (uncaught r))).

Definition close_plain (i : string) (r : Registry) : Registry :=
  match map_get i (handles r) with
  | Some o => release o (close_object i o r)
  | None => r
  end.

(** [closeHandle]; a connection is no listener, so that the calls for the pending
    connections go no deeper. *)
Definition close_connection (r : Registry) (c : nat) : Registry :=
  match heap r !! c with Some h => close_plain (id h) r | None => r end.

Definition closeHandle (i : string) (r : Registry) : Registry :=
  match map_get i (handles r) with
  | Some o =>
      let r := close_object i o r in
      let conns := match heap r !! o with Some h => match pending h with Some l => l | None => [] end | None => [] end in
      release o (fold_left close_connection conns r)
  | None => r
  end.

(** The connection handler of a listener; a throw of [allocate] leaves it. *)
Definition onConnection (listener : nat) (random : string) (r : Registry) : Registry :=
  match heap r !! listener with
  | Some h =>
      match allocate (pluginId h) Tcp None random r with
      | (r, Ok conn) =>
          wake_one listener (update listener (fun h => set_pending (match pending h with Some l => Some (l ++ [conn]) | None => None end) h) r)
      | (r, Throw _) => MkRegistry (heap r) (handles r) (nextId r) (calls r) (released r) (uncaught r ++ [listener])
      end
  | None => r
  end.

(** ** Calls that wait *)

Definition waitFor (o k : nat) (r : Registry) : Registry :=
  match heap r !! o with
  | Some h =>
      if negb (bool_decide (messages h = [])) || closed h then set_phase k Awake r
      else set_phase k Waiting (update o (fun h => set_waiters (waiters h ++ [k]) h) r)
  | None => r
  end.

Definition start (plugin i : string) (q : Request) (r : Registry) : Registry * outcome Error nat :=
  match requireHandle plugin i r with
  | Throw e => (r, Throw e)
  | Ok o =>
      let k := length (calls r) in
      let r := set_calls (calls r ++ [MkCall o q Awake]) r in
      let queued := match heap r !! o with Some h => match pending h with Some (_ :: _) => true | _ => false end | None => false end in
      (match q with Accept => if queued then r else waitFor o k r | _ => waitFor o k r end, Ok k)
  end.

(** The timer or the signal of a wait: both only end it. *)
Definition end_wait (k : nat) (r : Registry) : Registry :=
  match calls r !! k with
  | Some c =>
      match phase c with
      | Waiting => set_phase k Awake (update (target c) (fun h => set_waiters (without k (waiters h)) h) r)
      | _ => r
      end
  | None => r
  end.

Definition resume (k : nat) (r : Registry) : Registry :=
  match calls r !! k with
  | Some c =>
      match phase c, heap r !! target c with
      | Awake, Some h =>
          match request c with
          | Receive limit =>
              let '(ms, _, _, h') := drain limit h in set_phase k (Done (Messages ms (closed h))) (update (target c) (fun _ => h') r)
          | UdpReceive =>
              let '(ms, hosts, ports, h') := drain 1 h in
              set_phase k (Done (Datagram (head ms) (head hosts) (head ports))) (update (target c) (fun _ => h') r)
          | Accept =>
              match pending h with
              | Some (conn :: rest) =>
                  set_phase k (Done (Accepted (id <$> heap r !! conn))) (update (target c) (fun h => set_pending (Some rest) h) r)
              | _ => set_phase k (Done (Accepted None)) r
              end
          end
      | _, _ => r
      end
  | None => r
  end.

(** ** Runs *)

(** [allowed]: the destination or the address to bind passed its check. *)
Inductive Op :=
| Open (plugin : string) (k : Kind) (listener allowed : bool) (random : string)
| Data (o : nat) (data : string) (remote : option (string * Z))
| RemoteClose (o : nat)
| Connection (listener : nat) (random : string)
| Start (plugin i : string) (q : Request)
| EndWait (k : nat)
| Resume (k : nat)
| Close (plugin i : string)
| CloseAny (i : string).

Definition close_owned (plugin : string) (r : Registry) (i : string) : Registry :=
  match requireHandle plugin i r with Ok _ => closeHandle i r | Throw _ => r end.

(** The [close] event of a socket: of a TCP socket only while the handle is open. *)
Definition onClose (o : nat) (r : Registry) : Registry :=
  match heap r !! o with
  | Some h => if bool_decide (kind h = Tcp) && closed h then r else closeHandle (id h) r
  | None => r
  end.

Definition step (r : Registry) (op : Op) : Registry :=
  match op with
  | Open plugin k listener allowed random =>
      if allowed then fst (allocate plugin k (if listener then Some [] else None) random r) else r
  | Data o data remote => pushRing o data remote r
  | RemoteClose o => onClose o r
  | Connection l random => onConnection l random r
  | Start plugin i q => fst (start plugin i q r)
  | EndWait k => end_wait k r
  | Resume k => resume k r
  | Close plugin i => close_owned plugin r i
  | CloseAny i => closeHandle i r
  end.

Definition run (ops : list Op) : Registry := fold_left step ops new_registry.

(** The loops of [closePlugin] and [closeAll] take the ids at their start and wait
    after each round: [between] is what happens in these waits. *)
Fixpoint close_each (close : Registry -> string -> Registry) (ids : list string) (between : list (list Op)) (r : Registry) : Registry :=
  match ids with
  | [] => r
  | i :: ids => close_each close ids (tail between) (fold_left step (default [] (head between)) (close r i))
  end.

Definition closePlugin (plugin : string) (between : list (list Op)) (r : Registry) : Registry :=
  close_each (close_owned plugin) (map_keys (handles r)) between r.
Definition closeAll (between : list (list Op)) (r : Registry) : Registry :=
  close_each (fun r i => closeHandle i r) (map_keys (handles r)) between r.


(** ** The ring keeps the newest messages *)

Definition within (ms : list string) : Prop := (length ms <= NETWORK_MAX_SOCKET_MESSAGES)%nat /\ bytes ms <= NETWORK_MAX_SOCKET_BUFFER_BYTES.

Record synced (h : RingHandle) : Prop := {
  sy_bytes : bufferedBytes h = bytes (messages h);
  sy_within : within (messages h)
}.

Lemma evict_ring_spec fuel h :
  bufferedBytes h = bytes (messages h) -> (length (messages h) <= fuel)%nat ->
  exists n h', evict fuel h = Some h' /\ messages h' = drop n (messages h) /\ bufferedBytes h' = bytes (messages h') /\
    within (messages h') /\ (forall m, (m < n)%nat -> ~ within (drop m (messages h))) /\
    remoteHosts h' = drop n (remoteHosts h) /\ remotePorts h' = drop n (remotePorts h) /\
    id h' = id h /\ pluginId h' = pluginId h /\ kind h' = kind h /\ closed h' = closed h /\ waiters h' = waiters h /\ pending h' = pending h.
Proof.
  revert h. induction fuel as [|f IH]; intros h Hb Hf; cbn [evict];
    destruct (_ || _) eqn:E.
  - exfalso. assert (messages h = []) as Em by (apply length_zero_iff_nil; lia). rewrite Hb, Em in E. done.
  - bools. exists 0%nat, h. split_and!; try done; [split; [done|lia]|lia].
  - assert (E' : ~ within (messages h)) by (intros [W1 W2]; apply orb_true_iff in E as [E|E]; bools; lia).
    destruct (messages h) as [|d ms] eqn:Em; [exfalso; apply E'; split; cbn; done || lia|]. cbn [tail].
    set (h1 := set_ring _ _ _ _ _).
    destruct (IH h1) as (n & h' & Ev & M & B & W & Min & Rh & Rp & F1 & F2 & F3 & F4 & F5 & F6).
    + cbn [h1 set_ring bufferedBytes messages]. rewrite bytes_cons in Hb. lia.
    + cbn in *. lia.
    + exists (S n), h'. split_and!; try done.
      * intros [|m] Hm; [done|]. apply (Min m). lia.
      * rewrite Rh. cbn [h1 set_ring remoteHosts]. destruct (remoteHosts h); [cbn [tail]; by rewrite !drop_nil|done].
      * rewrite Rp. cbn [h1 set_ring remotePorts]. destruct (remotePorts h); [cbn [tail]; by rewrite !drop_nil|done].
  - bools. exists 0%nat, h. split_and!; try done; [split; [done|lia]|lia].
Qed.

Lemma ring_facts h data remote limit :
  synced h ->
  (exists n h', ring_push data remote h = Some h' /\ synced h' /\ messages h' = drop n (messages h ++ [data]) /\
     (forall m, (m < n)%nat -> ~ within (drop m (messages h ++ [data]))) /\
     remoteHosts h' = drop n (remoteHosts (append data remote h)) /\ remotePorts h' = drop n (remotePorts (append data remote h))) /\
  (let '(ms, hosts, ports, h') := drain limit h in
   synced h' /\ messages h = ms ++ messages h' /\ remoteHosts h = hosts ++ remoteHosts h' /\ remotePorts h = ports ++ remotePorts h' /\
   length ms = Nat.min (Z.to_nat limit) (length (messages h))).
Proof.
  intros [Hb Hw]. split.
  - unfold ring_push. destruct (evict_ring_spec (length (messages (append data remote h))) (append data remote h)) as (n & h' & Ev & M & B & W & Min & Rh & Rp & _).
    + cbn [append set_ring bufferedBytes messages]. rewrite bytes_app, Hb, bytes_cons. change (bytes []) with 0. lia.
    + done.
    + exists n, h'. split_and!; try done; by split.
  - unfold drain. set (n := Nat.min _ _). cbn [set_ring messages remoteHosts remotePorts]. rewrite !take_drop. split_and!; try done.
    + rewrite <- (take_drop n (messages h)) in Hb, Hw. split; cbn [set_ring bufferedBytes messages].
      * rewrite Hb, bytes_app. lia.
      * destruct Hw as [W1 W2]. rewrite length_app in W1. rewrite bytes_app in W2. pose proof (bytes_nonneg (take n (messages h))). split; lia.
    + rewrite length_take. lia.
Qed.

(** ** Frames: what an operation leaves as it is *)

Local Notation same_identity := (HandleTables.same_identity id pluginId).
Local Notation extends r r' := (HandleTables.extends id pluginId (heap r) (heap r')).
Local Notation keeps r r' := (HandleTables.keeps id pluginId (heap r) (handles r) (heap r') (handles r')).

Lemma keeps_refl r : keeps r r.
Proof. split; [done|by left]. Qed.
#[local] Hint Resolve keeps_refl : core.

Lemma sockets_keeps_trans r1 r2 r3 : keeps r1 r2 -> keeps r2 r3 -> keeps r1 r3.
Proof. apply HandleTables.keeps_trans. Qed.

Lemma lookup_update_ring o f r o' :
  heap (update o f r) !! o' = (if decide (o = o') then f else fun h => h) <$> heap r !! o'.
Proof.
  unfold update. destruct (heap r !! o) as [h|] eqn:Ho; cbn [set_heap heap].
  - case_decide as E; [subst; rewrite Ho, list_lookup_insert_eq by (by eapply lookup_lt_Some); done|].
    rewrite list_lookup_insert_ne by done. by destruct (heap r !! o').
  - case_decide as E; [subst; by rewrite Ho|]. by destruct (heap r !! o').
Qed.

Lemma update_ring_frame o f r :
  handles (update o f r) = handles r /\ calls (update o f r) = calls r /\ length (heap (update o f r)) = length (heap r) /\
  nextId (update o f r) = nextId r.
Proof. unfold update. destruct (heap r !! o); [|done]. cbn. by rewrite length_insert. Qed.

Lemma socket_phase_frame k p r : heap (set_phase k p r) = heap r /\ handles (set_phase k p r) = handles r.
Proof. unfold set_phase. by destruct (calls r !! k). Qed.

(** ** The state of the registry *)

Record inv (r : Registry) : Prop := {
  i_table : table_ok id pluginId "sock-" NETWORK_MAX_SOCKET_HANDLES (heap r) (handles r) (nextId r);
  i_rings : forall o h, heap r !! o = Some h -> synced h;
  i_conns : forall l h conns c, heap r !! l = Some h -> pending h = Some conns -> c ∈ conns -> owner r c = Some (pluginId h)
}.

Lemma socket_live r : inv r -> forall i o, map_get i (handles r) = Some o -> exists h, heap r !! o = Some h /\ id h = i.
Proof. intros I. by eapply t_live, i_table. Qed.

Lemma i_unique r : inv r -> forall o h o' h', heap r !! o = Some h -> heap r !! o' = Some h' -> id h = id h' -> o = o'.
Proof. intros I. by eapply t_unique, i_table. Qed.

Lemma sockets_same r r' : heap r' = heap r -> handles r' = handles r -> nextId r' = nextId r -> inv r -> inv r'.
Proof. intros Hh Hm Hi [A B C]. split; by rewrite ?Hh, ?Hm, ?Hi. Qed.

Lemma update_extends o f r : (forall h, same_identity h (f h)) -> extends r (update o f r).
Proof. intros F. unfold update. destruct (heap r !! o) as [h|] eqn:Ho; [by apply insert_extends with (h := h)|done]. Qed.

Lemma owner_update o f r o' : (forall h, pluginId (f h) = pluginId h) -> owner (update o f r) o' = owner r o'.
Proof. intros F. unfold HandleTables.owner. rewrite lookup_update_ring. case_decide; destruct (heap r !! o'); cbn; by rewrite ?F. Qed.

Lemma sockets_update o f r :
  inv r -> (forall h, same_identity h (f h)) ->
  (forall h, heap r !! o = Some h -> synced h -> synced (f h)) ->
  (forall h conns c, heap r !! o = Some h -> pending (f h) = Some conns -> c ∈ conns -> owner r c = Some (pluginId h)) ->
  inv (update o f r).
Proof.
  intros [T A D] Id Sy Pe. destruct (update_ring_frame o f r) as (Hm & _ & Hl & Hn).
  assert (Ow : forall o', owner (update o f r) o' = owner r o') by (intros; apply owner_update; intros h; apply Id).
  split.
  - rewrite Hm, Hn. eapply table_update; [exact T|by apply update_extends|done].
  - intros o' h. rewrite lookup_update_ring. destruct (heap r !! o') as [h0|] eqn:Ho; [|done]. cbn. intros [= <-].
    case_decide; subst; eauto.
  - intros l h conns c. rewrite lookup_update_ring, Ow. destruct (heap r !! l) as [h0|] eqn:Ho; [|done]. cbn. intros [= <-].
    case_decide; [subst|eauto]. destruct (Id h0) as (_ & ->). eauto.
Qed.

Lemma inv_waiters o f r : inv r -> inv (update o (fun h => set_waiters (f h) h) r).
Proof.
  intros I. apply sockets_update; [done|by intros h| |]; [by intros h _ []|]. intros h conns c Ho Hp Hc. by eapply (i_conns r I).
Qed.

Lemma sockets_wake o r : inv r -> inv (wake_one o r).
Proof.
  intros I. unfold wake_one. destruct (heap r !! o) as [h|]; [|done]. destruct (waiters h) as [|k w]; [done|].
  destruct (socket_phase_frame k Awake (update o (set_waiters (without k w)) r)) as [E1 E2].
  eapply sockets_same; [exact E1|exact E2| |by apply (inv_waiters o (fun _ => without k w))].
  unfold set_phase. by case_match.
Qed.

Lemma wake_one_frame o r : handles (wake_one o r) = handles r /\ (forall o', owner (wake_one o r) o' = owner r o') /\
  (forall o', pending <$> heap (wake_one o r) !! o' = pending <$> heap r !! o') /\ extends r (wake_one o r).
Proof.
  unfold wake_one. destruct (heap r !! o) as [h|] eqn:Ho; [|done]. destruct (waiters h) as [|k w]; [done|].
  destruct (socket_phase_frame k Awake (update o (set_waiters (without k w)) r)) as [E1 E2].
  split_and!.
  - rewrite E2. apply update_ring_frame.
  - intros o'. unfold HandleTables.owner. rewrite E1. by apply owner_update.
  - intros o'. rewrite E1, lookup_update_ring. case_decide; by destruct (heap r !! o').
  - intros o' h' Ho'. rewrite E1, lookup_update_ring, Ho'. cbn. eexists. split; [done|]. by case_decide.
Qed.

(** The id leaves the table; nothing else changes. *)
Lemma sockets_del i r r' : inv r -> heap r' = heap r -> nextId r' = nextId r -> handles r' = map_del i (handles r) -> inv r'.
Proof. intros [T A D] Hh Hi Hm. split; rewrite ?Hh, ?Hm, ?Hi; [by apply table_del|done..]. Qed.

Lemma close_object_spec i o r :
  inv r ->
  inv (close_object i o r) /\ handles (close_object i o r) = map_del i (handles r) /\
  (forall o', owner (close_object i o r) o' = owner r o') /\
  (forall o', pending <$> heap (close_object i o r) !! o' = pending <$> heap r !! o') /\ extends r (close_object i o r).
Proof.
  intros I. unfold close_object. set (r1 := MkRegistry _ _ _ _ _ _).
  assert (I1 : inv r1) by (by eapply (sockets_del i r r1)).
  assert (I2 : inv (update o set_closed r1)).
  { apply sockets_update; [done|by intros h|by intros h _ []|]. intros h conns c Ho Hp Hc. by eapply (i_conns r1 I1). }
  destruct (wake_one_frame o (update o set_closed r1)) as (W1 & W2 & W3 & W4). split_and!.
  - by apply sockets_wake.
  - rewrite W1. apply update_ring_frame.
  - intros o'. rewrite W2. change (owner r o') with (owner r1 o'). by apply owner_update.
  - intros o'. rewrite W3, lookup_update_ring. change (heap r1) with (heap r). case_decide; by destruct (heap r !! o').
  - etrans; [|exact W4]. intros o' h Ho. rewrite lookup_update_ring. change (heap r1) with (heap r). rewrite Ho. cbn. eexists. split; [done|].
    by case_decide.
Qed.

(** [r'] has lost ids of [r], all of one plugin. *)
Definition lost (p : option string) (r r' : Registry) : Prop :=
  (forall j o, map_get j (handles r') = Some o -> map_get j (handles r) = Some o) /\
  (forall j o, map_get j (handles r) = Some o -> owner r o <> p -> map_get j (handles r') = Some o) /\
  (forall o, owner r' o = owner r o) /\ extends r r' /\
  (forall o, pending <$> heap r' !! o = pending <$> heap r !! o).

Lemma lost_refl p r : lost p r r.
Proof. by split_and!. Qed.

Lemma lost_trans p r1 r2 r3 : lost p r1 r2 -> lost p r2 r3 -> lost p r1 r3.
Proof.
  intros (A1 & B1 & C1 & D1 & E1) (A2 & B2 & C2 & D2 & E2). split_and!.
  - intros j o H. by apply A1, A2.
  - intros j o H Hp. apply B2; [by apply B1|by rewrite C1].
  - intros o. by rewrite C2.
  - by etrans.
  - intros o. by rewrite E2.
Qed.

Lemma close_object_lost i o p r : inv r -> map_get i (handles r) = Some o -> owner r o = p -> lost p r (close_object i o r).
Proof.
  intros I G Ho. destruct (close_object_spec i o r I) as (_ & Hm & Ow & Pe & Ex). split_and!; try done.
  - intros j o'. rewrite Hm, map_get_del by apply (i_table r I). by case_decide.
  - intros j o' Gj Hp. rewrite Hm, map_get_del by apply (i_table r I). case_decide; [|done]. subst. by simplify_eq.
Qed.

Lemma close_plain_lost i p r :
  inv r -> (forall o, map_get i (handles r) = Some o -> owner r o = p) -> inv (close_plain i r) /\ lost p r (close_plain i r).
Proof.
  intros I Hp. unfold close_plain. destruct (map_get i (handles r)) as [o|] eqn:G; [|by split; [|apply lost_refl]].
  destruct (close_object_spec i o r I) as (I1 & _). pose proof (close_object_lost i o p r I G (Hp o eq_refl)) as L.
  split; [by eapply sockets_same; [..|exact I1]|exact L].
Qed.

Lemma connections_lost conns p r :
  inv r -> (forall c, c ∈ conns -> owner r c = p) ->
  inv (fold_left close_connection conns r) /\ lost p r (fold_left close_connection conns r).
Proof.
  revert r. induction conns as [|c conns IH]; intros r I Hc; cbn [fold_left]; [by split; [|apply lost_refl]|].
  assert (C : inv (close_connection r c) /\ lost p r (close_connection r c)).
  { unfold close_connection. destruct (heap r !! c) as [h|] eqn:Ho; [|by split; [|apply lost_refl]].
    apply close_plain_lost; [done|]. intros o G. destruct (socket_live r I _ _ G) as (h' & Ho' & Hi).
    rewrite (i_unique r I o h' c h Ho' Ho Hi). apply Hc. by left. }
  destruct C as [I1 L1]. destruct (IH (close_connection r c) I1) as [I2 L2].
  - intros x Hx. destruct L1 as (_ & _ & Ow & _). rewrite Ow. apply Hc. by right.
  - split; [done|by eapply lost_trans].
Qed.

(** ** Every operation keeps the invariant and the identities *)

Lemma lost_keeps p r r' : lost p r r' -> keeps r r'.
Proof. intros (A & _ & _ & D & _). split; [done|]. intros j o G. left. by apply A. Qed.

Lemma quiet_keeps r r' : extends r r' -> handles r' = handles r -> keeps r r'.
Proof. intros E H. split; [done|]. intros j o. rewrite H. by left. Qed.

Lemma update_keeps o f r : (forall h, same_identity h (f h)) -> keeps r (update o f r).
Proof. intros F. apply quiet_keeps; [by apply update_extends|apply update_ring_frame]. Qed.

Lemma wake_keeps o r : keeps r (wake_one o r).
Proof. destruct (wake_one_frame o r) as (H & _ & _ & E). by apply quiet_keeps. Qed.

(** What only concerns the calls. *)
Lemma same_good r r' : heap r' = heap r -> handles r' = handles r -> nextId r' = nextId r -> inv r -> inv r' /\ keeps r r'.
Proof.
  intros H1 H2 H3 I. split; [by eapply sockets_same|]. apply quiet_keeps; [|done]. intros o h Ho. rewrite H1. by exists h.
Qed.

Lemma set_phase_good k p r : inv r -> inv (set_phase k p r) /\ keeps r (set_phase k p r).
Proof. intros I. apply same_good; try apply socket_phase_frame; [|done]. unfold set_phase. by case_match. Qed.

Lemma good_trans r1 r2 r3 : keeps r1 r2 -> inv r3 /\ keeps r2 r3 -> inv r3 /\ keeps r1 r3.
Proof. intros K [I K']. split; [done|]. by eapply sockets_keeps_trans. Qed.

(** A new handle. *)
Lemma allocate_good plugin k p random r :
  inv r -> "-"%char ∉ chars random -> p = None \/ p = Some [] ->
  inv (fst (allocate plugin k p random r)) /\ keeps r (fst (allocate plugin k p random r)).
Proof.
  intros [T A D] Hr Hp. unfold allocate. case_match eqn:Full; [by split; [|apply keeps_refl]|]. apply Nat.leb_gt in Full. cbn [fst].
  set (h0 := MkRing _ plugin k [] 0 [] [] false [] p).
  destruct (table_allocate id pluginId "sock-" NETWORK_MAX_SOCKET_HANDLES (heap r) (handles r) (nextId r) plugin random h0) as [T' K]; [done..|].
  split; [|exact K]. split; [exact T'| |]; cbn [heap].
  - intros o' h' [[_ Ho']|[_ <-]]%lookup_snoc_Some; [by eapply A|]. split; [done|]. split; vm_compute; lia || done.
  - intros l h conns c [[_ Hl]|[_ <-]]%lookup_snoc_Some Hc1 Hc2.
    + pose proof (D l h conns c Hl Hc1 Hc2) as Hown. rewrite (extends_owner id pluginId (heap r)); [done|apply K|].
      unfold HandleTables.owner in Hown. destruct (heap r !! c); [done|done].
    + cbn in Hc1. destruct Hp as [-> | ->]; [done|]. injection Hc1 as <-. by apply elem_of_nil in Hc2.
Qed.

Lemma phase_trans k p r r1 : keeps r r1 -> inv r1 -> inv (set_phase k p r1) /\ keeps r (set_phase k p r1).
Proof. intros K I. eapply good_trans; [exact K|by apply set_phase_good]. Qed.

Lemma close_good i r : inv r -> inv (closeHandle i r) /\ keeps r (closeHandle i r) /\
  (forall o, map_get i (handles r) = Some o -> lost (owner r o) r (closeHandle i r) /\ map_get i (handles (closeHandle i r)) = None).
Proof.
  intros I. unfold closeHandle. destruct (map_get i (handles r)) as [o|] eqn:G; [|done].
  destruct (close_object_spec i o r I) as (I1 & Hm & Ow & Pe & Ex).
  pose proof (close_object_lost i o (owner r o) r I G eq_refl) as L1.
  set (r1 := close_object i o r) in *. set (conns := match heap r1 !! o with Some h => _ | None => _ end).
  assert (Cn : forall c, c ∈ conns -> owner r1 c = owner r o).
  { intros c. unfold conns. destruct (heap r1 !! o) as [h|] eqn:Ho; [|by intros ?%elem_of_nil].
    destruct (pending h) as [l|] eqn:Hp; [|by intros ?%elem_of_nil]. intros Hc. rewrite (i_conns r1 I1 o h l c Ho Hp Hc).
    rewrite <- Ow. unfold HandleTables.owner. by rewrite Ho. }
  destruct (connections_lost conns (owner r o) r1 I1 Cn) as [I2 L2].
  assert (L : lost (owner r o) r (fold_left close_connection conns r1)) by (by eapply lost_trans).
  split_and!.
  - by eapply sockets_same; [..|exact I2].
  - by apply (lost_keeps (owner r o)).
  - intros o' [= <-]. split; [exact L|]. cbn [release handles]. apply eq_None_not_Some. intros [o' G'].
    apply L2 in G'. rewrite Hm, map_get_del in G' by apply (i_table r I). by rewrite decide_True in G'.
Qed.

Lemma close_owned_good plugin i r : inv r -> inv (close_owned plugin r i) /\ keeps r (close_owned plugin r i).
Proof.
  intros I. unfold close_owned. destruct (requireHandle plugin i r); [|done]. destruct (close_good i r I) as (? & ? & _). done.
Qed.

Lemma pushRing_good o data remote r : inv r -> inv (pushRing o data remote r) /\ keeps r (pushRing o data remote r).
Proof.
  intros I. unfold pushRing. destruct (heap r !! o) as [h|] eqn:Ho; [|done]. unfold ring_push.
  destruct (i_rings r I o h Ho) as [Hb Hw].
  destruct (evict_ring_spec (length (messages (append data remote h))) (append data remote h)) as (n & h' & Ev & M & B & W & _ & _ & _ & Hid & Hpl & Hk & _ & _ & Hpe).
  { cbn [append set_ring bufferedBytes messages]. rewrite bytes_app, Hb, bytes_cons. change (bytes []) with 0. lia. }
  { done. }
  rewrite Ev.
  assert (Eq : update o (fun _ => h') r = update o (fun k => if decide (k = h) then h' else k) r).
  { unfold update. rewrite Ho. by rewrite decide_True. }
  rewrite Eq. assert (Id : forall k, same_identity k (if decide (k = h) then h' else k)).
  { intros k. by case_decide; [subst|]. }
  split; [|eapply sockets_keeps_trans; [apply (update_keeps o _ r Id)|apply wake_keeps]]. apply sockets_wake, sockets_update; [done|done| |].
  - intros k Hk' _. rewrite decide_True by congruence. by split.
  - intros k conns c Hk'. rewrite decide_True by congruence. rewrite Hpe. cbn. intros Hp Hc. replace k with h by congruence. by eapply (i_conns r I).
Qed.

Lemma onConnection_good l random r :
  inv r -> "-"%char ∉ chars random -> inv (onConnection l random r) /\ keeps r (onConnection l random r).
Proof.
  intros I Hr. unfold onConnection. destruct (heap r !! l) as [h|] eqn:Hl; [|done].
  destruct (allocate_good (pluginId h) Tcp None random r I Hr (or_introl eq_refl)) as [I1 K1].
  destruct (allocate (pluginId h) Tcp None random r) as [r1 [conn|e]] eqn:Al; cbn [fst] in I1, K1.
  - assert (Oc : owner r1 conn = Some (pluginId h)).
    { unfold allocate in Al. case_match; [done|]. injection Al as <- <-. unfold HandleTables.owner. cbn [heap]. by rewrite list_lookup_middle. }
    destruct (proj1 K1 l h Hl) as (h1 & Hl1 & _ & Hp1).
    split; [|eapply sockets_keeps_trans; [exact K1|]; eapply sockets_keeps_trans; [|apply wake_keeps]; by apply update_keeps].
    apply sockets_wake, sockets_update; [done|by intros k|by intros k _ []|]. intros k conns c Hk. cbn [set_pending pending].
    replace k with h1 by congruence. destruct (pending h1) as [p|] eqn:Hp; [|done]. intros [= <-] [Hc|Hc]%elem_of_app.
    + by eapply (i_conns r1 I1).
    + apply list_elem_of_singleton in Hc as ->. by rewrite Hp1.
  - eapply good_trans; [exact K1|]. by apply same_good.
Qed.

Lemma waitFor_good o k r : inv r -> inv (waitFor o k r) /\ keeps r (waitFor o k r).
Proof.
  intros I. unfold waitFor. destruct (heap r !! o); [|done]. case_match; [by apply set_phase_good|].
  apply phase_trans; [|by apply (inv_waiters o (fun h => waiters h ++ [k]))]. by apply update_keeps.
Qed.

Lemma start_good plugin i q r : inv r -> inv (fst (start plugin i q r)) /\ keeps r (fst (start plugin i q r)).
Proof.
  intros I. unfold start. destruct (requireHandle plugin i r) as [o|e]; [|done]. cbn [fst].
  set (r1 := set_calls _ r). destruct (same_good r r1) as [I1 K1]; try done.
  destruct q; [by eapply good_trans, waitFor_good| |by eapply good_trans, waitFor_good].
  case_match; [done|by eapply good_trans, waitFor_good].
Qed.

Lemma socket_end_wait_good k r : inv r -> inv (end_wait k r) /\ keeps r (end_wait k r).
Proof.
  intros I. unfold end_wait. destruct (calls r !! k) as [c|]; [|done]. destruct (phase c); try done.
  apply phase_trans; [|by apply (inv_waiters (target c) (fun h => without k (waiters h)))]. by apply update_keeps.
Qed.

(** A call that drains the ring of its handle. *)
Lemma drain_good n o h r k p :
  inv r -> heap r !! o = Some h ->
  let r' := set_phase k p (update o (fun _ => snd (drain n h)) r) in inv r' /\ keeps r r'.
Proof.
  intros I Ho r'.
  assert (Eq : update o (fun _ => snd (drain n h)) r = update o (fun g => snd (drain n g)) r) by (unfold update; by rewrite Ho).
  unfold r'. rewrite Eq. apply phase_trans; [by apply update_keeps|]. apply sockets_update; [done|by intros g| |].
  - intros g Hg Sy. destruct (proj2 (ring_facts g "" None n Sy)) as [S _]. exact S.
  - intros g conns c Hg Hp Hc. by eapply (i_conns r I).
Qed.

Lemma socket_resume_good k r : inv r -> inv (resume k r) /\ keeps r (resume k r).
Proof.
  intros I. unfold resume. destruct (calls r !! k) as [c|]; [|done]. destruct (phase c); try done.
  destruct (heap r !! target c) as [h|] eqn:Ho; [|done]. destruct (request c) as [limit| |].
  - by apply (drain_good limit (target c) h).
  - destruct (pending h) as [[|conn rest]|] eqn:Hp; try by apply set_phase_good.
    apply phase_trans; [by apply update_keeps|]. apply sockets_update; [done|by intros g|by intros g _ []|].
    intros g conns x Hg [= <-] Hx. replace g with h by congruence. eapply (i_conns r I); [done|done|by right].
  - by apply (drain_good 1 (target c) h).
Qed.

(** The random part of an id is hexadecimal. *)
Definition hex_random (op : Op) : Prop :=
  match op with Open _ _ _ _ x | Connection _ x => "-"%char ∉ chars x | _ => True end.

#[export] Instance hex_random_dec op : Decision (hex_random op).
Proof. destruct op; cbn [hex_random]; apply _. Defined.

Lemma step_good op r : hex_random op -> inv r -> inv (step r op) /\ keeps r (step r op).
Proof.
  intros Hx I. destruct op as [plugin k l allowed x|o data remote|o|l x|plugin i q|k|k|plugin i|i]; cbn [step].
  - destruct allowed; [|done]. apply allocate_good; [done..|]. destruct l; auto.
  - by apply pushRing_good.
  - unfold onClose. destruct (heap r !! o) as [h|]; [|done]. case_match; [done|]. destruct (close_good (id h) r I) as (? & ? & _). done.
  - by apply onConnection_good.
  - by apply start_good.
  - by apply socket_end_wait_good.
  - by apply socket_resume_good.
  - by apply close_owned_good.
  - destruct (close_good i r I) as (? & ? & _). done.
Qed.

Lemma steps_good ops r : Forall hex_random ops -> inv r -> inv (fold_left step ops r) /\ keeps r (fold_left step ops r).
Proof.
  revert r. induction ops as [|op ops IH]; intros r F I; cbn [fold_left]; [done|]. apply Forall_cons in F as [F1 F2].
  destruct (step_good op r F1 I) as [I1 K1]. eapply good_trans; [exact K1|by apply IH].
Qed.

Lemma sockets_new : inv new_registry.
Proof. split; [apply table_empty|done|done]. Qed.

Lemma sockets_run ops : Forall hex_random ops -> inv (run ops).
Proof. intros F. by apply steps_good; [|apply sockets_new]. Qed.

(** ** Closing the handles of a plugin *)

Lemma close_owned_gone plugin i o h r :
  inv r -> heap r !! o = Some h -> id h = i -> pluginId h = plugin -> map_get i (handles (close_owned plugin r i)) = None.
Proof.
  intros I Ho Hi Hp. destruct (map_get i (handles r)) as [o'|] eqn:G.
  - assert (o' = o) as -> by (eapply (live_same_object id pluginId); [apply (i_table r I)|done..]).
    assert (F : find_handle pluginId (heap r) (handles r) plugin i = Some o).
    { eapply (find_handle_spec id pluginId _ _ _ _ _ _ _ _ (i_table r I)). by exists h. }
    unfold close_owned, requireHandle. rewrite F. destruct (close_good i r I) as (_ & _ & L). by apply (L o).
  - unfold close_owned, requireHandle, find_handle. by rewrite G.
Qed.

Lemma between_hex between : Forall (Forall hex_random) between -> Forall hex_random (default [] (head between)) /\ Forall (Forall hex_random) (tail between).
Proof. destruct between as [|b l]; [done|]. by intros [? ?]%Forall_cons. Qed.

Lemma close_each_good close ids between r :
  (forall i r, inv r -> inv (close r i) /\ keeps r (close r i)) -> Forall (Forall hex_random) between ->
  inv r -> inv (close_each close ids between r) /\ keeps r (close_each close ids between r).
Proof.
  intros Cl. revert between r. induction ids as [|i ids IH]; intros between r F I; cbn [close_each]; [done|].
  destruct (between_hex between F) as [F1 F2]. destruct (Cl i r I) as [I1 K1]. destruct (steps_good _ _ F1 I1) as [I2 K2].
  eapply good_trans; [by eapply sockets_keeps_trans|by apply IH].
Qed.

Lemma close_each_gone plugin ids between r i o h :
  Forall (Forall hex_random) between -> inv r -> heap r !! o = Some h -> id h = i -> pluginId h = plugin -> i ∈ ids ->
  map_get i (handles (close_each (close_owned plugin) ids between r)) = None.
Proof.
  revert between r h. induction ids as [|x ids IH]; intros between r h F I Ho Hi Hp Hin; [by apply elem_of_nil in Hin|].
  cbn [close_each]. destruct (between_hex between F) as [F1 F2]. destruct (close_owned_good plugin x r I) as [I1 K1].
  destruct (steps_good _ _ F1 I1) as [I2 K2].
  destruct (proj1 K1 o h Ho) as (h1 & Ho1 & Hi1 & Hp1). destruct (proj1 K2 o h1 Ho1) as (h2 & Ho2 & Hi2 & Hp2).
  apply elem_of_cons in Hin as [<-|Hin]; [|eapply IH; [done..|congruence|congruence|done]].
  pose proof (close_owned_gone plugin i o h r I Ho Hi Hp) as G.
  destruct (close_each_good (close_owned plugin) ids (tail between) _ (fun j s => close_owned_good plugin j s) F2 I2) as [I3 K3].
  eapply (gone_forever id pluginId); [apply (i_table _ I3)|exact (sockets_keeps_trans _ _ _ K2 K3)|exact Ho1|congruence|exact G].
Qed.

Lemma close_each_lost plugin ids r :
  inv r -> lost (Some plugin) r (close_each (close_owned plugin) ids [] r).
Proof.
  revert r. induction ids as [|i ids IH]; intros r I; cbn; [apply lost_refl|].
  eapply lost_trans; [|by apply IH, close_owned_good]. unfold close_owned, requireHandle, find_handle.
  destruct (map_get i (handles r)) as [o|] eqn:G; [|apply lost_refl]. case_bool_decide as Ow; [|apply lost_refl].
  destruct (close_good i r I) as (_ & _ & L). rewrite <- Ow. by apply L.
Qed.

(** Pushing a message keeps the longest end of what was buffered and the new
    message that is within both bounds, with the senders that belong to it, and the
    loop ends; draining takes the oldest messages, as many as asked for, and leaves
    the rest; the count of bytes stays exact. *)
Theorem ring_keeps_newest h data remote limit :
  synced h ->
  (exists n h', ring_push data remote h = Some h' /\ synced h' /\ messages h' = drop n (messages h ++ [data]) /\
     (forall m, (m < n)%nat -> ~ within (drop m (messages h ++ [data]))) /\
     remoteHosts h' = drop n (remoteHosts (append data remote h)) /\ remotePorts h' = drop n (remotePorts (append data remote h))) /\
  (let '(ms, hosts, ports, h') := drain limit h in
   synced h' /\ messages h = ms ++ messages h' /\ remoteHosts h = hosts ++ remoteHosts h' /\ remotePorts h = ports ++ remotePorts h' /\
   length ms = Nat.min (Z.to_nat limit) (length (messages h))).
Proof. apply ring_facts. Qed.

(** After any run a plugin has at most the allowed number of open handles, every
    ring is within its bounds with an exact count, an id in the table is that of
    its object, no two objects ever had the same id, and only the owner finds a
    handle by its id. *)
Theorem handles_bounded ops plugin :
  Forall hex_random ops ->
  let r := run ops in
  (owned r plugin <= NETWORK_MAX_SOCKET_HANDLES)%nat /\
  (forall o h, heap r !! o = Some h -> bufferedBytes h = bytes (messages h) /\ within (messages h)) /\
  (forall o h o' h', heap r !! o = Some h -> heap r !! o' = Some h' -> id h = id h' -> o = o') /\
  (forall i o, requireHandle plugin i r = Ok o <-> exists h, map_get i (handles r) = Some o /\ heap r !! o = Some h /\ id h = i /\ pluginId h = plugin).
Proof.
  intros F r. pose proof (sockets_run ops F) as I. fold r in I. split_and!; [apply (i_table r I)| |apply (i_unique r I)|].
  - intros o h Ho. destruct (i_rings r I o h Ho). done.
  - intros i o. rewrite <- (find_handle_spec id pluginId _ _ _ _ _ _ _ _ (i_table r I)). unfold requireHandle.
    destruct (find_handle _ _ _ _ _); split; congruence.
Qed.

(** C21: Closing the handles of a plugin removes every handle the plugin had at its
    start, whatever happens between its rounds, and no later operation finds one of
    them again; when nothing comes between, what is left is exactly the handles of
    the other plugins. *)
Theorem handles_revoked ops plugin between later :
  Forall hex_random ops -> Forall (Forall hex_random) between -> Forall hex_random later ->
  let r := run ops in
  (forall i o p, map_get i (handles r) = Some o -> owner r o = Some plugin ->
     requireHandle p i (fold_left step later (closePlugin plugin between r)) = Throw NOT_FOUND) /\
  (forall i o, map_get i (handles (closePlugin plugin [] r)) = Some o <-> map_get i (handles r) = Some o /\ owner r o <> Some plugin).
Proof.
  intros F Fb Fl r. pose proof (sockets_run ops F) as I. fold r in I.
  assert (Gone : forall between i o, Forall (Forall hex_random) between -> map_get i (handles r) = Some o -> owner r o = Some plugin ->
            map_get i (handles (closePlugin plugin between r)) = None).
  { intros b i o Hb G Ow. destruct (socket_live r I _ _ G) as (h & Ho & Hi). unfold HandleTables.owner in Ow. rewrite Ho in Ow. injection Ow as Hp.
    eapply close_each_gone; [done|done|exact Ho|done|done|]. apply map_get_elem in G. apply list_elem_of_fmap. by exists (i, o). }
  split.
  - intros i o p G Ow. destruct (socket_live r I _ _ G) as (h & Ho & Hi).
    destruct (close_each_good (close_owned plugin) (map_keys (handles r)) between r (fun j s => close_owned_good plugin j s) Fb I) as [I1 K1].
    destruct (steps_good later _ Fl I1) as [I2 K2]. destruct (proj1 K1 o h Ho) as (h1 & Ho1 & Hi1 & _).
    unfold requireHandle. unfold find_handle. erewrite (gone_forever id pluginId); [done|apply (i_table _ I2)|exact K2|exact Ho1|congruence|by eapply Gone].
  - intros i o. destruct (close_each_lost plugin (map_keys (handles r)) r I) as (A & B & _). split.
    + intros G. pose proof (A _ _ G) as G0. split; [done|]. intros Ow. pose proof (Gone [] i o (List.Forall_nil _) G0 Ow). congruence.
    + intros [G Ow]. by apply B.
Qed.

(** *** Witnesses and examples *)

Definition ids_of (r : Registry) : list string := map_keys (handles r).
Definition replies (r : Registry) : list Phase := map phase (calls r).

Lemma ring_keeps_newest_witness :
  let h := MkRing "s" "p" Udp ["ab"]%string 2 ["h"]%string [53] false [] None in
  synced h /\ (let '(ms, _, _, h') := drain 5 h in synced h' /\ messages h = ms ++ messages h').
Proof.
  set (h := MkRing "s" "p" Udp ["ab"]%string 2 ["h"]%string [53] false [] None).
  assert (S : synced h) by (split; [reflexivity|split; [apply (bool_decide_unpack _); reflexivity|vm_compute; discriminate]]).
  split; [exact S|]. destruct (ring_keeps_newest h "c" None 5 S) as [_ D]. cbv zeta. destruct (drain 5 h) as [[[ms hs] ps] h']. by destruct D as (? & ? & _).
Defined.

Definition two_plugins : list Op := [Open "p" Tcp false true "a1"; Open "q" Tcp false true "b2"; Open "p" Udp false true "c3"]%string.

Lemma handles_bounded_witness :
  Forall hex_random two_plugins /\ (owned (run two_plugins) "p" <= NETWORK_MAX_SOCKET_HANDLES)%nat /\ owned (run two_plugins) "p" = 2%nat.
Proof.
  assert (F : Forall hex_random two_plugins) by (apply (bool_decide_unpack _); vm_compute; exact I).
  split; [exact F|]. split; [exact (proj1 (handles_bounded two_plugins "p" F))|reflexivity].
Defined.

Lemma handles_revoked_witness :
  let r := run two_plugins in
  map_get "sock-p-1-a1"%string (handles r) = Some 0%nat /\
  requireHandle "p" "sock-p-1-a1" (fold_left step [] (closePlugin "p" [[Open "p" Tcp false true "d4"]]%string r)) = Throw NOT_FOUND /\
  ids_of (closePlugin "p" [] r) = ["sock-q-2-b2"]%string.
Proof.
  assert (F : Forall hex_random two_plugins) by (apply (bool_decide_unpack _); vm_compute; exact I).
  split; [reflexivity|]. split; [|reflexivity].
  apply (proj1 (handles_revoked two_plugins "p" [[Open "p" Tcp false true "d4"]]%string [] F
    ltac:(apply (bool_decide_unpack _); vm_compute; exact I) (List.Forall_nil _)) "sock-p-1-a1"%string 0%nat "p"%string); reflexivity.
Defined.

(** What the peer sent before it closed is lost: the handle is gone with its ring. *)
Example tail_lost :
  let r := run [Open "p" Websocket false true "a1"; Data 0 "one" None; Data 0 "two" None; RemoteClose 0]%string in
  messages <$> heap r !! 0%nat = Some ["one"; "two"]%string /\ snd (start "p" "sock-p-1-a1" (Receive 10) r) = Throw NOT_FOUND.
Proof. vm_compute. done. Qed.

(** A connection that was closed before it was accepted is still accepted. *)
Example accepted_closed :
  let r := run [Open "p" Tcp true true "a1"; Connection 0 "b2"; Data 1 "hello" None; RemoteClose 1; Start "p" "sock-p-1-a1" Accept; Resume 0]%string in
  replies r = [Done (Accepted (Some "sock-p-2-b2"%string))] /\ snd (start "p" "sock-p-2-b2" (Receive 10) r) = Throw NOT_FOUND.
Proof. vm_compute. done. Qed.

(** When a plugin has all its handles, a peer that connects to its listener makes the
    connection handler throw: nobody catches it. *)
Example connection_throws :
  uncaught (run (Open "p" Tcp true true "a1" :: repeat (Open "p" Udp false true "a1") 31 ++ [Connection 0 "b2"])%string) = [0%nat].
Proof. vm_compute. done. Qed.

(** Closing a handle wakes one of the calls that wait for it; the other waits for its
    own timer. *)
Example second_waiter_sleeps :
  replies (run [Open "p" Tcp false true "a1"; Start "p" "sock-p-1-a1" (Receive 1); Start "p" "sock-p-1-a1" (Receive 1); Close "p" "sock-p-1-a1"]%string) = [Awake; Waiting].
Proof. vm_compute. done. Qed.

(** A socket whose destination check ends while the plugin is being revoked opens. *)
Example opened_during_revoke :
  ids_of (closePlugin "p" [[Open "p" Tcp false true "d4"]]%string (run two_plugins)) = ["sock-q-2-b2"; "sock-p-4-d4"]%string.
Proof. vm_compute. done. Qed.

End SocketHandles.
