(* ===== verification/ProcessHandles.v ===== *)
(** * Processes of plugins
    (apps/plugin-runtime/src/host/processHandles.ts)

    The host keeps the child processes of a plugin and the output they have written.
    A handle is known by its number, since the callbacks of its child keep it after
    its id is gone.  One call up to its first wait, one event of a child, one timer or
    the turn in which a call goes on is one operation.  What a plugin may start is the
    component HostGates. *)

From Stdlib Require Import ZArith Lia Bool Ascii String List.
From stdpp Require Import base decidable list strings.
From S2P Require Import Prelude HandleTables.
Local Open Scope Z_scope.

Module ProcessHandles.

Definition PROCESS_MAX_HANDLES : nat := 16.
Definition PROCESS_MAX_OUTPUT_CHUNKS : nat := 64.
Definition PROCESS_MAX_BUFFER_BYTES : Z := 8 * 1024 * 1024.

(** ** State *)

Inductive Error := NOT_FOUND | SERVICE_UNAVAILABLE | TypeError.
Inductive Signal := SIGTERM | SIGKILL | SIGINT.

(** What Node keeps of a child: whether it is gone ([exitCode] or [signalCode] is
    set), and the signals that were sent to it. *)
Record ChildProcess := MkChild { gone : bool; killed : list Signal }.

(** [child] is [None] until [spawn] has assigned it; [settled]: the exit promise is
    resolved; [timer]: a deadline is set. *)
Record ProcessHandle := MkHandle {
  id : string;
  pluginId : string;
  child : option ChildProcess;
  stdoutChunks : list string;
  stderrChunks : list string;
  bufferedBytes : Z;
  exited : bool;
  exitCode : option Z;
  waiters : list nat;
  timer : bool;
  settled : bool
}.

Inductive Request := Output (limit : Z) | Wait.
Inductive Reply :=
| Chunks (out err : list string) (isExited : bool) (code : option Z)
| Exited (isExited : bool) (code : option Z).
Inductive Phase := Waiting | Awake | Done (r : Reply).
Record Call := MkCall { target : nat; request : Request; phase : Phase }.

Record Registry := MkRegistry { heap : list ProcessHandle; handles : list (string * nat); nextId : Z; calls : list Call }.

Definition new_registry : Registry := MkRegistry [] [] 0 [].

Definition set_child (c : option ChildProcess) (h : ProcessHandle) : ProcessHandle :=
  MkHandle (id h) (pluginId h) c (stdoutChunks h) (stderrChunks h) (bufferedBytes h) (exited h) (exitCode h) (waiters h) (timer h) (settled h).
Definition set_chunks (out err : list string) (b : Z) (h : ProcessHandle) : ProcessHandle :=
  MkHandle (id h) (pluginId h) (child h) out err b (exited h) (exitCode h) (waiters h) (timer h) (settled h).
Definition set_exited (code : option Z) (t : bool) (h : ProcessHandle) : ProcessHandle :=
  MkHandle (id h) (pluginId h) (child h) (stdoutChunks h) (stderrChunks h) (bufferedBytes h) true code (waiters h) t (settled h).
Definition set_waiters (w : list nat) (h : ProcessHandle) : ProcessHandle :=
  MkHandle (id h) (pluginId h) (child h) (stdoutChunks h) (stderrChunks h) (bufferedBytes h) (exited h) (exitCode h) w (timer h) (settled h).
Definition set_timer (t : bool) (h : ProcessHandle) : ProcessHandle :=
  MkHandle (id h) (pluginId h) (child h) (stdoutChunks h) (stderrChunks h) (bufferedBytes h) (exited h) (exitCode h) (waiters h) t (settled h).
Definition resolveExited (h : ProcessHandle) : ProcessHandle :=
  MkHandle (id h) (pluginId h) (child h) (stdoutChunks h) (stderrChunks h) (bufferedBytes h) (exited h) (exitCode h) (waiters h) (timer h) true.

Definition update (o : nat) (f : ProcessHandle -> ProcessHandle) (r : Registry) : Registry :=
  match heap r !! o with Some h => MkRegistry (<[o := f h]> (heap r)) (handles r) (nextId r) (calls r) | None => r end.
Definition set_phase (k : nat) (p : Phase) (r : Registry) : Registry :=
  match calls r !! k with
  | Some c => MkRegistry (heap r) (handles r) (nextId r) (<[k := MkCall (target c) (request c) p]> (calls r))
  | None => r
  end.

(** ** Output *)

(** [while (count or bytes over the bound) chunks.shift()]: an empty stream has
    nothing to give back, so that the loop then ends only if the count is right. *)
Fixpoint evict (fuel : nat) (chunks : list string) (b : Z) : option (list string * Z) :=
  if (PROCESS_MAX_OUTPUT_CHUNKS <? length chunks)%nat || (PROCESS_MAX_BUFFER_BYTES <? b) then
    match fuel with
    | O => None
    | S f => evict f (tail chunks) (match chunks with d :: _ => b - byteLength d | [] => b end)
    end
  else Some (chunks, b).

Definition pushChunks (chunks : list string) (b : Z) (data : string) : option (list string * Z) :=
  evict (S (length chunks)) (chunks ++ [data]) (b + byteLength data).

Inductive Stream := Stdout | Stderr.

Definition push (s : Stream) (data : string) (h : ProcessHandle) : option ProcessHandle :=
  match s with
  | Stdout => (fun '(c, b) => set_chunks c (stderrChunks h) b h) <$> pushChunks (stdoutChunks h) (bufferedBytes h) data
  | Stderr => (fun '(c, b) => set_chunks (stdoutChunks h) c b h) <$> pushChunks (stderrChunks h) (bufferedBytes h) data
  end.

(** The chunks that are taken, and those that stay; no byte is counted back. *)
Definition drainChunks (chunks : list string) (limit : Z) : list string * list string :=
  let n := Nat.min (Z.to_nat limit) (length chunks) in (take n chunks, drop n chunks).

Definition output (limit : Z) (h : ProcessHandle) : Reply * ProcessHandle :=
  let '(out, out') := drainChunks (stdoutChunks h) limit in
  let '(err, err') := drainChunks (stderrChunks h) limit in
  (Chunks out err (exited h) (exitCode h), set_chunks out' err' (bufferedBytes h) h).

(** ** The registry *)

Local Notation owner r := (HandleTables.owner pluginId (heap r)).
Local Notation owned r := (HandleTables.owned pluginId (heap r) (handles r)).

Definition allocate (plugin random : string) (r : Registry) : Registry * outcome Error nat :=
  if (PROCESS_MAX_HANDLES <=? owned r plugin)%nat then (r, Throw SERVICE_UNAVAILABLE)
  else
    let n := nextId r + 1 in
    let i := handle_id "proc-" plugin n random in
    let o := length (heap r) in
    (MkRegistry (heap r ++ [MkHandle i plugin None [] [] 0 false None [] false false]) (map_set i o (handles r)) n (calls r), Ok o).

Definition requireHandle (plugin i : string) (r : Registry) : outcome Error nat :=
  match find_handle pluginId (heap r) (handles r) plugin i with Some o => Ok o | None => Throw NOT_FOUND end.

Definition wake (o : nat) (r : Registry) : Registry :=
  match heap r !! o with
  | Some h => match waiters h with k :: w => set_phase k Awake (update o (set_waiters (without k w)) r) | [] => r end
  | None => r
  end.

Definition kill (s : Signal) (c : ChildProcess) : ChildProcess := MkChild (gone c) (killed c ++ [s]).

(** Without a child, reading [handle.child.exitCode] throws; what was done before
    stays. *)
Definition closeHandle (i : string) (r : Registry) : Registry * outcome Error unit :=
  match map_get i (handles r) with
  | None => (r, Ok tt)
  | Some o =>
      let r := update o (fun h => set_exited (exitCode h) false h) (MkRegistry (heap r) (map_del i (handles r)) (nextId r) (calls r)) in
      match heap r !! o with
      | Some h =>
          match child h with
          | None => (r, Throw TypeError)
          | Some c =>
              let r := if gone c then r else update o (set_child (Some (kill SIGKILL c))) r in
              (wake o (update o resolveExited r), Ok tt)
          end
      | None => (r, Ok tt)
      end
  end.

Definition close (plugin i : string) (r : Registry) : Registry * outcome Error unit :=
  match requireHandle plugin i r with Throw e => (r, Throw e) | Ok _ => closeHandle i r end.

(** The promises to wait for are those of the handles that were closed. *)
Fixpoint close_all (mine : Registry -> string -> bool) (ids : list string) (r : Registry) : Registry * outcome Error (list nat) :=
  match ids with
  | [] => (r, Ok [])
  | i :: ids =>
      if mine r i then
        match closeHandle i r with
        | (r', Throw e) => (r', Throw e)
        | (r', Ok _) =>
            let '(r'', res) := close_all mine ids r' in
            (r'', match res with Ok l => Ok (match map_get i (handles r) with Some o => [o] | None => [] end ++ l) | Throw e => Throw e end)
        end
      else close_all mine ids r
  end.

Definition closePlugin (plugin : string) (r : Registry) : Registry * outcome Error (list nat) :=
  close_all (fun r i => match requireHandle plugin i r with Ok _ => true | Throw _ => false end) (map_keys (handles r)) r.
Definition closeAll (r : Registry) : Registry * outcome Error (list nat) :=
  close_all (fun r i => map_has i (handles r)) (map_keys (handles r)) r.

(** ** Calls that wait *)

Definition waitFor (o k : nat) (r : Registry) : Registry :=
  match heap r !! o with
  | Some h => if exited h then set_phase k Awake r else set_phase k Waiting (update o (set_waiters (waiters h ++ [k])) r)
  | None => r
  end.

Definition start (plugin i : string) (q : Request) (r : Registry) : Registry * outcome Error nat :=
  match requireHandle plugin i r with
  | Throw e => (r, Throw e)
  | Ok o => let k := length (calls r) in (waitFor o k (MkRegistry (heap r) (handles r) (nextId r) (calls r ++ [MkCall o q Awake])), Ok k)
  end.

(** The timer or the signal of a wait: both only end it. *)
Definition end_wait (k : nat) (r : Registry) : Registry :=
  match calls r !! k with
  | Some c =>
      match phase c with
      | Waiting => set_phase k Awake (update (target c) (fun h => set_waiters (without k (waiters h)) h) r)
      | _ => r
      end
  | None => r
  end.

Definition resume (k : nat) (r : Registry) : Registry :=
  match calls r !! k with
  | Some c =>
      match phase c, heap r !! target c with
      | Awake, Some h =>
          match request c with
          | Output limit => set_phase k (Done (fst (output limit h))) (update (target c) (fun _ => snd (output limit h)) r)
          | Wait => set_phase k (Done (Exited (exited h) (exitCode h))) r
          end
      | _, _ => r
      end
  | None => r
  end.

(** ** Events of a child *)

(** [spawn] up to its wait: it may throw, for instance for an argument with a NUL. *)
Definition spawn (plugin random : string) (throws : bool) (r : Registry) : Registry * outcome Error nat :=
  match allocate plugin random r with
  | (r, Throw e) => (r, Throw e)
  | (r, Ok o) => if throws then (r, Throw TypeError) else (update o (set_child (Some (MkChild false []))) r, Ok o)
  end.

(** The rest of the call, once the child runs: its deadline. *)
Definition onSpawn (o : nat) (timeoutMs : Z) (r : Registry) : Registry :=
  if 0 <? timeoutMs then update o (set_timer true) r else r.

Definition onTimer (o : nat) (r : Registry) : Registry :=
  match heap r !! o with
  | Some h =>
      if timer h then
        update o (fun h =>
          match child h with
          | Some c => set_timer false (if negb (exited h) && negb (gone c) then set_child (Some (kill SIGKILL c)) h else h)
          | None => set_timer false h
          end) r
      else r
  | None => r
  end.

Definition onData (o : nat) (s : Stream) (data : string) (r : Registry) : Registry :=
  match heap r !! o with
  | Some h => match push s data h with Some h' => wake o (update o (fun _ => h') r) | None => r end
  | None => r
  end.

(** Node has set the code of the child before. *)
Definition onExit (o : nat) (code : option Z) (r : Registry) : Registry :=
  wake o (update o (fun h =>
    resolveExited (set_exited code (timer h) (set_child ((fun c => MkChild true (killed c)) <$> child h) h))) r).

(** [error] before and after the child ran. *)
Definition onSpawnError (o : nat) (r : Registry) : Registry :=
  match heap r !! o with Some h => fst (closeHandle (id h) r) | None => r end.
Definition onError (o : nat) (message : string) (r : Registry) : Registry :=
  match heap r !! o with
  | Some h =>
      match push Stderr ("process error: " ++ message) h with
      | Some h' => wake o (update o (fun _ => resolveExited (set_exited (exitCode h') (timer h') h')) r)
      | None => r
      end
  | None => r
  end.

Definition signal (plugin i : string) (s : Signal) (r : Registry) : Registry * outcome Error unit :=
  match requireHandle plugin i r with
  | Throw e => (r, Throw e)
  | Ok o =>
      match heap r !! o with
      | Some h =>
          if exited h then (r, Ok tt)
          else match child h with Some c => (update o (set_child (Some (kill s c))) r, Ok tt) | None => (r, Throw TypeError) end
      | None => (r, Ok tt)
      end
  end.

(** ** Runs *)

Inductive Op :=
| Spawn (plugin random : string) (throws : bool)
| Spawned (o : nat) (timeoutMs : Z)
| SpawnError (o : nat)
| Timer (o : nat)
| Data (o : nat) (s : Stream) (data : string)
| Exit (o : nat) (code : option Z)
| ChildError (o : nat) (message : string)
| Start (plugin i : string) (q : Request)
| EndWait (k : nat)
| Resume (k : nat)
| SendSignal (plugin i : string) (s : Signal)
| Close (plugin i : string)
| ClosePlugin (plugin : string)
| CloseAll.

Definition step (r : Registry) (op : Op) : Registry :=
  match op with
  | Spawn plugin random throws => fst (spawn plugin random throws r)
  | Spawned o t => onSpawn o t r
  | SpawnError o => onSpawnError o r
  | Timer o => onTimer o r
  | Data o s d => onData o s d r
  | Exit o code => onExit o code r
  | ChildError o m => onError o m r
  | Start plugin i q => fst (start plugin i q r)
  | EndWait k => end_wait k r
  | Resume k => resume k r
  | SendSignal plugin i s => fst (signal plugin i s r)
  | Close plugin i => fst (close plugin i r)
  | ClosePlugin plugin => fst (closePlugin plugin r)
  | CloseAll => fst (closeAll r)
  end.

Definition run (ops : list Op) : Registry := fold_left step ops new_registry.


(** ** What is buffered *)

Definition chunks_of (s : Stream) (h : ProcessHandle) : list string := match s with Stdout => stdoutChunks h | Stderr => stderrChunks h end.
Definition other (s : Stream) : Stream := match s with Stdout => Stderr | Stderr => Stdout end.

(** [e] bytes of the budget are used elsewhere. *)
Definition fits (e : Z) (l : list string) : Prop := (length l <= PROCESS_MAX_OUTPUT_CHUNKS)%nat /\ e + bytes l <= PROCESS_MAX_BUFFER_BYTES.

(** The count of a handle from which [d] bytes were drained. *)
Record counted (d : Z) (h : ProcessHandle) : Prop := {
  c_drained : 0 <= d;
  c_sum : bufferedBytes h = d + bytes (stdoutChunks h) + bytes (stderrChunks h);
  c_bound : bufferedBytes h <= PROCESS_MAX_BUFFER_BYTES;
  c_chunks : forall s, (length (chunks_of s h) <= PROCESS_MAX_OUTPUT_CHUNKS)%nat
}.

Lemma evict_chunks_spec fuel chunks e :
  e <= PROCESS_MAX_BUFFER_BYTES -> (length chunks <= fuel)%nat ->
  exists n, evict fuel chunks (e + bytes chunks) = Some (drop n chunks, e + bytes (drop n chunks)) /\
    fits e (drop n chunks) /\ forall m, (m < n)%nat -> ~ fits e (drop m chunks).
Proof.
  intros He. revert chunks. induction fuel as [|f IH]; intros chunks Hf; cbn [evict]; destruct (_ || _) eqn:E.
  - exfalso. assert (chunks = []) as -> by (apply length_zero_iff_nil; lia). apply orb_true_iff in E as [E|E]; [done|]. bools.
    change (bytes []) with 0 in E. lia.
  - bools. exists 0%nat. split_and!; [done|split; [done|rewrite drop_0; lia]|lia].
  - assert (Nf : ~ fits e chunks) by (intros [W1 W2]; apply orb_true_iff in E as [E|E]; bools; lia).
    destruct chunks as [|x chunks].
    + destruct Nf. split; [cbn; unfold PROCESS_MAX_OUTPUT_CHUNKS; lia|change (bytes []) with 0; lia].
    + cbn [tail]. replace (e + bytes (x :: chunks) - byteLength x) with (e + bytes chunks) by (rewrite bytes_cons; lia).
      destruct (IH chunks) as (n & Ev & W & Min); [cbn in Hf; lia|]. exists (S n). split_and!; [done..|].
      intros [|m] Hm; [done|]. apply (Min m). lia.
  - bools. exists 0%nat. split_and!; [done|split; [done|rewrite drop_0; lia]|lia].
Qed.

Lemma push_spec d h s data :
  counted d h ->
  exists n h', push s data h = Some h' /\ counted d h' /\ chunks_of s h' = drop n (chunks_of s h ++ [data]) /\
    chunks_of (other s) h' = chunks_of (other s) h /\
    (forall m, (m < n)%nat -> ~ fits (d + bytes (chunks_of (other s) h)) (drop m (chunks_of s h ++ [data]))) /\
    id h' = id h /\ pluginId h' = pluginId h /\ child h' = child h /\ exited h' = exited h.
Proof.
  intros [D Su Bo Ch].
  destruct (evict_chunks_spec (S (length (chunks_of s h))) (chunks_of s h ++ [data]) (d + bytes (chunks_of (other s) h))) as (n & Ev & [F1 F2] & Min).
  - pose proof (bytes_nonneg (stdoutChunks h)). pose proof (bytes_nonneg (stderrChunks h)). destruct s; cbn [chunks_of other]; lia.
  - rewrite length_app. cbn. lia.
  - rewrite bytes_app, bytes_cons in Ev. change (bytes []) with 0 in Ev.
    pose proof (Ch Stdout) as C1. pose proof (Ch Stderr) as C2.
    assert (Eb : bufferedBytes h + byteLength data = d + bytes (chunks_of (other s) h) + (bytes (chunks_of s h) + (byteLength data + 0)))
      by (destruct s; cbn [chunks_of other]; lia).
    destruct s; cbn [chunks_of other push] in *; unfold pushChunks;
      rewrite Eb, Ev; cbn [fmap option_fmap option_map]; exists n; eexists; split_and!; try done;
      (split; cbn [set_chunks bufferedBytes stdoutChunks stderrChunks]; [done|lia|lia|by intros []]).
Qed.

Lemma output_spec d h limit :
  counted d h ->
  exists out err, fst (output limit h) = Chunks out err (exited h) (exitCode h) /\
    let h' := snd (output limit h) in
    counted (d + bytes out + bytes err) h' /\ stdoutChunks h = out ++ stdoutChunks h' /\ stderrChunks h = err ++ stderrChunks h' /\
    length out = Nat.min (Z.to_nat limit) (length (stdoutChunks h)) /\ length err = Nat.min (Z.to_nat limit) (length (stderrChunks h)).
Proof.
  intros [D Su Bo Ch]. unfold output, drainChunks. set (n := Nat.min _ (length (stdoutChunks h))). set (k := Nat.min _ (length (stderrChunks h))).
  exists (take n (stdoutChunks h)), (take k (stderrChunks h)). split; [done|]. cbn [snd set_chunks stdoutChunks stderrChunks].
  rewrite !take_drop, !length_take. pose proof (bytes_take n (stdoutChunks h)). pose proof (bytes_take k (stderrChunks h)).
  pose proof (bytes_nonneg (take n (stdoutChunks h))). pose proof (bytes_nonneg (take k (stderrChunks h))).
  split_and!; [|done|done|lia|lia]. split; cbn [set_chunks bufferedBytes stdoutChunks stderrChunks]; [lia..|].
  intros s. specialize (Ch s). destruct s; cbn [chunks_of set_chunks stdoutChunks stderrChunks] in *; rewrite length_drop; lia.
Qed.

(** ** The state of the registry *)

Local Notation same_identity := (HandleTables.same_identity id pluginId).

Record inv (r : Registry) : Prop := {
  i_table : table_ok id pluginId "proc-" PROCESS_MAX_HANDLES (heap r) (handles r) (nextId r);
  i_counted : forall o h, heap r !! o = Some h -> exists d, counted d h
}.

Lemma lookup_update_process o f r o' : heap (update o f r) !! o' = (if decide (o = o') then f else fun h => h) <$> heap r !! o'.
Proof.
  unfold update. destruct (heap r !! o) as [h|] eqn:Ho; cbn [heap].
  - case_decide as E; [subst; rewrite Ho, list_lookup_insert_eq by (by eapply lookup_lt_Some); done|].
    rewrite list_lookup_insert_ne by done. by destruct (heap r !! o').
  - case_decide as E; [subst; by rewrite Ho|]. by destruct (heap r !! o').
Qed.

Lemma update_process_frame o f r : handles (update o f r) = handles r /\ nextId (update o f r) = nextId r /\ length (heap (update o f r)) = length (heap r).
Proof. unfold update. destruct (heap r !! o); [|done]. cbn. by rewrite length_insert. Qed.

Lemma phase_frame k p r : heap (set_phase k p r) = heap r /\ handles (set_phase k p r) = handles r /\ nextId (set_phase k p r) = nextId r.
Proof. unfold set_phase. by destruct (calls r !! k). Qed.

Lemma processes_same r r' : heap r' = heap r -> handles r' = handles r -> nextId r' = nextId r -> inv r -> inv r'.
Proof. intros Hh Hm Hi [A B]. split; by rewrite ?Hh, ?Hm, ?Hi. Qed.

Lemma inv_phase k p r : inv r -> inv (set_phase k p r).
Proof. intros I. destruct (phase_frame k p r) as (A & B & C). by eapply processes_same. Qed.

(** A change of an object that keeps its identity and its count. *)
Definition harmless (f : ProcessHandle -> ProcessHandle) : Prop := forall h, same_identity h (f h) /\ forall d, counted d h -> exists d', counted d' (f h).

Lemma processes_update o f r : inv r -> harmless f -> inv (update o f r).
Proof.
  intros [T C] F. destruct (update_process_frame o f r) as (Hm & Hn & Hl). split.
  - rewrite Hm, Hn. eapply table_update; [exact T| |done]. unfold update. destruct (heap r !! o) as [h|] eqn:Ho; [|done].
    apply insert_extends with (h := h); [done|]. apply F.
  - intros o' h'. rewrite lookup_update_process. destruct (heap r !! o') as [h|] eqn:Ho; [|done]. cbn. intros [= <-].
    destruct (C o' h Ho) as [d Hd]. case_decide; [|by exists d]. by apply (F h) in Hd.
Qed.

Lemma counted_same d h h' :
  stdoutChunks h' = stdoutChunks h -> stderrChunks h' = stderrChunks h -> bufferedBytes h' = bufferedBytes h -> counted d h -> counted d h'.
Proof. intros E1 E2 E3 [A B C D]. split; rewrite ?E1, ?E2, ?E3; try done. intros s. specialize (D s). by destruct s; cbn [chunks_of] in *; rewrite ?E1, ?E2. Qed.

Lemma harmless_same f :
  (forall h, same_identity h (f h) /\ stdoutChunks (f h) = stdoutChunks h /\ stderrChunks (f h) = stderrChunks h /\ bufferedBytes (f h) = bufferedBytes h) -> harmless f.
Proof. intros F h. destruct (F h) as (S & E1 & E2 & E3). split; [done|]. intros d C. exists d. by eapply counted_same. Qed.

(** An object is replaced by one of its identity with a count. *)
Lemma inv_replace o h h' d r : inv r -> heap r !! o = Some h -> same_identity h h' -> counted d h' -> inv (update o (fun _ => h') r).
Proof.
  intros [T C] Ho S Hc. unfold update. rewrite Ho. split; cbn [heap handles nextId].
  - eapply table_update; [exact T|by apply insert_extends with (h := h)|by rewrite length_insert].
  - intros o' k. destruct (decide (o = o')) as [<-|Ne].
    + rewrite list_lookup_insert_eq by (by eapply lookup_lt_Some). intros [= <-]. by exists d.
    + rewrite list_lookup_insert_ne by done. apply C.
Qed.

Lemma processes_wake o r : inv r -> inv (wake o r).
Proof.
  intros I. unfold wake. destruct (heap r !! o) as [h|]; [|done]. destruct (waiters h); [done|].
  by apply inv_phase, processes_update, harmless_same.
Qed.

(** Waking changes no object but the waiters of one. *)
Lemma wake_process_frame o r :
  handles (wake o r) = handles r /\ forall o', heap (wake o r) !! o' = heap r !! o' \/
    (o' = o /\ exists h w, heap r !! o = Some h /\ heap (wake o r) !! o = Some (set_waiters w h)).
Proof.
  unfold wake. destruct (heap r !! o) as [h|] eqn:Ho; [|by split; [|by left]]. destruct (waiters h) as [|k w]; [by split; [|by left]|].
  destruct (phase_frame k Awake (update o (set_waiters (without k w)) r)) as (-> & -> & _). split; [apply update_process_frame|].
  intros o'. rewrite !lookup_update_process. case_decide as E; [subst o'|left; by destruct (heap r !! o')]. right. split; [done|].
  exists h, (without k w). by rewrite decide_True, Ho.
Qed.

Ltac same := apply harmless_same; intros ?; split_and!; done.

Lemma processes_new : inv new_registry.
Proof. split; [apply table_empty|done]. Qed.

Lemma processes_del i r : inv r -> inv (MkRegistry (heap r) (map_del i (handles r)) (nextId r) (calls r)).
Proof. intros [T C]. split; [by apply table_del|done]. Qed.

Lemma process_live r i o : inv r -> map_get i (handles r) = Some o -> exists h, heap r !! o = Some h /\ id h = i.
Proof. intros I. by eapply t_live, i_table. Qed.

(** What closing a handle does: only its object changes, and only its id leaves. *)
Definition stopped (h : ProcessHandle) : Prop :=
  exited h = true /\ settled h = true /\ exists c, child h = Some c /\ (gone c = true \/ SIGKILL ∈ killed c).

Lemma close_inv i r : inv r -> inv (fst (closeHandle i r)).
Proof.
  intros I. unfold closeHandle. destruct (map_get i (handles r)) as [o|]; [|done].
  set (r1 := update o _ _). assert (I1 : inv r1) by (apply processes_update; [by apply processes_del|same]).
  destruct (heap r1 !! o) as [h|]; [|done]. destruct (child h) as [c|]; [|done]. cbn [fst].
  apply processes_wake, processes_update; [|same]. destruct (gone c); [done|]. apply processes_update; [done|same].
Qed.

Lemma close_spec i o h c r :
  inv r -> map_get i (handles r) = Some o -> heap r !! o = Some h -> child h = Some c ->
  let r' := fst (closeHandle i r) in
  snd (closeHandle i r) = Ok tt /\ handles r' = map_del i (handles r) /\
  (forall o', o' <> o -> heap r' !! o' = heap r !! o') /\
  exists h', heap r' !! o = Some h' /\ stopped h' /\ same_identity h h'.
Proof.
  intros I G Ho Hc. unfold closeHandle. rewrite G. set (r0 := MkRegistry _ _ _ _). set (r1 := update o _ r0).
  assert (H1 : heap r1 !! o = Some (set_exited (exitCode h) false h)).
  { unfold r1. rewrite lookup_update_process, decide_True by done. change (heap r0) with (heap r). by rewrite Ho. }
  rewrite H1. cbn [set_exited child]. rewrite Hc. cbn [fst snd].
  set (r2 := if gone c then r1 else _). set (r3 := update o resolveExited r2).
  assert (H2 : exists h2, heap r2 !! o = Some h2 /\ exited h2 = true /\ same_identity h h2 /\ exists c2, child h2 = Some c2 /\ (gone c2 = true \/ SIGKILL ∈ killed c2)).
  { unfold r2. destruct (gone c) eqn:Eg.
    - exists (set_exited (exitCode h) false h). split_and!; try done. exists c. auto.
    - rewrite lookup_update_process, decide_True by done. rewrite H1. eexists. split_and!; try done. eexists. split; [done|]. right.
      cbn. apply elem_of_app. right. by left. }
  destruct H2 as (h2 & H2 & E2 & S2 & c2 & C2 & K2).
  assert (H3 : heap r3 !! o = Some (resolveExited h2)) by (unfold r3; by rewrite lookup_update_process, decide_True, H2).
  destruct (wake_process_frame o r3) as [W1 W2]. split_and!; [done| | |].
  - rewrite W1. unfold r3. rewrite (proj1 (update_process_frame _ _ _)). unfold r2, r1.
    destruct (gone c); rewrite ?(proj1 (update_process_frame _ _ _)); done.
  - intros o' Ne. destruct (W2 o') as [-> |[-> _]]; [|done]. unfold r3, r2, r1. rewrite lookup_update_process, decide_False by done.
    destruct (gone c); rewrite ?lookup_update_process, ?decide_False by done; change (heap r0) with (heap r); by destruct (heap r !! o').
  - destruct (W2 o) as [-> |(_ & h4 & w & H4 & ->)].
    + exists (resolveExited h2). split_and!; [done| |done]. split_and!; [done..|]. by exists c2.
    + replace h4 with (resolveExited h2) by congruence. eexists. split_and!; [done| |done]. split_and!; [done..|]. by exists c2.
Qed.

Lemma close_all_inv mine ids r : inv r -> inv (fst (close_all mine ids r)).
Proof.
  revert r. induction ids as [|i ids IH]; intros r I; cbn [close_all]; [done|]. destruct (mine r i); [|by apply IH].
  pose proof (close_inv i r I) as I1. destruct (closeHandle i r) as [r1 [u|e]]; cbn [fst] in I1; [|done].
  specialize (IH r1 I1). by destruct (close_all mine ids r1).
Qed.

Lemma push_inv o s data h h' r : inv r -> heap r !! o = Some h -> push s data h = Some h' ->
  inv (update o (fun _ => h') r) /\ inv (update o (fun _ => resolveExited (set_exited (exitCode h') (timer h') h')) r).
Proof.
  intros I Ho E. destruct (i_counted r I o h Ho) as [d C]. destruct (push_spec d h s data C) as (n & h2 & E2 & C2 & _ & _ & _ & H1 & H2 & _).
  assert (h2 = h') as -> by congruence. split; (eapply inv_replace; [done|done|by split|]); [done|by apply (counted_same d h')].
Qed.

(** The random part of an id is hexadecimal. *)
Definition hex_random (op : Op) : Prop := match op with Spawn _ x _ => "-"%char ∉ chars x | _ => True end.
#[export] Instance hex_random_dec op : Decision (hex_random op).
Proof. destruct op; cbn [hex_random]; apply _. Defined.

Lemma allocate_inv plugin random r : inv r -> "-"%char ∉ chars random -> inv (fst (allocate plugin random r)).
Proof.
  intros [T C] Hr. unfold allocate. case_match eqn:Full; [done|]. apply Nat.leb_gt in Full. cbn [fst].
  set (h0 := MkHandle _ plugin None [] [] 0 false None [] false false).
  destruct (table_allocate id pluginId "proc-" PROCESS_MAX_HANDLES (heap r) (handles r) (nextId r) plugin random h0) as [T' _]; [done..|].
  split; [exact T'|]. intros o' h' [[_ Ho']|[_ <-]]%lookup_snoc_Some; [by eapply C|]. exists 0.
  split; try done. intros []; cbn; unfold PROCESS_MAX_OUTPUT_CHUNKS; lia.
Qed.

Lemma waitFor_inv o k r : inv r -> inv (waitFor o k r).
Proof.
  intros I. unfold waitFor. destruct (heap r !! o) as [h|]; [|done]. destruct (exited h); [by apply inv_phase|].
  apply inv_phase, processes_update; [done|same].
Qed.

Lemma resume_inv k r : inv r -> inv (resume k r).
Proof.
  intros I. unfold resume. destruct (calls r !! k) as [c|]; [|done]. destruct (phase c); try done.
  destruct (heap r !! target c) as [h|] eqn:Ho; [|done]. destruct (request c) as [limit|]; [|by apply inv_phase].
  apply inv_phase. destruct (i_counted r I _ _ Ho) as [d C]. destruct (output_spec d h limit C) as (out & err & _ & C' & _).
  by eapply inv_replace.
Qed.

Lemma step_inv op r : hex_random op -> inv r -> inv (step r op).
Proof.
  intros Hx I. destruct op as [plugin x throws|o t|o|o|o s data|o code|o m|plugin i q|k|k|plugin i s|plugin i|plugin|]; cbn [step].
  - unfold spawn. pose proof (allocate_inv plugin x r I Hx) as I1. destruct (allocate plugin x r) as [r1 [o|e]]; cbn [fst] in I1; [|done].
    destruct throws; [done|]. apply processes_update; [done|same].
  - unfold onSpawn. case_match; [|done]. apply processes_update; [done|same].
  - unfold onSpawnError. destruct (heap r !! o); [by apply close_inv|done].
  - unfold onTimer. destruct (heap r !! o) as [h|]; [|done]. destruct (timer h); [|done]. apply processes_update; [done|].
    apply harmless_same. intros g. destruct (child g) as [c|]; [destruct (negb (exited g) && negb (gone c))|]; split_and!; done.
  - unfold onData. destruct (heap r !! o) as [h|] eqn:Ho; [|done]. destruct (push s data h) as [h'|] eqn:E; [|done].
    by eapply processes_wake, push_inv.
  - apply processes_wake, processes_update; [done|same].
  - unfold onError. destruct (heap r !! o) as [h|] eqn:Ho; [|done]. destruct (push _ _ h) as [h'|] eqn:E; [|done].
    by eapply processes_wake, push_inv.
  - unfold start. destruct (requireHandle plugin i r) as [o|e]; [|done]. cbn [fst]. apply waitFor_inv. by eapply processes_same; [..|exact I].
  - unfold end_wait. destruct (calls r !! k) as [c|]; [|done]. destruct (phase c); try done. apply inv_phase, processes_update; [done|same].
  - by apply resume_inv.
  - unfold signal. destruct (requireHandle plugin i r) as [o|e]; [|done]. destruct (heap r !! o) as [h|]; [|done].
    destruct (exited h); [done|]. destruct (child h); [|done]. apply processes_update; [done|same].
  - unfold close. destruct (requireHandle plugin i r); [|done]. by apply close_inv.
  - by apply close_all_inv.
  - by apply close_all_inv.
Qed.

Lemma processes_run ops : Forall hex_random ops -> inv (run ops).
Proof.
  unfold run. generalize processes_new. generalize new_registry. induction ops as [|op ops IH]; intros r I F; cbn [fold_left]; [done|].
  apply Forall_cons in F as [F1 F2]. apply IH; [by apply step_inv|done].
Qed.

(** ** Closing the processes of a plugin *)

Local Notation find r plugin i := (find_handle pluginId (heap r) (handles r) plugin i).
Definition mine (plugin : string) (r : Registry) (i : string) : bool := match requireHandle plugin i r with Ok _ => true | Throw _ => false end.

Lemma mine_find plugin r i : mine plugin r i = match find r plugin i with Some _ => true | None => false end.
Proof. unfold mine, requireHandle. by destruct (find r plugin i). Qed.

Lemma find_spec r plugin i o : inv r -> find r plugin i = Some o <-> exists h, map_get i (handles r) = Some o /\ heap r !! o = Some h /\ id h = i /\ pluginId h = plugin.
Proof. intros I. by eapply find_handle_spec, i_table. Qed.

(** The other ids are found as before. *)
Lemma find_after r r1 plugin i o j :
  inv r -> map_get i (handles r) = Some o -> handles r1 = map_del i (handles r) -> (forall o', o' <> o -> heap r1 !! o' = heap r !! o') ->
  j <> i -> find r1 plugin j = find r plugin j.
Proof.
  intros I G Hm Hh Ne. unfold find_handle. rewrite Hm, map_get_del by apply (i_table r I). rewrite decide_False by done.
  destruct (map_get j (handles r)) as [o'|] eqn:Gj; [|done]. unfold HandleTables.owner. rewrite Hh; [done|]. intros ->.
  destruct (process_live r i o I G) as (h & Ho & Hi), (process_live r j o I Gj) as (h' & Ho' & Hi'). congruence.
Qed.

Lemma close_all_spec plugin ids r :
  inv r -> NoDup ids -> (forall i o h, i ∈ ids -> find r plugin i = Some o -> heap r !! o = Some h -> child h <> None) ->
  exists r' l, close_all (mine plugin) ids r = (r', Ok l) /\
    (forall o, o ∈ l <-> exists i, i ∈ ids /\ find r plugin i = Some o) /\
    (forall o, o ∈ l -> exists h', heap r' !! o = Some h' /\ stopped h') /\
    (forall o, o ∉ l -> heap r' !! o = heap r !! o) /\
    (forall i o, map_get i (handles r') = Some o <-> map_get i (handles r) = Some o /\ o ∉ l).
Proof.
  revert r. induction ids as [|i ids IH]; intros r I Nd Ch; cbn [close_all].
  { exists r, []. split_and!; try done; [intros o; split; [by intros ?%elem_of_nil|by intros (i & ?%elem_of_nil & _)]|by intros o ?%elem_of_nil|].
    intros i o. split; [split; [done|apply not_elem_of_nil]|by intros []]. }
  apply NoDup_cons in Nd as [Ni Nd]. rewrite mine_find. destruct (find r plugin i) as [o|] eqn:F.
  - destruct (proj1 (find_spec r plugin i o I) F) as (h & G & Ho & Hi & Hp).
    destruct (child h) as [c|] eqn:Hc; [|by destruct (Ch i o h ltac:(by left) F Ho)].
    destruct (close_spec i o h c r I G Ho Hc) as (E & Hm & Hh & h' & Ho' & St & _). pose proof (close_inv i r I) as I1.
    destruct (closeHandle i r) as [r1 res]. cbn [fst snd] in *. subst res.
    assert (Fj : forall j, j ∈ ids -> find r1 plugin j = find r plugin j).
    { intros j Hj. eapply find_after; [done..|]. by intros ->. }
    assert (No : forall j o', j ∈ ids -> find r plugin j = Some o' -> o' <> o).
    { intros j o' Hj Fo ->. destruct (proj1 (find_spec r plugin j o I) Fo) as (h2 & _ & Ho2 & Hi2 & _). congruence. }
    destruct (IH r1 I1 Nd) as (r' & l & El & L & Sl & Hl & Ml).
    { intros j o' h2 Hj. rewrite Fj by done. intros Fo. rewrite Hh by (by eapply No). apply (Ch j); [by right|done]. }
    rewrite El, G. exists r', (o :: l). assert (Nol : o ∉ l) by (intros (j & Hj & Fo)%L; rewrite Fj in Fo by done; by apply (No j o Hj Fo)).
    split_and!; [done| | | |].
    + intros o'. rewrite elem_of_cons, L. split.
      * intros [->|(j & Hj & Fo)]; [by exists i; split; [left|]|]. exists j. rewrite <- Fj by done. by split; [right|].
      * intros (j & [->|Hj]%elem_of_cons & Fo); [left; congruence|right; exists j; by rewrite Fj].
    + intros o' [->|Hin]%elem_of_cons; [exists h'; by rewrite Hl|by apply Sl].
    + intros o' [Ne Nl]%not_elem_of_cons. by rewrite Hl, Hh.
    + intros j o'. rewrite Ml, Hm, map_get_del, not_elem_of_cons by apply (i_table r I). case_decide as Ej.
      * subst j. split; [by intros []|]. intros (Gj & Ne & _). congruence.
      * split; [intros [Gj Nl]; split_and!; try done|by intros (? & _ & ?)]. intros ->.
        destruct (process_live r j o I Gj) as (h2 & Ho2 & Hi2). congruence.
  - destruct (IH r I Nd) as (r' & l & El & L & Rest); [intros j o h Hj; apply (Ch j); by right|]. exists r', l. split_and!; try apply Rest; [done|].
    intros o. rewrite L. split; intros (j & Hj & Fo); exists j; [by split; [right|]|].
    apply elem_of_cons in Hj as [->|Hj]; [congruence|done].
Qed.

(** When every open process of the plugin has its child, closing them ends with
    every one stopped, that is marked exited, its promise resolved and its child gone
    or killed, and what is left in the table is exactly what the other plugins have. *)
Theorem processes_revoked ops plugin :
  Forall hex_random ops ->
  let r := run ops in
  (forall i o h, map_get i (handles r) = Some o -> heap r !! o = Some h -> pluginId h = plugin -> child h <> None) ->
  exists r' l, closePlugin plugin r = (r', Ok l) /\
    (forall o, o ∈ l -> exists h, heap r' !! o = Some h /\ stopped h) /\
    (forall i o, map_get i (handles r) = Some o -> owner r o = Some plugin -> o ∈ l) /\
    (forall i o, map_get i (handles r') = Some o <-> map_get i (handles r) = Some o /\ owner r o <> Some plugin).
Proof.
  intros F r Ch. pose proof (processes_run ops F) as I. fold r in I.
  destruct (close_all_spec plugin (map_keys (handles r)) r I) as (r' & l & E & L & St & _ & M); [apply (i_table r I)| |].
  { intros i o h _ (h' & G & Ho & Hi & Hp)%find_spec; [|done]. intros Ho'. apply (Ch i o); [done|done|congruence]. }
  assert (L' : forall i o, map_get i (handles r) = Some o -> o ∈ l <-> owner r o = Some plugin).
  { intros i o G. rewrite L. unfold HandleTables.owner. split.
    - intros (j & _ & (h & _ & -> & _ & <-)%find_spec); [done|done].
    - destruct (process_live r i o I G) as (h & Ho & Hi). rewrite Ho. cbn. intros [= Hp]. exists i. split.
      + apply list_elem_of_fmap. exists (i, o). split; [done|by apply map_get_elem].
      + apply find_spec; [done|]. by exists h. }
  exists r', l. split_and!; [exact E|exact St|intros i o G; by apply (L' i o G)|].
  intros i o. rewrite M. split; intros [G N]; (split; [done|]); intros H; apply N; by apply (L' i o G).
Qed.

(** In every reachable state the count of a handle is that of its chunks and of
    what was drained before; a chunk that arrives leaves the longest end of its
    stream that is within the bounds, the loop ends, and the other stream stays;
    draining takes the oldest chunks, and does not give their bytes back. *)
Theorem output_counted ops o h s data limit :
  Forall hex_random ops -> heap (run ops) !! o = Some h ->
  exists d, counted d h /\
    (exists n h', push s data h = Some h' /\ counted d h' /\ chunks_of s h' = drop n (chunks_of s h ++ [data]) /\
       chunks_of (other s) h' = chunks_of (other s) h /\
       fits (d + bytes (chunks_of (other s) h)) (chunks_of s h') /\
       (forall m, (m < n)%nat -> ~ fits (d + bytes (chunks_of (other s) h)) (drop m (chunks_of s h ++ [data])))) /\
    (exists out err, fst (output limit h) = Chunks out err (exited h) (exitCode h) /\
       stdoutChunks h = out ++ stdoutChunks (snd (output limit h)) /\ stderrChunks h = err ++ stderrChunks (snd (output limit h)) /\
       counted (d + bytes out + bytes err) (snd (output limit h))).
Proof.
  intros F Ho. destruct (i_counted _ (processes_run ops F) o h Ho) as [d C]. exists d. split_and!; [done| |].
  - destruct (push_spec d h s data C) as (n & h' & E & C' & Hs & Ot & Min & _). exists n, h'. split_and!; try done.
    destruct C' as [_ Su Bo Ch]. split; [apply Ch|]. rewrite <- Ot. destruct s; cbn [chunks_of other] in *; lia.
  - destruct (output_spec d h limit C) as (out & err & E & C' & So & Se & _). by exists out, err.
Qed.

(** The bytes that were drained stay in the count: once they and a new chunk
    exceed the bound, the chunk is dropped with the rest of its stream, for ever. *)
Theorem drained_output_starves d h s data :
  counted d h -> PROCESS_MAX_BUFFER_BYTES < d + byteLength data ->
  exists h', push s data h = Some h' /\ chunks_of s h' = [] /\ counted d h'.
Proof.
  intros C Over. destruct (push_spec d h s data C) as (n & h' & E & C' & Hs & _). exists h'. split_and!; try done.
  destruct (chunks_of s h') as [|x l] eqn:El; [done|]. exfalso. clear E.
  assert (Hin : exists k, drop n (chunks_of s h ++ [data]) = k ++ [data]).
  { destruct (decide (n <= length (chunks_of s h))%nat) as [Hn|Hn].
    - exists (drop n (chunks_of s h)). by rewrite drop_app_le.
    - rewrite drop_ge in Hs; [done|]. rewrite length_app. cbn. lia. }
  destruct Hin as [k Hk]. rewrite Hk in Hs. destruct C' as [_ Su Bo _].
  pose proof (bytes_nonneg k). pose proof (bytes_nonneg (stdoutChunks h')). pose proof (bytes_nonneg (stderrChunks h')).
  assert (Eb : bytes (x :: l) = bytes k + byteLength data) by (rewrite Hs, bytes_app, bytes_cons; change (bytes []) with 0; lia).
  destruct s; cbn [chunks_of] in El; rewrite El in Su; lia.
Qed.

(** *** Witnesses and examples *)

Definition one_process : list Op := [Spawn "p" "a1" false; Spawned 0 0; Data 0 Stdout "out"]%string.

Lemma one_process_hex : Forall hex_random one_process.
Proof. apply (bool_decide_unpack _). vm_compute. exact I. Qed.

Lemma processes_revoked_witness :
  exists r' l, closePlugin "p" (run one_process) = (r', Ok l) /\ 0%nat ∈ l /\ (exists h, heap r' !! 0%nat = Some h /\ stopped h).
Proof.
  destruct (processes_revoked one_process "p" one_process_hex) as (r' & l & E & St & Mine & _).
  - intros i o h G Ho _. destruct o as [|o]; [|done]. vm_compute in Ho. injection Ho as <-. done.
  - assert (Hl : 0%nat ∈ l) by (apply (Mine "proc-p-1-a1"%string); reflexivity). exists r', l. split; [exact E|]. split; [exact Hl|by apply St].
Defined.

Lemma output_counted_witness :
  exists h d, heap (run one_process) !! 0%nat = Some h /\ counted d h /\ stdoutChunks h = ["out"]%string.
Proof.
  destruct (heap (run one_process) !! 0%nat) as [h|] eqn:Ho; [|discriminate Ho].
  destruct (output_counted one_process 0 h Stdout "x" 1 one_process_hex Ho) as (d & C & _). exists h, d. split; [reflexivity|]. split; [exact C|].
  vm_compute in Ho. injection Ho as <-. reflexivity.
Defined.

Lemma drained_output_starves_witness :
  exists h', push Stdout "x" (MkHandle "i" "p" None [] [] PROCESS_MAX_BUFFER_BYTES false None [] false false) = Some h' /\ stdoutChunks h' = [].
Proof.
  destruct (drained_output_starves PROCESS_MAX_BUFFER_BYTES (MkHandle "i" "p" None [] [] PROCESS_MAX_BUFFER_BYTES false None [] false false) Stdout "x") as (h' & E & Em & _).
  - split; [vm_compute; discriminate|reflexivity|vm_compute; discriminate|]. intros []; apply Nat.leb_le; reflexivity.
  - reflexivity.
  - by exists h'.
Defined.

(** A spawn that throws leaves a handle without a child: revoking the plugin throws at
    it, and the processes behind it run on. *)
Example revoke_stops_at_broken :
  let r := run [Spawn "p" "a1" true; Spawn "p" "b2" false]%string in
  snd (closePlugin "p" r) = Throw TypeError /\ map_keys (handles (fst (closePlugin "p" r))) = ["proc-p-2-b2"]%string /\
  (fun h => killed <$> child h) <$> heap (fst (closePlugin "p" r)) !! 1%nat = Some (Some []).
Proof. vm_compute. done. Qed.

(** A call for output waits although output is there. *)
Example output_waits_for_more :
  map phase (calls (run (one_process ++ [Start "p" "proc-p-1-a1" (Output 10)]%string))) = [Waiting].
Proof. vm_compute. done. Qed.

(** A process that has exited counts as live until it is closed. *)
Example exited_count :
  let r := run (concat (map (fun o => [Spawn "p" "a1" false; Exit o (Some 0)]%string) (seq 0 16))) in
  snd (allocate "p" "b2" r) = Throw SERVICE_UNAVAILABLE /\ forallb exited (heap r) = true.
Proof. vm_compute. done. Qed.

(** The exit wakes one of the calls that wait. *)
Example exit_wakes_one :
  map phase (calls (run (one_process ++ [Start "p" "proc-p-1-a1" Wait; Start "p" "proc-p-1-a1" Wait; Exit 0 (Some 0)]%string))) = [Awake; Waiting].
Proof. vm_compute. done. Qed.

End ProcessHandles.
