(* ===== verification/Gestures.v ===== *)
(** * Gestures on rows
    (packages/gestures/src/index.ts, [createRowGestures])

    The controller turns the pointer events of a list row into drags and menus.  One
    event or one timer is one step; the listeners on the document, with the variables
    they close over, are part of the state.  The callbacks of the consumer are the
    output; they come back to the controller only after the step, through
    [setDraggedIndex] or [destroy].  The row under a pointer is found by the browser
    and comes with the event. *)

From Stdlib Require Import ZArith Lia Bool String List.
From stdpp Require Import base decidable list strings.
From S2P Require Import Prelude.
Local Open Scope Z_scope.

Module Gestures.

(** ** Options and state *)

(** [longPressMs]: absent, [null], or a delay. *)
Record RowGestureOptions := MkOptions {
  mouseDragThresholdPx : option Z;
  touchDragThresholdPx : option Z;
  longPressMs : option (option Z);
  canDrag : string -> bool
}.

Definition DEFAULT_MOUSE_DRAG_THRESHOLD_PX : Z := 4.
Definition DEFAULT_TOUCH_DRAG_THRESHOLD_PX : Z := 10.
Definition DEFAULT_LONG_PRESS_MS : Z := 700.

Record ActiveSession := MkSession { itemId : string; index : Z; moved : bool }.

Record MousePress := MkMouse { mItem : string; mIndex : Z; mX : Z; mY : Z; mActive : bool }.
Record TouchPress := MkTouch {
  tItem : string;
  tIndex : Z;
  tX : Z;
  tY : Z;
  touchId : Z;
  draggable : bool;
  tActive : bool;
  longPressOpened : bool
}.
Inductive Listeners := OnMouse (p : MousePress) | OnTouch (p : TouchPress).

Inductive Callback :=
| DragStart (item : string) (i : Z)
| DragMove (item : string) (toIndex x y : Z)
| DragEnd (item : string) (committed : bool)
| OpenMenu (item : string) (x y : Z)
| PreventDefault.

(** [resets]: the timers of zero that will clear [suppressClick]. *)
Record State := MkState {
  session : option ActiveSession;
  suppressClick : bool;
  listeners : option Listeners;
  longPressTimer : option (string * Z * Z);
  resets : nat;
  out : list Callback
}.

Definition initial : State := MkState None false None None 0 [].

Definition emit (c : Callback) (s : State) : State :=
  MkState (session s) (suppressClick s) (listeners s) (longPressTimer s) (resets s) (out s ++ [c]).
Definition set_session (x : option ActiveSession) (s : State) : State :=
  MkState x (suppressClick s) (listeners s) (longPressTimer s) (resets s) (out s).
Definition set_suppress (b : bool) (s : State) : State :=
  MkState (session s) b (listeners s) (longPressTimer s) (resets s) (out s).
Definition set_listeners (l : option Listeners) (s : State) : State :=
  MkState (session s) (suppressClick s) l (longPressTimer s) (resets s) (out s).
Definition set_timer (t : option (string * Z * Z)) (s : State) : State :=
  MkState (session s) (suppressClick s) (listeners s) t (resets s) (out s).
Definition reset_later (s : State) : State :=
  MkState (session s) (suppressClick s) (listeners s) (longPressTimer s) (S (resets s)) (out s).

Section Controller.
Context (options : RowGestureOptions).

Definition mouseThreshold : Z := default DEFAULT_MOUSE_DRAG_THRESHOLD_PX (mouseDragThresholdPx options).
Definition touchThreshold : Z := default DEFAULT_TOUCH_DRAG_THRESHOLD_PX (touchDragThresholdPx options).
Definition longPressDelay : option Z := match longPressMs options with Some v => v | None => Some DEFAULT_LONG_PRESS_MS end.
Definition longPressEnabled : bool := match longPressDelay with Some ms => 0 <? ms | None => false end.

(** [Math.hypot(dx, dy) < threshold], on whole numbers. *)
Definition within (threshold dx dy : Z) : bool := (0 <? threshold) && (dx * dx + dy * dy <? threshold * threshold).

(** ** Sessions *)

Definition beginDragging (item : string) (i : Z) (s : State) : State :=
  emit (DragStart item i) (set_session (Some (MkSession item i false)) s).

Definition stopCurrentDrag (s : State) : State := set_timer None (set_listeners None s).

Definition finishDragging (s : State) : State :=
  match session s with
  | None => set_listeners None s
  | Some finished =>
      emit (DragEnd (itemId finished) (moved finished)) (reset_later (set_suppress true (set_session None (set_listeners None s))))
  end.

(** [row]: the index of the row under the pointer, if there is one. *)
Definition previewAt (x y : Z) (row : option Z) (s : State) : State :=
  match session s, row with
  | Some current, Some toIndex =>
      emit (DragMove (itemId current) toIndex x y) (set_session (Some (MkSession (itemId current) (index current) true)) s)
  | _, _ => s
  end.

(** ** Mouse *)

Definition startMouseDragging (button x y : Z) (item : string) (i : Z) (s : State) : State :=
  if negb (button =? 0) || negb (canDrag options item) then s
  else
    let s := stopCurrentDrag s in
    let active := mouseThreshold =? 0 in
    let s := if active then beginDragging item i (emit PreventDefault s) else s in
    set_listeners (Some (OnMouse (MkMouse item i x y active))) s.

Definition onMouseMove (x y : Z) (row : option Z) (p : MousePress) (s : State) : State :=
  if negb (mActive p) && within mouseThreshold (x - mX p) (y - mY p) then s
  else
    let s :=
      if mActive p then s
      else beginDragging (mItem p) (mIndex p) (set_listeners (Some (OnMouse (MkMouse (mItem p) (mIndex p) (mX p) (mY p) true))) s) in
    previewAt x y row (emit PreventDefault s).

Definition onMouseUp (p : MousePress) (s : State) : State :=
  if mActive p then finishDragging s else set_listeners None s.

(** ** Touch *)

(** [touch]: the first changed touch, with its identifier. *)
Definition startTouchDragging (touch : option (Z * Z * Z)) (item : string) (i : Z) (s : State) : State :=
  match touch with
  | None => s
  | Some (x, y, identifier) =>
      let s := stopCurrentDrag s in
      let drag := canDrag options item in
      let active := (touchThreshold =? 0) && drag in
      let s :=
        if active then beginDragging item i (emit PreventDefault s)
        else if (0 <? touchThreshold) && longPressEnabled then set_timer (Some (item, x, y)) s
        else s in
      set_listeners (Some (OnTouch (MkTouch item i x y identifier drag active false))) s
  end.

(** The timer of a long press; the press it belongs to is still listened to. *)
Definition onLongPress (s : State) : State :=
  match longPressTimer s with
  | None => s
  | Some (item, x, y) =>
      let s := set_timer None s in
      let s :=
        match listeners s with
        | Some (OnTouch p) =>
            set_listeners (Some (OnTouch (MkTouch (tItem p) (tIndex p) (tX p) (tY p) (touchId p) (draggable p) (tActive p) true))) s
        | _ => s
        end in
      emit (OpenMenu item x y) (set_suppress true s)
  end.

Definition find_touch (identifier : Z) (touches : list (Z * Z * Z)) : option (Z * Z * Z) :=
  List.find (fun t => snd t =? identifier) touches.

Definition onTouchMove (touches : list (Z * Z * Z)) (row : option Z) (p : TouchPress) (s : State) : State :=
  if longPressOpened p then s
  else
    match find_touch (touchId p) touches with
    | None => s
    | Some (x, y, _) =>
        if tActive p then previewAt x y row (emit PreventDefault s)
        else if within touchThreshold (x - tX p) (y - tY p) then s
        else
          let s := set_timer None s in
          if draggable p then
            let s := set_listeners (Some (OnTouch (MkTouch (tItem p) (tIndex p) (tX p) (tY p) (touchId p) true true false))) s in
            previewAt x y row (emit PreventDefault (beginDragging (tItem p) (tIndex p) s))
          else s
    end.

(** [touchend] and [touchcancel]. *)
Definition onTouchEnd (changed : list Z) (p : TouchPress) (s : State) : State :=
  if negb (existsb (Z.eqb (touchId p)) changed) then s
  else if tActive p then finishDragging s
  else let s := stopCurrentDrag s in if longPressOpened p then reset_later s else s.

(** ** The controller *)

Definition onContextMenu (x y : Z) (item : string) (s : State) : State := emit (OpenMenu item x y) (emit PreventDefault s).

Definition consumeClick (s : State) : State * bool := (set_suppress false s, suppressClick s).
Definition getDraggedIndex (s : State) : option Z := index <$> session s.
Definition setDraggedIndex (i : option Z) (s : State) : State :=
  match session s, i with
  | Some c, Some i => set_session (Some (MkSession (itemId c) i (moved c))) s
  | _, _ => s
  end.
Definition isDragging (s : State) : bool := match session s with Some _ => true | None => false end.
Definition destroy (s : State) : State := set_suppress false (set_session None (stopCurrentDrag s)).

Inductive Op :=
| MouseDown (button x y : Z) (item : string) (i : Z)
| TouchStart (touch : option (Z * Z * Z)) (item : string) (i : Z)
| ContextMenu (x y : Z) (item : string)
| NativeDrag
| MouseMove (x y : Z) (row : option Z)
| MouseUp
| TouchMove (touches : list (Z * Z * Z)) (row : option Z)
| TouchEnd (changed : list Z)
| LongPress
| ResetClick
| ConsumeClick
| SetDraggedIndex (i : option Z)
| Destroy.

Definition step (s : State) (op : Op) : State :=
  match op with
  | MouseDown b x y item i => startMouseDragging b x y item i s
  | TouchStart t item i => startTouchDragging t item i s
  | ContextMenu x y item => onContextMenu x y item s
  | NativeDrag => emit PreventDefault s
  | MouseMove x y row => match listeners s with Some (OnMouse p) => onMouseMove x y row p s | _ => s end
  | MouseUp => match listeners s with Some (OnMouse p) => onMouseUp p s | _ => s end
  | TouchMove ts row => match listeners s with Some (OnTouch p) => onTouchMove ts row p s | _ => s end
  | TouchEnd ch => match listeners s with Some (OnTouch p) => onTouchEnd ch p s | _ => s end
  | LongPress => onLongPress s
  | ResetClick =>
      match resets s with
      | S n => MkState (session s) false (listeners s) (longPressTimer s) n (out s)
      | O => s
      end
  | ConsumeClick => fst (consumeClick s)
  | SetDraggedIndex i => setDraggedIndex i s
  | Destroy => destroy s
  end.

Definition run (ops : list Op) : State := fold_left step ops initial.

End Controller.


(** ** What a step adds to the output *)

Definition drag_of (c : Callback) : option string :=
  match c with DragStart item _ | DragMove item _ _ _ | DragEnd item _ => Some item | _ => None end.

(** The press that may become a drag, and whether it has. *)
Definition armed (s : State) : option (string * bool) :=
  match listeners s with
  | Some (OnMouse p) => Some (mItem p, mActive p)
  | Some (OnTouch p) => Some (tItem p, tActive p)
  | None => None
  end.

Section Proofs.
Context (options : RowGestureOptions).
Local Notation step := (step options).
Local Notation run := (run options).

Record inv (s : State) : Prop := {
  g_mouse : forall p, listeners s = Some (OnMouse p) -> canDrag options (mItem p) = true;
  g_touch : forall p, listeners s = Some (OnTouch p) ->
    draggable p = canDrag options (tItem p) /\ (tActive p = true -> draggable p = true /\ longPressTimer s = None) /\
    (longPressOpened p = true -> tActive p = false /\ longPressTimer s = None);
  g_timer : forall item x y, longPressTimer s = Some (item, x, y) ->
    exists p, listeners s = Some (OnTouch p) /\ item = tItem p /\ x = tX p /\ y = tY p;
  g_session : forall c, session s = Some c -> canDrag options (itemId c) = true;
  g_out : forall c item, c ∈ out s -> drag_of c = Some item -> canDrag options item = true
}.

Lemma out_snoc l c : (forall a item, a ∈ l -> drag_of a = Some item -> canDrag options item = true) ->
  (forall item, drag_of c = Some item -> canDrag options item = true) ->
  forall a item, a ∈ l ++ [c] -> drag_of a = Some item -> canDrag options item = true.
Proof. intros H1 H2 a item [Ha|Ha]%elem_of_app; [by apply H1|]. apply list_elem_of_singleton in Ha as ->. apply H2. Qed.

Ltac fields := cbn [emit set_session set_suppress set_listeners set_timer reset_later session suppressClick listeners longPressTimer resets out].

(** Every part of a step keeps what it does not touch. *)
Lemma inv_emit c s : inv s -> (forall item, drag_of c = Some item -> canDrag options item = true) -> inv (emit c s).
Proof. intros [A B C D E] H. split; try done. by apply out_snoc. Qed.

Lemma inv_session x s : inv s -> (forall c, x = Some c -> canDrag options (itemId c) = true) -> inv (set_session x s).
Proof. intros [A B C D E] H. by split. Qed.

Lemma inv_begin item i s : inv s -> canDrag options item = true -> inv (beginDragging item i s).
Proof. intros I H. apply inv_emit; [apply inv_session; [done|by intros c [= <-]]|]. by intros j [= <-]. Qed.

Lemma inv_stop s : inv s -> inv (stopCurrentDrag s).
Proof. intros [A B C D E]. by split. Qed.

(** Without a pending timer the listeners may be dropped. *)
Lemma inv_unlisten s : inv s -> longPressTimer s = None -> inv (set_listeners None s).
Proof. intros [A B C D E] H. split; try done. intros item x y Ht. cbn in Ht. congruence. Qed.

Lemma inv_finish s : inv s -> longPressTimer s = None -> inv (finishDragging s).
Proof.
  intros I H. pose proof (inv_unlisten s I H) as J. unfold finishDragging. destruct (session s) as [c|] eqn:Es; [|done].
  pose proof (g_session s I c Es) as Hc. destruct J as [A B C D E].
  split; try done. apply out_snoc; [done|]. by intros item [= <-].
Qed.

Lemma inv_preview x y row s : inv s -> inv (previewAt x y row s).
Proof.
  intros I. unfold previewAt. destruct (session s) as [c|] eqn:Es; [|done]. destruct row as [j|]; [|done].
  pose proof (g_session s I c Es) as Hc. apply inv_emit; [apply inv_session; [done|by intros c' [= <-]]|]. by intros item [= <-].
Qed.

Lemma inv_mouse_listen p s : inv s -> longPressTimer s = None -> canDrag options (mItem p) = true -> inv (set_listeners (Some (OnMouse p)) s).
Proof.
  intros [A B C D E] H Hp. split; try done; fields; [by intros q [= <-]|]. intros item x y Ht. congruence.
Qed.

Lemma inv_touch_listen p s :
  inv s -> draggable p = canDrag options (tItem p) -> (tActive p = true -> draggable p = true) -> (longPressOpened p = true -> tActive p = false) ->
  longPressTimer s = None -> inv (set_listeners (Some (OnTouch p)) s).
Proof.
  intros [A B C D E] H1 H2 H3 Ht. split; try done; fields.
  - intros q [= <-]. split_and!; [done|by intros ?%H2|by intros ?%H3].
  - intros item x y T. congruence.
Qed.

(** A mouse press leaves no timer behind. *)
Lemma mouse_no_timer s p : inv s -> listeners s = Some (OnMouse p) -> longPressTimer s = None.
Proof.
  intros I L. destruct (longPressTimer s) as [[[item x] y]|] eqn:T; [|done]. destruct (g_timer s I _ _ _ T) as (q & Lq & _). congruence.
Qed.

Lemma inv_step op s : inv s -> inv (step s op).
Proof.
  intros I. destruct op as [b x y item i|touch item i|x y item| |x y row| |ts row|ch| | | |i|]; cbn [Gestures.step].
  - unfold startMouseDragging. destruct (_ || _) eqn:E; [done|]. apply orb_false_iff in E as [_ E]. apply negb_false_iff in E.
    pose proof (inv_stop s I) as J. cbv zeta. destruct (mouseThreshold options =? 0); apply inv_mouse_listen; try done.
    by apply inv_begin; [apply inv_emit|].
  - destruct touch as [[[x y] k]|]; [|done]. cbn [startTouchDragging]. pose proof (inv_stop s I) as J.
    cbv zeta. destruct (_ && canDrag options item) eqn:Ea.
    + apply andb_true_iff in Ea as [_ Ed]. assert (K : inv (beginDragging item i (emit PreventDefault (stopCurrentDrag s)))) by (by apply inv_begin; [apply inv_emit|]).
      by apply inv_touch_listen.
    + destruct J as [A B C D E]. destruct ((0 <? touchThreshold options) && longPressEnabled options); split; try done; fields; try (intros p [= <-]; split_and!; done).
      intros item' x' y' [= <- <- <-]. by eexists.
  - by apply inv_emit; [apply inv_emit|].
  - by apply inv_emit.
  - destruct (listeners s) as [[p|p]|] eqn:L; [|done..]. unfold onMouseMove. destruct (_ && _); [done|].
    pose proof (g_mouse s I p L) as Hp. pose proof (mouse_no_timer s p I L) as Ht. apply inv_preview. apply inv_emit; [|done].
    destruct (mActive p); [done|]. apply inv_begin; [by apply inv_mouse_listen|done].
  - destruct (listeners s) as [[p|p]|] eqn:L; [|done..]. pose proof (mouse_no_timer s p I L) as Ht. unfold onMouseUp.
    destruct (mActive p); [by apply inv_finish|by apply inv_unlisten].
  - destruct (listeners s) as [[p|p]|] eqn:L; [done| |done]. destruct (g_touch s I p L) as (Hd & Ha & Ho). unfold onTouchMove.
    destruct (longPressOpened p); [done|]. destruct (find_touch _ _) as [[[x y] k]|]; [|done].
    destruct (tActive p); [by apply inv_preview; apply inv_emit|]. destruct (within _ _ _); [done|].
    assert (J : inv (set_timer None s)).
    { destruct I as [A B C D E]. split; try done; fields. intros q Lq. destruct (B q Lq) as (H1 & H2 & H3). split_and!; [done|by intros [? _]%H2|by intros [? _]%H3]. }
    destruct (draggable p) eqn:Ed; [|done]. apply inv_preview. apply inv_emit; [|done]. apply inv_begin; [|congruence]. destruct J as [A B C D E].
    split; try done. fields. intros q [= <-]. done.
  - destruct (listeners s) as [[p|p]|] eqn:L; [done| |done]. destruct (g_touch s I p L) as (Hd & Ha & Ho). unfold onTouchEnd.
    destruct (negb _); [done|]. destruct (tActive p); [by apply inv_finish, Ha|]. pose proof (inv_stop s I) as [A B C D E]. by destruct (longPressOpened p).
  - unfold onLongPress. destruct (longPressTimer s) as [[[item x] y]|] eqn:T; [|done]. destruct (g_timer s I _ _ _ T) as (p & L & _).
    fields. rewrite L. apply inv_emit; [|done]. destruct (g_touch s I p L) as (Hd & Ha & Ho).
    destruct I as [A B C D E]. split; try done. fields. intros q [= <-]. split_and!; try done.
    + intros H. apply Ha in H as [_ H]. congruence.
    + cbn. intros _. split; [|done]. destruct (tActive p); [|done]. destruct (Ha eq_refl) as [_ H]. congruence.
  - destruct (resets s); [done|]. by destruct I as [A B C D E].
  - by destruct I as [A B C D E].
  - unfold setDraggedIndex. destruct (session s) as [c|] eqn:Es; [|done]. destruct i as [j|]; [|done].
    pose proof (g_session s I c Es). apply inv_session; [done|]. by intros c' [= <-].
  - by destruct (inv_stop s I) as [A B C D E].
Qed.

Lemma inv_run ops : inv (run ops).
Proof.
  unfold Gestures.run. assert (I : inv initial) by (split; try done; by intros c item ?%elem_of_nil). revert I. generalize initial.
  induction ops as [|op ops IH]; intros s I; cbn [fold_left]; [done|]. by apply IH, inv_step.
Qed.

(** ** After a menu, and after a lost press *)

Definition is_press (op : Op) : bool := match op with MouseDown _ _ _ _ _ | TouchStart _ _ _ => true | _ => false end.
Definition drags (l : list Callback) : list Callback := List.filter (fun c => match drag_of c with Some _ => true | None => false end) l.

(** Nobody listens, or only a press that has opened its menu. *)
Definition quiet (s : State) : Prop :=
  longPressTimer s = None /\ match listeners s with None => True | Some (OnMouse _) => False | Some (OnTouch p) => longPressOpened p = true /\ tActive p = false end.

Lemma drags_emit c s : drag_of c = None -> drags (out (emit c s)) = drags (out s).
Proof. intros H. unfold drags. cbn [emit out]. rewrite List.filter_app. cbn. by rewrite H, app_nil_r. Qed.

Lemma quiet_step op s :
  quiet s -> is_press op = false ->
  quiet (step s op) /\ drags (out (step s op)) = drags (out s) /\ (op <> Destroy -> itemId <$> session (step s op) = itemId <$> session s).
Proof.
  intros Q Hp. pose proof Q as [Ht Hl]. destruct op as [b x y item i|touch item i|x y item| |x y row| |ts row|ch| | | |i|]; try done; cbn [Gestures.step].
  - split_and!; [done| |done]. unfold onContextMenu. by rewrite !drags_emit.
  - split_and!; [done| |done]. by rewrite drags_emit.
  - by destruct (listeners s) as [[p|p]|].
  - by destruct (listeners s) as [[p|p]|].
  - destruct (listeners s) as [[p|p]|]; [done| |done]. destruct Hl as [Ho Ha]. unfold onTouchMove. by rewrite Ho.
  - destruct (listeners s) as [[p|p]|]; [done| |done]. destruct Hl as [Ho Ha]. unfold onTouchEnd. rewrite Ha, Ho. by destruct (negb _).
  - unfold onLongPress. by rewrite Ht.
  - by destruct (resets s).
  - unfold setDraggedIndex. destruct (session s) as [c|] eqn:Es; [|by rewrite Es]. destruct i; [done|]. by rewrite Es.
Qed.

Lemma quiet_steps ops s :
  quiet s -> Forall (fun op => is_press op = false) ops ->
  quiet (fold_left step ops s) /\ drags (out (fold_left step ops s)) = drags (out s) /\
  (Destroy ∉ ops -> itemId <$> session (fold_left step ops s) = itemId <$> session s).
Proof.
  revert s. induction ops as [|op ops IH]; intros s Q F; cbn [fold_left]; [done|]. apply Forall_cons in F as [F1 F2].
  destruct (quiet_step op s Q F1) as (Q1 & D1 & S1). destruct (IH _ Q1 F2) as (Q2 & D2 & S2). split_and!; [done|congruence|].
  intros [N1 N2]%not_elem_of_cons. rewrite S2, S1 by done. done.
Qed.

(** Whatever the pointers do, only rows that may be dragged are dragged; a press
    that has opened its menu is no drag any more, so that until the next press
    nothing of a drag comes out; and a press that is a drag opens no menu. *)
Theorem menu_or_drag ops later :
  let s := run ops in
  (forall c item, c ∈ out s -> drag_of c = Some item -> canDrag options item = true) /\
  (forall p, listeners s = Some (OnTouch p) -> longPressOpened p = true ->
     Forall (fun op => is_press op = false) later -> drags (out (fold_left step later s)) = drags (out s)) /\
  (forall item, armed s = Some (item, true) -> onLongPress s = s).
Proof.
  intros s. pose proof (inv_run ops) as I. fold s in I. split_and!; [apply I| |].
  - intros p L H F. destruct (g_touch s I p L) as (_ & _ & Ho). destruct (Ho H) as [Ha Ht].
    apply quiet_steps; [|done]. split; [done|]. by rewrite L.
  - intros item H. unfold armed in H. unfold onLongPress. destruct (listeners s) as [[p|p]|] eqn:L; [| |done].
    + by rewrite (mouse_no_timer s p I L).
    + injection H as _ H. apply (g_touch s I p L) in H as [_ ->]. done.
Qed.

(** When a second finger touches a row and lifts while a drag is active, the drag is
    never ended: without a new press or a destroy the row stays dragged, and no
    callback of a drag comes out any more. *)
Theorem second_finger_strands ops c x y k item i later :
  let s := run ops in
  session s = Some c -> 0 < touchThreshold options -> Forall (fun op => is_press op = false) later -> Destroy ∉ later ->
  let s' := fold_left step ([TouchStart (Some (x, y, k)) item i; TouchEnd [k]] ++ later) s in
  isDragging s' = true /\ drags (out s') = drags (out s).
Proof.
  intros s Es Ht F Nd s'. set (s2 := fold_left step [TouchStart (Some (x, y, k)) item i; TouchEnd [k]] s).
  assert (H2 : quiet s2 /\ session s2 = Some c /\ out s2 = out s).
  { unfold s2. cbn. unfold onTouchEnd. replace (touchThreshold options =? 0) with false by (symmetry; apply Z.eqb_neq; lia).
    cbn. rewrite Z.eqb_refl. cbn.
    destruct ((0 <? touchThreshold options) && longPressEnabled options); (split; [split; done|split; [exact Es|done]]). }
  destruct H2 as (Q & Es2 & Eo). unfold s'. rewrite fold_left_app. fold s2. destruct (quiet_steps later s2 Q F) as (_ & D & S).
  split; [|by rewrite D, Eo]. specialize (S Nd). rewrite Es2 in S. unfold isDragging. by destruct (session (fold_left step later s2)).
Qed.

(** ** Drags as the consumer sees them *)

(** The consumer's view: the row that is dragged, and whether it has moved. *)
Definition mon (c : Callback) (m : option (string * bool)) : option (option (string * bool)) :=
  match c, m with
  | DragStart item _, None => Some (Some (item, false))
  | DragMove item _ _ _, Some (item', _) => if bool_decide (item = item') then Some (Some (item, true)) else None
  | DragEnd item committed, Some (item', mv) => if bool_decide (item = item') && Bool.eqb committed mv then Some None else None
  | OpenMenu _ _ _, _ | PreventDefault, _ => Some m
  | _, _ => None
  end.
Definition watch (l : list Callback) : option (option (string * bool)) := fold_left (fun m c => m ≫= mon c) l (Some None).

Definition view (s : State) : option (string * bool) := (fun c => (itemId c, moved c)) <$> session s.

(** One pointer at a time: no press and no destroy while a row is dragged. *)
Fixpoint one_at_a_time (ops : list Op) (s : State) : bool :=
  match ops with
  | [] => true
  | op :: ops =>
      (match op with MouseDown _ _ _ _ _ | TouchStart _ _ _ | Destroy => negb (isDragging s) | _ => true end) && one_at_a_time ops (step s op)
  end.

Record paired (s : State) : Prop := {
  d_watch : watch (out s) = Some (view s);
  d_armed : match session s with Some c => armed s = Some (itemId c, true) | None => forall item, armed s <> Some (item, true) end
}.

Lemma watch_snoc l c : watch (l ++ [c]) = watch l ≫= mon c.
Proof. unfold watch. by rewrite fold_left_app. Qed.

Lemma watch_emit c s : watch (out s) = Some (view s) -> drag_of c = None -> watch (out (emit c s)) = Some (view s).
Proof. intros W H. cbn [emit out]. rewrite watch_snoc, W. by destruct c. Qed.

Lemma paired_emit c s : paired s -> drag_of c = None -> paired (emit c s).
Proof. intros [W A] H. split; [exact (watch_emit c s W H)|exact A]. Qed.

Lemma watch_begin item i s : watch (out s) = Some (view s) -> session s = None -> watch (out (beginDragging item i s)) = Some (Some (item, false)).
Proof. intros W N. unfold beginDragging. cbn [emit set_session out]. rewrite watch_snoc, W. unfold view. by rewrite N. Qed.

Lemma paired_preview x y row s : paired s -> paired (previewAt x y row s).
Proof.
  intros [W A]. unfold previewAt. destruct (session s) as [c|] eqn:Es; [|split; [done|by rewrite Es]].
  destruct row as [j|]; [|split; [done|by rewrite Es]]. split; [|exact A]. cbn [emit set_session out]. rewrite watch_snoc, W. unfold view. rewrite Es. cbn.
  by rewrite bool_decide_true.
Qed.

Lemma paired_finish s : paired s -> paired (finishDragging s).
Proof.
  intros [W A]. unfold finishDragging. destruct (session s) as [c|] eqn:Es; [|split; [done|by cbn; rewrite Es]].
  split; [|done].
  cbn [emit reset_later set_suppress set_session set_listeners out]. rewrite watch_snoc, W. unfold view. rewrite Es. cbn.
  by rewrite bool_decide_true, eqb_reflx.
Qed.

(** A press that was not active becomes a drag. *)
Lemma paired_begin item i s s' :
  watch (out s') = Some (view s') -> session s' = None -> s = beginDragging item i s' -> armed s' = Some (item, true) -> paired s.
Proof. intros W N -> Ar. split; [by rewrite (watch_begin item i s')|]. exact Ar. Qed.

Lemma idle_press s : paired s -> isDragging s = false -> session s = None.
Proof. intros _. unfold isDragging. by destruct (session s). Qed.

Lemma not_active s item : paired s -> armed s = Some (item, false) -> session s = None.
Proof. intros [_ A] Ar. destruct (session s); [congruence|done]. Qed.

Lemma active_session s item : paired s -> armed s = Some (item, true) -> exists c, session s = Some c /\ itemId c = item.
Proof. intros [_ A] Ar. destruct (session s) as [c|]; [exists c; split; [done|congruence]|by destruct (A item)]. Qed.

Lemma paired_step op s :
  paired s -> match op with MouseDown _ _ _ _ _ | TouchStart _ _ _ | Destroy => isDragging s = false | _ => True end -> paired (step s op).
Proof.
  intros P Ok. pose proof P as [W A]. destruct op as [b x y item i|touch item i|x y item| |x y row| |ts row|ch| | | |i|]; cbn [Gestures.step].
  - pose proof (idle_press s P Ok) as N. unfold startMouseDragging. destruct (_ || _); [done|]. cbv zeta. destruct (mouseThreshold options =? 0).
    + split; [|done]. cbn [set_listeners beginDragging out]. apply (watch_begin item i (emit PreventDefault (stopCurrentDrag s))); [|done].
      by apply (watch_emit PreventDefault (stopCurrentDrag s)).
    + split; [exact W|]. cbn. rewrite N. intros it [= _ ?].
  - destruct touch as [[[x y] k]|]; [|done]. pose proof (idle_press s P Ok) as N. cbn [startTouchDragging]. cbv zeta.
    destruct (_ && canDrag options item) eqn:Ea.
    + split; [|done]. apply (watch_begin item i (emit PreventDefault (stopCurrentDrag s))); [|done].
      by apply (watch_emit PreventDefault (stopCurrentDrag s)).
    + destruct ((0 <? touchThreshold options) && longPressEnabled options); (split; [exact W|]; cbn; rewrite N; by intros it [= _ ?]).
  - by apply paired_emit; [apply paired_emit|].
  - by apply paired_emit.
  - destruct (listeners s) as [[p|p]|] eqn:L; [|done..]. unfold onMouseMove. destruct (_ && _); [done|]. apply paired_preview, paired_emit; [|done].
    destruct (mActive p) eqn:Ep; [done|]. assert (N : session s = None) by (apply (not_active s (mItem p)); [done|unfold armed; by rewrite L, Ep]).
    by eapply paired_begin with (s' := set_listeners (Some (OnMouse (MkMouse (mItem p) (mIndex p) (mX p) (mY p) true))) s).
  - destruct (listeners s) as [[p|p]|] eqn:L; [|done..]. unfold onMouseUp. destruct (mActive p) eqn:Ep; [by apply paired_finish|].
    assert (N : session s = None) by (apply (not_active s (mItem p)); [done|unfold armed; by rewrite L, Ep]). split; [exact W|]. cbn. by rewrite N.
  - destruct (listeners s) as [[p|p]|] eqn:L; [done| |done]. unfold onTouchMove. destruct (longPressOpened p); [done|].
    destruct (find_touch _ _) as [[[x y] k]|]; [|done]. destruct (tActive p) eqn:Ep; [by apply paired_preview, paired_emit|].
    destruct (within _ _ _); [done|]. destruct (draggable p); [|by split].
    assert (N : session s = None) by (apply (not_active s (tItem p)); [done|unfold armed; by rewrite L, Ep]).
    apply paired_preview, paired_emit; [|done].
    by eapply paired_begin with (s' := set_listeners (Some (OnTouch (MkTouch (tItem p) (tIndex p) (tX p) (tY p) (touchId p) true true false))) (set_timer None s)).
  - destruct (listeners s) as [[p|p]|] eqn:L; [done| |done]. unfold onTouchEnd. destruct (negb _); [done|].
    destruct (tActive p) eqn:Ep; [by apply paired_finish|].
    assert (N : session s = None) by (apply (not_active s (tItem p)); [done|unfold armed; by rewrite L, Ep]).
    destruct (longPressOpened p); (split; [exact W|]; cbn; by rewrite N).
  - unfold onLongPress. destruct (longPressTimer s) as [[[item x] y]|]; [|done]. apply paired_emit; [|done]. cbn [set_timer set_suppress listeners].
    destruct (listeners s) as [[p|p]|] eqn:L; try by split. split; [exact W|]. unfold armed in A. rewrite L in A. exact A.
  - by destruct (resets s).
  - done.
  - unfold setDraggedIndex. destruct (session s) as [c|] eqn:Es; [|done]. destruct i; [|done]. split; [|exact A].
    etrans; [exact W|]. unfold view. by rewrite Es.
  - pose proof (idle_press s P Ok) as N. split; [|done]. etrans; [exact W|]. unfold view. by rewrite N.
Qed.

(** As long as one pointer is down at a time, the consumer sees drags one after
    the other: each starts, moves only its own row, and ends once, committed exactly
    if it moved; what the consumer takes for the current drag is the session; and
    lifting the pointer always ends it. *)
Theorem drags_are_sessions ops :
  one_at_a_time ops initial = true ->
  let s := run ops in
  watch (out s) = Some (view s) /\
  forall c, session s = Some c ->
    exists release, (release = MouseUp \/ exists k, release = TouchEnd [k]) /\
    session (step s release) = None /\ out (step s release) = out s ++ [DragEnd (itemId c) (moved c)].
Proof.
  intros F s. assert (P : paired s).
  { unfold s, Gestures.run. revert F. assert (P0 : paired initial) by (split; [done|by intros item]). revert P0. generalize initial.
    induction ops as [|op ops IH]; intros s0 P0 F; cbn [fold_left]; [done|]. cbn [one_at_a_time] in F. apply andb_true_iff in F as [F1 F2].
    apply IH; [|done]. apply paired_step; [done|]. destruct op; try done; by apply negb_true_iff in F1. }
  split; [apply P|]. intros c Es. pose proof (d_armed s P) as Ar. rewrite Es in Ar. unfold armed in Ar.
  destruct (listeners s) as [[p|p]|] eqn:L; [| |done]; injection Ar as _ Ha.
  - exists MouseUp. split; [by left|]. cbn [Gestures.step]. rewrite L. unfold onMouseUp. rewrite Ha. unfold finishDragging. by rewrite Es.
  - exists (TouchEnd [touchId p]). split; [by right; eexists|]. cbn [Gestures.step]. rewrite L. unfold onTouchEnd. cbn. rewrite Z.eqb_refl. cbn.
    rewrite Ha. unfold finishDragging. by rewrite Es.
Qed.

(** Where a drag of a row may start. *)
Definition may_start (s : State) (op : Op) (item : string) (i : Z) : Prop :=
  match op with
  | MouseDown b _ _ it j => b = 0 /\ mouseThreshold options = 0 /\ it = item /\ j = i
  | TouchStart _ it j => touchThreshold options = 0 /\ it = item /\ j = i
  | MouseMove x y _ =>
      exists p, listeners s = Some (OnMouse p) /\ mItem p = item /\ mIndex p = i /\ mActive p = false /\
        within (mouseThreshold options) (x - mX p) (y - mY p) = false
  | TouchMove ts _ =>
      exists p x y, listeners s = Some (OnTouch p) /\ tItem p = item /\ tIndex p = i /\ tActive p = false /\ longPressOpened p = false /\
        find_touch (touchId p) ts = Some (x, y, touchId p) /\ within (touchThreshold options) (x - tX p) (y - tY p) = false
  | _ => False
  end.

(** [s'] has put out [l] since [s]; every drag that started may start. *)
Definition adds (P : string -> Z -> Prop) (s s' : State) : Prop :=
  exists l, out s' = out s ++ l /\ forall item i, DragStart item i ∈ l -> P item i.

Lemma adds_same P s s' : out s' = out s -> adds P s s'.
Proof. intros H. exists []. rewrite app_nil_r. split; [done|]. by intros item i ?%elem_of_nil. Qed.

Lemma adds_snoc P s s' c s'' : adds P s s' -> out s'' = out s' ++ [c] -> (forall item i, c = DragStart item i -> P item i) -> adds P s s''.
Proof.
  intros (l & E & H) E' Hc. exists (l ++ [c]). rewrite E', E, app_assoc. split; [done|].
  intros item i [Hi|Hi]%elem_of_app; [by apply H|]. apply list_elem_of_singleton in Hi. by apply Hc.
Qed.

Lemma adds_two P s s' a b : out s' = (out s ++ [a]) ++ [b] -> (forall item i, a = DragStart item i \/ b = DragStart item i -> P item i) -> adds P s s'.
Proof.
  intros E H. exists [a; b]. rewrite E, <- app_assoc. split; [done|]. intros item i Hi. apply H.
  apply elem_of_cons in Hi as [Hi|Hi]; [by left|]. apply list_elem_of_singleton in Hi. by right.
Qed.

Lemma adds_preview P s s' x y row : adds P s s' -> adds P s (previewAt x y row s').
Proof. intros H. unfold previewAt. destruct (session s'), row; try done. by eapply adds_snoc. Qed.

Lemma adds_finish P s : adds P s (finishDragging s).
Proof. unfold finishDragging. destruct (session s); [|by apply adds_same]. eapply adds_snoc; [by apply (adds_same P s s)|done|done]. Qed.

Lemma find_touch_id k ts x y j : find_touch k ts = Some (x, y, j) -> j = k.
Proof. intros H. apply find_some in H as [_ H]. by apply Z.eqb_eq in H. Qed.

(** A drag starts only where the options say: at the press of the left button or of
    a finger if the threshold is zero, or when the pointer of a press that has not
    opened a menu is at least the threshold away from where it began; and it is the
    row of that press. *)
Theorem drags_need_travel s op : adds (may_start s op) s (step s op).
Proof.
  assert (Same : adds (may_start s op) s s) by (by apply adds_same).
  destruct op as [b x y item i|touch item i|x y item| |x y row| |ts row|ch| | | |i|]; cbn [Gestures.step] in *.
  - unfold startMouseDragging. destruct (negb (b =? 0)) eqn:Eb; [done|]. destruct (negb (canDrag _ _)); [done|]. cbn [orb]. cbv zeta.
    destruct (mouseThreshold options =? 0) eqn:Et; [|by apply adds_same]. bools.
    eapply adds_two; [reflexivity|]. by intros it j [[=]|[= <- <-]].
  - destruct touch as [[[x y] k]|]; [|done]. cbn [startTouchDragging]. cbv zeta. destruct (_ && canDrag options item) eqn:Ea.
    + apply andb_true_iff in Ea as [Et _]. apply Z.eqb_eq in Et.
      eapply adds_two; [reflexivity|]. by intros it j [[=]|[= <- <-]].
    + apply adds_same. by destruct ((0 <? touchThreshold options) && longPressEnabled options).
  - eapply adds_two; [reflexivity|]. by intros it j [[=]|[=]].
  - by eapply adds_snoc.
  - destruct (listeners s) as [[p|p]|] eqn:L; [|done..]. unfold onMouseMove.
    destruct (mActive p) eqn:Ep; cbn [negb andb]; [by apply adds_preview; eapply adds_snoc|].
    destruct (within _ _ _) eqn:Ew; [done|]. apply adds_preview. eapply adds_two; [reflexivity|].
    intros it j [[= <- <-]|[=]]. exists p. by split_and!.
  - destruct (listeners s) as [[p|p]|]; [|done..]. unfold onMouseUp. destruct (mActive p); [apply adds_finish|by apply adds_same].
  - destruct (listeners s) as [[p|p]|] eqn:L; [done| |done]. unfold onTouchMove. destruct (longPressOpened p) eqn:Eo; [done|].
    destruct (find_touch _ _) as [[[x y] k]|] eqn:Ef; [|done]. pose proof (find_touch_id _ _ _ _ _ Ef) as ->.
    destruct (tActive p) eqn:Ep; [by apply adds_preview; eapply adds_snoc|]. destruct (within _ _ _) eqn:Ew; [done|].
    destruct (draggable p); [|by apply adds_same]. apply adds_preview. eapply adds_two; [reflexivity|].
    intros it j [[= <- <-]|[=]]. exists p, x, y. by split_and!.
  - destruct (listeners s) as [[p|p]|]; [done| |done]. unfold onTouchEnd. destruct (negb _); [done|].
    destruct (tActive p); [apply adds_finish|]. apply adds_same. by destruct (longPressOpened p).
  - unfold onLongPress. destruct (longPressTimer s) as [[[item x] y]|]; [|done]. apply (adds_snoc _ s s (OpenMenu item x y)); [exact Same| |done]. cbn. by destruct (listeners s) as [[p|p]|].
  - apply adds_same. by destruct (resets s).
  - by apply adds_same.
  - apply adds_same. unfold setDraggedIndex. by destruct (session s), i.
  - by apply adds_same.
Qed.

End Proofs.

(** *** Witnesses and examples *)

Definition plain_options : RowGestureOptions := MkOptions None None None (fun item => negb (String.eqb item "fixed")).
Definition one_drag : list Op := [MouseDown 0 10 10 "a" 2; MouseMove 12 11 (Some 2); MouseMove 10 30 (Some 4); SetDraggedIndex (Some 4)].

Lemma drags_are_sessions_witness :
  one_at_a_time plain_options one_drag initial = true /\
  watch (out (run plain_options one_drag)) = Some (Some ("a"%string, true)) /\ getDraggedIndex (run plain_options one_drag) = Some 4.
Proof.
  assert (O : one_at_a_time plain_options one_drag initial = true) by reflexivity. split; [exact O|]. split; [|reflexivity].
  rewrite (proj1 (drags_are_sessions plain_options one_drag O)). reflexivity.
Defined.

Lemma second_finger_strands_witness :
  let s := fold_left (step plain_options) ([TouchStart (Some (50, 50, 2)) "b" 5; TouchEnd [2]] ++ [MouseUp; TouchEnd [1]])
             (run plain_options [TouchStart (Some (10, 10, 1)) "a" 2; TouchMove [(10, 30, 1)] (Some 3)]) in
  isDragging s = true.
Proof.
  refine (proj1 (second_finger_strands plain_options [TouchStart (Some (10, 10, 1)) "a" 2; TouchMove [(10, 30, 1)] (Some 3)] (MkSession "a" 2 true) 50 50 2 "b" 5
    [MouseUp; TouchEnd [1]] _ _ _ _)); [reflexivity|reflexivity|repeat first [apply List.Forall_nil|apply List.Forall_cons; [reflexivity|]]|intros [[=]|[[=]|[]%elem_of_nil]%elem_of_cons]%elem_of_cons].
Defined.

Lemma menu_or_drag_witness :
  let s := run plain_options [TouchStart (Some (10, 10, 1)) "a" 2; LongPress] in
  drags (out (fold_left (step plain_options) [TouchMove [(10, 90, 1)] (Some 7); TouchEnd [1]] s)) = drags (out s) /\ out s = [OpenMenu "a" 10 10].
Proof.
  split; [|reflexivity].
  refine (proj1 (proj2 (menu_or_drag plain_options [TouchStart (Some (10, 10, 1)) "a" 2; LongPress] [TouchMove [(10, 90, 1)] (Some 7); TouchEnd [1]])) _ _ _ _); [reflexivity|reflexivity|repeat first [apply List.Forall_nil|apply List.Forall_cons; [reflexivity|]]].
Defined.

Example drag_out :
  out (step plain_options (run plain_options one_drag) MouseUp) =
    [DragStart "a" 2; PreventDefault; DragMove "a" 4 10 30; DragEnd "a" true].
Proof. reflexivity. Qed.

(** The click after a drag is swallowed once, and none after the timer. *)
Example click_swallowed_once :
  let s := step plain_options (run plain_options one_drag) MouseUp in
  snd (consumeClick s) = true /\ snd (consumeClick (fst (consumeClick s))) = false /\ snd (consumeClick (step plain_options s ResetClick)) = false.
Proof. vm_compute. done. Qed.

(** A menu by a long press whose finger is still down when another one touches: the
    click that comes next, of another row, is swallowed. *)
Example foreign_click_swallowed :
  snd (consumeClick (run plain_options [TouchStart (Some (10, 10, 1)) "a" 2; LongPress; TouchStart (Some (50, 50, 2)) "b" 5; TouchEnd [2]; TouchEnd [1]])) = true.
Proof. vm_compute. done. Qed.

(** A row that may not be dragged stays. *)
Example fixed_rows_stay : out (run plain_options [MouseDown 0 10 10 "fixed" 2; MouseMove 10 90 (Some 4); MouseUp]) = [].
Proof. reflexivity. Qed.

End Gestures.
