(* ===== verification/ProviderStream.v ===== *)
(** * Streams of model providers
    (packages/provider-sdk: sse.ts, errors.ts, timeouts.ts, additionalParams.ts,
    adapters/openaiCompatible.ts, adapters/textCompletion.ts)

    The bytes that a provider sends are decoded, cut into server-sent events and
    turned into generation events by the adapter; the body of the request carries
    the settings of the user.  Texts are code points, and a sequence of reads
    stands for the network. *)

From Stdlib Require Import ZArith Lia Bool Ascii String List.
From stdpp Require Import base decidable list.
From S2P Require Import Prelude Codec Json.
Import Codec Json.
Local Open Scope Z_scope.

Module ProviderStream.

Abbreviation text := (list Z).
Abbreviation bytes := (list ascii).

(** ** Decoding of text in pieces: [TextDecoder] with [stream: true] *)

(** [needed] bytes are still to come for [point]; the next one lies between [lower]
    and [upper].  The byte order mark in front of the text is dropped. *)
Record Decoder := MkDecoder { needed : nat; point : Z; lower : Z; upper : Z; bomSeen : bool }.

Definition fresh : Decoder := MkDecoder 0 0 128 191 false.

(** The state that a byte outside a sequence leads to, and what it gives. *)
Definition first_byte (b : Z) (seen : bool) : text * Decoder :=
  if b <? 128 then ([b], MkDecoder 0 0 128 191 seen)
  else if (194 <=? b) && (b <=? 223) then ([], MkDecoder 1 (b - 192) 128 191 seen)
  else if (224 <=? b) && (b <=? 239) then
    ([], MkDecoder 2 (b - 224) (if b =? 224 then 160 else 128) (if b =? 237 then 159 else 191) seen)
  else if (240 <=? b) && (b <=? 244) then
    ([], MkDecoder 3 (b - 240) (if b =? 240 then 144 else 128) (if b =? 244 then 143 else 191) seen)
  else ([65533], MkDecoder 0 0 128 191 seen).

Definition decode_byte (d : Decoder) (b : Z) : text * Decoder :=
  match needed d with
  | O => first_byte b (bomSeen d)
  | S n =>
      if (lower d <=? b) && (b <=? upper d) then
        let p := point d * 64 + (b - 128) in
        match n with
        | O => ([p], MkDecoder 0 0 128 191 (bomSeen d))
        | _ => ([], MkDecoder n p 128 191 (bomSeen d))
        end
      else let (t, d') := first_byte b (bomSeen d) in (65533 :: t, d')
  end.

Fixpoint decode_bytes (d : Decoder) (l : bytes) : text * Decoder :=
  match l with
  | [] => ([], d)
  | c :: r => let (t, d1) := decode_byte d (code c) in let (u, d2) := decode_bytes d1 r in (t ++ u, d2)
  end.

(** The first code point that comes out is dropped when it is the mark. *)
Definition strip_bom (seen : bool) (t : text) : text :=
  if seen then t else match t with c :: r => if c =? 65279 then r else t | [] => t end.

Definition mark_seen (t : text) (d : Decoder) : Decoder :=
  MkDecoder (needed d) (point d) (lower d) (upper d) (bomSeen d || negb (bool_decide (t = []))).

(** [decoder.decode(value, { stream: true })] and [decoder.decode()] *)
Definition decode (d : Decoder) (l : bytes) : text * Decoder :=
  let (t, d') := decode_bytes d l in (strip_bom (bomSeen d) t, mark_seen t d').

Definition decode_end (d : Decoder) : text := match needed d with O => [] | _ => [65533] end.

(** ** Server-sent events *)

Definition SSE_MAX_BUFFERED_BYTES : Z := 1024 * 1024.

(** What a reader and the adapters may throw. *)
Inductive Thrown :=
| AppError (code : string)
| TimeoutError
| AbortError
| TypeError
| PlainError
| NotAnError.

Inductive Read :=
| Chunk (value : bytes)
| ReadFails (error : Thrown).

Record SseState := MkSse { decoder : Decoder; buffer : text; dataLines : list text }.

(** The lines that end in the buffer, without their line feeds, and the rest. *)
Fixpoint split_lines (l : text) : list text * text :=
  match l with
  | [] => ([], [])
  | c :: r =>
      let (ls, rest) := split_lines r in
      if c =? 10 then ([] :: ls, rest)
      else match ls with
           | [] => ([], c :: rest)
           | x :: xs => ((c :: x) :: xs, rest)
           end
  end.

Definition strip_cr (line : text) : text :=
  match rev line with c :: r => if c =? 13 then rev r else line | [] => line end.

(** The value of a data field: [line.slice(5).replace(/^ /, '')]. *)
Definition data_field (line : text) : option text :=
  match expect (lit "data:") line with
  | Some (c :: r) => Some (if c =? 32 then r else c :: r)
  | Some [] => Some []
  | None => None
  end.

Fixpoint join_lines (l : list text) : text :=
  match l with
  | [] => []
  | [x] => x
  | x :: r => x ++ 10 :: join_lines r
  end.

Definition flush (data : list text) : list text := match data with [] => [] | _ => [join_lines data] end.

Definition process_line (rawLine : text) (data : list text) : list text * list text :=
  match strip_cr rawLine with
  | [] => (flush data, [])
  | line => match data_field line with
            | Some v => ([], data ++ [v])
            | None => ([], data)
            end
  end.

Fixpoint process_lines (ls : list text) (data : list text) : list text * list text :=
  match ls with
  | [] => ([], data)
  | l :: r => let (out, data1) := process_line l data in let (out', data2) := process_lines r data1 in (out ++ out', data2)
  end.

(** The payloads in order, and what the iteration throws after them. *)
Fixpoint parse_reads (maxBufferedBytes : Z) (reads : list Read) (s : SseState) : list text * option Thrown :=
  match reads with
  | [] =>
      let data := match data_field (buffer s ++ decode_end (decoder s)) with
                  | Some v => dataLines s ++ [v]
                  | None => dataLines s
                  end in
      (flush data, None)
  | ReadFails e :: _ => ([], Some e)
  | Chunk value :: r =>
      let (t, d) := decode (decoder s) value in
      let buf := buffer s ++ t in
      if maxBufferedBytes <? length16 buf then ([], Some PlainError)
      else
        let (ls, rest) := split_lines buf in
        let (out, data) := process_lines ls (dataLines s) in
        let (out', e) := parse_reads maxBufferedBytes r (MkSse d rest data) in
        (out ++ out', e)
  end.

Definition parseSseStream (maxBufferedBytes : Z) (reads : list Read) : list text * option Thrown :=
  parse_reads maxBufferedBytes reads (MkSse fresh [] []).

(** *** Reference: the events of a whole text *)

(** Blank lines separate events; an event is the values of its data lines. *)
Fixpoint groups (ls : list text) : list (list text) :=
  match ls with
  | [] => [[]]
  | l :: r =>
      match l, groups r with
      | [], gs => [] :: gs
      | _, g :: gs => (l :: g) :: gs
      | _, [] => [[l]]
      end
  end.

Definition group_payload (g : list text) : option text :=
  match omap data_field g with
  | [] => None
  | vs => Some (join_lines vs)
  end.

Definition sse_events (t : text) : list text :=
  let (ls, rest) := split_lines t in omap group_payload (groups (map strip_cr ls ++ [rest])).

Definition decoded (l : bytes) : text := strip_bom false (of_utf8 l).

(** ** Errors *)

(** The code of the normalized error; messages are not modelled. *)
Definition normalizeProviderError (value : Thrown) : string :=
  match value with
  | AppError code => code
  | TimeoutError => "TIMEOUT"
  | AbortError => "GENERATION_CANCELLED"
  | TypeError | PlainError | NotAnError => "GENERATION_FAILED"
  end.

Definition classifyHttpStatus (status : Z) : string :=
  if (status =? 401) || (status =? 403) then "UNAUTHORIZED"
  else if status =? 404 then "MODEL_NOT_FOUND"
  else if status =? 408 then "TIMEOUT"
  else if status =? 429 then "RATE_LIMITED"
  else "GENERATION_FAILED".

Section Adapters.
Context {N : Type} `{!NumberText N}.
(** The numbers that are true as conditions: neither zero nor NaN. *)
Variable nonzero : N -> bool.

Abbreviation value := (json N).
Abbreviation object := (list (text * value)).

(** ** Requests *)

Record GenerationMessage := MkMessage { role : text; content : text; name : option text }.

Record GenerationRequest := MkRequest {
  model : text;
  messages : list GenerationMessage;
  maxTokens : N;
  temperature : N;
  topP : option N;
  topK : option N;
  minP : option N;
  topA : option N;
  repetitionPenalty : option N;
  frequencyPenalty : option N;
  presencePenalty : option N;
  seed : option N;
  reasoningEffort : option text;
  stop : list text;
  assistantPrefill : option text;
  stream : bool
}.

Inductive AdapterKind := OpenAICompatible | TextCompletion.

Record Adapter := MkAdapter {
  kind : AdapterKind;
  samplerSupport : list string;
  reasoningEfforts : option (list text);
  apiKey : option text;
  settings : object
}.

Definition RESERVED_CUSTOM_BODY_KEYS : list text :=
  map lit ["stream"; "stream_options"; "model"; "messages"; "prompt"; "input"]%string.

Definition FORBIDDEN_CUSTOM_HEADERS : list text := map lit ["authorization"; "content-type"; "content-length"]%string.

Definition asRecord (v : option value) : option object := match v with Some (JObj o) => Some o | _ => None end.

Definition asStringArray (v : option value) : list text :=
  match v with Some (JArr l) => omap (fun x => match x with JStr s => Some s | _ => None end) l | _ => [] end.

(** [result[key] = value]; an assignment to [__proto__] makes no property. *)
Definition assign {A} (key : text) (v : A) (result : list (text * A)) : list (text * A) :=
  if bool_decide (key = lit "__proto__") then result else map_set key v result.

Definition reserved (key : text) : bool := bool_decide (key ∈ RESERVED_CUSTOM_BODY_KEYS).

Definition applyCustomBody (body settings : object) : object :=
  let included :=
    match asRecord (map_get (lit "customIncludeBody") settings) with
    | Some include => fold_left (fun result kv => if reserved kv.1 then result else assign kv.1 kv.2 result) include body
    | None => body
    end in
  fold_left (fun result key => if reserved key then result else map_del key result)
    (asStringArray (map_get (lit "customExcludeBody") settings)) included.

(** [toLowerCase], as far as it matters for ASCII names. *)
Definition lower_ascii (t : text) : text := map (fun c => if (65 <=? c) && (c <=? 90) then c + 32 else c) t.

Definition forbidden (header : text) : bool := bool_decide (lower_ascii header ∈ FORBIDDEN_CUSTOM_HEADERS).

Definition applyCustomHeaders (headers : list (text * text)) (settings : object) : list (text * text) :=
  match asRecord (map_get (lit "customIncludeHeaders") settings) with
  | Some include =>
      fold_left (fun result kv =>
        match kv.2 with
        | JStr v => if forbidden kv.1 then result else assign kv.1 v result
        | _ => result
        end) include headers
  | None => headers
  end.

Definition own_headers (a : Adapter) : list (text * text) :=
  (lit "Content-Type", lit "application/json") ::
  match apiKey a with
  | Some (c :: key) => [(lit "Authorization", lit "Bearer " ++ c :: key)]
  | _ => []
  end.

Definition request_headers (a : Adapter) : list (text * text) := applyCustomHeaders (own_headers a) (settings a).

Definition supports (a : Adapter) (parameter : string) : bool := mem parameter (samplerSupport a).

(** A parameter that is set only when it is supported and given. *)
Definition parameter (a : Adapter) (id : string) (key : string) (v : option N) : object :=
  match v with
  | Some n => if supports a id then [(lit key, JNum n)] else []
  | None => []
  end.

Definition wire_message (m : GenerationMessage) : value :=
  JObj ((lit "role", JStr (if bool_decide (role m = lit "plugin") then lit "user" else role m)) ::
        (lit "content", JStr (content m)) ::
        match name m with Some (c :: n) => [(lit "name", JStr (c :: n))] | _ => [] end).

Definition prefill_message (r : GenerationRequest) : list GenerationMessage :=
  match assistantPrefill r with
  | Some (c :: p) => [MkMessage (lit "assistant") (c :: p) None]
  | _ => []
  end.

Definition promptFromMessages (l : list GenerationMessage) : text :=
  join_lines (List.filter (fun t => negb (bool_decide (t = []))) (map content l)).

Definition sampling (a : Adapter) (r : GenerationRequest) : object :=
  parameter a "temperature" "temperature" (Some (temperature r)) ++
  parameter a "topP" "top_p" (topP r) ++
  parameter a "topK" "top_k" (topK r) ++
  parameter a "minP" "min_p" (minP r) ++
  parameter a "topA" "top_a" (topA r) ++
  parameter a "repetitionPenalty" "repetition_penalty" (repetitionPenalty r) ++
  parameter a "frequencyPenalty" "frequency_penalty" (frequencyPenalty r) ++
  parameter a "presencePenalty" "presence_penalty" (presencePenalty r) ++
  parameter a "seed" "seed" (seed r).

Definition reasoning (a : Adapter) (r : GenerationRequest) : object :=
  match kind a, reasoningEffort r with
  | OpenAICompatible, Some e =>
      if supports a "reasoningEffort" && match reasoningEfforts a with Some l => bool_decide (e ∈ l) | None => true end
      then [(lit "reasoning_effort", JStr e)] else []
  | _, _ => []
  end.

Definition prompt_part (a : Adapter) (r : GenerationRequest) : text * value :=
  match kind a with
  | OpenAICompatible => (lit "messages", JArr (map wire_message (messages r ++ prefill_message r)))
  | TextCompletion => (lit "prompt", JStr (promptFromMessages (messages r) ++ match assistantPrefill r with Some p => p | None => [] end))
  end.

(** [stop] and [stream_options], the last properties. *)
Definition last_part (r : GenerationRequest) : object :=
  match stop r with [] => [] | l => [(lit "stop", JArr (map JStr l))] end ++
  (if stream r then [(lit "stream_options", JObj [(lit "include_usage", JBool true)])] else []).

Definition own_body (a : Adapter) (r : GenerationRequest) : object :=
  [(lit "model", JStr (model r)); prompt_part a r; (lit "max_tokens", JNum (maxTokens r)); (lit "stream", JBool (stream r))] ++
  sampling a r ++ reasoning a r ++ last_part r.

Definition request_body (a : Adapter) (r : GenerationRequest) : object := applyCustomBody (own_body a r) (settings a).

(** ** Generation *)

(** Token counts: reported by the provider, or estimated by the adapter. *)
Inductive Count :=
| Reported (v : value)
| EstimatedPrompt
| EstimatedCompletion
| Sum (x y : Count).

Record TokenUsage := MkUsage { promptTokens : Count; completionTokens : Count; totalTokens : Count }.

Inductive GenerationEvent :=
| Start
| Delta (t : text)
| Done (t : text) (usage : TokenUsage)
| Error (code : string).

(** What the generator does: its events, and the use of its deadline. *)
Inductive Effect :=
| Arm
| Disarm
| Dispose
| Yield (e : GenerationEvent).

(** [v.key] of a value that is not null. *)
Definition prop (key : string) (v : value) : option value := match v with JObj o => map_get (lit key) o | _ => None end.

(** [v?.[0]] *)
Definition item0 (v : option value) : option value :=
  match v with
  | Some (JArr (x :: _)) => Some x
  | Some (JStr (c :: _)) => Some (JStr [c])
  | Some (JObj o) => map_get (lit "0") o
  | _ => None
  end.

(** [v?.key] *)
Definition chain (v : option value) (key : string) : option value := match v with Some x => prop key x | None => None end.

Definition nullish (v : option value) : option value := match v with Some JNull => None | _ => v end.

(** A property of null throws. *)
Definition is_null (v : value) : bool := match v with JNull => true | _ => false end.

Definition truthy (v : value) : bool :=
  match v with
  | JNull => false
  | JBool b => b
  | JNum n => nonzero n
  | JStr s => negb (bool_decide (s = []))
  | JArr _ | JObj _ => true
  end.

(** The text of a chunk of the stream, and of a whole answer. *)
Definition chunk_text (k : AdapterKind) (chunk : value) : option value :=
  let first := item0 (prop "choices" chunk) in
  match k with
  | OpenAICompatible => chain (chain first "delta") "content"
  | TextCompletion => chain first "text"
  end.

Definition answer_text (k : AdapterKind) (result : value) : option value :=
  let first := item0 (prop "choices" result) in
  match k with
  | OpenAICompatible => chain (chain first "message") "content"
  | TextCompletion => chain first "text"
  end.

Definition delta_of (k : AdapterKind) (chunk : value) : option text :=
  match chunk_text k chunk with
  | Some (JStr (c :: t)) => Some (c :: t)
  | _ => None
  end.

Definition reported (usage : option value) (key : string) (estimate : Count) : Count :=
  match nullish (chain usage key) with
  | Some v => Reported v
  | None => estimate
  end.

Definition stream_usage (usage : option value) : TokenUsage :=
  let p := reported usage "prompt_tokens" EstimatedPrompt in
  let c := reported usage "completion_tokens" EstimatedCompletion in
  MkUsage p c (reported usage "total_tokens" (Sum p c)).

Definition answer_usage (usage : option value) : TokenUsage :=
  MkUsage (reported usage "prompt_tokens" EstimatedPrompt) (reported usage "completion_tokens" EstimatedCompletion)
    (reported usage "total_tokens" (Sum EstimatedPrompt EstimatedCompletion)).

(** The last usage that a chunk carries. *)
Definition next_usage (chunk : value) (usage : option value) : option value :=
  match prop "usage" chunk with
  | Some u => if truthy u then Some u else usage
  | None => usage
  end.

Inductive LoopEnd :=
| Finished (fullText : text) (streamUsage : option value)
| Returned.

(** The loop over the payloads; [aborted n] tells whether the caller has aborted
    when the [n]-th arrives. *)
Fixpoint consume (k : AdapterKind) (aborted : nat -> bool) (n : nat) (payloads : list text) (fails : option Thrown)
    (fullText : text) (streamUsage : option value) : list Effect * LoopEnd :=
  match payloads with
  | [] => match fails with
          | Some e => ([Yield (Error (normalizeProviderError e))], Returned)
          | None => ([], Finished fullText streamUsage)
          end
  | data :: r =>
      if aborted n then ([Arm; Yield (Error "GENERATION_CANCELLED")], Returned)
      else if bool_decide (data = lit "[DONE]") then ([Arm], Finished fullText streamUsage)
      else match parse (N := N) data with
           | None => let (es, e) := consume k aborted (S n) r fails fullText streamUsage in (Arm :: es, e)
           | Some chunk =>
               if is_null chunk then ([Arm; Yield (Error (normalizeProviderError TypeError))], Returned)
               else match delta_of k chunk with
               | Some d =>
                   let (es, e) := consume k aborted (S n) r fails (fullText ++ d) (next_usage chunk streamUsage) in
                   (Arm :: Disarm :: Yield (Delta d) :: Arm :: es, e)
               | None => let (es, e) := consume k aborted (S n) r fails fullText (next_usage chunk streamUsage) in (Arm :: es, e)
               end
           end
  end.

Inductive Connection :=
| ConnectFails (e : Thrown)
| Response (status : Z) (answer : outcome Thrown value) (body : option (list Read)).

Definition is_success (status : Z) : bool := (200 <=? status) && (status <=? 299).

(** The whole answer of a request without streaming. *)
Definition read_answer (k : AdapterKind) (answer : outcome Thrown value) : list GenerationEvent :=
  match answer with
  | Throw e => [Error (normalizeProviderError e)]
  | Ok result =>
      if is_null result then [Error (normalizeProviderError TypeError)]
      else match answer_text k result with
      | Some (JStr t) => [Delta t; Done t (answer_usage (prop "usage" result))]
      | _ => [Error (normalizeProviderError PlainError)]
      end
  end.

Definition generate (a : Adapter) (r : GenerationRequest) (c : Connection) (aborted : nat -> bool) : list Effect :=
  Yield Start :: Arm ::
  match c with
  | ConnectFails e => [Dispose; Yield (Error (normalizeProviderError e))]
  | Response status answer body =>
      Disarm ::
      if negb (is_success status) then [Dispose; Yield (Error (classifyHttpStatus status))]
      else if negb (stream r) then Arm :: map Yield (read_answer (kind a) answer) ++ [Dispose]
      else match body with
           | None => [Dispose; Yield (Error "GENERATION_FAILED")]
           | Some reads =>
               let (payloads, fails) := parseSseStream SSE_MAX_BUFFERED_BYTES reads in
               let (es, e) := consume (kind a) aborted 0 payloads fails [] None in
               Arm :: es ++ Dispose ::
               match e with
               | Finished t u => [Yield (Done t (stream_usage u))]
               | Returned => []
               end
           end
  end.

Fixpoint yields (l : list Effect) : list GenerationEvent :=
  match l with
  | [] => []
  | Yield e :: r => e :: yields r
  | _ :: r => yields r
  end.

(** Whether the deadline may run after some effects. *)
Definition deadline_runs (l : list Effect) : bool :=
  fold_left (fun on e => match e with Arm => true | Disarm | Dispose => false | Yield _ => on end) l false.

(** *** Reference: the texts that a list of payloads carries *)

Fixpoint before_done (payloads : list text) : list text :=
  match payloads with
  | [] => []
  | p :: r => if bool_decide (p = lit "[DONE]") then [] else p :: before_done r
  end.

Definition chunks_of (payloads : list text) : list value := omap (parse (N := N)) (before_done payloads).
Definition deltas_of (k : AdapterKind) (payloads : list text) : list text := omap (delta_of k) (chunks_of payloads).
Definition usage_of (payloads : list text) : option value := fold_left (fun u c => next_usage c u) (chunks_of payloads) None.
End Adapters.

(** ** Lemmas on decoding *)

Lemma decode_bytes_app d a b :
  decode_bytes d (a ++ b) =
  let (t, d1) := decode_bytes d a in let (u, d2) := decode_bytes d1 b in (t ++ u, d2).
Proof.
  revert d. induction a as [|c a IH]; intros d; cbn [app decode_bytes]; [by destruct (decode_bytes d b)|].
  destruct (decode_byte d (code c)) as [t d1]. rewrite IH. destruct (decode_bytes d1 a) as [u d2].
  destruct (decode_bytes d2 b) as [v d3]. by rewrite app_assoc.
Qed.

Lemma decode_bytes_spec l d :
  utf8_decode l (needed d) (point d) (lower d) (upper d) =
  let (t, d') := decode_bytes d l in t ++ decode_end d'.
Proof.
  revert d. induction l as [|c r IH]; intros [n p lo hi seen]; [by destruct n|].
  cbn [utf8_decode decode_bytes needed point lower upper]. unfold decode_byte. cbn [needed point lower upper bomSeen].
  set (b := code c). clearbody b.
  assert (Hf : (if b <? 128 then b :: utf8_decode r 0 0 128 191
     else if (194 <=? b) && (b <=? 223) then utf8_decode r 1 (b - 192) 128 191
     else if (224 <=? b) && (b <=? 239) then
       utf8_decode r 2 (b - 224) (if b =? 224 then 160 else 128) (if b =? 237 then 159 else 191)
     else if (240 <=? b) && (b <=? 244) then
       utf8_decode r 3 (b - 240) (if b =? 240 then 144 else 128) (if b =? 244 then 143 else 191)
     else 65533 :: utf8_decode r 0 0 128 191) =
     let (t, d1) := first_byte b seen in let (u, d2) := decode_bytes d1 r in (t ++ u) ++ decode_end d2).
  { unfold first_byte.
    destruct (b <? 128); [|destruct ((194 <=? b) && (b <=? 223)); [|destruct ((224 <=? b) && (b <=? 239));
      [|destruct ((240 <=? b) && (b <=? 244))]]]; match goal with |- context [decode_bytes ?x r] => pose proof (IH x) as Hx end;
      cbn [needed point lower upper] in Hx; rewrite Hx; destruct (decode_bytes _ r); done. }
  destruct n as [|n].
  - rewrite Hf. destruct (first_byte b seen) as [t d1]. destruct (decode_bytes d1 r) as [u d2]. done.
  - destruct ((lo <=? b) && (b <=? hi)).
    + destruct n as [|n]; match goal with |- context [decode_bytes ?x r] => pose proof (IH x) as Hx end;
        cbn [needed point lower upper] in Hx; rewrite Hx; destruct (decode_bytes _ r); done.
    + rewrite Hf. destruct (first_byte b seen) as [t d1]. destruct (decode_bytes d1 r) as [u d2]. done.
Qed.

Definition with_seen (seen : bool) (d : Decoder) : Decoder := MkDecoder (needed d) (point d) (lower d) (upper d) seen.

Lemma decode_byte_seen seen d b : decode_byte (with_seen seen d) b = (fst (decode_byte d b), with_seen seen (snd (decode_byte d b))).
Proof.
  destruct d as [n p lo hi s]. unfold decode_byte, with_seen. cbn [needed point lower upper bomSeen].
  assert (Hf : first_byte b seen = (fst (first_byte b s), with_seen seen (snd (first_byte b s)))).
  { unfold first_byte. repeat case_match; done. }
  destruct n as [|n]; [done|]. destruct ((lo <=? b) && (b <=? hi)); [by destruct n|].
  rewrite Hf. by destruct (first_byte b s).
Qed.

Lemma decode_bytes_seen seen l d :
  decode_bytes (with_seen seen d) l = (fst (decode_bytes d l), with_seen seen (snd (decode_bytes d l))).
Proof.
  revert d. induction l as [|c r IH]; intros d; cbn [decode_bytes]; [done|].
  rewrite decode_byte_seen. destruct (decode_byte d (code c)) as [t d1]. cbn [fst snd]. rewrite IH.
  by destruct (decode_bytes d1 r).
Qed.

(** What a list of pieces still gives. *)
Fixpoint rest_text (d : Decoder) (cs : list bytes) : text :=
  match cs with
  | [] => decode_end d
  | c :: r => let (t, d') := decode d c in t ++ rest_text d' r
  end.

Lemma strip_bom_app seen t u :
  strip_bom seen (t ++ u) = strip_bom seen t ++ strip_bom (seen || negb (bool_decide (t = []))) u.
Proof.
  destruct seen; [done|]. destruct t as [|c t]; [done|]. cbn. by destruct (c =? 65279).
Qed.

Lemma rest_text_spec cs d :
  rest_text d cs = strip_bom (bomSeen d) (let (t, d') := decode_bytes d (concat cs) in t ++ decode_end d').
Proof.
  revert d. induction cs as [|c r IH]; intros d; cbn [rest_text concat].
  - cbn [decode_bytes app]. unfold decode_end, strip_bom. destruct (needed d), (bomSeen d); reflexivity.
  - unfold decode. rewrite decode_bytes_app. destruct (decode_bytes d c) as [t d1] eqn:E.
    assert (Hs : bomSeen d1 = bomSeen d).
    { pose proof (decode_bytes_seen (bomSeen d) c d) as H. unfold with_seen at 1 in H.
      replace (MkDecoder _ _ _ _ _) with d in H by (by destruct d). rewrite E in H. cbn [fst snd] in H.
      injection H as H. by rewrite H. }
    rewrite IH. change (mark_seen t d1) with (with_seen (bomSeen d1 || negb (bool_decide (t = []))) d1).
    rewrite decode_bytes_seen. destruct (decode_bytes d1 (concat r)) as [u d2]. cbn [fst snd].
    unfold with_seen, decode_end. cbn [bomSeen needed].
    by rewrite <- app_assoc, (strip_bom_app (bomSeen d) t), Hs.
Qed.

(** However the bytes are cut, the same text is decoded. *)
Lemma rest_text_decoded cs : rest_text fresh cs = decoded (concat cs).
Proof.
  rewrite rest_text_spec. unfold decoded, of_utf8.
  change (utf8_decode (concat cs) 0 0 128 191) with (utf8_decode (concat cs) (needed fresh) (point fresh) (lower fresh) (upper fresh)).
  by rewrite (decode_bytes_spec (concat cs) fresh).
Qed.

(** A chunk gives at most one unit more than it has bytes. *)
Definition owed (d : Decoder) : Z := match needed d with O => 0 | _ => 1 end.

Lemma decode_byte_length d b : length16 (fst (decode_byte d b)) + owed (snd (decode_byte d b)) <= 1 + owed d.
Proof.
  assert (Hf : length16 (fst (first_byte b (bomSeen d))) + owed (snd (first_byte b (bomSeen d))) <= 1).
  { unfold first_byte. destruct (Z.ltb_spec b 128).
    - cbn [fst snd]. rewrite length16_cons. unfold units. destruct (Z.ltb_spec b 65536); [|lia]. done.
    - destruct ((194 <=? b) && (b <=? 223)); [done|]. destruct ((224 <=? b) && (b <=? 239)); [done|].
      by destruct ((240 <=? b) && (b <=? 244)). }
  unfold decode_byte, owed at 2. destruct (needed d) as [|n]; [lia|].
  case_match; [|destruct (first_byte b (bomSeen d)) as [t d']; cbn [fst snd] in *; rewrite length16_cons; cbn; lia].
  destruct n; cbn [fst snd]; [|cbn; lia]. rewrite length16_cons. unfold units. case_match; cbn; lia.
Qed.

Lemma decode_bytes_length l d :
  length16 (fst (decode_bytes d l)) + owed (snd (decode_bytes d l)) <= Z.of_nat (length l) + owed d.
Proof.
  revert d. induction l as [|c r IH]; intros d; cbn [decode_bytes length]; [cbn; lia|].
  pose proof (decode_byte_length d (code c)) as H. destruct (decode_byte d (code c)) as [t d1]. cbn [fst snd] in H.
  specialize (IH d1). destruct (decode_bytes d1 r) as [u d2]. cbn [fst snd] in *. rewrite length16_app. lia.
Qed.

Lemma decode_length l d : length16 (fst (decode d l)) <= Z.of_nat (length l) + 1.
Proof.
  unfold decode. pose proof (decode_bytes_length l d) as H. destruct (decode_bytes d l) as [t d']. cbn [fst snd] in *.
  assert (0 <= owed d' /\ owed d <= 1) by (unfold owed; repeat case_match; lia).
  enough (length16 (strip_bom (bomSeen d) t) <= length16 t) by lia.
  unfold strip_bom. repeat case_match; subst; rewrite ?length16_cons; unfold units; try lia. case_match; lia.
Qed.

(** ** Lemmas on events *)

Lemma split_lines_app a b :
  split_lines (a ++ b) =
  let (la, ra) := split_lines a in let (lb, rb) := split_lines (ra ++ b) in (la ++ lb, rb).
Proof.
  induction a as [|c a IH]; cbn [app split_lines]; [by destruct (split_lines b)|]. rewrite IH.
  destruct (split_lines a) as [la ra]. destruct (c =? 10) eqn:E.
  - destruct (split_lines (ra ++ b)) as [lb rb]. done.
  - destruct la as [|x xs]; [|by destruct (split_lines (ra ++ b))].
    cbn [app split_lines]. rewrite E. by destruct (split_lines (ra ++ b)) as [[|y ys] rb].
Qed.

Lemma split_lines_rest a : split_lines (snd (split_lines a)) = ([], snd (split_lines a)).
Proof.
  induction a as [|c a IH]; [done|]. cbn [split_lines]. destruct (split_lines a) as [la ra]. cbn [snd] in IH.
  destruct (c =? 10) eqn:E; [done|]. destruct la as [|x xs]; [|done]. cbn [snd split_lines]. by rewrite IH, E.
Qed.

Lemma no_lf_app a b : split_lines a = ([], a) -> split_lines b = ([], b) -> split_lines (a ++ b) = ([], a ++ b).
Proof.
  intros Ha Hb. induction a as [|c a IH]; cbn [app]; [done|]. cbn [split_lines] in Ha |- *.
  destruct (split_lines a) as [la ra]. destruct (c =? 10); [done|]. destruct la; [|done]. injection Ha as ->.
  by rewrite IH.
Qed.

Definition all_lines (t : text) : list text := let (ls, rest) := split_lines t in ls ++ [rest].

Lemma all_lines_cons c t :
  all_lines (c :: t) = if c =? 10 then [] :: all_lines t else match all_lines t with l :: ls => (c :: l) :: ls | [] => [] end.
Proof. unfold all_lines. cbn [split_lines]. destruct (split_lines t) as [[|l ls] rest]; by destruct (c =? 10). Qed.

(** A text without line feeds begins the first line. *)
Lemma first_line a b : split_lines a = ([], a) -> exists l ls, all_lines (a ++ b) = (a ++ l) :: ls.
Proof.
  induction a as [|c a IH]; intros H; cbn [app].
  - unfold all_lines. destruct (split_lines b) as [[|l ls] rest]; cbn [app]; eauto.
  - cbn [split_lines] in H. rewrite all_lines_cons. destruct (split_lines a) as [la ra] eqn:E.
    destruct (c =? 10); [done|]. destruct la; [|done]. injection H as ->. destruct IH as (l & ls & ->); [done|]. eauto.
Qed.

Lemma all_lines_app a b : all_lines (a ++ b) = fst (split_lines a) ++ all_lines (snd (split_lines a) ++ b).
Proof.
  unfold all_lines at 1. rewrite split_lines_app. destruct (split_lines a) as [la ra]. cbn [fst snd].
  unfold all_lines. destruct (split_lines (ra ++ b)) as [lb rb]. by rewrite app_assoc.
Qed.

Lemma process_lines_app a b data :
  process_lines (a ++ b) data =
  let (o1, d1) := process_lines a data in let (o2, d2) := process_lines b d1 in (o1 ++ o2, d2).
Proof.
  revert data. induction a as [|l a IH]; intros data; cbn [app process_lines]; [by destruct (process_lines b data)|].
  destruct (process_line l data) as [o d]. rewrite IH. destruct (process_lines a d) as [o1 d1].
  destruct (process_lines b d1) as [o2 d2]. by rewrite app_assoc.
Qed.

(** The events of the rest of a text, when [data] is collected. *)
Definition text_events (data : list text) (t : text) : list text :=
  let (ls, rest) := split_lines t in
  let (out, data') := process_lines ls data in
  out ++ flush (data' ++ option_list (data_field rest)).

Lemma parse_chunks maxB L B cs d buf data :
  split_lines buf = ([], buf) -> Forall (fun l => length16 l <= L) (all_lines (buf ++ rest_text d cs)) ->
  Forall (fun c => Z.of_nat (length c) <= B) cs -> L + B + 1 <= maxB ->
  parse_reads maxB (map Chunk cs) (MkSse d buf data) = (text_events data (buf ++ rest_text d cs), None).
Proof.
  intros Hbuf Hl Hc Hmax. revert d buf data Hbuf Hl. induction cs as [|c cs IH]; intros d buf data Hbuf Hl;
    cbn [map parse_reads rest_text buffer decoder dataLines].
  - f_equal. unfold text_events.
    assert (He : split_lines (buf ++ decode_end d) = ([], buf ++ decode_end d)).
    { apply no_lf_app; [done|]. unfold decode_end. by destruct (needed d). }
    rewrite He. cbn [process_lines app]. destruct (data_field _); cbn [option_list option_rect]; by rewrite ?app_nil_r.
  - apply Forall_cons in Hc as [Hc Hcs]. pose proof (decode_length c d) as Hlen.
    cbn [rest_text] in Hl. destruct (decode d c) as [t d'] eqn:Ed. cbn [fst] in Hlen. rewrite app_assoc in Hl |- *.
    destruct (first_line buf (t ++ rest_text d' cs)) as (l & ls & Hfirst); [done|].
    assert (length16 (buf ++ t) <= maxB).
    { rewrite length16_app. rewrite <- app_assoc, Hfirst in Hl. apply Forall_cons in Hl as [Hl _].
      rewrite length16_app in Hl. pose proof (length16_nonneg l). lia. }
    rewrite (proj2 (Z.ltb_ge _ _)) by done. rewrite all_lines_app in Hl. unfold text_events.
    rewrite (split_lines_app (buf ++ t) (rest_text d' cs)). pose proof (split_lines_rest (buf ++ t)) as Hrest.
    destruct (split_lines (buf ++ t)) as [la ra]. cbn [fst snd] in *.
    destruct (process_lines la data) as [out data1] eqn:Ep. rewrite IH; [|done|done|by apply Forall_app in Hl as [_ Hl]].
    unfold text_events. destruct (split_lines (ra ++ rest_text d' cs)) as [lb rb]. rewrite process_lines_app, Ep.
    destruct (process_lines lb data1) as [o2 data2]. by rewrite app_assoc.
Qed.

(** The events of collected data and of the groups that follow. *)
Definition groups_events (data : list text) (gs : list (list text)) : list text :=
  match gs with
  | [] => []
  | g :: r => flush (data ++ omap data_field g) ++ omap group_payload r
  end.

Lemma groups_nonnil ls : exists g gs, groups ls = g :: gs.
Proof. destruct ls as [|[|c l] r]; cbn [groups]; [eauto|eauto|]. destruct (groups r); eauto. Qed.

Lemma group_payload_flush g : option_list (group_payload g) = flush (omap data_field g).
Proof. unfold group_payload. by destruct (omap data_field g). Qed.

Lemma omap_cons_list {A B} (f : A -> option B) x l : omap f (x :: l) = option_list (f x) ++ omap f l.
Proof. cbn. by destruct (f x). Qed.

Lemma groups_cons l r g gs : groups r = g :: gs -> groups (l :: r) = match l with [] => [] :: g :: gs | _ => (l :: g) :: gs end.
Proof. intros E. cbn [groups]. rewrite E. by destruct l. Qed.

Lemma process_groups ls rest data :
  (let (out, data') := process_lines ls data in out ++ flush (data' ++ option_list (data_field rest))) =
  groups_events data (groups (map strip_cr ls ++ [rest])).
Proof.
  revert data. induction ls as [|l ls IH]; intros data; cbn [map app process_lines].
  - destruct rest as [|c rest]; cbn [groups].
    + change (data_field []) with (@None text). cbn. by rewrite !app_nil_r.
    + cbn [groups_events]. rewrite omap_cons_list. cbn [omap list_omap]. by rewrite !app_nil_r.
  - destruct (groups_nonnil (map strip_cr ls ++ [rest])) as (g & gs & Hg). rewrite (groups_cons _ _ _ _ Hg).
    unfold process_line. destruct (strip_cr l) as [|c l'].
    + specialize (IH []). destruct (process_lines ls []) as [o2 d2]. rewrite <- app_assoc, IH, Hg.
      cbn [groups_events app]. rewrite omap_cons_list, group_payload_flush. cbn [omap list_omap]. by rewrite app_nil_r.
    + destruct (data_field (c :: l')) as [v|] eqn:Ef.
      * specialize (IH (data ++ [v])). destruct (process_lines ls (data ++ [v])) as [o2 d2]. cbn [app]. rewrite IH, Hg.
        cbn [groups_events]. rewrite omap_cons_list, Ef. cbn [option_list option_rect]. by rewrite <- app_assoc.
      * specialize (IH data). destruct (process_lines ls data) as [o2 d2]. cbn [app]. rewrite IH, Hg.
        cbn [groups_events]. rewrite omap_cons_list, Ef. done.
Qed.

Lemma text_events_spec t : text_events [] t = sse_events t.
Proof.
  unfold text_events, sse_events. destruct (split_lines t) as [ls rest]. rewrite process_groups.
  destruct (groups_nonnil (map strip_cr ls ++ [rest])) as (g & gs & ->). unfold groups_events.
  rewrite omap_cons_list, group_payload_flush. done.
Qed.

(** Lines that are short enough never overflow the buffer, and the events are those of
    the whole text, however it is cut. *)
Lemma parse_whole maxB L B cs :
  Forall (fun l => length16 l <= L) (all_lines (decoded (concat cs))) ->
  Forall (fun c => Z.of_nat (length c) <= B) cs -> L + B + 1 <= maxB ->
  parseSseStream maxB (map Chunk cs) = (sse_events (decoded (concat cs)), None).
Proof.
  intros Hl Hc Hmax. unfold parseSseStream. rewrite (parse_chunks maxB L B); [|done| |done|done].
  - cbn [app]. by rewrite rest_text_decoded, text_events_spec.
  - by rewrite <- rest_text_decoded in Hl.
Qed.

(** ** Requests *)

Lemma fold_keeps {A B} (P : A -> Prop) (f : A -> B -> A) l a :
  P a -> (forall x b, P x -> P (f x b)) -> P (fold_left f l a).
Proof. intros Ha Hf. revert a Ha. induction l as [|b l IH]; intros a Ha; cbn [fold_left]; auto. Qed.

Lemma assign_other {A} key k (v : A) m : k <> key -> map_get key (assign k v m) = map_get key m.
Proof. intros H. unfold assign. case_bool_decide; [done|]. rewrite map_get_set. by rewrite decide_False by congruence. Qed.

Lemma assign_ok {A} k (v : A) m : map_ok m -> map_ok (assign k v m).
Proof. intros H. unfold assign. case_bool_decide; [done|]. by apply map_set_ok. Qed.

Section Requests.
Context {N : Type} `{!NumberText N}.

Abbreviation object := (list (text * json N)).

Definition agrees (body result : object) : Prop :=
  map_ok result /\ forall key, reserved key = true -> map_get key result = map_get key body.

Lemma custom_body_agrees (body settings : object) : map_ok body -> agrees body (applyCustomBody body settings).
Proof.
  intros Hok. unfold applyCustomBody. apply fold_keeps.
  - destruct (asRecord _) as [include|]; [|by split]. apply fold_keeps; [by split|]. intros m [k v] [Hm H]. cbn [fst snd].
    destruct (reserved k) eqn:Ek; [by split|]. split; [by apply assign_ok|]. intros key Hr. rewrite assign_other; [by apply H|].
    intros ->. congruence.
  - intros m k [Hm H]. destruct (reserved k) eqn:Ek; [by split|]. split; [by apply map_del_ok|]. intros key Hr.
    rewrite map_get_del by done. rewrite decide_False by (intros ->; congruence). by apply H.
Qed.

(** A key that is excluded stays away. *)
Lemma exclude_absent (l : list text) (m : object) key :
  map_ok m -> reserved key = false -> map_get key m = None \/ key ∈ l ->
  map_get key (fold_left (fun result key => if reserved key then result else map_del key result) l m) = None.
Proof.
  intros Hm Hr. revert m Hm. induction l as [|k l IH]; intros m Hm [H|H]; cbn [fold_left]; [done|by apply not_elem_of_nil in H|..].
  - apply IH; [|left]; destruct (reserved k); [done|by apply map_del_ok|done|].
    rewrite map_get_del by done. by case_decide.
  - apply elem_of_cons in H as [->|H].
    + rewrite Hr. apply IH; [by apply map_del_ok|]. left. rewrite map_get_del by done. by rewrite decide_True.
    + apply IH; [|by right]. destruct (reserved k); [done|by apply map_del_ok].
Qed.

Lemma custom_body_excluded (body settings : object) key :
  map_ok body -> reserved key = false -> key ∈ asStringArray (map_get (lit "customExcludeBody") settings) ->
  map_get key (applyCustomBody body settings) = None.
Proof.
  intros Hok Hr Hk. unfold applyCustomBody. apply exclude_absent; [|done|by right].
  destruct (asRecord _) as [include|]; [|done]. apply fold_keeps; [done|]. intros m [k v] Hm. cbn [fst snd].
  destruct (reserved k); [done|by apply assign_ok].
Qed.

(** The keys of the adapter, each at most once. *)
Definition own_keys (k : AdapterKind) : list text :=
  map lit ["model"; match k with OpenAICompatible => "messages" | TextCompletion => "prompt" end; "max_tokens"; "stream"; "temperature";
    "top_p"; "top_k"; "min_p"; "top_a"; "repetition_penalty"; "frequency_penalty"; "presence_penalty"; "seed"; "reasoning_effort";
    "stop"; "stream_options"]%string.

Lemma parameter_keys (a : Adapter (N := N)) id key v l ks :
  map_keys l `sublist_of` ks -> map_keys (parameter a id key v ++ l) `sublist_of` lit key :: ks.
Proof. intros H. unfold parameter. destruct v as [n|]; [destruct (supports a id)|]; cbn; by constructor. Qed.

Lemma own_body_ok (a : Adapter (N := N)) r : map_ok (own_body a r).
Proof.
  assert (Hnd : NoDup (own_keys (kind a))) by (destruct (kind a); apply (bool_decide_unpack _); vm_compute; exact I).
  unfold map_ok. eapply sublist_NoDup; [exact Hnd|].
  unfold own_body, sampling, own_keys. cbn [app]. unfold map_keys. cbn [fmap list_fmap map].
  apply sublist_skip. replace (fst (prompt_part a r)) with (lit (match kind a with OpenAICompatible => "messages" | TextCompletion => "prompt" end))
    by (unfold prompt_part; by destruct (kind a)).
  do 3 apply sublist_skip. rewrite <- !app_assoc. do 9 apply parameter_keys.
  assert (Ht : map_keys (last_part r) `sublist_of` [lit "stop"; lit "stream_options"]).
  { unfold last_part, map_keys. rewrite fmap_app. apply (sublist_app _ [lit "stop"] _ [lit "stream_options"]).
    - destruct (stop r); [apply sublist_nil_l|reflexivity].
    - destruct (stream r); [reflexivity|apply sublist_nil_l]. }
  unfold reasoning. assert (Hc : map_keys (last_part r) `sublist_of` lit "reasoning_effort" :: [lit "stop"; lit "stream_options"]) by by apply sublist_cons.
  destruct (kind a); [|exact Hc]. destruct (reasoningEffort r) as [e|]; [|exact Hc].
  destruct (_ && _); [by apply sublist_skip|exact Hc].
Qed.

Lemma headers_kept (own : list (text * text)) (settings : object) :
  map_ok own -> (forall h v, (h, v) ∈ own -> forbidden h = true) ->
  (forall h v, (h, v) ∈ applyCustomHeaders own settings -> forbidden h = true -> (h, v) ∈ own) /\
  (forall h v, (h, v) ∈ own -> (h, v) ∈ applyCustomHeaders own settings).
Proof.
  intros Hok Hf. unfold applyCustomHeaders. destruct (asRecord _) as [include|]; [|done].
  apply (fold_keeps (fun m => (forall h v, (h, v) ∈ m -> forbidden h = true -> (h, v) ∈ own) /\ (forall h v, (h, v) ∈ own -> (h, v) ∈ m))); [done|].
  intros m [k v] [H1 H2]. cbn [fst snd]. destruct v; try done. destruct (forbidden k) eqn:Ek; [done|].
  unfold assign. case_bool_decide; [done|]. split.
  - intros h w [[= -> ->]|Hin]%elem_of_map_set Hh; [congruence|by apply H1].
  - intros h w Hin. assert (h <> k) by (intros ->; apply Hf in Hin; congruence).
    specialize (H2 h w Hin). clear -H2 H0. induction m as [|[k0 v0] m IH]; [by apply not_elem_of_nil in H2|].
    cbn [map_set]. case_decide; subst; apply elem_of_cons in H2 as [[= -> ->]|H2]; try done; apply elem_of_cons; auto.
Qed.

(** C17: the settings of the user cannot change the wire format of a request.  In
    the body every reserved key has the value that the adapter gave it, so that the
    answer comes in the format that the adapter parses; keys that the user
    excludes are absent; and the credential and the content type are the adapter's,
    under any spelling of the header's name. *)
Theorem wire_format (a : Adapter (N := N)) r :
  (forall key, reserved key = true -> map_get key (request_body a r) = map_get key (own_body a r)) /\
  map_get (lit "model") (request_body a r) = Some (JStr (model r)) /\
  map_get (lit "stream") (request_body a r) = Some (JBool (stream r)) /\
  (forall key, reserved key = false -> key ∈ asStringArray (map_get (lit "customExcludeBody") (settings a)) ->
     map_get key (request_body a r) = None) /\
  (forall h v, (h, v) ∈ request_headers a -> forbidden h = true -> (h, v) ∈ own_headers a) /\
  (forall h v, (h, v) ∈ own_headers a -> (h, v) ∈ request_headers a).
Proof.
  pose proof (custom_body_agrees (own_body a r) (settings a) (own_body_ok a r)) as [_ Hres].
  split; [exact Hres|]. unfold request_body at 1 2. rewrite !Hres by reflexivity. split_and!.
  - reflexivity.
  - unfold own_body, prompt_part. by destruct (kind a).
  - intros key Hr Hk. by apply custom_body_excluded, Hk; [apply own_body_ok|].
  - apply headers_kept; unfold own_headers.
    + destruct (apiKey a) as [[|c key]|]; apply (bool_decide_unpack _); vm_compute; exact I.
    + intros h v. destruct (apiKey a) as [[|c key]|]; rewrite ?elem_of_cons; intros H; destruct_or!; try (by apply not_elem_of_nil in H); by injection H as -> ->.
  - apply headers_kept; unfold own_headers.
    + destruct (apiKey a) as [[|c key]|]; apply (bool_decide_unpack _); vm_compute; exact I.
    + intros h v. destruct (apiKey a) as [[|c key]|]; rewrite ?elem_of_cons; intros H; destruct_or!; try (by apply not_elem_of_nil in H); by injection H as -> ->.
Qed.
End Requests.

(** ** Generation *)

Section Generation.
Context {N : Type} `{!NumberText N}.
Variable nonzero : N -> bool.

Abbreviation Effects := (list (Effect (N := N))).

Lemma yields_app (a b : Effects) : yields (a ++ b) = yields a ++ yields b.
Proof. induction a as [|x a IH]; [done|]. cbn [app yields]. destruct x; cbn [app]; by rewrite IH. Qed.

Lemma yields_map (l : list (GenerationEvent (N := N))) : yields (map Yield l) = l.
Proof. induction l as [|x l IH]; [done|]. cbn. f_equal. exact IH. Qed.

(** The texts that a loop gives, and how it ends. *)
Definition ends_with_text (full : text) (es : Effects) (e : LoopEnd (N := N)) (ds : list text) : Prop :=
  match e with
  | Finished t _ => yields es = map Delta ds /\ t = full ++ concat ds
  | Returned => exists code, yields es = map Delta ds ++ [Error code]
  end.

Lemma consume_events k aborted n payloads fails full usage :
  exists ds, ends_with_text full (fst (consume nonzero k aborted n payloads fails full usage))
    (snd (consume nonzero k aborted n payloads fails full usage)) ds.
Proof.
  revert n full usage. induction payloads as [|data r IH]; intros n full usage; cbn [consume].
  - destruct fails as [e|]; exists []; cbn; [by eexists|]. by rewrite app_nil_r.
  - destruct (aborted n); [exists []; by eexists|]. case_bool_decide; [exists []; cbn; by rewrite app_nil_r|].
    destruct (parse data) as [chunk|].
    + destruct (is_null chunk); [exists []; by eexists|]. destruct (delta_of k chunk) as [d|].
      * destruct (IH (S n) (full ++ d) (next_usage nonzero chunk usage)) as [ds Hds].
        destruct (consume _ _ _ _ _ _ _ _) as [es e]. exists (d :: ds). cbn [fst snd] in *. destruct e as [t u|].
        -- destruct Hds as [Hy ->]. split; [cbn; by rewrite <- Hy|]. cbn [concat]. by rewrite app_assoc.
        -- destruct Hds as [code Hy]. exists code. cbn. by rewrite <- Hy.
      * destruct (IH (S n) full (next_usage nonzero chunk usage)) as [ds Hds].
        destruct (consume _ _ _ _ _ _ _ _) as [es e]. by exists ds.
    + destruct (IH (S n) full usage) as [ds Hds]. destruct (consume _ _ _ _ _ _ _ _) as [es e]. by exists ds.
Qed.

(** The deadline runs, or stands still, whenever a text is handed out. *)
Fixpoint handed_out (runs on : bool) (l : Effects) : Prop :=
  match l with
  | [] => True
  | Arm :: r => handed_out runs true r
  | Disarm :: r | Dispose :: r => handed_out runs false r
  | Yield (Delta _) :: r => on = runs /\ handed_out runs on r
  | Yield _ :: r => handed_out runs on r
  end.

Definition deadline_step (on : bool) (e : Effect (N := N)) : bool :=
  match e with Arm => true | Disarm | Dispose => false | Yield _ => on end.

Lemma deadline_fold (l : Effects) : deadline_runs l = fold_left deadline_step l false.
Proof. done. Qed.

Lemma handed_app runs on a b : handed_out runs on (a ++ b) <-> handed_out runs on a /\ handed_out runs (fold_left deadline_step a on) b.
Proof.
  revert on. induction a as [|x a IH]; intros on; cbn [app fold_left handed_out]; [tauto|].
  destruct x as [| | |[| | |]]; cbn [deadline_step]; rewrite IH; tauto.
Qed.

Lemma handed_delta runs pre d post : handed_out runs false (pre ++ Yield (Delta d) :: post) -> deadline_runs pre = runs.
Proof. intros [_ H]%handed_app. rewrite deadline_fold. by destruct H. Qed.

Lemma consume_handed k aborted n payloads fails full usage on :
  handed_out false on (fst (consume nonzero k aborted n payloads fails full usage)).
Proof.
  revert on n full usage. induction payloads as [|data r IH]; intros on n full usage; cbn [consume].
  - by destruct fails.
  - destruct (aborted n); [done|]. case_bool_decide; [done|]. destruct (parse data) as [chunk|].
    + destruct (is_null chunk); [done|]. destruct (delta_of k chunk) as [d|].
      * specialize (IH true (S n) (full ++ d) (next_usage nonzero chunk usage)).
        by destruct (consume _ _ _ _ _ _ _ _) as [es e].
      * specialize (IH true (S n) full (next_usage nonzero chunk usage)). by destruct (consume _ _ _ _ _ _ _ _) as [es e].
    + specialize (IH true (S n) full usage). by destruct (consume _ _ _ _ _ _ _ _) as [es e].
Qed.

(** The events of a run: it starts, texts follow, and one event ends it, which
    carries the texts in one piece or the code of an error. *)
Definition well_formed_run (l : list (GenerationEvent (N := N))) : Prop :=
  exists ds, (exists u, l = Start :: map Delta ds ++ [Done (concat ds) u]) \/ (exists code, l = Start :: map Delta ds ++ [Error code]).

Lemma run_of_error code : well_formed_run [Start; Error code].
Proof. exists []. right. by exists code. Qed.

Lemma read_answer_run k answer : well_formed_run (Start :: read_answer k answer).
Proof.
  unfold read_answer. destruct answer as [v|e]; [|apply run_of_error]. destruct (is_null v); [apply run_of_error|].
  destruct (answer_text k v) as [[| | |t| |]|]; try apply run_of_error.
  exists [t]. left. exists (answer_usage (prop "usage" v)). cbn. by rewrite app_nil_r.
Qed.

Lemma generate_run a r c aborted : well_formed_run (yields (generate nonzero a r c aborted)).
Proof.
  unfold generate. destruct c as [e|status answer body]; [apply run_of_error|].
  destruct (negb (is_success status)); [apply run_of_error|]. destruct (stream r); cbn [negb].
  - destruct body as [reads|]; [|apply run_of_error]. destruct (parseSseStream SSE_MAX_BUFFERED_BYTES reads) as [payloads fails].
    pose proof (consume_events (kind a) aborted 0 payloads fails [] None) as [ds Hds].
    destruct (consume _ _ _ _ _ _ _ _) as [es e]. cbn [fst snd] in *. exists ds. cbn [yields]. rewrite yields_app. destruct e as [t u|].
    + destruct Hds as [-> ->]. left. eexists. cbn. reflexivity.
    + destruct Hds as [code ->]. right. exists code. cbn [yields]. by rewrite app_nil_r.
  - cbn [yields]. rewrite yields_app, yields_map. cbn [yields]. rewrite app_nil_r. apply read_answer_run.
Qed.

Lemma answer_handed k answer : handed_out true true (map Yield (read_answer k answer)).
Proof.
  unfold read_answer. destruct answer as [v|e]; [|done]. destruct (is_null v); [done|]. by destruct (answer_text k v) as [[| | |t| |]|].
Qed.

(** With the answer in one piece the deadline runs on while its text is handed out. *)
Lemma generate_handed a r c aborted : handed_out (negb (stream r)) false (generate nonzero a r c aborted).
Proof.
  unfold generate. destruct c as [e|status answer body]; [done|]. destruct (negb (is_success status)); [done|]. destruct (stream r); cbn [negb].
  - destruct body as [reads|]; [|done]. destruct (parseSseStream SSE_MAX_BUFFERED_BYTES reads) as [payloads fails].
    pose proof (consume_handed (kind a) aborted 0 payloads fails [] None true) as Hq. destruct (consume _ _ _ _ _ _ _ _) as [es e].
    cbn [handed_out]. apply handed_app. split; [exact Hq|]. cbn [handed_out]. by destruct e.
  - cbn [handed_out]. apply handed_app. split; [apply answer_handed|]. done.
Qed.


(** The loop over payloads that all parse to something, when nobody aborts. *)
Lemma consume_exact k n payloads full usage :
  Forall (fun c => is_null c = false) (chunks_of payloads) ->
  let (es, e) := consume nonzero k (fun _ => false) n payloads None full usage in
  yields es = map Delta (deltas_of k payloads) /\
  e = Finished (full ++ concat (deltas_of k payloads)) (fold_left (fun u c => next_usage nonzero c u) (chunks_of payloads) usage).
Proof.
  revert n full usage. induction payloads as [|data r IH]; intros n full usage; [intros _; cbn; by rewrite app_nil_r|].
  unfold deltas_of, chunks_of. cbn [consume before_done]. case_bool_decide; [intros _; cbn; by rewrite app_nil_r|].
  rewrite omap_cons_list. change (omap (parse (N := N)) (before_done r)) with (chunks_of r).
  destruct (parse data) as [chunk|]; cbn [option_list option_rect app].
  - intros [Hn Hr]%Forall_cons. rewrite Hn. rewrite omap_cons_list. change (omap (delta_of k) (chunks_of r)) with (deltas_of k r).
    destruct (delta_of k chunk) as [d|]; cbn [option_list option_rect app fold_left map concat].
    + specialize (IH (S n) (full ++ d) (next_usage nonzero chunk usage) Hr). destruct (consume _ _ _ _ _ _ _ _) as [es e].
      destruct IH as [Hy ->]. split; [cbn; by rewrite <- Hy|]. by rewrite app_assoc.
    + specialize (IH (S n) full (next_usage nonzero chunk usage) Hr). by destruct (consume _ _ _ _ _ _ _ _) as [es e].
  - intros Hr. specialize (IH (S n) full usage Hr). by destruct (consume _ _ _ _ _ _ _ _) as [es e].
Qed.

(** The events of a successful stream. *)
Lemma stream_events a r status answer cs L B :
  is_success status = true -> stream r = true ->
  let payloads := sse_events (decoded (concat cs)) in
  Forall (fun c => is_null c = false) (chunks_of (N := N) payloads) ->
  Forall (fun l => length16 l <= L) (all_lines (decoded (concat cs))) ->
  Forall (fun c => Z.of_nat (length c) <= B) cs -> L + B + 1 <= SSE_MAX_BUFFERED_BYTES ->
  yields (generate nonzero a r (Response status answer (Some (map Chunk cs))) (fun _ => false)) =
  Start :: map Delta (deltas_of (kind a) payloads) ++
  [Done (concat (deltas_of (kind a) payloads)) (stream_usage (usage_of nonzero payloads))].
Proof.
  intros Hs Hstream payloads Hn Hl Hc Hmax. unfold generate. rewrite Hs, Hstream. cbn [negb].
  rewrite (parse_whole _ L B) by done. fold payloads. pose proof (consume_exact (kind a) 0 payloads [] None Hn) as H.
  destruct (consume _ _ _ _ _ _ _ _) as [es e]. destruct H as [Hy ->]. cbn [yields].
  rewrite yields_app, Hy. reflexivity.
Qed.

(** C15: a stream gives the text that it carries.  For a successful
    response the events are determined by the bytes of the body alone, however the
    network cuts them (in the middle of a character too): the texts of the chunks of
    its server-sent events up to [DONE], and at the end their concatenation with
    the last usage; lines may be as long as the buffer less one read. *)
Theorem generation_exact a r status answer cs L B :
  is_success status = true -> stream r = true ->
  let payloads := sse_events (decoded (concat cs)) in
  Forall (fun c => is_null c = false) (chunks_of (N := N) payloads) ->
  Forall (fun l => length16 l <= L) (all_lines (decoded (concat cs))) ->
  Forall (fun c => Z.of_nat (length c) <= B) cs -> L + B + 1 <= SSE_MAX_BUFFERED_BYTES ->
  yields (generate nonzero a r (Response status answer (Some (map Chunk cs))) (fun _ => false)) =
  Start :: map Delta (deltas_of (kind a) payloads) ++
  [Done (concat (deltas_of (kind a) payloads)) (stream_usage (usage_of nonzero payloads))].
Proof. apply stream_events. Qed.
End Generation.

(** ** Runs *)

Definition sample_adapter : Adapter (N := Z) := MkAdapter OpenAICompatible ["temperature"]%string None (Some (lit "key"))
  [(lit "customIncludeBody", JObj [(lit "stream", JBool false); (lit "top_k", JNum 40)]);
   (lit "customExcludeBody", JArr [JStr (lit "temperature")]);
   (lit "customIncludeHeaders", JObj [(lit "AUTHORIZATION", JStr (lit "none"))])].

Definition sample_request : GenerationRequest (N := Z) :=
  MkRequest (lit "gpt") [MkMessage (lit "user") (lit "Hi") None] 16 1 None None None None None None None None None [] None true.

(** A chunk whose content is an e with an acute accent, cut within the character. *)
Definition quoted (s : string) : list ascii := [chr 34] ++ chars s ++ [chr 34].

Definition chunk_bytes (body : list ascii) : list ascii :=
  chars "data: {" ++ quoted "choices" ++ chars ":[{" ++ quoted "delta" ++ chars ":{" ++ quoted "content" ++ chars ":" ++
  [chr 34] ++ body ++ [chr 34] ++ chars "}}]}" ++ [chr 10; chr 10].

Definition sample_pieces : list (list ascii) :=
  let b := chunk_bytes (chars "Caf" ++ [chr 195; chr 169]) ++ chunk_bytes (chars "!") ++ chars "data: [DONE]" ++ [chr 10; chr 10] in
  [take 49 b; drop 49 b].

(** The buffer is measured after a read and before its lines are taken: lines of
    three units overflow a buffer of eight when they arrive together. *)
Theorem short_lines_overflow :
  let line := chars "a:" ++ [chr 10] in
  parseSseStream 8 [Chunk line; Chunk line; Chunk line] = ([], None) /\
  parseSseStream 8 [Chunk (line ++ line ++ line)] = ([], Some PlainError).
Proof. vm_compute. done. Qed.

(** A payload that is the literal null ends the stream with an error, where other
    payloads without a text are passed over. *)
Theorem null_payload_fails :
  let null := chars "data: null" ++ [chr 10; chr 10] in
  let bad := chars "data: nothing" ++ [chr 10; chr 10] in
  let run := fun b => yields (generate (N := Z) (fun _ => true) sample_adapter sample_request (Response 200 (Throw PlainError) (Some [Chunk b])) (fun _ => false)) in
  run (bad ++ chunk_bytes (chars "x")) = [Start; Delta (lit "x"); Done (lit "x") (stream_usage None)] /\
  run (null ++ chunk_bytes (chars "x")) = [Start; Error "GENERATION_FAILED"].
Proof. vm_compute. done. Qed.

Definition whole_request : GenerationRequest (N := Z) :=
  MkRequest (lit "gpt") [MkMessage (lit "user") (lit "Hi") None] 16 1 None None None None None None None None None [] None false.

Definition whole_answer : json Z :=
  JObj [(lit "choices", JArr [JObj [(lit "message", JObj [(lit "content", JStr (lit "Hello"))])]])].


Lemma generation_exact_witness :
  yields (generate (N := Z) (fun _ => true) sample_adapter sample_request (Response 200 (Throw PlainError) (Some (map Chunk sample_pieces))) (fun _ => false)) =
  [Start; Delta (lit "Caf" ++ [233]); Delta (lit "!"); Done (lit "Caf" ++ [233; 33]) (stream_usage None)].
Proof.
  etransitivity; [apply (generation_exact (N := Z) (fun _ => true) sample_adapter sample_request 200 (Throw PlainError) sample_pieces 100 1000);
    [reflexivity | reflexivity | vm_compute; repeat constructor | | | vm_compute; discriminate] | vm_compute; reflexivity].
  - apply List.Forall_forall. intros l Hl. apply Z.leb_le. revert l Hl.
    apply (forallb_forall (fun l => length16 l <=? 100)). vm_compute. reflexivity.
  - apply List.Forall_forall. intros l Hl. apply Z.leb_le. revert l Hl.
    apply (forallb_forall (fun l => Z.of_nat (length l) <=? 1000)). vm_compute. reflexivity.
Defined.

End ProviderStream.
