(* ===== verification/Messages.v ===== *)
(** * Messages of a chat
    (packages/db: repositories/messages.ts, repositories/messageDrafts.ts, cursor.ts
    and the greeting of repositories/chats.ts)

    The tables of messages, of swipe variants, of previous contents and of drafts,
    with the transactions that the repositories run on them.  A table is the list
    of its rows; a unique index makes an insertion throw, and a transaction that
    throws leaves the tables as they were.  New identifiers are arguments. *)

From Stdlib Require Import ZArith Lia Bool Ascii String List Permutation Sorted.
From stdpp Require Import base decidable list sets sorting.
From S2P Require Import Prelude Codec Json.
Import Codec Json.
Local Open Scope Z_scope.

Module Messages.

Abbreviation text := (list Z).

(** ** Tables *)

Record MessageRow := MkRow {
  id : text;
  chatId : text;
  branchId : text;
  parentId : option text;
  role : text;
  content : text;
  name : option text;
  meta : text;
  createdAt : Z;
  revision : Z;
  updatedAt : option Z;
  idempotencyKey : option text;
  variantCount : Z;
  activeVariantPosition : option Z;
  contentRevisionCount : Z;
  checkpointChatId : option text
}.

(** Rows of [message_variants] and of [message_content_revisions]. *)
Record ArchiveRow := MkArchive {
  archiveId : text;
  messageId : text;
  position : Z;
  archived : text;
  archivedAt : Z
}.

Record DraftRow := MkDraft {
  draftId : text;
  draftChat : text;
  draftBranch : text;
  draftRole : text;
  draftContent : text;
  draftName : option text;
  draftMeta : text;
  sequence : Z;
  draftRevision : Z;
  committedMessageId : option text;
  draftCreatedAt : Z;
  draftUpdatedAt : Z
}.

Record Db := MkDb {
  messages : list MessageRow;
  messageVariants : list ArchiveRow;
  messageContentRevisions : list ArchiveRow;
  messageDrafts : list DraftRow
}.

Inductive DbError := UNIQUE_CONSTRAINT | MESSAGE_IDEMPOTENCY_RACE | SNAPSHOT_TARGET_UNREACHABLE.

Definition find_message (i : text) (db : Db) : option MessageRow := List.find (fun m => bool_decide (id m = i)) (messages db).

Definition with_messages (l : list MessageRow) (db : Db) : Db :=
  MkDb l (messageVariants db) (messageContentRevisions db) (messageDrafts db).

Definition with_variants (l : list ArchiveRow) (db : Db) : Db :=
  MkDb (messages db) l (messageContentRevisions db) (messageDrafts db).

Definition with_revisions (l : list ArchiveRow) (db : Db) : Db :=
  MkDb (messages db) (messageVariants db) l (messageDrafts db).

Definition with_drafts (l : list DraftRow) (db : Db) : Db :=
  MkDb (messages db) (messageVariants db) (messageContentRevisions db) l.

(** The primary key, and the key of an outbox, which is unique in its chat. *)
Definition same_key (a b : MessageRow) : bool :=
  match idempotencyKey a, idempotencyKey b with
  | Some j, Some k => bool_decide (chatId a = chatId b) && bool_decide (j = k)
  | _, _ => false
  end.

Definition insert_message (row : MessageRow) (db : Db) : outcome DbError Db :=
  if existsb (fun m => bool_decide (id m = id row) || same_key m row) (messages db) then Throw UNIQUE_CONSTRAINT
  else Ok (with_messages (messages db ++ [row]) db).

(** The primary key, and the position among the rows of the message. *)
Definition insert_archive (row : ArchiveRow) (table : list ArchiveRow) : outcome DbError (list ArchiveRow) :=
  if existsb (fun a => bool_decide (archiveId a = archiveId row) ||
                       (bool_decide (messageId a = messageId row) && (position a =? position row))) table
  then Throw UNIQUE_CONSTRAINT else Ok (table ++ [row]).

(** [UPDATE messages ... WHERE id = ?] with the row that results. *)
Definition write_row (row : MessageRow) (db : Db) : Db :=
  with_messages (map (fun m => if bool_decide (id m = id row) then row else m) (messages db)) db.

(** A row after a write at [now]: the revision is one higher. *)
Definition rewritten (m : MessageRow) (now : Z) (newRole newContent newMeta : text) (count : Z) (active : option Z) (revisions : Z)
    (checkpoint : option text) : MessageRow :=
  MkRow (id m) (chatId m) (branchId m) (parentId m) newRole newContent (name m) newMeta (createdAt m) (revision m + 1) (Some now)
    (idempotencyKey m) count active revisions checkpoint.

(** ** Operations on messages *)

Record MessageCreate := MkCreate {
  newRole : text;
  newContent : text;
  newParent : option text;
  newName : option text;
  newMeta : text;
  newKey : option text
}.

Definition created_row (newId chat branch : text) (input : MessageCreate) (now : Z) : MessageRow :=
  MkRow newId chat branch (newParent input) (newRole input) (newContent input) (newName input) (newMeta input) now 1 None (newKey input)
    1 (Some 0) 0 None.

Definition create (chat branch : text) (input : MessageCreate) (now : Z) (newId : text) (db : Db) : outcome DbError (Db * MessageRow) :=
  let row := created_row newId chat branch input now in
  match insert_message row db with
  | Ok db' => Ok (db', row)
  | Throw e =>
      match newKey input with
      | Some ((_ :: _) as key) =>
          match List.find (fun m => bool_decide (chatId m = chat) && bool_decide (idempotencyKey m = Some key)) (messages db) with
          | Some m => Ok (db, m)
          | None => Throw MESSAGE_IDEMPOTENCY_RACE
          end
      | _ => Throw e
      end
  end.

(** The greeting that a new chat starts with: the columns that are not given have
    their defaults. *)
Definition greeting_row (newId chat branch greeting greetingMeta : text) (now : Z) : MessageRow :=
  MkRow newId chat branch None (lit "assistant") greeting None greetingMeta now 1 None None 0 None 0 None.

Definition create_greeting (chat branch greeting greetingMeta : text) (now : Z) (newId : text) (db : Db) : outcome DbError Db :=
  insert_message (greeting_row newId chat branch greeting greetingMeta now) db.

Record MessageUpdate := MkUpdate {
  patchContent : option text;
  patchRole : option text;
  patchMeta : option text;
  patchCheckpoint : option (option text)
}.

Inductive UpdateResult :=
| Updated (m : MessageRow)
| Conflict (currentRevision : Z)
| Missing
| RevisionMissing.

(** The row that a guarded statement finds, or why it finds none. *)
Definition guarded (i : text) (expectedRevision : option Z) (db : Db) : UpdateResult :=
  match find_message i db with
  | None => Missing
  | Some m =>
      match expectedRevision with
      | Some e => if revision m =? e then Updated m else Conflict (revision m)
      | None => Updated m
      end
  end.

(** The content of [m] goes to its previous contents. *)
Definition archive_content (m : MessageRow) (newId : text) (db : Db) : outcome DbError Db :=
  match insert_archive (MkArchive newId (id m) (contentRevisionCount m) (content m)
          (match updatedAt m with Some t => t | None => createdAt m end)) (messageContentRevisions db) with
  | Ok l => Ok (with_revisions l db)
  | Throw e => Throw e
  end.

Definition orElse {A} (v : option A) (d : A) : A := match v with Some x => x | None => d end.

Definition update (i : text) (patch : MessageUpdate) (expectedRevision : option Z) (trackContentRevision : bool) (now : Z) (newId : text)
    (db : Db) : outcome DbError (Db * UpdateResult) :=
  match guarded i expectedRevision db with
  | Updated current =>
      let contentChanged := match patchContent patch with Some c => negb (bool_decide (c = content current)) | None => false end in
      let track := contentChanged && trackContentRevision in
      let row := rewritten current now (orElse (patchRole patch) (role current)) (orElse (patchContent patch) (content current))
        (orElse (patchMeta patch) (meta current)) (variantCount current) (activeVariantPosition current)
        (contentRevisionCount current + if track then 1 else 0) (orElse (patchCheckpoint patch) (checkpointChatId current)) in
      match (if track then archive_content current newId db else Ok db) with
      | Ok db' => Ok (write_row row db', Updated row)
      | Throw e => Throw e
      end
  | r => Ok (db, r)
  end.

(** The variants and previous contents go with their message. *)
Definition delete (i : text) (db : Db) : Db * bool :=
  let keep := fun a => negb (bool_decide (messageId a = i)) in
  (MkDb (List.filter (fun m => negb (bool_decide (id m = i))) (messages db)) (List.filter keep (messageVariants db))
     (List.filter keep (messageContentRevisions db)) (messageDrafts db),
   match find_message i db with Some _ => true | None => false end).

Definition restoreContentRevision (i revisionId : text) (expectedRevision now : Z) (newId : text) (db : Db) :
    outcome DbError (Db * UpdateResult) :=
  match guarded i (Some expectedRevision) db with
  | Updated current =>
      match List.find (fun a => bool_decide (archiveId a = revisionId) && bool_decide (messageId a = i)) (messageContentRevisions db) with
      | None => Ok (db, RevisionMissing)
      | Some selected =>
          if bool_decide (archived selected = content current) then Ok (db, Updated current)
          else
            match archive_content current newId db with
            | Ok db' =>
                let row := rewritten current now (role current) (archived selected) (meta current) (variantCount current)
                  (activeVariantPosition current) (contentRevisionCount current + 1) (checkpointChatId current) in
                Ok (write_row row db', Updated row)
            | Throw e => Throw e
            end
      end
  | r => Ok (db, r)
  end.

Definition setActiveVariant (i : text) (pos : Z) (expectedRevision : option Z) (now : Z) (newId : text) (db : Db) :
    outcome DbError (Db * UpdateResult) :=
  match guarded i expectedRevision db with
  | Updated message =>
      match List.find (fun a => bool_decide (messageId a = i) && (position a =? pos)) (messageVariants db) with
      | None => Ok (db, Missing)
      | Some variant =>
          let oldActive := orElse (activeVariantPosition message) 0 in
          match insert_archive (MkArchive newId i oldActive (content message) now) (messageVariants db) with
          | Ok l =>
              let row := rewritten message now (role message) (archived variant) (meta message) (variantCount message) (Some pos)
                (contentRevisionCount message) (checkpointChatId message) in
              let l' := List.filter (fun a => negb (bool_decide (archiveId a = archiveId variant))) l in
              Ok (write_row row (with_variants l' db), Updated row)
          | Throw e => Throw e
          end
      end
  | r => Ok (db, r)
  end.

Definition activateVariant (i variantId : text) (expectedRevision : option Z) (now : Z) (newId : text) (db : Db) :
    outcome DbError (Db * UpdateResult) :=
  match List.find (fun a => bool_decide (archiveId a = variantId) && bool_decide (messageId a = i)) (messageVariants db) with
  | None => Ok (db, Missing)
  | Some variant => setActiveVariant i (position variant) expectedRevision now newId db
  end.

Definition replaceContentAsVariant (i archive newText replacedMeta : text) (now : Z) (newId : text) (db : Db) :
    outcome DbError (Db * UpdateResult) :=
  match find_message i db with
  | None => Ok (db, Missing)
  | Some message =>
      match insert_archive (MkArchive newId i (orElse (activeVariantPosition message) 0) archive now) (messageVariants db) with
      | Ok l =>
          let row := rewritten message now (role message) newText replacedMeta (variantCount message + 1) (Some (variantCount message))
            (contentRevisionCount message) (checkpointChatId message) in
          Ok (write_row row (with_variants l db), Updated row)
      | Throw e => Throw e
      end
  end.

Definition linkCheckpoint (i childChat : text) (now : Z) (db : Db) : Db * bool :=
  match find_message i db with
  | Some m =>
      (write_row (rewritten m now (role m) (content m) (meta m) (variantCount m) (activeVariantPosition m) (contentRevisionCount m)
        (Some childChat)) db, true)
  | None => (db, false)
  end.

(** ** Drafts *)

Definition find_draft (i : text) (db : Db) : option DraftRow := List.find (fun d => bool_decide (draftId d = i)) (messageDrafts db).

Definition write_draft (row : DraftRow) (db : Db) : Db :=
  with_drafts (map (fun d => if bool_decide (draftId d = draftId row) then row else d) (messageDrafts db)) db.

Definition createDraft (chat branch : text) (draftRole : option text) (draftName : option text) (draftMeta : text) (now : Z) (newId : text)
    (db : Db) : outcome DbError Db :=
  if existsb (fun d => bool_decide (draftId d = newId)) (messageDrafts db) then Throw UNIQUE_CONSTRAINT
  else Ok (with_drafts (messageDrafts db ++ [MkDraft newId chat branch (orElse draftRole (lit "assistant")) [] draftName draftMeta 0 1 None now now]) db).

Inductive DraftStatus := Applied | Stale | DraftMissing.

Definition updateDraft (i : text) (newText newRole : option text) (seq : option Z) (now : Z) (db : Db) : Db * DraftStatus :=
  match find_draft i db with
  | None => (db, DraftMissing)
  | Some d =>
      if match seq with Some s => s <=? sequence d | None => false end then (db, Stale)
      else
        (write_draft (MkDraft (draftId d) (draftChat d) (draftBranch d) (orElse newRole (draftRole d)) (orElse newText (draftContent d))
           (draftName d) (draftMeta d) (orElse seq (sequence d)) (draftRevision d + 1) (committedMessageId d) (draftCreatedAt d) now) db, Applied)
  end.

Inductive CommitResult :=
| Committed (messageId : text) (alreadyCommitted : bool)
| CommitMissing.

Definition draft_message (d : DraftRow) (newId : text) (now : Z) : MessageRow :=
  MkRow newId (draftChat d) (draftBranch d) None (draftRole d) (draftContent d) (draftName d) (draftMeta d) now 1 None None 1 (Some 0) 0 None.

Definition commitDraft (i : text) (now : Z) (newId : text) (db : Db) : outcome DbError (Db * CommitResult) :=
  match find_draft i db with
  | None => Ok (db, CommitMissing)
  | Some d =>
      match committedMessageId d with
      | Some ((_ :: _) as m) => Ok (db, Committed m true)
      | _ =>
          match insert_message (draft_message d newId now) db with
          | Ok db' =>
              Ok (write_draft (MkDraft (draftId d) (draftChat d) (draftBranch d) (draftRole d) (draftContent d) (draftName d) (draftMeta d)
                    (sequence d) (draftRevision d) (Some newId) (draftCreatedAt d) now) db', Committed newId false)
          | Throw e => Throw e
          end
      end
  end.

Definition abortDraft (i : text) (db : Db) : Db :=
  with_drafts (List.filter (fun d => negb (bool_decide (draftId d = i))) (messageDrafts db)) db.

Definition swept (now committedTtlMs uncommittedTtlMs : Z) (d : DraftRow) : bool :=
  match committedMessageId d with
  | Some _ => draftUpdatedAt d <? now - committedTtlMs
  | None => draftUpdatedAt d <? now - uncommittedTtlMs
  end.

Definition sweepDrafts (now committedTtlMs uncommittedTtlMs : Z) (db : Db) : Db :=
  with_drafts (List.filter (fun d => negb (swept now committedTtlMs uncommittedTtlMs d)) (messageDrafts db)) db.

(** ** Reading in pages *)

(** The order of rows: by time, then by identifier (bytes of UTF-8 compare like code
    points). *)
Definition key_cmp (a b : Z * text) : Z := if zcmp a.1 b.1 =? 0 then list_cmp zcmp a.2 b.2 else zcmp a.1 b.1.
Definition row_key (m : MessageRow) : Z * text := (createdAt m, id m).
Definition asc (a b : MessageRow) : bool := key_cmp (row_key a) (row_key b) <=? 0.
Definition desc (a b : MessageRow) : bool := asc b a.

(** [Buffer.toString('base64url')]: the URL alphabet without padding. *)
Definition url_char (c : ascii) : ascii := if (c =? "+")%char then "-"%char else if (c =? "/")%char then "_"%char else c.
Definition encode64url (l : list ascii) : list ascii := map url_char (List.filter (fun c => negb (c =? "=")%char) (encode64 l)).

Definition encodeCursor (c : Z) (i : text) : list ascii :=
  encode64url (utf8_bytes (stringify (N := Z) (JObj [(lit "c", JNum c); (lit "i", JStr i)]))).

Definition decodeCursor (cursor : option (list ascii)) : option (list (text * json Z)) :=
  match cursor with
  | None | Some [] => None
  | Some l => match Json.parse (N := Z) (of_utf8 (decode64 l)) with Some (JObj o) => Some o | _ => None end
  end.

Definition cursor_key (cursor : option (list ascii)) : option (Z * text) :=
  match decodeCursor cursor with
  | Some o => match map_get (lit "c") o, map_get (lit "i") o with Some (JNum c), Some (JStr i) => Some (c, i) | _, _ => None end
  | None => None
  end.

Record Page := MkPage { items : list MessageRow; nextCursor : option (list ascii); hasMore : bool }.

Definition beyond (ascending : bool) (key : option (Z * text)) (m : MessageRow) : bool :=
  match key with
  | None => true
  | Some k => if ascending then key_cmp k (row_key m) <? 0 else key_cmp (row_key m) k <? 0
  end.

Definition list_page (chat : text) (branch : option text) (cursor : option (list ascii)) (limit : nat) (ascending : bool) (db : Db) : Page :=
  let selected := List.filter (fun m => bool_decide (chatId m = chat) &&
      match branch with Some ((_ :: _) as b) => bool_decide (branchId m = b) | _ => true end &&
      beyond ascending (cursor_key cursor) m) (messages db) in
  let rows := take (S limit) (stable_sort (if ascending then asc else desc) selected) in
  let more := Nat.ltb limit (length rows) in
  let page := if more then take limit rows else rows in
  MkPage page (if more then match last page with Some m => Some (encodeCursor (createdAt m) (id m)) | None => None end else None) more.

Definition recentAscending (chat branch : text) (count : nat) (db : Db) : list MessageRow :=
  rev (take count (stable_sort desc (List.filter (fun m => bool_decide (chatId m = chat) && bool_decide (branchId m = branch)) (messages db)))).

Definition count_messages (chat branch : text) (db : Db) : Z :=
  Z.of_nat (length (List.filter (fun m => bool_decide (chatId m = chat) && bool_decide (branchId m = branch)) (messages db))).

(** The loop over pages, from a cursor on; [fuel] bounds the number of pages. *)
Fixpoint walk_pages (fuel limit : nat) (chat : text) (branch : option text) (ascending : bool) (cursor : option (list ascii)) (db : Db) :
    option (list MessageRow) :=
  match fuel with
  | O => None
  | S f =>
      let page := list_page chat branch cursor limit ascending db in
      if negb (hasMore page) then Some (items page)
      else match nextCursor page with
           | None => Some (items page)
           | Some c => match walk_pages f limit chat branch ascending (Some c) db with Some l => Some (items page ++ l) | None => None end
           end
  end.

Definition exportAll (chat : text) (db : Db) : option (list MessageRow) :=
  walk_pages (S (length (messages db))) 1000 chat None true None db.

(** ** Runs *)

Inductive Op :=
| Create (chat branch : text) (input : MessageCreate) (now : Z) (newId : text)
| CreateGreeting (chat branch greeting greetingMeta : text) (now : Z) (newId : text)
| Update (i : text) (patch : MessageUpdate) (expectedRevision : option Z) (trackContentRevision : bool) (now : Z) (newId : text)
| Delete (i : text)
| Restore (i revisionId : text) (expectedRevision now : Z) (newId : text)
| SetActive (i : text) (pos : Z) (expectedRevision : option Z) (now : Z) (newId : text)
| Activate (i variantId : text) (expectedRevision : option Z) (now : Z) (newId : text)
| Replace (i archive newText replacedMeta : text) (now : Z) (newId : text)
| LinkCheckpoint (i childChat : text) (now : Z)
| CreateDraft (chat branch : text) (r n : option text) (m : text) (now : Z) (newId : text)
| UpdateDraft (i : text) (newText r : option text) (seq : option Z) (now : Z)
| CommitDraft (i : text) (now : Z) (newId : text)
| AbortDraft (i : text)
| SweepDrafts (now committedTtlMs uncommittedTtlMs : Z).

Definition tables {A} (r : outcome DbError (Db * A)) : outcome DbError Db :=
  match r with Ok (db, _) => Ok db | Throw e => Throw e end.

(** The tables after a transaction that commits. *)
Definition exec (db : Db) (op : Op) : outcome DbError Db :=
  match op with
  | Create c b input now n => tables (create c b input now n db)
  | CreateGreeting c b g m now n => create_greeting c b g m now n db
  | Update i p e t now n => tables (update i p e t now n db)
  | Delete i => Ok (fst (delete i db))
  | Restore i r e now n => tables (restoreContentRevision i r e now n db)
  | SetActive i p e now n => tables (setActiveVariant i p e now n db)
  | Activate i v e now n => tables (activateVariant i v e now n db)
  | Replace i a t m now n => tables (replaceContentAsVariant i a t m now n db)
  | LinkCheckpoint i c now => Ok (fst (linkCheckpoint i c now db))
  | CreateDraft c b r n m now i => createDraft c b r n m now i db
  | UpdateDraft i t r s now => Ok (fst (updateDraft i t r s now db))
  | CommitDraft i now n => tables (commitDraft i now n db)
  | AbortDraft i => Ok (abortDraft i db)
  | SweepDrafts now c u => Ok (sweepDrafts now c u db)
  end.

Definition step (db : Db) (op : Op) : Db := match exec db op with Ok db' => db' | Throw _ => db end.

(** The identifiers that an operation makes. *)
Definition new_ids (op : Op) : list text :=
  match op with
  | Create _ _ _ _ n | CreateGreeting _ _ _ _ _ n | Update _ _ _ _ _ n | Restore _ _ _ _ n | SetActive _ _ _ _ n | Activate _ _ _ _ n
  | Replace _ _ _ _ _ n | CreateDraft _ _ _ _ _ _ n | CommitDraft _ _ n => [n]
  | Delete _ | LinkCheckpoint _ _ _ | UpdateDraft _ _ _ _ _ | AbortDraft _ | SweepDrafts _ _ _ => []
  end.

(** Keys of an outbox are not empty, and the content that is replaced is not a
    greeting that has never been replaced (see [greeting_regenerated]). *)
Definition allowed (db : Db) (op : Op) : Prop :=
  match op with
  | Create _ _ input _ _ => newKey input <> Some []
  | Replace i _ _ _ _ _ => match find_message i db with Some m => activeVariantPosition m <> None | None => True end
  | _ => True
  end.

Definition empty : Db := MkDb [] [] [] [].

Inductive reachable : list text -> Db -> Prop :=
| reach_empty : reachable [] empty
| reach_step used db op : reachable used db -> Forall (fun i => i <> [] /\ i ∉ used) (new_ids op) -> allowed db op ->
    reachable (new_ids op ++ used) (step db op).

(** Any sequence of operations with new identifiers, also those that are not [allowed];
    what fails is rolled back. *)
Inductive reached : list text -> Db -> Prop :=
| reached_empty : reached [] empty
| reached_step used db op : reached used db -> Forall (fun i => i <> [] /\ i ∉ used) (new_ids op) ->
    reached (new_ids op ++ used) (step db op).

(** *** Invariants *)

Definition positions (i : text) (table : list ArchiveRow) : list Z :=
  map position (List.filter (fun a => bool_decide (messageId a = i)) table).

(** The positions of the archived variants and the active one are those below the
    number of variants; a greeting has no variants yet. *)
Definition variants_ok (m : MessageRow) (ps : list Z) : Prop :=
  match activeVariantPosition m with
  | None => ps = [] /\ variantCount m = 0
  | Some p => NoDup (p :: ps) /\ Forall (fun x => 0 <= x < variantCount m) (p :: ps) /\ variantCount m = Z.of_nat (length ps) + 1
  end.

(** A greeting that has been replaced once: its old text is at the active position. *)
Definition clashed (m : MessageRow) (ps : list Z) : Prop := activeVariantPosition m = Some 0 /\ variantCount m = 1 /\ ps = [0].

Definition revisions_ok (m : MessageRow) (ps : list Z) : Prop :=
  NoDup ps /\ Forall (fun x => 0 <= x < contentRevisionCount m) ps /\ contentRevisionCount m = Z.of_nat (length ps).

Definition table_ok (used ids : list text) (t : list ArchiveRow) : Prop :=
  NoDup (map archiveId t) /\ Forall (fun a => archiveId a ∈ used /\ messageId a ∈ ids) t.

Definition ids (db : Db) : list text := map id (messages db).

Definition draft_ok (used : list text) (d : DraftRow) : Prop :=
  draftId d ∈ used /\ match committedMessageId d with Some m => m ∈ used /\ m <> [] | None => True end.

Section Invariant.
(** Whether no greeting has been replaced that never was before. *)
Context {strict : bool}.

Definition row_variants (m : MessageRow) (ps : list Z) : Prop := variants_ok m ps \/ strict = false /\ clashed m ps.

Record wf_with (used : list text) (db : Db) : Prop := {
  wf_ids : NoDup (ids db);
  wf_used : Forall (fun i => i ∈ used) (ids db);
  wf_variants : table_ok used (ids db) (messageVariants db);
  wf_revisions : table_ok used (ids db) (messageContentRevisions db);
  wf_rows : Forall (fun m => row_variants m (positions (id m) (messageVariants db)) /\
                             revisions_ok m (positions (id m) (messageContentRevisions db))) (messages db);
  wf_drafts : NoDup (map draftId (messageDrafts db)) /\ NoDup (omap committedMessageId (messageDrafts db)) /\
              Forall (draft_ok used) (messageDrafts db)
}.

Abbreviation wf := wf_with.

Lemma positions_app i a b : positions i (a ++ b) = positions i a ++ positions i b.
Proof. unfold positions. by rewrite List.filter_app, map_app. Qed.

Lemma positions_one i a : positions i [a] = if bool_decide (messageId a = i) then [position a] else [].
Proof. unfold positions. cbn. by case_bool_decide. Qed.

Lemma elem_positions i p t : p ∈ positions i t <-> exists a, a ∈ t /\ messageId a = i /\ position a = p.
Proof.
  unfold positions. rewrite elem_of_In, in_map_iff. split.
  - intros (a & <- & Ha). apply filter_In in Ha as [Ha Hi]. apply bool_decide_eq_true in Hi. exists a. by rewrite elem_of_In.
  - intros (a & Ha & Hi & <-). exists a. split; [done|]. apply filter_In. rewrite <- elem_of_In. split; [done|]. by apply bool_decide_eq_true.
Qed.

Lemma insert_archive_ok row t :
  archiveId row ∉ map archiveId t -> position row ∉ positions (messageId row) t -> insert_archive row t = Ok (t ++ [row]).
Proof.
  intros Hi Hp. unfold insert_archive. destruct (existsb _ t) eqn:E; [|done]. exfalso. apply existsb_exists in E as (a & Ha & E).
  apply elem_of_In in Ha. apply orb_true_iff in E as [E|E].
  - apply bool_decide_eq_true in E. apply Hi. rewrite <- E. rewrite elem_of_In. by apply in_map, elem_of_In.
  - apply andb_true_iff in E as [E1 E2]. apply bool_decide_eq_true in E1. apply Z.eqb_eq in E2. apply Hp, elem_positions. by exists a.
Qed.

Lemma find_message_Some i db m : find_message i db = Some m -> m ∈ messages db /\ id m = i.
Proof. intros H. apply List.find_some in H as [Hm Hi]. apply bool_decide_eq_true in Hi. by rewrite elem_of_In. Qed.

Lemma find_message_None i db : find_message i db = None -> i ∉ ids db.
Proof.
  intros H Hi. unfold ids in Hi. rewrite elem_of_In, in_map_iff in Hi. destruct Hi as (m & Hm & Hin).
  pose proof (List.find_none _ _ H m Hin) as Hn. by apply bool_decide_eq_false in Hn.
Qed.

Lemma same_id db a b : NoDup (ids db) -> a ∈ messages db -> b ∈ messages db -> id a = id b -> a = b.
Proof.
  unfold ids. intros Hnd Ha Hb E. induction (messages db) as [|m l IH]; [by apply not_elem_of_nil in Ha|].
  cbn [map] in Hnd. apply NoDup_cons in Hnd as [Hm Hnd]. rewrite elem_of_cons in Ha, Hb.
  assert (Hin : forall x, x ∈ l -> id x ∈ map id l) by (intros x Hx; rewrite elem_of_In; by apply in_map, elem_of_In).
  destruct Ha as [->|Ha], Hb as [->|Hb]; [done|..|by apply IH]; exfalso; apply Hm; [rewrite E|rewrite <- E]; by apply Hin.
Qed.

Lemma ids_write row db : ids (write_row row db) = ids db.
Proof.
  unfold ids, write_row. cbn [messages with_messages]. rewrite map_map. apply map_ext. intros m. by case_bool_decide.
Qed.

Lemma elem_write m row db : m ∈ messages (write_row row db) -> m = row \/ (m ∈ messages db /\ id m <> id row).
Proof.
  unfold write_row. cbn [messages with_messages]. rewrite !elem_of_In, in_map_iff. intros (x & E & Hx).
  case_bool_decide; [by left|]. right. by subst.
Qed.

Lemma table_ok_weaken used used' l l' t :
  (forall i, i ∈ used -> i ∈ used') -> (forall i, i ∈ l -> i ∈ l') -> table_ok used l t -> table_ok used' l' t.
Proof.
  intros H1 H2 [Hn Hf]. split; [done|]. eapply List.Forall_impl; [|exact Hf]. intros a [Ha Hb]. auto.
Qed.

Lemma table_ok_insert used l t a :
  table_ok used l t -> archiveId a ∉ used -> messageId a ∈ l -> table_ok (archiveId a :: used) l (t ++ [a]).
Proof.
  intros [Hn Hf] Ha Hi. split.
  - rewrite map_app. cbn [map]. apply NoDup_app. split_and!; [done| |apply NoDup_singleton]. intros x Hx Hx'.
    apply list_elem_of_singleton in Hx' as ->. rewrite elem_of_In, in_map_iff in Hx. destruct Hx as (b & Eb & Hb).
    rewrite List.Forall_forall in Hf. apply Ha. rewrite <- Eb. by apply Hf.
  - apply List.Forall_app. split; [|constructor; [split; [by left|done]|done]].
    eapply List.Forall_impl; [|exact Hf]. intros b [Hb Hb']. split; [by right|done].
Qed.

Lemma table_ok_fresh used l t i : table_ok used l t -> i ∉ used -> i ∉ map archiveId t.
Proof.
  intros [_ Hf] Hi H. rewrite elem_of_In, in_map_iff in H. destruct H as (a & <- & Ha). rewrite List.Forall_forall in Hf.
  by apply Hi, Hf.
Qed.

Lemma table_ok_filter used l t f : table_ok used l t -> table_ok used l (List.filter f t).
Proof.
  intros [Hn Hf]. split.
  - eapply sublist_NoDup; [exact Hn|]. rewrite <- !list_fmap_map. apply fmap_sublist, filter_sublist.
  - rewrite List.Forall_forall in Hf |- *. intros a [Ha _]%filter_In. by apply Hf.
Qed.

(** A write of a row, with the archives of its message. *)
Lemma write_wf used used' db m row V R :
  wf used db -> m ∈ messages db -> id row = id m -> (forall i, i ∈ used -> i ∈ used') ->
  table_ok used' (ids db) V -> table_ok used' (ids db) R ->
  (forall i, i <> id m -> positions i V = positions i (messageVariants db)) ->
  (forall i, i <> id m -> positions i R = positions i (messageContentRevisions db)) ->
  row_variants row (positions (id m) V) -> revisions_ok row (positions (id m) R) ->
  wf used' (write_row row (MkDb (messages db) V R (messageDrafts db))).
Proof.
  intros [H1 H2 H3 H4 H5 H6] Hm Hid Hu HV HR HVo HRo Hv Hr. set (db' := MkDb (messages db) V R (messageDrafts db)).
  assert (Hids : ids (write_row row db') = ids db) by apply (ids_write row db').
  split; rewrite ?Hids; try done.
  - eapply List.Forall_impl; [|exact H2]. auto.
  - apply List.Forall_forall. intros x Hx. apply elem_of_In, elem_write in Hx as [->|[Hx Hne]].
    + rewrite Hid. by split.
    + rewrite Hid in Hne. cbn [messageVariants messageContentRevisions with_messages write_row db'].
      rewrite HVo, HRo by done. rewrite List.Forall_forall in H5. by apply H5, elem_of_In.
  - destruct H6 as (Ha & Hb & Hc). split_and!; [done|done|]. eapply List.Forall_impl; [|exact Hc]. intros d [Hd Hd'].
    split; [by apply Hu|]. destruct (committedMessageId d); [|done]. destruct Hd'. auto.
Qed.

Lemma wf_weaken used used' db : (forall i, i ∈ used -> i ∈ used') -> wf used db -> wf used' db.
Proof.
  intros Hu [H1 H2 H3 H4 H5 (H6 & H7 & H8)]. split; try done.
  - eapply List.Forall_impl; [|exact H2]. auto.
  - by eapply table_ok_weaken.
  - by eapply table_ok_weaken.
  - split_and!; [done|done|]. eapply List.Forall_impl; [|exact H8]. intros d [Hd Hd']. split; [by apply Hu|].
    destruct (committedMessageId d); [|done]. destruct Hd'. auto.
Qed.

Lemma wf_row used db m : wf used db -> m ∈ messages db ->
  row_variants m (positions (id m) (messageVariants db)) /\ revisions_ok m (positions (id m) (messageContentRevisions db)).
Proof. intros H Hm. pose proof (wf_rows _ _ H) as Hr. rewrite List.Forall_forall in Hr. by apply Hr, elem_of_In. Qed.

Lemma id_elem db m : m ∈ messages db -> id m ∈ ids db.
Proof. intros Hm. unfold ids. rewrite elem_of_In. by apply in_map, elem_of_In. Qed.

Lemma guarded_Updated i e db m :
  guarded i e db = Updated m -> m ∈ messages db /\ id m = i /\ match e with Some e => revision m = e | None => True end.
Proof.
  unfold guarded. destruct (find_message i db) as [x|] eqn:E; [|done]. apply find_message_Some in E as [Hx Hi].
  destruct e as [e|]; [|by intros [= ->]]. destruct (Z.eqb_spec (revision x) e); [|done]. by intros [= ->].
Qed.

(** A new position of the previous contents. *)
Lemma next_revision m ps : revisions_ok m ps ->
  contentRevisionCount m ∉ ps /\ forall row, contentRevisionCount row = contentRevisionCount m + 1 -> revisions_ok row (ps ++ [contentRevisionCount m]).
Proof.
  intros (Hn & Hf & Hc). assert (Hnin : contentRevisionCount m ∉ ps).
  { intros H. rewrite List.Forall_forall in Hf. apply elem_of_In, Hf in H. lia. }
  split; [done|]. intros row Hrow. split_and!.
  - apply NoDup_app. split_and!; [done| |apply NoDup_singleton]. intros x Hx ->%list_elem_of_singleton. done.
  - rewrite Hrow. apply List.Forall_app. split; [|repeat constructor; lia]. eapply List.Forall_impl; [|exact Hf]. cbn. lia.
  - rewrite Hrow, length_app, Hc. cbn [length]. lia.
Qed.

Definition content_archive (m : MessageRow) (newId : text) : ArchiveRow :=
  MkArchive newId (id m) (contentRevisionCount m) (content m) (orElse (updatedAt m) (createdAt m)).

Lemma archive_content_Ok used db m newId :
  wf used db -> m ∈ messages db -> newId ∉ used ->
  archive_content m newId db = Ok (with_revisions (messageContentRevisions db ++ [content_archive m newId]) db).
Proof.
  intros Hwf Hm Hn. unfold archive_content.
  change (match updatedAt m with Some t => t | None => createdAt m end) with (orElse (updatedAt m) (createdAt m)).
  change (MkArchive newId _ _ _ _) with (content_archive m newId). rewrite insert_archive_ok; [done|..].
  - cbn [archiveId content_archive]. eapply table_ok_fresh; [apply Hwf|done].
  - apply next_revision. by apply (wf_row used).
Qed.

(** A row whose content goes to its previous contents, or stays there. *)
Lemma rewrite_wf used db m row newId :
  wf used db -> m ∈ messages db -> newId ∉ used -> id row = id m -> variantCount row = variantCount m ->
  activeVariantPosition row = activeVariantPosition m ->
  (contentRevisionCount row = contentRevisionCount m -> wf (newId :: used) (write_row row db)) /\
  (contentRevisionCount row = contentRevisionCount m + 1 ->
     wf (newId :: used) (write_row row (with_revisions (messageContentRevisions db ++ [content_archive m newId]) db))).
Proof.
  intros Hwf Hm Hn Hid Hc Ha. destruct (wf_row _ _ _ Hwf Hm) as [Hv Hr].
  assert (Hu : forall i, i ∈ used -> i ∈ newId :: used) by (intros i; by right).
  assert (Hv' : row_variants row (positions (id m) (messageVariants db))) by (unfold row_variants, clashed, variants_ok in *; by rewrite Ha, Hc).
  split; intros Hcr.
  - replace db with (MkDb (messages db) (messageVariants db) (messageContentRevisions db) (messageDrafts db)) at 1 by (by destruct db).
    eapply write_wf; try done; try (eapply table_ok_weaken; [exact Hu|done|apply Hwf]). unfold revisions_ok in *. by rewrite Hcr.
  - eapply write_wf; try done.
    + eapply table_ok_weaken; [exact Hu|done|apply Hwf].
    + apply (table_ok_insert used (ids db) _ (content_archive m newId)); [apply Hwf|done|by apply id_elem].
    + intros i Hi. rewrite positions_app, positions_one. cbn [messageId content_archive]. rewrite bool_decide_false by congruence. apply app_nil_r.
    + rewrite positions_app, positions_one. cbn [messageId content_archive position]. rewrite bool_decide_true by done.
      by apply (next_revision m).
Qed.

Lemma update_ok used db i p e t now n : wf used db -> n ∉ used ->
  exists db', tables (update i p e t now n db) = Ok db' /\ wf (n :: used) db'.
Proof.
  intros Hwf Hn. unfold update. destruct (guarded i e db) as [m| | |] eqn:G; cbn [tables];
    try (eexists; split; [done|]; eapply wf_weaken; [|done]; by right).
  apply guarded_Updated in G as (Hm & <- & _). set (row := rewritten _ _ _ _ _ _ _ _ _).
  destruct (rewrite_wf used db m row n) as [Hs Ht]; try done.
  destruct (_ && t) eqn:Et; cbn [row rewritten contentRevisionCount] in Hs, Ht.
  - rewrite (archive_content_Ok used) by done. cbn [tables]. eexists. split; [done|]. by apply Ht.
  - cbn [tables]. eexists. split; [done|]. apply Hs. lia.
Qed.

Lemma restore_ok used db i r e now n : wf used db -> n ∉ used ->
  exists db', tables (restoreContentRevision i r e now n db) = Ok db' /\ wf (n :: used) db'.
Proof.
  intros Hwf Hn. assert (Hsame : wf (n :: used) db) by (eapply wf_weaken; [|done]; by right).
  unfold restoreContentRevision. destruct (guarded i _ db) as [m| | |] eqn:G; cbn [tables]; try (by eexists).
  apply guarded_Updated in G as (Hm & <- & _). destruct (List.find _ _) as [a|]; [|by eexists].
  case_bool_decide; [by eexists|]. rewrite (archive_content_Ok used) by done. cbn [tables]. eexists. split; [done|].
  by eapply rewrite_wf.
Qed.

Lemma checkpoint_ok used db i c now : wf used db -> wf used (fst (linkCheckpoint i c now db)).
Proof.
  intros Hwf. unfold linkCheckpoint. destruct (find_message i db) as [m|] eqn:F; [|done]. apply find_message_Some in F as [Hm <-].
  destruct (wf_row _ _ _ Hwf Hm) as [Hv Hr]. cbn [fst].
  replace db with (MkDb (messages db) (messageVariants db) (messageContentRevisions db) (messageDrafts db)) at 3 by (by destruct db).
  by eapply write_wf; try done; apply Hwf.
Qed.

Lemma positions_keep i f t : (forall a, a ∈ t -> messageId a = i -> f a = true) -> positions i (List.filter f t) = positions i t.
Proof.
  intros H. unfold positions. f_equal. induction t as [|a t IH]; [done|]. cbn [List.filter].
  assert (IH' : List.filter (fun a => bool_decide (messageId a = i)) (List.filter f t) = List.filter (fun a => bool_decide (messageId a = i)) t)
    by (apply IH; intros b Hb; apply H; by right).
  destruct (f a) eqn:Ef; cbn [List.filter]; [by rewrite IH'|]. case_bool_decide; [|done].
  rewrite H in Ef; [done|by left|done].
Qed.

Lemma positions_perm i a b : a ≡ₚ b -> positions i a ≡ₚ positions i b.
Proof.
  induction 1 as [|x a b _ IH|x y a|a b c _ IH1 _ IH2]; [done| | |by rewrite IH1].
  - change (x :: a) with ([x] ++ a). change (x :: b) with ([x] ++ b). by rewrite !positions_app, IH.
  - change (y :: x :: a) with ([y] ++ [x] ++ a). change (x :: y :: a) with ([x] ++ [y] ++ a). rewrite !positions_app.
    by rewrite !app_assoc, (Permutation_app_comm (positions i [y])).
Qed.

Definition others (v : ArchiveRow) (t : list ArchiveRow) : list ArchiveRow :=
  List.filter (fun a => negb (bool_decide (archiveId a = archiveId v))) t.

Lemma others_perm v t : NoDup (map archiveId t) -> v ∈ t -> t ≡ₚ v :: others v t.
Proof.
  induction t as [|a t IH]; [by intros _ ?%not_elem_of_nil|]. cbn [map]. intros [Ha Hn]%NoDup_cons [->|Hv]%elem_of_cons.
  - unfold others. cbn [List.filter]. rewrite bool_decide_true by done. cbn [negb]. f_equiv. rewrite filter_all; [done|].
    intros b Hb. apply negb_true_iff, bool_decide_eq_false. intros E. apply Ha. rewrite <- E, elem_of_In. by apply in_map, elem_of_In.
  - unfold others. cbn [List.filter]. rewrite bool_decide_false.
    + cbn [negb]. rewrite (IH Hn Hv) at 1. apply perm_swap.
    + intros E. apply Ha. rewrite E, elem_of_In. by apply in_map, elem_of_In.
Qed.

Lemma variants_ok_perm m ps qs p p' :
  activeVariantPosition m = Some p -> variants_ok m ps -> p' :: qs ≡ₚ p :: ps ->
  forall row, activeVariantPosition row = Some p' -> variantCount row = variantCount m -> variants_ok row qs.
Proof.
  intros Hp Hv HP row Hr Hc. unfold variants_ok in *. rewrite Hp in Hv. rewrite Hr, Hc. destruct Hv as (H1 & H2 & H3). split_and!.
  - by rewrite HP.
  - rewrite List.Forall_forall in H2 |- *. intros x Hx. apply H2. by apply (Permutation_in _ HP).
  - apply Permutation_length in HP. cbn [length] in HP. lia.
Qed.

(** An operation keeps the invariant, or fails as only one on a clashed message or with an
    empty key does. *)
Definition keeps (used : list text) (r : outcome DbError Db) : Prop :=
  match r with Ok db' => wf used db' | Throw _ => strict = false end.

Lemma keeps_ok used r : (exists db', r = Ok db' /\ wf used db') -> keeps used r.
Proof. by intros (db' & -> & H). Qed.

(** An archive at the position of another of its message is refused. *)
Lemma insert_archive_clash row t : position row ∈ positions (messageId row) t -> insert_archive row t = Throw UNIQUE_CONSTRAINT.
Proof.
  intros (a & Ha & Hi & Hp)%elem_positions. unfold insert_archive. destruct (existsb _ t) eqn:E; [done|]. exfalso.
  apply not_true_iff_false in E. apply E, existsb_exists. exists a. split; [by apply elem_of_In|].
  rewrite Hi, Hp, Z.eqb_refl, (bool_decide_true (messageId row = messageId row)) by done. by rewrite orb_true_r.
Qed.

Lemma set_active_ok used db i pos e now n : wf used db -> n ∉ used -> keeps (n :: used) (tables (setActiveVariant i pos e now n db)).
Proof.
  intros Hwf Hn. assert (Hu : forall i, i ∈ used -> i ∈ n :: used) by (intros x; by right).
  assert (Hsame : wf (n :: used) db) by (by eapply wf_weaken).
  unfold setActiveVariant. destruct (guarded i e db) as [m| | |] eqn:G; cbn [tables]; try done.
  apply guarded_Updated in G as (Hm & <- & _). destruct (List.find _ _) as [v|] eqn:F; [|done].
  apply List.find_some in F as [Hv F]. apply elem_of_In in Hv. apply andb_true_iff in F as [Fi Fp].
  apply bool_decide_eq_true in Fi. apply Z.eqb_eq in Fp.
  destruct (wf_row _ _ _ Hwf Hm) as [Hvo Hro]. assert (Hpos : pos ∈ positions (id m) (messageVariants db)).
  { apply elem_positions. by exists v. }
  destruct Hvo as [Hvo|(Hs & Ha & _ & Hps)].
  2: { rewrite Ha. cbn [orElse]. rewrite insert_archive_clash; [done|]. cbn [position messageId]. rewrite Hps. by left. }
  destruct (activeVariantPosition m) as [p|] eqn:Ep;
    [|unfold variants_ok in Hvo; rewrite Ep in Hvo; destruct Hvo as [Hvo _]; rewrite Hvo in Hpos; by apply not_elem_of_nil in Hpos].
  cbn [orElse]. set (a := MkArchive n (id m) p (content m) now).
  assert (Hfresh : n ∉ map archiveId (messageVariants db)) by (eapply table_ok_fresh; [apply Hwf|done]).
  assert (Hp : p ∉ positions (id m) (messageVariants db)).
  { unfold variants_ok in Hvo. rewrite Ep in Hvo. destruct Hvo as [[Hp _]%NoDup_cons _]. done. }
  rewrite insert_archive_ok by done. cbn [tables keeps].
  pose proof (wf_variants _ _ Hwf) as Ht. destruct (Ht) as [Hnd _].
  assert (HV : List.filter (fun a0 => negb (bool_decide (archiveId a0 = archiveId v))) (messageVariants db ++ [a]) = others v (messageVariants db) ++ [a]).
  { rewrite List.filter_app. f_equal. cbn [List.filter]. rewrite bool_decide_false; [done|]. cbn [archiveId a]. intros E. apply Hfresh.
    rewrite E, elem_of_In. by apply in_map, elem_of_In. }
  rewrite HV. eapply write_wf; try done.
  - apply (table_ok_insert used (ids db) _ a); [by apply table_ok_filter|done|by apply id_elem].
  - eapply table_ok_weaken; [exact Hu|done|apply Hwf].
  - intros j Hj. rewrite positions_app, positions_one. cbn [messageId a]. rewrite bool_decide_false by congruence. rewrite app_nil_r.
    apply positions_keep. intros b Hb Eb. apply negb_true_iff, bool_decide_eq_false. intros E. apply Hj. rewrite <- Eb, <- Fi. f_equal.
    apply (others_perm v) in Hv; [|done]. rewrite Hv in Hb. apply elem_of_cons in Hb as [->|Hb]; [done|].
    apply elem_of_filter_bool in Hb as [_ Hb]. by rewrite bool_decide_true in Hb.
  - left. eapply (variants_ok_perm m); [done|done| |done|done]. rewrite positions_app, positions_one. cbn [messageId a position].
    rewrite bool_decide_true by done. rewrite <- Permutation_cons_append. rewrite perm_swap. f_equiv.
    rewrite (positions_perm (id m) _ _ (others_perm v _ Hnd Hv)). change (v :: others v (messageVariants db)) with ([v] ++ others v (messageVariants db)).
    rewrite positions_app, positions_one, bool_decide_true by done. cbn [app]. by rewrite Fp.
Qed.

Lemma activate_ok used db i v e now n : wf used db -> n ∉ used -> keeps (n :: used) (tables (activateVariant i v e now n db)).
Proof.
  intros Hwf Hn. unfold activateVariant. destruct (List.find _ _) as [a|]; [by apply set_active_ok|].
  cbn. eapply wf_weaken; [|done]. by right.
Qed.

(** A replacement that is archived at a free position. *)
Lemma replace_wf used db m ar t mt now n : wf used db -> n ∉ used -> m ∈ messages db ->
  let pos := orElse (activeVariantPosition m) 0 in
  let row := rewritten m now (role m) t mt (variantCount m + 1) (Some (variantCount m)) (contentRevisionCount m) (checkpointChatId m) in
  pos ∉ positions (id m) (messageVariants db) -> row_variants row (positions (id m) (messageVariants db) ++ [pos]) ->
  exists l, insert_archive (MkArchive n (id m) pos ar now) (messageVariants db) = Ok l /\ wf (n :: used) (write_row row (with_variants l db)).
Proof.
  intros Hwf Hn Hm pos row Hpos Hrow. assert (Hu : forall i, i ∈ used -> i ∈ n :: used) by (intros x; by right).
  set (a := MkArchive n (id m) pos ar now). rewrite insert_archive_ok; [|eapply table_ok_fresh; [apply Hwf|done]|done].
  eexists. split; [done|]. eapply write_wf; try done.
  - apply (table_ok_insert used (ids db) _ a); [apply Hwf|done|by apply id_elem].
  - eapply table_ok_weaken; [exact Hu|done|apply Hwf].
  - intros j Hj. rewrite positions_app, positions_one. cbn [messageId a]. rewrite bool_decide_false by congruence. apply app_nil_r.
  - rewrite positions_app, positions_one. cbn [messageId a position]. by rewrite bool_decide_true.
  - apply (wf_row _ _ _ Hwf Hm).
Qed.

Lemma replace_ok used db i ar t mt now n : wf used db -> n ∉ used -> (strict = true -> allowed db (Replace i ar t mt now n)) ->
  keeps (n :: used) (tables (replaceContentAsVariant i ar t mt now n db)).
Proof.
  intros Hwf Hn Hal. unfold replaceContentAsVariant. cbn [allowed] in Hal.
  destruct (find_message i db) as [m|] eqn:F; [|cbn; eapply wf_weaken; [|done]; by right].
  apply find_message_Some in F as [Hm <-]. destruct (wf_row _ _ _ Hwf Hm) as [Hvo _].
  pose proof (replace_wf used db m ar t mt now n Hwf Hn Hm) as R. cbv zeta in R.
  destruct Hvo as [Hvo|(Hs & Ha & _ & Hps)].
  2: { rewrite Ha. cbn [orElse]. rewrite insert_archive_clash; [done|]. cbn [position messageId]. rewrite Hps. by left. }
  unfold variants_ok in Hvo. destruct (activeVariantPosition m) as [p|] eqn:Ep; cbn [orElse] in *.
  - destruct Hvo as (Hnd & Hf & Hc). destruct R as (l & -> & Hwf'); [by apply NoDup_cons in Hnd as [? _]| |exact Hwf'].
    left. unfold variants_ok. cbn [activeVariantPosition variantCount rewritten]. rewrite <- Permutation_cons_append. split_and!.
    + apply NoDup_cons. split; [|done]. intros Hin. rewrite List.Forall_forall in Hf. apply elem_of_In, Hf in Hin. lia.
    + constructor; [lia|]. eapply List.Forall_impl; [|exact Hf]. cbn. lia.
    + rewrite ?length_app. cbn [length]. lia.
  - destruct Hvo as [Hps Hc]. rewrite Hps, Hc in R. assert (Hst : strict = false) by (destruct strict; [by destruct (Hal eq_refl)|done]).
    destruct R as (l & -> & Hwf'); [apply not_elem_of_nil|by right|]. cbn. by rewrite Hc.
Qed.

Lemma delete_ok used db i : wf used db -> wf used (fst (delete i db)).
Proof.
  intros [H1 H2 [H3 H3'] [H4 H4'] H5 H6]. unfold delete. cbn [fst].
  assert (Hids : forall x, x ∈ map id (List.filter (fun m => negb (bool_decide (id m = i))) (messages db)) <-> x ∈ ids db /\ x <> i).
  { intros x. unfold ids. rewrite !elem_of_In, !in_map_iff. split.
    - intros (m & <- & [Hm E]%filter_In). apply negb_true_iff, bool_decide_eq_false in E. eauto.
    - intros [(m & <- & Hm) E]. exists m. split; [done|]. apply filter_In. split; [done|]. by apply negb_true_iff, bool_decide_eq_false. }
  assert (Hkeep : forall t, NoDup (map archiveId t) -> Forall (fun a => archiveId a ∈ used /\ messageId a ∈ ids db) t ->
    table_ok used (map id (List.filter (fun m => negb (bool_decide (id m = i))) (messages db))) (List.filter (fun a => negb (bool_decide (messageId a = i))) t)).
  { intros t Hn Hf. destruct (table_ok_filter used (ids db) t (fun a => negb (bool_decide (messageId a = i)))) as [Hn' Hf']; [done|].
    split; [done|]. rewrite List.Forall_forall in Hf' |- *. intros a Ha. destruct (Hf' a Ha) as [Ha1 Ha2]. split; [done|].
    apply Hids. split; [done|]. apply filter_In in Ha as [_ E]. by apply negb_true_iff, bool_decide_eq_false in E. }
  split; unfold ids; cbn [messages messageVariants messageContentRevisions messageDrafts]; auto.
  - eapply sublist_NoDup; [exact H1|]. unfold ids. rewrite <- !list_fmap_map. apply fmap_sublist, filter_sublist.
  - apply List.Forall_forall. intros x Hx. apply elem_of_In, Hids in Hx as [Hx _]. rewrite List.Forall_forall in H2. by apply H2, elem_of_In.
  - apply List.Forall_forall. intros m [Hm E]%filter_In. apply negb_true_iff, bool_decide_eq_false in E.
    rewrite List.Forall_forall in H5. specialize (H5 m Hm).
    rewrite !positions_keep; [done|..]; intros a _ Ea; rewrite Ea; by apply negb_true_iff, bool_decide_eq_false.
Qed.

Lemma insert_message_ok row db :
  id row ∉ ids db -> (forall m, m ∈ messages db -> same_key m row = false) -> insert_message row db = Ok (with_messages (messages db ++ [row]) db).
Proof.
  intros Hi Hk. unfold insert_message. destruct (existsb _ _) eqn:E; [|done]. apply existsb_exists in E as (m & Hm & E). apply elem_of_In in Hm.
  rewrite Hk, orb_false_r in E by done. apply bool_decide_eq_true in E. exfalso. apply Hi. rewrite <- E. by apply id_elem.
Qed.

(** A new message without variants but the active one. *)
Lemma append_wf used db row :
  wf used db -> id row ∉ used -> row_variants row [] -> revisions_ok row [] -> wf (id row :: used) (with_messages (messages db ++ [row]) db).
Proof.
  intros [H1 H2 H3 H4 H5 H6] Hi Hv Hr. assert (Hu : forall i, i ∈ used -> i ∈ id row :: used) by (intros x; by right).
  assert (Hids : ids (with_messages (messages db ++ [row]) db) = ids db ++ [id row]) by (unfold ids; cbn [messages with_messages]; by rewrite map_app).
  assert (Hnew : id row ∉ ids db). { intros H. rewrite List.Forall_forall in H2. by apply Hi, H2, elem_of_In. }
  assert (Hnone : forall t, table_ok used (ids db) t -> positions (id row) t = []).
  { intros t [_ Hf]. destruct (positions (id row) t) as [|p ps] eqn:E; [done|]. exfalso.
    assert (Hp : p ∈ positions (id row) t) by (rewrite E; by left). apply elem_positions in Hp as (a & Ha & Hai & _).
    rewrite List.Forall_forall in Hf. apply elem_of_In, Hf in Ha as [_ Ha]. congruence. }
  split; rewrite ?Hids; cbn [messages messageVariants messageContentRevisions messageDrafts with_messages].
  - apply NoDup_app. split_and!; [done| |apply NoDup_singleton]. intros x Hx ->%list_elem_of_singleton. done.
  - apply List.Forall_app. split; [|repeat constructor]. eapply List.Forall_impl; [|exact H2]. auto.
  - eapply table_ok_weaken; [exact Hu| |exact H3]. intros x Hx. apply elem_of_app. by left.
  - eapply table_ok_weaken; [exact Hu| |exact H4]. intros x Hx. apply elem_of_app. by left.
  - apply List.Forall_app. split; [done|]. constructor; [|done]. rewrite !Hnone by done. by split.
  - destruct H6 as (Ha & Hb & Hc). split_and!; [done|done|]. eapply List.Forall_impl; [|exact Hc]. intros d [Hd Hd'].
    split; [by right|]. destruct (committedMessageId d); [|done]. destruct Hd'. auto.
Qed.

Lemma fresh_message_id used db i : wf used db -> i ∉ used -> i ∉ ids db.
Proof. intros Hwf Hi H. pose proof (wf_used _ _ Hwf) as Hu. rewrite List.Forall_forall in Hu. by apply Hi, Hu, elem_of_In. Qed.

Lemma no_key m row : idempotencyKey row = None -> same_key m row = false.
Proof. unfold same_key. intros ->. by destruct (idempotencyKey m). Qed.

Lemma fresh_variants_ok row : activeVariantPosition row = Some 0 -> variantCount row = 1 -> row_variants row [].
Proof. intros E1 E2. left. unfold variants_ok. rewrite E1, E2. split_and!; [apply NoDup_singleton|repeat constructor; lia|done]. Qed.

Lemma fresh_revisions_ok row : contentRevisionCount row = 0 -> revisions_ok row [].
Proof. intros E. unfold revisions_ok. rewrite E. split_and!; [apply NoDup_nil_2|constructor|done]. Qed.

Lemma create_ok used db c b input now n : wf used db -> n ∉ used -> (strict = true -> newKey input <> Some []) -> keeps (n :: used) (tables (create c b input now n db)).
Proof.
  intros Hwf Hn Hkey. unfold create. set (row := created_row n c b input now).
  destruct (insert_message row db) as [db'|e] eqn:E.
  - cbn [tables]. cbn [keeps]. unfold insert_message in E. destruct (existsb _ _); [done|]. injection E as <-.
    apply (append_wf used db row); [done|done|by apply fresh_variants_ok|by apply fresh_revisions_ok].
  - destruct (newKey input) as [[|k key]|] eqn:Ek; [cbn; destruct strict; [by destruct Hkey|done]|..].
    + destruct (List.find _ _) as [m|] eqn:F.
      * cbn. eapply wf_weaken; [|done]. by right.
      * exfalso. rewrite insert_message_ok in E; [done|by eapply fresh_message_id|]. intros m Hm.
        apply elem_of_In in Hm. pose proof (List.find_none _ _ F m Hm) as H. unfold same_key. cbn [row created_row idempotencyKey chatId].
        rewrite Ek. destruct (idempotencyKey m) as [j|] eqn:Ej; [|done]. apply andb_false_iff in H as [H|H]; [by rewrite H|].
        apply bool_decide_eq_false in H. apply andb_false_iff. right. apply bool_decide_eq_false. congruence.
    + exfalso. rewrite insert_message_ok in E; [done|by eapply fresh_message_id|]. intros m _. by apply no_key.
Qed.

Lemma greeting_ok used db c b g mt now n : wf used db -> n ∉ used ->
  exists db', create_greeting c b g mt now n db = Ok db' /\ wf (n :: used) db'.
Proof.
  intros Hwf Hn. unfold create_greeting. rewrite insert_message_ok; [|by eapply fresh_message_id|intros m _; by apply no_key].
  eexists. split; [done|]. by apply (append_wf used db (greeting_row n c b g mt now)); [done|done|by left|apply fresh_revisions_ok].
Qed.

(** Tables that differ in the drafts. *)
Lemma drafts_wf used used' db l : wf used db -> (forall i, i ∈ used -> i ∈ used') ->
  NoDup (map draftId l) -> NoDup (omap committedMessageId l) -> Forall (draft_ok used') l -> wf used' (with_drafts l db).
Proof.
  intros [H1 H2 H3 H4 H5 H6] Hu Ha Hb Hc. split; try done.
  - eapply List.Forall_impl; [|exact H2]. auto.
  - eapply table_ok_weaken; [exact Hu|done|exact H3].
  - eapply table_ok_weaken; [exact Hu|done|exact H4].
Qed.

Lemma omap_sublist {A B} (f : A -> option B) (l k : list A) : l `sublist_of` k -> omap f l `sublist_of` omap f k.
Proof.
  induction 1 as [|x l k _ IH|x l k _ IH]; [done| |]; cbn; destruct (f x); by try constructor.
Qed.

Lemma filter_drafts_wf used db f : wf used db -> wf used (with_drafts (List.filter f (messageDrafts db)) db).
Proof.
  intros Hwf. destruct (wf_drafts _ _ Hwf) as (Ha & Hb & Hc). eapply drafts_wf; [done|done|..].
  - eapply sublist_NoDup; [exact Ha|]. rewrite <- !list_fmap_map. apply fmap_sublist, filter_sublist.
  - eapply sublist_NoDup; [exact Hb|]. apply omap_sublist, filter_sublist.
  - rewrite List.Forall_forall in Hc |- *. intros d [Hd _]%filter_In. by apply Hc.
Qed.

Lemma find_draft_Some i db d : find_draft i db = Some d -> d ∈ messageDrafts db /\ draftId d = i.
Proof. intros H. apply List.find_some in H as [Hd Hi]. apply bool_decide_eq_true in Hi. by rewrite elem_of_In. Qed.

Lemma create_draft_ok used db c b r n m now i : wf used db -> i ∉ used ->
  exists db', createDraft c b r n m now i db = Ok db' /\ wf (i :: used) db'.
Proof.
  intros Hwf Hi. destruct (wf_drafts _ _ Hwf) as (Ha & Hb & Hc). unfold createDraft.
  assert (Hnew : i ∉ map draftId (messageDrafts db)).
  { rewrite elem_of_In, in_map_iff. intros (d & Ed & Hd). rewrite List.Forall_forall in Hc. apply Hi. rewrite <- Ed. by apply Hc. }
  destruct (existsb _ _) eqn:E.
  { exfalso. apply existsb_exists in E as (d & Hd & E). apply bool_decide_eq_true in E. apply Hnew. rewrite <- E, elem_of_In. by apply in_map. }
  eexists. split; [done|]. eapply drafts_wf; [done|intros x; by right|..].
  - rewrite map_app. cbn [map draftId]. apply NoDup_app. split_and!; [done| |apply NoDup_singleton].
    intros x Hx ->%list_elem_of_singleton. done.
  - rewrite omap_app. cbn. by rewrite app_nil_r.
  - apply List.Forall_app. split; [|constructor; [split; [by left|done]|done]]. eapply List.Forall_impl; [|exact Hc].
    intros d [Hd Hd']. split; [by right|]. destruct (committedMessageId d); [|done]. destruct Hd'. split; [by right|done].
Qed.

Definition put_draft (row : DraftRow) (l : list DraftRow) : list DraftRow :=
  map (fun d => if bool_decide (draftId d = draftId row) then row else d) l.

Lemma put_draft_ids row l : map draftId (put_draft row l) = map draftId l.
Proof. unfold put_draft. rewrite map_map. apply map_ext. intros d. by case_bool_decide. Qed.

Lemma put_draft_absent row l : draftId row ∉ map draftId l -> put_draft row l = l.
Proof.
  unfold put_draft. induction l as [|d l IH]; [done|]. cbn [map]. intros [Hd Hl]%not_elem_of_cons.
  rewrite bool_decide_false by done. f_equal. by apply IH.
Qed.

(** A draft that is written keeps what it was committed as, or is committed now. *)
Lemma put_draft_committed row l d :
  NoDup (map draftId l) -> d ∈ l -> draftId row = draftId d ->
  (committedMessageId row = committedMessageId d -> omap committedMessageId (put_draft row l) = omap committedMessageId l) /\
  (forall m, committedMessageId d = None -> committedMessageId row = Some m -> omap committedMessageId (put_draft row l) ≡ₚ m :: omap committedMessageId l).
Proof.
  intros Hn Hd Hid. induction l as [|x l IH]; [by apply not_elem_of_nil in Hd|]. cbn [map] in Hn. apply NoDup_cons in Hn as [Hx Hn].
  apply elem_of_cons in Hd as [<-|Hd].
  - unfold put_draft. cbn [map]. rewrite bool_decide_true by done. fold (put_draft row l). rewrite put_draft_absent by (by rewrite Hid).
    split; [intros E; cbn; by rewrite E|]. intros m E1 E2. cbn. by rewrite E1, E2.
  - unfold put_draft. cbn [map]. fold (put_draft row l). rewrite bool_decide_false.
    2: { intros E. apply Hx. rewrite E, Hid, elem_of_In. by apply in_map, elem_of_In. }
    destruct (IH Hn Hd) as [IH1 IH2]. split.
    + intros E. cbn. destruct (committedMessageId x); by rewrite <- IH1.
    + intros m E1 E2. cbn. destruct (committedMessageId x); rewrite IH2 by done; [apply perm_swap|done].
Qed.

Lemma put_draft_wf used used' db row d :
  wf used db -> (forall i, i ∈ used -> i ∈ used') -> d ∈ messageDrafts db -> draftId row = draftId d -> draft_ok used' row ->
  committedMessageId row = committedMessageId d \/ (committedMessageId d = None /\ exists m, committedMessageId row = Some m /\ m ∉ used) ->
  wf used' (write_draft row db).
Proof.
  intros Hwf Hu Hd Hid Hok Hc. destruct (wf_drafts _ _ Hwf) as (Ha & Hb & Hf). unfold write_draft. fold (put_draft row (messageDrafts db)).
  destruct (put_draft_committed row _ d Ha Hd Hid) as [H1 H2]. eapply drafts_wf; [done|done|by rewrite put_draft_ids|..].
  - destruct Hc as [Hc|(Hn & m & Hm & Hnew)]; [by rewrite H1|]. rewrite H2 by done. apply NoDup_cons. split; [|done].
    intros Hin. apply list_elem_of_omap in Hin as (x & Hx & Ex). rewrite List.Forall_forall in Hf.
    apply elem_of_In, Hf in Hx as [_ Hx]. rewrite Ex in Hx. by destruct Hx.
  - apply List.Forall_forall. unfold put_draft. intros x (y & E & Hy)%in_map_iff. case_bool_decide; subst; [done|].
    rewrite List.Forall_forall in Hf. destruct (Hf x Hy) as [Hx Hx']. split; [by apply Hu|]. destruct (committedMessageId x); [|done].
    destruct Hx'. auto.
Qed.

Lemma update_draft_ok used db i t r s now : wf used db -> wf used (fst (updateDraft i t r s now db)).
Proof.
  intros Hwf. unfold updateDraft. destruct (find_draft i db) as [d|] eqn:F; [|done]. apply find_draft_Some in F as [Hd <-].
  destruct (match s with Some s => s <=? sequence d | None => false end); [done|]. cbn [fst].
  destruct (wf_drafts _ _ Hwf) as (_ & _ & Hf). rewrite List.Forall_forall in Hf. apply elem_of_In in Hd as Hd'. apply Hf in Hd'.
  eapply put_draft_wf; [done|done|done|done|exact Hd'|by left].
Qed.

Lemma commit_draft_ok used db i now n : wf used db -> n ∉ used -> n <> [] ->
  exists db', tables (commitDraft i now n db) = Ok db' /\ wf (n :: used) db'.
Proof.
  intros Hwf Hn Hne. assert (Hu : forall i, i ∈ used -> i ∈ n :: used) by (intros x; by right).
  assert (Hsame : wf (n :: used) db) by (by eapply wf_weaken). unfold commitDraft.
  destruct (find_draft i db) as [d|] eqn:F; [|by eexists]. apply find_draft_Some in F as [Hd <-].
  destruct (wf_drafts _ _ Hwf) as (_ & _ & Hf). rewrite List.Forall_forall in Hf. apply elem_of_In in Hd as Hd'. destruct (Hf _ Hd') as [Hdi Hdc].
  destruct (committedMessageId d) as [[|x m]|] eqn:Ec; [by destruct Hdc|by eexists|].
  rewrite insert_message_ok; [|exact (fresh_message_id used db n Hwf Hn)|intros m _; by apply no_key]. cbn [tables]. eexists. split; [done|].
  assert (Hwf' : wf (n :: used) (with_messages (messages db ++ [draft_message d n now]) db))
    by (apply (append_wf used db (draft_message d n now)); [done|done|by apply fresh_variants_ok|by apply fresh_revisions_ok]).
  destruct (wf_drafts _ _ Hwf) as (Ha & Hb & Hc). set (row := MkDraft _ _ _ _ _ _ _ _ _ _ _ _).
  assert (Hput : wf (n :: used) (write_draft row db)).
  { eapply (put_draft_wf used _ db row d); [done|done|done|done| |right; split; [done|by exists n]]. split; [by apply Hu|]. split; [by left|done]. }
  destruct Hwf'. destruct Hput. by split.
Qed.

(** Every operation keeps the invariant. *)
Lemma exec_keeps used db op :
  wf used db -> Forall (fun i => i <> [] /\ i ∉ used) (new_ids op) -> (strict = true -> allowed db op) -> keeps (new_ids op ++ used) (exec db op).
Proof.
  intros Hwf Hnew Hal. destruct op; cbn [new_ids exec app] in *; try (apply Forall_cons in Hnew as [[Hne Hn] _]).
  - by apply create_ok.
  - by apply keeps_ok, greeting_ok.
  - by apply keeps_ok, update_ok.
  - by apply delete_ok.
  - by apply keeps_ok, restore_ok.
  - by apply set_active_ok.
  - by apply activate_ok.
  - by apply replace_ok.
  - by apply checkpoint_ok.
  - by apply keeps_ok, create_draft_ok.
  - by apply update_draft_ok.
  - by apply keeps_ok, commit_draft_ok.
  - by apply filter_drafts_wf.
  - by apply filter_drafts_wf.
Qed.

Lemma step_keeps_wf used db op :
  wf used db -> Forall (fun i => i <> [] /\ i ∉ used) (new_ids op) -> (strict = true -> allowed db op) -> wf (new_ids op ++ used) (step db op).
Proof.
  intros Hwf Hn Hal. pose proof (exec_keeps used db op Hwf Hn Hal) as K. unfold step. destruct (exec db op); [exact K|].
  eapply wf_weaken; [|exact Hwf]. intros i Hi. apply elem_of_app. by right.
Qed.

Lemma empty_wf : wf [] empty.
Proof.
  split; cbn; [apply NoDup_nil_2|constructor|split; [apply NoDup_nil_2|constructor]|split; [apply NoDup_nil_2|constructor]|constructor|].
  split_and!; [apply NoDup_nil_2|apply NoDup_nil_2|constructor].
Qed.
End Invariant.

Abbreviation wf := (wf_with (strict := true)).

Lemma reachable_wf used db : reachable used db -> wf used db.
Proof. induction 1 as [|used db op _ IH Hn Hal]; [apply empty_wf|]. by apply step_keeps_wf. Qed.

Lemma reached_wf used db : reached used db -> wf_with (strict := false) used db.
Proof. induction 1 as [|used db op _ IH Hn]; [apply empty_wf|]. by apply step_keeps_wf. Qed.

(** Allowed operations do not fail. *)
Lemma exec_ok used db op :
  wf used db -> Forall (fun i => i <> [] /\ i ∉ used) (new_ids op) -> allowed db op -> is_ok (exec db op) = true.
Proof. intros Hwf Hn Hal. pose proof (exec_keeps used db op Hwf Hn (fun _ => Hal)) as K. by destruct (exec db op). Qed.

Lemma wf_regular used db m : wf used db -> m ∈ messages db -> variants_ok m (positions (id m) (messageVariants db)).
Proof. intros Hwf Hm. by destruct (wf_row used db m Hwf Hm) as [[H|[H _]] _]. Qed.

(** Positions without a gap. *)
Lemma numbered ps n : NoDup ps -> Forall (fun x => 0 <= x < n) ps -> n = Z.of_nat (length ps) -> ps ≡ₚ map Z.of_nat (seq 0 (Z.to_nat n)).
Proof.
  intros Hn Hf Hc. apply NoDup_Permutation_bis.
  - by apply NoDup_ListNoDup.
  - rewrite length_map, length_seq. lia.
  - intros x Hx. rewrite List.Forall_forall in Hf. apply Hf in Hx. apply in_map_iff. exists (Z.to_nat x). split; [lia|].
    apply in_seq. lia.
Qed.

Lemma variants_perm m p ps : activeVariantPosition m = Some p -> variants_ok m ps ->
  p :: ps ≡ₚ map Z.of_nat (seq 0 (Z.to_nat (variantCount m))).
Proof.
  intros Ep H. unfold variants_ok in H. rewrite Ep in H. destruct H as (Hn & Hf & Hc). apply numbered; [done|done|]. cbn [length]. lia.
Qed.

(** A message whose variants clash can be replaced no more. *)
Lemma clashed_replace used db m : wf_with (strict := false) used db -> m ∈ messages db -> clashed m (positions (id m) (messageVariants db)) ->
  forall ar t mt now n, exec db (Replace (id m) ar t mt now n) = Throw UNIQUE_CONSTRAINT.
Proof.
  intros Hwf Hm (Ha & _ & Hps) ar t mt now n. cbn [exec]. unfold replaceContentAsVariant.
  destruct (find_message (id m) db) as [x|] eqn:F; [|by apply find_message_None in F as []; apply id_elem].
  apply find_message_Some in F as [Hx Hid]. assert (x = m) as -> by (eapply same_id; [apply Hwf|done..]).
  rewrite Ha. cbn [orElse]. rewrite insert_archive_clash; [done|]. cbn [position messageId]. rewrite Hps. by left.
Qed.

(** C11: swipes and previous contents.  After any sequence of operations with new
    identifiers, the previous contents of a message are numbered from 0 to the number
    of them without a gap, and its variants are in one of three states: the positions of
    the archived ones and the active position are exactly the positions below the
    number of variants, which is the promise of [setActiveVariant]; or it is a greeting that
    was never replaced, without a position and without variants; or it is a greeting
    that was replaced once, whose archived text and whose content are both at position 0, and that
    every further replacement fails for.  When no greeting was replaced that never was
    before (and no key of an outbox was empty), there are none of the last kind, and
    no further operation of this kind fails on a unique index. *)
Theorem variants_permutation used db :
  reached used db ->
  (forall m, m ∈ messages db ->
     positions (id m) (messageContentRevisions db) ≡ₚ map Z.of_nat (seq 0 (Z.to_nat (contentRevisionCount m)))) /\
  (forall m, m ∈ messages db ->
     let ps := positions (id m) (messageVariants db) in
     (exists p, activeVariantPosition m = Some p /\ p :: ps ≡ₚ map Z.of_nat (seq 0 (Z.to_nat (variantCount m)))) \/
     (activeVariantPosition m = None /\ variantCount m = 0 /\ ps = []) \/
     (activeVariantPosition m = Some 0 /\ variantCount m = 1 /\ ps = [0] /\
        forall ar t mt now n, exec db (Replace (id m) ar t mt now n) = Throw UNIQUE_CONSTRAINT)) /\
  (reachable used db ->
     (forall m p, m ∈ messages db -> activeVariantPosition m = Some p ->
        p :: positions (id m) (messageVariants db) ≡ₚ map Z.of_nat (seq 0 (Z.to_nat (variantCount m)))) /\
     (forall op, Forall (fun i => i <> [] /\ i ∉ used) (new_ids op) -> allowed db op -> is_ok (exec db op) = true)).
Proof.
  intros Hr%reached_wf. split_and!; [intros m Hm| |intros Hwf%reachable_wf; split].
  - destruct (wf_row _ _ _ Hr Hm) as [_ (Hn & Hf & Hc)]. by apply numbered.
  - intros m Hm ps. destruct (wf_row _ _ _ Hr Hm) as [[Hv|[_ Hcl]] _]; [fold ps in Hv|].
    + destruct (activeVariantPosition m) as [p|] eqn:Ep; [left|right; left].
      * exists p. split; [done|]. by apply variants_perm.
      * unfold variants_ok in Hv. rewrite Ep in Hv. by destruct Hv.
    + right. right. pose proof (clashed_replace _ _ _ Hr Hm Hcl). by destruct Hcl as (? & ? & ?).
  - intros m p Hm Ep. apply variants_perm; [done|]. by eapply wf_regular.
  - intros op Hn Hal. by apply (exec_ok used).
Qed.

(** *** No text is lost *)

(** A text that is the content of the message, a variant or a previous content. *)
Definition has_text (db : Db) (i t : text) : Prop :=
  (exists m, m ∈ messages db /\ id m = i /\ content m = t) \/
  (exists a, a ∈ messageVariants db /\ messageId a = i /\ archived a = t) \/
  (exists a, a ∈ messageContentRevisions db /\ messageId a = i /\ archived a = t).

(** The operations that may drop a text of a message: its deletion, an update
    that is not tracked, and a replacement that archives another text than the
    one it replaces. *)
Definition loses (db : Db) (i : text) (op : Op) : Prop :=
  match op with
  | Delete j => j = i
  | Update j _ _ track _ _ => j = i /\ track = false
  | Replace j archive _ _ _ _ => j = i /\ exists m, find_message i db = Some m /\ content m <> archive
  | _ => False
  end.

(** What a step does to the rows. *)
Inductive rows_step (new : list text) (db db' : Db) : Prop :=
| rows_same : messages db' = messages db -> rows_step new db db'
| rows_new row : id row ∈ new -> messages db' = messages db ++ [row] -> rows_step new db db'
| rows_write m row : m ∈ messages db -> id row = id m -> revision row = revision m + 1 ->
    messages db' = messages (write_row row db) -> rows_step new db db'
| rows_delete f : messages db' = List.filter f (messages db) -> rows_step new db db'.

Lemma archive_content_messages m n db db' : archive_content m n db = Ok db' -> messages db' = messages db.
Proof. unfold archive_content. destruct (insert_archive _ _); [|done]. by intros [= <-]. Qed.

Lemma write_row_messages row db db' : messages db' = messages db -> messages (write_row row db') = messages (write_row row db).
Proof. unfold write_row. cbn [messages with_messages]. by intros ->. Qed.

Lemma set_active_rows db i pos e now n db' : tables (setActiveVariant i pos e now n db) = Ok db' -> rows_step [n] db db'.
Proof.
  unfold setActiveVariant. destruct (guarded i e db) as [m| | |] eqn:G; cbn [tables]; try (intros [= <-]; by apply rows_same).
  apply guarded_Updated in G as (Hm & _ & _). destruct (List.find _ _); [|intros [= <-]; by apply rows_same].
  destruct (insert_archive _ _); [|done]. intros [= <-]. eapply rows_write; [exact Hm| | |by apply write_row_messages]; reflexivity.
Qed.

Lemma insert_message_rows row db db' : insert_message row db = Ok db' -> messages db' = messages db ++ [row].
Proof. unfold insert_message. destruct (existsb _ _); [done|]. by intros [= <-]. Qed.

Lemma exec_rows db op db' : exec db op = Ok db' -> rows_step (new_ids op) db db'.
Proof.
  destruct op; cbn [exec new_ids].
  - unfold create. set (row := created_row _ _ _ _ _). destruct (insert_message row db) as [x|e] eqn:E.
    + intros [= <-]. apply insert_message_rows in E. eapply rows_new; [|exact E]. by left.
    + destruct (newKey input) as [[|k key]|]; [done| |done]. destruct (List.find _ _); [|done]. intros [= <-]. by apply rows_same.
  - intros E. apply insert_message_rows in E. eapply rows_new; [|exact E]. by left.
  - unfold update. destruct (guarded i expectedRevision db) as [m| | |] eqn:G; cbn [tables]; try (intros [= <-]; by apply rows_same).
    apply guarded_Updated in G as (Hm & _ & _). set (row := rewritten _ _ _ _ _ _ _ _ _).
    match goal with |- context [if ?c then archive_content m newId db else _] => set (track := c) end.
    destruct (if track then archive_content m newId db else Ok db) as [x|] eqn:E; [|done]. intros [= <-].
    assert (Hx : messages x = messages db) by (destruct track; [by eapply archive_content_messages|by injection E as ->]).
    eapply rows_write; [exact Hm| | |by apply write_row_messages]; reflexivity.
  - intros [= <-]. eapply rows_delete. reflexivity.
  - unfold restoreContentRevision. destruct (guarded i _ db) as [m| | |] eqn:G; cbn [tables]; try (intros [= <-]; by apply rows_same).
    apply guarded_Updated in G as (Hm & _ & _). destruct (List.find _ _) as [a|]; [|intros [= <-]; by apply rows_same].
    case_bool_decide; [intros [= <-]; by apply rows_same|]. destruct (archive_content m newId db) as [x|] eqn:E; [|done]. intros [= <-].
    apply archive_content_messages in E. eapply rows_write; [exact Hm| | |by apply write_row_messages]; reflexivity.
  - apply set_active_rows.
  - unfold activateVariant. destruct (List.find _ _); [apply set_active_rows|]. intros [= <-]. by apply rows_same.
  - unfold replaceContentAsVariant. destruct (find_message i db) as [m|] eqn:F; [|intros [= <-]; by apply rows_same].
    apply find_message_Some in F as [Hm _]. destruct (insert_archive _ _); [|done]. intros [= <-].
    eapply rows_write; [exact Hm| | |by apply write_row_messages]; reflexivity.
  - unfold linkCheckpoint. intros [= <-]. destruct (find_message i db) as [m|] eqn:F; [|by apply rows_same].
    apply find_message_Some in F as [Hm _]. eapply (rows_write _ _ _ m); [exact Hm| | |reflexivity]; reflexivity.
  - unfold createDraft. destruct (existsb _ _); [done|]. intros [= <-]. by apply rows_same.
  - intros [= <-]. apply rows_same. unfold updateDraft. destruct (find_draft i db); [|done]. by case_match.
  - unfold commitDraft. destruct (find_draft i db) as [d|]; [|intros [= <-]; by apply rows_same].
    destruct (committedMessageId d) as [[|x m]|]; [|intros [= <-]; by apply rows_same|];
      (destruct (insert_message _ db) as [y|] eqn:E; [|done]; intros [= <-]; apply insert_message_rows in E;
       eapply rows_new; [|exact E]; by left).
  - intros [= <-]. by apply rows_same.
  - intros [= <-]. by apply rows_same.
Qed.

(** A row after a step is a row before it, or a write of one, or new. *)
Lemma row_after db op db' m' :
  exec db op = Ok db' -> m' ∈ messages db' ->
  id m' ∈ new_ids op \/ exists m, m ∈ messages db /\ id m = id m' /\ (m' = m \/ revision m' = revision m + 1).
Proof.
  intros E Hm. destruct (exec_rows _ _ _ E) as [H|row Hn H|m row Hr Hid Hrev H|f H]; rewrite H in Hm.
  - right. exists m'. auto.
  - apply elem_of_app in Hm as [Hm|Hm]; [right; exists m'; auto|]. apply list_elem_of_singleton in Hm as ->. by left.
  - apply elem_write in Hm as [->|[Hm _]]; right; [exists m; auto|exists m'; auto].
  - apply elem_of_filter_bool in Hm as [Hm _]. right. exists m'. auto.
Qed.

(** A sequence of operations. *)
Inductive runs : list text -> Db -> list text -> Db -> Prop :=
| runs_refl used db : runs used db used db
| runs_step used db used' db' op : runs used db used' db' -> Forall (fun i => i <> [] /\ i ∉ used') (new_ids op) -> allowed db' op ->
    runs used db (new_ids op ++ used') (step db' op).

Lemma runs_reachable used db used' db' : runs used db used' db' -> reachable used db -> reachable used' db'.
Proof. induction 1; intros Hr; [done|]. apply reach_step; auto. Qed.

Lemma runs_used used db used' db' : runs used db used' db' -> forall i, i ∈ used -> i ∈ used'.
Proof. induction 1; [done|]. intros i Hi. apply elem_of_app. right. auto. Qed.

Lemma runs_revision used db used' db' m m' :
  wf used db -> runs used db used' db' -> m ∈ messages db -> m' ∈ messages db' -> id m' = id m -> m' = m \/ revision m < revision m'.
Proof.
  intros Hwf Hr Hm. revert m'. induction Hr as [used db|used db used' db' op Hr IH Hn Hal]; intros m' Hm' Hid.
  - left. eapply same_id; [apply Hwf|done|done|done].
  - unfold step in Hm'. destruct (exec db' op) as [x|] eqn:E; [|by apply IH].
    destruct (row_after _ _ _ _ E Hm') as [H|(y & Hy & Hyid & Hyr)].
    + exfalso. rewrite List.Forall_forall in Hn. apply elem_of_In, Hn in H as [_ H]. apply H. rewrite Hid. eapply runs_used; [done|].
      pose proof (wf_used _ _ Hwf) as Hu. rewrite List.Forall_forall in Hu. by apply Hu, elem_of_In, id_elem.
    + destruct (IH Hwf Hm y Hy ltac:(congruence)) as [->|Hlt]; destruct Hyr as [->|Hyr]; auto; right; lia.
Qed.

Lemma write_row_self row db m : m ∈ messages db -> id row = id m -> row ∈ messages (write_row row db).
Proof.
  intros Hm Hid. unfold write_row. cbn [messages with_messages]. rewrite elem_of_In, in_map_iff. exists m.
  rewrite bool_decide_true by done. by rewrite <- elem_of_In.
Qed.

Lemma write_row_other row db m : m ∈ messages db -> id m <> id row -> m ∈ messages (write_row row db).
Proof.
  intros Hm Hid. unfold write_row. cbn [messages with_messages]. rewrite elem_of_In, in_map_iff. exists m.
  rewrite bool_decide_false by done. by rewrite <- elem_of_In.
Qed.

(** A write keeps the texts when the archives, and the content that goes, are kept. *)
Lemma write_texts db m row V R i t :
  NoDup (ids db) -> m ∈ messages db -> id row = id m ->
  (forall a, a ∈ messageVariants db -> a ∈ V \/ (messageId a = id m /\ archived a = content row)) ->
  (forall a, a ∈ messageContentRevisions db -> a ∈ R) ->
  (i = id m -> content row = content m \/ exists a, (a ∈ V \/ a ∈ R) /\ messageId a = id m /\ archived a = content m) ->
  has_text db i t -> has_text (write_row row (MkDb (messages db) V R (messageDrafts db))) i t.
Proof.
  intros Hn Hm Hid HV HR Hc Ht. set (db' := MkDb (messages db) V R (messageDrafts db)). assert (Hself : row ∈ messages (write_row row db')) by by eapply (write_row_self row db' m).
  destruct Ht as [(x & Hx & <- & <-)|[(a & Ha & <- & <-)|(a & Ha & <- & <-)]].
  - destruct (decide (id x = id m)) as [E|E].
    + assert (x = m) as -> by (by eapply same_id). destruct (Hc eq_refl) as [E'|(a & [Ha|Ha] & Ha1 & Ha2)].
      * left. by exists row.
      * right. left. by exists a.
      * right. right. by exists a.
    + left. exists x. split; [|done]. apply (write_row_other row db'); [done|]. by rewrite Hid.
  - destruct (HV a Ha) as [Ha'|[E1 E2]]; [right; left; by exists a|]. left. exists row. by rewrite Hid, E1, E2.
  - right. right. exists a. auto.
Qed.

Lemma set_active_texts used db i pos e now n j t : wf used db -> n ∉ used -> has_text db j t ->
  has_text (step db (SetActive i pos e now n)) j t.
Proof.
  intros Hwf Hn Ht. unfold step, exec. unfold setActiveVariant. destruct (guarded i e db) as [m| | |] eqn:G; cbn [tables]; try done.
  apply guarded_Updated in G as (Hm & <- & _). destruct (List.find _ _) as [v|] eqn:F; [|done].
  apply List.find_some in F as [Hv F]. apply elem_of_In in Hv. apply andb_true_iff in F as [Fi _]. apply bool_decide_eq_true in Fi.
  destruct (insert_archive _ _) as [l|] eqn:E; cbn [tables]; [|done]. unfold insert_archive in E. destruct (existsb _ _); [done|]. injection E as <-.
  assert (Hnv : n ∉ map archiveId (messageVariants db)) by (eapply table_ok_fresh; [apply Hwf|done]).
  assert (Hne : archiveId v <> n) by (intros <-; apply Hnv; rewrite elem_of_In; by apply in_map, elem_of_In).
  eapply write_texts; [apply Hwf|exact Hm|done| |done| |done].
  - intros a Ha. destruct (decide (archiveId a = archiveId v)) as [Ea|Ea].
    + right. assert (a = v) as ->; [|done]. pose proof (wf_variants _ _ Hwf) as [Hnd _].
      rewrite (others_perm v _ Hnd Hv) in Ha. apply elem_of_cons in Ha as [->|Ha]; [done|]. apply elem_of_filter_bool in Ha as [_ Ha].
      by rewrite bool_decide_true in Ha.
    + left. apply elem_of_filter_bool. split; [apply elem_of_app; by left|]. by apply negb_true_iff, bool_decide_eq_false.
  - intros _. right. eexists. split; [left; apply elem_of_filter_bool; split; [apply elem_of_app; right; by left|]|by split].
    apply negb_true_iff, bool_decide_eq_false. cbn [archiveId]. congruence.
Qed.

Lemma append_texts db row i t : has_text db i t -> has_text (with_messages (messages db ++ [row]) db) i t.
Proof.
  intros [(m & Hm & H)|H]; [|by right]. left. exists m. split; [|done]. cbn [messages with_messages]. apply elem_of_app. by left.
Qed.

Lemma insert_texts row db db' i t : insert_message row db = Ok db' -> has_text db i t -> has_text db' i t.
Proof. unfold insert_message. destruct (existsb _ _); [done|]. intros [= <-]. apply append_texts. Qed.

Lemma archived_write db m n row i t :
  NoDup (ids db) -> m ∈ messages db -> id row = id m -> has_text db i t ->
  has_text (write_row row (with_revisions (messageContentRevisions db ++ [content_archive m n]) db)) i t.
Proof.
  intros Hn Hm Hid Ht. eapply write_texts; [exact Hn|exact Hm|exact Hid|auto| |..|exact Ht].
  - intros a Ha. apply elem_of_app. by left.
  - intros _. right. exists (content_archive m n). split; [right; apply elem_of_app; right; by left|by split].
Qed.

Lemma same_write db m row i t :
  NoDup (ids db) -> m ∈ messages db -> id row = id m -> (i = id m -> content row = content m) -> has_text db i t -> has_text (write_row row db) i t.
Proof.
  intros Hn Hm Hid Hc Ht. replace db with (MkDb (messages db) (messageVariants db) (messageContentRevisions db) (messageDrafts db)) by (by destruct db).
  eapply write_texts; [exact Hn|exact Hm|exact Hid|auto|auto| |exact Ht]. intros E. left. by apply Hc.
Qed.

Lemma step_texts used db op i t :
  wf used db -> Forall (fun i => i <> [] /\ i ∉ used) (new_ids op) -> has_text db i t -> ~ loses db i op -> has_text (step db op) i t.
Proof.
  intros Hwf Hnew Ht Hl. pose proof (wf_ids _ _ Hwf) as Hnd. destruct op; cbn [new_ids loses] in *; try (apply Forall_cons in Hnew as [[_ Hn] _]).
  - unfold step, exec, create. destruct (insert_message _ db) as [x|] eqn:E; cbn [tables]; [by eapply insert_texts|].
    destruct (newKey input) as [[|k key]|]; cbn [tables]; [done| |done]. by destruct (List.find _ _).
  - unfold step, exec, create_greeting. destruct (insert_message _ db) eqn:E; [by eapply insert_texts|done].
  - unfold step, exec, update. destruct (guarded i0 expectedRevision db) as [m| | |] eqn:G; cbn [tables]; try done.
    apply guarded_Updated in G as (Hm & <- & _). set (row := rewritten _ _ _ _ _ _ _ _ _).
    destruct (_ && trackContentRevision) eqn:Et.
    + rewrite (archive_content_Ok used) by done. cbn [tables]. by apply archived_write.
    + cbn [tables]. apply (same_write db m); [done|done|done| |done]. intros ->. cbn [row rewritten content].
      apply andb_false_iff in Et as [Et|Et]; [|by destruct Hl].
      destruct (patchContent patch) as [c|]; cbn [orElse]; [|done]. by apply negb_false_iff, bool_decide_eq_true in Et.
  - unfold step, exec. cbn [delete fst]. destruct Ht as [(m & Hm & Ei & E)|[(a & Ha & Ei & E)|(a & Ha & Ei & E)]].
    + left. exists m. split; [|done]. apply elem_of_filter_bool. split; [done|]. apply negb_true_iff, bool_decide_eq_false. congruence.
    + right. left. exists a. split; [|done]. apply elem_of_filter_bool. split; [done|]. apply negb_true_iff, bool_decide_eq_false. congruence.
    + right. right. exists a. split; [|done]. apply elem_of_filter_bool. split; [done|]. apply negb_true_iff, bool_decide_eq_false. congruence.
  - unfold step, exec, restoreContentRevision. destruct (guarded i0 _ db) as [m| | |] eqn:G; cbn [tables]; try done.
    apply guarded_Updated in G as (Hm & <- & _). destruct (List.find _ _) as [a|]; [|done]. case_bool_decide; [done|].
    rewrite (archive_content_Ok used) by done. cbn [tables]. by apply archived_write.
  - by eapply set_active_texts.
  - unfold step, exec, activateVariant. destruct (List.find _ _) as [a|]; [|done].
    by apply (set_active_texts used db i0 (position a) expectedRevision now newId).
  - unfold step, exec, replaceContentAsVariant. destruct (find_message i0 db) as [m|] eqn:F; [|done].
    apply find_message_Some in F as F'. destruct F' as [Hm <-]. destruct (insert_archive _ _) as [l|] eqn:E; cbn [tables]; [|done].
    unfold insert_archive in E. destruct (existsb _ _); [done|]. injection E as <-.
    eapply write_texts; [done|exact Hm|done| |auto| |done]; [intros a Ha; left; apply elem_of_app; by left|].
    intros ->. right. eexists. split; [left; apply elem_of_app; right; by left|]. split; [done|]. cbn [archived].
    destruct (decide (content m = archive)) as [->|Hne]; [done|]. exfalso. apply Hl. split; [done|]. by exists m.
  - unfold step, exec, linkCheckpoint. destruct (find_message i0 db) as [m|] eqn:F; [|done]. apply find_message_Some in F as [Hm _].
    by apply (same_write db m).
  - unfold step, exec, createDraft. by destruct (existsb _ _).
  - unfold step, exec, updateDraft. destruct (find_draft i0 db); [|done]. by case_match.
  - unfold step, exec, commitDraft. destruct (find_draft i0 db) as [d|]; [|done].
    destruct (committedMessageId d) as [[|x m]|]; [|done|];
      (destruct (insert_message _ db) as [y|] eqn:E; [|done]; eapply insert_texts in E; [|exact Ht]; exact E).
  - done.
  - done.
Qed.

(** Edits are guarded and lose nothing.  In every reachable state a step keeps
    each text of a message (its content, its variants, its previous contents) unless
    it deletes the message, is an untracked update, or archives another text than
    the content it replaces; whatever runs, a row that still has a revision that was
    read is the row that was read; and an operation that expects another revision
    than the row's changes nothing and reports the revision. *)
Theorem edits_keep_texts used db :
  reachable used db ->
  (forall op i t, Forall (fun i => i <> [] /\ i ∉ used) (new_ids op) -> has_text db i t -> ~ loses db i op -> has_text (step db op) i t) /\
  (forall used' db' m m', runs used db used' db' -> m ∈ messages db -> m' ∈ messages db' -> id m' = id m ->
     revision m <= revision m' /\ (revision m' = revision m -> m' = m)) /\
  (forall m e p t pos now n, m ∈ messages db -> e <> revision m ->
     update (id m) p (Some e) t now n db = Ok (db, Conflict (revision m)) /\
     setActiveVariant (id m) pos (Some e) now n db = Ok (db, Conflict (revision m)) /\
     forall r, restoreContentRevision (id m) r e now n db = Ok (db, Conflict (revision m))).
Proof.
  intros Hwf%reachable_wf. split_and!.
  - intros op i t Hn Ht Hl. by eapply step_texts.
  - intros used' db' m m' Hr Hm Hm' Hid. destruct (runs_revision _ _ _ _ _ _ Hwf Hr Hm Hm' Hid) as [->|Hlt]; [done|]. split; [lia|]. intros E. lia.
  - intros m e p t pos now n Hm He.
    assert (G : guarded (id m) (Some e) db = Conflict (revision m)).
    { unfold guarded. destruct (find_message (id m) db) as [x|] eqn:F.
      - apply find_message_Some in F as [Hx Hid]. assert (x = m) as -> by (by eapply same_id; [apply Hwf|..]).
        destruct (Z.eqb_spec (revision m) e); [congruence|done].
      - apply find_message_None in F. exfalso. by apply F, id_elem. }
    unfold update, setActiveVariant, restoreContentRevision. by rewrite G.
Qed.

(** The columns of a greeting have their defaults, no variants and no active position.
    Its first replacement archives it at position 0 and makes 0 the active position as
    well; from then on a swipe and every further replacement fail on the unique
    index. *)
Theorem greeting_regenerated :
  let db0 := match create_greeting (lit "c") (lit "b") (lit "Hello") (lit "{}") 1 (lit "g") empty with Ok db => db | _ => empty end in
  let db1 := step db0 (Replace (lit "g") (lit "Hello") (lit "Hi") (lit "{}") 2 (lit "v")) in
  map (fun m => (variantCount m, activeVariantPosition m)) (messages db1) = [(1, Some 0)] /\
  positions (lit "g") (messageVariants db1) = [0] /\
  exec db1 (Replace (lit "g") (lit "Hi") (lit "Hey") (lit "{}") 3 (lit "w")) = Throw UNIQUE_CONSTRAINT /\
  exec db1 (SetActive (lit "g") 0 None 3 (lit "w")) = Throw UNIQUE_CONSTRAINT.
Proof. vm_compute. done. Qed.

(** ** Drafts *)

Lemma find_draft_in used db d : wf used db -> d ∈ messageDrafts db -> find_draft (draftId d) db = Some d.
Proof.
  intros Hwf Hd. destruct (wf_drafts _ _ Hwf) as (Hn & _). unfold find_draft. revert Hn Hd.
  induction (messageDrafts db) as [|x l IH]; [by intros _ ?%not_elem_of_nil|]. cbn [map List.find]. intros [Hx Hn]%NoDup_cons Hd.
  apply elem_of_cons in Hd as [<-|Hd]; [by rewrite bool_decide_true|]. rewrite bool_decide_false; [by apply IH|].
  intros E. apply Hx. rewrite E, elem_of_In. by apply in_map, elem_of_In.
Qed.

Lemma find_write_draft row db d : find_draft (draftId row) db = Some d -> find_draft (draftId row) (write_draft row db) = Some row.
Proof.
  unfold find_draft, write_draft. cbn [messageDrafts with_drafts]. induction (messageDrafts db) as [|x l IH]; [done|]. cbn [map List.find].
  destruct (decide (draftId x = draftId row)) as [E|E].
  - rewrite !bool_decide_true by done. done.
  - rewrite !bool_decide_false by done. exact IH.
Qed.


(** ** Pages *)

#[export] Instance key_cmp_ok : CmpOk key_cmp.
Proof.
  unfold key_cmp. split.
  - intros [a x] [b y]. cbn [fst snd]. rewrite (cmp_antisym a b). destruct (Z.eqb_spec (zcmp a b) 0) as [E|E].
    + rewrite E. cbn. apply (cmp_antisym (f := list_cmp zcmp)).
    + destruct (Z.eqb_spec (- zcmp a b) 0); lia.
  - intros [a x] [b y]. cbn [fst snd]. destruct (Z.eqb_spec (zcmp a b) 0) as [E|E]; [|lia].
    intros H. apply (cmp_eq (f := list_cmp zcmp)) in H. apply cmp_eq in E. by subst.
  - intros [a x] [b y] [c z]. cbn [fst snd]. destruct (Z.eqb_spec (zcmp a b) 0) as [E|E].
    + apply cmp_eq in E as ->. destruct (zcmp b c =? 0); [apply (cmp_trans (f := list_cmp zcmp))|done].
    + intros H1. destruct (Z.eqb_spec (zcmp b c) 0) as [E2|E2].
      * apply cmp_eq in E2 as ->. destruct (Z.eqb_spec (zcmp a c) 0); lia.
      * intros H2. pose proof (cmp_lt_trans zcmp a b c H1 H2 ltac:(lia)). destruct (Z.eqb_spec (zcmp a c) 0); lia.
Qed.

Lemma url_char_dec c : dec6 (url_char c) = dec6 c.
Proof. by destruct c as [[] [] [] [] [] [] [] []]. Qed.

Lemma decode_encode64url l : decode64 (encode64url l) = l.
Proof.
  rewrite <- (proj1 (decode_encode64 l)) at 2. unfold decode64, encode64url. f_equal.
  induction (encode64 l) as [|c r IH]; [done|]. cbn [List.filter]. destruct (Ascii.eqb_spec c "=") as [->|H]; cbn [negb map sextets].
  - exact IH.
  - rewrite url_char_dec. destruct (dec6 c); by rewrite IH.
Qed.

(** A cursor gives back its position. *)
Lemma cursor_roundtrip c i : ok_text i -> cursor_key (Some (encodeCursor c i)) = Some (c, i).
Proof.
  intros Hi. unfold cursor_key, decodeCursor. set (v := JObj [(lit "c", JNum c); (lit "i", JStr i)] : json Z).
  assert (Hwf : Json.wf v).
  { apply wf_obj. split; [apply (bool_decide_unpack _); vm_compute; exact I|]. repeat constructor; done. }
  assert (Hd : decode64 (encodeCursor c i) = utf8_bytes (stringify v)) by apply decode_encode64url.
  destruct (encodeCursor c i) as [|x r]; [by apply (f_equal (@length ascii)) in Hd|].
  rewrite Hd, of_utf8_bytes by (by apply stringify_scalar). by rewrite parse_stringify.
Qed.

Definition order (ascending : bool) : MessageRow -> MessageRow -> bool := if ascending then asc else desc.

Definition before (ascending : bool) (a b : MessageRow) : Prop :=
  if ascending then key_cmp (row_key a) (row_key b) < 0 else key_cmp (row_key b) (row_key a) < 0.

Lemma order_total up a b : order up a b = true \/ order up b a = true.
Proof.
  pose proof (cmp_antisym (f := key_cmp) (row_key a) (row_key b)) as H. unfold order, desc, asc.
  destruct up; rewrite !Z.leb_le; lia.
Qed.

Lemma order_trans up a b c : order up a b = true -> order up b c = true -> order up a c = true.
Proof.
  unfold order, desc, asc. destruct up; rewrite !Z.leb_le; intros H1 H2; [by eapply (cmp_trans (f := key_cmp))|].
  by apply (cmp_trans (f := key_cmp) _ (row_key b)).
Qed.

Lemma order_before up a b : order up a b = true -> id a <> id b -> before up a b.
Proof.
  intros H Hid. assert (Hne : key_cmp (row_key a) (row_key b) <> 0).
  { intros E. apply (cmp_eq (f := key_cmp)) in E. injection E as _ E. done. }
  pose proof (cmp_antisym (f := key_cmp) (row_key a) (row_key b)) as Ha. unfold order, desc, asc, before in *.
  destruct up; apply Z.leb_le in H; lia.
Qed.

Lemma before_order up a b : before up a b -> order up a b = true.
Proof. unfold before, order, desc, asc. destruct up; rewrite Z.leb_le; lia. Qed.

Definition strictly (up : bool) (l : list MessageRow) : Prop := StronglySorted (before up) l.

Lemma sorted_strictly up l : NoDup (map id l) -> strictly up (stable_sort (order up) l).
Proof.
  intros Hn. pose proof (stable_sort_sorted (order up) (order_total up) (order_trans up) l) as Hs.
  assert (Hn' : NoDup (map id (stable_sort (order up) l))).
  { pose proof (stable_sort_perm (order up) l) as HP. apply (Permutation_map id) in HP. by rewrite HP. }
  clear Hn. induction Hs as [|a r Hr IH Ha]; [constructor|]. cbn [map] in Hn'. apply NoDup_cons in Hn' as [Hx Hn'].
  constructor; [by apply IH|]. rewrite List.Forall_forall in Ha |- *. intros b Hb. apply order_before; [by apply Ha|].
  intros E. apply Hx. rewrite E, elem_of_In. by apply in_map.
Qed.

Lemma strictly_unique up a b : strictly up a -> strictly up b -> a ≡ₚ b -> a = b.
Proof.
  intros Ha Hb HP. eapply (StronglySorted_unique_strong (before up)); [|exact Ha|exact Hb|exact HP]. intros x y _ _ H1 H2. exfalso.
  pose proof (cmp_antisym (f := key_cmp) (row_key x) (row_key y)). unfold before in *. destruct up; lia.
Qed.

Lemma filter_strictly up f l : strictly up l -> strictly up (List.filter f l).
Proof.
  induction 1 as [|a l Hl IH Ha]; [constructor|]. cbn [List.filter]. destruct (f a); [|done]. constructor; [done|].
  rewrite List.Forall_forall in Ha |- *. intros b [Hb _]%filter_In. by apply Ha.
Qed.

Lemma filter_perm {A} (f : A -> bool) a b : a ≡ₚ b -> List.filter f a ≡ₚ List.filter f b.
Proof.
  induction 1 as [|x a b _ IH|x y a|a b c _ IH1 _ IH2]; cbn [List.filter]; [done| | |by rewrite IH1].
  - destruct (f x); by rewrite IH.
  - destruct (f x), (f y); try done. apply perm_swap.
Qed.

Lemma filter_map_NoDup f (l : list MessageRow) : NoDup (map id l) -> NoDup (map id (List.filter f l)).
Proof. intros H. eapply sublist_NoDup; [exact H|]. rewrite <- !list_fmap_map. apply fmap_sublist, filter_sublist. Qed.

Lemma sort_filter up f l : NoDup (map id l) -> stable_sort (order up) (List.filter f l) = List.filter f (stable_sort (order up) l).
Proof.
  intros Hn. apply (strictly_unique up); [apply sorted_strictly; by apply filter_map_NoDup|by apply filter_strictly, sorted_strictly|].
  rewrite stable_sort_perm. apply filter_perm. symmetry. apply stable_sort_perm.
Qed.

(** Behind a row of a sorted list comes the rest of the list. *)
Lemma beyond_rest up x m y : strictly up (x ++ m :: y) -> List.filter (beyond up (Some (row_key m))) (x ++ m :: y) = y.
Proof.
  intros Hs. assert (Hb : forall a, beyond up (Some (row_key m)) a = true <-> before up m a).
  { intros a. unfold beyond, before. destruct up; apply Z.ltb_lt. }
  assert (Hirr : forall a b, before up a b -> ~ before up b a).
  { intros a b H1 H2. pose proof (cmp_antisym (f := key_cmp) (row_key a) (row_key b)). unfold before in *. destruct up; lia. }
  induction x as [|a x IH]; cbn [app] in *; apply StronglySorted_inv in Hs as [Hs Ha]; cbn [List.filter].
  - destruct (beyond up _ m) eqn:E; [apply Hb in E; exfalso; by eapply Hirr|]. rewrite filter_all; [done|].
    intros b Hb'. rewrite List.Forall_forall in Ha. by apply Hb, Ha, elem_of_In.
  - destruct (beyond up _ a) eqn:E; [|by apply IH]. exfalso. apply Hb in E. eapply Hirr; [exact E|].
    rewrite List.Forall_forall in Ha. apply Ha. apply in_app_iff. right. by left.
Qed.

Definition in_chat (chat : text) (branch : option text) (m : MessageRow) : bool :=
  bool_decide (chatId m = chat) && match branch with Some ((_ :: _) as b) => bool_decide (branchId m = b) | _ => true end.

Definition chat_rows (chat : text) (branch : option text) (db : Db) : list MessageRow := List.filter (in_chat chat branch) (messages db).

(** A page behind a cursor is the next part of the sorted rows. *)
Lemma page_rest chat branch cursor limit up db x y :
  NoDup (ids db) -> stable_sort (order up) (chat_rows chat branch db) = x ++ y ->
  match cursor_key cursor with None => x = [] | Some k => exists x' m, x = x' ++ [m] /\ k = row_key m end ->
  let page := list_page chat branch cursor limit up db in
  items page = take limit y /\ hasMore page = Nat.ltb limit (length y) /\
  nextCursor page = if Nat.ltb limit (length y) then match last (take limit y) with Some m => Some (encodeCursor (createdAt m) (id m)) | None => None end else None.
Proof.
  intros Hn Hs Hk. cbv zeta. unfold list_page.
  assert (Hsel : stable_sort (if up then asc else desc) (List.filter (fun m => bool_decide (chatId m = chat) &&
      match branch with Some ((_ :: _) as b) => bool_decide (branchId m = b) | _ => true end && beyond up (cursor_key cursor) m) (messages db)) = y).
  { change (if up then asc else desc) with (order up).
    replace (List.filter _ (messages db)) with (List.filter (beyond up (cursor_key cursor)) (chat_rows chat branch db)).
    - rewrite sort_filter by (by apply filter_map_NoDup). rewrite Hs. destruct (cursor_key cursor) as [k|].
      + destruct Hk as (x' & m & -> & ->). rewrite <- app_assoc. cbn [app]. apply beyond_rest.
        replace (x' ++ m :: y) with (stable_sort (order up) (chat_rows chat branch db)) by (by rewrite Hs, <- app_assoc).
        by apply sorted_strictly, filter_map_NoDup.
      + subst x. cbn [app]. by apply filter_all.
    - unfold chat_rows. rewrite filter_filter. apply filter_ext. intros m. unfold in_chat. by rewrite andb_comm. }
  rewrite Hsel. rewrite length_take. destruct (Nat.ltb_spec limit (length y)) as [Hlt|Hge].
  - replace (Nat.ltb limit (S limit `min` length y)) with true by (symmetry; apply Nat.ltb_lt; lia). cbn [items hasMore nextCursor].
    rewrite take_take, Nat.min_l by lia. done.
  - replace (Nat.ltb limit (S limit `min` length y)) with false by (symmetry; apply Nat.ltb_ge; lia). cbn [items hasMore nextCursor].
    by rewrite !take_ge by lia.
Qed.

Lemma walk_rest chat branch up limit db fuel : forall cursor x y,
  NoDup (ids db) -> Forall ok_text (ids db) -> (1 <= limit)%nat -> (length y < fuel)%nat ->
  stable_sort (order up) (chat_rows chat branch db) = x ++ y ->
  match cursor_key cursor with None => x = [] | Some k => exists x' m, x = x' ++ [m] /\ k = row_key m end ->
  walk_pages fuel limit chat branch up cursor db = Some y.
Proof.
  induction fuel as [|f IH]; intros cursor x y Hn Hok Hl Hf Hs Hk; [lia|]. cbn [walk_pages].
  destruct (page_rest chat branch cursor limit up db x y Hn Hs Hk) as (-> & -> & ->).
  destruct (Nat.ltb_spec limit (length y)) as [Hlt|Hge]; cbn [negb]; [|by rewrite take_ge by lia].
  destruct (last (take limit y)) as [m|] eqn:El.
  2: { apply last_None in El. apply (f_equal length) in El. rewrite length_take in El. cbn [length] in El. lia. }
  apply last_Some in El as (p & Ep).
  assert (Hm : m ∈ messages db).
  { assert (Hin : m ∈ stable_sort (order up) (chat_rows chat branch db)).
    { rewrite Hs. apply elem_of_app. right. rewrite <- (take_drop limit y), Ep. apply elem_of_app. left. apply elem_of_app. right. by left. }
    apply elem_of_stable_sort, elem_of_filter_bool in Hin. by destruct Hin. }
  rewrite (IH _ (x ++ take limit y) (drop limit y)); [by rewrite take_drop|done|done|done| | |].
  - rewrite length_drop. lia.
  - by rewrite <- app_assoc, take_drop.
  - rewrite cursor_roundtrip; [|rewrite List.Forall_forall in Hok; by apply Hok, elem_of_In, id_elem].
    exists (x ++ p), m. by rewrite Ep, app_assoc.
Qed.

Lemma strictly_snoc up l a : strictly up l -> (forall x, In x l -> before up x a) -> strictly up (l ++ [a]).
Proof.
  induction 1 as [|b l Hl IH Hb]; cbn [app]; intros Ha; [by repeat constructor|]. constructor; [apply IH; intros x Hx; apply Ha; by right|].
  apply List.Forall_app. split; [done|]. constructor; [apply Ha; by left|done].
Qed.

Lemma strictly_rev up l : strictly up l -> strictly (negb up) (rev l).
Proof.
  induction 1 as [|a l Hl IH Ha]; cbn [rev]; [constructor|]. apply strictly_snoc; [done|]. intros x Hx%in_rev.
  rewrite List.Forall_forall in Ha. specialize (Ha x Hx). unfold before in *. by destruct up.
Qed.

(** C14: reading in pages is complete.  In every reachable state, in either direction and
    for every page size, following the cursors from the first page on gives every
    message of the chat (or of the branch) exactly once, in the strict order of time and
    identifier; the loop ends, with the given fuel; the export is that list; and
    the history of a prompt is its end. *)
Theorem pages_complete used db chat branch up limit :
  reachable used db -> Forall ok_text (ids db) -> (1 <= limit)%nat ->
  let all := stable_sort (order up) (chat_rows chat branch db) in
  walk_pages (S (length (messages db))) limit chat branch up None db = Some all /\
  all ≡ₚ chat_rows chat branch db /\ strictly up all /\
  exportAll chat db = Some (stable_sort asc (chat_rows chat None db)) /\
  (forall b count, b <> [] -> let branchRows := stable_sort asc (chat_rows chat (Some b) db) in
     recentAscending chat b count db = drop (length branchRows - count) branchRows).
Proof.
  intros Hwf%reachable_wf Hok Hl. pose proof (wf_ids _ _ Hwf) as Hn.
  assert (Hlen : forall b u, (length (stable_sort (order u) (chat_rows chat b db)) < S (length (messages db)))%nat).
  { intros b u. rewrite (Permutation_length (stable_sort_perm _ _)). pose proof (filter_length_le (in_chat chat b) (messages db)). unfold chat_rows. lia. }
  cbv zeta. split_and!.
  - apply (walk_rest chat branch up limit db _ None []); [done|done|done|apply Hlen|done|done].
  - apply stable_sort_perm.
  - by apply sorted_strictly, filter_map_NoDup.
  - unfold exportAll. apply (walk_rest chat None true 1000 db _ None []); [done|done|lia|apply (Hlen None true)|done|done].
  - intros b count Hb. unfold recentAscending. destruct b as [|c b]; [done|].
    change (List.filter _ (messages db)) with (chat_rows chat (Some (c :: b)) db). set (F := chat_rows chat (Some (c :: b)) db).
    assert (Hrev : stable_sort desc F = rev (stable_sort asc F)).
    { apply (strictly_unique false).
      - by apply (sorted_strictly false), filter_map_NoDup.
      - apply (strictly_rev true). by apply (sorted_strictly true), filter_map_NoDup.
      - rewrite (stable_sort_perm desc F). rewrite <- (stable_sort_perm asc F) at 1. apply Permutation_rev. }
    rewrite Hrev. rewrite <- (rev_involutive (drop _ _)). f_equal. rewrite rev_drop.
    destruct (Nat.le_gt_cases count (length (stable_sort asc F))); [f_equal; lia|]. rewrite !take_ge by (rewrite length_rev; lia). done.
Qed.

(** ** Runs *)

#[export] Instance allowed_dec db op : Decision (allowed db op).
Proof. destruct op; cbn [allowed]; try apply _. destruct (find_message i db); apply _. Defined.

Fixpoint run_ops (used : list text) (db : Db) (ops : list Op) : list text * Db :=
  match ops with
  | [] => (used, db)
  | op :: r => run_ops (new_ids op ++ used) (step db op) r
  end.

Fixpoint ops_ok (used : list text) (db : Db) (ops : list Op) : bool :=
  match ops with
  | [] => true
  | op :: r => bool_decide (Forall (fun i => i <> [] /\ i ∉ used) (new_ids op)) && bool_decide (allowed db op) && ops_ok (new_ids op ++ used) (step db op) r
  end.

Lemma run_reachable used db ops : reachable used db -> ops_ok used db ops = true -> reachable (fst (run_ops used db ops)) (snd (run_ops used db ops)).
Proof.
  revert used db. induction ops as [|op r IH]; intros used db Hr; [done|]. cbn [ops_ok run_ops]. rewrite !andb_true_iff.
  intros [[Hn Ha] Hok]. apply bool_decide_eq_true in Hn, Ha. apply IH; [by apply reach_step|done].
Qed.

(** A reply that is replaced twice, edited and swiped back, and a draft that is
    committed. *)
Definition sample : list Op :=
  [Create (lit "c") (lit "b") (MkCreate (lit "assistant") (lit "one") None None (lit "{}") None) 1 (lit "m1");
   Replace (lit "m1") (lit "one") (lit "two") (lit "{}") 2 (lit "v1");
   Replace (lit "m1") (lit "two") (lit "three") (lit "{}") 3 (lit "v2");
   Update (lit "m1") (MkUpdate (Some (lit "tree")) None None None) (Some 3) true 4 (lit "r1");
   SetActive (lit "m1") 0 None 5 (lit "v3");
   CreateDraft (lit "c") (lit "b") None None (lit "{}") 6 (lit "d1");
   UpdateDraft (lit "d1") (Some (lit "draft")) None (Some 1) 7;
   CommitDraft (lit "d1") 8 (lit "m2")].

Definition sample_db : Db := snd (run_ops [] empty sample).
Definition sample_used : list text := fst (run_ops [] empty sample).

Lemma sample_reachable : reachable sample_used sample_db.
Proof. apply run_reachable; [apply reach_empty | vm_compute; reflexivity]. Qed.

(** A greeting that is replaced, and an edit of it, after the sample. *)
Definition greeted : list Op :=
  sample ++ [CreateGreeting (lit "c") (lit "b") (lit "Hello") (lit "{}") 9 (lit "g"); Replace (lit "g") (lit "Hello") (lit "Hi") (lit "{}") 10 (lit "g1");
    Update (lit "g") (MkUpdate (Some (lit "Hey")) None None None) None true 11 (lit "g2")].

Fixpoint ids_ok (used : list text) (ops : list Op) : bool :=
  match ops with
  | [] => true
  | op :: r => bool_decide (Forall (fun i => i <> [] /\ i ∉ used) (new_ids op)) && ids_ok (new_ids op ++ used) r
  end.

Lemma run_reached used db ops : reached used db -> ids_ok used ops = true -> reached (fst (run_ops used db ops)) (snd (run_ops used db ops)).
Proof.
  revert used db. induction ops as [|op r IH]; intros used db Hr; [done|]. cbn [ids_ok run_ops]. rewrite andb_true_iff.
  intros [Hn Hok]. apply bool_decide_eq_true in Hn. apply IH; [by apply reached_step|done].
Qed.

Lemma greeted_reached : reached (fst (run_ops [] empty greeted)) (snd (run_ops [] empty greeted)).
Proof. apply run_reached; [apply reached_empty | vm_compute; reflexivity]. Qed.

Lemma sample_reached : reached sample_used sample_db.
Proof. apply run_reached; [apply reached_empty | vm_compute; reflexivity]. Qed.

Lemma variants_permutation_witness :
  2 :: 1 :: [0] ≡ₚ [0; 1; 2] /\
  (let db := snd (run_ops [] empty greeted) in
   map (fun m => (id m, positions (id m) (messageContentRevisions db))) (messages db) = [(lit "m1", [0]); (lit "m2", []); (lit "g", [0])] /\
   forall m, m ∈ messages db ->
     positions (id m) (messageContentRevisions db) ≡ₚ map Z.of_nat (seq 0 (Z.to_nat (contentRevisionCount m)))) /\
  (forall m p, m ∈ messages sample_db -> activeVariantPosition m = Some p ->
     p :: positions (id m) (messageVariants sample_db) ≡ₚ map Z.of_nat (seq 0 (Z.to_nat (variantCount m)))).
Proof.
  split; [symmetry; apply (Permutation_rev [0; 1; 2])|]. split; [split; [vm_compute; reflexivity|]|].
  - exact (proj1 (variants_permutation _ _ greeted_reached)).
  - exact (proj1 (proj2 (proj2 (variants_permutation sample_used sample_db sample_reached)) sample_reachable)).
Defined.

Lemma edits_keep_texts_witness :
  has_text sample_db (lit "m1") (lit "three") /\ has_text (step sample_db (Update (lit "m1") (MkUpdate (Some (lit "new")) None None None) None true 9 (lit "r2"))) (lit "m1") (lit "one").
Proof.
  assert (Hone : has_text sample_db (lit "m1") (lit "one")) by (left; eexists; split; [vm_compute; left | split; reflexivity]).
  split; [right; right; eexists; split; [vm_compute; left | split; reflexivity]|].
  apply (proj1 (edits_keep_texts sample_used sample_db sample_reachable)); [|exact Hone|intros [_ [=]]].
  apply (bool_decide_unpack _). vm_compute. exact I.
Defined.


Lemma pages_complete_witness :
  walk_pages 3 1 (lit "c") (Some (lit "b")) false None sample_db = Some (stable_sort desc (chat_rows (lit "c") (Some (lit "b")) sample_db)) /\
  map id (stable_sort desc (chat_rows (lit "c") (Some (lit "b")) sample_db)) = [lit "m2"; lit "m1"].
Proof.
  split; [|vm_compute; reflexivity].
  refine (proj1 (pages_complete sample_used sample_db (lit "c") (Some (lit "b")) false 1 sample_reachable _ _)); [|lia].
  repeat constructor.
Defined.
End Messages.
