(* ===== verification/Generate.v ===== *)
(** * Generating a reply
    (apps/server: plugins/generate.ts, pipeline/postProcess.ts; the table of prompt
    audits of packages/db: repositories/promptContextAudits.ts)

    A request for a reply finds the message that it replaces, saves the message of
    the user, streams the events of a provider to the client, and saves the text
    when the stream is done.  Between any two awaits other requests may change the
    tables; the steps of the handler are therefore operations of a system whose
    tables they share, that of the audits with one row for each chat among them. *)

From Stdlib Require Import ZArith Lia Bool Ascii String List Permutation.
From stdpp Require Import base decidable list.
From S2P Require Import Prelude Codec Json ProviderStream Messages.
Import Codec Json.
Local Open Scope Z_scope.

Module Generate.

Abbreviation text := (list Z).

(** ** Hooks on the finished text *)

(** What a call of a hook comes to; a timeout rejects like an exception. *)
Inductive HookResult :=
| Returns (t : text)
| ReturnsOther
| Rejects (message : text).

(** A hook; the context of the call is part of [process]. *)
Record PostProcessor := MkProcessor {
  processorId : text;
  priority : option Z;
  requiredPermission : option text;
  process : text -> HookResult
}.

Definition MAX_POST_PROCESS_LENGTH : Z := 200000.

(** The registered objects, with a reference for each. *)
Abbreviation registry := (list (nat * PostProcessor)).

Definition register (ref : nat) (p : PostProcessor) (l : registry) : outcome text registry :=
  match trim_text (processorId p) with
  | [] => Throw (lit "Post-processor id must not be empty")
  | _ => Ok (l ++ [(ref, p)])
  end.

(** The clean-up of a registration takes the first occurrence of its object. *)
Fixpoint unregister (ref : nat) (l : registry) : registry :=
  match l with
  | [] => []
  | x :: r => if Nat.eqb (fst x) ref then r else x :: unregister ref r
  end.

Definition rank (p : PostProcessor) : Z := match priority p with Some n => n | None => 100 end.

Definition ordered (l : registry) : list PostProcessor :=
  stable_sort (fun a b => rank a <=? rank b) (map snd l).

Definition journal (p : PostProcessor) (what : text) : text := lit "post-process " ++ [34] ++ processorId p ++ [34] ++ what.

(** [requiredPermission && !(hasPermission?.(requiredPermission) ?? true)] *)
Definition permitted (hasPermission : option (text -> bool)) (p : PostProcessor) : option text :=
  match requiredPermission p, hasPermission with
  | Some ((_ :: _) as perm), Some has => if has perm then None else Some perm
  | _, _ => None
  end.

(** One hook: the text after it, and its entry of the journal. *)
Definition run_hook (hasPermission : option (text -> bool)) (p : PostProcessor) (current : text) : text * text :=
  match permitted hasPermission p with
  | Some perm => (current, journal p (lit " skipped (missing permission " ++ [34] ++ perm ++ [34] ++ lit ")"))
  | None =>
      match process p current with
      | Returns result =>
          if MAX_POST_PROCESS_LENGTH <? Codec.length16 result then (current, journal p (lit " skipped (result too large)"))
          else (result, journal p (lit " applied"))
      | ReturnsOther => (current, journal p (lit " skipped (non-string result)"))
      | Rejects message => (current, journal p (lit " skipped (" ++ message ++ lit ")"))
      end
  end.

Fixpoint runPostProcessors (hasPermission : option (text -> bool)) (processors : list PostProcessor) (current : text) : text * list text :=
  match processors with
  | [] => (current, [])
  | p :: r =>
      let (next, entry) := run_hook hasPermission p current in
      let (final, diagnostics) := runPostProcessors hasPermission r next in
      (final, entry :: diagnostics)
  end.

(** The hooks that a text meets without being skipped. *)
Definition applies (hasPermission : option (text -> bool)) (p : PostProcessor) (current : text) : option text :=
  match permitted hasPermission p, process p current with
  | None, Returns result => if MAX_POST_PROCESS_LENGTH <? Codec.length16 result then None else Some result
  | _, _ => None
  end.

(** ** The handler of a request *)

Section Handler.
Context {N : Type} `{!NumberText N}.

Abbreviation event := (ProviderStream.GenerationEvent (N := N)).
Abbreviation usage := (ProviderStream.TokenUsage (N := N)).

Record Request := MkRequest {
  regenerate : bool;
  regenerateMessageId : option text;
  userMessage : option text
}.

Inductive Status := Prepared | Completed | Failed | Cancelled.

(** The audit of a prompt, as far as its end goes. *)
Record Audit := MkAudit { status : Status; errorCode : option string; auditUsage : option usage }.

(** [prompt_context_audits]: a row for each chat, with the generation that wrote it. *)
Abbreviation Audits := (list (text * (text * Audit))).

(** [/^[A-Z][A-Z0-9_]{0,127}$/] *)
Definition stable_code (code : string) : bool :=
  match chars code with
  | c :: r => is_upper c && forallb (fun x => is_upper x || is_digit x || (x =? "_")%char) r && (length r <=? 127)%nat
  | [] => false
  end.

(** [PromptContextAuditRepository.prepare]: a row of the chat is overwritten. *)
Definition prepare (chatId generationId : text) (audits : Audits) : Audits :=
  map_set chatId (generationId, MkAudit Prepared None None) audits.

(** The update of [finish], [WHERE chat_id = ? AND generation_id = ?]. *)
Definition update_row (chatId generationId : text) (u : Audit) (audits : Audits) : Audits :=
  match map_get chatId audits with
  | Some (latest, _) => if bool_decide (latest = generationId) then map_set chatId (generationId, u) audits else audits
  | None => audits
  end.

(** [update.errorCode && !/.../.test(update.errorCode)] *)
Definition unstable (code : option string) : bool :=
  match code with Some (String _ _ as c) => negb (stable_code c) | _ => false end.

(** [PromptContextAuditRepository.finish] *)
Definition finish (chatId generationId : text) (s : Status) (code : option string) (u : option usage) (audits : Audits) : outcome string Audits :=
  if unstable code then Throw "TypeError"%string else Ok (update_row chatId generationId (MkAudit s code u) audits).

(** What the server's event bus is told. *)
Inductive HostEvent :=
| GenerationStarted
| GenerationDelta (t : text)
| GenerationError (code : string)
| MessageUpdated (i : text) (revision : Z)
| MessageCreated (i : text)
| GenerationFinished (t : text).

(** How far the handler is. *)
Inductive Phase := Opened | Targeted | Captured | Persisted | Streaming | Closed.

Record Generation := MkGeneration {
  request : Request;
  chat : text;
  branch : text;
  phase : Phase;
  target : option text;
  regeneratedContent : option text;
  assistantPrefill : option text;
  prefillSentWithDelta : bool;
  terminalAuditWritten : bool;
  client : list event;
  emitted : list HostEvent;
  received : list event
}.

Definition with_phase (p : Phase) (g : Generation) : Generation :=
  MkGeneration (request g) (chat g) (branch g) p (target g) (regeneratedContent g) (assistantPrefill g) (prefillSentWithDelta g)
    (terminalAuditWritten g) (client g) (emitted g) (received g).

Definition send (e : event) (g : Generation) : Generation :=
  MkGeneration (request g) (chat g) (branch g) (phase g) (target g) (regeneratedContent g) (assistantPrefill g) (prefillSentWithDelta g)
    (terminalAuditWritten g) (client g ++ [e]) (emitted g) (received g).

Definition emit (e : HostEvent) (g : Generation) : Generation :=
  MkGeneration (request g) (chat g) (branch g) (phase g) (target g) (regeneratedContent g) (assistantPrefill g) (prefillSentWithDelta g)
    (terminalAuditWritten g) (client g) (emitted g ++ [e]) (received g).

Definition receive (e : event) (g : Generation) : Generation :=
  MkGeneration (request g) (chat g) (branch g) (phase g) (target g) (regeneratedContent g) (assistantPrefill g) (prefillSentWithDelta g)
    (terminalAuditWritten g) (client g) (emitted g) (received g ++ [e]).

Definition mark_written (g : Generation) : Generation :=
  MkGeneration (request g) (chat g) (branch g) (phase g) (target g) (regeneratedContent g) (assistantPrefill g) (prefillSentWithDelta g)
    true (client g) (emitted g) (received g).

Definition mark_sent (b : bool) (g : Generation) : Generation :=
  MkGeneration (request g) (chat g) (branch g) (phase g) (target g) (regeneratedContent g) (assistantPrefill g)
    (prefillSentWithDelta g || b) (terminalAuditWritten g) (client g) (emitted g) (received g).

(** The code that an error is reported with. *)
Definition reported (code : string) (aborted : bool) : string :=
  if aborted && (code =? "INTERNAL")%string then "GENERATION_CANCELLED"%string else code.

(** The [catch] and [finally] of the handler of the generation [i], for an error with
    [code]; what the update of the audit throws leaves the [catch]. *)
Definition caught (i : text) (code : string) (aborted : bool) (g : Generation) (audits : Audits) : Generation * Audits :=
  let c := reported code aborted in
  let told := with_phase Closed (send (ProviderStream.Error c) (emit (GenerationError c) g)) in
  if terminalAuditWritten g then (told, audits)
  else
    match finish (chat g) i (if aborted || (c =? "GENERATION_CANCELLED")%string || (c =? "ABORTED")%string then Cancelled else Failed) (Some c) None audits with
    | Ok audits' => (told, audits')
    | Throw _ => (with_phase Closed g, audits)
    end.

(** A string that is not empty, as a condition. *)
Definition given (s : option text) : bool := match s with Some (_ :: _) => true | _ => false end.

(** The message that is replaced, checked before anything else happens. *)
Definition find_target (r : Request) (chat branch : text) (db : Messages.Db) : outcome string (option text) :=
  if regenerate r || given (regenerateMessageId r) then
    let lastMessage := last (Messages.recentAscending chat branch 1 db) in
    match regenerateMessageId r with
    | Some ((_ :: _) as i) =>
        match lastMessage with
        | Some m => if bool_decide (Messages.id m = i) && bool_decide (Messages.role m = lit "assistant") then Ok (Some (Messages.id m))
                    else Throw "REGENERATE_TARGET_MOVED"%string
        | None => Throw "REGENERATE_TARGET_MOVED"%string
        end
    | _ =>
        match lastMessage with
        | Some m => if bool_decide (Messages.role m = lit "assistant") then Ok (Some (Messages.id m)) else Ok None
        | None => Ok None
        end
    end
  else Ok None.

Definition capture (i : option text) (db : Messages.Db) : option text :=
  match i with
  | Some ((_ :: _) as j) => match Messages.find_message j db with Some m => Some (Messages.content m) | None => None end
  | _ => None
  end.

(** The message of the user, unless a reply is generated anew. *)
Definition user_text (r : Request) : option text :=
  if regenerate r || given (regenerateMessageId r) then None
  else match userMessage r with
       | Some t => match trim_text t with [] => None | _ => Some t end
       | None => None
       end.

Definition plain_message (role content meta : text) : Messages.MessageCreate := Messages.MkCreate role content None None meta None.

Definition prefixed (prefill : option text) (t : text) : text := match prefill with Some p => p ++ t | None => t end.

(** One turn of the loop over the events of the adapter, up to the end of the
    handler where it ends; [aborted] is the abort signal at that time, [metaOf] the
    meta data of the reply. *)
Definition on_event (i : text) (hasPermission : option (text -> bool)) (hooks : list PostProcessor) (metaOf : list text -> text) (now : Z)
    (newId : text) (aborted : bool) (e : event) (g0 : Generation) (db : Messages.Db) (audits : Audits) : Generation * Messages.Db * Audits :=
  let g := receive e g0 in
  let fails code g db := let (g', audits') := caught i code aborted g audits in (g', db, audits') in
  match e with
  | ProviderStream.Start => (send e g, db, audits)
  | ProviderStream.Delta t =>
      let outgoing := if negb (prefillSentWithDelta g) && negb (bool_decide (t = [])) then prefixed (assistantPrefill g) t else t in
      (emit (GenerationDelta outgoing) (send (ProviderStream.Delta outgoing) (mark_sent (negb (bool_decide (t = []))) g)), db, audits)
  | ProviderStream.Error code =>
      let c := if stable_code code then code else "GENERATION_FAILED"%string in
      match finish (chat g) i (if aborted || (c =? "GENERATION_CANCELLED")%string then Cancelled else Failed) (Some c) None audits with
      | Ok audits' => (with_phase Closed (emit (GenerationError c) (send e (mark_written g))), db, audits')
      | Throw _ => fails "INTERNAL"%string g db
      end
  | ProviderStream.Done t u =>
      let providerText := prefixed (assistantPrefill g) t in
      let (finalText, diagnostics) := runPostProcessors hasPermission hooks providerText in
      let completed h db :=
        let g' := send (ProviderStream.Done finalText u) (emit h g) in
        match finish (chat g) i Completed None (Some u) audits with
        | Ok audits' => (emit (GenerationFinished finalText) (mark_written g'), db, audits')
        | Throw _ => fails "INTERNAL"%string g' db
        end in
      match trim_text finalText with
      | [] => fails "EMPTY_RESPONSE"%string g db
      | _ =>
          match target g, regeneratedContent g with
          | Some ((_ :: _) as j), Some old =>
              match Messages.replaceContentAsVariant j old finalText (metaOf diagnostics) now newId db with
              | Ok (db', Messages.Updated m) => completed (MessageUpdated j (Messages.revision m)) db'
              | Ok (db', _) => fails "MESSAGE_NOT_FOUND"%string g db'
              | Throw _ => fails "INTERNAL"%string g db
              end
          | _, _ =>
              match Messages.create (chat g) (branch g) (plain_message (lit "assistant") finalText (metaOf diagnostics)) now newId db with
              | Ok (db', m) => completed (MessageCreated (Messages.id m)) db'
              | Throw _ => fails "INTERNAL"%string g db
              end
          end
      end
  end.

Definition on_end (i : text) (aborted : bool) (g : Generation) (audits : Audits) : Generation * Audits :=
  if terminalAuditWritten g then (with_phase Closed g, audits) else caught i "GENERATION_FAILED" aborted g audits.

(** ** Requests that share the tables *)

Record System := MkSystem { db : Messages.Db; audits : Audits; generations : list (text * Generation) }.

Inductive Op :=
| Receive (g chat : text) (branch : option text) (r : Request)
| FindTarget (g : text) (aborted : bool)
| Capture (g : text)
| Persist (g : text) (aborted : bool) (now : Z) (newId : text)
| Prepare (g : text) (prefill : option text)
| Event (g : text) (hasPermission : option (text -> bool)) (hooks : list PostProcessor) (metaOf : list text -> text) (now : Z)
    (newId : text) (aborted : bool) (e : event)
| EndOfStream (g : text) (aborted : bool)
| Fails (g : text) (code : string) (aborted : bool)
| Other (op : Messages.Op).

Definition new_generation (r : Request) (chat branch : text) : Generation :=
  MkGeneration r chat branch Opened None None None false false [] [] [].

Definition phase_eqb (a b : Phase) : bool :=
  match a, b with
  | Opened, Opened | Targeted, Targeted | Captured, Captured | Persisted, Persisted | Streaming, Streaming | Closed, Closed => true
  | _, _ => false
  end.

(** A step of the generation [i], when it is in phase [p]. *)
Definition on (i : text) (p : Phase) (f : Generation -> Messages.Db -> Audits -> Generation * Messages.Db * Audits) (s : System) : System :=
  match map_get i (generations s) with
  | Some g =>
      if phase_eqb (phase g) p then let '(g', db', audits') := f g (db s) (audits s) in MkSystem db' audits' (map_set i g' (generations s)) else s
  | None => s
  end.

Definition do_find (i : text) (aborted : bool) (g : Generation) (d : Messages.Db) (a : Audits) : Generation * Messages.Db * Audits :=
  match find_target (request g) (chat g) (branch g) d with
  | Ok t => (MkGeneration (request g) (chat g) (branch g) Targeted t None None false (terminalAuditWritten g) (client g)
               (emitted g) (received g), d, a)
  | Throw code => let (g', a') := caught i code aborted g a in (g', d, a')
  end.

Definition do_capture (g : Generation) (d : Messages.Db) (a : Audits) : Generation * Messages.Db * Audits :=
  (MkGeneration (request g) (chat g) (branch g) Captured (target g) (capture (target g) d) None false (terminalAuditWritten g)
     (client g) (emitted g) (received g), d, a).

Definition do_persist (i : text) (aborted : bool) (now : Z) (newId : text) (g : Generation) (d : Messages.Db) (a : Audits)
    : Generation * Messages.Db * Audits :=
  match user_text (request g) with
  | Some t =>
      match Messages.create (chat g) (branch g) (plain_message (lit "user") t (lit "{}")) now newId d with
      | Ok (d', _) => (with_phase Persisted g, d', a)
      | Throw _ => let (g', a') := caught i "INTERNAL" aborted g a in (g', d, a')
      end
  | None => (with_phase Persisted g, d, a)
  end.

(** The prompt is built, and its audit is written over that of the chat. *)
Definition do_prepare (i : text) (prefill : option text) (g : Generation) (d : Messages.Db) (a : Audits) : Generation * Messages.Db * Audits :=
  (emit GenerationStarted
     (MkGeneration (request g) (chat g) (branch g) Streaming (target g) (regeneratedContent g) prefill false
        (terminalAuditWritten g) (client g) (emitted g) (received g)), d, prepare (chat g) i a).

Definition step (s : System) (op : Op) : System :=
  match op with
  | Receive i chat b r =>
      if map_has i (generations s) then s
      else match b with
           | Some branch => MkSystem (db s) (audits s) (map_set i (new_generation r chat branch) (generations s))
           | None => MkSystem (db s) (audits s)
                       (map_set i (with_phase Closed (send (ProviderStream.Error "CHAT_NOT_FOUND") (new_generation r chat []))) (generations s))
           end
  | FindTarget i aborted => on i Opened (do_find i aborted) s
  | Capture i => on i Targeted do_capture s
  | Persist i aborted now n => on i Captured (do_persist i aborted now n) s
  | Prepare i prefill => on i Persisted (do_prepare i prefill) s
  | Event i has hooks metaOf now n aborted e => on i Streaming (on_event i has hooks metaOf now n aborted e) s
  | EndOfStream i aborted => on i Streaming (fun g d a => let (g', a') := on_end i aborted g a in (g', d, a')) s
  | Fails i code aborted =>
      match map_get i (generations s) with
      | Some g => if phase_eqb (phase g) Closed then s
                  else let (g', a') := caught i code aborted g (audits s) in MkSystem (db s) a' (map_set i g' (generations s))
      | None => s
      end
  | Other op => MkSystem (Messages.step (db s) op) (audits s) (generations s)
  end.

(** What the handler of one request does, when the adapter yields [events]. *)
Definition handle (i chat branch : text) (r : Request) (prefill : option text) (hasPermission : option (text -> bool))
    (hooks : list PostProcessor) (metaOf : list text -> text) (now : Z) (userId replyId : text) (events : list event) : list Op :=
  [Receive i chat (Some branch) r; FindTarget i false; Capture i; Persist i false now userId; Prepare i prefill] ++
  map (Event i hasPermission hooks metaOf now replyId false) events ++ [EndOfStream i false].

(** *** What clients and listeners are told *)

(** The texts that the client gets for those of the adapter: the prefill comes in
    front of the first that is not empty. *)
Fixpoint sent (prefill : option text) (ds : list text) : list text :=
  match ds with
  | [] => []
  | [] :: r => [] :: sent prefill r
  | d :: r => prefixed prefill d :: r
  end.

Definition told (prefill : option text) (ds : list text) : list HostEvent := GenerationStarted :: map GenerationDelta (sent prefill ds).

Definition some_text (ds : list text) : bool := existsb (fun d => negb (bool_decide (d = []))) ds.

Definition is_last (e : event) : bool := match e with ProviderStream.Done _ _ | ProviderStream.Error _ => true | _ => false end.

Definition is_write (h : HostEvent) : bool := match h with MessageUpdated _ _ | MessageCreated _ => true | _ => false end.

(** How a generation stands that has been given [ds]. *)
Definition streamed (ds : list text) (g : Generation) : Prop :=
  received g = ProviderStream.Start :: map ProviderStream.Delta ds /\
  client g = ProviderStream.Start :: map ProviderStream.Delta (sent (assistantPrefill g) ds) /\
  emitted g = told (assistantPrefill g) ds /\ prefillSentWithDelta g = some_text ds.

(** How it stands when the reply is saved, and when it has failed. *)
Definition succeeded (g : Generation) : Prop :=
  exists ds u final w hasPermission hooks,
    received g = ProviderStream.Start :: map ProviderStream.Delta ds ++ [ProviderStream.Done (concat ds) u] /\
    client g = ProviderStream.Start :: map ProviderStream.Delta (sent (assistantPrefill g) ds) ++ [ProviderStream.Done final u] /\
    emitted g = told (assistantPrefill g) ds ++ [w; GenerationFinished final] /\ is_write w = true /\
    final = fst (runPostProcessors hasPermission hooks (prefixed (assistantPrefill g) (concat ds))) /\ trim_text final <> [].

Definition failed (g : Generation) : Prop :=
  exists before code,
    client g = before ++ [ProviderStream.Error code] /\ forallb (fun e => negb (is_last e)) before = true /\
    forallb (fun h => negb (is_write h)) (emitted g) = true /\
    (emitted g = [] \/ exists events c, emitted g = events ++ [GenerationError c]).

Inductive gen_ok (g : Generation) : Prop :=
| ok_early : phase g <> Streaming -> phase g <> Closed -> client g = [] -> emitted g = [] -> received g = [] ->
    terminalAuditWritten g = false -> gen_ok g
| ok_fresh : phase g = Streaming -> client g = [] -> emitted g = [GenerationStarted] -> received g = [] ->
    terminalAuditWritten g = false -> prefillSentWithDelta g = false -> gen_ok g
| ok_streaming ds : phase g = Streaming -> streamed ds g -> terminalAuditWritten g = false -> gen_ok g
| ok_succeeded : phase g = Streaming \/ phase g = Closed -> terminalAuditWritten g = true -> succeeded g -> gen_ok g
| ok_failed : phase g = Closed -> failed g -> gen_ok g.

(** How the audit of a generation stands, while it is the one of its chat. *)
Inductive row_ok (g : Generation) (a : Audit) : Prop :=
| row_prepared : phase g = Streaming -> terminalAuditWritten g = false -> a = MkAudit Prepared None None -> row_ok g a
| row_completed t u : terminalAuditWritten g = true -> last (client g) = Some (ProviderStream.Done t u) ->
    a = MkAudit Completed None (Some u) -> row_ok g a
| row_failed code c st : phase g = Closed -> last (client g) = Some (ProviderStream.Error code) -> last (emitted g) = Some (GenerationError c) ->
    st = Failed \/ st = Cancelled -> a = MkAudit st (Some c) None -> row_ok g a.

(** The adapter keeps its contract; what is thrown is thrown in place of a last event,
    with one of the codes of the program. *)
Definition allowed (s : System) (op : Op) : Prop :=
  match op with
  | Event i _ _ _ _ _ _ e =>
      forall g, map_get i (generations s) = Some g -> exists rest, ProviderStream.well_formed_run (received g ++ e :: rest)
  | Fails i code _ => stable_code code = true /\ forall g, map_get i (generations s) = Some g -> terminalAuditWritten g = false
  | _ => True
  end.

Inductive reaches : System -> Prop :=
| reaches_initial d : reaches (MkSystem d [] [])
| reaches_step s op : reaches s -> allowed s op -> reaches (step s op).
End Handler.

(** ** Lemmas on hooks *)

Lemma run_hook_applies has p t : fst (run_hook has p t) = match applies has p t with Some u => u | None => t end.
Proof. unfold run_hook, applies. destruct (permitted has p); [done|]. destruct (process p t); try done. by destruct (_ <? _). Qed.

Lemma runPostProcessors_cons has p r t :
  fst (runPostProcessors has (p :: r) t) = fst (runPostProcessors has r (fst (run_hook has p t))).
Proof. cbn. destruct (run_hook has p t) as [u e]. cbn. by destruct (runPostProcessors has r u). Qed.

Lemma runPostProcessors_app has a b t :
  fst (runPostProcessors has (a ++ b) t) = fst (runPostProcessors has b (fst (runPostProcessors has a t))).
Proof. revert t. induction a as [|p a IH]; intros t; [done|]. cbn [app]. by rewrite !runPostProcessors_cons. Qed.

Lemma applies_bound has p t u : applies has p t = Some u -> Codec.length16 u <= MAX_POST_PROCESS_LENGTH.
Proof.
  unfold applies. destruct (permitted has p); [done|]. destruct (process p t) as [v| |]; try done.
  destruct (_ <? _) eqn:E; [done|]. intros [= ->]. by apply Z.ltb_ge in E.
Qed.

Lemma runPostProcessors_bound has l t :
  Codec.length16 (fst (runPostProcessors has l t)) <= Z.max (Codec.length16 t) MAX_POST_PROCESS_LENGTH.
Proof.
  revert t. induction l as [|p l IH]; intros t; [apply Z.le_max_l|]. rewrite runPostProcessors_cons, run_hook_applies.
  etransitivity; [apply IH|]. destruct (applies has p t) eqn:E; [|lia]. apply applies_bound in E. lia.
Qed.

(** One broken hook never breaks a reply.  Hooks run in the order of their
    priority, equal ones in the order of their registration, and each leaves one
    entry in the journal; a hook that rejects, times out, gives no text or too long a
    one, or lacks its permission might as well not be registered; and no hook can
    make a reply longer than the bound. *)
Theorem hooks_isolated has (l : registry) t :
  let hooks := ordered l in
  hooks ≡ₚ map snd l /\
  Sorted.StronglySorted (fun a b => rank a <= rank b) hooks /\
  length (snd (runPostProcessors has hooks t)) = length l /\
  (forall a p b, hooks = a ++ p :: b -> applies has p (fst (runPostProcessors has a t)) = None ->
     fst (runPostProcessors has hooks t) = fst (runPostProcessors has (a ++ b) t)) /\
  Codec.length16 (fst (runPostProcessors has hooks t)) <= Z.max (Codec.length16 t) MAX_POST_PROCESS_LENGTH.
Proof.
  intros hooks. assert (P : hooks ≡ₚ map snd l) by apply stable_sort_perm. split_and!; [done|..|apply runPostProcessors_bound].
  - assert (S : Sorted.StronglySorted (fun a b => (rank a <=? rank b) = true) hooks) by (apply stable_sort_sorted; intros; lia).
    clear P. induction S as [|a k S IH Ha]; constructor; [exact IH|]. eapply Forall_impl; [exact Ha|]. cbn. lia.
  - transitivity (length hooks); [|by rewrite P, length_map]. clear P. generalize hooks as k. intros k. revert t.
    induction k as [|p k IH]; intros t; [done|]. cbn. destruct (run_hook has p t) as [u e]. specialize (IH u).
    destruct (runPostProcessors has k u). cbn in *. by f_equal.
  - intros a p b -> H. by rewrite !runPostProcessors_app, runPostProcessors_cons, run_hook_applies, H.
Qed.

(** ** Lemmas on the steps of a generation *)

Section Lemmas.
Context {N : Type} `{!NumberText N}.

Abbreviation event := (ProviderStream.GenerationEvent (N := N)).
Abbreviation Gen := (Generation (N := N)).
Abbreviation Deltas := (map (ProviderStream.Delta (N := N))).
Abbreviation Audits := (list (text * (text * Audit (N := N)))).

Lemma sent_app p ds d :
  sent p (ds ++ [d]) = sent p ds ++ [if negb (some_text ds) && negb (bool_decide (d = [])) then prefixed p d else d].
Proof.
  induction ds as [|[|c x] ds IH]; [by destruct d| |done].
  change (some_text ([] :: ds)) with (some_text ds). cbn [app sent]. by rewrite IH.
Qed.

Lemma some_text_app ds d : some_text (ds ++ [d]) = some_text ds || negb (bool_decide (d = [])).
Proof. unfold some_text. rewrite existsb_app. cbn. by rewrite orb_false_r. Qed.

(** Together the client's texts are the prefill and those of the adapter. *)
Lemma concat_sent p ds : concat ds <> [] -> concat (sent p ds) = prefixed p (concat ds).
Proof.
  induction ds as [|[|c x] ds IH]; intros H; [done|by apply IH|]. cbn. destruct p; [cbn; by rewrite <- app_assoc|done].
Qed.

Lemma last_event ds e rest ds' (x : event) :
  Deltas ds ++ e :: rest = Deltas ds' ++ [x] -> is_last x = true -> (exists d, e = ProviderStream.Delta d) \/ (e = x /\ rest = [] /\ ds = ds').
Proof.
  intros H Hx. revert ds' H. induction ds as [|d ds IH]; intros [|d' ds'] H; cbn in H; injection H as E H.
  - by right.
  - left. by exists d'.
  - subst x. done.
  - subst d'. apply IH in H as [?|(? & ? & ->)]; [by left|by right].
Qed.

(** What may come next in a run that keeps the contract. *)
Lemma run_next ds (e : event) rest : ProviderStream.well_formed_run (ProviderStream.Start :: Deltas ds ++ e :: rest) ->
  (exists d, e = ProviderStream.Delta d) \/ (exists u, e = ProviderStream.Done (concat ds) u /\ rest = []) \/
  (exists c, e = ProviderStream.Error c /\ rest = []).
Proof.
  intros (ds' & [[u H]|[c H]]); injection H as H; apply last_event in H as [H|(-> & -> & ->)]; eauto.
Qed.

Lemma run_first (e : event) rest : ProviderStream.well_formed_run (e :: rest) -> e = ProviderStream.Start.
Proof. intros (ds' & [[u H]|[c H]]); by injection H. Qed.

Lemma run_over ds (x e : event) rest : is_last x = true -> ~ ProviderStream.well_formed_run (ProviderStream.Start :: (Deltas ds ++ [x]) ++ e :: rest).
Proof.
  rewrite <- app_assoc. intros Hx (ds' & [[u H]|[c H]]); injection H as H; cbn in H; apply last_event in H as [[d ->]|(_ & H & _)]; done.
Qed.

Lemma no_last_deltas l : forallb (fun e : event => negb (is_last e)) (ProviderStream.Start :: Deltas l) = true.
Proof. cbn. by induction l. Qed.

Lemma no_write_told p ds : forallb (fun h => negb (is_write h)) (told p ds) = true.
Proof. unfold told. cbn. by induction (sent p ds). Qed.

(** The state that an error with a code of the program leaves. *)
Definition failed_gen (code : string) (aborted : bool) (g : Gen) : Gen :=
  with_phase Closed (send (ProviderStream.Error (reported code aborted)) (emit (GenerationError (reported code aborted)) g)).

Lemma reported_stable code aborted : stable_code code = true -> stable_code (reported code aborted) = true.
Proof. unfold reported. by destruct (aborted && _). Qed.

Lemma finish_stable ch i st c u (a : Audits) : stable_code c = true -> finish ch i st (Some c) u a = Ok (update_row ch i (MkAudit st (Some c) u) a).
Proof. intros H. unfold finish. cbn. rewrite H. by destruct c. Qed.

(** What an error does to the table of the audits. *)
Definition fails_row (i : text) (c : string) (g : Gen) (a a' : Audits) : Prop :=
  exists st, (st = Failed \/ st = Cancelled) /\ a' = if terminalAuditWritten g then a else update_row (chat g) i (MkAudit st (Some c) None) a.

Lemma caught_stable i code aborted (g : Gen) a : stable_code code = true ->
  exists a', caught i code aborted g a = (failed_gen code aborted g, a') /\ fails_row i (reported code aborted) g a a'.
Proof.
  intros H. unfold caught. rewrite finish_stable by by apply reported_stable. unfold fails_row.
  destruct (terminalAuditWritten g); [exists a; split; [done|]; exists Failed; auto|].
  eexists. split; [reflexivity|]. eexists. split; [|reflexivity]. destruct (_ || _ || _); auto.
Qed.

Lemma caught_failed code aborted (g : Gen) :
  forallb (fun e : event => negb (is_last e)) (client g) = true ->
  forallb (fun h => negb (is_write h)) (emitted g) = true -> gen_ok (failed_gen code aborted g).
Proof.
  intros Hc He. apply ok_failed; [done|]. exists (client g), (reported code aborted). cbn. split_and!; [done..| |].
  - by rewrite forallb_app, He.
  - right. by eexists _, _.
Qed.

Lemma on_event_delta i has hooks metaOf now n aborted d (g : Gen) db a ds :
  streamed ds g -> exists g', on_event i has hooks metaOf now n aborted (ProviderStream.Delta d) g db a = (g', db, a) /\
  streamed (ds ++ [d]) g' /\ phase g' = phase g /\ terminalAuditWritten g' = terminalAuditWritten g /\
  chat g' = chat g /\ branch g' = branch g /\ target g' = target g /\ regeneratedContent g' = regeneratedContent g /\
  assistantPrefill g' = assistantPrefill g.
Proof.
  intros (Hr & Hc & He & Hs). eexists. split; [reflexivity|]. split_and!; try done. unfold streamed, told. cbn.
  rewrite Hr, Hc, He, Hs, sent_app, some_text_app, !map_app. unfold told. by cbn; rewrite ?map_app.
Qed.

(** The transaction that saves a reply. *)
Definition write_op (g : Gen) (final meta : text) (now : Z) (n : text) : Messages.Op :=
  match target g, regeneratedContent g with
  | Some ((_ :: _) as i), Some old => Messages.Replace i old final meta now n
  | _, _ => Messages.Create (chat g) (branch g) (plain_message (lit "assistant") final meta) now n
  end.

Definition completed (final : text) (u : ProviderStream.TokenUsage (N := N)) (w : HostEvent) (g : Gen) : Gen :=
  emit (GenerationFinished final) (mark_written (send (ProviderStream.Done final u) (emit w g))).

(** The transaction will write. *)
Definition saves (db : Messages.Db) (op : Messages.Op) : Prop :=
  match op with Messages.Replace j _ _ _ _ _ => Messages.find_message j db <> None | _ => True end /\ is_ok (Messages.exec db op) = true.

(** How a turn of the loop ends that fails, and one that saves the reply. *)
Definition turn_fails (i : text) (aborted : bool) (g : Gen) (db : Messages.Db) (a : Audits) (r : Gen * Messages.Db * Audits) : Prop :=
  exists code, stable_code code = true /\ exists a', r = (failed_gen code aborted g, db, a') /\ fails_row i (reported code aborted) g a a'.

Definition turn_saves (i : text) (final : text) (u : ProviderStream.TokenUsage (N := N)) (g : Gen) (a : Audits) (op : Messages.Op) (db : Messages.Db)
    (r : Gen * Messages.Db * Audits) : Prop :=
  exists w db', r = (completed final u w g, db', update_row (chat g) i (MkAudit Completed None (Some u)) a) /\
    is_write w = true /\ saves db op /\ Messages.exec db op = Ok db'.

Lemma caught_turn i code aborted (g : Gen) db a : stable_code code = true ->
  turn_fails i aborted g db a (let (g', a') := caught i code aborted g a in (g', db, a')).
Proof. intros H. destruct (caught_stable i code aborted g a H) as (a' & -> & F). exists code. split; [done|]. by exists a'. Qed.

(** A done event either fails and leaves the tables, or saves the reply. *)
Lemma on_event_done i has hooks metaOf now n aborted t u (g : Gen) db a :
  let g0 := receive (ProviderStream.Done t u) g in
  let final := fst (runPostProcessors has hooks (prefixed (assistantPrefill g) t)) in
  let meta := metaOf (snd (runPostProcessors has hooks (prefixed (assistantPrefill g) t))) in
  let r := on_event i has hooks metaOf now n aborted (ProviderStream.Done t u) g db a in
  turn_fails i aborted g0 db a r /\ (trim_text final = [] \/ ~ saves db (write_op g final meta now n)) \/
  turn_saves i final u g0 a (write_op g final meta now n) db r /\ trim_text final <> [].
Proof.
  intros g0 final meta r. unfold r, on_event. fold g0. change (assistantPrefill g0) with (assistantPrefill g).
  unfold final, meta. destruct (runPostProcessors has hooks (prefixed (assistantPrefill g) t)) as [f ds]. cbn [fst snd].
  destruct (trim_text f) as [|c x]; [left; split; [by apply caught_turn|by left]|]. unfold write_op.
  change (target g0) with (target g). change (regeneratedContent g0) with (regeneratedContent g).
  change (chat g0) with (chat g). change (branch g0) with (branch g). cbn [finish unstable].
  set (op := Messages.Create (chat g) (branch g) _ now n). set (b := Messages.create _ _ _ now n db).
  assert (Hb : b = Messages.create (chat g) (branch g) (plain_message (lit "assistant") f (metaOf ds)) now n db) by done. clearbody b.
  set (r1 := match b with Ok _ => _ | Throw _ => _ end).
  assert (C : turn_fails i aborted g0 db a r1 /\ (c :: x = [] \/ ~ saves db op) \/ turn_saves i f u g0 a op db r1 /\ c :: x <> []).
  { unfold r1. destruct b as [[d' m]|e].
    - right. split; [|done]. exists (MessageCreated (Messages.id m)), d'. unfold op, saves, Messages.exec, Messages.tables. rewrite <- Hb. by split_and!.
    - left. split; [by apply caught_turn|]. right. intros [_ H]. unfold op, Messages.exec, Messages.tables in H. by rewrite <- Hb in H. }
  destruct (target g) as [[|ci j]|]; [by apply C| |by apply C]. destruct (regeneratedContent g) as [old|]; [|by apply C]. clear C r1.
  unfold saves. cbn [Messages.exec]. unfold Messages.replaceContentAsVariant. destruct (Messages.find_message (ci :: j) db) as [m|] eqn:F.
  - destruct (Messages.insert_archive _ _) as [l|e] eqn:I.
    + right. split; [|done]. eexists _, _. split; [reflexivity|]. split; [done|]. unfold saves. cbn. unfold Messages.replaceContentAsVariant. rewrite F, I. by split_and!.
    + left. split; [by apply caught_turn|]. right. by intros [_ H].
  - left. split; [by apply caught_turn|]. right. by intros [H _].
Qed.

Lemma phase_eqb_true a b : phase_eqb a b = true -> a = b.
Proof. by destruct a, b. Qed.

Lemma step_event_ok i has hooks metaOf now n aborted e (g : Gen) db a :
  gen_ok g -> phase g = Streaming -> (exists rest, ProviderStream.well_formed_run (received g ++ e :: rest)) ->
  gen_ok (fst (fst (on_event i has hooks metaOf now n aborted e g db a))).
Proof.
  intros Hok Hp [rest Hrun]. destruct Hok as [H|_ Hc He Hr Ht Hs|ds _ Hst Ht|_ Ht Hs|H]; [done| | | |congruence].
  - rewrite Hr in Hrun. apply run_first in Hrun as ->. apply (ok_streaming _ []); cbn; try done. split_and!; cbn; by rewrite ?Hr, ?Hc, ?He.
  - pose proof Hst as (Hr & Hc & He & Hs). rewrite Hr in Hrun. apply run_next in Hrun as [[d ->]|[(u & -> & ->)|(c & -> & ->)]].
    + destruct (on_event_delta i has hooks metaOf now n aborted d g db a ds Hst) as (g' & -> & H1 & H2 & H4 & _).
      eapply ok_streaming; cbn [fst]; [by rewrite H2|exact H1|by rewrite H4].
    + destruct (on_event_done i has hooks metaOf now n aborted (concat ds) u g db a) as [[(code & _ & a' & -> & _) _]|[(w & db' & -> & Hw & _) Hf]].
      * cbn [fst]. apply caught_failed; [cbn; rewrite Hc; apply no_last_deltas|cbn; rewrite He; apply no_write_told].
      * cbn [fst]. apply ok_succeeded; [by left|done|]. eexists ds, u, _, w, has, hooks. cbn. rewrite Hr, Hc, He, <- !app_assoc. cbn. done.
    + cbn [on_event]. rewrite finish_stable by by destruct (stable_code c) eqn:E.
      apply ok_failed; [done|]. eexists (client g), c. cbn. rewrite Hc, He. split_and!; [done|apply no_last_deltas| |].
      * rewrite forallb_app. by rewrite no_write_told.
      * right. by eexists _, _.
  - destruct Hs as (ds & u & final & w & h & k & Hr & _). rewrite Hr in Hrun. exfalso. by apply run_over in Hrun.
Qed.

Definition all_ok (s : System (N := N)) : Prop := forall i g, (i, g) ∈ generations s -> gen_ok g.

Lemma set_ok i g db a (s : System (N := N)) : all_ok s -> gen_ok g -> all_ok (MkSystem db a (map_set i g (generations s))).
Proof. intros Hs Hg j h [[= -> ->]|H]%elem_of_map_set; [done|]. by eapply Hs. Qed.

Lemma on_ok i p f (s : System (N := N)) : all_ok s ->
  (forall g, map_get i (generations s) = Some g -> gen_ok g -> phase g = p -> gen_ok (fst (fst (f g (db s) (audits s))))) -> all_ok (on i p f s).
Proof.
  intros Hs Hf. unfold on. destruct (map_get i (generations s)) as [g|] eqn:E; [|done]. destruct (phase_eqb (phase g) p) eqn:Ep; [|done].
  apply phase_eqb_true in Ep. specialize (Hf g eq_refl (Hs i g (map_get_elem _ _ _ E)) Ep). destruct (f g _ _) as [[g' d] a]. by apply set_ok.
Qed.

(** A step of a phase before the stream. *)
Lemma early_fields (g : Gen) : gen_ok g -> phase g <> Streaming -> phase g <> Closed ->
  client g = [] /\ emitted g = [] /\ received g = [] /\ terminalAuditWritten g = false.
Proof. intros Hg Hn1 Hn2. destruct Hg; try done. by destruct_or!. Qed.

(** A generation that is not over and whose reply is not saved has told no end. *)
Lemma open_fields (g : Gen) : gen_ok g -> phase g <> Closed -> terminalAuditWritten g = false ->
  forallb (fun e : event => negb (is_last e)) (client g) = true /\ forallb (fun h => negb (is_write h)) (emitted g) = true.
Proof.
  intros Hg Hc Ht. destruct Hg as [_ _ Ec Ee|_ Ec Ee|ds _ (_ & Ec & Ee & _)|_ Ht' _|H]; [by rewrite Ec, Ee|by rewrite Ec, Ee| |congruence|done].
  rewrite Ec, Ee. split; [apply no_last_deltas|apply no_write_told].
Qed.

Lemma open_caught i code aborted (g : Gen) a : gen_ok g -> phase g <> Closed -> terminalAuditWritten g = false -> stable_code code = true ->
  gen_ok (fst (caught i code aborted g a)).
Proof.
  intros H1 H2 H3 Hs. destruct (open_fields g H1 H2 H3) as [Hc He]. destruct (caught_stable i code aborted g a Hs) as (a' & -> & _).
  by apply caught_failed.
Qed.

Lemma find_target_stable r ch b d code : find_target r ch b d = Throw code -> stable_code code = true.
Proof.
  unfold find_target. destruct (_ || _); [|done]. destruct (regenerateMessageId r) as [[|]|]; destruct (last _) as [m|]; try done;
    try (by destruct (bool_decide _)); try (by intros [= <-]). destruct (_ && _); [done|by intros [= <-]].
Qed.

Ltac phase_of Hp := rewrite Hp; discriminate.

Lemma reaches_ok s : reaches (N := N) s -> all_ok s.
Proof.
  induction 1 as [d|s op Hr IH Hal]; [by intros i g H%elem_of_nil|].
  destruct op as [i ch b r|i ab|i|i ab now n|i p|i has hooks metaOf now n ab e|i ab|i code ab|op]; cbn [step].
  - destruct (map_has i (generations s)); [done|]. destruct b; apply set_ok; try done; [by apply ok_early|].
    apply ok_failed; [done|]. exists [], "CHAT_NOT_FOUND"%string. cbn. split_and!; try done. by left.
  - apply on_ok; [done|]. intros g _ Hg Hp. destruct (early_fields g Hg) as (Hc & He & Hrc & Ht); [phase_of Hp..|]. unfold do_find.
    destruct (find_target _ _ _ _) as [t|c] eqn:E; [by apply ok_early|]. apply find_target_stable in E.
    pose proof (open_caught i c ab g (audits s) Hg ltac:(phase_of Hp) Ht E). by destruct (caught _ _ _ _ _).
  - apply on_ok; [done|]. intros g _ Hg Hp. destruct (early_fields g Hg) as (Hc & He & Hrc & Ht); [phase_of Hp..|]. by apply ok_early.
  - apply on_ok; [done|]. intros g _ Hg Hp. destruct (early_fields g Hg) as (Hc & He & Hrc & Ht); [phase_of Hp..|]. unfold do_persist.
    destruct (user_text (request g)); [|by apply ok_early]. destruct (Messages.create _ _ _ _ _ _) as [[]|]; [by apply ok_early|].
    pose proof (open_caught i "INTERNAL" ab g (audits s) Hg ltac:(phase_of Hp) Ht eq_refl). by destruct (caught _ _ _ _ _).
  - apply on_ok; [done|]. intros g _ Hg Hp. destruct (early_fields g Hg) as (Hc & He & Hrc & Ht); [phase_of Hp..|].
    apply ok_fresh; cbn; try done. by rewrite He.
  - apply on_ok; [done|]. intros g Hget Hg Hp. apply step_event_ok; [done..|]. by apply Hal.
  - apply on_ok; [done|]. intros g _ Hg Hp. unfold on_end. destruct (terminalAuditWritten g) eqn:Ht.
    + destruct Hg as [|_ _ _ _ Hf|ds _ _ Hf|_ _ Hs|]; try congruence. apply ok_succeeded; [by right|done|exact Hs].
    + pose proof (open_caught i "GENERATION_FAILED" ab g (audits s) Hg ltac:(phase_of Hp) Ht eq_refl). by destruct (caught _ _ _ _ _).
  - destruct (map_get i (generations s)) as [g|] eqn:E; [|done]. destruct (phase_eqb _ _) eqn:Ep; [done|]. destruct Hal as [Hst Hal].
    pose proof (open_caught i code ab g (audits s) (IH i g (map_get_elem _ _ _ E)) ltac:(intros Hp; by rewrite Hp in Ep) (Hal g E) Hst) as Hc.
    destruct (caught _ _ _ _ _). by apply set_ok.
  - exact IH.
Qed.

(** *** A generation ends once *)

Lemma last_unique (l : list event) x : is_last x = true -> forallb (fun e => negb (is_last e)) l = true ->
  List.filter is_last (l ++ [x]) = [x].
Proof.
  intros Hx Hl. rewrite List.filter_app. cbn. rewrite Hx. replace (List.filter is_last l) with (@nil event); [done|].
  symmetry. induction l as [|y l IH]; [done|]. cbn in *. apply andb_true_iff in Hl as [Hy Hl]. destruct (is_last y); [done|]. by apply IH.
Qed.

Lemma no_writes l : forallb (fun h => negb (is_write h)) l = true -> List.filter is_write l = [].
Proof. induction l as [|y l IH]; [done|]. cbn. destruct (is_write y); [done|]. exact IH. Qed.

(** *** The audits of the chats *)

Lemma update_row_get ch i u (a : Audits) c :
  map_get c (update_row ch i u a) =
  match map_get c a with Some (j, x) => Some (if bool_decide (c = ch /\ j = i) then (i, u) else (j, x)) | None => None end.
Proof.
  unfold update_row. destruct (map_get ch a) as [[k y]|] eqn:E.
  - case_bool_decide as Hk; [rewrite map_get_set; destruct (decide (ch = c)) as [<-|Hc]|].
    + subst k. rewrite E. by rewrite bool_decide_true.
    + destruct (map_get c a) as [[j x]|]; [|done]. rewrite bool_decide_false; [done|]. by intros [-> _].
    + destruct (map_get c a) as [[j x]|] eqn:Ec; [|done]. rewrite bool_decide_false; [done|]. intros [-> ->]. congruence.
  - destruct (map_get c a) as [[j x]|] eqn:Ec; [|done]. rewrite bool_decide_false; [done|]. intros [-> _]. congruence.
Qed.

(** Every row is that of a generation of its chat, and stands as that generation does;
    a chat has a row from the first generation on that is prepared. *)
Definition audits_ok (s : System (N := N)) : Prop :=
  (forall c j x, map_get c (audits s) = Some (j, x) -> exists g, map_get j (generations s) = Some g /\ chat g = c /\ row_ok g x) /\
  (forall j g, map_get j (generations s) = Some g -> GenerationStarted ∈ emitted g -> map_get (chat g) (audits s) <> None).

(** A step of the generation [i] that leaves the other rows. *)
Record moves (i : text) (g : Gen) (a : Audits) (g' : Gen) (a' : Audits) : Prop := MkMoves {
  moves_chat : chat g' = chat g;
  moves_rows c j x : map_get c a' = Some (j, x) -> map_get c a = Some (j, x) /\ (j = i -> row_ok g' x) \/ j = i /\ c = chat g /\ row_ok g' x;
  moves_kept c : map_get c a <> None -> map_get c a' <> None;
  moves_started : GenerationStarted ∈ emitted g' -> GenerationStarted ∈ emitted g \/ map_get (chat g) a' <> None
}.

(** The rows of a generation, before its step. *)
Definition own_rows (i : text) (g : Gen) (a : Audits) : Prop := forall c x, map_get c a = Some (i, x) -> c = chat g /\ row_ok g x.

Lemma moves_ok i g g' d' a' (s : System (N := N)) : audits_ok s -> map_get i (generations s) = Some g ->
  (own_rows i g (audits s) -> moves i g (audits s) g' a') -> audits_ok (MkSystem d' a' (map_set i g' (generations s))).
Proof.
  intros [Hr Hs] Hg M. assert (Ho : own_rows i g (audits s)).
  { intros c x Hx. destruct (Hr c i x Hx) as (h & Hh & Hc & Hok). by assert (h = g) as -> by congruence. }
  destruct (M Ho) as [M1 M2 M3 M4]. split; cbn [audits generations].
  - intros c j x [[Hx Hi]|(-> & -> & Hx)]%M2; rewrite map_get_set; [|rewrite decide_True by done; by exists g'].
    destruct (Hr c j x Hx) as (h & Hh & Hc & Hok). case_decide as Hj; [|by exists h].
    subst j. exists g'. split_and!; [done| |by apply Hi]. rewrite M1. by destruct (Ho c x Hx) as [-> _].
  - intros j h. rewrite map_get_set. case_decide as Hj.
    + intros [= <-] [H|H]%M4; rewrite M1; [|done]. by apply M3, (Hs i).
    + intros Hh H. by apply M3, (Hs j).
Qed.

Lemma moves_same i g a g' : own_rows i g a -> chat g' = chat g -> (GenerationStarted ∈ emitted g' -> GenerationStarted ∈ emitted g) ->
  (forall x, row_ok g x -> row_ok g' x) -> moves i g a g' a.
Proof. intros Ho Hc Hs Hr. split; [done| |done|auto]. intros c j x Hx. left. split; [done|]. intros ->. by apply Hr, (Ho c). Qed.

Lemma moves_update i g a g' u : own_rows i g a -> chat g' = chat g -> (GenerationStarted ∈ emitted g' -> GenerationStarted ∈ emitted g) ->
  row_ok g' u -> moves i g a g' (update_row (chat g) i u a).
Proof.
  intros Ho Hc Hs Hu. split; [done|..|auto].
  - intros c j x. rewrite update_row_get. destruct (map_get c a) as [[k y]|] eqn:E; [|done]. case_bool_decide as Hk; intros [= <- <-].
    + right. by destruct Hk.
    + left. split; [done|]. intros ->. destruct Hk. by destruct (Ho c y E).
  - intros c. rewrite update_row_get. by destruct (map_get c a) as [[k y]|].
Qed.

(** An event that is not a start is told after the start. *)
Lemma started_snoc l h : h <> GenerationStarted -> GenerationStarted ∈ l ++ [h] -> GenerationStarted ∈ l.
Proof. intros Hh. rewrite elem_of_app, list_elem_of_singleton. intros [H|H]; congruence. Qed.

Lemma moves_failed i code aborted (g : Gen) a a' : own_rows i g a -> terminalAuditWritten g = false ->
  fails_row i (reported code aborted) g a a' -> moves i g a (failed_gen code aborted g) a'.
Proof.
  intros Ho Ht (st & Hst & ->). rewrite Ht. apply moves_update; [done|done| |].
  - cbn. by apply started_snoc.
  - eapply row_failed; [done|cbn; by rewrite last_snoc|cbn; by rewrite last_snoc|exact Hst|done].
Qed.

Lemma moves_caught i code aborted (g : Gen) a : stable_code code = true -> own_rows i g a -> terminalAuditWritten g = false ->
  moves i g a (fst (caught i code aborted g a)) (snd (caught i code aborted g a)).
Proof. intros Hs Ho Ht. destruct (caught_stable i code aborted g a Hs) as (a' & -> & F). by apply moves_failed. Qed.

(** A generation before its stream has no row; one whose stream is open has a prepared one. *)
Lemma early_row (g : Gen) x : gen_ok g -> phase g <> Streaming -> phase g <> Closed -> ~ row_ok g x.
Proof. intros Hg H1 H2. destruct (early_fields g Hg H1 H2) as (_ & _ & _ & Ht). intros []; congruence. Qed.

Lemma open_row (g : Gen) x : phase g = Streaming -> terminalAuditWritten g = false -> row_ok g x -> x = MkAudit Prepared None None.
Proof. intros Hp Ht []; congruence. Qed.

Lemma moves_event i has hooks metaOf now n aborted e (g : Gen) db a :
  gen_ok g -> phase g = Streaming -> (exists rest, ProviderStream.well_formed_run (received g ++ e :: rest)) -> own_rows i g a ->
  let r := on_event i has hooks metaOf now n aborted e g db a in moves i g a (fst (fst r)) (snd r).
Proof.
  intros Hg Hp [rest Hrun] Ho. assert (Ht : terminalAuditWritten g = false).
  { destruct Hg as [|_ _ _ _ Ht _|ds _ _ Ht|_ Ht Hs|]; try congruence.
    destruct Hs as (ds & u & final & w & h & k & Hr & _). rewrite Hr in Hrun. exfalso. by apply run_over in Hrun. }
  destruct e as [|d|t u|code]; cbv zeta.
  - apply moves_same; try done. intros x Hx. by apply row_prepared; [..|apply (open_row g)].
  - apply moves_same; [done|done|cbn; by apply started_snoc|]. intros x Hx. by apply row_prepared; [..|apply (open_row g)].
  - destruct (on_event_done i has hooks metaOf now n aborted t u g db a) as [[(code & _ & a' & -> & F) _]|[(w & db' & -> & Hw & _) _]]; cbn [fst snd].
    + pose proof (moves_failed i code aborted (receive (ProviderStream.Done t u) g) a a') as M.
      destruct M as [M1 M2 M3 M4]; [intros c x Hx; destruct (Ho c x Hx) as [-> Hok]; split; [done|]; by apply row_prepared; [..|apply (open_row g)]|done|done|].
      by split.
    + apply (moves_update i g a); [done|done| |].
      * cbn. intros H%started_snoc%started_snoc; [done|by destruct w|done].
      * eapply row_completed; [done|cbn; by rewrite last_snoc|done].
  - cbn [on_event]. rewrite finish_stable by by destruct (stable_code code) eqn:E. apply (moves_update i g a); [done|done|cbn; by apply started_snoc|].
    eapply row_failed; [done|cbn; by rewrite last_snoc|cbn; by rewrite last_snoc| |done]. destruct (_ || _); auto.
Qed.

Lemma on_audits i p f (s : System (N := N)) : all_ok s -> audits_ok s ->
  (forall g, map_get i (generations s) = Some g -> gen_ok g -> phase g = p -> own_rows i g (audits s) ->
     let r := f g (db s) (audits s) in moves i g (audits s) (fst (fst r)) (snd r)) -> audits_ok (on i p f s).
Proof.
  intros Hall Hs Hf. unfold on. destruct (map_get i (generations s)) as [g|] eqn:E; [|done]. destruct (phase_eqb (phase g) p) eqn:Ep; [|done].
  apply phase_eqb_true in Ep. specialize (Hf g eq_refl (Hall i g (map_get_elem _ _ _ E)) Ep). destruct (f g _ _) as [[g' d] a].
  apply (moves_ok i g); [done|done|exact Hf].
Qed.

Lemma new_audits i g (s : System (N := N)) : audits_ok s -> map_has i (generations s) = false -> emitted g = [] ->
  audits_ok (MkSystem (db s) (audits s) (map_set i g (generations s))).
Proof.
  unfold map_has. intros [Hr Hs] Hi He. split; cbn [audits generations].
  - intros c j x (h & Hh & Hx)%Hr. exists h. split; [|done]. rewrite map_get_set, decide_False; [done|]. intros ->. by rewrite Hh in Hi.
  - intros j h. rewrite map_get_set. case_decide; [|by apply Hs]. intros [= <-]. rewrite He. by intros ?%elem_of_nil.
Qed.

Lemma reaches_audits s : reaches (N := N) s -> audits_ok s.
Proof.
  induction 1 as [d|s op Hr IH Hal]; [split; [done|by intros]|]. pose proof (reaches_ok s Hr) as Hall.
  destruct op as [i ch b r|i ab|i|i ab now n|i p|i has hooks metaOf now n ab e|i ab|i code ab|op]; cbn [step].
  - destruct (map_has i (generations s)) eqn:E; [done|]. by destruct b; apply new_audits.
  - apply on_audits; [done..|]. intros g _ Hg Hp Ho. destruct (early_fields g Hg) as (_ & _ & _ & Ht); [phase_of Hp..|]. unfold do_find.
    destruct (find_target _ _ _ _) as [t|c] eqn:E.
    + apply moves_same; try done. intros x Hx. by apply early_row in Hx; [|done|phase_of Hp..].
    + apply find_target_stable in E. pose proof (moves_caught i c ab g (audits s) E Ho Ht). by destruct (caught _ _ _ _ _).
  - apply on_audits; [done..|]. intros g _ Hg Hp Ho. apply moves_same; try done. intros x Hx. by apply early_row in Hx; [|done|phase_of Hp..].
  - apply on_audits; [done..|]. intros g _ Hg Hp Ho. destruct (early_fields g Hg) as (_ & _ & _ & Ht); [phase_of Hp..|].
    assert (M : moves i g (audits s) (with_phase Persisted g) (audits s)).
    { apply moves_same; try done. intros x Hx. by apply early_row in Hx; [|done|phase_of Hp..]. }
    unfold do_persist. destruct (user_text (request g)); [|done]. destruct (Messages.create _ _ _ _ _ _) as [[]|]; [done|].
    pose proof (moves_caught i "INTERNAL" ab g (audits s) eq_refl Ho Ht). by destruct (caught _ _ _ _ _).
  - apply on_audits; [done..|]. intros g _ Hg Hp Ho. destruct (early_fields g Hg) as (_ & _ & _ & Ht); [phase_of Hp..|]. unfold do_prepare, prepare.
    split; cbn; [done|..].
    + intros c j x. rewrite map_get_set. case_decide as Hc; [|intros Hx; left; split; [done|]; intros ->; by destruct (Ho c x Hx) as [-> _]].
      intros [= <- <-]. right. split_and!; try done. by apply row_prepared.
    + intros c. rewrite map_get_set. by case_decide.
    + intros _. right. by rewrite map_get_set, decide_True.
  - apply on_audits; [done..|]. intros g Hget Hg Hp Ho. apply moves_event; [done..| |done]. by apply Hal.
  - apply on_audits; [done..|]. intros g _ Hg Hp Ho. unfold on_end. destruct (terminalAuditWritten g) eqn:Ht.
    + apply moves_same; try done. intros x [|t u H1 H2 H3|]; [congruence| |congruence]. by eapply row_completed.
    + pose proof (moves_caught i "GENERATION_FAILED" ab g (audits s) eq_refl Ho Ht). by destruct (caught _ _ _ _ _).
  - destruct (map_get i (generations s)) as [g|] eqn:E; [|done]. destruct (phase_eqb _ _) eqn:Ep; [done|]. destruct Hal as [Hst Hal].
    pose proof (fun Ho => moves_caught i code ab g (audits s) Hst Ho (Hal g E)) as M. destruct (caught _ _ _ _ _). by apply (moves_ok i g).
  - exact IH.
Qed.

(** What a step does to the table of the audits: it writes the row of a generation that
    is not over, or the row of a chat is prepared anew. *)
Inductive audit_step (s : System (N := N)) (op : Op (N := N)) : Audits -> Prop :=
| audit_same : audit_step s op (audits s)
| audit_updated i g u : map_get i (generations s) = Some g -> phase g <> Closed -> audit_step s op (update_row (chat g) i u (audits s))
| audit_prepared i p g : op = Prepare i p -> map_get i (generations s) = Some g -> phase g <> Closed ->
    audit_step s op (prepare (chat g) i (audits s)).

Lemma caught_step s op i code aborted (g : Gen) : map_get i (generations s) = Some g -> phase g <> Closed ->
  audit_step s op (snd (caught i code aborted g (audits s))).
Proof.
  intros Hg Hp. unfold caught. destruct (terminalAuditWritten g); [constructor|]. unfold finish. destruct (unstable _); [constructor|].
  by apply audit_updated.
Qed.

Lemma on_step s op i p f : p <> Closed ->
  (forall g, map_get i (generations s) = Some g -> phase g = p -> audit_step s op (snd (f g (db s) (audits s)))) -> audit_step s op (audits (on i p f s)).
Proof.
  intros Hn Hf. unfold on. destruct (map_get i (generations s)) as [g|] eqn:E; [|constructor]. destruct (phase_eqb (phase g) p) eqn:Ep; [|constructor].
  apply phase_eqb_true in Ep. specialize (Hf g eq_refl Ep). by destruct (f g _ _) as [[g' d] a].
Qed.

Lemma event_step s op i has hooks metaOf now n aborted e (g : Gen) d : map_get i (generations s) = Some g -> phase g <> Closed ->
  audit_step s op (snd (on_event i has hooks metaOf now n aborted e g d (audits s))).
Proof.
  intros Hg Hp. destruct e as [|t|t u|code]; [constructor|constructor| |].
  - destruct (on_event_done i has hooks metaOf now n aborted t u g d (audits s)) as [[(code & _ & a' & -> & st & _ & ->) _]|[(w & db' & -> & _) _]];
      cbn [snd]; [destruct (terminalAuditWritten _); [constructor|]|]; by apply (audit_updated s op i g).
  - cbn [on_event]. rewrite finish_stable by by destruct (stable_code code) eqn:E. by apply (audit_updated s op i g).
Qed.

Lemma step_audits s op : audit_step s op (audits (step s op)).
Proof.
  destruct op as [i ch b r|i ab|i|i ab now n|i p|i has hooks metaOf now n ab e|i ab|i code ab|op]; cbn [step].
  - destruct (map_has i (generations s)); [apply audit_same|]. destruct b; cbn [audits]; apply audit_same.
  - apply on_step; [done|]. intros g Hg Hp. unfold do_find. destruct (find_target _ _ _ _) as [t|c]; [constructor|].
    pose proof (caught_step s (FindTarget i ab) i c ab g Hg ltac:(phase_of Hp)). by destruct (caught _ _ _ _ _).
  - apply on_step; [done|]. intros g _ _. apply audit_same.
  - apply on_step; [done|]. intros g Hg Hp. unfold do_persist. destruct (user_text _); [|constructor]. destruct (Messages.create _ _ _ _ _ _) as [[]|]; [constructor|].
    pose proof (caught_step s (Persist i ab now n) i "INTERNAL" ab g Hg ltac:(phase_of Hp)). by destruct (caught _ _ _ _ _).
  - apply on_step; [done|]. intros g Hg Hp. apply (audit_prepared s _ i p g); [done..|phase_of Hp].
  - apply on_step; [done|]. intros g Hg Hp. apply event_step; [done|phase_of Hp].
  - apply on_step; [done|]. intros g Hg Hp. unfold on_end. destruct (terminalAuditWritten g); [constructor|].
    pose proof (caught_step s (EndOfStream i ab) i "GENERATION_FAILED" ab g Hg ltac:(phase_of Hp)). by destruct (caught _ _ _ _ _).
  - destruct (map_get i (generations s)) as [g|] eqn:E; [|constructor]. destruct (phase_eqb _ _) eqn:Ep; [constructor|].
    pose proof (caught_step s (Fails i code ab) i code ab g E ltac:(intros Hp; by rewrite Hp in Ep)). by destruct (caught _ _ _ _ _).
  - cbn [audits]. apply audit_same.
Qed.

(** The row of a generation that is over stays until another is prepared in its chat. *)
Lemma settled_row_stays s op i (g : Gen) c x : map_get i (generations s) = Some g -> phase g = Closed -> map_get c (audits s) = Some (i, x) ->
  map_get c (audits (step s op)) = Some (i, x) \/
  exists j p h, op = Prepare j p /\ map_get j (generations s) = Some h /\ chat h = c /\ j <> i /\
    map_get c (audits (step s op)) = Some (j, MkAudit Prepared None None).
Proof.
  intros Hg Hp Hx. destruct (step_audits s op) as [|j h u Hj Hn|j p h -> Hj Hn]; [by left|left|].
  - rewrite update_row_get, Hx. rewrite bool_decide_false; [done|]. intros [_ <-]. congruence.
  - unfold prepare. rewrite map_get_set. case_decide as Hc; [|by left]. right. exists j, p, h. split_and!; try done. intros ->. congruence.
Qed.


(** *** The tables *)

(** The content that a done event would archive is still that of the message. *)
Definition captured_current (s : System (N := N)) (op : Op (N := N)) : Prop :=
  match op with
  | Event i _ _ _ _ _ _ _ =>
      forall g j m, map_get i (generations s) = Some g -> target g = Some j -> Messages.find_message j (db s) = Some m ->
        regeneratedContent g = Some (Messages.content m)
  | _ => True
  end.

(** The transaction of a step. *)
Definition write_of (s : System (N := N)) (op : Op (N := N)) : option Messages.Op :=
  match op with
  | Persist i _ now n =>
      match map_get i (generations s) with
      | Some g =>
          if phase_eqb (phase g) Captured then
            match user_text (request g) with
            | Some t => Some (Messages.Create (chat g) (branch g) (plain_message (lit "user") t (lit "{}")) now n)
            | None => None
            end
          else None
      | None => None
      end
  | Event i has hooks metaOf now n _ (ProviderStream.Done t _) =>
      match map_get i (generations s) with
      | Some g =>
          if phase_eqb (phase g) Streaming then
            let (final, diagnostics) := runPostProcessors has hooks (prefixed (assistantPrefill g) t) in
            match trim_text final with [] => None | _ => Some (write_op g final (metaOf diagnostics) now n) end
          else None
      | None => None
      end
  | Other o => Some o
  | _ => None
  end.

Lemma unsaved db o : ~ saves db o -> Messages.step db o = db.
Proof.
  unfold saves, Messages.step. destruct (Messages.exec db o) as [db'|] eqn:E; [|done]. intros H.
  destruct o as [| | | | | | |i ar t mt now n| | | | | |]; try (exfalso; apply H; by split).
  cbn in E. unfold Messages.replaceContentAsVariant in E. destruct (Messages.find_message i db) eqn:F; [exfalso; apply H; by split|].
  cbn in E. by injection E.
Qed.

Lemma on_db i p f (s : System (N := N)) : (forall g d a, snd (fst (f g d a)) = d) -> db (on i p f s) = db s.
Proof.
  intros H. unfold on. destruct (map_get i _) as [g|]; [|done]. destruct (phase_eqb _ _); [|done].
  specialize (H g (db s) (audits s)). by destruct (f _ _ _) as [[g' d] a].
Qed.

Lemma step_db s op : db (step s op) = match write_of s op with Some o => Messages.step (db s) o | None => db s end.
Proof.
  destruct op as [i ch b r|i ab|i|i ab now n|i p|i has hooks metaOf now n ab e|i ab|i code ab|op]; cbn [step write_of]; try done.
  - destruct (map_has i _); [done|]. by destruct b.
  - apply on_db. intros g d a. unfold do_find. destruct (find_target _ _ _ _); [done|]. by destruct (caught _ _ _ _ _).
  - by apply on_db.
  - unfold on. destruct (map_get i _) as [g|]; [|done]. destruct (phase_eqb _ _); [|done]. unfold do_persist, Messages.step, Messages.exec.
    destruct (user_text (request g)); [|done]. destruct (Messages.create _ _ _ _ _ _) as [[]|]; [done|]. by destruct (caught _ _ _ _ _).
  - by apply on_db.
  - unfold on. destruct (map_get i _) as [g|]; [|by destruct e]. destruct (phase_eqb _ _); [|by destruct e]. destruct e as [|d|t u|code]; try done.
    + destruct (on_event_done i has hooks metaOf now n ab t u g (db s) (audits s)) as [[(code & _ & a' & -> & _) Hf]|[(w & db' & -> & Hw & Hsv & E) Hf]]; revert Hf;
        [|clear Hsv; revert E]; destruct (runPostProcessors has hooks _) as [f ds]; cbn [fst snd].
      * intros Hf. destruct (trim_text f); [done|]. destruct Hf as [Hf|Hf]; [done|]. by rewrite unsaved.
      * intros E Hf. destruct (trim_text f); [done|]. unfold Messages.step. by rewrite E.
    + cbn [on_event]. by rewrite finish_stable by by destruct (stable_code code) eqn:E.
  - apply on_db. intros g d a. by destruct (on_end _ _ _ _).
  - destruct (map_get i _) as [g|]; [|done]. destruct (phase_eqb _ _); [done|]. by destruct (caught _ _ _ _ _).
Qed.

(** The message that a write leaves. *)
Lemma write_op_row (g : Gen) final meta now n db db' :
  saves db (write_op g final meta now n) -> Messages.exec db (write_op g final meta now n) = Ok db' ->
  exists m, m ∈ Messages.messages db' /\ Messages.content m = final /\ (Messages.id m = n \/ target g = Some (Messages.id m)).
Proof.
  intros [Hs _] E. unfold write_op in *.
  assert (C : Messages.exec db (Messages.Create (chat g) (branch g) (plain_message (lit "assistant") final meta) now n) = Ok db' ->
    exists m, m ∈ Messages.messages db' /\ Messages.content m = final /\ (Messages.id m = n \/ target g = Some (Messages.id m))).
  { intros E'. cbn in E'. unfold Messages.create in E'. cbn [plain_message Messages.newKey] in E'.
    destruct (Messages.insert_message _ _) as [d|] eqn:I; [|done]. cbn in E'. injection E' as ->. apply Messages.insert_message_rows in I.
    eexists. rewrite I. split; [apply elem_of_app; right; by apply list_elem_of_singleton|]. cbn. auto. }
  destruct (target g) as [[|ci i]|]; [by apply C| |by apply C]. destruct (regeneratedContent g) as [old|]; [|by apply C].
  cbn in E. unfold Messages.replaceContentAsVariant in E. destruct (Messages.find_message (ci :: i) db) as [m|] eqn:F; [|done].
  destruct (Messages.insert_archive _ _) as [l|]; [|done]. cbn in E. injection E as <-. apply Messages.find_message_Some in F as [Hm Hid].
  eexists. split; [eapply Messages.write_row_self; [exact Hm|done]|]. cbn. rewrite Hid. auto.
Qed.

Lemma create_others ch b input now n db m : m ∈ Messages.messages db -> m ∈ Messages.messages (Messages.step db (Messages.Create ch b input now n)).
Proof.
  intros Hm. unfold Messages.step. destruct (Messages.exec _ _) as [db'|] eqn:E; [|done]. cbn in E. unfold Messages.create in E.
  destruct (Messages.insert_message _ _) as [d|] eqn:I.
  - cbn in E. injection E as <-. apply Messages.insert_message_rows in I. rewrite I. apply elem_of_app. by left.
  - destruct (Messages.newKey input) as [[|]|]; cbn in E; [done| |done]. destruct (List.find _ _); cbn in E; [|done]. by injection E as <-.
Qed.

Lemma replace_others i ar t mt now n db m : m ∈ Messages.messages db -> Messages.id m <> i ->
  m ∈ Messages.messages (Messages.step db (Messages.Replace i ar t mt now n)).
Proof.
  intros Hm Hi. unfold Messages.step. destruct (Messages.exec _ _) as [db'|] eqn:E; [|done]. cbn in E. unfold Messages.replaceContentAsVariant in E.
  destruct (Messages.find_message i db) as [x|] eqn:F; [|by injection E as <-]. destruct (Messages.insert_archive _ _) as [l|]; [|done].
  injection E as <-. apply Messages.find_message_Some in F as [_ Hx]. by apply Messages.write_row_other; [|rewrite <- Hx in Hi].
Qed.

Definition own_id (op : Op (N := N)) : list text := match op with Persist _ _ _ n | Event _ _ _ _ _ n _ _ => [n] | _ => [] end.

Definition targets (s : System (N := N)) (op : Op (N := N)) (j : text) : Prop :=
  match op with
  | Event i _ _ _ _ _ _ _ => exists g, map_get i (generations s) = Some g /\ target g = Some j
  | _ => False
  end.

(** What a step of a generation may run. *)
Lemma write_of_cases s op o : (forall x, op <> Other x) -> write_of s op = Some o ->
  (exists ch b input now n, o = Messages.Create ch b input now n /\ own_id op = [n]) \/
  (exists i has hooks metaOf now n ab e g j old final meta, op = Event i has hooks metaOf now n ab e /\
     map_get i (generations s) = Some g /\ target g = Some j /\ regeneratedContent g = Some old /\ o = Messages.Replace j old final meta now n).
Proof.
  intros Hop. destruct op as [i ch b r|i ab|i|i ab now n|i p|i has hooks metaOf now n ab e|i ab|i code ab|op]; cbn [write_of]; try done.
  - destruct (map_get i _) as [g|]; [|done]. destruct (phase_eqb _ _); [|done]. destruct (user_text _); [|done]. intros [= <-]. left. by repeat eexists.
  - destruct e as [|d|t u|code]; try done. destruct (map_get i _) as [g|] eqn:Eg; [|done]. destruct (phase_eqb _ _); [|done].
    destruct (runPostProcessors _ _ _) as [f ds]. destruct (trim_text f); [done|]. intros [= <-]. unfold write_op.
    destruct (target g) as [[|ci j]|] eqn:Et; [left; by repeat eexists| |left; by repeat eexists].
    destruct (regeneratedContent g) as [old|] eqn:Eo; [|left; by repeat eexists]. right.
    exists i, has, hooks, metaOf, now, n, ab, (ProviderStream.Done t u), g, (ci :: j), old, f, (metaOf ds). done.
  - by destruct (Hop op).
Qed.

(** C5: a reply costs no text.  Whatever a generation does to the tables in a
    step (saving the message of the user, saving or replacing a reply, failing at any
    point), every text of every message is kept as long as the content that it
    captured is still the content of the message that it replaces; every other
    row stays as it is; and at the end of the stream either the tables are
    unchanged and the client gets an error, or the client gets a done and its
    text is the content of the new or of the replaced message. *)
Theorem replies_keep_texts used s op :
  Messages.reachable used (db s) -> (forall x, op <> Other x) -> Forall (fun n => n <> [] /\ n ∉ used) (own_id op) ->
  (captured_current s op -> forall j t, Messages.has_text (db s) j t -> Messages.has_text (db (step s op)) j t) /\
  (forall m, m ∈ Messages.messages (db s) -> ~ targets s op (Messages.id m) -> m ∈ Messages.messages (db (step s op))) /\
  (forall i has hooks metaOf now n ab t u g, op = Event i has hooks metaOf now n ab (ProviderStream.Done t u) ->
     map_get i (generations s) = Some g -> phase g = Streaming -> exists g', map_get i (generations (step s op)) = Some g' /\
     ((db (step s op) = db s /\ exists code, client g' = client g ++ [ProviderStream.Error code]) \/
      (exists m, m ∈ Messages.messages (db (step s op)) /\ client g' = client g ++ [ProviderStream.Done (Messages.content m) u] /\
         (Messages.id m = n \/ target g = Some (Messages.id m))))).
Proof.
  intros Hwf%Messages.reachable_wf Hop Hn. rewrite step_db. split_and!.
  - intros Hcur j t Ht. destruct (write_of s op) as [o|] eqn:E; [|done].
    destruct (write_of_cases s op o Hop E) as [(ch & b & inp & now & n & -> & Hid)|(i & has & hooks & metaOf & now & n & ab & e & g & k & old & f & mt & -> & Hg & Ht' & Ho & ->)].
    + eapply Messages.step_texts; [exact Hwf| |exact Ht|by intros []]. cbn [Messages.new_ids]; by rewrite <- Hid.
    + eapply Messages.step_texts; [exact Hwf|exact Hn|exact Ht|]. cbn. intros (-> & m & Fm & Hne).
      specialize (Hcur g _ m Hg Ht' Fm). congruence.
  - intros m Hm Htg. destruct (write_of s op) as [o|] eqn:E; [|done].
    destruct (write_of_cases s op o Hop E) as [(ch & b & inp & now & n & -> & Hid)|(i & has & hooks & metaOf & now & n & ab & e & g & k & old & f & mt & -> & Hg & Ht' & Ho & ->)].
    + by apply create_others.
    + apply replace_others; [done|]. intros <-. apply Htg. by exists g.
  - intros i has hooks metaOf now n ab t u g -> Hg Hp. rewrite <- step_db. cbn [step]. unfold on. rewrite Hg, Hp. cbn [phase_eqb].
    destruct (on_event_done i has hooks metaOf now n ab t u g (db s) (audits s)) as [[(code & _ & a' & -> & _) _]|[(w & db' & -> & Hw & Hsv & E) Hf]].
    + eexists. cbn [db generations]. rewrite map_get_set, decide_True by done. split; [done|]. left. split; [done|]. by eexists.
    + eexists. cbn [db generations]. rewrite map_get_set, decide_True by done. split; [done|]. right.
      destruct (write_op_row g _ _ now n (db s) db' Hsv E) as (m & Hm & Hc & Hid).
      exists m. split; [done|]. rewrite Hc. by split.
Qed.

(** *** A request from its beginning to its end *)

Lemma on_set i p f d a gens (g : Gen) : phase g = p ->
  on i p f (MkSystem d a (map_set i g gens)) = let '(g', d', a') := f g d a in MkSystem d' a' (map_set i g' gens).
Proof.
  intros <-. unfold on. cbn [generations db audits]. rewrite map_get_set, decide_True by done.
  assert (phase_eqb (phase g) (phase g) = true) as -> by by destruct (phase g). destruct (f g d a) as [[g' d'] a']. by rewrite map_set_set.
Qed.

(** The parts of a generation that the stream leaves. *)
Definition same_task (g h : Gen) : Prop :=
  phase h = phase g /\ terminalAuditWritten h = terminalAuditWritten g /\ chat h = chat g /\ branch h = branch g /\
  target h = target g /\ regeneratedContent h = regeneratedContent g /\ assistantPrefill h = assistantPrefill g.

Lemma same_write_op g h final meta now n : same_task g h -> write_op h final meta now n = write_op g final meta now n.
Proof. intros (_ & _ & E1 & E2 & E3 & E4 & _). unfold write_op. by rewrite E1, E2, E3, E4. Qed.

Lemma deltas_run i has hooks metaOf now n ds : forall ds0 g d a gens, phase g = Streaming -> streamed ds0 g ->
  exists h, fold_left step (map (Event i has hooks metaOf now n false) (Deltas ds)) (MkSystem d a (map_set i g gens)) =
    MkSystem d a (map_set i h gens) /\ streamed (ds0 ++ ds) h /\ same_task g h.
Proof.
  induction ds as [|x ds IH]; intros ds0 g d a gens Hp Hs; [exists g; by rewrite app_nil_r|].
  cbn [map fold_left step]. rewrite on_set by done.
  destruct (on_event_delta i has hooks metaOf now n false x g d a ds0 Hs) as (g' & -> & H1 & H2). change (same_task g g') in H2.
  destruct (IH (ds0 ++ [x]) g' d a gens) as (h & Hh & Hst & Hsame); [by destruct H2 as [-> _]|done|].
  exists h. split; [exact Hh|]. rewrite <- app_assoc in Hst. split; [exact Hst|].
  unfold same_task in *. destruct H2 as (-> & -> & -> & -> & -> & -> & ->) in Hsame. done.
Qed.

Lemma stream_run i has hooks metaOf now n ds u g d d' a gens :
  phase g = Streaming -> client g = [] -> emitted g = [GenerationStarted] -> received g = [] ->
  terminalAuditWritten g = false -> prefillSentWithDelta g = false ->
  let out := runPostProcessors has hooks (prefixed (assistantPrefill g) (concat ds)) in
  trim_text (fst out) <> [] -> saves d (write_op g (fst out) (metaOf (snd out)) now n) ->
  Messages.exec d (write_op g (fst out) (metaOf (snd out)) now n) = Ok d' ->
  exists h, fold_left step (map (Event i has hooks metaOf now n false)
      (ProviderStream.Start :: Deltas ds ++ [ProviderStream.Done (concat ds) u]) ++ [EndOfStream i false]) (MkSystem d a (map_set i g gens)) =
    MkSystem d' (update_row (chat g) i (MkAudit Completed None (Some u)) a) (map_set i h gens) /\ phase h = Closed /\
    client h = ProviderStream.Start :: Deltas (sent (assistantPrefill g) ds) ++ [ProviderStream.Done (fst out) u].
Proof.
  intros Hp Hc He Hr Ht Hs out Hb Hsv Hex. cbn [map app fold_left step]. rewrite on_set by done. cbn [on_event].
  set (g1 := send _ _). assert (H1 : streamed [] g1) by (unfold streamed; cbn; by rewrite Hr, Hc, He).
  rewrite map_app, <- app_assoc, fold_left_app.
  destruct (deltas_run i has hooks metaOf now n ds [] g1 d a gens Hp H1) as (h & -> & (Hr2 & Hc2 & _) & Hsame). cbn [app] in Hr2, Hc2.
  assert (Hw : forall f m, write_op h f m now n = write_op g f m now n) by (intros f m; by apply (same_write_op g1)).
  pose proof Hsame as (Hp2 & _ & Hch & _ & _ & _ & Hpre). change (assistantPrefill g1) with (assistantPrefill g) in Hpre.
  change (chat g1) with (chat g) in Hch. cbn [map app fold_left step]. rewrite on_set by (by rewrite Hp2).
  destruct (on_event_done i has hooks metaOf now n false (concat ds) u h d a) as [[(code & _ & a' & -> & _) Hf]|[(w & db' & -> & _ & _ & E) Hf]];
    rewrite Hpre in *; fold out in Hf; rewrite Hw in *.
  - by destruct Hf.
  - fold out in E |- *. assert (d' = db') as <- by congruence. rewrite on_set by (cbn; by rewrite Hp2). eexists. unfold on_end. cbn.
    rewrite Hch. split; [reflexivity|]. split; [done|]. cbn. by rewrite Hc2, <- Hpre.
Qed.

(** The generation when its prompt is ready. *)
Definition prepared (r : Request) (ch b : text) (t old p : option text) : Gen :=
  MkGeneration r ch b Streaming t old p false false [] [GenerationStarted] [].

Lemma prologue i ch b r p has hooks metaOf now n1 n2 events d a gens t d1 :
  map_get i gens = None -> find_target r ch b d = Ok t ->
  match user_text r with
  | Some x => Messages.exec d (Messages.Create ch b (plain_message (lit "user") x (lit "{}")) now n1) = Ok d1
  | None => d1 = d
  end ->
  fold_left step (handle i ch b r p has hooks metaOf now n1 n2 events) (MkSystem d a gens) =
  fold_left step (map (Event i has hooks metaOf now n2 false) events ++ [EndOfStream i false])
    (MkSystem d1 (prepare ch i a) (map_set i (prepared r ch b t (capture t d) p) gens)).
Proof.
  intros Hi Ht Hu. unfold handle. rewrite fold_left_app. f_equal. cbn [fold_left step generations db audits].
  unfold map_has. rewrite Hi. rewrite !on_set by done. unfold do_find. cbn [request chat branch new_generation]. rewrite Ht.
  rewrite !on_set by done. cbn [do_capture]. rewrite !on_set by done. unfold do_persist. cbn [request].
  destruct (user_text r) as [x|].
  - unfold Messages.exec, Messages.tables in Hu. cbn [chat branch]. destruct (Messages.create _ _ _ _ _ _) as [[d2 m]|]; [|done].
    injection Hu as ->. by rewrite on_set.
  - subst d1. by rewrite on_set.
Qed.

(** A response whose stream is not cut short: it is a success, no payload is the
    literal null, and lines and reads fit in the buffer. *)
Definition clean_stream (r : ProviderStream.GenerationRequest (N := N)) (status : Z) (cs : list (list ascii)) : Prop :=
  ProviderStream.is_success status = true /\ ProviderStream.stream r = true /\
  Forall (fun c => ProviderStream.is_null c = false) (ProviderStream.chunks_of (N := N) (ProviderStream.sse_events (ProviderStream.decoded (concat cs)))) /\
  exists L B, Forall (fun l => Codec.length16 l <= L) (ProviderStream.all_lines (ProviderStream.decoded (concat cs))) /\
    Forall (fun c => Z.of_nat (length c) <= B) cs /\ L + B + 1 <= ProviderStream.SSE_MAX_BUFFERED_BYTES.

(** The texts in the bytes of a response. *)
Definition texts_of (a : ProviderStream.Adapter (N := N)) (cs : list (list ascii)) : list text :=
  ProviderStream.deltas_of (ProviderStream.kind a) (ProviderStream.sse_events (ProviderStream.decoded (concat cs))).

Definition events_of (nonzero : N -> bool) (a : ProviderStream.Adapter (N := N)) (r : ProviderStream.GenerationRequest (N := N)) (status : Z)
    (cs : list (list ascii)) : list event :=
  ProviderStream.yields (ProviderStream.generate nonzero a r
    (ProviderStream.Response status (Throw ProviderStream.PlainError) (Some (map ProviderStream.Chunk cs))) (fun _ => false)).

Lemma clean_events nonzero a r status cs : clean_stream r status cs ->
  exists u, events_of nonzero a r status cs =
    ProviderStream.Start :: Deltas (texts_of a cs) ++ [ProviderStream.Done (concat (texts_of a cs)) u].
Proof.
  intros (Hs & Hst & Hn & L & B & Hl & Hc & Hm). eexists. unfold events_of, texts_of.
  rewrite (ProviderStream.stream_events nonzero a r status _ cs L B) by done. reflexivity.
Qed.

(** How the request [i] ends whose reply is saved: what its client is told, and the
    audit of its chat, which the table [a] gets. *)
Definition told_done (i ch : text) (p : option text) (ds : list text) (final : text) (a a' : Audits) (h : Gen) : Prop :=
  phase h = Closed /\
  exists u, client h = ProviderStream.Start :: Deltas (sent p ds) ++ [ProviderStream.Done final u] /\
    a' = map_set ch (i, MkAudit Completed None (Some u)) a.

Lemma prepare_finish ch i u (a : Audits) : update_row ch i u (prepare ch i a) = map_set ch (i, u) a.
Proof. unfold update_row, prepare. rewrite map_get_set, decide_True by done. by rewrite bool_decide_true, map_set_set. Qed.

Lemma request_run nonzero a r status cs i ch b req has hooks metaOf now n1 n2 d d1 d2 au gens t :
  clean_stream r status cs -> map_get i gens = None -> find_target req ch b d = Ok t ->
  match user_text req with
  | Some x => Messages.exec d (Messages.Create ch b (plain_message (lit "user") x (lit "{}")) now n1) = Ok d1
  | None => d1 = d
  end ->
  let p := ProviderStream.assistantPrefill r in
  let out := runPostProcessors has hooks (prefixed p (concat (texts_of a cs))) in
  let op := write_op (prepared req ch b t (capture t d) p) (fst out) (metaOf (snd out)) now n2 in
  trim_text (fst out) <> [] -> saves d1 op -> Messages.exec d1 op = Ok d2 ->
  exists au' h, fold_left step (handle i ch b req p has hooks metaOf now n1 n2 (events_of nonzero a r status cs)) (MkSystem d au gens) =
    MkSystem d2 au' (map_set i h gens) /\ told_done i ch p (texts_of a cs) (fst out) au au' h.
Proof.
  intros Hcl Hi Ht Hu p out op Hb Hsv Hex. destruct (clean_events nonzero a r status cs Hcl) as [u ->].
  rewrite (prologue i ch b req p has hooks metaOf now n1 n2 _ d au gens t d1) by done.
  destruct (stream_run i has hooks metaOf now n2 (texts_of a cs) u (prepared req ch b t (capture t d) p) d1 d2 (prepare ch i au) gens) as (h & Hh & Hp & Hc); try done.
  eexists _, h. split; [exact Hh|]. split; [done|]. exists u. split; [done|]. apply prepare_finish.
Qed.

Lemma reachable_nonempty used d : Messages.reachable used d -> [] ∉ used.
Proof.
  induction 1 as [|used d op _ IH Hn _]; [apply not_elem_of_nil|]. rewrite elem_of_app. intros [H|H]; [|done].
  rewrite Forall_forall in Hn. by destruct (Hn _ H).
Qed.

Lemma create_plain d ch b role content meta now n : n ∉ Messages.ids d ->
  let op := Messages.Create ch b (plain_message role content meta) now n in
  let d' := Messages.with_messages (Messages.messages d ++ [Messages.created_row n ch b (plain_message role content meta) now]) d in
  Messages.exec d op = Ok d' /\ saves d op.
Proof.
  intros Hn op d'. assert (E : Messages.exec d op = Ok d').
  { unfold op, d'. cbn. unfold Messages.create. rewrite Messages.insert_message_ok; [done|done|]. intros m _. by apply Messages.no_key. }
  split; [exact E|]. split; [done|]. by rewrite E.
Qed.

(** C3: from the bytes of the provider to the chat.  A request with a message
    appends exactly two messages to the chat, that of the user and the reply; the reply is
    what the hooks make of the prefill followed by the texts in the bytes of the
    response, however these were cut; the client has been sent the same texts
    piece by piece, with the prefill in front of the first, and at the end the reply; and
    the audit of the chat is the one of this request, completed. *)
Theorem reply_saved nonzero a r status cs i ch b req x has hooks metaOf now n1 n2 used d au gens :
  Messages.reachable used d -> n1 ∉ used -> n2 ∉ used -> n1 <> n2 ->
  clean_stream r status cs -> map_get i gens = None -> user_text req = Some x ->
  let p := ProviderStream.assistantPrefill r in
  let out := runPostProcessors has hooks (prefixed p (concat (texts_of a cs))) in
  trim_text (fst out) <> [] ->
  let s' := fold_left step (handle i ch b req p has hooks metaOf now n1 n2 (events_of nonzero a r status cs)) (MkSystem d au gens) in
  Messages.messages (db s') = Messages.messages d ++
    [Messages.created_row n1 ch b (plain_message (lit "user") x (lit "{}")) now;
     Messages.created_row n2 ch b (plain_message (lit "assistant") (fst out) (metaOf (snd out))) now] /\
  exists h, generations s' = map_set i h gens /\ told_done i ch p (texts_of a cs) (fst out) au (audits s') h.
Proof.
  intros Hwf%Messages.reachable_wf H1 H2 Hne Hcl Hi Hx p out Hb s'.
  assert (Hids : forall n, n ∉ used -> n ∉ Messages.ids d) by (intros n; by apply (Messages.fresh_message_id (strict := true))).
  destruct (create_plain d ch b (lit "user") x (lit "{}") now n1 (Hids _ H1)) as [E1 _]. set (d1 := Messages.with_messages _ d) in E1.
  assert (F2 : n2 ∉ Messages.ids d1).
  { unfold d1, Messages.ids. cbn [Messages.messages Messages.with_messages]. rewrite map_app, elem_of_app. cbn. rewrite list_elem_of_singleton.
    intros [H|H]; [by apply (Hids n2)|done]. }
  destruct (create_plain d1 ch b (lit "assistant") (fst out) (metaOf (snd out)) now n2 F2) as [E2 S2].
  assert (Ht : find_target req ch b d = Ok None) by (unfold find_target; unfold user_text in Hx; by destruct (_ || _)).
  set (d2 := Messages.with_messages _ d1) in E2.
  destruct (request_run nonzero a r status cs i ch b req has hooks metaOf now n1 n2 d d1 d2 au gens None Hcl Hi Ht) as (au' & h & Hh & Hd); try done.
  { by rewrite Hx. }
  unfold s'. fold p in Hh. rewrite Hh. cbn [db generations audits]. split; [|by exists h]. cbn. by rewrite <- app_assoc.
Qed.

Lemma recent_elem d ch b k m : m ∈ Messages.recentAscending ch b k d -> m ∈ Messages.messages d.
Proof.
  unfold Messages.recentAscending. rewrite elem_of_In, <- in_rev, <- elem_of_In. intros H.
  apply elem_of_take in H as (j & H & _). apply list_elem_of_lookup_2, elem_of_stable_sort in H. by apply elem_of_filter_bool in H as [H _].
Qed.

(** What asks for the last message to be replaced. *)
Definition asks_for (req : Request) (m : Messages.MessageRow) : Prop :=
  regenerateMessageId req = Some (Messages.id m) \/ (regenerate req = true /\ regenerateMessageId req = None).

Lemma asks_target req ch b d m : asks_for req m -> Messages.id m <> [] -> last (Messages.recentAscending ch b 1 d) = Some m ->
  Messages.role m = lit "assistant" -> find_target req ch b d = Ok (Some (Messages.id m)) /\ user_text req = None.
Proof.
  intros Ha Hne Hl Hr. unfold find_target, user_text. rewrite Hl, Hr. destruct Ha as [E|[E1 E2]].
  - rewrite E. destruct (Messages.id m) as [|c x] eqn:Ei; [done|]. cbn [given]. rewrite orb_true_r. by rewrite bool_decide_true.
  - by rewrite E1, E2.
Qed.

Lemma replace_same_texts used d m q ar t mt now n : Messages.wf used d -> n ∉ used -> m ∈ Messages.messages d ->
  Messages.activeVariantPosition m = Some q ->
  let row := Messages.rewritten m now (Messages.role m) t mt (Messages.variantCount m + 1) (Some (Messages.variantCount m))
    (Messages.contentRevisionCount m) (Messages.checkpointChatId m) in
  let op := Messages.Replace (Messages.id m) ar t mt now n in
  let d' := Messages.write_row row (Messages.with_variants (Messages.messageVariants d ++ [Messages.MkArchive n (Messages.id m) q ar now]) d) in
  Messages.find_message (Messages.id m) d = Some m /\ Messages.exec d op = Ok d' /\ saves d op.
Proof.
  intros Hwf Hn Hm Hq row op d'. assert (F : Messages.find_message (Messages.id m) d = Some m).
  { destruct (Messages.find_message (Messages.id m) d) as [y|] eqn:F.
    - apply Messages.find_message_Some in F as [Hy E]. f_equal. by eapply Messages.same_id; [apply Hwf|..].
    - apply Messages.find_message_None in F. by destruct F; apply Messages.id_elem. }
  assert (E : Messages.exec d op = Ok d').
  { unfold op. cbn. unfold Messages.replaceContentAsVariant. rewrite F, Hq. cbn [Messages.orElse]. rewrite Messages.insert_archive_ok; [done|..].
    - eapply Messages.table_ok_fresh; [by apply Hwf|done].
    - pose proof (Messages.wf_regular used d m Hwf Hm) as Hv. unfold Messages.variants_ok in Hv. rewrite Hq in Hv. destruct Hv as (Hv & _).
      by apply NoDup_cons in Hv as [? _]. }
  split_and!; [done..|]. split; [unfold op; by rewrite F|by rewrite E].
Qed.

(** C6: a reply that is generated anew.  When the last message of the branch is a
    reply and its replacement is asked for, the new text becomes its content with a new
    active position, the old text goes to its variants at the position that it had, and
    nothing else changes in the tables of the messages. *)
Theorem reply_replaced nonzero a r status cs i ch b req m q has hooks metaOf now n1 n2 used d au gens :
  Messages.reachable used d -> n2 ∉ used ->
  clean_stream r status cs -> map_get i gens = None ->
  last (Messages.recentAscending ch b 1 d) = Some m -> Messages.role m = lit "assistant" -> asks_for req m ->
  Messages.activeVariantPosition m = Some q ->
  let p := ProviderStream.assistantPrefill r in
  let out := runPostProcessors has hooks (prefixed p (concat (texts_of a cs))) in
  trim_text (fst out) <> [] ->
  let s' := fold_left step (handle i ch b req p has hooks metaOf now n1 n2 (events_of nonzero a r status cs)) (MkSystem d au gens) in
  let row := Messages.rewritten m now (Messages.role m) (fst out) (metaOf (snd out)) (Messages.variantCount m + 1) (Some (Messages.variantCount m))
    (Messages.contentRevisionCount m) (Messages.checkpointChatId m) in
  db s' = Messages.MkDb
    (map (fun y => if bool_decide (Messages.id y = Messages.id m) then row else y) (Messages.messages d))
    (Messages.messageVariants d ++ [Messages.MkArchive n2 (Messages.id m) q (Messages.content m) now])
    (Messages.messageContentRevisions d) (Messages.messageDrafts d) /\
  exists h, generations s' = map_set i h gens /\ told_done i ch p (texts_of a cs) (fst out) au (audits s') h.
Proof.
  intros Hreach H2 Hcl Hi Hl Hr Ha Hq p out Hb s' row.
  pose proof (Messages.reachable_wf _ _ Hreach) as Hwf.
  assert (Hm : m ∈ Messages.messages d) by (eapply recent_elem; apply last_Some_elem_of; exact Hl).
  assert (Hne : Messages.id m <> []).
  { intros E. apply (reachable_nonempty _ _ Hreach). rewrite <- E. pose proof (Messages.wf_used _ _ Hwf) as Hu. rewrite List.Forall_forall in Hu.
    apply Hu, elem_of_In. by apply Messages.id_elem. }
  destruct (asks_target req ch b d m Ha Hne Hl Hr) as [Ht Hu].
  destruct (replace_same_texts used d m q (Messages.content m) (fst out) (metaOf (snd out)) now n2 Hwf H2 Hm Hq) as (F & E & S).
  fold row in E. set (d2 := Messages.write_row row _) in E.
  assert (Hw : write_op (prepared req ch b (Some (Messages.id m)) (capture (Some (Messages.id m)) d) p) (fst out) (metaOf (snd out)) now n2 =
    Messages.Replace (Messages.id m) (Messages.content m) (fst out) (metaOf (snd out)) now n2).
  { unfold capture, write_op. cbn [target regeneratedContent prepared]. rewrite F. by destruct (Messages.id m). }
  pose proof (request_run nonzero a r status cs i ch b req has hooks metaOf now n1 n2 d d d2 au gens (Some (Messages.id m)) Hcl Hi Ht) as R.
  rewrite Hu in R. specialize (R eq_refl). cbv zeta in R. fold p in R. fold out in R. rewrite Hw in R. destruct (R Hb S E) as (au' & h & Hh & Hd).
  unfold s'. rewrite Hh. cbn [db generations audits]. split; [done|]. by exists h.
Qed.
End Lemmas.

(** ** Runs *)

Abbreviation PS_event := (ProviderStream.GenerationEvent (N := Z)).

Definition usage0 : ProviderStream.TokenUsage (N := Z) := ProviderStream.stream_usage None.

Definition play (ops : list (Op (N := Z))) (d : Messages.Db) : System := fold_left step ops (MkSystem d [] []).

(** A chat with one reply. *)
Definition first_op : Messages.Op := Messages.Create (lit "c") (lit "b") (plain_message (lit "assistant") (lit "Old") (lit "{}")) 1 (lit "m1").
Definition one_reply : Messages.Db := Messages.step Messages.empty first_op.

Lemma one_reply_reachable : Messages.reachable [lit "m1"] one_reply.
Proof. apply (Messages.reach_step [] Messages.empty first_op); [constructor|repeat constructor; [done|apply not_elem_of_nil]|done]. Qed.

Definition again : Request := MkRequest true None None.

Definition ev (g n : string) (e : PS_event) : Op (N := Z) := Event (lit g) None [] (fun _ => lit "{}") 5 (lit n) false e.

Definition begin (g : string) (r : Request) (prefill : option text) : list (Op (N := Z)) :=
  [Receive (lit g) (lit "c") (Some (lit "b")) r; FindTarget (lit g) false; Capture (lit g); Persist (lit g) false 4 (lit g ++ lit "-user");
   Prepare (lit g) prefill].

(** The texts of a chat: contents, variants and previous contents. *)
Definition texts (d : Messages.Db) : list text * list text * list text :=
  (map Messages.content (Messages.messages d), map Messages.archived (Messages.messageVariants d),
   map Messages.archived (Messages.messageContentRevisions d)).

(** The content that is archived is the one of the beginning of the request.  An
    edit that is made while the reply is streamed is in no table afterwards, and
    the old text is there twice; of two regenerations at once, the reply of the first
    is gone, although its client was told that it is done. *)
Theorem stale_capture_loses :
  texts (db (play (begin "g" again None ++ [ev "g" "v" ProviderStream.Start;
      Other (Messages.Update (lit "m1") (Messages.MkUpdate (Some (lit "Edited")) None None None) (Some 1) true 4 (lit "r"));
      ev "g" "v" (ProviderStream.Done (lit "New") usage0)]) one_reply)) = ([lit "New"], [lit "Old"], [lit "Old"]) /\
  let s := play (begin "g" again None ++ begin "h" again None ++ [ev "g" "v" (ProviderStream.Done (lit "First") usage0);
      ev "h" "w" (ProviderStream.Done (lit "Second") usage0)]) one_reply in
  texts (db s) = ([lit "Second"], [lit "Old"; lit "Old"], []) /\
  match map_get (lit "g") (generations s) with Some g => client g = [ProviderStream.Done (lit "First") usage0] | None => False end.
Proof. vm_compute. done. Qed.

(** An empty completion is saved as a reply when there is a prefill: the client
    gets no text, and the prefill is the content of the message. *)
Theorem prefill_hides_empty :
  let events := [ProviderStream.Start; ProviderStream.Done [] usage0] in
  let run := fun p => play (handle (lit "g") (lit "c") (lit "b") (MkRequest false None (Some (lit "Hi"))) p None [] (fun _ => lit "{}") 5
    (lit "u") (lit "m") events) Messages.empty in
  fst (fst (texts (db (run None)))) = [lit "Hi"] /\
  fst (fst (texts (db (run (Some (lit "Sure")))))) = [lit "Hi"; lit "Sure"] /\
  match map_get (lit "g") (generations (run (Some (lit "Sure")))) with
  | Some g => client g = [ProviderStream.Start; ProviderStream.Done (lit "Sure") usage0]
  | None => False
  end.
Proof. vm_compute. done. Qed.

Lemma sample_clean : clean_stream ProviderStream.sample_request 200 ProviderStream.sample_pieces.
Proof.
  split_and!; [reflexivity | reflexivity | vm_compute; repeat constructor |].
  exists 100, 1000. split_and!; [| |vm_compute; discriminate].
  - apply List.Forall_forall. intros l Hl. apply Z.leb_le. revert l Hl.
    apply (forallb_forall (fun l => Codec.length16 l <=? 100)). vm_compute. reflexivity.
  - apply List.Forall_forall. intros l Hl. apply Z.leb_le. revert l Hl.
    apply (forallb_forall (fun l => Z.of_nat (length l) <=? 1000)). vm_compute. reflexivity.
Qed.

Definition shout : PostProcessor := MkProcessor (lit "shout") None None (fun t => Returns (t ++ lit "!")).

Definition sample_ops (r : Request) : list (Op (N := Z)) :=
  handle (lit "g") (lit "c") (lit "b") r (ProviderStream.assistantPrefill ProviderStream.sample_request) None [shout] (fun _ => lit "{}") 5 (lit "u") (lit "m2")
    (events_of (fun _ => true) ProviderStream.sample_adapter ProviderStream.sample_request 200 ProviderStream.sample_pieces).

Lemma reply_saved_witness :
  fst (fst (texts (db (play (sample_ops (MkRequest false None (Some (lit "Hi")))) one_reply)))) =
  [lit "Old"; lit "Hi"; lit "Caf" ++ [233] ++ lit "!!"].
Proof.
  unfold texts, play, sample_ops. cbn [fst].
  rewrite (proj1 (reply_saved (fun _ => true) ProviderStream.sample_adapter ProviderStream.sample_request 200 ProviderStream.sample_pieces
    (lit "g") (lit "c") (lit "b") (MkRequest false None (Some (lit "Hi"))) (lit "Hi") None [shout] (fun _ => lit "{}") 5 (lit "u") (lit "m2")
    [lit "m1"] one_reply [] [] one_reply_reachable ltac:(apply (bool_decide_unpack _); vm_compute; exact I)
    ltac:(apply (bool_decide_unpack _); vm_compute; exact I) ltac:(done) sample_clean eq_refl eq_refl ltac:(vm_compute; done))).
  vm_compute. reflexivity.
Defined.

Lemma reply_replaced_witness :
  texts (db (play (sample_ops again) one_reply)) = ([lit "Caf" ++ [233] ++ lit "!!"], [lit "Old"], []).
Proof.
  unfold play, sample_ops.
  rewrite (proj1 (reply_replaced (fun _ => true) ProviderStream.sample_adapter ProviderStream.sample_request 200 ProviderStream.sample_pieces
    (lit "g") (lit "c") (lit "b") again (Messages.created_row (lit "m1") (lit "c") (lit "b") (plain_message (lit "assistant") (lit "Old") (lit "{}")) 1) 0
    None [shout] (fun _ => lit "{}") 5 (lit "u") (lit "m2")
    [lit "m1"] one_reply [] [] one_reply_reachable ltac:(apply (bool_decide_unpack _); vm_compute; exact I)
    sample_clean eq_refl eq_refl eq_refl ltac:(right; done) eq_refl ltac:(vm_compute; done))).
  vm_compute. reflexivity.
Defined.

Fixpoint all_allowed (s : System (N := Z)) (ops : list (Op (N := Z))) : Prop :=
  match ops with [] => True | op :: r => allowed s op /\ all_allowed (step s op) r end.

Lemma play_reaches ops : forall s, reaches s -> all_allowed s ops -> reaches (fold_left step ops s).
Proof. induction ops as [|op ops IH]; intros s Hs Ha; [done|]. destruct Ha as [Ha Hr]. apply IH; [by apply reaches_step|done]. Qed.

(** A reply of one piece. *)
Definition small_ops : list (Op (N := Z)) :=
  begin "g" (MkRequest false None (Some (lit "Hi"))) (Some (lit "So: ")) ++
  [ev "g" "m" ProviderStream.Start; ev "g" "m" (ProviderStream.Delta (lit "x")); ev "g" "m" (ProviderStream.Done (lit "x") usage0);
   EndOfStream (lit "g") false].

Lemma small_reaches : reaches (play small_ops Messages.empty).
Proof.
  apply play_reaches; [constructor|]. cbn [small_ops begin app all_allowed]. split_and!; try exact I;
    intros g E; vm_compute in E; injection E as <-; [exists [ProviderStream.Delta (lit "x"); ProviderStream.Done (lit "x") usage0]|exists [ProviderStream.Done (lit "x") usage0]|exists []];
    exists [lit "x"]; left; exists usage0; reflexivity.
Qed.

Definition small_gen : Generation (N := Z) :=
  match map_get (lit "g") (generations (play small_ops Messages.empty)) with Some g => g | None => new_generation again [] [] end.


(** Two generations of one chat at once: the audit of the first is written over by that
    of the second, and the end of the first, of which its client is told, does not come to it. *)
Example superseded_audit :
  let s := play (begin "g" (MkRequest false None None) None ++ begin "h" (MkRequest false None None) None ++
    [ev "g" "m" ProviderStream.Start; ev "g" "m" (ProviderStream.Done (lit "First") usage0); EndOfStream (lit "g") false]) Messages.empty in
  audits s = [(lit "c", (lit "h", MkAudit Prepared None None))] /\
  match map_get (lit "g") (generations s) with Some g => client g = [ProviderStream.Start; ProviderStream.Done (lit "First") usage0] | None => False end /\
  audits (step s (Fails (lit "h") "PROVIDER_ERROR" false)) = [(lit "c", (lit "h", MkAudit Failed (Some "PROVIDER_ERROR"%string) None))].
Proof. vm_compute. done. Qed.

Lemma replies_keep_texts_witness :
  let s := play (begin "g" again None ++ [ev "g" "v" ProviderStream.Start]) one_reply in
  Messages.has_text (db s) (lit "m1") (lit "Old") /\
  Messages.has_text (db (step s (ev "g" "v" (ProviderStream.Done (lit "New") usage0)))) (lit "m1") (lit "Old").
Proof.
  intros s. assert (H : Messages.has_text (db s) (lit "m1") (lit "Old")) by (left; eexists; split; [vm_compute; left | split; reflexivity]).
  split; [exact H|]. revert H.
  refine (proj1 (replies_keep_texts [lit "m1"] s (ev "g" "v" (ProviderStream.Done (lit "New") usage0)) one_reply_reachable _ _) _ _ _).
  - intros x. discriminate.
  - repeat constructor; [done|]. apply (bool_decide_unpack _). vm_compute. exact I.
  - intros g j m Hg Ht Hm. vm_compute in Hg. injection Hg as <-. injection Ht as <-. vm_compute in Hm. by injection Hm as <-.
Defined.
End Generate.
