(* ===== verification/ModuleGraph.v ===== *)
(** * The module graph of a plugin
    (apps/plugin-runtime/src/graph: moduleGraphBuilder.ts, moduleGraphLoader.ts,
    moduleMapCache.ts; packages/contracts/src/pluginModule.ts)

    The builder walks the imports of a package breadth first and records every
    module; the loader serves the recorded modules to the compartment of the plugin.
    The two parsers and the hash are not code of the repository: they are
    arguments of the section. *)

From Stdlib Require Import ZArith Lia Bool Ascii String List Permutation Sorted.
From stdpp Require Import base decidable list sets.
From S2P Require Import Prelude Json.
Import Json.
Local Open Scope Z_scope.
Local Open Scope string_scope.

Module ModuleGraph.

Inductive Detail :=
| PluginIdRequired | EntryNotFound | TooManyModules | MissingModule | SourceTooLong | InvalidJsonModule
| InvalidModule | UnresolvedImport | EntryRequired | DuplicateLocation | NoSource.

Inductive PluginModuleError :=
| PACKAGE_INVALID (d : Detail)
| UNSUPPORTED_DEPENDENCY
| UNSUPPORTED_NODE_BUILTIN
| MODULE_NOT_IN_GRAPH
| MODULE_DIGEST_MISMATCH
| SyntaxError.

Definition NODE_BUILTIN_MODULES : list string := ["assert"; "assert/strict"; "async_hooks"; "buffer"; "child_process";
  "cluster"; "console"; "constants"; "crypto"; "dgram"; "diagnostics_channel"; "dns"; "dns/promises"; "domain";
  "events"; "fs"; "fs/promises"; "http"; "http2"; "https"; "inspector"; "inspector/promises"; "module"; "net"; "os";
  "path"; "path/posix"; "path/win32"; "perf_hooks"; "process"; "punycode"; "querystring"; "readline";
  "readline/promises"; "repl"; "sea"; "sqlite"; "stream"; "stream/consumers"; "stream/promises"; "stream/web";
  "string_decoder"; "sys"; "test"; "timers"; "timers/promises"; "tls"; "trace_events"; "tty"; "url"; "util";
  "util/types"; "v8"; "vm"; "wasi"; "worker_threads"; "zlib"].

Definition JS_EXTENSIONS : list string := [".js"; ".mjs"; ".json"].

Definition startsWith (s p : string) : bool := starts_with (chars p) (chars s).
Definition endsWith (s p : string) : bool := ends_with (chars p) (chars s).

Definition isNodeBuiltin (specifier : string) : bool :=
  startsWith specifier "node:" || mem specifier NODE_BUILTIN_MODULES.

(** ** Paths *)

Abbreviation path := (list (list ascii)).

(** The loop over the parts, with the kept segments in order; [None] is the early
    return of the empty path. *)
Fixpoint normalize_parts (parts segments : path) : option path :=
  match parts with
  | [] => Some segments
  | part :: r =>
      if String.eqb (str part) "" || String.eqb (str part) "." then normalize_parts r segments
      else if String.eqb (str part) ".." then
        match segments with [] => None | _ => normalize_parts r (removelast segments) end
      else normalize_parts r (segments ++ [part])
  end.

(** [segments.join('/')] *)
Fixpoint join_path (l : path) : list ascii :=
  match l with
  | [] => []
  | [x] => x
  | x :: r => x ++ "/"%char :: join_path r
  end.

Definition normalizePackagePath (p : string) : string :=
  match normalize_parts (split_on "/" (chars p)) [] with Some l => str (join_path l) | None => "" end.

(** [importerId.slice(0, importerId.lastIndexOf('/') + 1)] *)
Definition directory (id : string) : string :=
  str (rev (drop_while (fun c => negb (c =? "/")%char) (rev (chars id)))).

(** The first of the candidates that exists. *)
Definition first_existing (existing : list string) (candidates : list string) : string :=
  match List.find (fun c => mem c existing) candidates with Some c => c | None => "" end.

Definition resolveRelativeId (importerId specifier : string) (existing : list string) : string :=
  let candidate := normalizePackagePath (directory importerId ++ specifier) in
  if String.eqb candidate "" then ""
  else first_existing existing (candidate :: map (fun extension => candidate ++ extension) JS_EXTENSIONS ++
         map (fun extension => candidate ++ "/index" ++ extension) JS_EXTENSIONS).

Inductive ModuleKind := JsModule | JsonModule.

Definition moduleKind (id : string) : ModuleKind := if endsWith id ".json" then JsonModule else JsModule.

Definition PLUGIN_MODULE_VIRTUAL_SCHEME : string := "neotavern-plugin".
Definition PLUGIN_MODULE_MAX_COUNT : Z := 256.
Definition PLUGIN_MODULE_MAX_SOURCE_BYTES : Z := 1024 * 1024.

(** The virtual location; leading slashes of the id are dropped. *)
Definition pluginModuleLocation (pluginId id : string) : string :=
  PLUGIN_MODULE_VIRTUAL_SCHEME ++ "://" ++ pluginId ++ "/" ++ str (drop_while (fun c => (c =? "/")%char) (chars id)).

(** ** Dynamic imports *)

(** A value of the syntax tree; numbers, booleans and null are [JsAtom]. *)
Inductive js :=
| JsAtom
| JsString (s : string)
| JsArray (l : list js)
| JsObject (l : list (string * js)).

Definition node_type (o : list (string * js)) : string :=
  match map_get "type" o with Some (JsString t) => t | _ => "" end.

(** The specifier of an [import()] whose target is a literal. *)
Definition import_target (o : list (string * js)) : list string :=
  if String.eqb (node_type o) "ImportExpression" then
    match map_get "source" o with
    | Some (JsObject s) =>
        if String.eqb (node_type s) "StringLiteral" then
          match map_get "value" s with Some (JsString v) => [v] | _ => [] end
        else if String.eqb (node_type s) "TemplateLiteral" then
          match map_get "quasis" s with
          | Some (JsArray [JsObject quasi]) =>
              match map_get "value" quasi with
              | Some (JsObject v) => match map_get "cooked" v with Some (JsString c) => [c] | _ => [] end
              | _ => []
              end
          | _ => []
          end
        else []
    | _ => []
    end
  else [].

Definition skipped_key (k : string) : bool := mem k ["loc"; "start"; "end"; "extra"].

Fixpoint walk (node : js) : list string :=
  match node with
  | JsArray l => (fix items l := match l with [] => [] | x :: r => (walk x ++ items r)%list end) l
  | JsObject o =>
      import_target o ++
      (fix keys o := match o with [] => [] | (k, v) :: r => ((if skipped_key k then [] else walk v) ++ keys r)%list end) o
  | _ => []
  end%list.

(** ** Warnings *)

Inductive Warning := UsesRequire | UsesEval | UsesFunction | UsesModuleExports.

Definition is_word (c : ascii) : bool := is_alnum c || (c =? "_")%char.

(** Does [p] hold at a position of the text?  [p] sees the character before. *)
Fixpoint somewhere (p : option ascii -> list ascii -> bool) (before : option ascii) (l : list ascii) : bool :=
  p before l || match l with [] => false | c :: r => somewhere p (Some c) r end.

Definition boundary (before : option ascii) : bool := match before with Some c => negb (is_word c) | None => true end.

(** [/\bword\s*\(/] *)
Definition calls (word : string) (src : string) : bool :=
  somewhere (fun before l => boundary before && starts_with (chars word) l &&
    starts_with ["("%char] (drop_while is_ws (drop (String.length word) l))) None (chars src).

(** [/module\.exports\b/] *)
Definition module_exports (src : string) : bool :=
  somewhere (fun _ l => starts_with (chars "module.exports") l &&
    match drop 14 l with c :: _ => negb (is_word c) | [] => true end) None (chars src).

Definition source_warnings (src : string) : list Warning :=
  (if calls "require" src then [UsesRequire] else []) ++ (if calls "eval" src then [UsesEval] else []) ++
  (if calls "Function" src then [UsesFunction] else []) ++ (if module_exports src then [UsesModuleExports] else []).

(** ** The builder *)

Record PluginModuleRecord := MkRecord {
  id : string;
  location : string;
  kind : ModuleKind;
  digest : string;
  imports : list string;
  exports : list string;
  resolvedImports : list (string * string);
  source : string
}.

Record PluginModuleGraph := MkGraph { pluginId : string; entry : string; records : list PluginModuleRecord }.

Record PluginPackageSource := MkPackage { packageId : string; packageEntry : string; files : list (string * string) }.

Record BuildModuleGraphOptions := MkOptions {
  allowedNodeBuiltins : list string;
  allowedDependencies : list string;
  maxModules : Z;
  maxSourceBytes : Z
}.

Definition default_options : BuildModuleGraphOptions :=
  MkOptions [] [] PLUGIN_MODULE_MAX_COUNT PLUGIN_MODULE_MAX_SOURCE_BYTES.

(** The queue, the records in the order of their insertion, and the warnings. *)
Record BuildState := MkState {
  queue : list string;
  built : list (string * PluginModuleRecord);
  warnings : list (string * Warning)
}.

Section Builder.
Context {N : Type} `{!NumberText N}.

(** [ModuleSource(source, location)]: the imports and exports, or an error;
    [parse(source)]: the syntax tree, or an error; the digest. *)
Variable moduleSource : string -> string -> option (list string * list string).
Variable parse : string -> option js.
Variable sha256Hex : string -> string.

Definition json_parses (src : string) : bool :=
  match Json.parse (N := N) (map code (chars src)) with Some _ => true | None => false end.

Definition collectDynamicImports (src : string) : outcome PluginModuleError (list string) :=
  match parse src with Some ast => Ok (walk ast) | None => Throw SyntaxError end.

Definition is_relative (specifier : string) : bool := startsWith specifier "./" || startsWith specifier "../".

Section Package.
Variable pkg : PluginPackageSource.
Variable opts : BuildModuleGraphOptions.

Definition compile (mid src : string) : outcome PluginModuleError (list string * list string) :=
  match moduleKind mid with
  | JsonModule => if json_parses src then Ok ([], ["default"]) else Throw (PACKAGE_INVALID InvalidJsonModule)
  | JsModule =>
      match moduleSource src (pluginModuleLocation (packageId pkg) mid) with
      | Some parsed => Ok parsed
      | None => Throw (PACKAGE_INVALID InvalidModule)
      end
  end.

(** [if (!allSpecifiers.includes(s)) allSpecifiers.push(s)] *)
Definition add_specifier (all : list string) (s : string) : list string := if mem s all then all else (all ++ [s])%list.

Definition allSpecifiers (mid src : string) (static : list string) : outcome PluginModuleError (list string) :=
  match moduleKind mid with
  | JsonModule => Ok static
  | JsModule =>
      match collectDynamicImports src with
      | Ok dynamic => Ok (fold_left add_specifier dynamic static)
      | Throw e => Throw e
      end
  end.

(** One specifier: its resolution, and whether it is queued. *)
Definition resolve_specifier (mid specifier : string) : outcome PluginModuleError (string * bool) :=
  if is_relative specifier then
    let resolvedId := resolveRelativeId mid specifier (map_keys (files pkg)) in
    if String.eqb resolvedId "" then Throw (PACKAGE_INVALID UnresolvedImport) else Ok (resolvedId, true)
  else if isNodeBuiltin specifier then
    if mem specifier (allowedNodeBuiltins opts) then Ok (specifier, false) else Throw UNSUPPORTED_NODE_BUILTIN
  else if mem specifier (allowedDependencies opts) then Ok (specifier, false)
  else Throw UNSUPPORTED_DEPENDENCY.

(** The loop over the specifiers: the import map and the queued ids. *)
Fixpoint resolve_all (mid : string) (specifiers : list string) (resolved : list (string * string)) (queued : list string) :
  outcome PluginModuleError (list (string * string) * list string) :=
  match specifiers with
  | [] => Ok (resolved, queued)
  | s :: r =>
      match resolve_specifier mid s with
      | Ok (target, queues) =>
          resolve_all mid r (map_set s target resolved) (if queues then (queued ++ [target])%list else queued)
      | Throw e => Throw e
      end
  end.

(** The body of the loop from the file to its record. *)
Definition visit (mid : string) : outcome PluginModuleError (PluginModuleRecord * list string) :=
  match map_get mid (files pkg) with
  | None => Throw (PACKAGE_INVALID MissingModule)
  | Some fileSource =>
      if (maxSourceBytes opts <? strlen fileSource)%Z then Throw (PACKAGE_INVALID SourceTooLong)
      else match compile mid fileSource with
           | Throw e => Throw e
           | Ok (static, exported) =>
               match allSpecifiers mid fileSource static with
               | Throw e => Throw e
               | Ok specifiers =>
                   match resolve_all mid specifiers [] [] with
                   | Throw e => Throw e
                   | Ok (resolved, queued) =>
                       Ok (MkRecord mid (pluginModuleLocation (packageId pkg) mid) (moduleKind mid)
                             (sha256Hex fileSource) specifiers exported resolved fileSource, queued)
                   end
               end
           end
  end.

Fixpoint build_loop (fuel : nat) (st : BuildState) : option (outcome PluginModuleError BuildState) :=
  match queue st with
  | [] => Some (Ok st)
  | mid :: q =>
      match fuel with
      | O => None
      | S f =>
          if map_has mid (built st) then build_loop f (MkState q (built st) (warnings st))
          else if (maxModules opts <=? Z.of_nat (length (built st)))%Z then Some (Throw (PACKAGE_INVALID TooManyModules))
          else match visit mid with
               | Throw e => Some (Throw e)
               | Ok (record, queued) =>
                   build_loop f (MkState (q ++ queued) (map_set mid record (built st))
                     (warnings st ++ map (fun w => (mid, w)) (source_warnings (source record))))
               end
      end
  end%list.

(** The imports of all files bound the rounds of the loop. *)
Definition file_imports (mid : string) : nat := match visit mid with Ok (_, queued) => length queued | Throw _ => O end.

Definition build_fuel : nat := S (list_sum (map file_imports (map_keys (files pkg)))).

(** [a.id < b.id ? -1 : a.id > b.id ? 1 : 0] *)
Definition id_le (a b : PluginModuleRecord) : bool := (str_cmp (id a) (id b) <=? 0)%Z.

Definition buildModuleGraph : option (outcome PluginModuleError (PluginModuleGraph * list (string * Warning))) :=
  if String.eqb (packageId pkg) "" then Some (Throw (PACKAGE_INVALID PluginIdRequired))
  else if negb (map_has (packageEntry pkg) (files pkg)) then Some (Throw (PACKAGE_INVALID EntryNotFound))
  else match build_loop build_fuel (MkState [packageEntry pkg] [] []) with
       | Some (Ok st) =>
           Some (Ok (MkGraph (packageId pkg) (packageEntry pkg) (stable_sort id_le (built st).*2), warnings st))
       | Some (Throw e) => Some (Throw e)
       | None => None
       end.
End Package.


(** ** Paths stay inside the package *)

Definition segment_ok (x : list ascii) : bool :=
  forallb (fun c => negb (c =? "/")%char) x &&
  negb (String.eqb (str x) "" || String.eqb (str x) "." || String.eqb (str x) "..").

Lemma split_no_slash l : forallb (forallb (fun c => negb (c =? "/")%char)) (split_on "/" l) = true.
Proof.
  induction l as [|c l IH]; [done|]. cbn [split_on]. destruct (Ascii.eqb_spec c "/") as [->|Hc]; [exact IH|].
  destruct (split_on "/" l) as [|x r]; cbn [forallb] in *; rewrite (proj2 (Ascii.eqb_neq c "/") Hc); [done|exact IH].
Qed.

Lemma normalize_parts_ok parts segments l :
  forallb (forallb (fun c => negb (c =? "/")%char)) parts = true -> forallb segment_ok segments = true ->
  normalize_parts parts segments = Some l -> forallb segment_ok l = true.
Proof.
  revert segments. induction parts as [|part parts IH]; intros segments Hp Hs; cbn [normalize_parts]; [by intros [= <-]|].
  cbn [forallb] in Hp. apply andb_true_iff in Hp as [Hpart Hp].
  destruct (_ || _) eqn:E1; [by apply IH|]. destruct (String.eqb (str part) "..") eqn:E2.
  - destruct segments as [|x segments] using rev_ind; [done|]. rewrite removelast_last. rewrite forallb_app in Hs.
    apply andb_true_iff in Hs as [Hs _]. destruct (segments ++ [x])%list eqn:E; [by destruct segments|]. by apply IH.
  - apply IH; [done|]. rewrite forallb_app, Hs. cbn [forallb]. unfold segment_ok. by rewrite Hpart, E1, E2.
Qed.

(** The segments of a normalized path are names: never empty, [.] or [..]. *)
Lemma normalizePackagePath_ok p :
  exists l, normalizePackagePath p = str (join_path l) /\ forallb segment_ok l = true.
Proof.
  unfold normalizePackagePath. destruct (normalize_parts _ []) as [l|] eqn:E; [|by exists []].
  exists l. split; [done|]. by eapply normalize_parts_ok; [apply split_no_slash| |exact E].
Qed.

(** ** The syntax tree *)

(** The objects of a tree that the walk visits. *)
Inductive subnode : js -> list (string * js) -> Prop :=
| sub_here o : subnode (JsObject o) o
| sub_item l x o : x ∈ l -> subnode x o -> subnode (JsArray l) o
| sub_key l k v o : (k, v) ∈ l -> skipped_key k = false -> subnode v o -> subnode (JsObject l) o.

Section JsInd.
Variable P : js -> Prop.
Hypothesis atom : P JsAtom.
Hypothesis text : forall s, P (JsString s).
Hypothesis array : forall l, Forall P l -> P (JsArray l).
Hypothesis object : forall l, Forall (fun kv => P kv.2) l -> P (JsObject l).

Fixpoint js_induction (n : js) : P n.
Proof.
  destruct n as [|s|l|l]; [exact atom | exact (text s) | apply array | apply object].
  - induction l; constructor; [apply js_induction | done].
  - induction l as [|[k v] l IH]; constructor; [apply js_induction | done].
Defined.
End JsInd.

Lemma walk_array l : walk (JsArray l) = concat (map walk l).
Proof. induction l as [|x l IH]; [done|]. cbn [map concat]. by rewrite <- IH. Qed.

Lemma walk_object l : walk (JsObject l) =
  (import_target l ++ concat (map (fun kv => if skipped_key kv.1 then [] else walk kv.2) l))%list.
Proof.
  change (walk (JsObject l)) with (import_target l ++ (fix keys o := match o with [] => [] | (k, v) :: r =>
    ((if skipped_key k then [] else walk v) ++ keys r)%list end) l)%list.
  f_equal. induction l as [|[k v] l IH]; [done|]. cbn [map concat fst snd]. by rewrite <- IH.
Qed.

Lemma elem_of_concat_map {A B} (f : A -> list B) l y : y ∈ concat (map f l) <-> exists x, x ∈ l /\ y ∈ f x.
Proof.
  rewrite elem_of_In, in_concat. setoid_rewrite in_map_iff. setoid_rewrite elem_of_In. naive_solver.
Qed.

Lemma walk_spec n s : s ∈ walk n <-> exists o, subnode n o /\ s ∈ import_target o.
Proof.
  induction n as [| |l IH|l IH] using js_induction.
  - split; [by intros ?%not_elem_of_nil|]. intros (o & H & _). inversion H.
  - split; [by intros ?%not_elem_of_nil|]. intros (o & H & _). inversion H.
  - rewrite walk_array, elem_of_concat_map. rewrite Forall_forall in IH. split.
    + intros (x & Hx & (o & Ho & Hs)%IH); [|done]. exists o. split; [by apply (sub_item l x)|done].
    + intros (o & Ho & Hs). inversion Ho as [|? x ? Hx Hsub|]; subst. exists x. split; [done|]. apply IH; eauto.
  - rewrite walk_object, elem_of_app, elem_of_concat_map. rewrite Forall_forall in IH. split.
    + intros [Hs|([k v] & Hk & Hs)]; [exists l; split; [constructor|done]|]. cbn [fst snd] in Hs.
      destruct (skipped_key k) eqn:E; [by apply not_elem_of_nil in Hs|]. apply (IH _ Hk) in Hs as (o & Ho & Hs).
      exists o. split; [by apply (sub_key l k v)|done].
    + intros (o & Ho & Hs). inversion Ho as [|  |? k v ? Hk E Hsub]; subst; [by left|]. right. exists (k, v).
      split; [done|]. cbn [fst snd]. rewrite E. apply (IH _ Hk). eauto.
Qed.

Lemma elem_add_specifiers dynamic static s :
  s ∈ fold_left add_specifier dynamic static <-> s ∈ static \/ s ∈ dynamic.
Proof.
  revert static. induction dynamic as [|d dynamic IH]; intros static; cbn [fold_left]; [set_solver|].
  rewrite IH, elem_of_cons. unfold add_specifier. destruct (mem d static) eqn:E.
  - apply mem_elem in E. naive_solver.
  - rewrite elem_of_app, list_elem_of_singleton. naive_solver.
Qed.

(** ** The import relation *)

Section Package.
Variable pkg : PluginPackageSource.
Variable opts : BuildModuleGraphOptions.

(** A specifier that the source of a module names, statically or in a dynamic
    import of its tree. *)
Definition mentions (mid src s : string) : Prop :=
  moduleKind mid = JsModule /\
  ((exists static exported, moduleSource src (pluginModuleLocation (packageId pkg) mid) = Some (static, exported) /\ s ∈ static) \/
   (exists ast o, parse src = Some ast /\ subnode ast o /\ s ∈ import_target o)).

Definition target (mid s : string) : string :=
  if is_relative s then resolveRelativeId mid s (map_keys (files pkg)) else s.

(** What the policy of the package permits. *)
Definition permitted (mid s : string) : Prop :=
  if is_relative s then target mid s <> ""
  else if isNodeBuiltin s then s ∈ allowedNodeBuiltins opts else s ∈ allowedDependencies opts.

Definition well_formed (mid src : string) : Prop :=
  match moduleKind mid with
  | JsonModule => json_parses src = true
  | JsModule => moduleSource src (pluginModuleLocation (packageId pkg) mid) <> None /\ parse src <> None
  end.

Definition admissible (mid : string) : Prop :=
  exists src, map_get mid (files pkg) = Some src /\ (strlen src <= maxSourceBytes opts)%Z /\ well_formed mid src /\
    forall s, mentions mid src s -> permitted mid s.

(** The modules that the entry needs. *)
Inductive reachable : string -> Prop :=
| reach_entry : reachable (packageEntry pkg)
| reach_import mid src s : reachable mid -> map_get mid (files pkg) = Some src -> mentions mid src s ->
    is_relative s = true -> target mid s <> "" -> reachable (target mid s).

(** ** One module *)

Lemma resolve_specifier_spec mid s x :
  resolve_specifier pkg opts mid s = Ok x <-> permitted mid s /\ x = (target mid s, is_relative s).
Proof.
  unfold resolve_specifier, permitted, target. destruct (is_relative s).
  - destruct (String.eqb_spec (resolveRelativeId mid s (map_keys (files pkg))) ""); naive_solver.
  - pose proof (mem_elem s (allowedNodeBuiltins opts)) as H1. pose proof (mem_elem s (allowedDependencies opts)) as H2.
    destruct (isNodeBuiltin s), (mem s (allowedNodeBuiltins opts)), (mem s (allowedDependencies opts)); naive_solver.
Qed.

Definition import_map (mid : string) (l : list string) (m : list (string * string)) : list (string * string) :=
  fold_left (fun m s => map_set s (target mid s) m) l m.

Lemma map_get_import_map mid l m k :
  map_get k (import_map mid l m) = if decide (k ∈ l) then Some (target mid k) else map_get k m.
Proof.
  unfold import_map. revert m. induction l as [|s l IH]; intros m; cbn [fold_left].
  - rewrite decide_False; [done|apply not_elem_of_nil].
  - rewrite IH, map_get_set. destruct (decide (k ∈ l)); [rewrite decide_True; [done|set_solver]|].
    destruct (decide (s = k)) as [->|]; [rewrite decide_True; [done|set_solver]|]. rewrite decide_False; set_solver.
Qed.

Lemma resolve_all_spec mid l m q x :
  resolve_all pkg opts mid l m q = Ok x <->
  Forall (permitted mid) l /\ x = (import_map mid l m, q ++ map (target mid) (List.filter is_relative l))%list.
Proof.
  revert m q. induction l as [|s l IH]; intros m q; cbn [resolve_all map List.filter import_map fold_left].
  - rewrite app_nil_r. split; [intros [= <-]; split; [constructor|done] | by intros [_ ->]].
  - rewrite Forall_cons. destruct (resolve_specifier pkg opts mid s) as [[t b]|e] eqn:E.
    + apply resolve_specifier_spec in E as [Hp [= -> ->]]. rewrite IH. unfold import_map.
      destruct (is_relative s); cbn [map]; [rewrite <- app_assoc; cbn [app]|]; tauto.
    + split; [done|]. intros [[Hp _] _].
      rewrite (proj2 (resolve_specifier_spec mid s _) (conj Hp eq_refl)) in E. done.
Qed.

(** A record tells the truth about its module. *)
Record recorded (r : PluginModuleRecord) : Prop := {
  recorded_source : map_get (id r) (files pkg) = Some (source r);
  recorded_location : location r = pluginModuleLocation (packageId pkg) (id r);
  recorded_kind : kind r = moduleKind (id r);
  recorded_digest : digest r = sha256Hex (source r);
  recorded_imports : forall s, s ∈ imports r <-> mentions (id r) (source r) s;
  recorded_exports : compile pkg (id r) (source r) = Ok (match kind r with JsonModule => [] | JsModule =>
    match moduleSource (source r) (location r) with Some p => p.1 | None => [] end end, exports r);
  recorded_resolution : forall s, map_get s (resolvedImports r) = if decide (s ∈ imports r) then Some (target (id r) s) else None
}.

Lemma specifiers_spec mid src static exported :
  compile pkg mid src = Ok (static, exported) -> well_formed mid src ->
  exists specifiers, allSpecifiers mid src static = Ok specifiers /\ forall s, s ∈ specifiers <-> mentions mid src s.
Proof.
  unfold compile, well_formed, allSpecifiers, mentions, collectDynamicImports. destruct (moduleKind mid) eqn:Ek.
  - destruct (moduleSource _ _) as [p|]; [|done]. intros [= ->] [_ Hp]. destruct (parse src) as [ast|]; [|done].
    eexists. split; [done|]. intros s. rewrite elem_add_specifiers, walk_spec. split.
    + intros [Hs|(o & Ho & Hs)]; (split; [done|]); [left; eauto|right; eauto].
    + intros [_ [(? & ? & [= <- <-] & Hs)|(? & o & [= <-] & Ho & Hs)]]; [by left|right; eauto].
  - destruct (json_parses src); [|done]. intros [= <- <-] _. exists []. split; [done|]. intros s.
    split; [by intros ?%not_elem_of_nil|by intros [? _]].
Qed.

Lemma compile_spec mid src :
  match compile pkg mid src with
  | Ok (static, _) => match allSpecifiers mid src static with Ok _ => well_formed mid src | Throw _ => ~ well_formed mid src end
  | Throw _ => ~ well_formed mid src
  end.
Proof.
  unfold compile, well_formed, allSpecifiers, collectDynamicImports. destruct (moduleKind mid).
  - destruct (moduleSource _ _) as [[i e]|]; [|tauto]. destruct (parse src); [done|tauto].
  - by destruct (json_parses src).
Qed.

Lemma visit_inv mid r queued :
  visit pkg opts mid = Ok (r, queued) ->
  admissible mid /\ id r = mid /\ recorded r /\ queued = map (target mid) (List.filter is_relative (imports r)).
Proof.
  unfold visit. destruct (map_get mid (files pkg)) as [src|] eqn:Ef; [|done].
  destruct (Z.ltb_spec (maxSourceBytes opts) (strlen src)) as [|Hlen]; [done|]. pose proof (compile_spec mid src) as Hc.
  destruct (compile pkg mid src) as [[static exported]|] eqn:Ec; [|done].
  destruct (allSpecifiers mid src static) as [specifiers|] eqn:Ea; [|done].
  destruct (specifiers_spec _ _ _ _ Ec Hc) as (specifiers' & Ea' & Hm). rewrite Ea in Ea'. injection Ea' as <-.
  destruct (resolve_all pkg opts mid specifiers [] []) as [[resolved q]|] eqn:Er; [|done].
  apply resolve_all_spec in Er as [Hp [= -> ->]]. intros [= <- <-]. cbn [id imports]. split_and!; [|done| |done].
  - exists src. split_and!; try done. intros s Hs%Hm. rewrite Forall_forall in Hp. auto.
  - split; cbn [id source location kind digest imports exports resolvedImports]; try done.
    + revert Ec. unfold compile. destruct (moduleKind mid).
      * destruct (moduleSource _ _) as [[i e]|]; [|done]. by intros [= <- <-].
      * destruct (json_parses src); [|done]. by intros [= <- <-].
    + intros s. by rewrite map_get_import_map.
Qed.

Lemma visit_admissible mid : admissible mid -> exists r queued, visit pkg opts mid = Ok (r, queued).
Proof.
  intros (src & Ef & Hlen & Hw & Hp). unfold visit. rewrite Ef. rewrite (proj2 (Z.ltb_ge _ _) Hlen).
  pose proof (compile_spec mid src) as Hc. destruct (compile pkg mid src) as [[static exported]|] eqn:Ec; [|done].
  destruct (specifiers_spec _ _ _ _ Ec Hw) as (specifiers & -> & Hm).
  assert (HF : Forall (permitted mid) specifiers) by (apply Forall_forall; intros s Hs%Hm; auto).
  rewrite (proj2 (resolve_all_spec mid specifiers [] [] _) (conj HF eq_refl)). by do 2 eexists.
Qed.

(** ** The loop *)

(** What is left to do: the queue, and the imports of the files without record. *)
Definition unrecorded (m : list (string * PluginModuleRecord)) (f : string) : bool := negb (map_has f m).

Definition work (st : BuildState) : nat :=
  (length (queue st) + list_sum (map (file_imports pkg opts) (List.filter (unrecorded (built st)) (map_keys (files pkg)))))%nat.

Lemma sum_remove (f : string -> nat) (p q : string -> bool) x l :
  x ∈ l -> p x = true -> q x = false -> (forall y, q y = true -> p y = true) ->
  (list_sum (map f (List.filter q l)) + f x <= list_sum (map f (List.filter p l)))%nat.
Proof.
  intros Hx Hp Hq Hqp. unfold list_sum in *.
  assert (Hle : forall l, (fold_right Nat.add 0 (map f (List.filter q l)) <= fold_right Nat.add 0 (map f (List.filter p l)))%nat).
  { intros k. induction k as [|y k IH]; [done|]. cbn [List.filter]. destruct (q y) eqn:E; [rewrite (Hqp y E); cbn [map fold_right]; lia|].
    destruct (p y); cbn [map fold_right]; lia. }
  induction l as [|y l IH]; [by apply not_elem_of_nil in Hx|]. cbn [List.filter].
  apply elem_of_cons in Hx as [<-|Hx].
  - rewrite Hp, Hq. specialize (Hle l). cbn [map fold_right]. lia.
  - specialize (IH Hx). destruct (q y) eqn:E; [rewrite (Hqp y E); cbn [map fold_right]; lia|]. destruct (p y); cbn [map fold_right]; lia.
Qed.

Record loop_inv (st : BuildState) : Prop := {
  inv_nodup : NoDup (map_keys (built st));
  inv_visited : forall mid r, (mid, r) ∈ built st -> exists queued, visit pkg opts mid = Ok (r, queued) /\
    forall x, x ∈ queued -> x ∈ map_keys (built st) \/ x ∈ queue st;
  inv_entry : packageEntry pkg ∈ map_keys (built st) \/ packageEntry pkg ∈ queue st;
  inv_reachable : forall mid, mid ∈ map_keys (built st) \/ mid ∈ queue st -> reachable mid;
  inv_count : built st = [] \/ (Z.of_nat (length (built st)) <= maxModules opts)%Z
}.

(** When the builder may succeed: every needed module is admissible, and there
    are not too many. *)
Definition buildable : Prop :=
  (forall mid, reachable mid -> admissible mid) /\
  exists l, NoDup l /\ (forall mid, mid ∈ l <-> reachable mid) /\ (Z.of_nat (length l) <= maxModules opts)%Z.

Lemma loop_skip mid q st :
  queue st = mid :: q -> map_has mid (built st) = true -> loop_inv st -> loop_inv (MkState q (built st) (warnings st)).
Proof.
  intros Eq Hh [H1 H2 H3 H4 H5]. rewrite Eq in *.
  assert (Hm : mid ∈ map_keys (built st)).
  { unfold map_has in Hh. destruct (map_get mid (built st)) eqn:E; [|done]. apply map_get_elem in E.
    apply list_elem_of_fmap. by exists (mid, p). }
  split; cbn [queue built]; try done.
  - intros m r Hr. destruct (H2 m r Hr) as (queued & Hv & Hq). exists queued. split; [done|]. intros x Hx.
    destruct (Hq x Hx) as [|[->|]%elem_of_cons]; auto.
  - destruct H3 as [|[->|]%elem_of_cons]; auto.
  - intros m Hm'. apply H4. destruct Hm'; [by left|right; by right].
Qed.

Lemma map_keys_snoc (m : list (string * PluginModuleRecord)) k v : map_keys (m ++ [(k, v)]) = (map_keys m ++ [k])%list.
Proof. unfold map_keys. by rewrite fmap_app. Qed.

Lemma loop_visit mid q st r queued ws :
  queue st = mid :: q -> map_get mid (built st) = None -> (Z.of_nat (length (built st)) < maxModules opts)%Z ->
  visit pkg opts mid = Ok (r, queued) -> loop_inv st ->
  loop_inv (MkState (q ++ queued) (map_set mid r (built st)) ws).
Proof.
  intros Eq Hn Hc Hv [H1 H2 H3 H4 H5]. rewrite Eq in *. rewrite map_set_absent by done.
  pose proof (proj1 (map_get_None mid (built st)) Hn) as Hk.
  assert (Hsub : forall x, x ∈ map_keys (built st) \/ x ∈ (mid :: q) ->
    x ∈ map_keys (built st ++ [(mid, r)]) \/ x ∈ (q ++ queued)%list) by (intros x; rewrite map_keys_snoc; set_solver).
  split; cbn [queue built].
  - rewrite map_keys_snoc. apply NoDup_app. split_and!; [done|set_solver|apply NoDup_singleton].
  - intros m r' [Hr|Hr]%elem_of_app.
    + destruct (H2 m r' Hr) as (queued' & Hv' & Hq). exists queued'. split; [done|]. intros x Hx. apply Hsub, Hq, Hx.
    + apply list_elem_of_singleton in Hr as [= -> ->]. exists queued. split; [done|]. intros x Hx. right. apply elem_of_app. by right.
  - by apply Hsub.
  - assert (Hmid : reachable mid) by (apply H4; right; by left).
    intros x Hx. rewrite map_keys_snoc in Hx. destruct (decide (x ∈ queued)) as [Hq|Hq]; [|apply H4; set_solver].
    apply visit_inv in Hv as (Ha & Hid & Hr & ->). apply elem_of_In, in_map_iff in Hq as (s & <- & [Hs Hrel]%filter_In).
    destruct Hr as [Hsrc _ _ _ Him _ _]. rewrite Hid in *. apply elem_of_In, Him in Hs.
    apply (reach_import mid (source r) s); try done. destruct Ha as (src & Hsrc' & _ & _ & Hp).
    assert (src = source r) as -> by congruence. specialize (Hp s Hs). unfold permitted in Hp. by rewrite Hrel in Hp.
  - right. rewrite length_app. cbn. lia.
Qed.

(** With enough fuel the loop ends: with all needed modules, or with an error
    of a package that is not buildable. *)
Lemma build_loop_spec fuel st :
  (work st <= fuel)%nat -> loop_inv st ->
  exists res, build_loop pkg opts fuel st = Some res /\
    match res with Ok st' => loop_inv st' /\ queue st' = [] | Throw _ => ~ buildable end.
Proof.
  revert st. induction fuel as [|fuel IH]; intros st Hw Hi; cbn [build_loop].
  { unfold work in Hw. destruct (queue st) eqn:Eq; [by eexists|cbn in Hw; lia]. }
  destruct (queue st) as [|mid q] eqn:Eq; [by eexists|]. destruct (map_has mid (built st)) eqn:Eh.
  { apply IH; [|by eapply loop_skip]. unfold work in *. rewrite Eq in Hw. cbn [length queue built] in *. lia. }
  assert (Hn : map_get mid (built st) = None) by (unfold map_has in Eh; by destruct (map_get mid (built st))).
  assert (Hr : reachable mid) by (apply (inv_reachable st Hi); right; rewrite Eq; by left).
  destruct (Z.leb_spec (maxModules opts) (Z.of_nat (length (built st)))) as [Hmax|Hmax].
  - eexists. split; [done|]. intros [_ (l & Hl & Hl' & Hlen)].
    assert (Hsub : mid :: map_keys (built st) ⊆ l).
    { intros x Hx. apply Hl'. apply elem_of_cons in Hx as [->|Hx]; [done|]. apply (inv_reachable st Hi). by left. }
    assert (Hnd : NoDup (mid :: map_keys (built st))).
    { apply NoDup_cons. split; [by apply map_get_None|apply Hi]. }
    pose proof (submseteq_length _ _ (NoDup_submseteq _ _ Hnd Hsub)) as Hle. unfold map_keys in Hle. cbn [length] in Hle.
    rewrite length_fmap in Hle. lia.
  - destruct (visit pkg opts mid) as [[r queued]|e] eqn:Ev.
    + apply IH; [|by eapply loop_visit].
      assert (Hf : mid ∈ map_keys (files pkg)).
      { apply visit_inv in Ev as [(src & Hf & _) _]. apply map_get_elem in Hf. apply list_elem_of_fmap. by exists (mid, src). }
      assert (E : file_imports pkg opts mid = length queued) by (unfold file_imports; by rewrite Ev).
      pose proof (sum_remove (file_imports pkg opts) (unrecorded (built st)) (unrecorded (map_set mid r (built st))) mid (map_keys (files pkg)) Hf) as Hsum.
      unfold work in *. rewrite Eq in Hw. cbn [length queue built] in *. rewrite length_app.
      assert (unrecorded (built st) mid = true) as H1 by (unfold unrecorded; by rewrite Eh).
      assert (unrecorded (map_set mid r (built st)) mid = false) as H2.
      { unfold unrecorded, map_has. by rewrite map_get_set, decide_True. }
      assert (forall y, unrecorded (map_set mid r (built st)) y = true -> unrecorded (built st) y = true) as H3.
      { intros y. unfold unrecorded, map_has. rewrite map_get_set. by destruct (decide (mid = y)). }
      specialize (Hsum H1 H2 H3). lia.
    + eexists. split; [done|]. intros [Ha _]. destruct (visit_admissible mid (Ha mid Hr)) as (r & queued & E). congruence.
Qed.

Lemma loop_start : loop_inv (MkState [packageEntry pkg] [] []).
Proof.
  split; cbn [queue built].
  - by apply NoDup_nil.
  - intros mid r H. by apply not_elem_of_nil in H.
  - right. by left.
  - intros mid [H|H]; [by apply not_elem_of_nil in H|]. apply list_elem_of_singleton in H as ->. constructor.
  - by left.
Qed.

(** At the end of the loop the records are the reachable modules. *)
Lemma loop_end st :
  loop_inv st -> queue st = [] ->
  buildable /\ (forall mid, mid ∈ map_keys (built st) <-> reachable mid) /\
  forall mid r, (mid, r) ∈ built st -> id r = mid /\ recorded r.
Proof.
  intros [H1 H2 H3 H4 H5] Eq. rewrite Eq in *.
  assert (Hreach : forall mid, reachable mid -> mid ∈ map_keys (built st)).
  { induction 1 as [|mid src s Hm IH Hf Hs Hrel Ht]; [destruct H3 as [|H]; [done|by apply not_elem_of_nil in H]|].
    apply list_elem_of_fmap in IH as ([m r] & -> & Hr). cbn [fst] in *. destruct (H2 m r Hr) as (queued & Hv & Hq).
    apply visit_inv in Hv as (_ & Hid & [Hsrc _ _ _ Him _ _] & ->). rewrite Hid in *.
    assert (src = source r) as -> by congruence.
    destruct (Hq (target m s)) as [|H]; [|done|by apply not_elem_of_nil in H].
    apply elem_of_In, in_map, filter_In. split; [apply elem_of_In; by apply Him|done]. }
  assert (Hkeys : forall mid, mid ∈ map_keys (built st) <-> reachable mid).
  { intros mid. split; [intros H; apply H4; by left | apply Hreach]. }
  split_and!; [|done|].
  - split.
    + intros mid Hm. apply Hreach in Hm. apply list_elem_of_fmap in Hm as ([m r] & -> & Hr).
      destruct (H2 m r Hr) as (queued & Hv & _). by apply visit_inv in Hv as [Ha _].
    + exists (map_keys (built st)). split_and!; [done|done|]. unfold map_keys. rewrite length_fmap.
      destruct H5 as [E|]; [|done]. exfalso. specialize (Hreach _ reach_entry). rewrite E in Hreach. by apply not_elem_of_nil in Hreach.
  - intros mid r Hr. destruct (H2 mid r Hr) as (queued & Hv & _). by apply visit_inv in Hv as (_ & ? & ? & _).
Qed.

Lemma id_le_total a b : id_le a b = true \/ id_le b a = true.
Proof. unfold id_le. rewrite !Z.leb_le. pose proof (cmp_antisym (f := str_cmp) (id a) (id b)). lia. Qed.

Lemma id_le_trans a b c : id_le a b = true -> id_le b c = true -> id_le a c = true.
Proof. unfold id_le. rewrite !Z.leb_le. apply cmp_trans. Qed.

(** The builder against its specification. *)
Lemma build_spec :
  packageId pkg <> "" -> exists res,
    buildModuleGraph pkg opts = Some res /\
    (is_ok res = true <-> map_has (packageEntry pkg) (files pkg) = true /\ buildable) /\
    forall g ws, res = Ok (g, ws) ->
      pluginId g = packageId pkg /\ entry g = packageEntry pkg /\
      (forall mid, reachable mid <-> exists r, r ∈ records g /\ id r = mid) /\
      Forall recorded (records g) /\ NoDup (map id (records g)) /\
      StronglySorted (fun a b => id_le a b = true) (records g).
Proof.
  intros Hid. unfold buildModuleGraph. rewrite (proj2 (String.eqb_neq _ _) Hid).
  destruct (map_has (packageEntry pkg) (files pkg)) eqn:Ee; cbn [negb].
  2: { eexists. split_and!; [done| |done]. by split; [|intros [? _]]. }
  destruct (build_loop_spec (build_fuel pkg opts) (MkState [packageEntry pkg] [] [])) as ([st|e] & -> & Hres); [|apply loop_start| |].
  - unfold work, build_fuel. cbn [queue built length]. rewrite filter_all; [lia|done].
  - destruct Hres as [Hi Hq]. destruct (loop_end st Hi Hq) as (Hb & Hk & Hr).
    eexists. split; [done|]. split; [by split|]. intros g ws [= <- <-]. cbn [pluginId entry records].
    assert (Hids : map id (built st).*2 = map_keys (built st)).
    { unfold map_keys. clear -Hr. revert Hr. generalize (built st). intros l. induction l as [|[m r] l IH]; intros Hr; [done|].
      cbn. rewrite IH; [|intros; apply Hr; by right]. f_equal. apply (Hr m r). by left. }
    assert (Hperm : map id (stable_sort id_le (built st).*2) ≡ₚ map_keys (built st)).
    { rewrite <- Hids. apply Permutation_map, stable_sort_perm. }
    split_and!; [done|done| | | |].
    + intros mid. rewrite <- Hk, <- Hperm, elem_of_In, in_map_iff. setoid_rewrite elem_of_In. naive_solver.
    + apply Forall_forall. intros r Hs%elem_of_stable_sort. apply list_elem_of_fmap in Hs as ([m r'] & -> & Hs). by apply (Hr m r').
    + rewrite Hperm. apply Hi.
    + apply stable_sort_sorted; [apply id_le_total|apply id_le_trans].
  - eexists. split_and!; [done| |done]. split; [done|]. by intros [_ ?].
Qed.
End Package.

(** ** The loader *)

Record PreparedModuleGraph := MkPrepared {
  preparedPlugin : string;
  preparedEntry : string;
  byLocation : list (string * PluginModuleRecord)
}.

Fixpoint index_records (l : list PluginModuleRecord) (m : list (string * PluginModuleRecord)) :
  outcome PluginModuleError (list (string * PluginModuleRecord)) :=
  match l with
  | [] => Ok m
  | r :: l =>
      if map_has (location r) m then Throw (PACKAGE_INVALID DuplicateLocation)
      else index_records l (map_set (location r) r m)
  end.

Definition prepareModuleGraph (g : PluginModuleGraph) : outcome PluginModuleError PreparedModuleGraph :=
  if String.eqb (pluginId g) "" then Throw (PACKAGE_INVALID PluginIdRequired)
  else if String.eqb (entry g) "" then Throw (PACKAGE_INVALID EntryRequired)
  else match index_records (records g) [] with
       | Throw e => Throw e
       | Ok m =>
           if map_has (pluginModuleLocation (pluginId g) (entry g)) m then Ok (MkPrepared (pluginId g) (entry g) m)
           else Throw MODULE_NOT_IN_GRAPH
       end.

(** A read of a plain object finds the members of [Object.prototype] as well;
    the text of a member becomes the id. *)
Definition inherited_member (key : string) : option string :=
  if String.eqb key "__proto__" then Some "[object Object]"
  else if String.eqb key "constructor" then Some "function Object() { [native code] }"
  else if mem key ["__defineGetter__"; "__defineSetter__"; "hasOwnProperty"; "__lookupGetter__"; "__lookupSetter__";
                   "isPrototypeOf"; "propertyIsEnumerable"; "toString"; "valueOf"; "toLocaleString"]
  then Some ("function " ++ key ++ "() { [native code] }")
  else None.

Definition resolveGraphSpecifier (p : PreparedModuleGraph) (specifier referrer : string) : outcome PluginModuleError string :=
  match map_get referrer (byLocation p) with
  | None => Throw MODULE_NOT_IN_GRAPH
  | Some record =>
      match match map_get specifier (resolvedImports record) with Some t => Some t | None => inherited_member specifier end with
      | Some resolvedId => Ok (pluginModuleLocation (preparedPlugin p) resolvedId)
      | None => Throw MODULE_NOT_IN_GRAPH
      end
  end.

(** The compiled source and its location. *)
Definition moduleDescriptorFor (p : PreparedModuleGraph) (specifier : string) :
  outcome PluginModuleError (list string * list string) :=
  match map_get specifier (byLocation p) with
  | None => Throw MODULE_NOT_IN_GRAPH
  | Some record =>
      if negb (String.eqb (sha256Hex (source record)) (digest record)) then Throw MODULE_DIGEST_MISMATCH
      else match kind record with
           | JsonModule =>
               if json_parses (source record) then
                 match moduleSource ("export default " ++ source record) (location record) with
                 | Some d => Ok d
                 | None => Throw SyntaxError
                 end
               else Throw (PACKAGE_INVALID InvalidJsonModule)
           | JsModule =>
               match moduleSource (source record) (location record) with
               | Some d => Ok d
               | None => Throw (PACKAGE_INVALID InvalidModule)
               end
           end
  end.

(** ** Locations *)

Definition rooted (mid : string) : bool := startsWith mid "/".

Lemma drop_while_id (p : ascii -> bool) l : match l with c :: _ => p c = false | [] => True end -> drop_while p l = l.
Proof. destruct l as [|c l]; [done|]. cbn [drop_while]. by intros ->. Qed.

Lemma unrooted_chars mid : rooted mid = false -> match chars mid with c :: _ => (c =? "/")%char = false | [] => True end.
Proof.
  unfold rooted, startsWith. cbn [chars list_ascii_of_string]. destruct (chars mid) as [|c l]; [done|]. cbn [starts_with].
  rewrite Ascii.eqb_sym, andb_true_r. done.
Qed.

Lemma location_inj pid a b :
  rooted a = false -> rooted b = false -> pluginModuleLocation pid a = pluginModuleLocation pid b -> a = b.
Proof.
  intros Ha%unrooted_chars Hb%unrooted_chars. unfold pluginModuleLocation.
  rewrite !drop_while_id, !str_chars by done. intros E%(f_equal chars). apply chars_inj.
  rewrite !chars_app in E. by do 4 apply app_inv_head in E.
Qed.

Lemma rooted_app a b : a <> "" -> rooted (a ++ b) = rooted a.
Proof. destruct a as [|c a]; [done|]. intros _. reflexivity. Qed.

Lemma normalized_unrooted p : normalizePackagePath p <> "" -> rooted (normalizePackagePath p) = false.
Proof.
  destruct (normalizePackagePath_ok p) as (l & -> & Hl). destruct l as [|x l]; [done|]. intros _. cbn [forallb] in Hl.
  apply andb_true_iff in Hl as [Hx _]. unfold segment_ok in Hx. apply andb_true_iff in Hx as [Hx Hn].
  destruct x as [|c x]; [done|]. cbn [forallb] in Hx. apply andb_true_iff in Hx as [Hc _].
  assert (E : exists r, join_path ((c :: x) :: l) = c :: r) by (destruct l; cbn; eauto). destruct E as [r ->].
  unfold rooted, startsWith. rewrite chars_str. change (chars "/") with ["/"%char]. cbn [starts_with]. rewrite Ascii.eqb_sym. by destruct (c =? "/")%char.
Qed.

Lemma resolved_unrooted mid s existing :
  resolveRelativeId mid s existing <> "" -> rooted (resolveRelativeId mid s existing) = false.
Proof.
  unfold resolveRelativeId. destruct (String.eqb_spec (normalizePackagePath (directory mid ++ s)) "") as [|Hne]; [done|].
  pose proof (normalized_unrooted _ Hne) as Hr. revert Hne Hr. generalize (normalizePackagePath (directory mid ++ s)) as candidate.
  intros candidate Hne Hr _. unfold first_existing.
  destruct (List.find _ _) as [x|] eqn:E; [|done]. apply find_some in E as [Hx _]. destruct Hx as [<-|Hx]; [done|].
  apply in_app_iff in Hx as [Hx|Hx]; apply in_map_iff in Hx as (? & <- & _); by rewrite rooted_app.
Qed.

Lemma reachable_unrooted pkg mid : rooted (packageEntry pkg) = false -> reachable pkg mid -> rooted mid = false.
Proof.
  intros He. induction 1 as [|mid src s Hm IH Hf Hs Hrel Ht]; [done|]. revert Ht. unfold target. rewrite Hrel.
  apply resolved_unrooted.
Qed.

(** ** The index *)

Lemma nodup_map_inj {A B} (f : A -> B) l a b : NoDup (map f l) -> a ∈ l -> b ∈ l -> f a = f b -> a = b.
Proof.
  induction l as [|x l IH]; cbn [map]; intros Hnd Ha Hb E; [by apply not_elem_of_nil in Ha|].
  apply NoDup_cons in Hnd as [Hx Hnd].
  assert (Hin : forall y, y ∈ l -> f y ∈ map f l) by (intros y; rewrite !elem_of_In; apply in_map).
  apply elem_of_cons in Ha as [->|Ha], Hb as [->|Hb]; [done| | |by apply IH].
  - rewrite E in Hx. by destruct (Hx (Hin b Hb)).
  - rewrite <- E in Hx. by destruct (Hx (Hin a Ha)).
Qed.


Lemma index_records_spec l m :
  NoDup (map_keys m ++ map location l)%list ->
  index_records l m = Ok (m ++ map (fun r => (location r, r)) l)%list.
Proof.
  revert m. induction l as [|r l IH]; intros m Hnd; cbn [index_records map]; [by rewrite app_nil_r|].
  assert (Hn : map_get (location r) m = None).
  { apply map_get_None. intros H. apply NoDup_app in Hnd as (_ & Hd & _). apply (Hd _ H). by left. }
  unfold map_has. rewrite Hn, map_set_absent by done. rewrite IH; [by rewrite <- app_assoc|].
  rewrite map_keys_snoc, <- app_assoc. exact Hnd.
Qed.

Lemma index_get l r :
  NoDup (map location l) -> r ∈ l -> map_get (location r) (map (fun r => (location r, r)) l) = Some r.
Proof.
  intros Hnd Hr. apply elem_map_get.
  - unfold map_ok, map_keys. rewrite list_fmap_map, map_map. exact Hnd.
  - apply elem_of_In, in_map_iff. exists r. split; [done|]. by apply elem_of_In.
Qed.

(** C28: the builder ends on every package; it succeeds exactly when every
    module that the entry needs (through static imports and literal dynamic
    imports anywhere in the syntax tree) is in the package, within the size limit,
    accepted by the parsers and importing only what the policy permits, and these
    modules are at most [maxModules]; and then the records are exactly these modules,
    each once, sorted by id, with the source, the digest and the resolution of
    every import. *)
Theorem build_equivalence pkg opts :
  packageId pkg <> "" -> exists res,
    buildModuleGraph pkg opts = Some res /\
    (is_ok res = true <-> map_has (packageEntry pkg) (files pkg) = true /\ buildable pkg opts) /\
    forall g ws, res = Ok (g, ws) ->
      pluginId g = packageId pkg /\ entry g = packageEntry pkg /\
      (forall mid, reachable pkg mid <-> exists r, r ∈ records g /\ id r = mid) /\
      Forall (recorded pkg) (records g) /\ NoDup (map id (records g)) /\
      StronglySorted (fun a b => id_le a b = true) (records g).
Proof. apply build_spec. Qed.

(** C29: a package of the default policy that is built also loads: the
    loader accepts its graph and finds the entry; every module passes its
    digest and is compiled from the source that the builder saw; every import that
    a module names resolves to the location of the recorded module that the
    builder chose; and a specifier that the module does not name is rejected. *)
Theorem built_graph_loads pkg opts g ws :
  allowedNodeBuiltins opts = [] -> allowedDependencies opts = [] -> packageEntry pkg <> "" -> rooted (packageEntry pkg) = false ->
  buildModuleGraph pkg opts = Some (Ok (g, ws)) ->
  exists p, prepareModuleGraph g = Ok p /\
    (exists r, map_get (pluginModuleLocation (pluginId g) (entry g)) (byLocation p) = Some r /\ id r = entry g) /\
    forall r, r ∈ records g ->
      match kind r with
      | JsModule => exists static, moduleSource (source r) (location r) = Some (static, exports r) /\
          moduleDescriptorFor p (location r) = Ok (static, exports r)
      | JsonModule => moduleDescriptorFor p (location r) =
          match moduleSource ("export default " ++ source r) (location r) with Some d => Ok d | None => Throw SyntaxError end
      end /\
      (forall s, mentions pkg (id r) (source r) s -> exists r', r' ∈ records g /\
         id r' = resolveRelativeId (id r) s (map_keys (files pkg)) /\
         resolveGraphSpecifier p s (location r) = Ok (location r')) /\
      (forall s, ~ mentions pkg (id r) (source r) s -> inherited_member s = None ->
         resolveGraphSpecifier p s (location r) = Throw MODULE_NOT_IN_GRAPH).
Proof.
  intros Hb Hd Hne Hroot Eg. assert (Hid : packageId pkg <> "").
  { intros E. unfold buildModuleGraph in Eg. by rewrite E in Eg. }
  destruct (build_spec pkg opts Hid) as (res & Eb & Hok & Hg). rewrite Eb in Eg. injection Eg as ->.
  destruct (Hg g ws eq_refl) as (Hp & He & Hreach & Hrec & Hnd & _). destruct (proj1 Hok eq_refl) as [_ [Hadm _]].
  rewrite Forall_forall in Hrec.
  assert (Hroots : forall r, r ∈ records g -> rooted (id r) = false).
  { intros r Hr. apply (reachable_unrooted pkg); [done|]. apply Hreach. eauto. }
  assert (Hlocs : NoDup (map location (records g))).
  { rewrite <- list_fmap_map. apply NoDup_fmap_2_strong; [|by apply (NoDup_fmap_1 id)].
    intros a b Ha Hb' E. rewrite (recorded_location _ _ (Hrec a Ha)), (recorded_location _ _ (Hrec b Hb')) in E.
    apply location_inj in E; [|by apply Hroots|by apply Hroots]. by apply (nodup_map_inj id (records g)). }
  exists (MkPrepared (pluginId g) (entry g) (map (fun r => (location r, r)) (records g))).
  assert (Hentry : exists r, r ∈ records g /\ id r = packageEntry pkg) by (apply Hreach; constructor).
  destruct Hentry as (re & Hre & Ere).
  assert (Hfind : map_get (pluginModuleLocation (pluginId g) (entry g)) (map (fun r => (location r, r)) (records g)) = Some re).
  { rewrite <- (index_get (records g) re Hlocs Hre). f_equal. rewrite (recorded_location _ _ (Hrec re Hre)). congruence. }
  split_and!.
  - unfold prepareModuleGraph. rewrite Hp, He, (proj2 (String.eqb_neq _ _) Hid), (proj2 (String.eqb_neq _ _) Hne).
    rewrite index_records_spec by (cbn; exact Hlocs). cbn [app]. rewrite Hp, He in Hfind. unfold map_has. by rewrite Hfind.
  - exists re. cbn [byLocation]. split; [done|congruence].
  - intros r Hr. pose proof (index_get (records g) r Hlocs Hr) as Hget. destruct (Hrec r Hr) as [Hsrc Hloc Hk Hdig Him Hex Hres].
    split_and!.
    + unfold moduleDescriptorFor. cbn [byLocation]. rewrite Hget, Hdig, String.eqb_refl. cbn [negb].
      revert Hex. unfold compile. rewrite <- Hk, <- Hloc. destruct (kind r).
      * destruct (moduleSource (source r) (location r)) as [[i e]|]; [|done]. intros [= ->]. by exists i.
      * by destruct (json_parses (source r)).
    + intros s Hs. assert (Ha : admissible pkg opts (id r)) by (apply Hadm, Hreach; eauto).
      destruct Ha as (src & Hsrc' & _ & _ & Hperm). assert (src = source r) as -> by congruence. specialize (Hperm s Hs).
      unfold permitted in Hperm. rewrite Hb, Hd in Hperm. destruct (is_relative s) eqn:Hrel.
      2: { destruct (isNodeBuiltin s); by apply not_elem_of_nil in Hperm. }
      assert (Ht : reachable pkg (target pkg (id r) s)) by (apply (reach_import pkg (id r) (source r) s); try done; apply Hreach; eauto).
      apply Hreach in Ht as (r' & Hr' & Er'). exists r'. split_and!; [done| |].
      * rewrite Er'. unfold target. by rewrite Hrel.
      * unfold resolveGraphSpecifier. cbn [byLocation preparedPlugin]. rewrite Hget, Hres, decide_True by (by apply Him).
        rewrite (recorded_location _ _ (Hrec r' Hr')), Er', Hp. done.
    + intros s Hs Hin. unfold resolveGraphSpecifier. cbn [byLocation]. rewrite Hget, Hres, decide_False by (by rewrite Him).
      by rewrite Hin.
Qed.
(** ** The disk cache of graphs *)

Record ModuleMapCacheVersions := MkVersions { node : string; ses : string; endoModuleSource : string; neotavernLoader : string }.

Definition str_le (a b : string) : bool := (str_cmp a b <=? 0)%Z.

(** What is hashed: each file in the order of the paths, with NUL after the path and
    after the content. *)
Definition package_entries (fs : list (string * string)) : list (string * string) :=
  map (fun rel => (rel, default "" (map_get rel fs))) (stable_sort str_le (map_keys fs)).

Definition hashed_entry (e : string * string) : list ascii := (chars e.1 ++ NUL :: chars e.2 ++ [NUL])%list.

Definition packageSourceDigest (fs : list (string * string)) : string :=
  sha256Hex (str (concat (map hashed_entry (package_entries fs)))).

Definition moduleMapCacheKey (sourceDigest : string) (v : ModuleMapCacheVersions) : string :=
  sha256Hex (sourceDigest ++ node v ++ ses v ++ endoModuleSource v ++ neotavernLoader v).

Definition text_entry (e : string * string) : Prop := no_nul e.1 = true /\ no_nul e.2 = true.

Lemma hashed_inj l k :
  Forall text_entry l -> Forall text_entry k -> concat (map hashed_entry l) = concat (map hashed_entry k) -> l = k.
Proof.
  intros Hl. revert k. induction Hl as [|[a b] l [Ha Hb] _ IH]; intros k Hk E; destruct Hk as [|[c d] k [Hc Hd] Hk];
    cbn [map concat] in E; [done| | |]; unfold hashed_entry in E; cbn [fst snd] in *; rewrite <- ?app_assoc in E; cbn [app] in E.
  - by destruct (chars c).
  - by destruct (chars a).
  - apply delimited in E as [-> E]; [|done|done]. rewrite <- !app_assoc in E. apply delimited in E as [-> E]; [|done|done].
    f_equal. by apply IH.
Qed.

Lemma package_entries_get fs rel c : (rel, c) ∈ package_entries fs <-> map_get rel fs = Some c.
Proof.
  unfold package_entries. rewrite elem_of_In, in_map_iff. split.
  - intros (k & [= -> <-] & Hk). apply elem_of_In, elem_of_stable_sort in Hk. destruct (map_get rel fs) eqn:E; [done|].
    by apply map_get_None in E.
  - intros E. exists rel. rewrite E. split; [done|]. apply elem_of_In, elem_of_stable_sort. apply map_get_elem in E.
    apply list_elem_of_fmap. by exists (rel, c).
Qed.

(** Packages of text files have different entries in the cache. *)
Lemma package_digest_exact fs gs :
  (forall a b, sha256Hex a = sha256Hex b -> a = b) ->
  (forall rel c, map_get rel fs = Some c \/ map_get rel gs = Some c -> no_nul rel = true /\ no_nul c = true) ->
  packageSourceDigest fs = packageSourceDigest gs -> forall rel, map_get rel fs = map_get rel gs.
Proof.
  intros Hsha Ht E%Hsha. apply (f_equal chars) in E. rewrite !chars_str in E.
  apply hashed_inj in E.
  - intros rel. destruct (map_get rel fs) as [c|] eqn:Ef.
    + apply package_entries_get in Ef. rewrite E in Ef. by apply package_entries_get in Ef.
    + destruct (map_get rel gs) as [c|] eqn:Eg; [|done]. apply package_entries_get in Eg. rewrite <- E in Eg.
      apply package_entries_get in Eg. congruence.
  - apply Forall_forall. intros [rel c] H%package_entries_get. by apply (Ht rel c); left.
  - apply Forall_forall. intros [rel c] H%package_entries_get. by apply (Ht rel c); right.
Qed.

(** A file that contains NUL can stand for two files, and the versions of the key
    are not delimited: whatever the hash, different packages share a digest, and an
    upgrade of two components can keep the key. *)
Theorem cache_key_hazards :
  let content := String "x" (String NUL (String "b" (String NUL "y"))) in
  packageSourceDigest [("a", content)] = packageSourceDigest [("a", "x"); ("b", "y")] /\
  forall d, moduleMapCacheKey d (MkVersions "22.1.1" "23.0.0" "1.0.0" "1.0.0") =
            moduleMapCacheKey d (MkVersions "22.1.12" "3.0.0" "1.0.0" "1.0.0").
Proof. by split. Qed.
End Builder.

(** ** A package *)

(** Parsers that read the sources of the sample: a static import, a template
    literal in a dynamic import, and JSON. *)
Definition sample_source (src loc : string) : option (list string * list string) :=
  if String.eqb src "import a" then Some (["./a"], ["main"])
  else if String.eqb src "import(`../lib/data`)" then Some ([], ["lazy"])
  else if String.eqb src "export default [1]" then Some ([], ["default"])
  else None.

Definition sample_parse (src : string) : option js :=
  if String.eqb src "import(`../lib/data`)" then
    Some (JsObject [("type", JsString "File"); ("loc", JsAtom); ("body", JsArray [JsObject [("type", JsString "ImportExpression");
      ("source", JsObject [("type", JsString "TemplateLiteral"); ("quasis", JsArray [JsObject [("value",
        JsObject [("cooked", JsString "../lib/data")])]])])]])])
  else Some (JsObject []).

Definition sample_package : PluginPackageSource :=
  MkPackage "notes" "src/index.js" [("src/index.js", "import a"); ("src/a.mjs", "import(`../lib/data`)"); ("lib/data.json", "[1]");
    ("unused.js", "syntax error")].

Definition sample_build := buildModuleGraph (N := Z) sample_source sample_parse (fun s => s) sample_package default_options.

Example sample_ids :
  match sample_build with Some (Ok (g, _)) => map id (records g) | _ => [] end = ["lib/data.json"; "src/a.mjs"; "src/index.js"].
Proof. vm_compute. reflexivity. Qed.

Definition sample_graph : PluginModuleGraph := match sample_build with Some (Ok (g, _)) => g | _ => MkGraph "" "" [] end.

Lemma build_equivalence_witness :
  exists res, sample_build = Some res /\
    (is_ok res = true <-> map_has "src/index.js" (files sample_package) = true /\
       buildable (N := Z) sample_source sample_parse sample_package default_options) /\ is_ok res = true.
Proof.
  destruct (build_equivalence (N := Z) sample_source sample_parse (fun s => s) sample_package default_options) as (res & E & H & _);
    [discriminate|].
  exists res. split; [exact E|]. split; [exact H|].
  assert (E' : match sample_build with Some r => is_ok r | None => false end = true) by (vm_compute; reflexivity).
  unfold sample_build in E'. rewrite E in E'. exact E'.
Defined.

Lemma built_graph_loads_witness :
  exists p, prepareModuleGraph sample_graph = Ok p /\
    forall r, r ∈ records sample_graph ->
      forall s, mentions sample_source sample_parse sample_package (id r) (source r) s -> exists r', r' ∈ records sample_graph /\
         resolveGraphSpecifier p s (location r) = Ok (location r').
Proof.
  destruct (built_graph_loads (N := Z) sample_source sample_parse (fun s => s) sample_package default_options sample_graph [])
    as (p & Hp & _ & H); [reflexivity | reflexivity | discriminate | reflexivity | vm_compute; reflexivity |].
  exists p. split; [exact Hp|]. intros r Hr s Hs. destruct (H r Hr) as (_ & H2 & _).
  destruct (H2 s Hs) as (r' & Hr' & _ & E). exists r'. split; [exact Hr'|exact E].
Defined.

(** The entry of the sample answers the code of its import. *)
Example sample_resolves :
  match prepareModuleGraph sample_graph with
  | Ok p => resolveGraphSpecifier p "./a" "neotavern-plugin://notes/src/index.js"
  | Throw e => Throw e
  end = Ok "neotavern-plugin://notes/src/a.mjs".
Proof. vm_compute. reflexivity. Qed.
End ModuleGraph.
