(* ===== verification/Broker.v ===== *)
(** * The capability brokers of the plugin runtime
    (apps/plugin-runtime/src/broker: capabilityBroker.ts, hostForwardingCore.ts,
    brokerGateway.ts)

    Two cores admit the calls of plugins: the local one runs a policy, the
    forwarding one relays a call to the host and settles it with the host's answer.
    A call is known by the number of its promise, which is also the identity of its
    abort controller and of its deadline timer.  One turn of the event loop is one
    operation; an operation reads the clock once. *)

From Stdlib Require Import ZArith Lia Bool Ascii String List.
From stdpp Require Import base decidable list sets.
From S2P Require Import Prelude.
Local Open Scope Z_scope.

Module Broker.

(** ** Errors *)

Record BrokerCallError := MkError {
  ecode : string;
  emessage : string;
  retryable : bool;
  details : option Value
}.

(** [new BrokerCallError(code, { message, details })] *)
Definition error (code message : string) : BrokerCallError := MkError code message false None.
Definition error_with (code message : string) (d : Value) : BrokerCallError := MkError code message false (Some d).

(** What a promise can be rejected with. *)
Inductive Thrown :=
| BrokerError (e : BrokerCallError)
| PlainError (message : string)
| OtherValue.

(** [/^[A-Z][A-Z0-9_]+$/] *)
Definition code_like (s : string) : bool :=
  match chars s with
  | c :: (_ :: _) as r => is_upper c && forallb (fun c => is_upper c || is_digit c || (c =? "_")%char) r
  | _ => false
  end.

Definition slice2000 (s : string) : string := str (take 2000 (chars s)).

(** The wire failure. *)
Definition toBrokerError (t : Thrown) : BrokerCallError :=
  match t with
  | BrokerError e => MkError (ecode e) (slice2000 (emessage e)) (retryable e) (details e)
  | PlainError m => MkError (if code_like m then m else "INTERNAL") (slice2000 m) false None
  | OtherValue => error "INTERNAL" "internal broker failure"
  end.

(** ** Calls *)

Definition BROKER_MAX_CAUSAL_CHAIN : Z := 16.
Definition BROKER_MAX_DEADLINE_MS : Z := 60000.

(** What the brokers read of a call; the envelope itself is kept for the host. *)
Record BrokerCallRequest := MkCall {
  requestId : string;
  deadlineAt : Z;
  callerPlugin : string;
  capability : string;
  causalChain : list string
}.

(** [typeof v === 'string' && v.length >= n] *)
Definition long_string (v : option Value) (n : nat) : option string :=
  match v with Some (VStr s) => if (n <=? String.length s)%nat then Some s else None | _ => None end.

(** A chain of strings of 1 to 160 characters. *)
Fixpoint chain_entries (l : list Value) : option (list string) :=
  match l with
  | [] => Some []
  | VStr s :: r =>
      if (1 <=? strlen s) && (strlen s <=? 160)
      then match chain_entries r with Some t => Some (s :: t) | None => None end else None
  | _ => None
  end.

(** [assertBrokerCallShape], with the fields that it has checked. *)
Definition readCall (v : Value) : option BrokerCallRequest :=
  match v with
  | VObj record =>
      match long_string (field "requestId" record) 8, long_string (field "method" record) 1, field "deadlineAt" record with
      | Some rid, Some _, Some (VNum deadline) =>
          match field "caller" record, field "capability" record, field "causalChain" record with
          | Some (VObj caller), Some (VObj cap), Some (VArr chain) =>
              match long_string (field "pluginId" caller) 1, long_string (field "installationId" caller) 1 with
              | Some plugin, Some _ =>
                  if match field "trustLevel" caller with Some (VStr t) => mem t ["sandbox"; "extended"; "trusted"]%string | _ => false end
                  then match long_string (field "name" cap) 1 with
                       | Some name =>
                           if BROKER_MAX_CAUSAL_CHAIN <? Z.of_nat (length chain) then None
                           else match chain_entries chain with
                                | Some c => Some (MkCall rid deadline plugin name c)
                                | None => None
                                end
                       | None => None
                       end
                  else None
              | _, _ => None
              end
          | _, _, _ => None
          end
      | _, _, _ => None
      end
  | _ => None
  end.

Definition assertBrokerCallShape (v : Value) : bool := match readCall v with Some _ => true | None => false end.

(** ** Revocations *)

Record Revocations := MkRevocations { revokedPairs : list string; revokedPlugins : list string }.

Definition pairKey (pluginId name : string) : string := (pluginId ++ String NUL name)%string.

Definition isRevoked (r : Revocations) (pluginId name : string) : bool :=
  mem pluginId (revokedPlugins r) || mem (pairKey pluginId name) (revokedPairs r).

Definition add_revocation (r : Revocations) (pluginId : string) (name : option string) : Revocations :=
  match name with
  | None => MkRevocations (revokedPairs r) (pluginId :: revokedPlugins r)
  | Some n => MkRevocations (pairKey pluginId n :: revokedPairs r) (revokedPlugins r)
  end.

(** Does a revocation concern a call? *)
Definition concerns (pluginId : string) (name : option string) (plugin cap : string) : bool :=
  String.eqb plugin pluginId && match name with Some n => String.eqb cap n | None => true end.

Definition revoked_error (reason : option string) (plugin cap : string) : BrokerCallError :=
  error_with "CAPABILITY_REVOKED" (default "capability revoked while the call was in flight"%string reason)
    (VObj [("pluginId", VStr plugin); ("capabilityName", VStr cap)]%string).

(** The checks that both cores make in front of their own. *)
Definition admission (now : Z) (r : Revocations) (call : BrokerCallRequest) : option BrokerCallError :=
  if deadlineAt call <? now then Some (error "OPERATION_DEADLINE" "call deadline already passed")
  else if now + BROKER_MAX_DEADLINE_MS <? deadlineAt call then Some (error "VALIDATION_FAILED" "call deadline exceeds the broker cap")
  else if mem (callerPlugin call) (causalChain call) then
    Some (error_with "SERVICE_CALL_CYCLE" "service call would close a cycle"
            (VObj [("chain"%string, VArr (map VStr (causalChain call ++ [callerPlugin call])))]))
  else if isRevoked r (callerPlugin call) (capability call) then
    Some (error_with "CAPABILITY_REVOKED" "capability revoked before the call started"
            (VObj [("capabilityName"%string, VStr (capability call))]))
  else None.

Definition duplicate_error : BrokerCallError := error "VALIDATION_FAILED" "duplicate in-flight requestId".

(** Plugin ids without NUL keep the pairs apart. *)
Lemma pairKey_inj p q n m : no_nul p = true -> no_nul q = true -> pairKey p n = pairKey q m -> p = q /\ n = m.
Proof.
  intros Hp Hq E%(f_equal chars). unfold pairKey in E. rewrite !chars_app in E. apply delimited in E as [-> E]; [|done|done].
  split; [done|]. by apply chars_inj.
Qed.

Lemma isRevoked_spec r p n : isRevoked r p n = true <-> p ∈ revokedPlugins r \/ pairKey p n ∈ revokedPairs r.
Proof. unfold isRevoked. by rewrite orb_true_iff, !mem_elem. Qed.

Lemma isRevoked_add r p name q n :
  isRevoked (add_revocation r p name) q n = true <-> isRevoked r q n = true \/
    match name with None => p = q | Some m => pairKey p m = pairKey q n end.
Proof. rewrite !isRevoked_spec. destruct name; cbn [add_revocation revokedPairs revokedPlugins]; set_solver. Qed.

(** ** Promises *)

(** The first settlement of a promise, and the first reason of a signal, stays. *)
Definition settle {T : Type} (id : nat) (s : T) (settled : list (nat * T)) : list (nat * T) :=
  if map_has id settled then settled else settled ++ [(id, s)].

Lemma settle_get {T} id (s : T) l k : map_get k (settle id s l) = match map_get k l with Some x => Some x | None => if decide (id = k) then Some s else None end.
Proof.
  unfold settle, map_has. destruct (map_get id l) eqn:E.
  - destruct (map_get k l) eqn:E'; [done|]. destruct (decide (id = k)) as [->|]; [congruence|done].
  - rewrite <- map_set_absent, map_get_set by done. destruct (decide (id = k)) as [->|]; [by rewrite E|by destruct (map_get k l)].
Qed.

Lemma settle_keeps {T} id (s : T) l k x : map_get k l = Some x -> map_get k (settle id s l) = Some x.
Proof. intros E. by rewrite settle_get, E. Qed.

(** The entries that a loop over a table leaves and takes. *)
Lemma filter_negb_del {T} (p : T -> bool) (k : string) e l :
  map_ok l -> (k, e) ∈ l -> p e = true ->
  List.filter (fun kv => negb (p kv.2)) (map_del k l) = List.filter (fun kv => negb (p kv.2)) l.
Proof.
  unfold map_ok, map_keys. induction l as [|[k' e'] l IH]; intros Hnd Hk Hp; [done|]. cbn [map_del].
  apply NoDup_cons in Hnd as [Hk' Hnd]. destruct (decide (k' = k)) as [->|Hne].
  - apply elem_of_cons in Hk as [[= <-]|Hk]; [cbn [List.filter snd]; by rewrite Hp|].
    exfalso. apply Hk'. apply list_elem_of_fmap. by exists (k, e).
  - apply elem_of_cons in Hk as [[= -> ->]|Hk]; [done|]. cbn [List.filter snd]. by rewrite IH.
Qed.

Lemma filter_del_tail {T} (p : T -> bool) (k : string) e l r :
  map_ok l -> List.filter (fun kv => p kv.2) l = (k, e) :: r -> List.filter (fun kv => p kv.2) (map_del k l) = r.
Proof.
  unfold map_ok, map_keys. induction l as [|[k' e'] l IH]; [done|]. intros Hnd. apply NoDup_cons in Hnd as [Hk' Hnd].
  cbn [List.filter snd map_del]. destruct (p e') eqn:Ep.
  - intros [= -> -> <-]. by rewrite decide_True.
  - intros E. rewrite decide_False.
    + cbn [List.filter snd]. rewrite Ep. by apply IH.
    + intros ->. apply Hk'. assert (H : (k, e) ∈ List.filter (fun kv => p kv.2) l) by (rewrite E; by left).
      apply elem_of_In, filter_In in H as [H _]. apply list_elem_of_fmap. exists (k, e). by rewrite elem_of_In.
Qed.

Section Cores.
Context {V : Type}.

Definition Settlement := outcome BrokerCallError V.

(** ** The forwarding core *)

Section Forwarding.

Record BrokerWorkerRef := MkWorker { workerId : Z; workerEpoch : Z }.

Definition same_worker (a b : BrokerWorkerRef) : bool := (workerId a =? workerId b) && (workerEpoch a =? workerEpoch b).

Record InFlightEntry := MkEntry {
  worker : BrokerWorkerRef;
  pluginId : string;
  capabilityName : string;
  controller : nat
}.

(** A frame for the host: the call on the control channel, or its payload on the
    data pipe. *)
Inductive Frame :=
| RpcRequest (w : BrokerWorkerRef) (call : BrokerCallRequest)
| RpcRequestData (w : BrokerWorkerRef) (call : BrokerCallRequest).

(** [timers] are the armed timers with the request id that their callback
    captured; [settled] are the promises with their outcome. *)
Record ForwardingState := MkForwarding {
  inFlight : list (string * InFlightEntry);
  revocations : Revocations;
  timers : list (nat * string);
  settled : list (nat * Settlement);
  sent : list Frame;
  next : nat
}.

Definition set_flight (f : list (string * InFlightEntry)) (t : list (nat * string)) (s : list (nat * Settlement)) (st : ForwardingState) :
  ForwardingState := MkForwarding f (revocations st) t s (sent st) (next st).

Definition clearTimeout (id : nat) (t : list (nat * string)) : list (nat * string) := map_del id t.

(** [controller.abort(reason)], [clearTimeout] and [inFlight.delete] for one entry. *)
Definition abort_entry (reason : InFlightEntry -> BrokerCallError) (st : ForwardingState) (kv : string * InFlightEntry) : ForwardingState :=
  set_flight (map_del kv.1 (inFlight st)) (clearTimeout (controller kv.2) (timers st))
    (settle (controller kv.2) (Throw (reason kv.2)) (settled st)) st.

(** The loops over [inFlight] that abort the entries they match, and count them. *)
Definition abort_matching (p : InFlightEntry -> bool) (reason : InFlightEntry -> BrokerCallError) (st : ForwardingState) :
  ForwardingState * nat :=
  let matching := List.filter (fun kv => p kv.2) (inFlight st) in
  (fold_left (abort_entry reason) matching st, length matching).

Definition abortInFlight (plugin : string) (name reason : option string) (st : ForwardingState) : ForwardingState * nat :=
  abort_matching (fun e => concerns plugin name (pluginId e) (capabilityName e))
    (fun e => revoked_error reason (pluginId e) (capabilityName e)) st.

Context (maxInflight : Z) (hasDataPipe : bool).

Definition reject_new (e : BrokerCallError) (st : ForwardingState) : ForwardingState :=
  MkForwarding (inFlight st) (revocations st) (timers st) (settle (next st) (Throw e) (settled st)) (sent st) (S (next st)).

Definition admitAndRegister (now : Z) (call : BrokerCallRequest) (w : BrokerWorkerRef) (frame : option Frame) (st : ForwardingState) :
  ForwardingState :=
  match admission now (revocations st) call with
  | Some e => reject_new e st
  | None =>
      if map_has (requestId call) (inFlight st) then reject_new duplicate_error st
      else if maxInflight <=? Z.of_nat (length (inFlight st)) then
        reject_new (error "SERVICE_UNAVAILABLE" "broker forwarding capacity reached") st
      else
        let id := next st in
        let entry := MkEntry w (callerPlugin call) (capability call) id in
        let flight := map_set (requestId call) entry (inFlight st) in
        let armed := timers st ++ [(id, requestId call)] in
        match frame with
        | Some f => MkForwarding flight (revocations st) armed (settled st) (sent st ++ [f]) (S id)
        | None =>
            MkForwarding (map_del (requestId call) flight) (revocations st) (clearTimeout id armed)
              (settle id (Throw (error "SERVICE_UNAVAILABLE" "data pipe backpressure")) (settled st)) (sent st) (S id)
        end
  end.

Definition submit (now : Z) (call : BrokerCallRequest) (w : BrokerWorkerRef) (st : ForwardingState) : ForwardingState :=
  admitAndRegister now call w (Some (RpcRequest w call)) st.

Definition submitOpaque (now : Z) (call : BrokerCallRequest) (w : BrokerWorkerRef) (st : ForwardingState) : ForwardingState :=
  admitAndRegister now call w (if hasDataPipe then Some (RpcRequestData w call) else None) st.

(** The callback of a timer that is still armed. *)
Definition deadline (id : nat) (st : ForwardingState) : ForwardingState :=
  match map_get id (timers st) with
  | None => st
  | Some rid =>
      let st := set_flight (inFlight st) (map_del id (timers st)) (settled st) st in
      match map_get rid (inFlight st) with
      | None => st
      | Some e => abort_entry (fun _ => error "OPERATION_DEADLINE" "call deadline exceeded while awaiting the host") st (rid, e)
      end
  end.

Inductive RpcAnswer := RpcOk (result : V) | RpcFailed (e : option BrokerCallError).

Record RpcResponse := MkResponse { responseId : string; responseWorker : BrokerWorkerRef; answer : RpcAnswer }.

Definition settlement_of (a : RpcAnswer) : Settlement :=
  match a with
  | RpcOk v => Ok v
  | RpcFailed None => Throw (error "INTERNAL" "host call failed")
  | RpcFailed (Some e) =>
      Throw (MkError (ecode e) (emessage e) (retryable e)
        match details e with Some (VObj o) => Some (VObj o) | Some (VArr l) => Some (VArr l) | _ => None end)
  end.

Definition handleRpcResponse (body : RpcResponse) (st : ForwardingState) : ForwardingState * bool :=
  match map_get (responseId body) (inFlight st) with
  | None => (st, false)
  | Some e =>
      if same_worker (worker e) (responseWorker body) then
        (set_flight (map_del (responseId body) (inFlight st)) (clearTimeout (controller e) (timers st))
           (settle (controller e) (settlement_of (answer body)) (settled st)) st, true)
      else (st, false)
  end.

Definition abortWorker (w : BrokerWorkerRef) (st : ForwardingState) : ForwardingState * nat :=
  abort_matching (fun e => same_worker (worker e) w)
    (fun _ => error_with "SERVICE_UNAVAILABLE" "worker terminated while the call was in flight"
       (VObj [("workerId", VNum (workerId w)); ("workerEpoch", VNum (workerEpoch w))]%string)) st.

Definition revoke (plugin : string) (name reason : option string) (st : ForwardingState) : ForwardingState * nat :=
  abortInFlight plugin name reason
    (MkForwarding (inFlight st) (add_revocation (revocations st) plugin name) (timers st) (settled st) (sent st) (next st)).

Definition shutdown (st : ForwardingState) : ForwardingState :=
  fst (abort_matching (fun _ => true) (fun _ => error "CAPABILITY_REVOKED" "broker shutting down") st).

Definition pendingCount (st : ForwardingState) : nat := length (inFlight st).

Inductive Op :=
| Submit (now : Z) (call : BrokerCallRequest) (w : BrokerWorkerRef)
| SubmitOpaque (now : Z) (call : BrokerCallRequest) (w : BrokerWorkerRef)
| Deadline (id : nat)
| Response (body : RpcResponse)
| AbortWorker (w : BrokerWorkerRef)
| Revoke (plugin : string) (name reason : option string)
| Shutdown.

Definition step (st : ForwardingState) (op : Op) : ForwardingState :=
  match op with
  | Submit now call w => submit now call w st
  | SubmitOpaque now call w => submitOpaque now call w st
  | Deadline id => deadline id st
  | Response body => fst (handleRpcResponse body st)
  | AbortWorker w => fst (abortWorker w st)
  | Revoke plugin name reason => fst (revoke plugin name reason st)
  | Shutdown => shutdown st
  end.

Definition initial : ForwardingState := MkForwarding [] (MkRevocations [] []) [] [] [] 0.

Definition run (ops : list Op) : ForwardingState := fold_left step ops initial.

(** *** Invariant *)

(** A promise is pending exactly while its entry and its timer are there. *)
Record forwarding_inv (st : ForwardingState) : Prop := {
  flight_ok : map_ok (inFlight st);
  timers_ok : map_ok (timers st);
  entry_timer : forall rid e, map_get rid (inFlight st) = Some e -> map_get (controller e) (timers st) = Some rid;
  timer_entry : forall id rid, map_get id (timers st) = Some rid ->
    exists e, map_get rid (inFlight st) = Some e /\ controller e = id;
  pending_timer : forall id, (id < next st)%nat -> map_get id (settled st) = None <-> exists rid, map_get id (timers st) = Some rid;
  known_ids : forall id, map_get id (timers st) <> None \/ map_get id (settled st) <> None -> (id < next st)%nat
}.

(** Ending one call: its entry and its timer go, its promise is settled. *)
Definition end_call (rid : string) (id : nat) (s : Settlement) (st : ForwardingState) : ForwardingState :=
  set_flight (map_del rid (inFlight st)) (clearTimeout id (timers st)) (settle id s (settled st)) st.

Lemma end_call_inv rid e s st :
  forwarding_inv st -> map_get rid (inFlight st) = Some e -> forwarding_inv (end_call rid (controller e) s st).
Proof.
  intros [H1 H2 H3 H4 H5 H6] He. pose proof (H3 _ _ He) as Ht.
  split; cbn [end_call set_flight inFlight timers settled next]; unfold clearTimeout.
  - by apply map_del_ok.
  - by apply map_del_ok.
  - intros rid' e'. rewrite map_get_del by done. case_decide as Hr; [done|]. intros He'. pose proof (H3 _ _ He') as Ht'.
    rewrite map_get_del by done. rewrite decide_False; [done|]. intros E. rewrite E in Ht. congruence.
  - intros id rid'. rewrite map_get_del by done. case_decide as Hi; [done|]. intros Ht'. destruct (H4 _ _ Ht') as (e' & He' & <-).
    exists e'. rewrite map_get_del by done. split; [|done]. rewrite decide_False; [done|]. intros ->. congruence.
  - intros id Hid. rewrite settle_get, map_get_del by done. destruct (decide (controller e = id)) as [<-|Hne].
    + split; [|by intros [? ?]]. by destruct (map_get _ (settled st)).
    + specialize (H5 id Hid). destruct (map_get id (settled st)); [split; [done|]; intros E; by apply H5|done].
  - intros id. rewrite settle_get, map_get_del by done. intros [H|H].
    + apply H6. left. by destruct (decide (controller e = id)).
    + apply H6. destruct (map_get id (settled st)); [by right|]. destruct (decide (controller e = id)) as [<-|]; [|done].
      left. by rewrite Ht.
Qed.

Lemma abort_entry_end reason st kv : abort_entry reason st kv = end_call kv.1 (controller kv.2) (Throw (reason kv.2)) st.
Proof. done. Qed.

(** *** The abort loops *)

(** A loop removes the entries that it matches, and settles their promises. *)
Lemma abort_matching_spec p reason st st' n :
  forwarding_inv st -> abort_matching p reason st = (st', n) ->
  forwarding_inv st' /\ next st' = next st /\ revocations st' = revocations st /\
  inFlight st' = List.filter (fun kv => negb (p kv.2)) (inFlight st) /\
  (forall id x, map_get id (settled st) = Some x -> map_get id (settled st') = Some x) /\
  forall rid e, map_get rid (inFlight st) = Some e -> p e = true -> map_get (controller e) (settled st) = None ->
    map_get (controller e) (settled st') = Some (Throw (reason e)).
Proof.
  unfold abort_matching. intros Hi [= <- _]. remember (List.filter (fun kv => p kv.2) (inFlight st)) as l eqn:El. symmetry in El.
  revert st Hi El. induction l as [|[k e] l IH]; intros st Hi El; cbn [fold_left].
  - split_and!; try done.
    + symmetry. apply filter_all. intros [k e] Hk. destruct (p e) eqn:Ep; [|cbn [snd]; by rewrite Ep].
      assert (H : (k, e) ∈ List.filter (fun kv => p kv.2) (inFlight st)) by (apply elem_of_filter_bool; by split).
      rewrite El in H. by apply not_elem_of_nil in H.
    + intros rid e He Hp. assert (H : (rid, e) ∈ List.filter (fun kv => p kv.2) (inFlight st)).
      { apply elem_of_filter_bool. split; [by apply map_get_elem|done]. }
      rewrite El in H. by apply not_elem_of_nil in H.
  - assert (H : (k, e) ∈ List.filter (fun kv => p kv.2) (inFlight st)) by (rewrite El; by left).
    apply elem_of_filter_bool in H as [Hk Hp]. cbn [snd] in Hp.
    assert (He : map_get k (inFlight st) = Some e) by (apply elem_map_get; [apply Hi|done]).
    destruct (IH (abort_entry reason st (k, e))) as (Hi' & Hn & Hr & Hf & Hs & Hm).
    + rewrite abort_entry_end. by apply end_call_inv.
    + rewrite abort_entry_end. eapply filter_del_tail; [apply Hi|exact El].
    + split_and!; [done|by rewrite Hn|by rewrite Hr| | |].
      * rewrite Hf, abort_entry_end. apply (filter_negb_del p k e); [apply Hi|done|done].
      * intros id x Hx. apply Hs. rewrite abort_entry_end. by apply settle_keeps.
      * intros rid e' He' Hp' Hnone. destruct (decide (rid = k)) as [->|Hne].
        { assert (e' = e) as -> by congruence. apply Hs. rewrite abort_entry_end. cbn [end_call set_flight settled fst snd].
          by rewrite settle_get, Hnone, decide_True. }
        apply (Hm rid); [| done |].
        { rewrite abort_entry_end. cbn [end_call set_flight inFlight fst snd]. rewrite map_get_del by apply Hi. by rewrite decide_False. }
        rewrite abort_entry_end. cbn [end_call set_flight settled fst snd]. rewrite settle_get, Hnone. rewrite decide_False; [done|].
        intros E. apply (entry_timer _ Hi) in He, He'. rewrite E in He. congruence.
Qed.

(** *** Operations *)

(** The state after the registration of a call. *)
Definition registered (call : BrokerCallRequest) (w : BrokerWorkerRef) (frames : list Frame) (st : ForwardingState) : ForwardingState :=
  MkForwarding (map_set (requestId call) (MkEntry w (callerPlugin call) (capability call) (next st)) (inFlight st)) (revocations st)
    (timers st ++ [(next st, requestId call)]) (settled st) frames (S (next st)).

Lemma fresh_id st : forwarding_inv st -> map_get (next st) (timers st) = None /\ map_get (next st) (settled st) = None.
Proof.
  intros Hi. pose proof (known_ids st Hi (next st)) as H.
  destruct (map_get (next st) (timers st)); [exfalso; assert (next st < next st)%nat by (apply H; by left); lia|].
  destruct (map_get (next st) (settled st)); [exfalso; assert (next st < next st)%nat by (apply H; by right); lia|done].
Qed.

Lemma reject_inv e st : forwarding_inv st -> forwarding_inv (reject_new e st).
Proof.
  intros Hi. destruct (fresh_id st Hi) as [Ht Hs]. destruct Hi as [H1 H2 H3 H4 H5 H6].
  split; cbn [reject_new inFlight timers settled next]; try done.
  - intros id Hid. rewrite settle_get. destruct (decide (next st = id)) as [<-|Hne].
    + rewrite Hs, Ht. split; [done|by intros [? ?]].
    + rewrite <- H5 by lia. by destruct (map_get id (settled st)).
  - intros id. rewrite settle_get. destruct (decide (next st = id)) as [<-|Hne]; [lia|]. intros H.
    enough (id < next st)%nat by lia. apply H6. destruct H as [H|H]; [by left|right]. by destruct (map_get id (settled st)).
Qed.

Lemma registered_inv call w frames st :
  forwarding_inv st -> map_get (requestId call) (inFlight st) = None -> forwarding_inv (registered call w frames st).
Proof.
  intros Hi Hn. destruct (fresh_id st Hi) as [Ht Hs]. destruct Hi as [H1 H2 H3 H4 H5 H6].
  assert (Htm : forall id, map_get id (timers st ++ [(next st, requestId call)]) =
                           if decide (next st = id) then Some (requestId call) else map_get id (timers st)).
  { intros id. by rewrite <- map_set_absent, map_get_set. }
  split; cbn [registered inFlight timers settled next].
  - by apply map_set_ok.
  - rewrite <- map_set_absent by done. by apply map_set_ok.
  - intros rid e. rewrite map_get_set, Htm. case_decide as Hr.
    + intros [= <-]. cbn [controller]. by rewrite decide_True, Hr.
    + intros He%H3. rewrite decide_False; [done|]. intros E. rewrite <- E in He. congruence.
  - intros id rid. rewrite Htm. case_decide as Hid.
    + intros [= <-]. rewrite map_get_set, decide_True by done. by eexists.
    + intros (e & He & <-)%H4. exists e. rewrite map_get_set, decide_False; [done|]. intros E. rewrite <- E in He. congruence.
  - intros id Hid. rewrite Htm. case_decide as He; [subst id; rewrite Hs; split; [by eexists|done]|]. apply H5. lia.
  - intros id. rewrite Htm. case_decide as He; [lia|]. intros H. enough (id < next st)%nat by lia. by apply H6.
Qed.

Lemma admit_cases now call w frame st :
  let st' := admitAndRegister now call w frame st in
  (exists e, st' = reject_new e st) \/
  (admission now (revocations st) call = None /\ map_get (requestId call) (inFlight st) = None /\
   (Z.of_nat (length (inFlight st)) < maxInflight) /\
   (st' = registered call w (sent st') st \/
    exists e, st' = end_call (requestId call) (next st) (Throw e) (registered call w (sent st) st))).
Proof.
  unfold admitAndRegister. destruct (admission _ _ _); [left; by eexists|].
  unfold map_has. destruct (map_get (requestId call) (inFlight st)) eqn:E; [left; by eexists|].
  destruct (Z.leb_spec maxInflight (Z.of_nat (length (inFlight st)))); [left; by eexists|].
  right. split_and!; try done. destruct frame; [by left|right; by eexists].
Qed.

Lemma deadline_end id rid st :
  forwarding_inv st -> map_get id (timers st) = Some rid ->
  deadline id st = end_call rid id (Throw (error "OPERATION_DEADLINE" "call deadline exceeded while awaiting the host")) st.
Proof.
  intros Hi Ht. destruct (timer_entry st Hi _ _ Ht) as (e & He & Hc). unfold deadline. rewrite Ht. cbn [set_flight inFlight]. rewrite He.
  rewrite abort_entry_end. cbn [fst snd]. rewrite Hc. unfold end_call, set_flight, clearTimeout. cbn [inFlight timers settled revocations sent next].
  rewrite (map_del_absent id (map_del id (timers st))); [done|]. rewrite map_get_del by apply Hi. by rewrite decide_True.
Qed.

Lemma response_cases body st :
  fst (handleRpcResponse body st) = st \/
  exists e, map_get (responseId body) (inFlight st) = Some e /\ same_worker (worker e) (responseWorker body) = true /\
    fst (handleRpcResponse body st) = end_call (responseId body) (controller e) (settlement_of (answer body)) st.
Proof.
  unfold handleRpcResponse. destruct (map_get _ _) as [e|] eqn:E; [|by left]. destruct (same_worker _ _) eqn:Ew; [|by left].
  right. by exists e.
Qed.

(** What every operation preserves. *)
Definition grows (st st' : ForwardingState) : Prop :=
  (next st <= next st')%nat /\ forall id x, map_get id (settled st) = Some x -> map_get id (settled st') = Some x.

Lemma grows_end rid id s st st' : grows st st' -> grows st (end_call rid id s st').
Proof. intros [H1 H2]. split; [done|]. intros k x Hx. cbn. apply settle_keeps. by apply H2. Qed.

Lemma forwarding_step_inv st op : forwarding_inv st -> forwarding_inv (step st op) /\ grows st (step st op).
Proof.
  intros Hi. assert (Hself : grows st st) by (split; [done|by intros]).
  assert (Hadmit : forall now call w frame,
    forwarding_inv (admitAndRegister now call w frame st) /\ grows st (admitAndRegister now call w frame st)).
  { intros now call w frame. destruct (admit_cases now call w frame st) as [(e & ->)|(_ & Hn & _ & [-> | (e & ->)])].
    - split; [by apply reject_inv|]. split; cbn; [lia|]. intros id x. apply settle_keeps.
    - split; [by apply registered_inv|]. split; cbn; [lia|done].
    - split; [|apply grows_end; split; cbn; [lia|done]].
      apply (end_call_inv _ (MkEntry w (callerPlugin call) (capability call) (next st))); [by apply registered_inv|].
      cbn [registered inFlight]. by rewrite map_get_set, decide_True. }
  assert (Habort : forall p reason st0, forwarding_inv st0 -> next st0 = next st -> settled st0 = settled st ->
    forwarding_inv (fst (abort_matching p reason st0)) /\ grows st (fst (abort_matching p reason st0))).
  { intros p reason st0 Hi0 Hn Hs. destruct (abort_matching p reason st0) as [st' n] eqn:E.
    destruct (abort_matching_spec _ _ _ _ _ Hi0 E) as (H1 & H2 & _ & _ & H3 & _). split; [done|]. split; cbn [fst]; [lia|].
    intros id x. rewrite <- Hs. apply H3. }
  destruct op as [now call w|now call w|id|body|w|plugin name reason|]; cbn [step].
  - apply Hadmit.
  - apply Hadmit.
  - destruct (map_get id (timers st)) as [rid|] eqn:E; [|unfold deadline; by rewrite E].
    rewrite (deadline_end id rid) by done. split; [|by apply grows_end].
    destruct (timer_entry st Hi _ _ E) as (e & He & <-). by apply end_call_inv.
  - destruct (response_cases body st) as [-> | (e & He & _ & ->)]; [by split|]. split; [by apply end_call_inv|by apply grows_end].
  - by apply Habort.
  - apply Habort; [|done|done]. destruct Hi. by split.
  - by apply Habort.
Qed.

Lemma forwarding_run_inv ops : forwarding_inv (run ops).
Proof.
  unfold run. assert (H0 : forwarding_inv initial).
  { split; cbn; try done; try (by apply NoDup_nil). - intros id H; lia. - by intros id [H|H]. }
  revert H0. generalize initial. induction ops as [|op ops IH]; intros st Hi; [done|]. cbn [fold_left]. by apply IH, forwarding_step_inv.
Qed.

(** *** Revocation *)

(** No call that waits for the host is revoked. *)
Definition unrevoked (st : ForwardingState) : Prop :=
  forall rid e, map_get rid (inFlight st) = Some e ->
    isRevoked (revocations st) (pluginId e) (capabilityName e) = false /\ no_nul (pluginId e) = true.

Definition text_op (op : Op) : Prop :=
  match op with
  | Submit _ call _ | SubmitOpaque _ call _ => no_nul (callerPlugin call) = true
  | Revoke plugin _ _ => no_nul plugin = true
  | _ => True
  end.

Definition bounded (st : ForwardingState) : Prop := Z.of_nat (length (inFlight st)) <= Z.max 0 maxInflight.

Lemma length_del_le k l : (length (map_del (V := InFlightEntry) (K := string) k l) <= length l)%nat.
Proof. induction l as [|[k' v] l IH]; [done|]. cbn [map_del]. case_decide; cbn [length]; lia. Qed.

Lemma unrevoked_end rid id s st : forwarding_inv st -> unrevoked st -> unrevoked (end_call rid id s st).
Proof. intros Hi H rid' e'. cbn. rewrite map_get_del by apply Hi. case_decide; [done|]. apply H. Qed.

Lemma bounded_end rid id s st : bounded st -> bounded (end_call rid id s st).
Proof. unfold bounded. cbn. pose proof (length_del_le rid (inFlight st)). lia. Qed.

Lemma admit_unrevoked now call w frame st :
  forwarding_inv st -> no_nul (callerPlugin call) = true -> unrevoked st /\ bounded st ->
  unrevoked (admitAndRegister now call w frame st) /\ bounded (admitAndRegister now call w frame st).
Proof.
  intros Hi Ht [Hu Hb].
  destruct (admit_cases now call w frame st) as [(e & ->)|(Ha & Hn & Hm & Hst)]; [done|].
  assert (Hreg : forall frames, unrevoked (registered call w frames st) /\ bounded (registered call w frames st)).
  { intros frames. split.
    - intros rid e. cbn [registered inFlight revocations]. rewrite map_get_set. case_decide; [|apply Hu]. intros [= <-].
      cbn [pluginId capabilityName]. split; [|done]. unfold admission in Ha. repeat case_match; done.
    - unfold bounded. cbn [registered inFlight]. rewrite map_set_absent by done. rewrite length_app. cbn [length]. lia. }
  destruct Hst as [->|(e & ->)]; [apply Hreg|].
  split; [apply unrevoked_end; [by apply registered_inv|apply Hreg] | apply bounded_end, Hreg].
Qed.

Lemma abort_unrevoked p reason st :
  forwarding_inv st -> unrevoked st /\ bounded st ->
  unrevoked (fst (abort_matching p reason st)) /\ bounded (fst (abort_matching p reason st)).
Proof.
  intros Hi [Hu Hb]. destruct (abort_matching p reason st) as [st' n] eqn:E. cbn [fst].
  destruct (abort_matching_spec _ _ _ _ _ Hi E) as (Hi' & _ & Hr & Hf & _). split.
  - intros rid e He. rewrite Hr. apply (Hu rid). apply map_get_elem in He. rewrite Hf in He.
    apply elem_of_filter_bool in He as [He _]. apply elem_map_get; [apply Hi|done].
  - unfold bounded in *. rewrite Hf. pose proof (filter_length_le (fun kv => negb (p kv.2)) (inFlight st)). lia.
Qed.

(** A revocation leaves no entry that it concerns. *)
Lemma revoke_unrevoked plugin name reason st :
  forwarding_inv st -> no_nul plugin = true -> unrevoked st /\ bounded st ->
  unrevoked (fst (revoke plugin name reason st)) /\ bounded (fst (revoke plugin name reason st)).
Proof.
  intros Hi Ht [Hu Hb]. unfold revoke, abortInFlight.
  set (st1 := MkForwarding (inFlight st) (add_revocation (revocations st) plugin name) (timers st) (settled st) (sent st) (next st)).
  assert (Hi1 : forwarding_inv st1) by (destruct Hi; by split).
  destruct (abort_matching _ _ st1) as [st' n] eqn:E. cbn [fst].
  destruct (abort_matching_spec _ _ _ _ _ Hi1 E) as (Hi' & _ & Hr & Hf & _). split.
  - intros rid e He. rewrite Hr. apply map_get_elem in He. rewrite Hf in He. apply elem_of_filter_bool in He as [He Hc].
    cbn [snd st1 inFlight] in *. destruct (Hu rid e) as [Hue Hne]; [apply elem_map_get; [apply Hi|done]|]. split; [|done].
    apply not_true_is_false. cbn [st1 revocations]. rewrite isRevoked_add, Hue. intros [|Hm]; [done|].
    apply negb_true_iff in Hc. unfold concerns in Hc. destruct name as [m|].
    + apply pairKey_inj in Hm as [E1 E2]; [|done|done]. by rewrite E1, E2, !String.eqb_refl in Hc.
    + by rewrite Hm, String.eqb_refl in Hc.
  - unfold bounded in *. rewrite Hf. cbn [st1 inFlight].
    pose proof (filter_length_le (fun kv => negb (concerns plugin name (pluginId kv.2) (capabilityName kv.2))) (inFlight st)). lia.
Qed.

Lemma step_unrevoked st op :
  forwarding_inv st -> text_op op -> unrevoked st /\ bounded st -> unrevoked (step st op) /\ bounded (step st op).
Proof.
  intros Hi Ht Hub. destruct op as [now call w|now call w|id|body|w|plugin name reason|]; cbn [step text_op] in *.
  - by apply admit_unrevoked.
  - by apply admit_unrevoked.
  - destruct (map_get id (timers st)) as [rid|] eqn:E; [|unfold deadline; by rewrite E].
    rewrite (deadline_end id rid) by done. by split; [apply unrevoked_end|apply bounded_end]; apply Hub || apply Hi.
  - destruct (response_cases body st) as [-> | (e & He & _ & ->)]; [done|].
    by split; [apply unrevoked_end|apply bounded_end]; apply Hub || apply Hi.
  - by apply abort_unrevoked.
  - by apply revoke_unrevoked.
  - by apply abort_unrevoked.
Qed.

Lemma run_unrevoked ops : Forall text_op ops -> unrevoked (run ops) /\ bounded (run ops).
Proof.
  induction ops as [|op ops IH] using rev_ind; intros Ht.
  - split; [intros rid e H; discriminate H|]. unfold bounded. cbn. lia.
  - apply Forall_app in Ht as [Ht Hop]. apply (Forall_inv (P := text_op)) in Hop. unfold run. rewrite fold_left_app. cbn [fold_left].
    pose proof (forwarding_run_inv ops) as Hi. unfold run in *. apply step_unrevoked; [exact Hi|exact Hop|by apply IH].
Qed.

Lemma run_grows ops more : grows (run ops) (run (ops ++ more)).
Proof.
  induction more as [|op more IH] using rev_ind; [rewrite app_nil_r; by split|].
  rewrite app_assoc. unfold run. rewrite (fold_left_app _ _ [op]). cbn [fold_left].
  destruct IH as [H1 H2]. destruct (forwarding_step_inv (run (ops ++ more)) op (forwarding_run_inv _)) as [_ [H3 H4]].
  split; [unfold run in *; lia|]. intros id x Hx. apply H4, H2, Hx.
Qed.

(** C33: the forwarding core loses no call.  After any operations (of
    plugins whose ids have no NUL), a promise is pending exactly while it has an
    entry under its request id, and that entry has a timer that is armed; no entry
    is of a revoked plugin or capability, and they are at most [maxInflight]; a
    settled promise keeps its outcome for ever; the next deadline of a pending
    call settles it with a deadline error, a revocation settles every pending
    call that it concerns with [CAPABILITY_REVOKED], and a shutdown leaves no
    promise pending. *)
Theorem forwarding_tracks_calls ops :
  Forall text_op ops ->
  let st := run ops in
  (forall id, (id < next st)%nat -> map_get id (settled st) = None <->
     exists rid e, map_get rid (inFlight st) = Some e /\ controller e = id /\ map_get id (timers st) = Some rid) /\
  (forall rid e, map_get rid (inFlight st) = Some e -> isRevoked (revocations st) (pluginId e) (capabilityName e) = false) /\
  Z.of_nat (pendingCount st) <= Z.max 0 maxInflight /\
  (forall more id s, map_get id (settled st) = Some s -> map_get id (settled (run (ops ++ more))) = Some s) /\
  (forall id, (id < next st)%nat -> map_get id (settled st) = None ->
     exists e, map_get id (settled (deadline id st)) = Some (Throw e) /\ ecode e = "OPERATION_DEADLINE"%string) /\
  (forall plugin name reason rid e, map_get rid (inFlight st) = Some e ->
     concerns plugin name (pluginId e) (capabilityName e) = true ->
     map_get (controller e) (settled (fst (revoke plugin name reason st))) =
       Some (Throw (revoked_error reason (pluginId e) (capabilityName e)))) /\
  (forall id, (id < next st)%nat -> map_get id (settled (shutdown st)) <> None).
Proof.
  intros Ht st. pose proof (forwarding_run_inv ops) as Hi. fold st in Hi. destruct (run_unrevoked ops Ht) as [Hu Hb].
  assert (Hpend : forall rid e, map_get rid (inFlight st) = Some e -> map_get (controller e) (settled st) = None).
  { intros rid e He. apply (pending_timer st Hi); [apply (known_ids st Hi); left|]; rewrite (entry_timer st Hi rid e He); [done|by eexists]. }
  split_and!.
  - intros id Hid. rewrite (pending_timer st Hi id Hid). split.
    + intros (rid & Hr). destruct (timer_entry st Hi _ _ Hr) as (e & He & <-). by exists rid, e.
    + intros (rid & e & _ & _ & Hr). by exists rid.
  - intros rid e He. by apply (Hu rid e).
  - exact Hb.
  - intros more id s. apply run_grows.
  - intros id Hid Hn. pose proof Hn as Hp. apply (pending_timer st Hi id Hid) in Hp as (rid & Hr). rewrite (deadline_end id rid) by done. eexists. cbn.
    rewrite settle_get, Hn, decide_True by done. split; [done|done].
  - intros plugin name reason rid e He Hc. unfold revoke, abortInFlight.
    set (st1 := MkForwarding (inFlight st) (add_revocation (revocations st) plugin name) (timers st) (settled st) (sent st) (next st)).
    assert (Hi1 : forwarding_inv st1) by (destruct Hi; by split).
    destruct (abort_matching _ _ st1) as [st' n] eqn:E. cbn [fst].
    destruct (abort_matching_spec _ _ _ _ _ Hi1 E) as (_ & _ & _ & _ & _ & Hm). apply (Hm rid e He Hc). by apply (Hpend rid).
  - intros id Hid Hn. unfold shutdown in Hn. destruct (abort_matching _ _ st) as [st' n] eqn:E. cbn [fst] in Hn.
    destruct (abort_matching_spec _ _ _ _ _ Hi E) as (_ & _ & _ & _ & Hs & Hm). destruct (map_get id (settled st)) as [x|] eqn:Ex.
    + by rewrite (Hs _ _ Ex) in Hn.
    + pose proof Ex as Hp. apply (pending_timer st Hi id Hid) in Hp as (rid & Hr). destruct (timer_entry st Hi _ _ Hr) as (e & He & <-).
      by rewrite (Hm rid e He eq_refl Ex) in Hn.
Qed.
End Forwarding.

(** ** The local core *)

Section Local.

Record LocalEntry := MkLocal { localPlugin : string; localCapability : string; localController : nat }.

(** [running] are the executions of the policy that have not settled, with their
    call; [aborted] the signals that have fired, with their reason. *)
Record LocalState := MkLocalState {
  localFlight : list (string * LocalEntry);
  localRevocations : Revocations;
  localTimers : list (nat * string);
  aborted : list (nat * BrokerCallError);
  running : list (nat * BrokerCallRequest);
  localSettled : list (nat * outcome Thrown V);
  localNext : nat
}.

Definition fail_call (e : BrokerCallError) (st : LocalState) : LocalState :=
  MkLocalState (localFlight st) (localRevocations st) (localTimers st) (aborted st) (running st)
    (settle (localNext st) (Throw (BrokerError e)) (localSettled st)) (S (localNext st)).

Definition start_call (call : BrokerCallRequest) (st : LocalState) : LocalState :=
  let id := localNext st in
  MkLocalState (map_set (requestId call) (MkLocal (callerPlugin call) (capability call) id) (localFlight st)) (localRevocations st)
    (localTimers st ++ [(id, requestId call)]) (aborted st) (running st ++ [(id, call)]) (localSettled st) (S id).

(** [decision] is the answer of [policy.authorize]: [None] allows the call, and
    a refusal has its code and details. *)
Definition localSubmit (now : Z) (raw : Value) (decision : option (string * option Value)) (st : LocalState) : LocalState :=
  match readCall raw with
  | None => fail_call (error "VALIDATION_FAILED" "malformed broker call envelope") st
  | Some call =>
      match admission now (localRevocations st) call with
      | Some e => fail_call e st
      | None =>
          match decision with
          | Some (c, d) => fail_call (MkError c c false d) st
          | None => if map_has (requestId call) (localFlight st) then fail_call duplicate_error st else start_call call st
          end
      end
  end.

(** The call in the payload of the data pipe; [decoded] is the parsed JSON. *)
Definition opaque_call (decoded : option Value) : option Value :=
  match decoded with Some (VObj d) => field "call" d | _ => None end.

Definition localSubmitOpaque (now : Z) (decoded : option Value) (decision : option (string * option Value)) (st : LocalState) : LocalState :=
  match opaque_call decoded with
  | Some raw =>
      if assertBrokerCallShape raw then localSubmit now raw decision st
      else fail_call (error "VALIDATION_FAILED" "malformed data-pipe call envelope") st
  | None => fail_call (error "VALIDATION_FAILED" match decoded with
      | None | Some VNull => "malformed data-pipe call payload" | _ => "malformed data-pipe call envelope" end) st
  end.

(** The execution settles: [finally] clears its own timer and deletes whatever
    entry its request id has. *)
Definition localFinish (id : nat) (result : outcome Thrown V) (st : LocalState) : LocalState :=
  match map_get id (running st) with
  | None => st
  | Some call =>
      MkLocalState (map_del (requestId call) (localFlight st)) (localRevocations st) (clearTimeout id (localTimers st)) (aborted st)
        (map_del id (running st)) (settle id result (localSettled st)) (localNext st)
  end.

Definition local_abort (reason : LocalEntry -> BrokerCallError) (st : LocalState) (kv : string * LocalEntry) : LocalState :=
  MkLocalState (map_del kv.1 (localFlight st)) (localRevocations st) (clearTimeout (localController kv.2) (localTimers st))
    (settle (localController kv.2) (reason kv.2) (aborted st)) (running st) (localSettled st) (localNext st).

Definition local_abort_matching (p : LocalEntry -> bool) (reason : LocalEntry -> BrokerCallError) (st : LocalState) : LocalState * nat :=
  let matching := List.filter (fun kv => p kv.2) (localFlight st) in
  (fold_left (local_abort reason) matching st, length matching).

Definition localDeadline (id : nat) (st : LocalState) : LocalState :=
  match map_get id (localTimers st) with
  | None => st
  | Some rid =>
      let st := MkLocalState (localFlight st) (localRevocations st) (map_del id (localTimers st)) (aborted st) (running st)
                  (localSettled st) (localNext st) in
      match map_get rid (localFlight st) with
      | None => st
      | Some e => local_abort (fun _ => error "OPERATION_DEADLINE" "call deadline exceeded while in flight") st (rid, e)
      end
  end.

Definition localRevoke (plugin : string) (name reason : option string) (st : LocalState) : LocalState * nat :=
  local_abort_matching (fun e => concerns plugin name (localPlugin e) (localCapability e))
    (fun e => revoked_error reason (localPlugin e) (localCapability e))
    (MkLocalState (localFlight st) (add_revocation (localRevocations st) plugin name) (localTimers st) (aborted st) (running st)
       (localSettled st) (localNext st)).

Definition localShutdown (st : LocalState) : LocalState :=
  fst (local_abort_matching (fun _ => true) (fun _ => error "CAPABILITY_REVOKED" "broker shutting down") st).

Inductive LocalOp :=
| LocalSubmit (now : Z) (raw : Value) (decision : option (string * option Value))
| LocalSubmitOpaque (now : Z) (decoded : option Value) (decision : option (string * option Value))
| LocalFinish (id : nat) (result : outcome Thrown V)
| LocalDeadline (id : nat)
| LocalRevoke (plugin : string) (name reason : option string)
| LocalShutdown.

Definition local_step (st : LocalState) (op : LocalOp) : LocalState :=
  match op with
  | LocalSubmit now raw decision => localSubmit now raw decision st
  | LocalSubmitOpaque now decoded decision => localSubmitOpaque now decoded decision st
  | LocalFinish id result => localFinish id result st
  | LocalDeadline id => localDeadline id st
  | LocalRevoke plugin name reason => fst (localRevoke plugin name reason st)
  | LocalShutdown => localShutdown st
  end.

Definition local_initial : LocalState := MkLocalState [] (MkRevocations [] []) [] [] [] [] 0.

(** *** Calls with their own request ids *)

(** The request id of a new call is not one of a running execution. *)
Definition fresh_call (st : LocalState) (raw : Value) : Prop :=
  forall call, readCall raw = Some call -> forall id c, map_get id (running st) = Some c -> requestId c <> requestId call.

Definition fresh_op (st : LocalState) (op : LocalOp) : Prop :=
  match op with
  | LocalSubmit _ raw _ => fresh_call st raw
  | LocalSubmitOpaque _ decoded _ => match opaque_call decoded with Some raw => fresh_call st raw | None => True end
  | _ => True
  end.

Inductive local_reach : LocalState -> Prop :=
| local_start : local_reach local_initial
| local_next st op : local_reach st -> fresh_op st op -> local_reach (local_step st op).

(** Every execution whose signal has not fired has its entry and its timer. *)
Definition tracked (st : LocalState) (id : nat) (c : BrokerCallRequest) : Prop :=
  map_get (requestId c) (localFlight st) = Some (MkLocal (callerPlugin c) (capability c) id) /\
  map_get id (localTimers st) = Some (requestId c).

Record local_inv (st : LocalState) : Prop := {
  l_flight : map_ok (localFlight st);
  l_timers : map_ok (localTimers st);
  l_running : map_ok (running st);
  l_ids : forall id, map_get id (running st) <> None \/ map_get id (localTimers st) <> None \/ map_get id (aborted st) <> None ->
    (id < localNext st)%nat;
  l_distinct : forall id id' c c', map_get id (running st) = Some c -> map_get id' (running st) = Some c' ->
    requestId c = requestId c' -> id = id';
  l_tracked : forall id c, map_get id (running st) = Some c -> map_get id (aborted st) = None -> tracked st id c;
  l_entry : forall rid e, map_get rid (localFlight st) = Some e -> exists c,
    map_get (localController e) (running st) = Some c /\ map_get (localController e) (aborted st) = None /\ requestId c = rid /\
    e = MkLocal (callerPlugin c) (capability c) (localController e);
  l_timer : forall id rid, map_get id (localTimers st) = Some rid -> exists e, map_get rid (localFlight st) = Some e /\ localController e = id
}.

Lemma local_abort_inv reason rid e st :
  local_inv st -> map_get rid (localFlight st) = Some e -> local_inv (local_abort reason st (rid, e)).
Proof.
  intros [H1 H2 H3 H4 H5 H6 H7 H8] He. destruct (H7 _ _ He) as (c & Hc & Ha & Hr & Heq).
  split; cbn [local_abort localFlight localTimers aborted running localNext fst snd]; unfold clearTimeout; try done.
  - by apply map_del_ok.
  - by apply map_del_ok.
  - intros id. rewrite map_get_del, settle_get by done. intros H. apply H4. destruct H as [H|[H|H]]; [by left| |].
    + right. left. by destruct (decide (localController e = id)).
    + destruct (map_get id (aborted st)); [by right; right|]. destruct (decide (localController e = id)) as [<-|]; [|done].
      left. by rewrite Hc.
  - intros id c' Hc' Hna. rewrite settle_get in Hna. destruct (map_get id (aborted st)) eqn:Ea; [done|].
    destruct (decide (localController e = id)) as [|Hne]; [done|]. destruct (H6 id c' Hc' Ea) as [Hf Ht].
    split; cbn [local_abort localFlight localTimers fst snd]; unfold clearTimeout; rewrite map_get_del, decide_False; try done.
    intros E. apply Hne. rewrite <- E, He in Hf. by injection Hf as ->.
  - intros rid' e'. rewrite map_get_del by done. case_decide as Hne; [done|]. intros He'.
    destruct (H7 _ _ He') as (c' & Hc' & Ha' & Hr' & Heq'). exists c'. split_and!; try done.
    rewrite settle_get, Ha'. rewrite decide_False; [done|]. intros E. rewrite E in Hc. congruence.
  - intros id rid'. rewrite map_get_del by done. case_decide as Hne; [done|]. intros (e' & He' & Hi)%H8. exists e'. split; [|done].
    rewrite map_get_del by done. rewrite decide_False; [done|]. intros ->. congruence.
Qed.

Lemma local_abort_matching_spec p reason st st' n :
  local_inv st -> local_abort_matching p reason st = (st', n) ->
  local_inv st' /\ running st' = running st /\
  (forall id, map_get id (aborted st) <> None -> map_get id (aborted st') <> None) /\
  (forall rid e, map_get rid (localFlight st) = Some e -> p e = true -> map_get (localController e) (aborted st') <> None).
Proof.
  unfold local_abort_matching. intros Hi [= <- _].
  remember (List.filter (fun kv => p kv.2) (localFlight st)) as l eqn:El. symmetry in El.
  revert st Hi El. induction l as [|[k e] l IH]; intros st Hi El; cbn [fold_left].
  - split_and!; try done. intros rid e He Hp.
    assert (H : (rid, e) ∈ List.filter (fun kv => p kv.2) (localFlight st)).
    { apply elem_of_filter_bool. split; [by apply map_get_elem|done]. }
    rewrite El in H. by apply not_elem_of_nil in H.
  - assert (H : (k, e) ∈ List.filter (fun kv => p kv.2) (localFlight st)) by (rewrite El; by left).
    apply elem_of_filter_bool in H as [Hk Hp]. cbn [snd] in Hp.
    assert (He : map_get k (localFlight st) = Some e) by (apply elem_map_get; [apply Hi|done]).
    destruct (IH (local_abort reason st (k, e))) as (Hi' & Hrun & Hab & Hm).
    + by apply local_abort_inv.
    + cbn [local_abort localFlight fst]. eapply filter_del_tail; [apply Hi|exact El].
    + assert (Hkeep : forall id, map_get id (aborted st) <> None -> map_get id (aborted (local_abort reason st (k, e))) <> None).
      { intros id Hid. cbn. rewrite settle_get. by destruct (map_get id (aborted st)). }
      split_and!; [done|by rewrite Hrun| |].
      * intros id Hid. by apply Hab, Hkeep.
      * intros rid e' He' Hp'. destruct (decide (rid = k)) as [->|Hne].
        { assert (e' = e) as -> by congruence. apply Hab. cbn. rewrite settle_get.
          destruct (map_get _ (aborted st)); [done|]. by rewrite decide_True. }
        apply (Hm rid); [|done]. cbn [local_abort localFlight fst]. rewrite map_get_del by apply Hi. by rewrite decide_False.
Qed.

Lemma fail_inv e st : local_inv st -> local_inv (fail_call e st).
Proof.
  intros [H1 H2 H3 H4 H5 H6 H7 H8]. split; cbn [fail_call localFlight localTimers aborted running localNext]; try done.
  intros id H. specialize (H4 id H). lia.
Qed.

Lemma start_inv call st :
  local_inv st -> (forall id c, map_get id (running st) = Some c -> requestId c <> requestId call) ->
  map_get (requestId call) (localFlight st) = None -> local_inv (start_call call st).
Proof.
  intros Hi Hfresh Hn. pose proof (l_ids st Hi (localNext st)) as Hid.
  assert (Hnew : map_get (localNext st) (running st) = None /\ map_get (localNext st) (localTimers st) = None /\
                 map_get (localNext st) (aborted st) = None).
  { split_and!; apply dec_stable; intros H; enough (localNext st < localNext st)%nat by lia; apply Hid; tauto. }
  destruct Hnew as (Hnr & Hnt & Hna). destruct Hi as [H1 H2 H3 H4 H5 H6 H7 H8].
  split; cbn [start_call localFlight localTimers aborted running localNext].
  - by apply map_set_ok.
  - rewrite <- map_set_absent by done. by apply map_set_ok.
  - rewrite <- map_set_absent by done. by apply map_set_ok.
  - intros id. rewrite <- !map_set_absent, !map_get_set by done. destruct (decide (localNext st = id)) as [<-|]; [lia|].
    intros H. specialize (H4 id H). lia.
  - intros id id' c c'. rewrite <- !map_set_absent, !map_get_set by done. repeat case_decide; try congruence.
    + intros [= <-] Hc' E. destruct (Hfresh _ _ Hc'). done.
    + intros Hc [= <-] E. by destruct (Hfresh _ _ Hc).
    + apply H5.
  - intros id c. rewrite <- !map_set_absent, map_get_set by done. case_decide as E.
    + intros [= <-] _. subst id. split; cbn; [by rewrite map_get_set, decide_True|]. by rewrite <- map_set_absent, map_get_set, decide_True.
    + intros Hc Ha. destruct (H6 id c Hc Ha) as [Hf Ht]. split; cbn; [|by rewrite <- map_set_absent, map_get_set, decide_False].
      rewrite map_get_set, decide_False; [done|]. intros E'. by destruct (Hfresh _ _ Hc).
  - intros rid e. rewrite map_get_set. case_decide as E.
    + intros [= <-]. exists call. rewrite <- map_set_absent, map_get_set, decide_True by done. by split_and!.
    + intros He. destruct (H7 _ _ He) as (c & Hc & Ha & Hr & Heq). exists c. split_and!; try done.
      rewrite <- map_set_absent, map_get_set, decide_False; [done| |done]. intros E'. rewrite <- E' in Hc. congruence.
  - intros id rid. rewrite <- map_set_absent, map_get_set by done. case_decide as E.
    + intros [= <-]. rewrite map_get_set, decide_True by done. by eexists.
    + intros (e & He & Hc)%H8. exists e. rewrite map_get_set, decide_False; [done|]. intros E'. rewrite <- E' in He. congruence.
Qed.

Lemma local_finish_inv id result st : local_inv st -> local_inv (localFinish id result st).
Proof.
  intros Hi. unfold localFinish. destruct (map_get id (running st)) as [call|] eqn:Ec; [|done].
  destruct Hi as [H1 H2 H3 H4 H5 H6 H7 H8].
  split; cbn [localFlight localTimers aborted running localNext]; unfold clearTimeout; try by apply map_del_ok.
  - intros k. rewrite !map_get_del by done. destruct (decide (id = k)); [|apply H4]. intros [?|[?|?]]; [done|done|]. apply H4. tauto.
  - intros k k' c c'. rewrite !map_get_del by done. repeat case_decide; try done. apply H5.
  - intros k c. rewrite map_get_del by done. case_decide as Hk; [done|]. intros Hc Ha. destruct (H6 k c Hc Ha) as [Hf Ht].
    split; cbn [localFlight localTimers]; rewrite map_get_del, decide_False; try done.
    intros E. apply Hk. by apply (H5 id k call c).
  - intros rid e. rewrite map_get_del by done. case_decide as Hr; [done|]. intros He.
    destruct (H7 _ _ He) as (c & Hc & Ha & Hr' & Heq). exists c. split_and!; try done.
    rewrite map_get_del, decide_False; [done| |done]. intros E. rewrite E in Ec. congruence.
  - intros k rid. rewrite map_get_del by done. case_decide as Hk; [done|]. intros (e & He & Hc)%H8. exists e. split; [|done].
    rewrite map_get_del, decide_False; [done| |done]. intros E. destruct (H7 _ _ He) as (c & Hrc & _ & Hrid & _).
    apply Hk. rewrite <- Hc. apply (H5 id (localController e) call c); congruence.
Qed.

Lemma local_deadline_inv id st :
  local_inv st -> local_inv (localDeadline id st) /\ running (localDeadline id st) = running st.
Proof.
  intros Hi. unfold localDeadline. destruct (map_get id (localTimers st)) as [rid|] eqn:Et; [|done].
  destruct (l_timer st Hi _ _ Et) as (e & He & Hc). cbn [localFlight]. rewrite He. split; [|done].
  pose proof (local_abort_inv (fun _ => error "OPERATION_DEADLINE" "call deadline exceeded while in flight") rid e st Hi He) as H.
  revert H. unfold local_abort. cbn [localFlight localRevocations localTimers aborted running localSettled localNext fst snd]. unfold clearTimeout.
  rewrite Hc, (map_del_absent id (map_del id (localTimers st))); [done|]. rewrite map_get_del by apply Hi. by rewrite decide_True.
Qed.

Lemma submit_inv now raw decision st : local_inv st -> fresh_call st raw -> local_inv (localSubmit now raw decision st).
Proof.
  intros Hi Hf. unfold localSubmit. destruct (readCall raw) as [call|] eqn:Er; [|by apply fail_inv].
  destruct (admission _ _ _); [by apply fail_inv|]. destruct decision as [[c d]|]; [by apply fail_inv|]. unfold map_has.
  destruct (map_get (requestId call) (localFlight st)) eqn:E; [by apply fail_inv|]. apply start_inv; [done|by apply Hf|done].
Qed.

Lemma local_step_inv st op : local_inv st -> fresh_op st op -> local_inv (local_step st op).
Proof.
  intros Hi Hf. destruct op as [now raw decision|now decoded decision|id result|id|plugin name reason|]; cbn [local_step fresh_op] in *.
  - by apply submit_inv.
  - unfold localSubmitOpaque. destruct (opaque_call decoded) as [raw|]; [|by apply fail_inv].
    destruct (assertBrokerCallShape raw); [by apply submit_inv|by apply fail_inv].
  - by apply local_finish_inv.
  - by apply local_deadline_inv.
  - unfold localRevoke. destruct (local_abort_matching _ _ _) as [st' n] eqn:E. eapply local_abort_matching_spec; [|exact E].
    destruct Hi. by split.
  - unfold localShutdown. destruct (local_abort_matching _ _ _) as [st' n] eqn:E. eapply local_abort_matching_spec; [exact Hi|exact E].
Qed.

Lemma local_reach_inv st : local_reach st -> local_inv st.
Proof.
  induction 1 as [|st op _ IH Hf]; [|by apply local_step_inv].
  split; cbn; try (by apply NoDup_nil); try done. intros id H. exfalso. naive_solver.
Qed.

Lemma localRevoke_spec plugin name reason st :
  local_inv st ->
  let st' := fst (localRevoke plugin name reason st) in
  running st' = running st /\ (forall id, map_get id (aborted st) <> None -> map_get id (aborted st') <> None) /\
  forall rid e, map_get rid (localFlight st) = Some e -> concerns plugin name (localPlugin e) (localCapability e) = true ->
    map_get (localController e) (aborted st') <> None.
Proof.
  intros Hi. unfold localRevoke. set (st1 := MkLocalState _ _ _ _ _ _ _). assert (Hi1 : local_inv st1) by (destruct Hi; by split).
  destruct (local_abort_matching _ _ st1) as [st' n] eqn:E.
  destruct (local_abort_matching_spec _ _ _ _ _ Hi1 E) as (_ & H1 & H2 & H3). by split_and!.
Qed.

Lemma localSubmit_running now raw decision st id c :
  local_inv st -> map_get id (running (localSubmit now raw decision st)) = Some c -> map_get id (running st) = Some c \/
  (readCall raw = Some c /\ decision = None /\ admission now (localRevocations st) c = None).
Proof.
  intros Hi. unfold localSubmit. destruct (readCall raw) as [call|]; [|by left]. destruct (admission _ _ _) eqn:Ea; [by left|].
  destruct decision as [[? ?]|]; [by left|]. destruct (map_has _ _); [by left|]. cbn [start_call running].
  destruct (map_get (localNext st) (running st)) eqn:En.
  { pose proof (l_ids st Hi (localNext st)) as H. rewrite En in H. assert (localNext st < localNext st)%nat by (apply H; by left). lia. }
  rewrite <- map_set_absent, map_get_set by done. case_decide; [intros [= <-]; right; done|by left].
Qed.

Lemma admission_spec now r call :
  admission now r call = None <-> (now <= deadlineAt call <= now + BROKER_MAX_DEADLINE_MS) /\
    callerPlugin call ∉ causalChain call /\ isRevoked r (callerPlugin call) (capability call) = false.
Proof.
  unfold admission. rewrite <- mem_elem.
  destruct (Z.ltb_spec (deadlineAt call) now); [split; [done|lia]|].
  destruct (Z.ltb_spec (now + BROKER_MAX_DEADLINE_MS) (deadlineAt call)); [split; [done|lia]|].
  destruct (mem _ _); [split; [done|tauto]|]. destruct (isRevoked _ _ _); [split; [done|]; intros (_ & _ & ?); done|].
  split; [|done]. intros _. split_and!; done || lia.
Qed.

(** C34: in the local core, as long as no request id is used again while
    the execution that had it runs: an execution starts only for a well-formed
    call that the policy allows, within the deadline cap, without a cycle of
    services and not revoked; an execution whose signal has not fired is in
    flight with an armed timer, so that its deadline, a revocation that concerns
    it, and a shutdown all fire the signal. *)
Theorem revocation_reaches_executions st :
  local_reach st ->
  (forall now raw decision id c, map_get id (running (localSubmit now raw decision st)) = Some c ->
     map_get id (running st) = Some c \/
     (readCall raw = Some c /\ decision = None /\ (now <= deadlineAt c <= now + BROKER_MAX_DEADLINE_MS) /\
      callerPlugin c ∉ causalChain c /\ isRevoked (localRevocations st) (callerPlugin c) (capability c) = false)) /\
  forall id c, map_get id (running st) = Some c ->
    (map_get id (aborted st) = None -> tracked st id c) /\
    (forall plugin name reason, concerns plugin name (callerPlugin c) (capability c) = true ->
       map_get id (aborted (fst (localRevoke plugin name reason st))) <> None) /\
    map_get id (aborted (localShutdown st)) <> None /\
    (map_get id (aborted st) = None -> map_get id (aborted (localDeadline id st)) <> None).
Proof.
  intros Hi%local_reach_inv. split.
  - intros now raw decision id c H. apply localSubmit_running in H as [H|(Hr & Hd & Ha)]; [by left| |done]. right.
    apply admission_spec in Ha. tauto.
  - intros id c Hc. split_and!.
    + by apply (l_tracked st Hi).
    + intros plugin name reason Hp. destruct (localRevoke_spec plugin name reason st Hi) as (_ & Hk & Hm).
      destruct (map_get id (aborted st)) eqn:Ea; [apply Hk; by rewrite Ea|]. destruct (l_tracked st Hi id c Hc Ea) as [Hf _].
      apply (Hm _ _ Hf). done.
    + unfold localShutdown. destruct (local_abort_matching _ _ st) as [st' n] eqn:E. cbn [fst].
      destruct (local_abort_matching_spec _ _ _ _ _ Hi E) as (_ & _ & Hk & Hm).
      destruct (map_get id (aborted st)) eqn:Ea; [apply Hk; by rewrite Ea|]. destruct (l_tracked st Hi id c Hc Ea) as [Hf _].
      by apply (Hm _ _ Hf).
    + intros Ea. destruct (l_tracked st Hi id c Hc Ea) as [Hf Ht]. unfold localDeadline. rewrite Ht. cbn [localFlight]. rewrite Hf.
      cbn. rewrite settle_get, Ea. by rewrite decide_True.
Qed.
End Local.
End Cores.

(** ** The gateway *)

Definition PLUGIN_RUNTIME_MAX_DATA_PAYLOAD_BYTES : Z := 256 * 1024 * 1024.

(** What a bridge message leads to: nothing, an immediate failure, or a call of
    the core whose promise is answered when it settles. *)
Inductive BridgeAction :=
| NotConsumed
| Reply (rid : string) (failure : BrokerCallError)
| CallCore (call : BrokerCallRequest)
| CallCoreOpaque (call : BrokerCallRequest).

Definition kind_is (message : list (string * Value)) (k : string) : bool :=
  match field "kind" message with Some (VStr s) => String.eqb s k | _ => false end.

(** The failures that the gateway makes of an [Error] whose message it replaces. *)
Definition gateway_failure (message : string) : BrokerCallError := toBrokerError (PlainError message).

(** [isRpcRequestData]; [payload] is the length of [payloadBytes] when that is a
    [Uint8Array].  Entries of the chain that are no strings equal no plugin id. *)
Definition readRequestData (message : list (string * Value)) (payload : option Z) : option (BrokerCallRequest * Z) :=
  match long_string (field "requestId" message) 8, long_string (field "pluginId" message) 1,
        long_string (field "capabilityName" message) 1, field "causalChain" message, field "deadlineAt" message, payload with
  | Some rid, Some plugin, Some cap, Some (VArr chain), Some (VNum d), Some n =>
      if kind_is message "rpc-request-data"
      then Some (MkCall rid d plugin cap (concat (map (fun v => match v with VStr s => [s] | _ => [] end) chain)), n) else None
  | _, _, _, _, _, _ => None
  end.

Definition handleBridgeMessage (message : Value) (payload : option Z) : BridgeAction :=
  match message with
  | VObj m =>
      match readRequestData m payload with
      | Some (call, n) =>
          if PLUGIN_RUNTIME_MAX_DATA_PAYLOAD_BYTES <? n
          then Reply (requestId call) (gateway_failure "data-pipe call payload too large")
          else CallCoreOpaque call
      | None =>
          if kind_is m "rpc-request" then
            match field "call" m with
            | Some v =>
                match readCall v with
                | Some call => CallCore call
                | None => Reply (match v with VObj c => match field "requestId" c with Some (VStr s) => s | _ => "invalid-call"%string end
                                 | _ => "invalid-call"%string end)
                            (gateway_failure "malformed broker call envelope")
                end
            | None => Reply "invalid-call" (gateway_failure "malformed broker call envelope")
            end
          else NotConsumed
      end
  | _ => NotConsumed
  end.

(** The answer when the promise of the core settles. *)
Definition answer_of {V} (s : outcome Thrown V) : outcome BrokerCallError V :=
  match s with Ok v => Ok v | Throw t => Throw (toBrokerError t) end.

(** Every failure that the gateway itself makes has the code [INTERNAL]: the
    code it puts into the error is overwritten with the message. *)
Theorem gateway_code_lost message payload rid e :
  handleBridgeMessage message payload = Reply rid e -> ecode e = "INTERNAL"%string.
Proof.
  unfold handleBridgeMessage. destruct message as [| | | | | | |m]; try done. destruct (readRequestData m payload) as [[call n]|].
  - destruct (_ <? n); [|done]. by intros [= <- <-].
  - destruct (kind_is m "rpc-request"); [|done]. destruct (field "call" m) as [v|]; [|by intros [= <- <-]].
    destruct (readCall v); [done|]. by intros [= <- <-].
Qed.

(** ** Two calls with one request id *)

Definition sample_call (rid cap : string) : Value := VObj
  [("requestId", VStr rid); ("method", VStr "call"); ("deadlineAt", VNum 5000);
   ("caller", VObj [("pluginId", VStr "notes"); ("installationId", VStr "i1"); ("trustLevel", VStr "sandbox")]);
   ("capability", VObj [("name", VStr cap)]); ("causalChain", VArr [])]%string.

(** The first call is revoked while it runs; a second call takes its request id; the
    first settles. *)
Definition reuse_ops : list (LocalOp (V := Z)) :=
  [LocalSubmit 0 (sample_call "request-1" "files") None; LocalRevoke "notes" (Some "files"%string) None;
   LocalSubmit 0 (sample_call "request-1" "net") None; LocalFinish 0 (Ok 1)].

(** Then the second call runs, and neither a revocation, nor its deadline, nor a
    shutdown fires its signal. *)
Theorem request_id_reuse :
  let st := fold_left local_step reuse_ops local_initial in
  map_get 1%nat (running st) = readCall (sample_call "request-1" "net") /\
  map_get 1%nat (aborted (localDeadline 1 (localShutdown (fst (localRevoke "notes" None None st))))) = None.
Proof. by split. Qed.

Lemma revocation_reaches_executions_witness :
  exists c, map_get 0%nat (running (local_step local_initial (LocalSubmit (V := Z) 0 (sample_call "request-1" "files") None))) = Some c /\
    map_get 0%nat (aborted (localShutdown (local_step local_initial (LocalSubmit (V := Z) 0 (sample_call "request-1" "files") None)))) <> None.
Proof.
  exists (MkCall "request-1" 5000 "notes" "files" []). split; [vm_compute; reflexivity|].
  apply (revocation_reaches_executions (V := Z) (local_step local_initial (LocalSubmit 0 (sample_call "request-1" "files") None)))
    with (c := MkCall "request-1" 5000 "notes" "files" []); [|vm_compute; reflexivity].
  apply local_next; [apply local_start|]. intros call _ id c H. discriminate H.
Defined.

(** Two calls wait for the host; one is answered, the plugin of the other is revoked. *)
Definition sample_ops : list (Op (V := Z)) :=
  [Submit 0 (MkCall "request-1" 5000 "notes" "files" []) (MkWorker 1 1); Submit 0 (MkCall "request-2" 5000 "maps" "net" []) (MkWorker 1 1);
   Response (MkResponse "request-2" (MkWorker 1 1) (RpcOk 7)); Revoke "notes" None None].

Lemma forwarding_tracks_calls_witness :
  (forall id, (id < 2)%nat -> map_get id (settled (shutdown (run 8 true sample_ops))) <> None) /\
  map_get 1%nat (settled (run 8 true sample_ops)) = Some (Ok 7).
Proof.
  split; [|vm_compute; reflexivity].
  apply (forwarding_tracks_calls (V := Z) 8 true sample_ops). repeat constructor.
Defined.
End Broker.
