(* ===== verification/Supervisor.v ===== *)
(** * The supervisor of plugin workers
    (apps/plugin-runtime/src: supervisor.ts, emergencyLimits.ts)

    The plugin runtime keeps one worker thread per plugin.  A record is known by
    the number of its spawn, which stands for the identity of the object, of its
    thread and of its port: the handlers of a thread keep the record after it has
    left the table.  One turn of the event loop is one operation. *)

From Stdlib Require Import ZArith Lia Bool Ascii String List.
From stdpp Require Import base decidable list sets.
From S2P Require Import Prelude.
Local Open Scope Z_scope.

(** ** The emergency ceiling of a heap *)

Module EmergencyLimits.

Definition MIB : Z := 1024 * 1024.
Definition EMERGENCY_MIN_OLD_GEN_MB : Z := 256.
Definition EMERGENCY_MAX_OLD_GEN_MB : Z := 4 * 1024.
Definition EMERGENCY_MAX_YOUNG_GEN_MB : Z := 512.
Definition EMERGENCY_MIN_YOUNG_GEN_MB : Z := 64.

(** Sizes are bytes.  The code treats a hint, an override or an explicit limit that
    is no integer like one that is absent: [None]. *)
Record EmergencyLimitInputs := MkInputs {
  totalMemory : Z;
  freeMemory : Z;
  runtimeRss : Z;
  activeWorkerCount : Z;
  memoryHintMiB : option Z;
  maxHeapOverrideMiB : option Z
}.

Record EmergencyLimits := MkLimits { maxOldGenerationSizeMb : Z; maxYoungGenerationSizeMb : Z }.

Definition clamp (value min max : Z) : Z := Z.min max (Z.max min value).

(** [Math.floor(oldGenMb * 0.25)], clamped *)
Definition youngGenFor (oldGenMb : Z) : Z := clamp (oldGenMb / 4) EMERGENCY_MIN_YOUNG_GEN_MB EMERGENCY_MAX_YOUNG_GEN_MB.

(** One MiB in quarters of a byte, the unit in which three quarters of the free
    memory are whole. *)
Definition MIB4 : Z := 4 * MIB.

Definition headroom4 (i : EmergencyLimitInputs) : Z :=
  Z.max 0 (3 * Z.max 0 (freeMemory i) - 4 * Z.max 0 (runtimeRss i)
           - Z.max 0 (activeWorkerCount i) * EMERGENCY_MIN_OLD_GEN_MB * MIB4).

(** [Math.round] of a size in quarters of a byte, in MiB. *)
Definition round_mib (q : Z) : Z := (2 * q + MIB4) / (2 * MIB4).

Definition computeEmergencyLimits (i : EmergencyLimitInputs) : EmergencyLimits :=
  let from_headroom :=
    let hintMb := match memoryHintMiB i with Some h => Z.max 0 h | None => 0 end in
    let ceiling4 := clamp (Z.max (headroom4 i) (hintMb * MIB4)) (EMERGENCY_MIN_OLD_GEN_MB * MIB4) (EMERGENCY_MAX_OLD_GEN_MB * MIB4) in
    MkLimits (round_mib ceiling4) (youngGenFor (round_mib ceiling4)) in
  match maxHeapOverrideMiB i with
  | Some o =>
      if 0 <? o then
        let oldGenMb := clamp o EMERGENCY_MIN_OLD_GEN_MB EMERGENCY_MAX_OLD_GEN_MB in
        MkLimits oldGenMb (youngGenFor oldGenMb)
      else from_headroom
  | None => from_headroom
  end.

Definition resolveEmergencyLimits (explicitOldGenMb explicitYoungGenMb : option Z) (staticLimits : option EmergencyLimits)
    (i : EmergencyLimitInputs) : EmergencyLimits :=
  match explicitOldGenMb with
  | Some e =>
      let oldGenMb := clamp e EMERGENCY_MIN_OLD_GEN_MB EMERGENCY_MAX_OLD_GEN_MB in
      MkLimits oldGenMb
        (match explicitYoungGenMb with
         | Some y => clamp y EMERGENCY_MIN_YOUNG_GEN_MB EMERGENCY_MAX_YOUNG_GEN_MB
         | None => youngGenFor oldGenMb
         end)
  | None => match staticLimits with Some s => s | None => computeEmergencyLimits i end
  end.

(** Every ceiling that is computed or given for one spawn lies within the bounds. *)
Definition within (l : EmergencyLimits) : Prop :=
  EMERGENCY_MIN_OLD_GEN_MB <= maxOldGenerationSizeMb l <= EMERGENCY_MAX_OLD_GEN_MB /\
  EMERGENCY_MIN_YOUNG_GEN_MB <= maxYoungGenerationSizeMb l <= EMERGENCY_MAX_YOUNG_GEN_MB.

Lemma clamp_within v a b : a <= b -> a <= clamp v a b <= b.
Proof. unfold clamp. lia. Qed.

Lemma round_within q a b : a * MIB4 <= q <= b * MIB4 -> a <= round_mib q <= b.
Proof.
  intros H. unfold round_mib, MIB4, MIB in *. split.
  - apply Z.div_le_lower_bound; lia.
  - apply Z.lt_succ_r, Z.div_lt_upper_bound; lia.
Qed.

Lemma compute_within i : within (computeEmergencyLimits i).
Proof.
  assert (Y : forall o, EMERGENCY_MIN_YOUNG_GEN_MB <= youngGenFor o <= EMERGENCY_MAX_YOUNG_GEN_MB) by (intros o; by apply clamp_within).
  unfold computeEmergencyLimits. cbn zeta.
  set (q := clamp (Z.max _ _) _ _).
  assert (Q : EMERGENCY_MIN_OLD_GEN_MB <= round_mib q <= EMERGENCY_MAX_OLD_GEN_MB) by (apply round_within; by apply clamp_within).
  clearbody q. repeat case_match; (split; [|apply Y]); cbn [maxOldGenerationSizeMb]; (done || by apply clamp_within).
Qed.

(** The ceiling of a worker that is not configured for the whole
    supervisor lies between 256 and 4096 MiB of old and between 64 and 512 MiB of
    young space; an override decides alone; without one the ceiling grows with the
    free memory and with the hint and shrinks with every live worker. *)
Theorem emergency_limits_bounded i :
  (forall eo ey, within (resolveEmergencyLimits eo ey None i)) /\
  (forall o free rss n hint, maxHeapOverrideMiB i = Some o -> 0 < o ->
     computeEmergencyLimits (MkInputs (totalMemory i) free rss n hint (Some o)) = computeEmergencyLimits i) /\
  (forall free n hint, freeMemory i <= free -> n <= activeWorkerCount i ->
     match memoryHintMiB i, hint with Some h, Some h' => h <= h' | Some h, None => h <= 0 | None, _ => True end ->
     maxOldGenerationSizeMb (computeEmergencyLimits i) <=
     maxOldGenerationSizeMb (computeEmergencyLimits (MkInputs (totalMemory i) free (runtimeRss i) n hint (maxHeapOverrideMiB i)))).
Proof.
  split_and!.
  - intros eo ey. unfold resolveEmergencyLimits. destruct eo as [e|]; [|apply compute_within].
    split; cbn [maxOldGenerationSizeMb maxYoungGenerationSizeMb]; [by apply clamp_within|].
    destruct ey; by apply clamp_within.
  - intros o free rss n hint E Ho. unfold computeEmergencyLimits. cbn [maxHeapOverrideMiB]. rewrite E.
    by rewrite (proj2 (Z.ltb_lt _ _) Ho).
  - intros free n hint Hf Hn Hh. unfold computeEmergencyLimits. cbn [maxHeapOverrideMiB memoryHintMiB]. cbn zeta.
    set (a := clamp _ _ _). set (b := clamp _ _ _).
    assert (L : a <= b).
    { unfold a, b, clamp, headroom4, MIB4, MIB, EMERGENCY_MIN_OLD_GEN_MB. cbn [freeMemory runtimeRss activeWorkerCount].
      apply Z.min_le_compat_l, Z.max_le_compat_l, Z.max_le_compat; [lia|].
      apply Z.mul_le_mono_nonneg_r; [done|]. destruct (memoryHintMiB i), hint; lia. }
    assert (R : round_mib a <= round_mib b) by (unfold round_mib; apply Z.div_le_mono; unfold MIB4, MIB; lia).
    clearbody a b. destruct (maxHeapOverrideMiB i) as [o|]; [destruct (0 <? o)|]; cbn [maxOldGenerationSizeMb]; lia.
Qed.

(** A hint raises the ceiling also when there is no headroom at all. *)
Example hint_without_headroom :
  computeEmergencyLimits (MkInputs (16 * 1024 * MIB) 0 (900 * MIB) 40 (Some 4096) None) = MkLimits 4096 512.
Proof. reflexivity. Qed.

End EmergencyLimits.

Module Supervisor.
Export EmergencyLimits.

(** ** Records *)

Definition TERMINATE_GRACE_MS : Z := 1500.

Inductive TrustLevel := TrustSandbox | TrustExtended | TrustTrusted.
Inductive WorkerState := Starting | Ready | Terminating | Terminated.
#[export] Instance WorkerState_eq_dec : EqDecision WorkerState.
Proof. solve_decision. Defined.

Record SpawnWorkerOptions := MkOptions {
  optWorkerId : Z;
  optPluginId : string;
  optInstallationId : string;
  optTrustLevel : option TrustLevel;
  optOldGenMb : option Z;
  optYoungGenMb : option Z;
  optMemoryHintMiB : option Z;
  optMaxHeapOverrideMiB : option Z
}.

(** [limits] are the resource limits of the thread, [killed] says that
    [thread.terminate()] was called, [exited] that the thread has ended and the
    port is closed. *)
Record WorkerRecord := MkRecord {
  workerId : Z;
  workerEpoch : Z;
  pluginId : string;
  installationId : string;
  trustLevel : TrustLevel;
  limits : EmergencyLimits;
  state : WorkerState;
  startedAt : Z;
  killed : bool;
  exited : bool
}.

Definition with_state (st : WorkerState) (r : WorkerRecord) : WorkerRecord :=
  MkRecord (workerId r) (workerEpoch r) (pluginId r) (installationId r) (trustLevel r) (limits r) st (startedAt r) (killed r) (exited r).
Definition kill (r : WorkerRecord) : WorkerRecord :=
  MkRecord (workerId r) (workerEpoch r) (pluginId r) (installationId r) (trustLevel r) (limits r) (state r) (startedAt r) true (exited r).
Definition exit (r : WorkerRecord) : WorkerRecord :=
  MkRecord (workerId r) (workerEpoch r) (pluginId r) (installationId r) (trustLevel r) (limits r) Terminated (startedAt r) (killed r) true.

(** What the supervisor does to the outside: messages to a worker, orders to a
    thread, and the callbacks of its listener. *)
Inductive Event :=
| TerminatePosted (o : nat) (reason : option string)
| KilledAfterAck (o : nat)
| KilledAfterGrace (o : nat)
| WorkerReady (o : nat) (message : list (string * Value))
| WorkerLog (o : nat) (message : list (string * Value))
| BridgeMessage (o : nat) (message : Value)
| WorkerError (o : nat)
| WorkerExit (o : nat) (exitCode : option Z).

(** A call of [terminateWorker]: it sleeps for the grace window, waits for the exit
    of the thread, or is settled; [None] when there was nothing to terminate. *)
Inductive Call :=
| Grace (o : nat)
| Exiting (o : nat)
| Settled (o : option nat).

Record Supervisor := MkSupervisor {
  heap : list WorkerRecord;
  records : list (Z * nat);
  workerEpochs : list (Z * Z);
  staticLimits : option EmergencyLimits;
  workerRestarts : Z;
  calls : list Call;
  events : list Event
}.

(** [new WorkerSupervisor(listener, options)] *)
Definition new_supervisor (maxOld maxYoung : option Z) : Supervisor :=
  MkSupervisor [] [] []
    (match maxOld with
     | Some old => Some (MkLimits old (match maxYoung with Some y => y | None => old / 4 end))
     | None => None
     end) 0 [] [].

Definition set_heap (h : list WorkerRecord) (s : Supervisor) : Supervisor :=
  MkSupervisor h (records s) (workerEpochs s) (staticLimits s) (workerRestarts s) (calls s) (events s).
Definition set_calls (c : list Call) (s : Supervisor) : Supervisor :=
  MkSupervisor (heap s) (records s) (workerEpochs s) (staticLimits s) (workerRestarts s) c (events s).
Definition emit (e : Event) (s : Supervisor) : Supervisor :=
  MkSupervisor (heap s) (records s) (workerEpochs s) (staticLimits s) (workerRestarts s) (calls s) (events s ++ [e]).

(** An assignment to a record. *)
Definition update (o : nat) (f : WorkerRecord -> WorkerRecord) (s : Supervisor) : Supervisor :=
  match heap s !! o with
  | Some r => set_heap (<[o := f r]> (heap s)) s
  | None => s
  end.

Definition object_of (id : Z) (s : Supervisor) : option (nat * WorkerRecord) :=
  match map_get id (records s) with
  | Some o => match heap s !! o with Some r => Some (o, r) | None => None end
  | None => None
  end.

Definition getRecord (id : Z) (s : Supervisor) : option WorkerRecord := snd <$> object_of id s.

(** ** Spawning *)

Definition spawnWorker (opt : SpawnWorkerOptions) (total free rss now : Z) (s : Supervisor) : outcome string Supervisor :=
  if map_has (optWorkerId opt) (records s) then Throw "worker is already registered"%string
  else
    let epoch := match map_get (optWorkerId opt) (workerEpochs s) with Some e => e | None => 0 end + 1 in
    let lim := resolveEmergencyLimits (optOldGenMb opt) (optYoungGenMb opt) (staticLimits s)
                 (MkInputs total free rss (Z.of_nat (length (records s))) (optMemoryHintMiB opt) (optMaxHeapOverrideMiB opt)) in
    let trust := match optTrustLevel opt with Some t => t | None => TrustSandbox end in
    let r := MkRecord (optWorkerId opt) epoch (optPluginId opt) (optInstallationId opt) trust lim Starting now false false in
    Ok (MkSupervisor (heap s ++ [r]) (map_set (optWorkerId opt) (length (heap s)) (records s))
          (map_set (optWorkerId opt) epoch (workerEpochs s)) (staticLimits s) (workerRestarts s) (calls s) (events s)).

(** ** Messages of a worker *)

Definition is_number (v : option Value) : bool := match v with Some (VNum _) | Some VNonFinite => true | _ => false end.
Definition is_string (v : option Value) : bool := match v with Some (VStr _) => true | _ => false end.
Definition is_boolean (v : option Value) : bool := match v with Some (VBool _) => true | _ => false end.
Definition is_object (v : option Value) : bool := match v with Some (VObj _) | Some (VArr _) => true | _ => false end.
Definition is_kind (k : string) (o : list (string * Value)) : bool :=
  match field "kind" o with Some (VStr s) => String.eqb s k | _ => false end.

Definition isHardenedReady (o : list (string * Value)) : bool :=
  is_kind "hardened-ready" o && is_number (field "workerId" o) && is_number (field "workerEpoch" o) &&
  is_number (field "lockdownMs" o) && is_number (field "compartmentMs" o) && is_number (field "bootstrapMs" o) &&
  is_boolean (field "noNodeAuthority" o) && is_object (field "probe" o).

Definition isTerminateAck (o : list (string * Value)) : bool :=
  is_kind "terminate-ack" o && is_number (field "workerId" o) && is_number (field "workerEpoch" o).

Definition isLogEntry (o : list (string * Value)) : bool :=
  is_kind "log" o && is_number (field "workerId" o) && is_number (field "workerEpoch" o) &&
  is_string (field "level" o) && is_string (field "message" o) && is_number (field "at" o).

(** [value === n] for a number [n] of the record. *)
Definition same_number (v : option Value) (n : Z) : bool := match v with Some (VNum m) => m =? n | _ => false end.

Definition matchesEpoch (r : WorkerRecord) (o : list (string * Value)) : bool :=
  same_number (field "workerId" o) (workerId r) && same_number (field "workerEpoch" o) (workerEpoch r).

Definition handleHardenedReady (o : nat) (r : WorkerRecord) (m : list (string * Value)) (s : Supervisor) : Supervisor :=
  if negb (matchesEpoch r m) then s else emit (WorkerReady o m) (update o (with_state Ready) s).

(** The message handler of a port. *)
Definition onMessage (o : nat) (r : WorkerRecord) (message : Value) (s : Supervisor) : Supervisor :=
  match message with
  | VObj m =>
      if isHardenedReady m then handleHardenedReady o r m s
      else if isLogEntry m then (if matchesEpoch r m then emit (WorkerLog o m) s else s)
      else if isTerminateAck m then
        if bool_decide (state r = Terminating) && matchesEpoch r m
        then emit (KilledAfterAck o) (update o (fun r => kill (with_state Terminated r)) s)
        else s
      else emit (BridgeMessage o message) s
  | _ => emit (BridgeMessage o message) s
  end.

(** The exit handler of a thread; calls that wait for the exit are settled by it. *)
Definition settle (o : nat) (c : Call) : Call :=
  match c with Exiting p => if (p =? o)%nat then Settled (Some o) else c | _ => c end.

Definition onExit (o : nat) (r : WorkerRecord) (exitCode : option Z) (s : Supervisor) : Supervisor :=
  let unexpected := negb (bool_decide (state r = Terminated)) in
  MkSupervisor (<[o := exit r]> (heap s)) (map_del (workerId r) (records s)) (workerEpochs s) (staticLimits s)
    (workerRestarts s + if unexpected then 1 else 0) (map (settle o) (calls s)) (events s ++ [WorkerExit o exitCode]).

(** ** Termination in two phases *)

(** Up to the sleep.  [portAlive]: [postMessage] does not throw. *)
Definition terminateWorker (id : Z) (reason : option string) (portAlive : bool) (s : Supervisor) : Supervisor :=
  match object_of id s with
  | None => set_calls (calls s ++ [Settled None]) s
  | Some (o, r) =>
      match state r with
      | Terminated | Terminating => set_calls (calls s ++ [Settled None]) s
      | _ =>
          let s := update o (with_state Terminating) s in
          let s := if portAlive then emit (TerminatePosted o reason) s else s in
          set_calls (calls s ++ [Grace o]) s
      end
  end.

(** [Promise.all([...records.keys()].map(terminateWorker))]: every call runs up to
    its sleep. *)
Definition terminateAll (reason : option string) (portAlive : nat -> bool) (s : Supervisor) : Supervisor :=
  fold_left (fun s (ko : Z * nat) => terminateWorker (fst ko) reason (portAlive (snd ko)) s) (records s) s.

(** Call [k] wakes up. *)
Definition afterGrace (k : nat) (s : Supervisor) : Supervisor :=
  match calls s !! k with
  | Some (Grace o) =>
      match heap s !! o with
      | Some r =>
          if bool_decide (state r = Terminated) then set_calls (<[k := Settled (Some o)]> (calls s)) s
          else emit (KilledAfterGrace o) (set_calls (<[k := Exiting o]> (calls s)) (update o kill s))
      | None => s
      end
  | _ => s
  end.

Record SupervisorStats := MkStats { workerCount : Z; readyCount : Z; startingCount : Z; terminatingCount : Z; restarts : Z }.

Definition registered (s : Supervisor) : list WorkerRecord := omap (fun ko : Z * nat => heap s !! snd ko) (records s).
Definition count_state (st : WorkerState) (s : Supervisor) : Z :=
  Z.of_nat (length (List.filter (fun r => bool_decide (state r = st)) (registered s))).

Definition stats (s : Supervisor) : SupervisorStats :=
  MkStats (Z.of_nat (length (records s))) (count_state Ready s) (count_state Starting s) (count_state Terminating s) (workerRestarts s).

(** ** Runs *)

Inductive Op :=
| OpSpawn (opt : SpawnWorkerOptions) (total free rss now : Z)
| OpTerminate (id : Z) (reason : option string) (portAlive : bool)
| OpTerminateAll (reason : option string) (portAlive : nat -> bool)
| OpMessage (o : nat) (message : Value)
| OpError (o : nat)
| OpExit (o : nat) (exitCode : option Z)
| OpGrace (k : nat).

(** A thread exits once, and nothing comes over a port that is closed. *)
Definition live (o : nat) (s : Supervisor) : option WorkerRecord :=
  match heap s !! o with Some r => if exited r then None else Some r | None => None end.

Definition step (s : Supervisor) (op : Op) : Supervisor :=
  match op with
  | OpSpawn opt total free rss now => match spawnWorker opt total free rss now s with Ok s' => s' | Throw _ => s end
  | OpTerminate id reason alive => terminateWorker id reason alive s
  | OpTerminateAll reason alive => terminateAll reason alive s
  | OpMessage o m => match live o s with Some r => onMessage o r m s | None => s end
  | OpError o => match live o s with Some _ => emit (WorkerError o) s | None => s end
  | OpExit o c => match live o s with Some r => onExit o r c s | None => s end
  | OpGrace k => afterGrace k s
  end.

Definition run (s : Supervisor) (ops : list Op) : Supervisor := fold_left step ops s.

(** ** The table of workers *)

Definition ident (r : WorkerRecord) : Z * Z * bool := (workerId r, workerEpoch r, exited r).

(** One live worker per id, under its id; epochs count up and are never used twice. *)
Record registry (ids : list (Z * Z * bool)) (tbl : list (Z * nat)) (epochs : list (Z * Z)) : Prop := {
  reg_keys : map_ok tbl;
  reg_entry : forall id o, map_get id tbl = Some o -> exists e, ids !! o = Some (id, e, false);
  reg_live : forall o id e, ids !! o = Some (id, e, false) -> map_get id tbl = Some o;
  reg_counts : forall id m, map_get id epochs = Some m -> 1 <= m;
  reg_epoch : forall o id e b, ids !! o = Some (id, e, b) -> exists m, map_get id epochs = Some m /\ 1 <= e <= m;
  reg_order : forall o o' id e e' b b', (o < o')%nat -> ids !! o = Some (id, e, b) -> ids !! o' = Some (id, e', b') -> e < e'
}.

Definition registry_of (s : Supervisor) : Prop := registry (map ident (heap s)) (records s) (workerEpochs s).

Lemma registry_spawn ids tbl epochs id :
  registry ids tbl epochs -> map_get id tbl = None ->
  let e := match map_get id epochs with Some e => e | None => 0 end + 1 in
  registry (ids ++ [(id, e, false)]) (map_set id (length ids) tbl) (map_set id e epochs).
Proof.
  intros H Hid e. assert (E : forall o e' b, ids !! o = Some (id, e', b) -> 1 <= e' < e).
  { intros o e' b Ho. destruct (reg_epoch _ _ _ H _ _ _ _ Ho) as (m & Em & B). unfold e. rewrite Em. lia. }
  assert (E1 : 1 <= e).
  { unfold e. destruct (map_get id epochs) as [m|] eqn:Em; [|lia]. pose proof (reg_counts _ _ _ H _ _ Em). lia. }
  constructor.
  - by apply map_set_ok, H.
  - intros id' o. rewrite map_get_set. case_decide as D.
    + intros [= <-]. subst. exists e. by rewrite lookup_app_r, Nat.sub_diag.
    + intros Ho. destruct (reg_entry _ _ _ H _ _ Ho) as (e' & E'). exists e'. by apply lookup_app_l_Some.
  - intros o id' e' [[L Ho]|[-> [= <- <-]]]%lookup_snoc_Some; rewrite map_get_set; [|by rewrite decide_True].
    pose proof (reg_live _ _ _ H _ _ _ Ho) as G. case_decide as D; [|done]. subst. congruence.
  - intros id' m. rewrite map_get_set. case_decide; [by intros [= <-]|]. apply H.
  - intros o id' e' b [[L Ho]|[-> [= <- <- <-]]]%lookup_snoc_Some; rewrite map_get_set; [|by rewrite decide_True; eauto with lia].
    destruct (reg_epoch _ _ _ H _ _ _ _ Ho) as (m & Em & B). case_decide as D; [|by exists m].
    subst. exists e. split; [done|]. specialize (E _ _ _ Ho). lia.
  - intros o o' id' x x' b b' L [[L1 Ho]|[-> E2]]%lookup_snoc_Some [[L2 Ho']|[-> E3]]%lookup_snoc_Some; simplify_eq; try lia.
    + eapply (reg_order _ _ _ H o o'); eauto.
    + specialize (E _ _ _ Ho). lia.
Qed.

Lemma registry_exit ids tbl epochs o id e :
  registry ids tbl epochs -> ids !! o = Some (id, e, false) ->
  registry (<[o := (id, e, true)]> ids) (map_del id tbl) epochs.
Proof.
  intros H Ho. assert (K : map_ok tbl) by apply H.
  assert (L : forall o' x, <[o := (id, e, true)]> ids !! o' = Some x ->
    (o' = o /\ x = (id, e, true)) \/ (o' <> o /\ ids !! o' = Some x)).
  { intros o' x. rewrite list_lookup_insert_Some. intros [(-> & <- & _)|[? ?]]; [by left|by right]. }
  constructor.
  - by apply map_del_ok.
  - intros id' o'. rewrite map_get_del by done. case_decide as D; [done|]. intros Ho'.
    destruct (reg_entry _ _ _ H _ _ Ho') as (e' & E'). exists e'. rewrite list_lookup_insert_ne; [done|]. intros ->. congruence.
  - intros o' id' e' Ho'. rewrite map_get_del by done. destruct (L _ _ Ho') as [[-> [= ]]|[N Ho'']].
    pose proof (reg_live _ _ _ H _ _ _ Ho''). pose proof (reg_live _ _ _ H _ _ _ Ho). case_decide; [congruence|done].
  - apply H.
  - intros o' id' e' b Ho'. destruct (L _ _ Ho') as [[-> [= -> -> ->]]|[N Ho'']]; eapply (reg_epoch _ _ _ H); eauto.
  - intros o1 o2 id' x x' b b' Lt H1 H2.
    destruct (L _ _ H1) as [[-> E1]|[N1 H1']], (L _ _ H2) as [[-> E2]|[N2 H2']]; simplify_eq; try lia;
      eapply (reg_order _ _ _ H); eauto.
Qed.

(** Only spawns and exits change what the table depends on. *)
Definition same_table (s s' : Supervisor) : Prop :=
  map ident (heap s') = map ident (heap s) /\ records s' = records s /\ workerEpochs s' = workerEpochs s /\
  workerRestarts s' = workerRestarts s.

Lemma same_table_trans s s' s'' : same_table s s' -> same_table s' s'' -> same_table s s''.
Proof. unfold same_table. intuition congruence. Qed.

Lemma update_table o f s : (forall r, ident (f r) = ident r) -> same_table s (update o f s).
Proof.
  intros Hf. unfold update. destruct (heap s !! o) as [r|] eqn:E; [|done]. split; [|done]. cbn [set_heap heap].
  rewrite <-!list_fmap_map, list_fmap_insert, list_insert_id; [done|]. rewrite Hf, list_lookup_fmap, E. done.
Qed.

Lemma message_table o r m s : same_table s (onMessage o r m s).
Proof.
  unfold onMessage, handleHardenedReady. repeat case_match; try done; by apply update_table.
Qed.

Lemma terminate_table id reason b s : same_table s (terminateWorker id reason b s).
Proof.
  unfold terminateWorker. destruct (object_of id s) as [[o r]|]; [|done].
  destruct (state r); try done; destruct b; by apply (update_table o (with_state Terminating)).
Qed.

Lemma terminate_all_table reason f s : same_table s (terminateAll reason f s).
Proof.
  unfold terminateAll. generalize (records s). intros l. revert s. induction l as [|x l IH]; intros s; [done|].
  cbn [fold_left]. eapply same_table_trans; [apply terminate_table|apply IH].
Qed.

Lemma grace_table k s : same_table s (afterGrace k s).
Proof. unfold afterGrace. repeat case_match; try done; by apply update_table. Qed.

Lemma same_table_registry s s' : same_table s s' -> registry_of s -> registry_of s'.
Proof. unfold registry_of. by intros (-> & -> & -> & _). Qed.

Lemma live_spec o s r : live o s = Some r <-> heap s !! o = Some r /\ exited r = false.
Proof.
  unfold live. destruct (heap s !! o) as [r'|]; [|by split; [|intros [? _]]]. destruct (exited r') eqn:E; split.
  - done.
  - intros [[= <-] ?]. congruence.
  - by intros [= <-].
  - by intros [[= <-] _].
Qed.

Lemma ident_lookup s o r : heap s !! o = Some r -> map ident (heap s) !! o = Some (ident r).
Proof. intros H. rewrite <-list_fmap_map, list_lookup_fmap, H. done. Qed.

Lemma step_registry s op : registry_of s -> registry_of (step s op).
Proof.
  intros H. destruct op as [opt total free rss now|id reason b|reason f|o m|o|o c|k]; cbn [step].
  - unfold spawnWorker, map_has. destruct (map_get (optWorkerId opt) (records s)) as [?|] eqn:E; cbn; [done|].
    unfold registry_of. cbn [heap records workerEpochs]. rewrite map_app. cbn [map].
    replace (length (heap s)) with (length (map ident (heap s))) by apply length_map. by apply registry_spawn.
  - eapply same_table_registry; [apply terminate_table|done].
  - eapply same_table_registry; [apply terminate_all_table|done].
  - destruct (live o s) as [r|]; [|done]. eapply same_table_registry; [apply message_table|done].
  - by destruct (live o s).
  - destruct (live o s) as [r|] eqn:E; [|done]. apply live_spec in E as [E X].
    unfold registry_of. cbn [onExit heap records workerEpochs].
    rewrite <-list_fmap_map, list_fmap_insert, list_fmap_map. cbn [exit ident workerId workerEpoch exited].
    apply registry_exit; [done|]. rewrite (ident_lookup _ _ _ E). unfold ident. by rewrite X.
  - eapply same_table_registry; [apply grace_table|done].
Qed.

Lemma run_registry ops s : registry_of s -> registry_of (run s ops).
Proof. revert s. induction ops as [|op ops IH]; intros s H; [done|]. apply IH. by apply step_registry. Qed.

Lemma new_registry old young : registry_of (new_supervisor old young).
Proof. constructor; try done; apply NoDup_nil_2. Qed.

(** ** Calls and what they order *)

Definition call_of (c : Call) : option nat :=
  match c with Grace o | Exiting o => Some o | Settled x => x end.

(** A call of [terminateWorker] took effect on object [o]. *)
Definition asked (o : nat) (s : Supervisor) : Prop := exists c, c ∈ calls s /\ call_of c = Some o.

(** The thread has ended or was told to. *)
Definition ended (r : WorkerRecord) : Prop := killed r = true \/ exited r = true.

Record orders (s : Supervisor) : Prop := {
  ord_dead : forall o r, heap s !! o = Some r -> exited r = true -> state r = Terminated;
  ord_ended : forall o r, heap s !! o = Some r -> state r = Terminated -> ended r;
  ord_grace : forall o, Grace o ∈ calls s -> is_Some (heap s !! o);
  ord_exiting : forall o, Exiting o ∈ calls s -> exists r, heap s !! o = Some r /\ killed r = true /\ exited r = false;
  ord_settled : forall o, Settled (Some o) ∈ calls s -> exists r, heap s !! o = Some r /\ ended r;
  ord_asked : forall o r, heap s !! o = Some r -> state r = Terminating -> asked o s;
  ord_posted : forall o reason, TerminatePosted o reason ∈ events s -> asked o s;
  ord_reports : forall o m, WorkerReady o m ∈ events s \/ WorkerLog o m ∈ events s ->
    exists r, heap s !! o = Some r /\ matchesEpoch r m = true
}.

(** What every assignment to a record respects. *)
Definition steps_to (s : Supervisor) (o : nat) (r r' : WorkerRecord) : Prop :=
  workerId r' = workerId r /\ workerEpoch r' = workerEpoch r /\ exited r' = exited r /\
  (killed r = true -> killed r' = true) /\ (state r' = Terminated -> ended r') /\
  (exited r = true -> state r' = Terminated) /\ (state r' = Terminating -> asked o s).

Lemma lookup_update o f s o' :
  heap (update o f s) !! o' = (if decide (o' = o) then f <$> heap s !! o else heap s !! o').
Proof.
  unfold update. destruct (heap s !! o) as [r|] eqn:E; cbn.
  - case_decide; [subst; by rewrite list_lookup_insert_eq by (by eapply lookup_lt_Some)|by rewrite list_lookup_insert_ne].
  - case_decide; congruence.
Qed.

Lemma update_rest o f s : calls (update o f s) = calls s /\ events (update o f s) = events s /\ records (update o f s) = records s.
Proof. unfold update. by destruct (heap s !! o). Qed.

Lemma update_orders o f s :
  orders s -> (forall r, heap s !! o = Some r -> steps_to s o r (f r)) -> orders (update o f s).
Proof.
  intros H Hf. destruct (update_rest o f s) as (Ec & Ee & _).
  assert (L : forall o' r', heap (update o f s) !! o' = Some r' ->
    exists r, heap s !! o' = Some r /\ (r' = r \/ o' = o /\ r' = f r /\ steps_to s o r r')).
  { intros o' r'. rewrite lookup_update. case_decide; [|by eauto]. subst.
    intros (r & Er & ->)%fmap_Some. exists r. split; [done|]. right. by auto. }
  assert (M : forall o' r, heap s !! o' = Some r -> exists r', heap (update o f s) !! o' = Some r' /\
    workerId r' = workerId r /\ workerEpoch r' = workerEpoch r /\ exited r' = exited r /\ (killed r = true -> killed r' = true)).
  { intros o' r Hr. rewrite lookup_update. case_decide; [subst; rewrite Hr; exists (f r); split; [done|]|by exists r].
    destruct (Hf r Hr) as (? & ? & ? & ? & _). done. }
  constructor; rewrite ?Ec, ?Ee; unfold asked; rewrite ?Ec.
  - intros o' r' Hr'. destruct (L _ _ Hr') as (r & Hr & [->|(-> & -> & S)]); [by apply (ord_dead _ H o')|].
    destruct S as (_ & _ & -> & _ & _ & S & _). apply S.
  - intros o' r' Hr'. destruct (L _ _ Hr') as (r & Hr & [->|(-> & -> & S)]); [by apply (ord_ended _ H o')|]. apply S.
  - intros o' [r Hr]%(ord_grace _ H). destruct (M _ _ Hr) as (r' & -> & _). by eexists.
  - intros o' (r & Hr & K & X)%(ord_exiting _ H). destruct (M _ _ Hr) as (r' & -> & _ & _ & E & K'). exists r'. rewrite E. auto.
  - intros o' (r & Hr & K)%(ord_settled _ H). destruct (M _ _ Hr) as (r' & -> & _ & _ & E & K'). exists r'.
    split; [done|]. unfold ended in *. rewrite E. naive_solver.
  - intros o' r' Hr'. destruct (L _ _ Hr') as (r & Hr & [->|(-> & -> & S)]); [by apply (ord_asked _ H o')|].
    destruct S as (_ & _ & _ & _ & _ & _ & S). apply S.
  - apply H.
  - intros o' m Hm. destruct (ord_reports _ H o' m Hm) as (r & Hr & E). destruct (M _ _ Hr) as (r' & -> & E1 & E2 & _).
    exists r'. split; [done|]. unfold matchesEpoch in *. by rewrite E1, E2.
Qed.

(** A call is added, or changed to one on the same object. *)
Lemma calls_orders cs s :
  orders s ->
  (forall o, asked o s -> asked o (set_calls cs s)) ->
  (forall c, c ∈ cs -> c ∈ calls s \/
     match c with
     | Grace o => is_Some (heap s !! o)
     | Exiting o => exists r, heap s !! o = Some r /\ killed r = true /\ exited r = false
     | Settled (Some o) => exists r, heap s !! o = Some r /\ ended r
     | Settled None => True
     end) -> orders (set_calls cs s).
Proof.
  intros H Ha Hc. constructor; cbn [set_calls heap calls events].
  - apply H.
  - apply H.
  - intros o Ho. destruct (Hc _ Ho); [by apply H|done].
  - intros o Ho. destruct (Hc _ Ho); [by apply H|done].
  - intros o Ho. destruct (Hc _ Ho); [by apply H|done].
  - intros o r Hr E. apply Ha. by eapply (ord_asked _ H).
  - intros o reason E. apply Ha. by eapply (ord_posted _ H).
  - apply H.
Qed.

Lemma emit_orders e s :
  orders s ->
  match e with
  | TerminatePosted o _ => asked o s
  | WorkerReady o m | WorkerLog o m => exists r, heap s !! o = Some r /\ matchesEpoch r m = true
  | _ => True
  end -> orders (emit e s).
Proof.
  intros H He. constructor; cbn [emit heap calls events]; try apply H.
  - intros o reason [E|E%list_elem_of_singleton]%elem_of_app; [by eapply (ord_posted _ H)|by subst].
  - intros o m. rewrite !elem_of_app, !list_elem_of_singleton.
    intros [[E|<-]|[E|<-]]; try done; apply (ord_reports _ H o m); auto.
Qed.

Lemma spawn_orders opt total free rss now s s' : orders s -> spawnWorker opt total free rss now s = Ok s' -> orders s'.
Proof.
  intros H. unfold spawnWorker. destruct (map_has _ _); [done|]. cbn zeta. set (lim := resolveEmergencyLimits _ _ _ _).
  set (r0 := MkRecord _ _ _ _ _ _ _ _ _ _). intros [= <-].
  constructor; unfold asked; cbn [heap calls events].
  - intros o r [[L Ho]|[-> <-]]%lookup_snoc_Some; [by apply (ord_dead _ H o)|done].
  - intros o r [[L Ho]|[-> <-]]%lookup_snoc_Some; [by apply (ord_ended _ H o)|done].
  - intros o [r Hr]%(ord_grace _ H). exists r. by apply lookup_app_l_Some.
  - intros o (r & Hr & K)%(ord_exiting _ H). exists r. split; [by apply lookup_app_l_Some|done].
  - intros o (r & Hr & K)%(ord_settled _ H). exists r. split; [by apply lookup_app_l_Some|done].
  - intros o r [[L Ho]|[-> <-]]%lookup_snoc_Some; [by apply (ord_asked _ H o)|done].
  - apply H.
  - intros o m (r & Hr & K)%(ord_reports _ H). exists r. split; [by apply lookup_app_l_Some|done].
Qed.

Lemma exit_orders o r c s : orders s -> heap s !! o = Some r -> exited r = false -> orders (onExit o r c s).
Proof.
  intros H Ho Hx.
  assert (L : forall o' r', <[o := exit r]> (heap s) !! o' = Some r' -> (o' = o /\ r' = exit r) \/ (o' <> o /\ heap s !! o' = Some r')).
  { intros o' r'. rewrite list_lookup_insert_Some. intros [(-> & <- & _)|[? ?]]; [by left|by right]. }
  assert (M : forall o' r', heap s !! o' = Some r' -> exists r'', <[o := exit r]> (heap s) !! o' = Some r'' /\
    (ended r' -> ended r'') /\ (forall m, matchesEpoch r' m = true -> matchesEpoch r'' m = true)).
  { intros o' r' Hr'. destruct (decide (o = o')) as [<-|N].
    - exists (exit r). rewrite list_lookup_insert_eq by (by eapply lookup_lt_Some). split; [done|].
      rewrite Ho in Hr'. injection Hr' as <-. split; [by right|done].
    - exists r'. by rewrite list_lookup_insert_ne. }
  assert (A : forall o', asked o' s -> asked o' (onExit o r c s)).
  { intros o' (k & Hk & E). exists (settle o k). split.
    - cbn [onExit calls]. rewrite <-list_fmap_map. apply list_elem_of_fmap. by exists k.
    - destruct k as [?|p|?]; cbn [settle call_of] in *; try done. destruct (Nat.eqb_spec p o); [by subst|done]. }
  assert (C : forall k', k' ∈ calls (onExit o r c s) -> exists k, k ∈ calls s /\ k' = settle o k).
  { intros k'. cbn [onExit calls]. rewrite <-list_fmap_map. intros (k & -> & Hk)%list_elem_of_fmap. by exists k. }
  constructor; cbn [onExit heap events].
  - intros o' r' [[-> ->]|[N Hr']]%L; [done|by apply (ord_dead _ H o')].
  - intros o' r' [[-> ->]|[N Hr']]%L; [by right|by apply (ord_ended _ H o')].
  - intros o' (k & Hk & E)%C. destruct k as [p|p|p]; cbn [settle] in E; [|by destruct (p =? o)%nat|done]. injection E as ->.
    apply (ord_grace _ H) in Hk as [r' Hr']. destruct (M _ _ Hr') as (r'' & -> & _). by eexists.
  - intros o' (k & Hk & E)%C. destruct k as [p|p|p]; cbn [settle] in E; [done| |done].
    destruct (Nat.eqb_spec p o) as [|N]; [done|]. injection E as ->.
    destruct (ord_exiting _ H _ Hk) as (r' & Hr' & K). exists r'. by rewrite list_lookup_insert_ne.
  - intros o' (k & Hk & E)%C. destruct k as [p|p|p]; cbn [settle] in E; [done| |].
    + destruct (Nat.eqb_spec p o) as [->|N]; [|done]. injection E as ->. exists (exit r).
      rewrite list_lookup_insert_eq by (by eapply lookup_lt_Some). split; [done|by right].
    + injection E as <-. destruct (ord_settled _ H _ Hk) as (r' & Hr' & K).
      destruct (M _ _ Hr') as (r'' & -> & Q & _). exists r''. auto.
  - intros o' r' [[-> ->]|[N Hr']]%L E; [done|]. apply A. by apply (ord_asked _ H o' r').
  - intros o' reason. rewrite elem_of_app, list_elem_of_singleton. intros [E|E]; [|done]. apply A. by eapply (ord_posted _ H).
  - intros o' m. rewrite !elem_of_app, !list_elem_of_singleton. intros E.
    destruct (ord_reports _ H o' m) as (r' & Hr' & K); [naive_solver|].
    destruct (M _ _ Hr') as (r'' & -> & _ & Q). exists r''. auto.
Qed.

Lemma message_orders o r m s : orders s -> heap s !! o = Some r -> exited r = false -> orders (onMessage o r m s).
Proof.
  intros H Ho Hx. unfold onMessage, handleHardenedReady.
  assert (R : forall f, (forall r', heap s !! o = Some r' -> f r' = f r) -> steps_to s o r (f r) -> orders (update o f s)).
  { intros f Hf Hs. apply update_orders; [done|]. intros r' Hr'. rewrite Ho in Hr'. by injection Hr' as <-. }
  destruct m as [| | | | | | |m]; try by apply emit_orders.
  destruct (isHardenedReady m).
  { destruct (matchesEpoch r m) eqn:E; cbn [negb]; [|done]. apply emit_orders.
    - apply R; [intros r'; rewrite Ho; by intros [= <-]|]. unfold steps_to. cbn. by rewrite Hx.
    - exists (with_state Ready r). rewrite lookup_update, decide_True, Ho by done. done. }
  destruct (isLogEntry m).
  { destruct (matchesEpoch r m) eqn:E; [|done]. apply emit_orders; [done|]. by exists r. }
  destruct (isTerminateAck m); [|by apply emit_orders].
  destruct (bool_decide _ && _) eqn:E; [|done]. apply emit_orders; [|done].
  apply R; [intros r'; rewrite Ho; by intros [= <-]|]. unfold steps_to. cbn. split_and!; try done. by left.
Qed.

Lemma object_of_lookup id s o r : object_of id s = Some (o, r) -> map_get id (records s) = Some o /\ heap s !! o = Some r.
Proof.
  unfold object_of. destruct (map_get id (records s)) as [o'|]; [|done]. destruct (heap s !! o') as [r'|] eqn:E; [|done].
  by intros [= <- <-].
Qed.

Lemma update_commute o f cs es s :
  update o f (MkSupervisor (heap s) (records s) (workerEpochs s) (staticLimits s) (workerRestarts s) cs es) =
  MkSupervisor (heap (update o f s)) (records s) (workerEpochs s) (staticLimits s) (workerRestarts s) cs es.
Proof. unfold update. cbn [heap]. by destruct (heap s !! o). Qed.

(** A call that takes effect, in the order in which its parts are easiest to see. *)
Lemma terminate_eq id reason b s o r :
  object_of id s = Some (o, r) -> state r = Starting \/ state r = Ready ->
  terminateWorker id reason b s =
  update o (with_state Terminating)
    (let s := set_calls (calls s ++ [Grace o]) s in if b then emit (TerminatePosted o reason) s else s).
Proof.
  intros E Hs. unfold terminateWorker. rewrite E. assert (Hu := update_rest o (with_state Terminating) s).
  destruct Hu as (Hc & He & Hr). destruct b; unfold emit, set_calls; cbn [calls heap events records workerEpochs staticLimits workerRestarts];
    rewrite update_commute; destruct Hs as [-> | ->]; rewrite ?Hc, ?He, ?Hr; f_equal;
    unfold update; destruct (heap s !! o); done.
Qed.

Lemma terminate_orders id reason b s : orders s -> orders (terminateWorker id reason b s).
Proof.
  intros H. assert (N : orders (set_calls (calls s ++ [Settled None]) s)).
  { apply calls_orders; [done| |].
    - intros o (c & Hc & E). exists c. split; [|done]. cbn. apply elem_of_app. by left.
    - intros c [Hc|Hc%list_elem_of_singleton]%elem_of_app; [by left|subst; by right]. }
  destruct (object_of id s) as [[o r]|] eqn:E; [|unfold terminateWorker; by rewrite E].
  destruct (object_of_lookup _ _ _ _ E) as [_ Ho].
  assert (G : state r = Starting \/ state r = Ready -> orders (terminateWorker id reason b s)).
  { intros Hs. rewrite (terminate_eq _ _ _ _ _ _ E Hs).
    assert (A : asked o (set_calls (calls s ++ [Grace o]) s)).
    { exists (Grace o). split; [|done]. cbn. apply elem_of_app. right. by apply list_elem_of_singleton. }
    assert (O : orders (set_calls (calls s ++ [Grace o]) s)).
    { apply calls_orders; [done| |].
      - intros o' (c & Hc & Ec). exists c. split; [|done]. cbn. apply elem_of_app. by left.
      - intros c [Hc|Hc%list_elem_of_singleton]%elem_of_app; [by left|subst; right; by eexists]. }
    cbn zeta. apply update_orders; [destruct b; [by apply emit_orders|done]|].
    assert (X : exited r = false).
    { destruct (exited r) eqn:X; [|done]. pose proof (ord_dead _ H _ _ Ho X). destruct Hs; congruence. }
    intros r' Hr'. assert (r' = r) as -> by (destruct b; cbn in Hr'; congruence).
    unfold steps_to. cbn. rewrite X. split_and!; try done. intros _. by destruct b. }
  destruct (state r) eqn:Es; try (apply G; by auto); unfold terminateWorker; by rewrite E, Es.
Qed.

Lemma terminate_all_orders reason f s : orders s -> orders (terminateAll reason f s).
Proof.
  unfold terminateAll. generalize (records s). intros l. revert s. induction l as [|x l IH]; intros s H; [done|].
  cbn [fold_left]. apply IH. by apply terminate_orders.
Qed.

Lemma asked_insert k c c' cs s o :
  calls s = cs -> cs !! k = Some c -> call_of c' = call_of c -> asked o s -> asked o (set_calls (<[k := c']> cs) s).
Proof.
  intros <- Hk E (d & Hd & Ed). unfold asked. cbn [set_calls calls]. apply list_elem_of_lookup in Hd as [j Hj].
  destruct (decide (k = j)) as [->|N].
  - exists c'. split; [|congruence]. apply (list_elem_of_lookup_2 _ j). rewrite list_lookup_insert_eq; [done|]. by eapply lookup_lt_Some.
  - exists d. split; [|done]. apply (list_elem_of_lookup_2 _ j). by rewrite list_lookup_insert_ne.
Qed.

Lemma grace_orders k s : orders s -> orders (afterGrace k s).
Proof.
  intros H. unfold afterGrace. destruct (calls s !! k) as [[o|?|?]|] eqn:Ek; try done.
  destruct (heap s !! o) as [r|] eqn:Ho; [|done]. case_bool_decide as Hs.
  - apply calls_orders; [done| |].
    + intros o' A. by eapply asked_insert.
    + intros c [j Hj]%list_elem_of_lookup. apply list_lookup_insert_Some in Hj as [(-> & <- & _)|[_ Hj]].
      * right. exists r. split; [done|]. by eapply (ord_ended _ H).
      * left. by eapply list_elem_of_lookup_2.
  - assert (X : exited r = false).
    { destruct (exited r) eqn:X; [|done]. by pose proof (ord_dead _ H _ _ Ho X). }
    assert (U : orders (update o kill s)).
    { apply update_orders; [done|]. intros r' Hr'. rewrite Ho in Hr'. injection Hr' as <-. unfold steps_to. cbn.
      rewrite X. split_and!; try done. intros T. by eapply (ord_asked _ H). }
    destruct (update_rest o kill s) as (Ec & _). apply emit_orders; [|done]. apply calls_orders; [done| |].
    + intros o' A. eapply asked_insert; [exact Ec|exact Ek|done|done].
    + intros c [j Hj]%list_elem_of_lookup. apply list_lookup_insert_Some in Hj as [(-> & <- & _)|[_ Hj]].
      * right. exists (kill r). rewrite lookup_update, decide_True, Ho by done. done.
      * left. rewrite Ec. by eapply list_elem_of_lookup_2.
Qed.

Lemma step_orders s op : orders s -> orders (step s op).
Proof.
  intros H. destruct op as [opt total free rss now|id reason b|reason f|o m|o|o c|k]; cbn [step].
  - destruct (spawnWorker opt total free rss now s) eqn:E; [by eapply spawn_orders|done].
  - by apply terminate_orders.
  - by apply terminate_all_orders.
  - destruct (live o s) as [r|] eqn:E; [|done]. apply live_spec in E as [? ?]. by apply message_orders.
  - destruct (live o s) as [r|]; [|done]. by apply emit_orders.
  - destruct (live o s) as [r|] eqn:E; [|done]. apply live_spec in E as [? ?]. by apply exit_orders.
  - by apply grace_orders.
Qed.

Lemma run_orders ops s : orders s -> orders (run s ops).
Proof. revert s. induction ops as [|op ops IH]; intros s H; [done|]. apply IH. by apply step_orders. Qed.

Lemma new_orders old young : orders (new_supervisor old young).
Proof. constructor; try done; try (intros ? ? [=]); try (intros ? ?%elem_of_nil; done); try (intros ? ? ?%elem_of_nil; done); set_solver. Qed.

(** ** Shutdown *)

(** What stays when no worker is spawned. *)
Definition later (s s' : Supervisor) : Prop :=
  (forall o, asked o s -> asked o s') /\
  forall o r', heap s' !! o = Some r' -> exited r' = false ->
    exists r, heap s !! o = Some r /\ exited r = false /\ (killed r = true -> killed r' = true).

Lemma later_refl s : later s s.
Proof. split; [done|]. intros o r H X. by exists r. Qed.

Lemma later_records_trans s s' s'' : later s s' -> later s' s'' -> later s s''.
Proof.
  intros [A1 B1] [A2 B2]. split; [by auto|]. intros o r'' H X. destruct (B2 _ _ H X) as (r' & H' & X' & K').
  destruct (B1 _ _ H' X') as (r & ? & ? & ?). exists r. auto.
Qed.

Lemma later_update o f s s' :
  (forall r, exited (f r) = exited r /\ (killed r = true -> killed (f r) = true)) -> later s s' -> later s (update o f s').
Proof.
  intros Hf [A B]. split.
  - intros o' Ho. unfold asked. rewrite (proj1 (update_rest o f s')). by apply A.
  - intros o' r'. rewrite lookup_update. case_decide; [subst|by apply B].
    intros (r & Hr & ->)%fmap_Some. destruct (Hf r) as [-> K]. intros X. destruct (B _ _ Hr X) as (r0 & ? & ? & ?). exists r0. auto.
Qed.

Lemma later_calls cs s s' : (forall o, asked o s' -> asked o (set_calls cs s')) -> later s s' -> later s (set_calls cs s').
Proof. intros Ha [A B]. split; [by auto|exact B]. Qed.

Lemma later_emit e s s' : later s s' -> later s (emit e s').
Proof. done. Qed.

Lemma asked_app c s o : asked o s -> asked o (set_calls (calls s ++ [c]) s).
Proof. intros (d & Hd & E). exists d. split; [|done]. cbn. apply elem_of_app. by left. Qed.

Lemma terminate_later id reason b s : later s (terminateWorker id reason b s).
Proof.
  unfold terminateWorker. destruct (object_of id s) as [[o r]|]; [|apply later_calls; [intros ?; apply asked_app|apply later_refl]].
  destruct (state r); try (apply later_calls; [intros ?; apply asked_app|apply later_refl]);
    (apply later_calls; [intros ?; apply asked_app|]); destruct b; try apply later_emit; (apply later_update; [done|apply later_refl]).
Qed.

Lemma grace_later k s : later s (afterGrace k s).
Proof.
  unfold afterGrace. destruct (calls s !! k) as [[o|?|?]|] eqn:Ek; try apply later_refl.
  destruct (heap s !! o) as [r|]; [|apply later_refl]. case_bool_decide.
  - apply later_calls; [|apply later_refl]. intros o' A. by eapply asked_insert.
  - apply later_emit, later_calls; [|by apply later_update; [|apply later_refl]].
    intros o' A. eapply asked_insert; [apply update_rest|exact Ek|done|done].
Qed.

Lemma exit_later o r c s : later s (onExit o r c s).
Proof.
  split.
  - intros o' (k & Hk & E). exists (settle o k). split.
    + cbn [onExit calls]. rewrite <-list_fmap_map. apply list_elem_of_fmap. by exists k.
    + destruct k as [?|p|?]; cbn [settle call_of] in *; try done. destruct (Nat.eqb_spec p o); [by subst|done].
  - intros o' r'. cbn [onExit heap]. rewrite list_lookup_insert_Some. intros [(_ & <- & _)|[_ Hr]]; [done|]. by exists r'.
Qed.

Definition is_spawn (op : Op) : bool := match op with OpSpawn _ _ _ _ _ => true | _ => false end.

Lemma terminate_all_later reason f s : later s (terminateAll reason f s).
Proof.
  unfold terminateAll. generalize (records s). intros l. revert s. induction l as [|x l IH]; intros s; [apply later_refl|].
  cbn [fold_left]. eapply later_records_trans; [apply terminate_later|apply IH].
Qed.

Lemma step_later s op : is_spawn op = false -> later s (step s op).
Proof.
  destruct op as [opt total free rss now|id reason b|reason f|o m|o|o c|k]; intros Hop; cbn [step]; [done|..].
  - apply terminate_later.
  - apply terminate_all_later.
  - destruct (live o s) as [r|]; [|apply later_refl]. unfold onMessage, handleHardenedReady.
    repeat case_match; try apply later_refl; try apply later_emit; (apply later_refl || by (apply later_update; [|apply later_refl])).
  - destruct (live o s); [apply later_emit|]; apply later_refl.
  - destruct (live o s); [apply exit_later|apply later_refl].
  - apply grace_later.
Qed.

Lemma run_later ops s : forallb (fun op => negb (is_spawn op)) ops = true -> later s (run s ops).
Proof.
  revert s. induction ops as [|op ops IH]; intros s H; [apply later_refl|]. cbn [forallb] in H. bools.
  eapply later_records_trans; [by apply step_later|by apply IH].
Qed.

(** Somebody has asked every live worker to stop. *)
Definition covered (s : Supervisor) : Prop :=
  forall o r, heap s !! o = Some r -> exited r = false -> asked o s \/ killed r = true.

Lemma covered_later s s' : later s s' -> covered s -> covered s'.
Proof.
  intros [A B] H o r' Hr X. destruct (B _ _ Hr X) as (r & Hr0 & X0 & K). destruct (H _ _ Hr0 X0) as [?|?]; auto.
Qed.

Lemma terminate_covers id reason b s o r :
  orders s -> map_get id (records s) = Some o -> heap s !! o = Some r -> exited r = false ->
  asked o (terminateWorker id reason b s) \/ killed r = true.
Proof.
  intros H Ht Ho X. assert (E : object_of id s = Some (o, r)) by (unfold object_of; by rewrite Ht, Ho).
  destruct (state r) eqn:Es.
  1,2: left; rewrite (terminate_eq _ _ _ _ _ _ E) by auto; unfold asked; rewrite (proj1 (update_rest _ _ _));
    exists (Grace o); split; [|done]; destruct b; cbn; apply elem_of_app; right; by apply list_elem_of_singleton.
  - left. apply (terminate_later id reason b s). by eapply (ord_asked _ H).
  - destruct (ord_ended _ H _ _ Ho Es); [by right|congruence].
Qed.

Definition terminate_each (reason : option string) (f : nat -> bool) (l : list (Z * nat)) (s : Supervisor) : Supervisor :=
  fold_left (fun s (ko : Z * nat) => terminateWorker (fst ko) reason (f (snd ko)) s) l s.

Lemma terminate_each_later reason f l s : later s (terminate_each reason f l s).
Proof.
  revert s. induction l as [|x l IH]; intros s; [apply later_refl|].
  eapply later_records_trans; [apply terminate_later|apply IH].
Qed.

Lemma terminate_each_covers reason f l s id o r' :
  orders s -> Forall (fun ko : Z * nat => map_get (fst ko) (records s) = Some (snd ko)) l -> (id, o) ∈ l ->
  heap (terminate_each reason f l s) !! o = Some r' -> exited r' = false ->
  asked o (terminate_each reason f l s) \/ killed r' = true.
Proof.
  revert s. induction l as [|[i p] l IH]; intros s H F M Hr' X; [by apply elem_of_nil in M|].
  apply Forall_cons in F as [F1 F]. cbn [fst snd] in F1. destruct (terminate_each_later reason f ((i, p) :: l) s) as [_ B].
  destruct (B _ _ Hr' X) as (r & Hr & X0 & K). clear B. cbn [terminate_each fold_left fst snd] in *.
  fold (terminate_each reason f l (terminateWorker i reason (f p) s)) in *.
  apply elem_of_cons in M as [[= <- <-]|M].
  - destruct (terminate_covers id reason (f o) s o r H F1 Hr X0) as [A|?]; [|by right; auto].
    left. by apply (terminate_each_later reason f l (terminateWorker id reason (f o) s)).
  - apply IH; [by apply terminate_orders| |done|done|done].
    by rewrite (proj1 (proj2 (terminate_table i reason (f p) s))).
Qed.

Lemma terminate_all_covers reason f s : registry_of s -> orders s -> covered (terminateAll reason f s).
Proof.
  intros R H o r' Hr' X. destruct (terminate_all_later reason f s) as [_ B].
  destruct (B _ _ Hr' X) as (r & Hr & X0 & _). clear B.
  assert (Ht : map_get (workerId r) (records s) = Some o).
  { eapply (reg_live _ _ _ R). rewrite (ident_lookup _ _ _ Hr). unfold ident. by rewrite X0. }
  apply (terminate_each_covers reason f (records s) s (workerId r)); [done| |by apply map_get_elem|done|done].
  apply Forall_forall. intros [i p] Hp. apply elem_map_get; [apply R|done].
Qed.

(** In every run a worker id has at most one live thread, the table
    holds exactly the live threads under their ids, a later worker of an id has a
    higher epoch, and the listener hears only messages that carry the id and the
    epoch of the thread whose port they came over. *)
Theorem workers_unique old young ops :
  let s := run (new_supervisor old young) ops in
  (forall id o, map_get id (records s) = Some o <-> exists r, heap s !! o = Some r /\ workerId r = id /\ exited r = false) /\
  (forall o o' r r', (o < o')%nat -> heap s !! o = Some r -> heap s !! o' = Some r' -> workerId r = workerId r' ->
     workerEpoch r < workerEpoch r') /\
  (forall o m, WorkerReady o m ∈ events s \/ WorkerLog o m ∈ events s ->
     exists r, heap s !! o = Some r /\ matchesEpoch r m = true).
Proof.
  intros s. pose proof (run_registry ops _ (new_registry old young)) as R. fold s in R.
  pose proof (run_orders ops _ (new_orders old young)) as H. fold s in H. split_and!.
  - intros id o. split.
    + intros Ho. destruct (reg_entry _ _ _ R _ _ Ho) as (e & E). rewrite <-list_fmap_map, list_lookup_fmap in E.
      destruct (heap s !! o) as [r|]; [|done]. cbn in E. injection E as E1 _ E2. by exists r.
    + intros (r & Hr & <- & X). eapply (reg_live _ _ _ R). rewrite (ident_lookup _ _ _ Hr). unfold ident. by rewrite X.
  - intros o o' r r' L Hr Hr' E. eapply (reg_order _ _ _ R o o'); [done|by rewrite (ident_lookup _ _ _ Hr)|].
    rewrite (ident_lookup _ _ _ Hr'). unfold ident. by rewrite E.
  - apply H.
Qed.

(** After [terminateAll] at any moment of any run, whatever the workers
    send, exit or ignore: once every sleeping call has woken up and the threads that
    were told to end have ended, no worker is left and every call of
    [terminateWorker] has returned, provided nobody spawns. *)
Theorem shutdown_completes old young ops reason f ops' :
  let s := run (terminateAll reason f (run (new_supervisor old young) ops)) ops' in
  forallb (fun op => negb (is_spawn op)) ops' = true ->
  (forall o, Grace o ∉ calls s) ->
  (forall o r, heap s !! o = Some r -> killed r = true -> exited r = true) ->
  records s = [] /\ forall c, c ∈ calls s -> exists x, c = Settled x.
Proof.
  intros s Hs Hg Hk. set (s0 := run (new_supervisor old young) ops) in s.
  assert (R0 : registry_of s0) by apply run_registry, new_registry. assert (H0 : orders s0) by apply run_orders, new_orders.
  assert (C : covered s) by (eapply covered_later; [by apply run_later|by apply terminate_all_covers]).
  assert (R : registry_of s) by (apply run_registry; eapply same_table_registry; [apply terminate_all_table|done]).
  assert (H : orders s) by (apply run_orders; by apply terminate_all_orders).
  clearbody s. assert (N : forall o r, heap s !! o = Some r -> exited r = true).
  { intros o r Hr. destruct (exited r) eqn:X; [done|]. destruct (C _ _ Hr X) as [(c & Hc & E)|K]; [|by rewrite <-X; eauto].
    destruct c as [p|p|[p|]]; cbn [call_of] in E; try done; injection E as ->; [by apply Hg in Hc| |].
    - destruct (ord_exiting _ H _ Hc) as (r' & Hr' & K & _). assert (r' = r) as -> by congruence. rewrite <-X. eauto.
    - destruct (ord_settled _ H _ Hc) as (r' & Hr' & [K|K]); assert (r' = r) as -> by congruence; rewrite <-X; eauto. }
  split.
  - destruct (records s) as [|[id o] l] eqn:E; [done|]. exfalso. assert (M : map_get id (records s) = Some o) by (rewrite E; cbn; by case_decide).
    destruct (reg_entry _ _ _ R _ _ M) as (e & L). rewrite <-list_fmap_map, list_lookup_fmap in L.
    destruct (heap s !! o) as [r|] eqn:Hr; [|done]. cbn in L. pose proof (N _ _ Hr). unfold ident in L. congruence.
  - intros [o|o|x] Hc; [by apply Hg in Hc| |by eexists]. destruct (ord_exiting _ H _ Hc) as (r & Hr & _ & X).
    pose proof (N _ _ Hr). congruence.
Qed.

(** Once a call of [terminateWorker] that took effect on a worker has been
    made, it stays known, and when it is awake its thread has ended or has been
    told to: no answer of the worker escapes the order. *)
Theorem termination_enforced old young ops o reason :
  let s := run (new_supervisor old young) ops in
  TerminatePosted o reason ∈ events s -> Grace o ∉ calls s ->
  exists r, heap s !! o = Some r /\ ended r.
Proof.
  intros s Hp Hg. pose proof (run_orders ops _ (new_orders old young)) as H. fold s in H.
  destruct (ord_posted _ H _ _ Hp) as (c & Hc & E). destruct c as [p|p|[p|]]; cbn [call_of] in E; try done; injection E as ->.
  - done.
  - destruct (ord_exiting _ H _ Hc) as (r & Hr & K & _). exists r. split; [done|by left].
  - by apply (ord_settled _ H).
Qed.

(** ** Concrete runs *)

Definition w_opt (id : Z) : SpawnWorkerOptions := MkOptions id "plugin" "installation" None (Some 512) None None None.
Definition w_ready (id epoch : Z) : Value :=
  VObj [("kind", VStr "hardened-ready"); ("workerId", VNum id); ("workerEpoch", VNum epoch); ("lockdownMs", VNum 3);
        ("compartmentMs", VNum 1); ("bootstrapMs", VNum 5); ("noNodeAuthority", VBool true); ("probe", VObj [])]%string.
Definition w_ack (id epoch : Z) : Value :=
  VObj [("kind", VStr "terminate-ack"); ("workerId", VNum id); ("workerEpoch", VNum epoch)]%string.
Definition w_spawn (id : Z) : Op := OpSpawn (w_opt id) 0 0 0 0.

Lemma termination_enforced_witness :
  let ops := [w_spawn 1; OpMessage 0 (w_ready 1 1); OpTerminate 1 None true; OpMessage 0 (w_ack 1 2); OpGrace 0] in
  exists r, heap (run (new_supervisor None None) ops) !! 0%nat = Some r /\ ended r.
Proof.
  apply (termination_enforced None None
    [w_spawn 1; OpMessage 0 (w_ready 1 1); OpTerminate 1 None true; OpMessage 0 (w_ack 1 2); OpGrace 0] 0 None).
  - vm_compute. right. left.
  - vm_compute. intros H. repeat (apply elem_of_cons in H as [H|H]; [discriminate|]). by apply elem_of_nil in H.
Defined.

Lemma shutdown_completes_witness :
  let s := run (terminateAll None (fun _ => true) (run (new_supervisor None None) [w_spawn 1; w_spawn 2; OpTerminate 2 None false]))
             [OpMessage 0 (w_ack 1 1); OpExit 0 (Some 0); OpGrace 0; OpGrace 1; OpExit 1 None] in
  records s = [] /\ forall c, c ∈ calls s -> exists x, c = Settled x.
Proof.
  apply (shutdown_completes None None [w_spawn 1; w_spawn 2; OpTerminate 2 None false] None (fun _ => true)
    [OpMessage 0 (w_ack 1 1); OpExit 0 (Some 0); OpGrace 0; OpGrace 1; OpExit 1 None]).
  - reflexivity.
  - intros o. vm_compute. intros H. repeat (apply elem_of_cons in H as [H|H]; [discriminate|]). by apply elem_of_nil in H.
  - intros [|[|o]] r; vm_compute; intros [= <-]; done.
Defined.

(** An orderly worker that acknowledges is not counted as a restart; one that is
    ended after the grace window is, although its end was asked for; and so is one
    that acknowledges but whose readiness arrives in between, because it puts the
    record back to [ready] and the acknowledgement is dropped. *)
Example acknowledgement_lost :
  let restarts_after l := workerRestarts (run (new_supervisor None None) (w_spawn 1 :: OpTerminate 1 None true :: l)) in
  restarts_after [OpMessage 0 (w_ack 1 1); OpExit 0 (Some 0)] = 0 /\
  restarts_after [OpGrace 0; OpExit 0 (Some 1)] = 1 /\
  restarts_after [OpMessage 0 (w_ready 1 1); OpMessage 0 (w_ack 1 1); OpGrace 0; OpExit 0 (Some 0)] = 1.
Proof. vm_compute. done. Qed.

End Supervisor.
