(* ===== verification/Semver.v ===== *)
(** * The semver engine of plugin dependencies
    (apps/server/src/plugin/semver.ts)

    Parsing of versions and ranges as functions on characters, precedence,
    comparator sets and [maxSatisfying]. *)

From Stdlib Require Import ZArith Lia Bool Ascii String List.
From stdpp Require Import base decidable strings list.
From S2P Require Import Prelude.
Local Open Scope Z_scope.

Module Semver.

(** ** Versions *)

Inductive Identifier := Num (n : Z) | Str (s : string).

Record ParsedVersion := Version {
  major : Z;
  minor : Z;
  patch : Z;
  prerelease : list Identifier
}.

Record PartialVersion := Partial {
  p_major : option Z;
  p_minor : option Z;
  p_patch : option Z;
  p_prerelease : list Identifier
}.

Inductive Operator := Lt | Le | Eq | Ge | Gt.
Record Comparator := Cmp { operator : Operator; version : ParsedVersion }.
Record ComparatorSet := CSet { any : bool; comparators : list Comparator }.

Definition MAX_SAFE_COMPONENT : Z := 9007199254740991.

(** The longest prefix of characters in a class, and the rest. *)
Fixpoint span (p : ascii -> bool) (l : list ascii) : list ascii * list ascii :=
  match l with
  | [] => ([], [])
  | c :: r => if p c then let '(a, b) := span p r in (c :: a, b) else ([], l)
  end.

(** [0|[1-9]\d*] *)
Definition is_numeric_component (l : list ascii) : bool :=
  match l with
  | [] => false
  | [c] => is_digit c
  | c :: r => is_digit c && negb (c =? "0")%char && forallb is_digit r
  end.

Definition take_number (l : list ascii) : option (Z * list ascii) :=
  let '(a, r) := span is_digit l in
  if is_numeric_component a then Some (digits_val a, r) else None.

Definition skip (c : ascii) (l : list ascii) : option (list ascii) :=
  match l with
  | x :: r => if (x =? c)%char then Some r else None
  | [] => None
  end.

(** [[0-9A-Za-z.-]] *)
Definition is_tag_char (c : ascii) : bool := is_alnum c || (c =? ".")%char || (c =? "-")%char.

(** The end of a full version: an optional tag and optional build metadata. *)
Definition take_tag (l : list ascii) : option (option (list ascii)) :=
  let tail (tag : option (list ascii)) (r : list ascii) :=
    match r with
    | [] => Some tag
    | c :: r' =>
        if (c =? "+")%char then
          match span is_tag_char r' with
          | (_ :: _, []) => Some tag
          | _ => None
          end
        else None
    end in
  match skip "-" l with
  | Some r =>
      let '(tag, rest) := span is_tag_char r in
      match tag with
      | c :: _ => if is_alnum c then tail (Some tag) rest else None
      | [] => None
      end
  | None => tail None l
  end.

Fixpoint parse_identifiers (l : list (list ascii)) : option (list Identifier) :=
  match l with
  | [] => Some []
  | w :: r =>
      let id :=
        match w with
        | [] => None
        | c :: t =>
            if forallb is_digit w then
              if (1 <? length w)%nat && (c =? "0")%char then None
              else if MAX_SAFE_COMPONENT <? digits_val w then None
              else Some (Num (digits_val w))
            else Some (Str (str w))
        end in
      match id, parse_identifiers r with
      | Some i, Some rest => Some (i :: rest)
      | _, _ => None
      end
  end.

(** The empty list stands for no tag and for an invalid one. *)
Definition parsePrerelease (raw : option (list ascii)) : list Identifier :=
  match raw with
  | None | Some [] => []
  | Some l => match parse_identifiers (split_on "." l) with Some identifiers => identifiers | None => [] end
  end.

Definition strip_v (l : list ascii) : list ascii :=
  match l with c :: r => if (c =? "v")%char then r else l | [] => [] end.

Definition obnd {A B} (m : option A) (k : A -> option B) : option B :=
  match m with Some a => k a | None => None end.

Definition parse_full (l : list ascii) : option (Z * Z * Z * option (list ascii)) :=
  obnd (take_number (strip_v l)) (fun '(a, r) =>
  obnd (skip "." r) (fun r =>
  obnd (take_number r) (fun '(b, r) =>
  obnd (skip "." r) (fun r =>
  obnd (take_number r) (fun '(c, r) =>
  obnd (take_tag r) (fun tag => Some (a, b, c, tag))))))).

Definition is_nil {A} (l : list A) : bool := match l with [] => true | _ => false end.

Definition parseVersion (input : string) : option ParsedVersion :=
  match parse_full (trim_chars (chars input)) with
  | None => None
  | Some (a, b, c, tag) =>
      if (MAX_SAFE_COMPONENT <? a) || (MAX_SAFE_COMPONENT <? b) || (MAX_SAFE_COMPONENT <? c) then None
      else
        let pre := parsePrerelease tag in
        if match tag with Some _ => is_nil pre | None => false end then None
        else Some (Version a b c pre)
  end.

(** ** Precedence *)

Definition compareIdentifier (a b : Identifier) : Z :=
  match a, b with
  | Num x, Num y => if x =? y then 0 else if x <? y then -1 else 1
  | Num _, Str _ => -1
  | Str _, Num _ => 1
  | Str x, Str y => if (x =? y)%string then 0 else if str_cmp x y <? 0 then -1 else 1
  end.

(** The loop over the common length, then the lengths. *)
Fixpoint compare_identifiers (a b : list Identifier) : Z :=
  match a, b with
  | [], [] => 0
  | [], _ :: _ => -1
  | _ :: _, [] => 1
  | x :: a', y :: b' =>
      let result := compareIdentifier x y in
      if result =? 0 then compare_identifiers a' b' else result
  end.

Definition comparePrerelease (a b : list Identifier) : Z :=
  match a, b with
  | [], [] => 0
  | [], _ => 1
  | _, [] => -1
  | _, _ => compare_identifiers a b
  end.

Definition compareVersions (a b : ParsedVersion) : Z :=
  if negb (major a =? major b) then if major a <? major b then -1 else 1
  else if negb (minor a =? minor b) then if minor a <? minor b then -1 else 1
  else if negb (patch a =? patch b) then if patch a <? patch b then -1 else 1
  else comparePrerelease (prerelease a) (prerelease b).

(** ** Ranges *)

Definition is_wild (l : list ascii) : bool :=
  match l with
  | [c] => (c =? "x")%char || (c =? "X")%char || (c =? "*")%char
  | _ => false
  end.

Fixpoint split_prerelease (l : list ascii) : list ascii * option (list ascii) :=
  match l with
  | [] => ([], None)
  | c :: r => if (c =? "-")%char then ([], Some r)
              else let '(a, b) := split_prerelease r in (c :: a, b)
  end.

Definition parse_component (w : list ascii) : option (option Z) :=
  if is_wild w then Some None
  else if is_numeric_component w then
    if MAX_SAFE_COMPONENT <? digits_val w then None else Some (Some (digits_val w))
  else None.

Fixpoint map_option {A B} (f : A -> option B) (l : list A) : option (list B) :=
  match l with
  | [] => Some []
  | x :: r => match f x, map_option f r with
              | Some y, Some ys => Some (y :: ys)
              | _, _ => None
              end
  end.

(** No number after a wildcard. *)
Fixpoint wildcards_last (seen : bool) (l : list (option Z)) : bool :=
  match l with
  | [] => true
  | None :: r => wildcards_last true r
  | Some _ :: r => negb seen && wildcards_last seen r
  end.

Definition strip_v_any_case (l : list ascii) : list ascii :=
  match l with c :: r => if (c =? "v")%char || (c =? "V")%char then r else l | [] => [] end.

Definition component (l : list (option Z)) (i : nat) : option Z :=
  match l !! i with Some v => v | None => None end.

Definition parsePartialVersion (input : list ascii) : option PartialVersion :=
  let trimmed := strip_v_any_case (trim_chars input) in
  if is_nil trimmed || is_wild trimmed then Some (Partial None None None [])
  else
    let '(core, raw) := split_prerelease trimmed in
    let components := split_on "." core in
    if (3 <? length components)%nat then None
    else
      match map_option parse_component components with
      | None => None
      | Some values =>
          if negb (wildcards_last false values) then None
          else
            let pre := parsePrerelease raw in
            if match raw with Some _ => is_nil pre | None => false end then None
            else Some (Partial (component values 0) (component values 1) (component values 2) pre)
      end.

Definition complete (p : PartialVersion) : ParsedVersion :=
  Version (default 0 (p_major p)) (default 0 (p_minor p)) (default 0 (p_patch p)) (p_prerelease p).

Inductive Level := LMajor | LMinor | LPatch.

(** The prerelease identifier of an incremented version is the string 0. *)
Definition increment (p : PartialVersion) (level : Level) : ParsedVersion :=
  let ma := default 0 (p_major p) in
  let mi := default 0 (p_minor p) in
  let pa := default 0 (p_patch p) in
  match level with
  | LMajor => Version (ma + 1) 0 0 [Str "0"]
  | LMinor => Version ma (mi + 1) 0 [Str "0"]
  | LPatch => Version ma mi (pa + 1) [Str "0"]
  end.

Definition upperBound (p : PartialVersion) : list Comparator :=
  match p_major p, p_minor p, p_patch p with
  | None, _, _ => []
  | _, None, _ => [Cmp Lt (increment p LMajor)]
  | _, _, None => [Cmp Lt (increment p LMinor)]
  | _, _, _ => [Cmp Le (complete p)]
  end.

Definition is_none {A} (o : option A) : bool := match o with None => true | Some _ => false end.

Definition caretRange (p : PartialVersion) : list Comparator :=
  match p_major p with
  | None => []
  | Some ma =>
      let lower := Cmp Ge (complete p) in
      if (0 <? ma) || is_none (p_minor p) then [lower; Cmp Lt (increment p LMajor)]
      else if (0 <? default 0 (p_minor p)) || is_none (p_patch p)
      then [lower; Cmp Lt (increment p LMinor)]
      else [lower; Cmp Lt (increment p LPatch)]
  end.

Definition tildeRange (p : PartialVersion) : list Comparator :=
  match p_major p with
  | None => []
  | Some _ =>
      let lower := Cmp Ge (complete p) in
      if is_none (p_minor p) then [lower; Cmp Lt (increment p LMajor)]
      else [lower; Cmp Lt (increment p LMinor)]
  end.

Inductive TokenOperator := TGe | TLe | TGt | TLt | TEq | TCaret | TTilde.

(** [^(>=|<=|>|<|=|\^|~)?(.* )$] *)
Definition token_operator (l : list ascii) : option TokenOperator * list ascii :=
  match l with
  | c :: r =>
      let eq_next := match r with d :: _ => (d =? "=")%char | [] => false end in
      if (c =? ">")%char then if eq_next then (Some TGe, tail r) else (Some TGt, r)
      else if (c =? "<")%char then if eq_next then (Some TLe, tail r) else (Some TLt, r)
      else if (c =? "=")%char then (Some TEq, r)
      else if (c =? "^")%char then (Some TCaret, r)
      else if (c =? "~")%char then (Some TTilde, r)
      else (None, l)
  | [] => (None, [])
  end.

Definition compileToken (token : list ascii) : option (list Comparator) :=
  let '(op, raw) := token_operator token in
  match parsePartialVersion raw with
  | None => None
  | Some p =>
      if is_nil (trim_chars raw) && negb (is_none op) then None
      else if is_none op && is_none (p_major p) then Some []
      else
        let wild := is_none (p_major p) || is_none (p_minor p) || is_none (p_patch p) in
        let compare o := if wild then None else Some [Cmp o (complete p)] in
        match op with
        | Some TCaret => Some (caretRange p)
        | Some TTilde => Some (tildeRange p)
        | Some TGt => compare Gt
        | Some TGe => compare Ge
        | Some TLt => compare Lt
        | Some TLe => compare Le
        | Some TEq | None =>
            if negb wild then Some [Cmp Eq (complete p)]
            else Some (Cmp Ge (complete p) :: upperBound p)
        end
  end.

Fixpoint index_of_dash (tokens : list (list ascii)) : option nat :=
  match tokens with
  | [] => None
  | t :: r => if bool_decide (t = ["-"%char]) then Some O
              else match index_of_dash r with Some i => Some (S i) | None => None end
  end.

Definition compileComparatorSet (branch : list ascii) : option ComparatorSet :=
  if is_nil branch || is_wild branch then Some (CSet true [])
  else
    let tokens := words_of branch [] in
    match index_of_dash tokens with
    | Some (S i) =>
        match i, tokens with
        | O, [a; _; b] =>
            match parsePartialVersion a, parsePartialVersion b with
            | Some lower, Some upper => Some (CSet false (Cmp Ge (complete lower) :: upperBound upper))
            | _, _ => None
            end
        | _, _ => None
        end
    | _ =>
        match map_option compileToken tokens with
        | None => None
        | Some cs => if is_nil (concat cs) then Some (CSet true []) else Some (CSet false (concat cs))
        end
    end.

(** [s.split('||')] *)
Fixpoint split_bars (l : list ascii) : list (list ascii) :=
  match l with
  | [] => [[]]
  | c :: r =>
      match r with
      | d :: r' =>
          if (c =? "|")%char && (d =? "|")%char then [] :: split_bars r'
          else match split_bars r with w :: ws => (c :: w) :: ws | [] => [[c]] end
      | [] => [[c]]
      end
  end.

Definition compileRange (input : string) : option (list ComparatorSet) :=
  let trimmed := trim_chars (chars input) in
  if is_nil trimmed then None
  else map_option (fun b => compileComparatorSet (trim_chars b)) (split_bars trimmed).

Definition matchesComparator (v : ParsedVersion) (c : Comparator) : bool :=
  let result := compareVersions v (version c) in
  match operator c with
  | Eq => result =? 0
  | Gt => 0 <? result
  | Ge => 0 <=? result
  | Lt => result <? 0
  | Le => result <=? 0
  end.

Definition setAllowsPrerelease (v : ParsedVersion) (s : ComparatorSet) : bool :=
  existsb (fun c => negb (is_nil (prerelease (version c))) && (major (version c) =? major v) &&
                    (minor (version c) =? minor v) && (patch (version c) =? patch v)) (comparators s).

Definition matchesSet (v : ParsedVersion) (s : ComparatorSet) : bool :=
  if negb (is_nil (prerelease v)) && negb (setAllowsPrerelease v s) then false
  else if any s then is_nil (prerelease v)
  else forallb (matchesComparator v) (comparators s).

Definition satisfiesRange (v range : string) : bool :=
  match parseVersion v, compileRange range with
  | Some v, Some sets => existsb (matchesSet v) sets
  | _, _ => false
  end.

Definition max_step (range : string) (best : option (ParsedVersion * string)) (candidate : string)
    : option (ParsedVersion * string) :=
  match parseVersion candidate with
  | None => best
  | Some parsed =>
      if negb (satisfiesRange candidate range) then best
      else match best with
           | None => Some (parsed, candidate)
           | Some (b, _) => if 0 <? compareVersions parsed b then Some (parsed, candidate) else best
           end
  end.

Definition maxSatisfying (candidates : list string) (range : string) : option string :=
  option_map snd (fold_left (max_step range) candidates None).

Definition isValidRange (range : string) : bool := negb (is_none (compileRange range)).

(** ** Precedence is a total order *)

#[export] Instance compareIdentifier_ok : CmpOk compareIdentifier.
Proof.
  assert (Hs : forall x y, (if (x =? y)%string then 0 else if str_cmp x y <? 0 then -1 else 1) <= 0
      <-> str_cmp x y <= 0).
  { intros x y. destruct (String.eqb_spec x y) as [->|Hne]; [pose proof (cmp_refl str_cmp y); lia|].
    assert (str_cmp x y <> 0) by (intros E; by apply cmp_eq in E).
    destruct (Z.ltb_spec (str_cmp x y) 0); lia. }
  split.
  - intros [x|x] [y|y]; simpl; try done.
    + apply (cmp_antisym (f := zcmp)).
    + rewrite (String.eqb_sym y x). destruct (String.eqb_spec x y) as [->|Hne]; [done|].
      assert (str_cmp x y <> 0) by (intros E; by apply cmp_eq in E).
      rewrite (cmp_antisym (f := str_cmp) x y).
      destruct (Z.ltb_spec (str_cmp x y) 0), (Z.ltb_spec (- str_cmp x y) 0); lia.
  - intros [x|x] [y|y]; simpl; try done.
    + intros H. f_equal. by apply (cmp_eq (f := zcmp)).
    + destruct (String.eqb_spec x y) as [->|]; [done|]. by case_match.
  - intros [x|x] [y|y] [z|z]; cbn [compareIdentifier]; try lia.
    + apply (cmp_trans (f := zcmp)).
    + rewrite !Hs. apply cmp_trans.
Qed.

Lemma compare_identifiers_list a b : compare_identifiers a b = list_cmp compareIdentifier a b.
Proof. reflexivity. Qed.

#[export] Instance comparePrerelease_ok : CmpOk comparePrerelease.
Proof.
  assert (E : forall a b, comparePrerelease a b =
    match a, b with [], [] => 0 | [], _ => 1 | _, [] => -1 | _, _ => list_cmp compareIdentifier a b end)
    by (intros [|x a] [|y b]; try done; apply compare_identifiers_list).
  split.
  - intros x y. rewrite !E. destruct x, y; try done. apply cmp_antisym.
  - intros x y. rewrite E. destruct x, y; try done. apply cmp_eq.
  - intros x y z. rewrite !E. destruct x, y, z; try lia. apply cmp_trans.
Qed.

(** Precedence as a composition of comparisons. *)
Definition then_cmp (a b : Z) : Z := if a =? 0 then b else a.

Lemma compareVersions_then a b :
  compareVersions a b =
  then_cmp (zcmp (major a) (major b)) (then_cmp (zcmp (minor a) (minor b))
    (then_cmp (zcmp (patch a) (patch b)) (comparePrerelease (prerelease a) (prerelease b)))).
Proof.
  unfold compareVersions, then_cmp, zcmp.
  destruct (major a =? major b); simpl; [|by case_match].
  destruct (minor a =? minor b); simpl; [|by case_match].
  destruct (patch a =? patch b); simpl; [done | by case_match].
Qed.

Lemma then_cmp_trans {A B} (f : A -> A -> Z) (g : B -> B -> Z) `{!CmpOk f, !CmpOk g} x y z u v w :
  then_cmp (f x y) (g u v) <= 0 -> then_cmp (f y z) (g v w) <= 0 -> then_cmp (f x z) (g u w) <= 0.
Proof.
  unfold then_cmp. intros H1 H2.
  destruct (Z.eqb_spec (f x y) 0) as [E1|E1].
  - apply cmp_eq in E1 as ->. destruct (f y z =? 0); [by eapply cmp_trans | done].
  - destruct (Z.eqb_spec (f y z) 0) as [E2|E2].
    + apply cmp_eq in E2 as ->. destruct (Z.eqb_spec (f x z) 0); lia.
    + pose proof (cmp_lt_trans f x y z H1 H2 ltac:(lia)). destruct (Z.eqb_spec (f x z) 0); lia.
Qed.

(** A pair of comparisons, the first decisive. *)
Definition pair_cmp {A B} (f : A -> A -> Z) (g : B -> B -> Z) (x y : A * B) : Z :=
  then_cmp (f x.1 y.1) (g x.2 y.2).

#[export] Instance pair_cmp_ok {A B} (f : A -> A -> Z) (g : B -> B -> Z) `{!CmpOk f, !CmpOk g} :
  CmpOk (pair_cmp f g).
Proof.
  split.
  - intros [x u] [y v]. unfold pair_cmp, then_cmp. simpl. rewrite (cmp_antisym (f := f) x y), (cmp_antisym (f := g) u v).
    destruct (Z.eqb_spec (f x y) 0), (Z.eqb_spec (- f x y) 0); lia.
  - intros [x u] [y v]. unfold pair_cmp, then_cmp. simpl.
    destruct (Z.eqb_spec (f x y) 0) as [E|E]; [|done]. apply cmp_eq in E as ->. by intros ->%cmp_eq.
  - intros [x u] [y v] [z w]. apply then_cmp_trans; apply _.
Qed.

Definition fields (v : ParsedVersion) := (major v, (minor v, (patch v, prerelease v))).

#[export] Instance compareVersions_ok : CmpOk compareVersions.
Proof.
  set (f := pair_cmp zcmp (pair_cmp zcmp (pair_cmp zcmp comparePrerelease))).
  assert (E : forall a b, compareVersions a b = f (fields a) (fields b))
    by (intros; apply compareVersions_then).
  split; intros x y; rewrite !E.
  - apply cmp_antisym.
  - intros H. apply cmp_eq in H. destruct x, y. injection H as -> -> -> ->. done.
  - intros z. rewrite !E. apply cmp_trans.
Qed.

(** C37: [compareVersions] is a total order on versions: it is
    antisymmetric and transitive, it is 0 only for equal versions, and a release
    comes after all its prereleases. *)
Theorem compareVersions_order (a b c : ParsedVersion) :
  compareVersions b a = - compareVersions a b /\
  (compareVersions a b = 0 <-> a = b) /\
  (compareVersions a b <= 0 -> compareVersions b c <= 0 -> compareVersions a c <= 0) /\
  (forall x y z pre, pre <> [] -> compareVersions (Version x y z pre) (Version x y z []) = -1).
Proof.
  split_and!.
  - apply cmp_antisym.
  - split; [apply cmp_eq | intros ->; apply cmp_refl, _].
  - apply cmp_trans.
  - intros x y z [|i pre] H; [done|]. unfold compareVersions. simpl. by rewrite !Z.eqb_refl.
Qed.

(** ** Ranges *)

(** A release compares with a version below the next one by the numbers. *)
Lemma release_lt a b c x y z s :
  (compareVersions (Version a b c []) (Version x y z [s]) <? 0) =
  ((a <? x) || ((a =? x) && ((b <? y) || ((b =? y) && (c <? z))))).
Proof.
  unfold compareVersions. simpl.
  destruct (Z.eqb_spec a x); simpl; [|destruct (Z.ltb_spec a x); simpl; rewrite ?orb_false_r; done].
  destruct (Z.ltb_spec a x); [lia|]. simpl.
  destruct (Z.eqb_spec b y); simpl; [|destruct (Z.ltb_spec b y); simpl; rewrite ?orb_false_r; done].
  destruct (Z.ltb_spec b y); [lia|]. simpl.
  destruct (Z.eqb_spec c z); simpl; destruct (Z.ltb_spec c z); simpl; done || lia.
Qed.

Lemma release_ge a b c x y z :
  (0 <=? compareVersions (Version a b c []) (Version x y z [])) =
  negb ((a <? x) || ((a =? x) && ((b <? y) || ((b =? y) && (c <? z))))).
Proof.
  unfold compareVersions. simpl.
  destruct (Z.eqb_spec a x); simpl; [|destruct (Z.ltb_spec a x); simpl; rewrite ?orb_false_r; done].
  destruct (Z.ltb_spec a x); [lia|]. simpl.
  destruct (Z.eqb_spec b y); simpl; [|destruct (Z.ltb_spec b y); simpl; rewrite ?orb_false_r; done].
  destruct (Z.ltb_spec b y); [lia|]. simpl.
  destruct (Z.eqb_spec c z); simpl; destruct (Z.ltb_spec c z); simpl; done || lia.
Qed.

Lemma matches_release a b c cs :
  matchesSet (Version a b c []) (CSet false cs) = forallb (matchesComparator (Version a b c [])) cs.
Proof. reflexivity. Qed.

Lemma tuple_lt a b c x y z :
  ((a <? x) || ((a =? x) && ((b <? y) || ((b =? y) && (c <? z))))) = true <->
  a < x \/ a = x /\ (b < y \/ b = y /\ c < z).
Proof. by rewrite !orb_true_iff, !andb_true_iff, !orb_true_iff, !andb_true_iff, !Z.ltb_lt, !Z.eqb_eq. Qed.

Lemma release_between a b c x y z x' y' z' s :
  forallb (matchesComparator (Version a b c []))
    [Cmp Ge (Version x y z []); Cmp Lt (Version x' y' z' [s])] = true <->
  ~ (a < x \/ a = x /\ (b < y \/ b = y /\ c < z)) /\
  (a < x' \/ a = x' /\ (b < y' \/ b = y' /\ c < z')).
Proof.
  unfold matchesComparator. cbn [forallb operator version].
  rewrite release_lt, release_ge, andb_true_r, andb_true_iff, negb_true_iff, <- not_true_iff_false, !tuple_lt.
  tauto.
Qed.

(** What a caret allows: no change of the leftmost non-zero number. *)
Definition caret_allows (x y z a b c : Z) : Prop :=
  if 0 <? x then a = x /\ (y < b \/ y = b /\ z <= c)
  else if 0 <? y then a = 0 /\ b = y /\ z <= c
  else a = 0 /\ b = 0 /\ c = z.

(** For releases, [^x.y.z] allows exactly the versions from
    x.y.z on that keep the leftmost non-zero number, and [~x.y.z] exactly those
    from x.y.z on with the same major and minor. *)
Lemma release_ranges (x y z a b c : Z) :
  0 <= x -> 0 <= y -> 0 <= z -> 0 <= a -> 0 <= b -> 0 <= c ->
  let base := Partial (Some x) (Some y) (Some z) [] in
  (matchesSet (Version a b c []) (CSet false (caretRange base)) = true <-> caret_allows x y z a b c) /\
  (matchesSet (Version a b c []) (CSet false (tildeRange base)) = true <-> a = x /\ b = y /\ z <= c).
Proof.
  intros Hx Hy Hz Ha Hb Hc base. rewrite !matches_release. unfold caret_allows, base, caretRange, tildeRange. simpl.
  split; [rewrite !orb_false_r; destruct (Z.ltb_spec 0 x); [|destruct (Z.ltb_spec 0 y)]|];
    (etransitivity; [apply (release_between a b c x y z)|]); simpl; lia.
Qed.

(** A prerelease is only admitted by a set that has a comparator
    with a prerelease of the same major, minor and patch.  The upper bound of a
    caret range is such a comparator, and its identifier is the string 0, which
    every number precedes: [^x.y.z] admits each numeric prerelease of the next
    major version. *)
Lemma prerelease_ranges (v : ParsedVersion) (s : ComparatorSet) (x y z n : Z) :
  (matchesSet v s = true -> prerelease v <> [] ->
   exists c, c ∈ comparators s /\ prerelease (version c) <> [] /\
     major (version c) = major v /\ minor (version c) = minor v /\ patch (version c) = patch v) /\
  (0 < x ->
   matchesSet (Version (x + 1) 0 0 [Num n]) (CSet false (caretRange (Partial (Some x) (Some y) (Some z) []))) = true).
Proof.
  split.
  - unfold matchesSet. intros H Hp. destruct (prerelease v) as [|i pre] eqn:E; [done|]. simpl in H.
    destruct (setAllowsPrerelease v s) eqn:Es; [|done]. unfold setAllowsPrerelease in Es.
    apply existsb_exists in Es as (c & Hc & Hb). exists c. rewrite elem_of_In. bools.
    split_and!; try done. intros En. by rewrite En in *.
  - intros Hx. unfold matchesSet, caretRange, setAllowsPrerelease, matchesComparator, complete, increment,
      compareVersions. simpl. rewrite (proj2 (Z.ltb_lt 0 x) Hx). simpl. rewrite !Z.eqb_refl. simpl.
    destruct (Z.eqb_spec (x + 1) x); [lia|]. simpl.
    destruct (Z.ltb_spec (x + 1) x); [lia|]. done.
Qed.

(** What a comparator set admits.  For releases, [^x.y.z] allows exactly
    the versions from x.y.z on that keep the leftmost non-zero number, and
    [~x.y.z] exactly those with the same major and minor.  A prerelease is only
    admitted next to a comparator with a prerelease of the same major, minor and
    patch; but the upper bound of a caret range is such a comparator, with the
    identifier 0 as a string, which every number precedes: [^x.y.z] admits each
    numeric prerelease of the next major version. *)
Theorem range_admission (x y z : Z) :
  0 <= x -> 0 <= y -> 0 <= z ->
  let base := Partial (Some x) (Some y) (Some z) [] in
  (forall a b c, 0 <= a -> 0 <= b -> 0 <= c ->
    (matchesSet (Version a b c []) (CSet false (caretRange base)) = true <-> caret_allows x y z a b c) /\
    (matchesSet (Version a b c []) (CSet false (tildeRange base)) = true <-> a = x /\ b = y /\ z <= c)) /\
  (forall v s, matchesSet v s = true -> prerelease v <> [] ->
   exists c, c ∈ comparators s /\ prerelease (version c) <> [] /\
     major (version c) = major v /\ minor (version c) = minor v /\ patch (version c) = patch v) /\
  (0 < x -> forall n, matchesSet (Version (x + 1) 0 0 [Num n]) (CSet false (caretRange base)) = true).
Proof.
  intros Hx Hy Hz base. split_and!.
  - intros. by apply release_ranges.
  - intros v s. apply (prerelease_ranges v s x y z 0).
  - intros Hpos n. by apply (prerelease_ranges (Version 0 0 0 []) (CSet true []) x y z n).
Qed.

(** ** [maxSatisfying] *)

Definition best_of (range : string) (seen : list string) (best : option (ParsedVersion * string)) : Prop :=
  match best with
  | None => forall c, c ∈ seen -> satisfiesRange c range = false
  | Some (bv, b) =>
      b ∈ seen /\ satisfiesRange b range = true /\ parseVersion b = Some bv /\
      forall c cv, c ∈ seen -> satisfiesRange c range = true -> parseVersion c = Some cv ->
        compareVersions cv bv <= 0
  end.

Lemma satisfies_parses c range : satisfiesRange c range = true -> exists v, parseVersion c = Some v.
Proof. unfold satisfiesRange. destruct (parseVersion c); [eauto | done]. Qed.

Lemma best_of_step range seen best c :
  best_of range seen best -> best_of range (seen ++ [c]) (max_step range best c).
Proof.
  intros H. unfold max_step.
  assert (Hskip : satisfiesRange c range = false -> best_of range (seen ++ [c]) best).
  { intros Hc. destruct best as [[bv b]|]; simpl in *.
    - destruct H as (H1 & H2 & H3 & H4). split_and!; [apply elem_of_app; by left|done|done|].
      intros c' cv [Hi| ->%list_elem_of_singleton]%elem_of_app; [eauto | congruence].
    - intros c' [Hi| ->%list_elem_of_singleton]%elem_of_app; auto. }
  destruct (parseVersion c) as [cv|] eqn:Ep.
  2: { apply Hskip. destruct (satisfiesRange c range) eqn:E; [|done].
       destruct (satisfies_parses _ _ E) as [? ?]. congruence. }
  destruct (satisfiesRange c range) eqn:Es; simpl; [|auto].
  assert (Hin : c ∈ seen ++ [c]) by (apply elem_of_app; right; left).
  destruct best as [[bv b]|]; simpl in H.
  - destruct H as (H1 & H2 & H3 & H4). destruct (Z.ltb_spec 0 (compareVersions cv bv)) as [Hlt|Hle].
    + simpl. split_and!; try done. intros c' cv' [Hi| ->%list_elem_of_singleton]%elem_of_app Hs' Hp'.
      * specialize (H4 c' cv' Hi Hs' Hp'). eapply (cmp_trans (f := compareVersions)); [exact H4|].
        rewrite (cmp_antisym (f := compareVersions) cv bv). lia.
      * rewrite Ep in Hp'. injection Hp' as ->. by rewrite (cmp_refl compareVersions).
    + simpl. split_and!; [apply elem_of_app; by left|done|done|].
      intros c' cv' [Hi| ->%list_elem_of_singleton]%elem_of_app Hs' Hp'; [eauto|]. congruence.
  - simpl. split_and!; try done. intros c' cv' [Hi| ->%list_elem_of_singleton]%elem_of_app Hs' Hp'.
    + rewrite (H c' Hi) in Hs'. done.
    + rewrite Ep in Hp'. injection Hp' as ->. by rewrite (cmp_refl compareVersions).
Qed.

Lemma best_of_fold range l seen best :
  best_of range seen best -> best_of range (seen ++ l) (fold_left (max_step range) l best).
Proof.
  revert seen best. induction l as [|c l IH]; intros seen best H; simpl; [by rewrite app_nil_r|].
  change (c :: l) with ([c] ++ l). rewrite app_assoc. by apply IH, best_of_step.
Qed.

(** [maxSatisfying] returns a candidate that satisfies the range
    and that no satisfying candidate exceeds; it returns nothing only when no
    candidate satisfies the range. *)
Theorem maxSatisfying_best (candidates : list string) (range : string) :
  match maxSatisfying candidates range with
  | None => forall c, c ∈ candidates -> satisfiesRange c range = false
  | Some b =>
      b ∈ candidates /\ satisfiesRange b range = true /\
      forall bv c cv, parseVersion b = Some bv -> c ∈ candidates -> satisfiesRange c range = true ->
        parseVersion c = Some cv -> compareVersions cv bv <= 0
  end.
Proof.
  assert (H0 : best_of range [] None) by (intros c Hc; by apply not_elem_of_nil in Hc).
  pose proof (best_of_fold range candidates [] None H0) as H. unfold maxSatisfying. simpl in H.
  destruct (fold_left _ _ _) as [[bv b]|]; simpl in *; [|exact H].
  destruct H as (H1 & H2 & H3 & H4). split_and!; [done|done|].
  intros bv' c cv Hb. rewrite H3 in Hb. injection Hb as <-. eauto.
Qed.

(** ** Witnesses *)

Lemma range_admission_witness :
  compileRange "^1.2.3" = Some [CSet false (caretRange (Partial (Some 1) (Some 2) (Some 3) []))] /\
  (matchesSet (Version 1 9 0 []) (CSet false (caretRange (Partial (Some 1) (Some 2) (Some 3) []))) = true
     <-> caret_allows 1 2 3 1 9 0) /\
  matchesSet (Version 2 0 0 [Num 5]) (CSet false (caretRange (Partial (Some 1) (Some 2) (Some 3) []))) = true.
Proof.
  split; [vm_compute; reflexivity|].
  destruct (range_admission 1 2 3 ltac:(lia) ltac:(lia) ltac:(lia)) as (H1 & _ & H2). split.
  - apply (H1 1 9 0); lia.
  - apply (H2 ltac:(lia) 5).
Defined.

Lemma compareVersions_order_witness :
  compareVersions (Version 1 0 0 [Str "rc"]) (Version 1 0 0 []) <= 0 /\
  compareVersions (Version 1 0 0 [Num 9]) (Version 1 0 0 []) <= 0.
Proof.
  split; [vm_compute; done|].
  apply (compareVersions_order (Version 1 0 0 [Num 9]) (Version 1 0 0 [Str "rc"]) (Version 1 0 0 []));
    vm_compute; done.
Defined.

Example ex1 : satisfiesRange "1.4.2" "^1.2.3 || 3.x" = true. Proof. reflexivity. Qed.
Example ex2 : satisfiesRange "v3.9.0+b5" "^1.2.3 || 3.x" = true. Proof. reflexivity. Qed.
Example ex3 : satisfiesRange "2.0.0-rc.1" "^1.2.3" = false. Proof. reflexivity. Qed.
Example ex4 : satisfiesRange "2.0.0-5" "^1.2.3" = true. Proof. reflexivity. Qed.
Example ex5 : maxSatisfying ["1.2.3"; "1.10.0"; "1.9.9"; "2.0.0"] "1.2 - 1.99" = Some "1.10.0"%string.
Proof. reflexivity. Qed.
Example ex6 : isValidRange "1.x.2" = false /\ isValidRange ">=1.2" = false /\ isValidRange "~1.2-beta" = true.
Proof. repeat split; reflexivity. Qed.

End Semver.
