(* ===== verification/Cron.v ===== *)
(** * Cron expressions (apps/server/src/lib/cron.ts)

    The parser of five-field expressions and the search for the next fire time.
    Times are whole milliseconds of the epoch within the range of [Date]; the UTC
    fields of a time are computed with the proleptic Gregorian calendar.
    [toInteger] stands for [Number(s)] when that is an integer: the parser uses it
    for a part that is no range, step or star. *)

From Stdlib Require Import ZArith Lia Bool Ascii String List.
From stdpp Require Import base decidable strings list.
From S2P Require Import Prelude Semver.
Local Open Scope Z_scope.
Local Open Scope js_scope.

Module Cron.

Inductive CronError := EmptyField | BadStep | BadRange | BadValue | FieldCount (n : nat) | NeverFires.

Record CronSchedule := Cron {
  minutes : list Z;
  hours : list Z;
  daysOfMonth : list Z;
  months : list Z;
  daysOfWeek : list Z
}.

(** ** The parser *)

(** The progression that a part of a field denotes. *)
Record Progression := Prog { first : Z; last_ : Z; step : Z }.

Definition is_digits (l : list ascii) : bool := negb (Semver.is_nil l) && forallb is_digit l.

(** [Number] of a run of digits is finite. *)
Definition finite (n : Z) : bool := n <? 2 ^ 1024 - 2 ^ 970.

(** [l] cut at the first [c]. *)
Fixpoint cut_at (c : ascii) (l : list ascii) : option (list ascii * list ascii) :=
  match l with
  | [] => None
  | x :: r => if (x =? c)%char then Some ([], r)
              else match cut_at c r with Some (a, b) => Some (x :: a, b) | None => None end
  end.

(** [^(\d+)-(\d+)$] *)
Definition range_match (l : list ascii) : option (Z * Z) :=
  match cut_at "-" l with
  | Some (a, b) => if is_digits a && is_digits b then Some (digits_val a, digits_val b) else None
  | None => None
  end.

Inductive StepBase := BaseAll | BaseFrom (a : Z) | BaseRange (a b : Z).

(** The match of the step form: its base and its step. *)
Definition step_match (l : list ascii) : option (StepBase * Z) :=
  match cut_at "/" l with
  | Some (a, b) =>
      if is_digits b then
        let s := digits_val b in
        if bool_decide (a = ["*"%char]) then Some (BaseAll, s)
        else if is_digits a then Some (BaseFrom (digits_val a), s)
        else match range_match a with
             | Some (x, y) => Some (BaseRange x y, s)
             | None => None
             end
      else None
  | None => None
  end.

Section Parser.
Context (toInteger : string -> option Z).

(** One part of the list of a field. *)
Definition parse_part (part : list ascii) (min max : Z) : outcome CronError Progression :=
  let trimmed := trim_chars part in
  if Semver.is_nil trimmed then Throw EmptyField
  else
    match step_match trimmed with
    | Some (base, s) =>
        if negb (finite s) || (s <? 1) then Throw BadStep
        else
          let '(start, end_) :=
            match base with
            | BaseAll => (min, max)
            | BaseFrom a => (a, max)
            | BaseRange a b => (a, b)
            end in
          if (start <? min) || (max <? end_) || (end_ <? start) then Throw BadRange
          else Ok (Prog start end_ s)
    | None =>
        match range_match trimmed with
        | Some (start, end_) =>
            if (start <? min) || (max <? end_) || (end_ <? start) then Throw BadRange
            else Ok (Prog start end_ 1)
        | None =>
            if bool_decide (trimmed = ["*"%char]) then Ok (Prog min max 1)
            else
              match toInteger (str trimmed) with
              | Some v => if (v <? min) || (max <? v) then Throw BadValue else Ok (Prog v v 1)
              | None => Throw BadValue
              end
        end
    end.

Definition add_value (values : list Z) (v : Z) : list Z :=
  if bool_decide (v ∈ values) then values else values ++ [v].

(** [for (let value = start; value <= end; value += step) values.add(value)] *)
Fixpoint add_values (fuel : nat) (v : Z) (p : Progression) (values : list Z) : list Z :=
  match fuel with
  | O => values
  | S f => if v <=? last_ p then add_values f (v + step p) p (add_value values v) else values
  end.

Definition add_progression (p : Progression) (values : list Z) : list Z :=
  add_values (Z.to_nat (last_ p - first p + 1)) (first p) p values.

Fixpoint field_loop (parts : list (list ascii)) (min max : Z) (values : list Z)
    : outcome CronError (list Z) :=
  match parts with
  | [] => Ok values
  | part :: r =>
      let? p := parse_part part min max in
      field_loop r min max (add_progression p values)
  end.

Definition fieldValues (expression : list ascii) (min max : Z) : outcome CronError (list Z) :=
  let? values := field_loop (split_on "," expression) min max [] in
  guard? negb (Semver.is_nil values) else EmptyField then Ok values.

Definition parseCron (expression : string) : outcome CronError CronSchedule :=
  match words_of (trim_chars (chars expression)) [] with
  | [minute; hour; dayOfMonth; month; dayOfWeek] =>
      let? dow := fieldValues dayOfWeek 0 7 in
      let dow := if bool_decide (7 ∈ dow) then add_value dow 0 else dow in
      let? mi := fieldValues minute 0 59 in
      let? ho := fieldValues hour 0 23 in
      let? dom := fieldValues dayOfMonth 1 31 in
      let? mo := fieldValues month 1 12 in
      Ok (Cron mi ho dom mo dow)
  | fields => Throw (FieldCount (Nat.max 1 (length fields)))
  end.
End Parser.

(** ** UTC fields of a time *)

Definition DAY_MS : Z := 24 * 60 * 60 * 1000.

Definition day_of (t : Z) : Z := t / DAY_MS.
Definition getUTCDay (t : Z) : Z := (day_of t + 4) mod 7.
Definition getUTCHours (t : Z) : Z := t mod DAY_MS / 3600000.
Definition getUTCMinutes (t : Z) : Z := t mod 3600000 / 60000.

(** Month (1-12) and day of the month of a day number, 1970-01-01 being day 0:
    years start in March, in cycles of 400 years. *)
Definition month_day (days : Z) : Z * Z :=
  let z := days + 719468 in
  let doe := z mod 146097 in
  let yoe := (doe - doe / 1460 + doe / 36524 - doe / 146096) / 365 in
  let doy := doe - (365 * yoe + yoe / 4 - yoe / 100) in
  let mp := (5 * doy + 2) / 153 in
  (if mp <? 10 then mp + 3 else mp - 9, doy - (153 * mp + 2) / 5 + 1).

Definition getUTCDate (t : Z) : Z := (month_day (day_of t)).2.
(** [getUTCMonth() + 1] *)
Definition month_of (t : Z) : Z := (month_day (day_of t)).1.

Definition has_value (l : list Z) (v : Z) : bool := bool_decide (v ∈ l).

Definition matches (t : Z) (cron : CronSchedule) : bool :=
  has_value (daysOfWeek cron) (getUTCDay t) && has_value (daysOfMonth cron) (getUTCDate t) &&
  has_value (months cron) (month_of t) && has_value (hours cron) (getUTCHours t) &&
  has_value (minutes cron) (getUTCMinutes t).

(** ** The search *)

Definition MAX_LOOKAHEAD_MS : Z := 5 * 365 * DAY_MS.
Definition minute : Z := 60 * 1000.

(** [start.setUTCSeconds(0, 0)] *)
Definition floor_minute (t : Z) : Z := t - t mod minute.

Fixpoint search (fuel : nat) (t limit : Z) (cron : CronSchedule) : outcome CronError Z :=
  match fuel with
  | O => Throw NeverFires
  | S f =>
      if t <=? limit then if matches t cron then Ok t else search f (t + minute) limit cron
      else Throw NeverFires
  end.

(** One more candidate than there are minutes up to the limit. *)
Definition search_fuel : nat := Z.to_nat (MAX_LOOKAHEAD_MS / minute + 1).

Definition nextCronAfter (from : Z) (cron : CronSchedule) : outcome CronError Z :=
  search search_fuel (floor_minute from + minute) (from + MAX_LOOKAHEAD_MS) cron.

(** ** Lemmas: fields *)

(** What a progression denotes. *)
Definition denotes (p : Progression) (v : Z) : Prop :=
  first p <= v <= last_ p /\ (step p | v - first p).

Lemma elem_add_value values v x : x ∈ add_value values v <-> x ∈ values \/ x = v.
Proof.
  unfold add_value. case_match; bools; [naive_solver|].
  by rewrite elem_of_app, list_elem_of_singleton.
Qed.

Lemma elem_add_values fuel v p values x :
  1 <= step p -> last_ p - v < Z.of_nat fuel ->
  x ∈ add_values fuel v p values <-> x ∈ values \/ v <= x <= last_ p /\ (step p | x - v).
Proof.
  intros Hs. revert v values. induction fuel as [|f IH]; intros v values Hf; simpl.
  - split; [auto|]. intros [?|[? _]]; [done | lia].
  - destruct (Z.leb_spec v (last_ p)) as [Hle|Hgt].
    + rewrite IH by lia. rewrite elem_add_value. split.
      * intros [[?| ->]|[H1 H2]]; [auto|right; split; [lia|by rewrite Z.sub_diag; exists 0]|].
        right. split; [lia|]. replace (x - v) with (x - (v + step p) + step p) by lia.
        apply Z.divide_add_r; [done | apply Z.divide_refl].
      * intros [?|[H1 [k Hk]]]; [auto|]. destruct (Z.eq_dec x v) as [->|Hne]; [auto|].
        right. assert (1 <= k) by nia. split; [nia|]. exists (k - 1). lia.
    + split; [auto|]. intros [?|[? _]]; [done | lia].
Qed.

Lemma elem_add_progression p values x :
  1 <= step p -> x ∈ add_progression p values <-> x ∈ values \/ denotes p x.
Proof. intros Hs. unfold add_progression. apply elem_add_values; [done | lia]. Qed.

Lemma parse_part_bounds ti part min max p :
  min <= max -> parse_part ti part min max = Ok p ->
  min <= first p /\ last_ p <= max /\ first p <= last_ p /\ 1 <= step p.
Proof.
  intros Hmm. unfold parse_part.
  repeat (case_match; try done); intros [= <-]; simpl; bools; simplify_eq; lia.
Qed.

Lemma field_loop_spec ti parts min max values vs :
  min <= max -> field_loop ti parts min max values = Ok vs ->
  forall x, x ∈ vs <-> x ∈ values \/
    exists part p, part ∈ parts /\ parse_part ti part min max = Ok p /\ denotes p x.
Proof.
  intros Hmm. revert values. induction parts as [|part parts IH]; intros values; simpl.
  - intros [= <-] x. split; [auto|]. intros [?|(part & p & Hp & _)]; [done|]. by apply not_elem_of_nil in Hp.
  - destruct (parse_part ti part min max) as [p|] eqn:E; simpl; [|done]. intros Hl x.
    destruct (parse_part_bounds _ _ _ _ _ Hmm E) as (_ & _ & _ & Hs).
    rewrite (IH _ Hl x), elem_add_progression by done. split.
    + intros [[?|?]|(q & r & Hq & ?)]; [auto| |].
      * right. exists part, p. split; [left | done].
      * right. exists q, r. split; [by right | done].
    + intros [?|(q & r & Hq & Hr & Hd)]; [auto|]. apply elem_of_cons in Hq as [->|Hq]; [|eauto 6].
      left. right. congruence.
Qed.

(** A field of an expression denotes the union of its parts: a
    value is in the parsed set exactly when some part of the comma list, read as
    start, end and step, reaches it; the set is not empty and stays within the
    bounds of the field. *)
Theorem fieldValues_spec (toInteger : string -> option Z) (expression : list ascii) (min max : Z)
    (values : list Z) :
  min <= max -> fieldValues toInteger expression min max = Ok values ->
  values <> [] /\
  (forall v, v ∈ values -> min <= v <= max) /\
  (forall v, v ∈ values <-> exists part p, part ∈ split_on "," expression /\
     parse_part toInteger part min max = Ok p /\
     first p <= v <= last_ p /\ (step p | v - first p)).
Proof.
  intros Hmm. unfold fieldValues. destruct (field_loop _ _ _ _ _) as [vs|] eqn:E; simpl; [|done].
  destruct vs as [|v0 vs]; simpl; [done|]. intros [= <-].
  pose proof (field_loop_spec _ _ _ _ _ _ Hmm E) as H.
  assert (Hiff : forall v, v ∈ v0 :: vs <-> exists part p, part ∈ split_on "," expression /\
     parse_part toInteger part min max = Ok p /\ denotes p v).
  { intros v. rewrite H. split; [|auto]. intros [Hv|?]; [by apply not_elem_of_nil in Hv | done]. }
  split_and!; [done| |exact Hiff].
  intros v (part & p & _ & Hp & [Hr _])%Hiff. pose proof (parse_part_bounds _ _ _ _ _ Hmm Hp). lia.
Qed.

(** ** Lemmas: the search *)

Lemma search_spec fuel t limit cron :
  limit - t < minute * Z.of_nat fuel ->
  match search fuel t limit cron with
  | Ok r => t <= r <= limit /\ (minute | r - t) /\ matches r cron = true /\
      forall u, t <= u < r -> (minute | u - t) -> matches u cron = false
  | Throw e => e = NeverFires /\
      forall u, t <= u <= limit -> (minute | u - t) -> matches u cron = false
  end.
Proof.
  unfold minute. change (60 * 1000) with 60000. revert t. induction fuel as [|f IH]; intros t Hf; simpl.
  - split; [done|]. intros u Hu. lia.
  - change minute with 60000. destruct (Z.leb_spec t limit) as [Hle|Hgt]; [|split; [done|]; intros u Hu; lia].
    destruct (matches t cron) eqn:Em.
    + split_and!; [lia|lia|rewrite Z.sub_diag; by exists 0|done|]. intros u Hu. lia.
    + specialize (IH (t + 60000) ltac:(lia)).
      assert (Hnext : forall u, t <= u -> (60000 | u - t) -> u = t \/ t + 60000 <= u /\ (60000 | u - (t + 60000))).
      { intros u Hu [k Hk]. destruct (Z.eq_dec u t); [auto|]. right. split; [lia|]. exists (k - 1). lia. }
      destruct (search f (t + 60000) limit cron) as [r|e].
      * destruct IH as (H1 & [k Hk] & H3 & H4). split_and!; [lia|lia|exists (k + 1); lia|done|].
        intros u Hu Hd. destruct (Hnext u ltac:(lia) Hd) as [->|[? ?]]; [done|]. apply H4; [lia | done].
      * destruct IH as (-> & H4). split; [done|]. intros u Hu Hd.
        destruct (Hnext u ltac:(lia) Hd) as [->|[? ?]]; [done|]. apply H4; [lia | done].
Qed.

(** [nextCronAfter] is the first full minute strictly after
    [from] that matches the schedule, within five years of 365 days; it throws
    exactly when no minute of that window matches. *)
Theorem nextCronAfter_first (from : Z) (cron : CronSchedule) :
  match nextCronAfter from cron with
  | Ok t => from < t <= from + MAX_LOOKAHEAD_MS /\ (minute | t) /\ matches t cron = true /\
      forall u, from < u < t -> (minute | u) -> matches u cron = false
  | Throw e => e = NeverFires /\
      forall u, from < u <= from + MAX_LOOKAHEAD_MS -> (minute | u) -> matches u cron = false
  end.
Proof.
  unfold nextCronAfter.
  assert (Hfloor : floor_minute from <= from < floor_minute from + minute /\ (minute | floor_minute from)).
  { unfold floor_minute. pose proof (Z.mod_pos_bound from minute ltac:(done)).
    pose proof (Z.div_mod from minute ltac:(done)). split; [lia|]. exists (from / minute). lia. }
  destruct Hfloor as [Hf [q Hq]].
  pose proof (search_spec search_fuel (floor_minute from + minute) (from + MAX_LOOKAHEAD_MS) cron) as H.
  assert (Hfuel : from + MAX_LOOKAHEAD_MS - (floor_minute from + minute) < minute * Z.of_nat search_fuel).
  { unfold search_fuel. rewrite Z2Nat.id by (vm_compute; done).
    change (minute * (MAX_LOOKAHEAD_MS / minute + 1)) with (MAX_LOOKAHEAD_MS + minute). lia. }
  specialize (H Hfuel).
  assert (Hd : forall u, (minute | u) <-> (minute | u - (floor_minute from + minute))).
  { intros u. rewrite Hq. split; intros [k Hk]; [exists (k - q - 1) | exists (k + q + 1)]; lia. }
  assert (Hlow : forall u, from < u -> (minute | u) -> floor_minute from + minute <= u).
  { intros u Hu [k Hk]. assert (q < k) by (unfold minute in *; lia). unfold minute in *. lia. }
  destruct (search _ _ _ _) as [t|e].
  - destruct H as (H1 & H2 & H3 & H4). split_and!; [lia|lia|by apply Hd|done|].
    intros u Hu Hdu. apply H4; [|by apply (proj1 (Hd u))]. split; [apply Hlow; [lia | done] | lia].
  - destruct H as (-> & H4). split; [done|]. intros u Hu Hdu. apply H4; [|by apply (proj1 (Hd u))].
    split; [apply Hlow; [lia | done] | lia].
Qed.

(** ** Witnesses *)

(** [Number] on plain digits. *)
Definition digits_only (s : string) : option Z :=
  if is_digits (chars s) then Some (digits_val (chars s)) else None.

Lemma fieldValues_spec_witness :
  fieldValues digits_only (chars "1-10/4,30") 0 59 = Ok [1; 5; 9; 30] /\
  (forall v, v ∈ [1; 5; 9; 30] -> 0 <= v <= 59).
Proof.
  split; [vm_compute; reflexivity|].
  apply (fieldValues_spec digits_only (chars "1-10/4,30") 0 59); [done | vm_compute; reflexivity].
Defined.

Example calendar : map month_day [0; 59; 11016; 11017; 20000; -1] =
  [(1, 1); (3, 1); (2, 29); (3, 1); (10, 4); (12, 31)].
Proof. reflexivity. Qed.

(** From Thursday 2023-11-16 00:00 UTC, the next Monday at 09:30. *)
Example next_monday :
  match parseCron digits_only "30 9 * * 1" with
  | Ok c => nextCronAfter 1700092800000 c = Ok 1700472600000
  | Throw _ => False
  end.
Proof. vm_compute. reflexivity. Qed.

End Cron.
