(* ===== verification/Jobs.v ===== *)
(** * Plugin jobs: schedules, retries and the dead-letter queue
    (apps/server/src/plugins/pluginJobs.ts)

    The store is the directory of job files: one entry per plugin and job id, in
    directory order.  An API operation is one step.  A scan is many: it reads a
    plugin's directory at once and then works on that copy of the records, one
    record per step, with other operations in between.  Times are whole
    milliseconds; the id of a new job is the random token of its operation; a
    payload is its JSON text.  The cron engine is used through [CronEngine]. *)

From Stdlib Require Import ZArith Lia Bool Ascii String List.
From stdpp Require Import base decidable strings list.
From S2P Require Import Prelude Cron.
Local Open Scope Z_scope.
Local Open Scope js_scope.

(** ** The interface to the cron engine *)

(** What the job runner needs of cron: a parser and a next fire time that is in
    the future. *)
Class CronEngine := {
  schedule_t : Type;
  parse_cron : string -> outcome Cron.CronError schedule_t;
  next_after : Z -> schedule_t -> outcome Cron.CronError Z;
  next_after_future : forall from s t, next_after from s = Ok t -> from < t
}.

(** The engine of the server, for an integer reading of numerals. *)
#[refine, local] Instance cron_engine (toInteger : string -> option Z) : CronEngine := {
  schedule_t := Cron.CronSchedule;
  parse_cron := Cron.parseCron toInteger;
  next_after := Cron.nextCronAfter
}.
Proof.
  intros from s t H. unfold Cron.nextCronAfter in H.
  pose proof (Cron.search_spec Cron.search_fuel (Cron.floor_minute from + Cron.minute)
    (from + Cron.MAX_LOOKAHEAD_MS) s) as Hs.
  pose proof (Z.mod_pos_bound from Cron.minute ltac:(done)) as Hm.
  assert (Hf : from < Cron.floor_minute from + Cron.minute) by (unfold Cron.floor_minute; lia).
  rewrite H in Hs. destruct Hs as [Hs _]; [|lia].
  unfold Cron.search_fuel. rewrite Z2Nat.id by (vm_compute; done).
  change (Cron.minute * (Cron.MAX_LOOKAHEAD_MS / Cron.minute + 1)) with (Cron.MAX_LOOKAHEAD_MS + Cron.minute).
  lia.
Defined.

Module Jobs.

(** ** Records *)

Inductive JobStatus := Active | Failed.
#[global] Instance status_eq : EqDecision JobStatus.
Proof. solve_decision. Defined.

Record JobRecord := Job {
  jobId : string;
  pluginId : string;
  name : string;
  runAt : option Z;
  intervalMs : option Z;
  cron : option string;
  payload : option string;
  createdAt : Z;
  nextRunAt : Z;
  runCount : Z;
  lastRunAt : option Z;
  status : option JobStatus;
  attempts : option Z;
  maxRetries : option Z;
  retryDelayMs : option Z;
  nextRetryAt : option Z;
  dispatchAt : option Z;
  lastError : option string;
  failedAt : option Z
}.

(** [{ ...record, ... }] for the fields that the runner writes. *)
Definition with_outcome (r : JobRecord) (st : option JobStatus) (a : Z) (err : option string)
    (failed retry : option Z) (next : Z) : JobRecord :=
  Job (jobId r) (pluginId r) (name r) (runAt r) (intervalMs r) (cron r) (payload r) (createdAt r)
      next (runCount r) (lastRunAt r) st (Some a) (maxRetries r) (retryDelayMs r) retry None err failed.

Definition with_dispatch (r : JobRecord) (t : Z) (d : option Z) (next : Z) : JobRecord :=
  Job (jobId r) (pluginId r) (name r) (runAt r) (intervalMs r) (cron r) (payload r) (createdAt r)
      next (runCount r + 1) (Some t) (status r) (attempts r) (maxRetries r) (retryDelayMs r)
      (nextRetryAt r) d (lastError r) (failedAt r).

Definition MAX_JOBS_PER_PLUGIN : Z := 100.
Definition MAX_NAME_LENGTH : Z := 200.
Definition MAX_PAYLOAD_BYTES : Z := 64 * 1024.
Definition MIN_INTERVAL_MS : Z := 1000.
Definition MAX_INTERVAL_MS : Z := 365 * 24 * 3600 * 1000.
Definition MAX_RETRIES : Z := 20.
Definition MIN_RETRY_DELAY_MS : Z := 1000.
Definition MAX_RETRY_DELAY_MS : Z := 3600000.
Definition DEFAULT_RETRY_DELAY_MS : Z := 5000.
Definition MAX_SAFE : Z := 9007199254740991.

Definition is_id_char (c : ascii) : bool :=
  is_alnum c || (c =? "_")%char || (c =? ".")%char || (c =? ":")%char || (c =? "-")%char.

(** [ID_RE] *)
Definition valid_id (s : string) : bool :=
  match chars s with
  | c :: r => is_alnum c && forallb is_id_char r && (length r <=? 127)%nat
  | [] => false
  end.

(** [Buffer.byteLength] of a text of the model. *)
Definition utf8_bytes (s : string) : Z :=
  zsum (map (fun c => if code c <? 128 then 1 else 2) (chars s)).

(** ** The directory *)

Definition Store := list ((string * string) * JobRecord).

Definition key_of (r : JobRecord) : string * string := (pluginId r, jobId r).

(** [readDir]: an invalid plugin id has no jobs, files with other names are skipped. *)
Definition readDir (s : Store) (pid : string) : list JobRecord :=
  if valid_id pid
  then map snd (List.filter (fun e => (e.1.1 =? pid)%string && valid_id e.1.2 &&
                                      (pluginId e.2 =? pid)%string && (jobId e.2 =? e.1.2)%string) s)
  else [].

Definition writeAtomic (s : Store) (r : JobRecord) : outcome string Store :=
  if negb (valid_id (pluginId r)) || negb (valid_id (jobId r)) then Throw "JOB_ID_INVALID"%string
  else Ok (map_set (key_of r) r s).

Definition rm (s : Store) (k : string * string) : Store := map_del k s.

Definition find_job (s : Store) (pid jid : string) : option JobRecord :=
  find (fun r => (jobId r =? jid)%string) (readDir s pid).

(** ** Outcomes of a dispatch *)

Definition backoffFor (r : JobRecord) (attempt : Z) : Z :=
  Z.min (default DEFAULT_RETRY_DELAY_MS (retryDelayMs r) * 2 ^ (attempt - 1)) MAX_RETRY_DELAY_MS.

Definition failureOf (r : JobRecord) (error : string) (t : Z) : JobRecord :=
  let n := default 0 (attempts r) + 1 in
  if default 0 (maxRetries r) <? n
  then with_outcome r (Some Failed) n (Some error) (Some t) None (nextRunAt r)
  else with_outcome r (status r) n (Some error) (failedAt r) (Some (t + backoffFor r n)) (nextRunAt r).

Definition recordFailure (s : Store) (r : JobRecord) (error : string) (t : Z) : outcome string Store :=
  writeAtomic s (failureOf r error t).

Section Runner.
Context `{CronEngine}.

(** [nextCronAfter(timestamp, parseCron(cron))] *)
Definition next_cron (t : Z) (c : string) : outcome string Z :=
  match parse_cron c with
  | Ok sch => match next_after t sch with Ok n => Ok n | Throw _ => Throw "cron"%string end
  | Throw _ => Throw "cron"%string
  end.

(** The next time of a recurring job: [None] for a one-shot. *)
Definition next_time (r : JobRecord) (t : Z) : outcome string (option Z) :=
  match intervalMs r with
  | Some i => Ok (Some (Z.max (nextRunAt r + i) (t + i)))
  | None =>
      match cron r with
      | Some c => let? n := next_cron t c in Ok (Some n)
      | None => Ok None
      end
  end.

Definition recordSuccess (s : Store) (r : JobRecord) (t : Z) : outcome string Store :=
  let? next := next_time r t in
  match next with
  | Some n => writeAtomic s (with_outcome r (status r) 0 None (failedAt r) None n)
  | None => Ok (rm s (key_of r))
  end.

(** ** The API *)

Record JobInput := Input {
  i_plugin : string;
  i_name : string;
  i_runAt : option Z;
  i_interval : option Z;
  i_cron : option string;
  i_payload : option string;
  i_retries : option Z;
  i_retryDelay : option Z
}.

Definition safe (n : Z) : bool := (- MAX_SAFE <=? n) && (n <=? MAX_SAFE).
Definition outside (n lo hi : Z) : bool := negb (safe n) || (n <? lo) || (hi <? n).
Definition bad (o : option Z) (lo hi : Z) : bool :=
  match o with Some n => outside n lo hi | None => false end.
Definition count_some {A} (o : option A) : nat := match o with Some _ => 1%nat | None => 0%nat end.
Definition trimmed (s : string) : string := trim s.

(** [schedule]; [loadedAt] is the time at which the module was loaded. *)
Definition schedule (loadedAt now : Z) (token : string) (s : Store) (i : JobInput)
    : outcome string (Store * JobRecord) :=
  let nm := trimmed (i_name i) in
  let kinds := (count_some (i_runAt i) + count_some (i_interval i) + count_some (i_cron i))%nat in
  guard? negb ((strlen nm =? 0) || (MAX_NAME_LENGTH <? strlen nm)) else "JOB_NAME_INVALID"%string then
  guard? negb (kinds =? 0)%nat else "JOB_SCHEDULE_INVALID"%string then
  guard? (kinds <=? 1)%nat else "JOB_SCHEDULE_EXCLUSIVE"%string then
  guard? match i_cron i with Some c => is_ok (parse_cron c) | None => true end
    else "JOB_CRON_INVALID"%string then
  guard? negb (bad (i_retries i) 0 MAX_RETRIES) else "JOB_RETRIES_INVALID"%string then
  guard? negb (bad (i_retryDelay i) MIN_RETRY_DELAY_MS MAX_RETRY_DELAY_MS)
    else "JOB_RETRY_DELAY_INVALID"%string then
  guard? negb (bad (i_runAt i) 1 (loadedAt + 10 * 365 * 24 * 3600 * 1000)) else "JOB_RUN_AT_INVALID"%string then
  guard? negb (bad (i_interval i) MIN_INTERVAL_MS MAX_INTERVAL_MS) else "JOB_INTERVAL_INVALID"%string then
  guard? match i_payload i with Some p => utf8_bytes p <=? MAX_PAYLOAD_BYTES | None => true end
    else "FILE_TOO_LARGE"%string then
  guard? Z.of_nat (length (readDir s (i_plugin i))) <? MAX_JOBS_PER_PLUGIN else "JOB_LIMIT_EXCEEDED"%string then
  let? next :=
    match i_interval i, i_cron i with
    | Some ms, _ => Ok (now + ms)
    | None, Some c => next_cron now c
    | None, None => Ok (default 0 (i_runAt i))
    end in
  let r := Job token (i_plugin i) nm (i_runAt i) (i_interval i) (i_cron i) (i_payload i) now next 0
             None None None (i_retries i) (i_retryDelay i) None None None None in
  let? s' := writeAtomic s r in
  Ok (s', r).

Definition list_jobs (s : Store) (pid : string) : list JobRecord :=
  stable_sort (fun a b => nextRunAt a <=? nextRunAt b) (readDir s pid).

Definition cancel (s : Store) (pid jid : string) : outcome string Store :=
  if negb (valid_id pid) || negb (valid_id jid) then Throw "NOT_FOUND"%string
  else if map_has (pid, jid) s then Ok (rm s (pid, jid)) else Throw "NOT_FOUND"%string.

Definition remove (s : Store) (pid jid : string) : Store * bool :=
  if negb (valid_id pid) || negb (valid_id jid) then (s, false)
  else if map_has (pid, jid) s then (rm s (pid, jid), true) else (s, false).

(** [ack]: the error of a failure is its trimmed text, or a default. *)
Definition ack (s : Store) (now : Z) (pid jid : string) (ok : bool) (error : option string)
    : outcome string (Store * bool) :=
  if negb (valid_id pid) || negb (valid_id jid) then Ok (s, false)
  else
    match find_job s pid jid with
    | None => Ok (s, false)
    | Some r =>
        match dispatchAt r with
        | None => Ok (s, false)
        | Some _ =>
            let? s' :=
              if ok then recordSuccess s r now
              else
                let e := match error with Some e => trimmed e | None => ""%string end in
                recordFailure s r (if (e =? "")%string then "job-failed"%string else e) now in
            Ok (s', true)
        end
    end.

Definition retry (s : Store) (now : Z) (pid jid : string) : outcome string Store :=
  if negb (valid_id pid) || negb (valid_id jid) then Ok s
  else
    match find_job s pid jid with
    | None => Ok s
    | Some r => writeAtomic s (with_outcome r (Some Active) 0 None None None now)
    end.

(** ** The scan *)

Record JobDue := Due { d_plugin : string; d_job : string; d_name : string; d_payload : option string }.

Definition due_of (r : JobRecord) : JobDue := Due (pluginId r) (jobId r) (name r) (payload r).

Inductive Verdict := Skip | AckTimeout | Dispatch.

(** The tests of the loop on a record. *)
Definition verdict (ackTimeoutMs t : Z) (r : JobRecord) : Verdict :=
  if bool_decide (status r = Some Failed) then Skip
  else
    match dispatchAt r with
    | Some d => if t <? d + ackTimeoutMs then Skip else AckTimeout
    | None =>
        if match nextRetryAt r with Some n => t <? n | None => false end then Skip
        else if t <? nextRunAt r then Skip
        else Dispatch
    end.

Definition ack_based (r : JobRecord) : bool := 0 <? default 0 (maxRetries r).

(** One record of a scan: the store, or an exception that ends the scan, and
    the event. *)
Definition scan_record (ackTimeoutMs t : Z) (s : Store) (r : JobRecord)
    : outcome string Store * list JobDue :=
  match verdict ackTimeoutMs t r with
  | Skip => (Ok s, [])
  | AckTimeout => (recordFailure s r "ack-timeout" t, [])
  | Dispatch =>
      if ack_based r then
        match writeAtomic s (with_dispatch r t (Some t) (nextRunAt r)) with
        | Ok s' => (Ok s', [due_of r])
        | Throw e => (Throw e, [])
        end
      else
        (let? next := next_time r t in
         match next with
         | Some n => writeAtomic s (with_dispatch r t (dispatchAt r) n)
         | None => Ok (rm s (key_of r))
         end, [due_of r])
  end.

(** A running scan: its time, the plugins to read, the records read. *)
Record Scan := MkScan { s_time : Z; s_dirs : list string; s_records : list JobRecord }.

Record Manager := MkManager { store : Store; scan : option Scan }.

(** The plugin directories, each once. *)
Definition directories (s : Store) : list string := remove_dups (map (fun e => e.1.1) s).

Inductive Op :=
| OpSchedule (now : Z) (token : string) (i : JobInput)
| OpCancel (pid jid : string)
| OpRemove (pid jid : string)
| OpAck (now : Z) (pid jid : string) (ok : bool) (error : option string)
| OpRetry (now : Z) (pid jid : string)
| OpScanBegin (now : Z)
| OpScanNext.

Definition store_or (m : Manager) (o : outcome string Store) : Manager :=
  match o with Ok s => MkManager s (scan m) | Throw _ => m end.

Definition scan_next (ackTimeoutMs : Z) (m : Manager) : Manager * list JobDue :=
  match scan m with
  | None => (m, [])
  | Some (MkScan t dirs (r :: rs)) =>
      let '(o, es) := scan_record ackTimeoutMs t (store m) r in
      match o with
      | Ok s => (MkManager s (Some (MkScan t dirs rs)), es)
      | Throw _ => (MkManager (store m) None, es)
      end
  | Some (MkScan t (d :: ds) []) =>
      (MkManager (store m) (Some (MkScan t ds (readDir (store m) d))), [])
  | Some (MkScan t [] []) => (MkManager (store m) None, [])
  end.

Definition step (loadedAt ackTimeoutMs : Z) (m : Manager) (op : Op) : Manager * list JobDue :=
  match op with
  | OpSchedule now token i =>
      (match schedule loadedAt now token (store m) i with
       | Ok (s, _) => MkManager s (scan m)
       | Throw _ => m
       end, [])
  | OpCancel pid jid => (store_or m (cancel (store m) pid jid), [])
  | OpRemove pid jid => (MkManager (remove (store m) pid jid).1 (scan m), [])
  | OpAck now pid jid ok error =>
      (match ack (store m) now pid jid ok error with
       | Ok (s, _) => MkManager s (scan m)
       | Throw _ => m
       end, [])
  | OpRetry now pid jid => (store_or m (retry (store m) now pid jid), [])
  | OpScanBegin now =>
      (match scan m with
       | Some _ => m
       | None => MkManager (store m) (Some (MkScan now (directories (store m)) []))
       end, [])
  | OpScanNext => scan_next ackTimeoutMs m
  end.

Fixpoint run (loadedAt ackTimeoutMs : Z) (m : Manager) (ops : list Op) : Manager * list JobDue :=
  match ops with
  | [] => (m, [])
  | op :: r =>
      let '(m1, e1) := step loadedAt ackTimeoutMs m op in
      let '(m2, e2) := run loadedAt ackTimeoutMs m1 r in
      (m2, e1 ++ e2)
  end.
End Runner.

(** ** The record invariant *)

Record record_ok (r : JobRecord) : Prop := {
  rk_ids : valid_id (pluginId r) = true /\ valid_id (jobId r) = true;
  rk_retries : 0 <= default 0 (maxRetries r) <= MAX_RETRIES;
  rk_attempts : 0 <= default 0 (attempts r);
  rk_failed : status r = Some Failed ->
    default 0 (attempts r) = default 0 (maxRetries r) + 1 /\ dispatchAt r = None /\ nextRetryAt r = None;
  rk_active : status r <> Some Failed -> default 0 (attempts r) <= default 0 (maxRetries r);
  rk_held : dispatchAt r <> None -> 0 < default 0 (maxRetries r);
  rk_interval : forall i, intervalMs r = Some i -> MIN_INTERVAL_MS <= i <= MAX_INTERVAL_MS;
  rk_count : 0 <= runCount r
}.

Definition store_ok (s : Store) : Prop :=
  map_ok s /\ forall k r, map_get k s = Some r -> key_of r = k /\ record_ok r.

Lemma readDir_elem s pid r :
  store_ok s -> r ∈ readDir s pid -> map_get (key_of r) s = Some r /\ record_ok r.
Proof.
  intros [Hk Hs]. unfold readDir. case_match; [|intros Hr; by apply not_elem_of_nil in Hr].
  intros ([k r0] & -> & Hr)%list_elem_of_fmap. apply elem_of_filter_bool in Hr as [Hr _].
  pose proof (elem_map_get k r0 s Hk Hr) as Hg. destruct (Hs k r0 Hg) as [<- ?]. by split.
Qed.

Lemma find_job_ok s pid jid r :
  store_ok s -> find_job s pid jid = Some r -> map_get (key_of r) s = Some r /\ record_ok r.
Proof.
  intros Hs Hf. unfold find_job in Hf. apply find_some in Hf as [Hf _].
  apply (readDir_elem s pid); [done | by apply elem_of_In].
Qed.

Lemma write_ok s r s' : store_ok s -> record_ok r -> writeAtomic s r = Ok s' -> store_ok s'.
Proof.
  intros [Hk Hs] Hr. unfold writeAtomic. case_match; [done|]. intros [= <-]. split; [by apply map_set_ok|].
  intros k r0. rewrite map_get_set. case_decide as E; [|apply Hs]. intros [= <-]. by split.
Qed.

Lemma rm_ok s k : store_ok s -> store_ok (rm s k).
Proof.
  intros [Hk Hs]. split; [by apply map_del_ok|]. intros k0 r. unfold rm. rewrite map_get_del by done.
  case_decide; [done | apply Hs].
Qed.

Lemma failure_ok r e t : record_ok r -> status r <> Some Failed -> record_ok (failureOf r e t).
Proof.
  intros [H1 H2 H3 H4 H5 H6 H7 H8] Hst. specialize (H5 Hst). unfold failureOf.
  destruct (Z.ltb_spec (default 0 (maxRetries r)) (default 0 (attempts r) + 1)) as [Hlt|Hle];
    split; cbn -[Z.add]; try tauto; try lia; try congruence.
  all: intros; first [congruence | split_and!; first [done | lia]].
Qed.

Section Invariant.
Context `{CronEngine}.

Lemma success_ok s r t s' : store_ok s -> record_ok r -> status r <> Some Failed ->
  recordSuccess s r t = Ok s' -> store_ok s'.
Proof.
  intros Hs [H1 H2 H3 H4 H5 H6 H7 H8] Hst. unfold recordSuccess.
  destruct (next_time r t) as [[n|]|] eqn:En; simpl; [| |done].
  - apply write_ok; [done|]. split; simpl; try done; lia.
  - intros [= <-]. by apply rm_ok.
Qed.

Lemma failed_not_held r : record_ok r -> dispatchAt r <> None -> status r <> Some Failed.
Proof. intros Hr Hd Hf. destruct (rk_failed _ Hr Hf) as (_ & ? & _). done. Qed.

Lemma bad_false o lo hi n : bad o lo hi = false -> o = Some n -> lo <= n <= hi.
Proof. intros Hb ->. unfold bad, outside in Hb. bools. lia. Qed.

Lemma schedule_ok L now token s i s' r :
  store_ok s -> schedule L now token s i = Ok (s', r) -> store_ok s' /\ record_ok r.
Proof.
  intros Hs. unfold schedule. guards.
  destruct (match i_interval i with Some _ => _ | None => _ end) as [next|]; simpl; [|done].
  set (r0 := Job _ _ _ _ _ _ _ _ _ _ _ _ _ _ _ _ _ _ _).
  destruct (writeAtomic s r0) as [s1|] eqn:Ew; simpl; [|done]. intros [= <- <-].
  assert (Hids : valid_id (i_plugin i) = true /\ valid_id token = true).
  { unfold writeAtomic in Ew. simpl in Ew. destruct (valid_id (i_plugin i)), (valid_id token); done. }
  assert (Hr : record_ok r0).
  { bools. split; simpl; try done.
    - destruct (i_retries i) as [n|] eqn:Er; simpl; [|unfold MAX_RETRIES; lia]. by eapply bad_false.
    - intros _. destruct (i_retries i) as [n|] eqn:Er; simpl; [|lia].
      assert (0 <= n <= MAX_RETRIES) by (by eapply bad_false). lia.
    - intros ms Hms. by eapply bad_false. }
  split; [by eapply write_ok | done].
Qed.

Lemma ack_ok s now pid jid ok e s' b :
  store_ok s -> ack s now pid jid ok e = Ok (s', b) -> store_ok s'.
Proof.
  intros Hs. unfold ack. case_match; [by intros [= <- _]|].
  destruct (find_job s pid jid) as [r|] eqn:Ef; [|by intros [= <- _]].
  destruct (find_job_ok _ _ _ _ Hs Ef) as [_ Hr].
  destruct (dispatchAt r) as [d|] eqn:Ed; [|by intros [= <- _]].
  assert (Hst : status r <> Some Failed) by (apply failed_not_held; [done | congruence]).
  destruct ok.
  - destruct (recordSuccess s r now) as [s1|] eqn:E; simpl; [|done]. intros [= <- _]. by eapply success_ok.
  - unfold recordFailure. destruct (writeAtomic s _) as [s1|] eqn:E; simpl; [|done]. intros [= <- _].
    eapply write_ok; [done | | exact E]. by apply failure_ok.
Qed.

Lemma retry_ok s now pid jid s' : store_ok s -> retry s now pid jid = Ok s' -> store_ok s'.
Proof.
  intros Hs. unfold retry. case_match; [by intros [= <-]|].
  destruct (find_job s pid jid) as [r|] eqn:Ef; [|by intros [= <-]].
  destruct (find_job_ok _ _ _ _ Hs Ef) as [_ [H1 H2 H3 H4 H5 H6 H7 H8]].
  apply write_ok; [done|]. split; simpl; try done; lia.
Qed.

Lemma verdict_active T t r :
  verdict T t r <> Skip -> status r <> Some Failed.
Proof. unfold verdict. case_match; [done|]. by bools. Qed.

Lemma scan_record_ok T t s r o es s' :
  store_ok s -> record_ok r -> scan_record T t s r = (o, es) -> o = Ok s' -> store_ok s'.
Proof.
  intros Hs Hr. unfold scan_record. pose proof (verdict_active T t r) as Hv.
  destruct (verdict T t r); [intros [= <- <-] [= <-]; done| |].
  - intros [= <- <-]. apply write_ok; [done|]. by apply failure_ok; [|apply Hv].
  - specialize (Hv ltac:(done)). destruct (ack_based r) eqn:Ea.
    + destruct (writeAtomic s _) as [s1|] eqn:E; intros [= <- <-]; [|done]. intros [= <-].
      eapply write_ok; [done| |exact E]. unfold ack_based in Ea. bools.
      destruct Hr as [H1 H2 H3 H4 H5 H6 H7 H8]. split; simpl; try done. lia.
    + intros [= <- _]. destruct (next_time r t) as [[n|]|]; simpl; [| |done].
      * apply write_ok; [done|]. destruct Hr as [H1 H2 H3 H4 H5 H6 H7 H8]. split; simpl; try done. lia.
      * intros [= <-]. by apply rm_ok.
Qed.

Definition manager_ok (m : Manager) : Prop :=
  store_ok (store m) /\
  forall sc r, scan m = Some sc -> r ∈ s_records sc -> record_ok r.

Lemma step_ok L T m op : manager_ok m -> manager_ok (step L T m op).1.
Proof.
  intros Hm. pose proof Hm as [Hs Hsc]. destruct op; cbn [step].
  - destruct (schedule _ _ _ _ _) as [[s' r]|] eqn:E; [|by split].
    split; [by eapply schedule_ok | apply Hsc].
  - unfold cancel, store_or. repeat case_match; try (by split); simplify_eq.
    split; [by apply rm_ok | apply Hsc].
  - unfold remove. repeat case_match; try (by split). split; [by apply rm_ok | apply Hsc].
  - destruct (ack _ _ _ _ _ _) as [[s' b]|] eqn:E; [|by split]. split; [by eapply ack_ok | apply Hsc].
  - unfold store_or. destruct (retry _ _ _ _) as [s'|] eqn:E; [|by split].
    split; [by eapply retry_ok | apply Hsc].
  - destruct (scan m) as [sc|] eqn:E; [exact Hm|]. split; [done|].
    intros sc r [= <-] Hr. by apply not_elem_of_nil in Hr.
  - unfold scan_next. destruct (scan m) as [[t dirs [|r rs]]|] eqn:E; [| |exact Hm].
    + destruct dirs as [|d ds]; (split; [done|]); [done|]. intros sc r [= <-] Hr.
      by apply (readDir_elem (store m) d).
    + destruct (scan_record T t (store m) r) as [o es] eqn:Er.
      assert (Hr : record_ok r) by (eapply Hsc; [reflexivity|]; left).
      assert (Hrs : forall r0, r0 ∈ rs -> record_ok r0) by (intros; eapply Hsc; [reflexivity|]; by right).
      destruct o as [s'|], dirs as [|d ds]; (split; [first [exact Hs | by eapply scan_record_ok]|]);
        intros sc r0 [= <-] Hr0; by apply Hrs.
Qed.

Lemma jobs_run_ok L T m ops : manager_ok m -> manager_ok (run L T m ops).1.
Proof.
  revert m. induction ops as [|op ops IH]; intros m Hm; cbn [run]; [done|].
  pose proof (step_ok L T m op Hm) as H1. destruct (step L T m op) as [m1 e1].
  specialize (IH m1 H1). by destruct (run L T m1 ops).
Qed.

(** ** Properties *)

Definition empty_manager : Manager := MkManager [] None.

(** Whatever the interleaving of requests, acknowledgements and
    scans, every job file is under its own name and within its retry budget: a
    job that is not dead has failed at most [maxRetries] times in a row, a job in
    the dead-letter queue has failed exactly once more and waits for nothing, and
    only a job with a retry budget awaits an acknowledgement. *)
Theorem jobs_retry_budget (loadedAt ackTimeoutMs : Z) (ops : list Op) :
  let s := store (run loadedAt ackTimeoutMs empty_manager ops).1 in
  map_ok s /\
  forall k r, map_get k s = Some r ->
    key_of r = k /\ 0 <= default 0 (attempts r) /\ 0 <= default 0 (maxRetries r) <= 20 /\
    (status r <> Some Failed -> default 0 (attempts r) <= default 0 (maxRetries r)) /\
    (status r = Some Failed -> default 0 (attempts r) = default 0 (maxRetries r) + 1 /\
       dispatchAt r = None /\ nextRetryAt r = None) /\
    (dispatchAt r <> None -> 0 < default 0 (maxRetries r)).
Proof.
  intros s. assert (H0 : manager_ok empty_manager) by (split; [split; [constructor | done] | done]).
  destruct (jobs_run_ok loadedAt ackTimeoutMs _ ops H0) as [[Hk Hs] _]. split; [exact Hk|].
  intros k r Hg. destruct (Hs k r Hg) as [He [H1 H2 H3 H4 H5 H6 H7 H8]]. split_and!; try done; apply H2.
Qed.

Lemma next_time_future r t n :
  record_ok r -> next_time r t = Ok (Some n) -> t < n.
Proof.
  intros Hr. unfold next_time. destruct (intervalMs r) as [i|] eqn:Ei.
  - intros [= <-]. pose proof (rk_interval _ Hr i Ei). unfold MIN_INTERVAL_MS in *. lia.
  - destruct (cron r) as [c|]; [|done]. unfold next_cron. destruct (parse_cron c) as [sch|]; simpl; [|done].
    destruct (next_after t sch) as [m|] eqn:E; simpl; [|done]. intros [= <-]. by eapply next_after_future.
Qed.

(** A scan emits a job only when it is not dead, not waiting
    for an acknowledgement, and both its time and its retry time have come; and
    when the step succeeds the job cannot be emitted again at that time: it is
    held for its acknowledgement, its next time is in the future, or (a one-shot
    without retries) it is gone. *)
Theorem dispatch_once (ackTimeoutMs t : Z) (s s' : Store) (r : JobRecord) (d : JobDue) (es : list JobDue) :
  map_ok s -> record_ok r -> scan_record ackTimeoutMs t s r = (Ok s', es) -> d ∈ es ->
  es = [due_of r] /\ status r <> Some Failed /\ dispatchAt r = None /\ nextRunAt r <= t /\
  (forall n, nextRetryAt r = Some n -> n <= t) /\
  match map_get (key_of r) s' with
  | Some r' => dispatchAt r' = Some t \/ t < nextRunAt r'
  | None => intervalMs r = None /\ cron r = None /\ ack_based r = false
  end.
Proof.
  intros Hk Hr Hsc Hd. unfold scan_record, verdict in Hsc.
  destruct (bool_decide (status r = Some Failed)) eqn:Est; [simplify_eq; by apply not_elem_of_nil in Hd|].
  destruct (dispatchAt r) as [da|] eqn:Eda.
  { destruct (t <? _); injection Hsc as _ <-; by apply not_elem_of_nil in Hd. }
  destruct (match nextRetryAt r with Some n => t <? n | None => false end) eqn:Ert;
    [simplify_eq; by apply not_elem_of_nil in Hd|].
  destruct (Z.ltb_spec t (nextRunAt r)) as [?|Hle]; [simplify_eq; by apply not_elem_of_nil in Hd|].
  assert (Hes : es = [due_of r]).
  { destruct (ack_based r); [|by injection Hsc]. destruct (writeAtomic _ _); by simplify_eq. }
  bools. split_and!; try done.
  - intros n En. rewrite En in Ert. bools. lia.
  - destruct (ack_based r) eqn:Ea.
    + destruct (writeAtomic _ _) as [s1|] eqn:Ew; [|done]. injection Hsc as -> _.
      unfold writeAtomic in Ew. case_match; [done|]. injection Ew as <-.
      change (key_of (with_dispatch r t (Some t) (nextRunAt r))) with (key_of r).
      rewrite map_get_set, decide_True by done. by left.
    + injection Hsc as Hsc _. destruct (next_time r t) as [[n|]|] eqn:En; simpl in Hsc; [| |done].
      * unfold writeAtomic in Hsc. case_match; [done|]. injection Hsc as <-.
        change (key_of (with_dispatch r t None n)) with (key_of r).
        rewrite map_get_set, decide_True by done. right. simpl. by eapply next_time_future.
      * injection Hsc as <-. unfold rm. rewrite map_get_del, decide_True by done.
        unfold next_time in En. destruct (intervalMs r); [done|]. destruct (cron r) as [c|]; [|done].
        simpl in En. by destruct (next_cron t c).
Qed.

(** A scan works on the records it read, and is not a
    transaction.  A job that is cancelled between the read and its own step is
    still emitted, and when it is recurring or waits for an acknowledgement its
    file is written back: the cancelled job is alive again.  And a due cron job
    whose next time cannot be computed is emitted and then ends the whole scan
    with its record unchanged, so the next scan emits it again and the jobs
    behind it are never reached. *)
Theorem scan_copy_hazards (ackTimeoutMs t t' : Z) (m : Manager) (ds : list string)
    (r : JobRecord) (rs : list JobRecord) :
  map_ok (store m) -> record_ok r -> scan m = Some (MkScan t ds (r :: rs)) ->
  verdict ackTimeoutMs t r = Dispatch ->
  (forall n, next_time r t = Ok (Some n) -> exists m' r',
     (forall s, cancel (store m) (pluginId r) (jobId r) = Ok s ->
        map_get (key_of r) s = None /\
        step (H := H) t' ackTimeoutMs (MkManager s (scan m)) OpScanNext = (m', [due_of r]) /\
        map_get (key_of r) (store m') = Some r')) /\
  (forall e, next_time r t = Throw e -> ack_based r = false ->
     step (H := H) t' ackTimeoutMs m OpScanNext = (MkManager (store m) None, [due_of r])).
Proof.
  intros Hk Hr Hsc Hv. destruct (rk_ids _ Hr) as [Hp Hj]. split.
  - intros n Hn.
    set (r' := if ack_based r then with_dispatch r t (Some t) (nextRunAt r) else with_dispatch r t (dispatchAt r) n).
    assert (Hkey : key_of r' = key_of r) by (subst r'; by destruct (ack_based r)).
    exists (MkManager (map_set (key_of r) r' (rm (store m) (key_of r))) (Some (MkScan t ds rs))), r'.
    intros s. unfold cancel. rewrite Hp, Hj. simpl. case_match; [|done]. intros [= <-]. split_and!.
    + unfold rm. by rewrite map_get_del, decide_True.
    + cbn [step]. unfold scan_next. cbn [scan]. rewrite Hsc. unfold scan_record. rewrite Hv.
      subst r'. destruct (ack_based r) eqn:Ea, ds; rewrite ?Hn; simpl; unfold writeAtomic; simpl;
        rewrite Hp, Hj; done.
    + simpl. by rewrite map_get_set, decide_True.
  - intros e He Ha. cbn [step]. unfold scan_next. rewrite Hsc. unfold scan_record. rewrite Hv, Ha, He.
    by destruct ds.
Qed.

End Invariant.

(** [n] failures in a row, each reported at its time. *)
Fixpoint fail_times (r : JobRecord) (reports : list (string * Z)) : JobRecord :=
  match reports with
  | [] => r
  | (e, t) :: rest => fail_times (failureOf r e t) rest
  end.

Lemma failureOf_budget r e t : maxRetries (failureOf r e t) = maxRetries r /\ retryDelayMs (failureOf r e t) = retryDelayMs r.
Proof. unfold failureOf. by case_match. Qed.

Lemma backoff_bounds r n :
  1 <= n -> (forall d, retryDelayMs r = Some d -> MIN_RETRY_DELAY_MS <= d) ->
  1000 <= backoffFor r n <= MAX_RETRY_DELAY_MS.
Proof.
  intros Hn Hd. unfold backoffFor, MAX_RETRY_DELAY_MS. split; [|lia].
  assert (1 <= 2 ^ (n - 1)) by (change 1 with (2 ^ 0); apply Z.pow_le_mono_r; lia).
  destruct (retryDelayMs r) as [d|]; simpl; [specialize (Hd d eq_refl); unfold MIN_RETRY_DELAY_MS in *; nia|].
  unfold DEFAULT_RETRY_DELAY_MS. nia.
Qed.

(** A job that keeps failing reaches the dead-letter queue after
    exactly its retry budget.  From a record with no failed attempt, after [n]
    reports of failure: as long as n is at most [maxRetries] the job stays
    dispatchable, [n] attempts are recorded and the next one is at least a second
    and at most an hour after the last report; one report more puts it into the
    queue, with the last error and time. *)
Theorem failures_reach_dlq (r : JobRecord) (reports : list (string * Z)) (e : string) (t : Z) :
  status r <> Some Failed -> default 0 (attempts r) = 0 ->
  (forall d, retryDelayMs r = Some d -> MIN_RETRY_DELAY_MS <= d) ->
  let n := Z.of_nat (length reports) + 1 in
  let r' := fail_times r (reports ++ [(e, t)]) in
  (n <= default 0 (maxRetries r) ->
     status r' = status r /\ attempts r' = Some n /\ dispatchAt r' = None /\
     exists at_, nextRetryAt r' = Some at_ /\ t + 1000 <= at_ <= t + MAX_RETRY_DELAY_MS) /\
  (n = default 0 (maxRetries r) + 1 ->
     status r' = Some Failed /\ attempts r' = Some n /\ lastError r' = Some e /\ failedAt r' = Some t /\
     nextRetryAt r' = None /\ dispatchAt r' = None).
Proof.
  intros Hst Ha Hd n r'.
  assert (Hgen : forall l r0, status r0 <> Some Failed ->
    default 0 (attempts r0) + Z.of_nat (length l) <= default 0 (maxRetries r0) ->
    let r1 := fail_times r0 l in
    status r1 = status r0 /\ default 0 (attempts r1) = default 0 (attempts r0) + Z.of_nat (length l) /\
    maxRetries r1 = maxRetries r0 /\ retryDelayMs r1 = retryDelayMs r0).
  { induction l as [|[e0 t0] l IH]; intros r0 Hs0 Hl; simpl; [split_and!; (done || lia)|].
    cbn [length] in Hl. destruct (failureOf_budget r0 e0 t0) as [Hm Hr].
    assert (Hf : status (failureOf r0 e0 t0) = status r0 /\
      default 0 (attempts (failureOf r0 e0 t0)) = default 0 (attempts r0) + 1).
    { unfold failureOf. rewrite (proj2 (Z.ltb_ge _ _)) by lia. done. }
    destruct Hf as [Hs1 Ha1]. destruct (IH (failureOf r0 e0 t0)) as (I1 & I2 & I3 & I4); [congruence|rewrite Hm; lia|].
    split_and!; [congruence|lia|congruence|congruence]. }
  assert (Hsplit : r' = failureOf (fail_times r reports) e t).
  { subst r'. clear. revert r. induction reports as [|[e0 t0] l IH]; intros r; simpl; [done|]. apply IH. }
  rewrite Hsplit. split; intros Hn.
  - destruct (Hgen reports r Hst) as (I1 & I2 & I3 & I4); [lia|]. unfold failureOf.
    rewrite I3, I2, Ha, (proj2 (Z.ltb_ge _ _)) by lia. simpl. split_and!; [done|f_equal; lia|done|].
    eexists. split; [done|]. pose proof (backoff_bounds (fail_times r reports) (0 + Z.of_nat (length reports) + 1)
      ltac:(lia) ltac:(by rewrite I4)). lia.
  - destruct (Hgen reports r Hst) as (I1 & I2 & I3 & I4); [lia|]. unfold failureOf.
    rewrite I3, I2, Ha, (proj2 (Z.ltb_lt _ _)) by lia. simpl. split_and!; first [done | f_equal; lia].
Qed.

(** ** The theorems at concrete inputs *)

Definition eng : CronEngine := cron_engine (fun _ => None).

(** A job that repeats every minute, due at one minute, with a retry budget. *)
Definition sample (retries interval : option Z) : JobRecord :=
  Job "j1" "notes" "tick" (if interval then None else Some 60000) interval None None 0 60000 0 None None None
      retries (Some 2000) None None None None.

Lemma sample_ok : record_ok (sample (Some 2) (Some 60000)).
Proof. split; simpl; unfold MAX_RETRIES, MIN_INTERVAL_MS, MAX_INTERVAL_MS; try done; try lia; intros ? [= <-]; lia. Qed.

Definition held : Store := [(("notes", "j1"), sample (Some 2) (Some 60000))]%string.

Lemma held_ok : map_ok held.
Proof. apply (bool_decide_unpack _). vm_compute. exact I. Qed.

Lemma dispatch_once_witness :
  exists s', scan_record (H := eng) 300000 60000 held (sample (Some 2) (Some 60000)) =
               (Ok s', [due_of (sample (Some 2) (Some 60000))]) /\
    match map_get ("notes", "j1")%string s' with
    | Some r' => dispatchAt r' = Some 60000 \/ 60000 < nextRunAt r'
    | None => False
    end.
Proof.
  eexists. split; [reflexivity|].
  destruct (dispatch_once (H := eng) 300000 60000 held _ (sample (Some 2) (Some 60000)) (due_of (sample (Some 2) (Some 60000))) _
    held_ok sample_ok eq_refl (list_elem_of_here _ _)) as (_ & _ & _ & _ & _ & Hm).
  exact Hm.
Defined.

Lemma scan_copy_hazards_witness :
  exists m' r', forall s, cancel held "notes" "j1" = Ok s ->
    map_get ("notes", "j1")%string s = None /\
    step (H := eng) 0 300000 (MkManager s (Some (MkScan 60000 [] [sample (Some 2) (Some 60000)]))) OpScanNext
      = (m', [due_of (sample (Some 2) (Some 60000))]) /\
    map_get ("notes", "j1")%string (store m') = Some r'.
Proof.
  destruct (scan_copy_hazards (H := eng) 300000 60000 0
    (MkManager held (Some (MkScan 60000 [] [sample (Some 2) (Some 60000)]))) [] (sample (Some 2) (Some 60000)) []
    held_ok sample_ok eq_refl eq_refl) as [Hc _].
  exact (Hc _ eq_refl).
Defined.

Lemma failures_reach_dlq_witness :
  status (fail_times (sample (Some 2) None) [("a", 1); ("b", 2); ("c", 3)]%string) = Some Failed /\
  exists at_, nextRetryAt (fail_times (sample (Some 2) None) [("a", 1); ("b", 2)]%string) = Some at_ /\
    2 + 1000 <= at_ <= 2 + MAX_RETRY_DELAY_MS.
Proof.
  assert (Hd : forall d, Some 2000 = Some d -> MIN_RETRY_DELAY_MS <= d)
    by (intros d [= <-]; unfold MIN_RETRY_DELAY_MS; lia).
  destruct (failures_reach_dlq (sample (Some 2) None) [("a", 1); ("b", 2)]%string "c" 3
    ltac:(done) eq_refl Hd) as [_ H1].
  destruct (failures_reach_dlq (sample (Some 2) None) [("a", 1)]%string "b" 2
    ltac:(done) eq_refl Hd) as [H2 _].
  split; [exact (proj1 (H1 eq_refl))|].
  assert (Hle : Z.of_nat (length [("a"%string, 1)]) + 1 <= default 0 (Some 2)) by (simpl; lia).
  exact (proj2 (proj2 (proj2 (H2 Hle)))).
Defined.

(** Three failures of a job with two retries: one second, two seconds, the queue. *)
Example dlq_timeline :
  map (fun l => (status (fail_times (sample (Some 2) None) l), nextRetryAt (fail_times (sample (Some 2) None) l)))
    [[("a", 10)]; [("a", 10); ("b", 20)]; [("a", 10); ("b", 20); ("c", 30)]]%string
  = [(None, Some 2010); (None, Some 4020); (Some Failed, None)].
Proof. reflexivity. Qed.

End Jobs.
