(* ===== verification/Governor.v ===== *)
(** * The resource governor of plugin processes
    (apps/server/src/plugin/resourceGovernor.ts)

    The governor samples the processes of plugins one after the other and waits for
    each sample, so that processes come and go within a pass.  A process state is
    an object of a store, the table maps a plugin to its object, and an operation is
    one turn of the event loop.  Memory is in bytes, limits are in MiB as in the
    configuration, and ratios are compared by cross multiplication. *)

From Stdlib Require Import ZArith Lia Bool Ascii String List.
From stdpp Require Import base decidable list.
From S2P Require Import Prelude.
Local Open Scope Z_scope.

Module Governor.

Definition MIB : Z := 1024 * 1024.

Inductive AdmissionKind := PluginStart | Maintenance | Heavy | Background.

Inductive PluginPressureLevel := LevelOk | Soft | Elevated | Critical | Hard.

#[export] Instance level_eq_dec : EqDecision PluginPressureLevel.
Proof. solve_decision. Defined.

Inductive AdmissionResult := Granted | Denied (retryAfterMs : Z) (level : PluginPressureLevel).

Inductive Source := Proc | Ipc.

(** ** Configuration *)

Record PluginResourceConfig := MkConfig {
  mainRssHardMiB : Z;
  processTreeRssSoftMiB : Z;
  processTreeRssHardMiB : Z;
  aggregateRssSoftMiB : Z;
  aggregateRssHardMiB : Z;
  backgroundCpuPercent : Z;
  hardViolationSamples : nat;
  cpuHardConsecutiveSamples : nat
}.

(** [Math.min(95, Math.round((x * 0.9) / 10) * 10)] *)
Definition cpuHardPercent (c : PluginResourceConfig) : Z := Z.min 95 ((9 * backgroundCpuPercent c + 50) / 100 * 10).

(** [Math.round(hard * 0.7)] *)
Definition cpuSoftPercent (c : PluginResourceConfig) : Z := (7 * cpuHardPercent c + 5) / 10.

(** ** Processes *)

Record GovernedProcessInfo := MkInfo {
  pluginId : string;
  pid : Z;
  heapMiB : Z;
  rssSoftMiB : Z;
  rssHardMiB : Z;
  infoCpuSoft : Z;
  infoCpuHard : Z
}.

Record PluginProcessState := MkProcess {
  info : GovernedProcessInfo;
  rssBytes : option Z;
  cpuMs : Z;
  lastCpuMs : Z;
  rssViolationSamples : nat;
  cpuViolationSamples : nat;
  terminated : bool;
  source : option Source;
  startedAt : Z
}.

Definition new_process (i : GovernedProcessInfo) (now : Z) : PluginProcessState :=
  MkProcess i None 0 0 0 0 false None now.

Definition set_usage (rss : option Z) (cpu : Z) (src : option Source) (p : PluginProcessState) : PluginProcessState :=
  MkProcess (info p) rss cpu (lastCpuMs p) (rssViolationSamples p) (cpuViolationSamples p) (terminated p) src (startedAt p).

Inductive Reason := RESOURCE_LIMIT_EXCEEDED | CPU_WATCHDOG.

Definition set_terminated (p : PluginProcessState) : PluginProcessState :=
  MkProcess (info p) (rssBytes p) (cpuMs p) (lastCpuMs p) (rssViolationSamples p) (cpuViolationSamples p) true (source p) (startedAt p).

Section Governor.
Variable config : PluginResourceConfig.

(** The RSS part of [evaluateProcess]. *)
Definition over_rss (rss : option Z) (hardMiB : Z) : bool :=
  match rss with Some b => hardMiB * MIB <? b | None => false end.

Definition evaluate_rss (p : PluginProcessState) : PluginProcessState * option Reason :=
  if over_rss (rssBytes p) (rssHardMiB (info p)) then
    let p' := MkProcess (info p) (rssBytes p) (cpuMs p) (lastCpuMs p) (S (rssViolationSamples p)) (cpuViolationSamples p)
                (terminated p) (source p) (startedAt p) in
    if (hardViolationSamples config <=? rssViolationSamples p')%nat then (set_terminated p', Some RESOURCE_LIMIT_EXCEEDED) else (p', None)
  else (MkProcess (info p) (rssBytes p) (cpuMs p) (lastCpuMs p) 0 (cpuViolationSamples p) (terminated p) (source p) (startedAt p), None).

(** [(cpuMs - lastCpuMs) / elapsed >= cpuHardPercent / 100] *)
Definition over_cpu (cpu last elapsed : Z) : bool := cpuHardPercent config * elapsed <=? 100 * (cpu - last).

Definition evaluate_cpu (elapsed : Z) (p : PluginProcessState) : PluginProcessState * option Reason :=
  if (0 <? elapsed) && (0 <? cpuMs p) then
    if over_cpu (cpuMs p) (lastCpuMs p) elapsed then
      let p' := MkProcess (info p) (rssBytes p) (cpuMs p) (cpuMs p) (rssViolationSamples p) (S (cpuViolationSamples p))
                  (terminated p) (source p) (startedAt p) in
      if (cpuHardConsecutiveSamples config <=? cpuViolationSamples p')%nat
      then (set_terminated p', if terminated p' then None else Some CPU_WATCHDOG) else (p', None)
    else (MkProcess (info p) (rssBytes p) (cpuMs p) (cpuMs p) (rssViolationSamples p) 0 (terminated p) (source p) (startedAt p), None)
  else (p, None).

(** The new state, and the reason when its termination is requested; a second request is
    ignored. *)
Definition evaluateProcess (elapsed : Z) (p : PluginProcessState) : PluginProcessState * option Reason :=
  if terminated p then (p, None)
  else
    let (p1, r1) := evaluate_rss p in
    let (p2, r2) := evaluate_cpu elapsed p1 in
    (p2, match r1 with Some r => Some r | None => r2 end).

(** ** The governor *)

(** An entry of the action log; [None] is no plugin or no value, amounts are in
    hundredths of MiB. *)
Inductive ActionKind := PressureAction (l : PluginPressureLevel) | TerminateAction (r : Reason).
Record PluginGovernorAction := MkAction { at_ : Z; actionPlugin : option string; currentMiB : option Z; limitMiB : Z; action : ActionKind }.

Definition ACTION_HISTORY_LIMIT : nat := 50.

(** [Math.round((bytes / MIB) * 100)] *)
Definition roundMiB (bytes : Z) : Z := (200 * bytes + MIB) / (2 * MIB).

(** What a pass waits for: the first cgroup snapshot, or the sample of a process;
    the position of the iterator in the table, the elapsed time and the sum. *)
Inductive Waiting := ForCgroup | ForSample (obj : nat).
Record Tick := MkTick { waiting : Waiting; position : nat; elapsed : Z; aggregate : Z }.

(** [requests] is the log of the calls of [onTerminate], with the object they are about;
    [pressureCalls] that of [onPressureChange]. *)
Record GovernorState := MkGovernor {
  objects : list PluginProcessState;
  processes : list (string * nat);
  tick : option Tick;
  level : PluginPressureLevel;
  selfPressure : bool;
  cgroup : option (option Z);
  mainRssBytes : Z;
  aggregateRssBytes : Z;
  treeRssBytes : Z;
  lastSampleAt : Z;
  actions : list PluginGovernorAction;
  requests : list (nat * string * Reason);
  pressureCalls : list PluginPressureLevel
}.

Definition with_objects (o : list PluginProcessState) (g : GovernorState) : GovernorState :=
  MkGovernor o (processes g) (tick g) (level g) (selfPressure g) (cgroup g) (mainRssBytes g) (aggregateRssBytes g) (treeRssBytes g)
    (lastSampleAt g) (actions g) (requests g) (pressureCalls g).
Definition with_tick (t : option Tick) (g : GovernorState) : GovernorState :=
  MkGovernor (objects g) (processes g) t (level g) (selfPressure g) (cgroup g) (mainRssBytes g) (aggregateRssBytes g) (treeRssBytes g)
    (lastSampleAt g) (actions g) (requests g) (pressureCalls g).
Definition with_processes (p : list (string * nat)) (t : option Tick) (g : GovernorState) : GovernorState :=
  MkGovernor (objects g) p t (level g) (selfPressure g) (cgroup g) (mainRssBytes g) (aggregateRssBytes g) (treeRssBytes g)
    (lastSampleAt g) (actions g) (requests g) (pressureCalls g).

Definition registerProcess (i : GovernedProcessInfo) (now : Z) (g : GovernorState) : GovernorState :=
  with_processes (map_set (pluginId i) (length (objects g)) (processes g)) (tick g)
    (with_objects (objects g ++ [new_process i now]) g).

Fixpoint index_of_key (k : string) (l : list (string * nat)) : nat :=
  match l with [] => O | (k', _) :: r => if String.eqb k' k then O else S (index_of_key k r) end.

(** A deletion behind the iterator moves its position. *)
Definition unregisterProcess (k : string) (g : GovernorState) : GovernorState :=
  let shift t := MkTick (waiting t)
    (if map_has k (processes g) && (index_of_key k (processes g) <? position t)%nat then pred (position t) else position t)
    (elapsed t) (aggregate t) in
  with_processes (map_del k (processes g)) (match tick g with Some t => Some (shift t) | None => None end) g.

Definition object_of (k : string) (g : GovernorState) : option PluginProcessState :=
  match map_get k (processes g) with Some o => objects g !! o | None => None end.

Definition isTerminated (k : string) (g : GovernorState) : bool :=
  match object_of k g with Some p => terminated p | None => false end.

(** A report with an [rss] that is no finite number is [None]. *)
Definition handleUsageReport (k : string) (rss : option Z) (cpu : Z) (g : GovernorState) : GovernorState :=
  match map_get k (processes g), rss with
  | Some o, Some b =>
      match objects g !! o with
      | Some p =>
          match source p, rssBytes p with
          | Some Proc, Some _ => g
          | _, _ => with_objects (<[o := set_usage (Some b) cpu (Some Ipc) p]> (objects g)) g
          end
      | None => g
      end
  | _, _ => g
  end.

Definition canAdmit (kind : AdmissionKind) (g : GovernorState) : AdmissionResult :=
  if (if decide (level g = Hard) then true else false) || selfPressure g then Denied 30000 (level g)
  else match kind with
       | PluginStart | Background => match level g with Critical => Denied 10000 (level g) | _ => Granted end
       | Maintenance | Heavy => match level g with LevelOk => Granted | _ => Denied 10000 (level g) end
       end.

Definition recordAction (a : PluginGovernorAction) (g : GovernorState) : GovernorState :=
  let l := actions g ++ [a] in
  MkGovernor (objects g) (processes g) (tick g) (level g) (selfPressure g) (cgroup g) (mainRssBytes g) (aggregateRssBytes g) (treeRssBytes g)
    (lastSampleAt g) (drop (length l - ACTION_HISTORY_LIMIT) l) (requests g) (pressureCalls g).

(** The log entry and the call of [onTerminate]; [p] is the object after its flag is set. *)
Definition request (now : Z) (o : nat) (p : PluginProcessState) (r : Reason) (g : GovernorState) : GovernorState :=
  let g := recordAction (MkAction now (Some (pluginId (info p)))
             match rssBytes p with Some b => Some (roundMiB b) | None => None end
             (roundMiB (rssHardMiB (info p) * MIB)) (TerminateAction r)) g in
  MkGovernor (objects g) (processes g) (tick g) (level g) (selfPressure g) (cgroup g) (mainRssBytes g) (aggregateRssBytes g) (treeRssBytes g)
    (lastSampleAt g) (actions g) (requests g ++ [(o, pluginId (info p), r)]) (pressureCalls g).

Definition requestTermination (now : Z) (o : nat) (r : Reason) (g : GovernorState) : GovernorState :=
  match objects g !! o with
  | Some p => if terminated p then g else request now o (set_terminated p) r (with_objects (<[o := set_terminated p]> (objects g)) g)
  | None => g
  end.

(** The states in the table, in its order. *)
Definition table_states (g : GovernorState) : list (nat * PluginProcessState) :=
  concat (map (fun kv => match objects g !! kv.2 with Some p => [(kv.2, p)] | None => [] end) (processes g)).

Definition computeLevel (g : GovernorState) : PluginPressureLevel * bool :=
  let agg := aggregateRssBytes g in
  let tree := treeRssBytes g in
  let aggSoft := aggregateRssSoftMiB config * MIB in
  let treeSoft := processTreeRssSoftMiB config * MIB in
  if existsb (fun op => terminated op.2) (table_states g) then (Hard, selfPressure g)
  else if (aggregateRssHardMiB config * MIB <=? agg) || (processTreeRssHardMiB config * MIB <=? tree) then (Hard, selfPressure g)
  else if mainRssHardMiB config * MIB <=? mainRssBytes g then (Critical, true)
  else if (aggSoft <=? agg) || (treeSoft <=? tree) then (Critical, false)
  else if (9 * aggSoft <=? 10 * agg) || (9 * treeSoft <=? 10 * tree) then (Elevated, false)
  else if (8 * aggSoft <=? 10 * agg) || (8 * treeSoft <=? 10 * tree) then (Soft, false)
  else (LevelOk, false).

(** The ratio [rss / max(1, limit)] of a process, as numerator and denominator; the
    loop keeps the first of the largest positive ratios. *)
Definition ratio (p : PluginProcessState) : option (Z * Z) :=
  match rssBytes p with
  | Some b => if terminated p then None else Some (b, Z.max 1 (rssHardMiB (info p) * MIB))
  | None => None
  end.

Definition ratio_lt (a b : Z * Z) : bool := a.1 * b.2 <? b.1 * a.2.

Fixpoint worst (l : list (nat * PluginProcessState)) (victim : option nat) (worstRatio : Z * Z) : option nat * (Z * Z) :=
  match l with
  | [] => (victim, worstRatio)
  | (o, p) :: r =>
      match ratio p with
      | Some q => if ratio_lt worstRatio q then worst r (Some o) q else worst r victim worstRatio
      | None => worst r victim worstRatio
      end
  end.

Definition terminateVictims (now : Z) (g : GovernorState) : GovernorState :=
  if decide (level g = Hard) then
    match worst (table_states g) None (0, 1) with
    | (Some o, q) => if ratio_lt (1, 1) q then requestTermination now o RESOURCE_LIMIT_EXCEEDED g else g
    | (None, _) => g
    end
  else g.

(** The end of a pass: the sums, the level with its log entry and callback, the victims. *)
Definition measured (t : Tick) (g : GovernorState) : GovernorState :=
  let tree := match cgroup g with Some (Some bytes) => bytes | _ => mainRssBytes g + aggregate t end in
  MkGovernor (objects g) (processes g) None (level g) (selfPressure g) (cgroup g) (mainRssBytes g) (aggregate t) tree
    (lastSampleAt g) (actions g) (requests g) (pressureCalls g).

Definition with_level (l : PluginPressureLevel) (self : bool) (calls : list PluginPressureLevel) (g : GovernorState) : GovernorState :=
  MkGovernor (objects g) (processes g) (tick g) l self (cgroup g) (mainRssBytes g) (aggregateRssBytes g) (treeRssBytes g)
    (lastSampleAt g) (actions g) (requests g) calls.

Definition updateLevel (now : Z) (g : GovernorState) : GovernorState :=
  let (next, self) := computeLevel g in
  if decide (next = level g) then with_level (level g) self (pressureCalls g) g
  else recordAction (MkAction now None (Some (roundMiB (treeRssBytes g))) (roundMiB (processTreeRssSoftMiB config * MIB)) (PressureAction next))
         (with_level next self (pressureCalls g ++ [next]) g).

Definition finish (now : Z) (t : Tick) (g : GovernorState) : GovernorState :=
  terminateVictims now (updateLevel now (measured t g)).

(** The next entry of the iterator, or the end of the pass. *)
Definition advance (now : Z) (t : Tick) (g : GovernorState) : GovernorState :=
  match processes g !! position t with
  | Some (_, o) => with_tick (Some (MkTick (ForSample o) (S (position t)) (elapsed t) (aggregate t))) g
  | None => finish now t g
  end.

(** [sample]: a pass starts unless one is running.  [known] tells that the
    cgroup has been read, or is given. *)
Definition startTick (now mainRss : Z) (g : GovernorState) : GovernorState :=
  match tick g with
  | Some _ => g
  | None =>
      let g' := MkGovernor (objects g) (processes g) None (level g) (selfPressure g) (cgroup g) mainRss (aggregateRssBytes g) (treeRssBytes g)
                 now (actions g) (requests g) (pressureCalls g) in
      let t := MkTick ForCgroup 0 (now - lastSampleAt g) 0 in
      match cgroup g with
      | Some _ => advance now t g'
      | None => with_tick (Some t) g'
      end
  end.

(** The snapshot arrives: [memory.current] in bytes, if it is available. *)
Definition cgroupRead (now : Z) (current : option Z) (g : GovernorState) : GovernorState :=
  match tick g with
  | Some t =>
      match waiting t with
      | ForCgroup =>
          advance now t (MkGovernor (objects g) (processes g) (tick g) (level g) (selfPressure g) (Some current) (mainRssBytes g)
            (aggregateRssBytes g) (treeRssBytes g) (lastSampleAt g) (actions g) (requests g) (pressureCalls g))
      | ForSample _ => g
      end
  | None => g
  end.

(** A sample arrives for the object that the pass waits for. *)
Definition sampled (now : Z) (rss cpu : option Z) (g : GovernorState) : GovernorState :=
  match tick g with
  | Some t =>
      match waiting t with
      | ForSample o =>
          match objects g !! o with
          | Some p =>
              let rss' := match rss with Some b => Some b | None => rssBytes p end in
              let p1 := set_usage rss' (default (cpuMs p) cpu) (match rss with Some _ => Some Proc | None => source p end) p in
              let (p2, r) := evaluateProcess (elapsed t) p1 in
              let g1 := with_objects (<[o := p2]> (objects g)) g in
              let g2 := match r with Some r => request now o p2 r g1 | None => g1 end in
              advance now (MkTick (waiting t) (position t) (elapsed t) (aggregate t + default 0 rss')) g2
          | None => g
          end
      | ForCgroup => g
      end
  | None => g
  end.

(** The sampler throws: the pass ends without a result. *)
Definition sampleFails (g : GovernorState) : GovernorState := with_tick None g.

Inductive Op :=
| Register (now : Z) (i : GovernedProcessInfo)
| Unregister (k : string)
| Report (k : string) (rss : option Z) (cpu : Z)
| StartTick (now mainRss : Z)
| CgroupRead (now : Z) (current : option Z)
| Sampled (now : Z) (rss cpu : option Z)
| SampleFails.

Definition step (g : GovernorState) (op : Op) : GovernorState :=
  match op with
  | Register now i => registerProcess i now g
  | Unregister k => unregisterProcess k g
  | Report k rss cpu => handleUsageReport k rss cpu g
  | StartTick now mainRss => startTick now mainRss g
  | CgroupRead now current => cgroupRead now current g
  | Sampled now rss cpu => sampled now rss cpu g
  | SampleFails => sampleFails g
  end.

(** [override] is the cgroup that is given to the constructor. *)
Definition initial (now : Z) (override : option (option Z)) : GovernorState :=
  MkGovernor [] [] None LevelOk false override 0 0 0 now [] [] [].

Definition run (now : Z) (override : option (option Z)) (ops : list Op) : GovernorState :=
  fold_left step ops (initial now override).

(** ** The watchdogs *)

(** A counter that [true] advances and [false] resets reaches [n]. *)
Fixpoint reaches (n c : nat) (l : list bool) : bool :=
  match l with
  | [] => false
  | true :: r => (n <=? S c)%nat || reaches n (S c) r
  | false :: r => reaches n 0 r
  end.

(** [n] elements in a row are true. *)
Definition has_run (n : nat) (l : list bool) : Prop := exists i, forall j, (j < n)%nat -> l !! (i + j)%nat = Some true.

Lemma has_run_split n x l : has_run n (x ++ false :: l) <-> has_run n x \/ has_run n l.
Proof.
  split.
  - intros (i & H). destruct (decide (i + n <= length x)%nat); [|destruct (decide (length x < i)%nat)].
    + left. exists i. intros j Hj. specialize (H j Hj). rewrite lookup_app_l in H by lia. done.
    + right. exists (i - length x - 1)%nat. intros j Hj. specialize (H j Hj). rewrite lookup_app_r in H by lia.
      replace (i + j - length x)%nat with (S (i - length x - 1 + j)) in H by lia. done.
    + exfalso. specialize (H (length x - i)%nat ltac:(lia)). rewrite lookup_app_r in H by lia.
      replace (i + (length x - i) - length x)%nat with 0%nat in H by lia. done.
  - intros [(i & H)|(i & H)].
    + exists i. intros j Hj. specialize (H j Hj). rewrite lookup_app_l; [done|]. by apply lookup_lt_Some in H.
    + exists (length x + S i)%nat. intros j Hj. rewrite lookup_app_r by lia.
      replace (length x + S i + j - length x)%nat with (S (i + j)) by lia. by apply H.
Qed.

Lemma run_replicate n c : (c < n)%nat -> ~ has_run n (replicate c true).
Proof.
  intros Hc (i & H). destruct n as [|n]; [lia|]. specialize (H n ltac:(lia)). apply lookup_lt_Some in H.
  rewrite length_replicate in H. lia.
Qed.

Lemma reaches_run n c l : (c < n)%nat -> reaches n c l = true <-> has_run n (replicate c true ++ l).
Proof.
  revert c. induction l as [|x l IH]; intros c Hc; cbn [reaches].
  - rewrite app_nil_r. split; [done|]. intros H. by apply run_replicate in H.
  - destruct x.
    + assert (E : replicate c true ++ true :: l = replicate (S c) true ++ l).
      { replace (S c) with (c + 1)%nat by lia. by rewrite replicate_add, <- app_assoc. }
      rewrite E, orb_true_iff, Nat.leb_le. destruct (decide (S c < n)%nat) as [Hlt|Hge].
      * rewrite (IH (S c) Hlt). split; [intros [?|?]; [lia|done]|by right].
      * split; [|intros _; left; lia]. intros _. exists 0%nat. intros j Hj. rewrite lookup_app_l by (rewrite length_replicate; lia).
        apply lookup_replicate. lia.
    + rewrite (IH 0%nat) by lia. cbn [replicate app]. rewrite has_run_split. split; [by right|].
      intros [H|H]; [by apply run_replicate in H|done].
Qed.

(** What a pass sees of a process: its RSS, its CPU time and the elapsed time. *)
Definition Observation : Type := option Z * Z * Z.

(** The evaluations of one process, each after its RSS and CPU time are set. *)
Definition watch_step (p : PluginProcessState) (o : Observation) : PluginProcessState :=
  (evaluateProcess o.2 (set_usage o.1.1 o.1.2 (source p) p)).1.

Definition watch (p : PluginProcessState) (obs : list Observation) : PluginProcessState := fold_left watch_step obs p.

Definition rss_flags (hardMiB : Z) (obs : list Observation) : list bool := map (fun o => over_rss o.1.1 hardMiB) obs.

(** The comparisons of the CPU watchdog: observations without elapsed time or CPU time
    do not count. *)
Fixpoint cpu_flags (last : Z) (obs : list Observation) : list bool :=
  match obs with
  | [] => []
  | (_, cpu, dt) :: r => if (0 <? dt) && (0 <? cpu) then over_cpu cpu last dt :: cpu_flags cpu r else cpu_flags last r
  end.

Lemma watch_terminated p obs : terminated p = true -> terminated (watch p obs) = true.
Proof.
  revert p. induction obs as [|o obs IH]; intros p Hp; [done|]. cbn [watch fold_left]. apply IH.
  unfold watch_step, evaluateProcess. cbn [set_usage terminated]. by rewrite Hp.
Qed.

Lemma watch_reaches p obs :
  terminated p = false ->
  terminated (watch p obs) =
    reaches (hardViolationSamples config) (rssViolationSamples p) (rss_flags (rssHardMiB (info p)) obs) ||
    reaches (cpuHardConsecutiveSamples config) (cpuViolationSamples p) (cpu_flags (lastCpuMs p) obs).
Proof.
  revert p. induction obs as [|[[rss cpu] dt] obs IH]; intros p Hp; cbn [watch fold_left rss_flags map cpu_flags reaches fst snd].
  { by rewrite Hp. }
  change (fold_left watch_step obs ?x) with (watch x obs). unfold watch_step at 1. cbn [fst snd].
  unfold evaluateProcess. cbn [set_usage terminated]. rewrite Hp. unfold evaluate_rss, evaluate_cpu.
  cbn [set_usage info rssBytes cpuMs lastCpuMs rssViolationSamples cpuViolationSamples terminated source startedAt].
  destruct (over_rss rss (rssHardMiB (info p))) eqn:Er; [destruct (_ <=? S (rssViolationSamples p))%nat eqn:En|];
    cbn [set_terminated info rssBytes cpuMs lastCpuMs rssViolationSamples cpuViolationSamples terminated source startedAt orb];
    destruct ((0 <? dt) && (0 <? cpu)) eqn:Ec; try destruct (over_cpu cpu (lastCpuMs p) dt) eqn:Eo;
    cbn [reaches fst snd];
    try destruct (cpuHardConsecutiveSamples config <=? S (cpuViolationSamples p))%nat eqn:Em; cbn [fst snd];
    rewrite ?watch_terminated by done; try (rewrite IH by done); cbn; rewrite ?orb_true_r; done.
Qed.

(** A process is terminated by its own samples exactly when its
    RSS is over the hard limit in [hardViolationSamples] samples in a row, or its
    CPU usage reaches the threshold in [cpuHardConsecutiveSamples] counted samples in
    a row, wherever they lie in the history. *)
Theorem watchdog_exact i now obs :
  (1 <= hardViolationSamples config)%nat -> (1 <= cpuHardConsecutiveSamples config)%nat ->
  terminated (watch (new_process i now) obs) = true <->
  has_run (hardViolationSamples config) (rss_flags (rssHardMiB i) obs) \/
  has_run (cpuHardConsecutiveSamples config) (cpu_flags 0 obs).
Proof.
  intros HN HM. rewrite watch_reaches, orb_true_iff by done. rewrite !reaches_run by (cbn; lia). done.
Qed.

(** ** Requests of termination *)

Definition requested (g : GovernorState) : list nat := map (fun r => r.1.1) (requests g).

Record governor_inv (g : GovernorState) : Prop := {
  inv_once : NoDup (requested g);
  inv_flag : forall o, o ∈ requested g <-> exists p, objects g !! o = Some p /\ terminated p = true;
  inv_name : forall o k r p, (o, k, r) ∈ requests g -> objects g !! o = Some p -> pluginId (info p) = k;
  inv_actions : (length (actions g) <= ACTION_HISTORY_LIMIT)%nat;
  inv_level : List.last (pressureCalls g) LevelOk = level g;
  inv_self : selfPressure g = true -> level g = Critical \/ level g = Hard
}.

(** The parts that the invariant reads. *)
Definition same_core (g g' : GovernorState) : Prop :=
  objects g' = objects g /\ requests g' = requests g /\ actions g' = actions g /\ pressureCalls g' = pressureCalls g /\
  level g' = level g /\ selfPressure g' = selfPressure g.

Lemma same_core_inv g g' : same_core g g' -> governor_inv g -> governor_inv g'.
Proof.
  intros (E1 & E2 & E3 & E4 & E5 & E6) [H1 H2 H3 H4 H5 H6].
  split; unfold requested in *; rewrite ?E1, ?E2, ?E3, ?E4, ?E5, ?E6; done.
Qed.

Lemma update_inv o p p' g :
  objects g !! o = Some p -> info p' = info p -> terminated p' = terminated p ->
  governor_inv g -> governor_inv (with_objects (<[o := p']> (objects g)) g).
Proof.
  intros Ho Ei Et [H1 H2 H3 H4 H5 H6]. assert (Hlt : (o < length (objects g))%nat) by (by eapply lookup_lt_Some).
  split; cbn [with_objects objects requests actions pressureCalls level selfPressure requested]; try done.
  - intros k. rewrite H2. destruct (decide (o = k)) as [<-|Hne].
    + rewrite list_lookup_insert_eq, Ho by done. split; intros (q & [= <-] & Hq); eexists; (split; [done|]); congruence.
    + by rewrite list_lookup_insert_ne.
  - intros k n r q Hr. destruct (decide (o = k)) as [<-|Hne].
    + rewrite list_lookup_insert_eq by done. intros [= <-]. rewrite Ei. by eapply H3.
    + rewrite list_lookup_insert_ne by done. by apply (H3 k n r).
Qed.

Lemma record_inv a g : governor_inv g -> governor_inv (recordAction a g).
Proof.
  intros [H1 H2 H3 H4 H5 H6]. split; cbn [recordAction objects requests actions pressureCalls level selfPressure requested]; try done.
  rewrite length_drop. lia.
Qed.

Lemma request_inv now o p p' r g :
  objects g !! o = Some p -> terminated p = false -> info p' = info p -> terminated p' = true ->
  governor_inv g -> governor_inv (request now o p' r (with_objects (<[o := p']> (objects g)) g)).
Proof.
  intros Ho Hf Ei Et [H1 H2 H3 H4 H5 H6]. assert (Hlt : (o < length (objects g))%nat) by (by eapply lookup_lt_Some).
  assert (Hnew : o ∉ requested g) by (intros (q & Hq & Hqt)%H2; congruence).
  split; unfold requested;
    cbn [request recordAction with_objects objects requests actions pressureCalls level selfPressure]; try done.
  - rewrite map_app. cbn [map fst]. apply NoDup_app. split_and!; [done| |apply NoDup_singleton].
    intros k Hk E. apply list_elem_of_singleton in E as ->. done.
  - intros k. rewrite map_app, elem_of_app. cbn [map fst]. rewrite list_elem_of_singleton. destruct (decide (o = k)) as [<-|Hne].
    + rewrite list_lookup_insert_eq by done. split; [intros _; by exists p'|by right].
    + rewrite list_lookup_insert_ne by done. unfold requested in H2. rewrite H2. split; [intros [?|?]; [done|congruence]|by left].
  - intros k n r' q [Hr|Hr]%elem_of_app.
    + destruct (decide (o = k)) as [<-|Hne].
      * exfalso. apply Hnew. apply elem_of_In, in_map_iff. exists (o, n, r'). split; [done|]. by apply elem_of_In.
      * rewrite list_lookup_insert_ne by done. by apply (H3 k n r').
    + apply list_elem_of_singleton in Hr as [= -> -> ->]. rewrite list_lookup_insert_eq by done. by intros [= <-].
  - rewrite length_drop. lia.
Qed.

Lemma evaluate_spec dt p p' r :
  evaluateProcess dt p = (p', r) ->
  info p' = info p /\ rssBytes p' = rssBytes p /\
  match r with
  | Some _ => terminated p = false /\ terminated p' = true
  | None => terminated p' = terminated p
  end.
Proof.
  unfold evaluateProcess. destruct (terminated p) eqn:Ht; [intros [= <- <-]; done|]. unfold evaluate_rss, evaluate_cpu.
  destruct (over_rss (rssBytes p) (rssHardMiB (info p))); [destruct (_ <=? _)%nat|];
    cbn [set_terminated info rssBytes cpuMs lastCpuMs rssViolationSamples cpuViolationSamples terminated source startedAt];
    (destruct (_ && _); [destruct (over_cpu _ _ _); [destruct (_ <=? _)%nat|]|]); intros [= <- <-];
    cbn; rewrite ?Ht; done.
Qed.

Lemma table_states_object g o p : (o, p) ∈ table_states g -> objects g !! o = Some p.
Proof.
  unfold table_states. rewrite elem_of_In, in_concat. intros (l & Hl & Hp). apply in_map_iff in Hl as ([k o'] & <- & _). cbn [snd] in Hp.
  destruct (objects g !! o') as [q|] eqn:E; [|done]. destruct Hp as [[= <- <-]|[]]. done.
Qed.

Lemma requestTermination_inv now o r g : governor_inv g -> governor_inv (requestTermination now o r g).
Proof.
  intros Hi. unfold requestTermination. destruct (objects g !! o) as [p|] eqn:Ho; [|done]. destruct (terminated p) eqn:Ht; [done|].
  by apply (request_inv now o p (set_terminated p)).
Qed.

Lemma updateLevel_inv now g : governor_inv g -> governor_inv (updateLevel now g).
Proof.
  intros [H1 H2 H3 H4 H5 H6]. unfold updateLevel. destruct (computeLevel g) as [next self] eqn:El.
  assert (Hself : self = true -> next = Critical \/ next = Hard).
  { revert El. unfold computeLevel. repeat case_match; intros [= <- <-]; try done; tauto. }
  destruct (decide (next = level g)) as [->|Hne].
  - by split.
  - apply record_inv. split; cbn [with_level objects requests actions pressureCalls level selfPressure]; try done. apply last_last.
Qed.

Lemma terminateVictims_inv now g : governor_inv g -> governor_inv (terminateVictims now g).
Proof.
  intros Hi. unfold terminateVictims. destruct (decide (level g = Hard)); [|done]. destruct (worst _ _ _) as [[o|] q]; [|done].
  destruct (ratio_lt _ _); [by apply requestTermination_inv|done].
Qed.

Lemma governor_finish_inv now t g : governor_inv g -> governor_inv (finish now t g).
Proof. intros Hi. apply terminateVictims_inv, updateLevel_inv. by apply (same_core_inv g). Qed.

Lemma advance_inv now t g : governor_inv g -> governor_inv (advance now t g).
Proof. intros Hi. unfold advance. destruct (_ !! _) as [[k o]|]; [by apply (same_core_inv g)|by apply governor_finish_inv]. Qed.

Lemma governor_step_inv g op : governor_inv g -> governor_inv (step g op).
Proof.
  intros Hi. destruct op as [now i|k|k rss cpu|now main|now current|now rss cpu|]; cbn [step].
  - destruct Hi as [H1 H2 H3 H4 H5 H6].
    split; cbn [registerProcess with_processes with_objects objects requests actions pressureCalls level selfPressure]; try done.
    + intros o. rewrite H2. split; intros (p & Hp & Ht); exists p.
      * split; [|done]. by apply lookup_app_l_Some.
      * apply lookup_app_Some in Hp as [Hp|[_ Hp]]; [done|]. apply list_lookup_singleton_Some in Hp as [_ <-]. done.
    + intros o n r p Hr Hp. apply (H3 o n r p Hr). apply lookup_app_Some in Hp as [Hp|[Hle Hp]]; [done|]. exfalso.
      assert (Ho : o ∈ requested g) by (apply elem_of_In, in_map_iff; exists (o, n, r); split; [done|by apply elem_of_In]).
      apply H2 in Ho as (q & Hq & _). apply lookup_lt_Some in Hq. lia.
  - by apply (same_core_inv g).
  - unfold handleUsageReport. destruct (map_get k (processes g)) as [o|]; [|done]. destruct rss as [b|]; [|done].
    destruct (objects g !! o) as [p|] eqn:Ho; [|done]. by repeat case_match; try apply (update_inv o p).
  - unfold startTick. destruct (tick g); [done|]. destruct (cgroup g); [|by apply (same_core_inv g)].
    apply advance_inv. by apply (same_core_inv g).
  - unfold cgroupRead. destruct (tick g) as [t|]; [|done]. destruct (waiting t); [|done]. apply advance_inv. by apply (same_core_inv g).
  - unfold sampled. destruct (tick g) as [t|]; [|done]. destruct (waiting t) as [|o]; [done|]. destruct (objects g !! o) as [p|] eqn:Ho; [|done].
    destruct (evaluateProcess _ _) as [p2 r] eqn:Ee. apply evaluate_spec in Ee as (Einfo & _ & Er). cbn [set_usage info terminated] in *.
    apply advance_inv. destruct r as [r|]; [|by apply (update_inv o p)]. destruct Er as [Ef Et]. by apply (request_inv now o p).
  - by apply (same_core_inv g).
Qed.

Lemma governor_run_inv now override ops : governor_inv (run now override ops).
Proof.
  unfold run. assert (H0 : governor_inv (initial now override)).
  { split; cbn; [by apply NoDup_nil| | |lia|done|done].
    - intros o. split; [by intros ?%not_elem_of_nil|by intros (p & ? & _)].
    - intros o k r p H. by apply not_elem_of_nil in H. }
  revert H0. generalize (initial now override). induction ops as [|op ops IH]; intros g Hi; [done|]. cbn [fold_left]. by apply IH, governor_step_inv.
Qed.

(** ** The victim *)

Definition ratio_le (a b : Z * Z) : Prop := a.1 * b.2 <= b.1 * a.2.

Lemma worst_spec l v q v' q' :
  0 < q.2 -> worst l v q = (v', q') ->
  0 < q'.2 /\ ratio_le q q' /\ (forall o p r, (o, p) ∈ l -> ratio p = Some r -> ratio_le r q') /\
  ((v', q') = (v, q) \/ exists o p, v' = Some o /\ (o, p) ∈ l /\ ratio p = Some q').
Proof.
  revert v q. induction l as [|[o p] l IH]; intros v q Hq; cbn [worst].
  { intros [= <- <-]. split_and!; [done|unfold ratio_le; lia| |by left]. intros o p r H. by apply not_elem_of_nil in H. }
  assert (Hr2 : forall x, ratio p = Some x -> 0 < x.2) by (intros x; unfold ratio; repeat case_match; intros [= <-]; cbn; lia).
  destruct (ratio p) as [r|] eqn:Er.
  - specialize (Hr2 r eq_refl). destruct (ratio_lt q r) eqn:El; intros Hw.
    + destruct (IH _ _ Hr2 Hw) as (H1 & H2 & H3 & H4). unfold ratio_lt in El. apply Z.ltb_lt in El.
      split_and!; [done|unfold ratio_le in *; nia| |].
      * intros o' p' r' [[= -> ->]|Hin]%elem_of_cons Hr'; [congruence|by eapply H3].
      * right. destruct H4 as [[= -> ->]|(o' & p' & E & Hin & Hr')]; [exists o, p; split_and!; [done|by left|done]|].
        exists o', p'. split_and!; [done|by right|done].
    + destruct (IH _ _ Hq Hw) as (H1 & H2 & H3 & H4). unfold ratio_lt in El. apply Z.ltb_ge in El.
      split_and!; [done|done| |].
      * intros o' p' r' [[= -> ->]|Hin]%elem_of_cons Hr'; [|by eapply H3]. rewrite Er in Hr'. injection Hr' as <-.
        unfold ratio_le in *. nia.
      * destruct H4 as [?|(o' & p' & E & Hin & Hr')]; [by left|]. right. exists o', p'. split_and!; [done|by right|done].
  - intros Hw. destruct (IH _ _ Hq Hw) as (H1 & H2 & H3 & H4). split_and!; [done|done| |].
    + intros o' p' r' [[= -> ->]|Hin]%elem_of_cons Hr'; [congruence|by eapply H3].
    + destruct H4 as [?|(o' & p' & E & Hin & Hr')]; [by left|]. right. exists o', p'. split_and!; [done|by right|done].
Qed.

(** The victim of a pass: a process over its limit, none relatively further over. *)
Definition victim_of (g : GovernorState) (o : nat) (p : PluginProcessState) : Prop :=
  (o, p) ∈ table_states g /\ exists b, ratio p = Some b /\ ratio_lt (1, 1) b = true /\
    forall o' p' b', (o', p') ∈ table_states g -> ratio p' = Some b' -> ratio_le b' b.

Lemma terminateVictims_spec now g :
  requests (terminateVictims now g) = requests g \/
  exists o p, level g = Hard /\ victim_of g o p /\
    requests (terminateVictims now g) = requests g ++ [(o, pluginId (info p), RESOURCE_LIMIT_EXCEEDED)].
Proof.
  unfold terminateVictims. destruct (decide (level g = Hard)) as [Hl|]; [|by left].
  destruct (worst (table_states g) None (0, 1)) as [v q] eqn:Ew. destruct (worst_spec _ None (0, 1) _ _ Z.lt_0_1 Ew) as (_ & _ & Hmax & Hv).
  destruct v as [o|]; [|by left]. destruct (ratio_lt (1, 1) q) eqn:Eq; [|by left].
  destruct Hv as [Hv|(o' & p & [= <-] & Hin & Hr)]; [done|]. right. exists o, p. split_and!; [done| |].
  - split; [done|]. exists q. split_and!; [done|done|]. intros o' p' b' H1 H2. by eapply Hmax.
  - unfold requestTermination. rewrite (table_states_object g o p Hin).
    assert (Ht : terminated p = false) by (unfold ratio in Hr; repeat case_match; congruence). by rewrite Ht.
Qed.

Lemma updateLevel_core now g : objects (updateLevel now g) = objects g /\ processes (updateLevel now g) = processes g /\
  requests (updateLevel now g) = requests g.
Proof. unfold updateLevel. destruct (computeLevel g). by destruct (decide _). Qed.

(** Whatever processes come and go while a pass waits for its
    samples, the governor asks for the termination of a process object at most once,
    and exactly for the objects that are marked; the end of a pass adds at most
    one victim, only at level [hard], and that is a process over its limit with the
    largest ratio; the log has at most fifty entries; and work is admitted exactly on
    the levels of its kind. *)
Theorem terminations_justified now override ops :
  let g := run now override ops in
  NoDup (requested g) /\
  (forall o, (exists p, objects g !! o = Some p /\ terminated p = true) <-> o ∈ requested g) /\
  (forall o k r, (o, k, r) ∈ requests g -> exists p, objects g !! o = Some p /\ pluginId (info p) = k) /\
  (forall now t, let m := updateLevel now (measured t g) in
     requests (finish now t g) = requests g \/
     exists o p, level m = Hard /\ victim_of m o p /\ requests (finish now t g) = requests g ++ [(o, pluginId (info p), RESOURCE_LIMIT_EXCEEDED)]) /\
  (length (actions g) <= 50)%nat /\
  (forall kind, canAdmit kind g = Granted <->
     match kind with PluginStart | Background => level g <> Critical /\ level g <> Hard | Maintenance | Heavy => level g = LevelOk end).
Proof.
  intros g. pose proof (governor_run_inv now override ops) as Hi. fold g in Hi. split_and!.
  - apply Hi.
  - intros o. symmetry. apply Hi.
  - intros o k r Hr. assert (Ho : o ∈ requested g) by (apply elem_of_In, in_map_iff; exists (o, k, r); split; [done|by apply elem_of_In]).
    apply Hi in Ho as (p & Hp & _). exists p. split; [done|]. by apply (inv_name g Hi o k r).
  - intros now' t m. destruct (terminateVictims_spec now' m) as [E|(o & p & H1 & H2 & H3)].
    + left. unfold finish. fold m. rewrite E. exact (proj2 (proj2 (updateLevel_core now' (measured t g)))).
    + right. exists o, p. split_and!; [done|done|]. unfold finish. fold m. rewrite H3. f_equal. exact (proj2 (proj2 (updateLevel_core now' (measured t g)))).
  - apply Hi.
  - intros kind. pose proof (inv_self g Hi) as Hs. unfold canAdmit.
    destruct (selfPressure g); [destruct (Hs eq_refl) as [E|E]; rewrite E; destruct kind; split; try done; intros [? ?]; done|].
    rewrite orb_false_r. destruct kind; destruct (level g); cbn; split; try done; intros [? ?]; done.
Qed.

(** *** The cgroup is read once *)

Definition cgroup_known (c : option Z) (g : GovernorState) : Prop :=
  cgroup g = Some c /\ forall t, tick g = Some t -> waiting t <> ForCgroup.

Lemma known_keep c g g' : cgroup g' = cgroup g -> tick g' = tick g -> cgroup_known c g -> cgroup_known c g'.
Proof. unfold cgroup_known. by intros -> ->. Qed.

Lemma requestTermination_tick now o r g :
  cgroup (requestTermination now o r g) = cgroup g /\ tick (requestTermination now o r g) = tick g.
Proof. unfold requestTermination. repeat case_match; done. Qed.

Lemma advance_known c now t g : cgroup g = Some c -> cgroup_known c (advance now t g).
Proof.
  intros Hc. unfold advance. destruct (_ !! _) as [[k o]|]; [split; [done|by intros t' [= <-]]|].
  unfold finish, terminateVictims.
  assert (E : cgroup (updateLevel now (measured t g)) = cgroup g /\ tick (updateLevel now (measured t g)) = None).
  { unfold updateLevel. destruct (computeLevel _). by destruct (decide _). }
  destruct E as [E1 E2]. repeat case_match; unfold cgroup_known;
    rewrite ?(proj1 (requestTermination_tick _ _ _ _)), ?(proj2 (requestTermination_tick _ _ _ _)), E1, E2; done.
Qed.

(** The snapshot of the first pass is the one of every later pass: the tree is
    measured once. *)
Theorem cgroup_read_once c ops g : cgroup_known c g -> cgroup_known c (fold_left step ops g).
Proof.
  revert g. induction ops as [|op ops IH]; intros g Hc; [done|]. cbn [fold_left]. apply IH. clear IH.
  destruct op as [now i|k|k rss cpu|now main|now current|now rss cpu|]; cbn [step].
  - by apply (known_keep c g).
  - destruct Hc as [H1 H2]. split; [done|]. cbn. intros t. destruct (tick g) as [t0|]; [|done]. intros [= <-]. cbn. by apply H2.
  - unfold handleUsageReport. repeat case_match; try done; by apply (known_keep c g).
  - unfold startTick. destruct (tick g) eqn:Et; [done|]. destruct Hc as [H1 H2]. rewrite H1. by apply advance_known.
  - unfold cgroupRead. destruct Hc as [H1 H2]. destruct (tick g) as [t|] eqn:Et; [|split; [done|]; by rewrite Et].
    destruct (waiting t) eqn:Ew; [by destruct (H2 t eq_refl)|]. split; [done|]. by rewrite Et.
  - unfold sampled. destruct (tick g) as [t|] eqn:Et; [|done]. destruct (waiting t) eqn:Ew; [done|].
    destruct (objects g !! obj); [|done]. destruct (evaluateProcess _ _) as [p2 [r|]]; apply advance_known, Hc.
  - destruct Hc as [H1 H2]. split; [done|by intros t]. 
Qed.
End Governor.

(** ** Runs *)

Definition sample_config : PluginResourceConfig := MkConfig 1000 1000 2000 1000 2000 50 2 3.

Definition sample_info (k : string) : GovernedProcessInfo := MkInfo k 1 64 80 100 30 40.

Definition sample_tick (now : Z) (a b : Z) : list Op :=
  [StartTick now (100 * MIB); Sampled now (Some (a * MIB)) None; Sampled now (Some (b * MIB)) None].

(** Two plugins: the first is over its limit in both passes, the second once. *)
Definition spread_ops : list Op :=
  [Register 0 (sample_info "a"); Register 0 (sample_info "b")] ++ sample_tick 2000 150 50 ++ sample_tick 4000 150 120.

(** The termination of one plugin is itself the level [hard]: in the same pass a
    second plugin that was over its limit once is terminated, although all memory is
    far below the soft limits. *)
Theorem termination_spreads :
  let g := run sample_config 0 (Some None) spread_ops in
  requests g = [(0%nat, "a"%string, RESOURCE_LIMIT_EXCEEDED); (1%nat, "b"%string, RESOURCE_LIMIT_EXCEEDED)] /\
  option_map rssViolationSamples (object_of "b" g) = Some 1%nat /\
  2 * treeRssBytes g < processTreeRssSoftMiB sample_config * MIB.
Proof. vm_compute. done. Qed.

(** A plugin is started again while the pass waits for the sample of its old process. *)
Definition stale_ops : list Op :=
  [Register 0 (sample_info "a"); StartTick 2000 0; Sampled 2000 (Some (150 * MIB)) None; StartTick 4000 0;
   Unregister "a"; Register 4001 (sample_info "a"); Sampled 4002 (Some (150 * MIB)) None].

(** The governor asks for the termination of the plugin because of the old process; the
    new one, which the host would end, has not been sampled. *)
Theorem stale_object_terminates :
  let g := run sample_config 0 (Some None) stale_ops in
  requests g = [(0%nat, "a"%string, RESOURCE_LIMIT_EXCEEDED)] /\
  map_get "a"%string (processes g) = Some 1%nat /\ isTerminated "a" g = false /\
  option_map rssBytes (object_of "a" g) = Some None.
Proof. vm_compute. done. Qed.

Lemma watchdog_exact_witness :
  (1 <= 2)%nat /\ terminated (watch sample_config (new_process (sample_info "a") 0)
    [(Some (150 * MIB), 0, 10); (Some (50 * MIB), 0, 10); (Some (150 * MIB), 0, 10); (Some (151 * MIB), 0, 10)]) = true.
Proof.
  split; [lia|]. apply (watchdog_exact sample_config (sample_info "a") 0); [vm_compute; lia | vm_compute; lia |].
  left. exists 2%nat. intros [|[|j]] Hj; [reflexivity|reflexivity|]. cbn in Hj. lia.
Defined.
End Governor.
