(* ===== verification/Services.v ===== *)
(** * Cross-plugin services
    (apps/web/src/plugins/kernel/services.ts and the registry of
    apps/web/src/plugins/runtime.ts)

    The host keeps the registry of published services and the connections of
    their consumers.  One request of a plugin is one step; an invocation is
    routed to the session of the provider, whose reply is an argument.  Tokens
    of connections are arguments; numbers are whole. *)

From Stdlib Require Import ZArith Lia Bool Ascii String List.
From stdpp Require Import base decidable strings list.
From S2P Require Import Prelude.
Local Open Scope Z_scope.
Local Open Scope js_scope.

Module Services.

(** ** The size of a value as JSON *)

Fixpoint digits (fuel : nat) (n : Z) : Z :=
  match fuel with
  | O => 1
  | S f => if n <? 10 then 1 else 1 + digits f (n / 10)
  end.

(** Characters of an integer below 10^21 in absolute value. *)
Definition number_length (n : Z) : Z := if n <? 0 then 1 + digits 21 (- n) else digits 21 n.

Definition char_length (c : ascii) : Z :=
  let n := code c in
  if (n =? 34) || (n =? 92) || (n =? 8) || (n =? 9) || (n =? 10) || (n =? 12) || (n =? 13) then 2
  else if n <? 32 then 6 else 1.

Definition string_length (s : string) : Z := 2 + zsum (map char_length (chars s)).

(** The length of [JSON.stringify(v)]; [None] when it throws (a bigint). *)
Fixpoint json_length (v : Value) : option Z :=
  match v with
  | VNull | VNonFinite => Some 4
  | VBool true => Some 4
  | VBool false => Some 5
  | VNum n => Some (number_length n)
  | VBig _ => None
  | VStr s => Some (string_length s)
  | VArr l =>
      (fix items (l : list Value) (acc : Z) : option Z :=
         match l with
         | [] => Some (acc + 2)
         | x :: r => match json_length x with
                     | Some n => items r (acc + n + match r with [] => 0 | _ => 1 end)
                     | None => None
                     end
         end) l 0
  | VObj l =>
      (fix fields (l : list (string * Value)) (acc : Z) : option Z :=
         match l with
         | [] => Some (acc + 2)
         | (k, x) :: r => match json_length x with
                          | Some n => fields r (acc + string_length k + 1 + n + match r with [] => 0 | _ => 1 end)
                          | None => None
                          end
         end) l 0
  end.

(** ** Errors *)

Inductive Code :=
| VALIDATION_FAILED
| CAPABILITY_DENIED
| PLUGIN_QUOTA_EXCEEDED
| SERVICE_NOT_FOUND
| SERVICE_UNAVAILABLE
| SERVICE_METHOD_NOT_FOUND
| SERVICE_TIMEOUT
| SERVICE_ERROR (provider : Code)
| OPERATION_ABORTED
| OPERATION_DEADLINE
| INTERNAL
| OtherCode (s : string).

(** A [KernelError] with the reason or limit of its details. *)
Record KernelError := KErr { err_code : Code; err_detail : string }.

Definition failParams (reason : string) : KernelError := KErr VALIDATION_FAILED reason.
Definition denied (capability : string) : KernelError := KErr CAPABILITY_DENIED capability.

(** ** The host *)

Record Entry := MkEntry {
  serviceId : string;
  provider : string;
  name : string;
  methods : list string;
  version : option string;
  description : option string;
  timeoutMs : Z
}.

Record Connection := Conn { connectionId : string; consumer : string; service : string }.

(** A live frame: whether its session is usable, its granted capabilities. *)
Record Frame := MkFrame { session_live : bool; granted : list string }.

Record Host := MkHost {
  registry : list (string * Entry);
  connections : list (string * Connection);
  frames : list (string * Frame)
}.

Definition with_registry (h : Host) (m : list (string * Entry)) : Host := MkHost m (connections h) (frames h).
Definition with_connections (h : Host) (m : list (string * Connection)) : Host := MkHost (registry h) m (frames h).
Definition with_frames (h : Host) (m : list (string * Frame)) : Host := MkHost (registry h) (connections h) m.


(** [ctx.hasCapability] without a scope *)
Definition hasCapability (h : Host) (pid cap : string) : bool :=
  match map_get pid (frames h) with Some f => mem cap (granted f) | None => false end.

Definition kernelServiceRegister (h : Host) (e : Entry) : option Host :=
  if map_has (serviceId e) (registry h) then None
  else Some (with_registry h (map_set (serviceId e) e (registry h))).

(** [kernelServiceRemoveByPlugin]: the second loop looks the services up in the
    registry that the first loop has emptied of them. *)
Definition kernelServiceRemoveByPlugin (h : Host) (pid : string) : Host :=
  let reg := List.filter (fun e => negb (provider e.2 =? pid)%string) (registry h) in
  MkHost reg
    (List.filter (fun c => negb match map_get (service c.2) reg with
                                | Some e => (provider e =? pid)%string
                                | None => false
                                end) (connections h))
    (frames h).

Definition kernelServiceRemoveService (h : Host) (sid pid : string) : Host * bool :=
  match map_get sid (registry h) with
  | None => (h, false)
  | Some e =>
      if negb (provider e =? pid)%string then (h, false)
      else (MkHost (map_del sid (registry h))
              (List.filter (fun c => negb (service c.2 =? sid)%string) (connections h)) (frames h), true)
  end.

Definition kernelServiceConnectionCount (h : Host) (pid : string) : Z :=
  Z.of_nat (length (List.filter (fun c => (consumer c.2 =? pid)%string) (connections h))).

Definition kernelServiceRemoveByConsumer (h : Host) (pid : string) : Host :=
  with_connections h (List.filter (fun c => negb (consumer c.2 =? pid)%string) (connections h)).

Definition kernelServiceList (h : Host) : list Entry := map snd (registry h).

Definition kernelServiceGet (h : Host) (sid : string) : option Entry := map_get sid (registry h).

Definition MAX_SERVICE_CONNECTIONS : Z := 256.

Definition kernelServiceCreateConnection (h : Host) (token pid sid : string) : option Host :=
  if MAX_SERVICE_CONNECTIONS <=? Z.of_nat (length (connections h)) then None
  else Some (with_connections h (map_set token (Conn token pid sid) (connections h))).

Definition kernelServiceGetConnection (h : Host) (pid cid : string) : option Connection :=
  match map_get cid (connections h) with
  | Some c => if (consumer c =? pid)%string then Some c else None
  | None => None
  end.

Definition kernelServiceRemoveConnection (h : Host) (pid cid : string) : Host :=
  match kernelServiceGetConnection h pid cid with
  | Some _ => with_connections h (map_del cid (connections h))
  | None => h
  end.

(** [frame?.session && !frame.session.isDisposed] *)
Definition sessionAlive (h : Host) (pid : string) : bool :=
  match map_get pid (frames h) with Some f => session_live f | None => false end.

Definition providerAlive (h : Host) (sid : string) : bool :=
  match kernelServiceGet h sid with Some e => sessionAlive h (provider e) | None => false end.

(** ** The handlers *)

Definition MAX_SERVICES_PER_PLUGIN : Z := 16.
Definition MAX_METHODS_PER_SERVICE : Z := 64.
Definition MAX_CONNECTIONS_PER_CONSUMER : Z := 64.
Definition MAX_PAYLOAD_BYTES : Z := 256 * 1024.
Definition DEFAULT_SERVICE_TIMEOUT_MS : Z := 10000.
Definition MAX_SERVICE_TIMEOUT_MS : Z := 60000.

Definition is_name_char (c : ascii) : bool := is_alnum c || (c =? "_")%char || (c =? ".")%char.

(** [NAME_RE] *)
Definition valid_name (s : string) : bool :=
  match chars s with
  | c :: r => is_alpha c && forallb is_name_char r && (length r <=? 63)%nat
  | [] => false
  end.

Definition assertPayload (v : option Value) (label : string) : outcome KernelError unit :=
  match v with
  | None => Ok tt
  | Some x =>
      match json_length x with
      | None => Throw (failParams "payload-not-json-safe")
      | Some n => if MAX_PAYLOAD_BYTES <? n then Throw (KErr PLUGIN_QUOTA_EXCEEDED ("services." ++ label)) else Ok tt
      end
  end.

Definition optionalString (o : list (string * Value)) (k : string) (max : Z)
    : outcome KernelError (option string) :=
  match field k o with
  | None | Some VNull => Ok None
  | Some (VStr s) =>
      if (strlen s =? 0) || (max <? strlen s) then Throw (failParams "invalid-field") else Ok (Some s)
  | Some _ => Throw (failParams "invalid-field")
  end.

(** The loop over the raw methods: names, each once. *)
Fixpoint method_names (raw : list Value) (seen : list string) : outcome KernelError (list string) :=
  match raw with
  | [] => Ok []
  | VStr s :: r =>
      if negb (valid_name s) || mem s seen then Throw (failParams "invalid-methods")
      else let? l := method_names r (s :: seen) in Ok (s :: l)
  | _ :: _ => Throw (failParams "invalid-methods")
  end.

Definition timeout_of (o : list (string * Value)) : outcome KernelError Z :=
  match field "timeoutMs" o with
  | None | Some VNull => Ok DEFAULT_SERVICE_TIMEOUT_MS
  | Some (VNum n) => Ok (Z.min (Z.max 1000 n) MAX_SERVICE_TIMEOUT_MS)
  | Some _ => Throw (failParams "invalid-field")
  end.

(** A required parameter that is a string. *)
Definition string_param (k reason : string) (params : option Value) : outcome KernelError string :=
  match params with
  | Some (VObj o) => match field k o with Some (VStr s) => Ok s | _ => Throw (failParams reason) end
  | _ => Throw (failParams reason)
  end.

Definition provide (h : Host) (pid : string) (params : option Value) : outcome KernelError (Host * string) :=
  guard? hasCapability h pid "services.provide" else denied "services.provide" then
  match params with
  | Some (VObj o) =>
      match field "name" o with
      | Some (VStr nm) =>
          guard? valid_name nm else failParams "invalid-name" then
          match field "methods" o with
          | Some (VArr raw) =>
              guard? negb (Z.of_nat (length raw) =? 0) else failParams "methods-required" then
              guard? Z.of_nat (length raw) <=? MAX_METHODS_PER_SERVICE else failParams "methods-too-many" then
              let? ms := method_names raw [] in
              let? v := optionalString o "version" 32 in
              let? d := optionalString o "description" 200 in
              let? t := timeout_of o in
              let mine := List.filter (fun e => (provider e =? pid)%string) (kernelServiceList h) in
              guard? Z.of_nat (length mine) <? MAX_SERVICES_PER_PLUGIN
                else KErr PLUGIN_QUOTA_EXCEEDED "services.perPlugin" then
              let sid := (pid ++ "." ++ nm)%string in
              match kernelServiceRegister h (MkEntry sid pid nm ms v d t) with
              | Some h' => Ok (h', sid)
              | None => Throw (failParams "service-already-provided")
              end
          | _ => Throw (failParams "methods-required")
          end
      | _ => Throw (failParams "invalid-name")
      end
  | _ => Throw (failParams "params-not-object")
  end.

Definition unprovide (h : Host) (pid : string) (params : option Value) : outcome KernelError Host :=
  guard? hasCapability h pid "services.provide" else denied "services.provide" then
  let? sid := string_param "serviceId" "serviceId-required" params in
  Ok (kernelServiceRemoveService h sid pid).1.

Definition connect (h : Host) (pid token : string) (params : option Value)
    : outcome KernelError (Host * list string) :=
  guard? hasCapability h pid "services.connect" else denied "services.connect" then
  let? sid := string_param "serviceId" "serviceId-required" params in
  match kernelServiceGet h sid with
  | None => Throw (KErr SERVICE_NOT_FOUND sid)
  | Some e =>
      guard? providerAlive h sid else KErr SERVICE_UNAVAILABLE sid then
      guard? kernelServiceConnectionCount h pid <? MAX_CONNECTIONS_PER_CONSUMER
        else KErr PLUGIN_QUOTA_EXCEEDED "services.perConsumer" then
      match kernelServiceCreateConnection h token pid sid with
      | None => Throw (KErr PLUGIN_QUOTA_EXCEEDED "services.hostTotal")
      | Some h' => Ok (h', methods e)
      end
  end.

Definition disconnect (h : Host) (pid : string) (params : option Value) : outcome KernelError Host :=
  guard? hasCapability h pid "services.connect" else denied "services.connect" then
  let? cid := string_param "connectionId" "connectionId-required" params in
  Ok (kernelServiceRemoveConnection h pid cid).

(** The call into the provider's sandbox. *)
Record Call := MkCall {
  to_plugin : string;
  call_service : string;
  call_method : string;
  call_params : option Value;
  caller : string;
  deadline : Z
}.

(** What the call rejects with: a [KernelError], another [Error], anything else. *)
Inductive Failure :=
| FKernel (e : KernelError)
| FError (message : string)
| FOther.

(** The checks of [services.invoke] up to the call. *)
Definition invoke_call (h : Host) (pid : string) (params : option Value) : outcome KernelError Call :=
  guard? hasCapability h pid "services.connect" else denied "services.connect" then
  match params with
  | Some (VObj o) =>
      match field "connectionId" o with
      | Some (VStr cid) =>
          guard? negb (cid =? "")%string else failParams "connectionId-required" then
          match field "method" o with
          | Some (VStr m) =>
              guard? valid_name m else failParams "invalid-method" then
              match kernelServiceGetConnection h pid cid with
              | None => Throw (KErr SERVICE_NOT_FOUND "services.invoke")
              | Some c =>
                  match kernelServiceGet h (service c) with
                  | None => Throw (KErr SERVICE_UNAVAILABLE (service c))
                  | Some e =>
                      guard? mem m (methods e) else KErr SERVICE_METHOD_NOT_FOUND m then
                      guard? sessionAlive h (provider e) else KErr SERVICE_UNAVAILABLE (serviceId e) then
                      let? _ := assertPayload (field "params" o) "params" in
                      Ok (MkCall (provider e) (serviceId e) m (field "params" o) pid (timeoutMs e))
                  end
              end
          | _ => Throw (failParams "invalid-method")
          end
      | _ => Throw (failParams "connectionId-required")
      end
  | _ => Throw (failParams "params-not-object")
  end.

(** The [catch] clause. *)
Definition translate (aborted : bool) (c : Call) (f : Failure) : KernelError :=
  if aborted then KErr OPERATION_ABORTED ""
  else
    match f with
    | FKernel (KErr OPERATION_DEADLINE _) => KErr SERVICE_TIMEOUT (call_service c)
    | FKernel (KErr OPERATION_ABORTED _) => KErr SERVICE_UNAVAILABLE (call_service c)
    | FKernel (KErr code d) => KErr (SERVICE_ERROR code) d
    | FError m => KErr (SERVICE_ERROR INTERNAL) (str (take 500 (chars m)))
    | FOther => KErr (SERVICE_ERROR INTERNAL) ""
    end.

(** The rest of [services.invoke], from the settled call; [aborted] is the state
    of the request's signal then. *)
Definition invoke_result (c : Call) (reply : outcome Failure (option Value)) (aborted : bool)
    : outcome KernelError (option Value) :=
  match reply with
  | Ok v => match assertPayload v "result" with
            | Ok _ => Ok v
            | Throw e => Throw (translate aborted c (FKernel e))
            end
  | Throw f => Throw (translate aborted c f)
  end.

Definition invoke (h : Host) (pid : string) (params : option Value)
    (answer : Call -> outcome Failure (option Value) * bool) : outcome KernelError (option Value) :=
  let? c := invoke_call h pid params in
  let '(reply, aborted) := answer c in
  invoke_result c reply aborted.

(** ** The life of the host *)

Inductive Op :=
| Provide (pid : string) (params : option Value)
| Unprovide (pid : string) (params : option Value)
| Connect (pid token : string) (params : option Value)
| Disconnect (pid : string) (params : option Value)
| CreateFrame (pid : string) (caps : list string)
| GrantCapability (pid cap : string)
| RevokeCapability (pid cap : string)
| DisposeSession (pid : string)
| RemoveFrame (pid : string).

(** [grants.splice(findIndex(grant => grant.name === name), 1)] *)
Fixpoint remove_first (x : string) (l : list string) : list string :=
  match l with
  | [] => []
  | y :: r => if (y =? x)%string then r else y :: remove_first x r
  end.

Definition revoke (h : Host) (pid cap : string) : Host :=
  match map_get pid (frames h) with
  | None => h
  | Some f =>
      let h1 := with_frames h (map_set pid (MkFrame (session_live f) (remove_first cap (granted f))) (frames h)) in
      let h2 := if (cap =? "services.provide")%string then kernelServiceRemoveByPlugin h1 pid else h1 in
      if (cap =? "services.connect")%string then kernelServiceRemoveByConsumer h2 pid else h2
  end.

Definition removeFrame (h : Host) (pid : string) : Host :=
  if map_has pid (frames h)
  then kernelServiceRemoveByConsumer
         (kernelServiceRemoveByPlugin (with_frames h (map_del pid (frames h))) pid) pid
  else h.

Definition on_ok {A} (h : Host) (f : A -> Host) (o : outcome KernelError A) : Host :=
  match o with Ok a => f a | Throw _ => h end.

(** A request is served only while the session of the plugin is live. *)
Definition step (h : Host) (op : Op) : Host :=
  match op with
  | Provide p v => if sessionAlive h p then on_ok h fst (provide h p v) else h
  | Unprovide p v => if sessionAlive h p then on_ok h id (unprovide h p v) else h
  | Connect p tok v => if sessionAlive h p then on_ok h fst (connect h p tok v) else h
  | Disconnect p v => if sessionAlive h p then on_ok h id (disconnect h p v) else h
  | CreateFrame p caps =>
      if map_has p (frames h) then h else with_frames h (map_set p (MkFrame true caps) (frames h))
  | GrantCapability p cap =>
      match map_get p (frames h) with
      | Some f => with_frames h (map_set p (MkFrame (session_live f) (granted f ++ [cap])) (frames h))
      | None => h
      end
  | RevokeCapability p cap => revoke h p cap
  | DisposeSession p =>
      match map_get p (frames h) with
      | Some f => with_frames h (map_set p (MkFrame false (granted f)) (frames h))
      | None => h
      end
  | RemoveFrame p => removeFrame h p
  end.

Definition empty_host : Host := MkHost [] [] [].
Definition run (ops : list Op) : Host := fold_left step ops empty_host.

(** ** The host invariant *)

Record entry_ok (h : Host) (k : string) (e : Entry) : Prop := {
  eo_key : k = serviceId e;
  eo_id : serviceId e = (provider e ++ "." ++ name e)%string;
  eo_name : valid_name (name e) = true;
  eo_methods : methods e <> [] /\ NoDup (methods e) /\
    Z.of_nat (length (methods e)) <= MAX_METHODS_PER_SERVICE /\ Forall (fun m => valid_name m = true) (methods e);
  eo_timeout : 1000 <= timeoutMs e <= MAX_SERVICE_TIMEOUT_MS;
  eo_cap : hasCapability h (provider e) "services.provide" = true
}.

Record conn_ok (h : Host) (k : string) (c : Connection) : Prop := {
  co_key : k = connectionId c;
  co_cap : hasCapability h (consumer c) "services.connect" = true
}.

Definition services_of (h : Host) (p : string) : list (string * Entry) :=
  List.filter (fun e => (provider e.2 =? p)%string) (registry h).

Record host_ok (h : Host) : Prop := {
  ho_registry : map_ok (registry h);
  ho_connections : map_ok (connections h);
  ho_frames : map_ok (frames h);
  ho_entries : forall k e, (k, e) ∈ registry h -> entry_ok h k e;
  ho_conns : forall k c, (k, c) ∈ connections h -> conn_ok h k c;
  ho_per_plugin : forall p, Z.of_nat (length (services_of h p)) <= MAX_SERVICES_PER_PLUGIN;
  ho_per_consumer : forall p, kernelServiceConnectionCount h p <= MAX_CONNECTIONS_PER_CONSUMER;
  ho_total : Z.of_nat (length (connections h)) <= MAX_SERVICE_CONNECTIONS
}.

Lemma mem_remove_first x y l : x <> y -> mem x (remove_first y l) = mem x l.
Proof.
  intros Hne. induction l as [|z l IH]; simpl; [done|].
  destruct (String.eqb_spec z y) as [->|]; simpl; [|by rewrite IH].
  destruct (String.eqb_spec x y); [done|]. done.
Qed.

Lemma map_ok_filter {V} (f : string * V -> bool) (m : list (string * V)) :
  map_ok m -> map_ok (List.filter f m).
Proof.
  unfold map_ok, map_keys. intros Hm. eapply sublist_NoDup; [exact Hm|]. apply fmap_sublist, filter_sublist.
Qed.

Lemma filter_count_sub {A} (f g : A -> bool) (l : list A) :
  Z.of_nat (length (List.filter f (List.filter g l))) <= Z.of_nat (length (List.filter f l)).
Proof. apply inj_le, sublist_length. induction l as [|x l IH]; simpl; [done|].
  destruct (g x); simpl; destruct (f x); simpl; first [by apply sublist_skip | by apply sublist_cons | exact IH].
Qed.

Lemma filter_count_set {V} (f : string * V -> bool) k v (m : list (string * V)) :
  Z.of_nat (length (List.filter f (map_set k v m))) <=
  Z.of_nat (length (List.filter f m)) + (if f (k, v) then 1 else 0).
Proof.
  induction m as [|[k0 v0] m IH]; simpl.
  - destruct (f (k, v)); simpl; lia.
  - case_decide as E; simpl.
    + subst k0. destruct (f (k, v)), (f (k, v0)); simpl; lia.
    + destruct (f (k0, v0)); simpl; lia.
Qed.

Lemma length_map_set {V} k v (m : list (string * V)) :
  Z.of_nat (length (map_set k v m)) <= Z.of_nat (length m) + 1.
Proof. induction m as [|[k0 v0] m IH]; simpl; [lia|]. case_decide; simpl; lia. Qed.

Lemma filter_elem {V} (f : string * V -> bool) x (m : list (string * V)) : x ∈ List.filter f m -> x ∈ m.
Proof. intros Hx. by apply elem_of_filter_bool in Hx as [Hx _]. Qed.

(** Anything that drops entries and connections and keeps the capabilities they
    need keeps the invariant. *)
Lemma host_ok_shrink h h' (fr : string * Entry -> bool) (fc : string * Connection -> bool) :
  host_ok h -> registry h' = List.filter fr (registry h) -> connections h' = List.filter fc (connections h) ->
  map_ok (frames h') ->
  (forall k e, (k, e) ∈ registry h' -> hasCapability h' (provider e) "services.provide" = true) ->
  (forall k c, (k, c) ∈ connections h' -> hasCapability h' (consumer c) "services.connect" = true) ->
  host_ok h'.
Proof.
  intros [H1 H2 H3 H4 H5 H6 H7 H8] Hr Hc Hf He Hn. split.
  - rewrite Hr. by apply map_ok_filter.
  - rewrite Hc. by apply map_ok_filter.
  - exact Hf.
  - intros k e Hin. pose proof (He k e Hin) as Hcap. rewrite Hr in Hin.
    apply filter_elem in Hin. destruct (H4 k e Hin). by split.
  - intros k c Hin. pose proof (Hn k c Hin) as Hcap. rewrite Hc in Hin.
    apply filter_elem in Hin. destruct (H5 k c Hin). by split.
  - intros p. unfold services_of. rewrite Hr. etrans; [apply filter_count_sub | apply H6].
  - intros p. unfold kernelServiceConnectionCount. rewrite Hc. etrans; [apply filter_count_sub | apply H7].
  - rewrite Hc. pose proof (filter_length_le fc (connections h)). lia.
Qed.

Lemma filter_true {A} (l : list A) : List.filter (fun _ => true) l = l.
Proof. by apply filter_all. Qed.

(** Steps that touch only frames. *)
Lemma host_ok_frames h m :
  host_ok h -> map_ok m ->
  (forall p cap, (cap = "services.provide" \/ cap = "services.connect")%string ->
     hasCapability h p cap = true -> hasCapability (with_frames h m) p cap = true) ->
  host_ok (with_frames h m).
Proof.
  intros Hh Hm Hc. apply (host_ok_shrink h _ (fun _ => true) (fun _ => true)); simpl; rewrite ?filter_true; try done.
  - intros k e Hin. apply Hc; [by left|]. by apply (ho_entries _ Hh) in Hin as [].
  - intros k c Hin. apply Hc; [by right|]. by apply (ho_conns _ Hh) in Hin as [].
Qed.

Lemma hasCapability_set h h' p f q cap :
  frames h' = map_set p f (frames h) ->
  hasCapability h' q cap = if decide (p = q) then mem cap (granted f) else hasCapability h q cap.
Proof. intros Hf. unfold hasCapability. rewrite Hf, map_get_set. by case_decide. Qed.

Lemma hasCapability_get h p f cap :
  map_get p (frames h) = Some f -> hasCapability h p cap = mem cap (granted f).
Proof. intros Hf. unfold hasCapability. by rewrite Hf. Qed.

Lemma frame_set_ok h p f f' :
  host_ok h -> map_get p (frames h) = Some f ->
  (forall cap, mem cap (granted f) = true -> mem cap (granted f') = true) ->
  host_ok (with_frames h (map_set p f' (frames h))).
Proof.
  intros Hh Hf Hm. apply host_ok_frames; [done | apply map_set_ok, Hh|].
  intros q cap _ Hc. rewrite (hasCapability_set h _ p f') by done. case_decide as E; [|done].
  subst q. apply Hm. by rewrite <- (hasCapability_get h p f).
Qed.

Lemma revoke_ok h p cap : host_ok h -> host_ok (revoke h p cap).
Proof.
  intros Hh. unfold revoke. destruct (map_get p (frames h)) as [f|] eqn:Ef; [|done].
  set (f' := MkFrame _ _). set (h1 := with_frames h _).
  assert (Hcap : forall q c, c <> cap \/ q <> p -> hasCapability h1 q c = hasCapability h q c).
  { intros q c Hor. rewrite (hasCapability_set h h1 p f') by done. case_decide as E; [|done]. subst q.
    destruct Hor as [Hne|]; [|done]. simpl. rewrite mem_remove_first by done. by rewrite (hasCapability_get h p f). }
  assert (Hf1 : map_ok (frames h1)) by apply map_set_ok, Hh.
  assert (He : forall k e, (k, e) ∈ registry h -> hasCapability h (provider e) "services.provide" = true)
    by (intros k e Hin; apply (ho_entries _ Hh k e Hin)).
  assert (Hn : forall k c, (k, c) ∈ connections h -> hasCapability h (consumer c) "services.connect" = true)
    by (intros k c Hin; apply (ho_conns _ Hh k c Hin)).
  destruct (String.eqb_spec cap "services.provide") as [->|Hp].
  - eapply (host_ok_shrink h); [done|reflexivity|reflexivity|done| |].
    + intros k e Hin. change (hasCapability h1 (provider e) "services.provide" = true).
      simpl in Hin. apply elem_of_filter_bool in Hin as [Hin Hne]. simpl in Hne. bools.
      rewrite Hcap by (by right). by eapply He.
    + intros k c Hin. change (hasCapability h1 (consumer c) "services.connect" = true).
      rewrite Hcap by (by left). apply filter_elem in Hin. by eapply Hn.
  - destruct (String.eqb_spec cap "services.connect") as [->|Hc].
    + eapply (host_ok_shrink h); [done|symmetry; apply filter_true|reflexivity|done| |].
      * intros k e Hin. change (hasCapability h1 (provider e) "services.provide" = true).
        rewrite Hcap by (by left). by eapply He.
      * intros k c Hin. change (hasCapability h1 (consumer c) "services.connect" = true).
        simpl in Hin. apply elem_of_filter_bool in Hin as [Hin Hne]. simpl in Hne. bools.
        rewrite Hcap by (by right). by eapply Hn.
    + apply host_ok_frames; [done | done|]. intros q c [->| ->] Hq; fold h1; rewrite Hcap; auto.
Qed.

Lemma removeFrame_ok h p : host_ok h -> host_ok (removeFrame h p).
Proof.
  intros Hh. unfold removeFrame. case_match; [|done].
  assert (Hcap : forall q c, q <> p -> hasCapability (with_frames h (map_del p (frames h))) q c = hasCapability h q c).
  { intros q c Hne. unfold hasCapability. simpl. rewrite map_get_del by apply Hh. by rewrite decide_False. }
  eapply (host_ok_shrink h); [done|reflexivity|simpl; apply filter_filter|apply map_del_ok, Hh| |].
  - intros k e Hin. simpl in Hin. apply elem_of_filter_bool in Hin as [Hin Hne]. simpl in Hne. bools.
    etrans; [apply Hcap; done|]. apply (ho_entries _ Hh k e Hin).
  - intros k c Hin. simpl in Hin. apply elem_of_filter_bool in Hin as [Hin Hne]. simpl in Hne. bools.
    apply filter_elem in Hin. etrans; [apply Hcap; done|]. apply (ho_conns _ Hh k c Hin).
Qed.

Lemma method_names_spec raw seen l :
  method_names raw seen = Ok l ->
  length l = length raw /\ NoDup l /\ Forall (fun m => valid_name m = true) l /\ (forall m, m ∈ l -> m ∉ seen).
Proof.
  revert seen l. induction raw as [|v raw IH]; intros seen l; simpl.
  - intros [= <-]. split_and!; try done; [constructor|]. intros m Hm. by apply not_elem_of_nil in Hm.
  - destruct v; try done. destruct (negb (valid_name s) || mem s seen) eqn:Eb; [done|].
    destruct (method_names raw (s :: seen)) as [l0|] eqn:E; simpl; [|done]. intros [= <-].
    destruct (IH _ _ E) as (Hl & Hnd & Hv & Hs). bools. split_and!.
    + simpl. by rewrite Hl.
    + constructor; [|done]. intros Hin. apply (Hs _ Hin). left.
    + by constructor.
    + intros m [->|Hm]%elem_of_cons; [intros Hin; apply mem_elem in Hin; congruence|].
      intros Hin. apply (Hs _ Hm). by right.
Qed.

Lemma timeout_of_bounds o t : timeout_of o = Ok t -> 1000 <= t <= MAX_SERVICE_TIMEOUT_MS.
Proof.
  unfold timeout_of, DEFAULT_SERVICE_TIMEOUT_MS, MAX_SERVICE_TIMEOUT_MS.
  destruct (field _ o) as [[]|]; intros [= <-]; lia.
Qed.

(** What a successful [services.provide] has checked and done. *)
Lemma provide_spec h p v h' sid :
  provide h p v = Ok (h', sid) -> exists nm ms ver desc t,
  let e := MkEntry sid p nm ms ver desc t in
  h' = with_registry h (map_set sid e (registry h)) /\ map_get sid (registry h) = None /\
  Z.of_nat (length (services_of h p)) < MAX_SERVICES_PER_PLUGIN /\ entry_ok h sid e.
Proof.
  unfold provide. destruct (hasCapability h p "services.provide") eqn:Ecap; [|done].
  destruct v as [[]|]; try done. destruct (field "name" l) as [[]|]; try done.
  destruct (valid_name s) eqn:En; [|done]. destruct (field "methods" l) as [[]|]; try done.
  destruct (negb (Z.of_nat (length l0) =? 0)) eqn:E0; [|done].
  destruct (Z.of_nat (length l0) <=? MAX_METHODS_PER_SERVICE) eqn:E64; [|done].
  destruct (method_names l0 []) as [ms|] eqn:Em; simpl; [|done].
  destruct (optionalString l "version" 32) as [ver|]; simpl; [|done].
  destruct (optionalString l "description" 200) as [desc|]; simpl; [|done].
  destruct (timeout_of l) as [t|] eqn:Et; simpl; [|done].
  destruct (_ <? MAX_SERVICES_PER_PLUGIN) eqn:E16; [|done].
  unfold kernelServiceRegister, map_has. simpl. destruct (map_get _ (registry h)) eqn:Eg; [done|].
  intros [= <- <-]. exists s, ms, ver, desc, t. simpl.
  destruct (method_names_spec _ _ _ Em) as (Hl & Hnd & Hv & _). bools. split_and!; try done.
  - unfold services_of. unfold kernelServiceList in E16. revert E16. clear.
    assert (Hm : length (List.filter (fun e => (provider e =? p)%string) (map snd (registry h))) =
                 length (List.filter (fun e => (provider e.2 =? p)%string) (registry h))).
    { induction (registry h) as [|[k e] r IH]; simpl; [done|]. case_match; simpl; by rewrite IH. }
    by rewrite Hm.
  - split; simpl; try done; [|by eapply timeout_of_bounds].
    split_and!; try done; [|by rewrite Hl]. intros ->. simpl in Hl. lia.
Qed.

Lemma provide_ok h p v h' sid : host_ok h -> provide h p v = Ok (h', sid) -> host_ok h'.
Proof.
  intros Hh Hp. destruct (provide_spec _ _ _ _ _ Hp) as (nm & ms & ver & desc & t & -> & Hnone & H16 & He).
  destruct Hh as [H1 H2 H3 H4 H5 H6 H7 H8]. split; simpl; try done.
  - by apply map_set_ok.
  - intros k e Hin. apply elem_of_map_set in Hin as [[= -> ->]|Hin]; [by destruct He | by destruct (H4 k e Hin)].
  - intros k c Hin. by destruct (H5 k c Hin).
  - intros q. unfold services_of. simpl. pose proof (filter_count_set (fun e => (provider e.2 =? q)%string) sid
      (MkEntry sid p nm ms ver desc t) (registry h)) as Hc. simpl in Hc.
    pose proof (H6 q) as Hq. unfold services_of in Hq, H16. destruct (String.eqb_spec p q) as [->|]; lia.
Qed.

Lemma connect_spec h p tok v h' ms :
  connect h p tok v = Ok (h', ms) -> exists sid e,
  map_get sid (registry h) = Some e /\ ms = methods e /\ sessionAlive h (provider e) = true /\
  hasCapability h p "services.connect" = true /\
  kernelServiceConnectionCount h p < MAX_CONNECTIONS_PER_CONSUMER /\
  Z.of_nat (length (connections h)) < MAX_SERVICE_CONNECTIONS /\
  h' = with_connections h (map_set tok (Conn tok p sid) (connections h)).
Proof.
  unfold connect. destruct (hasCapability h p "services.connect"); [|done].
  destruct (string_param _ _ v) as [sid|]; simpl; [|done]. unfold providerAlive, kernelServiceGet.
  destruct (map_get sid (registry h)) as [e|] eqn:Eg; [|done]. destruct (sessionAlive h (provider e)) eqn:Ea; [|done].
  destruct (_ <? MAX_CONNECTIONS_PER_CONSUMER) eqn:E64; [|done]. unfold kernelServiceCreateConnection.
  destruct (MAX_SERVICE_CONNECTIONS <=? _) eqn:E256; [done|]. intros [= <- <-]. bools. by exists sid, e.
Qed.

Lemma connect_ok h p tok v h' ms : host_ok h -> connect h p tok v = Ok (h', ms) -> host_ok h'.
Proof.
  intros Hh Hc. destruct (connect_spec _ _ _ _ _ _ Hc) as (sid & e & _ & _ & _ & Hcap & H64 & H256 & ->).
  destruct Hh as [H1 H2 H3 H4 H5 H6 H7 H8]. split; simpl; try done.
  - by apply map_set_ok.
  - intros k e0 Hin. by destruct (H4 k e0 Hin).
  - intros k c Hin. apply elem_of_map_set in Hin as [[= -> ->]|Hin]; [by split | by destruct (H5 k c Hin)].
  - intros q. unfold kernelServiceConnectionCount. simpl.
    pose proof (filter_count_set (fun c => (consumer c.2 =? q)%string) tok (Conn tok p sid) (connections h)) as Hn.
    simpl in Hn. pose proof (H7 q) as Hq. unfold kernelServiceConnectionCount in Hq, H64.
    destruct (String.eqb_spec p q) as [->|]; lia.
  - pose proof (length_map_set tok (Conn tok p sid) (connections h)). lia.
Qed.

Lemma removeService_ok h sid p : host_ok h -> host_ok (kernelServiceRemoveService h sid p).1.
Proof.
  intros Hh. unfold kernelServiceRemoveService. destruct (map_get sid (registry h)); [|done].
  case_match; [done|]. eapply (host_ok_shrink h); [done|apply map_del_filter, Hh|reflexivity|apply Hh| |]; simpl.
  - intros k e0 Hin. apply elem_of_map_del in Hin. apply (ho_entries _ Hh k e0 Hin).
  - intros k c Hin. apply filter_elem in Hin. apply (ho_conns _ Hh k c Hin).
Qed.

Lemma removeConnection_ok h p cid : host_ok h -> host_ok (kernelServiceRemoveConnection h p cid).
Proof.
  intros Hh. unfold kernelServiceRemoveConnection. destruct (kernelServiceGetConnection h p cid); [|done].
  eapply (host_ok_shrink h); [done|symmetry; apply filter_true|apply map_del_filter, Hh|apply Hh| |]; simpl.
  - intros k e0 Hin. apply (ho_entries _ Hh k e0 Hin).
  - intros k c0 Hin. apply elem_of_map_del in Hin. apply (ho_conns _ Hh k c0 Hin).
Qed.

Lemma step_host_ok h op : host_ok h -> host_ok (step h op).
Proof.
  intros Hh. destruct op; simpl; try (destruct (sessionAlive h pid); [|done]).
  - destruct (provide h pid params) as [[h' sid]|] eqn:E; [|done]. by eapply provide_ok.
  - unfold unprovide. case_match; [|done]. destruct (string_param _ _ params); simpl; [|done].
    by apply removeService_ok.
  - destruct (connect h pid token params) as [[h' ms]|] eqn:E; [|done]. by eapply connect_ok.
  - unfold disconnect. case_match; [|done]. destruct (string_param _ _ params); simpl; [|done].
    by apply removeConnection_ok.
  - unfold map_has. destruct (map_get pid (frames h)) eqn:E; [done|].
    apply host_ok_frames; [done | apply map_set_ok, Hh|]. intros q cap _ Hc.
    rewrite (hasCapability_set h _ pid (MkFrame true caps)) by done. case_decide; [|done]. subst q.
    unfold hasCapability in Hc. by rewrite E in Hc.
  - destruct (map_get pid (frames h)) as [f|] eqn:E; [|done]. eapply frame_set_ok; [done|done|]. intros c0 Hc0.
    apply mem_elem. simpl. apply elem_of_app. left. by apply mem_elem.
  - by apply revoke_ok.
  - destruct (map_get pid (frames h)) as [f|] eqn:E; [|done]. by eapply frame_set_ok.
  - by apply removeFrame_ok.
Qed.

Lemma run_host_ok ops : host_ok (run ops).
Proof.
  unfold run. assert (H0 : host_ok empty_host).
  { split; simpl; try done; try apply NoDup_nil_2; intros ?? Hin; by apply not_elem_of_nil in Hin. }
  revert H0. generalize empty_host. induction ops as [|op ops IH]; intros h Hh; simpl; [done|].
  apply IH. by apply step_host_ok.
Qed.

(** ** Properties *)

(** After any sequence of requests, frame changes, grants
    and revocations: service ids are unique and are the provider's id, a dot and
    a valid name; a service has 1 to 64 distinct valid methods and a deadline of
    1 to 60 seconds; a plugin has at most 16 services and 64 connections and the
    host at most 256 connections; and every service (connection) belongs to a
    plugin that has a frame holding [services.provide] ([services.connect]): a
    revocation or the removal of a plugin takes effect at once. *)
Theorem services_bounded (ops : list Op) : host_ok (run ops).
Proof. apply run_host_ok. Qed.

Lemma invoke_call_spec h p v c :
  host_ok h -> invoke_call h p v = Ok c -> exists e cid conn,
  map_get (call_service c) (registry h) = Some e /\ entry_ok h (call_service c) e /\
  map_get cid (connections h) = Some conn /\ consumer conn = p /\ service conn = call_service c /\
  hasCapability h p "services.connect" = true /\ call_method c ∈ methods e /\
  sessionAlive h (provider e) = true /\ to_plugin c = provider e /\ caller c = p /\ deadline c = timeoutMs e /\
  assertPayload (call_params c) "params" = Ok tt.
Proof.
  intros Hh. unfold invoke_call. destruct (hasCapability h p "services.connect"); [|done].
  destruct v as [[]|]; try done. destruct (field "connectionId" l) as [[]|]; try done.
  destruct (negb (s =? "")%string); [|done]. destruct (field "method" l) as [[]|]; try done.
  destruct (valid_name s0); [|done].
  destruct (kernelServiceGetConnection h p s) as [conn|] eqn:Ec; [|done].
  unfold kernelServiceGetConnection in Ec. destruct (map_get s (connections h)) as [c0|] eqn:Eg; [|done].
  destruct (String.eqb_spec (consumer c0) p) as [Hp|]; [|done]. injection Ec as <-.
  unfold kernelServiceGet. destruct (map_get (service c0) (registry h)) as [e|] eqn:Er; [|done].
  destruct (mem s0 (methods e)) eqn:Em; [|done]. destruct (sessionAlive h (provider e)) eqn:Ea; [|done].
  destruct (assertPayload _ "params") as [[]|] eqn:Ep; simpl; [|done]. intros [= <-]. simpl.
  pose proof (ho_entries _ Hh _ _ (map_get_elem _ _ _ Er)) as He. destruct (eo_key _ _ _ He).
  exists e, s, c0. split_and!; try done. by apply mem_elem.
Qed.

(** C39: an invocation reaches a provider only when the caller
    holds [services.connect] and a connection of its own, the service is
    registered by a live provider that holds [services.provide], and the method
    is declared; the call names the true caller and has a deadline of at most a
    minute.  A value is returned only when the provider returned it and its JSON
    has at most 256 KiB; an aborted request gives [OPERATION_ABORTED] unless a
    value came back; every other failure of the provider is one of the three
    service errors. *)
Theorem invoke_authorized (ops : list Op) (p : string) (v : option Value) (c : Call)
    (reply : outcome Failure (option Value)) (aborted : bool) :
  let h := run ops in
  invoke_call h p v = Ok c ->
  (hasCapability h p "services.connect" = true /\
   hasCapability h (to_plugin c) "services.provide" = true /\ sessionAlive h (to_plugin c) = true /\
   caller c = p /\ 1000 <= deadline c <= 60000 /\
   (exists cid conn, map_get cid (connections h) = Some conn /\ consumer conn = p /\ service conn = call_service c) /\
   exists e, map_get (call_service c) (registry h) = Some e /\ provider e = to_plugin c /\ call_method c ∈ methods e) /\
  match invoke_result c reply aborted with
  | Ok r => reply = Ok r /\ (forall x, r = Some x -> exists n, json_length x = Some n /\ n <= 262144)
  | Throw (KErr code _) =>
      if aborted then code = OPERATION_ABORTED
      else code = SERVICE_TIMEOUT \/ code = SERVICE_UNAVAILABLE \/ exists k, code = SERVICE_ERROR k
  end.
Proof.
  intros h Hc. pose proof (run_host_ok ops) as Hh. fold h in Hh.
  destruct (invoke_call_spec _ _ _ _ Hh Hc) as (e & cid & conn & Hg & He & Hconn & H1 & H2 & H3 & H4 & H5 & H6 & H7 & H8 & _).
  pose proof (eo_cap _ _ _ He) as Hcap. pose proof (eo_timeout _ _ _ He) as Ht.
  assert (Htr : forall f, if aborted then err_code (translate aborted c f) = OPERATION_ABORTED
    else err_code (translate aborted c f) = SERVICE_TIMEOUT \/ err_code (translate aborted c f) = SERVICE_UNAVAILABLE
      \/ exists k, err_code (translate aborted c f) = SERVICE_ERROR k).
  { intros f. unfold translate. destruct aborted; [done|]. destruct f as [[k d]| |]; [destruct k|..]; simpl; eauto. }
  split.
  - rewrite H6, H8. split_and!; try done; try (unfold MAX_SERVICE_TIMEOUT_MS in Ht; lia); [eauto | eauto].
  - unfold invoke_result. destruct reply as [r|f].
    + destruct (assertPayload r "result") as [u|er] eqn:Ep.
      * split; [done|]. intros x ->. simpl in Ep. destruct (json_length x) as [n|]; [|done].
        destruct (MAX_PAYLOAD_BYTES <? n) eqn:En; [done|]. bools. exists n. split; [done|]. unfold MAX_PAYLOAD_BYTES in En. lia.
      * specialize (Htr (FKernel er)). by destruct (translate aborted c (FKernel er)).
    + specialize (Htr f). by destruct (translate aborted c f).
Qed.

Lemma filter_keeps_get {V} (f : string * V -> bool) k v (m : list (string * V)) :
  map_ok m -> map_get k m = Some v -> f (k, v) = true -> map_get k (List.filter f m) = Some v.
Proof.
  intros Hm Hg Hf. apply elem_map_get; [by apply map_ok_filter|]. apply elem_of_filter_bool. split; [|done].
  by apply map_get_elem.
Qed.

Lemma filter_drops_get {V} (f : string * V -> bool) k (m : list (string * V)) :
  (forall v, (k, v) ∈ m -> f (k, v) = false) -> map_get k (List.filter f m) = None.
Proof.
  intros Hf. destruct (map_get k (List.filter f m)) as [v|] eqn:E; [|done].
  apply map_get_elem, elem_of_filter_bool in E as [Hin Ht]. by rewrite (Hf v Hin) in Ht.
Qed.

(** Two plugins whose ids differ by a suffix, and a reader. *)
Definition service_params (nm : string) : option Value :=
  Some (VObj [("name", VStr nm); ("methods", VArr [VStr "read"])])%string.

Definition takeover : list Op := [
  CreateFrame "org.notes" ["services.provide"]; CreateFrame "org.notes.api" ["services.provide"];
  CreateFrame "com.reader" ["services.connect"];
  Provide "org.notes" (service_params "api.v1");
  Connect "com.reader" "conn-1" (Some (VObj [("serviceId", VStr "org.notes.api.v1")]));
  RemoveFrame "org.notes";
  Provide "org.notes.api" (service_params "v1")]%string.

Definition read_params : option Value := Some (VObj [("connectionId", VStr "conn-1"); ("method", VStr "read")])%string.

(** Removing a plugin deletes its services but no connection of
    another plugin to them: the connections stay in the table and in the quotas
    of their consumers, and because an id with dots can be claimed by another
    plugin, a connection made to one plugin can come to reach another. *)
Theorem stale_connections :
  (forall ops p cid conn e, let h := run ops in
     map_has p (frames h) = true -> map_get cid (connections h) = Some conn -> consumer conn <> p ->
     map_get (service conn) (registry h) = Some e -> provider e = p ->
     let h' := step h (RemoveFrame p) in
     map_get (service conn) (registry h') = None /\ map_get cid (connections h') = Some conn /\
     kernelServiceConnectionCount h' (consumer conn) = kernelServiceConnectionCount h (consumer conn)) /\
  exists c, invoke_call (run takeover) "com.reader" read_params = Ok c /\ to_plugin c = "org.notes.api"%string.
Proof.
  split; [|eexists; split; [vm_compute; reflexivity | reflexivity]].
  intros ops p cid conn e h Hf Hc Hne Hs Hp h'. pose proof (run_host_ok ops) as Hh. fold h in Hh.
  assert (Hreg : registry h' = List.filter (fun e => negb (provider e.2 =? p)%string) (registry h)).
  { unfold h'. simpl. unfold removeFrame. by rewrite Hf. }
  assert (Hgone : forall s, match map_get s (registry h') with Some e => (provider e =? p)%string | None => false end = false).
  { intros s. rewrite Hreg. destruct (map_get s _) as [e0|] eqn:E; [|done].
    apply map_get_elem, elem_of_filter_bool in E as [_ Hn]. by apply negb_true_iff in Hn. }
  assert (Hcon : connections h' = List.filter (fun c => negb (consumer c.2 =? p)%string) (connections h)).
  { unfold h'. simpl. unfold removeFrame. rewrite Hf. simpl. f_equal. apply filter_all. intros c _.
    apply negb_true_iff. pose proof (Hgone (service c.2)) as Hg. by rewrite Hreg in Hg. }
  apply String.eqb_neq in Hne. split_and!.
  - rewrite Hreg. apply filter_drops_get. intros e0 Hin. apply (elem_map_get _ _ _ (ho_registry _ Hh)) in Hin.
    simplify_eq. simpl. by rewrite String.eqb_refl.
  - rewrite Hcon. apply filter_keeps_get; [apply Hh | done|]. simpl. by rewrite Hne.
  - unfold kernelServiceConnectionCount. rewrite Hcon, filter_filter. do 2 f_equal. apply filter_ext.
    intros [k c]. simpl. destruct (String.eqb_spec (consumer c) (consumer conn)) as [->|]; [by rewrite Hne | by rewrite andb_false_r].
Qed.

(** ** The theorems at concrete inputs *)

Lemma invoke_authorized_witness :
  exists c, invoke_call (run (take 5 takeover)) "com.reader" read_params = Ok c /\
    to_plugin c = "org.notes"%string /\ sessionAlive (run (take 5 takeover)) (to_plugin c) = true /\
    invoke_result c (Ok (Some (VStr "text"))) false = Ok (Some (VStr "text")).
Proof.
  eexists. split; [vm_compute; reflexivity|]. split; [reflexivity|].
  split; [|reflexivity].
  exact (proj1 (proj2 (proj2 (proj1 (invoke_authorized (take 5 takeover) "com.reader" read_params _
    (Ok None) false eq_refl))))).
Defined.

Lemma stale_connections_witness :
  map_get "conn-1" (connections (step (run (take 5 takeover)) (RemoveFrame "org.notes"))) =
    Some (Conn "conn-1" "com.reader" "org.notes.api.v1").
Proof.
  exact (proj1 (proj2 (proj1 stale_connections (take 5 takeover) "org.notes"%string "conn-1"%string
    (Conn "conn-1" "com.reader" "org.notes.api.v1") _ eq_refl eq_refl ltac:(discriminate) eq_refl eq_refl))).
Defined.

(** The length of a JSON text: an object with an escape, a list and a number. *)
Example json_example :
  json_length (VObj [("a", VStr "x"); ("b", VArr [VNum (-12); VNull; VBool false])])%string = Some 30.
Proof. reflexivity. Qed.

End Services.
