(* ===== verification/Events.v ===== *)
(** * Events of the app delivered to plugins
    (apps/web/src/plugins/kernel/events.ts and the replay buffer of
    apps/web/src/plugins/runtime.ts)

    The runtime retains the app's events in bounded buffers and calls the
    listeners of an event; a session of a plugin has a subscription per event
    with a window of unacknowledged deliveries.  The sets of listeners live in a
    store of their own, because an unsubscribe function keeps the set it was made
    for.  One call of the runtime or of a handler is one step. *)

From Stdlib Require Import ZArith Lia Bool Ascii String List Sorted.
From stdpp Require Import base decidable strings list.
From S2P Require Import Prelude.
Local Open Scope Z_scope.
Local Open Scope js_scope.

Module Events.

(** ** State *)

Record AppEventRecord := MkRecord { seq : Z; ts : Z; payload : string }.

Record Subscription := MkSub {
  lastDeliveredSeq : Z;
  pending : list Z;
  maxInFlight : Z;
  paused : bool
}.

(** The function that [onAppEvent] returns: the event, the set of listeners it
    was added to, and the listener. *)
Record Unsubscribe := MkUnsub { u_event : string; u_set : nat; u_listener : nat }.

Record Session := MkSession {
  can_read : bool;
  disposed : bool;
  relays : list (string * Unsubscribe);
  subscriptions : list (string * Subscription);
  tracked : list Unsubscribe
}.

Record Runtime := MkRuntime {
  history : list (string * list AppEventRecord);
  seqs : list (string * Z);
  order : list (string * Z);
  listeners : list (string * nat);
  sets : list (nat * list (nat * string));
  sessions : list (string * Session);
  fresh : nat
}.

Record Emit := MkEmit { to_session : string; e_event : string; e_payload : string; e_seq : Z; e_cursor : string }.

Definition APP_EVENT_HISTORY_PER_EVENT : Z := 128.
Definition APP_EVENT_HISTORY_TOTAL : Z := 4096.
Definition APP_EVENT_HISTORY_TTL_MS : Z := 60000.
Definition MAX_EVENT_NAME_LENGTH : Z := 200.
Definition DEFAULT_MAX_IN_FLIGHT : Z := 64.
Definition MAX_IN_FLIGHT_LIMIT : Z := 256.
Definition MAX_SAFE : Z := 9007199254740991.

Definition BROWSER_APP_EVENTS : list string := [
  "chat.created"; "chat.opened"; "chat.message.created"; "chat.message.updated"; "chat.message.deleted";
  "character.selected"; "generation.started"; "generation.delta"; "generation.finished"; "generation.error"]%string.

Definition ALLOWED_EVENTS : list string := BROWSER_APP_EVENTS ++ [
  "plugin.capability.revoked"; "plugin.job.due"; "plugin.chat.updated"; "plugin.chat.message";
  "plugin.auth.connected"; "plugin.auth.revoked"; "plugin.auth.expired"; "chat.message.block.changed"]%string.

Definition CHAT_CONTENT_EVENTS : list string := [
  "generation.started"; "generation.delta"; "generation.finished"; "generation.error";
  "chat.message.created"; "chat.message.updated"; "chat.message.deleted"]%string.

Definition zmem (x : Z) (l : list Z) : bool := existsb (Z.eqb x) l.

(** ** Cursors *)

Definition cursorOf (event : string) (n : Z) : string := (event ++ ":" ++ str (dec n))%string.

Definition parseCursor (event : string) (cursor : Value) : option Z :=
  match cursor with
  | VStr s =>
      let prefix := chars (event ++ ":") in
      if negb (starts_with prefix (chars s)) then None
      else
        let seqText := drop (length prefix) (chars s) in
        if negb (forallb is_digit seqText) || (length seqText =? 0)%nat then None
        else if digits_val seqText <=? MAX_SAFE then Some (digits_val seqText) else None
  | _ => None
  end.

(** ** The replay buffer *)

(** Drop records from the front, as long as there are too many or the first is
    too old. *)
Fixpoint trim_records (cutoff : Z) (l : list AppEventRecord) : list AppEventRecord :=
  match l with
  | [] => []
  | r :: rest =>
      if (APP_EVENT_HISTORY_PER_EVENT <? Z.of_nat (length l)) || (ts r <? cutoff)
      then trim_records cutoff rest else l
  end.

(** [bucket[0]?.seq === oldest.seq && bucket.shift()] *)
Definition shift_oldest (h : list (string * list AppEventRecord)) (o : string * Z)
    : list (string * list AppEventRecord) :=
  match map_get o.1 h with
  | Some (r :: rest) => if seq r =? o.2 then map_set o.1 rest h else h
  | _ => h
  end.

Fixpoint evict (h : list (string * list AppEventRecord)) (ord : list (string * Z))
    : list (string * list AppEventRecord) * list (string * Z) :=
  match ord with
  | o :: rest =>
      if APP_EVENT_HISTORY_TOTAL <? Z.of_nat (length ord) then evict (shift_oldest h o) rest else (h, ord)
  | [] => (h, [])
  end.

(** [recordAppEvent]: the array of a known event is in the map while the oldest
    records are evicted, the array of a new event is not. *)
Definition recordAppEvent (now : Z) (event pl : string) (rt : Runtime) : Runtime :=
  let n := default 0 (map_get event (seqs rt)) + 1 in
  let records := trim_records (now - APP_EVENT_HISTORY_TTL_MS)
    (default [] (map_get event (history rt)) ++ [MkRecord n now pl]) in
  let known := map_has event (history rt) in
  let h0 := if known then map_set event records (history rt) else history rt in
  let '(h1, ord) := evict h0 (order rt ++ [(event, n)]) in
  let records' := if known then default [] (map_get event h1) else records in
  MkRuntime (map_set event records' h1) (map_set event n (seqs rt)) ord
            (listeners rt) (sets rt) (sessions rt) (fresh rt).

Record HistoryWindow := MkWindow {
  w_records : list AppEventRecord;
  w_lowest : option Z;
  w_head : option Z
}.

Definition kernelAppEventHistoryAfter (rt : Runtime) (event : string) (afterSeq : Z) : HistoryWindow :=
  let records := default [] (map_get event (history rt)) in
  MkWindow (List.filter (fun r => afterSeq <? seq r) records)
           (seq <$> head records) (seq <$> last records).

(** ** Delivery *)

Fixpoint deliver_loop (event : string) (sid : string) (sub : Subscription) (l : list AppEventRecord)
    : Subscription * list Emit :=
  match l with
  | [] => (sub, [])
  | r :: rest =>
      if maxInFlight sub <=? Z.of_nat (length (pending sub))
      then (MkSub (lastDeliveredSeq sub) (pending sub) (maxInFlight sub) true, [])
      else if zmem (seq r) (pending sub) then deliver_loop event sid sub rest
      else
        let '(sub', es) := deliver_loop event sid
          (MkSub (seq r) (pending sub ++ [seq r]) (maxInFlight sub) (paused sub)) rest in
        (sub', MkEmit sid event (payload r) (seq r) (cursorOf event (seq r)) :: es)
  end.

Definition deliver (rt : Runtime) (event sid : string) (sub : Subscription) : Subscription * list Emit :=
  if paused sub then (sub, [])
  else deliver_loop event sid sub (w_records (kernelAppEventHistoryAfter rt event (lastDeliveredSeq sub))).

Definition with_sessions (rt : Runtime) (m : list (string * Session)) : Runtime :=
  MkRuntime (history rt) (seqs rt) (order rt) (listeners rt) (sets rt) m (fresh rt).

Definition with_subs (s : Session) (m : list (string * Subscription)) : Session :=
  MkSession (can_read s) (disposed s) (relays s) m (tracked s).

(** [deliver(sub)] on the subscription of a session: the emits of a disposed
    session are dropped by its transport. *)
Definition deliver_to (rt : Runtime) (event sid : string) : Runtime * list Emit :=
  match map_get sid (sessions rt) with
  | None => (rt, [])
  | Some s =>
      match map_get event (subscriptions s) with
      | None => (rt, [])
      | Some sub =>
          let '(sub', es) := deliver rt event sid sub in
          (with_sessions rt (map_set sid (with_subs s (map_set event sub' (subscriptions s))) (sessions rt)),
           if disposed s then [] else es)
      end
  end.

(** The listener of a relay. *)
Definition on_event (rt : Runtime) (event sid : string) : Runtime * list Emit :=
  match map_get sid (sessions rt) with
  | None => (rt, [])
  | Some s => if mem event CHAT_CONTENT_EVENTS && negb (can_read s) then (rt, []) else deliver_to rt event sid
  end.

Fixpoint notify (rt : Runtime) (event : string) (ls : list (nat * string)) : Runtime * list Emit :=
  match ls with
  | [] => (rt, [])
  | (_, sid) :: rest =>
      let '(rt1, e1) := on_event rt event sid in
      let '(rt2, e2) := notify rt1 event rest in
      (rt2, e1 ++ e2)
  end.

(** [dispatchAppEvent] *)
Definition dispatchAppEvent (now : Z) (event pl : string) (rt : Runtime) : Runtime * list Emit :=
  let rt1 := recordAppEvent now event pl rt in
  match map_get event (listeners rt1) with
  | None => (rt1, [])
  | Some k => notify rt1 event (default [] (map_get k (sets rt1)))
  end.

(** ** Listeners *)

(** [onAppEvent]: the set of the event, or a new one. *)
Definition onAppEvent (rt : Runtime) (event sid : string) : Runtime * Unsubscribe :=
  let '(k, n) := match map_get event (listeners rt) with
                 | Some k => (k, fresh rt)
                 | None => (fresh rt, S (fresh rt))
                 end in
  let members := default [] (map_get k (sets rt)) in
  (MkRuntime (history rt) (seqs rt) (order rt) (map_set event k (listeners rt))
             (map_set k (members ++ [(n, sid)]) (sets rt)) (sessions rt) (S n),
   MkUnsub event k n).

(** The unsubscribe function: it looks at its own set, and when that is empty it
    deletes the entry of the event, whatever set that names by now. *)
Definition unsubscribe_fn (rt : Runtime) (u : Unsubscribe) : Runtime :=
  let members := List.filter (fun l => negb (l.1 =? u_listener u)%nat) (default [] (map_get (u_set u) (sets rt))) in
  MkRuntime (history rt) (seqs rt) (order rt)
    (match members with [] => map_del (u_event u) (listeners rt) | _ => listeners rt end)
    (map_set (u_set u) members (sets rt)) (sessions rt) (fresh rt).

(** ** The handlers *)

Inductive EventError :=
| InvalidEventName
| EventNotAllowed
| CapabilityDenied
| InvalidMaxInFlight
| InvalidCursor
| FutureCursor
| CursorExpired (retainedFrom : Z).

Definition fields_of (params : option Value) : list (string * Value) :=
  match params with Some (VObj o) => o | _ => [] end.

Definition max_in_flight (o : list (string * Value)) : outcome EventError Z :=
  match field "maxInFlight" o with
  | None => Ok DEFAULT_MAX_IN_FLIGHT
  | Some (VNum n) => if n <? 1 then Throw InvalidMaxInFlight else Ok (Z.min n MAX_IN_FLIGHT_LIMIT)
  | Some _ => Throw InvalidMaxInFlight
  end.

Definition relay (rt : Runtime) (event sid : string) (s : Session) : Runtime * Session :=
  let '(rt1, u) := onAppEvent rt event sid in
  (rt1, MkSession (can_read s) (disposed s) (map_set event u (relays s)) (subscriptions s) (tracked s ++ [u])).

(** The subscription that [events.subscribe] installs. *)
Definition install (rt : Runtime) (event : string) (cursor : option Value) (mif : Z)
    (existing : option Subscription) : outcome EventError Subscription :=
  match cursor with
  | Some c =>
      match parseCursor event c with
      | None => Throw InvalidCursor
      | Some n =>
          let w := kernelAppEventHistoryAfter rt event n in
          guard? match w_head w with Some hd => n <=? hd | None => true end else FutureCursor then
          guard? match w_lowest w with Some lo => lo - 1 <=? n | None => true end
            else CursorExpired (default 0 (w_lowest w)) then
          Ok (MkSub n [] mif false)
      end
  | None =>
      match existing with
      | Some sub => Ok sub
      | None => Ok (MkSub (default 0 (w_head (kernelAppEventHistoryAfter rt event 0))) [] mif false)
      end
  end.

Definition subscribe (rt : Runtime) (sid : string) (s : Session) (params : option Value)
    : outcome EventError (Runtime * list Emit) :=
  let o := fields_of params in
  match field "event" o with
  | Some (VStr event) =>
      guard? negb ((strlen event =? 0) || (MAX_EVENT_NAME_LENGTH <? strlen event)) else InvalidEventName then
      guard? mem event ALLOWED_EVENTS else EventNotAllowed then
      guard? negb (mem event CHAT_CONTENT_EVENTS && negb (can_read s)) else CapabilityDenied then
      let? mif := max_in_flight o in
      let? sub := install rt event (field "cursor" o) mif (map_get event (subscriptions s)) in
      let s1 := with_subs s (map_set event sub (subscriptions s)) in
      let '(rt2, s2) := if map_has event (relays s1) then (rt, s1) else relay rt event sid s1 in
      Ok (deliver_to (with_sessions rt2 (map_set sid s2 (sessions rt2))) event sid)
  | _ => Throw InvalidEventName
  end.

(** [Set.delete] *)
Definition remove_seq (n : Z) (l : list Z) : list Z := List.filter (fun m => negb (m =? n)) l.

Definition ack (rt : Runtime) (sid : string) (s : Session) (params : option Value) : Runtime * list Emit :=
  let o := fields_of params in
  match field "event" o, field "sequence" o with
  | Some (VStr event), Some (VNum n) =>
      match map_get event (subscriptions s) with
      | None => (rt, [])
      | Some sub =>
          if negb (zmem n (pending sub)) then (rt, [])
          else
            let left := remove_seq n (pending sub) in
            let resume := paused sub && (Z.of_nat (length left) <? maxInFlight sub) in
            let sub' := MkSub (lastDeliveredSeq sub) left (maxInFlight sub) (paused sub && negb resume) in
            let rt1 := with_sessions rt (map_set sid (with_subs s (map_set event sub' (subscriptions s))) (sessions rt)) in
            if resume then deliver_to rt1 event sid else (rt1, [])
      end
  | _, _ => (rt, [])
  end.

(** [events.unsubscribe]: the unsubscribe function stays tracked by the scope. *)
Definition unsubscribe (rt : Runtime) (sid : string) (s : Session) (params : option Value) : Runtime :=
  match field "event" (fields_of params) with
  | Some (VStr event) =>
      let s1 := with_subs s (map_del event (subscriptions s)) in
      match map_get event (relays s) with
      | None => with_sessions rt (map_set sid s1 (sessions rt))
      | Some u =>
          let rt1 := unsubscribe_fn rt u in
          with_sessions rt1 (map_set sid (MkSession (can_read s1) (disposed s1) (map_del event (relays s1))
            (subscriptions s1) (tracked s1)) (sessions rt1))
      end
  | _ => rt
  end.

(** [session.dispose()]: the scope disposes what it tracks in reverse order. *)
Definition dispose (rt : Runtime) (sid : string) (s : Session) : Runtime :=
  let rt1 := fold_left unsubscribe_fn (rev (tracked s)) rt in
  with_sessions rt1 (map_set sid (MkSession (can_read s) true (relays s) (subscriptions s) []) (sessions rt1)).

(** ** Steps *)

Inductive Op :=
| Dispatch (now : Z) (event pl : string)
| OpenSession (sid : string) (can : bool)
| SetCapability (sid : string) (can : bool)
| Subscribe (sid : string) (params : option Value)
| Ack (sid : string) (params : option Value)
| Unsub (sid : string) (params : option Value)
| Dispose (sid : string).

(** A handler runs for a session that is not disposed. *)
Definition live (rt : Runtime) (sid : string) : option Session :=
  match map_get sid (sessions rt) with
  | Some s => if disposed s then None else Some s
  | None => None
  end.

Definition step (rt : Runtime) (op : Op) : Runtime * list Emit :=
  match op with
  | Dispatch now event pl => dispatchAppEvent now event pl rt
  | OpenSession sid can =>
      if map_has sid (sessions rt) then (rt, [])
      else (with_sessions rt (map_set sid (MkSession can false [] [] []) (sessions rt)), [])
  | SetCapability sid can =>
      match live rt sid with
      | Some s => (with_sessions rt (map_set sid
          (MkSession can (disposed s) (relays s) (subscriptions s) (tracked s)) (sessions rt)), [])
      | None => (rt, [])
      end
  | Subscribe sid params =>
      match live rt sid with
      | Some s => match subscribe rt sid s params with Ok r => r | Throw _ => (rt, []) end
      | None => (rt, [])
      end
  | Ack sid params => match live rt sid with Some s => ack rt sid s params | None => (rt, []) end
  | Unsub sid params => match live rt sid with Some s => (unsubscribe rt sid s params, []) | None => (rt, []) end
  | Dispose sid => match live rt sid with Some s => (dispose rt sid s, []) | None => (rt, []) end
  end.

Fixpoint run (rt : Runtime) (ops : list Op) : Runtime * list Emit :=
  match ops with
  | [] => (rt, [])
  | op :: r =>
      let '(rt1, e1) := step rt op in
      let '(rt2, e2) := run rt1 r in
      (rt2, e1 ++ e2)
  end.

Definition start : Runtime := MkRuntime [] [] [] [] [] [] 0.

(** ** The buffer *)

(** Records in sequence, the last one with the number [c]. *)
Definition consecutive (c : Z) (l : list AppEventRecord) : Prop :=
  forall i r, l !! i = Some r -> seq r = c - Z.of_nat (length l) + 1 + Z.of_nat i.

Definition counter (rt : Runtime) (event : string) : Z := default 0 (map_get event (seqs rt)).
Definition retained (rt : Runtime) (event : string) : list AppEventRecord := default [] (map_get event (history rt)).

Record buffer_ok (rt : Runtime) : Prop := {
  bo_consecutive : forall event, consecutive (counter rt event) (retained rt event);
  bo_length : forall event, Z.of_nat (length (retained rt event)) <= APP_EVENT_HISTORY_PER_EVENT;
  bo_counter : forall event, Z.of_nat (length (retained rt event)) <= counter rt event;
  bo_order : Z.of_nat (length (order rt)) <= APP_EVENT_HISTORY_TOTAL
}.

Definition same_buffer (rt rt' : Runtime) : Prop :=
  history rt' = history rt /\ seqs rt' = seqs rt /\ order rt' = order rt.

Lemma same_buffer_ok rt rt' : same_buffer rt rt' -> buffer_ok rt -> buffer_ok rt'.
Proof.
  intros (Hh & Hs & Ho) [H1 H2 H3 H4]. unfold counter, retained in *.
  split; unfold counter, retained; rewrite ?Hh, ?Hs, ?Ho; done.
Qed.

Lemma same_buffer_trans a b c : same_buffer a b -> same_buffer b c -> same_buffer a c.
Proof. intros (?&?&?) (?&?&?). unfold same_buffer. split_and!; congruence. Qed.

Lemma consecutive_drop c l n : consecutive c l -> consecutive c (drop n l).
Proof.
  intros Hc i r Hi. rewrite lookup_drop in Hi. pose proof (lookup_lt_Some _ _ _ Hi) as Hlt.
  rewrite (Hc _ _ Hi), length_drop. lia.
Qed.

Lemma consecutive_snoc c l t pl : consecutive c l -> consecutive (c + 1) (l ++ [MkRecord (c + 1) t pl]).
Proof.
  intros Hc i r. rewrite length_app. simpl. intros [Hi|[Hge Hi]]%lookup_app_Some.
  - rewrite (Hc _ _ Hi). lia.
  - pose proof (lookup_lt_Some _ _ _ Hi) as Hlt. simpl in Hlt.
    assert (i - length l = 0)%nat by lia. replace (i - length l)%nat with 0%nat in Hi by lia.
    injection Hi as <-. simpl. lia.
Qed.

Lemma trim_records_drop cutoff l : exists n,
  trim_records cutoff l = drop n l /\ Z.of_nat (length (trim_records cutoff l)) <= APP_EVENT_HISTORY_PER_EVENT.
Proof.
  induction l as [|r l (n & IH & Hl)]; [exists 0%nat; split; [done | simpl; unfold APP_EVENT_HISTORY_PER_EVENT; lia]|].
  cbn [trim_records]. destruct (_ || _) eqn:E; [by exists (S n)|]. exists 0%nat. bools. split; [done | lia].
Qed.

Lemma shift_oldest_drop h o event : exists n,
  default [] (map_get event (shift_oldest h o)) = drop n (default [] (map_get event h)).
Proof.
  unfold shift_oldest. destruct (map_get o.1 h) as [[|r rest]|] eqn:E; [by exists 0%nat| |by exists 0%nat].
  case_match; [|by exists 0%nat]. rewrite map_get_set. case_decide as Ed; [|by exists 0%nat].
  subst event. rewrite E. by exists 1%nat.
Qed.

Lemma evict_drop ord h h' ord' event :
  evict h ord = (h', ord') -> exists n,
  default [] (map_get event h') = drop n (default [] (map_get event h)) /\
  Z.of_nat (length ord') <= APP_EVENT_HISTORY_TOTAL.
Proof.
  revert h. induction ord as [|o ord IH]; intros h; cbn [evict].
  - intros [= <- <-]. exists 0%nat. split; [done | simpl; unfold APP_EVENT_HISTORY_TOTAL; lia].
  - destruct (_ <? _) eqn:E.
    + intros He. destruct (IH _ He) as (n & Hn & Hl). destruct (shift_oldest_drop h o event) as [m Hm].
      exists (m + n)%nat. split; [|done]. by rewrite Hn, Hm, drop_drop.
    + intros [= <- <-]. exists 0%nat. bools. by split.
Qed.

(** What recording an event does to each buffer and counter. *)
Lemma recordAppEvent_spec now event pl rt :
  let rt' := recordAppEvent now event pl rt in
  (forall e, counter rt' e = if decide (event = e) then counter rt e + 1 else counter rt e) /\
  (forall e, exists n, retained rt' e =
     drop n (if decide (event = e)
             then trim_records (now - APP_EVENT_HISTORY_TTL_MS)
                    (retained rt e ++ [MkRecord (counter rt e + 1) now pl])
             else retained rt e)) /\
  Z.of_nat (length (order rt')) <= APP_EVENT_HISTORY_TOTAL /\
  listeners rt' = listeners rt /\ sets rt' = sets rt /\ sessions rt' = sessions rt.
Proof.
  unfold recordAppEvent. fold (counter rt event) (retained rt event).
  set (records := trim_records _ _). set (h0 := if map_has event (history rt) then _ else _).
  destruct (evict h0 (order rt ++ [(event, counter rt event + 1)])) as [h1 ord] eqn:E. simpl. split_and!; try done.
  - intros e. unfold counter. simpl. rewrite map_get_set. case_decide; [by subst | done].
  - intros e. destruct (evict_drop _ _ _ _ e E) as (n & Hn & _).
    unfold retained at 1. simpl. rewrite map_get_set. case_decide as Ed.
    + subst e. simpl. subst h0. unfold map_has in *. destruct (map_get event (history rt)) as [l|] eqn:Eg.
      * exists n. rewrite Hn, map_get_set, decide_True by done. simpl. subst records. done.
      * exists 0%nat. subst records. done.
    + exists n. rewrite Hn. subst h0. unfold map_has. destruct (map_get event (history rt)) as [l|] eqn:Eg; [|done].
      by rewrite map_get_set, decide_False.
  - by destruct (evict_drop _ _ _ _ event E) as (_ & _ & ?).
Qed.

Lemma recordAppEvent_ok now event pl rt : buffer_ok rt -> buffer_ok (recordAppEvent now event pl rt).
Proof.
  intros [H1 H2 H3 H4]. destruct (recordAppEvent_spec now event pl rt) as (Hc & Hr & Ho & _).
  set (rt' := recordAppEvent now event pl rt) in *.
  assert (Hcase : forall e, exists n l, retained rt' e = drop n l /\ consecutive (counter rt' e) l /\
    Z.of_nat (length l) <= APP_EVENT_HISTORY_PER_EVENT /\ Z.of_nat (length l) <= counter rt' e).
  { intros e. rewrite Hc. destruct (Hr e) as [n ->]. case_decide as E; [|by exists n, (retained rt e)].
    subst e. destruct (trim_records_drop (now - APP_EVENT_HISTORY_TTL_MS)
      (retained rt event ++ [MkRecord (counter rt event + 1) now pl])) as (m & Hm & Hl).
    eexists n, _. split; [done|]. split; [|split; [done|]].
    - rewrite Hm. by apply consecutive_drop, consecutive_snoc.
    - rewrite Hm, length_drop, length_app. simpl. specialize (H3 event). lia. }
  split; [| | |done]; intros e; destruct (Hcase e) as (n & l & -> & Hl & Hl1 & Hl2);
    [by apply consecutive_drop | rewrite length_drop; lia | rewrite length_drop; lia].
Qed.

(** ** Deliveries *)

(** Records numbered from [a] on. *)
Definition from (a : Z) (l : list AppEventRecord) : Prop :=
  forall i r, l !! i = Some r -> seq r = a + Z.of_nat i.

Lemma from_cons a r l : from a (r :: l) <-> seq r = a /\ from (a + 1) l.
Proof.
  split.
  - intros H. split; [rewrite (H 0%nat r eq_refl); lia|]. intros i x Hi. rewrite (H (S i) x Hi). lia.
  - intros [Hr H] [|i] x Hi; [injection Hi as <-; lia | rewrite (H i x Hi); lia].
Qed.

Lemma from_consecutive c l : consecutive c l <-> from (c - Z.of_nat (length l) + 1) l.
Proof. done. Qed.

Lemma from_drop a l n : from a l -> from (a + Z.of_nat n) (drop n l).
Proof. intros H i r Hi. rewrite lookup_drop in Hi. rewrite (H _ _ Hi). lia. Qed.

Lemma from_take a l n : from a l -> from a (take n l).
Proof. intros H i r Hi. apply lookup_take_Some in Hi as [Hi _]. by apply H. Qed.

Lemma filter_from a l n :
  from a l -> List.filter (fun r => n <? seq r) l = drop (Z.to_nat (n + 1 - a)) l.
Proof.
  revert a. induction l as [|r l IH]; intros a Hf; simpl; [by rewrite drop_nil|].
  apply from_cons in Hf as [Hr Hf]. rewrite (IH (a + 1)) by done. destruct (Z.ltb_spec n (seq r)) as [Hlt|Hge].
  - replace (Z.to_nat (n + 1 - a)) with 0%nat by lia. by replace (Z.to_nat (n + 1 - (a + 1))) with 0%nat by lia.
  - by replace (Z.to_nat (n + 1 - a)) with (S (Z.to_nat (n + 1 - (a + 1)))) by lia.
Qed.

Definition emit_of (event sid : string) (r : AppEventRecord) : Emit :=
  MkEmit sid event (payload r) (seq r) (cursorOf event (seq r)).

Record sub_ok (sub : Subscription) : Prop := {
  so_nodup : NoDup (pending sub);
  so_window : Z.of_nat (length (pending sub)) <= maxInFlight sub;
  so_max : 1 <= maxInFlight sub <= MAX_IN_FLIGHT_LIMIT;
  so_pending : forall n, n ∈ pending sub -> n <= lastDeliveredSeq sub;
  so_paused : paused sub = true -> Z.of_nat (length (pending sub)) = maxInFlight sub
}.

Lemma zmem_elem x l : zmem x l = true <-> x ∈ l.
Proof.
  unfold zmem. rewrite existsb_exists. split.
  - intros (y & Hy & ->%Z.eqb_eq). by apply elem_of_In.
  - intros Hx. exists x. split; [by apply elem_of_In | by apply Z.eqb_eq].
Qed.

(** The free part of the window is filled with the next records, in order. *)
Lemma deliver_loop_spec event sid a l sub :
  from a l -> (forall n, n ∈ pending sub -> n < a) ->
  let k := Z.to_nat (maxInFlight sub - Z.of_nat (length (pending sub))) in
  deliver_loop event sid sub l =
    (MkSub (match take k l with [] => lastDeliveredSeq sub | _ => a + Z.of_nat (length (take k l)) - 1 end)
           (pending sub ++ map seq (take k l)) (maxInFlight sub) (paused sub || (k <? length l)%nat),
     map (emit_of event sid) (take k l)).
Proof.
  revert a sub. induction l as [|r l IH]; intros a sub Hf Hp k; cbn [deliver_loop].
  - rewrite take_nil. simpl. rewrite app_nil_r, orb_false_r. by destruct sub.
  - apply from_cons in Hf as [Hr Hf]. destruct (Z.leb_spec (maxInFlight sub) (Z.of_nat (length (pending sub)))) as [Hle|Hlt].
    + assert (Hk : k = 0%nat) by lia. rewrite Hk. simpl. by rewrite app_nil_r, orb_true_r.
    + destruct (zmem (seq r) (pending sub)) eqn:Em.
      { apply zmem_elem in Em. specialize (Hp _ Em). lia. }
      set (sub1 := MkSub _ _ _ _). rewrite (IH (a + 1) sub1); [|done|].
      * subst sub1. cbn [maxInFlight pending lastDeliveredSeq paused]. rewrite length_app.
        cbn [length]. assert (Hk : k = S (Z.to_nat (maxInFlight sub - Z.of_nat (length (pending sub) + 1)))) by lia.
        rewrite Hk. generalize (Z.to_nat (maxInFlight sub - Z.of_nat (length (pending sub) + 1))). intros j.
        cbn [take map length]. apply f_equal2; [|done]. rewrite <- app_assoc. f_equal.
        -- rewrite Hr. destruct (take j l) as [|x t]; cbn [length]; lia.
      * subst sub1. simpl. intros n [Hn|Hn%list_elem_of_singleton]%elem_of_app; [specialize (Hp n Hn)|]; lia.
Qed.

(** [deliver] on the buffer of the runtime. *)
Lemma deliver_spec rt event sid sub sub' es :
  buffer_ok rt -> sub_ok sub -> deliver rt event sid sub = (sub', es) ->
  sub_ok sub' /\ lastDeliveredSeq sub <= lastDeliveredSeq sub' /\ maxInFlight sub' = maxInFlight sub /\
  exists a l, lastDeliveredSeq sub < a /\ from a l /\ es = map (emit_of event sid) l /\
    pending sub' = pending sub ++ map seq l /\ (forall r, r ∈ l -> seq r <= lastDeliveredSeq sub').
Proof.
  intros Hb Hs. unfold deliver. destruct (paused sub) eqn:Ep.
  { intros [= <- <-]. split_and!; try done; try lia. exists (lastDeliveredSeq sub + 1), [].
    split_and!; try done; [lia | by rewrite app_nil_r |]. intros r Hr. by apply not_elem_of_nil in Hr. }
  pose proof (bo_consecutive _ Hb event) as Hc. apply from_consecutive in Hc. cbn [w_records kernelAppEventHistoryAfter].
  fold (retained rt event). rewrite (filter_from _ _ (lastDeliveredSeq sub) Hc).
  set (j := Z.to_nat _). set (a0 := counter rt event - _ + 1) in *.
  pose proof (from_drop _ _ j Hc) as Hf. set (a := a0 + Z.of_nat j) in *.
  assert (Ha : lastDeliveredSeq sub < a) by lia.
  rewrite (deliver_loop_spec _ _ a); [|done|intros n Hn; pose proof (so_pending _ Hs n Hn); lia].
  set (k := Z.to_nat _). set (l := drop j _) in *. intros [= <- <-].
  assert (Hft : from a (take k l)) by by apply from_take.
  assert (Hlast : forall r, r ∈ take k l -> a <= seq r <=
    match take k l with [] => lastDeliveredSeq sub | _ => a + Z.of_nat (length (take k l)) - 1 end).
  { intros r [i Hi]%list_elem_of_lookup. rewrite (Hft _ _ Hi). apply lookup_lt_Some in Hi.
    destruct (take k l); simpl in *; lia. }
  assert (Hmono : lastDeliveredSeq sub <= match take k l with [] => lastDeliveredSeq sub
     | _ => a + Z.of_nat (length (take k l)) - 1 end) by (destruct (take k l); simpl; lia).
  destruct Hs as [H1 H2 H3 H4 H5]. split_and!; [|done|done|].
  - split; cbn [pending maxInFlight lastDeliveredSeq paused]; [| |done| |].
    + apply NoDup_app. split_and!; [done| |].
      * intros n Hn Hin. apply elem_of_In, in_map_iff in Hin as (r & <- & Hr%elem_of_In).
        specialize (H4 _ Hn). specialize (Hlast _ Hr). lia.
      * apply NoDup_alt. intros i1 i2 n Hi1 Hi2. rewrite !list_lookup_fmap in Hi1, Hi2.
        destruct (take k l !! i1) as [r1|] eqn:E1, (take k l !! i2) as [r2|] eqn:E2; try done.
        injection Hi1 as <-. injection Hi2 as Hi2. rewrite (Hft _ _ E1), (Hft _ _ E2) in Hi2. lia.
    + rewrite length_app, length_map, length_take. lia.
    + intros n [Hn|Hin]%elem_of_app; [specialize (H4 _ Hn); lia|].
      apply elem_of_In, in_map_iff in Hin as (r & <- & Hr%elem_of_In). by apply Hlast.
    + rewrite ?Ep, ?orb_false_l. intros Hk. bools. rewrite length_app, length_map, length_take. lia.
  - exists a, (take k l). split_and!; try done. intros r Hr. by apply Hlast.
Qed.

(** ** The state invariant and the order of deliveries *)

Definition sess_ok (s : Session) : Prop := forall event sub, (event, sub) ∈ subscriptions s -> sub_ok sub.

Definition rt_ok (rt : Runtime) : Prop :=
  buffer_ok rt /\ forall sid s, (sid, s) ∈ sessions rt -> sess_ok s.

(** The last delivered number of a subscription. *)
Definition position (rt : Runtime) (sid event : string) : option Z :=
  match map_get sid (sessions rt) with
  | Some s => lastDeliveredSeq <$> map_get event (subscriptions s)
  | None => None
  end.

(** The numbers of the deliveries of an event to a session. *)
Definition seqs_to (sid event : string) (es : list Emit) : list Z :=
  map e_seq (List.filter (fun e => (to_session e =? sid)%string && (e_event e =? event)%string) es).

(** Strictly increasing, above [lo] and at most [hi]. *)
Fixpoint ascending (lo : Z) (l : list Z) (hi : Z) : Prop :=
  match l with
  | [] => lo <= hi
  | x :: r => lo < x /\ ascending x r hi
  end.

Lemma ascending_app lo l mid r hi : ascending lo l mid -> ascending mid r hi -> ascending lo (l ++ r) hi.
Proof.
  revert lo. induction l as [|x l IH]; intros lo; simpl.
  - intros Hle Hr. destruct r as [|y r]; simpl in *; [lia|]. destruct Hr as [? Hr]. split; [lia | done].
  - intros [Hx Hl] Hr. split; [done|]. by apply IH.
Qed.

Lemma seqs_to_app sid event e1 e2 : seqs_to sid event (e1 ++ e2) = seqs_to sid event e1 ++ seqs_to sid event e2.
Proof. unfold seqs_to. by rewrite List.filter_app, map_app. Qed.

Lemma seqs_to_other sid event sid' event' l :
  sid' <> sid \/ event' <> event -> seqs_to sid event (map (emit_of event' sid') l) = [].
Proof.
  intros Hne. induction l as [|r l IH]; [done|]. unfold seqs_to in *. simpl.
  destruct (String.eqb_spec sid' sid), (String.eqb_spec event' event); simpl; try done. by destruct Hne.
Qed.

Lemma seqs_to_same sid event l : seqs_to sid event (map (emit_of event sid) l) = map seq l.
Proof.
  induction l as [|r l IH]; [done|]. unfold seqs_to in *. simpl. rewrite !String.eqb_refl. simpl. by rewrite IH.
Qed.

Lemma ascending_from lo a l hi :
  lo < a -> from a l -> (forall r, r ∈ l -> seq r <= hi) -> lo <= hi -> ascending lo (map seq l) hi.
Proof.
  revert lo a. induction l as [|r l IH]; intros lo a Ha Hf Hhi Hle; simpl; [done|].
  apply from_cons in Hf as [Hr Hf]. split; [lia|]. apply (IH _ (a + 1)); [lia|done| |apply Hhi; left].
  intros x Hx. apply Hhi. by right.
Qed.

(** A step that keeps the invariant and, for the subscriptions of [sid], emits in
    order. *)
Definition flow (sid : string) (rt : Runtime) (r : Runtime * list Emit) : Prop :=
  rt_ok r.1 /\
  forall event lo, position rt sid event = Some lo ->
    exists hi, position r.1 sid event = Some hi /\ ascending lo (seqs_to sid event r.2) hi.

Lemma flow_silent sid rt rt' :
  rt_ok rt' -> (forall event, position rt' sid event = position rt sid event) -> flow sid rt (rt', []).
Proof. intros Hr Hp. split; [done|]. intros event lo Hlo. exists lo. rewrite Hp. split; [done|]. simpl. lia. Qed.

Lemma flow_trans sid rt r1 r2 : flow sid rt r1 -> flow sid r1.1 r2 -> flow sid rt (r2.1, r1.2 ++ r2.2).
Proof.
  intros [_ H1] [Hok H2]. split; [done|]. intros event lo Hlo. destruct (H1 _ _ Hlo) as (mid & Hm & Ha).
  destruct (H2 _ _ Hm) as (hi & Hh & Hb). exists hi. split; [done|]. simpl. rewrite seqs_to_app. by eapply ascending_app.
Qed.

(** Writing a session back. *)
Lemma set_session_ok rt sid s :
  rt_ok rt -> sess_ok s -> rt_ok (with_sessions rt (map_set sid s (sessions rt))).
Proof.
  intros [Hb Hs] Hok. split; [by apply (same_buffer_ok rt)|].
  intros sid' s' Hin. apply elem_of_map_set in Hin as [[= -> ->]|Hin]; [done | by eapply Hs].
Qed.

Lemma position_set rt sid s sid' event :
  position (with_sessions rt (map_set sid s (sessions rt))) sid' event =
  if decide (sid = sid') then lastDeliveredSeq <$> map_get event (subscriptions s) else position rt sid' event.
Proof. unfold position. simpl. rewrite map_get_set. by case_decide. Qed.

Lemma session_ok rt sid s : rt_ok rt -> map_get sid (sessions rt) = Some s -> sess_ok s.
Proof. intros [_ H] Hg. eapply H. by apply map_get_elem. Qed.

Lemma sess_ok_set s event sub : sess_ok s -> sub_ok sub -> sess_ok (with_subs s (map_set event sub (subscriptions s))).
Proof.
  intros Hs Hok e sub' Hin. simpl in Hin. apply elem_of_map_set in Hin as [[= -> ->]|Hin]; [done | by eapply Hs].
Qed.

Lemma deliver_to_flow rt event sid sid' : rt_ok rt -> flow sid' rt (deliver_to rt event sid).
Proof.
  intros Hrt. unfold deliver_to. destruct (map_get sid (sessions rt)) as [s|] eqn:Es; [|by apply flow_silent].
  destruct (map_get event (subscriptions s)) as [sub|] eqn:Esub; [|by apply flow_silent].
  pose proof (session_ok _ _ _ Hrt Es) as Hsok.
  assert (Hsub : sub_ok sub) by (eapply Hsok; by apply map_get_elem).
  destruct (deliver rt event sid sub) as [sub' es] eqn:Ed.
  destruct (deliver_spec _ _ _ _ _ _ (proj1 Hrt) Hsub Ed) as (Hsub' & Hle & _ & a & l & Ha & Hf & -> & _ & Hl).
  split; [apply set_session_ok; [done|]; by apply sess_ok_set|].
  intros e lo Hlo. simpl. rewrite position_set. case_decide as Esid; [subst sid'|].
  - unfold position in Hlo. rewrite Es in Hlo. simpl. rewrite map_get_set.
    case_decide as Ee; [subst e|].
    + rewrite Esub in Hlo. injection Hlo as <-. exists (lastDeliveredSeq sub'). split; [done|].
      destruct (disposed s); [done|]. rewrite seqs_to_same. by eapply ascending_from.
    + exists lo. split; [done|]. destruct (disposed s); [simpl; lia|].
      rewrite seqs_to_other by (by right). simpl. lia.
  - exists lo. split; [done|]. destruct (disposed s); [simpl; lia|].
    rewrite seqs_to_other by (by left). simpl. lia.
Qed.

Lemma notify_flow event ls rt sid : rt_ok rt -> flow sid rt (notify rt event ls).
Proof.
  revert rt. induction ls as [|[n s] ls IH]; intros rt Hrt; cbn [notify]; [by apply flow_silent|].
  assert (H1 : flow sid rt (on_event rt event s)).
  { unfold on_event. destruct (map_get s (sessions rt)); [|by apply flow_silent].
    case_match; [by apply flow_silent | by apply deliver_to_flow]. }
  destruct (on_event rt event s) as [rt1 e1]. specialize (IH rt1 (proj1 H1)).
  destruct (notify rt1 event ls) as [rt2 e2]. by apply (flow_trans _ _ (rt1, e1) (rt2, e2)).
Qed.

Lemma record_flow now event pl rt sid : rt_ok rt -> flow sid rt (recordAppEvent now event pl rt, []).
Proof.
  intros [Hb Hs]. destruct (recordAppEvent_spec now event pl rt) as (_ & _ & _ & _ & _ & Hsess).
  apply flow_silent; [|by intros e; unfold position; rewrite Hsess].
  split; [by apply recordAppEvent_ok | by rewrite Hsess].
Qed.

Lemma dispatch_flow now event pl rt sid : rt_ok rt -> flow sid rt (dispatchAppEvent now event pl rt).
Proof.
  intros Hrt. pose proof (record_flow now event pl rt sid Hrt) as H1. unfold dispatchAppEvent.
  destruct (map_get event (listeners _)) as [k|]; [|done].
  set (ls := default [] _). pose proof (notify_flow event ls _ sid (proj1 H1)) as H2. simpl in H2.
  destruct (notify _ event ls) as [rt2 e2]. by apply (flow_trans _ _ _ (rt2, e2) H1).
Qed.

(** *** The handlers *)

Lemma max_in_flight_bounds o m : max_in_flight o = Ok m -> 1 <= m <= MAX_IN_FLIGHT_LIMIT.
Proof.
  unfold max_in_flight, DEFAULT_MAX_IN_FLIGHT, MAX_IN_FLIGHT_LIMIT.
  destruct (field _ o) as [[]|]; try done; [|intros [= <-]; lia].
  destruct (Z.ltb_spec n 1); [done|]. intros [= <-]. lia.
Qed.

Lemma fresh_sub_ok n m : 1 <= m <= MAX_IN_FLIGHT_LIMIT -> sub_ok (MkSub n [] m false).
Proof.
  intros Hm. split; simpl; [constructor | lia | done | | done]. intros x Hx. by apply not_elem_of_nil in Hx.
Qed.

Lemma install_ok rt event c m existing sub :
  1 <= m <= MAX_IN_FLIGHT_LIMIT -> (forall sub0, existing = Some sub0 -> sub_ok sub0) ->
  install rt event c m existing = Ok sub -> sub_ok sub.
Proof.
  intros Hm He. unfold install. destruct c as [c|].
  - destruct (parseCursor event c); [|done]. guards.
    intros [= <-]. by apply fresh_sub_ok.
  - destruct existing as [sub0|]; intros [= <-]; [by apply He | by apply fresh_sub_ok].
Qed.

(** Operations on listeners leave the buffer and the sessions alone. *)
Definition same_core (rt rt' : Runtime) : Prop := same_buffer rt rt' /\ sessions rt' = sessions rt.

Lemma same_core_ok rt rt' : same_core rt rt' -> rt_ok rt -> rt_ok rt'.
Proof. intros [Hb Hs] [H1 H2]. split; [by eapply same_buffer_ok | by rewrite Hs]. Qed.

Lemma same_core_position rt rt' sid event : same_core rt rt' -> position rt' sid event = position rt sid event.
Proof. intros [_ Hs]. unfold position. by rewrite Hs. Qed.

Lemma onAppEvent_core rt event sid rt' u : onAppEvent rt event sid = (rt', u) -> same_core rt rt'.
Proof. unfold onAppEvent. destruct (map_get event (listeners rt)); by intros [= <- <-]. Qed.

Lemma unsubscribe_fn_core rt u : same_core rt (unsubscribe_fn rt u).
Proof. done. Qed.

Lemma dispose_core us rt : same_core rt (fold_left unsubscribe_fn us rt).
Proof.
  revert rt. induction us as [|u us IH]; intros rt; [done|]. cbn [fold_left].
  destruct (IH (unsubscribe_fn rt u)) as [Hb Hs]. split; [by eapply same_buffer_trans | done].
Qed.

Lemma relay_core rt event sid s rt' s' :
  relay rt event sid s = (rt', s') -> same_core rt rt' /\ subscriptions s' = subscriptions s.
Proof.
  unfold relay. destruct (onAppEvent rt event sid) as [rt1 u] eqn:E. intros [= <- <-].
  split; [by eapply onAppEvent_core | done].
Qed.

(** The handler up to the delivery. *)
Lemma subscribe_inv rt sid s params r :
  rt_ok rt -> map_get sid (sessions rt) = Some s -> subscribe rt sid s params = Ok r ->
  exists event m sub rt1 s1,
    field "event" (fields_of params) = Some (VStr event) /\ max_in_flight (fields_of params) = Ok m /\
    install rt event (field "cursor" (fields_of params)) m (map_get event (subscriptions s)) = Ok sub /\ sub_ok sub /\
    same_core rt rt1 /\ subscriptions s1 = map_set event sub (subscriptions s) /\
    r = deliver_to (with_sessions rt1 (map_set sid s1 (sessions rt1))) event sid.
Proof.
  intros Hrt Hs. unfold subscribe. destruct (field "event" _) as [[]|]; try done. rename s0 into event.
  guards. destruct (max_in_flight _) as [m|] eqn:Em; simpl; [|done].
  destruct (install _ _ _ _ _) as [sub|] eqn:Ei; simpl; [|done].
  destruct (if map_has event (relays s) then _ else _) as [rt2 s2] eqn:Er. intros [= <-].
  exists event, m, sub, rt2, s2. split_and!; try done.
  - eapply install_ok; [by eapply max_in_flight_bounds| |exact Ei]. intros sub0 Hg.
    eapply (session_ok _ _ _ Hrt Hs). by apply map_get_elem.
  - destruct (map_has event (relays s)); [injection Er as <- <-; done | by apply relay_core in Er as [? _]].
  - destruct (map_has event (relays s)); [injection Er as <- <-; done | by apply relay_core in Er as [_ ->]].
Qed.

Lemma subscribe_flow rt sid s params r sid' :
  rt_ok rt -> map_get sid (sessions rt) = Some s -> subscribe rt sid s params = Ok r ->
  rt_ok r.1 /\ (sid <> sid' -> flow sid' rt r).
Proof.
  intros Hrt Hs Hr. destruct (subscribe_inv _ _ _ _ _ Hrt Hs Hr) as (event & m & sub & rt1 & s1 & _ & _ & _ & Hsub & Hc & Hs1 & ->).
  set (rt2 := with_sessions rt1 _).
  assert (Hok : rt_ok rt2).
  { apply set_session_ok; [by eapply same_core_ok|]. intros e sub' Hin. rewrite Hs1 in Hin.
    apply elem_of_map_set in Hin as [[= -> ->]|Hin]; [done|]. by eapply (session_ok _ _ _ Hrt Hs). }
  pose proof (deliver_to_flow rt2 event sid sid' Hok) as Hf. split; [apply Hf|]. intros Hne.
  destruct (deliver_to rt2 event sid) as [rt3 es]. apply (flow_trans _ _ (rt2, []) (rt3, es)); [|done].
  apply flow_silent; [done|]. intros e. unfold rt2. rewrite position_set, decide_False by done.
  by apply same_core_position.
Qed.

Lemma remove_seq_spec n l :
  NoDup l -> n ∈ l -> NoDup (remove_seq n l) /\ (length (remove_seq n l) < length l)%nat /\
  (forall m, m ∈ remove_seq n l -> m ∈ l).
Proof.
  intros Hnd Hn. unfold remove_seq. split_and!.
  - eapply sublist_NoDup; [exact Hnd | apply filter_sublist].
  - clear Hnd. induction l as [|x l IH]; [by apply not_elem_of_nil in Hn|]. simpl.
    destruct (Z.eqb_spec x n) as [->|Hne]; simpl.
    + pose proof (filter_length_le (fun m => negb (m =? n)) l). lia.
    + apply elem_of_cons in Hn as [->|Hn]; [done|]. specialize (IH Hn). lia.
  - intros m Hm. by apply elem_of_filter_bool in Hm as [Hm _].
Qed.

Lemma ack_flow rt sid s params sid' :
  rt_ok rt -> map_get sid (sessions rt) = Some s -> flow sid' rt (ack rt sid s params).
Proof.
  intros Hrt Hs. unfold ack. destruct (field "event" _) as [[]|]; try by apply flow_silent. rename s0 into event.
  destruct (field "sequence" _) as [[]|]; try by apply flow_silent.
  destruct (map_get event (subscriptions s)) as [sub|] eqn:Esub; [|by apply flow_silent].
  destruct (zmem n (pending sub)) eqn:Em; [|by apply flow_silent]. cbn [negb].
  set (left := remove_seq n (pending sub)). set (resume := paused sub && _). set (sub' := MkSub _ _ _ _).
  set (rt1 := with_sessions rt _).
  assert (Hsub : sub_ok sub) by (eapply (session_ok _ _ _ Hrt Hs); by apply map_get_elem).
  apply zmem_elem in Em. destruct Hsub as [H1 H2 H3 H4 H5].
  destruct (remove_seq_spec n (pending sub) H1 Em) as (Hnd & Hlen & Hin). fold left in Hnd, Hlen, Hin.
  assert (Hsub' : sub_ok sub').
  { split; simpl; [done|lia|done|by intros; apply H4, Hin|]. intros Hp. exfalso. subst resume.
    destruct (paused sub); [|done]. simpl in Hp. bools. specialize (H5 eq_refl). lia. }
  assert (H0 : flow sid' rt (rt1, [])).
  { apply flow_silent; [apply set_session_ok; [done|]; apply sess_ok_set; [by eapply session_ok|done]|].
    intros e. unfold rt1. rewrite position_set. case_decide as Ed; [|done]. subst sid'. simpl. rewrite map_get_set.
    unfold position. rewrite Hs. case_decide as Ee; [|done]. subst e. by rewrite Esub. }
  destruct resume; [|done]. pose proof (deliver_to_flow rt1 event sid sid' (proj1 H0)) as Hf.
  destruct (deliver_to rt1 event sid) as [rt2 es]. by apply (flow_trans _ _ (rt1, []) (rt2, es)).
Qed.

Lemma unsubscribe_flow rt sid s params sid' :
  rt_ok rt -> map_get sid (sessions rt) = Some s ->
  rt_ok (unsubscribe rt sid s params) /\ (sid <> sid' -> flow sid' rt (unsubscribe rt sid s params, [])).
Proof.
  intros Hrt Hs. unfold unsubscribe. pose proof (session_ok _ _ _ Hrt Hs) as Hsok.
  destruct (field "event" _) as [[]|]; try (split; [done | by intros; apply flow_silent]). rename s0 into event.
  assert (Hdel : forall e sub, (e, sub) ∈ map_del event (subscriptions s) -> sub_ok sub)
    by (intros e sub Hin; eapply Hsok; by apply elem_of_map_del in Hin).
  destruct (map_get event (relays s)) as [u|].
  - assert (Hok : rt_ok (with_sessions (unsubscribe_fn rt u) (map_set sid (MkSession (can_read s) (disposed s)
        (map_del event (relays s)) (map_del event (subscriptions s)) (tracked s)) (sessions (unsubscribe_fn rt u)))))
      by (apply set_session_ok; [apply (same_core_ok rt); [apply unsubscribe_fn_core | done] | exact Hdel]).
    split; [exact Hok|]. intros Hne. apply flow_silent; [exact Hok|]. intros e. rewrite position_set.
    by rewrite decide_False.
  - assert (Hok : rt_ok (with_sessions rt (map_set sid (with_subs s (map_del event (subscriptions s))) (sessions rt))))
      by (apply set_session_ok; [done | exact Hdel]).
    split; [exact Hok|]. intros Hne. apply flow_silent; [exact Hok|]. intros e. rewrite position_set.
    by rewrite decide_False.
Qed.

Lemma dispose_flow rt sid s sid' :
  rt_ok rt -> map_get sid (sessions rt) = Some s -> flow sid' rt (dispose rt sid s, []).
Proof.
  intros Hrt Hs. unfold dispose. pose proof (dispose_core (rev (tracked s)) rt) as Hc.
  apply flow_silent.
  - apply set_session_ok; [by eapply same_core_ok|]. exact (session_ok _ _ _ Hrt Hs).
  - intros e. rewrite position_set. case_decide as Ed; [|by apply same_core_position]. subst sid'.
    unfold position. by rewrite Hs.
Qed.

(** [sid] is not (re)subscribed and not unsubscribed. *)
Definition keeps_subscriptions (sid : string) (op : Op) : Prop :=
  match op with Subscribe sid' _ | Unsub sid' _ => sid' <> sid | _ => True end.

Lemma live_get rt sid s : live rt sid = Some s -> map_get sid (sessions rt) = Some s /\ disposed s = false.
Proof. unfold live. destruct (map_get sid (sessions rt)) as [s0|]; [|done]. destruct (disposed s0) eqn:E; [done|]. by intros [= <-]. Qed.

Lemma step_flow rt op sid :
  rt_ok rt -> rt_ok (step rt op).1 /\ (keeps_subscriptions sid op -> flow sid rt (step rt op)).
Proof.
  intros Hrt. assert (Hskip : rt_ok (rt, @nil Emit).1 /\ flow sid rt (rt, [])) by (split; [done | by apply flow_silent]).
  destruct op as [now event pl|s0 can|s0 can|s0 params|s0 params|s0 params|s0]; cbn [step].
  - pose proof (dispatch_flow now event pl rt sid Hrt) as Hf. split; [apply Hf | by intros _].
  - destruct (map_has s0 (sessions rt)) eqn:Eh; [by destruct Hskip|].
    assert (Hok : rt_ok (with_sessions rt (map_set s0 (MkSession can false [] [] []) (sessions rt)))).
    { apply set_session_ok; [done|]. intros e sub Hin. by apply not_elem_of_nil in Hin. }
    split; [exact Hok|]. intros _. apply flow_silent; [exact Hok|]. intros e. rewrite position_set.
    case_decide as Ed; [|done]. subst s0. unfold position, map_has in *. by destruct (map_get sid (sessions rt)).
  - destruct (live rt s0) as [s|] eqn:El; [|by destruct Hskip]. apply live_get in El as [Hg _].
    assert (Hok : rt_ok (with_sessions rt (map_set s0 (MkSession can (disposed s) (relays s) (subscriptions s) (tracked s)) (sessions rt)))).
    { apply set_session_ok; [done|]. exact (session_ok _ _ _ Hrt Hg). }
    split; [exact Hok|]. intros _. apply flow_silent; [exact Hok|]. intros e. rewrite position_set.
    case_decide as Ed; [|done]. subst s0. unfold position. by rewrite Hg.
  - destruct (live rt s0) as [s|] eqn:El; [|by destruct Hskip]. apply live_get in El as [Hg _].
    destruct (subscribe rt s0 s params) as [r|] eqn:Er; [|by destruct Hskip].
    by apply (subscribe_flow _ _ _ _ _ sid Hrt Hg) in Er.
  - destruct (live rt s0) as [s|] eqn:El; [|by destruct Hskip]. apply live_get in El as [Hg _].
    pose proof (ack_flow rt s0 s params sid Hrt Hg) as Hf. split; [apply Hf | by intros _].
  - destruct (live rt s0) as [s|] eqn:El; [|by destruct Hskip]. apply live_get in El as [Hg _].
    by apply unsubscribe_flow.
  - destruct (live rt s0) as [s|] eqn:El; [|by destruct Hskip]. apply live_get in El as [Hg _].
    pose proof (dispose_flow rt s0 s sid Hrt Hg) as Hf. split; [apply Hf | by intros _].
Qed.

Lemma run_flow ops rt sid :
  rt_ok rt -> rt_ok (run rt ops).1 /\ (Forall (keeps_subscriptions sid) ops -> flow sid rt (run rt ops)).
Proof.
  revert rt. induction ops as [|op ops IH]; intros rt Hrt; cbn [run]; [split; [done | by intros; apply flow_silent]|].
  destruct (step_flow rt op sid Hrt) as [Hok Hf]. destruct (step rt op) as [rt1 e1].
  destruct (IH rt1 Hok) as [Hok2 Hf2]. destruct (run rt1 ops) as [rt2 e2]. split; [done|].
  intros [Hq Hqs]%Forall_cons. apply (flow_trans sid rt (rt1, e1) (rt2, e2)); [by apply Hf | by apply Hf2].
Qed.

Lemma start_ok : rt_ok start.
Proof.
  split; [|intros ? ? Hin; by apply not_elem_of_nil in Hin].
  split; simpl; try (intros event; unfold counter, retained; simpl); vm_compute; done.
Qed.

Lemma reachable_ok ops : rt_ok (run start ops).1.
Proof. exact (proj1 (run_flow ops start ""%string start_ok)). Qed.

(** ** Properties *)

(** After any sequence of events, requests and disposals, the
    replay buffers hold at most 128 consecutive records each, the last of them
    the newest, and every subscription has at most its window (at most 256) of
    distinct unacknowledged deliveries, a full window if it is paused, so that
    the next acknowledgement resumes it.  And as long as a session does not
    subscribe again or unsubscribe, the numbers of the events delivered to it are
    strictly increasing: nothing is delivered twice or out of order, whatever
    other sessions do. *)
Theorem deliveries_in_order (before after : list Op) :
  let rt := (run start before).1 in
  let r := run rt after in
  rt_ok r.1 /\
  forall sid event lo, position rt sid event = Some lo -> Forall (keeps_subscriptions sid) after ->
    exists hi, position r.1 sid event = Some hi /\ ascending lo (seqs_to sid event r.2) hi.
Proof.
  intros rt r. pose proof (reachable_ok before) as Hrt. split; [exact (proj1 (run_flow after rt ""%string Hrt))|].
  intros sid event lo Hlo Hq. destruct (run_flow after rt sid Hrt) as [_ Hf]. by apply (Hf Hq).
Qed.

Lemma allowed_length event : mem event ALLOWED_EVENTS = true ->
  negb ((strlen event =? 0) || (MAX_EVENT_NAME_LENGTH <? strlen event)) = true.
Proof.
  assert (Hall : forallb (fun e => negb ((strlen e =? 0) || (MAX_EVENT_NAME_LENGTH <? strlen e))) ALLOWED_EVENTS = true)
    by (vm_compute; done).
  rewrite forallb_forall in Hall. unfold mem. rewrite existsb_exists. intros (x & Hx & ->%String.eqb_eq). by apply Hall.
Qed.

(** A cursor parses back to its number. *)
Lemma parseCursor_cursorOf event n :
  0 <= n <= MAX_SAFE -> parseCursor event (VStr (cursorOf event n)) = Some n.
Proof.
  intros Hn. unfold parseCursor, cursorOf. rewrite !chars_app, chars_str, (app_assoc (chars event)).
  set (prefix := chars event ++ chars ":").
  assert (Hp : starts_with prefix (prefix ++ dec n) = true) by (apply starts_with_app; eauto).
  rewrite Hp. cbn [negb]. rewrite drop_app_length. destruct (dec_spec n ltac:(lia)) as [Hv Hd]. rewrite Hd, Hv.
  destruct (Nat.eqb_spec (length (dec n)) 0) as [E|_]; [by apply nil_length_inv, dec_nonnil in E|].
  simpl. by rewrite (proj2 (Z.leb_le _ _)) by lia.
Qed.

Lemma from_numbers a l : from a l -> map seq l = map (fun i => a + Z.of_nat i) (List.seq 0 (length l)).
Proof.
  intros Hf. apply list_eq. intros i. rewrite !list_lookup_fmap.
  destruct (l !! i) as [r|] eqn:E; simpl.
  - pose proof (lookup_lt_Some _ _ _ E). rewrite lookup_seq_lt by done. simpl. by rewrite (Hf _ _ E).
  - apply lookup_ge_None in E. rewrite lookup_seq_ge by done. done.
Qed.

Lemma window_ends rt event :
  buffer_ok rt -> retained rt event <> [] ->
  let w := kernelAppEventHistoryAfter rt event 0 in
  w_head w = Some (counter rt event) /\
  w_lowest w = Some (counter rt event - Z.of_nat (length (retained rt event)) + 1).
Proof.
  intros Hb Hne. simpl. fold (retained rt event). pose proof (bo_consecutive _ Hb event) as Hc.
  destruct (retained rt event) as [|r0 l] eqn:E; [done|]. split.
  - rewrite last_lookup. cbn [length pred].
    destruct (lookup_lt_is_Some_2 (r0 :: l) (length l)) as [x Hx]; [simpl; lia|]. rewrite Hx.
    simpl fmap. f_equal. rewrite (Hc _ _ Hx). simpl. lia.
  - simpl. f_equal. rewrite (Hc 0%nat r0 eq_refl). simpl. lia.
Qed.

(** Subscribing with the cursor of event number [n] while
    records are retained: a cursor before the retained window is refused as
    expired with the first retained number, one after the newest event as a
    future cursor; otherwise the missed events [n+1], [n+2], ... are delivered at
    once, in order, without a gap, each with the cursor of its own number, up to
    the requested window. *)
Theorem subscribe_replays (ops : list Op) (sid event : string) (s : Session) (o : list (string * Value)) (n m : Z) :
  let rt := (run start ops).1 in
  let newest := counter rt event in
  let oldest := newest - Z.of_nat (length (retained rt event)) + 1 in
  live rt sid = Some s -> retained rt event <> [] ->
  field "event" o = Some (VStr event) -> field "cursor" o = Some (VStr (cursorOf event n)) ->
  max_in_flight o = Ok m -> 0 <= n <= MAX_SAFE -> mem event ALLOWED_EVENTS = true ->
  (mem event CHAT_CONTENT_EVENTS = true -> can_read s = true) ->
  match subscribe rt sid s (Some (VObj o)) with
  | Throw e => (e = FutureCursor /\ newest < n) \/ (e = CursorExpired oldest /\ n < oldest - 1)
  | Ok (rt', es) =>
      oldest - 1 <= n <= newest /\
      (exists l, l `prefix_of` drop (Z.to_nat (n + 1 - oldest)) (retained rt event) /\ es = map (emit_of event sid) l) /\
      map e_seq es = map (fun i => n + 1 + Z.of_nat i) (List.seq 0 (Z.to_nat (Z.min m (newest - n)))) /\
      Forall (fun e => parseCursor event (VStr (e_cursor e)) = Some (e_seq e)) (take (Z.to_nat (MAX_SAFE - n)) es)
  end.
Proof.
  intros rt newest oldest Hl Hne He Hc Hm Hn Hal Hcap. pose proof (reachable_ok ops) as Hrt. fold rt in Hrt.
  apply live_get in Hl as [Hg Hdis]. pose proof (proj1 Hrt) as Hb.
  destruct (window_ends rt event Hb Hne) as [Hhd Hlo]. simpl in Hhd, Hlo.
  unfold subscribe. cbn [fields_of]. rewrite He, (allowed_length _ Hal), Hal.
  assert (Hcc : negb (mem event CHAT_CONTENT_EVENTS && negb (can_read s)) = true).
  { destruct (mem event CHAT_CONTENT_EVENTS); [|done]. by rewrite Hcap. }
  rewrite Hcc, Hm. cbn [obind]. unfold install. rewrite Hc, (parseCursor_cursorOf _ _ Hn).
  cbn [w_head w_lowest kernelAppEventHistoryAfter]. rewrite Hhd, Hlo. fold newest oldest.
  destruct (Z.leb_spec n newest) as [Hle|Hgt]; cbn [obind]; [|left; by split].
  destruct (Z.leb_spec (oldest - 1) n) as [Hge|Hlt]; cbn [obind]; [|right; by split].
  set (sub := MkSub n [] m false). set (s1 := with_subs s _).
  destruct (if map_has event (relays s1) then (rt, s1) else relay rt event sid s1) as [rt2 s2] eqn:Er.
  assert (Hcore : same_core rt rt2 /\ subscriptions s2 = subscriptions s1 /\ disposed s2 = false).
  { destruct (map_has event (relays s1)); [injection Er as <- <-; done|].
    pose proof (relay_core _ _ _ _ _ _ Er) as [? ?]. split_and!; try done. revert Er. unfold relay.
    destruct (onAppEvent rt event sid) as [x u]. by intros [= _ <-]. }
  destruct Hcore as ([(Hh & Hq & _) _] & Hsub & Hd2). unfold deliver_to. cbn [sessions with_sessions].
  rewrite map_get_set, decide_True by done. rewrite Hsub. cbn [subscriptions with_subs s1].
  rewrite map_get_set, decide_True by done. unfold deliver. cbn [paused sub].
  cbn [w_records kernelAppEventHistoryAfter history with_sessions lastDeliveredSeq sub]. rewrite Hh. fold (retained rt event).
  pose proof (bo_consecutive _ Hb event) as Hcons. apply from_consecutive in Hcons. fold newest oldest in Hcons.
  rewrite (filter_from _ _ n Hcons). set (l := drop _ (retained rt event)).
  assert (Hf : from (n + 1) l).
  { replace (n + 1) with (oldest + Z.of_nat (Z.to_nat (n + 1 - oldest))) by lia. by apply from_drop. }
  fold sub. rewrite (deliver_loop_spec event sid (n + 1) l sub); [|done|intros x Hx; by apply not_elem_of_nil in Hx].
  cbn [pending maxInFlight length sub]. set (k := Z.to_nat (m - Z.of_nat 0)). rewrite Hd2.
  assert (Hlen : length (take k l) = Z.to_nat (Z.min m (newest - n))).
  { rewrite length_take. unfold l. rewrite length_drop. unfold k, oldest, newest in *.
    pose proof (bo_counter _ Hb event). lia. }
  split; [lia|]. split; [exists (take k l); split; [apply prefix_take | done]|]. split.
  - rewrite map_map, <- Hlen. exact (from_numbers (n + 1) (take k l) (from_take _ _ k Hf)).
  - apply Forall_lookup. intros i e Hi. apply lookup_take_Some in Hi as [Hi Hik]. rewrite list_lookup_fmap in Hi.
    destruct (take k l !! i) as [r|] eqn:Er'; [|done]. injection Hi as <-. apply lookup_take_Some in Er' as [Hi _].
    cbn [e_cursor e_seq emit_of]. rewrite (Hf _ _ Hi). apply parseCursor_cursorOf. lia.
Qed.

(** Params of the examples. *)
Definition on (event : string) : option Value := Some (VObj [("event", VStr event)])%string.

Definition two_plugins : list Op := [
  OpenSession "a" true; OpenSession "b" true;
  Subscribe "a" (on "chat.created"); Unsub "a" (on "chat.created");
  Subscribe "b" (on "chat.created"); Dispatch 1 "chat.created" "x";
  Dispose "a"; Dispatch 2 "chat.created" "y"]%string.

Definition revoked_reader : list Op := [
  OpenSession "a" true;
  Subscribe "a" (Some (VObj [("event", VStr "generation.delta"); ("maxInFlight", VNum 1)]));
  Dispatch 1 "generation.delta" "x"; Dispatch 2 "generation.delta" "y"; SetCapability "a" false;
  Ack "a" (Some (VObj [("event", VStr "generation.delta"); ("sequence", VNum 1)]))]%string.

Lemma ascending_above lo l hi x : ascending lo l hi -> x ∈ l -> lo < x.
Proof.
  revert lo. induction l as [|y l IH]; intros lo; simpl; [intros _ Hx; by apply not_elem_of_nil in Hx|].
  intros [Hy Hl] [->|Hx]%elem_of_cons; [done|]. specialize (IH _ Hl Hx). lia.
Qed.

(** Three behaviours that the contract at the top of the file
    excludes.  With no retained record every cursor is accepted, also one of the
    future (a cursor of an earlier page load), and then no event up to that number
    is ever delivered.  An unsubscribe function that is disposed late deletes the
    listeners of the other plugins from the runtime: after plugin [a] has
    unsubscribed and is closed, plugin [b] no longer gets the event.  And an
    acknowledgement resumes the delivery of chat content after the capability has
    been revoked. *)
Theorem events_hazards :
  (forall ops sid event s o n m,
     let rt := (run start ops).1 in
     live rt sid = Some s -> retained rt event = [] ->
     field "event" o = Some (VStr event) -> field "cursor" o = Some (VStr (cursorOf event n)) ->
     max_in_flight o = Ok m -> 0 <= n <= MAX_SAFE -> mem event ALLOWED_EVENTS = true ->
     (mem event CHAT_CONTENT_EVENTS = true -> can_read s = true) ->
     exists rt', subscribe rt sid s (Some (VObj o)) = Ok (rt', []) /\
       forall after, Forall (keeps_subscriptions sid) after ->
       forall x, x ∈ seqs_to sid event (run rt' after).2 -> n < x) /\
  map (fun e => (to_session e, e_payload e)) (run start two_plugins).2 = [("b", "x")]%string /\
  map (fun e => (to_session e, e_payload e)) (run start revoked_reader).2 = [("a", "x"); ("a", "y")]%string.
Proof.
  split; [|split; reflexivity].
  intros ops sid event s o n m rt Hl Hnil He Hc Hm Hn Hal Hcap. pose proof (reachable_ok ops) as Hrt. fold rt in Hrt.
  apply live_get in Hl as [Hg _]. destruct (subscribe rt sid s (Some (VObj o))) as [r|e] eqn:Es.
  - pose proof (subscribe_flow _ _ _ _ _ sid Hrt Hg Es) as [Hok _].
    destruct (subscribe_inv _ _ _ _ _ Hrt Hg Es) as (ev & m0 & sub & rt1 & s1 & He1 & Hm1 & Hi & _ & ((Hh & _) & _) & Hs1 & Hr).
    cbn [fields_of] in He1, Hm1, Hi. rewrite He in He1. injection He1 as <-.
    unfold install in Hi. rewrite Hc, (parseCursor_cursorOf _ _ Hn) in Hi. cbn [w_head w_lowest kernelAppEventHistoryAfter] in Hi.
    fold (retained rt event) in Hi. rewrite Hnil in Hi. simpl in Hi. injection Hi as <-.
    unfold deliver_to in Hr. cbn [sessions with_sessions] in Hr. rewrite map_get_set, decide_True in Hr by done.
    rewrite Hs1, map_get_set, decide_True in Hr by done. unfold deliver in Hr.
    cbn [paused w_records kernelAppEventHistoryAfter history with_sessions lastDeliveredSeq] in Hr.
    rewrite Hh in Hr. fold (retained rt event) in Hr. rewrite Hnil in Hr. simpl in Hr.
    assert (Hpos : position r.1 sid event = Some n).
    { rewrite Hr. simpl. unfold position. simpl. rewrite map_get_set, decide_True by done. simpl.
      by rewrite map_get_set, decide_True. }
    exists r.1. split; [rewrite Hr; simpl; by destruct (disposed s1)|].
    intros after Hq x Hx. destruct (run_flow after r.1 sid Hok) as [_ Hf].
    destruct (Hf Hq) as [_ Hf']. destruct (Hf' _ _ Hpos) as (hi & _ & Ha). by eapply ascending_above.
  - exfalso. revert Es. unfold subscribe. cbn [fields_of]. rewrite He, (allowed_length _ Hal), Hal.
    assert (Hcc : negb (mem event CHAT_CONTENT_EVENTS && negb (can_read s)) = true).
    { destruct (mem event CHAT_CONTENT_EVENTS); [|done]. by rewrite Hcap. }
    rewrite Hcc, Hm. cbn [obind]. unfold install. rewrite Hc, (parseCursor_cursorOf _ _ Hn).
    cbn [w_head w_lowest kernelAppEventHistoryAfter]. fold (retained rt event). rewrite Hnil. cbn.
    by case_match.
Qed.

(** ** The theorems at concrete inputs *)

Definition reconnect : list Op := [
  OpenSession "a" true; Dispatch 1 "chat.created" "x"; Dispatch 2 "chat.created" "y"; Dispatch 3 "chat.created" "z"]%string.

Definition at_cursor (n : Z) : list (string * Value) :=
  [("event", VStr "chat.created"); ("cursor", VStr (cursorOf "chat.created" n))]%string.

Lemma subscribe_replays_witness :
  match subscribe (run start reconnect).1 "a" (MkSession true false [] [] []) (Some (VObj (at_cursor 1))) with
  | Ok (_, es) => map e_seq es = [2; 3]
  | Throw _ => False
  end.
Proof.
  pose proof (subscribe_replays reconnect "a" "chat.created" (MkSession true false [] [] []) (at_cursor 1) 1 64
    eq_refl ltac:(discriminate) eq_refl eq_refl eq_refl ltac:(unfold MAX_SAFE; lia) eq_refl (fun _ => eq_refl)) as H.
  destruct (subscribe _ _ _ _) as [[rt' es]|e] eqn:E.
  - exact (proj1 (proj2 (proj2 H))).
  - vm_compute in E. discriminate E.
Defined.

Lemma deliveries_in_order_witness :
  exists hi, ascending 0 (seqs_to "a" "chat.created"
    (run (run start [OpenSession "a" true; Subscribe "a" (on "chat.created")]%string).1 (drop 1 reconnect)).2) hi.
Proof.
  destruct (proj2 (deliveries_in_order [OpenSession "a" true; Subscribe "a" (on "chat.created")]%string (drop 1 reconnect))
    "a"%string "chat.created"%string 0 eq_refl) as (hi & _ & Ha); [repeat constructor | exists hi; exact Ha].
Defined.

Lemma events_hazards_witness :
  exists rt', subscribe (run start (take 1 reconnect)).1 "a" (MkSession true false [] [] []) (Some (VObj (at_cursor 500)))
    = Ok (rt', []).
Proof.
  destruct (proj1 events_hazards (take 1 reconnect) "a"%string "chat.created"%string (MkSession true false [] [] [])
    (at_cursor 500) 500 64 eq_refl eq_refl eq_refl eq_refl eq_refl ltac:(unfold MAX_SAFE; lia) eq_refl (fun _ => eq_refl)) as (rt' & H & _).
  exists rt'. exact H.
Defined.

End Events.
