(* ===== verification/Macros.v ===== *)
(** * Macros of prompts (packages/shared/src/macros.ts)

    The two passes of [replaceMacros] over a text: random alternatives, then
    variables.  A regular expression is a matcher on the characters from a
    position on: it returns its group and the rest.  [choose k n] is the k-th use
    of [Math.random] on [n] alternatives; a time is given by its local fields. *)

From Stdlib Require Import ZArith Lia Bool Ascii String List.
From stdpp Require Import base decidable strings list.
From S2P Require Import Prelude.
Local Open Scope Z_scope.

Module Macros.

Record LocalTime := Time { year : Z; month : Z; day : Z; hour : Z; minute : Z; weekday : Z }.

Record MacroContext := Ctx {
  userName : string;
  charName : string;
  variables : option (list (string * string));
  now : LocalTime
}.

(** ** Matchers *)

Fixpoint strip (p l : list ascii) : option (list ascii) :=
  match p, l with
  | [], _ => Some l
  | a :: p', b :: l' => if (a =? b)%char then strip p' l' else None
  | _ :: _, [] => None
  end.

Definition to_lower (c : ascii) : ascii := if is_upper c then ascii_of_N (Z.to_N (code c + 32)) else c.

(** The prefix [p], in lower case, in any case. *)
Fixpoint strip_ci (p l : list ascii) : option (list ascii) :=
  match p, l with
  | [], _ => Some l
  | a :: p', b :: l' => if (a =? to_lower b)%char then strip_ci p' l' else None
  | _ :: _, [] => None
  end.

Fixpoint span (p : ascii -> bool) (l : list ascii) : list ascii * list ascii :=
  match l with
  | [] => ([], [])
  | c :: r => if p c then let '(a, b) := span p r in (c :: a, b) else ([], l)
  end.

Definition skip_ws (l : list ascii) : list ascii := drop_while is_ws l.
Definition opening : list ascii := chars "{{".
Definition closing : list ascii := chars "}}".
Definition not_brace (c : ascii) : bool := negb (c =? "}")%char.
Definition is_key_char (c : ascii) : bool := is_alnum c || (c =? "_")%char || (c =? "-")%char.

(** [RANDOM_RE]: the white space before the group gives one character back when
    the group would be empty. *)
Definition random_match (l : list ascii) : option (list ascii * list ascii) :=
  match strip opening l with
  | None => None
  | Some r =>
      match strip_ci (chars "random") (skip_ws r) with
      | None => None
      | Some r1 =>
          match skip_ws r1 with
          | c :: r2 =>
              if (c =? ":")%char then
                let '(w, r3) := span not_brace r2 in
                match strip closing r3, rev w with
                | Some rest, z :: _ => Some (match skip_ws w with [] => [z] | b => b end, rest)
                | _, _ => None
                end
              else None
          | [] => None
          end
      end
  end.

(** [VAR_RE] *)
Definition var_match (l : list ascii) : option (list ascii * list ascii) :=
  match strip opening l with
  | None => None
  | Some r =>
      let '(key, r1) := span is_key_char (skip_ws r) in
      match key, strip closing (skip_ws r1) with
      | _ :: _, Some rest => Some (key, rest)
      | _, _ => None
      end
  end.

(** [text.replace(re, f)] for a global expression, from left to right; [f] gets
    the number of the match, the matched text and the group. *)
Fixpoint replace_loop (m : list ascii -> option (list ascii * list ascii))
    (f : nat -> list ascii -> list ascii -> list ascii) (fuel k : nat) (l : list ascii) : list ascii :=
  match fuel, l with
  | S n, c :: r =>
      match m l with
      | Some (g, rest) => f k (take (length l - length rest) l) g ++ replace_loop m f n (S k) rest
      | None => c :: replace_loop m f n k r
      end
  | _, _ => l
  end.

Definition replace_all m f (k : nat) (l : list ascii) : list ascii := replace_loop m f (length l) k l.

(** ** Values *)

Definition nonempty (l : list ascii) : bool := match l with [] => false | _ => true end.

Definition random_value (choose : nat -> nat -> nat) (k : nat) (body : list ascii) : list ascii :=
  let options := List.filter nonempty (map trim_chars (split_on "~" body)) in
  match options with
  | [] => []
  | _ => default [] (options !! choose k (length options))
  end.

Definition pad2 (n : Z) : list ascii := if n <? 10 then "0"%char :: dec n else dec n.

Definition weekday_name (n : Z) : string :=
  nth (Z.to_nat n) ["Sunday"; "Monday"; "Tuesday"; "Wednesday"; "Thursday"; "Friday"; "Saturday"]%string ""%string.

(** The properties that every plain object inherits, as text. *)
Definition native (nm : string) : string := ("function " ++ nm ++ "() { [native code] }")%string.
Definition object_prototype : list (string * string) := [
  ("constructor", native "Object"); ("__defineGetter__", native "__defineGetter__");
  ("__defineSetter__", native "__defineSetter__"); ("hasOwnProperty", native "hasOwnProperty");
  ("__lookupGetter__", native "__lookupGetter__"); ("__lookupSetter__", native "__lookupSetter__");
  ("isPrototypeOf", native "isPrototypeOf"); ("propertyIsEnumerable", native "propertyIsEnumerable");
  ("toString", native "toString"); ("valueOf", native "valueOf"); ("__proto__", "[object Object]");
  ("toLocaleString", native "toLocaleString")]%string.

(** [ctx.variables?.[key]] *)
Definition custom_variable (ctx : MacroContext) (key : string) : option string :=
  match variables ctx with
  | None => None
  | Some vars => match map_get key vars with
                 | Some v => Some v
                 | None => map_get key object_prototype
                 end
  end.

Definition date_of (t : LocalTime) : list ascii :=
  dec (year t) ++ chars "-" ++ pad2 (month t) ++ chars "-" ++ pad2 (day t).
Definition time_of (t : LocalTime) : list ascii := pad2 (hour t) ++ chars ":" ++ pad2 (minute t).

(** The built-in macros, by their name in lower case. *)
Definition builtin (ctx : MacroContext) (key : string) : option (list ascii) :=
  let t := now ctx in
  if (key =? "user")%string then Some (chars (userName ctx))
  else if (key =? "char")%string then Some (chars (charName ctx))
  else if (key =? "time")%string then Some (time_of t)
  else if (key =? "date")%string then Some (date_of t)
  else if (key =? "datetime")%string then Some (date_of t ++ chars " " ++ time_of t)
  else if (key =? "year")%string then Some (dec (year t))
  else if (key =? "month")%string then Some (pad2 (month t))
  else if (key =? "day")%string then Some (pad2 (day t))
  else if (key =? "hour")%string then Some (pad2 (hour t))
  else if (key =? "minute")%string then Some (pad2 (minute t))
  else if (key =? "weekday")%string then Some (chars (weekday_name (weekday t)))
  else if (key =? "isnight")%string then
    Some (chars (if (22 <=? hour t) || (hour t <? 6) then "true" else "false"))
  else None.

Definition var_value (ctx : MacroContext) (matched key : list ascii) : list ascii :=
  match builtin ctx (str (map to_lower key)) with
  | Some v => v
  | None => match custom_variable ctx (str key) with Some v => chars v | None => matched end
  end.

Definition replaceMacros (choose : nat -> nat -> nat) (ctx : MacroContext) (text : string) : string :=
  let withRandom := replace_all random_match (fun k _ body => random_value choose k body) 0 (chars text) in
  str (replace_all var_match (fun _ matched key => var_value ctx matched key) 0 withRandom).

(** [name?.trim() || fallback] *)
Definition name_or (nm : option string) (fallback : string) : string :=
  match nm with
  | Some s => if (trim s =? "")%string then fallback else trim s
  | None => fallback
  end.

Definition buildMacroContext (user char : option string) (vars : option (list (string * string))) (t : LocalTime)
    : MacroContext :=
  Ctx (name_or user "User") (name_or char "Assistant") vars t.

(** ** The replacement loop *)

Section Replace.
Context (m : list ascii -> option (list ascii * list ascii)) (f : nat -> list ascii -> list ascii -> list ascii).
Hypothesis m_shorter : forall l g rest, m l = Some (g, rest) -> (length rest < length l)%nat.

Lemma replace_fuel n k l : (length l <= n)%nat -> replace_loop m f n k l = replace_all m f k l.
Proof.
  unfold replace_all. intros Hn. assert (Hl : (length l <= length l)%nat) by lia. revert Hn Hl. generalize (length l) at 3 4. intros b.
  revert b k l. induction n as [|n IH]; intros b k l Hn Hl.
  { destruct l; [by destruct b | simpl in Hn; lia]. }
  destruct l as [|c r]; [by destruct b|]. destruct b as [|b]; [simpl in Hl; lia|]. cbn [replace_loop].
  destruct (m (c :: r)) as [[g rest]|] eqn:E.
  - apply m_shorter in E. simpl in *. f_equal. apply IH; lia.
  - simpl in *. f_equal. apply IH; lia.
Qed.

Lemma replace_char k c r : m (c :: r) = None -> replace_all m f k (c :: r) = c :: replace_all m f k r.
Proof. intros E. unfold replace_all at 1. cbn [length replace_loop]. by rewrite E. Qed.

Lemma replace_match k l g rest :
  m l = Some (g, rest) -> replace_all m f k l = f k (take (length l - length rest) l) g ++ replace_all m f (S k) rest.
Proof.
  intros E. pose proof (m_shorter _ _ _ E) as Hl. destruct l as [|c r]; [simpl in Hl; lia|].
  unfold replace_all at 1. cbn [length replace_loop]. rewrite E. f_equal. apply replace_fuel. simpl in Hl. lia.
Qed.
End Replace.

Lemma strip_Some p l r : strip p l = Some r <-> l = p ++ r.
Proof.
  revert l. induction p as [|a p IH]; intros l; simpl; [split; congruence|].
  destruct l as [|b l]; [done|]. destruct (Ascii.eqb_spec a b) as [->|Hne].
  - rewrite IH. split; [by intros -> | by intros [= ->]].
  - split; [done|]. by intros [= ?].
Qed.

Lemma strip_ci_length p l r : strip_ci p l = Some r -> length l = (length p + length r)%nat.
Proof.
  revert l. induction p as [|a p IH]; intros l; simpl; [by intros [= ->]|].
  destruct l as [|b l]; [done|]. case_match; [|done]. intros E. simpl. by rewrite (IH _ E).
Qed.

Lemma skip_ws_length l : (length (skip_ws l) <= length l)%nat.
Proof. unfold skip_ws. induction l as [|c l IH]; simpl; [lia|]. destruct (is_ws c); simpl; lia. Qed.

Lemma span_spec p l : let '(a, b) := span p l in
  l = a ++ b /\ forallb p a = true /\ match b with c :: _ => p c = false | [] => True end.
Proof.
  induction l as [|c l IH]; simpl; [done|]. destruct (p c) eqn:E; [|simpl; by rewrite E].
  destruct (span p l) as [a b]. destruct IH as (-> & Ha & Hb). simpl. by rewrite E.
Qed.

Lemma random_match_shorter l g rest : random_match l = Some (g, rest) -> (length rest < length l)%nat.
Proof.
  unfold random_match. destruct (strip opening l) as [r|] eqn:E1; [|done]. apply strip_Some in E1 as ->.
  destruct (strip_ci _ (skip_ws r)) as [r1|] eqn:E2; [|done]. apply strip_ci_length in E2.
  pose proof (skip_ws_length r) as H1. pose proof (skip_ws_length r1) as H2.
  destruct (skip_ws r1) as [|c r2]; [done|]. case_match; [|done].
  pose proof (span_spec not_brace r2) as H3. destruct (span not_brace r2) as [w r3]. destruct H3 as [-> _].
  destruct (strip closing r3) as [x|] eqn:E3; [|done]. apply strip_Some in E3 as ->.
  destruct (rev w); [done|]. intros [= _ <-]. simpl in *. rewrite !length_app in *. simpl in *. lia.
Qed.

Lemma var_match_shorter l g rest : var_match l = Some (g, rest) -> (length rest < length l)%nat.
Proof.
  unfold var_match. destruct (strip opening l) as [r|] eqn:E1; [|done]. apply strip_Some in E1 as ->.
  pose proof (skip_ws_length r) as H1. pose proof (span_spec is_key_char (skip_ws r)) as H3.
  destruct (span is_key_char (skip_ws r)) as [key r1]. destruct H3 as [H3 _]. rewrite H3, length_app in H1.
  pose proof (skip_ws_length r1) as H2. destruct key as [|k key]; [done|].
  destruct (strip closing (skip_ws r1)) as [x|] eqn:E3; [|done]. apply strip_Some in E3. rewrite E3 in H2.
  intros [= _ <-]. simpl in *. lia.
Qed.

(** ** Texts as segments *)

(** A text without an opening brace, a variable macro, and a random macro, each
    with its white space. *)
Inductive Segment :=
| SText (l : list ascii)
| SVar (ws1 key ws2 : list ascii)
| SRandom (ws1 word ws2 body : list ascii).

Definition not_open (c : ascii) : bool := negb (c =? "{")%char.

Definition seg_ok (s : Segment) : Prop :=
  match s with
  | SText l => forallb not_open l = true
  | SVar ws1 key ws2 => forallb is_ws ws1 = true /\ key <> [] /\ forallb is_key_char key = true /\ forallb is_ws ws2 = true
  | SRandom ws1 word ws2 body =>
      forallb is_ws ws1 = true /\ map to_lower word = chars "random" /\ forallb is_ws ws2 = true /\
      body <> [] /\ forallb (fun c => not_brace c && not_open c) body = true
  end.

Definition render (s : Segment) : list ascii :=
  match s with
  | SText l => l
  | SVar ws1 key ws2 => opening ++ ws1 ++ key ++ ws2 ++ closing
  | SRandom ws1 word ws2 body => opening ++ ws1 ++ word ++ ws2 ++ ":"%char :: body ++ closing
  end.

Definition render_all (l : list Segment) : list ascii := concat (map render l).

(** The text that the segments stand for; [k] random macros precede. *)
Fixpoint expand (choose : nat -> nat -> nat) (ctx : MacroContext) (k : nat) (l : list Segment) : list ascii :=
  match l with
  | [] => []
  | SText t :: r => t ++ expand choose ctx k r
  | SVar ws1 key ws2 :: r => var_value ctx (render (SVar ws1 key ws2)) key ++ expand choose ctx k r
  | SRandom _ _ _ body :: r => random_value choose k body ++ expand choose ctx (S k) r
  end.

(** The segments after the first pass. *)
Fixpoint chosen (choose : nat -> nat -> nat) (k : nat) (l : list Segment) : list Segment :=
  match l with
  | [] => []
  | SRandom _ _ _ body :: r => SText (random_value choose k body) :: chosen choose (S k) r
  | s :: r => s :: chosen choose k r
  end.

Ltac by_ascii c := destruct c as [[] [] [] [] [] [] [] []]; vm_compute; (done || (intros; discriminate)).

Lemma key_not_ws c : is_key_char c = true -> is_ws c = false.
Proof. by_ascii c. Qed.
Lemma key_not_open c : is_key_char c = true -> not_open c = true.
Proof. by_ascii c. Qed.
Lemma key_not_colon c : is_key_char c = true -> (c =? ":")%char = false.
Proof. by_ascii c. Qed.
Lemma ws_not_open c : is_ws c = true -> not_open c = true.
Proof. by_ascii c. Qed.
Lemma ws_not_key c : is_ws c = true -> is_key_char c = false.
Proof. by_ascii c. Qed.
Lemma ws_lower c : is_ws c = true -> to_lower c = c.
Proof. by_ascii c. Qed.
Lemma lower_r c : to_lower c = "r"%char -> is_ws c = false.
Proof. by_ascii c. Qed.

Lemma strip_app p r : strip p (p ++ r) = Some r.
Proof. by apply strip_Some. Qed.

Lemma strip_ci_app p w r : map to_lower w = p -> strip_ci p (w ++ r) = Some r.
Proof.
  revert p. induction w as [|c w IH]; intros p <-; simpl; [done|]. rewrite Ascii.eqb_refl. by apply IH.
Qed.

(** The first character, when there is one, fails [p]. *)
Definition head_not (p : ascii -> bool) (l : list ascii) : Prop := match l with c :: _ => p c = false | [] => True end.

Lemma skip_ws_app ws r : forallb is_ws ws = true -> head_not is_ws r -> skip_ws (ws ++ r) = r.
Proof.
  unfold skip_ws. induction ws as [|c ws IH]; simpl; intros Hw Hr.
  - destruct r as [|c r]; [done|]. simpl in *. by rewrite Hr.
  - bools. rewrite H. by apply IH.
Qed.

Lemma span_app p a r : forallb p a = true -> head_not p r -> span p (a ++ r) = (a, r).
Proof.
  induction a as [|c a IH]; simpl; intros Ha Hr.
  - destruct r as [|c r]; [done|]. simpl in *. by rewrite Hr.
  - bools. rewrite H, IH by done. done.
Qed.

Lemma head_key key r : key <> [] -> forallb is_key_char key = true -> head_not is_ws (key ++ r).
Proof. destruct key as [|c key]; [done|]. simpl. intros _ Hk. bools. by apply key_not_ws. Qed.

Lemma strip_not_open c r : not_open c = true -> strip opening (c :: r) = None.
Proof.
  unfold not_open. destruct (Ascii.eqb_spec c "{") as [->|Hne]; [done|]. intros _.
  change opening with ["{"; "{"]%char. cbn [strip]. by destruct (Ascii.eqb_spec "{" c) as [<-|].
Qed.

(** Both passes copy what has no opening brace. *)
Lemma replace_plain m f k l r :
  (forall l g rest, m l = Some (g, rest) -> (length rest < length l)%nat) ->
  (forall l, strip opening l = None -> m l = None) ->
  forallb not_open l = true -> replace_all m f k (l ++ r) = l ++ replace_all m f k r.
Proof.
  intros Hs Hm. induction l as [|c l IH]; intros Hl; [done|]. simpl in Hl. bools. cbn [app].
  rewrite replace_char; [by rewrite IH | apply Hm; by apply strip_not_open].
Qed.

Lemma random_needs_open l : strip opening l = None -> random_match l = None.
Proof. intros E. unfold random_match. by rewrite E. Qed.
Lemma var_needs_open l : strip opening l = None -> var_match l = None.
Proof. intros E. unfold var_match. by rewrite E. Qed.

Lemma var_match_seg ws1 key ws2 r :
  seg_ok (SVar ws1 key ws2) -> var_match (render (SVar ws1 key ws2) ++ r) = Some (key, r).
Proof.
  intros (H1 & Hne & Hk & H2). unfold var_match. cbn [render]. rewrite <- !app_assoc, strip_app.
  rewrite skip_ws_app; [|done|by apply head_key].
  rewrite span_app; [|done|].
  - rewrite skip_ws_app; [|done|done]. rewrite strip_app. by destruct key.
  - destruct ws2 as [|c ws2]; [done|]. simpl in *. bools. by apply ws_not_key.
Qed.

Lemma strip_ci_key p key x r1 :
  (forall c, c ∈ p -> is_lower c = true) -> (forall c, In c x -> is_ws c = true \/ c = "}"%char) -> x <> [] ->
  forall rest, forallb is_key_char key = true -> strip_ci p (key ++ x ++ rest) = Some r1 ->
  exists key', r1 = key' ++ x ++ rest /\ forallb is_key_char key' = true.
Proof.
  intros Hp Hx Hne rest. revert key. induction p as [|a p IH]; intros key Hk; cbn [strip_ci].
  - intros [= <-]. by exists key.
  - destruct key as [|c key].
    + destruct x as [|c x]; [done|]. cbn [app]. specialize (Hp a ltac:(left)). destruct (Hx c ltac:(by left)) as [Hc|Hc].
      * destruct (Ascii.eqb_spec a (to_lower c)) as [E|]; [|done]. rewrite ws_lower in E by done. subst a.
        exfalso. revert Hc Hp. by_ascii c.
      * subst c. destruct (Ascii.eqb_spec a (to_lower "}")) as [E|]; [|done]. exfalso. by subst a.
    + cbn [app]. simpl in Hk. bools. case_match; [|done]. apply IH; [|done]. intros y Hy. apply Hp. by right.
Qed.

Lemma random_match_var ws1 key ws2 r :
  seg_ok (SVar ws1 key ws2) -> random_match (render (SVar ws1 key ws2) ++ r) = None.
Proof.
  intros (H1 & Hne & Hk & H2). unfold random_match. cbn [render]. rewrite <- !app_assoc, strip_app.
  rewrite skip_ws_app; [|done|by apply head_key].
  destruct (strip_ci _ _) as [r1|] eqn:E; [|done].
  rewrite (app_assoc ws2) in E. apply strip_ci_key in E as (key' & -> & Hk'); [| | | |done].
  - destruct key' as [|c key'].
    + cbn [app]. rewrite <- app_assoc, skip_ws_app; [done|done|done].
    + simpl in Hk'. bools. unfold skip_ws. cbn [app drop_while]. rewrite key_not_ws by done.
      by rewrite key_not_colon.
  - intros c Hc. apply elem_of_In in Hc. simpl in Hc. by destruct Hc as [<-|[<-|[<-|[<-|[<-|[<-|[]]]]]]].
  - intros c [Hc|Hc]%in_app_iff; [left | right].
    + rewrite forallb_forall in H2. by apply H2.
    + simpl in Hc. by destruct Hc as [<-|[<-|[]]].
  - intros Hn. by apply app_eq_nil in Hn as [_ ?].
Qed.

Lemma drop_while_incl {A} (p : A -> bool) l x : In x (drop_while p l) -> In x l.
Proof. induction l as [|y l IH]; simpl; [done|]. destruct (p y); [auto | done]. Qed.

Lemma trim_chars_incl l x : In x (trim_chars l) -> In x l.
Proof. unfold trim_chars. intros Hx%in_rev%drop_while_incl%in_rev. by apply drop_while_incl in Hx. Qed.

Lemma split_on_incl sep l w x : In w (split_on sep l) -> In x w -> In x l.
Proof.
  revert w. induction l as [|c l IH]; intros w; simpl; [intros [<-|[]]; done|].
  case_match.
  - intros [<-|Hw] Hx; [done | right; by eapply IH].
  - destruct (split_on sep l) as [|w0 ws] eqn:E; [intros [<-|[]] [<-|[]]; by left|].
    intros [<-|Hw] Hx; [destruct Hx as [<-|Hx]; [by left|]|]; right; (eapply IH; [|exact Hx]); [by left | by right].
Qed.

Lemma random_value_incl choose k body x : In x (random_value choose k body) -> In x body.
Proof.
  unfold random_value. set (options := List.filter _ _).
  assert (Ho : forall o, In o options -> In x o -> In x body).
  { intros o Ho Hx. apply filter_In in Ho as [(w & <- & Hw)%in_map_iff _]. apply trim_chars_incl in Hx.
    by eapply split_on_incl. }
  destruct options as [|o os]; [done|]. intros Hx. destruct ((o :: os) !! _) as [v|] eqn:E; [|done].
  apply list_elem_of_lookup_2, elem_of_In in E. by apply (Ho v).
Qed.

Lemma random_value_plain choose k body :
  forallb (fun c => not_brace c && not_open c) body = true -> forallb not_open (random_value choose k body) = true.
Proof.
  rewrite !forallb_forall. intros Hb x Hx%random_value_incl. specialize (Hb x Hx). by bools.
Qed.

Lemma ws_not_tilde c : is_ws c = true -> (c =? "~")%char = false.
Proof. by_ascii c. Qed.

(** Leading white space of the alternatives does not matter. *)
Lemma split_trim_ws b : map trim_chars (split_on "~" (skip_ws b)) = map trim_chars (split_on "~" b).
Proof.
  unfold skip_ws. induction b as [|c b IH]; [done|]. cbn [drop_while]. destruct (is_ws c) eqn:E; [|done]. rewrite IH.
  cbn [split_on]. rewrite ws_not_tilde by done. destruct (split_on "~" b) as [|w ws] eqn:Es; [by apply split_on_nonnil in Es|].
  simpl. f_equal. unfold trim_chars. simpl. by rewrite E.
Qed.

Lemma random_value_ws choose k a b : skip_ws a = skip_ws b -> random_value choose k a = random_value choose k b.
Proof. intros E. unfold random_value. by rewrite <- (split_trim_ws a), E, split_trim_ws. Qed.

Lemma skip_ws_nil l : skip_ws l = [] -> forall x, In x l -> is_ws x = true.
Proof.
  unfold skip_ws. induction l as [|c l IH]; simpl; [done|]. destruct (is_ws c) eqn:E; [|done].
  intros Hl x [<-|Hx]; [done | by apply IH].
Qed.

Lemma skip_ws_idem l : skip_ws (skip_ws l) = skip_ws l.
Proof. unfold skip_ws. induction l as [|c l IH]; simpl; [done|]. destruct (is_ws c) eqn:E; [done|]. simpl. by rewrite E. Qed.

Lemma random_match_seg ws1 word ws2 body r :
  seg_ok (SRandom ws1 word ws2 body) ->
  exists g, random_match (render (SRandom ws1 word ws2 body) ++ r) = Some (g, r) /\
    forall choose k, random_value choose k g = random_value choose k body.
Proof.
  intros (H1 & Hw & H2 & Hne & Hb). unfold random_match. cbn [render].
  rewrite <- !app_assoc, strip_app. rewrite skip_ws_app; [|done|].
  - rewrite (strip_ci_app _ word) by done. rewrite skip_ws_app; [|done|done]. cbn [app].
    change (":" =? ":")%char with true. cbv iota. rewrite <- app_assoc, span_app; [|
      rewrite forallb_forall in Hb |- *; intros x Hx; specialize (Hb x Hx); by bools | done].
    rewrite strip_app. destruct (rev body) as [|z zs] eqn:Er.
    { apply (f_equal (@rev ascii)) in Er. rewrite rev_involutive in Er. by destruct body. }
    eexists. split; [done|]. intros choose k. apply random_value_ws.
    destruct (skip_ws body) as [|c b] eqn:Es; [|by rewrite <- Es, skip_ws_idem].
    apply (skip_ws_app [z] []); [|done]. simpl. rewrite andb_true_r. apply (skip_ws_nil _ Es).
    apply in_rev. rewrite Er. by left.
  - destruct word as [|c word]; [done|]. simpl. injection Hw as Hc _. by apply lower_r.
Qed.

Lemma length_seg_take (a r : list ascii) : take (length (a ++ r) - length r) (a ++ r) = a.
Proof. rewrite length_app. replace (length a + length r - length r)%nat with (length a) by lia. apply take_app_length. Qed.

Lemma tail_not_open ws1 key ws2 :
  seg_ok (SVar ws1 key ws2) -> exists t, render (SVar ws1 key ws2) = "{"%char :: "{"%char :: t /\
    forallb not_open t = true /\ t <> [].
Proof.
  intros (H1 & Hne & Hk & H2). exists (ws1 ++ key ++ ws2 ++ closing). split; [done|]. split.
  - rewrite !forallb_app, !andb_true_iff, !forallb_forall in *. split_and!.
    + intros x Hx. apply ws_not_open. by apply H1.
    + intros x Hx. apply key_not_open. by apply Hk.
    + intros x Hx. apply ws_not_open. by apply H2.
    + intros x Hx. simpl in Hx. by destruct Hx as [<-|[<-|[]]].
  - intros E. apply app_eq_nil in E as [_ E]. by apply app_eq_nil in E as [? _].
Qed.

Lemma first_pass choose k l :
  Forall seg_ok l ->
  replace_all random_match (fun k _ body => random_value choose k body) k (render_all l) = render_all (chosen choose k l) /\
  Forall seg_ok (chosen choose k l).
Proof.
  set (f := fun k _ body => random_value choose k body). intros Hl. revert k.
  induction Hl as [|s l Hs Hl IH]; intros k; [by split|]. unfold render_all in *. cbn [map concat].
  destruct s as [t|ws1 key ws2|ws1 word ws2 body]; cbn [chosen map concat].
  - destruct (IH k) as [E Hok]. split; [|by constructor]. cbn [render].
    rewrite replace_plain by (done || apply random_match_shorter || apply random_needs_open). by rewrite E.
  - destruct (IH k) as [E Hok]. split; [|by constructor].
    destruct (tail_not_open _ _ _ Hs) as (t & Et & Ht & Hne).
    pose proof (random_match_var ws1 key ws2 (concat (map render l)) Hs) as Hn. rewrite Et in Hn |- *. cbn [app] in *.
    rewrite replace_char by done. f_equal. rewrite replace_char.
    + f_equal. rewrite replace_plain by (done || apply random_match_shorter || apply random_needs_open). by rewrite E.
    + apply random_needs_open. destruct t as [|c t]; [done|]. simpl in Ht. bools.
      change opening with ["{"; "{"]%char. cbn [strip app]. rewrite Ascii.eqb_refl.
      destruct (Ascii.eqb_spec "{" c) as [<-|]; done.
  - destruct (IH (S k)) as [E Hok]. split.
    + destruct (random_match_seg ws1 word ws2 body (concat (map render l)) Hs) as (g & Hg & Hv).
      rewrite (replace_match _ _ random_match_shorter _ _ _ _ Hg), E. cbn [render]. by rewrite <- (Hv choose k).
    + constructor; [|done]. destruct Hs as (_ & _ & _ & _ & Hb). by apply random_value_plain.
Qed.

Lemma second_pass choose ctx k l :
  Forall seg_ok l ->
  replace_all var_match (fun _ matched key => var_value ctx matched key) 0 (render_all (chosen choose k l)) =
  expand choose ctx k l.
Proof.
  intros Hl. generalize 0%nat. revert k. set (f := fun _ matched key => var_value ctx matched key).
  induction Hl as [|s l Hs Hl IH]; intros k n; [done|]. unfold render_all in *.
  destruct s as [t|ws1 key ws2|ws1 word ws2 body]; cbn [chosen map concat expand].
  - cbn [render]. rewrite replace_plain by (done || apply var_match_shorter || apply var_needs_open). by rewrite IH.
  - rewrite (replace_match _ _ var_match_shorter _ _ _ _ (var_match_seg _ _ _ _ Hs)), length_seg_take, IH. done.
  - cbn [render]. destruct Hs as (_ & _ & _ & _ & Hb).
    rewrite replace_plain by (apply var_match_shorter || apply var_needs_open || by apply random_value_plain). by rewrite IH.
Qed.

(** ** Properties *)

Lemma replace_segments choose ctx l :
  Forall seg_ok l -> replaceMacros choose ctx (str (render_all l)) = str (expand choose ctx 0 l).
Proof.
  intros Hl. unfold replaceMacros. rewrite chars_str. destruct (first_pass choose 0 l Hl) as [-> _].
  by rewrite second_pass.
Qed.

(** A macro inside a random alternative. *)
Lemma nested_macro choose ctx :
  choose 0%nat 1%nat = 0%nat -> replaceMacros choose ctx "{{random:{{user}}~you}}" = "{{user~you}}"%string.
Proof.
  intros Hz. unfold replaceMacros.
  assert (E : replace_all random_match (fun k _ body => random_value choose k body) 0 (chars "{{random:{{user}}~you}}") =
    random_value choose 0 (chars "{{user") ++ chars "~you}}") by reflexivity.
  assert (Eo : List.filter nonempty (map trim_chars (split_on "~" (chars "{{user"))) = [chars "{{user"])
    by (vm_compute; reflexivity).
  rewrite E. unfold random_value. rewrite Eo. cbn [length]. rewrite Hz. reflexivity.
Qed.

(** A name that every object inherits. *)
Lemma inherited_name choose ctx :
  replaceMacros choose ctx "{{constructor}}" =
  match custom_variable ctx "constructor" with Some v => v | None => "{{constructor}}"%string end.
Proof.
  change (replaceMacros choose ctx "{{constructor}}") with
    (replaceMacros choose ctx (str (render_all [SVar [] (chars "constructor") []]))).
  rewrite replace_segments by (by repeat constructor). cbn [expand]. unfold var_value.
  change (builtin ctx _) with (@None (list ascii)). rewrite app_nil_r.
  change (str (chars "constructor")) with "constructor"%string.
  destruct (custom_variable ctx "constructor"); [apply str_chars | reflexivity].
Qed.

(** ** Properties *)

(** A text that is a sequence of plain text, variable macros and random
    macros (of alternatives without braces) becomes the sequence of their values,
    from left to right: plain text is kept, a built-in name gives its value in any
    case, another name gives the user's variable, an unknown one its own text, and
    a random macro gives one of its trimmed alternatives; what a macro produced is
    not expanded again.  Outside of such texts the contract at the top of the file
    fails twice: a macro inside a random alternative ends the random macro early
    and is destroyed, and a name that every object inherits is not left untouched
    once there is a table of variables. *)
Theorem replaceMacros_segments (choose : nat -> nat -> nat) (ctx : MacroContext) :
  (forall l, Forall seg_ok l -> replaceMacros choose ctx (str (render_all l)) = str (expand choose ctx 0 l)) /\
  (choose 0%nat 1%nat = 0%nat -> replaceMacros choose ctx "{{random:{{user}}~you}}" = "{{user~you}}"%string) /\
  (forall vars, variables ctx = Some vars -> map_get "constructor"%string vars = None ->
   replaceMacros choose ctx "{{constructor}}" = "function Object() { [native code] }"%string) /\
  (variables ctx = None -> replaceMacros choose ctx "{{constructor}}" = "{{constructor}}"%string).
Proof.
  split_and!.
  - apply replace_segments.
  - apply nested_macro.
  - intros vars Hv Hn. rewrite inherited_name. unfold custom_variable. by rewrite Hv, Hn.
  - intros Hv. rewrite inherited_name. unfold custom_variable. by rewrite Hv.
Qed.

(** ** The theorems at concrete inputs *)

Definition a_night : LocalTime := Time 2026 2 3 23 7 2.
Definition demo_ctx : MacroContext := Ctx "Ann" "Bo" (Some [("mood", "calm")]%string) a_night.

Definition demo_segments : list Segment := [
  SText (chars "It is "); SVar (chars " ") (chars "Time") []; SText (chars ", "); SVar [] (chars "char") (chars " ");
  SText (chars " is "); SVar [] (chars "mood") []; SText (chars " and "); SRandom [] (chars "Random") [] (chars " a ~b");
  SVar [] (chars "what-ever") []].

Lemma replaceMacros_segments_witness :
  replaceMacros (fun _ _ => 1%nat) demo_ctx (str (render_all demo_segments)) =
    "It is 23:07, Bo is calm and b{{what-ever}}"%string /\
  replaceMacros (fun _ _ => 0%nat) demo_ctx "{{random:{{user}}~you}}" = "{{user~you}}"%string /\
  replaceMacros (fun _ _ => 0%nat) demo_ctx "{{constructor}}" = "function Object() { [native code] }"%string.
Proof.
  split; [|split].
  - rewrite (proj1 (replaceMacros_segments (fun _ _ => 1%nat) demo_ctx) demo_segments); [vm_compute; reflexivity|].
    repeat constructor; discriminate.
  - exact (proj1 (proj2 (replaceMacros_segments (fun _ _ => 0%nat) demo_ctx)) eq_refl).
  - exact (proj1 (proj2 (proj2 (replaceMacros_segments (fun _ _ => 0%nat) demo_ctx))) _ eq_refl eq_refl).
Defined.

End Macros.
