(* ===== verification/PromptAssembly.v ===== *)
(** * Assembly of the prompt
    (apps/server/src/pipeline/promptPipeline.ts, [assemblePromptMessages], and
    packages/contracts/src/promptTemplate.ts)

    The host's sources (character, persona, lorebook, memory, history, input) are
    sorted into the blocks of the template, the blocks are prepared and put in
    order.  A [Draft] is one push into a bucket before its macros are replaced;
    [choose k] is the randomness of the k-th replacement.  The objects of the
    result are numbered in the order of the prepared blocks. *)

From Stdlib Require Import ZArith Lia Bool Ascii String List Permutation QArith_base.
From stdpp Require Import base decidable gmap strings list sorting.
From S2P Require Import Prelude Macros ContextShift ContextStrategy PromptPipeline.
Import ContextShift.
Local Open Scope Z_scope.

Module PromptAssembly.

(** ** Templates *)

Record PromptBlockSettings := Block {
  b_id : string;
  enabled : bool;
  b_name : option string;
  b_role : option MessageRole;
  b_content : option string;
  inChatPosition : bool;
  injectionDepth : option Z;
  injectionOrder : option Z;
  triggers : option (list string);
  b_model : option string;
  forbidOverrides : bool
}.

Inductive TemplateMode := ChatMode | TextMode.
#[global] Instance mode_eq : EqDecision TemplateMode.
Proof. solve_decision. Defined.

Record PromptTemplate := Template {
  mode : TemplateMode;
  blocks : list PromptBlockSettings;
  template_instructions : string
}.

Definition PromptBlockIds : list string := [
  "main-prompt"; "world-info-before"; "persona"; "character-description"; "character-personality"; "scenario";
  "world-info-after"; "dialogue-examples"; "memory"; "authors-note"; "chat-history";
  "post-history-instructions"]%string.

Definition TerminalPromptBlockIds : list string := ["chat-history"; "post-history-instructions"]%string.

Definition PromptTriggerIds : list string := ["normal"; "continue"; "impersonate"; "swipe"; "regenerate"; "quiet"]%string.

Definition plain_block (id : string) : PromptBlockSettings :=
  Block id true None None None false None None None None false.

Definition main_block : PromptBlockSettings :=
  Block "main-prompt" true None (Some System)
    (Some "Write {{char}}'s next reply in a fictional chat between {{char}} and {{user}}."%string)
    false None None (Some PromptTriggerIds) None false.

Definition DEFAULT_PROMPT_TEMPLATE : PromptTemplate :=
  Template ChatMode
    (map (fun id => if (id =? "main-prompt")%string then main_block else plain_block id) PromptBlockIds)
    "Keep the roleplay engaging. Drive the story forward proactively while staying in character."%string.

Definition isCorePromptBlockId (id : string) : bool := mem id PromptBlockIds.
Definition isTerminalPromptBlockId (id : string) : bool := mem id TerminalPromptBlockIds.

Definition hasRequiredPromptBlocks (bs : list PromptBlockSettings) : bool :=
  (length PromptBlockIds <=? length bs)%nat &&
  (length (remove_dups (map b_id bs)) =? length bs)%nat &&
  forallb (fun id => mem id (map b_id bs)) PromptBlockIds.

Definition find_block (id : string) (bs : list PromptBlockSettings) : option PromptBlockSettings :=
  find (fun b => (b_id b =? id)%string) bs.

Definition normalizePromptBlockOrder (bs : list PromptBlockSettings) : list PromptBlockSettings :=
  List.filter (fun b => negb (isTerminalPromptBlockId (b_id b))) bs ++
  concat (map (fun id => match find_block id bs with Some b => [b] | None => [] end) TerminalPromptBlockIds).

(** ** Input *)

Record Character := MkCharacter {
  c_name : string;
  systemPrompt : option string;
  c_description : string;
  personality : string;
  scenario : string;
  exampleDialogues : string;
  postHistoryInstructions : option string;
  ext : list (string * Value)
}.

Record Persona := MkPersona { p_name : string; p_description : string }.

Record Message := MkMessage {
  h_id : string;
  h_role : MessageRole;
  h_content : string;
  h_name : option string;
  meta : list (string * Value)
}.

Record ContextBlock := MkContextBlock {
  x_id : string;
  x_memory : bool;
  x_after : bool;
  x_content : string;
  x_required : bool;
  x_relevance : option Q
}.

Inductive PersonaPlacement := PlacePersona | NoteTop | NoteBottom | PlaceInChat.

Record AssemblyInput := MkInput {
  character : option Character;
  persona : option Persona;
  contextBlocks : list ContextBlock;
  history : list Message;
  userInput : option string;
  model : string;
  promptTemplate : option PromptTemplate;
  generationType : option string;
  personaPlacement : PersonaPlacement;
  variables : option (list (string * string));
  now : Macros.LocalTime
}.

Definition macros_of (i : AssemblyInput) : Macros.MacroContext :=
  Macros.Ctx (match persona i with Some p => p_name p | None => "User"%string end)
             (match character i with Some c => c_name c | None => "Assistant"%string end)
             (variables i) (now i).

(** The template in use, and the blocks in use. *)
Definition template_of (i : AssemblyInput) : PromptTemplate :=
  match promptTemplate i with
  | Some t => if hasRequiredPromptBlocks (blocks t)
              then Template (mode t) (normalizePromptBlockOrder (blocks t)) (template_instructions t)
              else DEFAULT_PROMPT_TEMPLATE
  | None => DEFAULT_PROMPT_TEMPLATE
  end.

Definition configuredBlocks (i : AssemblyInput) : list PromptBlockSettings :=
  match mode (template_of i) with
  | TextMode => blocks (template_of i)
  | ChatMode => blocks DEFAULT_PROMPT_TEMPLATE
  end.

(** ** Drafts *)

Record Draft := MkDraft {
  d_block : string;
  d_id : string;
  d_role : MessageRole;
  d_content : string;
  d_name : option string;
  d_pinned : bool;
  d_pair : option string;
  d_source : MessageSource;
  d_relevance : option Q;
  d_trim : bool
}.

Definition blank (s : string) : bool := (trim s =? "")%string.

(** [addSystemBlock] *)
Definition addSystemBlock (block id : string) (content : option string) : list Draft :=
  match content with
  | Some c => if blank c then [] else [MkDraft block id System c None true None SrcSystem None false]
  | None => []
  end.

Definition main_prompt (i : AssemblyInput) (c : Character) : option string :=
  let mainBlock := find_block "main-prompt" (configuredBlocks i) in
  let configured := match mainBlock with
                    | Some b => match b_content b with Some t => Some t | None => b_content main_block end
                    | None => b_content main_block
                    end in
  match systemPrompt c with
  | Some s => if negb (blank s) && negb (match mainBlock with Some b => forbidOverrides b | None => false end)
              then Some s else configured
  | None => configured
  end.

Definition character_drafts (i : AssemblyInput) : list Draft :=
  match character i with
  | None => []
  | Some c =>
      addSystemBlock "main-prompt" "core.main-prompt" (main_prompt i c) ++
      addSystemBlock "character-description" "core.character-description" (Some (c_description c)) ++
      addSystemBlock "character-personality" "core.character-personality" (Some (personality c)) ++
      addSystemBlock "scenario" "core.scenario" (Some (scenario c)) ++
      addSystemBlock "dialogue-examples" "core.dialogue-examples" (Some (exampleDialogues c))
  end.

Definition persona_text (i : AssemblyInput) : option string :=
  match persona i with
  | Some p => if blank (p_description p) then None
              else Some ("The user is " ++ Macros.userName (macros_of i) ++ ": " ++ p_description p)%string
  | None => None
  end.

Definition persona_drafts (i : AssemblyInput) : list Draft :=
  match persona_text i, personaPlacement i with
  | Some t, PlacePersona => addSystemBlock "persona" "core.persona" (Some t)
  | Some t, PlaceInChat => [MkDraft "chat-history" "core.persona-in-chat" System t None true None SrcSystem None false]
  | _, _ => []
  end.

Definition context_draft (b : ContextBlock) : Draft :=
  MkDraft (if x_memory b then "memory" else if x_after b then "world-info-after" else "world-info-before")%string
    (x_id b) System (x_content b) None (x_required b) None
    (if x_memory b then SrcMemory else SrcLorebook) (x_relevance b) true.

Definition readPairId (m : list (string * Value)) : option string :=
  let at_key k := match field k m with Some (VStr s) => if (s =? "")%string then None else Some s | _ => None end in
  match at_key "toolCallId"%string with
  | Some s => Some s
  | None => match at_key "tool_call_id"%string with Some s => Some s | None => at_key "callId"%string end
  end.

Definition is_true_value (v : option Value) : bool := match v with Some (VBool true) => true | _ => false end.

Definition history_draft (i : AssemblyInput) (m : Message) : Draft :=
  let current := match userInput i, last (history i) with
                 | None, Some l => (h_id m =? h_id l)%string && bool_decide (h_role m = User)
                 | _, _ => false
                 end in
  MkDraft "chat-history" (h_id m) (h_role m) (h_content m) (h_name m)
    (is_true_value (field "pinned" (meta m)) || current) (readPairId (meta m))
    (if current then SrcUser else SrcHistory) None false.

Definition input_drafts (i : AssemblyInput) : list Draft :=
  match userInput i with
  | Some t => if blank t then []
              else [MkDraft "chat-history" "core.current-user-input" User t None true None SrcUser None false]
  | None => []
  end.

Definition instruction_drafts (i : AssemblyInput) : list Draft :=
  addSystemBlock "post-history-instructions" "core.character-post-history-instructions"
    (match character i with Some c => postHistoryInstructions c | None => None end) ++
  match mode (template_of i) with
  | TextMode => addSystemBlock "post-history-instructions" "core.template-post-history-instructions"
                  (Some (template_instructions (template_of i)))
  | ChatMode => []
  end.

(** [ext[a] ?? ext[b] ?? ext[c]], when it is a string. *)
Definition authorNote (i : AssemblyInput) : string :=
  let get k := match character i with
               | Some c => match field k (ext c) with Some VNull => None | v => v end
               | None => None
               end in
  let v := match get "authors_note"%string with
           | Some v => Some v
           | None => match get "author_note"%string with Some v => Some v | None => get "authorsNote"%string end
           end in
  match v with Some (VStr s) => s | _ => ""%string end.

Definition nl : string := str [ascii_of_nat 10].

Definition note_drafts (i : AssemblyInput) : list Draft :=
  let note := authorNote i in
  let merged := match persona_text i, personaPlacement i with
                | Some t, NoteTop => trim (t ++ nl ++ note)
                | Some t, NoteBottom => trim (note ++ nl ++ t)
                | _, _ => note
                end in
  if (merged =? "")%string then [] else addSystemBlock "authors-note" "core.authors-note" (Some merged).

(** Every push, in the order of the code. *)
Definition drafts (i : AssemblyInput) : list Draft :=
  character_drafts i ++ persona_drafts i ++ map context_draft (contextBlocks i) ++
  map (history_draft i) (history i) ++ input_drafts i ++ instruction_drafts i ++ note_drafts i.

(** ** Buckets and blocks *)

Section Assemble.
Context (choose : nat -> nat -> nat -> nat) (i : AssemblyInput).

Definition expand_text (k : nat) (t : string) : string := Macros.replaceMacros (choose k) (macros_of i) t.

(** A push: a context block that is blank after expansion is skipped. *)
Definition push (k : nat) (d : Draft) : list (string * PromptMessage) :=
  let c := expand_text k (d_content d) in
  let c := if d_trim d then trim c else c in
  if d_trim d && (c =? "")%string then []
  else [(d_block d, Msg 0 (Some (d_id d)) (d_role d) c (d_name d) (d_pinned d) (d_pair d) (Some (d_source d)) (d_relevance d))].

Definition pushes : list (string * PromptMessage) := concat (imap push (drafts i)).

Definition bucket (id : string) : list PromptMessage :=
  map snd (List.filter (fun p => (p.1 =? id)%string) pushes).

Definition is_custom (id : string) : bool := starts_with (chars "custom-") (chars id).

Definition set_role (r : MessageRole) (m : PromptMessage) : PromptMessage :=
  Msg (mref m) (mid m) r (content m) (name m) (pinned m) (pairId m) (source m) (relevance m).

(** [preparePromptBlockMessages] *)
Definition preparePromptBlockMessages (k : nat) (b : PromptBlockSettings) (hostMessages : list PromptMessage)
    : list PromptMessage :=
  if is_custom (b_id b) then
    match b_content b with
    | Some c =>
        if blank c then []
        else [Msg 0 (Some ("template." ++ b_id b)%string) (default System (b_role b)) (expand_text k c) (b_name b)
                false None (Some SrcTemplate) None]
    | None => []
    end
  else if (b_id b =? "chat-history")%string || (b_id b =? "dialogue-examples")%string then hostMessages
  else match b_role b with
       | None => hostMessages
       | Some r => map (set_role r) hostMessages
       end.

Record Prepared := MkPrepared {
  block : PromptBlockSettings;
  configuredIndex : nat;
  messages : list PromptMessage;
  active : bool;
  modelMatches : bool;
  inChat : bool
}.

Definition prepare (index : nat) (b : PromptBlockSettings) : Prepared :=
  let host := if isCorePromptBlockId (b_id b) then bucket (b_id b) else [] in
  let triggerMatches := match triggers b with
                        | None | Some [] => true
                        | Some l => mem (default "normal"%string (generationType i)) l
                        end in
  let matches := match b_model b with
                 | None => true
                 | Some m => (m =? "")%string || (m =? model i)%string
                 end in
  MkPrepared b index (preparePromptBlockMessages (length (drafts i) + index) b host)
    (enabled b && triggerMatches && matches) matches
    (negb (b_id b =? "chat-history")%string && inChatPosition b).

Definition set_ref (n : nat) (m : PromptMessage) : PromptMessage :=
  Msg n (mid m) (role m) (content m) (name m) (pinned m) (pairId m) (source m) (relevance m).

(** Every message of every block is an object of its own. *)
Fixpoint number (n : nat) (l : list Prepared) : list Prepared :=
  match l with
  | [] => []
  | p :: r =>
      MkPrepared (block p) (configuredIndex p) (imap (fun j m => set_ref (n + j) m) (messages p))
        (active p) (modelMatches p) (inChat p) :: number (n + length (messages p)) r
  end.

Definition preparedBlocks : list Prepared := number 0 (imap prepare (configuredBlocks i)).

(** ** The result *)

Inductive ExclusionReason := ExNone | ExEmpty | ExDisabled | ExModelMismatch.

Record JournalItem := MkItem { j_block : string; j_message : PromptMessage; j_reason : ExclusionReason }.

Definition exclusionReasonForBlock (p : Prepared) : ExclusionReason :=
  if modelMatches p then ExDisabled else ExModelMismatch.

Definition placeholder (ref : nat) (p : Prepared) : PromptMessage :=
  Msg ref (Some ("block." ++ b_id (block p))%string) System "" None false None (Some SrcSystem) None.

Definition journal_of (ref : nat) (p : Prepared) : list JournalItem :=
  match messages p with
  | [] => [MkItem (b_id (block p)) (placeholder ref p) (if active p then ExEmpty else exclusionReasonForBlock p)]
  | ms => map (fun m => MkItem (b_id (block p)) m (if active p then ExNone else exclusionReasonForBlock p)) ms
  end.

Definition total_messages : nat := length (concat (map messages preparedBlocks)).

Definition journal : list JournalItem :=
  concat (imap (fun n p => journal_of (total_messages + n) p) preparedBlocks).

Definition injection_of (p : Prepared) : PromptPipeline.Injection :=
  PromptPipeline.Inj (injectionDepth (block p)) (injectionOrder (block p)) (Z.of_nat (configuredIndex p)) (messages p).

Definition inChatBlocks (ps : list Prepared) : list PromptPipeline.Injection :=
  map injection_of (List.filter (fun p => active p && inChat p) ps).

Definition place (injections : list PromptPipeline.Injection) (p : Prepared) : list PromptMessage :=
  if (b_id (block p) =? "chat-history")%string
  then PromptPipeline.mergeInChatPrompts (if active p then messages p else []) injections
  else if active p && negb (inChat p) then messages p else [].

Definition assemblePromptMessages : list PromptMessage :=
  concat (map (place (inChatBlocks preparedBlocks)) preparedBlocks).
End Assemble.

(** ** Templates: the blocks in use *)

Lemma remove_dups_nodup (l : list string) :
  (length (remove_dups l) <= length l)%nat /\ (length (remove_dups l) = length l -> NoDup l).
Proof.
  induction l as [|x l [IH1 IH2]]; simpl; [split; [lia | constructor]|].
  case_decide as E; simpl; (split; [lia|]); intros Hl; [lia|]. constructor; [done|]. apply IH2. lia.
Qed.

Lemma find_block_id id bs b : find_block id bs = Some b -> b ∈ bs /\ b_id b = id.
Proof.
  intros Hf. unfold find_block in Hf. apply find_some in Hf as [Hb He]. apply String.eqb_eq in He.
  split; [by apply elem_of_In | done].
Qed.

Lemma find_block_has id bs : id ∈ map b_id bs -> exists b, find_block id bs = Some b.
Proof.
  intros (b & <- & Hb)%elem_of_In%in_map_iff. destruct (find_block (b_id b) bs) as [b'|] eqn:E; [by exists b'|].
  pose proof (find_none _ _ E b Hb) as Hn. cbn beta in Hn. by rewrite String.eqb_refl in Hn.
Qed.

(** Every block once, the chat history among them. *)
Definition well_ordered (bs : list PromptBlockSettings) : Prop :=
  NoDup (map b_id bs) /\ "chat-history"%string ∈ map b_id bs.

Lemma normalize_ordered bs : hasRequiredPromptBlocks bs = true -> well_ordered (normalizePromptBlockOrder bs).
Proof.
  unfold hasRequiredPromptBlocks. intros [[_ Hlen]%andb_true_iff Hall]%andb_true_iff. apply Nat.eqb_eq in Hlen.
  destruct (remove_dups_nodup (map b_id bs)) as [_ Hnd]. rewrite length_map in Hnd. specialize (Hnd Hlen).
  rewrite forallb_forall in Hall.
  assert (Hhas : forall id, id ∈ PromptBlockIds -> exists b, find_block id bs = Some b).
  { intros id Hid. apply find_block_has, mem_elem, Hall. by apply elem_of_In. }
  destruct (Hhas "chat-history"%string ltac:(apply mem_elem; reflexivity)) as [b1 H1].
  destruct (Hhas "post-history-instructions"%string ltac:(apply mem_elem; reflexivity)) as [b2 H2].
  unfold well_ordered, normalizePromptBlockOrder. cbn [TerminalPromptBlockIds map concat]. rewrite H1, H2.
  apply find_block_id in H1 as [_ E1], H2 as [_ E2]. rewrite map_app. cbn [app map]. rewrite E1, E2. split.
  - apply NoDup_app. split_and!.
    + eapply sublist_NoDup; [exact Hnd|]. rewrite <- !list_fmap_map. apply fmap_sublist, filter_sublist.
    + intros id (b & <- & Hb)%elem_of_In%in_map_iff Hin. apply filter_In in Hb as [_ Hb].
      apply mem_elem in Hin. unfold isTerminalPromptBlockId in Hb. change TerminalPromptBlockIds with
        ["chat-history"; "post-history-instructions"]%string in Hb. by rewrite Hin in Hb.
    + apply (bool_decide_unpack _). vm_compute. exact I.
  - apply elem_of_app. right. left.
Qed.

Lemma configured_ordered i : well_ordered (configuredBlocks i).
Proof.
  assert (Hd : well_ordered (blocks DEFAULT_PROMPT_TEMPLATE)) by (split; apply (bool_decide_unpack _); vm_compute; exact I).
  unfold configuredBlocks, template_of. destruct (promptTemplate i) as [t|]; [|done].
  destruct (hasRequiredPromptBlocks (blocks t)) eqn:E; [|done]. cbn [mode blocks].
  destruct (mode t); [done | by apply normalize_ordered].
Qed.

(** ** Merging keeps every message *)

Lemma split_filter_perm {A B} (f : A -> list B) (p q : A -> bool) l :
  (forall x, p x = true -> q x = false) ->
  concat (map f (List.filter p l)) ++ concat (map f (List.filter q l)) ≡ₚ
  concat (map f (List.filter (fun x => p x || q x) l)).
Proof.
  intros Hd. induction l as [|x l IH]; simpl; [done|]. destruct (p x) eqn:Ep.
  - rewrite (Hd x Ep). simpl. by rewrite <- app_assoc, IH.
  - destruct (q x); simpl; [|done]. rewrite <- IH.
    by rewrite (app_assoc (concat _) (f x)), (Permutation_app_comm (concat _) (f x)), <- app_assoc.
Qed.

Fixpoint gather (bb : list (Z * list PromptPipeline.Insertion)) (i : Z) (n : nat) : list PromptMessage :=
  match n with
  | O => []
  | S k => map PromptPipeline.i_message (PromptPipeline.block_at bb i) ++ gather bb (i + 1) k
  end.

Lemma merge_from_gather bb i h :
  PromptPipeline.merge_from bb i h ≡ₚ h ++ gather bb i (S (length h)).
Proof.
  revert i. induction h as [|m h IH]; intros i; cbn [PromptPipeline.merge_from length]; [done|].
  change (gather bb i (S (S (length h)))) with
    (map PromptPipeline.i_message (PromptPipeline.block_at bb i) ++ gather bb (i + 1) (S (length h))).
  rewrite IH. cbn [app]. rewrite <- Permutation_middle. apply perm_skip.
  by rewrite !app_assoc, (Permutation_app_comm _ h).
Qed.

Lemma insertions_messages j : map PromptPipeline.i_message (PromptPipeline.insertions_of j) = PromptPipeline.injected j.
Proof. unfold PromptPipeline.insertions_of. rewrite map_map. apply map_id. Qed.

Lemma gather_perm len js i n :
  gather (fold_left (PromptPipeline.add_injection len) js []) i n ≡ₚ
  concat (map PromptPipeline.injected
    (List.filter (fun j => (i <=? PromptPipeline.boundary_of len j) && (PromptPipeline.boundary_of len j <? i + Z.of_nat n)) js)).
Proof.
  revert i. induction n as [|n IH]; intros i; cbn [gather].
  - rewrite Z.add_0_r. assert (E : List.filter (fun j => (i <=? PromptPipeline.boundary_of len j) &&
      (PromptPipeline.boundary_of len j <? i)) js = []).
    { induction js as [|j js IHj]; [done|]. cbn [List.filter]. destruct (Z.leb_spec i (PromptPipeline.boundary_of len j)),
        (Z.ltb_spec (PromptPipeline.boundary_of len j) i); (lia || done). }
    by rewrite E.
  - unfold PromptPipeline.block_at. rewrite IH. rewrite stable_sort_perm, PromptPipeline.byBoundary_get.
    assert (Hm : map PromptPipeline.i_message (concat (map PromptPipeline.insertions_of
       (List.filter (fun j => PromptPipeline.boundary_of len j =? i) js))) =
       concat (map PromptPipeline.injected (List.filter (fun j => PromptPipeline.boundary_of len j =? i) js))).
    { rewrite concat_map, map_map. f_equal. apply map_ext. apply insertions_messages. }
    rewrite Hm. rewrite split_filter_perm.
    + erewrite filter_ext; [reflexivity|]. intros j. cbn beta.
      destruct (Z.eqb_spec (PromptPipeline.boundary_of len j) i), (Z.leb_spec i (PromptPipeline.boundary_of len j)),
        (Z.leb_spec (i + 1) (PromptPipeline.boundary_of len j)), (Z.ltb_spec (PromptPipeline.boundary_of len j) (i + 1 + Z.of_nat n)),
        (Z.ltb_spec (PromptPipeline.boundary_of len j) (i + Z.of_nat (S n))); (done || lia).
    + intros j Hj. bools. subst i. rewrite (proj2 (Z.leb_gt _ _)) by lia. done.
Qed.

(** With depths from the end that are not negative, merging loses nothing. *)
Lemma merge_perm h js :
  (forall j, j ∈ js -> 0 <= default 4 (PromptPipeline.injectionDepth j)) ->
  PromptPipeline.mergeInChatPrompts h js ≡ₚ h ++ concat (map PromptPipeline.injected js).
Proof.
  intros Hd. unfold PromptPipeline.mergeInChatPrompts. rewrite merge_from_gather. apply Permutation_app_head.
  rewrite gather_perm. rewrite filter_all; [done|]. intros j Hj. specialize (Hd j Hj). apply andb_true_iff.
  unfold PromptPipeline.boundary_of. rewrite Z.leb_le, Z.ltb_lt. lia.
Qed.

Lemma merge_from_sublist bb i h : h `sublist_of` PromptPipeline.merge_from bb i h.
Proof.
  revert i. induction h as [|m h IH]; intros i; cbn [PromptPipeline.merge_from]; [apply sublist_nil_l|].
  apply sublist_inserts_l. by apply sublist_skip.
Qed.

(** ** The blocks *)

Definition p_id (p : Prepared) : string := b_id (block p).
Definition chat_id : string := "chat-history".

(** The messages that take part. *)
Definition active_messages (ps : list Prepared) : list PromptMessage :=
  concat (map messages (List.filter active ps)).

Lemma place_others injections ps :
  chat_id ∉ map p_id ps ->
  concat (map (place injections) ps) = concat (map messages (List.filter (fun p => active p && negb (inChat p)) ps)).
Proof.
  induction ps as [|p ps IH]; intros Hn; [done|]. cbn [map] in Hn. apply not_elem_of_cons in Hn as [Hp Hn].
  cbn [map concat List.filter]. rewrite IH by done. unfold place at 1. fold (p_id p).
  destruct (String.eqb_spec (p_id p) "chat-history") as [E|_]; [by symmetry in E|]. by destruct (active p && negb (inChat p)).
Qed.

Lemma place_perm ps :
  NoDup (map p_id ps) -> chat_id ∈ map p_id ps ->
  (forall p, p ∈ ps -> p_id p = chat_id -> inChat p = false) ->
  (forall p, p ∈ ps -> 0 <= default 4 (injectionDepth (block p))) ->
  concat (map (place (inChatBlocks ps)) ps) ≡ₚ active_messages ps /\
  (forall p, p ∈ ps -> p_id p = chat_id -> active p = true ->
     messages p `sublist_of` concat (map (place (inChatBlocks ps)) ps)).
Proof.
  intros Hnd Hin Hchat Hdepth. apply elem_of_In, in_map_iff in Hin as (h & Hh & Hin%elem_of_In).
  assert (Hinj : forall j, j ∈ inChatBlocks ps -> 0 <= default 4 (PromptPipeline.injectionDepth j)).
  { intros j (p & <- & Hp)%elem_of_In%in_map_iff. apply filter_In in Hp as [Hp _]. apply (Hdepth p). by apply elem_of_In. }
  assert (Hg : concat (map PromptPipeline.injected (inChatBlocks ps)) =
    concat (map messages (List.filter (fun p => active p && inChat p) ps))).
  { unfold inChatBlocks. by rewrite map_map. }
  set (inj := inChatBlocks ps) in *.
  assert (Hsplit : active_messages ps ≡ₚ concat (map messages (List.filter (fun p => active p && negb (inChat p)) ps)) ++
      concat (map messages (List.filter (fun p => active p && inChat p) ps))).
  { unfold active_messages. rewrite split_filter_perm by (intros p Hp; bools; by rewrite H0, andb_false_r).
    erewrite filter_ext; [reflexivity|]. intros p. cbn beta. by destruct (active p), (inChat p). }
  apply list_elem_of_split in Hin as (l1 & l2 & ->). rewrite map_app in Hnd. cbn [map] in Hnd.
  rewrite Hh in Hnd. apply NoDup_app in Hnd as (_ & Hd1 & [Hd2 _]%NoDup_cons).
  assert (Hn1 : chat_id ∉ map p_id l1) by (intros Hx; apply (Hd1 _ Hx); left).
  assert (Hplace : concat (map (place inj) (l1 ++ h :: l2)) =
    concat (map messages (List.filter (fun p => active p && negb (inChat p)) l1)) ++
    PromptPipeline.mergeInChatPrompts (if active h then messages h else []) inj ++
    concat (map messages (List.filter (fun p => active p && negb (inChat p)) l2))).
  { rewrite map_app, concat_app. cbn [map concat]. rewrite !place_others by done. unfold place at 1.
    fold (p_id h). by rewrite Hh. }
  rewrite Hplace. split.
  - rewrite (merge_perm _ inj Hinj), Hg, Hsplit. rewrite !List.filter_app, !map_app, !concat_app. cbn [List.filter].
    rewrite (Hchat h) by (done || apply elem_of_app; right; left). cbn [negb]. rewrite !andb_true_r, !andb_false_r.
    assert (Hm : concat (map messages (if active h then h :: List.filter (fun p => active p && negb (inChat p)) l2
        else List.filter (fun p => active p && negb (inChat p)) l2)) =
      (if active h then messages h else []) ++ concat (map messages (List.filter (fun p => active p && negb (inChat p)) l2)))
      by by destruct (active h).
    rewrite Hm. set (m := if active h then messages h else []).
    set (a := concat (map messages (List.filter (fun p => active p && negb (inChat p)) l1))).
    set (b := concat (map messages (List.filter (fun p => active p && negb (inChat p)) l2))).
    set (c := concat (map messages (List.filter (fun p => active p && inChat p) l1)) ++ _).
    rewrite <- !app_assoc. do 2 apply Permutation_app_head. apply Permutation_app_comm.
  - intros p Hp Hpid Hact.
    assert (p = h) as ->.
    { apply elem_of_app in Hp as [Hp|[->|Hp]%elem_of_cons]; [|done|].
      - exfalso. apply Hn1. rewrite <- Hpid. apply elem_of_In, in_map, elem_of_In, Hp.
      - exfalso. apply Hd2. rewrite <- Hpid. apply elem_of_In, in_map, elem_of_In, Hp. }
    rewrite Hact. apply sublist_inserts_l, sublist_inserts_r, merge_from_sublist.
Qed.

(** *** Numbering *)

Lemma number_refs n l :
  map mref (concat (map messages (number n l))) = List.seq n (length (concat (map messages (number n l)))).
Proof.
  revert n. induction l as [|p l IH]; intros n; [done|]. cbn [number map concat messages].
  rewrite map_app, length_app, List.seq_app, IH, length_imap. f_equal. clear IH.
  generalize (messages p). intros ms. revert n. induction ms as [|m ms IH]; intros n; [done|].
  rewrite imap_cons. cbn [map length List.seq]. f_equal; [simpl; lia|]. rewrite <- (IH (S n)).
  f_equal. apply imap_ext. intros j x _. simpl. f_equal. lia.
Qed.

Lemma number_block n l : map block (number n l) = map block l.
Proof. revert n. induction l as [|p l IH]; intros n; [done|]. cbn [number map]. by rewrite IH. Qed.

Lemma number_inv n l p : p ∈ number n l -> exists p0 k, p0 ∈ l /\
  p = MkPrepared (block p0) (configuredIndex p0) (imap (fun j m => set_ref (k + j) m) (messages p0))
        (active p0) (modelMatches p0) (inChat p0).
Proof.
  revert n. induction l as [|p0 l IH]; intros n; cbn [number]; [intros Hp; by apply not_elem_of_nil in Hp|].
  intros [->|Hp]%elem_of_cons.
  - exists p0, n. split; [left | done].
  - destruct (IH _ Hp) as (q & k & Hq & ->). exists q, k. split; [by right | done].
Qed.

Section Assembled.
Context (choose : nat -> nat -> nat -> nat) (i : AssemblyInput).

Lemma prepared_inv p :
  p ∈ preparedBlocks choose i -> exists index b k,
  configuredBlocks i !! index = Some b /\ block p = b /\
  messages p = imap (fun j m => set_ref (k + j) m) (messages (prepare choose i index b)) /\
  active p = active (prepare choose i index b) /\ inChat p = negb (b_id b =? "chat-history")%string && inChatPosition b.
Proof.
  unfold preparedBlocks. intros (p0 & k & Hp0 & ->)%number_inv. apply elem_of_lookup_imap in Hp0 as (index & b & -> & Hb).
  exists index, b, k. split_and!; done.
Qed.

Lemma prepared_blocks : map block (preparedBlocks choose i) = configuredBlocks i.
Proof.
  unfold preparedBlocks. rewrite number_block. apply list_eq. intros n. rewrite list_lookup_fmap, list_lookup_imap.
  by destruct (configuredBlocks i !! n).
Qed.

Lemma prepared_ids : map p_id (preparedBlocks choose i) = map b_id (configuredBlocks i).
Proof. rewrite <- prepared_blocks, map_map. done. Qed.

Lemma filter_concat_sublist {A B} (f : A -> list B) (p : A -> bool) l :
  concat (map f (List.filter p l)) `sublist_of` concat (map f l).
Proof.
  induction l as [|x l IH]; cbn [List.filter map concat]; [done|]. destruct (p x).
  - cbn [map concat]. by apply sublist_app.
  - by apply sublist_inserts_l.
Qed.

Lemma active_refs : NoDup (map mref (active_messages (preparedBlocks choose i))).
Proof.
  eapply sublist_NoDup; [|rewrite <- !list_fmap_map; apply fmap_sublist, (filter_concat_sublist messages active)].
  rewrite list_fmap_map. unfold preparedBlocks. rewrite number_refs. apply NoDup_ListNoDup, List.seq_NoDup.
Qed.

(** *** Buckets *)

Lemma push_ids (g : nat -> nat) (l : list Draft) (id : string) :
  (forall d, d ∈ l -> d_block d = id -> d_trim d = false) ->
  map mid (map snd (List.filter (fun p => (p.1 =? id)%string) (concat (imap (fun k d => push choose i (g k) d) l)))) =
  map (fun d => Some (d_id d)) (List.filter (fun d => (d_block d =? id)%string) l).
Proof.
  revert g. induction l as [|d l IH]; intros g Ht; [done|]. rewrite imap_cons. cbn [concat].
  rewrite List.filter_app, !map_app. cbn [List.filter].
  assert (E : imap ((fun k d => push choose i (g k) d) ∘ S) l = imap (fun k d => push choose i (g (S k)) d) l) by done.
  rewrite E, (IH (fun k => g (S k))) by (intros x Hx; apply Ht; by right). unfold push.
  destruct (String.eqb_spec (d_block d) id) as [Eb|Hne].
  - rewrite (Ht d) by (done || left). cbn [andb List.filter fst]. rewrite Eb, String.eqb_refl. done.
  - destruct (d_trim d && _); cbn [List.filter fst]; [done|].
    by rewrite (proj2 (String.eqb_neq _ _) Hne).
Qed.

Definition persona_in_chat : list Draft :=
  match persona_text i, personaPlacement i with
  | Some t, PlaceInChat => [MkDraft "chat-history" "core.persona-in-chat" System t None true None SrcSystem None false]
  | _, _ => []
  end.

Definition in_chat (d : Draft) : bool := (d_block d =? "chat-history")%string.

Lemma not_in_chat block id c : block <> "chat-history"%string -> List.filter in_chat (addSystemBlock block id c) = [].
Proof.
  intros Hne. unfold addSystemBlock. destruct c as [c|]; [|done]. destruct (blank c); [done|].
  unfold in_chat. cbn [List.filter d_block]. by rewrite (proj2 (String.eqb_neq _ _) Hne).
Qed.

Lemma all_in_chat l : (forall d, d ∈ l -> in_chat d = true) -> List.filter in_chat l = l.
Proof. apply filter_all. Qed.

(** What goes into the chat history, in order. *)
Lemma chat_drafts :
  List.filter in_chat (drafts i) = persona_in_chat ++ map (history_draft i) (history i) ++ input_drafts i.
Proof.
  unfold drafts. rewrite !List.filter_app.
  assert (H1 : List.filter in_chat (character_drafts i) = []).
  { unfold character_drafts. destruct (character i); [|done]. by rewrite !List.filter_app, !not_in_chat. }
  assert (H2 : List.filter in_chat (persona_drafts i) = persona_in_chat).
  { unfold persona_drafts, persona_in_chat. destruct (persona_text i), (personaPlacement i); try done.
    by rewrite not_in_chat. }
  assert (H3 : List.filter in_chat (map context_draft (contextBlocks i)) = []).
  { induction (contextBlocks i) as [|b l IH]; [done|]. cbn [map List.filter]. rewrite IH.
    unfold in_chat, context_draft. cbn [d_block]. by destruct (x_memory b), (x_after b). }
  assert (H4 : List.filter in_chat (map (history_draft i) (history i)) = map (history_draft i) (history i)).
  { apply all_in_chat. intros d (m & <- & _)%elem_of_In%in_map_iff. done. }
  assert (H5 : List.filter in_chat (input_drafts i) = input_drafts i).
  { unfold input_drafts. destruct (userInput i) as [t|]; [|done]. by destruct (blank t). }
  assert (H6 : List.filter in_chat (instruction_drafts i) = []).
  { unfold instruction_drafts. rewrite List.filter_app, not_in_chat by done. destruct (mode _); [done|]. by rewrite not_in_chat. }
  assert (H7 : List.filter in_chat (note_drafts i) = []).
  { unfold note_drafts. case_match; [done|]. by rewrite not_in_chat. }
  by rewrite H1, H2, H3, H4, H5, H6, H7, !app_nil_r.
Qed.

Lemma in_chat_no_trim d : d ∈ drafts i -> d_block d = "chat-history"%string -> d_trim d = false.
Proof.
  intros Hd Hb. assert (Hf : d ∈ List.filter in_chat (drafts i)).
  { apply elem_of_filter_bool. split; [done|]. unfold in_chat. by rewrite Hb. }
  rewrite chat_drafts in Hf. apply elem_of_app in Hf as [Hf|[Hf|Hf]%elem_of_app].
  - unfold persona_in_chat in Hf. destruct (persona_text i), (personaPlacement i);
      try by apply not_elem_of_nil in Hf. by apply list_elem_of_singleton in Hf as ->.
  - by apply elem_of_In, in_map_iff in Hf as (m & <- & _).
  - unfold input_drafts in Hf. destruct (userInput i) as [t|]; [|by apply not_elem_of_nil in Hf].
    destruct (blank t); [by apply not_elem_of_nil in Hf | by apply list_elem_of_singleton in Hf as ->].
Qed.

Lemma prepare_chat index b : b_id b = "chat-history"%string ->
  messages (prepare choose i index b) = bucket choose i "chat-history".
Proof. intros E. unfold prepare. cbn [messages]. unfold preparePromptBlockMessages. by rewrite E. Qed.

Lemma set_ref_ids k l : map mid (imap (fun j m => set_ref (k + j) m) l) = map mid l.
Proof.
  apply list_eq. intros n. rewrite !list_lookup_fmap, list_lookup_imap. by destruct (l !! n).
Qed.

(** The identifiers of the chat history block. *)
Definition chat_ids : list string :=
  match persona_text i, personaPlacement i with Some _, PlaceInChat => ["core.persona-in-chat"%string] | _, _ => [] end ++
  map h_id (history i) ++
  match userInput i with Some t => if blank t then [] else ["core.current-user-input"%string] | None => [] end.

Lemma chat_messages_ids p :
  p ∈ preparedBlocks choose i -> p_id p = chat_id -> map mid (messages p) = map Some chat_ids.
Proof.
  intros (index & b & k & _ & Hb & Hm & _)%prepared_inv Hid. unfold p_id in Hid. rewrite Hb in Hid.
  rewrite Hm, set_ref_ids, prepare_chat by done. unfold bucket, pushes.
  rewrite (push_ids (fun k => k)) by apply in_chat_no_trim.
  change (fun d => (d_block d =? "chat-history")%string) with in_chat. rewrite chat_drafts.
  unfold chat_ids, persona_in_chat, input_drafts. rewrite !map_app, !map_map.
  f_equal; [by destruct (persona_text i), (personaPlacement i)|]. f_equal.
  destruct (userInput i) as [t|]; [|done]. by destruct (blank t).
Qed.

(** *** The journal *)

Lemma elem_concat {A} (ls : list (list A)) x : x ∈ concat ls <-> exists l, x ∈ l /\ l ∈ ls.
Proof.
  rewrite elem_of_In, in_concat. split; intros (l & H1 & H2); exists l; split; by apply elem_of_In.
Qed.

Lemma elem_concat_imap {A B} (f : nat -> A -> list B) (l : list A) x :
  x ∈ concat (imap f l) <-> exists n a, l !! n = Some a /\ x ∈ f n a.
Proof.
  rewrite elem_concat. split.
  - intros (y & Hy & (n & a & -> & Ha)%elem_of_lookup_imap). eauto.
  - intros (n & a & Ha & Hx). exists (f n a). split; [done|]. apply elem_of_lookup_imap. eauto.
Qed.

Lemma journal_of_none ref p b m :
  MkItem b m ExNone ∈ journal_of ref p <-> active p = true /\ m ∈ messages p /\ b = p_id p.
Proof.
  unfold journal_of. destruct (messages p) as [|m0 ms] eqn:Em.
  - rewrite list_elem_of_singleton. split.
    + intros [= _ _ E]. unfold exclusionReasonForBlock in E. by destruct (active p), (modelMatches p).
    + intros (_ & Hm & _). by apply not_elem_of_nil in Hm.
  - rewrite <- Em. clear Em. rewrite elem_of_In, in_map_iff. split.
    + intros (x & [= <- <- E] & Hx%elem_of_In). split_and!; [|done|done].
      destruct (active p); [done|]. unfold exclusionReasonForBlock in E. by destruct (modelMatches p).
    + intros (Ha & Hm & ->). exists m. rewrite Ha. split; [done | by apply elem_of_In].
Qed.

Lemma journal_none m :
  (exists b, MkItem b m ExNone ∈ journal choose i) <-> m ∈ active_messages (preparedBlocks choose i).
Proof.
  unfold journal, active_messages. split.
  - intros (b & Hb). apply elem_concat_imap in Hb as (n & p & Hp & (Ha & Hm & _)%journal_of_none).
    apply elem_concat. exists (messages p). split; [done|]. apply elem_of_In, in_map, filter_In.
    split; [apply elem_of_In; by eapply list_elem_of_lookup_2 | done].
  - intros (l & Hm & (p & <- & (Hp%elem_of_In & Ha)%filter_In)%elem_of_In%in_map_iff)%elem_concat.
    apply list_elem_of_lookup in Hp as [n Hn]. exists (p_id p). apply elem_concat_imap. exists n, p.
    split; [done|]. by apply journal_of_none.
Qed.

(** *** Where a message comes from *)

Definition from_draft (p : Prepared) (m : PromptMessage) (k : nat) (d : Draft) : Prop :=
  d ∈ drafts i /\ mid m = Some (d_id d) /\ d_block d = p_id p /\
  content m = (let c := expand_text choose i k (d_content d) in if d_trim d then trim c else c) /\
  pinned m = d_pinned d /\ source m = Some (d_source d) /\ (p_id p = chat_id -> role m = d_role d).

Lemma bucket_elem id m : m ∈ bucket choose i id -> exists k d,
  d ∈ drafts i /\ d_block d = id /\
  m = Msg 0 (Some (d_id d)) (d_role d)
        (let c := expand_text choose i k (d_content d) in if d_trim d then trim c else c)
        (d_name d) (d_pinned d) (d_pair d) (Some (d_source d)) (d_relevance d).
Proof.
  unfold bucket, pushes. intros ([b m0] & <- & (Hin%elem_of_In & Hb)%filter_In)%elem_of_In%in_map_iff.
  apply elem_concat_imap in Hin as (k & d & Hd & Hin). apply list_elem_of_lookup_2 in Hd. unfold push in Hin.
  destruct (d_trim d && _); [by apply not_elem_of_nil in Hin|]. apply list_elem_of_singleton in Hin as [= -> ->].
  apply String.eqb_eq in Hb. exists k, d. split_and!; done.
Qed.

Lemma message_origin p m :
  p ∈ preparedBlocks choose i -> m ∈ messages p ->
  (exists k d, from_draft p m k d) \/ (exists b, mid m = Some ("template." ++ b)%string).
Proof.
  intros (index & b & n & _ & Hb & Hm & _)%prepared_inv Hin. rewrite Hm in Hin.
  apply elem_of_lookup_imap in Hin as (j & m0 & -> & Hm0). apply list_elem_of_lookup_2 in Hm0.
  unfold prepare in Hm0. cbn [messages] in Hm0. unfold from_draft, p_id. rewrite Hb.
  set (host := if isCorePromptBlockId (b_id b) then bucket choose i (b_id b) else []) in Hm0.
  assert (Hhost : forall m1, m1 ∈ host -> exists k d, d ∈ drafts i /\ d_block d = b_id b /\
    m1 = Msg 0 (Some (d_id d)) (d_role d)
      (let c := expand_text choose i k (d_content d) in if d_trim d then trim c else c)
      (d_name d) (d_pinned d) (d_pair d) (Some (d_source d)) (d_relevance d)).
  { intros m1 H1. unfold host in H1. destruct (isCorePromptBlockId (b_id b)); [|by apply not_elem_of_nil in H1].
    by apply bucket_elem. }
  unfold preparePromptBlockMessages in Hm0. destruct (is_custom (b_id b)).
  { right. destruct (b_content b) as [c|]; [|by apply not_elem_of_nil in Hm0].
    destruct (blank c); [by apply not_elem_of_nil in Hm0|]. apply list_elem_of_singleton in Hm0 as ->. by eexists. }
  left. destruct ((b_id b =? "chat-history")%string || _) eqn:E.
  - destruct (Hhost m0 Hm0) as (k & d & Hd & Hblk & ->). exists k, d. by split_and!.
  - destruct (b_role b) as [r|].
    + apply elem_of_In, in_map_iff in Hm0 as (m1 & <- & H1%elem_of_In).
      destruct (Hhost m1 H1) as (k & d & Hd & Hblk & ->). exists k, d. split_and!; try done.
      intros Hc. unfold chat_id in Hc. rewrite Hc in E. discriminate E.
    + destruct (Hhost m0 Hm0) as (k & d & Hd & Hblk & ->). exists k, d. by split_and!.
Qed.
End Assembled.

(** ** Properties *)

(** C13: the assembled prompt consists of the messages of the active
    blocks, each exactly once, as distinct objects; the active chat history keeps
    its order inside it, and it is the history with the current input after it
    (and an in-chat persona before it), nothing lost and nothing added.  The
    journal marks exactly these messages as not excluded. *)
Theorem assembly_complete (choose : nat -> nat -> nat -> nat) (i : AssemblyInput) :
  (forall b, b ∈ configuredBlocks i -> 0 <= default 4 (injectionDepth b)) ->
  let A := assemblePromptMessages choose i in
  let ps := preparedBlocks choose i in
  A ≡ₚ concat (map messages (List.filter active ps)) /\ NoDup (map mref A) /\
  (exists p, p ∈ ps /\ b_id (block p) = "chat-history"%string /\ map mid (messages p) = map Some (chat_ids i) /\
     (active p = true -> messages p `sublist_of` A)) /\
  (forall m, m ∈ A <-> exists b, MkItem b m ExNone ∈ journal choose i).
Proof.
  intros Hd A ps. destruct (configured_ordered i) as [Hnd Hin]. rewrite <- (prepared_ids choose) in Hnd, Hin.
  assert (Hdepth : forall p, p ∈ ps -> 0 <= default 4 (injectionDepth (block p))).
  { intros p (index & b & k & Hb & -> & _)%prepared_inv. apply Hd. by eapply list_elem_of_lookup_2. }
  assert (Hchat : forall p, p ∈ ps -> p_id p = chat_id -> inChat p = false).
  { intros p (index & b & k & _ & Hb & _ & _ & ->)%prepared_inv Hid. unfold p_id in Hid. rewrite Hb in Hid. by rewrite Hid. }
  destruct (place_perm ps Hnd Hin Hchat Hdepth) as [Hperm Hsub]. fold (active_messages ps).
  change (concat (map (place (inChatBlocks ps)) ps)) with A in *. split_and!.
  - exact Hperm.
  - rewrite Hperm. apply active_refs.
  - apply elem_of_In, in_map_iff in Hin as (p & Hp & Hin%elem_of_In). exists p. split_and!; [done|done| |].
    + by apply (chat_messages_ids choose).
    + by apply Hsub.
  - intros m. rewrite Hperm. symmetry. apply journal_none.
Qed.

Lemma current_input_draft i d :
  d ∈ drafts i -> d_id d = "core.current-user-input"%string ->
  (forall m, m ∈ history i -> h_id m <> "core.current-user-input"%string) ->
  (forall b, b ∈ contextBlocks i -> x_id b <> "core.current-user-input"%string) ->
  exists t, userInput i = Some t /\ d = MkDraft "chat-history" "core.current-user-input" User t None true None SrcUser None false.
Proof.
  assert (Hsys : forall block id c, d ∈ addSystemBlock block id c -> d_id d = id).
  { intros block id c. unfold addSystemBlock. destruct c as [c|]; [|intros H; by apply not_elem_of_nil in H].
    destruct (blank c); [intros H; by apply not_elem_of_nil in H|]. by intros ->%list_elem_of_singleton. }
  intros Hd Hid Hh Hx. unfold drafts in Hd. rewrite !elem_of_app in Hd.
  destruct Hd as [Hd|[Hd|[Hd|[Hd|[Hd|[Hd|Hd]]]]]].
  - exfalso. unfold character_drafts in Hd. destruct (character i); [|by apply not_elem_of_nil in Hd].
    rewrite !elem_of_app in Hd. by destruct Hd as [Hd|[Hd|[Hd|[Hd|Hd]]]]; apply Hsys in Hd; rewrite Hd in Hid.
  - exfalso. unfold persona_drafts in Hd. destruct (persona_text i), (personaPlacement i);
      try by apply not_elem_of_nil in Hd.
    + apply Hsys in Hd. by rewrite Hd in Hid.
    + apply list_elem_of_singleton in Hd. by subst d.
  - exfalso. apply elem_of_In, in_map_iff in Hd as (b & <- & Hb%elem_of_In). by apply (Hx b).
  - exfalso. apply elem_of_In, in_map_iff in Hd as (m & <- & Hm%elem_of_In). by apply (Hh m).
  - unfold input_drafts in Hd. destruct (userInput i) as [t|]; [|by apply not_elem_of_nil in Hd].
    destruct (blank t); [by apply not_elem_of_nil in Hd|]. apply list_elem_of_singleton in Hd as ->. by exists t.
  - exfalso. unfold instruction_drafts in Hd. apply elem_of_app in Hd as [Hd|Hd]; [apply Hsys in Hd; by rewrite Hd in Hid|].
    destruct (mode _); [by apply not_elem_of_nil in Hd|]. apply Hsys in Hd. by rewrite Hd in Hid.
  - exfalso. unfold note_drafts in Hd. case_match; [by apply not_elem_of_nil in Hd|]. apply Hsys in Hd. by rewrite Hd in Hid.
Qed.


(** ** The theorems at concrete inputs *)

(** A chat with two messages, a lorebook entry, a pinned persona in the chat and
    an input; a template of text mode with a prompt of the user one message deep. *)
Definition w_blocks : list PromptBlockSettings :=
  Block "custom-note" true (Some "note"%string) (Some User) (Some "Stay, {{char}}."%string) true (Some 1) None None None false
  :: map plain_block PromptBlockIds.

Definition w_assembly : AssemblyInput := MkInput
  (Some (MkCharacter "Bo" None "A bear." "" "" "" None []))
  (Some (MkPersona "Ann" "a hunter")) [MkContextBlock "lore-1" false false "Bears like {{user}}." false None]
  [MkMessage "m1" User "Hi" None []; MkMessage "m2" Assistant "Grr, {{user}}" None []]
  (Some "Run, {{char}}!"%string) "m" (Some (Template TextMode w_blocks "End."%string)) None PlaceInChat None
  (Macros.Time 2026 1 1 0 0 4).

Definition w_choose (_ _ _ : nat) : nat := 0%nat.

Lemma w_depths b : b ∈ configuredBlocks w_assembly -> 0 <= default 4 (injectionDepth b).
Proof.
  intros Hb. apply Z.leb_le. revert b Hb. apply Forall_forall. apply (bool_decide_unpack _). vm_compute. exact I.
Qed.

Lemma assembly_complete_witness :
  map content (assemblePromptMessages w_choose w_assembly) =
    ["Write Bo's next reply in a fictional chat between Bo and Ann."; "Bears like Ann."; "A bear.";
     "The user is Ann: a hunter"; "Hi"; "Grr, Ann"; "Stay, Bo."; "Run, Bo!"; "End."]%string /\
  NoDup (map mref (assemblePromptMessages w_choose w_assembly)).
Proof.
  split; [vm_compute; reflexivity|]. exact (proj1 (proj2 (assembly_complete w_choose w_assembly w_depths))).
Defined.

(** Two plugins: one answers with an empty prompt, one puts its own message under
    the identifier of the input. *)
Definition w_pipeline : PromptPipeline.PipelineInput :=
  PromptPipeline.Input strlen "chars" true (Some 400) (Some 10) None None
    [PromptPipeline.Interceptor "mute" None None (fun _ => Ok []);
     PromptPipeline.Interceptor "edit" None None
       (fun _ => Ok [Msg 90 (Some "core.current-user-input"%string) User "edited" None false None None None])]
    None (fun _ => false).

Lemma w_assembled_coherent :
  coherent (PromptPipeline.strategy_objects w_pipeline (assemblePromptMessages w_choose w_assembly)).
Proof.
  set (A := assemblePromptMessages w_choose w_assembly). intros a b Ha Hb E. unfold PromptPipeline.strategy_objects in Ha, Hb.
  assert (H : forall x, x ∈ A ++ kept (shiftContext strlen None A 390) -> x ∈ A).
  { intros x [Hx|Hx]%elem_of_app; [done|]. revert Hx. apply kept_elem. }
  apply (nodup_coherent A); [|by apply H|by apply H|done].
  apply (bool_decide_unpack _). vm_compute. exact I.
Qed.


End PromptAssembly.
