(* ===== verification/PromptAudit.v ===== *)
(** * The audit of a prompt
    (apps/server/src/pipeline/promptAudit.ts, [buildPromptAuditEntries])

    After a prompt is assembled and shrunk, the audit says of every message of the
    journal and of every message that plugins added whether it reached the prompt,
    and if not, why.  Messages are the objects of [ContextShift]. *)

From Stdlib Require Import ZArith Lia Bool Ascii String List QArith_base.
From stdpp Require Import base decidable list strings.
From S2P Require Import Prelude ContextShift PromptPipeline PromptAssembly.
Import ContextShift.
Local Open Scope Z_scope.

Module PromptAudit.

Inductive PromptContextExclusionReason := RNone | RDisabled | REmpty | RManual | RContextShift | RFinalBudget | RInterceptor | RModelMismatch.
#[export] Instance reason_eq : EqDecision PromptContextExclusionReason.
Proof. solve_decision. Defined.

(** The reasons of the journal. *)
Definition reason_of (r : PromptAssembly.ExclusionReason) : PromptContextExclusionReason :=
  match r with
  | PromptAssembly.ExNone => RNone
  | PromptAssembly.ExEmpty => REmpty
  | PromptAssembly.ExDisabled => RDisabled
  | PromptAssembly.ExModelMismatch => RModelMismatch
  end.

Record Classified := MkClassified {
  c_message : PromptMessage;
  c_name : option string;
  c_included : bool;
  c_reason : PromptContextExclusionReason
}.

Record PromptContextAuditEntry := MkEntry {
  identifier : string;
  e_name : option string;
  e_role : MessageRole;
  e_source : MessageSource;
  e_content : string;
  tokens : Z;
  included : bool;
  exclusionReason : PromptContextExclusionReason;
  order : Z
}.

(** ** Lookups *)

(** [new Map(...)] of the messages with an id: the last one of an id stays. *)
Definition byId (l : list PromptMessage) : list (string * PromptMessage) :=
  fold_left (fun acc m => match mid m with Some i => map_set i m acc | None => acc end) l [].

Definition id_in (l : list PromptMessage) (i : string) : bool := existsb (fun m => bool_decide (mid m = Some i)) l.
Definition has_id (l : list PromptMessage) (m : PromptMessage) : bool := match mid m with Some i => id_in l i | None => false end.

(** A condition on a string: present and not empty. *)
Definition truthy (s : option string) : option string := match s with Some x => if (x =? "")%string then None else Some x | None => None end.

(** The ids of the journal but those of the placeholders. *)
Definition is_assembled (journal : list PromptAssembly.JournalItem) (i : string) : bool :=
  existsb (fun it => bool_decide (mid (PromptAssembly.j_message it) = Some i) && negb (starts_with (chars "block.") (chars i))) journal.

Section Audit.
Context (initiallyExcluded afterInterceptors : list PromptMessage) (finalShift : ContextShiftResult)
  (manualExcludedIds : list string) (countTokens : TokenCounter).

Definition current (m : PromptMessage) : PromptMessage :=
  match truthy (mid m) with
  | Some i =>
      match map_get i (byId (kept finalShift)) with
      | Some x => x
      | None => match map_get i (byId afterInterceptors) with Some x => x | None => m end
      end
  | None => m
  end.

Definition classify_none (m : PromptMessage) : bool * PromptContextExclusionReason :=
  let cur := current m in
  if has_id initiallyExcluded m || has initiallyExcluded m then
    (false, match mid m with Some i => if bool_decide (i ∈ manualExcludedIds) then RManual else RContextShift | None => RContextShift end)
  else if has_id (excluded finalShift) m || has (excluded finalShift) cur then (false, RFinalBudget)
  else if has_id (kept finalShift) m || has (kept finalShift) cur then (true, RNone)
  else if match mid m with Some i => negb (id_in afterInterceptors i) | None => negb (has afterInterceptors m) end then (false, RInterceptor)
  else (false, RNone).

Definition classify_item (it : PromptAssembly.JournalItem) : Classified :=
  let m := PromptAssembly.j_message it in
  let '(inc, r) := match reason_of (PromptAssembly.j_reason it) with RNone => classify_none m | r => (false, r) end in
  MkClassified (current m) (Some (match name (current m) with Some n => n | None => PromptAssembly.j_block it end)) inc r.

Definition classify_added (m : PromptMessage) : Classified :=
  let inc := has_id (kept finalShift) m || has (kept finalShift) m in
  let out := has_id (excluded finalShift) m || has (excluded finalShift) m in
  MkClassified m (truthy (name m)) inc (if inc then RNone else if out then RFinalBudget else RInterceptor).

(** The messages after the interceptors that are not of the journal. *)
Definition added (journal : list PromptAssembly.JournalItem) : list PromptMessage :=
  List.filter (fun m => negb (match truthy (mid m) with Some i => is_assembled journal i | None => false end)) afterInterceptors.

Definition classified (journal : list PromptAssembly.JournalItem) : list Classified :=
  map classify_item journal ++ map classify_added (added journal).

Definition entry (n : nat) (c : Classified) : PromptContextAuditEntry :=
  let m := c_message c in
  MkEntry (match mid m with Some i => i | None => ("pipeline." ++ str (dec (Z.of_nat n)))%string end) (truthy (c_name c)) (role m)
    (match source m with Some s => s | None => SrcSystem end) (content m)
    (if (content m =? "")%string then 0 else countTokens (content m) + 4) (c_included c) (c_reason c) (Z.of_nat n).

Definition AUDIT_LIMIT : nat := 500.

Definition buildPromptAuditEntries (journal : list PromptAssembly.JournalItem) : list PromptContextAuditEntry :=
  imap entry (take AUDIT_LIMIT (classified journal)).

End Audit.

(** ** Lookups *)

Lemma byId_fold l acc i m :
  map_get i (fold_left (fun acc m => match mid m with Some j => map_set j m acc | None => acc end) l acc) = Some m ->
  (m ∈ l /\ mid m = Some i) \/ map_get i acc = Some m.
Proof.
  revert acc. induction l as [|x l IH]; intros acc H; cbn [fold_left] in H; [by right|].
  apply IH in H as [[Hm Hi]|H]; [left; split; [by right|done]|]. destruct (mid x) as [j|] eqn:Ej; [|by right].
  rewrite map_get_set in H. case_decide; [|by right]. injection H as <-. left. split; [left|congruence].
Qed.

Lemma byId_get l i m : map_get i (byId l) = Some m -> m ∈ l /\ mid m = Some i.
Proof. intros [H|H]%byId_fold; done. Qed.

Lemma id_in_spec l i : id_in l i = true <-> exists m, m ∈ l /\ mid m = Some i.
Proof.
  unfold id_in. rewrite existsb_exists. split.
  - intros (m & Hm & H). exists m. split; [by apply elem_of_In|by apply bool_decide_eq_true in H].
  - intros (m & Hm & H). exists m. split; [by apply elem_of_In|by apply bool_decide_eq_true].
Qed.

Lemma byId_total l i : id_in l i = true -> exists m, map_get i (byId l) = Some m.
Proof.
  unfold byId. assert (G : forall acc, id_in l i = true \/ is_Some (map_get i acc) ->
    is_Some (map_get i (fold_left (fun acc m => match mid m with Some j => map_set j m acc | None => acc end) l acc))).
  { induction l as [|x l IH]; intros acc H; cbn [fold_left]; [by destruct H|]. apply IH.
    destruct H as [H|H].
    - apply orb_true_iff in H as [H|H]; [|by left]. apply bool_decide_eq_true in H. right. rewrite H, map_get_set, decide_True by done. by eexists.
    - right. destruct (mid x); [|done]. rewrite map_get_set. by case_decide. }
  intros H. by destruct (G [] (or_introl H)) as [m Hm]; exists m.
Qed.

Lemma has_elem l m : m ∈ l -> has l m = true.
Proof. intros H. apply existsb_exists. exists m. split; [by apply elem_of_In|]. unfold same. apply Nat.eqb_refl. Qed.

Lemma has_id_elem l m : m ∈ l -> is_Some (mid m) -> has_id l m = true.
Proof. intros H [i Hi]. unfold has_id. rewrite Hi. apply id_in_spec. by exists m. Qed.


(** ** What the audit says *)

Section Theorems.
Context (initiallyExcluded afterInterceptors : list PromptMessage) (manualExcludedIds : list string) (countTokens : TokenCounter).
Context (f : ContextShiftResult).

Local Notation classified := (classified initiallyExcluded afterInterceptors f manualExcludedIds).
Local Notation audit := (buildPromptAuditEntries initiallyExcluded afterInterceptors f manualExcludedIds countTokens).

(** The final shift has put every message aside or kept it. *)
Definition parts : Prop := forall m, m ∈ afterInterceptors -> m ∈ kept f \/ m ∈ excluded f.

Lemma has_same l x m : x ∈ l -> same m x = true -> has l m = true.
Proof. intros H E. apply existsb_exists. exists x. split; [by apply elem_of_In|done]. Qed.

Lemma classify_none_total m :
  parts -> let '(inc, r) := classify_none initiallyExcluded afterInterceptors f manualExcludedIds m in inc = true <-> r = RNone.
Proof.
  intros P. unfold classify_none. destruct (has_id initiallyExcluded m || has initiallyExcluded m).
  { destruct (mid m) as [i|]; [destruct (bool_decide (i ∈ manualExcludedIds))|]; done. }
  destruct (has_id (excluded f) m || has (excluded f) _) eqn:Ex; [done|]. destruct (has_id (kept f) m || has (kept f) _) eqn:K; [done|].
  apply orb_false_iff in Ex as [Ex1 Ex2]. apply orb_false_iff in K as [K1 K2].
  destruct (match mid m with Some i => _ | None => _ end) eqn:E; [done|]. exfalso.
  destruct (mid m) as [i|] eqn:Ei; apply negb_false_iff in E.
  - apply id_in_spec in E as (x & Hx & Hi). unfold has_id in Ex1, K1. rewrite Ei in Ex1, K1.
    destruct (P x Hx) as [H|H].
    + rewrite (proj2 (id_in_spec (kept f) i)) in K1; [done|by exists x].
    + rewrite (proj2 (id_in_spec (excluded f) i)) in Ex1; [done|by exists x].
  - unfold current in Ex2, K2. rewrite Ei in Ex2, K2. cbn in Ex2, K2. apply existsb_exists in E as (x & Hx%elem_of_In & Hs).
    destruct (P x Hx) as [H|H]; [by rewrite (has_same _ x m) in K2|by rewrite (has_same _ x m) in Ex2].
Qed.

Lemma classified_total journal c : parts -> c ∈ classified journal -> c_included c = true <-> c_reason c = RNone.
Proof.
  intros P [H|H]%elem_of_app; apply elem_of_In, in_map_iff in H as (x & <- & _).
  - unfold classify_item. pose proof (classify_none_total (PromptAssembly.j_message x) P) as T.
    destruct (PromptAssembly.j_reason x); cbn [reason_of]; try done. by destruct (classify_none _ _ _ _ _).
  - unfold classify_added. cbn [c_included c_reason]. destruct (_ || _); [done|]. by destruct (_ || _).
Qed.

Lemma audit_lookup journal n e :
  audit journal !! n = Some e <-> exists c, (n < AUDIT_LIMIT)%nat /\ classified journal !! n = Some c /\ e = entry countTokens n c.
Proof.
  unfold buildPromptAuditEntries. rewrite list_lookup_imap. split.
  - destruct (take _ _ !! n) as [c|] eqn:E; [|done]. cbn. intros [= <-]. apply lookup_take_Some in E as [E Hn]. by exists c.
  - intros (c & Hn & E & ->). assert (H : take AUDIT_LIMIT (classified journal) !! n = Some c) by (by apply lookup_take_Some). by rewrite H.
Qed.

(** The entry of a message that plugins added. *)
Lemma added_entry journal m :
  m ∈ added afterInterceptors journal -> (length (classified journal) <= AUDIT_LIMIT)%nat ->
  exists n e, audit journal !! n = Some e /\ e = entry countTokens n (classify_added f m).
Proof.
  intros Hm L. apply list_elem_of_lookup_1 in Hm as [k Hk].
  assert (Hn : classified journal !! (length journal + k)%nat = Some (classify_added f m)).
  { unfold PromptAudit.classified. rewrite lookup_app_r; rewrite length_map; [|lia]. replace (length journal + k - length journal)%nat with k by lia.
    change (map (classify_added f)) with (fmap (M := list) (classify_added f)). by rewrite list_lookup_fmap, Hk. }
  exists (length journal + k)%nat. eexists. split; [|reflexivity]. apply audit_lookup. eexists. split_and!; [|done|done].
  apply lookup_lt_Some in Hn. lia.
Qed.

Lemma item_entry journal it :
  it ∈ journal -> (length (classified journal) <= AUDIT_LIMIT)%nat ->
  exists n e, audit journal !! n = Some e /\ e = entry countTokens n (classify_item initiallyExcluded afterInterceptors f manualExcludedIds it).
Proof.
  intros Hi L. apply list_elem_of_lookup_1 in Hi as [k Hk].
  assert (Hn : classified journal !! k = Some (classify_item initiallyExcluded afterInterceptors f manualExcludedIds it)).
  { unfold PromptAudit.classified. apply lookup_app_l_Some. change (map ?g journal) with (g <$> journal). by rewrite list_lookup_fmap, Hk. }
  exists k. eexists. split; [|reflexivity]. apply audit_lookup. eexists. split_and!; [|done|done]. apply lookup_lt_Some in Hn. lia.
Qed.

End Theorems.

(** The audit has one entry for every message of the journal and then one for every
    message that plugins added, up to its limit and numbered in this order; after
    the final shift an entry is included exactly if it has no reason for exclusion. *)
Theorem audit_explains initiallyExcluded w manual ct prio budget journal :
  coherent w ->
  let f := shiftContext ct prio w budget in
  let audit := buildPromptAuditEntries initiallyExcluded w f manual ct journal in
  length audit = Nat.min AUDIT_LIMIT (length journal + length (added w journal)) /\
  (forall n e, audit !! n = Some e -> order e = Z.of_nat n /\ (included e = true <-> exclusionReason e = RNone)) /\
  (forall n e it, audit !! n = Some e -> journal !! n = Some it -> PromptAssembly.j_reason it <> PromptAssembly.ExNone -> included e = false).
Proof.
  intros Hc f audit.
  assert (P : parts w f).
  { intros m Hm. destruct (has (excluded f) m) eqn:E.
    - right. apply existsb_exists in E as (x & Hx%elem_of_In & Hs). unfold same in Hs. apply Nat.eqb_eq in Hs.
      rewrite (Hc m x); [done|done| |done]. by eapply shift_excluded_elem.
    - left. apply kept_iff; [done|done|]. intros H. assert (has (excluded f) m = true) by (by apply has_elem). congruence. }
  split_and!.
  - unfold audit, buildPromptAuditEntries. rewrite length_imap, length_take. unfold classified. by rewrite length_app, !length_map.
  - intros n e (c & _ & Hl & ->)%audit_lookup. split; [done|]. cbn. eapply classified_total; [exact P|]. by apply list_elem_of_lookup_2 in Hl.
  - intros n e it (c & _ & Hl & ->)%audit_lookup Hj Hr. cbn. unfold classified in Hl.
    rewrite lookup_app_l in Hl by (rewrite length_map; by eapply lookup_lt_Some).
    change (map ?g journal) with (g <$> journal) in Hl. rewrite list_lookup_fmap, Hj in Hl. injection Hl as <-.
    unfold classify_item. by destruct (PromptAssembly.j_reason it).
Qed.

(** While the audit is within its limit, nothing that reached the prompt is missing:
    a kept message that is not of the journal has an included entry with its role
    and text; and one of the journal, if it was assembled and not excluded before,
    has an included entry that shows a kept message of its id. *)
Theorem audit_covers initiallyExcluded w manual ct f journal m :
  (length journal + length (added w journal) <= AUDIT_LIMIT)%nat -> m ∈ kept f -> m ∈ w ->
  let audit := buildPromptAuditEntries initiallyExcluded w f manual ct journal in
  (m ∈ added w journal ->
   exists n e, audit !! n = Some e /\ included e = true /\ e_content e = content m /\ e_role e = role m) /\
  (forall it i, it ∈ journal -> truthy (mid m) = Some i -> mid (PromptAssembly.j_message it) = Some i ->
     PromptAssembly.j_reason it = PromptAssembly.ExNone -> has_id initiallyExcluded m = false -> has initiallyExcluded (PromptAssembly.j_message it) = false ->
     has_id (excluded f) m = false -> (forall x, x ∈ kept f -> has (excluded f) x = false) ->
     exists n e x, audit !! n = Some e /\ included e = true /\ x ∈ kept f /\ mid x = Some i /\ e_content e = content x).
Proof.
  intros L Hk Hw audit. assert (L' : (length (classified initiallyExcluded w f manual journal) <= AUDIT_LIMIT)%nat) by (unfold classified; by rewrite length_app, !length_map).
  split.
  - intros Ha. destruct (added_entry initiallyExcluded w manual ct f journal m Ha L') as (n & e & E & ->). exists n. eexists. split; [exact E|].
    cbn. by rewrite (has_elem _ _ Hk), orb_true_r.
  - intros it i Hit Ht Hi Hr Hx1 Hx2 Hx3 Hx4. destruct (item_entry initiallyExcluded w manual ct f journal it Hit L') as (n & e & E & ->).
    assert (Hm : mid m = Some i) by (unfold truthy in Ht; destruct (mid m) as [j|]; [|done]; destruct (j =? "")%string; congruence).
    destruct (byId_total (kept f) i) as [x Hx]; [apply id_in_spec; by exists m|]. destruct (byId_get _ _ _ Hx) as [Hxk Hxi].
    assert (Cu : current w f (PromptAssembly.j_message it) = x).
    { unfold current. rewrite Hi, <- Hm, Ht. by rewrite Hx. }
    unfold has_id in Hx1, Hx3. rewrite Hm in Hx1, Hx3.
    exists n. eexists. exists x. split; [exact E|]. unfold classify_item, classify_none, has_id. rewrite Hr, Cu, Hi. cbn [reason_of].
    rewrite Hx1, Hx2, Hx3, (Hx4 x Hxk). cbn [orb]. rewrite (proj2 (id_in_spec (kept f) i)) by (by exists m). done.
Qed.

(** *** Witnesses and examples *)

Definition msg (ref : nat) (i : option string) (text : string) : PromptMessage := Msg ref i User text None false None (Some SrcHistory) None.
Definition item (m : PromptMessage) : PromptAssembly.JournalItem := PromptAssembly.MkItem "chat-history" m PromptAssembly.ExNone.
Definition characters (s : string) : Z := Z.of_nat (String.length s).

Lemma audit_explains_witness :
  coherent [msg 0 (Some "h1"%string) "hi"; msg 9 None "added"] /\
  length (buildPromptAuditEntries [] [msg 0 (Some "h1"%string) "hi"; msg 9 None "added"]
    (shiftContext characters None [msg 0 (Some "h1"%string) "hi"; msg 9 None "added"] 100) [] characters [item (msg 0 (Some "h1"%string) "hi")]) = 2%nat.
Proof.
  assert (C : coherent [msg 0 (Some "h1"%string) "hi"; msg 9 None "added"]).
  { intros a b. rewrite !elem_of_cons, !elem_of_nil. intros [-> |[-> |[]]] [-> |[-> |[]]]; cbn; congruence. }
  split; [exact C|].
  exact (proj1 (audit_explains [] [msg 0 (Some "h1"%string) "hi"; msg 9 None "added"] [] characters None 100 [item (msg 0 (Some "h1"%string) "hi")] C)).
Defined.

Lemma audit_covers_witness :
  let w := [msg 9 None "added"] in
  exists n e, buildPromptAuditEntries [] w (shiftContext characters None w 100) [] characters [] !! n = Some e /\ included e = true /\ e_content e = "added"%string.
Proof.
  destruct (proj1 (audit_covers [] [msg 9 None "added"] [] characters (shiftContext characters None [msg 9 None "added"] 100) [] (msg 9 None "added")
    ltac:(apply Nat.leb_le; reflexivity) ltac:(left) ltac:(left)) ltac:(left)) as (n & e & E & Inc & Co & _).
  exists n, e. by split_and!.
Defined.

Definition summary (e : PromptContextAuditEntry) : string * bool * PromptContextExclusionReason := (e_content e, included e, exclusionReason e).

(** A message that the first shift excluded and a plugin put back under its id is in the
    prompt; the audit says it is not. *)
Example resurrected_reported_excluded :
  let first := msg 0 (Some "h1"%string) "long history" in let back := msg 7 (Some "h1"%string) "summary" in
  let f := shiftContext characters None [back] 100 in
  kept f = [back] /\ map summary (buildPromptAuditEntries [first] [back] f [] characters [item first]) = [("summary"%string, false, RContextShift)].
Proof. vm_compute. done. Qed.

(** Two messages of one id: the last of them is shown for both. *)
Example same_id_shown_twice :
  let a := msg 0 (Some "x"%string) "one" in let b := msg 1 (Some "x"%string) "two" in
  map summary (buildPromptAuditEntries [] [a; b] (shiftContext characters None [a; b] 100) [] characters [item a; item b]) =
    [("two"%string, true, RNone); ("two"%string, true, RNone)].
Proof. vm_compute. done. Qed.

(** A long journal leaves no room for what plugins have added. *)
Example limit_hides_plugins :
  let h := map (fun k => msg k None "m") (seq 0 500) in let p := msg 900 None "injected" in
  let f := shiftContext characters None (p :: h) 5000 in
  has (kept f) p = true /\ existsb (fun e => (e_content e =? "injected")%string) (buildPromptAuditEntries [] (p :: h) f [] characters (map item h)) = false.
Proof. vm_compute. done. Qed.

End PromptAudit.
